(* ===== verification/_CoqProject ===== *)
-Q . S2P
Prelude.v
Scheduler.v
CityHash.v
Ndn.v
FibEntry.v
PitEntry.v
NameTreeEntry.v
Hashtable.v
NameTree.v
NameTreeIterator.v
Tables.v
Fib.v
Pit.v
Measurements.v
StrategyChoice.v
Cleanup.v
Cs.v
CsPolicies.v
DeadNonceList.v
Algorithm.v
FwState.v
Strategies.v
Forwarder.v
Management.v
FwInvariant.v
StrategySpecs.v
ForwarderSpecs.v
PipelineSpecs.v
ForwarderRun.v
ForwarderCorrect.v
Rib.v
FibUpdater.v
RibSpecs.v
RibAncestors.v
FibUpdaterSpecs.v
RibFib.v
RibSystem.v
RibCorrect.v
LpPacket.v
LpFragmenter.v
LpReassembler.v
LpRoundTrip.v
LinkState.v
LpReliability.v
LinkService.v
LinkSpecs.v
LinkMtu.v
LpWindow.v
LpRelSpecs.v
LpRelSteps.v
LinkRun.v
LinkCorrect.v
Transport.v
StreamTransport.v
StreamSpecs.v
TransportCorrect.v
Topsis.v
WsBase64.v
