(* ===== verification/Prelude.v ===== *)
(** * Verification of the NDN Forwarding Daemon

    This library models the forwarding daemon of this repository, NFD, and proves
    theorems about it.  The daemon receives Interest, Data and Nack packets on faces;
    the forwarder ([src/daemon/fw]) looks them up in its tables ([src/daemon/table])
    and sends packets on; strategies decide where Interests go; managers
    ([src/daemon/mgmt]) change the tables on command; and the RIB service
    ([src/daemon/rib]) collects routes and keeps the FIB up to date through such
    commands.  Below the forwarder a face ([src/daemon/face]) is a link service, which
    fragments, reassembles, acknowledges and retransmits packets, on top of a transport.

    ** How code becomes definitions

    - A pure function is a function.  A member function that changes state, fails an
      assertion or follows a pointer is a state transformer into [option] (the monad
      [M] below): [None] is a failed [BOOST_ASSERT], an exception that ends the
      process, an access through a null or dangling pointer, or the end of a function
      that returns a value without a return statement.  A theorem about such
      a function is a [wp], which includes that it does not fail.
    - Objects with identity live in finite maps from addresses; records are the data
      members of a class, and an iterator into a list is an index or a key.
    - Unsigned counters and bit operations are kept at their width where the code
      depends on it: the city hashes, the counter of capturing routes, [size_t]
      counters, sequence numbers.  Floats of the hashtable and of the retransmission back-off are exact
      binary fractions with the rounding of the code.
    - Timers are entries of a scheduler; a timer that runs is a separate event.
    - What is not in the repository is a parameter with its documented contract: the
      ndn-cxx names and packets ([NdnCxx], [NdnPacket] with their laws), [std::sort],
      [std::nth_element], the scheduler, hashed containers, random engines.  Each class
      has an instance that satisfies the laws, which the witnesses use.

    ** The files

    Foundations: [Prelude] (this file: the monad, its rules and tactics, lists and
    finite maps), [Scheduler], [CityHash] ([common/city-hash.cpp]), [Ndn] (the ndn-cxx
    interface).

    Tables: [FibEntry], [PitEntry], [NameTreeEntry] (the entries), [Hashtable]
    ([name-tree-hashtable.cpp] with its buckets, chains and resizing), [NameTree],
    [NameTreeIterator] ([name-tree.cpp], [name-tree-iterator.cpp]), [Tables] (the state
    the tables share), [Fib], [Pit], [Measurements], [StrategyChoice], [Cleanup], [Cs],
    [CsPolicies], [DeadNonceList] (the files of those names under [src/daemon/table]).

    Forwarding: [Algorithm] ([algorithm.cpp], [retx-suppression-*.cpp],
    [scope-prefix.cpp]), [FwState] (the state of the forwarder, the outgoing pipelines,
    [strategy.cpp], [face-table.cpp]), [Strategies] (best-route, multicast, random,
    Nack processing), [Forwarder] ([forwarder.cpp]), [Management] (the managers of the
    FIB, the Content Store, the strategy choice and the status).  Their proofs are in
    [FwInvariant], [StrategySpecs], [ForwarderSpecs], [PipelineSpecs], [ForwarderRun]
    and [ForwarderCorrect].

    Routing: [Rib] ([route.cpp], [rib-entry.cpp], [rib.cpp]), [FibUpdater]
    ([fib-updater.cpp] and the queue of [rib.cpp]).  Their proofs are in [RibSpecs],
    [RibAncestors], [FibUpdaterSpecs], [RibFib], [RibSystem] and [RibCorrect].

    Faces: [LpPacket] (the NDNLPv2 packets of ndn-cxx as a class), [LpFragmenter],
    [LpReassembler], [LpReliability] (the files of those names), [LinkState] and
    [LinkService] ([link-service.cpp], [generic-link-service.cpp]); proofs in
    [LpRoundTrip], [LinkSpecs], [LinkMtu], [LpWindow], [LpRelSpecs], [LpRelSteps],
    [LinkRun] and [LinkCorrect].  [Transport] ([transport.cpp]) and [StreamTransport]
    ([stream-transport.hpp], [unix-stream-transport.cpp], [tcp-transport.cpp]); proofs
    in [StreamSpecs] and [TransportCorrect].

    On their own: [Topsis] ([fw/topsis.cpp]), [WsBase64] (the Base64 of the bundled
    WebSocket library), each with its theorems.

    ** What the theorems show

    - The forwarder ([ForwarderCorrect]): in every state reached by allowed events,
      every allowed event ([ForwarderRun.allowed]) is handled without a failed assertion
      or invalid access.  Two ordinary events are not allowed, because the code does not
      survive them, which has theorems of its own: an Interest that the Content Store
      answers, and the removal of the last nexthop of a prefix whose name tree entry
      holds nothing else.  Data goes to the right downstreams exactly once, but with the
      PIT token it came with; loops are cut; Interests go to the cheapest allowed
      nexthop; pending Interests expire; scope control holds over whole runs; the
      strategies and the Nack processing decide as documented; management commands do
      what they answer.
    - The tables: the hashtable refines a finite map; the name tree creates and erases
      exactly the right entries; prefix matches from names, entries and PIT entries
      agree; enumerations visit every entry once; FIB, PIT, Measurements, Strategy
      Choice and Content Store operations change their table as specified and nothing
      else; the replacement policies evict in the right order; a dead nonce is
      remembered; removing a face removes it from every table.
    - The RIB ([RibCorrect]): the tree stays well formed in any run; inserted, erased
      and inherited routes are the right ones; within the limits of [RibSystem.enabled]
      (inherited routes that do not capture, of one origin per face; no face that goes
      down under a queued update; no lost response but to an AddNextHop command with
      retries left) the FIB has the nexthops of the RIB whenever no command is
      outstanding, every update completes, and every request is answered once.  The cost
      of a nexthop is covered for a name's own routes only.  Examples show where, with
      other routes or in the inherited costs, the FIB does not follow the RIB.
    - The link service ([LinkCorrect]): a packet sent over a link service without
      reliability and congestion marking is delivered by the one at the other end, with
      the tags that its decoder reads; with reliability, in any run the window of unacknowledged fragments is
      consistent and no assertion fails; acknowledgements and timeouts do what they
      should; acknowledgements fit into the MTU.
    - Stream transports ([TransportCorrect]): in any run in which cancelled operations
      complete as cancelled no assertion fails and no state transition is invalid, and
      packets are written in order; an octet stream is delivered packet by packet
      however it is cut.
    - [Topsis]: the ideal values are attained extrema of their columns, and the two
      ideals are dual.  [WsBase64]: decoding inverts encoding.
    - Some theorems prove defects, each for every state that meets its conditions: the
      undefined behaviour of an answer from the Content Store, an assertion that fails
      after a route has been removed, a null dereference when the cost of a route is
      raised, a lost removal of a nexthop that is repeated as an addition, packets that outgrow
      the MTU, a loop that does not end with a tiny MTU, operations of a transport that
      complete after they were cancelled.  Examples show others: nexthops that the RIB
      loses, marked packets that outgrow the MTU, ranks that are not numbers.

    ** Fuel

    Recursion that is not structural takes fuel, and the theorems show that what the
    functions are given is enough: the depth limit of the name tree for climbing, the
    number of nodes of a bucket for walking a chain, the number of entries for the
    enumerations, the size of the heap for the ancestors and the subtree of a RIB
    entry, the length of the queue for starting batches, the length of the buffer for
    the packets in it.  The loop of the idle-Ack timer is shown to end when the MTU
    leaves room for an acknowledgement, and not to end otherwise.

    ** Not modelled

    - The object that joins a link service and a transport ([face.cpp]): the forwarder
      sees a face as its identifier, scope, link type and counters.
    - Datagram, Ethernet, WebSocket, internal and null transports, channels and
      protocol factories.
    - The access, ASF and self-learning strategies.
    - Command decoding, authentication and the other managers; configuration files.
    - Files that are ill-formed C++ and so have no behaviour: [smdp-strategy.cpp],
      [amif-strategy.cpp], [amiftest-strategy.cpp], [lamdp-strategy.cpp],
      [lamdptest-strategy.cpp], [soltani-strategy.cpp], [cs-policy-soltani.cpp] and
      [cs-manager.cpp] from [createClustring] on.
    - [rfa-strategy.cpp] and [saf-sterategy.cpp], written for an older interface of
      strategies and a simulator whose headers are not in the repository.
    - The bundled WebSocket library but its Base64, the tools, and process start-up.
    - Logging, counters of faces, and signals for observers. *)

From Stdlib Require Import ZArith Lia.
From stdpp Require Import base gmap fin_maps sorting list.

Declare Scope nfd_scope.
Delimit Scope nfd_scope with nfd.

(** ** Addresses

    Objects with identity (name tree nodes, PIT entries, faces) live in finite
    maps from addresses; a C++ pointer is an [option ptr], [None] being
    [nullptr]. *)
Abbreviation ptr := positive.

(** ** The effect of a C++ member function

    A member function that may fail an assertion or dereference a null or
    dangling pointer is a state transformer into [option]: [None] stands for the
    failed [BOOST_ASSERT] or the invalid access. *)
Definition M (S A : Type) : Type := S → option (S * A).

#[export] Instance M_ret S : MRet (M S) := λ A a s, Some (s, a).
#[export] Instance M_bind S : MBind (M S) := λ A B f m s,
  match m s with
  | Some (s', a) => f a s'
  | None => None
  end.

Definition get_st {S} : M S S := λ s, Some (s, s).
Definition put_st {S} (s' : S) : M S unit := λ _, Some (s', tt).
Definition modify {S} (f : S → S) : M S unit := λ s, Some (f s, tt).
Definition gets {S A} (f : S → A) : M S A := λ s, Some (s, f s).

(** [BOOST_ASSERT(b)]. *)
Definition assertM {S} (b : bool) : M S unit := λ s, if b then Some (s, tt) else None.

(** A value that has to be there, such as the object behind a pointer. *)
Definition someM {S A} (o : option A) : M S A := λ s, option_map (λ a, (s, a)) o.

(** [for (x : l) f(x);] *)
Fixpoint forM {S A} (l : list A) (f : A → M S unit) : M S unit :=
  match l with
  | [] => mret tt
  | x :: l' => f x;; forM l' f
  end.

(** A component's function run on the part of a larger state it belongs to. *)
Definition lift {S T A} (proj : S → T) (inj : T → S → S) (m : M T A) : M S A := λ s,
  match m (proj s) with
  | Some (t, a) => Some (inj t s, a)
  | None => None
  end.

(** ** Total correctness

    [wp m Q s]: started in [s], [m] runs without a failed assertion or an
    invalid access, and its result and final state satisfy [Q]. *)
Definition wp {S A} (m : M S A) (Q : A → S → Prop) (s : S) : Prop :=
  match m s with
  | Some (s', a) => Q a s'
  | None => False
  end.

Create HintDb nfd discriminated.

Section WP.
Context {S : Type}.
Implicit Types (s : S).

Lemma wp_ret {A} (a : A) Q s : wp (mret a) Q s ↔ Q a s.
Proof. done. Qed.

Lemma wp_bind {A B} (m : M S A) (f : A → M S B) Q s :
  wp (m ≫= f) Q s ↔ wp m (λ a s', wp (f a) Q s') s.
Proof. unfold wp, mbind, M_bind. by destruct (m s) as [[s' a]|]. Qed.

Lemma wp_get_st (Q : S → S → Prop) s : wp get_st Q s ↔ Q s s.
Proof. done. Qed.

Lemma wp_put_st (s' : S) (Q : unit → S → Prop) s : wp (put_st s') Q s ↔ Q tt s'.
Proof. done. Qed.

Lemma wp_modify (f : S → S) (Q : unit → S → Prop) s : wp (modify f) Q s ↔ Q tt (f s).
Proof. done. Qed.

Lemma wp_gets {A} (f : S → A) (Q : A → S → Prop) s : wp (gets f) Q s ↔ Q (f s) s.
Proof. done. Qed.

Lemma wp_assertM b (Q : unit → S → Prop) s : wp (assertM b) Q s ↔ b = true ∧ Q tt s.
Proof. unfold wp, assertM. destruct b; naive_solver. Qed.

Lemma wp_someM {A} (o : option A) (Q : A → S → Prop) s :
  wp (someM o) Q s ↔ ∃ a, o = Some a ∧ Q a s.
Proof. unfold wp, someM. destruct o; naive_solver. Qed.

Lemma wp_lift {T A} (proj : S → T) (inj : T → S → S) (m : M T A) Q s :
  wp (lift proj inj m) Q s ↔ wp m (λ a t, Q a (inj t s)) (proj s).
Proof. unfold wp, lift. by destruct (m (proj s)) as [[t a]|]. Qed.

Lemma wp_mono {A} (m : M S A) (Q Q' : A → S → Prop) s :
  wp m Q s → (∀ a s', Q a s' → Q' a s') → wp m Q' s.
Proof. unfold wp. destruct (m s) as [[s' a]|]; eauto. Qed.

Lemma wp_and {A} (m : M S A) (Q Q' : A → S → Prop) s : wp m Q s → wp m Q' s → wp m (λ a s', Q a s' ∧ Q' a s') s.
Proof. unfold wp. by destruct (m s) as [[s' a]|]. Qed.

(** Any property of the outcome, failure included, after commands that succeed. *)
Lemma outcome_bind {A B} (m : M S A) (f : A → M S B) (R : option (S * B) → Prop) s :
  wp m (λ a s', R (f a s')) s → R ((m ≫= f) s).
Proof. unfold wp, mbind, M_bind. by destruct (m s) as [[s' a]|]. Qed.

Lemma wp_elim {A} (m : M S A) (Q : A → S → Prop) s :
  wp m Q s → ∃ s' a, m s = Some (s', a) ∧ Q a s'.
Proof. unfold wp. destruct (m s) as [[s' a]|]; naive_solver. Qed.

Lemma wp_intro {A} (m : M S A) (Q : A → S → Prop) s s' a :
  m s = Some (s', a) → Q a s' → wp m Q s.
Proof. unfold wp. by intros ->. Qed.

(** The state after a command, for building examples. *)
Definition run {A} (m : M S A) (s : S) : S := match m s with Some (s', _) => s' | None => s end.

Lemma run_spec {A} (m : M S A) (Q : A → S → Prop) s : wp m Q s → ∃ a, Q a (run m s).
Proof. unfold wp, run. destruct (m s) as [[s' a]|]; [by exists a|done]. Qed.

(** Loop rule: an invariant indexed by the part of the list still to visit. *)
Lemma wp_forM {A} (l : list A) (f : A → M S unit) (I : list A → S → Prop) s :
  (∀ x l' s, I (x :: l') s → wp (f x) (λ _, I l') s) →
  I l s → wp (forM l f) (λ _, I []) s.
Proof.
  intros Hstep. revert s. induction l as [|x l IH]; intros s HI; simpl.
  - by apply wp_ret.
  - apply wp_bind. eapply wp_mono; [by apply Hstep|]. intros [] s' HI'. by apply IH.
Qed.
End WP.

(** ** Preservation

    A property of the state that holds after a command that gets through. *)
Definition preserves {S A} (P : S → Prop) (m : M S A) : Prop := ∀ s s' a, P s → m s = Some (s', a) → P s'.

Section Preserves.
Context {S : Type} (P : S → Prop).

Lemma preserves_ret {A} (a : A) : preserves P (mret a).
Proof. intros s s' b Hs [= <- _]. done. Qed.

Lemma preserves_bind {A B} (m : M S A) (k : A → M S B) : preserves P m → (∀ a, preserves P (k a)) → preserves P (m ≫= k).
Proof.
  intros Hm Hk s s' b Hs E. unfold mbind, M_bind in E. destruct (m s) as [[s1 a]|] eqn:E1; [|done]. eapply Hk; [|exact E]. by eapply Hm.
Qed.

Lemma preserves_forM {A} (l : list A) (g : A → M S unit) : (∀ a, preserves P (g a)) → preserves P (forM l g).
Proof. intros H. induction l as [|a l IH]; cbn [forM]; [apply preserves_ret|]. apply preserves_bind; [apply H|by intros _]. Qed.

Lemma preserves_wp {A} (m : M S A) : (∀ s, P s → wp m (λ _ s', P s') s) → preserves P m.
Proof. intros H s s' a Hs E. specialize (H s Hs). unfold wp in H. by rewrite E in H. Qed.

Lemma preserves_gets {A} (g : S → A) : preserves P (gets g).
Proof. by apply preserves_wp. Qed.

Lemma preserves_get : preserves P get_st.
Proof. by apply preserves_wp. Qed.

Lemma preserves_someM {A} (o : option A) : preserves P (someM o).
Proof. intros s s' a Hs. unfold someM. destruct o; [by intros [= <- _]|done]. Qed.

Lemma preserves_assertM b : preserves P (assertM b).
Proof. intros s s' a Hs. unfold assertM. destruct b; [by intros [= <- _]|done]. Qed.

Lemma preserves_modify (g : S → S) : (∀ s, P s → P (g s)) → preserves P (modify g).
Proof. intros H. by apply preserves_wp. Qed.
End Preserves.

Lemma forM_ext {S A} (l : list A) (g h : A → M S unit) : (∀ a, a ∈ l → g a = h a) → forM l g = forM l h.
Proof.
  induction l as [|a l IH]; intros H; cbn [forM]; [done|]. rewrite (H a) by constructor. rewrite IH; [done|]. intros b Hb. apply H. by constructor.
Qed.

(** Symbolic execution of one command of a [wp] goal. *)
Ltac wp_step :=
  lazymatch goal with
  | |- wp (mret _) _ _ => apply wp_ret
  | |- wp (mbind _ _) _ _ => apply wp_bind
  | |- wp get_st _ _ => apply wp_get_st
  | |- wp (put_st _) _ _ => apply wp_put_st
  | |- wp (modify _) _ _ => apply wp_modify
  | |- wp (gets _) _ _ => apply wp_gets
  | |- wp (assertM _) _ _ => apply wp_assertM; split
  | |- wp (someM _) _ _ => apply wp_someM; eexists; split
  end.

(** Apply a triple for the first command of the goal. *)
Ltac wp_apply H :=
  repeat apply wp_bind; eapply wp_mono; [eapply H|].

(** ** Option and list facts shared by the components *)

Lemma find_app {A} (f : A → bool) (l1 l2 : list A) :
  List.find f (l1 ++ l2) =
  match List.find f l1 with Some x => Some x | None => List.find f l2 end.
Proof. induction l1 as [|x l1 IH]; simpl; [done|]. by destruct (f x). Qed.

Lemma find_none_iff {A} (f : A → bool) (l : list A) :
  List.find f l = None ↔ ∀ x, x ∈ l → f x = false.
Proof.
  induction l as [|y l IH]; simpl.
  - split; [|done]. intros _ x Hx. by apply elem_of_nil in Hx.
  - destruct (f y) eqn:E.
    + split; [done|]. intros H. specialize (H y ltac:(constructor)). congruence.
    + rewrite IH. setoid_rewrite elem_of_cons. naive_solver.
Qed.

Lemma find_some_elem {A} (f : A → bool) (l : list A) x :
  List.find f l = Some x → x ∈ l ∧ f x = true.
Proof. intros H. rewrite list_elem_of_In. by apply List.find_some. Qed.

(** [std::max_element] with the comparison [lt]: the first of the greatest elements. *)
Definition max_element {A} (lt : A → A → bool) (l : list A) : option A :=
  match l with
  | [] => None
  | x :: l' => Some (foldl (λ m y, if lt m y then y else m) x l')
  end.

Lemma max_element_key {A} (key : A → Z) (l : list A) x :
  max_element (λ a b, (key a <? key b)%Z) l = Some x → x ∈ l ∧ ∀ y, y ∈ l → (key y ≤ key x)%Z.
Proof.
  destruct l as [|a l]; [done|]. cbn. intros [= <-]. revert a. induction l as [|b l IH]; intros a; cbn.
  - split; [constructor|]. intros y ->%list_elem_of_singleton. done.
  - destruct (IH (if (key a <? key b)%Z then b else a)) as [H1 H2]. split.
    + destruct (key a <? key b)%Z; set_solver.
    + intros y Hy. pose proof (H2 (if (key a <? key b)%Z then b else a) ltac:(constructor)).
      destruct (Z.ltb_spec (key a) (key b)); rewrite !elem_of_cons in Hy;
        destruct Hy as [->|[->|Hy]]; try lia; apply H2; by constructor.
Qed.

Lemma max_element_Some {A} (lt : A → A → bool) (l : list A) : l ≠ [] → is_Some (max_element lt l).
Proof. destruct l; [done|]. by eexists. Qed.

(** Lookup in the first component that answers: [l[0..i)] reversed. *)
Lemma take_take_le {A} (l : list A) n m : n ≤ m → take n (take m l) = take n l.
Proof. intros. rewrite take_take. by rewrite Nat.min_l. Qed.

Lemma StronglySorted_sublist {A} (R : relation A) (l1 l2 : list A) :
  l1 `sublist_of` l2 → StronglySorted R l2 → StronglySorted R l1.
Proof.
  induction 1 as [|x l1 l2 Hs IH|x l1 l2 Hs IH]; intros Hss; [done|..];
    apply StronglySorted_inv in Hss as [Hss Hall]; [|by apply IH].
  constructor; [by apply IH|]. rewrite Forall_forall in *. eauto using elem_of_sublist.
Qed.

Lemma sublist_fmap_mono {A B} (f : A → B) (l1 l2 : list A) :
  l1 `sublist_of` l2 → f <$> l1 `sublist_of` f <$> l2.
Proof. induction 1; simpl; by constructor. Qed.

Lemma elem_of_delete_NoDup {A B} (f : A → B) (l : list A) i x :
  NoDup (f <$> l) → l !! i = Some x → ∀ y, y ∈ delete i l ↔ y ∈ l ∧ f y ≠ f x.
Proof.
  intros Hn Hi y. apply delete_Permutation in Hi as Hp.
  assert (Hn' : NoDup (f <$> x :: delete i l)) by (by rewrite <- Hp).
  rewrite Hp at 2. simpl in Hn'. rewrite NoDup_cons in Hn'. destruct Hn' as [Hx _].
  rewrite elem_of_cons. split.
  - intros Hy. split; [by right|]. intros E. apply Hx. rewrite <- E.
    apply list_elem_of_fmap. eauto.
  - intros [[->|?] ?]; done.
Qed.

Lemma filter_all {A} (P : A → Prop) `{∀ x, Decision (P x)} (l : list A) :
  (∀ x, x ∈ l → P x) → filter P l = l.
Proof.
  induction l as [|x l IH]; intros Hl; [done|]. rewrite filter_cons_True by (apply Hl; constructor).
  f_equal. apply IH. intros y Hy. apply Hl. by constructor.
Qed.

Lemma concat_split {A} (cs : list (list A)) i l1 x l2 :
  cs !! i = Some (l1 ++ x :: l2) →
  concat cs = (concat (take i cs) ++ l1) ++ x :: l2 ++ concat (drop (S i) cs).
Proof.
  intros Hi. rewrite <- (take_drop_middle _ _ _ Hi) at 1. rewrite concat_app. simpl.
  by rewrite <- !(assoc_L (++)).
Qed.

Lemma NoDup_fst_unique {A B} (l : list (A * B)) a b b' :
  NoDup l.*1 → (a, b) ∈ l → (a, b') ∈ l → b = b'.
Proof.
  induction l as [|[x y] l IH]; intros Hnd Hb Hb'; [by apply elem_of_nil in Hb|].
  apply NoDup_cons in Hnd as [Hx Hnd]. rewrite elem_of_cons in Hb, Hb'.
  destruct Hb as [Hb|Hb], Hb' as [Hb'|Hb']; simplify_eq; [done|..|auto]; destruct Hx; apply list_elem_of_fmap;
    eexists (_, _); (split; [|eassumption]); done.
Qed.

Lemma NoDup_split_unique {A} (l1 l1' l2 l2' : list A) x :
  NoDup (l1 ++ x :: l2) → l1 ++ x :: l2 = l1' ++ x :: l2' → l2 = l2'.
Proof.
  revert l1'. induction l1 as [|y l1 IH]; intros [|y' l1']; simpl; intros [Hx Hn]%NoDup_cons E; simplify_eq/=.
  - done.
  - destruct Hx. set_solver.
  - destruct Hx. set_solver.
  - eauto.
Qed.

Lemma filter_none {A} `{EqDecision A} (l : list A) (x : A) : x ∉ l → filter (λ y, y = x) l = [].
Proof.
  induction l as [|y l IH]; intros Hx; [done|]. apply not_elem_of_cons in Hx as [Hne Hx].
  rewrite filter_cons_False by congruence. by apply IH.
Qed.

(** ** Lists searched by a key

    Collections of records, one per face, are [std::list]s or vectors searched
    with [std::find_if]. *)
Section Keyed.
Context {A K : Type} `{EqDecision K} (key : A → K).
Implicit Types (l : list A) (k : K).

Definition kfind k l : option A := List.find (λ x, bool_decide (key x = k)) l.

Lemma kfind_Some_elem k l x : kfind k l = Some x → x ∈ l ∧ key x = k.
Proof. intros [? Hk]%find_some_elem. by apply bool_decide_eq_true in Hk. Qed.

Lemma kfind_None k l : kfind k l = None ↔ k ∉ key <$> l.
Proof.
  unfold kfind. rewrite find_none_iff, list_elem_of_fmap. setoid_rewrite bool_decide_eq_false.
  naive_solver.
Qed.

Lemma kfind_elem k l x : NoDup (key <$> l) → x ∈ l → key x = k → kfind k l = Some x.
Proof.
  intros Hn Hx <-. destruct (kfind (key x) l) as [y|] eqn:E.
  - apply kfind_Some_elem in E as [Hy Hk]. f_equal.
    apply list_elem_of_lookup in Hx as [i Hi]. apply list_elem_of_lookup in Hy as [j Hj].
    assert (i = j) as ->; [|congruence].
    eapply (NoDup_lookup _ i j (key x) Hn); rewrite list_lookup_fmap, ?Hi, ?Hj; simpl; congruence.
  - apply kfind_None in E. destruct E. apply list_elem_of_fmap. eauto.
Qed.

Lemma list_find_key k l :
  match list_find (λ x, key x = k) l with
  | Some (i, x) => l !! i = Some x ∧ key x = k ∧ kfind k l = Some x
  | None => kfind k l = None
  end.
Proof.
  unfold kfind. induction l as [|y l IH]; simpl; [done|].
  destruct (decide (key y = k)) as [E|E]; simpl.
  - by rewrite bool_decide_eq_true_2.
  - rewrite bool_decide_eq_false_2 by done.
    destruct (list_find (λ x, key x = k) l) as [[i x]|]; simpl; done.
Qed.

Lemma kfind_alter k l i x f :
  NoDup (key <$> l) → l !! i = Some x → key x = k → (∀ y, key (f y) = key y) →
  ∀ k', kfind k' (alter f i l) = if decide (k' = k) then Some (f x) else kfind k' l.
Proof.
  intros Hn Hi Hk Hf k'. revert i Hi Hn. induction l as [|y l IH]; intros [|i] Hi Hn; simpl in *; [done..| |].
  - injection Hi as ->. unfold kfind; simpl. rewrite Hf, Hk.
    case_decide as E; [by rewrite bool_decide_eq_true_2|by rewrite bool_decide_eq_false_2].
  - apply NoDup_cons in Hn as [Hy Hn]. specialize (IH i Hi Hn). unfold kfind in *. simpl.
    case_bool_decide as E; [|done]. subst k'. case_decide as E; [|done].
    destruct Hy. rewrite E, <- Hk. apply list_elem_of_fmap. eauto using list_elem_of_lookup_2.
Qed.

Lemma keys_alter l i f : (∀ y, key (f y) = key y) → key <$> alter f i l = key <$> l.
Proof.
  intros Hf. revert i. induction l as [|y l IH]; intros [|i]; simpl; [done..|by rewrite Hf|].
  f_equal. apply IH.
Qed.

Lemma kfind_delete k l i x :
  NoDup (key <$> l) → l !! i = Some x → key x = k →
  ∀ k', kfind k' (delete i l) = if decide (k' = k) then None else kfind k' l.
Proof.
  intros Hn Hi <- k'.
  assert (Hn' : NoDup (key <$> delete i l)).
  { eapply sublist_NoDup; [exact Hn|]. apply sublist_fmap_mono, sublist_delete. }
  pose proof (elem_of_delete_NoDup key l i x Hn Hi) as Hel.
  case_decide as E.
  - apply kfind_None. intros (y & -> & Hy)%list_elem_of_fmap. apply Hel in Hy as [_ Hy]. congruence.
  - destruct (kfind k' l) as [y|] eqn:F.
    + apply kfind_Some_elem in F as [Hy <-]. apply kfind_elem; [done| |done]. by apply Hel.
    + apply kfind_None. apply kfind_None in F. contradict F.
      apply list_elem_of_fmap in F as (y & -> & Hy). apply Hel in Hy as [Hy _].
      apply list_elem_of_fmap. eauto.
Qed.

Lemma keys_delete_NoDup l i : NoDup (key <$> l) → NoDup (key <$> delete i l).
Proof. intros Hn. eapply sublist_NoDup; [exact Hn|]. apply sublist_fmap_mono, sublist_delete. Qed.
End Keyed.

(** ** Binary floating point

    [float] and [double] factors multiply container sizes in several places and
    the product is cast back to [size_t].  Values are non-negative,
    [mant * 2^expo]; [fround prec] is the IEEE rounding to nearest, ties to
    even, on a [prec]-bit significand.  The exponents that occur are far from
    the limits of the formats, so no overflow or subnormal case arises. *)
Record flt := Flt { mant : Z; expo : Z }.

Definition fround (prec m e : Z) : flt :=
  let s := (Z.log2 m + 1 - prec)%Z in
  if (s <=? 0)%Z then Flt m e
  else
    let q := (m / 2 ^ s)%Z in
    let r := (m mod 2 ^ s)%Z in
    let half := (2 ^ (s - 1))%Z in
    let q' := if (half <? r)%Z || ((half =? r)%Z && Z.odd q) then (q + 1)%Z else q in
    Flt q' (e + s).

Definition fmul (prec : Z) (a b : flt) : flt :=
  fround prec (mant a * mant b) (expo a + expo b).

Definition fof (prec n : Z) : flt := fround prec n 0.

(** [static_cast<size_t>(f)] *)
Definition ftrunc (f : flt) : Z := Z.shiftl (mant f) (expo f).

(** [static_cast<size_t>(f * n)], the product taken in the format of [f]. *)
Definition fscale (prec : Z) (f : flt) (n : Z) : Z := ftrunc (fmul prec f (fof prec n)).

Definition flt_leb (a b : flt) : bool :=
  let e := Z.min (expo a) (expo b) in
  (mant a * 2 ^ (expo a - e) <=? mant b * 2 ^ (expo b - e))%Z.
Definition flt_ltb (a b : flt) : bool := negb (flt_leb b a).

Definition float_prec : Z := 24.
Definition double_prec : Z := 53.

Lemma fround_lower prec m e :
  (0 < prec → 0 < m →
   0 < mant (fround prec m e) ∧
   Z.log2 m + e ≤ Z.log2 (mant (fround prec m e)) + expo (fround prec m e))%Z.
Proof.
  intros Hp Hm. unfold fround.
  destruct (Z.leb_spec (Z.log2 m + 1 - prec) 0); simpl; [lia|].
  set (s := (Z.log2 m + 1 - prec)%Z) in *.
  assert (Hq : Z.log2 (m / 2 ^ s) = (Z.log2 m - s)%Z).
  { rewrite <- Z.shiftr_div_pow2 by lia. rewrite Z.log2_shiftr by lia. lia. }
  assert (Hq0 : (0 < m / 2 ^ s)%Z).
  { apply Z.div_str_pos. split; [lia|]. apply Z.log2_le_pow2; lia. }
  destruct (_ || _); simpl; [|lia].
  split; [lia|]. pose proof (Z.log2_le_mono (m / 2 ^ s) (m / 2 ^ s + 1) ltac:(lia)). lia.
Qed.

Lemma ftrunc_ge1 f : (0 < mant f → 0 ≤ Z.log2 (mant f) + expo f → 1 ≤ ftrunc f)%Z.
Proof.
  intros Hm He. unfold ftrunc. destruct (Z.le_gt_cases 0 (expo f)) as [H|H].
  - rewrite Z.shiftl_mul_pow2 by lia. pose proof (Z.pow_pos_nonneg 2 (expo f)). nia.
  - rewrite Z.shiftl_div_pow2 by lia.
    apply Z.div_le_lower_bound; [lia|]. rewrite Z.mul_1_r. apply Z.log2_le_pow2; lia.
Qed.

Lemma fscale_ge1 prec f n :
  (0 < prec → 0 < mant f → 0 ≤ Z.log2 (mant f) + expo f → 1 ≤ n → 1 ≤ fscale prec f n)%Z.
Proof.
  intros Hp Hm Hf Hn. unfold fscale, fmul.
  destruct (fround_lower prec n 0 Hp ltac:(lia)) as [H1 H2]. fold (fof prec n) in *.
  destruct (fround_lower prec (mant f * mant (fof prec n)) (expo f + expo (fof prec n)) Hp
              ltac:(nia)) as [H3 H4].
  apply ftrunc_ge1; [done|].
  pose proof (Z.log2_mul_below (mant f) (mant (fof prec n)) ltac:(lia) ltac:(lia)).
  pose proof (Z.log2_nonneg n). lia.
Qed.

(** A factor above 1 has its leading bit at or above the unit. *)
Lemma flt_gt1 f : flt_ltb (Flt 1 0) f = true → (0 < mant f ∧ 0 ≤ Z.log2 (mant f) + expo f)%Z.
Proof.
  unfold flt_ltb, flt_leb. simpl. rewrite negb_true_iff, Z.leb_gt. intros H.
  destruct (Z.le_gt_cases 0 (expo f)) as [He|He].
  - rewrite (Z.min_r _ 0), (Z.sub_diag 0), !Z.sub_0_r in H by lia. change (2 ^ 0)%Z with 1%Z in H.
    pose proof (Z.pow_pos_nonneg 2 (expo f)). pose proof (Z.log2_nonneg (mant f)). nia.
  - rewrite Z.min_l, Z.sub_diag in H by lia. change (2 ^ 0)%Z with 1%Z in H.
    rewrite Z.sub_0_l in H. pose proof (Z.pow_pos_nonneg 2 (- expo f)).
    assert (- expo f ≤ Z.log2 (mant f))%Z; [|lia]. apply Z.log2_le_pow2; lia.
Qed.

(** The rounding error of a scaled size. *)
Lemma fround_error prec m e :
  (0 < m → 0 < prec →
   let s := Z.max 0 (Z.log2 m + 1 - prec) in
   expo (fround prec m e) = e + s ∧ 0 ≤ mant (fround prec m e) ∧
   2 ^ prec * Z.abs (mant (fround prec m e) * 2 ^ s - m) ≤ m)%Z.
Proof.
  intros Hm Hp s. unfold fround. destruct (Z.leb_spec (Z.log2 m + 1 - prec) 0) as [Hle|Hlt].
  - replace s with 0%Z by lia. cbn [mant expo]. rewrite Z.mul_1_r, Z.sub_diag. lia.
  - replace s with (Z.log2 m + 1 - prec)%Z in * by lia. set (t := (Z.log2 m + 1 - prec)%Z) in *. cbn [mant expo].
    split; [done|]. assert (Ht : (2 ^ t = 2 * 2 ^ (t - 1))%Z) by (rewrite <- Z.pow_succ_r by lia; f_equal; lia).
    assert (Hbound : (2 ^ prec * 2 ^ (t - 1) ≤ m)%Z).
    { rewrite <- Z.pow_add_r by lia. replace (prec + (t - 1))%Z with (Z.log2 m) by lia. by apply Z.log2_spec. }
    assert (Hpos : (0 < 2 ^ (t - 1))%Z) by (by apply Z.pow_pos_nonneg; lia).
    pose proof (Z.div_mod m (2 ^ t) ltac:(lia)) as Hdm. pose proof (Z.mod_pos_bound m (2 ^ t) ltac:(lia)) as Hmod.
    assert (Hq : (0 ≤ m / 2 ^ t)%Z) by (apply Z.div_pos; lia).
    set (q := (m / 2 ^ t)%Z) in *. set (r := (m mod 2 ^ t)%Z) in *. set (h := (2 ^ (t - 1))%Z) in *.
    assert (Hcase : (if (h <? r)%Z || ((h =? r)%Z && Z.odd q) then (q + 1)%Z else q) = q ∧ (r ≤ h)%Z ∨
      (if (h <? r)%Z || ((h =? r)%Z && Z.odd q) then (q + 1)%Z else q) = (q + 1)%Z ∧ (h ≤ r)%Z).
    { destruct (Z.ltb_spec h r), (Z.eqb_spec h r), (Z.odd q); cbn; lia. }
    assert (Hpp : (0 < 2 ^ prec)%Z) by (apply Z.pow_pos_nonneg; lia).
    destruct Hcase as [[-> Hr]|[-> Hr]]; (split; [lia|]).
    + replace (q * 2 ^ t - m)%Z with (- r)%Z by lia. rewrite Z.abs_opp, Z.abs_eq by lia. nia.
    + replace ((q + 1) * 2 ^ t - m)%Z with (2 ^ t - r)%Z by lia. rewrite Z.abs_eq by lia. nia.
Qed.

Lemma fscale_bounds prec m k n :
  (0 < prec → 0 < m → 0 < n < 2 ^ prec → 0 ≤ k →
   fscale prec (Flt m (- k)) n * 2 ^ k * 2 ^ prec ≤ m * n * (2 ^ prec + 1) ∧
   m * n * (2 ^ prec - 1) < (fscale prec (Flt m (- k)) n + 1) * 2 ^ k * 2 ^ prec)%Z.
Proof.
  intros Hp Hm [Hn Hn2] Hk. unfold fscale, fmul.
  assert (Hlog : (Z.log2 n < prec)%Z) by (apply Z.log2_lt_pow2; lia).
  assert (Hof : fof prec n = Flt n 0).
  { unfold fof, fround. by destruct (Z.leb_spec (Z.log2 n + 1 - prec) 0); [|lia]. }
  rewrite Hof. cbn [mant expo]. rewrite Z.add_0_r.
  destruct (fround_error prec (m * n) (- k) ltac:(nia) Hp) as (He & Hq & Herr).
  set (f := fround prec (m * n) (- k)) in *. set (s := Z.max 0 (Z.log2 (m * n) + 1 - prec)) in *. unfold ftrunc.
  assert (Hpp : (0 < 2 ^ prec)%Z) by (apply Z.pow_pos_nonneg; lia).
  assert (Hkk : (0 < 2 ^ k)%Z) by (apply Z.pow_pos_nonneg; lia).
  assert (Hv : (Z.shiftl (mant f) (expo f) * 2 ^ k ≤ mant f * 2 ^ s < (Z.shiftl (mant f) (expo f) + 1) * 2 ^ k)%Z).
  { rewrite He. destruct (Z.le_gt_cases k s) as [Hks|Hks].
    - rewrite Z.shiftl_mul_pow2 by lia. replace (2 ^ s)%Z with (2 ^ (- k + s) * 2 ^ k)%Z by (rewrite <- Z.pow_add_r by lia; f_equal; lia). lia.
    - rewrite Z.shiftl_div_pow2 by lia. replace (- (- k + s))%Z with (k - s)%Z by lia.
      assert (Hks' : (2 ^ k = 2 ^ (k - s) * 2 ^ s)%Z) by (rewrite <- Z.pow_add_r by lia; f_equal; lia).
      assert (Hd : (0 < 2 ^ (k - s))%Z) by (apply Z.pow_pos_nonneg; lia).
      assert (Hs : (0 < 2 ^ s)%Z) by (apply Z.pow_pos_nonneg; lia).
      pose proof (Z.div_mod (mant f) (2 ^ (k - s)) ltac:(lia)) as Hdm.
      pose proof (Z.mod_pos_bound (mant f) (2 ^ (k - s)) Hd) as Hmod. rewrite Hks'. nia. }
  set (v := Z.shiftl (mant f) (expo f)) in *. set (M := (m * n)%Z) in *. set (F := (mant f * 2 ^ s)%Z) in *.
  assert (Habs : (2 ^ prec * (F - M) ≤ M ∧ - M ≤ 2 ^ prec * (F - M))%Z).
  { destruct (Z.abs_spec (F - M)) as [[_ E]|[_ E]]; rewrite E in Herr; nia. }
  split; nia.
Qed.

(** Rounding never goes below a number that the format represents exactly. *)
Lemma fround_ge_repr prec m e i :
  (0 < prec → 0 < m → 0 ≤ i ≤ 2 ^ prec → i * 2 ^ (Z.max 0 (- e)) ≤ m * 2 ^ (Z.max 0 e) →
   i ≤ ftrunc (fround prec m e))%Z.
Proof.
  intros Hp Hm Hi Hle. unfold fround, ftrunc.
  destruct (Z.leb_spec (Z.log2 m + 1 - prec) 0) as [Hs|Hs]; cbn [mant expo].
  - destruct (Z.le_gt_cases 0 e).
    + rewrite Z.shiftl_mul_pow2 by lia. rewrite (Z.max_l 0 (- e)), (Z.max_r 0 e) in Hle by lia. lia.
    + rewrite Z.shiftl_div_pow2 by lia. rewrite (Z.max_r 0 (- e)), (Z.max_l 0 e) in Hle by lia.
      apply Z.div_le_lower_bound; lia.
  - set (s := (Z.log2 m + 1 - prec)%Z) in *. set (q := (m / 2 ^ s)%Z).
    assert (Hq : (2 ^ (prec - 1) ≤ q)%Z).
    { apply Z.div_le_lower_bound; [lia|]. rewrite <- Z.pow_add_r by lia.
      replace (s + (prec - 1))%Z with (Z.log2 m) by lia. by apply Z.log2_spec. }
    set (q' := if (_ : bool) then (q + 1)%Z else q). assert (Hq' : (q ≤ q')%Z) by (unfold q'; case_match; lia).
    destruct (Z.lt_ge_cases 0 (e + s)) as [He|He].
    + rewrite Z.shiftl_mul_pow2 by lia. assert (2 ^ prec = 2 ^ (prec - 1) * 2)%Z as E.
      { rewrite <- (Z.pow_1_r 2) at 3. rewrite <- Z.pow_add_r by lia. f_equal. lia. }
      pose proof (Z.pow_le_mono_r 2 1 (e + s)). nia.
    + rewrite Z.shiftl_div_pow2 by lia. apply Z.div_le_lower_bound; [lia|].
      etrans; [|exact Hq']. apply Z.div_le_lower_bound; [lia|].
      rewrite (Z.max_r 0 (- e)), (Z.max_l 0 e), Z.mul_1_r in Hle by lia.
      replace (2 ^ s * (2 ^ (- (e + s)) * i))%Z with (i * (2 ^ s * 2 ^ (- (e + s))))%Z by ring.
      rewrite <- Z.pow_add_r by lia. replace (s + - (e + s))%Z with (- e)%Z by lia. lia.
Qed.

Lemma fof_exact prec n : (0 < prec → 0 ≤ n < 2 ^ prec → fof prec n = Flt n 0)%Z.
Proof.
  intros Hp H. unfold fof, fround. destruct (Z.leb_spec (Z.log2 n + 1 - prec) 0); [done|].
  destruct (decide (n = 0)%Z) as [->|]; [cbn in *; lia|].
  assert (Z.log2 n < prec)%Z by (apply Z.log2_lt_pow2; lia). lia.
Qed.

(** Scaling by a factor that is at least 1 does not shrink a number the format
    represents. *)
Lemma fscale_ge prec f n :
  (0 < prec → 0 < n < 2 ^ prec → flt_leb (Flt 1 0) f = true → n ≤ fscale prec f n)%Z.
Proof.
  intros Hp Hn Hf. unfold fscale. rewrite fof_exact by lia. unfold fmul. cbn [mant expo].
  unfold flt_leb in Hf. cbn [mant expo] in Hf. apply Z.leb_le in Hf. rewrite Z.add_0_r.
  destruct (Z.le_gt_cases 0 (expo f)).
  - rewrite Z.min_l, !Z.sub_0_r in Hf by lia. pose proof (Z.pow_pos_nonneg 2 (expo f)).
    assert (0 < mant f)%Z by nia. apply fround_ge_repr; [lia|nia|lia|].
    rewrite Z.max_l, Z.max_r by lia. nia.
  - rewrite Z.min_r, Z.sub_diag in Hf by lia. pose proof (Z.pow_pos_nonneg 2 (0 - expo f)).
    assert (0 < mant f)%Z by nia. apply fround_ge_repr; [lia|nia|lia|].
    rewrite Z.max_r, Z.max_l by lia. replace (- expo f)%Z with (0 - expo f)%Z by lia. nia.
Qed.

Lemma fscale_double prec n : (0 < prec → 0 < n < 2 ^ prec → fscale prec (Flt 1 1) n = 2 * n)%Z.
Proof.
  intros Hp Hn. unfold fscale. rewrite fof_exact by lia. unfold fmul. cbn [mant expo]. rewrite Z.mul_1_l.
  change (fround prec n (1 + 0)) with (fround prec n 1). unfold fround.
  destruct (Z.leb_spec (Z.log2 n + 1 - prec) 0).
  - unfold ftrunc. cbn [mant expo]. rewrite Z.shiftl_mul_pow2 by lia. lia.
  - assert (Z.log2 n < prec)%Z by (apply Z.log2_lt_pow2; lia). lia.
Qed.
