(* ===== verification/Scheduler.v ===== *)
(** * The scheduler

    [ndn::scheduler::Scheduler], on which the daemon runs its timers: [schedule]
    adds an event with a new identifier, [cancel] removes it if it is still
    pending.  A component sees the part of the scheduler that holds its own
    events; [Ev] is the type of these events, the callbacks to run. *)

From Stdlib Require Import ZArith Lia.
From stdpp Require Import base gmap option list.
From S2P Require Import Prelude.

Class Scheduler := {
  SchedState : Type → Type;
  sched_pending : ∀ {Ev}, SchedState Ev → gmap positive (Z * Ev);
  sched_issued : ∀ {Ev}, SchedState Ev → positive → Prop;
  schedule : ∀ {Ev}, Z → Ev → SchedState Ev → SchedState Ev * positive;
  cancel : ∀ {Ev}, option positive → SchedState Ev → SchedState Ev;
}.

Class SchedulerLaws (SC : Scheduler) : Prop := {
  pending_issued : ∀ Ev (s : SchedState Ev) i, is_Some (sched_pending s !! i) → sched_issued s i;
  schedule_spec : ∀ Ev t (ev : Ev) s s' i, schedule t ev s = (s', i) →
    ¬ sched_issued s i ∧ (∀ j, sched_issued s' j ↔ sched_issued s j ∨ j = i) ∧
    sched_pending s' = <[i := (t, ev)]> (sched_pending s);
  cancel_spec : ∀ Ev i (s : SchedState Ev),
    (∀ j, sched_issued (cancel i s) j ↔ sched_issued s j) ∧
    sched_pending (cancel i s) =
      match i with Some i => delete i (sched_pending s) | None => sched_pending s end;
}.

Arguments pending_issued {SC _ Ev}.
Arguments schedule_spec {SC _ Ev}.
Arguments cancel_spec {SC _ Ev}.

(** An instance: the identifiers used so far and the pending events. *)
Record ListScheduler (Ev : Type) := mkListScheduler { ls_used : gset positive; ls_pending : gmap positive (Z * Ev) }.
Arguments mkListScheduler {Ev}.
Arguments ls_used {Ev}.
Arguments ls_pending {Ev}.

Definition ls_issued {Ev} (s : ListScheduler Ev) : gset positive := ls_used s ∪ dom (ls_pending s).

#[export] Instance MapScheduler : Scheduler := {|
  SchedState := ListScheduler;
  sched_pending Ev := ls_pending;
  sched_issued Ev s i := i ∈ ls_issued s;
  schedule Ev t ev s :=
    let i := fresh (ls_issued s) in
    (mkListScheduler (ls_issued s) (<[i := (t, ev)]> (ls_pending s)), i);
  cancel Ev i s := mkListScheduler (ls_issued s)
    (match i with Some i => delete i (ls_pending s) | None => ls_pending s end);
|}.

#[export] Instance MapSchedulerLaws : SchedulerLaws MapScheduler.
Proof.
  split; cbn -[fresh].
  - intros Ev s i Hi%elem_of_dom. unfold ls_issued. set_solver.
  - intros Ev t ev s s' i [= <- <-]. split; [apply is_fresh|]. split; [|done].
    intros j. unfold ls_issued at 1. cbn -[fresh]. rewrite dom_insert_L. unfold ls_issued. set_solver.
  - intros Ev i s. split; [|done]. intros j. unfold ls_issued at 1. cbn. unfold ls_issued.
    destruct i; rewrite ?dom_delete_L; set_solver.
Qed.

Definition emptyScheduler {Ev} : ListScheduler Ev := mkListScheduler ∅ ∅.
