(* ===== verification/CityHash.v ===== *)
(** * CityHash

    The hash functions of [daemon/common/city-hash.cpp], on which the name tree
    and the dead nonce list key their entries.  A buffer is a list of bytes, a
    pointer into it an offset, and a read outside of the buffer is [None]; the
    theorems show that no such read happens and that every result fits its
    width. *)

From Stdlib Require Import ZArith Lia.
From stdpp Require Import base option list.
From S2P Require Import Prelude.

Local Open Scope Z_scope.

(** ** Machine words *)

Definition w32 (x : Z) : Z := x mod 2 ^ 32.
Definition w64 (x : Z) : Z := x mod 2 ^ 64.

(** Little-endian composition and decomposition of words. *)
Fixpoint le_combine (bs : list Z) : Z :=
  match bs with
  | [] => 0
  | b :: bs' => b + 256 * le_combine bs'
  end.

Fixpoint le_split (n : nat) (x : Z) : list Z :=
  match n with
  | O => []
  | S n' => x mod 256 :: le_split n' (x / 256)
  end.

Definition bswap_32 (x : Z) : Z := le_combine (reverse (le_split 4 x)).
Definition bswap_64 (x : Z) : Z := le_combine (reverse (le_split 8 x)).

Definition load (n : nat) (b : list Z) (p : Z) : option Z :=
  if (0 <=? p) && (p + Z.of_nat n <=? Z.of_nat (length b))
  then Some (le_combine (take n (drop (Z.to_nat p) b)))
  else None.

Definition Fetch64 (b : list Z) (p : Z) : option Z := load 8 b p.
Definition Fetch32 (b : list Z) (p : Z) : option Z := load 4 b p.

(** [s[i]] read as [uint8]. *)
Definition Fetch8 (b : list Z) (p : Z) : option Z := load 1 b p.

Definition k0 : Z := 0xc3a5c85c97cb3127.
Definition k1 : Z := 0xb492b66fbe98f273.
Definition k2 : Z := 0x9ae16a3b2f90404f.
Definition c1 : Z := 0xcc9e2d51.
Definition c2 : Z := 0x1b873593.

(** ** 32-bit hashing *)

Definition fmix (h : Z) : Z :=
  let h := Z.lxor h (Z.shiftr h 16) in
  let h := w32 (h * 0x85ebca6b) in
  let h := Z.lxor h (Z.shiftr h 13) in
  let h := w32 (h * 0xc2b2ae35) in
  Z.lxor h (Z.shiftr h 16).

Definition Rotate32 (val shift : Z) : Z :=
  if shift =? 0 then val
  else Z.lor (Z.shiftr val shift) (w32 (Z.shiftl val (32 - shift))).

Definition Mur (a h : Z) : Z :=
  let a := w32 (a * c1) in
  let a := Rotate32 a 17 in
  let a := w32 (a * c2) in
  let h := Z.lxor h a in
  let h := Rotate32 h 19 in
  w32 (h * 5 + 0xe6546b64).

Definition Hash32Len13to24 (bf : list Z) (s len : Z) : option Z :=
  a ← Fetch32 bf (s - 4 + Z.shiftr len 1);
  b ← Fetch32 bf (s + 4);
  c ← Fetch32 bf (s + len - 8);
  d ← Fetch32 bf (s + Z.shiftr len 1);
  e ← Fetch32 bf s;
  f ← Fetch32 bf (s + len - 4);
  let h := w32 len in
  Some (fmix (Mur f (Mur e (Mur d (Mur c (Mur b (Mur a h))))))).

(** [signed char v = s[i];] *)
Definition signed_char (x : Z) : Z := if x <? 128 then x else x - 256.

Fixpoint Hash32Len0to4_loop (bf : list Z) (s : Z) (i : Z) (n : nat) (b c : Z) : option (Z * Z) :=
  match n with
  | O => Some (b, c)
  | S n' =>
      x ← Fetch8 bf (s + i);
      let v := signed_char x in
      let b := w32 (b * c1 + v) in
      let c := Z.lxor c b in
      Hash32Len0to4_loop bf s (i + 1) n' b c
  end.

Definition Hash32Len0to4 (bf : list Z) (s len : Z) : option Z :=
  '(b, c) ← Hash32Len0to4_loop bf s 0 (Z.to_nat len) 0 9;
  Some (fmix (Mur b (Mur (w32 len) c))).

Definition Hash32Len5to12 (bf : list Z) (s len : Z) : option Z :=
  let a := w32 len in
  let b := w32 (len * 5) in
  let c := 9 in
  let d := b in
  x ← Fetch32 bf s;
  y ← Fetch32 bf (s + len - 4);
  z ← Fetch32 bf (s + Z.land (Z.shiftr len 1) 4);
  let a := w32 (a + x) in
  let b := w32 (b + y) in
  let c := w32 (c + z) in
  Some (fmix (Mur c (Mur b (Mur a d)))).

(** One pass of the loop of [CityHash32] over 20 bytes; the result is the state
    [(f, g, h)] after [PERMUTE3(f, h, g)]. *)
Definition CityHash32_iter (bf : list Z) (s f g h : Z) : option (Z * Z * Z) :=
  x0 ← Fetch32 bf s;
  let a0 := w32 (Rotate32 (w32 (x0 * c1)) 17 * c2) in
  a1 ← Fetch32 bf (s + 4);
  x2 ← Fetch32 bf (s + 8);
  let a2 := w32 (Rotate32 (w32 (x2 * c1)) 17 * c2) in
  x3 ← Fetch32 bf (s + 12);
  let a3 := w32 (Rotate32 (w32 (x3 * c1)) 17 * c2) in
  a4 ← Fetch32 bf (s + 16);
  let h := Z.lxor h a0 in
  let h := Rotate32 h 18 in
  let h := w32 (h * 5 + 0xe6546b64) in
  let f := w32 (f + a1) in
  let f := Rotate32 f 19 in
  let f := w32 (f * c1) in
  let g := w32 (g + a2) in
  let g := Rotate32 g 18 in
  let g := w32 (g * 5 + 0xe6546b64) in
  let h := Z.lxor h (w32 (a3 + a1)) in
  let h := Rotate32 h 19 in
  let h := w32 (h * 5 + 0xe6546b64) in
  let g := Z.lxor g a4 in
  let g := w32 (bswap_32 g * 5) in
  let h := w32 (h + w32 (a4 * 5)) in
  let h := bswap_32 h in
  let f := w32 (f + a0) in
  (* std::swap(f, h); std::swap(f, g); *)
  let '(f, h) := (h, f) in
  let '(f, g) := (g, f) in
  Some (f, g, h).

Fixpoint CityHash32_loop (bf : list Z) (s : Z) (iters : nat) (f g h : Z) : option (Z * Z * Z) :=
  match iters with
  | O => Some (f, g, h)
  | S n =>
      '(f, g, h) ← CityHash32_iter bf s f g h;
      CityHash32_loop bf (s + 20) n f g h
  end.

Definition CityHash32_long (bf : list Z) (s len : Z) : option Z :=
  let h := w32 len in
  let g := w32 (c1 * len) in
  let f := g in
  x0 ← Fetch32 bf (s + len - 4);
  let a0 := w32 (Rotate32 (w32 (x0 * c1)) 17 * c2) in
  x1 ← Fetch32 bf (s + len - 8);
  let a1 := w32 (Rotate32 (w32 (x1 * c1)) 17 * c2) in
  x2 ← Fetch32 bf (s + len - 16);
  let a2 := w32 (Rotate32 (w32 (x2 * c1)) 17 * c2) in
  x3 ← Fetch32 bf (s + len - 12);
  let a3 := w32 (Rotate32 (w32 (x3 * c1)) 17 * c2) in
  x4 ← Fetch32 bf (s + len - 20);
  let a4 := w32 (Rotate32 (w32 (x4 * c1)) 17 * c2) in
  let h := Z.lxor h a0 in
  let h := Rotate32 h 19 in
  let h := w32 (h * 5 + 0xe6546b64) in
  let h := Z.lxor h a2 in
  let h := Rotate32 h 19 in
  let h := w32 (h * 5 + 0xe6546b64) in
  let g := Z.lxor g a1 in
  let g := Rotate32 g 19 in
  let g := w32 (g * 5 + 0xe6546b64) in
  let g := Z.lxor g a3 in
  let g := Rotate32 g 19 in
  let g := w32 (g * 5 + 0xe6546b64) in
  let f := w32 (f + a4) in
  let f := Rotate32 f 19 in
  let f := w32 (f * 5 + 0xe6546b64) in
  let iters := (len - 1) / 20 in
  '(f, g, h) ← CityHash32_loop bf s (Z.to_nat iters) f g h;
  let g := w32 (Rotate32 g 11 * c1) in
  let g := w32 (Rotate32 g 17 * c1) in
  let f := w32 (Rotate32 f 11 * c1) in
  let f := w32 (Rotate32 f 17 * c1) in
  let h := Rotate32 (w32 (h + g)) 19 in
  let h := w32 (h * 5 + 0xe6546b64) in
  let h := w32 (Rotate32 h 17 * c1) in
  let h := Rotate32 (w32 (h + f)) 19 in
  let h := w32 (h * 5 + 0xe6546b64) in
  let h := w32 (Rotate32 h 17 * c1) in
  Some h.

Definition CityHash32 (bf : list Z) (s len : Z) : option Z :=
  if len <=? 24 then
    if len <=? 12 then
      if len <=? 4 then Hash32Len0to4 bf s len else Hash32Len5to12 bf s len
    else Hash32Len13to24 bf s len
  else CityHash32_long bf s len.

(** ** 64-bit hashing *)

Definition Rotate (val shift : Z) : Z :=
  if shift =? 0 then val
  else Z.lor (Z.shiftr val shift) (w64 (Z.shiftl val (64 - shift))).

Definition ShiftMix (val : Z) : Z := Z.lxor val (Z.shiftr val 47).

Definition kMul : Z := 0x9ddfea08eb382d69.

Definition Hash128to64 (x : Z * Z) : Z :=
  let a := w64 (Z.lxor x.1 x.2 * kMul) in
  let a := Z.lxor a (Z.shiftr a 47) in
  let b := w64 (Z.lxor x.2 a * kMul) in
  let b := Z.lxor b (Z.shiftr b 47) in
  w64 (b * kMul).

Definition HashLen16 (u v : Z) : Z := Hash128to64 (u, v).

(** The overload of [HashLen16] with a multiplier. *)
Definition HashLen16_mul (u v mul : Z) : Z :=
  let a := w64 (Z.lxor u v * mul) in
  let a := Z.lxor a (Z.shiftr a 47) in
  let b := w64 (Z.lxor v a * mul) in
  let b := Z.lxor b (Z.shiftr b 47) in
  w64 (b * mul).

Definition HashLen0to16 (bf : list Z) (s len : Z) : option Z :=
  if 8 <=? len then
    let mul := w64 (k2 + len * 2) in
    x ← Fetch64 bf s;
    let a := w64 (x + k2) in
    b ← Fetch64 bf (s + len - 8);
    let c := w64 (w64 (Rotate b 37 * mul) + a) in
    let d := w64 (w64 (Rotate a 25 + b) * mul) in
    Some (HashLen16_mul c d mul)
  else if 4 <=? len then
    let mul := w64 (k2 + len * 2) in
    a ← Fetch32 bf s;
    y ← Fetch32 bf (s + len - 4);
    Some (HashLen16_mul (w64 (len + w64 (Z.shiftl a 3))) y mul)
  else if 0 <? len then
    a ← Fetch8 bf s;
    b ← Fetch8 bf (s + Z.shiftr len 1);
    c ← Fetch8 bf (s + (len - 1));
    let y := w32 (a + w32 (Z.shiftl b 8)) in
    let z := w32 (len + w32 (Z.shiftl c 2)) in
    Some (w64 (ShiftMix (Z.lxor (w64 (y * k2)) (w64 (z * k0))) * k2))
  else Some k2.

Definition HashLen17to32 (bf : list Z) (s len : Z) : option Z :=
  let mul := w64 (k2 + len * 2) in
  xa ← Fetch64 bf s;
  let a := w64 (xa * k1) in
  b ← Fetch64 bf (s + 8);
  xc ← Fetch64 bf (s + len - 8);
  let c := w64 (xc * mul) in
  xd ← Fetch64 bf (s + len - 16);
  let d := w64 (xd * k2) in
  Some (HashLen16_mul (w64 (w64 (Rotate (w64 (a + b)) 43 + Rotate c 30) + d))
                      (w64 (w64 (a + Rotate (w64 (b + k2)) 18) + c)) mul).

(** [WeakHashLen32WithSeeds] on six words. *)
Definition WeakHash6 (w x y z a b : Z) : Z * Z :=
  let a := w64 (a + w) in
  let b := Rotate (w64 (w64 (b + a) + z)) 21 in
  let c := a in
  let a := w64 (a + x) in
  let a := w64 (a + y) in
  let b := w64 (b + Rotate a 44) in
  (w64 (a + z), w64 (b + c)).

Definition WeakHashLen32WithSeeds (bf : list Z) (s a b : Z) : option (Z * Z) :=
  w ← Fetch64 bf s;
  x ← Fetch64 bf (s + 8);
  y ← Fetch64 bf (s + 16);
  z ← Fetch64 bf (s + 24);
  Some (WeakHash6 w x y z a b).

Definition HashLen33to64 (bf : list Z) (s len : Z) : option Z :=
  let mul := w64 (k2 + len * 2) in
  xa ← Fetch64 bf s;
  let a := w64 (xa * k2) in
  b ← Fetch64 bf (s + 8);
  c ← Fetch64 bf (s + len - 24);
  d ← Fetch64 bf (s + len - 32);
  xe ← Fetch64 bf (s + 16);
  let e := w64 (xe * k2) in
  xf ← Fetch64 bf (s + 24);
  let f := w64 (xf * 9) in
  g ← Fetch64 bf (s + len - 8);
  xh ← Fetch64 bf (s + len - 16);
  let h := w64 (xh * mul) in
  let u := w64 (Rotate (w64 (a + g)) 43 + w64 (w64 (Rotate b 30 + c) * 9)) in
  let v := w64 (w64 (Z.lxor (w64 (a + g)) d + f) + 1) in
  let w := w64 (bswap_64 (w64 (w64 (u + v) * mul)) + h) in
  let x := w64 (Rotate (w64 (e + f)) 42 + c) in
  let y := w64 (w64 (bswap_64 (w64 (w64 (v + w) * mul)) + g) * mul) in
  let z := w64 (w64 (e + f) + c) in
  let a := w64 (bswap_64 (w64 (w64 (w64 (x + z) * mul) + y)) + b) in
  let b := w64 (ShiftMix (w64 (w64 (w64 (w64 (z + a) * mul) + d) + h)) * mul) in
  Some (w64 (b + x)).

(** The 56 bytes of state of the long-string loops. *)
Record city_state := CityState { cs_x : Z; cs_y : Z; cs_z : Z; cs_v : Z * Z; cs_w : Z * Z }.

(** The body of the loop of [CityHash64], over 64 bytes at [s]. *)
Definition CityHash64_iter (bf : list Z) (s : Z) (st : city_state) : option city_state :=
  let '(CityState x y z v w) := st in
  f8 ← Fetch64 bf (s + 8);
  let x := w64 (Rotate (w64 (w64 (w64 (x + y) + v.1) + f8)) 37 * k1) in
  f48 ← Fetch64 bf (s + 48);
  let y := w64 (Rotate (w64 (w64 (y + v.2) + f48)) 42 * k1) in
  let x := Z.lxor x w.2 in
  f40 ← Fetch64 bf (s + 40);
  let y := w64 (y + w64 (v.1 + f40)) in
  let z := w64 (Rotate (w64 (z + w.1)) 33 * k1) in
  v ← WeakHashLen32WithSeeds bf s (w64 (v.2 * k1)) (w64 (x + w.1));
  f16 ← Fetch64 bf (s + 16);
  w ← WeakHashLen32WithSeeds bf (s + 32) (w64 (z + w.2)) (w64 (y + f16));
  Some (CityState z y x v w).

Fixpoint CityHash64_loop (bf : list Z) (s : Z) (n : nat) (st : city_state) : option city_state :=
  match n with
  | O => Some st
  | S n' =>
      st ← CityHash64_iter bf s st;
      CityHash64_loop bf (s + 64) n' st
  end.

Definition CityHash64_long (bf : list Z) (s len : Z) : option Z :=
  x ← Fetch64 bf (s + len - 40);
  y0 ← Fetch64 bf (s + len - 16);
  y1 ← Fetch64 bf (s + len - 56);
  let y := w64 (y0 + y1) in
  z0 ← Fetch64 bf (s + len - 48);
  z1 ← Fetch64 bf (s + len - 24);
  let z := HashLen16 (w64 (z0 + len)) z1 in
  v ← WeakHashLen32WithSeeds bf (s + len - 64) len z;
  w ← WeakHashLen32WithSeeds bf (s + len - 32) (w64 (y + k1)) x;
  x0 ← Fetch64 bf s;
  let x := w64 (w64 (x * k1) + x0) in
  (* len = (len - 1) & ~63: the loop runs (len - 1) / 64 times *)
  '(CityState x y z v w) ← CityHash64_loop bf s (Z.to_nat ((len - 1) / 64)) (CityState x y z v w);
  Some (HashLen16 (w64 (w64 (HashLen16 v.1 w.1 + w64 (ShiftMix y * k1)) + z))
                  (w64 (HashLen16 v.2 w.2 + x))).

Definition CityHash64 (bf : list Z) (s len : Z) : option Z :=
  if len <=? 32 then
    if len <=? 16 then HashLen0to16 bf s len
    else HashLen17to32 bf s len
  else if len <=? 64 then HashLen33to64 bf s len
  else CityHash64_long bf s len.

Definition CityHash64WithSeeds (bf : list Z) (s len seed0 seed1 : Z) : option Z :=
  h ← CityHash64 bf s len;
  Some (HashLen16 (w64 (h - seed0)) seed1).

Definition CityHash64WithSeed (bf : list Z) (s len seed : Z) : option Z :=
  CityHash64WithSeeds bf s len k2 seed.

(** ** Reads stay inside the buffer *)

Section InBounds.
Context (bf : list Z).
Let n : Z := Z.of_nat (length bf).

Lemma load_ok k p : 0 ≤ p → p + Z.of_nat k ≤ n → ∃ v, load k bf p = Some v.
Proof.
  intros H1 H2. unfold load. fold n.
  rewrite (proj2 (Z.leb_le _ _) H1), (proj2 (Z.leb_le _ _) H2). eauto.
Qed.

Lemma Fetch64_ok p : 0 ≤ p → p + 8 ≤ n → ∃ v, Fetch64 bf p = Some v.
Proof. apply (load_ok 8). Qed.

Lemma Fetch32_ok p : 0 ≤ p → p + 4 ≤ n → ∃ v, Fetch32 bf p = Some v.
Proof. apply (load_ok 4). Qed.

Lemma Fetch8_ok p : 0 ≤ p → p + 1 ≤ n → ∃ v, Fetch8 bf p = Some v.
Proof. apply (load_ok 1). Qed.
End InBounds.

Lemma shiftr1 x : Z.shiftr x 1 = x / 2.
Proof. by rewrite Z.shiftr_div_pow2. Qed.

Lemma land4_bound x : 0 ≤ Z.land x 4 ≤ 4.
Proof.
  change 4 with (2 ^ 2). rewrite Z.land_comm.
  destruct (Z.testbit x 2) eqn:E.
  - assert (Z.land (2 ^ 2) x = 2 ^ 2) as ->; [|simpl; lia].
    apply Z.bits_inj'. intros m Hm. rewrite Z.land_spec, Z.pow2_bits_eqb by lia.
    destruct (Z.eqb_spec 2 m); [subst; by rewrite E|done].
  - assert (Z.land (2 ^ 2) x = 0) as ->; [|simpl; lia].
    apply Z.bits_inj'. intros m Hm. rewrite Z.land_spec, Z.pow2_bits_eqb, Z.bits_0 by lia.
    destruct (Z.eqb_spec 2 m); [subst; by rewrite E|done].
Qed.

(** Resolve the reads of a hash body one after the other. *)
Ltac fetch_arith := first [lia | rewrite ?shiftr1; Z.to_euclidean_division_equations; lia].
Ltac fetch :=
  repeat first
    [ match goal with
      | |- context [Fetch64 ?b ?p ≫= _] =>
          destruct (Fetch64_ok b p) as [? ->]; [fetch_arith|fetch_arith|]
      | |- context [Fetch32 ?b ?p ≫= _] =>
          destruct (Fetch32_ok b p) as [? ->]; [fetch_arith|fetch_arith|]
      | |- context [Fetch8 ?b ?p ≫= _] =>
          destruct (Fetch8_ok b p) as [? ->]; [fetch_arith|fetch_arith|]
      end; cbn [mbind option_bind] ].

(** A computation that ends without an invalid read, in a value satisfying [P]. *)
Definition yields {A} (P : A → Prop) (o : option A) : Prop :=
  match o with Some a => P a | None => False end.

Lemma yields_Some {A} (P : A → Prop) o : yields P o → ∃ a, o = Some a ∧ P a.
Proof. destruct o; naive_solver. Qed.

Lemma yields_bind {A B} (P : A → Prop) (Q : B → Prop) (o : option A) (f : A → option B) :
  yields P o → (∀ a, P a → yields Q (f a)) → yields Q (o ≫= f).
Proof. destruct o; simpl; naive_solver. Qed.

Definition is32 (x : Z) : Prop := 0 ≤ x < 2 ^ 32.
Definition is64 (x : Z) : Prop := 0 ≤ x < 2 ^ 64.

Lemma w32_range x : is32 (w32 x).
Proof. apply Z.mod_pos_bound. lia. Qed.

Lemma w64_range x : is64 (w64 x).
Proof. apply Z.mod_pos_bound. lia. Qed.

(** A bitwise operation on two [k]-bit numbers is a [k]-bit number. *)
Lemma bits_range k x :
  0 ≤ k → 0 ≤ x → (∀ m, k ≤ m → Z.testbit x m = false) → x < 2 ^ k.
Proof.
  intros Hk Hx Hb. destruct (Z.eq_dec x 0) as [->|Hnz]; [by apply Z.pow_pos_nonneg|].
  apply Z.log2_lt_pow2; [lia|]. destruct (Z.lt_ge_cases (Z.log2 x) k); [done|].
  pose proof (Z.bit_log2 x ltac:(lia)). rewrite Hb in *; [done|lia].
Qed.

Lemma range_bits k x : 0 ≤ x < 2 ^ k → ∀ m, k ≤ m → Z.testbit x m = false.
Proof.
  intros [H0 H1] m Hm. destruct (Z.eq_dec x 0) as [->|]; [apply Z.bits_0|].
  apply Z.bits_above_log2; [done|]. assert (Z.log2 x < k); [|lia].
  apply Z.log2_lt_pow2; lia.
Qed.

Lemma lxor_shiftr_range k x j :
  0 ≤ k → 0 ≤ j → 0 ≤ x < 2 ^ k → 0 ≤ Z.lxor x (Z.shiftr x j) < 2 ^ k.
Proof.
  intros Hk Hj Hx. assert (0 ≤ Z.shiftr x j) by (apply Z.shiftr_nonneg; lia).
  assert (0 ≤ Z.lxor x (Z.shiftr x j)) by (apply Z.lxor_nonneg; lia).
  split; [done|]. apply bits_range; [done..|]. intros m Hm.
  rewrite Z.lxor_spec, Z.shiftr_spec, (range_bits k x Hx m), (range_bits k x Hx (m + j)) by lia.
  done.
Qed.

Lemma fmix_range x : is32 (fmix x).
Proof. unfold fmix, is32. apply lxor_shiftr_range; [lia..|]. apply w32_range. Qed.

Lemma HashLen16_range u v : is64 (HashLen16 u v).
Proof. apply w64_range. Qed.

#[export] Hint Resolve w32_range w64_range fmix_range HashLen16_range : nfd.

Section Lengths.
Context (bf : list Z) (s len : Z).
Context (Hs : 0 ≤ s) (Hlen : 0 ≤ len) (Hfit : s + len ≤ Z.of_nat (length bf)).

Lemma Hash32Len13to24_ok : 13 ≤ len → yields is32 (Hash32Len13to24 bf s len).
Proof using Hs Hlen Hfit. intros. unfold Hash32Len13to24. fetch. apply fmix_range. Qed.

Lemma Hash32Len0to4_loop_ok k i b c :
  0 ≤ i → i + Z.of_nat k ≤ len → yields (λ _, True) (Hash32Len0to4_loop bf s i k b c).
Proof using Hs Hfit.
  revert i b c. induction k as [|k IH]; intros i b c Hi Hk; [done|].
  cbn [Hash32Len0to4_loop]. fetch. apply IH; lia.
Qed.

Lemma Hash32Len0to4_ok : yields is32 (Hash32Len0to4 bf s len).
Proof using Hs Hlen Hfit.
  unfold Hash32Len0to4. eapply yields_bind; [apply Hash32Len0to4_loop_ok; lia|].
  intros [b c] _. apply fmix_range.
Qed.

Lemma Hash32Len5to12_ok : 8 ≤ len ∨ 5 ≤ len < 8 → yields is32 (Hash32Len5to12 bf s len).
Proof using Hs Hlen Hfit.
  intros Hl. assert (Z.land (Z.shiftr len 1) 4 + 4 ≤ len).
  { destruct Hl as [|Hl].
    - pose proof (land4_bound (Z.shiftr len 1)). lia.
    - assert (len = 5 ∨ len = 6 ∨ len = 7) as [->|[->| ->]] by lia; reflexivity || (vm_compute; congruence). }
  pose proof (land4_bound (Z.shiftr len 1)).
  unfold Hash32Len5to12. fetch. apply fmix_range.
Qed.

Lemma CityHash32_loop_ok k p f g h :
  0 ≤ p → p + 20 * Z.of_nat k ≤ Z.of_nat (length bf) →
  yields (λ _, True) (CityHash32_loop bf p k f g h).
Proof.
  revert p f g h. induction k as [|k IH]; intros p f g h Hp Hk; [done|].
  cbn [CityHash32_loop]. unfold CityHash32_iter. fetch. apply IH; lia.
Qed.

Lemma CityHash32_long_ok : 24 < len → yields is32 (CityHash32_long bf s len).
Proof using Hs Hlen Hfit.
  intros Hl. unfold CityHash32_long. fetch. eapply yields_bind.
  - apply CityHash32_loop_ok; [done|]. Z.to_euclidean_division_equations; lia.
  - intros [[f g] h] _. apply w32_range.
Qed.

Lemma HashLen0to16_ok : yields is64 (HashLen0to16 bf s len).
Proof using Hs Hlen Hfit.
  unfold HashLen0to16.
  destruct (Z.leb_spec 8 len); [fetch; apply w64_range|].
  destruct (Z.leb_spec 4 len); [fetch; apply w64_range|].
  destruct (Z.ltb_spec 0 len); [fetch; apply w64_range|].
  unfold yields, is64, k2. lia.
Qed.

Lemma HashLen17to32_ok : 16 < len → yields is64 (HashLen17to32 bf s len).
Proof using Hs Hlen Hfit. intros. unfold HashLen17to32. fetch. apply w64_range. Qed.

Lemma HashLen33to64_ok : 32 < len → yields is64 (HashLen33to64 bf s len).
Proof using Hs Hlen Hfit. intros. unfold HashLen33to64. fetch. apply w64_range. Qed.

Lemma WeakHashLen32WithSeeds_ok p a b :
  0 ≤ p → p + 32 ≤ Z.of_nat (length bf) →
  yields (λ r, is64 r.1 ∧ is64 r.2) (WeakHashLen32WithSeeds bf p a b).
Proof. intros. unfold WeakHashLen32WithSeeds. fetch. split; apply w64_range. Qed.

Lemma CityHash64_iter_ok p st :
  0 ≤ p → p + 64 ≤ Z.of_nat (length bf) → yields (λ _, True) (CityHash64_iter bf p st).
Proof.
  destruct st as [x y z v w]. intros Hp Hk. unfold CityHash64_iter. fetch.
  eapply yields_bind; [apply WeakHashLen32WithSeeds_ok; lia|]. intros v' _. fetch.
  eapply yields_bind; [apply WeakHashLen32WithSeeds_ok; lia|]. done.
Qed.

Lemma CityHash64_loop_ok k p st :
  0 ≤ p → p + 64 * Z.of_nat k ≤ Z.of_nat (length bf) →
  yields (λ _, True) (CityHash64_loop bf p k st).
Proof.
  revert p st. induction k as [|k IH]; intros p st Hp Hk; [done|].
  cbn [CityHash64_loop]. eapply yields_bind; [apply CityHash64_iter_ok; lia|].
  intros st' _. apply IH; lia.
Qed.

Lemma CityHash64_long_ok : 64 < len → yields is64 (CityHash64_long bf s len).
Proof using Hs Hlen Hfit.
  intros Hl. unfold CityHash64_long. fetch.
  eapply yields_bind; [apply WeakHashLen32WithSeeds_ok; lia|]. intros v _. fetch.
  eapply yields_bind; [apply WeakHashLen32WithSeeds_ok; lia|]. intros w _. fetch.
  eapply yields_bind.
  - apply CityHash64_loop_ok; [done|]. Z.to_euclidean_division_equations; lia.
  - intros [? ? ? ? ?] _. apply w64_range.
Qed.

Lemma CityHash64_ok : yields is64 (CityHash64 bf s len).
Proof using Hs Hlen Hfit.
  unfold CityHash64.
  destruct (Z.leb_spec len 32); [destruct (Z.leb_spec len 16)|destruct (Z.leb_spec len 64)];
    [apply HashLen0to16_ok|apply HashLen17to32_ok|apply HashLen33to64_ok|apply CityHash64_long_ok]; lia.
Qed.

Lemma CityHash32_ok : yields is32 (CityHash32 bf s len).
Proof using Hs Hlen Hfit.
  unfold CityHash32.
  destruct (Z.leb_spec len 24); [|by apply CityHash32_long_ok].
  destruct (Z.leb_spec len 12); [|apply Hash32Len13to24_ok; lia].
  destruct (Z.leb_spec len 4); [apply Hash32Len0to4_ok|apply Hash32Len5to12_ok; lia].
Qed.

Lemma CityHash64WithSeed_ok seed : yields is64 (CityHash64WithSeed bf s len seed).
Proof using Hs Hlen Hfit.
  unfold CityHash64WithSeed, CityHash64WithSeeds.
  eapply yields_bind; [apply CityHash64_ok|]. intros h _. apply HashLen16_range.
Qed.
End Lengths.

(** ** Correctness *)

(** C38: [CityHash64] and [CityHash32] read only the [len] bytes they are given,
    whatever the length, and return a value of their width; the arithmetic
    offsets of the tail reads of the long inputs included. *)
Theorem cityhash_in_bounds (bf : list Z) (s len : Z) :
  0 ≤ s → 0 ≤ len → s + len ≤ Z.of_nat (length bf) →
  (∃ h, CityHash64 bf s len = Some h ∧ 0 ≤ h < 2 ^ 64) ∧
  (∃ h, CityHash32 bf s len = Some h ∧ 0 ≤ h < 2 ^ 32).
Proof.
  intros Hs Hl Hb. split; apply yields_Some; [by apply CityHash64_ok|by apply CityHash32_ok].
Qed.

Lemma cityhash_in_bounds_witness :
  (∃ h, CityHash64 [1; 2; 3; 4; 5] 1 4 = Some h ∧ 0 ≤ h < 2 ^ 64) ∧
  (∃ h, CityHash32 [1; 2; 3; 4; 5] 1 4 = Some h ∧ 0 ≤ h < 2 ^ 32).
Proof. apply (cityhash_in_bounds [1; 2; 3; 4; 5] 1 4); [lia|lia|simpl; lia]. Defined.
