(* ===== verification/Ndn.v ===== *)
(** * The ndn-cxx interface

    Names, packets and tags come from the ndn-cxx library, which is not part of
    the repository.  The types and functions of it the forwarder calls are the
    fields of the classes [NdnCxx] and [NdnPacket]; what the forwarder relies on
    is stated, from the library's documentation, in [NdnCxxLaws] and
    [NdnPacketLaws].  [NatNdn] and [NatPacket] instantiate the classes. *)

From Stdlib Require Import ZArith Lia.
From stdpp Require Import base gmap option list.
From S2P Require Import Prelude.

(** ** Names *)

Class NdnCxx := {
  Component : Type;
  comp_eqdec :: EqDecision Component;
  comp_countable :: Countable Component;
  (** [Component::compare], the canonical order *)
  comp_compare : Component → Component → comparison;
  (** [Component::wire], the TLV encoding *)
  comp_wire : Component → list Z;
  isImplicitSha256Digest : Component → bool;
  isVersion : Component → bool;
  toVersion : Component → Z;
  (** [Name::wireEncode] *)
  name_wire : list Component → list Z;
  (** [Name::getSuccessor] *)
  getSuccessor : list Component → list Component;
}.

(** [ndn::Name], a sequence of components. *)
Abbreviation Name := (list Component).

Section Name.
Context {N : NdnCxx}.

(** [name.getPrefix(-1)] *)
Definition getParentName (n : Name) : Name := take (length n - 1) n.

Definition isPrefixOf (a b : Name) : bool := bool_decide (a `prefix_of` b).

(** [name[-1]] satisfies [p]; false on the empty name. *)
Definition lastIs (p : Component → bool) (n : Name) : bool :=
  match last n with Some c => p c | None => false end.

(** [Name::compare], the canonical order: component by component, a proper
    prefix first. *)
Fixpoint name_compare (a b : list Component) : comparison :=
  match a, b with
  | [], [] => Eq
  | [], _ :: _ => Lt
  | _ :: _, [] => Gt
  | x :: a', y :: b' =>
      match comp_compare x y with
      | Eq => name_compare a' b'
      | c => c
      end
  end.

Definition name_ltb (a b : Name) : bool :=
  match name_compare a b with Lt => true | _ => false end.
End Name.

Class NdnCxxLaws (N : NdnCxx) : Prop := {
  comp_compare_eq : ∀ a b, comp_compare a b = Eq ↔ a = b;
  comp_compare_antisym : ∀ a b, comp_compare b a = CompOpp (comp_compare a b);
  comp_compare_trans : ∀ a b c, comp_compare a b = Lt → comp_compare b c = Lt → comp_compare a c = Lt;
  (** The successor of [x] is the least name greater than [x] that [x] is not a
      prefix of. *)
  successor_lt : ∀ x, x ≠ [] → name_compare x (getSuccessor x) = Lt;
  successor_not_prefix : ∀ x, x ≠ [] → ¬ x `prefix_of` getSuccessor x;
  successor_least : ∀ x z, x ≠ [] → ¬ x `prefix_of` z → name_compare x z = Lt →
    name_compare (getSuccessor x) z ≠ Gt;
  (** It is the same name with its last component advanced to the next value. *)
  successor_parent : ∀ x, x ≠ [] → ∃ c, getSuccessor x = getParentName x ++ [c];
  (** Components are ordered by type first; the implicit digest has the least
      type number. *)
  digest_first : ∀ a b, isImplicitSha256Digest a = true → isImplicitSha256Digest b = false → comp_compare a b = Lt;
}.

Section NameOrder.
Context {N : NdnCxx} {NL : NdnCxxLaws N}.
Implicit Types (a b c : Name).

Lemma comp_compare_refl x : comp_compare x x = Eq.
Proof. by apply comp_compare_eq. Qed.

Lemma name_compare_eq a b : name_compare a b = Eq ↔ a = b.
Proof.
  revert b. induction a as [|x a IH]; intros [|y b]; simpl; try done.
  destruct (comp_compare x y) eqn:E.
  - apply comp_compare_eq in E as ->. rewrite IH. naive_solver.
  - split; [done|]. intros [= <- <-]. by rewrite comp_compare_refl in E.
  - split; [done|]. intros [= <- <-]. by rewrite comp_compare_refl in E.
Qed.

Lemma name_compare_refl a : name_compare a a = Eq.
Proof. by apply name_compare_eq. Qed.

Lemma name_compare_antisym a b : name_compare b a = CompOpp (name_compare a b).
Proof.
  revert b. induction a as [|x a IH]; intros [|y b]; simpl; try done.
  rewrite (comp_compare_antisym x y). destruct (comp_compare x y); simpl; auto.
Qed.

Lemma name_compare_gt a b : name_compare a b = Gt ↔ name_compare b a = Lt.
Proof. rewrite (name_compare_antisym a b). by destruct (name_compare a b). Qed.

Lemma name_compare_trans a b c :
  name_compare a b = Lt → name_compare b c = Lt → name_compare a c = Lt.
Proof.
  revert b c. induction a as [|x a IH]; intros [|y b] [|z c]; simpl; try done.
  destruct (comp_compare x y) eqn:E1, (comp_compare y z) eqn:E2; try done.
  - apply comp_compare_eq in E1, E2. subst. rewrite comp_compare_refl. apply IH.
  - apply comp_compare_eq in E1 as ->. by rewrite E2.
  - apply comp_compare_eq in E2 as ->. by rewrite E1.
  - by rewrite (comp_compare_trans x y z).
Qed.

Lemma name_compare_prefix a b : a `prefix_of` b → name_compare a b ≠ Gt.
Proof.
  intros [k ->]. induction a as [|x a IH]; simpl; [by destruct k|].
  by rewrite comp_compare_refl.
Qed.

(** Names that [a] is a prefix of form an interval of the canonical order. *)
Lemma name_compare_convex a b c :
  name_compare a b ≠ Gt → name_compare b c ≠ Gt → a `prefix_of` c → a `prefix_of` b.
Proof.
  revert b c. induction a as [|x a IH]; intros b c H1 H2 Hp; [apply prefix_nil|].
  destruct c as [|z c]; [by apply prefix_nil_not in Hp|].
  apply prefix_cons_inv_1 in Hp as Hx. apply prefix_cons_inv_2 in Hp. subst z.
  destruct b as [|y b]; [done|]. simpl in *.
  destruct (comp_compare x y) eqn:E1; [|..|done].
  - apply comp_compare_eq in E1 as <-. rewrite comp_compare_refl in H2.
    apply prefix_cons. eauto.
  - rewrite comp_compare_antisym, E1 in H2. done.
Qed.

Lemma successor_range x z :
  x ≠ [] → (x `prefix_of` z ↔ name_compare x z ≠ Gt ∧ name_compare z (getSuccessor x) = Lt).
Proof.
  intros Hx. split.
  - intros Hp. split; [by apply name_compare_prefix|].
    destruct (name_compare z (getSuccessor x)) eqn:E; [|done|].
    + apply name_compare_eq in E as ->. by apply successor_not_prefix in Hp.
    + exfalso. apply (successor_not_prefix x Hx).
      apply (name_compare_convex x (getSuccessor x) z); [..|done].
      * by rewrite successor_lt.
      * apply name_compare_gt in E. by rewrite E.
  - intros [H1 H2]. destruct (decide (x `prefix_of` z)) as [|Hn]; [done|exfalso].
    destruct (name_compare x z) eqn:E; [|..|done].
    + apply name_compare_eq in E as ->. by apply Hn.
    + apply (successor_least x z) in E; [|done..].
      apply E, name_compare_gt. done.
Qed.
End NameOrder.

(** ** Packets *)

Section Packets.
Context {N : NdnCxx}.

(** The fields of an Interest and the link-layer tags attached to it. *)
Record Interest := mkInterest {
  i_name : Name;
  i_canBePrefix : bool;
  i_mustBeFresh : bool;
  i_forwardingHint : list Name;
  i_nonce : Z;
  i_lifetime : Z; (* milliseconds *)
  i_hopLimit : option Z;
  i_incomingFaceId : option Z;
  i_nextHopFaceId : option Z;
  i_pitToken : option (list Z);
}.

(** [setHopLimit] *)
Definition setHopLimit (h : option Z) (i : Interest) : Interest :=
  mkInterest (i_name i) (i_canBePrefix i) (i_mustBeFresh i) (i_forwardingHint i) (i_nonce i)
    (i_lifetime i) h (i_incomingFaceId i) (i_nextHopFaceId i) (i_pitToken i).

(** [setForwardingHint] *)
Definition setForwardingHint (fh : list Name) (i : Interest) : Interest :=
  mkInterest (i_name i) (i_canBePrefix i) (i_mustBeFresh i) fh (i_nonce i)
    (i_lifetime i) (i_hopLimit i) (i_incomingFaceId i) (i_nextHopFaceId i) (i_pitToken i).

(** [setTag(make_shared<lp::IncomingFaceIdTag>(id))] *)
Definition setIncomingFaceId (id : option Z) (i : Interest) : Interest :=
  mkInterest (i_name i) (i_canBePrefix i) (i_mustBeFresh i) (i_forwardingHint i) (i_nonce i)
    (i_lifetime i) (i_hopLimit i) id (i_nextHopFaceId i) (i_pitToken i).

(** [removeTag<lp::PitToken>()] *)
Definition removePitToken (i : Interest) : Interest :=
  mkInterest (i_name i) (i_canBePrefix i) (i_mustBeFresh i) (i_forwardingHint i) (i_nonce i)
    (i_lifetime i) (i_hopLimit i) (i_incomingFaceId i) (i_nextHopFaceId i) None.

(** A Data packet: [d_digest] is the implicit digest component of its full name. *)
Record Data := mkData {
  d_name : Name;
  d_digest : Component;
  d_freshnessPeriod : Z; (* milliseconds *)
  d_noCache : bool; (* a CachePolicyTag with policy NO_CACHE *)
  d_incomingFaceId : option Z;
  d_pitToken : option (list Z);
}.

Definition d_fullName (d : Data) : Name := d_name d ++ [d_digest d].

Definition setDataIncomingFaceId (id : option Z) (d : Data) : Data :=
  mkData (d_name d) (d_digest d) (d_freshnessPeriod d) (d_noCache d) id (d_pitToken d).

Definition setDataPitToken (t : option (list Z)) (d : Data) : Data :=
  mkData (d_name d) (d_digest d) (d_freshnessPeriod d) (d_noCache d) (d_incomingFaceId d) t.

Inductive NackReason := NACK_NONE | NACK_CONGESTION | NACK_DUPLICATE | NACK_NO_ROUTE.

Record Nack := mkNack {
  nack_interest : Interest;
  nack_reason : NackReason;
  nack_incomingFaceId : option Z;
}.

Definition setNackIncomingFaceId (id : option Z) (n : Nack) : Nack := mkNack (nack_interest n) (nack_reason n) id.
End Packets.

Arguments Interest {N}.
Arguments Data {N}.
Arguments Nack {N}.

#[export] Instance NackReason_eqdec : EqDecision NackReason.
Proof. solve_decision. Defined.

#[export] Instance Interest_eqdec `{NdnCxx} : EqDecision Interest.
Proof. solve_decision. Defined.

#[export] Instance Data_eqdec `{NdnCxx} : EqDecision Data.
Proof. solve_decision. Defined.

Class NdnPacket (N : NdnCxx) := {
  (** [Interest::matchesData] *)
  matchesData : Interest → Data → bool;
  (** [lp::isLessSevere] *)
  isLessSevere : NackReason → NackReason → bool;
}.

(** Severity grows from Congestion over Duplicate to NoRoute; [NACK_NONE] is the
    most severe. *)
Definition nack_rank (r : NackReason) : nat :=
  match r with NACK_CONGESTION => 0 | NACK_DUPLICATE => 1 | NACK_NO_ROUTE => 2 | NACK_NONE => 3 end.

Class NdnPacketLaws (N : NdnCxx) (P : NdnPacket N) : Prop := {
  (** [matchesData] considers Name and CanBePrefix: the full name, which ends
      with the implicit digest, the exact name, or a prefix of the name when
      CanBePrefix is set. *)
  matchesData_spec : ∀ i d,
    matchesData i d = true →
    (i_name i = d_fullName d ∧ isImplicitSha256Digest (d_digest d) = true) ∨ i_name i = d_name d ∨
    (i_canBePrefix i = true ∧ i_name i `prefix_of` d_name d);
  (** Nothing else of the packets is looked at. *)
  matchesData_ext : ∀ i j d d',
    i_name i = i_name j → i_canBePrefix i = i_canBePrefix j → d_name d = d_name d' → d_digest d = d_digest d' →
    matchesData i d = matchesData j d';
  isLessSevere_spec : ∀ a b, isLessSevere a b = true ↔ (nack_rank a < nack_rank b)%nat;
}.

Section Matching.
Context {N : NdnCxx} {P : NdnPacket N} {PL : NdnPacketLaws N P}.

Lemma matchesData_prefix i d : matchesData i d = true → i_name i `prefix_of` d_fullName d.
Proof.
  intros H. destruct (matchesData_spec i d H) as [[-> _] |[-> |[_ Hp]]].
  - done.
  - by exists [d_digest d].
  - by apply prefix_app_r.
Qed.
End Matching.

(** ** Faces

    A face is an object with identity; its identifier is assigned by the face
    table and is [INVALID_FACEID] before insertion and after removal. *)

Inductive FaceScope := FACE_SCOPE_NON_LOCAL | FACE_SCOPE_LOCAL.
Inductive LinkType := LINK_TYPE_POINT_TO_POINT | LINK_TYPE_MULTI_ACCESS | LINK_TYPE_AD_HOC.

#[export] Instance FaceScope_eqdec : EqDecision FaceScope.
Proof. solve_decision. Defined.
#[export] Instance LinkType_eqdec : EqDecision LinkType.
Proof. solve_decision. Defined.

Abbreviation FacePtr := positive.

Record Face := mkFace {
  f_id : Z;
  f_scope : FaceScope;
  f_linkType : LinkType;
  f_nInHopLimitZero : Z;
  f_nOutHopLimitZero : Z;
}.

Definition INVALID_FACEID : Z := 0.
Definition FACEID_CONTENT_STORE : Z := 254.
Definition FACEID_RESERVED_MAX : Z := 255.

(** ** An instance

    Components are natural numbers in their usual order; those below 100 stand
    for implicit digests and those from 1000 on for versions. *)

Definition nat_matchesData_fn (iname dname : list nat) (digest : nat) (cbp : bool) : bool :=
  (bool_decide (iname = dname ++ [digest]) && (digest <? 100)) || bool_decide (iname = dname) ||
  (cbp && bool_decide (iname `prefix_of` dname)).

Fixpoint nat_successor (l : list nat) : list nat :=
  match l with
  | [] => [0]
  | [x] => [S x]
  | x :: l' => x :: nat_successor l'
  end.

#[export] Instance NatNdn : NdnCxx := {|
  Component := nat;
  comp_compare := Nat.compare;
  comp_wire := λ c, [8; 1; Z.of_nat c mod 256]%Z;
  isImplicitSha256Digest := λ c, c <? 100;
  isVersion := λ c, 1000 <=? c;
  toVersion := λ c, Z.of_nat (c - 1000);
  name_wire := λ n, (7 :: Z.of_nat (length n) :: ((λ c, Z.of_nat c mod 256) <$> n))%Z;
  getSuccessor := nat_successor;
|}.

Lemma nat_successor_props (x : list nat) :
  x ≠ [] →
  name_compare x (nat_successor x) = Lt ∧ ¬ x `prefix_of` nat_successor x ∧
  (∀ z, ¬ x `prefix_of` z → name_compare x z = Lt → name_compare (nat_successor x) z ≠ Gt).
Proof.
  induction x as [|a x IH]; [done|]. intros _. destruct x as [|b x].
  - cbn -[Nat.compare]. split_and!.
    + assert ((a ?= S a) = Lt) as -> by (apply Nat.compare_lt_iff; lia). done.
    + intros Hp%prefix_cons_inv_1. lia.
    + intros [|y z]; [done|]. intros Hp. cbn -[Nat.compare].
      destruct (Nat.compare_spec a y) as [->|Hlt|Hgt]; [intros _|intros _|done].
      * destruct Hp. apply prefix_cons, prefix_nil.
      * destruct (Nat.compare_spec (S a) y); [by destruct z|done|lia].
  - destruct IH as (IH1 & IH2 & IH3); [done|].
    change (nat_successor (a :: b :: x)) with (a :: nat_successor (b :: x)).
    cbn -[nat_successor Nat.compare] in *. rewrite Nat.compare_refl. split_and!; [done|..].
    + intros Hp%prefix_cons_inv_2. done.
    + intros [|y z]; [done|]. intros Hp. cbn -[nat_successor Nat.compare].
      destruct (Nat.compare_spec a y) as [->|Hlt|Hgt]; [|done..].
      apply IH3. intros ?. destruct Hp. by apply prefix_cons.
Qed.

Lemma nat_successor_parent (x : list nat) :
  x ≠ [] → ∃ c, nat_successor x = getParentName (N := NatNdn) x ++ [c].
Proof.
  unfold getParentName. induction x as [|a x IH]; [done|]. intros _. destruct x as [|b x]; [by exists (S a)|].
  destruct IH as [c IH]; [done|]. exists c. change (nat_successor (a :: b :: x)) with (a :: nat_successor (b :: x)).
  rewrite IH. simpl. by rewrite Nat.sub_0_r.
Qed.

#[export] Instance NatNdnLaws : NdnCxxLaws NatNdn.
Proof.
  split; cbn -[nat_successor Nat.ltb].
  - apply Nat.compare_eq_iff.
  - intros a b. apply Nat.compare_antisym.
  - intros a b c. rewrite !Nat.compare_lt_iff. lia.
  - intros x Hx. by apply nat_successor_props.
  - intros x Hx. by apply nat_successor_props.
  - intros x z Hx. by apply nat_successor_props.
  - intros x Hx. by apply nat_successor_parent.
  - intros a b. intros Ha%Nat.ltb_lt Hb%Nat.ltb_ge. apply Nat.compare_lt_iff. lia.
Qed.

#[export] Instance NatPacket : NdnPacket NatNdn := {|
  matchesData := λ i d, nat_matchesData_fn (i_name i) (d_name d) (d_digest d) (i_canBePrefix i);
  isLessSevere := λ a b, nack_rank a <? nack_rank b;
|}.

#[export] Instance NatPacketLaws : NdnPacketLaws NatNdn NatPacket.
Proof.
  split.
  - intros i d. cbn -[Nat.ltb]. unfold nat_matchesData_fn.
    rewrite !orb_true_iff, !andb_true_iff, !bool_decide_eq_true. naive_solver.
  - intros i j d d' E1 E2 E3 E4. cbn -[Nat.ltb]. by rewrite E1, E2, E3, E4.
  - intros a b. apply Nat.ltb_lt.
Qed.

(** Packets for examples. *)
Definition exInterest (name : list nat) (canBePrefix : bool) (nonce : Z) : Interest (N := NatNdn) :=
  mkInterest (N := NatNdn) name canBePrefix false [] nonce 4000 None None None None.
Definition exData (name : list nat) (freshness : Z) : Data (N := NatNdn) :=
  mkData (N := NatNdn) name 5 freshness false None None.
