(* ===== verification/FibEntry.v ===== *)
(** * FIB entries

    [daemon/table/fib-nexthop.hpp] and [daemon/table/fib-entry.cpp].  A
    [NextHopList::iterator] is the index of the element it points to.
    [std::sort] leaves the order of equivalent elements open, so the entry is
    modelled over any function with the contract of [std::sort]. *)

From Stdlib Require Import ZArith Lia.
From stdpp Require Import base gmap option sorting list.
From S2P Require Import Prelude Ndn.

(** ** std::sort *)

(** [std::sort(first, last, [] (a, b) { return key(a) < key(b); })] *)
Class StdSort := { std_sort : ∀ {A : Type}, (A → Z) → list A → list A }.

Definition key_le {A} (key : A → Z) (a b : A) : Prop := (key a ≤ key b)%Z.

Class StdSortLaws (SS : StdSort) : Prop := {
  std_sort_perm : ∀ {A} (key : A → Z) l, std_sort key l ≡ₚ l;
  std_sort_sorted : ∀ {A} (key : A → Z) l, StronglySorted (key_le key) (std_sort key l);
}.

(** Insertion sort, one function with this contract. *)
Fixpoint sort_insert {A} (key : A → Z) (x : A) (l : list A) : list A :=
  match l with
  | [] => [x]
  | y :: l' => if (key x <? key y)%Z then x :: y :: l' else y :: sort_insert key x l'
  end.

Definition insertion_sort {A} (key : A → Z) (l : list A) : list A :=
  foldl (λ acc x, sort_insert key x acc) [] l.

#[export] Instance InsertionSort : StdSort := {| std_sort := @insertion_sort |}.

Lemma sort_insert_perm {A} (key : A → Z) x l : sort_insert key x l ≡ₚ x :: l.
Proof.
  induction l as [|y l IH]; simpl; [done|]. destruct (Z.ltb _ _); [done|].
  rewrite IH. by constructor.
Qed.

Lemma sort_insert_sorted {A} (key : A → Z) x l :
  StronglySorted (key_le key) l → StronglySorted (key_le key) (sort_insert key x l).
Proof.
  induction 1 as [|y l Hs IH Hall]; simpl; [by repeat constructor|].
  destruct (Z.ltb_spec (key x) (key y)).
  - constructor; [by constructor|]. constructor; [unfold key_le; lia|].
    eapply Forall_impl; [exact Hall|]. unfold key_le. simpl. lia.
  - constructor; [done|]. rewrite sort_insert_perm. constructor; [unfold key_le; lia|done].
Qed.

#[export] Instance InsertionSortLaws : StdSortLaws InsertionSort.
Proof.
  assert (H : ∀ A (key : A → Z) l acc,
    StronglySorted (key_le key) acc →
    foldl (λ acc x, sort_insert key x acc) acc l ≡ₚ l ++ acc ∧
    StronglySorted (key_le key) (foldl (λ acc x, sort_insert key x acc) acc l)).
  { intros A key l. induction l as [|x l IH]; intros acc Hacc; [done|]. simpl.
    destruct (IH (sort_insert key x acc)) as [H1 H2]; [by apply sort_insert_sorted|].
    split; [|done]. rewrite H1, sort_insert_perm. by rewrite Permutation_middle. }
  split; intros A key l.
  - destruct (H A key l []) as [Hp _]; [constructor|]. by rewrite app_nil_r in Hp.
  - apply (H A key l []). constructor.
Qed.

(** ** fib::NextHop and fib::Entry *)

Record NextHop := mkNextHop { nh_face : FacePtr; nh_cost : Z }.

#[export] Instance NextHop_eqdec : EqDecision NextHop.
Proof. solve_decision. Defined.

Definition setCost (cost : Z) (nh : NextHop) : NextHop := mkNextHop (nh_face nh) cost.

Section FibEntry.
Context {N : NdnCxx} {SS : StdSort}.

Record FibEntry := mkFibEntry { fe_prefix : Name; fe_nextHops : list NextHop }.

(** [std::find_if] for the nexthop of [face]; [None] is the end iterator. *)
Definition findNextHop (e : FibEntry) (face : FacePtr) : option nat :=
  fst <$> list_find (λ nh, nh_face nh = face) (fe_nextHops e).

Definition hasNextHop (e : FibEntry) (face : FacePtr) : bool :=
  match findNextHop e face with Some _ => true | None => false end.

Definition hasNextHops (e : FibEntry) : bool :=
  match fe_nextHops e with [] => false | _ => true end.

Definition sortNextHops (e : FibEntry) : FibEntry :=
  mkFibEntry (fe_prefix e) (std_sort nh_cost (fe_nextHops e)).

(** Returns the iterator obtained before the list is sorted. *)
Definition FibEntry_addOrUpdateNextHop (e : FibEntry) (face : FacePtr) (cost : Z)
  : FibEntry * (nat * bool) :=
  let '(nhs, it, isNew) :=
    match findNextHop e face with
    | Some i => (fe_nextHops e, i, false)
    | None => (fe_nextHops e ++ [mkNextHop face 0], length (fe_nextHops e), true)
    end in
  let nhs := alter (setCost cost) it nhs in
  (sortNextHops (mkFibEntry (fe_prefix e) nhs), (it, isNew)).

Definition FibEntry_removeNextHop (e : FibEntry) (face : FacePtr) : FibEntry * bool :=
  match findNextHop e face with
  | Some i => (mkFibEntry (fe_prefix e) (delete i (fe_nextHops e)), true)
  | None => (e, false)
  end.
End FibEntry.

(** ** Invariant: one nexthop per face, in increasing order of cost *)

Section FibEntryFacts.
Context {N : NdnCxx} {SS : StdSort} {SSL : StdSortLaws SS}.
Implicit Types (e : FibEntry) (nhs : list NextHop) (face : FacePtr).

Definition FibEntry_wf e : Prop :=
  NoDup (nh_face <$> fe_nextHops e) ∧ StronglySorted (key_le nh_cost) (fe_nextHops e).

(** The cost recorded for a face. *)
Definition costOf e face : option Z :=
  nh_cost <$> List.find (λ nh, bool_decide (nh_face nh = face)) (fe_nextHops e).

Lemma costOf_elem e face c :
  NoDup (nh_face <$> fe_nextHops e) →
  costOf e face = Some c ↔ mkNextHop face c ∈ fe_nextHops e.
Proof.
  unfold costOf. destruct e as [p l]. simpl. induction l as [|[f k] l IH]; simpl.
  { intros _. split; [done|]. by intros ?%elem_of_nil. }
  rewrite NoDup_cons. intros [Hf Hn]. rewrite elem_of_cons. case_bool_decide as E; simpl in *.
  - subst. split; [naive_solver|]. intros [[= <-]|Hin]; [done|].
    destruct Hf. apply list_elem_of_fmap. by exists (mkNextHop face c).
  - rewrite IH by done. split; [by right|]. intros [[= <- <-]|]; done.
Qed.

Lemma findNextHop_None e face : findNextHop e face = None ↔ face ∉ nh_face <$> fe_nextHops e.
Proof.
  unfold findNextHop. rewrite fmap_None, list_find_None, Forall_forall.
  rewrite list_elem_of_fmap. naive_solver.
Qed.

Lemma findNextHop_Some e face i :
  findNextHop e face = Some i → ∃ nh, fe_nextHops e !! i = Some nh ∧ nh_face nh = face.
Proof.
  unfold findNextHop. rewrite fmap_Some. intros ([j nh] & Hf & ->).
  apply list_find_Some in Hf as (? & ? & _). eauto.
Qed.

Lemma alter_setCost_faces c i nhs : nh_face <$> alter (setCost c) i nhs = nh_face <$> nhs.
Proof.
  revert i. induction nhs as [|nh nhs IH]; intros [|i]; simpl; [done..|].
  f_equal. apply IH.
Qed.

Lemma addOrUpdate_faces e face cost :
  nh_face <$> fe_nextHops (FibEntry_addOrUpdateNextHop e face cost).1 ≡ₚ
  (if decide (face ∈ nh_face <$> fe_nextHops e) then [] else [face]) ++ (nh_face <$> fe_nextHops e).
Proof.
  unfold FibEntry_addOrUpdateNextHop. destruct (findNextHop e face) as [i|] eqn:E; simpl.
  - rewrite std_sort_perm, alter_setCost_faces.
    destruct (findNextHop_Some _ _ _ E) as (nh & Hnh & <-).
    rewrite decide_True; [done|]. apply list_elem_of_fmap. eauto using list_elem_of_lookup_2.
  - rewrite std_sort_perm, alter_setCost_faces, fmap_app. simpl.
    rewrite decide_False by (by apply findNextHop_None). by rewrite Permutation_app_comm.
Qed.

Lemma addOrUpdate_wf e face cost :
  NoDup (nh_face <$> fe_nextHops e) → FibEntry_wf (FibEntry_addOrUpdateNextHop e face cost).1.
Proof.
  intros Hn. split.
  - rewrite addOrUpdate_faces. case_decide; [done|]. by apply NoDup_cons.
  - unfold FibEntry_addOrUpdateNextHop.
    destruct (findNextHop e face); simpl; apply std_sort_sorted.
Qed.

Lemma elem_of_alter_setCost e face cost i nh :
  NoDup (nh_face <$> fe_nextHops e) → fe_nextHops e !! i = Some nh → nh_face nh = face →
  ∀ x, x ∈ alter (setCost cost) i (fe_nextHops e) ↔
    x = mkNextHop face cost ∨ (x ∈ fe_nextHops e ∧ nh_face x ≠ face).
Proof.
  intros Hn Hi <- x. rewrite !list_elem_of_lookup. split.
  - intros [j Hj]. rewrite list_lookup_alter in Hj. case_decide as E.
    + subst j. rewrite Hi in Hj. injection Hj as <-. by left.
    + right. split; [eauto|]. intros Hf. apply E.
      eapply (NoDup_lookup _ i j (nh_face nh) Hn); rewrite list_lookup_fmap; [by rewrite Hi|].
      by rewrite Hj, <- Hf.
  - intros [-> |[[j Hj] Hf]].
    + exists i. rewrite list_lookup_alter, decide_True, Hi by done. done.
    + exists j. rewrite list_lookup_alter, decide_False; [done|]. intros ->. congruence.
Qed.

(** Adding or updating sets the cost of [face] and leaves the others alone. *)
Lemma addOrUpdate_costOf e face cost :
  NoDup (nh_face <$> fe_nextHops e) →
  ∀ f, costOf (FibEntry_addOrUpdateNextHop e face cost).1 f =
       if decide (f = face) then Some cost else costOf e f.
Proof.
  intros Hn f. destruct (addOrUpdate_wf e face cost Hn) as [Hn' _].
  apply option_eq. intros c. rewrite costOf_elem by done.
  assert (Hel : ∀ x, x ∈ fe_nextHops (FibEntry_addOrUpdateNextHop e face cost).1 ↔
    x = mkNextHop face cost ∨ (x ∈ fe_nextHops e ∧ nh_face x ≠ face)).
  { intros x. unfold FibEntry_addOrUpdateNextHop.
    destruct (findNextHop e face) as [i|] eqn:E; simpl; rewrite std_sort_perm.
    - destruct (findNextHop_Some _ _ _ E) as (nh & Hnh & Hf).
      eapply elem_of_alter_setCost; eauto.
    - assert (alter (setCost cost) (length (fe_nextHops e)) (fe_nextHops e ++ [mkNextHop face 0])
        = fe_nextHops e ++ [mkNextHop face cost]) as ->.
      { rewrite alter_app_r_alt, Nat.sub_diag by done. done. }
      rewrite elem_of_app, list_elem_of_singleton.
      apply findNextHop_None in E. split; [|naive_solver].
      intros [Hin| ->]; [|by left]. right. split; [done|]. intros Hf. apply E.
      apply list_elem_of_fmap. eauto. }
  rewrite Hel. case_decide as Hc.
  - subst. split; [|intros [= <-]; by left]. intros [[= ->]|[_ ?]]; done.
  - rewrite costOf_elem by done. split; [|naive_solver]. intros [[= -> _]|[? _]]; done.
Qed.

Lemma remove_wf e face : FibEntry_wf e → FibEntry_wf (FibEntry_removeNextHop e face).1.
Proof.
  intros [Hn Hs]. unfold FibEntry_removeNextHop. destruct (findNextHop e face) as [i|]; [|done].
  split; simpl.
  - eapply sublist_NoDup; [exact Hn|]. apply sublist_fmap_mono, sublist_delete.
  - eapply StronglySorted_sublist; [apply sublist_delete|done].
Qed.

Lemma remove_result e face :
  (FibEntry_removeNextHop e face).2 = true ↔ face ∈ nh_face <$> fe_nextHops e.
Proof.
  unfold FibEntry_removeNextHop. destruct (findNextHop e face) as [i|] eqn:E; simpl.
  - split; [|done]. intros _. destruct (findNextHop_Some _ _ _ E) as (nh & Hnh & <-).
    apply list_elem_of_fmap. eauto using list_elem_of_lookup_2.
  - apply findNextHop_None in E. done.
Qed.

Lemma remove_elem_of e face :
  NoDup (nh_face <$> fe_nextHops e) →
  ∀ x, x ∈ fe_nextHops (FibEntry_removeNextHop e face).1 ↔ x ∈ fe_nextHops e ∧ nh_face x ≠ face.
Proof.
  intros Hn x. unfold FibEntry_removeNextHop. destruct (findNextHop e face) as [i|] eqn:E; simpl.
  - destruct (findNextHop_Some _ _ _ E) as (nh & Hnh & <-). by apply elem_of_delete_NoDup.
  - apply findNextHop_None in E. split; [|naive_solver]. intros Hx. split; [done|].
    intros <-. apply E, list_elem_of_fmap. eauto.
Qed.

Lemma remove_costOf e face :
  FibEntry_wf e →
  ∀ f, costOf (FibEntry_removeNextHop e face).1 f = if decide (f = face) then None else costOf e f.
Proof.
  intros Hwf f. destruct (remove_wf e face Hwf) as [Hn' _]. destruct Hwf as [Hn _].
  apply option_eq. intros c. rewrite costOf_elem, remove_elem_of by done. simpl.
  case_decide; [naive_solver|]. rewrite costOf_elem by done. naive_solver.
Qed.

(** The iterator [addOrUpdateNextHop] returns for a new nexthop: the last
    position, which after sorting holds a nexthop of greatest cost. *)
Lemma costOf_None e face :
  NoDup (nh_face <$> fe_nextHops e) → costOf e face = None ↔ face ∉ nh_face <$> fe_nextHops e.
Proof.
  intros Hn. rewrite eq_None_not_Some. apply not_iff_compat. rewrite list_elem_of_fmap. split.
  - intros [c Hc%costOf_elem]; [|done]. by exists (mkNextHop face c).
  - intros ([f c] & -> & Hnh). exists c. by apply costOf_elem.
Qed.

Lemma remove_empty e face :
  NoDup (nh_face <$> fe_nextHops e) →
  fe_nextHops (FibEntry_removeNextHop e face).1 = [] ↔ ∀ nh, nh ∈ fe_nextHops e → nh_face nh = face.
Proof.
  intros Hn. pose proof (remove_elem_of e face Hn) as Hrem. split.
  - intros Hnil nh Hnh. destruct (decide (nh_face nh = face)) as [|Hne]; [done|].
    assert (nh ∈ fe_nextHops (FibEntry_removeNextHop e face).1) as Hx by (by apply Hrem).
    rewrite Hnil in Hx. by apply elem_of_nil in Hx.
  - intros Hall. destruct (fe_nextHops (FibEntry_removeNextHop e face).1) as [|nh l]; [done|].
    destruct (proj1 (Hrem nh)) as [Hnh Hne]; [constructor|]. destruct Hne. auto.
Qed.

Lemma addOrUpdate_iterator e face cost :
  findNextHop e face = None →
  let '(e', (it, isNew)) := FibEntry_addOrUpdateNextHop e face cost in
  isNew = true ∧ S it = length (fe_nextHops e') ∧
  ∃ nh, fe_nextHops e' !! it = Some nh ∧ ∀ x, x ∈ fe_nextHops e' → (nh_cost x ≤ nh_cost nh)%Z.
Proof.
  unfold FibEntry_addOrUpdateNextHop. intros ->. simpl.
  set (l := alter _ _ _). set (k := length (fe_nextHops e)).
  assert (Hlen : length (std_sort nh_cost l) = S k).
  { rewrite std_sort_perm. unfold l. rewrite length_alter, length_app. simpl. lia. }
  split_and!; [done..|].
  pose proof (std_sort_sorted nh_cost l) as Hs. revert Hlen Hs.
  generalize (std_sort nh_cost l). intros sl Hlen Hs.
  destruct (lookup_lt_is_Some_2 sl k) as [nh Hnh]; [lia|]. exists nh. split; [done|].
  intros x [j Hj]%list_elem_of_lookup.
  rewrite <- (take_drop_middle _ _ _ Hnh) in Hs.
  assert (drop (S k) sl = []) as Hd by (apply drop_ge; lia).
  assert (j ≤ k) by (apply lookup_lt_Some in Hj; lia).
  destruct (decide (j = k)) as [->|]; [naive_solver lia|].
  eapply (StronglySorted_app_1_elem_of _ _ _ x nh Hs); [|by constructor].
  apply (list_elem_of_lookup_2 _ j). rewrite lookup_take_lt by lia. done.
Qed.

Lemma addOrUpdate_prefix e face cost :
  fe_prefix (FibEntry_addOrUpdateNextHop e face cost).1 = fe_prefix e.
Proof. unfold FibEntry_addOrUpdateNextHop. by destruct (findNextHop e face). Qed.

Lemma remove_prefix e face : fe_prefix (FibEntry_removeNextHop e face).1 = fe_prefix e.
Proof. unfold FibEntry_removeNextHop. by destruct (findNextHop e face). Qed.

Lemma remove_noop e face :
  (FibEntry_removeNextHop e face).2 = false → (FibEntry_removeNextHop e face).1 = e.
Proof. unfold FibEntry_removeNextHop. by destruct (findNextHop e face). Qed.
End FibEntryFacts.
