(* ===== verification/PitEntry.v ===== *)
(** * PIT entries

    [daemon/table/strategy-info-host.hpp], [pit-face-record.cpp],
    [pit-in-record.cpp], [pit-out-record.cpp] and [pit-entry.cpp].  Time points
    are nanoseconds of the steady clock; the current time is an argument. *)

From Stdlib Require Import ZArith Lia.
From stdpp Require Import base gmap option list.
From S2P Require Import Prelude Ndn.

(** ** StrategyInfoHost *)

(** The strategy information items of the modelled strategies. *)
Inductive StrategyInfo :=
  (** [RetxSuppressionExponential::PitInfo] *)
  | PitInfo (suppressionInterval : Z).

Definition getTypeId (si : StrategyInfo) : Z :=
  match si with PitInfo _ => 1020 end.

Definition StrategyInfoHost : Type := gmap Z StrategyInfo.

Definition getStrategyInfo (typeId : Z) (h : StrategyInfoHost) : option StrategyInfo := h !! typeId.

(** The item of the type of [si], existing or new, and whether it is new. *)
Definition insertStrategyInfo (si : StrategyInfo) (h : StrategyInfoHost)
  : StrategyInfoHost * (StrategyInfo * bool) :=
  match h !! getTypeId si with
  | Some old => (h, (old, false))
  | None => (<[getTypeId si := si]> h, (si, true))
  end.

Definition eraseStrategyInfo (typeId : Z) (h : StrategyInfoHost) : StrategyInfoHost * Z :=
  match h !! typeId with
  | Some _ => (delete typeId h, 1%Z)
  | None => (h, 0%Z)
  end.

Definition clearStrategyInfo (h : StrategyInfoHost) : StrategyInfoHost := ∅.

(** ** Face records *)

(** [time::steady_clock::TimePoint::min()] and [max()] *)
Definition TIME_MIN : Z := - 2 ^ 63.
Definition TIME_MAX : Z := 2 ^ 63 - 1.

(** Nanoseconds of a duration in milliseconds. *)
Definition ms (n : Z) : Z := n * 1000000.

(** [MAX_LIFETIME{10_days}], in milliseconds *)
Definition MAX_LIFETIME : Z := 864000000.

Record FaceRecord := mkFaceRecord {
  fr_face : FacePtr;
  fr_lastNonce : Z;
  fr_lastRenewed : Z;
  fr_expiry : Z;
  fr_info : StrategyInfoHost;
}.

Definition newFaceRecord (face : FacePtr) : FaceRecord :=
  mkFaceRecord face 0 TIME_MIN TIME_MIN ∅.

Section PitEntry.
Context {N : NdnCxx}.

(** [FaceRecord::update] *)
Definition FaceRecord_update (now : Z) (interest : Interest) (r : FaceRecord) : FaceRecord :=
  let lifetime := Z.min (i_lifetime interest) MAX_LIFETIME in
  mkFaceRecord (fr_face r) (i_nonce interest) now (now + ms lifetime) (fr_info r).

Record InRecord := mkInRecord { in_rec : FaceRecord; in_interest : option Interest }.

Definition newInRecord (face : FacePtr) : InRecord := mkInRecord (newFaceRecord face) None.

Definition InRecord_update (now : Z) (interest : Interest) (r : InRecord) : InRecord :=
  mkInRecord (FaceRecord_update now interest (in_rec r)) (Some interest).

Record OutRecord := mkOutRecord { out_rec : FaceRecord; out_incomingNack : option NackReason }.

Definition newOutRecord (face : FacePtr) : OutRecord := mkOutRecord (newFaceRecord face) None.

Definition OutRecord_update (now : Z) (interest : Interest) (r : OutRecord) : OutRecord :=
  mkOutRecord (FaceRecord_update now interest (out_rec r)) (out_incomingNack r).

Definition setIncomingNack (nack : Nack) (r : OutRecord) : OutRecord * bool :=
  if (i_nonce (nack_interest nack) =? fr_lastNonce (out_rec r))%Z
  then (mkOutRecord (out_rec r) (Some (nack_reason nack)), true)
  else (r, false).

Definition clearIncomingNack (r : OutRecord) : OutRecord := mkOutRecord (out_rec r) None.

Definition in_face (r : InRecord) : FacePtr := fr_face (in_rec r).
Definition out_face (r : OutRecord) : FacePtr := fr_face (out_rec r).

(** ** pit::Entry *)

Record PitEntry := mkPitEntry {
  pe_interest : Interest;
  pe_inRecords : list InRecord;
  pe_outRecords : list OutRecord;
  pe_expiryTimer : option positive; (* scheduler::EventId *)
  pe_isSatisfied : bool;
  pe_dataFreshnessPeriod : Z; (* milliseconds *)
  pe_info : StrategyInfoHost;
  pe_nameTreeEntry : option ptr;
}.

Definition newPitEntry (interest : Interest) : PitEntry :=
  mkPitEntry interest [] [] None false 0 ∅ None.

Definition pe_name (e : PitEntry) : Name := i_name (pe_interest e).

Definition set_inRecords (l : list InRecord) (e : PitEntry) : PitEntry :=
  mkPitEntry (pe_interest e) l (pe_outRecords e) (pe_expiryTimer e) (pe_isSatisfied e)
    (pe_dataFreshnessPeriod e) (pe_info e) (pe_nameTreeEntry e).
Definition set_outRecords (l : list OutRecord) (e : PitEntry) : PitEntry :=
  mkPitEntry (pe_interest e) (pe_inRecords e) l (pe_expiryTimer e) (pe_isSatisfied e)
    (pe_dataFreshnessPeriod e) (pe_info e) (pe_nameTreeEntry e).
Definition set_expiryTimer (t : option positive) (e : PitEntry) : PitEntry :=
  mkPitEntry (pe_interest e) (pe_inRecords e) (pe_outRecords e) t (pe_isSatisfied e)
    (pe_dataFreshnessPeriod e) (pe_info e) (pe_nameTreeEntry e).
Definition set_isSatisfied (b : bool) (e : PitEntry) : PitEntry :=
  mkPitEntry (pe_interest e) (pe_inRecords e) (pe_outRecords e) (pe_expiryTimer e) b
    (pe_dataFreshnessPeriod e) (pe_info e) (pe_nameTreeEntry e).
Definition set_dataFreshnessPeriod (p : Z) (e : PitEntry) : PitEntry :=
  mkPitEntry (pe_interest e) (pe_inRecords e) (pe_outRecords e) (pe_expiryTimer e) (pe_isSatisfied e)
    p (pe_info e) (pe_nameTreeEntry e).
Definition set_info (h : StrategyInfoHost) (e : PitEntry) : PitEntry :=
  mkPitEntry (pe_interest e) (pe_inRecords e) (pe_outRecords e) (pe_expiryTimer e) (pe_isSatisfied e)
    (pe_dataFreshnessPeriod e) h (pe_nameTreeEntry e).
Definition set_nameTreeEntry (p : option ptr) (e : PitEntry) : PitEntry :=
  mkPitEntry (pe_interest e) (pe_inRecords e) (pe_outRecords e) (pe_expiryTimer e) (pe_isSatisfied e)
    (pe_dataFreshnessPeriod e) (pe_info e) p.
Definition set_interest (i : Interest) (e : PitEntry) : PitEntry :=
  mkPitEntry i (pe_inRecords e) (pe_outRecords e) (pe_expiryTimer e) (pe_isSatisfied e)
    (pe_dataFreshnessPeriod e) (pe_info e) (pe_nameTreeEntry e).

(** The assertion of [canMatch]: the first [n] components are equal. *)
Definition canMatch_pre (e : PitEntry) (interest : Interest) (n : nat) : bool :=
  bool_decide (take n (pe_name e) = take n (i_name interest)).

Definition canMatch (e : PitEntry) (interest : Interest) (n : nat) : bool :=
  bool_decide (drop n (pe_name e) = drop n (i_name interest)) &&
  Bool.eqb (i_canBePrefix (pe_interest e)) (i_canBePrefix interest) &&
  Bool.eqb (i_mustBeFresh (pe_interest e)) (i_mustBeFresh interest).

Definition hasInRecords (e : PitEntry) : bool :=
  match pe_inRecords e with [] => false | _ => true end.

Definition hasOutRecords (e : PitEntry) : bool :=
  match pe_outRecords e with [] => false | _ => true end.

Definition getInRecord (e : PitEntry) (face : FacePtr) : option InRecord :=
  List.find (λ r, bool_decide (in_face r = face)) (pe_inRecords e).

(** [std::list]: a new record is emplaced at the front. *)
Definition insertOrUpdateInRecord (now : Z) (face : FacePtr) (interest : Interest) (e : PitEntry)
  : PitEntry :=
  match list_find (λ r, in_face r = face) (pe_inRecords e) with
  | Some (i, _) => set_inRecords (alter (InRecord_update now interest) i (pe_inRecords e)) e
  | None => set_inRecords (InRecord_update now interest (newInRecord face) :: pe_inRecords e) e
  end.

Definition deleteInRecord (face : FacePtr) (e : PitEntry) : PitEntry :=
  match list_find (λ r, in_face r = face) (pe_inRecords e) with
  | Some (i, _) => set_inRecords (delete i (pe_inRecords e)) e
  | None => e
  end.

Definition clearInRecords (e : PitEntry) : PitEntry := set_inRecords [] e.

Definition getOutRecord (e : PitEntry) (face : FacePtr) : option OutRecord :=
  List.find (λ r, bool_decide (out_face r = face)) (pe_outRecords e).

Definition insertOrUpdateOutRecord (now : Z) (face : FacePtr) (interest : Interest) (e : PitEntry)
  : PitEntry :=
  match list_find (λ r, out_face r = face) (pe_outRecords e) with
  | Some (i, _) => set_outRecords (alter (OutRecord_update now interest) i (pe_outRecords e)) e
  | None => set_outRecords (OutRecord_update now interest (newOutRecord face) :: pe_outRecords e) e
  end.

Definition deleteOutRecord (face : FacePtr) (e : PitEntry) : PitEntry :=
  match list_find (λ r, out_face r = face) (pe_outRecords e) with
  | Some (i, _) => set_outRecords (delete i (pe_outRecords e)) e
  | None => e
  end.

(** Apply [f] to the out-record of [face], through an iterator. *)
Definition updateOutRecord (face : FacePtr) (f : OutRecord → OutRecord) (e : PitEntry) : PitEntry :=
  match list_find (λ r, out_face r = face) (pe_outRecords e) with
  | Some (i, _) => set_outRecords (alter f i (pe_outRecords e)) e
  | None => e
  end.
End PitEntry.

Arguments InRecord {N}.
Arguments PitEntry {N}.

(** ** One record per face *)

Section PitEntryFacts.
Context {N : NdnCxx}.
Implicit Types (e : PitEntry) (face : FacePtr).

Definition PitEntry_wf e : Prop :=
  NoDup (in_face <$> pe_inRecords e) ∧ NoDup (out_face <$> pe_outRecords e).

(** The parts of an entry that its record operations leave alone. *)
Definition same_but_in e e' : Prop := e' = set_inRecords (pe_inRecords e') e.
Definition same_but_out e e' : Prop := e' = set_outRecords (pe_outRecords e') e.

Lemma insertOrUpdateInRecord_frame now face i e :
  same_but_in e (insertOrUpdateInRecord now face i e).
Proof. unfold insertOrUpdateInRecord, same_but_in. by destruct (list_find _ _) as [[]|]. Qed.

Lemma deleteInRecord_frame face e : same_but_in e (deleteInRecord face e).
Proof.
  unfold deleteInRecord, same_but_in. destruct (list_find _ _) as [[]|]; [done|by destruct e].
Qed.

Lemma insertOrUpdateOutRecord_frame now face i e :
  same_but_out e (insertOrUpdateOutRecord now face i e).
Proof. unfold insertOrUpdateOutRecord, same_but_out. by destruct (list_find _ _) as [[]|]. Qed.

Lemma deleteOutRecord_frame face e : same_but_out e (deleteOutRecord face e).
Proof.
  unfold deleteOutRecord, same_but_out. destruct (list_find _ _) as [[]|]; [done|by destruct e].
Qed.

(** The in-record of [face] after an update: nonce, renewal and expiry come from
    the Interest, the strategy information is kept. *)
Definition renewedInRecord now face i e : InRecord :=
  InRecord_update now i (default (newInRecord face) (getInRecord e face)).
Definition renewedOutRecord now face i e : OutRecord :=
  OutRecord_update now i (default (newOutRecord face) (getOutRecord e face)).

Lemma getInRecord_insert now face i e :
  NoDup (in_face <$> pe_inRecords e) →
  ∀ f, getInRecord (insertOrUpdateInRecord now face i e) f =
       if decide (f = face) then Some (renewedInRecord now face i e) else getInRecord e f.
Proof.
  intros Hn f. unfold insertOrUpdateInRecord, renewedInRecord.
  pose proof (list_find_key in_face face (pe_inRecords e)) as Hf.
  destruct (list_find _ _) as [[j r]|].
  - destruct Hf as (Hj & Hr & Hk). etrans; [by apply (kfind_alter in_face face _ j r)|].
    case_decide; [|done]. change (getInRecord e face) with (kfind in_face face (pe_inRecords e)).
    by rewrite Hk.
  - change (getInRecord e face) with (kfind in_face face (pe_inRecords e)). rewrite Hf.
    unfold getInRecord. simpl. unfold in_face at 1. simpl.
    case_decide; [subst; by rewrite bool_decide_eq_true_2|by rewrite bool_decide_eq_false_2].
Qed.

Lemma getOutRecord_insert now face i e :
  NoDup (out_face <$> pe_outRecords e) →
  ∀ f, getOutRecord (insertOrUpdateOutRecord now face i e) f =
       if decide (f = face) then Some (renewedOutRecord now face i e) else getOutRecord e f.
Proof.
  intros Hn f. unfold insertOrUpdateOutRecord, renewedOutRecord.
  pose proof (list_find_key out_face face (pe_outRecords e)) as Hf.
  destruct (list_find _ _) as [[j r]|].
  - destruct Hf as (Hj & Hr & Hk). etrans; [by apply (kfind_alter out_face face _ j r)|].
    case_decide; [|done]. change (getOutRecord e face) with (kfind out_face face (pe_outRecords e)).
    by rewrite Hk.
  - change (getOutRecord e face) with (kfind out_face face (pe_outRecords e)). rewrite Hf.
    unfold getOutRecord. simpl. unfold out_face at 1. simpl.
    case_decide; [subst; by rewrite bool_decide_eq_true_2|by rewrite bool_decide_eq_false_2].
Qed.

Lemma getInRecord_delete face e :
  NoDup (in_face <$> pe_inRecords e) →
  ∀ f, getInRecord (deleteInRecord face e) f = if decide (f = face) then None else getInRecord e f.
Proof.
  intros Hn f. unfold deleteInRecord.
  pose proof (list_find_key in_face face (pe_inRecords e)) as Hf.
  destruct (list_find _ _) as [[j r]|].
  - destruct Hf as (Hj & Hr & _). by apply (kfind_delete in_face face _ j r).
  - case_decide; [by subst|done].
Qed.

Lemma getOutRecord_delete face e :
  NoDup (out_face <$> pe_outRecords e) →
  ∀ f, getOutRecord (deleteOutRecord face e) f = if decide (f = face) then None else getOutRecord e f.
Proof.
  intros Hn f. unfold deleteOutRecord.
  pose proof (list_find_key out_face face (pe_outRecords e)) as Hf.
  destruct (list_find _ _) as [[j r]|].
  - destruct Hf as (Hj & Hr & _). by apply (kfind_delete out_face face _ j r).
  - case_decide; [by subst|done].
Qed.

Lemma insertOrUpdateInRecord_wf now face i e :
  PitEntry_wf e → PitEntry_wf (insertOrUpdateInRecord now face i e).
Proof.
  intros [Hi Ho]. unfold insertOrUpdateInRecord.
  pose proof (list_find_key in_face face (pe_inRecords e)) as Hf.
  destruct (list_find _ _) as [[j r]|]; (split; [|done]); simpl.
  - by rewrite keys_alter.
  - apply NoDup_cons. split; [|done]. by apply kfind_None.
Qed.

Lemma insertOrUpdateOutRecord_wf now face i e :
  PitEntry_wf e → PitEntry_wf (insertOrUpdateOutRecord now face i e).
Proof.
  intros [Hi Ho]. unfold insertOrUpdateOutRecord.
  pose proof (list_find_key out_face face (pe_outRecords e)) as Hf.
  destruct (list_find _ _) as [[j r]|]; (split; [done|]); simpl.
  - by rewrite keys_alter.
  - apply NoDup_cons. split; [|done]. by apply kfind_None.
Qed.

Lemma deleteInRecord_wf face e : PitEntry_wf e → PitEntry_wf (deleteInRecord face e).
Proof.
  intros [Hi Ho]. unfold deleteInRecord. destruct (list_find _ _) as [[j r]|]; [|done].
  split; [|done]. by apply keys_delete_NoDup.
Qed.

Lemma deleteOutRecord_wf face e : PitEntry_wf e → PitEntry_wf (deleteOutRecord face e).
Proof.
  intros [Hi Ho]. unfold deleteOutRecord. destruct (list_find _ _) as [[j r]|]; [|done].
  split; [done|]. by apply keys_delete_NoDup.
Qed.

(** Where the records come from after an update or a removal. *)
Lemma elem_of_alter {A} (f : A → A) i (l : list A) x :
  x ∈ alter f i l → x ∈ l ∨ ∃ y, l !! i = Some y ∧ x = f y.
Proof.
  intros [j Hj]%list_elem_of_lookup_1. destruct (decide (i = j)) as [<-|Hne].
  - rewrite list_lookup_alter_eq in Hj. apply fmap_Some in Hj as (y & Hy & ->). eauto.
  - rewrite list_lookup_alter_ne in Hj by done. left. by eapply list_elem_of_lookup_2.
Qed.

Lemma insertOrUpdateInRecord_elem now face i e r :
  r ∈ pe_inRecords (insertOrUpdateInRecord now face i e) →
  r ∈ pe_inRecords e ∨ in_face r = face ∧ in_interest r = Some i.
Proof.
  unfold insertOrUpdateInRecord. destruct (list_find _ _) as [[j r0]|] eqn:Hf; cbn.
  - apply list_find_Some in Hf as (Hj & Hr0 & _). intros [?|(y & Hy & ->)]%elem_of_alter; [by left|right]. by simplify_eq.
  - intros [->|?]%elem_of_cons; [by right|by left].
Qed.

Lemma insertOrUpdateOutRecord_elem now face i e r :
  r ∈ pe_outRecords (insertOrUpdateOutRecord now face i e) → r ∈ pe_outRecords e ∨ out_face r = face.
Proof.
  unfold insertOrUpdateOutRecord. destruct (list_find _ _) as [[j r0]|] eqn:Hf; cbn.
  - apply list_find_Some in Hf as (Hj & Hr0 & _). intros [?|(y & Hy & ->)]%elem_of_alter; [by left|right]. by simplify_eq.
  - intros [->|?]%elem_of_cons; [by right|by left].
Qed.

Lemma deleteInRecord_elem face e r : r ∈ pe_inRecords (deleteInRecord face e) → r ∈ pe_inRecords e.
Proof.
  unfold deleteInRecord. destruct (list_find _ _) as [[j r0]|]; [|done]. cbn.
  intros Hr. eapply elem_of_sublist; [done|apply sublist_delete].
Qed.

Lemma deleteOutRecord_elem face e r : r ∈ pe_outRecords (deleteOutRecord face e) → r ∈ pe_outRecords e.
Proof.
  unfold deleteOutRecord. destruct (list_find _ _) as [[j r0]|]; [|done]. cbn.
  intros Hr. eapply elem_of_sublist; [done|apply sublist_delete].
Qed.

Lemma updateOutRecord_frame face f e : same_but_out e (updateOutRecord face f e).
Proof.
  unfold updateOutRecord, same_but_out. destruct (list_find _ _) as [[]|]; [done|by destruct e].
Qed.

Lemma updateOutRecord_faces face f e :
  (∀ r, out_face (f r) = out_face r) → out_face <$> pe_outRecords (updateOutRecord face f e) = out_face <$> pe_outRecords e.
Proof. intros Hf. unfold updateOutRecord. destruct (list_find _ _) as [[j r]|]; [|done]. cbn. by apply keys_alter. Qed.

Lemma updateOutRecord_wf face f e :
  (∀ r, out_face (f r) = out_face r) → PitEntry_wf e → PitEntry_wf (updateOutRecord face f e).
Proof.
  intros Hf [H1 H2]. split; [by rewrite (updateOutRecord_frame face f e)|]. by rewrite updateOutRecord_faces.
Qed.

Lemma getOutRecord_update face g e :
  (∀ r, out_face (g r) = out_face r) → NoDup (out_face <$> pe_outRecords e) →
  ∀ f, getOutRecord (updateOutRecord face g e) f = if decide (f = face) then g <$> getOutRecord e face else getOutRecord e f.
Proof.
  intros Hg Hn f. unfold updateOutRecord. pose proof (list_find_key out_face face (pe_outRecords e)) as Hf.
  destruct (list_find _ _) as [[j r]|].
  - destruct Hf as (Hj & Hr & Hk). etrans; [by apply (kfind_alter out_face face _ j r)|].
    change (getOutRecord e face) with (kfind out_face face (pe_outRecords e)). rewrite Hk. by case_decide.
  - change (getOutRecord e face) with (kfind out_face face (pe_outRecords e)). rewrite Hf. case_decide; [by subst|done].
Qed.

Lemma newPitEntry_wf i : PitEntry_wf (newPitEntry i).
Proof. split; constructor. Qed.

(** With the first [n] components known equal, [canMatch] compares the whole
    name and both selectors. *)
Lemma canMatch_spec e i n :
  canMatch_pre e i n = true →
  canMatch e i n = true ↔
    pe_name e = i_name i ∧ i_canBePrefix (pe_interest e) = i_canBePrefix i ∧
    i_mustBeFresh (pe_interest e) = i_mustBeFresh i.
Proof.
  unfold canMatch_pre, canMatch. rewrite bool_decide_eq_true. intros Hp.
  rewrite !andb_true_iff, bool_decide_eq_true, !eqb_true_iff.
  assert (drop n (pe_name e) = drop n (i_name i) ↔ pe_name e = i_name i) as ->; [|tauto].
  split; [|by intros ->]. intros Hd.
  by rewrite <- (take_drop n (pe_name e)), Hp, Hd, take_drop.
Qed.
End PitEntryFacts.

#[export] Hint Resolve insertOrUpdateInRecord_wf insertOrUpdateOutRecord_wf deleteInRecord_wf
  deleteOutRecord_wf newPitEntry_wf : nfd.
