(* ===== verification/NameTreeEntry.v ===== *)
(** * Name tree entries: the data attached to a name

    The record of [src/daemon/table/name-tree-entry.hpp] with the Measurements
    and Strategy Choice entries it owns.  FIB, Measurements and Strategy Choice
    entries are owned by their name tree entry ([unique_ptr]), so they are
    values of its fields and a pointer to one of them is the address of the
    name tree entry; their back pointer [m_nameTreeEntry] is that same address.
    PIT entries are shared ([shared_ptr]) and therefore addressed in a heap of
    their own. *)

From Stdlib Require Import ZArith Lia.
From stdpp Require Import base gmap option list.
From S2P Require Import Prelude Ndn FibEntry PitEntry.

Section NameTreeEntry.
Context {N : NdnCxx}.

(** ** measurements::Entry *)
Record MeasurementsEntry := mkMeasurementsEntry {
  me_name : Name;
  me_expiry : Z; (* steady_clock nanoseconds *)
  me_cleanup : option positive; (* scheduler::EventId *)
  me_info : StrategyInfoHost;
}.

Definition newMeasurementsEntry (name : Name) : MeasurementsEntry :=
  mkMeasurementsEntry name TIME_MIN None ∅.

Definition set_me_expiry (t : Z) (e : MeasurementsEntry) : MeasurementsEntry :=
  mkMeasurementsEntry (me_name e) t (me_cleanup e) (me_info e).
Definition set_me_cleanup (c : option positive) (e : MeasurementsEntry) : MeasurementsEntry :=
  mkMeasurementsEntry (me_name e) (me_expiry e) c (me_info e).
Definition set_me_info (h : StrategyInfoHost) (e : MeasurementsEntry) : MeasurementsEntry :=
  mkMeasurementsEntry (me_name e) (me_expiry e) (me_cleanup e) h.

(** ** strategy_choice::Entry

    A strategy instance is known to the tables by its instance name; the name
    under which its class is registered selects its behaviour. *)
Record Strategy := mkStrategy {
  st_instanceName : Name;
  st_class : Name;
}.

Record StrategyChoiceEntry := mkStrategyChoiceEntry {
  sc_prefix : Name;
  sc_strategy : option Strategy;
}.

Definition newStrategyChoiceEntry (prefix : Name) : StrategyChoiceEntry :=
  mkStrategyChoiceEntry prefix None.
Definition setStrategy (s : option Strategy) (e : StrategyChoiceEntry) : StrategyChoiceEntry :=
  mkStrategyChoiceEntry (sc_prefix e) s.

(** ** name_tree::Entry *)
Record Entry := mkEntry {
  e_name : Name;
  e_parent : option ptr;
  e_children : list ptr;
  e_fibEntry : option FibEntry;
  e_pitEntries : list ptr; (* shared_ptr<pit::Entry> *)
  e_measurementsEntry : option MeasurementsEntry;
  e_strategyChoiceEntry : option StrategyChoiceEntry;
}.

Definition newEntry (name : Name) : Entry := mkEntry name None [] None [] None None.

(** [NameTree::getMaxDepth()] *)
Definition getMaxDepth : nat := 32.

Definition set_e_parent (p : option ptr) (e : Entry) : Entry :=
  mkEntry (e_name e) p (e_children e) (e_fibEntry e) (e_pitEntries e)
    (e_measurementsEntry e) (e_strategyChoiceEntry e).
Definition set_e_children (l : list ptr) (e : Entry) : Entry :=
  mkEntry (e_name e) (e_parent e) l (e_fibEntry e) (e_pitEntries e)
    (e_measurementsEntry e) (e_strategyChoiceEntry e).
Definition setFibEntry (f : option FibEntry) (e : Entry) : Entry :=
  mkEntry (e_name e) (e_parent e) (e_children e) f (e_pitEntries e)
    (e_measurementsEntry e) (e_strategyChoiceEntry e).
Definition set_e_pitEntries (l : list ptr) (e : Entry) : Entry :=
  mkEntry (e_name e) (e_parent e) (e_children e) (e_fibEntry e) l
    (e_measurementsEntry e) (e_strategyChoiceEntry e).
Definition setMeasurementsEntry (m : option MeasurementsEntry) (e : Entry) : Entry :=
  mkEntry (e_name e) (e_parent e) (e_children e) (e_fibEntry e) (e_pitEntries e)
    m (e_strategyChoiceEntry e).
Definition setStrategyChoiceEntry (c : option StrategyChoiceEntry) (e : Entry) : Entry :=
  mkEntry (e_name e) (e_parent e) (e_children e) (e_fibEntry e) (e_pitEntries e)
    (e_measurementsEntry e) c.

Definition hasChildren (e : Entry) : bool :=
  match e_children e with [] => false | _ => true end.

Definition hasTableEntries (e : Entry) : bool :=
  match e_fibEntry e with Some _ => true | None => false end ||
  match e_pitEntries e with [] => false | _ => true end ||
  match e_measurementsEntry e with Some _ => true | None => false end ||
  match e_strategyChoiceEntry e with Some _ => true | None => false end.

Definition isEmpty (e : Entry) : bool := negb (hasChildren e) && negb (hasTableEntries e).
End NameTreeEntry.

Arguments MeasurementsEntry {N}.
Arguments Strategy {N}.
Arguments StrategyChoiceEntry {N}.
Arguments Entry {N}.
