(* ===== verification/Hashtable.v ===== *)
(** * The hashtable behind the name tree

    [src/daemon/table/name-tree-hashtable.cpp] at the level of its pointers:
    nodes live in a heap, the nodes of a bucket form a doubly linked list, and
    the number of buckets follows the number of nodes.  An entry is a member of
    its node, so the address of an entry is the address of its node.

    [HtInv] is the representation invariant; the specifications at the end of
    the file describe every operation by its effect on the finite map from
    addresses to entries, and show that no assertion of the file can fail. *)

From Stdlib Require Import ZArith Lia.
From stdpp Require Import base gmap option list.
From S2P Require Import Prelude CityHash Ndn FibEntry PitEntry NameTreeEntry.

Section Hashtable.
Context {N : NdnCxx}.

(** ** Hash values

    [HashValue] is [size_t], 64 bits wide, so [HashFunc] is [CityHash64] over the
    encoded component. *)
Definition hashComponent (c : Component) : option Z :=
  CityHash64 (comp_wire c) 0 (Z.of_nat (length (comp_wire c))).

Definition computeHash (name : Name) (prefixLen : nat) : option Z :=
  foldl (λ h c, h' ← h; x ← hashComponent c; Some (Z.lxor h' x)) (Some 0%Z) (take prefixLen name).

Fixpoint computeHashes_from (h : Z) (comps : Name) : option (list Z) :=
  match comps with
  | [] => Some []
  | c :: comps' =>
      x ← hashComponent c;
      rest ← computeHashes_from (Z.lxor h x) comps';
      Some (Z.lxor h x :: rest)
  end.

Definition computeHashes (name : Name) (prefixLen : nat) : option (list Z) :=
  rest ← computeHashes_from 0 (take prefixLen name);
  Some (0%Z :: rest).

(** ** Nodes and options *)
Record Node := mkNode {
  n_hash : Z;
  n_prev : option ptr;
  n_next : option ptr;
  n_entry : Entry;
}.

Definition set_prev (p : option ptr) (n : Node) : Node := mkNode (n_hash n) p (n_next n) (n_entry n).
Definition set_next (p : option ptr) (n : Node) : Node := mkNode (n_hash n) (n_prev n) p (n_entry n).
Definition set_entry (e : Entry) (n : Node) : Node := mkNode (n_hash n) (n_prev n) (n_next n) e.

Record HashtableOptions := mkHashtableOptions {
  initialSize : nat;
  minSize : nat;
  expandLoadFactor : flt;
  expandFactor : flt;
  shrinkLoadFactor : flt;
  shrinkFactor : flt;
}.

(** The default factors 0.5, 2.0, 0.1 and 0.5 as [float]s. *)
Definition defaultHashtableOptions (size : nat) : HashtableOptions :=
  mkHashtableOptions size size (Flt 1 (-1)) (Flt 2 0) (Flt 13421773 (-27)) (Flt 1 (-1)).

Record Hashtable := mkHashtable {
  ht_heap : gmap ptr Node;
  ht_buckets : list (option ptr);
  ht_options : HashtableOptions;
  ht_size : Z;
  ht_expandThreshold : Z;
  ht_shrinkThreshold : Z;
}.

Definition set_heap (h : gmap ptr Node) (s : Hashtable) : Hashtable :=
  mkHashtable h (ht_buckets s) (ht_options s) (ht_size s) (ht_expandThreshold s) (ht_shrinkThreshold s).
Definition set_buckets (b : list (option ptr)) (s : Hashtable) : Hashtable :=
  mkHashtable (ht_heap s) b (ht_options s) (ht_size s) (ht_expandThreshold s) (ht_shrinkThreshold s).
Definition set_size (n : Z) (s : Hashtable) : Hashtable :=
  mkHashtable (ht_heap s) (ht_buckets s) (ht_options s) n (ht_expandThreshold s) (ht_shrinkThreshold s).
Definition set_thresholds (e t : Z) (s : Hashtable) : Hashtable :=
  mkHashtable (ht_heap s) (ht_buckets s) (ht_options s) (ht_size s) e t.

(** Access through a [Node*]. *)
Definition deref (p : ptr) : M Hashtable Node :=
  s ← get_st; someM (ht_heap s !! p).
Definition store (p : ptr) (f : Node → Node) : M Hashtable unit :=
  n ← deref p; modify (λ s, set_heap (<[p := f n]> (ht_heap s)) s).

Definition getNBuckets (s : Hashtable) : nat := length (ht_buckets s).
Definition computeBucketIndex (s : Hashtable) (h : Z) : nat :=
  Z.to_nat (h mod Z.of_nat (getNBuckets s)).
Definition getBucket (bucket : nat) : M Hashtable (option ptr) :=
  s ← get_st; someM (ht_buckets s !! bucket).

(** ** Operations *)

Definition computeThresholds : M Hashtable unit :=
  modify (λ s,
    let n := Z.of_nat (getNBuckets s) in
    set_thresholds (fscale float_prec (expandLoadFactor (ht_options s)) n)
      (fscale float_prec (shrinkLoadFactor (ht_options s)) n) s).

Definition newHashtable (options : HashtableOptions) : option Hashtable :=
  guard (0 < minSize options);;
  guard (minSize options ≤ initialSize options);;
  guard (flt_ltb (Flt 0 0) (expandLoadFactor options) = true);;
  guard (flt_leb (expandLoadFactor options) (Flt 1 0) = true);;
  guard (flt_ltb (Flt 1 0) (expandFactor options) = true);;
  guard (flt_leb (Flt 0 0) (shrinkLoadFactor options) = true);;
  guard (flt_ltb (shrinkLoadFactor options) (Flt 1 0) = true);;
  guard (flt_ltb (Flt 0 0) (shrinkFactor options) = true);;
  guard (flt_ltb (shrinkFactor options) (Flt 1 0) = true);;
  fst <$> computeThresholds (mkHashtable ∅ (replicate (initialSize options) None) options 0 0 0).

(** [foreachNode]; the successor is read before the callback runs.  A bucket
    holds at most as many nodes as the heap, which bounds the recursion. *)
Fixpoint foreachNode (fuel : nat) (head : option ptr) (func : ptr → M Hashtable unit)
  : M Hashtable unit :=
  match fuel, head with
  | _, None => mret tt
  | O, Some _ => someM None
  | S fuel', Some p =>
      n ← deref p;
      func p;;
      foreachNode fuel' (n_next n) func
  end.

Definition attach (bucket : nat) (node : ptr) : M Hashtable unit :=
  store node (set_prev None);;
  head ← getBucket bucket;
  store node (set_next head);;
  (if head is Some next then
     nn ← deref next;
     assertM (bool_decide (n_prev nn = None));;
     store next (set_prev (Some node))
   else mret tt);;
  modify (λ s, set_buckets (<[bucket := Some node]> (ht_buckets s)) s).

Definition detach (bucket : nat) (node : ptr) : M Hashtable unit :=
  n ← deref node;
  (if n_prev n is Some prev then
     pn ← deref prev;
     assertM (bool_decide (n_next pn = Some node));;
     store prev (set_next (n_next n))
   else
     head ← getBucket bucket;
     assertM (bool_decide (head = Some node));;
     modify (λ s, set_buckets (<[bucket := n_next n]> (ht_buckets s)) s));;
  (if n_next n is Some next then
     nn ← deref next;
     assertM (bool_decide (n_prev nn = Some node));;
     store next (set_prev (n_prev n))
   else mret tt);;
  store node (λ n, set_next None (set_prev None n)).

Definition resize (newNBuckets : nat) : M Hashtable unit :=
  n ← gets getNBuckets;
  if decide (n = newNBuckets) then mret tt
  else
    oldBuckets ← gets ht_buckets;
    modify (set_buckets (replicate newNBuckets None));;
    fuel ← gets (λ s, size (ht_heap s));
    forM oldBuckets (λ head,
      foreachNode fuel head (λ node,
        nd ← deref node;
        bucket ← gets (λ s, computeBucketIndex s (n_hash nd));
        attach bucket node));;
    computeThresholds.

(** The search loop of [findOrInsert] in one bucket. *)
Fixpoint findInBucket (fuel : nat) (name : Name) (prefixLen : nat) (h : Z) (node : option ptr)
  : M Hashtable (option ptr) :=
  match fuel, node with
  | _, None => mret None
  | O, Some _ => someM None
  | S fuel', Some p =>
      n ← deref p;
      if (n_hash n =? h)%Z &&
         bool_decide (name_compare (take prefixLen name) (e_name (n_entry n)) = Eq)
      then mret (Some p)
      else findInBucket fuel' name prefixLen h (n_next n)
  end.

(** [new Node(h, name)]; the constructor of [Entry] bounds the depth. *)
Definition allocNode (h : Z) (name : Name) : M Hashtable ptr :=
  assertM (bool_decide (length name ≤ getMaxDepth));;
  p ← gets (λ s, fresh (dom (ht_heap s)));
  modify (λ s, set_heap (<[p := mkNode h None None (newEntry name)]> (ht_heap s)) s);;
  mret p.

(** [delete node] *)
Definition freeNode (p : ptr) : M Hashtable unit :=
  n ← deref p;
  assertM (bool_decide (n_prev n = None));;
  assertM (bool_decide (n_next n = None));;
  modify (λ s, set_heap (delete p (ht_heap s)) s).

Definition findOrInsert (name : Name) (prefixLen : nat) (h : Z) (allowInsert : bool)
  : M Hashtable (option ptr * bool) :=
  bucket ← gets (λ s, computeBucketIndex s h);
  head ← getBucket bucket;
  fuel ← gets (λ s, size (ht_heap s));
  found ← findInBucket fuel name prefixLen h head;
  match found with
  | Some node => mret (Some node, false)
  | None =>
      if negb allowInsert then mret (None, false)
      else
        node ← allocNode h (take prefixLen name);
        attach bucket node;;
        modify (λ s, set_size (ht_size s + 1) s);;
        s ← get_st;
        (if (ht_expandThreshold s <? ht_size s)%Z then
           resize (Z.to_nat (fscale float_prec (expandFactor (ht_options s)) (Z.of_nat (getNBuckets s))))
         else mret tt);;
        mret (Some node, true)
  end.

Definition Hashtable_find (name : Name) (prefixLen : nat) : M Hashtable (option ptr) :=
  h ← someM (computeHash name prefixLen);
  r ← findOrInsert name prefixLen h false;
  mret r.1.

Definition Hashtable_findWithHashes (name : Name) (prefixLen : nat) (hashes : list Z) : M Hashtable (option ptr) :=
  h ← someM (hashes !! prefixLen);
  h' ← someM (computeHash name prefixLen);
  assertM (bool_decide (h = h'));;
  r ← findOrInsert name prefixLen h false;
  mret r.1.

Definition Hashtable_insert (name : Name) (prefixLen : nat) (hashes : list Z) : M Hashtable (option ptr * bool) :=
  h ← someM (hashes !! prefixLen);
  h' ← someM (computeHash name prefixLen);
  assertM (bool_decide (h = h'));;
  findOrInsert name prefixLen h true.

Definition Hashtable_erase (node : ptr) : M Hashtable unit :=
  n ← deref node;
  assertM (bool_decide (e_parent (n_entry n) = None));;
  bucket ← gets (λ s, computeBucketIndex s (n_hash n));
  detach bucket node;;
  freeNode node;;
  modify (λ s, set_size (ht_size s - 1) s);;
  s ← get_st;
  if (ht_size s <? ht_shrinkThreshold s)%Z then
    resize (Nat.max (minSize (ht_options s))
              (Z.to_nat (fscale float_prec (shrinkFactor (ht_options s)) (Z.of_nat (getNBuckets s)))))
  else mret tt.
End Hashtable.

(** ** Hash values: facts *)

Section HashFacts.
Context {N : NdnCxx}.

Lemma hashComponent_total c : ∃ x, hashComponent c = Some x ∧ is64 x.
Proof.
  unfold hashComponent.
  pose proof (CityHash64_ok (comp_wire c) 0 (Z.of_nat (length (comp_wire c)))
                ltac:(lia) ltac:(lia) ltac:(lia)) as H.
  unfold yields in H. destruct (CityHash64 _ _ _); naive_solver.
Qed.

Lemma computeHash_fold h l :
  ∃ x, foldl (λ h c, h' ← h; x ← hashComponent c; Some (Z.lxor h' x)) (Some h) l = Some x.
Proof.
  revert h. induction l as [|c l IH]; intros h; simpl; [by eexists|].
  destruct (hashComponent_total c) as (x & -> & _). apply IH.
Qed.

Lemma computeHash_total name k : is_Some (computeHash name k).
Proof. apply computeHash_fold. Qed.

Lemma computeHash_take name k : computeHash (take k name) (length (take k name)) = computeHash name k.
Proof. unfold computeHash. by rewrite firstn_all. Qed.

Lemma computeHashes_from_spec l h :
  ∃ seq, computeHashes_from h l = Some seq ∧ length seq = length l ∧
    ∀ i x, seq !! i = Some x →
      foldl (λ h c, h' ← h; x ← hashComponent c; Some (Z.lxor h' x)) (Some h) (take (S i) l) = Some x.
Proof.
  revert h. induction l as [|c l IH]; intros h; simpl; [by exists []|].
  destruct (hashComponent_total c) as (x & Hx & _). rewrite Hx. simpl.
  destruct (IH (Z.lxor h x)) as (seq & -> & Hl & Hs). eexists. split; [done|].
  split; [simpl; lia|]. intros [|i] y; simpl; [by intros [= <-]|]. apply Hs.
Qed.

(** The i-th hash of the sequence is the hash of the i-component prefix. *)
Lemma computeHashes_spec name k :
  ∃ seq, computeHashes name k = Some seq ∧ length seq = S (length (take k name)) ∧
    ∀ i, i ≤ length (take k name) → seq !! i = computeHash name i.
Proof.
  unfold computeHashes. destruct (computeHashes_from_spec (take k name) 0) as (seq & -> & Hl & Hs).
  eexists. split; [done|]. split; [simpl; lia|]. intros [|i] Hi; [done|]. simpl.
  destruct (lookup_lt_is_Some_2 seq i ltac:(lia)) as [x Hx]. rewrite Hx.
  apply Hs in Hx. rewrite take_take_le in Hx by (rewrite length_take in Hi; lia). done.
Qed.
End HashFacts.

(** ** Doubly linked lists *)

Section Dll.
Context {N : NdnCxx}.
Implicit Types (h : gmap ptr Node) (l : list ptr) (p q : ptr).

(** [dls h prev cur l lst nxt]: from [cur], whose predecessor is [prev], the
    nodes [l] are linked both ways; the last of them is [lst] and its successor
    is [nxt]. *)
Fixpoint dls h (prev cur : option ptr) l (lst nxt : option ptr) : Prop :=
  match l with
  | [] => lst = prev ∧ cur = nxt
  | p :: l' => cur = Some p ∧ ∃ n, h !! p = Some n ∧ n_prev n = prev ∧ dls h (Some p) (n_next n) l' lst nxt
  end.

(** A bucket: the nodes [l], in order. *)
Definition dll h (cur : option ptr) l : Prop := ∃ lst, dls h None cur l lst None.

(** A list of which only the [next] pointers are known to be intact. *)
Fixpoint sll h (cur : option ptr) l : Prop :=
  match l with
  | [] => cur = None
  | p :: l' => cur = Some p ∧ ∃ n, h !! p = Some n ∧ sll h (n_next n) l'
  end.

Lemma dls_app h prev cur l1 l2 lst nxt :
  dls h prev cur (l1 ++ l2) lst nxt ↔
  ∃ m c, dls h prev cur l1 m c ∧ dls h m c l2 lst nxt.
Proof.
  revert prev cur. induction l1 as [|p l1 IH]; intros prev cur; simpl.
  - split; [by eauto|]. by intros (m & c & [-> ->] & ?).
  - split.
    + intros (-> & n & Hn & Hp & (m & c & H1 & H2)%IH). eauto 10.
    + intros (m & c & (-> & n & Hn & Hp & H1) & H2). split; [done|]. exists n.
      split; [done|]. split; [done|]. apply IH. eauto.
Qed.

Lemma dls_frame h h' prev cur l lst nxt :
  (∀ r, r ∈ l → h' !! r = h !! r) → dls h prev cur l lst nxt → dls h' prev cur l lst nxt.
Proof.
  revert prev cur. induction l as [|p l IH]; intros prev cur Hf; simpl; [done|].
  intros (-> & n & Hn & Hp & Hl). split; [done|]. exists n.
  rewrite Hf by constructor. repeat split; [done..|]. apply IH; [|done].
  intros r Hr. apply Hf. by constructor.
Qed.

Lemma dls_frame_links h h' prev cur l lst nxt :
  dls h prev cur l lst nxt → (∀ r, r ∈ l → ∃ n, h !! r = Some n ∧ h' !! r = Some n) →
  dls h' prev cur l lst nxt.
Proof.
  intros Hl Hf. eapply dls_frame; [|exact Hl]. intros r Hr. destruct (Hf r Hr) as (n & -> & ->). done.
Qed.

Lemma sll_frame h h' cur l : (∀ r, r ∈ l → h' !! r = h !! r) → sll h cur l → sll h' cur l.
Proof.
  revert cur. induction l as [|p l IH]; intros cur Hf; simpl; [done|].
  intros (-> & n & Hn & Hl). split; [done|]. exists n.
  rewrite Hf by constructor. split; [done|]. apply IH; [|done].
  intros r Hr. apply Hf. by constructor.
Qed.

Lemma dls_sll h prev cur l lst : dls h prev cur l lst None → sll h cur l.
Proof.
  revert prev cur. induction l as [|p l IH]; intros prev cur; simpl; [naive_solver|].
  intros (-> & n & Hn & _ & Hl). eauto.
Qed.

Lemma dls_elem h prev cur l lst nxt p : dls h prev cur l lst nxt → p ∈ l → is_Some (h !! p).
Proof.
  revert prev cur. induction l as [|q l IH]; intros prev cur; simpl; [by intros _ ?%elem_of_nil|].
  intros (-> & n & Hn & _ & Hl) [->|Hp]%elem_of_cons; eauto.
Qed.

(** Redirecting the last [next] pointer, or the first [prev] pointer. *)
Lemma dls_set_next h prev cur l q n x y :
  q ∉ l → h !! q = Some n →
  dls h prev cur (l ++ [q]) (Some q) x → dls (<[q := set_next y n]> h) prev cur (l ++ [q]) (Some q) y.
Proof.
  intros Hq Hn. rewrite !dls_app. intros (m & c & H1 & -> & n' & Hn' & Hp & _).
  exists m, (Some q). split.
  - eapply dls_frame; [|exact H1]. intros r Hr. rewrite lookup_insert_ne; [done|]. by intros ->.
  - split; [done|]. eexists. rewrite lookup_insert_eq. split; [done|]. simpl. naive_solver.
Qed.

Lemma dls_set_prev h prev prev' q n l lst nxt :
  q ∉ l → h !! q = Some n →
  dls h prev (Some q) (q :: l) lst nxt → dls (<[q := set_prev prev' n]> h) prev' (Some q) (q :: l) lst nxt.
Proof.
  intros Hq Hn. simpl. intros (_ & n' & Hn' & _ & Hl). split; [done|].
  eexists. rewrite lookup_insert_eq. split; [done|]. simpl. split; [done|].
  eapply dls_frame; [|by simplify_eq]. intros r Hr. rewrite lookup_insert_ne; [done|]. by intros ->.
Qed.

Lemma dls_last h prev cur l lst nxt : dls h prev cur l lst nxt → lst = match last l with Some q => Some q | None => prev end.
Proof.
  revert prev cur. induction l as [|p l IH]; intros prev cur; [by intros [-> _]|].
  rewrite last_cons. intros (-> & n & Hn & _ & Hl). rewrite (IH _ _ Hl). by destruct (last l).
Qed.
End Dll.

Lemma last_Some_elem_of {A} (l : list A) x : last l = Some x → x ∈ l.
Proof. intros [l' ->]%last_Some. apply elem_of_app. right. constructor. Qed.

Lemma head_Some_elem_of {A} (l : list A) x : head l = Some x → x ∈ l.
Proof. destruct l; simpl; [done|]. intros [= ->]. constructor. Qed.

(** ** Chains *)

Section Chains.
Context {A : Type}.
Implicit Types (cs : list (list A)) (l : list A).

Lemma elem_of_concat cs x : x ∈ concat cs ↔ ∃ i l, cs !! i = Some l ∧ x ∈ l.
Proof.
  induction cs as [|l cs IH]; simpl.
  - rewrite elem_of_nil. split; [done|]. by intros (i & l & ? & _).
  - rewrite elem_of_app, IH. split.
    + intros [Hx|(i & l' & Hi & Hx)]; [by exists 0, l|by exists (S i), l'].
    + intros ([|i] & l' & Hi & Hx); simplify_eq/=; eauto.
Qed.

Lemma chains_disjoint cs i j l l' x :
  NoDup (concat cs) → cs !! i = Some l → cs !! j = Some l' → x ∈ l → x ∈ l' → i = j.
Proof.
  revert i j. induction cs as [|k cs IH]; intros i j; [done|]. simpl.
  intros (Hk & Hd & Hn)%NoDup_app Hi Hj Hx Hx'.
  destruct i as [|i], j as [|j]; simplify_eq/=; [done|..].
  - destruct (Hd x Hx). apply elem_of_concat. eauto.
  - destruct (Hd x Hx'). apply elem_of_concat. eauto.
  - f_equal. eauto.
Qed.

Lemma chains_NoDup cs i l : NoDup (concat cs) → cs !! i = Some l → NoDup l.
Proof.
  revert i. induction cs as [|k cs IH]; intros i; [done|]. simpl.
  intros (Hk & _ & Hn)%NoDup_app. destruct i; simpl; [by intros [= <-]|eauto].
Qed.

Lemma concat_insert_perm cs i l l' :
  cs !! i = Some l → l ++ concat (<[i := l']> cs) ≡ₚ l' ++ concat cs.
Proof.
  revert i. induction cs as [|k cs IH]; intros [|i] Hi; simplify_eq/=.
  - rewrite !(assoc_L (++)), (comm (++) l l'). done.
  - specialize (IH i Hi). rewrite !(assoc_L (++)), (comm (++) l k), (comm (++) l' k).
    rewrite <- !(assoc_L (++)). by rewrite IH.
Qed.

Lemma concat_insert_cons cs i l x :
  cs !! i = Some l → concat (<[i := x :: l]> cs) ≡ₚ x :: concat cs.
Proof.
  intros Hi. apply (Permutation_app_inv_l l). rewrite concat_insert_perm by done.
  simpl. by rewrite Permutation_middle.
Qed.

Lemma concat_insert_remove cs i l1 x l2 :
  cs !! i = Some (l1 ++ x :: l2) → x :: concat (<[i := l1 ++ l2]> cs) ≡ₚ concat cs.
Proof.
  intros Hi. apply (Permutation_app_inv_l (l1 ++ l2)).
  rewrite <- (concat_insert_perm _ _ _ (l1 ++ l2) Hi).
  by rewrite <- (Permutation_middle (l1 ++ l2)), <- (Permutation_middle l1 l2 x).
Qed.

Lemma concat_replicate_nil n : concat (replicate n (@nil A)) = [].
Proof. by induction n. Qed.
End Chains.

(** ** Linking and unlinking a node *)

Section Linking.
Context {N : NdnCxx}.
Implicit Types (s : Hashtable) (cs : list (list ptr)) (l : list ptr) (p q : ptr).

Lemma wp_deref p Q s : wp (deref p) Q s ↔ ∃ n, ht_heap s !! p = Some n ∧ Q n s.
Proof. unfold deref. rewrite wp_bind, wp_get_st, wp_someM. done. Qed.

Lemma wp_store p f Q s :
  wp (store p f) Q s ↔ ∃ n, ht_heap s !! p = Some n ∧ Q tt (set_heap (<[p := f n]> (ht_heap s)) s).
Proof. unfold store. rewrite wp_bind, wp_deref. done. Qed.

Lemma wp_getBucket i Q s : wp (getBucket i) Q s ↔ ∃ b, ht_buckets s !! i = Some b ∧ Q b s.
Proof. unfold getBucket. rewrite wp_bind, wp_get_st, wp_someM. done. Qed.

(** What linking never touches. *)
Definition payload (n : Node) : Z * Entry := (n_hash n, n_entry n).
Definition payloads s : gmap ptr (Z * Entry) := payload <$> ht_heap s.

(** [s'] differs from [s] only in its links: same nodes, same buckets count. *)
Definition relinked s s' : Prop :=
  s' = set_heap (ht_heap s') (set_buckets (ht_buckets s') s) ∧
  getNBuckets s' = getNBuckets s ∧
  payloads s' = payloads s.

Lemma relinked_trans s1 s2 s3 : relinked s1 s2 → relinked s2 s3 → relinked s1 s3.
Proof.
  intros (E1 & L1 & P1) (E2 & L2 & P2). split; [|split; congruence].
  rewrite E2 at 1. rewrite E1. done.
Qed.

Lemma payload_insert (h : gmap ptr Node) p n n' :
  h !! p = Some n → payload n' = payload n → payload <$> <[p := n']> h = payload <$> h.
Proof.
  intros Hp Hn. rewrite fmap_insert, Hn. apply insert_id. by rewrite lookup_fmap, Hp.
Qed.

Lemma payloads_lookup s p n : ht_heap s !! p = Some n → payloads s !! p = Some (payload n).
Proof. unfold payloads. by rewrite lookup_fmap; intros ->. Qed.

Lemma payloads_node s s' p n :
  payloads s' = payloads s → ht_heap s' !! p = Some n →
  ∃ n0, ht_heap s !! p = Some n0 ∧ payload n0 = payload n.
Proof.
  intros Hs Hn. apply payloads_lookup in Hn. rewrite Hs in Hn. unfold payloads in Hn.
  rewrite lookup_fmap in Hn. apply fmap_Some in Hn as (n0 & ? & ?). eauto.
Qed.

Definition linked s cs : Prop :=
  Forall2 (dll (ht_heap s)) (ht_buckets s) cs ∧ NoDup (concat cs).

Lemma linked_bucket s cs i l :
  linked s cs → cs !! i = Some l → ∃ b, ht_buckets s !! i = Some b ∧ dll (ht_heap s) b l.
Proof.
  intros [Hd _] Hi. destruct (Forall2_lookup_r _ _ _ _ _ Hd Hi) as (b & ? & ?). eauto.
Qed.

(** Replacing the list of one bucket. *)
Lemma Forall2_dll_update h h' (buckets : list (option ptr)) cs i l l' b' :
  Forall2 (dll h) buckets cs → NoDup (concat cs) → cs !! i = Some l →
  (∀ r, r ∉ l → r ∈ concat cs → h' !! r = h !! r) → dll h' b' l' →
  Forall2 (dll h') (<[i := b']> buckets) (<[i := l']> cs).
Proof.
  intros Hd Hn Hi Hf Hb. apply Forall2_same_length_lookup.
  apply Forall2_same_length_lookup in Hd as [Hlen Hd].
  split; [by rewrite !length_insert|]. intros j b k Hj Hk.
  destruct (decide (j = i)) as [->|Hne].
  - apply lookup_lt_Some in Hi as Hlt. rewrite list_lookup_insert_eq in Hj by lia.
    rewrite list_lookup_insert_eq in Hk by lia. by simplify_eq.
  - rewrite list_lookup_insert_ne in Hj by done. rewrite list_lookup_insert_ne in Hk by done.
    destruct (Hd j b k Hj Hk) as [lst Hl].
    exists lst. eapply dls_frame; [|exact Hl]. intros r Hr. apply Hf; [|apply elem_of_concat; eauto].
    intros Hr'. destruct Hne. by eapply (chains_disjoint cs).
Qed.

Lemma attach_spec s cs i l p n :
  linked s cs → cs !! i = Some l → p ∉ concat cs → ht_heap s !! p = Some n →
  wp (attach i p) (λ _ s',
    linked s' (<[i := p :: l]> cs) ∧ relinked s s' ∧
    ∀ r, r ≠ p → r ∉ concat cs → ht_heap s' !! r = ht_heap s !! r) s.
Proof.
  intros Hs Hi Hp Hn. destruct (linked_bucket _ _ _ _ Hs Hi) as (b & Hb & lst & Hl).
  destruct Hs as [Hd Hnd].
  assert (Hpl : p ∉ l) by (contradict Hp; apply elem_of_concat; eauto).
  assert (Hnd' : NoDup (concat (<[i := p :: l]> cs))).
  { rewrite (concat_insert_cons cs i l p Hi). by constructor. }
  unfold attach. wp_step. apply wp_store. exists n. split; [done|].
  wp_step. apply wp_getBucket. exists b. split; [done|].
  wp_step. apply wp_store. eexists. split; [apply lookup_insert_eq|]. simpl.
  rewrite insert_insert_eq. set (n' := set_next b (set_prev None n)).
  assert (Hh : ∀ h', h' !! p = Some n' → (∃ lst, dls h' (Some p) b l lst None) → dll h' (Some p) (p :: l)).
  { intros h' Hp' [lst' Hl']. exists lst'. simpl. split; [done|]. exists n'. by split. }
  destruct l as [|q l].
  - destruct Hl as [_ ->]. repeat wp_step.
    split; [split; [|done]|split; [split; [done|split]|]]; simpl.
    + eapply Forall2_dll_update; [exact Hd|done..| |].
      * intros r _ Hr. rewrite lookup_insert_ne; [done|]. by intros ->.
      * apply Hh; [apply lookup_insert_eq|]. by exists (Some p).
    + unfold getNBuckets; simpl. by rewrite length_insert.
    + by apply (payload_insert _ _ n).
    + intros r Hr _. by rewrite lookup_insert_ne.
  - pose proof Hl as (-> & nq & Hnq & Hprev & _).
    assert (Hqp : q ≠ p) by (intros ->; apply Hpl; constructor).
    assert (Hql : q ∉ l) by (apply chains_NoDup in Hi; [|done]; by apply NoDup_cons in Hi as [? _]).
    wp_step. wp_step. apply wp_deref. exists nq. simpl. rewrite lookup_insert_ne by done. split; [done|].
    repeat wp_step; [by apply bool_decide_eq_true|].
    apply wp_store. exists nq. simpl. rewrite lookup_insert_ne by done. split; [done|]. wp_step.
    split; [split; [|done]|split; [split; [done|split]|]]; simpl.
    + eapply Forall2_dll_update; [exact Hd|done..| |].
      * intros r Hrl Hr. rewrite !lookup_insert_ne; [done|..]; intros ->; [done|]. apply Hrl. constructor.
      * apply Hh; [by rewrite lookup_insert_ne, lookup_insert_eq|]. exists lst.
        apply (dls_set_prev _ None); [done|by rewrite lookup_insert_ne|].
        eapply dls_frame; [|exact Hl]. intros r Hr. rewrite lookup_insert_ne; [done|]. by intros ->.
    + unfold getNBuckets; simpl. by rewrite length_insert.
    + unfold payloads; simpl. rewrite (payload_insert _ q nq); [|by rewrite lookup_insert_ne|done].
      by apply (payload_insert _ _ n).
    + intros r Hr Hrc. rewrite !lookup_insert_ne; [done..|]. intros ->. apply Hrc.
      apply elem_of_concat. exists i, (r :: l). split; [done|constructor].
Qed.

(** The two halves of [detach] on the pointers around the node. *)
Lemma detach_links h b l1 p l2 lst n :
  NoDup (l1 ++ p :: l2) → h !! p = Some n → dls h None b (l1 ++ p :: l2) lst None →
  n_prev n = last l1 ∧ n_next n = head l2 ∧
  (∀ q, last l1 = Some q → ∃ nq, h !! q = Some nq ∧ n_next nq = Some p) ∧
  (∀ r, head l2 = Some r → ∃ nr, h !! r = Some nr ∧ n_prev nr = Some p) ∧
  (last l1 = None → b = Some p).
Proof.
  intros Hnd Hn Hl. apply dls_app in Hl as (m & c & H1 & -> & n' & Hn' & Hp & H2). simplify_eq.
  pose proof (dls_last _ _ _ _ _ _ H1) as Hm.
  split; [by rewrite Hm; destruct (last l1)|].
  split; [destruct l2; [by destruct H2|by destruct H2 as [-> _]]|].
  split; [|split].
  - intros q Hq. apply last_Some in Hq as [l1' ->].
    apply dls_app in H1 as (m' & c' & _ & -> & nq & Hnq & _ & _ & Hnx). eauto.
  - intros r Hr. destruct l2 as [|r' l2]; simplify_eq/=. destruct H2 as (_ & nr & ? & ? & _). eauto.
  - intros Hl1%last_None. subst l1. by destruct H1.
Qed.

(** The list without the node. *)
Lemma detach_dls h h' b l1 p l2 lst :
  NoDup (l1 ++ p :: l2) → dls h None b (l1 ++ p :: l2) lst None →
  (∀ q, q ∈ l1 ++ l2 → ∃ nq, h !! q = Some nq ∧
    h' !! q = Some (mkNode (n_hash nq)
      (if decide (head l2 = Some q) then last l1 else n_prev nq)
      (if decide (last l1 = Some q) then head l2 else n_next nq) (n_entry nq))) →
  dll h' (match last l1 with None => head l2 | Some _ => b end) (l1 ++ l2).
Proof.
  intros Hnd Hl Hh. apply dls_app in Hl as (m & c & H1 & -> & n & Hn & _ & H2).
  pose proof (dls_last _ _ _ _ _ _ H1) as Hm. apply NoDup_app in Hnd as (Hn1 & Hd & Hn2).
  apply NoDup_cons in Hn2 as [Hp2 Hn2].
  assert (Hd' : ∀ q, q ∈ l1 → q ∉ l2) by (intros q Hq Hq'; apply (Hd q Hq); by constructor).
  assert (E1 : dls h' None (match last l1 with None => head l2 | Some _ => b end) l1 m (head l2)).
  { destruct (last l1) as [q|] eqn:Hlast.
    - apply last_Some in Hlast as [l1' ->].
      apply dls_app in H1 as (m' & c' & H1' & -> & nq & Hnq & Hpq & -> & _).
      apply dls_app. exists m', (Some q). apply NoDup_app in Hn1 as (Hn1 & Hd1 & _). split.
      + eapply dls_frame_links; [exact H1'|]. intros r Hr.
        destruct (Hh r) as (nr & ? & E); [set_solver|].
        exists nr. split; [done|]. rewrite E. rewrite !decide_False; [by destruct nr|..].
        * intros [= ->]. apply (Hd1 r Hr). constructor.
        * intros Hr'. apply (Hd' r); [set_solver|]. by apply head_Some_elem_of.
      + destruct (Hh q) as (nq' & Hq' & E); [set_solver|]. simplify_eq. split; [done|].
        eexists. split; [exact E|]. simpl. rewrite decide_False, decide_True; [done|done|].
        intros Hr'. apply (Hd' q); [set_solver|]. by apply head_Some_elem_of.
    - apply last_None in Hlast as ->. by destruct H1. }
  exists (match l2 with [] => m | _ => lst end). apply dls_app. exists m, (head l2). split; [exact E1|].
  destruct l2 as [|r l2]; [done|]. simpl in *. destruct H2 as (_ & nr & Hnr & _ & H2).
  split; [done|]. destruct (Hh r) as (nr' & ? & E); [set_solver|]. simplify_eq.
  eexists. split; [exact E|]. simpl. rewrite decide_True by done. split; [by destruct (last l1)|].
  rewrite decide_False; [|intros Hr; apply (Hd' r); [|constructor]; apply last_Some_elem_of in Hr; done].
  eapply dls_frame_links; [exact H2|]. intros r' Hr'.
  destruct (Hh r') as (nr'' & ? & E'); [set_solver|]. exists nr''. split; [done|]. rewrite E'.
  rewrite !decide_False; [by destruct nr''|..].
  - intros Hl1. apply (Hd' r'); [by apply last_Some_elem_of|by constructor].
  - intros [= ->]. by apply NoDup_cons in Hn2 as [? _].
Qed.

(** The heap and the buckets after [detach]. *)
Definition detached_heap (h : gmap ptr Node) (p : ptr) (prev next : option ptr) : gmap ptr Node :=
  let h1 := match prev with Some q => alter (set_next next) q h | None => h end in
  let h2 := match next with Some r => alter (set_prev prev) r h1 | None => h1 end in
  alter (λ n, set_next None (set_prev None n)) p h2.

Definition detached_buckets (b : list (option ptr)) i (prev next : option ptr) : list (option ptr) :=
  match prev with Some _ => b | None => <[i := next]> b end.

Lemma alter_to_insert {A} (f : A → A) (h : gmap ptr A) p n :
  h !! p = Some n → alter f p h = <[p := f n]> h.
Proof.
  intros Hn. apply map_eq. intros j. rewrite lookup_alter, lookup_insert.
  case_decide; [|done]. subst. by rewrite Hn.
Qed.

Lemma wp_store_alter p f Q s :
  wp (store p f) Q s ↔ is_Some (ht_heap s !! p) ∧ Q tt (set_heap (alter f p (ht_heap s)) s).
Proof.
  rewrite wp_store. split.
  - intros (n & Hn & HQ). split; [by eexists|]. by rewrite (alter_to_insert _ _ _ n).
  - intros [[n Hn] HQ]. exists n. split; [done|]. by rewrite (alter_to_insert _ _ _ n) in HQ.
Qed.

Lemma lookup_alter_is_Some {A} (f : A → A) (h : gmap ptr A) i j :
  is_Some (h !! j) → is_Some (alter f i h !! j).
Proof. intros [x Hx]. rewrite lookup_alter. case_decide; subst; rewrite Hx; by eexists. Qed.

Lemma detach_runs s cs i l1 p l2 n :
  linked s cs → cs !! i = Some (l1 ++ p :: l2) → ht_heap s !! p = Some n →
  wp (detach i p) (λ _ s', s' = set_heap (detached_heap (ht_heap s) p (last l1) (head l2))
    (set_buckets (detached_buckets (ht_buckets s) i (last l1) (head l2)) s)) s.
Proof.
  intros Hs Hi Hn. destruct (linked_bucket _ _ _ _ Hs Hi) as (b & Hb & lst & Hl).
  destruct Hs as [Hd Hnd]. pose proof (chains_NoDup _ _ _ Hnd Hi) as Hnl.
  destruct (detach_links _ _ _ _ _ _ _ Hnl Hn Hl) as (Hp & Hx & Hq & Hr & Hb').
  apply NoDup_app in Hnl as (Hn1 & Hdj & Hn2). apply NoDup_cons in Hn2 as [Hp2 Hn2].
  unfold detach. wp_step. apply wp_deref. exists n. split; [done|]. rewrite Hp, Hx.
  assert (Hstep : ∀ Q, Q (set_heap (match last l1 with
      | Some q => alter (set_next (head l2)) q (ht_heap s) | None => ht_heap s end)
      (set_buckets (detached_buckets (ht_buckets s) i (last l1) (head l2)) s)) →
    wp (if last l1 is Some prev then
     pn ← deref prev; assertM (bool_decide (n_next pn = Some p));; store prev (set_next (head l2))
    else head ← getBucket i; assertM (bool_decide (head = Some p));;
     modify (λ s, set_buckets (<[i := hd_error l2]> (ht_buckets s)) s)) (λ _, Q) s).
  { intros Q HQ. destruct (last l1) as [q|].
    - destruct (Hq q eq_refl) as (nq & Hnq & Hnx). repeat wp_step. apply wp_deref. exists nq. split; [done|].
      repeat wp_step; [by apply bool_decide_eq_true|]. apply wp_store_alter. split; [by eexists|]. by destruct s.
    - repeat wp_step. apply wp_getBucket. exists b. split; [done|].
      repeat wp_step; [apply bool_decide_eq_true; by apply Hb'|]. by destruct s. }
  wp_step. apply Hstep. clear Hstep. set (h1 := match last l1 with Some _ => _ | None => _ end).
  assert (Hh1 : ∀ x nx, ht_heap s !! x = Some nx → last l1 ≠ Some x → h1 !! x = Some nx).
  { intros x nx Hnx Hne. unfold h1. destruct (last l1); [|done]. rewrite lookup_alter_ne; [done|congruence]. }
  assert (Hdom : ∀ x, is_Some (ht_heap s !! x) → is_Some (h1 !! x)).
  { intros x Hsx. unfold h1. destruct (last l1); [by apply lookup_alter_is_Some|done]. }
  wp_step. unfold detached_heap. fold h1. destruct (head l2) as [r|] eqn:Hh2.
  - destruct (Hr r eq_refl) as (nr & Hnr & Hpr). apply head_Some_elem_of in Hh2.
    repeat wp_step. apply wp_deref. exists nr. simpl.
    split; [apply Hh1; [done|]; intros ?%last_Some_elem_of; eapply (Hdj r); [done|by constructor]|].
    repeat wp_step; [by apply bool_decide_eq_true|]. apply wp_store_alter. split; [apply Hdom; by eexists|].
    apply wp_store_alter. split; [simpl; apply lookup_alter_is_Some, Hdom; by eexists|]. done.
  - repeat wp_step. apply wp_store_alter. split; [apply Hdom; by eexists|]. done.
Qed.

Lemma detached_heap_lookup h p prev next x n :
  x ≠ p → h !! x = Some n →
  detached_heap h p prev next !! x =
    Some (mkNode (n_hash n) (if decide (next = Some x) then prev else n_prev n)
            (if decide (prev = Some x) then next else n_next n) (n_entry n)).
Proof.
  intros Hx Hn. unfold detached_heap. rewrite lookup_alter_ne by done.
  destruct next as [r|], prev as [q|]; rewrite ?lookup_alter;
    repeat case_decide; simplify_eq/=; rewrite Hn; by destruct n.
Qed.

Lemma alter_payload (h : gmap ptr Node) p f :
  (∀ n, payload (f n) = payload n) → payload <$> alter f p h = payload <$> h.
Proof.
  intros Hf. apply map_eq. intros j. rewrite !lookup_fmap, lookup_alter.
  case_decide; [subst|done]. destruct (h !! j); simpl; [by rewrite Hf|done].
Qed.

Lemma detached_heap_payload h p prev next :
  payload <$> detached_heap h p prev next = payload <$> h.
Proof.
  unfold detached_heap. rewrite alter_payload by done.
  destruct next, prev; by rewrite ?alter_payload.
Qed.

Lemma detached_heap_node h p prev next n :
  h !! p = Some n → prev ≠ Some p → next ≠ Some p →
  detached_heap h p prev next !! p = Some (set_next None (set_prev None n)).
Proof.
  intros Hn Hp Hx. unfold detached_heap. rewrite lookup_alter_eq.
  destruct next, prev; rewrite ?lookup_alter_ne by congruence; by rewrite Hn.
Qed.

Lemma detach_spec s cs i l1 p l2 n :
  linked s cs → cs !! i = Some (l1 ++ p :: l2) → ht_heap s !! p = Some n →
  wp (detach i p) (λ _ s',
    linked s' (<[i := l1 ++ l2]> cs) ∧ relinked s s' ∧
    ht_heap s' !! p = Some (set_next None (set_prev None n))) s.
Proof.
  intros Hs Hi Hn. eapply wp_mono; [by apply (detach_runs s cs i l1 p l2 n)|].
  intros _ s' ->. destruct (linked_bucket _ _ _ _ Hs Hi) as (b & Hb & lst & Hl).
  destruct Hs as [Hd Hnd]. pose proof (chains_NoDup _ _ _ Hnd Hi) as Hnl.
  assert (Hpn : p ∉ l1 ++ l2) by (rewrite <- Permutation_middle in Hnl; by apply NoDup_cons in Hnl as [? _]).
  assert (Hq : ∀ q, last l1 = Some q ∨ head l2 = Some q → q ∈ l1 ++ l2).
  { intros q [Hq%last_Some_elem_of|Hq%head_Some_elem_of]; set_solver. }
  split; [split|split; [split; [by destruct s|split]|]]; simpl.
  - assert (Hbk : detached_buckets (ht_buckets s) i (last l1) (head l2) =
      <[i := match last l1 with None => head l2 | Some _ => b end]> (ht_buckets s)).
    { destruct (last l1); simpl; [by rewrite list_insert_id|done]. }
    rewrite Hbk. eapply Forall2_dll_update; [exact Hd|done..| |].
    + intros r Hr Hrc. apply elem_of_concat in Hrc as (j & k & Hj & Hrk).
      destruct (proj1 (Forall2_same_length_lookup _ _ _) Hd) as [Hlen Hd'].
      destruct (lookup_lt_is_Some_2 (ht_buckets s) j) as [bj Hbj].
      { rewrite Hlen. by eapply lookup_lt_Some. }
      destruct (Hd' _ _ _ Hbj Hj) as [lj Hlj]. destruct (dls_elem _ _ _ _ _ _ _ Hlj Hrk) as [nr Hnr].
      rewrite Hnr, (detached_heap_lookup _ _ _ _ r nr) by (done || set_solver).
      rewrite !decide_False; [by destruct nr|intros ?; apply Hr; set_solver..].
    + eapply detach_dls; [exact Hnl|exact Hl|]. intros q Hql.
      destruct (dls_elem _ _ _ _ _ _ q Hl ltac:(set_solver)) as [nq Hnq]. exists nq. split; [done|].
      apply detached_heap_lookup; [set_solver|done].
  - pose proof (concat_insert_remove _ _ _ _ _ Hi) as Hperm. rewrite <- Hperm in Hnd.
    by apply NoDup_cons in Hnd as [_ ?].
  - unfold getNBuckets; simpl. destruct (last l1); simpl; [done|by rewrite length_insert].
  - apply detached_heap_payload.
  - apply detached_heap_node; [done|naive_solver..].
Qed.
End Linking.

(** ** The representation invariant *)

Section Invariant.
Context {N : NdnCxx}.
Implicit Types (s : Hashtable) (cs : list (list ptr)) (p q : ptr).

(** What the class promises to its users: the entries by address. *)
Definition entries s : gmap ptr Entry := n_entry <$> ht_heap s.

Definition options_ok (o : HashtableOptions) : Prop :=
  0 < minSize o ∧ minSize o ≤ initialSize o ∧
  flt_ltb (Flt 1 0) (expandFactor o) = true.

(** Every node is in the bucket its hash selects. *)
Definition bucketed s cs : Prop :=
  ∀ i l p n, cs !! i = Some l → p ∈ l → ht_heap s !! p = Some n → computeBucketIndex s (n_hash n) = i.

Definition thresholds_ok s : Prop :=
  let n := Z.of_nat (getNBuckets s) in
  ht_expandThreshold s = fscale float_prec (expandLoadFactor (ht_options s)) n ∧
  ht_shrinkThreshold s = fscale float_prec (shrinkLoadFactor (ht_options s)) n.

(** Hashes and names of the nodes. *)
Definition named s : Prop :=
  (∀ p n, ht_heap s !! p = Some n →
     computeHash (e_name (n_entry n)) (length (e_name (n_entry n))) = Some (n_hash n)) ∧
  (∀ p q n m, ht_heap s !! p = Some n → ht_heap s !! q = Some m →
     e_name (n_entry n) = e_name (n_entry m) → p = q) ∧
  (∀ p n, ht_heap s !! p = Some n → length (e_name (n_entry n)) ≤ getMaxDepth).

(** Everything but the size and the thresholds, with the chains exposed. *)
Record shaped s cs : Prop := {
  sh_linked : linked s cs;
  sh_dom : ∀ p, p ∈ concat cs ↔ is_Some (ht_heap s !! p);
  sh_bucketed : bucketed s cs;
  sh_buckets : 0 < getNBuckets s;
  sh_options : options_ok (ht_options s);
}.

Record HtInv s : Prop := {
  hi_shaped : ∃ cs, shaped s cs;
  hi_named : named s;
  hi_size : ht_size s = Z.of_nat (size (ht_heap s));
  hi_thresholds : thresholds_ok s;
}.

Lemma shaped_nbuckets s cs : shaped s cs → 0 < getNBuckets s.
Proof. by intros [_ _ _ Hb _]. Qed.

Lemma computeBucketIndex_lt s h : 0 < getNBuckets s → computeBucketIndex s h < getNBuckets s.
Proof.
  unfold computeBucketIndex. intros Hn.
  pose proof (Z.mod_pos_bound h (Z.of_nat (getNBuckets s)) ltac:(lia)). lia.
Qed.

Lemma linked_length s cs : linked s cs → length cs = getNBuckets s.
Proof. intros [Hd _]. apply Forall2_length in Hd. done. Qed.

Lemma shaped_size s cs : shaped s cs → length (concat cs) = size (ht_heap s).
Proof.
  intros [[_ Hn] Hdom _ _ _]. rewrite <- size_dom, <- (size_list_to_set (C := gset ptr) _ Hn).
  f_equal. apply set_eq. intros p. rewrite elem_of_list_to_set, elem_of_dom. apply Hdom.
Qed.

Lemma length_chain_le {A} (cs : list (list A)) i l :
  cs !! i = Some l → length l ≤ length (concat cs).
Proof.
  revert i. induction cs as [|k cs IH]; intros [|i] Hi; simplify_eq/=; rewrite length_app; [lia|].
  apply IH in Hi. lia.
Qed.

(** A node is found in the bucket of its hash. *)
Lemma shaped_find s cs p n :
  shaped s cs → ht_heap s !! p = Some n →
  ∃ l, cs !! computeBucketIndex s (n_hash n) = Some l ∧ p ∈ l.
Proof.
  intros [_ Hdom Hb _ _] Hn. assert (Hp : p ∈ concat cs) by (apply Hdom; by eexists).
  apply elem_of_concat in Hp as (i & l & Hi & Hp). exists l. split; [|done].
  by rewrite (Hb i l p n).
Qed.

Lemma entries_lookup s p e : entries s !! p = Some e ↔ ∃ n, ht_heap s !! p = Some n ∧ n_entry n = e.
Proof. unfold entries. rewrite lookup_fmap, fmap_Some. naive_solver. Qed.

Lemma entries_payloads s : entries s = snd <$> payloads s.
Proof. unfold entries, payloads. rewrite <- map_fmap_compose. by apply map_fmap_ext. Qed.

Lemma relinked_entries s s' : relinked s s' → entries s' = entries s.
Proof. intros (_ & _ & Hp). by rewrite !entries_payloads, Hp. Qed.

Lemma named_payloads s s' : payloads s' = payloads s → named s → named s'.
Proof.
  intros Hp (H1 & H2 & H3). split; [|split].
  - intros p n Hn. destruct (payloads_node s s' p n Hp Hn) as (n0 & Hn0 & [= <- <-]). eauto.
  - intros p q n m Hn Hm. destruct (payloads_node s s' p n Hp Hn) as (n0 & Hn0 & [= _ <-]).
    destruct (payloads_node s s' q m Hp Hm) as (m0 & Hm0 & [= _ <-]). eauto.
  - intros p n Hn. destruct (payloads_node s s' p n Hp Hn) as (n0 & Hn0 & [= _ <-]). eauto.
Qed.

Lemma size_payloads s s' : payloads s' = payloads s → size (ht_heap s') = size (ht_heap s).
Proof.
  intros Hp. rewrite <- (map_size_fmap payload (ht_heap s')), <- (map_size_fmap payload (ht_heap s)).
  unfold payloads in Hp. by rewrite Hp.
Qed.
End Invariant.

(** ** Searching a bucket *)

Section Search.
Context {N : NdnCxx} {NL : NdnCxxLaws N}.
Implicit Types (s : Hashtable) (cs : list (list ptr)) (p q : ptr).

Lemma findInBucket_spec fuel name k h cur l s :
  sll (ht_heap s) cur l → length l ≤ fuel →
  wp (findInBucket fuel name k h cur) (λ r s', s' = s ∧
    match r with
    | Some p => ∃ n, ht_heap s !! p = Some n ∧ n_hash n = h ∧ e_name (n_entry n) = take k name
    | None => ∀ p n, p ∈ l → ht_heap s !! p = Some n → n_hash n = h → e_name (n_entry n) ≠ take k name
    end) s.
Proof.
  revert cur fuel. induction l as [|p l IH]; intros cur fuel; simpl.
  - intros -> _. assert (E : findInBucket fuel name k h None = mret None) by (by destruct fuel).
    rewrite E. apply wp_ret. split; [done|]. by intros p n ?%elem_of_nil.
  - intros (-> & n & Hn & Hl) Hf. destruct fuel as [|fuel]; [lia|]. simpl.
    wp_step. apply wp_deref. exists n. split; [done|].
    destruct ((n_hash n =? h)%Z && _) eqn:E.
    + apply andb_true_iff in E as [?%Z.eqb_eq E%bool_decide_eq_true].
      apply name_compare_eq in E. wp_step. eauto.
    + eapply wp_mono; [apply IH; [done|lia]|]. intros r s' [-> Hr]. split; [done|].
      destruct r; [done|]. intros q nq [->|Hq]%elem_of_cons Hnq Hh Hname; [|by eapply Hr].
      simplify_eq. rewrite Z.eqb_refl, bool_decide_eq_true_2 in E; [done|]. by apply name_compare_eq.
Qed.

(** The search loop on a well-formed table, for the hash of the name. *)
Lemma bucket_search name k h s cs :
  shaped s cs → named s → computeHash name k = Some h →
  ∃ b, ht_buckets s !! computeBucketIndex s h = Some b ∧
  wp (findInBucket (size (ht_heap s)) name k h b) (λ r s', s' = s ∧
    match r with
    | Some p => ∃ e, entries s !! p = Some e ∧ e_name e = take k name
    | None => ∀ p e, entries s !! p = Some e → e_name e ≠ take k name
    end) s.
Proof.
  intros Hs (Hnh & _ & _) Hh. pose proof (computeBucketIndex_lt s h (shaped_nbuckets _ _ Hs)) as Hi.
  rewrite <- (linked_length _ _ (sh_linked _ _ Hs)) in Hi. apply lookup_lt_is_Some_2 in Hi as [l Hi].
  destruct (linked_bucket _ _ _ _ (sh_linked _ _ Hs) Hi) as (b & Hb & lst & Hl).
  exists b. split; [done|]. eapply wp_mono.
  { apply (findInBucket_spec _ _ _ _ _ l); [by eapply dls_sll|].
    rewrite <- (shaped_size _ _ Hs). by eapply length_chain_le. }
  intros r s' [-> Hr]. split; [done|]. destruct r as [p|].
  - destruct Hr as (n & Hn & _ & He). exists (n_entry n). split; [|done]. apply entries_lookup. eauto.
  - intros p e (n & Hn & <-)%entries_lookup Hname.
    assert (Hhash : n_hash n = h).
    { apply Hnh in Hn as Hc. rewrite Hname, computeHash_take in Hc. congruence. }
    destruct (shaped_find _ _ _ _ Hs Hn) as (l' & Hl' & Hp). rewrite Hhash, Hi in Hl'. simplify_eq.
    by eapply Hr.
Qed.
End Search.

(** ** Changing the number of buckets *)

Section Resize.
Context {N : NdnCxx}.
Implicit Types (s : Hashtable) (cs : list (list ptr)) (p q : ptr).

(** While nodes move: those of [new] are in their new buckets, those of [rem]
    still wait in the old ones; [s1] is the table just after the swap. *)
Record resizing s1 (rem : list ptr) s new : Prop := {
  rz_linked : linked s new;
  rz_nodup : NoDup (concat new ++ rem);
  rz_dom : ∀ p, p ∈ concat new ++ rem ↔ is_Some (ht_heap s !! p);
  rz_bucketed : bucketed s new;
  rz_relinked : relinked s1 s;
  rz_buckets : 0 < getNBuckets s;
}.

Definition rehash (node : ptr) : M Hashtable unit :=
  nd ← deref node;
  bucket ← gets (λ s, computeBucketIndex s (n_hash nd));
  attach bucket node.

Lemma computeBucketIndex_nb s s' h :
  getNBuckets s' = getNBuckets s → computeBucketIndex s' h = computeBucketIndex s h.
Proof. unfold computeBucketIndex. by intros ->. Qed.

Lemma rehash_step s1 p rest s new :
  resizing s1 (p :: rest) s new →
  wp (rehash p) (λ _ s', (∃ new', resizing s1 rest s' new') ∧
    ∀ r, r ∈ rest → ht_heap s' !! r = ht_heap s !! r) s.
Proof.
  intros [Hlk Hnd Hdom Hbk Hrl Hnb]. assert (Hp : is_Some (ht_heap s !! p)) by (apply Hdom; set_solver).
  destruct Hp as [n Hn]. rewrite <- Permutation_middle in Hnd. apply NoDup_cons in Hnd as [Hp Hnd].
  unfold rehash. wp_step. apply wp_deref. exists n. split; [done|]. do 2 wp_step.
  pose proof (computeBucketIndex_lt s (n_hash n) Hnb) as Hi. rewrite <- (linked_length _ _ Hlk) in Hi.
  apply lookup_lt_is_Some_2 in Hi as [l Hi].
  eapply wp_mono; [apply (attach_spec s new _ l p n); [done|done|set_solver|done]|].
  intros _ s' (Hlk' & Hrl' & Hfr). pose proof (concat_insert_cons new _ l p Hi) as Hperm. split.
  - exists (<[computeBucketIndex s (n_hash n) := p :: l]> new). split; [done|..].
    + rewrite Hperm. simpl. by constructor.
    + intros q. rewrite Hperm. pose proof (Hdom q) as Hq.
      assert (is_Some (ht_heap s' !! q) ↔ is_Some (ht_heap s !! q)) as ->; [|set_solver].
      destruct Hrl' as (_ & _ & Hpay). rewrite <- !elem_of_dom, <- !(dom_fmap_L payload).
      unfold payloads in Hpay. by rewrite Hpay.
    + intros j k q nq Hj Hq Hnq. rewrite (computeBucketIndex_nb s s') by apply Hrl'.
      destruct (payloads_node s s' q nq (proj2 (proj2 Hrl')) Hnq) as (n0 & Hn0 & [= E _]).
      rewrite <- E. destruct (decide (j = computeBucketIndex s (n_hash n))) as [->|Hne].
      * rewrite list_lookup_insert_eq in Hj by (by eapply lookup_lt_Some). simplify_eq.
        apply elem_of_cons in Hq as [->|Hq]; [by simplify_eq|by eapply Hbk].
      * rewrite list_lookup_insert_ne in Hj by done. by eapply Hbk.
    + by eapply relinked_trans.
    + destruct Hrl' as (_ & -> & _). done.
  - intros r Hr. apply NoDup_app in Hnd as (_ & Hd & _). apply Hfr; [set_solver|]. intros Hr'. by apply (Hd r).
Qed.

Lemma rehash_chain s1 fuel cur l rest s new :
  resizing s1 (l ++ rest) s new → sll (ht_heap s) cur l → length l ≤ fuel →
  wp (foreachNode fuel cur rehash) (λ _ s', (∃ new', resizing s1 rest s' new') ∧
    ∀ r, r ∈ rest → ht_heap s' !! r = ht_heap s !! r) s.
Proof.
  revert cur fuel s new. induction l as [|p l IH]; intros cur fuel s new; simpl.
  - intros Hr -> _. assert (E : foreachNode fuel None rehash = mret tt) by (by destruct fuel).
    rewrite E. wp_step. eauto.
  - intros Hr (-> & n & Hn & Hl) Hf. destruct fuel as [|fuel]; [lia|]. simpl.
    wp_step. apply wp_deref. exists n. split; [done|].
    wp_step. eapply wp_mono; [by eapply rehash_step|]. intros _ s2 [[new2 Hr2] Hfr].
    eapply wp_mono; [apply (IH _ _ _ new2 Hr2)|].
    + eapply sll_frame; [|exact Hl]. intros r Hr'. apply Hfr. set_solver.
    + lia.
    + intros _ s3 [Hex Hfr3]. split; [done|]. intros r Hr'. rewrite Hfr3 by done. apply Hfr. set_solver.
Qed.
End Resize.

(** ** The operations and the entries *)

Section Specs.
Context {N : NdnCxx} {NL : NdnCxxLaws N}.
Implicit Types (s : Hashtable) (cs : list (list ptr)) (p q : ptr) (name : Name).

Lemma resize_spec n s cs :
  shaped s cs → 0 < n →
  wp (resize n) (λ _ s', (∃ cs', shaped s' cs') ∧ payloads s' = payloads s ∧
    ht_options s' = ht_options s ∧ ht_size s' = ht_size s ∧ (thresholds_ok s → thresholds_ok s')) s.
Proof.
  intros Hs Hn. unfold resize. do 2 wp_step. case_decide as Hd; [wp_step; eauto 10|].
  repeat wp_step. set (s1 := set_buckets (replicate n None) s).
  eapply wp_mono with (Q := λ _ s', ∃ new, resizing s1 [] s' new).
  - eapply wp_mono.
    { eapply (wp_forM _ _ (λ hs s', ∃ rem new, Forall2 (sll (ht_heap s')) hs rem ∧
        length (concat rem) ≤ size (ht_heap s) ∧ resizing s1 (concat rem) s' new)).
      - intros hd hs s' (rem & new & Hf & Hlen & Hr). apply Forall2_cons_inv_l in Hf as (l & rem' & Hl & Hf & ->).
        simpl in Hlen, Hr. rewrite length_app in Hlen.
        eapply wp_mono; [eapply (rehash_chain s1 _ hd l (concat rem')); [done..|simpl; lia]|].
        intros _ s2 [[new2 Hr2] Hfr]. exists rem', new2. split; [|split; [lia|done]].
        eapply Forall2_impl; [|by intros ? ? ?].
        apply Forall2_same_length_lookup. apply Forall2_same_length_lookup in Hf as [Hl1 Hf]. split; [done|].
        intros i b k Hb Hk. eapply sll_frame; [|by eapply Hf]. intros r Hrk. apply Hfr, elem_of_concat. eauto.
      - exists cs, (replicate n []). destruct Hs as [[Hd2 Hnd] Hdom Hb Hmin Hopt].
        split; [|split].
        + eapply Forall2_impl; [exact Hd2|]. intros b l [lst Hl]. by eapply dls_sll.
        + rewrite <- (shaped_size s cs); [done|by constructor].
        + split; rewrite ?concat_replicate_nil; try done.
          * split; [|rewrite concat_replicate_nil; constructor]. simpl. apply Forall2_replicate. by exists None.
          * intros i l p nd [-> _]%lookup_replicate ?%elem_of_nil. done.
          * unfold getNBuckets; simpl. by rewrite length_replicate. }
    intros _ s' (rem & new & Hf & _ & Hr). apply Forall2_nil_inv_l in Hf as ->. eauto.
  - intros _ s' [new [Hlk Hnd Hdom Hbk (Hrl & Hnb & Hpay) Hpos]]. unfold computeThresholds. wp_step.
    rewrite Hrl in Hpos |- *. split; [exists new; split|]; simpl in *.
    + by rewrite Hrl in Hlk.
    + intros p. rewrite <- Hdom, app_nil_r. done.
    + rewrite Hrl in Hbk. done.
    + unfold getNBuckets in *. simpl. rewrite Hnb. simpl. by rewrite length_replicate.
    + apply Hs.
    + rewrite Hrl in Hpay. done.
Qed.

Lemma wp_allocNode h name Q s :
  length name ≤ getMaxDepth →
  (∀ p, ht_heap s !! p = None →
     Q p (set_heap (<[p := mkNode h None None (newEntry name)]> (ht_heap s)) s)) →
  wp (allocNode h name) Q s.
Proof.
  intros Hl HQ. unfold allocNode. repeat wp_step; [by apply bool_decide_eq_true|].
  apply HQ. apply not_elem_of_dom. apply is_fresh.
Qed.

Lemma named_insert name h s p :
  named s → length name ≤ getMaxDepth → computeHash name (length name) = Some h →
  (∀ p e, entries s !! p = Some e → e_name e ≠ name) → ht_heap s !! p = None →
  named (set_heap (<[p := mkNode h None None (newEntry name)]> (ht_heap s)) s).
Proof.
  intros (H1 & H2 & H3) Hlen Hh Hnew Hp.
  assert (Hne : ∀ q n, ht_heap s !! q = Some n → e_name (n_entry n) ≠ name).
  { intros q n Hn. apply (Hnew q). apply entries_lookup. eauto. }
  split; [|split]; simpl.
  - intros q n. rewrite lookup_insert_Some. intros [[<- <-]|[_ Hn]]; [done|eauto].
  - intros q r n m. rewrite !lookup_insert_Some.
    intros [[<- <-]|[Hq Hn]] [[<- <-]|[Hr Hm]]; simpl; [done|..]; intros E; [|naive_solver|by eauto].
    by destruct (Hne _ _ Hm).
  - intros q n. rewrite lookup_insert_Some. intros [[<- <-]|[_ Hn]]; [done|eauto].
Qed.

(** The part of [findOrInsert] after the search has failed, up to the resize. *)
Lemma insert_node_spec name h s cs :
  shaped s cs → named s → length name ≤ getMaxDepth →
  computeHash name (length name) = Some h →
  (∀ p e, entries s !! p = Some e → e_name e ≠ name) →
  wp (p ← allocNode h name; attach (computeBucketIndex s h) p;; mret p) (λ p s',
    (∃ cs', shaped s' cs') ∧ named s' ∧ ht_heap s !! p = None ∧
    payloads s' = <[p := (h, newEntry name)]> (payloads s) ∧
    ht_options s' = ht_options s ∧ ht_size s' = ht_size s ∧
    (thresholds_ok s → thresholds_ok s')) s.
Proof.
  intros Hs Hnm Hlen Hh Hnew. wp_step. apply wp_allocNode; [done|]. intros p Hp.
  set (nd := mkNode h None None (newEntry name)). set (s1 := set_heap _ _).
  pose proof (computeBucketIndex_lt s h (shaped_nbuckets _ _ Hs)) as Hi.
  destruct Hs as [Hlk Hdom Hbk Hnb Hopt].
  rewrite <- (linked_length _ _ Hlk) in Hi. apply lookup_lt_is_Some_2 in Hi as [l Hi].
  assert (Hpc : p ∉ concat cs) by (rewrite Hdom, Hp; by intros [? ?]).
  assert (Hlk1 : linked s1 cs).
  { destruct Hlk as [Hd Hnd]. split; [|done]. apply Forall2_same_length_lookup.
    apply Forall2_same_length_lookup in Hd as [Hl Hd]. split; [done|]. intros i b k Hb Hk.
    destruct (Hd i b k Hb Hk) as [lst Hdl]. exists lst. eapply dls_frame; [|exact Hdl].
    intros r Hr. simpl. rewrite lookup_insert_ne; [done|]. intros ->. apply Hpc, elem_of_concat. eauto. }
  wp_step. eapply wp_mono; [apply (attach_spec s1 cs _ l p nd); [done..|apply lookup_insert_eq]|].
  intros _ s' (Hlk' & (Heq & Hnb' & Hpay) & _). wp_step.
  assert (Hpay' : payloads s' = <[p := (h, newEntry name)]> (payloads s)).
  { rewrite Hpay. unfold payloads. simpl. by rewrite fmap_insert. }
  split; [|split; [|split; [done|split; [done|]]]].
  - exists (<[computeBucketIndex s h := p :: l]> cs). split; [done|..].
    + intros q. rewrite (concat_insert_cons cs _ l p Hi), elem_of_cons, Hdom.
      rewrite <- (fmap_is_Some payload (ht_heap s' !! q)), <- lookup_fmap. fold (payloads s'). rewrite Hpay'.
      unfold payloads. rewrite <- (fmap_is_Some payload (ht_heap s !! q)), <- lookup_fmap.
      rewrite lookup_insert_is_Some. destruct (decide (p = q)); naive_solver.
    + intros j k q nq Hj Hq Hnq. rewrite (computeBucketIndex_nb s s') by done.
      destruct (payloads_node s1 s' q nq Hpay Hnq) as (n0 & Hn0 & [= <- _]). simpl in Hn0.
      destruct (decide (q = p)) as [->|Hqp].
      * rewrite lookup_insert_eq in Hn0. simplify_eq/=.
        destruct (decide (j = computeBucketIndex s h)) as [|Hne]; [done|].
        rewrite list_lookup_insert_ne in Hj by done. destruct Hpc. apply elem_of_concat. eauto.
      * rewrite lookup_insert_ne in Hn0 by done.
        destruct (decide (j = computeBucketIndex s h)) as [->|Hne].
        -- rewrite list_lookup_insert_eq in Hj by (by eapply lookup_lt_Some). simplify_eq.
           apply elem_of_cons in Hq as [?|Hq]; [done|]. by eapply Hbk.
        -- rewrite list_lookup_insert_ne in Hj by done. by eapply Hbk.
    + by rewrite Hnb'.
    + by rewrite Heq.
  - eapply (named_payloads s1); [done|]. by apply named_insert.
  - rewrite Heq. split; [done|]. split; [done|]. unfold thresholds_ok, getNBuckets in *. simpl in *. by rewrite Hnb'.
Qed.

Lemma HtInv_relink s s' cs' :
  HtInv s → shaped s' cs' → payloads s' = payloads s → ht_size s' = ht_size s → thresholds_ok s' → HtInv s'.
Proof.
  intros [_ Hn Hsz _] Hs Hp Hz Ht. split; [eauto|by eapply named_payloads|..|done].
  by rewrite Hz, Hsz, (size_payloads s s').
Qed.

Definition names_absent s name : Prop := ∀ p e, entries s !! p = Some e → e_name e ≠ name.

Lemma findOrInsert_spec name k h allow s :
  HtInv s → computeHash name k = Some h → (allow = true → length (take k name) ≤ getMaxDepth) →
  wp (findOrInsert name k h allow) (λ r s', HtInv s' ∧
    match r with
    | (Some p, false) => s' = s ∧ ∃ e, entries s !! p = Some e ∧ e_name e = take k name
    | (None, false) => s' = s ∧ allow = false ∧ names_absent s (take k name)
    | (Some p, true) => allow = true ∧ names_absent s (take k name) ∧ entries s !! p = None ∧
        entries s' = <[p := newEntry (take k name)]> (entries s)
    | (None, true) => False
    end) s.
Proof.
  intros Hinv Hh Hd. pose proof Hinv as [[cs Hs] Hnm Hsz Hth]. unfold findOrInsert. do 2 wp_step.
  destruct (bucket_search name k h s cs Hs Hnm Hh) as (b & Hb & Hsearch).
  wp_step. apply wp_getBucket. exists b. split; [done|]. do 2 wp_step.
  wp_step. eapply wp_mono; [exact Hsearch|]. clear Hsearch. intros [p|] s' [-> Hr]; [wp_step; eauto|].
  destruct allow; simpl; [|wp_step; eauto]. wp_step.
  pose proof (insert_node_spec (take k name) h s cs Hs Hnm (Hd eq_refl)
    ltac:(by rewrite computeHash_take) Hr) as Hins.
  apply wp_bind in Hins. eapply wp_mono; [exact Hins|]. clear Hins. intros p s1 Hins. apply wp_bind in Hins.
  wp_step. eapply wp_mono; [exact Hins|]. clear Hins.
  intros [] s2 (Hsh2 & Hnm2 & Hp & Hpay2 & Hopt2 & Hsz2 & Hth2). do 4 wp_step.
  set (s3 := set_size _ s2).
  assert (Hinv3 : HtInv s3).
  { destruct Hsh2 as [cs2 Hsh2]. split; [exists cs2; by destruct Hsh2|done| |by apply Hth2].
    simpl. rewrite Hsz2, Hsz. rewrite <- (map_size_fmap payload (ht_heap s2)). fold (payloads s2).
    rewrite Hpay2, map_size_insert_None by (unfold payloads; by rewrite lookup_fmap, Hp).
    unfold payloads. rewrite map_size_fmap. lia. }
  assert (Hent : ∀ s', payloads s' = payloads s3 → entries s' = <[p:=newEntry (take k name)]> (entries s)).
  { intros s' Hs'. rewrite !entries_payloads, Hs'. change (payloads s3) with (payloads s2).
    by rewrite Hpay2, fmap_insert. }
  assert (Hpn : entries s !! p = None) by (unfold entries; by rewrite lookup_fmap, Hp).
  wp_step. case_match; [|wp_step; wp_step; eauto 10].
  destruct (hi_shaped _ Hinv3) as [cs3 Hs3]. eapply wp_mono.
  { apply (resize_spec _ s3 cs3 Hs3). destruct (sh_options _ _ Hs3) as (_ & _ & Hf).
    apply flt_gt1 in Hf as [Hf1 Hf2]. pose proof (shaped_nbuckets _ _ Hs3).
    pose proof (fscale_ge1 float_prec _ (Z.of_nat (getNBuckets s3)) ltac:(done) Hf1 Hf2 ltac:(lia)). lia. }
  intros _ s4 ([cs4 Hs4] & Hpay4 & _ & Hsz4 & Hth4). wp_step.
  split; [by eapply HtInv_relink, Hth4, (hi_thresholds _ Hinv3)|]. eauto.
Qed.

(** The answer of a search. *)
Definition found s name (r : option ptr) : Prop :=
  match r with
  | Some p => ∃ e, entries s !! p = Some e ∧ e_name e = name
  | None => names_absent s name
  end.

Lemma Hashtable_find_spec name k s :
  HtInv s → wp (Hashtable_find name k) (λ r s', s' = s ∧ found s (take k name) r) s.
Proof.
  intros Hs. unfold Hashtable_find. destruct (computeHash_total name k) as [h Hh].
  wp_step. wp_step; [exact Hh|]. wp_step. eapply wp_mono; [by apply findOrInsert_spec|].
  intros [[p|] []] s' [_ Hr]; wp_step; naive_solver.
Qed.

Lemma Hashtable_findWithHashes_spec name k hashes s :
  HtInv s → hashes !! k = computeHash name k →
  wp (Hashtable_findWithHashes name k hashes) (λ r s', s' = s ∧ found s (take k name) r) s.
Proof.
  intros Hs Hk. unfold Hashtable_findWithHashes. destruct (computeHash_total name k) as [h Hh].
  wp_step. wp_step; [by rewrite Hk|]. wp_step. wp_step; [exact Hh|].
  wp_step. wp_step; [by apply bool_decide_eq_true|].
  wp_step. eapply wp_mono; [by apply findOrInsert_spec|].
  intros [[p|] []] s' [_ Hr]; wp_step; naive_solver.
Qed.

Lemma Hashtable_insert_spec name k hashes s :
  HtInv s → hashes !! k = computeHash name k → length (take k name) ≤ getMaxDepth →
  wp (Hashtable_insert name k hashes) (λ r s', HtInv s' ∧ ∃ p, r.1 = Some p ∧
    if r.2 then names_absent s (take k name) ∧ entries s !! p = None ∧
                entries s' = <[p := newEntry (take k name)]> (entries s)
    else s' = s ∧ found s (take k name) (Some p)) s.
Proof.
  intros Hs Hk Hd. unfold Hashtable_insert. destruct (computeHash_total name k) as [h Hh].
  wp_step. wp_step; [by rewrite Hk|]. wp_step. wp_step; [exact Hh|].
  wp_step. wp_step; [by apply bool_decide_eq_true|].
  eapply wp_mono; [by apply findOrInsert_spec|]. intros [[p|] []] s' [Hi Hr]; naive_solver.
Qed.

(** Entries change without moving, as long as their name stays. *)
Definition updateEntry (p : ptr) (f : Entry → Entry) : M Hashtable unit :=
  store p (λ n, set_entry (f (n_entry n)) n).

Lemma dll_set_entry h p n e b l :
  h !! p = Some n → dll h b l → dll (<[p := set_entry e n]> h) b l.
Proof.
  intros Hp [lst Hl]. exists lst. revert b Hl. generalize (None (A := ptr)) at 1 3.
  induction l as [|q l IH]; intros prev b; simpl; [done|].
  intros (-> & nq & Hq & <- & Hl). split; [done|]. apply IH in Hl. destruct (decide (q = p)) as [->|Hne].
  - simplify_eq. exists (set_entry e n). by rewrite lookup_insert_eq.
  - exists nq. by rewrite lookup_insert_ne.
Qed.

Lemma updateEntry_spec p f e s :
  HtInv s → entries s !! p = Some e → e_name (f e) = e_name e →
  wp (updateEntry p f) (λ _ s', HtInv s' ∧ entries s' = <[p := f e]> (entries s)) s.
Proof.
  intros [[cs [[Hd Hnd] Hdom Hbk Hnb Hopt]] (H1 & H2 & H3) Hsz Hth] (n & Hn & <-)%entries_lookup Hname.
  unfold updateEntry. apply wp_store. exists n. split; [done|]. set (n' := set_entry _ n).
  set (s' := set_heap _ s).
  assert (Hnode : ∀ q m, ht_heap s' !! q = Some m → ∃ m0, ht_heap s !! q = Some m0 ∧
    n_hash m = n_hash m0 ∧ e_name (n_entry m) = e_name (n_entry m0)).
  { intros q m. simpl. rewrite lookup_insert_Some. intros [[<- <-]|[_ Hm]]; eauto. }
  split; [split|].
  - exists cs. split; [split; [|done]|..|done|done].
    + eapply Forall2_impl; [exact Hd|]. intros b l. by apply dll_set_entry.
    + intros q. rewrite Hdom. simpl. rewrite lookup_insert_is_Some. destruct (decide (p = q)); naive_solver.
    + intros i l q m Hi Hq (m0 & Hm0 & -> & _)%Hnode. by eapply Hbk.
  - split; [|split].
    + intros q m (m0 & Hm0 & -> & ->)%Hnode. eauto.
    + intros q r m m' (m0 & Hm0 & _ & ->)%Hnode (m0' & Hm0' & _ & ->)%Hnode. eauto.
    + intros q m (m0 & Hm0 & _ & ->)%Hnode. eauto.
  - simpl. by rewrite map_size_insert_Some.
  - done.
  - unfold entries. simpl. by rewrite fmap_insert.
Qed.

Lemma freeNode_spec p n s Q :
  ht_heap s !! p = Some n → n_prev n = None → n_next n = None →
  Q tt (set_heap (delete p (ht_heap s)) s) → wp (freeNode p) Q s.
Proof.
  intros Hn Hp Hx HQ. unfold freeNode. wp_step. apply wp_deref. exists n. split; [done|].
  by repeat wp_step; [apply bool_decide_eq_true..|].
Qed.

(** Taking a detached node out of the heap. *)
Lemma shaped_delete s s' cs i l1 p l2 n :
  shaped s cs → cs !! i = Some (l1 ++ p :: l2) → ht_heap s !! p = Some n →
  linked s' (<[i := l1 ++ l2]> cs) → relinked s s' →
  shaped (set_heap (delete p (ht_heap s')) s') (<[i := l1 ++ l2]> cs).
Proof.
  intros [[_ Hnd] Hdom Hbk Hnb Hopt] Hi Hn [Hd' Hnd'] (Heq & Hnb' & Hpay).
  pose proof (concat_insert_remove _ _ _ _ _ Hi) as Hperm.
  assert (Hp : p ∉ concat (<[i := l1 ++ l2]> cs)).
  { rewrite <- Hperm in Hnd. by apply NoDup_cons in Hnd as [? _]. }
  assert (Hsome : ∀ q, is_Some (ht_heap s' !! q) ↔ is_Some (ht_heap s !! q)).
  { intros q. rewrite <- !elem_of_dom, <- !(dom_fmap_L payload). unfold payloads in Hpay. by rewrite Hpay. }
  split.
  - split; [|done]. apply Forall2_same_length_lookup.
    apply Forall2_same_length_lookup in Hd' as [Hl Hd']. split; [done|]. intros j b k Hb Hk.
    destruct (Hd' j b k Hb Hk) as [lst Hdl]. exists lst. eapply dls_frame; [|exact Hdl].
    intros r Hr. simpl. rewrite lookup_delete_ne; [done|]. intros ->. apply Hp, elem_of_concat. eauto.
  - intros q. simpl. rewrite lookup_delete_is_Some, Hsome, <- Hdom, <- Hperm, elem_of_cons. naive_solver.
  - intros j k q nq Hj Hq. simpl. rewrite lookup_delete_Some. intros [Hqp Hnq].
    rewrite (computeBucketIndex_nb s _) by done.
    destruct (payloads_node s s' q nq Hpay Hnq) as (n0 & Hn0 & [= <- _]).
    destruct (decide (j = i)) as [->|Hne].
    + rewrite list_lookup_insert_eq in Hj by (by eapply lookup_lt_Some). simplify_eq.
      eapply Hbk; [exact Hi| |done]. set_solver.
    + rewrite list_lookup_insert_ne in Hj by done. by eapply Hbk.
  - unfold getNBuckets in *. simpl. by rewrite Hnb'.
  - simpl. by rewrite Heq.
Qed.

Lemma named_delete s p : named s → named (set_heap (delete p (ht_heap s)) s).
Proof.
  intros (H1 & H2 & H3). split; [|split]; simpl.
  - intros q n [_ Hn]%lookup_delete_Some. eauto.
  - intros q r n m [_ Hn]%lookup_delete_Some [_ Hm]%lookup_delete_Some. eauto.
  - intros q n [_ Hn]%lookup_delete_Some. eauto.
Qed.

Lemma Hashtable_erase_spec p e s :
  HtInv s → entries s !! p = Some e → e_parent e = None →
  wp (Hashtable_erase p) (λ _ s', HtInv s' ∧ entries s' = delete p (entries s)) s.
Proof.
  intros [[cs Hs] Hnm Hsz Hth] (n & Hn & <-)%entries_lookup Hpar. unfold Hashtable_erase.
  wp_step. apply wp_deref. exists n. split; [done|]. do 2 wp_step; [by apply bool_decide_eq_true|].
  do 2 wp_step. destruct (shaped_find _ _ _ _ Hs Hn) as (l & Hl & Hp).
  apply list_elem_of_split in Hp as (l1 & l2 & ->).
  wp_step. eapply wp_mono; [by apply (detach_spec s cs _ l1 p l2 n (sh_linked _ _ Hs))|].
  intros _ s1 (Hlk1 & Hrl1 & Hn1). wp_step. eapply freeNode_spec; [done..|]. do 4 wp_step.
  set (s2 := set_size _ _). pose proof (shaped_delete _ _ _ _ _ _ _ _ Hs Hl Hn Hlk1 Hrl1) as Hs2.
  destruct Hrl1 as (Heq1 & Hnb1 & Hpay1).
  assert (Hent : entries s2 = delete p (entries s)).
  { unfold entries. simpl. rewrite fmap_delete. f_equal. fold (entries s1). fold (entries s).
    by rewrite !entries_payloads, Hpay1. }
  assert (Hinv2 : HtInv s2).
  { split.
    - eexists. destruct Hs2. split; done.
    - apply (named_delete s1). by eapply named_payloads.
    - simpl. rewrite Heq1. simpl. rewrite Hsz, map_size_delete_Some by (by eexists).
      rewrite <- (size_payloads s s1 Hpay1).
      pose proof (map_size_ne_0_lookup_2 (ht_heap s1) p ltac:(by eexists)). lia.
    - unfold thresholds_ok, getNBuckets in *. simpl. rewrite Hnb1, Heq1. done. }
  case_match; [|wp_step; eauto]. destruct (hi_shaped _ Hinv2) as [cs2 Hsh2]. eapply wp_mono.
  { apply (resize_spec _ s2 cs2 Hsh2). destruct (sh_options _ _ Hsh2). lia. }
  intros _ s4 ([cs4 Hs4] & Hpay4 & _ & Hsz4 & Hth4).
  split; [by eapply HtInv_relink, Hth4, (hi_thresholds _ Hinv2)|].
  rewrite <- Hent. by rewrite !entries_payloads, Hpay4.
Qed.

Lemma newHashtable_spec o s : newHashtable o = Some s → HtInv s ∧ entries s = ∅.
Proof.
  unfold newHashtable. intros Ho. do 9 (apply bind_Some in Ho as (? & _ & Ho)).
  injection Ho as <-. split; [|done]. split; [|split; [done|split; done]|done|done].
  exists (replicate (initialSize o) []). split; simpl.
  - split; simpl; [apply Forall2_replicate; by exists None|]. rewrite concat_replicate_nil. constructor.
  - intros p. rewrite concat_replicate_nil, lookup_empty, elem_of_nil. split; [done|]. by intros [? ?].
  - intros i l p n [-> _]%lookup_replicate ?%elem_of_nil. done.
  - unfold getNBuckets. simpl. rewrite length_replicate. lia.
  - done.
Qed.
End Specs.

#[export] Hint Resolve Hashtable_find_spec Hashtable_findWithHashes_spec Hashtable_insert_spec
  updateEntry_spec Hashtable_erase_spec : nfd.

(** ** Correctness *)

Section HashtableCorrect.
Context {N : NdnCxx} {NL : NdnCxxLaws N}.
Implicit Types (s : Hashtable) (e : Entry) (p : ptr) (name : Name).

(** C15: The hashtable, with its chained buckets and its resizing, implements a
    finite map of entries with distinct names: [find] answers whether a prefix is
    in the map and changes nothing, [insert] returns the existing entry or adds
    one under a new address, and [erase] removes one entry; the chains, the size
    and the thresholds stay consistent and no assertion fails. *)
Theorem hashtable_refines_map name k s :
  HtInv s →
  wp (Hashtable_find name k) (λ r s', s' = s ∧ found s (take k name) r) s ∧
  (k ≤ length name → k ≤ getMaxDepth → ∃ hashes, computeHashes name k = Some hashes ∧
    wp (Hashtable_insert name k hashes) (λ r s', HtInv s' ∧ ∃ p, r.1 = Some p ∧
      if r.2 then names_absent s (take k name) ∧ entries s !! p = None ∧
                  entries s' = <[p := newEntry (take k name)]> (entries s)
      else s' = s ∧ found s (take k name) (Some p)) s) ∧
  (∀ p e, entries s !! p = Some e → e_parent e = None →
    wp (Hashtable_erase p) (λ _ s', HtInv s' ∧ entries s' = delete p (entries s)) s).
Proof.
  intros Hs. split; [by apply Hashtable_find_spec|]. split.
  - intros Hk Hd. destruct (computeHashes_spec name k) as (hs & Hhs & _ & Hl). exists hs. split; [done|].
    apply Hashtable_insert_spec; [done| |rewrite length_take; lia]. apply Hl. rewrite length_take. lia.
  - intros p e. by apply Hashtable_erase_spec.
Qed.
End HashtableCorrect.

(** Example: an empty table of two buckets. *)
Definition emptyHashtable : Hashtable := Eval vm_compute in
  default (mkHashtable ∅ [] (defaultHashtableOptions 2) 0 0 0) (newHashtable (N := NatNdn) (defaultHashtableOptions 2)).

Lemma emptyHashtable_inv : HtInv emptyHashtable.
Proof. apply (newHashtable_spec (defaultHashtableOptions 2)). vm_compute. reflexivity. Qed.

Lemma hashtable_refines_map_witness :
  wp (Hashtable_find (N := NatNdn) [101] 1) (λ r s', s' = emptyHashtable ∧ found emptyHashtable ([101] : list nat) r) emptyHashtable.
Proof. exact (proj1 (hashtable_refines_map (N := NatNdn) [101] 1 emptyHashtable emptyHashtable_inv)). Defined.
