(* ===== verification/NameTree.v ===== *)
(** * The name tree

    [src/daemon/table/name-tree.cpp] and the member functions of
    [src/daemon/table/name-tree-entry.cpp] that work on several entries, over
    the hashtable of [Hashtable.v].

    [NtInv] is the invariant of the tree: every entry but the root hangs below
    the entry of its parent name, and children and parent pointers agree.
    [lpm] is the reference definition of a longest prefix match; the three
    lookups of the class are proved equal to it. *)

From Stdlib Require Import ZArith Lia.
From stdpp Require Import base gmap option list.
From S2P Require Import Prelude CityHash Ndn FibEntry PitEntry NameTreeEntry Hashtable.

Section NameTree.
Context {N : NdnCxx}.

(** ** Entries *)

(** [NameTree::NameTree(size_t nBuckets)] *)
Definition newNameTree (nBuckets : nat) : option Hashtable := newHashtable (defaultHashtableOptions nBuckets).

Definition derefEntry (p : ptr) : M Hashtable Entry :=
  n ← deref p; mret (n_entry n).

Definition setParent (this entry : ptr) : M Hashtable unit :=
  e ← derefEntry this;
  assertM (bool_decide (e_parent e = None));;
  assertM (bool_decide (e_name e ≠ []));;
  pe ← derefEntry entry;
  assertM (bool_decide (e_name pe = getParentName (e_name e)));;
  updateEntry this (set_e_parent (Some entry));;
  updateEntry entry (λ pe, set_e_children (e_children pe ++ [this]) pe).

Definition unsetParent (this : ptr) : M Hashtable unit :=
  e ← derefEntry this;
  parent ← someM (e_parent e);
  pe ← derefEntry parent;
  i ← someM (fst <$> list_find (λ q, q = this) (e_children pe));
  updateEntry parent (λ pe, set_e_children (delete i (e_children pe)) pe);;
  updateEntry this (set_e_parent None).

(** ** Insertion and removal *)

(** The body of the loop of [lookup], for the prefix of [i] components; [parent]
    is the entry of the previous iteration. *)
Definition lookup_step (name : Name) (hashes : list Z) (i : nat) (parent : option ptr) : M Hashtable ptr :=
  r ← Hashtable_insert name i hashes;
  node ← someM r.1;
  (if parent is Some q then
     if r.2 : bool then setParent node q else mret tt
   else mret tt);;
  mret node.

Fixpoint lookup_from (name : Name) (hashes : list Z) (i n : nat) (parent : option ptr)
  : M Hashtable (option ptr) :=
  match n with
  | O => mret parent
  | S n' =>
      node ← lookup_step name hashes i parent;
      lookup_from name hashes (S i) n' (Some node)
  end.

Definition NameTree_lookup (name : Name) (prefixLen : nat) : M Hashtable ptr :=
  assertM (bool_decide (prefixLen ≤ length name));;
  assertM (bool_decide (prefixLen ≤ getMaxDepth));;
  hashes ← someM (computeHashes name prefixLen);
  r ← lookup_from name hashes 0 (S prefixLen) None;
  someM r.

(** The loop of [eraseIfEmpty] climbs towards the root; an entry is at most
    [getMaxDepth] levels below it. *)
Fixpoint eraseIfEmpty_loop (fuel : nat) (canEraseAncestors : bool) (entry : option ptr) (nErased : nat)
  : M Hashtable nat :=
  match fuel, entry with
  | _, None => mret nErased
  | O, Some _ => someM None
  | S fuel', Some p =>
      e ← derefEntry p;
      if isEmpty e then
        (if e_parent e is Some _ then unsetParent p else mret tt);;
        Hashtable_erase p;;
        if canEraseAncestors
        then eraseIfEmpty_loop fuel' canEraseAncestors (e_parent e) (S nErased)
        else mret (S nErased)
      else mret nErased
  end.

Definition eraseIfEmpty (entry : ptr) (canEraseAncestors : bool) : M Hashtable nat :=
  eraseIfEmpty_loop (S getMaxDepth) canEraseAncestors (Some entry) 0.

(** ** Matching *)

(** [name_tree::EntrySelector]; a selector may look at the identity of the
    entry. *)
Definition EntrySelector : Type := ptr → Entry → bool.

Definition NameTree_findExactMatch (name : Name) (prefixLen : nat) : M Hashtable (option ptr) :=
  let prefixLen := Nat.min (length name) prefixLen in
  if decide (getMaxDepth < prefixLen) then mret None
  else Hashtable_find name prefixLen.

Fixpoint findLongestPrefixMatch_loop (name : Name) (hashes : list Z) (sel : EntrySelector) (i : nat)
  : M Hashtable (option ptr) :=
  node ← Hashtable_findWithHashes name i hashes;
  selected ← (if node is Some p then e ← derefEntry p; mret (sel p e) else mret false);
  if selected : bool then mret node
  else match i with
       | O => mret None
       | S i' => findLongestPrefixMatch_loop name hashes sel i'
       end.

Definition findLongestPrefixMatch (name : Name) (sel : EntrySelector) : M Hashtable (option ptr) :=
  let depth := Nat.min (length name) getMaxDepth in
  hashes ← someM (computeHashes name depth);
  findLongestPrefixMatch_loop name hashes sel depth.

(** [findLongestPrefixMatch(const Entry&)] climbs from an entry. *)
Fixpoint findLongestPrefixMatch_up (fuel : nat) (entry : option ptr) (sel : EntrySelector)
  : M Hashtable (option ptr) :=
  match fuel, entry with
  | _, None => mret None
  | O, Some _ => someM None
  | S fuel', Some p =>
      e ← derefEntry p;
      if sel p e then mret (Some p)
      else findLongestPrefixMatch_up fuel' (e_parent e) sel
  end.

Definition findLongestPrefixMatch_entry (entry : ptr) (sel : EntrySelector) : M Hashtable (option ptr) :=
  findLongestPrefixMatch_up (S getMaxDepth) (Some entry) sel.

(** The loop of [findLongestPrefixMatch(const pit::Entry&)] that goes deeper,
    for the prefixes of [i .. i + n - 1] components. *)
Fixpoint goDeeper (name : Name) (i n : nat) (nte : ptr) : M Hashtable ptr :=
  match n with
  | O => mret nte
  | S n' =>
      exact ← NameTree_findExactMatch name i;
      match exact with
      | None => mret nte
      | Some p => goDeeper name (S i) n' p
      end
  end.

Definition findLongestPrefixMatch_pit (pitEntry : PitEntry) (sel : EntrySelector)
  : M Hashtable (option ptr) :=
  nte ← someM (pe_nameTreeEntry pitEntry);
  e ← derefEntry nte;
  let name := pe_name pitEntry in
  let depth := Nat.min (length name) getMaxDepth in
  nte' ← (if decide (length (e_name e) < length name)
          then goDeeper name (S (length (e_name e))) (depth - length (e_name e)) nte
          else mret nte);
  findLongestPrefixMatch_entry nte' sel.

(** [lookup(const pit::Entry&)] *)
Definition NameTree_lookup_pit (pit : ptr) (pitEntry : PitEntry) : M Hashtable ptr :=
  let name := pe_name pitEntry in
  if bool_decide (0 < length name) && lastIs isImplicitSha256Digest name &&
     bool_decide (length name ≤ getMaxDepth)
  then NameTree_lookup name (length name)
  else
    nte ← someM (pe_nameTreeEntry pitEntry);
    e ← derefEntry nte;
    assertM (bool_decide (length (filter (λ q, q = pit) (e_pitEntries e)) = 1));;
    mret nte.
End NameTree.

Arguments EntrySelector {N}.

(** ** The tree *)

Section Tree.
Context {N : NdnCxx}.
Implicit Types (E : gmap ptr Entry) (e : Entry) (p q : ptr) (n : Name).

Definition hasName E n : Prop := ∃ p e, E !! p = Some e ∧ e_name e = n.

(** The entry of a name. *)
Definition find_name E n : option (ptr * Entry) :=
  List.find (λ x, bool_decide (e_name x.2 = n)) (map_to_list E).

Record TreeInv E : Prop := {
  ti_names : ∀ p q e e', E !! p = Some e → E !! q = Some e' → e_name e = e_name e' → p = q;
  ti_depth : ∀ p e, E !! p = Some e → length (e_name e) ≤ getMaxDepth;
  ti_parent : ∀ p e, E !! p = Some e →
    match e_parent e with
    | None => e_name e = []
    | Some q => e_name e ≠ [] ∧
        ∃ e', E !! q = Some e' ∧ e_name e' = getParentName (e_name e) ∧ p ∈ e_children e'
    end;
  ti_children : ∀ q e' p, E !! q = Some e' → p ∈ e_children e' →
    ∃ e, E !! p = Some e ∧ e_parent e = Some q;
  ti_nodup : ∀ q e', E !! q = Some e' → NoDup (e_children e');
}.

(** What the other tables see of the tree: the entries something is attached
    to, without their links. *)
Definition strip e : Entry := set_e_parent None (set_e_children [] e).
Definition attached E : gmap ptr Entry :=
  omap (λ e, if hasTableEntries e then Some (strip e) else None) E.

(** No entry is kept without a reason. *)
Definition tidy E : Prop := ∀ p e, E !! p = Some e → isEmpty e = false.

Lemma strip_name e e' : strip e = strip e' → e_name e = e_name e'.
Proof. by intros [=]. Qed.

Lemma strip_tables e e' : strip e = strip e' → hasTableEntries e = hasTableEntries e'.
Proof. intros [= ? H1 H2 H3 H4]. unfold hasTableEntries. by rewrite H1, H2, H3, H4. Qed.

Lemma attached_lookup E p a :
  attached E !! p = Some a ↔ ∃ e, E !! p = Some e ∧ hasTableEntries e = true ∧ a = strip e.
Proof.
  unfold attached. rewrite lookup_omap, bind_Some. split.
  - intros (e & He & Ha). destruct (hasTableEntries e) eqn:?; naive_solver.
  - intros (e & He & Ht & ->). exists e. by rewrite Ht.
Qed.

(** [E'] has the entries of [E] with the same contents, and new ones without
    any. *)
Definition extends E E' : Prop :=
  (∀ p e, E !! p = Some e → ∃ e', E' !! p = Some e' ∧ strip e' = strip e) ∧
  (∀ p e', E' !! p = Some e' → E !! p = None → hasTableEntries e' = false).

Lemma extends_refl E : extends E E.
Proof. split; [eauto|]. intros p e' ? ?. congruence. Qed.

Lemma extends_trans E1 E2 E3 : extends E1 E2 → extends E2 E3 → extends E1 E3.
Proof.
  intros [H12 N12] [H23 N23]. split.
  - intros p e He. destruct (H12 p e He) as (e2 & He2 & S2). destruct (H23 p e2 He2) as (e3 & He3 & S3).
    exists e3. split; [done|congruence].
  - intros p e3 He3 Hn. destruct (E2 !! p) as [e2|] eqn:He2; [|eauto].
    destruct (H23 p e2 He2) as (e3' & He3' & S3). rewrite He3 in He3'. injection He3' as <-.
    rewrite (strip_tables _ _ S3). eauto.
Qed.

Lemma extends_attached E E' : extends E E' → attached E' = attached E.
Proof.
  intros [H1 H2]. apply map_eq. intros p. apply option_eq. intros a. rewrite !attached_lookup. split.
  - intros (e' & He' & Ht & ->). destruct (E !! p) as [e|] eqn:He.
    + destruct (H1 p e He) as (e'' & He'' & S). rewrite He' in He''. injection He'' as <-. exists e. split; [done|].
      by rewrite <- (strip_tables _ _ S), S.
    + apply H2 in He'; [|done]. congruence.
  - intros (e & He & Ht & ->). destruct (H1 p e He) as (e' & He' & S). exists e'. split; [done|].
    by rewrite (strip_tables _ _ S), S.
Qed.

Lemma find_name_Some E n p e :
  TreeInv E → find_name E n = Some (p, e) ↔ E !! p = Some e ∧ e_name e = n.
Proof.
  intros Ht. unfold find_name. split.
  - intros [Hx Hn]%find_some_elem. apply elem_of_map_to_list in Hx.
    by apply bool_decide_eq_true in Hn.
  - intros [He Hn]. destruct (List.find _ _) as [[q e']|] eqn:Hf.
    + apply find_some_elem in Hf as [Hx Hn']. apply elem_of_map_to_list in Hx.
      apply bool_decide_eq_true in Hn'. simpl in *.
      assert (q = p) as -> by (eapply (ti_names _ Ht); [done..|congruence]). by simplify_eq.
    + rewrite find_none_iff in Hf. specialize (Hf (p, e)). rewrite elem_of_map_to_list in Hf.
      specialize (Hf He). by rewrite bool_decide_eq_true_2 in Hf.
Qed.

Lemma find_name_None E n : find_name E n = None ↔ ¬ hasName E n.
Proof.
  unfold find_name, hasName. rewrite find_none_iff. split.
  - intros H (p & e & He & Hn). specialize (H (p, e)). rewrite elem_of_map_to_list in H.
    specialize (H He). by rewrite bool_decide_eq_true_2 in H.
  - intros H [p e] He%elem_of_map_to_list. apply bool_decide_eq_false. naive_solver.
Qed.
End Tree.

(** ** Adding and removing one entry *)

Section TreeSteps.
Context {N : NdnCxx}.
Implicit Types (E : gmap ptr Entry) (e : Entry) (p q : ptr) (n : Name).

Lemma TreeInv_empty : TreeInv ∅.
Proof. split; intros *; rewrite ?lookup_empty; done. Qed.

Lemma TreeInv_root E p :
  TreeInv E → E !! p = None → ¬ hasName E [] → TreeInv (<[p := newEntry []]> E).
Proof.
  intros Ht Hp Hn.
  assert (Hne : ∀ q e, E !! q = Some e → e_name e ≠ []) by (intros q e He ?; apply Hn; by exists q, e).
  split.
  - intros q r e e'. rewrite !lookup_insert_Some.
    intros [[<- <-]|[? He]] [[<- <-]|[? He']] Heq; [done|..|by eapply ti_names].
    + by destruct (Hne _ _ He').
    + by destruct (Hne _ _ He).
  - intros q e. rewrite lookup_insert_Some. intros [[<- <-]|[? He]]; [simpl; lia|by eapply ti_depth].
  - intros q e. rewrite lookup_insert_Some. intros [[<- <-]|[? He]]; [done|].
    apply (ti_parent _ Ht) in He. destruct (e_parent e) as [r|]; [|done].
    destruct He as (? & e' & He' & ?). split; [done|]. exists e'. rewrite lookup_insert_ne; [done|congruence].
  - intros q e r. rewrite lookup_insert_Some. intros [[<- <-]|[? He]]; [by intros ?%elem_of_nil|].
    intros Hr. destruct (ti_children _ Ht _ _ _ He Hr) as (e' & He' & ?).
    exists e'. rewrite lookup_insert_ne; [done|congruence].
  - intros q e. rewrite lookup_insert_Some. intros [[<- <-]|[? He]]; [constructor|by eapply ti_nodup].
Qed.

(** The tree with a new leaf [p] below [q]. *)
Definition add_leaf E p q (eq : Entry) n : gmap ptr Entry :=
  <[q := set_e_children (e_children eq ++ [p]) eq]> (<[p := set_e_parent (Some q) (newEntry n)]> E).

Lemma TreeInv_add_leaf E p q eq n :
  TreeInv E → E !! p = None → E !! q = Some eq → n ≠ [] → e_name eq = getParentName n →
  ¬ hasName E n → length n ≤ getMaxDepth → TreeInv (add_leaf E p q eq n).
Proof.
  intros Ht Hp Hq Hn Hname Habs Hlen. assert (Hpq : p ≠ q) by congruence.
  assert (Hcase : ∀ r e, add_leaf E p q eq n !! r = Some e →
    (r = p ∧ e = set_e_parent (Some q) (newEntry n)) ∨
    (r ≠ p ∧ ∃ e0, E !! r = Some e0 ∧ e_name e = e_name e0 ∧ e_parent e = e_parent e0 ∧
      e_children e = e_children e0 ++ (if decide (r = q) then [p] else []))).
  { intros r e. unfold add_leaf. rewrite !lookup_insert_Some.
    intros [[<- <-]|[? [[<- <-]|[? He]]]]; [right|by left|right]; (split; [done|]).
    - exists eq. by rewrite decide_True.
    - exists e. rewrite decide_False by done. by rewrite app_nil_r. }
  assert (Hback : ∀ r e0, E !! r = Some e0 → ∃ e, add_leaf E p q eq n !! r = Some e ∧
    e_name e = e_name e0 ∧ e_parent e = e_parent e0 ∧ e_children e0 ⊆ e_children e).
  { intros r e0 He0. unfold add_leaf. destruct (decide (r = q)) as [->|].
    - eexists. rewrite lookup_insert_eq. simplify_eq. split; [done|]. simpl. set_solver.
    - exists e0. rewrite !lookup_insert_ne by congruence. set_solver. }
  assert (Hp' : add_leaf E p q eq n !! p = Some (set_e_parent (Some q) (newEntry n))).
  { unfold add_leaf. by rewrite lookup_insert_ne, lookup_insert_eq. }
  assert (Hne : ∀ r e, E !! r = Some e → e_name e ≠ n) by (intros r e He ?; apply Habs; by exists r, e).
  split.
  - intros r t e e' [[-> ->]|(? & e0 & He0 & Hn0 & _)]%Hcase [[-> ->]|(? & e0' & He0' & Hn0' & _)]%Hcase Heq;
      [done|..|eapply (ti_names _ Ht); [done..|congruence]].
    + destruct (Hne _ _ He0'). simpl in Heq. congruence.
    + destruct (Hne _ _ He0). simpl in Heq. congruence.
  - intros r e [[-> ->]|(? & e0 & He0 & -> & _)]%Hcase; [done|by eapply ti_depth].
  - intros r e [[-> ->]|(Hr & e0 & He0 & -> & -> & _)]%Hcase.
    + simpl. split; [done|]. eexists. unfold add_leaf. rewrite lookup_insert_eq. split; [done|].
      split; [done|]. simpl. set_solver.
    + apply (ti_parent _ Ht) in He0. destruct (e_parent e0) as [t|]; [|done].
      destruct He0 as (Hn0 & e' & He' & Hn' & Hc). split; [done|].
      destruct (Hback _ _ He') as (e'' & He'' & Hn'' & _ & Hc''). exists e''.
      split; [done|]. split; [congruence|]. by apply Hc''.
  - intros r e t [[-> ->]|(Hr & e0 & He0 & _ & _ & ->)]%Hcase; [by intros ?%elem_of_nil|].
    rewrite elem_of_app. intros [Ht0|Hx].
    + destruct (ti_children _ Ht _ _ _ He0 Ht0) as (e1 & He1 & Hp1).
      destruct (Hback _ _ He1) as (e2 & He2 & _ & Hp2 & _). exists e2. split; [done|congruence].
    + case_decide; [|by apply elem_of_nil in Hx]. apply list_elem_of_singleton in Hx as ->. subst r. eauto.
  - intros r e [[-> ->]|(Hr & e0 & He0 & _ & _ & ->)]%Hcase; [constructor|].
    apply NoDup_app. split; [by eapply ti_nodup|]. split; [|case_decide; [apply NoDup_singleton|constructor]].
    intros t Ht0 Hx. case_decide; [|by apply elem_of_nil in Hx]. apply list_elem_of_singleton in Hx as ->.
    destruct (ti_children _ Ht _ _ _ He0 Ht0) as (e1 & He1 & _). congruence.
Qed.

Lemma add_leaf_extends E p q eq n :
  E !! p = None → E !! q = Some eq → extends E (add_leaf E p q eq n).
Proof.
  intros Hp Hq. unfold add_leaf. split.
  - intros r e He. destruct (decide (r = q)) as [->|].
    + eexists. rewrite lookup_insert_eq. split; [done|]. simplify_eq. done.
    + exists e. rewrite !lookup_insert_ne by congruence. done.
  - intros r e. rewrite !lookup_insert_Some. intros [[<- <-]|[? [[<- <-]|[? He]]]] Hn; [congruence|done|congruence].
Qed.

Lemma add_leaf_names E p q eq n :
  E !! p = None → E !! q = Some eq → ∀ m, hasName (add_leaf E p q eq n) m ↔ hasName E m ∨ m = n.
Proof.
  intros Hp Hq m. unfold add_leaf, hasName. split.
  - intros (r & e & He & Hm). rewrite !lookup_insert_Some in He.
    destruct He as [[<- <-]|[? [[<- <-]|[? He]]]]; [left; eauto|by right|left; eauto].
  - intros [(r & e & He & Hm)| ->].
    + destruct (decide (r = q)) as [->|].
      * eexists _, _. rewrite lookup_insert_eq. split; [done|]. simplify_eq. done.
      * exists r, e. rewrite !lookup_insert_ne by congruence. done.
    + exists p, (set_e_parent (Some q) (newEntry n)).
      rewrite lookup_insert_ne, lookup_insert_eq by congruence. done.
Qed.

(** The tree without its leaf [p], below [q]. *)
Definition cut_leaf E p q (eq : Entry) : gmap ptr Entry :=
  delete p (<[q := set_e_children (filter (λ r, r ≠ p) (e_children eq)) eq]> E).

Lemma cut_leaf_lookup E p q eq r e :
  E !! q = Some eq → cut_leaf E p q eq !! r = Some e →
  r ≠ p ∧ ∃ e0, E !! r = Some e0 ∧ strip e = strip e0 ∧ e_parent e = e_parent e0 ∧
    e_children e = if decide (r = q) then filter (λ t, t ≠ p) (e_children e0) else e_children e0.
Proof.
  intros Hq. unfold cut_leaf. rewrite lookup_delete_Some, lookup_insert_Some.
  intros [Hr [[<- <-]|[? He]]]; (split; [done|]).
  - exists eq. by rewrite decide_True.
  - exists e. by rewrite decide_False.
Qed.

Lemma cut_leaf_back E p q eq r e0 :
  E !! q = Some eq → r ≠ p → E !! r = Some e0 → ∃ e, cut_leaf E p q eq !! r = Some e ∧
    strip e = strip e0 ∧ e_parent e = e_parent e0 ∧
    e_children e = if decide (r = q) then filter (λ t, t ≠ p) (e_children e0) else e_children e0.
Proof.
  intros Hq Hr He0. unfold cut_leaf. rewrite lookup_delete_ne by done. destruct (decide (r = q)) as [->|].
  - eexists. rewrite lookup_insert_eq. simplify_eq. done.
  - exists e0. by rewrite lookup_insert_ne.
Qed.

Lemma TreeInv_cut_leaf E p e q eq :
  TreeInv E → E !! p = Some e → e_parent e = Some q → e_children e = [] → E !! q = Some eq →
  TreeInv (cut_leaf E p q eq).
Proof.
  intros Ht Hp Hpar Hleaf Hq. split.
  - intros r t e1 e2 (? & e1' & He1 & S1%strip_name & _)%cut_leaf_lookup
      (? & e2' & He2 & S2%strip_name & _)%cut_leaf_lookup Heq; [|done..].
    eapply (ti_names _ Ht); [done..|congruence].
  - intros r e1 (? & e1' & He1 & ->%strip_name & _)%cut_leaf_lookup; [by eapply ti_depth|done].
  - intros r e1 (Hr & e1' & He1 & ->%strip_name & -> & _)%cut_leaf_lookup; [|done].
    apply (ti_parent _ Ht) in He1 as He1'. destruct (e_parent e1') as [t|] eqn:Ept; [|done].
    destruct He1' as (Hn & e2 & He2 & Hn2 & Hc). split; [done|].
    assert (Htp : t ≠ p) by (intros ->; simplify_eq; rewrite Hleaf in Hc; by apply elem_of_nil in Hc).
    destruct (cut_leaf_back E p q eq t e2 Hq Htp He2) as (e3 & He3 & S3%strip_name & _ & Hc3).
    exists e3. split; [done|]. split; [congruence|]. rewrite Hc3. case_decide; [|done].
    apply list_elem_of_filter. done.
  - intros r e1 t (Hr & e1' & He1 & _ & _ & Hc)%cut_leaf_lookup; [|done]. intros Hin.
    assert (t ∈ e_children e1' ∧ t ≠ p) as [Hin' Htp].
    { rewrite Hc in Hin. case_decide; [apply list_elem_of_filter in Hin; naive_solver|].
      split; [done|]. intros ->. destruct (ti_children _ Ht _ _ _ He1 Hin) as (e' & He' & Hpe').
      by simplify_eq. }
    destruct (ti_children _ Ht _ _ _ He1 Hin') as (e2 & He2 & Hp2).
    destruct (cut_leaf_back E p q eq t e2 Hq Htp He2) as (e3 & He3 & _ & Hp3 & _).
    exists e3. split; [done|congruence].
  - intros r e1 (Hr & e1' & He1 & _ & _ & ->)%cut_leaf_lookup; [|done].
    case_decide; [apply NoDup_filter|]; by eapply ti_nodup.
Qed.

Lemma TreeInv_cut_root E p e :
  TreeInv E → E !! p = Some e → e_parent e = None → e_children e = [] → TreeInv (delete p E).
Proof.
  intros Ht Hp Hpar Hleaf. split.
  - intros r t e1 e2 [_ He1]%lookup_delete_Some [_ He2]%lookup_delete_Some. by eapply ti_names.
  - intros r e1 [_ He1]%lookup_delete_Some. by eapply ti_depth.
  - intros r e1 [_ He1]%lookup_delete_Some. apply (ti_parent _ Ht) in He1.
    destruct (e_parent e1) as [t|]; [|done]. destruct He1 as (Hn & e2 & He2 & Hn2 & Hc). split; [done|].
    exists e2. rewrite lookup_delete_ne; [done|]. intros <-. simplify_eq. rewrite Hleaf in Hc.
    by apply elem_of_nil in Hc.
  - intros r e1 t [_ He1]%lookup_delete_Some Hin. destruct (ti_children _ Ht _ _ _ He1 Hin) as (e2 & He2 & Hp2).
    exists e2. rewrite lookup_delete_ne; [done|]. intros <-. congruence.
  - intros r e1 [_ He1]%lookup_delete_Some. by eapply ti_nodup.
Qed.

(** Deleting the one occurrence of a pointer. *)
Lemma delete_find_filter (l : list ptr) p :
  NoDup l → p ∈ l → ∃ i, list_find (λ q, q = p) l = Some (i, p) ∧ delete i l = filter (λ q, q ≠ p) l.
Proof.
  induction l as [|x l IH]; [by intros _ ?%elem_of_nil|]. intros [Hx Hn]%NoDup_cons Hp.
  cbn [list_find]. destruct (decide (x = p)) as [->|Hne].
  - exists 0. split; [done|]. rewrite filter_cons_False by naive_solver. simpl.
    symmetry. apply filter_all. intros y Hy ->. done.
  - apply elem_of_cons in Hp as [->|Hp]; [done|]. destruct (IH Hn Hp) as (i & Hf & Hd).
    exists (S i). rewrite Hf. split; [done|]. rewrite filter_cons_True by done. simpl. by rewrite Hd.
Qed.
End TreeSteps.

(** ** Insertion and removal: specifications *)

Section Mutation.
Context {N : NdnCxx} {NL : NdnCxxLaws N}.
Implicit Types (s : Hashtable) (E : gmap ptr Entry) (e : Entry) (p q : ptr) (name : Name).

Record NtInv s : Prop := {
  nti_ht : HtInv s;
  nti_tree : TreeInv (entries s);
}.

Lemma wp_derefEntry p Q s : wp (derefEntry p) Q s ↔ ∃ e, entries s !! p = Some e ∧ Q e s.
Proof.
  unfold derefEntry. rewrite wp_bind, wp_deref. setoid_rewrite entries_lookup. setoid_rewrite wp_ret.
  naive_solver.
Qed.

Lemma setParent_spec s p e q eq :
  HtInv s → entries s !! p = Some e → e_parent e = None → e_name e ≠ [] →
  entries s !! q = Some eq → e_name eq = getParentName (e_name e) → p ≠ q →
  wp (setParent p q) (λ _ s', HtInv s' ∧ entries s' =
    <[q := set_e_children (e_children eq ++ [p]) eq]> (<[p := set_e_parent (Some q) e]> (entries s))) s.
Proof.
  intros Hs Hp Hpar Hne Hq Hname Hpq. unfold setParent.
  wp_step. apply wp_derefEntry. exists e. split; [done|].
  repeat wp_step; [by apply bool_decide_eq_true..|]. apply wp_derefEntry. exists eq. split; [done|].
  repeat wp_step; [by apply bool_decide_eq_true|].
  eapply wp_mono; [by apply (updateEntry_spec _ _ e)|]. intros _ s1 [Hs1 E1].
  eapply wp_mono; [apply (updateEntry_spec _ _ eq); [done|by rewrite E1, lookup_insert_ne|done]|].
  intros _ s2 [Hs2 E2]. split; [done|]. by rewrite E2, E1.
Qed.

Lemma unsetParent_spec s p e q eq :
  HtInv s → entries s !! p = Some e → e_parent e = Some q → entries s !! q = Some eq →
  p ∈ e_children eq → NoDup (e_children eq) → p ≠ q →
  wp (unsetParent p) (λ _ s', HtInv s' ∧ entries s' =
    <[p := set_e_parent None e]> (<[q := set_e_children (filter (λ r, r ≠ p) (e_children eq)) eq]> (entries s))) s.
Proof.
  intros Hs Hp Hpar Hq Hin Hnd Hpq. unfold unsetParent.
  destruct (delete_find_filter _ _ Hnd Hin) as (i & Hf & Hd).
  wp_step. apply wp_derefEntry. exists e. split; [done|].
  wp_step. wp_step; [exact Hpar|]. wp_step. apply wp_derefEntry. exists eq. split; [done|].
  wp_step. wp_step; [by rewrite Hf|].
  wp_step. eapply wp_mono; [by apply (updateEntry_spec _ _ eq)|]. intros _ s1 [Hs1 E1].
  eapply wp_mono; [apply (updateEntry_spec _ _ e); [done|by rewrite E1, lookup_insert_ne|done]|].
  intros _ s2 [Hs2 E2]. split; [done|]. rewrite E2, E1. cbn [fst]. by rewrite Hd.
Qed.

Lemma take_S_parent name i : S i ≤ length name → getParentName (take (S i) name) = take i name.
Proof.
  intros Hi. unfold getParentName. rewrite length_take, Nat.min_l by lia.
  replace (S i - 1) with i by lia. apply take_take_le. lia.
Qed.

(** One iteration of the loop of [lookup]. *)
Lemma lookup_iteration name hashes i parent s :
  NtInv s → i ≤ length name → i ≤ getMaxDepth → hashes !! i = computeHash name i →
  match i, parent with
  | O, None => True
  | S j, Some q => ∃ eq, entries s !! q = Some eq ∧ e_name eq = take j name
  | _, _ => False
  end →
  wp (lookup_step name hashes i parent) (λ p s', 
    NtInv s' ∧ (∃ e, entries s' !! p = Some e ∧ e_name e = take i name) ∧
    extends (entries s) (entries s') ∧
    ∀ m, hasName (entries s') m ↔ hasName (entries s) m ∨ m = take i name) s.
Proof.
  intros [Hs Ht] Hi Hd Hh Hpar.
  assert (Hlen : length (take i name) ≤ getMaxDepth) by (rewrite length_take; lia).
  unfold lookup_step. wp_step. eapply wp_mono; [by apply Hashtable_insert_spec|].
  intros [r isNew] s1 (Hs1 & p & Hr & Hcase). simpl in Hr. subst r. wp_step. wp_step; [done|].
  simpl in Hcase. destruct isNew; simpl.
  - destruct Hcase as (Habs & Hp & E1). assert (Hna : ¬ hasName (entries s) (take i name)).
    { intros (q & e & He & Hn). by eapply Habs. }
    destruct i as [|j], parent as [q|]; try done; wp_step.
    + wp_step. wp_step. rewrite E1. split; [split; [done|rewrite E1; by apply TreeInv_root]|].
      split; [|split].
      * exists (newEntry []). by rewrite lookup_insert_eq.
      * split; [intros r e He; exists e; rewrite lookup_insert_ne; [done|congruence]|].
        intros r e He Hn. apply lookup_insert_Some in He as [[<- <-]|[? He]]; [done|congruence].
      * intros m. unfold hasName. setoid_rewrite lookup_insert_Some. split; [naive_solver|].
        intros [(r & e & He & Hn)| ->]; [|by eexists _, _; eauto].
        exists r, e. split; [|done]. right. split; [congruence|done].
    + destruct Hpar as (eq & Hq & Hname). assert (Hqp : p ≠ q) by congruence.
      assert (Hpn : e_name eq = getParentName (take (S j) name)) by (by rewrite take_S_parent).
      assert (Hne : take (S j) name ≠ []) by (destruct name; simpl in *; [lia|done]).
      eapply wp_mono; [apply (setParent_spec _ p (newEntry (take (S j) name)) q eq)|]; try done.
      { by rewrite E1, lookup_insert_eq. } { by rewrite E1, lookup_insert_ne. }
      intros _ s2 [Hs2 E2]. wp_step. rewrite E1, insert_insert_eq in E2.
      fold (add_leaf (entries s) p q eq (take (S j) name)) in E2. rewrite E2.
      split; [split; [done|rewrite E2; by apply TreeInv_add_leaf]|]. split; [|split].
      * eexists. unfold add_leaf. rewrite lookup_insert_ne, lookup_insert_eq by done. done.
      * by apply add_leaf_extends.
      * by apply add_leaf_names.
  - destruct Hcase as (-> & e & He & Hn). wp_step.
    assert (E : (if parent is Some q then mret tt else mret tt : M Hashtable unit) = mret tt) by (by destruct parent).
    rewrite E. do 2 wp_step. split; [done|]. split; [eauto|]. split; [apply extends_refl|].
    intros m. split; [by left|]. intros [?| ->]; [done|]. by exists p, e.
Qed.

Lemma lookup_from_spec name hashes n i parent s :
  NtInv s → i + n ≤ S (length name) → i + n ≤ S getMaxDepth →
  (∀ j, j < i + n → hashes !! j = computeHash name j) →
  match i, parent with
  | O, None => True
  | S j, Some q => ∃ eq, entries s !! q = Some eq ∧ e_name eq = take j name
  | _, _ => False
  end →
  wp (lookup_from name hashes i n parent) (λ r s',
    NtInv s' ∧ extends (entries s) (entries s') ∧
    (∀ m, hasName (entries s') m ↔ hasName (entries s) m ∨ ∃ j, i ≤ j < i + n ∧ m = take j name) ∧
    match (i + n)%nat, r with
    | O, _ => True
    | S j, Some p => ∃ e, entries s' !! p = Some e ∧ e_name e = take j name
    | _, _ => False
    end) s.
Proof.
  revert i parent s. induction n as [|n IH]; intros i parent s Hs Hl Hd Hh Hpar; simpl.
  - wp_step. split; [done|]. split; [apply extends_refl|]. split.
    + intros m. split; [by left|]. intros [?|(j & ? & _)]; [done|lia].
    + rewrite Nat.add_0_r. by destruct i, parent.
  - wp_step. eapply wp_mono; [apply lookup_iteration; [done|lia|lia|apply Hh; lia|done]|].
    intros p s1 (Hs1 & Hp & Hext1 & Hn1).
    eapply wp_mono; [apply (IH (S i) (Some p) s1); [done|lia|lia|intros j Hj; apply Hh; lia|done]|].
    intros r s2 (Hs2 & Hext2 & Hn2 & Hr). split; [done|]. split; [by eapply extends_trans|].
    split; [|by rewrite Nat.add_succ_r]. intros m. rewrite Hn2, Hn1. split.
    + intros [[?| ->]|(j & Hj & ->)]; [by left|right; exists i; split; [lia|done]|right; exists j; split; [lia|done]].
    + intros [?|(j & Hj & ->)]; [by left; left|]. destruct (decide (j = i)) as [->|]; [by left; right|].
      right. exists j. split; [lia|done].
Qed.

Lemma prefix_of_take name k m :
  k ≤ length name → m `prefix_of` take k name ↔ ∃ j, j ≤ k ∧ m = take j name.
Proof.
  intros Hk. split.
  - intros Hm. pose proof (prefix_length _ _ Hm) as Hl. rewrite length_take in Hl.
    exists (length m). split; [lia|]. destruct Hm as [r Hr].
    rewrite <- (take_take_le name (length m) k) by lia. by rewrite Hr, take_app_length.
  - intros (j & Hj & ->). rewrite <- (take_take_le name j k) by lia. apply prefix_take.
Qed.

Lemma lookup_spec name k s :
  NtInv s → k ≤ length name → k ≤ getMaxDepth →
  wp (NameTree_lookup name k) (λ p s',
    NtInv s' ∧ (∃ e, entries s' !! p = Some e ∧ e_name e = take k name) ∧
    extends (entries s) (entries s') ∧
    ∀ m, hasName (entries s') m ↔ hasName (entries s) m ∨ m `prefix_of` take k name) s.
Proof.
  intros Hs Hk Hd. unfold NameTree_lookup.
  destruct (computeHashes_spec name k) as (hashes & Hh & Hl & Hj). rewrite length_take, Nat.min_l in Hj by lia.
  repeat wp_step; [by apply bool_decide_eq_true..|exact Hh|].
  eapply wp_mono; [apply lookup_from_spec; [done|lia|lia|intros j ?; apply Hj; lia|done]|].
  intros r s' (Hs' & Hext & Hn & Hr). simpl in Hr. destruct r as [p|]; [|done]. wp_step; [done|].
  split; [done|]. split; [done|]. split; [done|]. intros m. rewrite Hn, prefix_of_take by done.
  assert (∀ j, 0 ≤ j < 0 + S k ↔ j ≤ k) as Hjk by lia. by setoid_rewrite Hjk.
Qed.

(** [E'] is [E] without some of its empty entries. *)
Definition pruned E E' : Prop :=
  attached E' = attached E ∧ ∀ p e', E' !! p = Some e' → ∃ e, E !! p = Some e ∧ strip e' = strip e.

Lemma pruned_refl E : pruned E E.
Proof. split; [done|]. eauto. Qed.

Lemma pruned_trans E1 E2 E3 : pruned E1 E2 → pruned E2 E3 → pruned E1 E3.
Proof.
  intros [A12 H12] [A23 H23]. split; [congruence|]. intros p e3 He3.
  destruct (H23 _ _ He3) as (e2 & He2 & S2). destruct (H12 _ _ He2) as (e1 & He1 & S1).
  exists e1. split; [done|congruence].
Qed.

Lemma isEmpty_inv e : isEmpty e = true ↔ e_children e = [] ∧ hasTableEntries e = false.
Proof.
  unfold isEmpty, hasChildren. rewrite andb_true_iff, !negb_true_iff. destruct (e_children e); naive_solver.
Qed.

Lemma pruned_delete E p e : E !! p = Some e → hasTableEntries e = false → pruned E (delete p E).
Proof.
  intros Hp Ht. split.
  - apply map_eq. intros q. apply option_eq. intros a. rewrite !attached_lookup.
    setoid_rewrite lookup_delete_Some. split; [naive_solver|].
    intros (e' & He' & Ht' & ->). exists e'. split; [|done]. split; [|done]. intros <-. congruence.
  - intros q e' [_ He']%lookup_delete_Some. eauto.
Qed.

Lemma pruned_cut_leaf E p e q eq :
  E !! p = Some e → hasTableEntries e = false → E !! q = Some eq → pruned E (cut_leaf E p q eq).
Proof.
  intros Hp Ht Hq. split.
  - apply map_eq. intros r. apply option_eq. intros a. rewrite !attached_lookup. split.
    + intros (e' & He' & Ht' & ->). apply cut_leaf_lookup in He' as (Hr & e0 & He0 & S0 & _); [|done].
      exists e0. split; [done|]. by rewrite <- (strip_tables _ _ S0), S0.
    + intros (e0 & He0 & Ht0 & ->). assert (Hr : r ≠ p) by congruence.
      destruct (cut_leaf_back E p q eq r e0 Hq Hr He0) as (e' & He' & S' & _).
      exists e'. split; [done|]. by rewrite (strip_tables _ _ S'), S'.
  - intros r e' (_ & e0 & He0 & S0 & _)%cut_leaf_lookup; [|done]. eauto.
Qed.

Lemma cut_leaf_size E p e q eq :
  E !! p = Some e → E !! q = Some eq → S (size (cut_leaf E p q eq)) = size E.
Proof.
  intros Hp Hq. unfold cut_leaf.
  assert (Hs : is_Some (<[q:=set_e_children (filter (λ r, r ≠ p) (e_children eq)) eq]> E !! p)).
  { apply lookup_insert_is_Some. destruct (decide (q = p)); [by left|right; split; [done|by eexists]]. }
  rewrite map_size_delete_Some by done. rewrite map_size_insert_Some by (by eexists).
  pose proof (map_size_ne_0_lookup_2 E p ltac:(by eexists)). lia.
Qed.

(** One iteration of [eraseIfEmpty]: the empty entry [p] is gone, its parent
    lost a child, everything else is as before. *)
Lemma erase_leaf_spec p e s :
  NtInv s → entries s !! p = Some e → isEmpty e = true →
  wp ((if e_parent e is Some _ then unsetParent p else mret tt);; Hashtable_erase p) (λ _ s',
    NtInv s' ∧ pruned (entries s) (entries s') ∧ entries s' !! p = None ∧
    S (size (entries s')) = size (entries s) ∧
    (∀ q e', entries s' !! q = Some e' → e_parent e ≠ Some q → entries s !! q = Some e') ∧
    (∀ q, e_parent e = Some q → is_Some (entries s' !! q)) ∧
    (∀ q e', entries s !! q = Some e' → q ≠ p → is_Some (entries s' !! q))) s.
Proof.
  intros [Hs Ht] Hp [Hleaf Htab]%isEmpty_inv. pose proof (ti_parent _ Ht _ _ Hp) as Hpar. wp_step.
  destruct (e_parent e) as [q|] eqn:Eq.
  - destruct Hpar as (Hne & eq & Hq & Hname & Hin). pose proof (ti_nodup _ Ht _ _ Hq) as Hnd.
    assert (Hpq : p ≠ q) by (intros ->; simplify_eq; rewrite Hleaf in Hin; by apply elem_of_nil in Hin).
    eapply wp_mono; [by eapply unsetParent_spec|]. intros _ s1 [Hs1 E1].
    eapply wp_mono; [eapply Hashtable_erase_spec; [done|by rewrite E1, lookup_insert_eq|done]|].
    intros _ s2 [Hs2 E2]. rewrite E1, delete_insert_eq in E2. fold (cut_leaf (entries s) p q eq) in E2.
    rewrite E2. split; [split; [done|rewrite E2; by eapply TreeInv_cut_leaf]|].
    split; [by eapply pruned_cut_leaf|]. split; [apply lookup_delete_eq|]. split; [by eapply cut_leaf_size|]. split.
    + intros r e'. unfold cut_leaf. rewrite lookup_delete_Some, lookup_insert_Some. naive_solver.
    + split.
      * intros r [= <-]. unfold cut_leaf. rewrite lookup_delete_ne, lookup_insert_eq by done. by eexists.
      * intros r e' He' Hr. destruct (cut_leaf_back (entries s) p q eq r e' Hq Hr He') as (e1 & He1 & _). by eexists.
  - wp_step. eapply wp_mono; [by eapply Hashtable_erase_spec|]. intros _ s2 [Hs2 E2]. rewrite E2.
    split; [split; [done|rewrite E2; by eapply TreeInv_cut_root]|].
    split; [by eapply pruned_delete|]. split; [apply lookup_delete_eq|].
    split; [rewrite map_size_delete_Some by (by eexists);
      pose proof (map_size_ne_0_lookup_2 (entries s) p ltac:(by eexists)); lia|].
    split; [intros r e' [_ ?]%lookup_delete_Some; done|]. split; [done|].
    intros r e' He' Hr. rewrite lookup_delete_ne by done. by eexists.
Qed.

Lemma eraseIfEmpty_loop_spec fuel can p e s n :
  NtInv s → entries s !! p = Some e → length (e_name e) < fuel →
  wp (eraseIfEmpty_loop fuel can (Some p) n) (λ k s',
    NtInv s' ∧ pruned (entries s) (entries s') ∧ k + size (entries s') = n + size (entries s) ∧
    (isEmpty e = false → s' = s) ∧ (isEmpty e = true → entries s' !! p = None) ∧
    (can = true → (∀ q e', entries s !! q = Some e' → q ≠ p → isEmpty e' = false) → tidy (entries s'))) s.
Proof.
  revert p e s n. induction fuel as [|fuel IH]; intros p e s n Hs Hp Hf; [lia|]. cbn [eraseIfEmpty_loop].
  wp_step. apply wp_derefEntry. exists e. split; [done|]. destruct (isEmpty e) eqn:Hemp.
  2: { wp_step. split; [done|]. split; [apply pruned_refl|]. split; [done|]. split; [done|]. split; [done|].
       intros _ Hoth q e' He'. destruct (decide (q = p)) as [->|]; [congruence|eauto]. }
  pose proof (erase_leaf_spec p e s Hs Hp Hemp) as Hstep. apply wp_bind in Hstep. wp_step.
  eapply wp_mono; [exact Hstep|]. clear Hstep. intros [] s1 Hstep. wp_step.
  eapply wp_mono; [exact Hstep|]. clear Hstep. intros [] s2 (Hs2 & Hpr & Hgone & Hsz & Hback & Hparent & _).
  destruct can; [|wp_step; split; [done|]; split; [done|]; split; [lia|done]].
  destruct (e_parent e) as [q|] eqn:Eq.
  - destruct (Hparent q eq_refl) as [eq Hq]. destruct (proj2 Hpr _ _ Hq) as (eq0 & Hq0 & S0%strip_name).
    assert (Hlen : length (e_name eq) < fuel).
    { pose proof (ti_parent _ (nti_tree _ Hs) _ _ Hp) as Hpar. rewrite Eq in Hpar.
      destruct Hpar as (Hne & eq' & Hq' & Hname & _). simplify_eq. rewrite S0, Hname. unfold getParentName.
      rewrite length_take. destruct (e_name e); simpl in *; [done|lia]. }
    eapply wp_mono; [by apply (IH q eq s2 (S n))|]. intros k s3 (Hs3 & Hpr3 & Hk & _ & _ & Htidy).
    split; [done|]. split; [by eapply pruned_trans|]. split; [lia|]. split; [done|]. split.
    + intros _. destruct (entries s3 !! p) as [e3|] eqn:E3; [|done].
      destruct (proj2 Hpr3 _ _ E3) as (e2 & He2 & _). congruence.
    + intros _ Hoth. apply Htidy; [done|]. intros r e' He' Hr. apply (Hoth r); [|congruence].
      apply Hback; [done|congruence].
  - assert (E : eraseIfEmpty_loop fuel true None (S n) = mret (S n)) by (by destruct fuel). rewrite E.
    wp_step. split; [done|]. split; [done|]. split; [lia|]. split; [done|]. split; [done|].
    intros _ Hoth q e' He'. apply (Hoth q); [by apply Hback|congruence].
Qed.

Lemma eraseIfEmpty_spec p can s e :
  NtInv s → entries s !! p = Some e →
  wp (eraseIfEmpty p can) (λ k s',
    NtInv s' ∧ pruned (entries s) (entries s') ∧ k + size (entries s') = size (entries s) ∧
    (isEmpty e = false → s' = s) ∧ (isEmpty e = true → entries s' !! p = None) ∧
    (can = true → (∀ q e', entries s !! q = Some e' → q ≠ p → isEmpty e' = false) → tidy (entries s'))) s.
Proof.
  intros Hs Hp. apply (eraseIfEmpty_loop_spec _ _ _ _ _ 0); [done..|].
  pose proof (ti_depth _ (nti_tree _ Hs) _ _ Hp). lia.
Qed.

(** Without its ancestors, at most the entry itself is erased. *)
Lemma eraseIfEmpty_self_spec p s e :
  NtInv s → entries s !! p = Some e →
  wp (eraseIfEmpty p false) (λ _ s', NtInv s' ∧ pruned (entries s) (entries s') ∧
    (isEmpty e = false → s' = s) ∧ (isEmpty e = true → entries s' !! p = None) ∧
    (∀ q e', entries s !! q = Some e' → q ≠ p → is_Some (entries s' !! q)) ∧
    (∀ q e', entries s' !! q = Some e' → e_parent e ≠ Some q → entries s !! q = Some e')) s.
Proof.
  intros Hs Hp. unfold eraseIfEmpty. cbn [eraseIfEmpty_loop]. wp_step. apply wp_derefEntry. exists e. split; [done|].
  destruct (isEmpty e) eqn:Hemp; [|wp_step; split_and!; by eauto using pruned_refl].
  pose proof (erase_leaf_spec p e s Hs Hp Hemp) as Hstep. apply wp_bind in Hstep. wp_step.
  eapply wp_mono; [exact Hstep|]. clear Hstep. intros [] s1 Hstep. wp_step.
  eapply wp_mono; [exact Hstep|]. clear Hstep. intros [] s2 (Hs2 & Hpr & Hgone & Hsz & Hback & Hparent & Hkeep). wp_step.
  split_and!; done.
Qed.
End Mutation.

(** ** Matching: the three lookups are one function *)

Section Matching.
Context {N : NdnCxx} {NL : NdnCxxLaws N}.
Implicit Types (s : Hashtable) (E : gmap ptr Entry) (e : Entry) (p q : ptr) (name : Name) (sel : EntrySelector).

(** Reference: the longest of the prefixes of [name] with at most [i] components
    whose entry exists and is selected. *)
Fixpoint lpm_from E sel name (i : nat) : option ptr :=
  match find_name E (take i name) with
  | Some (p, e) => if sel p e then Some p
                   else match i with O => None | S i' => lpm_from E sel name i' end
  | None => match i with O => None | S i' => lpm_from E sel name i' end
  end.

Definition lpm E sel name : option ptr := lpm_from E sel name (Nat.min (length name) getMaxDepth).

Lemma found_find_name s name r : NtInv s → found s name r → r = fst <$> find_name (entries s) name.
Proof.
  intros Hs. destruct r as [p|]; simpl.
  - intros (e & He & Hn). by rewrite (proj2 (find_name_Some _ _ p e (nti_tree _ Hs))).
  - intros Ha. assert (Hf : find_name (entries s) name = None); [|by rewrite Hf].
    apply find_name_None. intros (p & e & He & Hn). by eapply Ha.
Qed.

Lemma findExactMatch_spec name k s :
  NtInv s → wp (NameTree_findExactMatch name k) (λ r s', s' = s ∧ r = fst <$> find_name (entries s) (take k name)) s.
Proof.
  intros Hs. unfold NameTree_findExactMatch.
  assert (Htk : take (Nat.min (length name) k) name = take k name).
  { destruct (Nat.min_spec (length name) k) as [[? ->]|[? ->]]; [|done]. by rewrite !take_ge by lia. }
  case_decide as Hd.
  - wp_step. split; [done|]. assert (Hf : find_name (entries s) (take k name) = None); [|by rewrite Hf].
    apply find_name_None. intros (p & e & He & Hn). pose proof (ti_depth _ (nti_tree _ Hs) _ _ He) as Hl.
    rewrite Hn, length_take in Hl. lia.
  - eapply wp_mono; [apply Hashtable_find_spec, Hs|]. intros r s' [-> Hr]. split; [done|].
    rewrite Htk in Hr. by apply found_find_name.
Qed.

Lemma findLongestPrefixMatch_loop_spec name hashes sel i s :
  NtInv s → (∀ j, j ≤ i → hashes !! j = computeHash name j) →
  wp (findLongestPrefixMatch_loop name hashes sel i) (λ r s', s' = s ∧ r = lpm_from (entries s) sel name i) s.
Proof.
  intros Hs. induction i as [|i IH]; intros Hh; cbn [findLongestPrefixMatch_loop lpm_from];
    (wp_step; eapply wp_mono; [apply Hashtable_findWithHashes_spec; [apply Hs|apply Hh; lia]|]);
    intros r s' [-> Hr]; apply found_find_name in Hr; [|done| |done]; wp_step;
    destruct (find_name _ _) as [[p e]|] eqn:Hf; simpl in Hr; subst r;
    try (apply find_name_Some in Hf as [He _]; [|apply Hs]; wp_step; apply wp_derefEntry; exists e;
         split; [done|]; wp_step; destruct (sel p e));
    try (wp_step; simpl); try done.
  all: apply IH; intros j ?; apply Hh; lia.
Qed.

Lemma findLongestPrefixMatch_spec name sel s :
  NtInv s → wp (findLongestPrefixMatch name sel) (λ r s', s' = s ∧ r = lpm (entries s) sel name) s.
Proof.
  intros Hs. unfold findLongestPrefixMatch, lpm. set (d := Nat.min _ _).
  destruct (computeHashes_spec name d) as (hashes & Hh & _ & Hj). wp_step. wp_step; [exact Hh|].
  apply findLongestPrefixMatch_loop_spec; [done|]. intros j ?. apply Hj. rewrite length_take. lia.
Qed.

(** Existing prefixes: below a missing one there is nothing. *)
Lemma hasName_parent E n : TreeInv E → hasName E n → hasName E (getParentName n).
Proof.
  intros Ht (p & e & He & <-). pose proof (ti_parent _ Ht _ _ He) as Hp.
  destruct (e_parent e) as [q|]; [|exists p, e; by rewrite Hp].
  destruct Hp as (_ & e' & He' & Hn & _). by exists q, e'.
Qed.

Lemma hasName_prefix E name i j :
  TreeInv E → i ≤ j → hasName E (take j name) → hasName E (take i name).
Proof.
  intros Ht Hij. induction Hij as [|j Hij IH]; [done|]. intros Hj. apply IH.
  destruct (decide (S j ≤ length name)).
  - rewrite <- take_S_parent by done. by apply hasName_parent.
  - rewrite take_ge by lia. by rewrite take_ge in Hj by lia.
Qed.

Lemma lpm_from_absent E sel name i j :
  (∀ k, i < k ≤ j → ¬ hasName E (take k name)) → i ≤ j → lpm_from E sel name j = lpm_from E sel name i.
Proof.
  intros Ha Hij. induction Hij as [|j Hij IH]; [done|]. cbn [lpm_from].
  rewrite (proj2 (find_name_None E (take (S j) name))) by (apply Ha; lia). apply IH. intros k ?. apply Ha. lia.
Qed.

Lemma findLongestPrefixMatch_up_spec fuel p e name i sel s :
  NtInv s → entries s !! p = Some e → e_name e = take i name → i ≤ length name → i < fuel →
  wp (findLongestPrefixMatch_up fuel (Some p) sel) (λ r s', s' = s ∧ r = lpm_from (entries s) sel name i) s.
Proof.
  intros Hs. revert p e i. induction fuel as [|fuel IH]; intros p e i Hp Hn Hi Hf; [lia|].
  cbn [findLongestPrefixMatch_up]. wp_step. apply wp_derefEntry. exists e. split; [done|].
  assert (Hl : lpm_from (entries s) sel name i = if sel p e then Some p else
    match i with O => None | S i' => lpm_from (entries s) sel name i' end).
  { destruct i; cbn [lpm_from]; by rewrite (proj2 (find_name_Some _ _ p e (nti_tree _ Hs))). }
  rewrite Hl. destruct (sel p e); [by wp_step|].
  pose proof (ti_parent _ (nti_tree _ Hs) _ _ Hp) as Hpar. destruct (e_parent e) as [q|].
  - destruct Hpar as (Hne & e' & He' & Hn' & _). destruct i as [|i]; [by destruct Hne|].
    rewrite Hn, take_S_parent in Hn' by done. eapply IH; [done..|lia|lia].
  - assert (i = 0) as ->.
    { rewrite Hpar in Hn. apply (f_equal length) in Hn. simpl in Hn. rewrite length_take in Hn. lia. }
    destruct fuel; simpl; by wp_step.
Qed.

Lemma findLongestPrefixMatch_entry_spec p e sel s :
  NtInv s → entries s !! p = Some e →
  wp (findLongestPrefixMatch_entry p sel) (λ r s', s' = s ∧ r = lpm (entries s) sel (e_name e)) s.
Proof.
  intros Hs Hp. unfold findLongestPrefixMatch_entry, lpm.
  pose proof (ti_depth _ (nti_tree _ Hs) _ _ Hp). rewrite Nat.min_l by done.
  eapply findLongestPrefixMatch_up_spec; [done|done|by rewrite firstn_all|lia|lia].
Qed.

Lemma goDeeper_spec name n i p s :
  NtInv s → 0 < i → i + n ≤ S (length name) →
  (∃ e, entries s !! p = Some e ∧ e_name e = take (i - 1) name) →
  wp (goDeeper name i n p) (λ r s', s' = s ∧ ∃ e k, entries s !! r = Some e ∧ e_name e = take k name ∧
    i - 1 ≤ k ≤ i + n - 1 ∧ ∀ j, k < j ≤ i + n - 1 → ¬ hasName (entries s) (take j name)) s.
Proof.
  intros Hs. revert i p. induction n as [|n IH]; intros i p Hi Hl (e & He & Hn); cbn [goDeeper].
  - wp_step. split; [done|]. exists e, (i - 1). split; [done|]. split; [done|]. split; [lia|]. intros j ?. lia.
  - wp_step. eapply wp_mono; [by apply findExactMatch_spec|]. intros r s' [-> ->].
    destruct (find_name _ _) as [[q e']|] eqn:Hf; simpl.
    + apply find_name_Some in Hf as [He' Hn']; [|apply Hs].
      eapply wp_mono; [apply (IH (S i) q)|]; [lia|lia|exists e'; split; [done|]; by rewrite Nat.sub_1_r|].
      intros r s' (-> & e2 & k & He2 & Hn2 & Hk & Habs). split; [done|]. exists e2, k.
      split; [done|]. split; [done|]. split; [lia|]. intros j ?. apply Habs. lia.
    + wp_step. split; [done|]. exists e, (i - 1). split; [done|]. split; [done|]. split; [lia|].
      intros j Hj Hname. apply find_name_None in Hf. apply Hf.
      eapply (hasName_prefix _ name i j); [apply Hs|lia|done].
Qed.

(** The name tree entry of a PIT entry is that of a prefix of its name. *)
Definition pit_attached E (pitEntry : PitEntry) : Prop :=
  ∃ p e k, pe_nameTreeEntry pitEntry = Some p ∧ E !! p = Some e ∧ e_name e = take k (pe_name pitEntry).

Lemma findLongestPrefixMatch_pit_spec pitEntry sel s :
  NtInv s → pit_attached (entries s) pitEntry →
  wp (findLongestPrefixMatch_pit pitEntry sel) (λ r s', s' = s ∧ r = lpm (entries s) sel (pe_name pitEntry)) s.
Proof.
  intros Hs (p & e & k0 & Hp & He & Hn). set (name := pe_name pitEntry) in *.
  unfold findLongestPrefixMatch_pit, lpm. fold name. set (d := Nat.min (length name) getMaxDepth).
  wp_step. wp_step; [exact Hp|]. wp_step. apply wp_derefEntry. exists e. split; [done|].
  assert (Hlen : length (e_name e) ≤ d).
  { pose proof (ti_depth _ (nti_tree _ Hs) _ _ He). apply Nat.min_glb; [|done]. rewrite Hn, length_take. lia. }
  assert (Hn' : e_name e = take (length (e_name e)) name).
  { rewrite Hn at 2. rewrite length_take, Hn. destruct (Nat.min_spec k0 (length name)) as [[? ->]|[? ->]]; [done|].
    by rewrite !take_ge by lia. }
  wp_step. eapply wp_mono with (Q := λ r s', s' = s ∧ ∃ e k, entries s !! r = Some e ∧ e_name e = take k name ∧
    k ≤ d ∧ ∀ j, k < j ≤ d → ¬ hasName (entries s) (take j name)).
  - case_decide.
    + eapply wp_mono; [apply goDeeper_spec; [done|lia|lia|]|].
      { exists e. split; [done|]. by rewrite Nat.sub_1_r. }
      intros r s' (-> & e2 & k & He2 & Hn2 & Hk & Habs). split; [done|]. exists e2, k.
      split; [done|]. split; [done|]. split; [lia|]. intros j ?. apply Habs. lia.
    + wp_step. split; [done|]. exists e, (length (e_name e)). split; [done|]. split; [done|]. split; [done|].
      intros j ?. lia.
  - intros r s' (-> & e2 & k & He2 & Hn2 & Hk & Habs).
    assert (k ≤ length name ∧ k ≤ getMaxDepth) as [Hk1 Hk2] by lia. unfold findLongestPrefixMatch_entry.
    eapply wp_mono; [apply (findLongestPrefixMatch_up_spec _ r e2 name k); [done..|lia]|].
    intros r' s' [-> ->]. split; [done|]. symmetry. apply lpm_from_absent; [done|lia].
Qed.
End Matching.

(** ** Empty entries *)

Section Tidy.
Context {N : NdnCxx}.
Implicit Types (E : gmap ptr Entry) (e : Entry) (p q : ptr) (n : Name).

(** Every entry but [p] is there for a reason. *)
Definition tidyBut p E : Prop := ∀ q e, E !! q = Some e → q ≠ p → isEmpty e = false.

Lemma tidy_tidyBut p E : tidy E → tidyBut p E.
Proof. intros Ht q e He _. by apply (Ht q). Qed.

Lemma tidyBut_tidy p E e : tidyBut p E → E !! p = Some e → isEmpty e = false → tidy E.
Proof. intros Hb Hp He q e' He'. destruct (decide (q = p)) as [->|]; [congruence|by eapply Hb]. Qed.

Lemma tidyBut_insert p E e : tidyBut p E → tidyBut p (<[p := e]> E).
Proof. intros Hb q e' He' Hq. rewrite lookup_insert_ne in He' by done. by eapply Hb. Qed.

Lemma isEmpty_false e : isEmpty e = false ↔ e_children e ≠ [] ∨ hasTableEntries e = true.
Proof.
  unfold isEmpty, hasChildren. destruct (e_children e), (hasTableEntries e); simpl; naive_solver.
Qed.

(** An entry has children when a name one component longer exists. *)
Lemma children_names E q e :
  TreeInv E → E !! q = Some e →
  e_children e ≠ [] ↔ ∃ n, hasName E n ∧ n ≠ [] ∧ getParentName n = e_name e.
Proof.
  intros Ht Hq. split.
  - intros Hc. destruct (e_children e) as [|c l] eqn:El; [done|].
    destruct (ti_children _ Ht _ _ c Hq ltac:(rewrite El; constructor)) as (ec & Hec & Hpar).
    pose proof (ti_parent _ Ht _ _ Hec) as Hp. rewrite Hpar in Hp. destruct Hp as (Hne & e' & He' & Hn & _).
    simplify_eq. exists (e_name ec). split; [by exists c, ec|done].
  - intros (n & (c & ec & Hec & <-) & Hne & Hn). pose proof (ti_parent _ Ht _ _ Hec) as Hp.
    destruct (e_parent ec) as [r|]; [|done]. destruct Hp as (_ & e' & He' & Hn' & Hin).
    assert (r = q) as -> by (eapply (ti_names _ Ht); [done..|congruence]). simplify_eq.
    intros El. rewrite El in Hin. by apply elem_of_nil in Hin.
Qed.

(** [lookup] creates no entry without a reason but the one it returns. *)
Lemma tidy_lookup E E' name k p e :
  TreeInv E → TreeInv E' → extends E E' → k ≤ length name →
  (∀ m, hasName E' m ↔ hasName E m ∨ m `prefix_of` take k name) →
  E' !! p = Some e → e_name e = take k name → tidy E → tidyBut p E'.
Proof.
  intros Ht Ht' [Hext Hnew] Hk Hnames Hp Hn Htidy q e' He' Hqp. apply isEmpty_false.
  destruct (E !! q) as [e0|] eqn:He0.
  - destruct (Hext _ _ He0) as (e1 & He1 & S1). rewrite He' in He1. injection He1 as <-.
    pose proof (strip_name _ _ S1) as Sn. rewrite (strip_tables _ _ S1).
    pose proof (Htidy _ _ He0) as Hne. apply isEmpty_false in Hne as [Hc|Hc]; [left|by right].
    apply (children_names E' q e' Ht' He'). apply (children_names E q e0 Ht He0) in Hc as (m & Hm & ? & ?).
    exists m. rewrite Hnames, Sn. eauto.
  - left. apply (children_names E' q e' Ht' He').
    assert (Hname : hasName E' (e_name e')) by (by exists q, e'). apply Hnames in Hname as [(r & er & Her & Hnr)|Hpre].
    { destruct (Hext _ _ Her) as (e1 & He1 & S1%strip_name).
      assert (r = q) as -> by (eapply (ti_names _ Ht'); [done..|congruence]). congruence. }
    apply prefix_of_take in Hpre as (j & Hj & Hnj); [|done].
    assert (j ≠ k) by (intros ->; apply Hqp; eapply (ti_names _ Ht'); [done..|congruence]).
    exists (take (S j) name). split; [|split].
    + apply Hnames. right. apply prefix_of_take; [done|]. exists (S j). split; [lia|done].
    + destruct name; simpl in *; [lia|done].
    + rewrite take_S_parent by lia. done.
Qed.
End Tidy.

(** ** Correctness *)

Section NameTreeCorrect.
Context {N : NdnCxx} {NL : NdnCxxLaws N}.
Implicit Types (s : Hashtable) (e : Entry) (p q : ptr) (name : Name) (sel : EntrySelector) (pe : PitEntry).

Lemma newNameTree_inv nBuckets s : newNameTree nBuckets = Some s → NtInv s ∧ tidy (entries s).
Proof.
  intros [Hs He]%newHashtable_spec. split; [split; [done|]|]; rewrite He.
  - by split; intros *; rewrite lookup_empty.
  - intros p e. by rewrite lookup_empty.
Qed.

(** C14: [NameTree::lookup] returns the entry of the prefix of [k] components; it
    creates the entries of the name and of its prefixes that did not exist and
    no other, keeps what is attached to the existing ones, and leaves the
    hashtable and the tree well formed. *)
Theorem nameTree_lookup_correct name k s :
  NtInv s → k ≤ length name → k ≤ getMaxDepth →
  wp (NameTree_lookup name k) (λ p s',
    NtInv s' ∧ (∃ e, entries s' !! p = Some e ∧ e_name e = take k name) ∧
    extends (entries s) (entries s') ∧
    ∀ m, hasName (entries s') m ↔ hasName (entries s) m ∨ m `prefix_of` take k name) s.
Proof. apply lookup_spec. Qed.

(** C18: The longest prefix match started from a name, from a name tree entry, or
    from a PIT entry (with its special cases for long names and implicit
    digests) is the same function: the selected entry with the longest name that
    is a prefix, within the depth limit. *)
Theorem nameTree_lpm_equivalence sel s :
  NtInv s →
  (∀ name, wp (findLongestPrefixMatch name sel) (λ r s', s' = s ∧ r = lpm (entries s) sel name) s) ∧
  (∀ p e, entries s !! p = Some e →
    wp (findLongestPrefixMatch_entry p sel) (λ r s', s' = s ∧ r = lpm (entries s) sel (e_name e)) s) ∧
  (∀ pe, pit_attached (entries s) pe →
    wp (findLongestPrefixMatch_pit pe sel) (λ r s', s' = s ∧ r = lpm (entries s) sel (pe_name pe)) s).
Proof.
  intros Hs. split; [|split]; intros *.
  - by apply findLongestPrefixMatch_spec.
  - by apply findLongestPrefixMatch_entry_spec.
  - by apply findLongestPrefixMatch_pit_spec.
Qed.

(** [NameTree::eraseIfEmpty] erases only entries with nothing attached, keeps
    the tree well formed, counts what it erased, and, when ancestors may be
    erased, leaves no empty entry behind if there was none but the given one. *)
Theorem nameTree_eraseIfEmpty_correct p can s e :
  NtInv s → entries s !! p = Some e →
  wp (eraseIfEmpty p can) (λ k s',
    NtInv s' ∧ pruned (entries s) (entries s') ∧ k + size (entries s') = size (entries s) ∧
    (isEmpty e = false → s' = s) ∧ (isEmpty e = true → entries s' !! p = None) ∧
    (can = true → (∀ q e', entries s !! q = Some e' → q ≠ p → isEmpty e' = false) → tidy (entries s'))) s.
Proof. apply eraseIfEmpty_spec. Qed.
End NameTreeCorrect.

(** Examples: the empty tree, and one with the name /101/102 and its prefixes. *)
Definition tree0 : Hashtable := run (NameTree_lookup (N := NatNdn) [101; 102] 2) emptyHashtable.

Lemma emptyTree_inv : NtInv emptyHashtable ∧ tidy (entries emptyHashtable).
Proof. apply (newNameTree_inv 2). vm_compute. reflexivity. Qed.

Lemma tree0_inv : NtInv tree0.
Proof.
  destruct (run_spec _ _ _ (lookup_spec (N := NatNdn) [101; 102] 2 emptyHashtable (proj1 emptyTree_inv) ltac:(simpl; lia) ltac:(unfold getMaxDepth; lia)))
    as (p & Hs' & _). exact Hs'.
Qed.

Lemma nameTree_lookup_correct_witness :
  wp (NameTree_lookup (N := NatNdn) [101; 103; 104] 2) (λ p s',
    NtInv s' ∧ (∃ e, entries s' !! p = Some e ∧ e_name e = ([101; 103] : list nat)) ∧
    extends (entries tree0) (entries s') ∧
    ∀ m, hasName (entries s') m ↔ hasName (entries tree0) m ∨ m `prefix_of` ([101; 103] : list nat)) tree0.
Proof. apply (nameTree_lookup_correct (N := NatNdn) [101; 103; 104] 2 tree0); [exact tree0_inv|simpl; lia|unfold getMaxDepth; lia]. Defined.

Lemma nameTree_lpm_equivalence_witness :
  wp (findLongestPrefixMatch (N := NatNdn) [101; 102; 103] (λ _ _, true)) (λ r s', s' = tree0 ∧ r = lpm (entries tree0) (λ _ _, true) [101; 102; 103]) tree0.
Proof. exact (proj1 (nameTree_lpm_equivalence (λ _ _, true) tree0 tree0_inv) [101; 102; 103]). Defined.

Lemma nameTree_eraseIfEmpty_correct_witness :
  ∃ e, entries tree0 !! 3%positive = Some e ∧ isEmpty e = true ∧
  wp (eraseIfEmpty 3%positive true) (λ _ s', NtInv s' ∧ entries s' !! 3%positive = None) tree0.
Proof.
  assert (He : ∃ e, entries tree0 !! 3%positive = Some e ∧ isEmpty e = true) by (vm_compute; eauto).
  destruct He as (e & He & Hemp). exists e. split; [exact He|]. split; [exact Hemp|].
  eapply wp_mono; [exact (nameTree_eraseIfEmpty_correct 3%positive true tree0 e tree0_inv He)|].
  intros k s' (H1 & _ & _ & _ & H2 & _). split; [exact H1|exact (H2 Hemp)].
Defined.
