(* ===== verification/NameTreeIterator.v ===== *)
(** * Enumerating the name tree

    The three iterators of [src/daemon/table/name-tree-iterator.cpp] and the
    ranges of [NameTree] built on them.  Each [advance] is a transition of the
    iterator's three fields, and a range-based [for] over the pair of iterators
    is [enumerate].  Reading the tree never changes it, so these functions take
    the table as an argument; [None] is a failed assertion or an invalid
    access. *)

From Stdlib Require Import ZArith Lia.
From stdpp Require Import base gmap option list.
From S2P Require Import Prelude CityHash Ndn FibEntry PitEntry NameTreeEntry Hashtable NameTree.

Section Iterator.
Context {N : NdnCxx}.

Record Iterator := mkIterator {
  it_entry : option ptr;
  it_ref : option ptr;
  it_state : bool; (* m_state, an int used as a flag *)
}.

(** [Iterator()] *)
Definition end_iterator : Iterator := mkIterator None None false.

(** [for (x : range)]: the iterator is compared with [end()] by its entry and
    incremented after each round.  No entry is visited twice, which bounds the
    number of rounds by [fuel]. *)
Fixpoint enumerate_from (fuel : nat) (advance : Iterator → option Iterator) (i : Iterator)
  : option (list ptr) :=
  match it_entry i, fuel with
  | None, _ => Some []
  | Some _, O => None
  | Some p, S fuel' =>
      i' ← advance i;
      l ← enumerate_from fuel' advance i';
      Some (p :: l)
  end.

(** [Iterator(impl, ref)] advances once. *)
Definition enumerate (fuel : nat) (advance : Iterator → option Iterator) (ref : option ptr)
  : option (list ptr) :=
  i ← advance (mkIterator None ref false);
  enumerate_from fuel advance i.

(** ** FullEnumerationImpl *)

(** The first node from [node] on along [next] that satisfies [pred]. *)
Fixpoint findNext (fuel : nat) (h : gmap ptr Node) (pred : EntrySelector) (node : option ptr)
  : option (option ptr) :=
  match fuel, node with
  | _, None => Some None
  | O, Some _ => None
  | S fuel', Some p =>
      n ← h !! p;
      if pred p (n_entry n) then Some (Some p) else findNext fuel' h pred (n_next n)
  end.

Fixpoint findInBuckets (fuel : nat) (h : gmap ptr Node) (pred : EntrySelector)
    (buckets : list (option ptr)) : option (option ptr) :=
  match buckets with
  | [] => Some None
  | b :: buckets' =>
      r ← findNext fuel h pred b;
      match r with
      | Some p => Some (Some p)
      | None => findInBuckets fuel h pred buckets'
      end
  end.

(** The head of the first bucket that is not empty. *)
Fixpoint firstNode (buckets : list (option ptr)) : option ptr :=
  match buckets with
  | [] => None
  | Some p :: _ => Some p
  | None :: buckets' => firstNode buckets'
  end.

(** The part of [advance] after the first entry has been handled. *)
Definition full_advance_from (s : Hashtable) (pred : EntrySelector) (ref : option ptr) (state : bool) (p : ptr)
  : option Iterator :=
  let fuel := size (ht_heap s) in
  n ← ht_heap s !! p;
  r ← findNext fuel (ht_heap s) pred (n_next n);
  match r with
  | Some q => Some (mkIterator (Some q) ref state)
  | None =>
      let currentBucket := computeBucketIndex s (n_hash n) in
      r' ← findInBuckets fuel (ht_heap s) pred (drop (S currentBucket) (ht_buckets s));
      match r' with
      | Some q => Some (mkIterator (Some q) ref state)
      | None => Some end_iterator
      end
  end.

Definition full_advance (s : Hashtable) (pred : EntrySelector) (i : Iterator) : option Iterator :=
  match it_entry i with
  | None =>
      match firstNode (ht_buckets s) with
      | None => Some end_iterator
      | Some p =>
          n ← ht_heap s !! p;
          if pred p (n_entry n) then Some (mkIterator (Some p) (it_ref i) (it_state i))
          else full_advance_from s pred (it_ref i) (it_state i) p
      end
  | Some p => full_advance_from s pred (it_ref i) (it_state i) p
  end.

Definition fullEnumerate (s : Hashtable) (pred : EntrySelector) : option (list ptr) :=
  enumerate (size (ht_heap s)) (full_advance s pred) None.

(** ** PartialEnumerationImpl *)

(** [name_tree::EntrySubTreeSelector]: whether to visit the entry, and whether
    to look at its children. *)
Definition EntrySubTreeSelector : Type := ptr → Entry → bool * bool.

(** The loop over the siblings behind the current entry. *)
Inductive SiblingResult :=
  | Visit (p : ptr) (wantChildren : bool)
  | Descend (p : ptr)
  | NoMoreSibling.

Fixpoint trySiblings (E : gmap ptr Entry) (pred : EntrySubTreeSelector) (siblings : list ptr)
  : option SiblingResult :=
  match siblings with
  | [] => Some NoMoreSibling
  | q :: siblings' =>
      e ← E !! q;
      let '(wantSelf, wantChildren) := pred q e in
      if wantSelf : bool then Some (Visit q wantChildren)
      else if wantChildren : bool then Some (Descend q)
      else trySiblings E pred siblings'
  end.

(** The while loop of [advance].  The result is the next entry to visit with its
    [m_state], or [None] at the end. *)
Fixpoint partial_loop (fuel : nat) (E : gmap ptr Entry) (pred : EntrySubTreeSelector) (ref : ptr)
    (entry : ptr) (wantChildren : bool) : option (option (ptr * bool)) :=
  match fuel with
  | O => None
  | S fuel' =>
      e ← E !! entry;
      if wantChildren && hasChildren e then
        c ← head (e_children e);
        ec ← E !! c;
        let '(wantSelf, wantChildren') := pred c ec in
        if wantSelf : bool then Some (Some (c, wantChildren'))
        else partial_loop fuel' E pred ref c wantChildren'
      else if decide (entry = ref) then Some None
      else
        parent ← e_parent e;
        pe ← E !! parent;
        i ← fst <$> list_find (λ q, q = entry) (e_children pe);
        r ← trySiblings E pred (drop (S i) (e_children pe));
        match r with
        | Visit q wc => Some (Some (q, wc))
        | Descend q => partial_loop fuel' E pred ref q true
        | NoMoreSibling => partial_loop fuel' E pred ref parent false
        end
  end.

(** The number of entries in the subtree of [p] of at most [d] levels. *)
Fixpoint subtreeSize (d : nat) (E : gmap ptr Entry) (p : ptr) : nat :=
  match d, E !! p with
  | S d', Some e => S (sum_list (subtreeSize d' E <$> e_children e))
  | _, _ => 1
  end.

(** A step of the loop enters an entry or leaves it, so two steps per entry of
    the subtree are enough. *)
Definition partial_fuel (E : gmap ptr Entry) (ref : ptr) : nat := 2 * subtreeSize (S getMaxDepth) E ref.

Definition partial_advance (E : gmap ptr Entry) (pred : EntrySubTreeSelector) (i : Iterator)
  : option Iterator :=
  let continue (ref entry : ptr) (wantChildren : bool) :=
    r ← partial_loop (partial_fuel E ref) E pred ref entry wantChildren;
    Some (match r with
          | Some (p, wc) => mkIterator (Some p) (Some ref) wc
          | None => end_iterator
          end) in
  match it_entry i, it_ref i with
  | None, None => Some end_iterator
  | None, Some ref =>
      e ← E !! ref;
      let '(wantSelf, wantChildren) := pred ref e in
      if wantSelf : bool then Some (mkIterator (Some ref) (Some ref) wantChildren)
      else continue ref ref wantChildren
  | Some _, None => None (* BOOST_ASSERT(i.m_ref != nullptr) *)
  | Some p, Some ref => continue ref p (it_state i)
  end.

(** [partialEnumerate(prefix, selector)] *)
Definition partialEnumerate (prefix : Name) (pred : EntrySubTreeSelector) (s : Hashtable)
  : option (list ptr) :=
  '(_, entry) ← NameTree_findExactMatch prefix (length prefix) s;
  enumerate (size (ht_heap s)) (partial_advance (entries s) pred) entry.

(** ** PrefixMatchImpl *)

(** [while ((i.m_entry = i.m_entry->getParent()) != nullptr)] *)
Fixpoint climb (fuel : nat) (E : gmap ptr Entry) (pred : EntrySelector) (ref : option ptr) (state : bool)
    (entry : ptr) : option Iterator :=
  match fuel with
  | O => None
  | S fuel' =>
      e ← E !! entry;
      match e_parent e with
      | None => Some end_iterator
      | Some q =>
          eq ← E !! q;
          if pred q eq then Some (mkIterator (Some q) ref state)
          else climb fuel' E pred ref state q
      end
  end.

Definition prefix_advance (E : gmap ptr Entry) (pred : EntrySelector) (i : Iterator) : option Iterator :=
  match it_entry i with
  | None =>
      match it_ref i with
      | None => Some end_iterator
      | Some p =>
          e ← E !! p;
          if pred p e then Some (mkIterator (Some p) (it_ref i) (it_state i))
          else climb (S getMaxDepth) E pred (it_ref i) (it_state i) p
      end
  | Some p => climb (S getMaxDepth) E pred (it_ref i) (it_state i) p
  end.

Definition findAllMatches (name : Name) (sel : EntrySelector) (s : Hashtable) : option (list ptr) :=
  '(_, entry) ← findLongestPrefixMatch name sel s;
  enumerate (S getMaxDepth) (prefix_advance (entries s) sel) entry.
End Iterator.

Arguments EntrySubTreeSelector {N}.

(** ** The full enumeration visits every selected entry once *)

Section Full.
Context {N : NdnCxx}.
Implicit Types (s : Hashtable) (h : gmap ptr Node) (p q : ptr) (l : list ptr) (pred : EntrySelector).

Definition selected (E : gmap ptr Entry) pred p : bool :=
  match E !! p with Some e => pred p e | None => false end.

Lemma selected_node s pred p n :
  ht_heap s !! p = Some n → selected (entries s) pred p = pred p (n_entry n).
Proof. intros Hn. unfold selected, entries. by rewrite lookup_fmap, Hn. Qed.

Lemma findNext_spec s pred l fuel cur :
  sll (ht_heap s) cur l → length l ≤ fuel →
  findNext fuel (ht_heap s) pred cur = Some (List.find (selected (entries s) pred) l).
Proof.
  revert cur fuel. induction l as [|p l IH]; intros cur fuel; simpl.
  - intros -> _. by destruct fuel.
  - intros (-> & n & Hn & Hl) Hf. destruct fuel as [|fuel]; [lia|]. simpl. rewrite Hn. simpl.
    rewrite (selected_node _ _ _ _ Hn). case_match; [done|]. apply IH; [done|lia].
Qed.

Lemma findInBuckets_spec s pred fuel bs cs :
  Forall2 (dll (ht_heap s)) bs cs → length (concat cs) ≤ fuel →
  findInBuckets fuel (ht_heap s) pred bs = Some (List.find (selected (entries s) pred) (concat cs)).
Proof.
  induction 1 as [|b l bs cs [lst Hl] _ IH]; simpl; [done|]. rewrite length_app. intros Hf.
  rewrite (findNext_spec _ _ l) by (lia || by eapply dls_sll). simpl. rewrite find_app.
  case_match; [done|]. apply IH. lia.
Qed.

Lemma firstNode_spec h bs cs : Forall2 (dll h) bs cs → firstNode bs = head (concat cs).
Proof.
  induction 1 as [|b l bs cs [lst Hl] _ IH]; simpl; [done|].
  destruct l as [|p l]; simpl in Hl; [by destruct Hl as [_ ->]|by destruct Hl as [-> _]].
Qed.

Definition next_iterator ref st (r : option ptr) : Iterator :=
  match r with Some q => mkIterator (Some q) ref st | None => end_iterator end.

Lemma full_advance_from_spec s cs pred ref st pre p post :
  shaped s cs → concat cs = pre ++ p :: post →
  full_advance_from s pred ref st p =
    Some (next_iterator ref st (List.find (selected (entries s) pred) post)).
Proof.
  intros Hs Hc. assert (Hp : is_Some (ht_heap s !! p)) by (apply (sh_dom _ _ Hs); rewrite Hc; set_solver).
  destruct Hp as [n Hn]. destruct (shaped_find _ _ _ _ Hs Hn) as (l & Hl & Hin).
  apply list_elem_of_split in Hin as (l1 & l2 & ->). pose proof (concat_split _ _ _ _ _ Hl) as Hc'.
  destruct (sh_linked _ _ Hs) as [Hd Hnd].
  assert (Hpost : l2 ++ concat (drop (S (computeBucketIndex s (n_hash n))) cs) = post).
  { rewrite Hc' in Hnd. eapply NoDup_split_unique; [exact Hnd|]. by rewrite <- Hc', Hc. }
  assert (Hlen : length post ≤ size (ht_heap s)).
  { rewrite <- (shaped_size _ _ Hs), Hc, length_app. simpl. lia. }
  rewrite <- Hpost, length_app in Hlen.
  unfold full_advance_from. rewrite Hn. simpl.
  destruct (linked_bucket _ _ _ _ (sh_linked _ _ Hs) Hl) as (b & Hb & lst & Hdl).
  apply dls_app in Hdl as (m & c & _ & _ & n' & Hn' & _ & Hdl). simplify_eq.
  rewrite (findNext_spec _ _ l2) by (lia || by eapply dls_sll). simpl. rewrite find_app.
  case_match; [done|].
  rewrite (findInBuckets_spec _ _ _ _ (drop (S (computeBucketIndex s (n_hash n))) cs)); [|by apply Forall2_drop|lia].
  simpl. by case_match.
Qed.

Lemma find_filter_split {A} (f : A → bool) (l : list A) :
  match List.find f l with
  | Some x => ∃ a b, l = a ++ x :: b ∧ List.filter f l = x :: List.filter f b
  | None => List.filter f l = []
  end.
Proof.
  induction l as [|y l IH]; simpl; [done|]. destruct (f y) eqn:Hy; [by exists [], l|].
  destruct (List.find f l) as [z|]; [|done]. destruct IH as (a & b & -> & ?). by exists (y :: a), b.
Qed.

(** The visited entries: those of the whole table, in bucket order. *)
Lemma enumerate_from_full s cs pred ref st fuel pre p post :
  shaped s cs → concat cs = pre ++ p :: post → length post < fuel →
  enumerate_from fuel (full_advance s pred) (mkIterator (Some p) ref st) =
    Some (p :: List.filter (selected (entries s) pred) post).
Proof.
  intros Hs. revert pre p post. induction fuel as [|fuel IH]; intros pre p post Hc Hf; [lia|].
  cbn [enumerate_from it_entry].
  change (full_advance s pred (mkIterator (Some p) ref st)) with (full_advance_from s pred ref st p).
  rewrite (full_advance_from_spec _ _ _ _ _ _ _ _ Hs Hc). cbn [mbind option_bind].
  pose proof (find_filter_split (selected (entries s) pred) post) as Hsp.
  destruct (List.find _ post) as [q|]; simpl.
  - destruct Hsp as (a & b & Hab & Hfil). rewrite Hfil, (IH (pre ++ p :: a) q b).
    + done.
    + by rewrite Hc, Hab, <- (assoc_L (++)).
    + rewrite Hab, length_app in Hf. simpl in Hf. lia.
  - rewrite Hsp. by destruct fuel.
Qed.

Lemma full_advance_start s cs pred :
  shaped s cs →
  full_advance s pred (mkIterator None None false) =
    Some (next_iterator None false (List.find (selected (entries s) pred) (concat cs))).
Proof.
  intros Hs. unfold full_advance. cbn [it_entry it_ref it_state].
  destruct (sh_linked _ _ Hs) as [Hd Hnd]. rewrite (firstNode_spec _ _ _ Hd).
  destruct (concat cs) as [|p post] eqn:Hc; [done|]. simpl.
  assert (Hp : is_Some (ht_heap s !! p)) by (apply (sh_dom _ _ Hs); rewrite Hc; constructor).
  destruct Hp as [n Hn]. rewrite Hn. simpl. rewrite <- (selected_node _ pred _ _ Hn).
  case_match; [done|]. by apply (full_advance_from_spec s cs pred None false [] p post).
Qed.

Lemma fullEnumerate_spec s cs pred :
  shaped s cs → fullEnumerate s pred = Some (List.filter (selected (entries s) pred) (concat cs)).
Proof.
  intros Hs. unfold fullEnumerate, enumerate. rewrite (full_advance_start _ cs) by done. cbn [mbind option_bind].
  pose proof (find_filter_split (selected (entries s) pred) (concat cs)) as Hf.
  destruct (List.find _ _) as [q|]; simpl.
  - destruct Hf as (a & b & Hab & ->). apply (enumerate_from_full _ cs _ _ _ _ a); [done..|].
    rewrite <- (shaped_size _ _ Hs), Hab, length_app. simpl. lia.
  - rewrite Hf. by destruct (size _).
Qed.

(** Every selected entry exactly once. *)
Lemma fullEnumerate_elem s pred :
  HtInv s → ∃ l, fullEnumerate s pred = Some l ∧ NoDup l ∧
    ∀ p, p ∈ l ↔ ∃ e, entries s !! p = Some e ∧ pred p e = true.
Proof.
  intros Hs. destruct (hi_shaped _ Hs) as [cs Hcs]. eexists. split; [by eapply fullEnumerate_spec|].
  destruct Hcs as [[_ Hnd] Hdom _ _ _]. split.
  - rewrite NoDup_ListNoDup in *. by apply List.NoDup_filter.
  - intros p. rewrite list_elem_of_In, filter_In, <- list_elem_of_In, Hdom. unfold selected, entries. rewrite lookup_fmap.
    destruct (ht_heap s !! p) as [n|]; cbn; split.
    + intros [_ Hp]. eauto.
    + intros (e & [= <-] & Hp). split; [by eexists|done].
    + by intros [[? ?] _].
    + by intros (e & ? & _).
Qed.
End Full.

(** ** findAllMatches lists the selected prefixes, longest first *)

Section Prefixes.
Context {N : NdnCxx} {NL : NdnCxxLaws N}.
Implicit Types (s : Hashtable) (E : gmap ptr Entry) (p q : ptr) (name : Name) (sel : EntrySelector).

Fixpoint matches_from E sel name (i : nat) : list ptr :=
  match find_name E (take i name) with
  | Some (p, e) => if sel p e then [p] else []
  | None => []
  end ++ match i with O => [] | S i' => matches_from E sel name i' end.

Lemma matches_lpm E sel name i :
  match lpm_from E sel name i with
  | Some p => ∃ k e, k ≤ i ∧ find_name E (take k name) = Some (p, e) ∧ sel p e = true ∧
      matches_from E sel name i = p :: match k with O => [] | S k' => matches_from E sel name k' end
  | None => matches_from E sel name i = []
  end.
Proof.
  induction i as [|i IH]; cbn [lpm_from matches_from].
  - destruct (find_name E (take 0 name)) as [[p e]|] eqn:Hf; [|done].
    destruct (sel p e) eqn:Hsel; [|done]. exists 0, e. by rewrite Hf.
  - destruct (find_name E (take (S i) name)) as [[p e]|] eqn:Hf; [destruct (sel p e) eqn:Hsel|].
    + exists (S i), e. by rewrite Hf.
    + simpl. destruct (lpm_from E sel name i); [|done]. destruct IH as (k & e' & ? & ?). exists k, e'. split; [lia|done].
    + simpl. destruct (lpm_from E sel name i); [|done]. destruct IH as (k & e' & ? & ?). exists k, e'. split; [lia|done].
Qed.

Lemma climb_spec E sel ref st name i p e fuel :
  TreeInv E → E !! p = Some e → e_name e = take i name → i ≤ length name → i < fuel →
  climb fuel E sel ref st p =
    Some (next_iterator ref st (match i with O => None | S i' => lpm_from E sel name i' end)).
Proof.
  intros Ht. revert p e i. induction fuel as [|fuel IH]; intros p e i Hp Hn Hi Hf; [lia|].
  cbn [climb]. rewrite Hp. cbn [mbind option_bind]. pose proof (ti_parent _ Ht _ _ Hp) as Hpar.
  destruct (e_parent e) as [q|].
  - destruct Hpar as (Hne & eq & Hq & Hnq & _). destruct i as [|i]; [by destruct Hne|].
    rewrite Hn, take_S_parent in Hnq by done. rewrite Hq. cbn [mbind option_bind].
    assert (Hl : lpm_from E sel name i = if sel q eq then Some q else
      match i with O => None | S i' => lpm_from E sel name i' end).
    { destruct i; cbn [lpm_from]; by rewrite (proj2 (find_name_Some _ _ q eq Ht)). }
    rewrite Hl. destruct (sel q eq); [done|]. apply (IH q eq); [done..|lia|lia].
  - destruct i as [|i]; [done|]. rewrite Hpar in Hn. destruct name; simpl in *; [lia|done].
Qed.

Lemma enumerate_from_prefix E sel name ref st i p e fuel :
  TreeInv E → E !! p = Some e → e_name e = take i name → i ≤ length name → i < fuel → i ≤ getMaxDepth →
  enumerate_from fuel (prefix_advance E sel) (mkIterator (Some p) ref st) =
    Some (p :: match i with O => [] | S i' => matches_from E sel name i' end).
Proof.
  intros Ht. revert i p e. induction fuel as [|fuel IH]; intros i p e Hp Hn Hi Hf Hd; [lia|].
  cbn [enumerate_from it_entry].
  change (prefix_advance E sel (mkIterator (Some p) ref st)) with (climb (S getMaxDepth) E sel ref st p).
  rewrite (climb_spec E sel ref st name i p e) by (done || lia). cbn [mbind option_bind].
  destruct i as [|i]; [by destruct fuel|].
  pose proof (matches_lpm E sel name i) as Hm. destruct (lpm_from E sel name i) as [q|]; simpl.
  - destruct Hm as (k & eq & Hk & [Hq Hnq]%find_name_Some & Hsel & ->); [|done].
    by rewrite (IH k q eq) by (done || lia).
  - rewrite Hm. by destruct fuel.
Qed.

Lemma findAllMatches_spec name sel s :
  NtInv s → findAllMatches name sel s =
    Some (matches_from (entries s) sel name (Nat.min (length name) getMaxDepth)).
Proof.
  intros Hs. unfold findAllMatches.
  destruct (wp_elim _ _ _ (findLongestPrefixMatch_spec name sel s Hs)) as (s' & r & -> & -> & ->).
  cbn [mbind option_bind]. unfold lpm. set (d := Nat.min _ _).
  pose proof (matches_lpm (entries s) sel name d) as Hm. unfold enumerate.
  destruct (lpm_from (entries s) sel name d) as [p|].
  - destruct Hm as (k & e & Hk & [Hp Hn]%find_name_Some & Hsel & ->); [|apply Hs].
    assert (Hadv : prefix_advance (entries s) sel (mkIterator None (Some p) false) = Some (mkIterator (Some p) (Some p) false)).
    { unfold prefix_advance. simpl. rewrite Hp. simpl. by rewrite Hsel. }
    rewrite Hadv. cbn [mbind option_bind].
    apply (enumerate_from_prefix _ _ _ _ _ _ _ e); [apply Hs|done|done|lia..].
  - by rewrite Hm.
Qed.
End Prefixes.

(** ** The partial enumeration is a pre-order walk

    Reference: the walk of the subtree of [p], of at most [d] levels. *)

Section Partial.
Context {N : NdnCxx}.
Context (E : gmap ptr Entry) (Ht : TreeInv E) (pred : EntrySubTreeSelector).
#[local] Opaque getMaxDepth.
Implicit Types (e : Entry) (p q : ptr) (l : list ptr).

Fixpoint walk (d : nat) p : list ptr :=
  match d, E !! p with
  | S d', Some e =>
      let '(wantSelf, wantChildren) := pred p e in
      (if wantSelf : bool then [p] else []) ++
      (if wantChildren : bool then concat (walk d' <$> e_children e) else [])
  | _, _ => []
  end.

(** The whole subtree: the tree is at most [getMaxDepth] levels deep. *)
Definition W p : list ptr := walk (S getMaxDepth) p.
Definition Sz p : nat := subtreeSize (S getMaxDepth) E p.

Lemma child_length p e q eq :
  E !! q = Some eq → p ∈ e_children eq → E !! p = Some e → length (e_name e) = S (length (e_name eq)).
Proof.
  intros Hq Hin Hp. destruct (ti_children _ Ht _ _ _ Hq Hin) as (e' & He' & Hpar). simplify_eq.
  pose proof (ti_parent _ Ht _ _ Hp) as Hc. rewrite Hpar in Hc. destruct Hc as (Hne & eq' & Hq' & Hn & _).
  simplify_eq. rewrite Hn. unfold getParentName. rewrite length_take. destruct (e_name e); simpl in *; [done|lia].
Qed.

Lemma walk_stable d1 d2 p e :
  E !! p = Some e → getMaxDepth < d1 + length (e_name e) → getMaxDepth < d2 + length (e_name e) →
  walk d1 p = walk d2 p ∧ subtreeSize d1 E p = subtreeSize d2 E p.
Proof.
  revert d2 p e. induction d1 as [|d1 IH]; intros d2 p e Hp H1 H2.
  { pose proof (ti_depth _ Ht _ _ Hp). lia. }
  destruct d2 as [|d2]; [pose proof (ti_depth _ Ht _ _ Hp); lia|]. simpl. rewrite Hp.
  assert (Hc : ∀ c, c ∈ e_children e → walk d1 c = walk d2 c ∧ subtreeSize d1 E c = subtreeSize d2 E c).
  { intros c Hc. destruct (ti_children _ Ht _ _ _ Hp Hc) as (ec & Hec & _).
    pose proof (child_length _ _ _ _ Hp Hc Hec). apply (IH _ _ ec); [done|lia|lia]. }
  assert (Hw : walk d1 <$> e_children e = walk d2 <$> e_children e).
  { apply list_fmap_ext. intros i c Hi%list_elem_of_lookup_2. by apply Hc. }
  assert (Hs : subtreeSize d1 E <$> e_children e = subtreeSize d2 E <$> e_children e).
  { apply list_fmap_ext. intros i c Hi%list_elem_of_lookup_2. by apply Hc. }
  by rewrite Hw, Hs.
Qed.

Lemma children_stable p e :
  E !! p = Some e →
  walk getMaxDepth <$> e_children e = W <$> e_children e ∧
  subtreeSize getMaxDepth E <$> e_children e = Sz <$> e_children e.
Proof.
  intros Hp.
  assert (Hc : ∀ c, c ∈ e_children e → walk getMaxDepth c = W c ∧ subtreeSize getMaxDepth E c = Sz c).
  { intros c Hc. destruct (ti_children _ Ht _ _ _ Hp Hc) as (ec & Hec & _).
    pose proof (child_length _ _ _ _ Hp Hc Hec).
    exact (walk_stable getMaxDepth (S getMaxDepth) c ec Hec ltac:(lia) ltac:(lia)). }
  split; apply list_fmap_ext; intros i c Hi%list_elem_of_lookup_2; by apply Hc.
Qed.

Lemma W_unfold p e :
  E !! p = Some e →
  W p = (if (pred p e).1 then [p] else []) ++ (if (pred p e).2 then concat (W <$> e_children e) else []).
Proof.
  intros Hp. rewrite <- (proj1 (children_stable p e Hp)). unfold W. cbn [walk]. rewrite Hp.
  by destruct (pred p e).
Qed.

Lemma Sz_unfold p e : E !! p = Some e → Sz p = S (sum_list (Sz <$> e_children e)).
Proof.
  intros Hp. rewrite <- (proj2 (children_stable p e Hp)). unfold Sz. cbn [subtreeSize]. by rewrite Hp.
Qed.

Lemma W_walk p : W p = walk (S getMaxDepth) p.
Proof. done. Qed.
#[local] Opaque W Sz.

(** [After ref p l w]: [p] is in the subtree of [ref]; once the subtree of [p]
    is done, [l] remains to be visited, in at most [w] steps of the loop. *)
Inductive After (ref : ptr) : ptr → list ptr → nat → Prop :=
  | After_ref : After ref ref [] 0
  | After_child p e q eq pre post l w :
      E !! p = Some e → e_parent e = Some q → E !! q = Some eq → e_children eq = pre ++ p :: post →
      p ≠ ref → After ref q l w →
      After ref p (concat (W <$> post) ++ l) (2 * sum_list (Sz <$> post) + 1 + w).

(** What remains, and the steps it takes, from an entry that was just visited
    or skipped. *)
Definition rest e (wc : bool) l : list ptr := (if wc then concat (W <$> e_children e) else []) ++ l.
Definition steps e (wc : bool) (w : nat) : nat := (if wc then 2 * sum_list (Sz <$> e_children e) else 0) + w + 1.

Lemma sum_Sz_cons p l : sum_list (Sz <$> p :: l) = Sz p + sum_list (Sz <$> l).
Proof. done. Qed.

Lemma After_bound ref p l w : After ref p l w → is_Some (E !! ref) → is_Some (E !! p) ∧ 2 * Sz p + w ≤ 2 * Sz ref.
Proof.
  intros HA Href. induction HA as [|p e q eq pre post l w Hp Hpar Hq Hch Hne HA [_ IH]]; [split; [done|lia]|].
  split; [by eexists|]. rewrite (Sz_unfold q eq Hq), Hch, fmap_app in IH. 
  rewrite sum_list_with_app, sum_Sz_cons in IH. lia.
Qed.

(** Skipped siblings contribute nothing. *)
Lemma trySiblings_spec q eq pre post :
  E !! q = Some eq → e_children eq = pre ++ post →
  ∃ r, trySiblings E pred post = Some r ∧
  match r with
  | NoMoreSibling => concat (W <$> post) = []
  | Visit p wc => ∃ skip post' e, post = skip ++ p :: post' ∧ E !! p = Some e ∧ e_parent e = Some q ∧
      concat (W <$> post) = p :: rest e wc (concat (W <$> post'))
  | Descend p => ∃ skip post' e, post = skip ++ p :: post' ∧ E !! p = Some e ∧ e_parent e = Some q ∧
      concat (W <$> post) = rest e true (concat (W <$> post'))
  end.
Proof.
  intros Hq. revert pre. induction post as [|p post IH]; intros pre Hch; [by eexists|].
  assert (Hin : p ∈ e_children eq) by (rewrite Hch; set_solver).
  destruct (ti_children _ Ht _ _ p Hq Hin) as (e & He & Hpar).
  cbn [trySiblings]. rewrite He. cbn [mbind option_bind]. rewrite fmap_cons. cbn [concat].
  rewrite (W_unfold p e He). destruct (pred p e) as [ws wc]. cbn [fst snd]. destruct ws, wc.
  - eexists. split; [done|]. exists [], post, e. done.
  - eexists. split; [done|]. exists [], post, e. done.
  - eexists. split; [done|]. exists [], post, e. done.
  - destruct (IH (pre ++ [p])) as (r & Hr & Hcase); [by rewrite Hch, <- (assoc_L (++))|].
    exists r. split; [done|]. simpl. destruct r as [x wc|x|]; [..|done].
    + destruct Hcase as (skip & post' & e' & -> & ?). exists (p :: skip), post', e'. done.
    + destruct Hcase as (skip & post' & e' & -> & ?). exists (p :: skip), post', e'. done.
Qed.

Lemma sum_list_app_cons l1 p l2 :
  sum_list (Sz <$> l1 ++ p :: l2) = sum_list (Sz <$> l1) + (Sz p + sum_list (Sz <$> l2)).
Proof. rewrite fmap_app, sum_list_with_app. done. Qed.

(** A child is never the root of its own ancestor's enumeration. *)
Lemma After_sibling ref q l w x ex eq pre post :
  After ref q l w → E !! x = Some ex → e_parent ex = Some q → E !! q = Some eq →
  e_children eq = pre ++ x :: post → is_Some (E !! ref) →
  After ref x (concat (W <$> post) ++ l) (2 * sum_list (Sz <$> post) + 1 + w).
Proof.
  intros HA Hx Hpar Hq Hch Href. eapply After_child; [done..| |done]. intros ->.
  destruct (After_bound _ _ _ _ HA Href) as [_ Hb]. rewrite (Sz_unfold q eq Hq), Hch, sum_list_app_cons in Hb. lia.
Qed.

(** The loop finds the next entry of the walk. *)
Lemma partial_loop_spec ref fuel p e wc l w :
  is_Some (E !! ref) → After ref p l w → E !! p = Some e → steps e wc w ≤ fuel →
  ∃ r, partial_loop fuel E pred ref p wc = Some r ∧
  match r with
  | None => rest e wc l = []
  | Some (x, wcx) => ∃ ex lx wx, After ref x lx wx ∧ E !! x = Some ex ∧ rest e wc l = x :: rest ex wcx lx
  end.
Proof.
  intros Href. revert p e wc l w. induction fuel as [|fuel IH]; intros p e wc l w HA Hp Hf; [unfold steps in Hf; lia|].
  cbn [partial_loop]. rewrite Hp. cbn [mbind option_bind].
  destruct (wc && hasChildren e) eqn:Hwc.
  { apply andb_true_iff in Hwc as [-> Hhc]. unfold hasChildren in Hhc.
    destruct (e_children e) as [|c post] eqn:Hch; [done|].
    destruct (ti_children _ Ht _ _ c Hp ltac:(rewrite Hch; constructor)) as (ec & Hc & Hpar).
    assert (Hcr : c ≠ ref).
    { intros ->. destruct (After_bound _ _ _ _ HA Href) as [_ Hb].
      rewrite (Sz_unfold p e Hp), Hch, sum_Sz_cons in Hb. lia. }
    assert (HAc : After ref c (concat (W <$> post) ++ l) (2 * sum_list (Sz <$> post) + 1 + w)).
    { eapply (After_child _ _ _ _ _ []); done. }
    cbn [head]. cbn [mbind option_bind]. rewrite Hc. cbn [mbind option_bind].
    assert (HR : rest e true l =
      (if (pred c ec).1 then [c] else []) ++ rest ec (pred c ec).2 (concat (W <$> post) ++ l)).
    { unfold rest. rewrite Hch, fmap_cons. cbn [concat]. rewrite (W_unfold c ec Hc). by rewrite <- !(assoc_L (++)). }
    rewrite HR. unfold steps in Hf. rewrite Hch, sum_Sz_cons, (Sz_unfold c ec Hc) in Hf.
    destruct (pred c ec) as [ws wc']. cbn [fst snd]. destruct ws.
    - eexists. split; [done|]. exists ec. eexists _, _. by split.
    - destruct (IH c ec wc' _ _ HAc Hc) as (r & Hr & Hcase); [unfold steps; destruct wc'; lia|].
      exists r. by split. }
  assert (Hrest : rest e wc l = l).
  { unfold rest. destruct wc; [|done]. simpl in Hwc. unfold hasChildren in Hwc. by destruct (e_children e). }
  rewrite Hrest. destruct HA as [|p e' q eq pre post l w Hp' Hpar Hq Hch Hne HA].
  { rewrite decide_True by done. by eexists. }
  simplify_eq. rewrite decide_False by done. rewrite Hpar. cbn [mbind option_bind]. rewrite Hq. cbn [mbind option_bind].
  destruct (list_find (λ r, r = p) (e_children eq)) as [[i x]|] eqn:Hfind.
  2: { apply list_find_None in Hfind. rewrite Forall_forall in Hfind. destruct (Hfind p); [rewrite Hch; set_solver|done]. }
  apply list_find_Some in Hfind as (Hi & -> & _).
  assert (Hdrop : drop (S i) (e_children eq) = post).
  { pose proof (ti_nodup _ Ht _ _ Hq) as Hnd. rewrite <- (take_drop_middle _ _ _ Hi) in Hnd.
    eapply (NoDup_split_unique (take i (e_children eq)) pre); [exact Hnd|].
    by rewrite (take_drop_middle _ _ _ Hi). }
  cbn [fmap option_fmap option_map fst mbind option_bind]. rewrite Hdrop.
  destruct (trySiblings_spec q eq (pre ++ [p]) post Hq) as (r & -> & Hr); [by rewrite Hch, <- (assoc_L (++))|].
  cbn [mbind option_bind]. unfold steps in Hf. destruct r as [x wcx|x|].
  - destruct Hr as (skip & post' & ex & Hpost & Hx & Hparx & ->). eexists. split; [done|].
    exists ex. eexists _, _. split; [|split; [done|]].
    + eapply (After_sibling ref q l w x ex eq (pre ++ p :: skip) post'); [done..| |done]. by rewrite Hch, Hpost, <- (assoc_L (++)).
    + unfold rest. cbn [app]. by rewrite <- (assoc_L (++)).
  - destruct Hr as (skip & post' & ex & Hpost & Hx & Hparx & ->).
    destruct (IH x ex true (concat (W <$> post') ++ l) (2 * sum_list (Sz <$> post') + 1 + w)) as (r & Hr & Hcase).
    + eapply (After_sibling ref q l w x ex eq (pre ++ p :: skip) post'); [done..| |done]. by rewrite Hch, Hpost, <- (assoc_L (++)).
    + done.
    + rewrite Hpost, sum_list_app_cons, (Sz_unfold x ex Hx) in Hf. unfold steps. destruct wc; lia.
    + exists r. split; [done|]. assert (HR : rest ex true (concat (W <$> post')) ++ l =
        rest ex true (concat (W <$> post') ++ l)) by (unfold rest; by rewrite <- (assoc_L (++))).
      by rewrite HR.
  - rewrite Hr. destruct (IH q eq false l w HA Hq) as (r & Hr' & Hcase); [unfold steps; destruct wc; lia|].
    exists r. split; [done|]. done.
Qed.

Lemma partial_advance_from ref p e wc l w :
  is_Some (E !! ref) → After ref p l w → E !! p = Some e →
  ∃ r, partial_loop (partial_fuel E ref) E pred ref p wc = Some r ∧
  match r with
  | None => rest e wc l = []
  | Some (x, wcx) => ∃ ex lx wx, After ref x lx wx ∧ E !! x = Some ex ∧ rest e wc l = x :: rest ex wcx lx
  end.
Proof.
  intros Href HA Hp. apply (partial_loop_spec ref _ p e wc l w); [done..|].
  destruct (After_bound _ _ _ _ HA Href) as [_ Hb]. rewrite (Sz_unfold p e Hp) in Hb.
  change (partial_fuel E ref) with (2 * Sz ref). unfold steps. destruct wc; lia.
Qed.

Lemma enumerate_from_partial ref fuel p e wc l w :
  is_Some (E !! ref) → After ref p l w → E !! p = Some e → length (rest e wc l) < fuel →
  enumerate_from fuel (partial_advance E pred) (mkIterator (Some p) (Some ref) wc) = Some (p :: rest e wc l).
Proof.
  intros Href. revert p e wc l w. induction fuel as [|fuel IH]; intros p e wc l w HA Hp Hf; [lia|].
  cbn [enumerate_from it_entry].
  destruct (partial_advance_from ref p e wc l w Href HA Hp) as (r & Hr & Hcase).
  assert (Hadv : partial_advance E pred (mkIterator (Some p) (Some ref) wc) =
    Some (match r with Some (x, wcx) => mkIterator (Some x) (Some ref) wcx | None => end_iterator end)).
  { unfold partial_advance. cbn [it_entry it_ref it_state]. by rewrite Hr. }
  rewrite Hadv. cbn [mbind option_bind]. destruct r as [[x wcx]|].
  - destruct Hcase as (ex & lx & wx & HAx & Hx & E'). rewrite E' in Hf |- *. simpl in Hf.
    by rewrite (IH x ex wcx lx wx) by (done || lia).
  - rewrite Hcase. by destruct fuel.
Qed.

Lemma enumerate_partial ref e fuel :
  E !! ref = Some e → length (W ref) ≤ fuel →
  enumerate fuel (partial_advance E pred) (Some ref) = Some (W ref).
Proof.
  intros Href Hf. unfold enumerate. rewrite (W_unfold ref e Href) in Hf |- *.
  assert (HR : ∀ wc : bool, (if wc then concat (W <$> e_children e) else []) = rest e wc []).
  { intros []; unfold rest; by rewrite app_nil_r. }
  rewrite HR in Hf |- *.
  destruct (partial_advance_from ref ref e (pred ref e).2 [] 0 ltac:(by eexists) (After_ref ref) Href) as (r & Hr & Hcase).
  assert (Hadv : partial_advance E pred (mkIterator None (Some ref) false) = Some (
    if (pred ref e).1 then mkIterator (Some ref) (Some ref) (pred ref e).2
    else match r with Some (x, wcx) => mkIterator (Some x) (Some ref) wcx | None => end_iterator end)).
  { unfold partial_advance. cbn [it_entry it_ref it_state]. rewrite Href. cbn [mbind option_bind].
    destruct (pred ref e) as [[] wc]; [done|]. cbn [snd] in Hr. by rewrite Hr. }
  rewrite Hadv. cbn [mbind option_bind]. destruct (pred ref e) as [ws wc]. cbn [fst snd] in *. destruct ws.
  - apply (enumerate_from_partial _ _ _ _ _ _ 0); [by eexists|constructor|done|]. simpl in Hf. lia.
  - simpl in Hf |- *. destruct r as [[x wcx]|].
    + destruct Hcase as (ex & lx & wx & HAx & Hx & E'). rewrite E' in Hf |- *.
      apply (enumerate_from_partial _ _ _ ex _ _ wx); [by eexists|done|done|]. simpl in Hf. lia.
    + rewrite Hcase. by destruct fuel.
Qed.

(** *** What the walk visits *)

(** [reach p x]: every entry on the way from [p] to [x] wants its children. *)
Inductive reach (p : ptr) : ptr → Prop :=
  | reach_here : is_Some (E !! p) → reach p p
  | reach_child q eq x : reach p q → E !! q = Some eq → (pred q eq).2 = true → x ∈ e_children eq → reach p x.

Lemma reach_cons p e c x :
  E !! p = Some e → (pred p e).2 = true → c ∈ e_children e → reach c x → reach p x.
Proof.
  intros Hp Hw Hc. induction 1 as [_|q eq x _ IH Hq Hwq Hx].
  - eapply reach_child; [apply reach_here; by eexists|done..].
  - by eapply reach_child.
Qed.

Lemma reach_inv p x : reach p x → p = x ∨
  ∃ e c, E !! p = Some e ∧ (pred p e).2 = true ∧ c ∈ e_children e ∧ reach c x.
Proof.
  induction 1 as [_|q eq x Hr IH Hq Hw Hx]; [by left|]. right.
  destruct (ti_children _ Ht _ _ _ Hq Hx) as (ex & Hex & _).
  destruct IH as [->|(e & c & Hp & Hwp & Hc & Hr')].
  - exists eq, x. split; [done|]. split; [done|]. split; [done|]. constructor. by eexists.
  - exists e, c. split; [done|]. split; [done|]. split; [done|]. by eapply reach_child.
Qed.

Lemma walk_elem d p e x :
  E !! p = Some e → getMaxDepth < d + length (e_name e) →
  x ∈ walk d p ↔ reach p x ∧ ∃ ex, E !! x = Some ex ∧ (pred x ex).1 = true.
Proof.
  revert p e. induction d as [|d IH]; intros p e Hp Hd; [pose proof (ti_depth _ Ht _ _ Hp); lia|].
  assert (HC : x ∈ concat (walk d <$> e_children e) ↔
    ∃ c, c ∈ e_children e ∧ reach c x ∧ ∃ ex, E !! x = Some ex ∧ (pred x ex).1 = true).
  { rewrite list_elem_of_In, in_concat. setoid_rewrite <- list_elem_of_In. setoid_rewrite list_elem_of_fmap.
    assert (Hc : ∀ c, c ∈ e_children e → x ∈ walk d c ↔ reach c x ∧ ∃ ex, E !! x = Some ex ∧ (pred x ex).1 = true).
    { intros c Hc. destruct (ti_children _ Ht _ _ _ Hp Hc) as (ec & Hec & _).
      pose proof (child_length _ _ _ _ Hp Hc Hec). apply (IH c ec); [done|lia]. }
    split; [intros (? & (c & -> & Hin) & Hx); exists c; split; [done|]; by apply Hc|].
    intros (c & Hin & Hx). exists (walk d c). split; [by exists c|]. by apply Hc. }
  cbn [walk]. rewrite Hp. destruct (pred p e) as [ws wc] eqn:Hpred. rewrite elem_of_app. split.
  - intros [Hx|Hx].
    + destruct ws; [|by apply elem_of_nil in Hx]. apply list_elem_of_singleton in Hx as ->.
      split; [constructor; by eexists|]. exists e. by rewrite Hpred.
    + destruct wc; [|by apply elem_of_nil in Hx]. apply HC in Hx as (c & Hc & Hr & Hex).
      split; [|done]. eapply reach_cons; [done|by rewrite Hpred|done..].
  - intros [[->|(e' & c & Hp' & Hw & Hc & Hr)]%reach_inv (ex & Hex & Hself)].
    + left. simplify_eq. rewrite Hpred in Hself. simpl in Hself. subst. constructor.
    + right. simplify_eq. rewrite Hpred in Hw. simpl in Hw. subst. apply HC. exists c. eauto.
Qed.

Lemma W_elem p e x :
  E !! p = Some e → x ∈ W p ↔ reach p x ∧ ∃ ex, E !! x = Some ex ∧ (pred x ex).1 = true.
Proof. intros Hp. rewrite W_walk. apply (walk_elem _ _ e); [done|lia]. Qed.

(** Entries reached from [p] have names below that of [p]. *)
Lemma reach_prefix p e x ex :
  reach p x → E !! p = Some e → E !! x = Some ex → e_name e `prefix_of` e_name ex.
Proof.
  intros Hr Hp. revert ex. induction Hr as [_|q eq x Hr IH Hq Hw Hx]; intros ex Hex; [by simplify_eq|].
  etrans; [exact (IH _ Hq)|]. destruct (ti_children _ Ht _ _ _ Hq Hx) as (ex' & Hex' & Hpar). simplify_eq.
  pose proof (ti_parent _ Ht _ _ Hex) as Hc. rewrite Hpar in Hc. destruct Hc as (_ & eq' & Hq' & Hn & _).
  simplify_eq. rewrite Hn. unfold getParentName. apply prefix_take.
Qed.

Lemma NoDup_concat_fmap {A} (f : A → list ptr) (l : list A) :
  (∀ x, x ∈ l → NoDup (f x)) → NoDup l →
  (∀ x y z, x ∈ l → y ∈ l → z ∈ f x → z ∈ f y → x = y) → NoDup (concat (f <$> l)).
Proof.
  induction l as [|x l IH]; intros Hf Hl Hd; [constructor|]. apply NoDup_cons in Hl as [Hx Hl].
  cbn [fmap list_fmap concat]. apply NoDup_app. split; [apply Hf; constructor|]. split.
  - intros z Hz Hc. rewrite list_elem_of_In, in_concat in Hc. destruct Hc as (fy & Hfy & Hzy).
    rewrite <- list_elem_of_In in Hfy. rewrite <- list_elem_of_In in Hzy. apply list_elem_of_fmap in Hfy as (y & -> & Hy).
    destruct Hx. rewrite (Hd x y z); [done|constructor|by constructor|done|done].
  - apply IH; [intros y Hy; apply Hf; by constructor|done|].
    intros y z u Hy Hz. apply Hd; by constructor.
Qed.

Lemma walk_NoDup d p e :
  E !! p = Some e → getMaxDepth < d + length (e_name e) → NoDup (walk d p).
Proof.
  revert p e. induction d as [|d IH]; intros p e Hp Hd; [constructor|].
  assert (Hc : ∀ c, c ∈ e_children e → ∃ ec, E !! c = Some ec ∧ length (e_name ec) = S (length (e_name e)) ∧
    getMaxDepth < d + length (e_name ec)).
  { intros c Hc. destruct (ti_children _ Ht _ _ _ Hp Hc) as (ec & Hec & _).
    pose proof (child_length _ _ _ _ Hp Hc Hec). exists ec. split; [done|]. lia. }
  assert (HN : NoDup (concat (walk d <$> e_children e))).
  { apply NoDup_concat_fmap; [|by eapply ti_nodup|].
    - intros c (ec & Hec & _ & ?)%Hc. by eapply IH.
    - intros c c' x (ec & Hec & Hl & Hdc)%Hc (ec' & Hec' & Hl' & Hdc')%Hc.
      rewrite (walk_elem d c ec) by done. rewrite (walk_elem d c' ec') by done.
      intros [Hr (ex & Hex & _)] [Hr' _]. eapply (ti_names _ Ht); [exact Hec|exact Hec'|].
      pose proof (reach_prefix _ _ _ _ Hr Hec Hex) as [k Hk]. pose proof (reach_prefix _ _ _ _ Hr' Hec' Hex) as [k' Hk'].
      apply (f_equal (take (length (e_name ec)))) in Hk. rewrite take_app_length in Hk.
      rewrite Hk', Hl, <- Hl', take_app_length in Hk. done. }
  cbn [walk]. rewrite Hp. destruct (pred p e) as [ws wc]. apply NoDup_app.
  split; [destruct ws; [apply NoDup_singleton|constructor]|]. split; [|destruct wc; [done|constructor]].
  intros x Hx Hx'. destruct ws; [|by apply elem_of_nil in Hx]. apply list_elem_of_singleton in Hx as ->.
  destruct wc; [|by apply elem_of_nil in Hx']. rewrite list_elem_of_In, in_concat in Hx'.
  destruct Hx' as (fy & Hfy & Hzy). rewrite <- list_elem_of_In in Hfy. rewrite <- list_elem_of_In in Hzy.
  apply list_elem_of_fmap in Hfy as (c & -> & (ec & Hec & Hl & Hdc)%Hc).
  apply (walk_elem d c ec) in Hzy as [Hr _]; [|done..].
  pose proof (prefix_length _ _ (reach_prefix _ _ _ _ Hr Hec Hp)). lia.
Qed.

Lemma W_bound p e : E !! p = Some e → NoDup (W p) ∧ length (W p) ≤ size E.
Proof.
  intros Hp. assert (Hnd : NoDup (W p)) by (rewrite W_walk; eapply walk_NoDup; [done|lia]).
  split; [done|]. rewrite <- size_dom, <- (size_list_to_set (C := gset ptr) _ Hnd). apply subseteq_size.
  intros x. rewrite elem_of_list_to_set, (W_elem p e x Hp), elem_of_dom. intros (_ & ex & Hex & _). by eexists.
Qed.
End Partial.

Section PartialSpec.
Context {N : NdnCxx} {NL : NdnCxxLaws N}.

Lemma partialEnumerate_spec prefix pred s :
  NtInv s →
  partialEnumerate prefix pred s = Some (match find_name (entries s) prefix with
    | Some (p, _) => W (entries s) pred p
    | None => []
    end).
Proof.
  intros Hs. unfold partialEnumerate.
  destruct (wp_elim _ _ _ (findExactMatch_spec prefix (length prefix) s Hs)) as (s' & r & -> & -> & ->).
  rewrite firstn_all. cbn [mbind option_bind]. destruct (find_name (entries s) prefix) as [[p e]|] eqn:Hf.
  - apply find_name_Some in Hf as [Hp Hn]; [|apply Hs].
    apply (enumerate_partial _ (nti_tree _ Hs) _ _ e); [done|].
    destruct (W_bound _ (nti_tree _ Hs) pred p e Hp) as [_ Hl]. unfold entries in Hl at 2.
    by rewrite map_size_fmap in Hl.
  - cbn. by destruct (size (ht_heap s)).
Qed.
End PartialSpec.

(** ** Correctness *)

Section IteratorCorrect.
Context {N : NdnCxx} {NL : NdnCxxLaws N}.
Implicit Types (s : Hashtable) (e : Entry) (p : ptr) (sel : EntrySelector).

Lemma partialEnumerate_elem s prefix sub :
  NtInv s → ∃ l, partialEnumerate prefix sub s = Some l ∧ NoDup l ∧
    ∀ x, x ∈ l ↔ ∃ p e ex, entries s !! p = Some e ∧ e_name e = prefix ∧ reach (entries s) sub p x ∧
      entries s !! x = Some ex ∧ (sub x ex).1 = true.
Proof.
  intros Hs.
  rewrite (partialEnumerate_spec _ _ _ Hs). eexists. split; [done|].
  destruct (find_name (entries s) prefix) as [[p e]|] eqn:Hf.
  - apply find_name_Some in Hf as [Hp Hn]; [|apply Hs].
    destruct (W_bound _ (nti_tree _ Hs) sub p e Hp) as [Hnd _]. split; [done|]. intros x.
    rewrite (W_elem _ (nti_tree _ Hs) sub p e x Hp). split; [intros (? & ex & ? & ?); by exists p, e, ex|].
    intros (q & e' & ex & Hq & Hn' & ?). assert (q = p) as -> by (eapply ti_names; [apply Hs|done..|congruence]).
    naive_solver.
  - split; [constructor|]. intros x. split; [by intros ?%elem_of_nil|]. intros (p & e & ex & Hp & Hn & _).
    apply find_name_None in Hf. destruct Hf. by exists p, e.
Qed.

(** C32: The iterators terminate and are complete: full enumeration visits every
    entry the selector wants exactly once, and partial enumeration visits exactly
    once every wanted entry at or below the prefix that can be reached through
    entries whose children are wanted, and nothing when the prefix has no entry. *)
Theorem enumeration_complete s :
  NtInv s →
  (∀ sel, ∃ l, fullEnumerate s sel = Some l ∧ NoDup l ∧
    ∀ p, p ∈ l ↔ ∃ e, entries s !! p = Some e ∧ sel p e = true) ∧
  (∀ prefix sub, ∃ l, partialEnumerate prefix sub s = Some l ∧ NoDup l ∧
    ∀ x, x ∈ l ↔ ∃ p e ex, entries s !! p = Some e ∧ e_name e = prefix ∧ reach (entries s) sub p x ∧
      entries s !! x = Some ex ∧ (sub x ex).1 = true).
Proof.
  intros Hs. split; [intros sel; apply fullEnumerate_elem; apply Hs|]. intros prefix sub. by apply partialEnumerate_elem.
Qed.
End IteratorCorrect.

Lemma enumeration_complete_witness :
  ∃ l, fullEnumerate tree0 (λ _ e, bool_decide (e_name e ≠ [])) = Some l ∧ NoDup l ∧
    ∀ p, p ∈ l ↔ ∃ e, entries tree0 !! p = Some e ∧ bool_decide (e_name e ≠ []) = true.
Proof. exact (proj1 (enumeration_complete tree0 tree0_inv) (λ _ e, bool_decide (e_name e ≠ []))). Defined.
