(* ===== verification/Tables.v ===== *)
(** * The tables that share the name tree

    FIB, PIT, Measurements and Strategy Choice attach their entries to name tree
    entries.  This file holds the state they share, the member functions of
    [name_tree::Entry] that work on PIT entries
    ([src/daemon/table/name-tree-entry.cpp]), and the views through which each
    table is specified: [view f E] is the finite map from the address of a name
    tree entry to the table entry that [f] reads from it, with its name. *)

From Stdlib Require Import ZArith Lia.
From stdpp Require Import base gmap option list.
From S2P Require Import Prelude Scheduler CityHash Ndn FibEntry PitEntry NameTreeEntry Hashtable NameTree.

(** The events of the tables name the object their callback works on. *)
Inductive Event :=
  | PitExpiry (pitEntry : ptr)
  | MeasurementsCleanup (nte : ptr).

#[export] Instance Event_eqdec : EqDecision Event.
Proof. solve_decision. Defined.

(** ** The shared state *)

Section Tables.
Context {N : NdnCxx} {SC : Scheduler}.

Record Tables := mkTables {
  t_nt : Hashtable;                (* NameTree *)
  t_pits : gmap ptr PitEntry;      (* every pit::Entry object *)
  t_fibItems : Z;                  (* Fib::m_nItems *)
  t_pitItems : Z;                  (* Pit::m_nItems *)
  t_measItems : Z;                 (* Measurements::m_nItems *)
  t_scItems : Z;                   (* StrategyChoice::m_nItems *)
  t_sched : SchedState Event;
  t_now : Z;                       (* steady_clock::now() *)
}.

Definition set_nt (x : Hashtable) (s : Tables) : Tables :=
  mkTables x (t_pits s) (t_fibItems s) (t_pitItems s) (t_measItems s) (t_scItems s) (t_sched s) (t_now s).
Definition set_pits (x : gmap ptr PitEntry) (s : Tables) : Tables :=
  mkTables (t_nt s) x (t_fibItems s) (t_pitItems s) (t_measItems s) (t_scItems s) (t_sched s) (t_now s).
Definition set_fibItems (x : Z) (s : Tables) : Tables :=
  mkTables (t_nt s) (t_pits s) x (t_pitItems s) (t_measItems s) (t_scItems s) (t_sched s) (t_now s).
Definition set_pitItems (x : Z) (s : Tables) : Tables :=
  mkTables (t_nt s) (t_pits s) (t_fibItems s) x (t_measItems s) (t_scItems s) (t_sched s) (t_now s).
Definition set_measItems (x : Z) (s : Tables) : Tables :=
  mkTables (t_nt s) (t_pits s) (t_fibItems s) (t_pitItems s) x (t_scItems s) (t_sched s) (t_now s).
Definition set_scItems (x : Z) (s : Tables) : Tables :=
  mkTables (t_nt s) (t_pits s) (t_fibItems s) (t_pitItems s) (t_measItems s) x (t_sched s) (t_now s).
Definition set_sched (x : SchedState Event) (s : Tables) : Tables :=
  mkTables (t_nt s) (t_pits s) (t_fibItems s) (t_pitItems s) (t_measItems s) (t_scItems s) x (t_now s).
Definition set_now (x : Z) (s : Tables) : Tables :=
  mkTables (t_nt s) (t_pits s) (t_fibItems s) (t_pitItems s) (t_measItems s) (t_scItems s) (t_sched s) x.

(** [size_t] counters wrap. *)
Definition size_t (n : Z) : Z := n mod 2 ^ 64.

Definition nt {A} (m : M Hashtable A) : M Tables A := lift t_nt set_nt m.

Definition derefPit (x : ptr) : M Tables PitEntry := s ← get_st; someM (t_pits s !! x).
Definition updatePit (x : ptr) (f : PitEntry → PitEntry) : M Tables unit :=
  pe ← derefPit x; modify (λ s, set_pits (<[x := f pe]> (t_pits s)) s).

(** [Entry::insertPitEntry] *)
Definition insertPitEntry (this pitEntry : ptr) : M Tables unit :=
  pe ← derefPit pitEntry;
  assertM (bool_decide (pe_nameTreeEntry pe = None));;
  nt (updateEntry this (λ e, set_e_pitEntries (e_pitEntries e ++ [pitEntry]) e));;
  updatePit pitEntry (set_nameTreeEntry (Some this)).

(** [*it = m_pitEntries.back(); m_pitEntries.pop_back();] *)
Definition replace_with_back {A} (i : nat) (l : list A) : option (list A) :=
  b ← last l;
  Some (take (length l - 1) (<[i := b]> l)).

(** [Entry::erasePitEntry] *)
Definition erasePitEntry (this pitEntry : ptr) : M Tables unit :=
  pe ← derefPit pitEntry;
  assertM (bool_decide (pe_nameTreeEntry pe = Some this));;
  e ← nt (derefEntry this);
  it ← someM (fst <$> list_find (λ q, q = pitEntry) (e_pitEntries e));
  updatePit pitEntry (set_nameTreeEntry None);;
  l ← someM (replace_with_back it (e_pitEntries e));
  nt (updateEntry this (set_e_pitEntries l)).
End Tables.

Arguments Tables {N SC}.

(** ** Views *)

Section Views.
Context {N : NdnCxx}.
Implicit Types (E : gmap ptr Entry) (e : Entry) (p q : ptr) (n name : Name).

Definition view {A} (f : Entry → option A) E : gmap ptr (Name * A) :=
  omap (λ e, pair (e_name e) <$> f e) E.

Definition fibF e : option FibEntry := e_fibEntry e.
Definition pitF e : option (list ptr) := match e_pitEntries e with [] => None | l => Some l end.
Definition measF e : option MeasurementsEntry := e_measurementsEntry e.
Definition scF e : option StrategyChoiceEntry := e_strategyChoiceEntry e.

(** A field of the tables does not depend on the links of the entry, and its
    presence keeps the entry in the tree. *)
Class TableField {A} (f : Entry → option A) : Prop := {
  field_strip : ∀ e, f (strip e) = f e;
  field_present : ∀ e, hasTableEntries e = false → f e = None;
}.

#[export] Instance fibF_field : TableField fibF.
Proof. split; [done|]. intros e. unfold hasTableEntries, fibF. by destruct (e_fibEntry e). Qed.
#[export] Instance pitF_field : TableField pitF.
Proof.
  split; [done|]. intros e. unfold hasTableEntries, pitF.
  destruct (e_fibEntry e), (e_pitEntries e); done.
Qed.
#[export] Instance measF_field : TableField measF.
Proof.
  split; [done|]. intros e. unfold hasTableEntries, measF.
  destruct (e_fibEntry e), (e_pitEntries e), (e_measurementsEntry e); done.
Qed.
#[export] Instance scF_field : TableField scF.
Proof.
  split; [done|]. intros e. unfold hasTableEntries, scF.
  destruct (e_fibEntry e), (e_pitEntries e), (e_measurementsEntry e), (e_strategyChoiceEntry e); done.
Qed.

Lemma view_lookup {A} (f : Entry → option A) E p n a :
  view f E !! p = Some (n, a) ↔ ∃ e, E !! p = Some e ∧ e_name e = n ∧ f e = Some a.
Proof.
  unfold view. rewrite lookup_omap, bind_Some. split.
  - intros (e & He & (b & Hb & [= -> ->])%fmap_Some). eauto.
  - intros (e & He & <- & Hf). exists e. by rewrite Hf.
Qed.

Lemma view_attached {A} (f : Entry → option A) `{!TableField f} E :
  view f E = view f (attached E).
Proof.
  apply map_eq. intros p. apply option_eq. intros [n a]. rewrite !view_lookup. setoid_rewrite attached_lookup.
  split.
  - intros (e & He & Hn & Hf). exists (strip e). rewrite field_strip. split; [|done]. exists e.
    split; [done|]. split; [|done]. destruct (hasTableEntries e) eqn:Ht; [done|].
    rewrite (field_present e Ht) in Hf. done.
  - intros (e' & (e & He & Ht & ->) & Hn & Hf). exists e. by rewrite field_strip in Hf.
Qed.

Lemma view_same {A} (f : Entry → option A) `{!TableField f} E E' :
  attached E' = attached E → view f E' = view f E.
Proof. intros Ha. by rewrite (view_attached f E'), Ha, <- view_attached. Qed.

Lemma view_insert {A} (f : Entry → option A) E p e' :
  view f (<[p := e']> E) =
    match f e' with Some a => <[p := (e_name e', a)]> (view f E) | None => delete p (view f E) end.
Proof.
  unfold view. rewrite omap_insert. by destruct (f e').
Qed.

Lemma view_insert_same {A} (f : Entry → option A) E p e e' :
  E !! p = Some e → e_name e' = e_name e → f e' = f e → view f (<[p := e']> E) = view f E.
Proof.
  intros He Hn Hf. apply map_eq. intros q. apply option_eq. intros [n a]. rewrite !view_lookup.
  setoid_rewrite lookup_insert_Some. split.
  - intros (e1 & [[<- <-]|[Hq He1]] & Hn1 & Hf1); [|by eauto].
    exists e. split; [done|]. by rewrite <- Hn, <- Hf.
  - intros (e1 & He1 & Hn1 & Hf1). destruct (decide (p = q)) as [->|]; [|by eauto 10].
    simplify_eq. exists e'. split; [by left|]. by rewrite Hn, Hf.
Qed.

(** The entry of a name in a view, and the longest prefix match in it. *)
Definition atName {A} (V : gmap ptr (Name * A)) n : option (ptr * A) :=
  (λ x, (x.1, x.2.2)) <$> List.find (λ x, bool_decide (x.2.1 = n)) (map_to_list V).

Fixpoint lpmV_from {A} (V : gmap ptr (Name * A)) name (i : nat) : option (ptr * A) :=
  match atName V (take i name) with
  | Some r => Some r
  | None => match i with O => None | S i' => lpmV_from V name i' end
  end.

Definition lpmV {A} (V : gmap ptr (Name * A)) name : option (ptr * A) := lpmV_from V name (length name).

(** Names identify entries. *)
Definition uniqueV {A} (V : gmap ptr (Name * A)) : Prop :=
  ∀ p q n a b, V !! p = Some (n, a) → V !! q = Some (n, b) → p = q.

Lemma atName_Some {A} (V : gmap ptr (Name * A)) n p a :
  uniqueV V → atName V n = Some (p, a) ↔ V !! p = Some (n, a).
Proof.
  intros Hu. unfold atName. rewrite fmap_Some. split.
  - intros ([q [n' b]] & [Hx Hn]%find_some_elem & [= -> ->]). apply elem_of_map_to_list in Hx.
    apply bool_decide_eq_true in Hn. simpl in Hn. by subst.
  - intros Hp. destruct (List.find _ _) as [[q [n' b]]|] eqn:Hf.
    + apply find_some_elem in Hf as [Hx Hn]. apply elem_of_map_to_list in Hx.
      apply bool_decide_eq_true in Hn. simpl in Hn. subst n'.
      assert (q = p) as -> by (by eapply Hu). simplify_eq. by eexists.
    + rewrite find_none_iff in Hf. specialize (Hf (p, (n, a))). rewrite elem_of_map_to_list in Hf.
      specialize (Hf Hp). by rewrite bool_decide_eq_true_2 in Hf.
Qed.

Lemma atName_None {A} (V : gmap ptr (Name * A)) n : atName V n = None ↔ ∀ p a, V !! p ≠ Some (n, a).
Proof.
  unfold atName. rewrite fmap_None, find_none_iff. split.
  - intros H p a Hp. specialize (H (p, (n, a))). rewrite elem_of_map_to_list in H.
    specialize (H Hp). by rewrite bool_decide_eq_true_2 in H.
  - intros H [p [n' a]] Hp%elem_of_map_to_list. apply bool_decide_eq_false. simpl. intros ->. by eapply H.
Qed.

Lemma view_unique {A} (f : Entry → option A) E : TreeInv E → uniqueV (view f E).
Proof.
  intros Ht p q n a b (e & He & Hn & _)%view_lookup (e' & He' & Hn' & _)%view_lookup.
  eapply (ti_names _ Ht); [done..|congruence].
Qed.

Lemma atName_view {A} (f : Entry → option A) E n :
  TreeInv E → atName (view f E) n = '(p, e) ← find_name E n; pair p <$> f e.
Proof.
  intros Ht. apply option_eq. intros [p a]. rewrite atName_Some by (by apply view_unique).
  rewrite view_lookup, bind_Some. split.
  - intros (e & He & Hn & Hf). exists (p, e). rewrite find_name_Some by done. by rewrite Hf.
  - intros ([q e] & [He Hn]%find_name_Some & (b & Hf & [= <- <-])%fmap_Some); [|done]. eauto.
Qed.

(** The longest prefix match: the entry of the longest name that is a prefix. *)
Lemma lpmV_from_Some {A} (V : gmap ptr (Name * A)) name i p a :
  uniqueV V → i ≤ length name → lpmV_from V name i = Some (p, a) ↔
  ∃ n, V !! p = Some (n, a) ∧ n `prefix_of` name ∧ length n ≤ i ∧
    ∀ q m b, V !! q = Some (m, b) → m `prefix_of` name → length m ≤ i → length m ≤ length n.
Proof.
  intros Hu. revert p a. induction i as [|i IH]; intros p a Hi; cbn [lpmV_from];
    (destruct (atName V (take _ name)) as [[q b]|] eqn:Ha;
      [apply atName_Some in Ha; [|done]|pose proof (proj1 (atName_None _ _) Ha) as Hno]).
  - rewrite take_0 in Ha. split.
    + intros [= -> ->]. exists []. split_and!; [done|apply prefix_nil|done|]. simpl. auto.
    + intros (n & Hp & Hpre & Hn & _). destruct n; [|simpl in Hn; lia].
      assert (q = p) as -> by (by eapply Hu). by simplify_eq.
  - split; [done|]. intros (n & Hp & Hpre & Hn & _). destruct n; [|simpl in Hn; lia]. by destruct (Hno p a).
  - split.
    + intros [= -> ->]. exists (take (S i) name). rewrite length_take, Nat.min_l by done.
      split_and!; [done|apply prefix_take|done|auto].
    + intros (n & Hp & Hpre & Hn & Hmax). specialize (Hmax _ _ _ Ha (prefix_take _ _)).
      rewrite length_take, Nat.min_l in Hmax by done. assert (n = take (S i) name) as ->.
      { destruct Hpre as [k ->]. rewrite take_app_le by lia. by rewrite take_ge by lia. }
      assert (q = p) as -> by (by eapply Hu). by simplify_eq.
  - rewrite IH by lia. assert (Hlt : ∀ q m b, V !! q = Some (m, b) → m `prefix_of` name → length m ≤ S i → length m ≤ i).
    { intros q m b Hq [k ->] Hm. destruct (decide (length m = S i)) as [Hl|]; [|lia].
      destruct (Hno q b). rewrite <- Hl, take_app_length. done. }
    split; intros (n & Hp & Hpre & Hn & Hmax); exists n; split_and!; eauto.
Qed.

Lemma lpmV_Some {A} (V : gmap ptr (Name * A)) name p a :
  uniqueV V → lpmV V name = Some (p, a) ↔
  ∃ n, V !! p = Some (n, a) ∧ n `prefix_of` name ∧
    ∀ q m b, V !! q = Some (m, b) → m `prefix_of` name → length m ≤ length n.
Proof.
  intros Hu. unfold lpmV. rewrite lpmV_from_Some by done. split; intros (n & Hp & Hpre & H).
  - destruct H as [Hl Hmax]. exists n. split_and!; [done..|]. intros q m b Hq Hm. apply (Hmax q m b Hq Hm).
    by apply prefix_length.
  - exists n. split_and!; [done|done|by apply prefix_length|eauto].
Qed.

Lemma lpmV_None {A} (V : gmap ptr (Name * A)) name :
  lpmV V name = None ↔ ∀ q m b, V !! q = Some (m, b) → ¬ m `prefix_of` name.
Proof.
  assert (H : ∀ i, i ≤ length name → lpmV_from V name i = None ↔
    ∀ q m b, V !! q = Some (m, b) → m `prefix_of` name → i < length m).
  { intros i. induction i as [|i IH]; intros Hi; cbn [lpmV_from];
      (destruct (atName V (take _ name)) as [[q b]|] eqn:Ha; [|rewrite atName_None in Ha]).
    - unfold atName in Ha. apply fmap_Some in Ha as ([q' [m b']] & [Hx%elem_of_map_to_list Hn%bool_decide_eq_true]%find_some_elem & _).
      simpl in Hn. subst m. split; [done|]. intros H. specialize (H _ _ _ Hx (prefix_take _ _)). simpl in H. lia.
    - split; [|done]. intros _ q m b Hq Hpre. destruct m; [|simpl; lia]. by destruct (Ha q b).
    - unfold atName in Ha. apply fmap_Some in Ha as ([q' [m b']] & [Hx%elem_of_map_to_list Hn%bool_decide_eq_true]%find_some_elem & _).
      simpl in Hn. subst m. split; [done|]. intros H. specialize (H _ _ _ Hx (prefix_take _ _)).
      rewrite length_take in H. lia.
    - rewrite IH by lia. split; intros H q m b Hq Hpre; specialize (H q m b Hq Hpre); [|lia].
      destruct (decide (length m = S i)) as [Hl|]; [|lia]. destruct Hpre as [k ->].
      destruct (Ha q b). by rewrite <- Hl, take_app_length. }
  unfold lpmV. rewrite H by done. split; intros H' q m b Hq; [intros Hpre|intros Hpre].
  - specialize (H' _ _ _ Hq Hpre). apply prefix_length in Hpre. lia.
  - by destruct (H' q m b).
Qed.

(** The selector of a table field. *)
Definition has {A} (f : Entry → option A) : EntrySelector := λ _ e, bool_decide (is_Some (f e)).

Lemma lpmV_from_max {A} (V : gmap ptr (Name * A)) name d j :
  (∀ p n a, V !! p = Some (n, a) → length n ≤ d) → j ≤ length name → d ≤ j →
  lpmV_from V name j = lpmV_from V name d.
Proof.
  intros Hmax Hj Hd. induction Hd as [|j Hd IH]; [done|]. cbn [lpmV_from].
  destruct (atName V (take (S j) name)) as [[p a]|] eqn:Ha; [|apply IH; lia].
  exfalso. assert (Hn : ∃ q b, V !! q = Some (take (S j) name, b)).
  { unfold atName in Ha. apply fmap_Some in Ha as ([q [n' b]] & [Hx Hn]%find_some_elem & _).
    apply elem_of_map_to_list in Hx. apply bool_decide_eq_true in Hn. simpl in Hn. subst. eauto. }
  destruct Hn as (q & b & Hq%Hmax). rewrite length_take in Hq. lia.
Qed.

Lemma lpm_view {A} (f : Entry → option A) E name :
  TreeInv E → lpm E (has f) name = fst <$> lpmV (view f E) name.
Proof.
  intros Ht. unfold lpm, lpmV.
  assert (Hfrom : ∀ i, lpm_from E (has f) name i = fst <$> lpmV_from (view f E) name i).
  { intros i. induction i as [|i IH]; cbn [lpm_from lpmV_from]; rewrite (atName_view f E _ Ht);
      destruct (find_name E _) as [[p e]|]; cbn; unfold has; try done.
    - by destruct (f e).
    - destruct (f e); cbn; done. }
  rewrite Hfrom. f_equal. destruct (Nat.min_spec (length name) getMaxDepth) as [[H ->]|[H ->]]; [done|].
  symmetry. apply lpmV_from_max; [|done|done]. intros p n a (e & He & <- & _)%view_lookup. by eapply ti_depth.
Qed.
End Views.

(** ** What each table owns, and the invariant of the whole *)

Section TablesInv.
Context {N : NdnCxx} {SC : Scheduler}.
Implicit Types (s : Tables) (p x : ptr) (n name : Name).

Definition ents s : gmap ptr Entry := entries (t_nt s).
Definition fibV s : gmap ptr (Name * FibEntry) := view fibF (ents s).
Definition pitV s : gmap ptr (Name * list ptr) := view pitF (ents s).
Definition measV s : gmap ptr (Name * MeasurementsEntry) := view measF (ents s).
Definition scV s : gmap ptr (Name * StrategyChoiceEntry) := view scF (ents s).

(** The state of each table; the operations of one leave the others alone. *)
Definition fibPart s := (fibV s, t_fibItems s).
Definition pitPart s := (pitV s, t_pits s, t_pitItems s).
Definition measPart s := (measV s, t_measItems s, t_sched s).
Definition scPart s := (scV s, t_scItems s).

(** The depth at which a PIT entry is attached. *)
Definition hasDigest name : bool := bool_decide (0 < length name) && lastIs isImplicitSha256Digest name.
Definition pitDepth name : nat := Nat.min (length name - (if hasDigest name then 1 else 0)) getMaxDepth.

Definition isAttached (pe : PitEntry) : Prop := is_Some (pe_nameTreeEntry pe).
#[export] Instance isAttached_dec pe : Decision (isAttached pe).
Proof. unfold isAttached. apply _. Defined.

(** The PIT entry is attached to one of the name tree entries [l]. *)
Definition attachedIn (l : list ptr) (pe : PitEntry) : Prop := ∃ p, pe_nameTreeEntry pe = Some p ∧ p ∈ l.
#[export] Instance attachedIn_dec l pe : Decision (attachedIn l pe).
Proof.
  unfold attachedIn. destruct (pe_nameTreeEntry pe) as [p|].
  - destruct (decide (p ∈ l)); [left; by exists p|right; by intros (q & [= ->] & ?)].
  - right. by intros (q & ? & _).
Defined.

Record FibInv s : Prop := {
  fi_entry : ∀ p n fe, fibV s !! p = Some (n, fe) → fe_prefix fe = n ∧ FibEntry_wf fe;
  fi_items : t_fibItems s = size_t (Z.of_nat (size (fibV s)));
}.

Record PitInv s : Prop := {
  pi_fwd : ∀ p n l x, pitV s !! p = Some (n, l) → x ∈ l →
    ∃ pe, t_pits s !! x = Some pe ∧ pe_nameTreeEntry pe = Some p ∧ n = take (pitDepth (pe_name pe)) (pe_name pe);
  pi_back : ∀ x pe p, t_pits s !! x = Some pe → pe_nameTreeEntry pe = Some p →
    ∃ n l, pitV s !! p = Some (n, l) ∧ x ∈ l;
  pi_nodup : ∀ p n l, pitV s !! p = Some (n, l) → NoDup l;
  pi_unique : ∀ x y pe pe', t_pits s !! x = Some pe → t_pits s !! y = Some pe' →
    isAttached pe → isAttached pe' → pe_name pe = pe_name pe' →
    i_canBePrefix (pe_interest pe) = i_canBePrefix (pe_interest pe') →
    i_mustBeFresh (pe_interest pe) = i_mustBeFresh (pe_interest pe') → x = y;
  pi_wf : ∀ x pe, t_pits s !! x = Some pe → PitEntry_wf pe;
  pi_items : t_pitItems s =
    size_t (Z.of_nat (size (filter (λ kv, isAttached kv.2) (t_pits s))));
}.

(** Every Measurements entry has its cleanup event, due at its expiry, and every
    cleanup event has its entry. *)
Record MeasInv s : Prop := {
  mi_entry : ∀ p n me, measV s !! p = Some (n, me) → me_name me = n ∧
    ∃ i, me_cleanup me = Some i ∧ sched_pending (t_sched s) !! i = Some (me_expiry me, MeasurementsCleanup p);
  mi_event : ∀ i t p, sched_pending (t_sched s) !! i = Some (t, MeasurementsCleanup p) →
    ∃ n me, measV s !! p = Some (n, me) ∧ me_cleanup me = Some i;
  mi_items : t_measItems s = size_t (Z.of_nat (size (measV s)));
}.

Record ScInv s : Prop := {
  sci_entry : ∀ p n sc, scV s !! p = Some (n, sc) → sc_prefix sc = n ∧ is_Some (sc_strategy sc);
  sci_items : t_scItems s = size_t (Z.of_nat (size (scV s)));
}.

Record TablesInv s : Prop := {
  tbi_nt : NtInv (t_nt s);
  tbi_fib : FibInv s;
  tbi_pit : PitInv s;
  tbi_meas : MeasInv s;
  tbi_sc : ScInv s;
}.

Lemma FibInv_part s s' : fibPart s' = fibPart s → FibInv s → FibInv s'.
Proof. unfold fibPart. intros [= E1 E2] [H1 H2]. split; rewrite ?E1, ?E2; done. Qed.

Lemma PitInv_part s s' : pitPart s' = pitPart s → PitInv s → PitInv s'.
Proof. unfold pitPart. intros [= E1 E2 E3] [H1 H2 H3 H4 H5 H6]. split; rewrite ?E1, ?E2, ?E3; done. Qed.

Lemma MeasInv_part s s' : measPart s' = measPart s → MeasInv s → MeasInv s'.
Proof. unfold measPart. intros [= E1 E2 E3] [H1 H2 H3]. split; rewrite ?E1, ?E2, ?E3; done. Qed.

Lemma ScInv_part s s' : scPart s' = scPart s → ScInv s → ScInv s'.
Proof. unfold scPart. intros [= E1 E2] [H1 H2]. split; rewrite ?E1, ?E2; done. Qed.

(** A change of the tree that keeps what is attached. *)
Definition sameTables s s' : Prop :=
  fibPart s' = fibPart s ∧ pitPart s' = pitPart s ∧ measPart s' = measPart s ∧ scPart s' = scPart s ∧
  t_now s' = t_now s.

Lemma sameTables_refl s : sameTables s s.
Proof. done. Qed.

Lemma sameTables_trans s1 s2 s3 : sameTables s1 s2 → sameTables s2 s3 → sameTables s1 s3.
Proof. unfold sameTables. intuition congruence. Qed.

Lemma sameTables_attached s t : attached (entries t) = attached (ents s) → sameTables s (set_nt t s).
Proof.
  intros Ha. unfold sameTables, fibPart, pitPart, measPart, scPart, fibV, pitV, measV, scV, ents. simpl.
  by rewrite !(view_same _ (entries (t_nt s)) (entries t)).
Qed.

Lemma TablesInv_same s s' : TablesInv s → NtInv (t_nt s') → sameTables s s' → TablesInv s'.
Proof.
  intros [H1 H2 H3 H4 H5] Hnt (E1 & E2 & E3 & E4 & _). split; [done|..].
  - by eapply FibInv_part.
  - by eapply PitInv_part.
  - by eapply MeasInv_part.
  - by eapply ScInv_part.
Qed.
End TablesInv.

(** Run the name tree part of a goal. *)
Ltac wp_nt := unfold nt at 1; apply wp_lift.

(** ** The name tree operations on the whole state *)

Section OnTables.
Context {N : NdnCxx} {NL : NdnCxxLaws N} {SC : Scheduler}.
Implicit Types (s : Tables) (p x : ptr) (name : Name) (E : gmap ptr Entry).

(** A change of the attached entries only. *)
Definition same_links (e e' : Entry) : Prop :=
  e_name e' = e_name e ∧ e_parent e' = e_parent e ∧ e_children e' = e_children e.

Lemma TreeInv_update E p e e' :
  TreeInv E → E !! p = Some e → same_links e e' → TreeInv (<[p := e']> E).
Proof.
  intros Ht Hp (Hn & Hpar & Hch).
  assert (Hcase : ∀ q e1, <[p := e']> E !! q = Some e1 → ∃ e0, E !! q = Some e0 ∧ same_links e0 e1).
  { intros q e1. rewrite lookup_insert_Some. intros [[<- <-]|[_ ?]]; [by exists e|by exists e1]. }
  assert (Hback : ∀ q e0, E !! q = Some e0 → ∃ e1, <[p := e']> E !! q = Some e1 ∧ same_links e0 e1).
  { intros q e0 He0. destruct (decide (p = q)) as [->|Hne].
    - exists e'. rewrite lookup_insert_eq. by simplify_eq.
    - exists e0. by rewrite lookup_insert_ne. }
  split.
  - intros q r e1 e2 (e3 & He3 & Hn3 & _)%Hcase (e4 & He4 & Hn4 & _)%Hcase Heq.
    eapply (ti_names _ Ht); [done..|congruence].
  - intros q e1 (e3 & He3 & -> & _)%Hcase. by eapply ti_depth.
  - intros q e1 (e3 & He3 & -> & -> & _)%Hcase. apply (ti_parent _ Ht) in He3.
    destruct (e_parent e3) as [r|]; [|done]. destruct He3 as (Hne & e4 & He4 & Hn4 & Hc4). split; [done|].
    destruct (Hback _ _ He4) as (e5 & He5 & Hn5 & _ & Hc5). exists e5. by rewrite Hn5, Hc5.
  - intros q e1 r (e3 & He3 & _ & _ & ->)%Hcase Hin. destruct (ti_children _ Ht _ _ _ He3 Hin) as (e4 & He4 & Hp4).
    destruct (Hback _ _ He4) as (e5 & He5 & _ & Hp5 & _). exists e5. by rewrite Hp5.
  - intros q e1 (e3 & He3 & _ & _ & ->)%Hcase. by eapply ti_nodup.
Qed.

Lemma wp_nt_eq {A} (m : M Hashtable A) Q s : wp (nt m) Q s ↔ wp m (λ a t, Q a (set_nt t s)) (t_nt s).
Proof. apply wp_lift. Qed.

Lemma nt_update p f e s :
  NtInv (t_nt s) → ents s !! p = Some e → same_links e (f e) →
  wp (nt (updateEntry p f)) (λ _ s', s' = set_nt (t_nt s') s ∧ NtInv (t_nt s') ∧ ents s' = <[p := f e]> (ents s)) s.
Proof.
  intros [Hh Ht] Hp Hf. apply wp_nt_eq. eapply wp_mono; [apply updateEntry_spec; [done..|apply Hf]|].
  intros _ t [Ht' E']. split; [done|]. split; [|done]. split; [done|]. simpl. rewrite E'. by eapply TreeInv_update.
Qed.

Lemma nt_lookup name k s :
  TablesInv s → k ≤ length name → k ≤ getMaxDepth →
  wp (nt (NameTree_lookup name k)) (λ p s', TablesInv s' ∧ sameTables s s' ∧
    (∃ e, ents s' !! p = Some e ∧ e_name e = take k name) ∧ extends (ents s) (ents s') ∧
    (tidy (ents s) → tidyBut p (ents s'))) s.
Proof.
  intros Hs Hk Hd. apply wp_nt_eq. eapply wp_mono; [apply lookup_spec; [apply Hs|done..]|].
  intros p t (Ht & (e & He & Hn) & Hext & Hnames).
  pose proof (sameTables_attached s t (extends_attached _ _ Hext)) as Hsame.
  split; [by eapply TablesInv_same|]. split; [done|]. split; [eauto|]. split; [done|].
  by eapply tidy_lookup; [apply Hs|apply Ht|..].
Qed.

Lemma nt_eraseIfEmpty p can s :
  TablesInv s → is_Some (ents s !! p) →
  wp (nt (eraseIfEmpty p can)) (λ _ s', TablesInv s' ∧ sameTables s s' ∧
    (can = true → tidyBut p (ents s) → tidy (ents s'))) s.
Proof.
  intros Hs [e He]. apply wp_nt_eq. eapply wp_mono; [by apply eraseIfEmpty_spec; [apply Hs|]|].
  intros k t (Ht & [Hpr _] & _ & _ & _ & Htidy). pose proof (sameTables_attached s t Hpr) as Hsame.
  split; [by eapply TablesInv_same|]. split; done.
Qed.

Lemma nt_derefEntry p Q s :
  wp (nt (derefEntry p)) Q s ↔ ∃ e, ents s !! p = Some e ∧ Q e (set_nt (t_nt s) s).
Proof. rewrite wp_nt_eq, wp_derefEntry. done. Qed.

Lemma set_nt_same s : set_nt (t_nt s) s = s.
Proof. by destruct s. Qed.

(** Commands that only read the tree. *)
Lemma nt_reads {A} (m : M Hashtable A) (P : A → Prop) Q s :
  wp m (λ a t, t = t_nt s ∧ P a) (t_nt s) → (∀ a, P a → Q a s) → wp (nt m) Q s.
Proof.
  intros Hm HQ. apply wp_nt_eq. eapply wp_mono; [exact Hm|]. intros a t [-> Ha]. rewrite set_nt_same. auto.
Qed.

Lemma nt_findExactMatch name k Q s :
  NtInv (t_nt s) → Q (fst <$> find_name (ents s) (take k name)) s →
  wp (nt (NameTree_findExactMatch name k)) Q s.
Proof.
  intros Hs HQ. eapply nt_reads; [by apply findExactMatch_spec|]. by intros r ->.
Qed.

Lemma nt_lpm {A} (f : Entry → option A) name Q s :
  NtInv (t_nt s) → Q (fst <$> lpmV (view f (ents s)) name) s →
  wp (nt (findLongestPrefixMatch name (has f))) Q s.
Proof.
  intros Hs HQ. eapply nt_reads; [by apply findLongestPrefixMatch_spec|].
  intros r ->. rewrite lpm_view by apply Hs. done.
Qed.

Lemma nt_lpm_entry {A} (f : Entry → option A) p e Q s :
  NtInv (t_nt s) → ents s !! p = Some e → Q (fst <$> lpmV (view f (ents s)) (e_name e)) s →
  wp (nt (findLongestPrefixMatch_entry p (has f))) Q s.
Proof.
  intros Hs Hp HQ. eapply nt_reads; [by apply findLongestPrefixMatch_entry_spec|].
  intros r ->. rewrite lpm_view by apply Hs. done.
Qed.

Lemma PitInv_attached x pe s :
  PitInv s → t_pits s !! x = Some pe → isAttached pe → pit_attached (ents s) pe.
Proof.
  intros Hs Hx [p Hp]. destruct (pi_back _ Hs _ _ _ Hx Hp) as (n & l & Hv & Hin).
  destruct (pi_fwd _ Hs _ _ _ _ Hv Hin) as (pe' & Hx' & _ & Hn). simplify_eq.
  apply view_lookup in Hv as (e & He & Hn & _). exists p, e. eauto.
Qed.

Lemma nt_lpm_pit {A} (f : Entry → option A) x pe Q s :
  TablesInv s → t_pits s !! x = Some pe → isAttached pe →
  Q (fst <$> lpmV (view f (ents s)) (pe_name pe)) s →
  wp (nt (findLongestPrefixMatch_pit pe (has f))) Q s.
Proof.
  intros Hs Hx Ha HQ. eapply nt_reads.
  - apply findLongestPrefixMatch_pit_spec; [apply Hs|]. eapply PitInv_attached; [apply Hs|done..].
  - intros r ->. rewrite lpm_view by apply Hs. done.
Qed.

Lemma wp_derefPit x Q s : wp (derefPit x) Q s ↔ ∃ pe, t_pits s !! x = Some pe ∧ Q pe s.
Proof. unfold derefPit. rewrite wp_bind, wp_get_st, wp_someM. done. Qed.

Lemma wp_updatePit x f Q s :
  wp (updatePit x f) Q s ↔
  ∃ pe, t_pits s !! x = Some pe ∧ Q tt (set_pits (<[x := f pe]> (t_pits s)) s).
Proof. unfold updatePit. rewrite wp_bind, wp_derefPit. done. Qed.

(** A loop that updates each of some PIT entries. *)
Lemma updatePits_loop (body : ptr → M Tables unit) (f : PitEntry → PitEntry) (l : list ptr) s :
  (∀ x s pe, t_pits s !! x = Some pe → wp (body x) (λ _ s', s' = set_pits (<[x := f pe]> (t_pits s)) s) s) →
  NoDup l → (∀ x, x ∈ l → is_Some (t_pits s !! x)) →
  wp (forM l body) (λ _ s', s' = set_pits (t_pits s') s ∧
    ∀ x, t_pits s' !! x = (λ pe, if decide (x ∈ l) then f pe else pe) <$> t_pits s !! x) s.
Proof.
  intros Hbody. revert s. induction l as [|y l IH]; intros s Hnd Hl; cbn [forM].
  - apply wp_ret. split; [by destruct s|]. intros x. by destruct (t_pits s !! x).
  - apply NoDup_cons in Hnd as [Hy Hnd]. apply wp_bind. destruct (Hl y) as [pe Hpe]; [constructor|].
    eapply wp_mono; [by apply Hbody|]. intros [] s1 ->. eapply wp_mono; [apply IH; [done|]|].
    + intros x Hx. simpl. destruct (decide (y = x)) as [->|]; [rewrite lookup_insert_eq; by eexists|].
      rewrite lookup_insert_ne by done. apply Hl. by constructor.
    + intros _ s' [Hs' Hx']. split; [rewrite Hs'; by destruct s|]. intros x. rewrite Hx'. simpl.
      destruct (decide (y = x)) as [->|Hne].
      * rewrite lookup_insert_eq, Hpe. cbn. rewrite (decide_True (P := x ∈ x :: l)) by constructor.
        by rewrite decide_False.
      * rewrite lookup_insert_ne by done. destruct (t_pits s !! x); [|done]. cbn. f_equal. apply decide_ext.
        rewrite elem_of_cons. naive_solver.
Qed.

Lemma size_t_succ n : size_t (size_t (Z.of_nat n) + 1) = size_t (Z.of_nat (S n)).
Proof. unfold size_t. rewrite Zplus_mod_idemp_l. f_equal. lia. Qed.

Lemma size_t_pred n : size_t (size_t (Z.of_nat (S n)) - 1) = size_t (Z.of_nat n).
Proof. unfold size_t. rewrite Zminus_mod_idemp_l. f_equal. lia. Qed.
End OnTables.

(** ** The tables of a new forwarder *)

Section NewTables.
Context {N : NdnCxx} {SC : Scheduler}.

Definition newTables (nt : Hashtable) (sched : SchedState Event) (now : Z) : Tables :=
  mkTables nt ∅ 0 0 0 0 sched now.

Lemma view_empty {A} (f : Entry → option A) : view f ∅ = ∅.
Proof. unfold view. apply omap_empty. Qed.

Lemma newTables_inv nBuckets nt sched now :
  newNameTree nBuckets = Some nt → sched_pending sched = ∅ →
  TablesInv (newTables nt sched now) ∧ tidy (ents (newTables nt sched now)).
Proof.
  intros Hnt Hsc. destruct (newNameTree_inv _ _ Hnt) as [Hi Ht]. split; [|done].
  assert (HE : ents (newTables nt sched now) = ∅) by (apply newHashtable_spec in Hnt as [_ He]; exact He).
  split; [done|..]; split; unfold fibV, pitV, measV, scV; rewrite ?HE, ?view_empty; cbn;
    rewrite ?Hsc; try done; intros *; rewrite ?lookup_empty; done.
Qed.
End NewTables.

(** Example: empty tables over the concrete components. *)
Definition tables0 : Tables := newTables (N := NatNdn) emptyHashtable emptyScheduler 0.

Lemma tables0_inv : TablesInv tables0 ∧ tidy (ents tables0).
Proof. apply (newTables_inv 2); [vm_compute; reflexivity|reflexivity]. Qed.
