(* ===== verification/Fib.v ===== *)
(** * The FIB

    [src/daemon/table/fib.cpp].  A [fib::Entry*] is the address of the name tree
    entry that owns it; [None] stands for [Fib::s_emptyEntry]. *)

From Stdlib Require Import ZArith Lia.
From stdpp Require Import base gmap option list.
From S2P Require Import Prelude Scheduler CityHash Ndn FibEntry PitEntry NameTreeEntry Hashtable NameTree.
From S2P Require Import NameTreeIterator Tables.

Section Fib.
Context {N : NdnCxx} {SS : StdSort} {SC : Scheduler}.

Definition s_emptyEntry : FibEntry := mkFibEntry [] [].

(** The object behind a reference to a FIB entry. *)
Definition derefFib (ref : option ptr) : M Tables FibEntry :=
  match ref with
  | None => mret s_emptyEntry
  | Some p => e ← nt (derefEntry p); someM (e_fibEntry e)
  end.

(** ** Lookup *)

Definition Fib_findLongestPrefixMatch (prefix : Name) : M Tables (option ptr) :=
  nt (findLongestPrefixMatch prefix (has fibF)).

Definition Fib_findLongestPrefixMatch_pit (pitEntry : ptr) : M Tables (option ptr) :=
  pe ← derefPit pitEntry;
  nt (findLongestPrefixMatch_pit pe (has fibF)).

Definition Fib_findLongestPrefixMatch_meas (nte : ptr) : M Tables (option ptr) :=
  nt (findLongestPrefixMatch_entry nte (has fibF)).

Definition Fib_findExactMatch (prefix : Name) : M Tables (option ptr) :=
  nte ← nt (NameTree_findExactMatch prefix (length prefix));
  match nte with
  | Some p => e ← nt (derefEntry p); mret (_ ← e_fibEntry e; Some p)
  | None => mret None
  end.

(** ** Mutation *)

Definition Fib_insert (prefix : Name) : M Tables (ptr * bool) :=
  nte ← nt (NameTree_lookup prefix (length prefix));
  e ← nt (derefEntry nte);
  match e_fibEntry e with
  | Some _ => mret (nte, false)
  | None =>
      nt (updateEntry nte (setFibEntry (Some (mkFibEntry prefix []))));;
      modify (λ s, set_fibItems (size_t (t_fibItems s + 1)) s);;
      mret (nte, true)
  end.

(** [Fib::erase(name_tree::Entry*, bool)] *)
Definition Fib_erase_nte (nte : ptr) (canDeleteNte : bool) : M Tables unit :=
  nt (updateEntry nte (setFibEntry None));;
  (if canDeleteNte then nt (eraseIfEmpty nte true);; mret tt else mret tt);;
  modify (λ s, set_fibItems (size_t (t_fibItems s - 1)) s).

Definition Fib_erase (prefix : Name) : M Tables unit :=
  nte ← nt (NameTree_findExactMatch prefix (length prefix));
  match nte with
  | Some p => Fib_erase_nte p true
  | None => mret tt
  end.

Definition Fib_erase_entry (entry : option ptr) : M Tables unit :=
  match entry with
  | None => mret tt
  | Some nte => Fib_erase_nte nte true
  end.

(** The result is the argument of the [afterNewNextHop] signal, if emitted. *)
Definition Fib_addOrUpdateNextHop (entry : ptr) (face : FacePtr) (cost : Z)
  : M Tables (option (Name * NextHop)) :=
  e ← nt (derefEntry entry);
  fe ← someM (e_fibEntry e);
  let '(fe', (it, isNew)) := FibEntry_addOrUpdateNextHop fe face cost in
  nt (updateEntry entry (setFibEntry (Some fe')));;
  if isNew : bool then nh ← someM (fe_nextHops fe' !! it); mret (Some (fe_prefix fe', nh))
  else mret None.

Inductive RemoveNextHopResult := NO_SUCH_NEXTHOP | NEXTHOP_REMOVED | FIB_ENTRY_REMOVED.

Definition Fib_removeNextHop (entry : ptr) (face : FacePtr) : M Tables RemoveNextHopResult :=
  e ← nt (derefEntry entry);
  fe ← someM (e_fibEntry e);
  let '(fe', isRemoved) := FibEntry_removeNextHop fe face in
  nt (updateEntry entry (setFibEntry (Some fe')));;
  if negb isRemoved then mret NO_SUCH_NEXTHOP
  else if negb (hasNextHops fe') then
    Fib_erase_nte entry false;;
    mret FIB_ENTRY_REMOVED
  else mret NEXTHOP_REMOVED.

(** ** Enumeration *)
Definition Fib_getRange (s : Tables) : option (list FibEntry) :=
  l ← fullEnumerate (t_nt s) (has fibF);
  mapM (λ p, e ← ents s !! p; e_fibEntry e) l.
End Fib.

(** ** Specifications *)

Section FibSpecs.
Context {N : NdnCxx} {NL : NdnCxxLaws N} {SS : StdSort} {SSL : StdSortLaws SS} {SC : Scheduler}.
Implicit Types (s : Tables) (p : ptr) (prefix name : Name).

(** A FIB operation leaves the other tables alone. *)
Definition fibOnly s s' : Prop :=
  pitPart s' = pitPart s ∧ measPart s' = measPart s ∧ scPart s' = scPart s ∧ t_now s' = t_now s.

Lemma TablesInv_fibOnly s s' :
  TablesInv s → NtInv (t_nt s') → FibInv s' → fibOnly s s' → TablesInv s'.
Proof.
  intros [H1 H2 H3 H4 H5] Hnt Hf (E2 & E3 & E4 & _). split; [done|done|..].
  - by eapply PitInv_part.
  - by eapply MeasInv_part.
  - by eapply ScInv_part.
Qed.

Lemma sameTables_fibOnly s s' : sameTables s s' → fibOnly s s'.
Proof. by intros (_ & ?). Qed.

Lemma fibOnly_trans s1 s2 s3 : fibOnly s1 s2 → fibOnly s2 s3 → fibOnly s1 s3.
Proof. unfold fibOnly. intuition congruence. Qed.

(** Setting the FIB entry of a name tree entry. *)
Lemma nt_setFib p f e s :
  NtInv (t_nt s) → ents s !! p = Some e →
  wp (nt (updateEntry p (setFibEntry f))) (λ _ s', NtInv (t_nt s') ∧ fibOnly s s' ∧
    ents s' !! p = Some (setFibEntry f e) ∧ t_fibItems s' = t_fibItems s ∧
    fibV s' = match f with Some fe => <[p := (e_name e, fe)]> (fibV s) | None => delete p (fibV s) end ∧
    (tidyBut p (ents s) → tidyBut p (ents s')) ∧ ents s' = <[p := setFibEntry f e]> (ents s)) s.
Proof.
  intros Hs Hp. eapply wp_mono; [by apply nt_update|]. intros _ s' (-> & Hnt & E').
  split; [done|]. unfold ents in *. simpl in E' |- *.
  split; [|split; [by rewrite E', lookup_insert_eq|split; [done|split; [|split; [|done]]]]].
  - unfold fibOnly, pitPart, measPart, scPart, pitV, measV, scV, ents. simpl.
    rewrite E', !(view_insert_same _ _ p e) by done. done.
  - unfold fibV, ents. simpl. rewrite E', view_insert. by destruct f.
  - rewrite E'. apply tidyBut_insert.
Qed.

Lemma hasFib_notEmpty e fe : e_fibEntry e = Some fe → isEmpty e = false.
Proof. intros He. apply isEmpty_false. right. unfold hasTableEntries. by rewrite He. Qed.

Lemma fibV_lookup s p n fe : fibV s !! p = Some (n, fe) ↔ ∃ e, ents s !! p = Some e ∧ e_name e = n ∧ e_fibEntry e = Some fe.
Proof. apply view_lookup. Qed.

Lemma fibV_unique s : TablesInv s → uniqueV (fibV s).
Proof. intros Hs. apply view_unique. apply Hs. Qed.

Lemma FibInv_insert s s' p n fe :
  FibInv s → fibV s' = <[p := (n, fe)]> (fibV s) → fe_prefix fe = n → FibEntry_wf fe →
  t_fibItems s' = size_t (Z.of_nat (size (<[p := (n, fe)]> (fibV s)))) → FibInv s'.
Proof.
  intros [H1 _] E Hn Hw Hi. split; [|by rewrite E].
  intros q m fe'. rewrite E, lookup_insert_Some. intros [[<- [= <- <-]]|[_ ?]]; [done|eauto].
Qed.

Lemma FibInv_delete s s' p :
  FibInv s → fibV s' = delete p (fibV s) →
  t_fibItems s' = size_t (Z.of_nat (size (delete p (fibV s)))) → FibInv s'.
Proof.
  intros [H1 _] E Hi. split; [|by rewrite E]. intros q m fe'. rewrite E, lookup_delete_Some. intros [_ ?]. eauto.
Qed.

Lemma newFibEntry_wf prefix : FibEntry_wf (mkFibEntry prefix []).
Proof. split; simpl; constructor. Qed.

Lemma Fib_insert_spec prefix s :
  TablesInv s → length prefix ≤ getMaxDepth →
  wp (Fib_insert prefix) (λ r s', TablesInv s' ∧ fibOnly s s' ∧ (tidy (ents s) → tidy (ents s')) ∧
    match atName (fibV s) prefix with
    | Some (p, _) => r = (p, false) ∧ fibV s' = fibV s
    | None => ∃ p, r = (p, true) ∧ fibV s !! p = None ∧ fibV s' = <[p := (prefix, mkFibEntry prefix [])]> (fibV s)
    end) s.
Proof.
  intros Hs Hd. unfold Fib_insert. wp_step. eapply wp_mono; [by apply nt_lookup|].
  intros p s1 (Hs1 & Hsame & (e & He & Hn) & _ & Htidy). rewrite firstn_all in Hn.
  assert (EV : fibV s1 = fibV s) by (destruct Hsame as ([= ? _] & _); done).
  wp_step. apply nt_derefEntry. exists e. split; [done|]. rewrite set_nt_same.
  pose proof (fibV_unique s Hs) as Hu.
  destruct (e_fibEntry e) as [fe|] eqn:Hfe.
  - wp_step. split; [done|]. split; [by apply sameTables_fibOnly|].
    split; [intros Ht; by eapply (tidyBut_tidy p), hasFib_notEmpty; [apply Htidy| |]|].
    assert (Hv : fibV s !! p = Some (prefix, fe)) by (rewrite <- EV; apply fibV_lookup; eauto).
    rewrite (proj2 (atName_Some _ _ _ _ Hu) Hv). done.
  - assert (Hnone : fibV s1 !! p = None).
    { destruct (fibV s1 !! p) as [[m fe]|] eqn:Hv; [|done]. apply fibV_lookup in Hv as (e' & He' & _ & Hfe').
      congruence. }
    assert (Hat : atName (fibV s) prefix = None).
    { apply atName_None. intros q fe Hq. rewrite <- EV in Hq. apply fibV_lookup in Hq as (e' & He' & Hn' & Hfe').
      assert (q = p) as -> by (eapply (ti_names _ (nti_tree _ (tbi_nt _ Hs1))); [done..|congruence]). congruence. }
    rewrite Hat. wp_step. eapply wp_mono; [apply nt_setFib; [apply Hs1|done]|].
    intros _ s2 (Hnt2 & Ho2 & He2 & Hi2 & EV2 & Hoth). repeat wp_step. rewrite Hn in EV2.
    assert (Ho : fibOnly s1 (set_fibItems (size_t (t_fibItems s2 + 1)) s2)) by done.
    split; [|split; [by eapply fibOnly_trans; [apply sameTables_fibOnly|]|split]].
    + eapply (TablesInv_fibOnly s1); [done|done| |done].
      eapply (FibInv_insert s1 _ p prefix (mkFibEntry prefix [])); [apply Hs1|done|done|apply newFibEntry_wf|].
      simpl. rewrite Hi2, (fi_items _ (tbi_fib _ Hs1)), map_size_insert_None by done. apply size_t_succ.
    + intros Ht. eapply (tidyBut_tidy p); [|done|by eapply hasFib_notEmpty]. by apply Hoth, Htidy.
    + exists p. rewrite <- EV. done.
Qed.

Lemma Fib_erase_nte_spec p n fe can s :
  TablesInv s → fibV s !! p = Some (n, fe) →
  wp (Fib_erase_nte p can) (λ _ s', TablesInv s' ∧ fibOnly s s' ∧ fibV s' = delete p (fibV s) ∧
    (tidyBut p (ents s) → if can then tidy (ents s') else tidyBut p (ents s')) ∧
    (can = false → ∀ e, ents s !! p = Some e → ents s' = <[p := setFibEntry None e]> (ents s))) s.
Proof.
  intros Hs Hv. apply fibV_lookup in Hv as Hv'. destruct Hv' as (e & He & Hn & Hfe). unfold Fib_erase_nte.
  wp_step. eapply wp_mono; [apply nt_setFib; [apply Hs|done]|]. intros _ s1 (Hnt1 & Ho1 & He1 & Hi1 & EV1 & Htb & Hent1).
  assert (Hsz : size (fibV s) = S (size (delete p (fibV s)))).
  { rewrite map_size_delete_Some by (by eexists).
    pose proof (map_size_ne_0_lookup_2 (fibV s) p ltac:(by eexists)). lia. }
  set (fin := λ s', set_fibItems (size_t (t_fibItems s' - 1)) s').
  assert (Hfin : ∀ s2, NtInv (t_nt s2) → sameTables s1 s2 →
    TablesInv (fin s2) ∧ fibOnly s (fin s2) ∧ fibV (fin s2) = delete p (fibV s)).
  { intros s2 Hnt2 (E1 & E2 & E3 & E4 & E5). unfold fibPart in E1. injection E1 as EV2 Hi2.
    assert (Ho : fibOnly s (fin s2)).
    { destruct Ho1 as (O1 & O2 & O3 & O4). unfold fin. split; [etrans; [exact E2|exact O1]|].
      split; [etrans; [exact E3|exact O2]|]. split; [etrans; [exact E4|exact O3]|]. etrans; [exact E5|exact O4]. }
    assert (EV : fibV (fin s2) = delete p (fibV s)) by (etrans; [exact EV2|exact EV1]).
    split; [|done]. eapply (TablesInv_fibOnly s); [done|done| |done]. eapply FibInv_delete; [apply Hs|done|].
    simpl. rewrite Hi2, Hi1, (fi_items _ (tbi_fib _ Hs)), Hsz. apply size_t_pred. }
  wp_step. destruct can.
  - wp_step. apply wp_nt_eq. eapply wp_mono; [by apply eraseIfEmpty_spec|]. intros k t (Ht & [Hpr _] & _ & _ & _ & Htidy). repeat wp_step.
    destruct (Hfin (set_nt t s1)) as (? & ? & ?); [done|by apply sameTables_attached|].
    split; [done|]. split; [done|]. split; [done|]. split; [|done]. intros Hbut. apply Htidy; [done|]. by apply Htb.
  - repeat wp_step. destruct (Hfin s1) as (? & ? & ?); [done|apply sameTables_refl|].
    split_and!; [done..|]. intros _ e' He'. by simplify_eq.
Qed.

Lemma FibInv_replace s s' p n fe fe' :
  TablesInv s → NtInv (t_nt s') → fibOnly s s' → fibV s !! p = Some (n, fe) → t_fibItems s' = t_fibItems s →
  fibV s' = <[p := (n, fe')]> (fibV s) → fe_prefix fe' = fe_prefix fe → FibEntry_wf fe' → TablesInv s'.
Proof.
  intros Hs Hnt Ho Hv Hi EV Hp Hw. eapply TablesInv_fibOnly; [done|done| |done].
  eapply FibInv_insert; [apply Hs|done| |done|].
  - rewrite Hp. by eapply fi_entry; [apply Hs|].
  - rewrite Hi, (fi_items _ (tbi_fib _ Hs)). by rewrite map_size_insert_Some by (by eexists).
Qed.

Lemma Fib_addOrUpdateNextHop_spec p n fe face cost s :
  TablesInv s → fibV s !! p = Some (n, fe) →
  wp (Fib_addOrUpdateNextHop p face cost) (λ sig s', TablesInv s' ∧ fibOnly s s' ∧
    fibV s' = <[p := (n, (FibEntry_addOrUpdateNextHop fe face cost).1)]> (fibV s) ∧
    (sig = None ↔ face ∈ nh_face <$> fe_nextHops fe) ∧ (tidy (ents s) → tidy (ents s')) ∧
    ∀ pn nh, sig = Some (pn, nh) → pn = n ∧ nh ∈ fe_nextHops (FibEntry_addOrUpdateNextHop fe face cost).1) s.
Proof.
  intros Hs Hv. apply fibV_lookup in Hv as Hv'. destruct Hv' as (e & He & <- & Hfe).
  destruct (fi_entry _ (tbi_fib _ Hs) _ _ _ Hv) as [Hpre Hwf].
  unfold Fib_addOrUpdateNextHop. wp_step. apply nt_derefEntry. exists e. split; [done|]. rewrite set_nt_same.
  wp_step. wp_step; [exact Hfe|].
  pose proof (addOrUpdate_wf fe face cost (proj1 Hwf)) as Hwf'. pose proof (addOrUpdate_prefix fe face cost) as Hpre'.
  assert (Hsig : let '(fe', (it, isNew)) := FibEntry_addOrUpdateNextHop fe face cost in
    if isNew then (∃ nh, fe_nextHops fe' !! it = Some nh) ∧ face ∉ nh_face <$> fe_nextHops fe
    else face ∈ nh_face <$> fe_nextHops fe).
  { destruct (findNextHop fe face) as [i|] eqn:Hf.
    - destruct (findNextHop_Some _ _ _ Hf) as (nh & Hnh & <-). unfold FibEntry_addOrUpdateNextHop. rewrite Hf.
      apply list_elem_of_fmap. eauto using list_elem_of_lookup_2.
    - pose proof (addOrUpdate_iterator fe face cost Hf) as Hit. apply findNextHop_None in Hf.
      destruct (FibEntry_addOrUpdateNextHop fe face cost) as [fe' [it isNew]].
      destruct Hit as (-> & _ & nh & Hnh & _). eauto. }
  destruct (FibEntry_addOrUpdateNextHop fe face cost) as [fe' [it isNew]]. cbn [fst] in *.
  wp_step. eapply wp_mono; [apply nt_setFib; [apply Hs|done]|]. intros _ s1 (Hnt1 & Ho1 & He1 & Hi1 & EV1 & Htb & Hent1).
  assert (Hs1 : TablesInv s1) by (by eapply FibInv_replace).
  assert (Ht1 : tidy (ents s) → tidy (ents s1)).
  { intros Ht. eapply (tidyBut_tidy p); [by apply Htb, tidy_tidyBut|exact He1|]. by eapply hasFib_notEmpty. }
  destruct isNew; [|wp_step; naive_solver].
  destruct Hsig as [[nh Hnh] Hnin]. wp_step. wp_step; [exact Hnh|]. wp_step. do 4 (split; [naive_solver|]). split; [done|].
  intros pn nh' [= <- <-]. split; [congruence|]. by eapply list_elem_of_lookup_2.
Qed.

Lemma Fib_findExactMatch_spec prefix s :
  TablesInv s → wp (Fib_findExactMatch prefix) (λ r s', s' = s ∧ r = fst <$> atName (fibV s) prefix) s.
Proof.
  intros Hs. unfold Fib_findExactMatch. wp_step. apply nt_findExactMatch; [apply Hs|]. rewrite firstn_all.
  unfold fibV. rewrite (atName_view fibF) by apply Hs.
  destruct (find_name (ents s) prefix) as [[p e]|] eqn:Hf; cbn [fmap option_fmap option_map fst mbind option_bind]; [|by wp_step].
  apply find_name_Some in Hf as [He Hn]; [|apply Hs]. wp_step. apply nt_derefEntry. exists e. split; [done|]. rewrite set_nt_same.
  wp_step. split; [done|]. unfold fibF. by destruct (e_fibEntry e).
Qed.

Lemma Fib_removeNextHop_spec p n fe face s :
  TablesInv s → fibV s !! p = Some (n, fe) →
  wp (Fib_removeNextHop p face) (λ r s', TablesInv s' ∧ fibOnly s s' ∧
    (∃ e fo, ents s !! p = Some e ∧ ents s' = <[p := setFibEntry fo e]> (ents s)) ∧
    match r with
    | NO_SUCH_NEXTHOP => (face ∉ nh_face <$> fe_nextHops fe) ∧ fibV s' = fibV s
    | NEXTHOP_REMOVED => (face ∈ nh_face <$> fe_nextHops fe) ∧
        fe_nextHops (FibEntry_removeNextHop fe face).1 ≠ [] ∧
        fibV s' = <[p := (n, (FibEntry_removeNextHop fe face).1)]> (fibV s)
    | FIB_ENTRY_REMOVED => (face ∈ nh_face <$> fe_nextHops fe) ∧
        fe_nextHops (FibEntry_removeNextHop fe face).1 = [] ∧ fibV s' = delete p (fibV s)
    end) s.
Proof.
  intros Hs Hv. apply fibV_lookup in Hv as Hv'. destruct Hv' as (e & He & <- & Hfe).
  destruct (fi_entry _ (tbi_fib _ Hs) _ _ _ Hv) as [Hpre Hwf].
  unfold Fib_removeNextHop. wp_step. apply nt_derefEntry. exists e. split; [done|]. rewrite set_nt_same.
  wp_step. wp_step; [exact Hfe|].
  pose proof (remove_wf fe face Hwf) as Hwf'. pose proof (remove_prefix fe face) as Hpre'.
  pose proof (remove_result fe face) as Hres. pose proof (remove_noop fe face) as Hnoop.
  destruct (FibEntry_removeNextHop fe face) as [fe' isRemoved]. cbn [fst snd] in *.
  wp_step. eapply wp_mono; [apply nt_setFib; [apply Hs|done]|]. intros _ s1 (Hnt1 & Ho1 & He1 & Hi1 & EV1 & Htb & Hent1).
  assert (Hs1 : TablesInv s1) by (by eapply FibInv_replace).
  destruct isRemoved; simpl.
  - assert (Hin : face ∈ nh_face <$> fe_nextHops fe) by (by apply Hres).
    unfold hasNextHops. destruct (fe_nextHops fe') as [|nh l] eqn:Hl; simpl; [|wp_step; split_and!; by eauto].
    wp_step. eapply wp_mono; [eapply (Fib_erase_nte_spec p (e_name e) fe'); [done|by rewrite EV1, lookup_insert_eq]|].
    intros _ s2 (Hs2 & Ho2 & EV2 & _ & Hent2). wp_step. split; [done|]. split; [by eapply fibOnly_trans|].
    split; [exists e, None; split; [done|]; by rewrite (Hent2 eq_refl _ He1), Hent1, insert_insert_eq|].
    split; [done|]. split; [done|]. by rewrite EV2, EV1, delete_insert_eq.
  - wp_step. rewrite Hnoop in EV1 by done. split; [done|]. split; [done|]. split; [by eauto|].
    split; [intros H; apply Hres in H; done|]. by rewrite EV1, insert_id.
Qed.

Lemma Fib_erase_spec prefix p fe s :
  TablesInv s → atName (fibV s) prefix = Some (p, fe) →
  wp (Fib_erase prefix) (λ _ s', TablesInv s' ∧ fibOnly s s' ∧ fibV s' = delete p (fibV s) ∧
    (tidy (ents s) → tidy (ents s'))) s.
Proof.
  intros Hs Hat. apply atName_Some in Hat as Hv; [|by apply fibV_unique].
  apply fibV_lookup in Hv as Hv'. destruct Hv' as (e & He & Hn & Hfe). unfold Fib_erase. wp_step.
  apply nt_findExactMatch; [apply Hs|]. rewrite firstn_all.
  rewrite (proj2 (find_name_Some _ _ p e (nti_tree _ (tbi_nt _ Hs)))) by done.
  eapply wp_mono; [by eapply Fib_erase_nte_spec|]. intros _ s' (? & ? & ? & Ht & _). split; [done|]. split; [done|].
  split; [done|]. intros ?. by apply Ht, tidy_tidyBut.
Qed.
End FibSpecs.

(** ** Correctness

    What the FIB promises: a cost for each prefix and face. *)

Section FibCorrect.
Context {N : NdnCxx} {NL : NdnCxxLaws N} {SS : StdSort} {SSL : StdSortLaws SS} {SC : Scheduler}.
Implicit Types (s : Tables) (p : ptr) (prefix name : Name) (face : FacePtr).

Definition fibCost s name face : option Z := '(_, fe) ← atName (fibV s) name; costOf fe face.

Lemma fibCost_insert s s' p prefix fe :
  TablesInv s → TablesInv s' → fibV s' = <[p := (prefix, fe)]> (fibV s) →
  (∀ q g, fibV s !! q = Some (prefix, g) → q = p) → (∀ n g, fibV s !! p = Some (n, g) → n = prefix) →
  ∀ n face, fibCost s' n face = if decide (n = prefix) then costOf fe face else fibCost s n face.
Proof.
  intros Hs Hs' HV Hp Hn n face. unfold fibCost. case_decide as Hd.
  - subst. assert (atName (fibV s') prefix = Some (p, fe)) as ->; [|done].
    apply atName_Some; [by apply fibV_unique|]. by rewrite HV, lookup_insert_eq.
  - assert (atName (fibV s') n = atName (fibV s) n) as ->; [|done].
    apply option_eq. intros [q g]. rewrite !atName_Some by (by apply fibV_unique). rewrite HV.
    destruct (decide (q = p)) as [->|]; [|by rewrite lookup_insert_ne].
    rewrite lookup_insert_eq. split; [by intros [= ??]|]. by intros ?%Hn.
Qed.

Lemma fibCost_delete s s' p prefix fe :
  TablesInv s → TablesInv s' → fibV s !! p = Some (prefix, fe) → fibV s' = delete p (fibV s) →
  ∀ n face, fibCost s' n face = if decide (n = prefix) then None else fibCost s n face.
Proof.
  intros Hs Hs' Hp HV n face. unfold fibCost. case_decide as Hd.
  - subst. destruct (atName (fibV s') prefix) as [[q g]|] eqn:Ha; [|done].
    apply atName_Some in Ha; [|by apply fibV_unique]. rewrite HV, lookup_delete_Some in Ha.
    destruct Ha as [Hq Ha]. destruct Hq. by eapply (fibV_unique s Hs).
  - assert (atName (fibV s') n = atName (fibV s) n) as ->; [|done].
    apply option_eq. intros [q g]. rewrite !atName_Some by (by apply fibV_unique).
    rewrite HV, lookup_delete_Some. split; [by intros [_ ?]|]. intros Hq. split; [|done]. congruence.
Qed.

(** Creating the entry if needed, then adding or updating the nexthop. *)
Lemma Fib_add_spec prefix face cost s :
  TablesInv s → length prefix ≤ getMaxDepth →
  wp (r ← Fib_insert prefix; Fib_addOrUpdateNextHop r.1 face cost) (λ sig s',
    TablesInv s' ∧ fibOnly s s' ∧ (tidy (ents s) → tidy (ents s')) ∧
    (∀ n f, fibCost s' n f = if decide (n = prefix ∧ f = face) then Some cost else fibCost s n f) ∧
    ∃ p fe, fibV s' = <[p := (prefix, (FibEntry_addOrUpdateNextHop fe face cost).1)]> (fibV s) ∧
      (fe = mkFibEntry prefix [] ∨ fibV s !! p = Some (prefix, fe)) ∧
      ∀ pn nh, sig = Some (pn, nh) → pn = prefix ∧ nh ∈ fe_nextHops (FibEntry_addOrUpdateNextHop fe face cost).1) s.
Proof.
  intros Hs Hd. apply wp_bind. eapply wp_mono; [by apply Fib_insert_spec|].
  intros r s1 (Hs1 & Ho1 & Ht1 & Hr).
  assert (∃ p fe, r.1 = p ∧ fibV s1 !! p = Some (prefix, fe) ∧ (∀ n f, fibCost s1 n f = fibCost s n f) ∧
    (∀ f, costOf fe f = fibCost s prefix f) ∧ (∀ v, <[p := v]> (fibV s1) = <[p := v]> (fibV s)) ∧
    (fe = mkFibEntry prefix [] ∨ fibV s !! p = Some (prefix, fe))) as (p & fe & -> & Hp & Hc & Hfe & HV & Hor).
  { destruct (atName (fibV s) prefix) as [[p fe]|] eqn:Ha.
    - destruct Hr as [-> HV]. exists p, fe. unfold fibCost. rewrite HV, Ha. apply atName_Some in Ha; [|by apply fibV_unique].
      split_and!; [done|done|done|done|done|by right].
    - destruct Hr as (p & -> & Hnone & HV). exists p, (mkFibEntry prefix []). rewrite HV, lookup_insert_eq.
      assert (Hz : ∀ f, fibCost s prefix f = None) by (intros f; unfold fibCost; by rewrite Ha).
      split_and!; [done|done| |done|intros v; by rewrite insert_insert_eq|by left]. intros n f.
      rewrite (fibCost_insert s s1 p prefix _ Hs Hs1 HV); [|intros q g Hq|intros m g Hm].
      + case_decide; [subst; by rewrite Hz|done].
      + exfalso. eapply atName_None; [exact Ha|exact Hq].
      + congruence. }
  eapply wp_mono; [by apply Fib_addOrUpdateNextHop_spec|]. intros sig s2 (Hs2 & Ho2 & HV2 & _ & Ht2 & Hsig).
  split; [done|]. split; [by eapply fibOnly_trans|]. split; [by auto|]. split.
  - intros n f. rewrite (fibCost_insert s1 s2 p prefix _ Hs1 Hs2 HV2).
    + rewrite addOrUpdate_costOf by (by eapply (fi_entry _ (tbi_fib _ Hs1))). rewrite Hc, Hfe.
      destruct (decide (n = prefix)) as [->|]; repeat case_decide; intuition congruence.
    + intros q g Hq. by eapply (fibV_unique s1 Hs1).
    + intros m g Hm. congruence.
  - exists p, fe. rewrite HV2, HV. done.
Qed.

(** Adding a nexthop the way the management module does (create the FIB entry
    if needed, then add or update the nexthop) sets the cost of that prefix and
    face and changes no other cost, no other table and no invariant; the
    nexthops of every entry stay sorted by cost with one record per face. *)
Theorem fib_add_nexthop prefix face cost s :
  TablesInv s → length prefix ≤ getMaxDepth →
  wp (r ← Fib_insert prefix; Fib_addOrUpdateNextHop r.1 face cost) (λ _ s',
    TablesInv s' ∧ fibOnly s s' ∧
    (∀ n f, fibCost s' n f = if decide (n = prefix ∧ f = face) then Some cost else fibCost s n f) ∧
    (∀ p n fe, fibV s' !! p = Some (n, fe) → FibEntry_wf fe)) s.
Proof.
  intros Hs Hd. eapply wp_mono; [by apply Fib_add_spec|]. intros sig s' (Hs' & Ho & _ & Hc & _).
  split; [done|]. split; [done|]. split; [done|]. intros q n g Hq. by eapply (fi_entry _ (tbi_fib _ Hs')).
Qed.

(** Removing a nexthop from a FIB entry forgets the cost of that prefix and
    face only; the result tells whether it existed and whether it was the last. *)
Theorem fib_remove_nexthop p prefix fe face s :
  TablesInv s → fibV s !! p = Some (prefix, fe) →
  wp (Fib_removeNextHop p face) (λ r s', TablesInv s' ∧ fibOnly s s' ∧
    (∀ n f, fibCost s' n f = if decide (n = prefix ∧ f = face) then None else fibCost s n f) ∧
    (r = NO_SUCH_NEXTHOP ↔ fibCost s prefix face = None) ∧
    (r = FIB_ENTRY_REMOVED ↔ fe_nextHops fe ≠ [] ∧ ∀ nh, nh ∈ fe_nextHops fe → nh_face nh = face)) s.
Proof.
  intros Hs Hp. destruct (fi_entry _ (tbi_fib _ Hs) _ _ _ Hp) as [_ [Hnd Hso]].
  assert (Ha : ∀ f, fibCost s prefix f = costOf fe f).
  { intros f. unfold fibCost. apply atName_Some in Hp as ->; [done|by apply fibV_unique]. }
  pose proof (remove_empty fe face Hnd) as Hempty.
  eapply wp_mono; [by apply Fib_removeNextHop_spec|]. intros r s' (Hs' & Ho & _ & Hr).
  split; [done|]. split; [done|]. rewrite Ha, (costOf_None fe face Hnd).
  assert (Hcost : ∀ n f, fibCost s' n f =
    if decide (n = prefix) then costOf (FibEntry_removeNextHop fe face).1 f else fibCost s n f).
  { intros n f. destruct r.
    - destruct Hr as [Hno HV]. rewrite remove_noop by (apply not_true_iff_false; by rewrite remove_result).
      rewrite <- Ha. unfold fibCost. rewrite HV. case_decide; by subst.
    - destruct Hr as (_ & _ & HV). apply (fibCost_insert s s' p prefix _ Hs Hs' HV); [|congruence].
      intros q g Hq. by eapply (fibV_unique s Hs).
    - destruct Hr as (_ & Hnil & HV). rewrite (fibCost_delete s s' p prefix fe Hs Hs' Hp HV).
      unfold costOf. by rewrite Hnil. }
  split.
  - intros n f. rewrite Hcost, remove_costOf by done. rewrite <- Ha.
    destruct (decide (n = prefix)) as [->|]; repeat case_decide; intuition congruence.
  - rewrite <- Hempty. destruct r; [|intuition congruence|].
    { destruct Hr as [Hno _]. rewrite remove_noop by (apply not_true_iff_false; by rewrite remove_result).
      intuition congruence. }
    destruct Hr as (Hin & Hnil & _).
    split; [done|]. split; [|done]. intros _. split; [|done]. intros Hz. rewrite Hz in Hin. by apply elem_of_nil in Hin.
Qed.

(** C33: The longest prefix match on a name returns the FIB entry whose prefix is
    the longest among those that are prefixes of the name, and the empty entry
    when there is none; nothing changes. *)
Theorem fib_longest_prefix_match name s :
  TablesInv s →
  wp (r ← Fib_findLongestPrefixMatch name; derefFib r) (λ fe s', s' = s ∧
    (((∀ q m g, fibV s !! q = Some (m, g) → ¬ m `prefix_of` name) ∧ fe = s_emptyEntry) ∨
     ∃ p, fibV s !! p = Some (fe_prefix fe, fe) ∧ fe_prefix fe `prefix_of` name ∧
       ∀ q m g, fibV s !! q = Some (m, g) → m `prefix_of` name → length m ≤ length (fe_prefix fe))) s.
Proof.
  intros Hs. apply wp_bind. apply (nt_lpm fibF); [apply Hs|]. fold (fibV s).
  destruct (lpmV (fibV s) name) as [[p fe]|] eqn:Hl; cbn [fmap option_fmap option_map fst derefFib].
  - apply lpmV_Some in Hl as (n & Hp & Hpre & Hmax); [|by apply fibV_unique].
    destruct (fi_entry _ (tbi_fib _ Hs) _ _ _ Hp) as [<- _].
    pose proof Hp as (e & He & _ & Hfe)%fibV_lookup.
    apply wp_bind, nt_derefEntry. exists e. split; [done|]. rewrite set_nt_same. apply wp_someM. exists fe.
    split; [done|]. split; [done|]. right. by exists p.
  - apply wp_ret. split; [done|]. left. split; [by apply lpmV_None|done].
Qed.
End FibCorrect.

(** Example: the FIB with the prefix /101 added to empty tables. *)
Definition fib1 : Tables := run (Fib_insert (N := NatNdn) [101]) tables0.

Lemma fib1_inv : TablesInv fib1 ∧ tidy (ents fib1).
Proof.
  destruct (run_spec _ _ _ (Fib_insert_spec (N := NatNdn) [101] tables0 (proj1 tables0_inv) ltac:(unfold getMaxDepth; simpl; lia)))
    as (r & H1 & _ & H2 & _). exact (conj H1 (H2 (proj2 tables0_inv))).
Qed.

Lemma fib_add_nexthop_witness :
  wp (r ← Fib_insert (N := NatNdn) [101]; Fib_addOrUpdateNextHop (SS := InsertionSort) r.1 7%positive 10) (λ _ s',
    fibCost s' ([101] : list nat) 7%positive = Some 10%Z) tables0.
Proof.
  eapply wp_mono; [exact (fib_add_nexthop (N := NatNdn) [101] 7%positive 10 tables0 (proj1 tables0_inv) ltac:(unfold getMaxDepth; simpl; lia))|].
  intros x s' (_ & _ & Hc & _). rewrite Hc. reflexivity.
Defined.

Lemma fib_remove_nexthop_witness :
  wp (Fib_removeNextHop 2%positive 7%positive) (λ r s', TablesInv s' ∧ r = NO_SUCH_NEXTHOP) fib1.
Proof.
  assert (Hp : fibV fib1 !! 2%positive = Some ([101] : list nat, mkFibEntry (N := NatNdn) [101] [])) by (vm_compute; reflexivity).
  eapply wp_mono; [exact (fib_remove_nexthop (N := NatNdn) _ _ _ 7%positive fib1 (proj1 fib1_inv) Hp)|].
  intros r s' (H1 & _ & _ & H2 & _). split; [exact H1|]. apply H2. vm_compute. reflexivity.
Defined.

Lemma fib_longest_prefix_match_witness :
  wp (r ← Fib_findLongestPrefixMatch (N := NatNdn) [101; 102]; derefFib r) (λ fe s', s' = fib1) fib1.
Proof.
  eapply wp_mono; [exact (fib_longest_prefix_match (N := NatNdn) [101; 102] fib1 (proj1 fib1_inv))|].
  intros fe s' [-> _]. reflexivity.
Defined.
