(* ===== verification/Pit.v ===== *)
(** * The PIT

    [src/daemon/table/pit.cpp].  A [shared_ptr<pit::Entry>] is the address of the
    entry in [t_pits]; an entry that has been erased stays there, detached, for
    as long as somebody may hold a pointer to it. *)

From Stdlib Require Import ZArith Lia.
From stdpp Require Import base gmap option list.
From S2P Require Import Prelude Scheduler CityHash Ndn FibEntry PitEntry NameTreeEntry Hashtable NameTree.
From S2P Require Import NameTreeIterator Tables.

Section Pit.
Context {N : NdnCxx} {P : NdnPacket N} {SC : Scheduler}.

(** The [find_if] of [findOrInsert]; [canMatch] asserts that the first [nteDepth]
    components are equal. *)
Fixpoint findMatch (interest : Interest) (nteDepth : nat) (l : list ptr) : M Tables (option ptr) :=
  match l with
  | [] => mret None
  | x :: l' =>
      pe ← derefPit x;
      assertM (canMatch_pre pe interest nteDepth);;
      if canMatch pe interest nteDepth then mret (Some x) else findMatch interest nteDepth l'
  end.

(** [make_shared<Entry>(interest)] *)
Definition allocPit (interest : Interest) : M Tables ptr :=
  x ← gets (λ s, fresh (dom (t_pits s)));
  modify (λ s, set_pits (<[x := newPitEntry interest]> (t_pits s)) s);;
  mret x.

Definition Pit_findOrInsert (interest : Interest) (allowInsert : bool) : M Tables (option ptr * bool) :=
  let name := i_name interest in
  let hasDigest := bool_decide (0 < length name) && lastIs isImplicitSha256Digest name in
  let nteDepth := length name - (if hasDigest then 1 else 0) in
  let nteDepth := Nat.min nteDepth getMaxDepth in
  nte ← (if allowInsert then p ← nt (NameTree_lookup name nteDepth); mret (Some p)
         else nt (NameTree_findExactMatch name nteDepth));
  match nte with
  | None => mret (None, true)
  | Some p =>
      e ← nt (derefEntry p);
      it ← findMatch interest nteDepth (e_pitEntries e);
      match it with
      | Some x => mret (Some x, false)
      | None =>
          if negb allowInsert then
            assertM (negb (isEmpty e));;
            mret (None, true)
          else
            x ← allocPit interest;
            insertPitEntry p x;;
            modify (λ s, set_pitItems (size_t (t_pitItems s + 1)) s);;
            mret (Some x, true)
      end
  end.

Definition Pit_find (interest : Interest) : M Tables (option ptr) :=
  r ← Pit_findOrInsert interest false; mret r.1.

Definition Pit_insert (interest : Interest) : M Tables (option ptr * bool) :=
  Pit_findOrInsert interest true.

(** The entries of [l] whose Interest matches [data]. *)
Definition dataMatches (pits : gmap ptr PitEntry) (data : Data) (l : list ptr) : option (list ptr) :=
  foldr (λ x acc, rest ← acc; pe ← pits !! x;
           Some (if matchesData (pe_interest pe) data then x :: rest else rest)) (Some []) l.

Definition Pit_findAllDataMatches (data : Data) (s : Tables) : option (list ptr) :=
  ntMatches ← findAllMatches (d_name data) (has pitF) (t_nt s);
  matches ← mapM (λ p, e ← ents s !! p; dataMatches (t_pits s) data (e_pitEntries e)) ntMatches;
  Some (concat matches).

Definition Pit_erase (entry : ptr) (canDeleteNte : bool) : M Tables unit :=
  pe ← derefPit entry;
  nte ← someM (pe_nameTreeEntry pe);
  erasePitEntry nte entry;;
  (if canDeleteNte then nt (eraseIfEmpty nte true);; mret tt else mret tt);;
  modify (λ s, set_pitItems (size_t (t_pitItems s - 1)) s).

Definition Pit_deleteInOutRecords (entry : ptr) (face : FacePtr) : M Tables unit :=
  updatePit entry (deleteInRecord face);;
  updatePit entry (deleteOutRecord face).

(** ** Enumeration

    [pit::Iterator] runs through the PIT entries of each name tree entry that
    has some. *)
Record PitIterator := mkPitIterator {
  pit_ntIt : Iterator;
  pit_iPitEntry : nat;
}.

Definition PitIterator_incr (s : Tables) (i : PitIterator) : option PitIterator :=
  p ← it_entry (pit_ntIt i);
  e ← ents s !! p;
  guard (pit_iPitEntry i < length (e_pitEntries e));;
  if decide (length (e_pitEntries e) ≤ S (pit_iPitEntry i)) then
    ntIt ← full_advance (t_nt s) (has pitF) (pit_ntIt i);
    match it_entry ntIt with
    | None => Some (mkPitIterator ntIt 0)
    | Some q => e' ← ents s !! q; guard (e_pitEntries e' ≠ []);; Some (mkPitIterator ntIt 0)
    end
  else Some (mkPitIterator (pit_ntIt i) (S (pit_iPitEntry i))).

Fixpoint pit_enumerate (fuel : nat) (s : Tables) (i : PitIterator) : option (list ptr) :=
  match it_entry (pit_ntIt i), fuel with
  | None, _ => Some []
  | Some _, O => None
  | Some p, S fuel' =>
      e ← ents s !! p;
      x ← e_pitEntries e !! pit_iPitEntry i;
      i' ← PitIterator_incr s i;
      l ← pit_enumerate fuel' s i';
      Some (x :: l)
  end.

(** [for (x : pit)] *)
Definition Pit_begin_end (s : Tables) : option (list ptr) :=
  i ← full_advance (t_nt s) (has pitF) (mkIterator None None false);
  pit_enumerate (size (t_pits s)) s (mkPitIterator i 0).
End Pit.

(** ** Invariant *)

Section PitInvariant.
Context {N : NdnCxx} {SC : Scheduler}.
Implicit Types (s : Tables) (p x : ptr) (i : Interest) (e : Entry) (pe : PitEntry).

(** Same Name and selectors. *)
Definition matchKey pe i : Prop :=
  pe_name pe = i_name i ∧ i_canBePrefix (pe_interest pe) = i_canBePrefix i ∧
  i_mustBeFresh (pe_interest pe) = i_mustBeFresh i.

(** No PIT entry of the table has the key of [i]. *)
Definition noMatch s i : Prop :=
  ∀ x pe, t_pits s !! x = Some pe → isAttached pe → ¬ matchKey pe i.

Lemma pitDepth_le n : pitDepth n ≤ length n.
Proof. unfold pitDepth. lia. Qed.

Lemma take_pitDepth_inj n m :
  take (pitDepth n) n = take (pitDepth m) m → pitDepth n = pitDepth m.
Proof.
  intros H. apply (f_equal length) in H. rewrite !length_take in H.
  pose proof (pitDepth_le n). pose proof (pitDepth_le m). lia.
Qed.

Lemma pitV_lookup s p e :
  ents s !! p = Some e →
  pitV s !! p = match e_pitEntries e with [] => None | l => Some (e_name e, l) end.
Proof.
  intros He. unfold pitV, view. rewrite lookup_omap, He. simpl. unfold pitF. by destruct (e_pitEntries e).
Qed.

Lemma pitV_elem s p e x :
  ents s !! p = Some e → x ∈ e_pitEntries e ↔ ∃ n l, pitV s !! p = Some (n, l) ∧ x ∈ l.
Proof.
  intros He. rewrite (pitV_lookup _ _ _ He). destruct (e_pitEntries e) as [|y l].
  - split; [by intros ?%elem_of_nil|]. naive_solver.
  - naive_solver.
Qed.

Lemma pitV_entries s p e l n : ents s !! p = Some e → pitV s !! p = Some (n, l) → l = e_pitEntries e ∧ n = e_name e.
Proof. intros He. rewrite (pitV_lookup _ _ _ He). destruct (e_pitEntries e); naive_solver. Qed.

(** The PIT entries on a name tree entry, in a well-formed table. *)
Lemma pits_of_entry s p e x :
  PitInv s → ents s !! p = Some e → x ∈ e_pitEntries e →
  ∃ pe, t_pits s !! x = Some pe ∧ pe_nameTreeEntry pe = Some p ∧ e_name e = take (pitDepth (pe_name pe)) (pe_name pe).
Proof.
  intros Hs He (n & l & Hv & Hx)%(pitV_elem s p e x He).
  destruct (pitV_entries _ _ _ _ _ He Hv) as [-> ->]. by eapply pi_fwd.
Qed.

Lemma attached_here s p e x pe :
  PitInv s → ents s !! p = Some e → t_pits s !! x = Some pe → x ∈ e_pitEntries e ↔ attachedIn [p] pe.
Proof.
  intros Hs He Hx. unfold attachedIn. setoid_rewrite list_elem_of_singleton. split.
  - intros Hin. destruct (pits_of_entry _ _ _ _ Hs He Hin) as (pe' & Hpe' & Hp & _). simplify_eq. eauto.
  - intros (q & Hq & ->). destruct (pi_back _ Hs _ _ _ Hx Hq) as (n & l & Hv & Hin).
    by destruct (pitV_entries _ _ _ _ _ He Hv) as [-> _].
Qed.

Lemma pitEntries_NoDup s p e : PitInv s → ents s !! p = Some e → NoDup (e_pitEntries e).
Proof.
  intros Hs He. pose proof (pitV_lookup _ _ _ He) as Hv. destruct (e_pitEntries e) as [|y l]; [constructor|].
  by eapply pi_nodup.
Qed.

(** An attached entry with the key of [i] sits where [findOrInsert] looks. *)
Lemma matchKey_located s p e x pe i :
  PitInv s → TreeInv (ents s) → ents s !! p = Some e → e_name e = take (pitDepth (i_name i)) (i_name i) →
  t_pits s !! x = Some pe → isAttached pe → pe_name pe = i_name i → x ∈ e_pitEntries e.
Proof.
  intros Hs Ht He Hn Hx [q Hq] Hname. destruct (pi_back _ Hs _ _ _ Hx Hq) as (n & l & Hv & Hin).
  destruct (pi_fwd _ Hs _ _ _ _ Hv Hin) as (pe' & Hx' & _ & ->). simplify_eq.
  apply view_lookup in Hv as Hv'. destruct Hv' as (e' & He' & Hn' & _).
  assert (q = p) as -> by (eapply (ti_names _ Ht); [done..|]; congruence).
  apply (pitV_elem s p e x He). eauto.
Qed.

Lemma count_insert_new (pits : gmap ptr PitEntry) x pe :
  pits !! x = None → isAttached pe →
  size (filter (λ kv, isAttached kv.2) (<[x := pe]> pits)) = S (size (filter (λ kv, isAttached kv.2) pits)).
Proof.
  intros Hx Ha. rewrite map_filter_insert_True by done. apply map_size_insert_None.
  apply map_lookup_filter_None. by left.
Qed.

Lemma count_detach (pits : gmap ptr PitEntry) x pe pe' :
  pits !! x = Some pe → isAttached pe → ¬ isAttached pe' →
  S (size (filter (λ kv, isAttached kv.2) (<[x := pe']> pits))) = size (filter (λ kv, isAttached kv.2) pits).
Proof.
  intros Hx Ha Hn. rewrite map_filter_insert_False by done. rewrite map_filter_delete.
  rewrite map_size_delete_Some by (exists pe; apply map_lookup_filter_Some; done).
  pose proof (map_size_ne_0_lookup_2 (filter (λ kv, isAttached kv.2) pits) x) as H.
  unfold is_Some in H. rewrite map_lookup_filter in H. specialize (H ltac:(exists pe; by rewrite Hx; simpl; rewrite option_guard_True)). lia.
Qed.

Lemma count_same (pits : gmap ptr PitEntry) x pe pe' :
  pits !! x = Some pe → (isAttached pe ↔ isAttached pe') →
  size (filter (λ kv, isAttached kv.2) (<[x := pe']> pits)) = size (filter (λ kv, isAttached kv.2) pits).
Proof.
  intros Hx Ha. destruct (decide (isAttached pe)) as [H|H].
  - rewrite map_filter_insert_True by (simpl; tauto). apply map_size_insert_Some.
    exists pe. apply map_lookup_filter_Some. done.
  - rewrite map_filter_insert_False by (simpl; tauto). f_equal. apply map_eq. intros y. apply option_eq. intros z.
    rewrite !map_lookup_filter_Some, lookup_delete_Some. split; [tauto|]. intros [Hy Hz]. split; [|done].
    split; [|done]. intros <-. simplify_eq. done.
Qed.

Lemma PitInv_insert s s' p e x pe i :
  PitInv s → TreeInv (ents s) → ents s !! p = Some e →
  e_name e = take (pitDepth (i_name i)) (i_name i) → t_pits s !! x = None → noMatch s i →
  pe = set_nameTreeEntry (Some p) (newPitEntry i) →
  pitV s' = <[p := (e_name e, e_pitEntries e ++ [x])]> (pitV s) →
  t_pits s' = <[x := pe]> (t_pits s) → t_pitItems s' = size_t (t_pitItems s + 1) → PitInv s'.
Proof.
  intros Hs Ht He Hn Hx Hno Hpe EV EP EI.
  assert (Hxn : ∀ q n l, pitV s !! q = Some (n, l) → x ∉ l).
  { intros q n l Hv Hin. destruct (pi_fwd _ Hs _ _ _ _ Hv Hin) as (pe' & Hpe' & _). congruence. }
  assert (Hkey : ∀ y pe', t_pits s !! y = Some pe' → isAttached pe' → ¬ matchKey pe' i) by apply Hno.
  split.
  - intros q n l y. rewrite EV, EP, lookup_insert_Some. intros [[<- [= <- <-]]|[Hq Hv]] Hy.
    + apply elem_of_app in Hy as [Hy| ->%list_elem_of_singleton].
      * destruct (pits_of_entry _ _ _ _ Hs He Hy) as (pe' & Hpe' & ? & ?). exists pe'.
        rewrite lookup_insert_ne; [done|congruence].
      * exists pe. rewrite lookup_insert_eq. by rewrite Hpe.
    + destruct (pi_fwd _ Hs _ _ _ _ Hv Hy) as (pe' & Hpe' & ? & ?). exists pe'.
      rewrite lookup_insert_ne; [done|congruence].
  - intros y pe' q. rewrite EV, EP, lookup_insert_Some. intros [[<- <-]|[Hy Hpe']] Hq.
    + rewrite Hpe in Hq. simpl in Hq. simplify_eq. eexists _, _. rewrite lookup_insert_eq. split; [done|]. set_solver.
    + destruct (pi_back _ Hs _ _ _ Hpe' Hq) as (n & l & Hv & Hin). destruct (decide (q = p)) as [->|].
      * eexists _, _. rewrite lookup_insert_eq. split; [done|]. apply elem_of_app. left.
        apply (pitV_elem s p e y He). eauto.
      * exists n, l. by rewrite lookup_insert_ne.
  - intros q n l. rewrite EV, lookup_insert_Some. intros [[<- [= <- <-]]|[Hq Hv]]; [|by eapply pi_nodup].
    apply NoDup_app. split; [by eapply pitEntries_NoDup|]. split; [|apply NoDup_singleton].
    intros y Hy ->%list_elem_of_singleton. apply (pitV_elem s p e x He) in Hy as (n & l & Hv & Hin). by eapply Hxn.
  - intros y z pey pez. rewrite EP, !lookup_insert_Some.
    intros [[<- <-]|[Hy Hpey]] [[<- <-]|[Hz Hpez]] Hay Haz H1 H2 H3; [done|..|by eapply (pi_unique _ Hs)].
    + destruct (Hkey _ _ Hpez Haz). rewrite Hpe in H1, H2, H3. by split.
    + destruct (Hkey _ _ Hpey Hay). rewrite Hpe in H1, H2, H3. by split.
  - intros y pe'. rewrite EP, lookup_insert_Some. intros [[<- <-]|[Hy Hpe']]; [|by eapply pi_wf].
    rewrite Hpe. apply newPitEntry_wf.
  - rewrite EP, EI, (pi_items _ Hs), count_insert_new; [apply size_t_succ|done|].
    rewrite Hpe. by eexists.
Qed.

Lemma replace_with_back_spec {A} (l : list A) j (x : A) :
  l !! j = Some x → ∃ l', replace_with_back j l = Some l' ∧ x :: l' ≡ₚ l.
Proof.
  intros Hj. unfold replace_with_back. destruct (last l) as [b|] eqn:Hl.
  2: { apply last_None in Hl. by subst. }
  apply last_Some in Hl as [l0 ->]. eexists. split; [done|]. rewrite length_app. simpl.
  replace (length l0 + 1 - 1) with (length l0) by lia. apply lookup_lt_Some in Hj as Hlt. rewrite length_app in Hlt. simpl in Hlt.
  destruct (decide (j = length l0)) as [->|Hne].
  - rewrite lookup_app_r, Nat.sub_diag in Hj by lia. injection Hj as ->.
    rewrite list_insert_id by (rewrite lookup_app_r, Nat.sub_diag by lia; done).
    rewrite take_app_length. by rewrite Permutation_app_comm.
  - rewrite insert_app_l by lia. rewrite take_app_length' by (by rewrite length_insert).
    rewrite lookup_app_l in Hj by lia. rewrite insert_take_drop by lia.
    rewrite <- Permutation_cons_append.
    transitivity (b :: (take j l0 ++ x :: drop (S j) l0)); [|by rewrite (take_drop_middle l0 j x Hj)].
    rewrite <- !Permutation_middle. apply Permutation_swap.
Qed.

Lemma PitInv_erase s s' p e x pe l' :
  PitInv s → ents s !! p = Some e → t_pits s !! x = Some pe → pe_nameTreeEntry pe = Some p →
  x :: l' ≡ₚ e_pitEntries e →
  pitV s' = match l' with [] => delete p (pitV s) | _ => <[p := (e_name e, l')]> (pitV s) end →
  t_pits s' = <[x := set_nameTreeEntry None pe]> (t_pits s) → t_pitItems s' = size_t (t_pitItems s - 1) → PitInv s'.
Proof.
  intros Hs He Hx Hp Hl EV EP EI. pose proof (pitEntries_NoDup _ _ _ Hs He) as Hnd. rewrite <- Hl in Hnd.
  apply NoDup_cons in Hnd as [Hxl Hnd].
  assert (Hcase : ∀ q n l, pitV s' !! q = Some (n, l) → (q = p ∧ n = e_name e ∧ l = l') ∨ (q ≠ p ∧ pitV s !! q = Some (n, l))).
  { intros q n l. rewrite EV. destruct l' as [|y l'].
    - rewrite lookup_delete_Some. naive_solver.
    - rewrite lookup_insert_Some. naive_solver. }
  assert (Hother : ∀ q n l y, q ≠ p → pitV s !! q = Some (n, l) → y ∈ l → y ≠ x).
  { intros q n l y Hq Hv Hy ->. destruct (pi_fwd _ Hs _ _ _ _ Hv Hy) as (pe' & Hpe' & ? & _). congruence. }
  split.
  - intros q n l y [(-> & -> & ->)|[Hq Hv]]%Hcase Hy; rewrite EP.
    + assert (Hy' : y ∈ e_pitEntries e) by (rewrite <- Hl; by constructor).
      destruct (pits_of_entry _ _ _ _ Hs He Hy') as (pe' & Hpe' & ? & ?). exists pe'.
      rewrite lookup_insert_ne; [done|]. by intros ->.
    + destruct (pi_fwd _ Hs _ _ _ _ Hv Hy) as (pe' & Hpe' & ? & ?). exists pe'.
      rewrite lookup_insert_ne; [done|]. intros ->. by eapply Hother.
  - intros y pe' q. rewrite EP, lookup_insert_Some. intros [[<- <-]|[Hy Hpe']] Hq; [done|].
    destruct (pi_back _ Hs _ _ _ Hpe' Hq) as (n & l & Hv & Hin). rewrite EV. destruct (decide (q = p)) as [->|].
    + destruct (pitV_entries _ _ _ _ _ He Hv) as [-> ->]. rewrite <- Hl in Hin.
      apply elem_of_cons in Hin as [->|Hin]; [done|]. destruct l' as [|z l']; [by apply elem_of_nil in Hin|].
      eexists _, _. by rewrite lookup_insert_eq.
    + exists n, l. destruct l'; [by rewrite lookup_delete_ne|by rewrite lookup_insert_ne].
  - intros q n l [(-> & -> & ->)|[Hq Hv]]%Hcase; [done|by eapply pi_nodup].
  - intros y z pey pez. rewrite EP, !lookup_insert_Some.
    intros [[<- <-]|[Hy Hpey]] [[<- <-]|[Hz Hpez]] Hay Haz; [done|by destruct Hay|by destruct Haz|by eapply (pi_unique _ Hs)].
  - intros y pe'. rewrite EP, lookup_insert_Some. intros [[<- <-]|[Hy Hpe']]; [exact (pi_wf _ Hs x pe Hx)|by eapply pi_wf].
  - rewrite EP, EI, (pi_items _ Hs), <- (count_detach _ _ _ (set_nameTreeEntry None pe) Hx); [apply size_t_pred|by eexists|].
    by intros [? ?].
Qed.

(** A change of a PIT entry that keeps its Interest's key and its place. *)
Definition keepsKey pe pe' : Prop :=
  pe_nameTreeEntry pe' = pe_nameTreeEntry pe ∧ pe_name pe' = pe_name pe ∧
  i_canBePrefix (pe_interest pe') = i_canBePrefix (pe_interest pe) ∧
  i_mustBeFresh (pe_interest pe') = i_mustBeFresh (pe_interest pe) ∧
  (PitEntry_wf pe → PitEntry_wf pe').

Lemma PitInv_keeps s s' :
  PitInv s → pitV s' = pitV s → t_pitItems s' = t_pitItems s →
  (∀ x, option_relation keepsKey (λ _, False) (λ _, False) (t_pits s !! x) (t_pits s' !! x)) → PitInv s'.
Proof.
  intros Hs EV EI Hrel.
  assert (Hback : ∀ y pey, t_pits s' !! y = Some pey → ∃ pe0, t_pits s !! y = Some pe0 ∧ keepsKey pe0 pey).
  { intros y pey Hy. specialize (Hrel y). rewrite Hy in Hrel. destruct (t_pits s !! y) as [pe0|]; [by exists pe0|done]. }
  assert (Hfwd : ∀ y pe0, t_pits s !! y = Some pe0 → ∃ pey, t_pits s' !! y = Some pey ∧ keepsKey pe0 pey).
  { intros y pe0 Hy. specialize (Hrel y). rewrite Hy in Hrel. destruct (t_pits s' !! y) as [pey|]; [by exists pey|done]. }
  assert (Hatt : ∀ pe pe', keepsKey pe pe' → isAttached pe' ↔ isAttached pe).
  { intros pe pe' (K & _). unfold isAttached. by rewrite K. }
  split.
  - rewrite EV. intros p n l y Hv Hy. destruct (pi_fwd _ Hs _ _ _ _ Hv Hy) as (pe0 & Hpe0 & Hp0 & Hn0).
    destruct (Hfwd _ _ Hpe0) as (pey & Hpey & K1 & K2 & _). exists pey. by rewrite K1, K2.
  - rewrite EV. intros y pey p (pe0 & Hpe0 & K & _)%Hback Hp. eapply (pi_back _ Hs); [done|congruence].
  - rewrite EV. by apply Hs.
  - intros y z pey pez (pe1 & H1 & K)%Hback (pe2 & H2 & L)%Hback Ha Hb E1 E2 E3.
    rewrite (Hatt _ _ K) in Ha. rewrite (Hatt _ _ L) in Hb. destruct K as (_ & K2 & K3 & K4 & _), L as (_ & L2 & L3 & L4 & _).
    eapply (pi_unique _ Hs); [done..| | |]; congruence.
  - intros y pey (pe0 & Hpe0 & _ & _ & _ & _ & K)%Hback. by eapply K, pi_wf.
  - rewrite EI, (pi_items _ Hs), <- !(size_dom (D := gset ptr)). do 3 f_equal. apply set_eq. intros y.
    rewrite !elem_of_dom. unfold is_Some. setoid_rewrite map_lookup_filter_Some. split.
    + intros (pe0 & H0 & Ha). destruct (Hfwd _ _ H0) as (pey & Hy & K). exists pey. split; [done|]. by apply (Hatt _ _ K).
    + intros (pey & H0 & Ha). destruct (Hback _ _ H0) as (pe0 & Hy & K). exists pe0. split; [done|]. by apply (Hatt _ _ K).
Qed.

Lemma PitInv_update s x pe pe' :
  PitInv s → t_pits s !! x = Some pe → keepsKey pe pe' → PitInv (set_pits (<[x := pe']> (t_pits s)) s).
Proof.
  intros Hs Hx K. apply (PitInv_keeps s); [done..|]. intros y. simpl. destruct (decide (x = y)) as [<-|].
  - by rewrite lookup_insert_eq, Hx.
  - rewrite lookup_insert_ne by done. destruct (t_pits s !! y); by simpl.
Qed.
End PitInvariant.

(** ** Specifications *)

Section PitSpecs.
Context {N : NdnCxx} {NL : NdnCxxLaws N} {SC : Scheduler}.
Implicit Types (s : Tables) (p x : ptr) (i : Interest) (e : Entry) (pe : PitEntry).

Definition pitOnly s s' : Prop :=
  fibPart s' = fibPart s ∧ measPart s' = measPart s ∧ scPart s' = scPart s ∧ t_now s' = t_now s.

Lemma TablesInv_pitOnly s s' :
  TablesInv s → NtInv (t_nt s') → PitInv s' → pitOnly s s' → TablesInv s'.
Proof.
  intros [H1 H2 H3 H4 H5] Hnt Hp (E2 & E3 & E4 & _). split; [done| |done| |].
  - by eapply FibInv_part.
  - by eapply MeasInv_part.
  - by eapply ScInv_part.
Qed.

Lemma sameTables_pitOnly s s' : sameTables s s' → pitOnly s s'.
Proof. by intros (? & _ & ?). Qed.

Lemma pitOnly_trans s1 s2 s3 : pitOnly s1 s2 → pitOnly s2 s3 → pitOnly s1 s3.
Proof. unfold pitOnly. intuition congruence. Qed.

(** Setting the PIT entries of a name tree entry. *)
Lemma nt_setPits p f e s :
  NtInv (t_nt s) → ents s !! p = Some e → (f e = set_e_pitEntries (e_pitEntries (f e)) e) →
  wp (nt (updateEntry p f)) (λ _ s', s' = set_nt (t_nt s') s ∧ NtInv (t_nt s') ∧ pitOnly s s' ∧
    ents s' = <[p := f e]> (ents s) ∧
    pitV s' = match e_pitEntries (f e) with
              | [] => delete p (pitV s) | l => <[p := (e_name e, l)]> (pitV s) end) s.
Proof.
  intros Hs Hp Hf. assert (Hl : same_links e (f e)) by (by rewrite Hf).
  eapply wp_mono; [by apply nt_update|]. intros _ s' (Eq & Hnt & E').
  split; [done|]. split; [done|]. split; [|split; [done|]].
  - rewrite Eq. unfold pitOnly, fibPart, measPart, scPart, fibV, measV, scV. simpl.
    change (ents (set_nt (t_nt s') s)) with (ents s'). rewrite E'.
    rewrite Hf, !(view_insert_same _ _ p e) by done. done.
  - unfold pitV. rewrite E', view_insert. unfold pitF.
    replace (e_name (f e)) with (e_name e) by (by rewrite Hf). by destruct (e_pitEntries (f e)).
Qed.

Lemma findMatch_spec i d l s :
  (∀ x, x ∈ l → ∃ pe, t_pits s !! x = Some pe ∧ canMatch_pre pe i d = true) →
  wp (findMatch i d l) (λ r s', s' = s ∧
    match r with
    | Some x => x ∈ l ∧ ∃ pe, t_pits s !! x = Some pe ∧ matchKey pe i
    | None => ∀ x pe, x ∈ l → t_pits s !! x = Some pe → ¬ matchKey pe i
    end) s.
Proof.
  induction l as [|x l IH]; intros Hl; cbn [findMatch].
  - wp_step. split; [done|]. by intros x pe ?%elem_of_nil.
  - destruct (Hl x) as (pe & Hx & Hpre); [constructor|].
    wp_step. apply wp_derefPit. exists pe. split; [done|]. repeat wp_step; [done|].
    destruct (canMatch pe i d) eqn:Hm.
    + wp_step. split; [done|]. split; [constructor|]. exists pe. split; [done|]. by apply canMatch_spec in Hm.
    + eapply wp_mono; [apply IH; intros y Hy; apply Hl; by constructor|]. intros r s' [-> Hr].
      split; [done|]. destruct r as [y|].
      * destruct Hr as [? ?]. split; [by constructor|done].
      * intros y pe' [->|Hy]%elem_of_cons Hpe'; [|by eapply Hr]. simplify_eq.
        intros Hk. apply (canMatch_spec pe i d) in Hk; [congruence|done].
Qed.

Lemma findMatch_entry i p e s :
  TablesInv s → ents s !! p = Some e → e_name e = take (pitDepth (i_name i)) (i_name i) →
  wp (findMatch i (pitDepth (i_name i)) (e_pitEntries e)) (λ r s', s' = s ∧
    match r with
    | Some x => x ∈ e_pitEntries e ∧ ∃ pe, t_pits s !! x = Some pe ∧ isAttached pe ∧ matchKey pe i
    | None => noMatch s i
    end) s.
Proof.
  intros Hs He Hn. eapply wp_mono.
  - apply findMatch_spec. intros x Hx.
    destruct (pits_of_entry _ _ _ _ (tbi_pit _ Hs) He Hx) as (pe & Hpe & _ & Hn').
    exists pe. split; [done|]. unfold canMatch_pre. apply bool_decide_eq_true.
    assert (Hd : pitDepth (i_name i) = pitDepth (pe_name pe)) by (apply take_pitDepth_inj; congruence).
    rewrite Hd at 1. congruence.
  - intros r s' [-> Hr]. split; [done|]. destruct r as [x|].
    + destruct Hr as (Hx & pe & Hpe & Hk). split; [done|]. exists pe. split; [done|]. split; [|done].
      destruct (pits_of_entry _ _ _ _ (tbi_pit _ Hs) He Hx) as (pe' & Hpe' & Hp & _). simplify_eq. by eexists.
    + intros x pe Hpe Ha Hk. apply (Hr x pe); [|done|done].
      eapply matchKey_located; [apply Hs|apply Hs|done..|apply Hk].
Qed.

Lemma insertPitEntry_spec p e x i s :
  TablesInv s → ents s !! p = Some e → e_name e = take (pitDepth (i_name i)) (i_name i) →
  t_pits s !! x = None → noMatch s i →
  let s0 := set_pits (<[x := newPitEntry i]> (t_pits s)) s in
  wp (insertPitEntry p x;; modify (λ s, set_pitItems (size_t (t_pitItems s + 1)) s)) (λ _ s',
    TablesInv s' ∧ pitOnly s s' ∧ t_pits s' = <[x := set_nameTreeEntry (Some p) (newPitEntry i)]> (t_pits s) ∧
    (tidyBut p (ents s) → tidy (ents s'))) s0.
Proof.
  intros Hs He Hn Hx Hno s0. wp_step. unfold insertPitEntry.
  wp_step. apply wp_derefPit. eexists. split; [apply lookup_insert_eq|]. repeat wp_step; [done|].
  eapply wp_mono; [apply (nt_setPits p _ e); [apply Hs|done|done]|].
  intros _ s1 (Eq & Hnt & Ho & E1 & EV). apply wp_updatePit.
  assert (EP : t_pits s1 = <[x := newPitEntry i]> (t_pits s)) by (by rewrite Eq).
  exists (newPitEntry i). split; [by rewrite EP, lookup_insert_eq|]. wp_step. rewrite EP, insert_insert_eq.
  cbn [e_pitEntries set_e_pitEntries] in EV.
  assert (EV' : pitV s1 = <[p:=(e_name e, e_pitEntries e ++ [x])]> (pitV s)).
  { rewrite EV. by destruct (e_pitEntries e). }
  split; [|split; [done|split; [done|]]].
  - eapply (TablesInv_pitOnly s); [done|done| |done].
    eapply (PitInv_insert s _ p e x _ i); [apply Hs|apply Hs|done..|].
    cbn [t_pitItems set_pitItems set_pits]. by rewrite Eq.
  - intros Hb. eapply (tidyBut_tidy p _ (set_e_pitEntries (e_pitEntries e ++ [x]) e)).
    + change (tidyBut p (ents s1)). rewrite E1. apply tidyBut_insert, Hb.
    + change (ents s1 !! p = Some (set_e_pitEntries (e_pitEntries e ++ [x]) e)). by rewrite E1, lookup_insert_eq.
    + apply isEmpty_false. right. unfold hasTableEntries. cbn. destruct (e_fibEntry e), (e_pitEntries e); done.
Qed.

Lemma Pit_insert_spec i s :
  TablesInv s →
  wp (Pit_insert i) (λ r s', TablesInv s' ∧ pitOnly s s' ∧ (tidy (ents s) → tidy (ents s')) ∧
    ∃ x, r.1 = Some x ∧
    if r.2 then noMatch s i ∧ t_pits s !! x = None ∧
      ∃ p, t_pits s' = <[x := set_nameTreeEntry (Some p) (newPitEntry i)]> (t_pits s)
    else t_pits s' = t_pits s ∧ ∃ pe, t_pits s !! x = Some pe ∧ isAttached pe ∧ matchKey pe i) s.
Proof.
  intros Hs. unfold Pit_insert, Pit_findOrInsert. fold (hasDigest (i_name i)). fold (pitDepth (i_name i)).
  do 2 wp_step. eapply wp_mono; [apply nt_lookup; [done|apply pitDepth_le|unfold pitDepth; lia]|].
  intros p s1 (Hs1 & Hsame & (e & He & Hn) & _ & Htidy). wp_step.
  assert (EP : t_pits s1 = t_pits s) by (destruct Hsame as (_ & [= _ ? _] & _); done).
  wp_step. apply nt_derefEntry. exists e. split; [done|]. rewrite set_nt_same.
  wp_step. eapply wp_mono; [by eapply (findMatch_entry i p e)|]. intros r s' [-> Hr]. destruct r as [x|].
  - destruct Hr as (Hx & pe & Hpe & Ha & Hk). wp_step. split; [done|]. split; [by apply sameTables_pitOnly|].
    split; [|exists x; split; [done|]; split; [done|]; rewrite <- EP; eauto].
    intros Ht. eapply (tidyBut_tidy p); [by apply Htidy|done|]. apply isEmpty_false. right.
    unfold hasTableEntries. destruct (e_fibEntry e), (e_pitEntries e); try done. by apply elem_of_nil in Hx.
  - simpl. unfold allocPit. repeat wp_step. set (x := fresh (dom (t_pits s1))).
    assert (Hx : t_pits s1 !! x = None) by (apply not_elem_of_dom, is_fresh).
    pose proof (insertPitEntry_spec p e x i s1 Hs1 He Hn Hx Hr) as Hins. apply wp_bind in Hins.
    eapply wp_mono; [exact Hins|]. clear Hins. intros [] s2 Hins. repeat wp_step. unfold wp in Hins. simpl in Hins.
    destruct Hins as (Hs3 & Ho3 & EP3 & Htidy3). split; [done|].
    split; [by eapply pitOnly_trans; [apply sameTables_pitOnly|]|]. split; [auto|].
    exists x. split; [done|]. simpl. rewrite <- EP. split; [|eauto].
    intros y pe Hy. rewrite <- EP in Hy. exact (Hr y pe Hy).
Qed.

Lemma Pit_find_spec i s :
  TablesInv s → tidy (ents s) →
  wp (Pit_find i) (λ r s', s' = s ∧
    match r with
    | Some x => ∃ pe, t_pits s !! x = Some pe ∧ isAttached pe ∧ matchKey pe i
    | None => noMatch s i
    end) s.
Proof.
  intros Hs Ht. unfold Pit_find, Pit_findOrInsert. fold (hasDigest (i_name i)). fold (pitDepth (i_name i)).
  do 2 wp_step. apply nt_findExactMatch; [apply Hs|].
  destruct (find_name (ents s) _) as [[p e]|] eqn:Hf; simpl.
  - apply find_name_Some in Hf as [He Hn]; [|apply Hs].
    wp_step. apply nt_derefEntry. exists e. split; [done|]. rewrite set_nt_same.
    wp_step. eapply wp_mono; [by eapply (findMatch_entry i p e)|]. intros r s' [-> Hr]. destruct r as [x|]; simpl.
    + repeat wp_step. split; [done|]. by destruct Hr as [_ ?].
    + repeat wp_step; [|done]. by rewrite (Ht _ _ He).
  - repeat wp_step. split; [done|]. intros x pe Hpe [p Hp] (Hk & _).
    destruct (pi_back _ (tbi_pit _ Hs) _ _ _ Hpe Hp) as (n & l & Hv & Hin).
    destruct (pi_fwd _ (tbi_pit _ Hs) _ _ _ _ Hv Hin) as (pe' & Hpe' & _ & ->). simplify_eq.
    apply view_lookup in Hv as (e & He & Hn & _). apply find_name_None in Hf. apply Hf. exists p, e. by rewrite <- Hk.
Qed.

(** An empty name tree entry fails the assertion. *)
Lemma Pit_find_empty i p e s :
  TablesInv s → ents s !! p = Some e → e_name e = take (pitDepth (i_name i)) (i_name i) → isEmpty e = true → Pit_find i s = None.
Proof.
  intros Hs He Hn Hempty. unfold Pit_find. unfold mbind at 1, M_bind.
  enough (Pit_findOrInsert i false s = None) as -> by done. unfold Pit_findOrInsert. fold (hasDigest (i_name i)). fold (pitDepth (i_name i)).
  apply (outcome_bind _ _ (λ r, r = None)), nt_findExactMatch; [apply Hs|].
  rewrite (proj2 (find_name_Some (ents s) _ p e (nti_tree _ (tbi_nt _ Hs))) (conj He Hn)). cbn [fmap option_fmap option_map fst].
  apply (outcome_bind _ _ (λ r, r = None)), nt_derefEntry. exists e. split; [done|]. rewrite set_nt_same.
  apply (outcome_bind _ _ (λ r, r = None)). eapply wp_mono; [by eapply (findMatch_entry i p e)|]. intros r s' [-> Hr]. destruct r as [x|].
  - destruct Hr as [Hx _]. unfold isEmpty, hasTableEntries in Hempty. destruct (e_pitEntries e); [by apply elem_of_nil in Hx|].
    by rewrite !orb_true_r, andb_false_r in Hempty.
  - cbn [negb]. unfold assertM, mbind, M_bind. by rewrite Hempty.
Qed.

Lemma Pit_erase_spec x pe can s :
  TablesInv s → t_pits s !! x = Some pe → isAttached pe →
  wp (Pit_erase x can) (λ _ s', TablesInv s' ∧ pitOnly s s' ∧
    t_pits s' = <[x := set_nameTreeEntry None pe]> (t_pits s) ∧
    (can = true → tidy (ents s) → tidy (ents s'))) s.
Proof.
  intros Hs Hx [p Hp]. destruct (pi_back _ (tbi_pit _ Hs) _ _ _ Hx Hp) as (n & l & Hv & Hin).
  apply view_lookup in Hv as Hv'. destruct Hv' as (e & He & Hn & _).
  destruct (pitV_entries _ _ _ _ _ He Hv) as [-> _]. unfold Pit_erase.
  wp_step. apply wp_derefPit. exists pe. split; [done|]. wp_step. wp_step; [exact Hp|].
  wp_step. unfold erasePitEntry. wp_step. apply wp_derefPit. exists pe. split; [done|].
  wp_step. wp_step; [by apply bool_decide_eq_true|]. wp_step. apply nt_derefEntry. exists e. split; [done|]. rewrite set_nt_same.
  destruct (list_find (λ q, q = x) (e_pitEntries e)) as [[j y]|] eqn:Hf.
  2: { apply list_find_None in Hf. rewrite Forall_forall in Hf. by destruct (Hf x Hin). }
  apply list_find_Some in Hf as (Hj & -> & _). destruct (replace_with_back_spec _ _ _ Hj) as (l' & Hl' & Hperm).
  wp_step. wp_step; [done|]. wp_step. apply wp_updatePit. exists pe. split; [done|].
  wp_step. wp_step; [exact Hl'|]. set (s0 := set_pits _ s).
  eapply wp_mono; [apply (nt_setPits p _ e s0); [apply Hs|done|done]|].
  intros _ s1 (Eq & Hnt & Ho & E1 & EV). cbn [e_pitEntries set_e_pitEntries] in EV.
  set (fin := λ s', set_pitItems (size_t (t_pitItems s' - 1)) s').
  assert (Hfin : ∀ s2, NtInv (t_nt s2) → sameTables s1 s2 → TablesInv (fin s2) ∧ pitOnly s (fin s2) ∧
    t_pits (fin s2) = <[x := set_nameTreeEntry None pe]> (t_pits s)).
  { intros s2 Hnt2 (F1 & F2 & F3 & F4 & F5). unfold pitPart in F2. injection F2 as EV2 EP2 EI2.
    assert (Ho2 : pitOnly s (fin s2)).
    { destruct Ho as (O1 & O2 & O3 & O4). unfold fin. split; [etrans; [exact F1|exact O1]|].
      split; [etrans; [exact F3|exact O2]|]. split; [etrans; [exact F4|exact O3]|]. etrans; [exact F5|exact O4]. }
    assert (EP : t_pits (fin s2) = <[x := set_nameTreeEntry None pe]> (t_pits s)).
    { unfold fin. simpl. by rewrite EP2, Eq. }
    split; [|done]. eapply (TablesInv_pitOnly s); [done|done| |done].
    eapply (PitInv_erase s _ p e x pe l'); [apply Hs|done..| |done|].
    - etrans; [exact EV2|]. rewrite EV. by destruct l'.
    - unfold fin. simpl. by rewrite EI2, Eq. }
  wp_step. destruct can.
  - wp_step. apply wp_nt_eq. assert (He1 : ents s1 !! p = Some (set_e_pitEntries l' e)) by (by rewrite E1, lookup_insert_eq).
    eapply wp_mono; [by apply eraseIfEmpty_spec|]. intros k t (Ht & [Hpr _] & _ & _ & _ & Htidy). repeat wp_step.
    destruct (Hfin (set_nt t s1)) as (? & ? & ?); [done|by apply sameTables_attached|].
    split; [done|]. split; [done|]. split; [done|]. intros _ Hbut. apply Htidy; [done|].
    change (tidyBut p (ents s1)). rewrite E1. by apply tidyBut_insert, tidy_tidyBut.
  - repeat wp_step. destruct (Hfin s1) as (? & ? & ?); [done|apply sameTables_refl|]. done.
Qed.
End PitSpecs.

(** ** Data matching *)

Section PitMatching.
Context {N : NdnCxx} {NL : NdnCxxLaws N} {P : NdnPacket N} {PL : NdnPacketLaws N P} {SC : Scheduler}.
Implicit Types (s : Tables) (p x : ptr) (d : Data) (e : Entry) (pe : PitEntry).

Lemma mapM_total {A B} (f : A → option B) (g : A → B) (l : list A) :
  (∀ a, a ∈ l → f a = Some (g a)) → mapM f l = Some (g <$> l).
Proof.
  induction l as [|a l IH]; intros Hf; [done|]. simpl. rewrite Hf by constructor. simpl.
  rewrite IH; [done|]. intros b Hb. apply Hf. by constructor.
Qed.

Lemma matches_from_elem E sel name i p :
  TreeInv E → p ∈ matches_from E sel name i ↔
    ∃ k e, k ≤ i ∧ E !! p = Some e ∧ e_name e = take k name ∧ sel p e = true.
Proof.
  intros Ht. induction i as [|i IH]; cbn [matches_from]; rewrite elem_of_app.
  - rewrite elem_of_nil. destruct (find_name E (take 0 name)) as [[q e]|] eqn:Hf.
    + apply find_name_Some in Hf as [He Hn]; [|done]. destruct (sel q e) eqn:Hsel.
      * rewrite list_elem_of_singleton. split.
        -- intros [->|[]]. exists 0, e. done.
        -- intros (k & e' & Hk & He' & Hn' & _). left. assert (k = 0) as -> by lia.
           eapply (ti_names _ Ht); [done..|congruence].
      * rewrite elem_of_nil. split; [tauto|]. intros (k & e' & Hk & He' & Hn' & Hs'). assert (k = 0) as -> by lia.
        assert (p = q) as -> by (eapply (ti_names _ Ht); [done..|congruence]). congruence.
    + rewrite elem_of_nil. split; [tauto|]. intros (k & e' & Hk & He' & Hn' & _). assert (k = 0) as -> by lia.
      apply find_name_None in Hf. destruct Hf. by exists p, e'.
  - rewrite IH. destruct (find_name E (take (S i) name)) as [[q e]|] eqn:Hf.
    + apply find_name_Some in Hf as [He Hn]; [|done]. destruct (sel q e) eqn:Hsel.
      * rewrite list_elem_of_singleton. split.
        -- intros [->|(k & e' & ? & ?)]; [by exists (S i), e|]. exists k, e'. split; [lia|done].
        -- intros (k & e' & Hk & He' & Hn' & Hs'). destruct (decide (k = S i)) as [->|].
           ++ left. eapply (ti_names _ Ht); [done..|congruence].
           ++ right. exists k, e'. split; [lia|done].
      * rewrite elem_of_nil. split; [intros [[]|(k & e' & ? & ?)]; exists k, e'; split; [lia|done]|].
        intros (k & e' & Hk & He' & Hn' & Hs'). right. exists k, e'. split; [|done].
        destruct (decide (k = S i)) as [->|]; [|lia].
        assert (p = q) as -> by (eapply (ti_names _ Ht); [done..|congruence]). congruence.
    + rewrite elem_of_nil. split; [intros [[]|(k & e' & ? & ?)]; exists k, e'; split; [lia|done]|].
      intros (k & e' & Hk & He' & Hn' & Hs'). right. exists k, e'. split; [|done].
      destruct (decide (k = S i)) as [->|]; [|lia]. apply find_name_None in Hf. destruct Hf. by exists p, e'.
Qed.

Lemma matches_from_NoDup E sel name i : TreeInv E → i ≤ length name → NoDup (matches_from E sel name i).
Proof.
  intros Ht. induction i as [|i IH]; intros Hi; cbn [matches_from].
  - destruct (find_name _ _) as [[q e]|]; [|constructor]. destruct (sel q e); [apply NoDup_singleton|constructor].
  - apply NoDup_app. split; [|split; [|apply IH; lia]].
    + destruct (find_name _ _) as [[q e]|]; [|constructor]. destruct (sel q e); [apply NoDup_singleton|constructor].
    + intros p Hp (k & e' & Hk & He' & Hn' & _)%matches_from_elem; [|done].
      destruct (find_name _ _) as [[q e]|] eqn:Hf; [|by apply elem_of_nil in Hp].
      destruct (sel q e); [|by apply elem_of_nil in Hp]. apply list_elem_of_singleton in Hp as ->.
      apply find_name_Some in Hf as [He Hn]; [|done]. simplify_eq. rewrite Hn in Hn'.
      apply (f_equal length) in Hn'. rewrite !length_take in Hn'. lia.
Qed.

Definition matchesB s d x : bool :=
  match t_pits s !! x with Some pe => matchesData (pe_interest pe) d | None => false end.

Lemma dataMatches_total s d l :
  (∀ x, x ∈ l → is_Some (t_pits s !! x)) → dataMatches (t_pits s) d l = Some (List.filter (matchesB s d) l).
Proof.
  induction l as [|x l IH]; intros Hl; [done|]. unfold dataMatches in *. cbn [foldr].
  rewrite IH by (intros y Hy; apply Hl; by constructor). destruct (Hl x) as [pe Hpe]; [constructor|].
  cbn [mbind option_bind]. rewrite Hpe. cbn [mbind option_bind List.filter].
  assert (Hb : matchesB s d x = matchesData (pe_interest pe) d) by (unfold matchesB; by rewrite Hpe).
  rewrite Hb. by destruct (matchesData _ _).
Qed.

(** An Interest that matches the Data sits on a prefix of the Data's name. *)
Lemma matching_depth i d :
  matchesData i d = true → take (pitDepth (i_name i)) (i_name i) = take (pitDepth (i_name i)) (d_name d) ∧
  pitDepth (i_name i) ≤ Nat.min (length (d_name d)) getMaxDepth.
Proof.
  intros Hm. destruct (matchesData_spec i d Hm) as [[Hn Hd]|[Hn|[_ [k Hk]]]].
  - assert (Hdig : hasDigest (i_name i) = true).
    { rewrite Hn. unfold hasDigest, d_fullName, lastIs. rewrite last_snoc, Hd.
      rewrite bool_decide_eq_true_2; [done|]. rewrite length_app. simpl. lia. }
    unfold pitDepth. rewrite Hdig, Hn. unfold d_fullName. rewrite length_app. simpl.
    replace (length (d_name d) + 1 - 1) with (length (d_name d)) by lia. split; [|lia].
    rewrite take_app_le by lia. done.
  - rewrite Hn. split; [done|]. unfold pitDepth. lia.
  - pose proof (pitDepth_le (i_name i)) as Hle. split.
    + rewrite Hk, take_app_le by done. done.
    + rewrite Hk, length_app. unfold pitDepth. lia.
Qed.

Lemma Pit_findAllDataMatches_spec d s :
  TablesInv s →
  ∃ l, Pit_findAllDataMatches d s = Some l ∧ NoDup l ∧
  ∀ x, x ∈ l ↔ ∃ pe, t_pits s !! x = Some pe ∧ isAttached pe ∧ matchesData (pe_interest pe) d = true.
Proof.
  intros Hs. pose proof (nti_tree _ (tbi_nt _ Hs)) as Ht. fold (ents s) in Ht. pose proof (tbi_pit _ Hs) as Hp.
  unfold Pit_findAllDataMatches. rewrite findAllMatches_spec by apply Hs. fold (ents s). cbn [mbind option_bind].
  set (ps := matches_from _ _ _ _).
  set (pl := λ p, match ents s !! p with Some e => e_pitEntries e | None => [] end).
  assert (Hps : ∀ p, p ∈ ps → ∃ e, ents s !! p = Some e).
  { intros p (k & e & _ & He & _)%matches_from_elem; [eauto|done]. }
  rewrite (mapM_total _ (λ p, List.filter (matchesB s d) (pl p))).
  2: { intros p (e & He)%Hps. unfold pl. rewrite He. cbn [mbind option_bind]. apply dataMatches_total.
       intros x Hx. destruct (pits_of_entry _ _ _ _ Hp He Hx) as (pe & Hpe & _). by eexists. }
  cbn [mbind option_bind]. eexists. split; [done|].
  assert (Hin : ∀ p x, x ∈ List.filter (matchesB s d) (pl p) ↔ ∃ e pe, ents s !! p = Some e ∧ x ∈ e_pitEntries e ∧
    t_pits s !! x = Some pe ∧ pe_nameTreeEntry pe = Some p ∧ matchesData (pe_interest pe) d = true).
  { intros p x. rewrite list_elem_of_In, filter_In, <- list_elem_of_In. unfold pl, matchesB. split.
    - intros [Hx Hm]. destruct (ents s !! p) as [e|] eqn:He; [|by apply elem_of_nil in Hx].
      destruct (pits_of_entry _ _ _ _ Hp He Hx) as (pe & Hpe & Hnt & _). rewrite Hpe in Hm. eauto 10.
    - intros (e & pe & -> & Hx & -> & _ & Hm). done. }
  split.
  - apply NoDup_concat_fmap; [|by apply matches_from_NoDup; [|lia]|].
    + intros p (e & He)%Hps. apply NoDup_ListNoDup, List.NoDup_filter, NoDup_ListNoDup. unfold pl. rewrite He.
      by eapply pitEntries_NoDup.
    + intros p q x _ _ (e & pe & _ & _ & Hpe & Hnt & _)%Hin (e' & pe' & _ & _ & Hpe' & Hnt' & _)%Hin. congruence.
  - intros x. rewrite list_elem_of_In, in_concat. split.
    + intros (l & Hl & Hx). rewrite <- list_elem_of_In in Hl. apply list_elem_of_fmap in Hl as (p & -> & _).
      rewrite <- list_elem_of_In in Hx. apply Hin in Hx as (e & pe & _ & _ & Hpe & Hnt & Hm).
      exists pe. split; [done|]. split; [by eexists|done].
    + intros (pe & Hpe & [p Hnt] & Hm). destruct (pi_back _ Hp _ _ _ Hpe Hnt) as (n & l & Hv & Hx).
      destruct (pi_fwd _ Hp _ _ _ _ Hv Hx) as (pe' & Hpe' & _ & Hn). simplify_eq.
      apply view_lookup in Hv as (e & He & Hne & Hf).
      assert (Hx' : x ∈ e_pitEntries e) by (unfold pitF in Hf; destruct (e_pitEntries e); naive_solver).
      destruct (matching_depth _ _ Hm) as [Hpre Hdep].
      exists (List.filter (matchesB s d) (pl p)). rewrite <- !list_elem_of_In. split.
      * apply list_elem_of_fmap. exists p. split; [done|]. apply matches_from_elem; [done|].
        exists (pitDepth (pe_name pe)), e. split; [done|]. split; [done|]. split.
        -- rewrite Hne. exact Hpre.
        -- unfold has. apply bool_decide_eq_true. by eexists.
      * apply Hin. eauto 10.
Qed.
End PitMatching.

(** ** Correctness *)

Section PitCorrect.
Context {N : NdnCxx} {NL : NdnCxxLaws N} {SC : Scheduler}.
Implicit Types (s : Tables) (x : ptr) (i : Interest) (pe : PitEntry).

(** Inserting an Interest into the PIT and looking it up again returns the
    same entry; the insertion is new exactly when no entry had the same Name,
    CanBePrefix and MustBeFresh, every other entry and every other table is
    unchanged, and the invariant (unique keys, back pointers, item count) is kept. *)
Theorem pit_insert_find i s :
  TablesInv s → tidy (ents s) →
  wp (r ← Pit_insert i; f ← Pit_find i; mret (r, f)) (λ '(r, f) s',
    TablesInv s' ∧ tidy (ents s') ∧ pitOnly s s' ∧ f = r.1 ∧ (r.2 = true ↔ noMatch s i) ∧
    ∃ x pe, f = Some x ∧ t_pits s' = <[x := pe]> (t_pits s) ∧ isAttached pe ∧ matchKey pe i ∧
      (r.2 = false → t_pits s !! x = Some pe)) s.
Proof.
  intros Hs Htidy. apply wp_bind. eapply wp_mono; [by apply Pit_insert_spec|].
  intros [f0 isNew] s1 (Hs1 & Ho & Ht1 & x & Hf & Hr). cbn [fst snd] in *. subst f0. specialize (Ht1 Htidy).
  assert (∃ pe, t_pits s1 = <[x := pe]> (t_pits s) ∧ isAttached pe ∧ matchKey pe i ∧
    (isNew = true ↔ noMatch s i) ∧ (isNew = false → t_pits s !! x = Some pe)) as (pe & Hpits & Ha & Hk & Hnew & Hold).
  { destruct isNew.
    - destruct Hr as (Hno & _ & p & Hpits). eexists. split; [exact Hpits|]. by split; [eexists|].
    - destruct Hr as (Hpits & pe & Hpe & Ha & Hk). exists pe. rewrite Hpits, insert_id by done.
      split_and!; [done..| |done]. split; [done|]. intros Hno. by destruct (Hno _ _ Hpe Ha). }
  apply wp_bind. eapply wp_mono; [by apply Pit_find_spec|]. intros g s2 [-> Hg]. apply wp_ret.
  assert (Hx : t_pits s1 !! x = Some pe) by (by rewrite Hpits, lookup_insert_eq).
  assert (g = Some x) as ->.
  { destruct g as [y|]; [|by destruct (Hg _ _ Hx Ha)]. destruct Hg as (pe' & Hy & Ha' & Hk'). f_equal.
    destruct Hk as (K1 & K2 & K3), Hk' as (K1' & K2' & K3').
    eapply (pi_unique _ (tbi_pit _ Hs1)); [exact Hy|exact Hx|done..|congruence|congruence|congruence]. }
  split_and!; [done..|]. exists x, pe. done.
Qed.
End PitCorrect.

Section PitDataCorrect.
Context {N : NdnCxx} {NL : NdnCxxLaws N} {SC : Scheduler} {P : NdnPacket N} {PL : NdnPacketLaws N P}.
Implicit Types (s : Tables) (x : ptr) (pe : PitEntry).

(** C16: The PIT entries found for a Data packet are, each once, the entries of
    the table whose Interest matches the Data, wherever in the name tree they are
    attached (prefixes, implicit digests and names beyond the depth limit). *)
Theorem pit_data_matches d s :
  TablesInv s →
  ∃ l, Pit_findAllDataMatches d s = Some l ∧ NoDup l ∧
  ∀ x, x ∈ l ↔ ∃ pe, t_pits s !! x = Some pe ∧ isAttached pe ∧ matchesData (pe_interest pe) d = true.
Proof. apply Pit_findAllDataMatches_spec. Qed.
End PitDataCorrect.

(** Example: the PIT with an Interest for /101. *)
Definition pit1 : Tables := run (Pit_insert (exInterest [101] true 1)) tables0.

Lemma pit1_inv : TablesInv pit1 ∧ tidy (ents pit1).
Proof.
  destruct (run_spec _ _ _ (Pit_insert_spec (exInterest [101] true 1) tables0 (proj1 tables0_inv)))
    as (r & H1 & _ & H2 & _). exact (conj H1 (H2 (proj2 tables0_inv))).
Qed.

Lemma pit_insert_find_witness :
  wp (r ← Pit_insert (exInterest [101] true 2); f ← Pit_find (exInterest [101] true 2); mret (r, f)) (λ '(r, f) s',
    TablesInv s' ∧ f = r.1) pit1.
Proof.
  eapply wp_mono; [exact (pit_insert_find (exInterest [101] true 2) pit1 (proj1 pit1_inv) (proj2 pit1_inv))|].
  intros [r f] s' (H1 & _ & _ & H2 & _). exact (conj H1 H2).
Defined.

Lemma pit_data_matches_witness :
  ∃ l, Pit_findAllDataMatches (P := NatPacket) (exData [101; 102] 0) pit1 = Some l ∧ NoDup l.
Proof.
  destruct (pit_data_matches (P := NatPacket) (exData [101; 102] 0) pit1 (proj1 pit1_inv)) as (l & H1 & H2 & _).
  exists l. exact (conj H1 H2).
Defined.
