(* ===== verification/Measurements.v ===== *)
(** * The Measurements table

    [src/daemon/table/measurements.cpp].  A [measurements::Entry*] is the address
    of the name tree entry that owns it.  [Measurements_fire] is the callback of
    the cleanup event, run by the scheduler once the event has left its queue. *)

From Stdlib Require Import ZArith Lia.
From stdpp Require Import base gmap option list.
From S2P Require Import Prelude Scheduler CityHash Ndn FibEntry PitEntry NameTreeEntry Hashtable NameTree.
From S2P Require Import NameTreeIterator Tables Pit.

Section Measurements.
Context {N : NdnCxx} {SC : Scheduler}.

(** [lookup(const fib::Entry&)]: [None] is [Fib::s_emptyEntry], whose prefix is
    empty. *)
Definition NameTree_lookup_fib (fibEntry : option ptr) : M Tables ptr :=
  match fibEntry with
  | None => nt (NameTree_lookup [] 0)
  | Some nte => e ← nt (derefEntry nte); assertM (bool_decide (is_Some (e_fibEntry e)));; mret nte
  end.

(** [getInitialLifetime()], 4 seconds in nanoseconds. *)
Definition getInitialLifetime : Z := 4000000000.

Definition scheduleM (after : Z) (ev : Event) : M Tables positive :=
  s ← get_st;
  let '(sc, i) := schedule (t_now s + after) ev (t_sched s) in
  put_st (set_sched sc s);;
  mret i.

Definition cancelM (i : option positive) : M Tables unit :=
  modify (λ s, set_sched (cancel i (t_sched s)) s).

(** [Measurements::get(name_tree::Entry&)] *)
Definition Measurements_get_nte (nte : ptr) : M Tables ptr :=
  e ← nt (derefEntry nte);
  match e_measurementsEntry e with
  | Some _ => mret nte
  | None =>
      nt (updateEntry nte (setMeasurementsEntry (Some (newMeasurementsEntry (e_name e)))));;
      modify (λ s, set_measItems (size_t (t_measItems s + 1)) s);;
      now ← gets t_now;
      i ← scheduleM getInitialLifetime (MeasurementsCleanup nte);
      nt (updateEntry nte (λ e, setMeasurementsEntry
        ((λ me, set_me_cleanup (Some i) (set_me_expiry (now + getInitialLifetime) me)) <$> e_measurementsEntry e) e));;
      mret nte
  end.

Definition Measurements_get (name : Name) : M Tables ptr :=
  nte ← nt (NameTree_lookup name (Nat.min (length name) getMaxDepth));
  Measurements_get_nte nte.

Definition Measurements_get_fib (fibEntry : option ptr) : M Tables ptr :=
  nte ← NameTree_lookup_fib fibEntry;
  Measurements_get_nte nte.

Definition Measurements_get_pit (pitEntry : ptr) : M Tables ptr :=
  pe ← derefPit pitEntry;
  nte ← nt (NameTree_lookup_pit pitEntry pe);
  Measurements_get_nte nte.

Definition Measurements_getParent (child : ptr) : M Tables (option ptr) :=
  e ← nt (derefEntry child);
  if decide (e_name e = []) then mret None
  else
    nte ← someM (e_parent e);
    r ← Measurements_get_nte nte;
    mret (Some r).

(** [EntryPredicate] *)
Definition measSel (pred : MeasurementsEntry → bool) (e : Entry) : option MeasurementsEntry :=
  me ← e_measurementsEntry e; if pred me then Some me else None.

Definition Measurements_findLongestPrefixMatch (name : Name) (pred : MeasurementsEntry → bool)
  : M Tables (option ptr) :=
  nt (findLongestPrefixMatch (take getMaxDepth name) (has (measSel pred))).

Definition Measurements_findLongestPrefixMatch_pit (pitEntry : ptr) (pred : MeasurementsEntry → bool)
  : M Tables (option ptr) :=
  pe ← derefPit pitEntry;
  Measurements_findLongestPrefixMatch (pe_name pe) pred.

Definition Measurements_findExactMatch (name : Name) : M Tables (option ptr) :=
  nte ← nt (NameTree_findExactMatch name (length name));
  match nte with
  | Some p => e ← nt (derefEntry p); mret (_ ← e_measurementsEntry e; Some p)
  | None => mret None
  end.

Definition extendLifetime (entry : ptr) (lifetime : Z) : M Tables unit :=
  e ← nt (derefEntry entry);
  me ← someM (e_measurementsEntry e);
  now ← gets t_now;
  let expiry := (now + lifetime)%Z in
  if (expiry <=? me_expiry me)%Z then mret tt
  else
    cancelM (me_cleanup me);;
    i ← scheduleM lifetime (MeasurementsCleanup entry);
    nt (updateEntry entry (setMeasurementsEntry (Some (set_me_cleanup (Some i) (set_me_expiry expiry me))))).

Definition Measurements_cleanup (entry : ptr) : M Tables unit :=
  e ← nt (derefEntry entry);
  assertM (bool_decide (is_Some (e_measurementsEntry e)));;
  nt (updateEntry entry (setMeasurementsEntry None));;
  nt (eraseIfEmpty entry true);;
  modify (λ s, set_measItems (size_t (t_measItems s - 1)) s).

(** The scheduler takes a due event out of its queue and runs its callback. *)
Definition Measurements_fire (i : positive) : M Tables unit :=
  s ← get_st;
  ev ← someM (sched_pending (t_sched s) !! i);
  cancelM (Some i);;
  match ev with
  | (_, MeasurementsCleanup nte) => Measurements_cleanup nte
  | _ => mret tt
  end.
End Measurements.

Section MeasurementsSpecs.
Context {N : NdnCxx} {NL : NdnCxxLaws N} {SC : Scheduler} {SCL : SchedulerLaws SC}.
Implicit Types (s : Tables) (p x : ptr) (e : Entry) (me : MeasurementsEntry).

(** A Measurements operation leaves the other tables and the PIT timers alone. *)
Definition samePitTimers s s' : Prop :=
  ∀ i t x, sched_pending (t_sched s') !! i = Some (t, PitExpiry x) ↔
           sched_pending (t_sched s) !! i = Some (t, PitExpiry x).
Definition measOnly s s' : Prop :=
  fibPart s' = fibPart s ∧ pitPart s' = pitPart s ∧ scPart s' = scPart s ∧ t_now s' = t_now s ∧ samePitTimers s s'.

Lemma TablesInv_measOnly s s' :
  TablesInv s → NtInv (t_nt s') → MeasInv s' → measOnly s s' → TablesInv s'.
Proof.
  intros [H1 H2 H3 H4 H5] Hnt Hp (E2 & E3 & E4 & _). split; [done| | |done|].
  - by eapply FibInv_part.
  - by eapply PitInv_part.
  - by eapply ScInv_part.
Qed.

Lemma samePitTimers_refl s : samePitTimers s s.
Proof. done. Qed.

Lemma sameTables_measOnly s s' : sameTables s s' → measOnly s s'.
Proof.
  intros (? & ? & E & ? & ?). split_and!; try done. unfold measPart in E. injection E as _ _ E.
  intros i t x. by rewrite E.
Qed.

Lemma measOnly_trans s1 s2 s3 : measOnly s1 s2 → measOnly s2 s3 → measOnly s1 s3.
Proof.
  intros (A1 & A2 & A3 & A4 & A5) (B1 & B2 & B3 & B4 & B5). split_and!; [congruence..|].
  intros i t x. etrans; [apply B5|apply A5].
Qed.

Lemma measV_lookup s p n me :
  measV s !! p = Some (n, me) ↔ ∃ e, ents s !! p = Some e ∧ e_name e = n ∧ e_measurementsEntry e = Some me.
Proof. apply view_lookup. Qed.

(** Setting the Measurements entry of a name tree entry. *)
Lemma nt_setMeas p f e s :
  NtInv (t_nt s) → ents s !! p = Some e → (f e = setMeasurementsEntry (e_measurementsEntry (f e)) e) →
  wp (nt (updateEntry p f)) (λ _ s', s' = set_nt (t_nt s') s ∧ NtInv (t_nt s') ∧ measOnly s s' ∧
    ents s' = <[p := f e]> (ents s) ∧
    measV s' = match e_measurementsEntry (f e) with
               | None => delete p (measV s) | Some me => <[p := (e_name e, me)]> (measV s) end) s.
Proof.
  intros Hs Hp Hf. assert (Hl : same_links e (f e)) by (by rewrite Hf).
  eapply wp_mono; [by apply nt_update|]. intros _ s' (Eq & Hnt & E').
  split; [done|]. split; [done|]. split; [|split; [done|]].
  - rewrite Eq. unfold measOnly, fibPart, pitPart, scPart, fibV, pitV, scV. simpl.
    change (ents (set_nt (t_nt s') s)) with (ents s'). rewrite E'.
    rewrite Hf, !(view_insert_same _ _ p e) by done. done.
  - unfold measV. rewrite E', view_insert. unfold measF.
    replace (e_name (f e)) with (e_name e) by (by rewrite Hf). by destruct (e_measurementsEntry (f e)).
Qed.

Lemma wp_scheduleM after ev Q s :
  (∀ sc i, ¬ sched_issued (t_sched s) i → sched_pending sc = <[i := ((t_now s + after)%Z, ev)]> (sched_pending (t_sched s)) →
     Q i (set_sched sc s)) →
  wp (scheduleM after ev) Q s.
Proof.
  intros HQ. unfold scheduleM. do 2 wp_step.
  destruct (schedule (t_now s + after) ev (t_sched s)) as [sc i] eqn:E.
  destruct (schedule_spec _ _ _ _ _ E) as (H1 & _ & H2). repeat wp_step. by apply HQ.
Qed.

(** The invariant with one more entry, or a later cleanup of an entry. *)
Lemma MeasInv_set s s' p n me i t old :
  MeasInv s → ¬ sched_issued (t_sched s) i → me_name me = n → me_cleanup me = Some i → me_expiry me = t →
  measV s' = <[p := (n, me)]> (measV s) →
  sched_pending (t_sched s') = <[i := (t, MeasurementsCleanup p)]>
    (match old with Some j => delete j (sched_pending (t_sched s)) | None => sched_pending (t_sched s) end) →
  match measV s !! p with Some (_, me0) => old = me_cleanup me0 | None => old = None end →
  t_measItems s' = size_t (Z.of_nat (size (<[p := (n, me)]> (measV s)))) → MeasInv s'.
Proof.
  intros Hs Hi Hn Hc Ht EV ES Hold EI.
  assert (Hne : ∀ j v, sched_pending (t_sched s) !! j = Some v → j ≠ i).
  { intros j v Hj ->. apply Hi. apply pending_issued. by eexists. }
  assert (Hold' : ∀ q m me0, measV s !! q = Some (m, me0) → q ≠ p → me_cleanup me0 ≠ old ∨ old = None).
  { intros q m me0 Hq Hqp. destruct (mi_entry _ Hs _ _ _ Hq) as (_ & j & Hj & Hev).
    destruct old as [k|]; [|by right]. left. intros E. rewrite Hj in E. injection E as ->.
    destruct (measV s !! p) as [[m' me1]|] eqn:Hp; [|done].
    destruct (mi_entry _ Hs _ _ _ Hp) as (_ & j' & Hj' & Hev'). congruence. }
  split.
  - intros q m me'. rewrite EV, lookup_insert_Some. intros [[<- [= <- <-]]|[Hq Hv]].
    + split; [done|]. exists i. rewrite ES, lookup_insert_eq. split; [done|]. by rewrite Ht.
    + destruct (mi_entry _ Hs _ _ _ Hv) as (Hn' & j & Hj & Hev). split; [done|]. exists j. split; [done|].
      rewrite ES, lookup_insert_ne by (intros <-; by eapply Hne).
      destruct (Hold' _ _ _ Hv) as [Ho| ->]; [done| |done]. destruct old as [k|]; [|done].
      rewrite lookup_delete_ne; [done|]. congruence.
  - intros j t' q. rewrite ES, lookup_insert_Some. intros [[<- [= <- <-]]|[Hj Hev]].
    + exists n, me. by rewrite EV, lookup_insert_eq.
    + assert (Hev' : sched_pending (t_sched s) !! j = Some (t', MeasurementsCleanup q) ∧ old ≠ Some j).
      { destruct old as [k|]; [apply lookup_delete_Some in Hev as [??]; split; [done|congruence]|done]. }
      destruct Hev' as [Hev' Hoj]. destruct (mi_event _ Hs _ _ _ Hev') as (m & me0 & Hv & Hc0).
      exists m, me0. rewrite EV. rewrite lookup_insert_ne; [done|]. intros <-. rewrite Hv in Hold. congruence.
  - by rewrite EV.
Qed.

Lemma MeasInv_remove s s' p n me i t :
  MeasInv s → measV s !! p = Some (n, me) → me_cleanup me = Some i →
  sched_pending (t_sched s) !! i = Some (t, MeasurementsCleanup p) →
  measV s' = delete p (measV s) → sched_pending (t_sched s') = delete i (sched_pending (t_sched s)) →
  t_measItems s' = size_t (t_measItems s - 1) → MeasInv s'.
Proof.
  intros Hs Hv Hc Hi EV ES EI. split.
  - intros q m me'. rewrite EV, lookup_delete_Some. intros [Hq Hv'].
    destruct (mi_entry _ Hs _ _ _ Hv') as (Hn' & j & Hj & Hev). split; [done|]. exists j. split; [done|].
    rewrite ES, lookup_delete_ne; [done|]. intros <-. congruence.
  - intros j t' q. rewrite ES, lookup_delete_Some. intros [Hj Hev].
    destruct (mi_event _ Hs _ _ _ Hev) as (m & me0 & Hv0 & Hc0). exists m, me0.
    rewrite EV, lookup_delete_ne; [done|]. intros <-. congruence.
  - rewrite EI, EV, (mi_items _ Hs), map_size_delete_Some by (by eexists).
    pose proof (map_size_ne_0_lookup_2 (measV s) p ltac:(by eexists)).
    replace (size (measV s)) with (S (Init.Nat.pred (size (measV s)))) at 1 by lia. apply size_t_pred.
Qed.

Lemma Measurements_get_nte_spec p e s :
  TablesInv s → ents s !! p = Some e →
  wp (Measurements_get_nte p) (λ r s', r = p ∧ TablesInv s' ∧ measOnly s s' ∧
    (tidyBut p (ents s) → tidy (ents s')) ∧
    match e_measurementsEntry e with
    | Some _ => s' = s
    | None => ∃ me, measV s' = <[p := (e_name e, me)]> (measV s) ∧ me_info me = ∅ ∧
        me_expiry me = (t_now s + getInitialLifetime)%Z
    end) s.
Proof.
  intros Hs He. unfold Measurements_get_nte. wp_step. apply nt_derefEntry. exists e. split; [done|]. rewrite set_nt_same.
  destruct (e_measurementsEntry e) as [me|] eqn:Hme.
  { wp_step. split; [done|]. split; [done|]. split; [by apply sameTables_measOnly|]. split; [|done].
    intros Hb. eapply (tidyBut_tidy p); [done|done|]. apply isEmpty_false. right. unfold hasTableEntries.
    rewrite Hme. by destruct (e_fibEntry e), (e_pitEntries e). }
  wp_step. eapply wp_mono; [apply (nt_setMeas p _ e); [apply Hs|done|done]|].
  intros _ s1 (Eq1 & Hnt1 & Ho1 & E1 & EV1). cbn [e_measurementsEntry setMeasurementsEntry] in EV1.
  do 5 wp_step. apply wp_scheduleM. cbn [t_sched t_now set_measItems].
  assert (Esch : t_sched s1 = t_sched s) by (by rewrite Eq1). assert (Enow : t_now s1 = t_now s) by (by rewrite Eq1).
  rewrite Esch, Enow. intros sc i Hi Hpend. wp_step.
  set (s2 := set_sched sc (set_measItems (size_t (t_measItems s1 + 1)) s1)).
  assert (He2 : ents s2 !! p = Some (setMeasurementsEntry (Some (newMeasurementsEntry (e_name e))) e)).
  { change (ents s2) with (ents s1). by rewrite E1, lookup_insert_eq. }
  eapply wp_mono; [eapply (nt_setMeas p _ _ s2); [done|exact He2|done]|].
  intros _ s3 (Eq3 & Hnt3 & Ho3 & E3 & EV3). wp_step. cbn [e_measurementsEntry setMeasurementsEntry fmap option_fmap option_map] in EV3.
  set (me := set_me_cleanup _ _) in EV3. cbn [e_name setMeasurementsEntry] in EV3.
  change (measV s2) with (measV s1) in EV3. rewrite EV1, insert_insert_eq in EV3.
  assert (Hnone : measV s !! p = None).
  { destruct (measV s !! p) as [[m me']|] eqn:Hv; [|done]. apply measV_lookup in Hv as (e' & He' & _ & Hme'). congruence. }
  assert (Epend : sched_pending (t_sched s3) =
    <[i := ((t_now s + getInitialLifetime)%Z, MeasurementsCleanup p)]> (sched_pending (t_sched s))) by (rewrite Eq3; exact Hpend).
  assert (Ho : measOnly s s3).
  { eapply measOnly_trans; [exact Ho1|]. eapply measOnly_trans; [|exact Ho3]. split_and!; try done.
    intros j t x. change (t_sched s2) with sc. rewrite Hpend, Esch, lookup_insert_Some. split; [naive_solver|].
    intros Hj. right. split; [|done]. intros <-. apply Hi, pending_issued. by eexists. }
  split; [done|]. split; [|split; [done|split]].
  - eapply (TablesInv_measOnly s); [done|done| |done].
    eapply (MeasInv_set s s3 p (e_name e) me i (t_now s + getInitialLifetime) None);
      [apply Hs|done|done|done|done|done|exact Epend|by rewrite Hnone|].
    rewrite Eq3. cbn [t_measItems set_nt]. unfold s2. cbn [t_measItems set_sched set_measItems].
    rewrite Eq1. cbn [t_measItems set_nt]. rewrite (mi_items _ (tbi_meas _ Hs)), map_size_insert_None by done.
    apply size_t_succ.
  - intros Hb. eapply (tidyBut_tidy p (ents s3)); [|by rewrite E3, lookup_insert_eq|].
    + rewrite E3. apply tidyBut_insert. change (ents s2) with (ents s1). rewrite E1. by apply tidyBut_insert.
    + apply isEmpty_false. right. unfold hasTableEntries. cbn. by destruct (e_fibEntry e), (e_pitEntries e).
  - exists me. done.
Qed.

(** The effect of a [get] on the table, for the entry of [name]. *)
Definition gotMeasurements s s' p (name : Name) : Prop :=
  TablesInv s' ∧ measOnly s s' ∧ (tidy (ents s) → tidy (ents s')) ∧
  match atName (measV s) name with
  | Some (q, _) => p = q ∧ measV s' = measV s
  | None => ∃ me, measV s' = <[p := (name, me)]> (measV s) ∧ measV s !! p = None ∧
      me_info me = ∅ ∧ me_expiry me = (t_now s + getInitialLifetime)%Z
  end.

Lemma measV_unique s : TablesInv s → uniqueV (measV s).
Proof. intros Hs. apply view_unique. apply Hs. Qed.

Lemma get_after_lookup s s1 p e name :
  TablesInv s1 → sameTables s s1 → ents s1 !! p = Some e → e_name e = name →
  (tidy (ents s) → tidyBut p (ents s1)) →
  wp (Measurements_get_nte p) (λ r s', r = p ∧ gotMeasurements s s' p name) s1.
Proof.
  intros Hs1 Hsame He Hn Htidy. eapply wp_mono; [by eapply Measurements_get_nte_spec|].
  intros r s' (-> & Hs' & Ho & Ht & Hcase). split; [done|].
  assert (EV : measV s1 = measV s) by (destruct Hsame as (_ & _ & [= ? _ _] & _); done).
  assert (Enow : t_now s1 = t_now s) by apply Hsame.
  split; [done|]. split; [by eapply measOnly_trans; [apply sameTables_measOnly|]|]. split; [auto|].
  destruct (e_measurementsEntry e) as [me|] eqn:Hme.
  - subst s'. assert (Hv : measV s1 !! p = Some (name, me)) by (apply measV_lookup; eauto).
    rewrite <- EV, (proj2 (atName_Some _ _ _ _ (measV_unique s1 Hs1)) Hv). done.
  - destruct Hcase as (me & EV' & Hinfo & Hexp).
    assert (Hat : atName (measV s) name = None).
    { apply atName_None. intros q me' Hq. rewrite <- EV in Hq. apply measV_lookup in Hq as (e' & He' & Hn' & Hme').
      assert (q = p) as -> by (eapply (ti_names _ (nti_tree _ (tbi_nt _ Hs1))); [done..|congruence]). congruence. }
    rewrite Hat. exists me. rewrite EV', EV, Hn, Hexp, Enow. split; [done|]. split; [|done].
    destruct (measV s !! p) as [[m me']|] eqn:Hv; [|done]. rewrite <- EV in Hv.
    apply measV_lookup in Hv as (e' & He' & _ & Hme'). congruence.
Qed.

Lemma Measurements_get_spec name s :
  TablesInv s → wp (Measurements_get name) (λ p s', gotMeasurements s s' p (take getMaxDepth name)) s.
Proof.
  intros Hs. unfold Measurements_get. wp_step. eapply wp_mono; [apply nt_lookup; [done|lia|lia]|].
  intros p s1 (Hs1 & Hsame & (e & He & Hn) & _ & Htidy).
  assert (Hn' : e_name e = take getMaxDepth name).
  { rewrite Hn. destruct (Nat.min_spec (length name) getMaxDepth) as [[? ->]|[? ->]]; [|done]. by rewrite !take_ge by lia. }
  eapply wp_mono; [by eapply get_after_lookup|]. by intros r s' [-> ?].
Qed.

(** [lookup(const pit::Entry&)] is [lookup] of the name cut at the depth limit. *)
Lemma nt_lookup_pit x pe s :
  TablesInv s → t_pits s !! x = Some pe → isAttached pe →
  wp (nt (NameTree_lookup_pit x pe)) (λ p s', TablesInv s' ∧ sameTables s s' ∧
    (∃ e, ents s' !! p = Some e ∧ e_name e = take getMaxDepth (pe_name pe)) ∧
    (tidy (ents s) → tidyBut p (ents s'))) s.
Proof.
  intros Hs Hx Ha. unfold NameTree_lookup_pit. fold (hasDigest (pe_name pe)).
  destruct (hasDigest (pe_name pe) && bool_decide (length (pe_name pe) ≤ getMaxDepth)) eqn:Hd.
  - apply andb_true_iff in Hd as [_ Hl%bool_decide_eq_true].
    eapply wp_mono; [by apply nt_lookup|]. intros p s' (? & ? & (e & He & Hn) & _ & ?). split; [done|]. split; [done|].
    split; [|done]. exists e. split; [done|]. rewrite Hn. by rewrite !take_ge by lia.
  - destruct Ha as [p Hp]. destruct (pi_back _ (tbi_pit _ Hs) _ _ _ Hx Hp) as (n & l & Hv & Hin).
    destruct (pi_fwd _ (tbi_pit _ Hs) _ _ _ _ Hv Hin) as (pe' & Hpe' & _ & Hn). simplify_eq.
    apply view_lookup in Hv as Hv'. destruct Hv' as (e & He & Hne & Hf).
    destruct (pitV_entries _ _ _ _ _ He Hv) as [-> _].
    apply wp_nt_eq. wp_step. wp_step; [exact Hp|]. wp_step. apply wp_derefEntry. exists e. split; [done|]. repeat wp_step.
    + apply bool_decide_eq_true. pose proof (pitEntries_NoDup _ _ _ (tbi_pit _ Hs) He) as Hnd.
      clear -Hnd Hin. induction (e_pitEntries e) as [|y l IH]; [by apply elem_of_nil in Hin|].
      apply NoDup_cons in Hnd as [Hy Hnd]. destruct (decide (y = x)) as [->|Hne].
      * rewrite filter_cons_True by done. simpl. by rewrite filter_none.
      * rewrite filter_cons_False by done. apply IH; [|done]. apply elem_of_cons in Hin as [->|]; done.
    + rewrite set_nt_same. split; [done|]. split; [apply sameTables_refl|]. split; [|apply tidy_tidyBut].
      exists e. split; [done|]. rewrite Hne. unfold pitDepth in *.
      destruct (hasDigest (pe_name pe)); simpl in Hd.
      * apply bool_decide_eq_false in Hd. f_equal. lia.
      * destruct (Nat.min_spec (length (pe_name pe) - 0) getMaxDepth) as [[? ->]|[? ->]]; [|done]. by rewrite !take_ge by lia.
Qed.

Lemma Measurements_get_pit_spec x pe s :
  TablesInv s → t_pits s !! x = Some pe → isAttached pe →
  wp (Measurements_get_pit x) (λ p s', gotMeasurements s s' p (take getMaxDepth (pe_name pe))) s.
Proof.
  intros Hs Hx Ha. unfold Measurements_get_pit. wp_step. apply wp_derefPit. exists pe. split; [done|].
  wp_step. eapply wp_mono; [by apply nt_lookup_pit|]. intros p s1 (Hs1 & Hsame & (e & He & Hn) & Htidy).
  eapply wp_mono; [by eapply get_after_lookup|]. by intros r s' [-> ?].
Qed.

Lemma extendLifetime_spec p n me lifetime s :
  TablesInv s → measV s !! p = Some (n, me) →
  wp (extendLifetime p lifetime) (λ _ s', TablesInv s' ∧ measOnly s s' ∧
    ∃ me', measV s' = <[p := (n, me')]> (measV s) ∧
    me_expiry me' = Z.max (me_expiry me) (t_now s + lifetime) ∧ me_info me' = me_info me) s.
Proof.
  intros Hs Hv. apply measV_lookup in Hv as Hv'. destruct Hv' as (e & He & Hn & Hme).
  destruct (mi_entry _ (tbi_meas _ Hs) _ _ _ Hv) as (Hname & i0 & Hc & Hev).
  unfold extendLifetime. wp_step. apply nt_derefEntry. exists e. split; [done|]. rewrite set_nt_same.
  wp_step. wp_step; [exact Hme|]. do 2 wp_step.
  destruct (Z.leb_spec (t_now s + lifetime) (me_expiry me)).
  { wp_step. split; [done|]. split; [by apply sameTables_measOnly|]. exists me. rewrite insert_id by done. split; [done|]. split; [lia|done]. }
  wp_step. unfold cancelM. wp_step. wp_step. apply wp_scheduleM. cbn [t_sched t_now set_sched].
  destruct (cancel_spec (me_cleanup me) (t_sched s)) as [Hiss Hcp]. intros sc i Hi Hpend. rewrite Hiss in Hi. rewrite Hcp in Hpend.
  set (s2 := set_sched sc _). set (me' := set_me_cleanup _ _).
  eapply wp_mono; [apply (nt_setMeas p _ e s2); [apply Hs|done|done]|].
  intros _ s3 (Eq3 & Hnt3 & Ho3 & E3 & EV3). cbn [e_measurementsEntry setMeasurementsEntry] in EV3.
  assert (Epend : sched_pending (t_sched s3) = <[i := ((t_now s + lifetime)%Z, MeasurementsCleanup p)]>
    (match me_cleanup me with Some j => delete j (sched_pending (t_sched s)) | None => sched_pending (t_sched s) end)).
  { rewrite Eq3. exact Hpend. }
  assert (Ho : measOnly s s3).
  { eapply measOnly_trans; [|exact Ho3]. split_and!; try done. intros j t x.
    change (t_sched s2) with sc. rewrite Hpend, Hc, lookup_insert_Some, lookup_delete_Some. split; [naive_solver|].
    intros Hj. right. split; [intros <-; apply Hi, pending_issued; by eexists|]. split; [congruence|done]. }
  split; [|split; [done|]].
  - eapply (TablesInv_measOnly s); [done|done| |done].
    eapply (MeasInv_set s s3 p n me' i (t_now s + lifetime) (me_cleanup me));
      [apply Hs|done|done|done|done|by rewrite EV3, Hn|exact Epend|by rewrite Hv|].
    rewrite Eq3. cbn [t_measItems set_nt]. change (t_measItems s2) with (t_measItems s).
    rewrite (mi_items _ (tbi_meas _ Hs)). by rewrite map_size_insert_Some by (by eexists).
  - exists me'. rewrite EV3, Hn. split; [done|]. split; [simpl; lia|done].
Qed.

Lemma Measurements_fire_spec i t p s :
  TablesInv s → sched_pending (t_sched s) !! i = Some (t, MeasurementsCleanup p) →
  wp (Measurements_fire i) (λ _ s', TablesInv s' ∧ measOnly s s' ∧ measV s' = delete p (measV s) ∧
    (tidy (ents s) → tidy (ents s')) ∧ is_Some (measV s !! p)) s.
Proof.
  intros Hs Hi. destruct (mi_event _ (tbi_meas _ Hs) _ _ _ Hi) as (n & me & Hv & Hc).
  apply measV_lookup in Hv as Hv'. destruct Hv' as (e & He & Hn & Hme).
  unfold Measurements_fire. do 2 wp_step. wp_step. wp_step; [exact Hi|]. unfold cancelM. do 2 wp_step.
  destruct (cancel_spec (Some i) (t_sched s)) as [_ Hcp]. set (s1 := set_sched _ s).
  unfold Measurements_cleanup. wp_step. apply nt_derefEntry. exists e. split; [done|]. rewrite set_nt_same.
  wp_step. wp_step; [apply bool_decide_eq_true; by eexists|].
  wp_step. eapply wp_mono; [apply (nt_setMeas p _ e s1); [apply Hs|done|done]|].
  intros _ s2 (Eq2 & Hnt2 & Ho2 & E2 & EV2). cbn [e_measurementsEntry setMeasurementsEntry] in EV2.
  assert (He2 : ents s2 !! p = Some (setMeasurementsEntry None e)) by (by rewrite E2, lookup_insert_eq).
  wp_step. apply wp_nt_eq. eapply wp_mono; [by apply eraseIfEmpty_spec|].
  intros k t' (Ht & [Hpr _] & _ & _ & _ & Htidy). wp_step. set (s3 := set_nt t' s2).
  destruct (sameTables_attached s2 t' Hpr) as (F1 & F2 & F3 & F4 & F5). fold s3 in F1, F2, F3, F4, F5.
  unfold measPart in F3. injection F3 as EV3.
  assert (ES : sched_pending (t_sched s3) = delete i (sched_pending (t_sched s))).
  { change (t_sched s3) with (t_sched s2). rewrite Eq2. exact Hcp. }
  assert (Ho : measOnly s s3).
  { eapply (measOnly_trans s s1).
    - split_and!; try done. intros j u x. cbn [t_sched set_sched]. unfold s1. cbn [t_sched set_sched].
      rewrite Hcp, lookup_delete_Some. split; [naive_solver|]. intros Hj. split; [congruence|done].
    - eapply measOnly_trans; [exact Ho2|]. apply sameTables_measOnly. by apply sameTables_attached. }
  split; [|split; [done|split; [|split]]].
  - eapply (TablesInv_measOnly s); [done|done| |done].
    eapply (MeasInv_remove s _ p n me i t); [apply Hs|done|done|done|etrans; [exact EV3|exact EV2]|exact ES|].
    cbn [t_measItems set_measItems]. unfold s3. cbn [t_measItems set_nt]. by rewrite Eq2.
  - etrans; [exact EV3|exact EV2].
  - intros Hb. apply Htidy; [done|]. change (tidyBut p (ents s2)). rewrite E2. by apply tidyBut_insert, tidy_tidyBut.
  - by eexists.
Qed.
End MeasurementsSpecs.

(** ** Correctness *)

Section MeasurementsCorrect.
Context {N : NdnCxx} {NL : NdnCxxLaws N} {SC : Scheduler} {SCL : SchedulerLaws SC}.
Implicit Types (s : Tables) (p : ptr) (n : Name) (me : MeasurementsEntry).

(** Every Measurements entry has a pending cleanup event due at its expiry;
    extending the lifetime moves the expiry to the later of the two times and
    keeps the strategy's data, and when the event runs the entry disappears, with
    it the name tree entries that nothing else needs, and nothing else changes. *)
Theorem measurements_expire p n me lifetime s :
  TablesInv s → measV s !! p = Some (n, me) →
  wp (extendLifetime p lifetime) (λ _ s', TablesInv s' ∧ measOnly s s' ∧ ∃ me' i,
    measV s' = <[p := (n, me')]> (measV s) ∧ me_info me' = me_info me ∧
    me_expiry me' = Z.max (me_expiry me) (t_now s + lifetime) ∧
    sched_pending (t_sched s') !! i = Some (me_expiry me', MeasurementsCleanup p) ∧
    wp (Measurements_fire i) (λ _ s'', TablesInv s'' ∧ measOnly s' s'' ∧ measV s'' = delete p (measV s) ∧
      (tidy (ents s') → tidy (ents s''))) s') s.
Proof.
  intros Hs Hp. eapply wp_mono; [by apply extendLifetime_spec|]. intros _ s1 (Hs1 & Ho1 & me' & HV & Hx & Hi).
  split; [done|]. split; [done|].
  destruct (mi_entry _ (tbi_meas _ Hs1) p n me' ltac:(by rewrite HV, lookup_insert_eq)) as (_ & i & _ & Hpend).
  exists me', i. split_and!; [done..|]. eapply wp_mono; [by eapply Measurements_fire_spec|].
  intros _ s2 (Hs2 & Ho2 & HV2 & Ht & _). split_and!; [done..| |done]. by rewrite HV2, HV, delete_insert_eq.
Qed.

(** Getting the Measurements entry of a name returns the entry of its prefix
    within the depth limit: the existing one unchanged, or a new one without
    strategy data that expires after the initial lifetime; the other tables, the
    PIT timers and the invariants are unaffected. *)
Theorem measurements_get_correct name s :
  TablesInv s → wp (Measurements_get name) (λ p s', gotMeasurements s s' p (take getMaxDepth name)) s.
Proof. apply Measurements_get_spec. Qed.
End MeasurementsCorrect.

(** Example: Measurements with an entry for /101. *)
Definition meas1 : Tables := run (Measurements_get (N := NatNdn) [101]) tables0.

Lemma meas1_inv : TablesInv meas1.
Proof.
  destruct (run_spec _ _ _ (Measurements_get_spec (N := NatNdn) [101] tables0 (proj1 tables0_inv))) as (p & H & _). exact H.
Qed.

Lemma measurements_expire_witness :
  ∃ me, measV meas1 !! 2%positive = Some ([101] : list nat, me) ∧
  wp (extendLifetime (N := NatNdn) 2%positive 5000000000) (λ _ s', TablesInv s') meas1.
Proof.
  assert (∃ me, measV meas1 !! 2%positive = Some ([101] : list nat, me)) as [me Hme] by (vm_compute; eauto).
  exists me. split; [exact Hme|].
  eapply wp_mono; [exact (measurements_expire _ _ _ 5000000000 meas1 meas1_inv Hme)|]. intros x s' [H _]. exact H.
Defined.

Lemma measurements_get_correct_witness :
  wp (Measurements_get (N := NatNdn) [101; 102]) (λ p s', gotMeasurements meas1 s' p ([101; 102] : list nat)) meas1.
Proof. exact (measurements_get_correct (N := NatNdn) [101; 102] meas1 meas1_inv). Defined.
