(* ===== verification/StrategyChoice.v ===== *)
(** * Strategy registry and Strategy Choice table

    The static part of [src/daemon/fw/strategy.cpp] (instance names, registry)
    and [src/daemon/table/strategy-choice.cpp].  A [strategy_choice::Entry*] is
    the address of the name tree entry that owns it. *)

From Stdlib Require Import ZArith Lia.
From stdpp Require Import base gmap option sorting list.
From S2P Require Import Prelude Scheduler CityHash Ndn FibEntry PitEntry NameTreeEntry Hashtable NameTree.
From S2P Require Import NameTreeIterator Tables Pit Measurements.

Section InstanceNames.
Context {N : NdnCxx}.

(** ** Instance names *)
Record ParsedInstanceName := mkParsed {
  pin_strategyName : Name;
  pin_version : option Z;
  pin_parameters : Name;
}.

(** [for (ssize_t i = input.size() - 1; i > 0; --i)]: the argument is [i]. *)
Fixpoint parseInstanceName_from (input : Name) (i : nat) : ParsedInstanceName :=
  match i with
  | O => mkParsed input None []
  | S i' =>
      match input !! i with
      | Some c => if isVersion c then mkParsed (take (S i) input) (Some (toVersion c)) (drop (S i) input)
                  else parseInstanceName_from input i'
      | None => parseInstanceName_from input i'
      end
  end.

Definition parseInstanceName (input : Name) : ParsedInstanceName :=
  parseInstanceName_from input (length input - 1).

Definition makeInstanceName (input strategyName : Name) : option Name :=
  v ← last strategyName;
  guard (isVersion v = true);;
  Some (if existsb isVersion input then input else input ++ [v]).

End InstanceNames.

(** ** Registry

    [std::map<Name, CreateFunc>], in the canonical order of names; a factory
    either creates a strategy or throws [std::invalid_argument]. *)
Inductive Created {N : NdnCxx} := Instance (s : Strategy) | InvalidArgument.
Abbreviation Registry := (list (Name * (Name → Created))).

Section Registry.
Context {N : NdnCxx}.

(** [lower_bound]: the position of the first key not below [name]. *)
Fixpoint lower_bound (r : Registry) (name : Name) : nat :=
  match r with
  | [] => 0
  | (k, _) :: r' => if name_ltb k name then S (lower_bound r' name) else 0
  end.

(** [Strategy::find]; [length registry] is [end()]. *)
Definition Strategy_find (registry : Registry) (instanceName : Name) : nat :=
  let parsed := parseInstanceName instanceName in
  match pin_version parsed with
  | Some _ =>
      let found := lower_bound registry (pin_strategyName parsed) in
      match registry !! found with
      | Some (k, _) => if isPrefixOf (getParentName (pin_strategyName parsed)) k then found else length registry
      | None => length registry
      end
  | None =>
      if decide (pin_strategyName parsed ≠ []) then
        let found := lower_bound registry (getSuccessor (pin_strategyName parsed)) in
        match found with
        | O => length registry
        | S found' =>
            match registry !! found' with
            | Some (k, _) => if isPrefixOf (pin_strategyName parsed) k then found' else length registry
            | None => length registry
            end
        end
      else length registry
  end.

Definition canCreate (registry : Registry) (instanceName : Name) : bool :=
  bool_decide (Strategy_find registry instanceName ≠ length registry).

(** [Strategy::create]: nothing when the name is not registered; the instance
    name of a created strategy is asserted not to be empty. *)
Inductive CreateResult := CR_null | CR_exception | CR_strategy (s : Strategy).

Definition Strategy_create (registry : Registry) (instanceName : Name) : option CreateResult :=
  match registry !! Strategy_find registry instanceName with
  | None => Some CR_null
  | Some (_, create) =>
      match create instanceName with
      | InvalidArgument => Some CR_exception
      | Instance s => if decide (st_instanceName s = []) then None else Some (CR_strategy s)
      end
  end.

Definition areSameType (registry : Registry) (a b : Name) : bool :=
  bool_decide (Strategy_find registry a = Strategy_find registry b).

Definition listRegistered (registry : Registry) : list Name := registry.*1.
End Registry.

Section StrategyChoice.
Context {N : NdnCxx} {SC : Scheduler} (registry : Registry).

Inductive InsertResult := IR_OK | IR_NOT_REGISTERED | IR_EXCEPTION | IR_DEPTH_EXCEEDED.

Definition setDefaultStrategy (strategyName : Name) : M Tables unit :=
  created ← someM (Strategy_create registry strategyName);
  match created with
  | CR_strategy strategy =>
      nte ← nt (NameTree_lookup [] 0);
      nt (updateEntry nte (setStrategyChoiceEntry (Some (setStrategy (Some strategy) (newStrategyChoiceEntry [])))));;
      modify (λ s, set_scItems (size_t (t_scItems s + 1)) s)
  | _ => someM None (* a null strategy is dereferenced, or the exception is not caught *)
  end.

(** [findEffectiveStrategy] returns the Strategy Choice entry and its strategy. *)
Definition strategyOf (nte : option ptr) : M Tables (ptr * Strategy) :=
  p ← someM nte;
  e ← nt (derefEntry p);
  sc ← someM (e_strategyChoiceEntry e);
  st ← someM (sc_strategy sc);
  mret (p, st).

Definition findEffectiveStrategy (prefix : Name) : M Tables (ptr * Strategy) :=
  nte ← nt (findLongestPrefixMatch prefix (has scF));
  strategyOf nte.

Definition findEffectiveStrategy_pit (pitEntry : ptr) : M Tables (ptr * Strategy) :=
  pe ← derefPit pitEntry;
  nte ← nt (findLongestPrefixMatch_pit pe (has scF));
  strategyOf nte.

Definition findEffectiveStrategy_meas (measurementsEntry : ptr) : M Tables (ptr * Strategy) :=
  nte ← nt (findLongestPrefixMatch_entry measurementsEntry (has scF));
  strategyOf nte.

(** [clearStrategyInfo] on a PIT entry with all its records. *)
Definition clearRecInfo (r : FaceRecord) : FaceRecord :=
  mkFaceRecord (fr_face r) (fr_lastNonce r) (fr_lastRenewed r) (fr_expiry r) (clearStrategyInfo (fr_info r)).
Definition clearInInfo (r : InRecord) : InRecord := mkInRecord (clearRecInfo (in_rec r)) (in_interest r).
Definition clearOutInfo (r : OutRecord) : OutRecord := mkOutRecord (clearRecInfo (out_rec r)) (out_incomingNack r).

Definition clearPitInfo (pe : PitEntry) : PitEntry :=
  set_outRecords (clearOutInfo <$> pe_outRecords pe)
    (set_inRecords (clearInInfo <$> pe_inRecords pe)
      (set_info (clearStrategyInfo (pe_info pe)) pe)).

Definition clearStrategyInfo_nte (nte : ptr) : M Tables unit :=
  e ← nt (derefEntry nte);
  forM (e_pitEntries e) (λ x, updatePit x clearPitInfo);;
  match e_measurementsEntry e with
  | Some me => nt (updateEntry nte (setMeasurementsEntry (Some (set_me_info ∅ me))))
  | None => mret tt
  end.

(** The selector of [changeStrategy]. *)
Definition changeSel (rootNte : ptr) : EntrySubTreeSelector := λ p e,
  if decide (p = rootNte) then (true, true)
  else if decide (is_Some (e_strategyChoiceEntry e)) then (false, false)
  else (true, true).

(** The loop body changes nothing the iterator looks at, so the entries to visit
    are determined beforehand. *)
Definition changeStrategy (entry : ptr) (oldInstanceName newInstanceName : Name) : M Tables unit :=
  if areSameType registry oldInstanceName newInstanceName then mret tt
  else
    e ← nt (derefEntry entry);
    sc ← someM (e_strategyChoiceEntry e);
    s ← get_st;
    ntChanged ← someM (partialEnumerate (sc_prefix sc) (changeSel entry) (t_nt s));
    forM ntChanged clearStrategyInfo_nte.

Definition StrategyChoice_insert (prefix strategyName : Name) : M Tables InsertResult :=
  if decide (getMaxDepth < length prefix) then mret IR_DEPTH_EXCEEDED
  else
    created ← someM (Strategy_create registry strategyName);
    match created with
    | CR_exception => mret IR_EXCEPTION
    | CR_null => mret IR_NOT_REGISTERED
    | CR_strategy strategy =>
        nte ← nt (NameTree_lookup prefix (length prefix));
        e ← nt (derefEntry nte);
        let finish (oldName : Name) :=
          changeStrategy nte oldName (st_instanceName strategy);;
          nt (updateEntry nte (λ e, setStrategyChoiceEntry (setStrategy (Some strategy) <$> e_strategyChoiceEntry e) e));;
          mret IR_OK in
        match e_strategyChoiceEntry e with
        | Some entry =>
            old ← someM (sc_strategy entry);
            if decide (st_instanceName old = st_instanceName strategy) then mret IR_OK
            else finish (st_instanceName old)
        | None =>
            old ← findEffectiveStrategy prefix;
            nt (updateEntry nte (setStrategyChoiceEntry (Some (newStrategyChoiceEntry prefix))));;
            modify (λ s, set_scItems (size_t (t_scItems s + 1)) s);;
            finish (st_instanceName old.2)
        end
    end.

Definition StrategyChoice_erase (prefix : Name) : M Tables unit :=
  assertM (bool_decide (0 < length prefix));;
  nte ← nt (NameTree_findExactMatch prefix (length prefix));
  match nte with
  | None => mret tt
  | Some p =>
      e ← nt (derefEntry p);
      match e_strategyChoiceEntry e with
      | None => mret tt
      | Some entry =>
          old ← someM (sc_strategy entry);
          parent ← findEffectiveStrategy (getParentName prefix);
          changeStrategy p (st_instanceName old) (st_instanceName parent.2);;
          nt (updateEntry p (setStrategyChoiceEntry None));;
          nt (eraseIfEmpty p true);;
          modify (λ s, set_scItems (size_t (t_scItems s - 1)) s)
      end
  end.

Definition StrategyChoice_get (prefix : Name) : M Tables (option Name) :=
  nte ← nt (NameTree_findExactMatch prefix (length prefix));
  match nte with
  | None => mret None
  | Some p =>
      e ← nt (derefEntry p);
      match e_strategyChoiceEntry e with
      | None => mret None
      | Some entry => st ← someM (sc_strategy entry); mret (Some (st_instanceName st))
      end
  end.

Definition StrategyChoice_getRange (s : Tables) : option (list StrategyChoiceEntry) :=
  l ← fullEnumerate (t_nt s) (has scF);
  mapM (λ p, e ← ents s !! p; e_strategyChoiceEntry e) l.
End StrategyChoice.

(** ** The registry *)

Section RegistrySpecs.
Context {N : NdnCxx} {NL : NdnCxxLaws N}.
Implicit Types (r : Registry) (k name : Name).

(** A [std::map] iterates its keys in strictly increasing order. *)
Definition sortedR r : Prop := StronglySorted (λ a b, name_compare a.1 b.1 = Lt) r.

Lemma sortedR_lt r i j k f k' f' :
  sortedR r → r !! i = Some (k, f) → r !! j = Some (k', f') → i < j → name_compare k k' = Lt.
Proof.
  intros Hr. revert i j. induction Hr as [|x r Hr IH Hall]; intros [|i] [|j] Hi Hj Hij; try done; try lia; simpl in *.
  - injection Hi as ->. rewrite Forall_forall in Hall. apply (Hall (k', f')). by eapply list_elem_of_lookup_2.
  - apply (IH i j); [done..|lia].
Qed.

Lemma lower_bound_le r name : lower_bound r name ≤ length r.
Proof. induction r as [|[k f] r IH]; simpl; [lia|]. destruct (name_ltb k name); lia. Qed.

Lemma lower_bound_lt r name i k f :
  sortedR r → r !! i = Some (k, f) → i < lower_bound r name ↔ name_compare k name = Lt.
Proof.
  intros Hr. revert i. induction Hr as [|[k0 f0] r Hr IH Hall]; intros i Hi; [done|]. cbn [lower_bound].
  destruct i as [|i]; simpl in Hi.
  - injection Hi as -> ->. unfold name_ltb. destruct (name_compare k name); split; try done; lia.
  - specialize (IH _ Hi). unfold name_ltb.
    assert (Hk : name_compare k0 k = Lt) by (rewrite Forall_forall in Hall; apply (Hall (k, f)); by eapply list_elem_of_lookup_2).
    destruct (name_compare k0 name) eqn:E; [|rewrite <- IH; lia|].
    + apply name_compare_eq in E as ->. split; [lia|]. rewrite name_compare_antisym, Hk. done.
    + split; [lia|]. intros H. rewrite (name_compare_trans _ _ _ Hk H) in E. done.
Qed.

(** The requested version, or the next higher one, of the strategy. *)
Lemma Strategy_find_versioned r instanceName name v :
  sortedR r → pin_version (parseInstanceName instanceName) = Some v →
  pin_strategyName (parseInstanceName instanceName) = name →
  match r !! Strategy_find r instanceName with
  | Some (k, _) => getParentName name `prefix_of` k ∧ name_compare name k ≠ Gt ∧
      (∀ k', k' ∈ r.*1 → name_compare name k' ≠ Gt → name_compare k k' ≠ Gt)
  | None => ∀ k', k' ∈ r.*1 → name_compare name k' ≠ Gt → ¬ getParentName name `prefix_of` k'
  end.
Proof.
  intros Hr Hv <-. unfold Strategy_find. rewrite Hv. set (name := pin_strategyName _).
  assert (Hge : ∀ i k f, r !! i = Some (k, f) → lower_bound r name ≤ i ↔ name_compare name k ≠ Gt).
  { intros i k f Hi. rewrite Nat.le_ngt, (lower_bound_lt _ name _ _ _ Hr Hi), name_compare_gt. done. }
  assert (Hmin : ∀ k f k', r !! lower_bound r name = Some (k, f) → k' ∈ r.*1 →
    name_compare name k' ≠ Gt → name_compare k k' ≠ Gt).
  { intros k f k' Hk ([k1 f1] & -> & [i Hi]%list_elem_of_lookup_1)%list_elem_of_fmap Hn. simpl in *.
    apply (Hge i _ _ Hi) in Hn. destruct (decide (i = lower_bound r name)) as [->|Hne].
    - rewrite Hk in Hi. injection Hi as <- _. by rewrite name_compare_refl.
    - pose proof (sortedR_lt _ _ _ _ _ _ _ Hr Hk Hi ltac:(lia)) as Hlt. by rewrite Hlt. }
  destruct (r !! lower_bound r name) as [[k f]|] eqn:Hk.
  - assert (Hle : name_compare name k ≠ Gt) by (by eapply Hge).
    unfold isPrefixOf. case_bool_decide as Hp.
    + rewrite Hk. eauto.
    + rewrite (lookup_ge_None_2 r) by done. intros k' Hk' Hn Hp'. apply Hp.
      apply (name_compare_convex _ _ k'); [|by eapply Hmin|done].
      intros Hgt. apply Hle. apply name_compare_gt. apply name_compare_gt in Hgt.
      assert (Hpn : getParentName name `prefix_of` name) by apply prefix_take.
      apply name_compare_prefix in Hpn. destruct (name_compare (getParentName name) name) eqn:E; [|..|done].
      * apply name_compare_eq in E. by rewrite <- E.
      * by eapply name_compare_trans.
  - rewrite (lookup_ge_None_2 r) by done. intros k' ([k1 f1] & -> & [i Hi]%list_elem_of_lookup_1)%list_elem_of_fmap Hn.
    apply (Hge i _ _ Hi) in Hn. apply lookup_ge_None in Hk. apply lookup_lt_Some in Hi. lia.
Qed.

(** Without a version, the highest version registered for the strategy. *)
Lemma Strategy_find_unversioned r instanceName name :
  sortedR r → pin_version (parseInstanceName instanceName) = None →
  pin_strategyName (parseInstanceName instanceName) = name → name ≠ [] →
  match r !! Strategy_find r instanceName with
  | Some (k, _) => name `prefix_of` k ∧ (∀ k', k' ∈ r.*1 → name `prefix_of` k' → name_compare k' k ≠ Gt)
  | None => ∀ k', k' ∈ r.*1 → ¬ name `prefix_of` k'
  end.
Proof.
  intros Hr Hv <- Hne. unfold Strategy_find. rewrite Hv, decide_True by done. set (name := pin_strategyName _) in *.
  assert (Hlt : ∀ k, k ∈ r.*1 → name `prefix_of` k → ∃ i f, r !! i = Some (k, f) ∧ i < lower_bound r (getSuccessor name)).
  { intros k ([k1 f1] & -> & [i Hi]%list_elem_of_lookup_1)%list_elem_of_fmap Hp. exists i, f1. split; [done|].
    rewrite (lower_bound_lt _ _ _ _ _ Hr Hi). by apply successor_range. }
  pose proof (lower_bound_le r (getSuccessor name)) as Hle.
  destruct (lower_bound r (getSuccessor name)) as [|i] eqn:Hb.
  { rewrite (lookup_ge_None_2 r) by done. intros k Hk Hp. destruct (Hlt k Hk Hp) as (i & f & _ & ?). lia. }
  destruct (r !! i) as [[k f]|] eqn:Hi; [|apply lookup_ge_None in Hi; lia].
  assert (Hmax : ∀ k', k' ∈ r.*1 → name `prefix_of` k' → name_compare k' k ≠ Gt).
  { intros k' Hk' Hp'. destruct (Hlt k' Hk' Hp') as (j & f' & Hj & Hji).
    destruct (decide (j = i)) as [->|]; [rewrite Hi in Hj; injection Hj as <- _; by rewrite name_compare_refl|].
    by rewrite (sortedR_lt r j i k' f' k f) by (done || lia). }
  unfold isPrefixOf. case_bool_decide as Hp; [by rewrite Hi|]. rewrite (lookup_ge_None_2 r) by done.
  intros k' Hk' Hp'. apply Hp, successor_range; [done|]. split.
  - intros Hgt. apply name_compare_gt in Hgt. specialize (Hmax k' Hk' Hp'). apply Hmax, name_compare_gt.
    pose proof (name_compare_prefix _ _ Hp') as Hn. destruct (name_compare name k') eqn:E; [|..|done].
    + apply name_compare_eq in E. by rewrite <- E.
    + by eapply name_compare_trans.
  - rewrite <- (lower_bound_lt r (getSuccessor name) i k f) by done. lia.
Qed.
End RegistrySpecs.

(** ** Clearing strategy information *)

Section Clearing.
Context {N : NdnCxx} {NL : NdnCxxLaws N} {SC : Scheduler}.
Implicit Types (s : Tables) (p q x : ptr) (e : Entry) (l : list ptr) (pe : PitEntry).

Definition clearMeas e : Entry := setMeasurementsEntry (set_me_info ∅ <$> e_measurementsEntry e) e.
Definition clearEnt l p e : Entry := if decide (p ∈ l) then clearMeas e else e.
Definition clearPe l pe : PitEntry := if decide (attachedIn l pe) then clearPitInfo pe else pe.

(** The state after the strategy information below the entries [l] is cleared. *)
Definition cleared l s s' : Prop :=
  NtInv (t_nt s') ∧ ents s' = map_imap (λ p e, Some (clearEnt l p e)) (ents s) ∧
  t_pits s' = clearPe l <$> t_pits s ∧ s' = set_nt (t_nt s') (set_pits (t_pits s') s).

Lemma clearPitInfo_idemp pe : clearPitInfo (clearPitInfo pe) = clearPitInfo pe.
Proof.
  unfold clearPitInfo, set_outRecords, set_inRecords, set_info. cbn. by rewrite <- !list_fmap_compose.
Qed.

Lemma clearMeas_idemp e : clearMeas (clearMeas e) = clearMeas e.
Proof. unfold clearMeas. cbn. by destruct (e_measurementsEntry e). Qed.

Lemma clearPe_key l pe :
  pe_interest (clearPe l pe) = pe_interest pe ∧ pe_nameTreeEntry (clearPe l pe) = pe_nameTreeEntry pe ∧
  in_face <$> pe_inRecords (clearPe l pe) = in_face <$> pe_inRecords pe ∧
  out_face <$> pe_outRecords (clearPe l pe) = out_face <$> pe_outRecords pe.
Proof.
  unfold clearPe. case_decide; [|done]. unfold clearPitInfo. cbn. rewrite <- !list_fmap_compose. done.
Qed.

Lemma clearEnt_app l1 l2 p e : clearEnt l2 p (clearEnt l1 p e) = clearEnt (l1 ++ l2) p e.
Proof.
  unfold clearEnt. destruct (decide (p ∈ l1)), (decide (p ∈ l2)), (decide (p ∈ l1 ++ l2)) as [H|H];
    rewrite elem_of_app in H; try tauto. apply clearMeas_idemp.
Qed.

Lemma clearPe_app l1 l2 pe : clearPe l2 (clearPe l1 pe) = clearPe (l1 ++ l2) pe.
Proof.
  assert (Hatt : attachedIn l2 (clearPe l1 pe) ↔ attachedIn l2 pe).
  { unfold attachedIn. by rewrite (proj1 (proj2 (clearPe_key l1 pe))). }
  unfold clearPe at 1. rewrite (decide_ext _ _ _ _ Hatt). unfold clearPe.
  assert (H : attachedIn (l1 ++ l2) pe ↔ attachedIn l1 pe ∨ attachedIn l2 pe).
  { unfold attachedIn. setoid_rewrite elem_of_app. naive_solver. }
  destruct (decide (attachedIn l1 pe)), (decide (attachedIn l2 pe)), (decide (attachedIn (l1 ++ l2) pe)); try tauto.
  apply clearPitInfo_idemp.
Qed.

Lemma cleared_nil s : NtInv (t_nt s) → cleared [] s s.
Proof.
  intros Hs. split; [done|]. split_and!.
  - apply map_eq. intros p. rewrite map_lookup_imap. by destruct (ents s !! p).
  - apply map_eq. intros x. rewrite lookup_fmap. destruct (t_pits s !! x) as [pe|]; [|done]. cbn. f_equal.
    unfold clearPe. rewrite decide_False; [done|]. intros (q & _ & Hq). by apply elem_of_nil in Hq.
  - by destruct s.
Qed.

Lemma cleared_trans l1 l2 s s1 s2 : cleared l1 s s1 → cleared l2 s1 s2 → cleared (l1 ++ l2) s s2.
Proof.
  intros (_ & A2 & A3 & A4) (B1 & B2 & B3 & B4). split; [done|]. split_and!.
  - rewrite B2, A2. apply map_eq. intros p. rewrite !map_lookup_imap. destruct (ents s !! p); [|done].
    cbn. by rewrite clearEnt_app.
  - rewrite B3, A3, <- map_fmap_compose. apply map_fmap_ext. intros x pe _. cbn. apply clearPe_app.
  - rewrite B4, A4. by destruct s.
Qed.

Lemma cleared_lookup l s s' p : cleared l s s' → ents s' !! p = clearEnt l p <$> ents s !! p.
Proof. intros (_ & E & _). rewrite E, map_lookup_imap. by destruct (ents s !! p). Qed.

Lemma cleared_view {A} (f : Entry → option A) l s s' :
  (∀ e, f (clearMeas e) = f e) → cleared l s s' → view f (ents s') = view f (ents s).
Proof.
  intros Hf Hc. apply map_eq. intros p. unfold view. rewrite !lookup_omap, (cleared_lookup _ _ _ _ Hc).
  destruct (ents s !! p) as [e|]; [|done]. cbn. unfold clearEnt. case_decide; [|done]. by rewrite Hf.
Qed.

Lemma cleared_PitInv l s s' : cleared l s s' → PitInv s → PitInv s'.
Proof.
  intros Hc Hs. destruct Hc as (Hnt & HE & HP & Hset) eqn:Hc'. clear Hc'. apply (PitInv_keeps s); [done|..].
  - by apply (cleared_view pitF l).
  - by rewrite Hset.
  - intros x. rewrite HP, lookup_fmap. destruct (t_pits s !! x) as [pe|]; [|done]. cbn.
    destruct (clearPe_key l pe) as (K1 & K2 & K3 & K4). unfold keepsKey, pe_name, PitEntry_wf. by rewrite K1, K2, K3, K4.
Qed.

Lemma clearStrategyInfo_nte_spec p e s :
  NtInv (t_nt s) → PitInv s → ents s !! p = Some e →
  wp (clearStrategyInfo_nte p) (λ _ s', cleared [p] s s') s.
Proof.
  intros Hnt Hs He. unfold clearStrategyInfo_nte. wp_step. apply nt_derefEntry. exists e. split; [done|].
  rewrite set_nt_same. wp_step. eapply wp_mono; [apply (updatePits_loop _ clearPitInfo)|].
  { intros x s0 pe Hx. apply wp_updatePit. eauto. }
  { by eapply pitEntries_NoDup. }
  { intros x Hx. destruct (pits_of_entry _ _ _ _ Hs He Hx) as (pe & Hpe & _). by eexists. }
  intros _ s1 [Hs1 Hx1].
  assert (HP : t_pits s1 = clearPe [p] <$> t_pits s).
  { apply map_eq. intros x. rewrite Hx1, lookup_fmap. destruct (t_pits s !! x) as [pe|] eqn:Hx; [|done]. cbn. f_equal.
    unfold clearPe. apply decide_ext. by eapply attached_here. }
  assert (Hent : <[p := clearMeas e]> (ents s) = map_imap (λ q e, Some (clearEnt [p] q e)) (ents s)).
  { apply map_eq. intros q. rewrite map_lookup_imap. unfold clearEnt. destruct (decide (p = q)) as [<-|Hne].
    - rewrite lookup_insert_eq, He. cbn. by rewrite decide_True by constructor.
    - rewrite lookup_insert_ne by done. destruct (ents s !! q); [|done]. cbn.
      by rewrite decide_False by (rewrite list_elem_of_singleton; congruence). }
  assert (E1 : ents s1 = ents s) by (by rewrite Hs1). assert (Hnt1 : NtInv (t_nt s1)) by (by rewrite Hs1).
  destruct (e_measurementsEntry e) as [me|] eqn:Hme.
  - eapply wp_mono; [apply (nt_update p _ e); [done|by rewrite E1|done]|]. intros _ s2 (Eq & Hnt2 & E2).
    split; [done|]. split_and!.
    + rewrite E2, E1, <- Hent. unfold clearMeas. by rewrite Hme.
    + rewrite Eq. exact HP.
    + rewrite Eq at 1. rewrite Hs1. by rewrite Eq.
  - wp_step. split; [done|]. split_and!; [|done|].
    + rewrite E1, <- Hent. unfold clearMeas. rewrite Hme. symmetry. apply insert_id. rewrite He.
      f_equal. destruct e. simpl in Hme. by subst.
    + rewrite Hs1 at 1. by rewrite Hs1.
Qed.

Lemma clear_loop l s :
  NtInv (t_nt s) → PitInv s → (∀ p, p ∈ l → is_Some (ents s !! p)) →
  wp (forM l clearStrategyInfo_nte) (λ _ s', cleared l s s') s.
Proof.
  revert s. induction l as [|p l IH]; intros s Hnt Hs Hl; cbn [forM]; [wp_step; by apply cleared_nil|].
  destruct (Hl p) as [e He]; [constructor|]. wp_step. eapply wp_mono; [by eapply clearStrategyInfo_nte_spec|].
  intros [] s1 H1. eapply wp_mono; [apply IH|].
  - apply H1.
  - by eapply cleared_PitInv.
  - intros q Hq. rewrite (cleared_lookup _ _ _ _ H1). apply fmap_is_Some, Hl. by constructor.
  - intros [] s' H'. by apply (cleared_trans [p] l s s1).
Qed.
End Clearing.

(** ** Changing the strategy of a prefix *)

Section Covered.
Context {N : NdnCxx} {NL : NdnCxxLaws N}.
Implicit Types (E : gmap ptr Entry) (p q : ptr) (e : Entry).

(** The parent of an entry below [prefix]. *)
Lemma parent_below E q eq (prefix : Name) :
  TreeInv E → E !! q = Some eq → prefix `prefix_of` e_name eq → prefix ≠ e_name eq →
  ∃ r er, E !! r = Some er ∧ e_name er = getParentName (e_name eq) ∧ q ∈ e_children er ∧ prefix `prefix_of` e_name er.
Proof.
  intros Ht Hq [k Hk] Hne. destruct k as [|c k' _] using rev_ind; [by rewrite app_nil_r in Hk|].
  pose proof (ti_parent _ Ht _ _ Hq) as Hp. destruct (e_parent eq) as [r|].
  - destruct Hp as (_ & er & Her & Hn & Hin). exists r, er. split_and!; [done..|]. rewrite Hn, Hk, app_assoc. unfold getParentName.
    rewrite length_app, Nat.add_sub, take_app_length. by eexists.
  - rewrite Hk in Hp. by destruct prefix, k'.
Qed.

(** The entries [changeStrategy] visits are those whose effective strategy is
    that of the changed entry. *)
Lemma reach_covered E p e q :
  TreeInv E → E !! p = Some e → is_Some (scF e) → reach E (changeSel p) p q →
  (∃ eq, E !! q = Some eq ∧ (changeSel p q eq).1 = true) →
  ∃ eq, E !! q = Some eq ∧ fst <$> lpmV (view scF E) (e_name eq) = Some p.
Proof.
  intros Ht He [sc Hsc] Hr (eq & Hq & Hsel). exists eq. split; [done|].
  assert (Hu : uniqueV (view scF E)) by (by apply view_unique).
  assert (Hp : view scF E !! p = Some (e_name e, sc)) by (apply view_lookup; eauto).
  assert (Hlen : ∀ r er, reach E (changeSel p) p r → E !! r = Some er → (changeSel p r er).1 = true →
    lpmV (view scF E) (e_name er) = Some (p, sc)).
  { intros r er Hr'. revert er. induction Hr' as [_|r er x Hr' IH Her Hw Hx]; intros ex Hex Hself.
    - simplify_eq. apply lpmV_Some; [done|]. exists (e_name e). split_and!; [done..|]. intros. by apply prefix_length.
    - assert (Hself' : (changeSel p r er).1 = true) by (unfold changeSel in *; by repeat case_decide).
      specialize (IH _ Her Hself'). apply lpmV_Some in IH as (n & Hn & Hpre & Hmax); [|done]. simplify_eq.
      destruct (ti_children _ Ht _ _ _ Her Hx) as (ex' & Hex' & Hpar). simplify_eq.
      pose proof (ti_parent _ Ht _ _ Hex) as Hc. rewrite Hpar in Hc. destruct Hc as (Hne & er' & Her' & Hnr & _). simplify_eq.
      apply lpmV_Some; [done|]. exists (e_name e). assert (Hpr : e_name er `prefix_of` e_name ex) by (rewrite Hnr; apply prefix_take).
      split_and!; [done|by etrans|]. intros y m b Hy Hm.
      destruct (decide (m = e_name ex)) as [->|Hme].
      + apply view_lookup in Hy as (ey & Hey & Hny & Hsy).
        assert (y = x) as -> by (by eapply (ti_names _ Ht)). simplify_eq. unfold changeSel in Hself.
        case_decide; [subst; by simplify_eq|]. rewrite decide_True in Hself by (by eexists). done.
      + apply (Hmax y m b Hy). rewrite Hnr. unfold getParentName. destruct Hm as [k Hk].
        destruct k as [|c k _] using rev_ind; [by rewrite app_nil_r in Hk|].
        rewrite Hk, app_assoc, length_app, Nat.add_sub, take_app_length. by eexists. }
  by rewrite (Hlen q eq Hr Hq Hsel).
Qed.

Lemma covered_reach E p q eq :
  TreeInv E → E !! q = Some eq → fst <$> lpmV (view scF E) (e_name eq) = Some p →
  reach E (changeSel p) p q ∧ (changeSel p q eq).1 = true.
Proof.
  intros Ht. assert (Hu : uniqueV (view scF E)) by (by apply view_unique).
  remember (length (e_name eq)) as len eqn:Hlen. revert q eq Hlen. induction len as [len IH] using lt_wf_ind.
  intros q eq Hlen Hq ([p' sc] & Hl & ->)%fmap_Some. simpl in *.
  pose proof Hl as Hl'. apply lpmV_Some in Hl' as (n & Hp & Hpre & Hmax); [|done].
  apply view_lookup in Hp as Hp'. destruct Hp' as (e & He & Hn & Hsc). subst n.
  destruct (decide (e_name e = e_name eq)) as [Heq|Hne].
  { assert (q = p') as -> by (by eapply (ti_names _ Ht)). split; [apply reach_here; by eexists|].
    unfold changeSel. by rewrite decide_True. }
  destruct (parent_below E q eq (e_name e) Ht Hq Hpre Hne) as (r & er & Her & Hnr & Hin & Hpre').
  assert (Hqne : q ≠ p') by (intros ->; by simplify_eq).
  assert (Hnosc : scF eq = None).
  { destruct (scF eq) as [sc'|] eqn:Hs; [|done]. assert (Hv : view scF E !! q = Some (e_name eq, sc')) by (apply view_lookup; eauto).
    specialize (Hmax _ _ _ Hv ltac:(done)). destruct Hne. destruct Hpre as [k Hk]. rewrite Hk, length_app in Hmax.
    destruct k; [by rewrite app_nil_r in Hk|simpl in Hmax; lia]. }
  assert (Hlt : length (e_name er) < len).
  { pose proof (child_length E Ht _ _ _ _ Her Hin Hq). lia. }
  destruct (IH (length (e_name er)) Hlt r er eq_refl Her) as [Hr Hs].
  { rewrite (proj2 (lpmV_Some _ _ p' sc Hu)); [reflexivity|]. exists (e_name e). split_and!; [done..|].
    intros y m b Hy Hm. apply (Hmax y m b Hy). etrans; [done|]. rewrite Hnr. apply prefix_take. }
  split.
  - eapply reach_child; [done|done| |done]. unfold changeSel in *. by repeat case_decide.
  - unfold changeSel. rewrite decide_False by done. unfold scF in Hnosc. rewrite Hnosc. by rewrite decide_False by (by intros [? ?]).
Qed.

Lemma changed_elem E p e q :
  TreeInv E → E !! p = Some e → is_Some (scF e) →
  q ∈ W E (changeSel p) p ↔ ∃ eq, E !! q = Some eq ∧ fst <$> lpmV (view scF E) (e_name eq) = Some p.
Proof.
  intros Ht He Hsc. rewrite (W_elem E Ht (changeSel p) p e q He). split.
  - intros [Hr Hs]. by eapply reach_covered.
  - intros (eq & Hq & Hl). destruct (covered_reach E p q eq Ht Hq Hl). eauto.
Qed.
End Covered.

Section StrategyChoiceSpecs.
Context {N : NdnCxx} {NL : NdnCxxLaws N} {SC : Scheduler} (registry : Registry).
Implicit Types (s : Tables) (p q x : ptr) (e : Entry) (l : list ptr) (pe : PitEntry) (sc : StrategyChoiceEntry).

(** *** The effective strategy *)

Definition hasDefault s : Prop := ∃ p sc, scV s !! p = Some ([], sc).

Lemma scV_unique s : NtInv (t_nt s) → uniqueV (scV s).
Proof. intros Hs. apply view_unique. apply Hs. Qed.

Lemma scV_lookup s p n sc :
  scV s !! p = Some (n, sc) ↔ ∃ e, ents s !! p = Some e ∧ e_name e = n ∧ e_strategyChoiceEntry e = Some sc.
Proof. apply view_lookup. Qed.

Lemma hasDefault_lpm s name : hasDefault s → is_Some (lpmV (scV s) name).
Proof.
  intros (p & sc & Hp). apply not_eq_None_Some. intros Hn. rewrite lpmV_None in Hn.
  by apply (Hn _ _ _ Hp), prefix_nil.
Qed.

Definition isEffective s (name : Name) (r : ptr * Strategy) : Prop :=
  ∃ sc, lpmV (scV s) name = Some (r.1, sc) ∧ sc_strategy sc = Some r.2.

Lemma strategyOf_spec name s :
  TablesInv s → hasDefault s →
  wp (strategyOf (fst <$> lpmV (scV s) name)) (λ r s', s' = s ∧ isEffective s name r) s.
Proof.
  intros Hs Hd. destruct (hasDefault_lpm s name Hd) as [[p sc] Hl]. pose proof Hl as Hl'.
  apply lpmV_Some in Hl' as (n & Hp & _); [|apply scV_unique, Hs].
  destruct (sci_entry _ (tbi_sc _ Hs) _ _ _ Hp) as (_ & st & Hst).
  apply scV_lookup in Hp as (e & He & _ & Hsc). unfold strategyOf. rewrite Hl. wp_step. wp_step; [done|].
  wp_step. apply nt_derefEntry. exists e. split; [done|]. rewrite set_nt_same. wp_step. wp_step; [exact Hsc|].
  wp_step. wp_step; [exact Hst|]. wp_step. split; [done|]. by exists sc.
Qed.

Lemma findEffectiveStrategy_spec name s :
  TablesInv s → hasDefault s → wp (findEffectiveStrategy name) (λ r s', s' = s ∧ isEffective s name r) s.
Proof.
  intros Hs Hd. unfold findEffectiveStrategy. wp_step. apply nt_lpm; [apply Hs|]. by apply strategyOf_spec.
Qed.

Lemma findEffectiveStrategy_pit_spec x pe s :
  TablesInv s → hasDefault s → t_pits s !! x = Some pe → isAttached pe →
  wp (findEffectiveStrategy_pit x) (λ r s', s' = s ∧ isEffective s (pe_name pe) r) s.
Proof.
  intros Hs Hd Hx Ha. unfold findEffectiveStrategy_pit. wp_step. apply wp_derefPit. exists pe. split; [done|].
  wp_step. eapply nt_lpm_pit; [done..|]. by apply strategyOf_spec.
Qed.

Lemma findEffectiveStrategy_meas_spec p n me s :
  TablesInv s → hasDefault s → measV s !! p = Some (n, me) →
  wp (findEffectiveStrategy_meas p) (λ r s', s' = s ∧ isEffective s n r) s.
Proof.
  intros Hs Hd (e & He & <- & _)%view_lookup. unfold findEffectiveStrategy_meas.
  wp_step. eapply nt_lpm_entry; [apply Hs|done|]. by apply strategyOf_spec.
Qed.

(** *** What is cleared *)

(** The entries whose strategy is that of the entry [p], when its type changes. *)
Definition covers (V : gmap ptr (Name * StrategyChoiceEntry)) p (changed : bool) (n : Name) : bool :=
  changed && bool_decide (fst <$> lpmV V n = Some p).

(** The name of the name tree entry a PIT entry is attached to. *)
Definition attachName pe : Name := take (pitDepth (pe_name pe)) (pe_name pe).

(** The strategy information is cleared where [P] holds, and only there.  For a PIT entry
    [P] is asked about the name tree entry it is attached to, as the loop of
    [changeStrategy] does, and not about its own name, which can be one digest longer. *)
Definition infoCleared (P : Name → bool) s s' : Prop :=
  t_pits s' = (λ pe, if bool_decide (isAttached pe) && P (attachName pe) then clearPitInfo pe else pe) <$> t_pits s ∧
  measV s' = (λ nm, (nm.1, if P nm.1 then set_me_info ∅ nm.2 else nm.2)) <$> measV s.

Lemma cleared_info l s s' P :
  PitInv s → cleared l s s' → (∀ q e, ents s !! q = Some e → q ∈ l ↔ P (e_name e) = true) → infoCleared P s s'.
Proof.
  intros Hs Hc HP. split.
  - destruct Hc as (_ & _ & -> & _). apply map_fmap_ext. intros x pe Hx. unfold clearPe.
    assert (Hiff : attachedIn l pe ↔ bool_decide (isAttached pe) && P (attachName pe) = true).
    { rewrite andb_true_iff, bool_decide_eq_true. unfold attachedIn, isAttached, is_Some.
      destruct (pe_nameTreeEntry pe) as [p|] eqn:Hp; [|naive_solver].
      destruct (pi_back _ Hs _ _ _ Hx Hp) as (n & l' & Hv & Hin).
      destruct (pi_fwd _ Hs _ _ _ _ Hv Hin) as (pe' & Hpe' & _ & Hn). simplify_eq.
      apply view_lookup in Hv as (e & He & Hne & _). specialize (HP p e He). unfold attachName. rewrite <- Hne.
      rewrite <- HP. naive_solver. }
    case_decide; destruct (_ && _); try done; naive_solver.
  - apply map_eq. intros p. unfold measV, view. rewrite lookup_fmap, !lookup_omap, (cleared_lookup _ _ _ _ Hc).
    destruct (ents s !! p) as [e|] eqn:He; [|done]. cbn. specialize (HP p e He). unfold clearEnt.
    case_decide as Hin; unfold measF; cbn.
    + destruct (e_measurementsEntry e); [|done]. cbn. by rewrite (proj1 HP Hin).
    + destruct (e_measurementsEntry e); [|done]. cbn. destruct (P (e_name e)); [|done]. by destruct Hin; apply HP.
Qed.

Lemma infoCleared_none P s : (∀ n, P n = false) → infoCleared P s s.
Proof.
  intros HP. split; apply map_eq; intros x; rewrite lookup_fmap.
  - destruct (t_pits s !! x) as [pe|]; [|done]. cbn. by rewrite HP, andb_false_r.
  - destruct (measV s !! x) as [[n me]|]; [|done]. cbn. by rewrite HP.
Qed.

Lemma cleared_MeasInv l s s' : cleared l s s' → MeasInv s → MeasInv s'.
Proof.
  intros Hc Hs. assert (EV : measV s' = map_imap (λ p '(n, me), Some (n, if decide (p ∈ l) then set_me_info ∅ me else me)) (measV s)).
  { apply map_eq. intros p. unfold measV, view. rewrite map_lookup_imap, !lookup_omap, (cleared_lookup _ _ _ _ Hc).
    destruct (ents s !! p) as [e|]; [|done]. cbn. unfold clearEnt. case_decide; unfold measF; cbn;
      by destruct (e_measurementsEntry e). }
  assert (Hlook : ∀ p n me', measV s' !! p = Some (n, me') → ∃ me, measV s !! p = Some (n, me) ∧
    me_name me' = me_name me ∧ me_cleanup me' = me_cleanup me ∧ me_expiry me' = me_expiry me).
  { intros p n me'. rewrite EV, map_lookup_imap. destruct (measV s !! p) as [[n0 me]|]; [|done]. cbn.
    intros [= -> <-]. exists me. by case_decide. }
  destruct Hc as (_ & _ & _ & Hset). split.
  - intros p n me' (me & Hv & -> & -> & ->)%Hlook. rewrite Hset. by eapply (mi_entry _ Hs).
  - intros i t p Hi. rewrite Hset in Hi. destruct (mi_event _ Hs _ _ _ Hi) as (n & me & Hv & Hcl).
    rewrite EV. setoid_rewrite map_lookup_imap. rewrite Hv. cbn. exists n. eexists. split; [done|]. by case_decide.
  - rewrite Hset at 1. cbn. rewrite (mi_items _ Hs). do 2 f_equal. rewrite <- !(size_dom (D := gset ptr)). f_equal.
    apply set_eq. intros p. rewrite !elem_of_dom, EV, map_lookup_imap. destruct (measV s !! p) as [[n me]|]; cbn; [|done].
    split; eauto.
Qed.

Lemma cleared_tidyBut l s s' p : cleared l s s' → tidyBut p (ents s) → tidyBut p (ents s').
Proof.
  intros Hc Hb q e' Hq Hne. rewrite (cleared_lookup _ _ _ _ Hc) in Hq. apply fmap_Some in Hq as (e & He & ->).
  specialize (Hb q e He Hne). unfold clearEnt. case_decide; [|done]. revert Hb. unfold isEmpty, hasTableEntries, hasChildren. cbn.
  by destruct (e_measurementsEntry e).
Qed.

Lemma changeStrategy_spec p e sc a b s :
  NtInv (t_nt s) → PitInv s → ents s !! p = Some e → e_strategyChoiceEntry e = Some sc → sc_prefix sc = e_name e →
  wp (changeStrategy registry p a b) (λ _ s', (∃ l, cleared l s s') ∧
    infoCleared (covers (scV s) p (negb (areSameType registry a b))) s s') s.
Proof.
  intros Hnt Hs He Hsc Hpre. unfold changeStrategy. destruct (areSameType registry a b).
  { wp_step. split; [exists []; by apply cleared_nil|]. by apply infoCleared_none. }
  wp_step. apply nt_derefEntry. exists e. split; [done|]. rewrite set_nt_same. wp_step. wp_step; [exact Hsc|].
  do 2 wp_step. wp_step. rewrite partialEnumerate_spec by done. wp_step; [done|].
  rewrite Hpre, (proj2 (find_name_Some _ (e_name e) p e (nti_tree _ Hnt)) (conj He eq_refl)).
  assert (Hch := λ q, changed_elem (ents s) p e q (nti_tree _ Hnt) He (ex_intro _ sc Hsc)).
  eapply wp_mono; [apply clear_loop; [done..|]|].
  - intros q (eq & Hq & _)%Hch. by eexists.
  - intros [] s' Hc. split; [by eexists|]. eapply cleared_info; [done..|]. intros q e' Hq.
    rewrite (Hch q). unfold covers. cbn. rewrite bool_decide_eq_true. split; [|by eauto].
    intros (eq & Hq' & Hl). by simplify_eq.
Qed.

(** *** Insertion and erasure *)

(** What the operations of the Strategy Choice table leave alone, apart from the
    strategy information. *)
Definition scFrame s s' : Prop :=
  fibPart s' = fibPart s ∧ pitV s' = pitV s ∧ t_pitItems s' = t_pitItems s ∧ t_measItems s' = t_measItems s ∧
  t_sched s' = t_sched s ∧ t_now s' = t_now s.

Lemma sameTables_scFrame s s' : sameTables s s' → scFrame s s' ∧ t_pits s' = t_pits s ∧ measV s' = measV s ∧ scPart s' = scPart s.
Proof. unfold sameTables, scFrame, pitPart, measPart. intros (-> & [= -> -> ->] & [= -> -> ->] & -> & ->). done. Qed.

Lemma cleared_scFrame l s s' : cleared l s s' → scFrame s s' ∧ scPart s' = scPart s.
Proof.
  intros Hc. pose proof Hc as (_ & _ & _ & Hset). unfold scFrame, fibPart, scPart, fibV, pitV, scV.
  rewrite !(cleared_view _ l s s') by done. rewrite Hset. done.
Qed.

Lemma scFrame_trans s1 s2 s3 : scFrame s1 s2 → scFrame s2 s3 → scFrame s1 s3.
Proof. unfold scFrame. intuition congruence. Qed.

(** The state between the parts of an operation, where the changed entry may
    have no strategy yet. *)
Definition PreInv s : Prop := NtInv (t_nt s) ∧ FibInv s ∧ PitInv s ∧ MeasInv s.

Lemma PreInv_same s s' :
  PreInv s → NtInv (t_nt s') → fibPart s' = fibPart s → pitPart s' = pitPart s → measPart s' = measPart s → PreInv s'.
Proof.
  intros (_ & H1 & H2 & H3) Hnt E1 E2 E3. split_and!; [done|by eapply FibInv_part|by eapply PitInv_part|by eapply MeasInv_part].
Qed.

Lemma PreInv_cleared l s s' : PreInv s → cleared l s s' → PreInv s'.
Proof.
  intros (_ & H1 & H2 & H3) Hc. destruct (cleared_scFrame _ _ _ Hc) as [[E _] _]. pose proof Hc as (Hnt & _).
  split_and!; [done|by eapply FibInv_part|by eapply cleared_PitInv|by eapply cleared_MeasInv].
Qed.

Lemma nt_setSc p f e s :
  PreInv s → ents s !! p = Some e → f e = setStrategyChoiceEntry (e_strategyChoiceEntry (f e)) e →
  wp (nt (updateEntry p f)) (λ _ s', PreInv s' ∧ ents s' = <[p := f e]> (ents s) ∧ s' = set_nt (t_nt s') s ∧
    fibPart s' = fibPart s ∧ pitPart s' = pitPart s ∧ measPart s' = measPart s ∧
    scV s' = match e_strategyChoiceEntry (f e) with
             | None => delete p (scV s) | Some sc => <[p := (e_name e, sc)]> (scV s) end) s.
Proof.
  intros Hs Hp Hf. assert (Hl : same_links e (f e)) by (by rewrite Hf).
  eapply wp_mono; [by apply nt_update; [apply Hs|..]|]. intros _ s' (Eq & Hnt & E').
  assert (Hparts : fibPart s' = fibPart s ∧ pitPart s' = pitPart s ∧ measPart s' = measPart s).
  { rewrite Eq. unfold fibPart, pitPart, measPart, fibV, pitV, measV. change (ents (set_nt (t_nt s') s)) with (ents s').
    rewrite E', Hf, !(view_insert_same _ _ p e) by done. done. }
  destruct Hparts as (E1 & E2 & E3). split; [by eapply PreInv_same|]. split_and!; [done..|].
  unfold scV. rewrite E', view_insert. unfold scF. replace (e_name (f e)) with (e_name e) by (by rewrite Hf).
  by destruct (e_strategyChoiceEntry (f e)).
Qed.

Lemma lpmV_names (V V' : gmap ptr (Name * StrategyChoiceEntry)) n :
  uniqueV V → uniqueV V' → fst <$> V = fst <$> V' → fst <$> lpmV V n = fst <$> lpmV V' n.
Proof.
  assert (Hgen : ∀ V V' : gmap ptr (Name * StrategyChoiceEntry), uniqueV V → uniqueV V' → fst <$> V = fst <$> V' →
    ∀ p, fst <$> lpmV V n = Some p → fst <$> lpmV V' n = Some p).
  { clear V V'. intros V V' Hu Hu' E p ([p' sc] & Hl & ->)%fmap_Some.
    assert (Hk : ∀ V V' : gmap ptr (Name * StrategyChoiceEntry), fst <$> V = fst <$> V' → ∀ q m b, V !! q = Some (m, b) →
      ∃ b', V' !! q = Some (m, b')).
    { clear. intros V V' E q m b Hq. apply (f_equal (lookup q)) in E. rewrite !lookup_fmap, Hq in E. cbn in E.
      destruct (V' !! q) as [[m' b']|]; [|done]. cbn in E. injection E as ->. eauto. }
    apply lpmV_Some in Hl as (m & Hp & Hpre & Hmax); [|done]. destruct (Hk V V' E _ _ _ Hp) as [sc' Hp'].
    rewrite (proj2 (lpmV_Some V' n p' sc' Hu')); [done|]. exists m. split_and!; [done..|].
    intros q m' b Hq Hm'. destruct (Hk V' V (eq_sym E) _ _ _ Hq) as [b' Hq']. by eapply Hmax. }
  intros Hu Hu' E. apply option_eq. intros p. split; by apply Hgen.
Qed.

(** The tail of [insert]: the entry [p] of the prefix gets its new strategy. *)
Lemma insert_finish p e sc old st s :
  PreInv s → ents s !! p = Some e → e_strategyChoiceEntry e = Some sc → sc_prefix sc = e_name e →
  wp (changeStrategy registry p old (st_instanceName st);;
      nt (updateEntry p (λ e, setStrategyChoiceEntry (setStrategy (Some st) <$> e_strategyChoiceEntry e) e));;
      mret IR_OK)
    (λ r s', r = IR_OK ∧ PreInv s' ∧ scFrame s s' ∧ t_scItems s' = t_scItems s ∧
      scV s' = <[p := (e_name e, setStrategy (Some st) sc)]> (scV s) ∧
      infoCleared (covers (scV s') p (negb (areSameType registry old (st_instanceName st)))) s s' ∧
      (tidyBut p (ents s) → tidy (ents s'))) s.
Proof.
  intros Hs He Hsc Hpre. pose proof Hs as (Hnt & _ & Hpit & _). wp_step.
  eapply wp_mono; [by eapply changeStrategy_spec|]. intros [] s1 [[l Hc] Hinfo].
  assert (He1 : ∃ e1, ents s1 !! p = Some e1 ∧ e_name e1 = e_name e ∧ e_strategyChoiceEntry e1 = Some sc).
  { rewrite (cleared_lookup _ _ _ _ Hc), He. eexists. split; [done|]. unfold clearEnt. by case_decide. }
  destruct He1 as (e1 & He1 & Hn1 & Hsc1). pose proof (PreInv_cleared _ _ _ Hs Hc) as Hs1.
  destruct (cleared_scFrame _ _ _ Hc) as [Hfr [= EV EI]].
  wp_step. eapply wp_mono; [apply (nt_setSc p _ e1); [done|done|done]|].
  intros _ s2 (Hs2 & E2 & Eq & P1 & P2 & P3 & EV2). wp_step. cbn in EV2. rewrite Hsc1 in EV2. cbn in EV2.
  rewrite Hn1, EV in EV2. unfold pitPart in P2. unfold measPart in P3. injection P2 as P2a P2b P2c. injection P3 as P3a P3b P3c.
  split; [done|]. split; [done|]. split; [|split_and!; [by rewrite Eq|done| |]].
  - eapply scFrame_trans; [done|]. split_and!; try done. by rewrite Eq.
  - destruct Hinfo as [I1 I2]. assert (Hcov : ∀ n, covers (scV s2) p (negb (areSameType registry old (st_instanceName st))) n =
      covers (scV s) p (negb (areSameType registry old (st_instanceName st))) n).
    { intros n. unfold covers. do 2 f_equal. apply bool_decide_ext. erewrite lpmV_names; [done|apply scV_unique, Hs2|by apply scV_unique|].
      rewrite EV2, fmap_insert. cbn. apply insert_id. rewrite lookup_fmap.
      assert (scV s !! p = Some (e_name e, sc)) as -> by (apply scV_lookup; eauto). done. }
    split; [rewrite P2b, I1|rewrite P3a, I2]; apply map_fmap_ext; intros; by rewrite Hcov.
  - intros Hb. eapply (tidyBut_tidy p (ents s2)); [|by rewrite E2, lookup_insert_eq|].
    + rewrite E2. apply tidyBut_insert. by eapply cleared_tidyBut.
    + apply isEmpty_false. right. unfold hasTableEntries. cbn. rewrite Hsc1.
      by destruct (e_fibEntry e1), (e_pitEntries e1), (e_measurementsEntry e1).
Qed.

Lemma PreInv_tables s : PreInv s → ScInv s → TablesInv s.
Proof. intros (H1 & H2 & H3 & H4) H5. by split. Qed.

Lemma TablesInv_pre s : TablesInv s → PreInv s.
Proof. intros [H1 H2 H3 H4 H5]. by split_and!. Qed.

Lemma ScInv_insert s s' p n sc :
  ScInv s → scV s' = <[p := (n, sc)]> (scV s) → sc_prefix sc = n → is_Some (sc_strategy sc) →
  t_scItems s' = (if decide (is_Some (scV s !! p)) then t_scItems s else size_t (t_scItems s + 1)) → ScInv s'.
Proof.
  intros Hs EV Hn Hst EI. split.
  - intros q m sc'. rewrite EV, lookup_insert_Some. intros [[<- [= <- <-]]|[_ Hv]]; [done|]. by eapply (sci_entry _ Hs).
  - rewrite EI, EV, (sci_items _ Hs). case_decide as Hp.
    + by rewrite map_size_insert_Some by done.
    + rewrite map_size_insert_None by (by apply eq_None_not_Some). apply size_t_succ.
Qed.

(** The result of a successful insertion: [prefix] has the strategy [st], and
    the information of entries it becomes effective for is cleared unless
    the strategy there was of the same type. *)
Definition strategySet s s' (prefix : Name) (st : Strategy) : Prop :=
  scFrame s s' ∧ ∃ p sc st' old,
    scV s' = <[p := (prefix, sc)]> (scV s) ∧ (∀ m sc0, scV s !! p = Some (m, sc0) → m = prefix) ∧
    sc_strategy sc = Some st' ∧ st_instanceName st' = st_instanceName st ∧
    isEffective s prefix old ∧
    infoCleared (covers (scV s') p (negb (areSameType registry (st_instanceName old.2) (st_instanceName st)))) s s'.

Lemma areSameType_refl a : areSameType registry a a = true.
Proof. by apply bool_decide_eq_true. Qed.

Lemma infoCleared_same P s s1 s2 : t_pits s1 = t_pits s → measV s1 = measV s → infoCleared P s1 s2 → infoCleared P s s2.
Proof. unfold infoCleared. by intros -> ->. Qed.

Lemma insert_existing prefix st p e sc s s1 :
  TablesInv s1 → sameTables s s1 → ents s1 !! p = Some e → e_name e = prefix → (tidy (ents s) → tidyBut p (ents s1)) →
  e_strategyChoiceEntry e = Some sc →
  wp (old ← someM (sc_strategy sc);
      if decide (st_instanceName old = st_instanceName st) then mret IR_OK
      else changeStrategy registry p (st_instanceName old) (st_instanceName st);;
           nt (updateEntry p (λ e, setStrategyChoiceEntry (setStrategy (Some st) <$> e_strategyChoiceEntry e) e));;
           mret IR_OK)
    (λ r s', r = IR_OK ∧ TablesInv s' ∧ (tidy (ents s) → tidy (ents s')) ∧ strategySet s s' prefix st) s1.
Proof.
  intros Hs1 Hsame He Hn Htidy Hsc. destruct (sameTables_scFrame _ _ Hsame) as (Hfr & EP & EM & [= EV EI]).
  assert (Hv : scV s1 !! p = Some (prefix, sc)) by (apply scV_lookup; eauto).
  destruct (sci_entry _ (tbi_sc _ Hs1) _ _ _ Hv) as [Hpre [old Hold]].
  assert (Heff : isEffective s prefix (p, old)).
  { exists sc. split; [|done]. rewrite <- EV. apply lpmV_Some; [apply scV_unique, Hs1|]. exists prefix. split_and!; [done..|].
    intros q m b _ Hm. by apply prefix_length. }
  wp_step. wp_step; [exact Hold|]. case_decide as Heq.
  - wp_step. split; [done|]. split; [done|]. split.
    + intros Ht. eapply (tidyBut_tidy p); [by apply Htidy|done|]. apply isEmpty_false. right. unfold hasTableEntries.
      rewrite Hsc. by destruct (e_fibEntry e), (e_pitEntries e), (e_measurementsEntry e).
    + split; [done|]. exists p, sc, old, (p, old). rewrite <- EV. split_and!; [by rewrite insert_id|by intros m sc0 Hm; rewrite Hv in Hm; injection Hm|done..|].
      eapply infoCleared_same; [done..|]. apply infoCleared_none. intros n. cbn. by rewrite Heq, areSameType_refl.
  - eapply wp_mono; [eapply (insert_finish p e sc); [by apply TablesInv_pre|done|done|congruence]|].
    intros r s' (-> & Hs' & Hfr' & EI' & EV' & Hinfo & Htidy'). split; [done|]. split; [|split; [by auto|]].
    + apply PreInv_tables; [done|]. eapply (ScInv_insert s1); [apply Hs1|exact EV'|cbn; congruence|by eexists|].
      rewrite decide_True by (by eexists). done.
    + split; [by eapply scFrame_trans|]. exists p, (setStrategy (Some st) sc), st, (p, old). rewrite EV', EV, Hn in *.
      split_and!; [done|by intros m sc0 Hm; rewrite Hv in Hm; injection Hm|done..|]. by eapply infoCleared_same.
Qed.

Lemma insert_new prefix st p e s s1 :
  TablesInv s1 → hasDefault s1 → sameTables s s1 → ents s1 !! p = Some e → e_name e = prefix →
  (tidy (ents s) → tidyBut p (ents s1)) → e_strategyChoiceEntry e = None →
  wp (old ← findEffectiveStrategy prefix;
      nt (updateEntry p (setStrategyChoiceEntry (Some (newStrategyChoiceEntry prefix))));;
      modify (λ s, set_scItems (size_t (t_scItems s + 1)) s);;
      changeStrategy registry p (st_instanceName old.2) (st_instanceName st);;
      nt (updateEntry p (λ e, setStrategyChoiceEntry (setStrategy (Some st) <$> e_strategyChoiceEntry e) e));;
      mret IR_OK)
    (λ r s', r = IR_OK ∧ TablesInv s' ∧ (tidy (ents s) → tidy (ents s')) ∧ strategySet s s' prefix st) s1.
Proof.
  intros Hs1 Hd Hsame He Hn Htidy Hsc. destruct (sameTables_scFrame _ _ Hsame) as (Hfr & EP & EM & [= EV EI]).
  wp_step. eapply wp_mono; [by apply findEffectiveStrategy_spec|]. intros old s1' [-> Heff].
  wp_step. eapply wp_mono; [apply (nt_setSc p _ e); [by apply TablesInv_pre|done|done]|].
  intros _ s2 (Hs2 & E2 & Eq2 & Q1 & Q2 & Q3 & EV2). cbn [setStrategyChoiceEntry e_strategyChoiceEntry] in EV2. do 2 wp_step.
  unfold pitPart in Q2. unfold measPart in Q3. injection Q2 as Q2a Q2b Q2c. injection Q3 as Q3a Q3b Q3c.
  set (s3 := set_scItems _ s2).
  assert (Hv1 : scV s1 !! p = None).
  { destruct (scV s1 !! p) as [[m sc]|] eqn:Hv; [|done]. apply scV_lookup in Hv as (e' & He' & _ & Hsc'). congruence. }
  eapply wp_mono; [eapply (insert_finish p (setStrategyChoiceEntry (Some (newStrategyChoiceEntry prefix)) e)
    (newStrategyChoiceEntry prefix) (st_instanceName old.2) st s3)|].
  - eapply (PreInv_same s2); [done|apply Hs2|done..].
  - change (ents s3) with (ents s2). by rewrite E2, lookup_insert_eq.
  - done.
  - done.
  - intros r s' (-> & Hs' & Hfr' & EI' & EV' & Hinfo & Htidy').
    change (scV s3) with (scV s2) in EV'. rewrite EV2, insert_insert_eq in EV'. cbn [e_name setStrategyChoiceEntry] in EV'.
    split; [done|]. split; [|split].
    + apply PreInv_tables; [done|]. eapply (ScInv_insert s1); [apply Hs1|exact EV'|done|by eexists|].
      rewrite decide_False by (rewrite Hv1; by intros [??]). rewrite EI'. cbn. by rewrite Eq2.
    + intros Ht. apply Htidy'. change (ents s3) with (ents s2). rewrite E2. by apply tidyBut_insert, Htidy.
    + split; [|exists p, (setStrategy (Some st) (newStrategyChoiceEntry prefix)), st, old].
      * eapply scFrame_trans; [done|]. eapply (scFrame_trans _ s3); [|done]. split_and!; try done. change (t_now s3) with (t_now s2).
        by rewrite Eq2.
      * rewrite EV', EV, Hn in *. split_and!; [done|by intros m sc0 Hm; rewrite Hv1 in Hm|done..|destruct Heff as (sc & ? & ?); exists sc; by rewrite EV in *|].
        eapply (infoCleared_same _ s s3); [|..|exact Hinfo].
        -- change (t_pits s3) with (t_pits s2). congruence.
        -- change (measV s3) with (measV s2). congruence.
Qed.

Lemma StrategyChoice_insert_spec prefix strategyName created s :
  TablesInv s → hasDefault s → Strategy_create registry strategyName = Some created →
  wp (StrategyChoice_insert registry prefix strategyName) (λ r s',
    TablesInv s' ∧ (tidy (ents s) → tidy (ents s')) ∧
    (if decide (getMaxDepth < length prefix) then r = IR_DEPTH_EXCEEDED ∧ s' = s
     else match created with
          | CR_null => r = IR_NOT_REGISTERED ∧ s' = s
          | CR_exception => r = IR_EXCEPTION ∧ s' = s
          | CR_strategy st => r = IR_OK ∧ strategySet s s' prefix st
          end)) s.
Proof.
  intros Hs Hd Hcr. unfold StrategyChoice_insert. case_decide as Hlen; [by wp_step|].
  wp_step. wp_step; [exact Hcr|]. destruct created as [| |st]; [by wp_step..|].
  wp_step. eapply wp_mono; [apply nt_lookup; [done|done|lia]|].
  intros p s1 (Hs1 & Hsame & (e & He & Hn) & _ & Htidy). rewrite firstn_all in Hn.
  wp_step. apply nt_derefEntry. exists e. split; [done|]. rewrite set_nt_same.
  assert (Hd1 : hasDefault s1).
  { unfold hasDefault. destruct (sameTables_scFrame _ _ Hsame) as (_ & _ & _ & [= -> _]). done. }
  destruct (e_strategyChoiceEntry e) as [sc|] eqn:Hsc.
  - eapply wp_mono; [by eapply insert_existing|]. intros r s' (? & ? & ? & ?). done.
  - eapply wp_mono; [by eapply insert_new|]. intros r s' (? & ? & ? & ?). done.
Qed.

Lemma ScInv_delete s s' p :
  ScInv s → is_Some (scV s !! p) → scV s' = delete p (scV s) → t_scItems s' = size_t (t_scItems s - 1) → ScInv s'.
Proof.
  intros Hs Hp EV EI. split.
  - intros q m sc'. rewrite EV, lookup_delete_Some. intros [_ Hv]. by eapply (sci_entry _ Hs).
  - rewrite EI, EV, (sci_items _ Hs), map_size_delete_Some by done.
    pose proof (map_size_ne_0_lookup_2 (scV s) p Hp).
    replace (size (scV s)) with (S (Init.Nat.pred (size (scV s)))) at 1 by lia. apply size_t_pred.
Qed.

Definition strategyUnset s s' (prefix : Name) p sc : Prop :=
  scFrame s s' ∧ scV s' = delete p (scV s) ∧ ∃ old parent,
    sc_strategy sc = Some old ∧ isEffective s (getParentName prefix) parent ∧
    infoCleared (covers (scV s) p (negb (areSameType registry (st_instanceName old) (st_instanceName parent.2)))) s s'.

Lemma erase_found prefix p e sc s :
  TablesInv s → hasDefault s → ents s !! p = Some e → e_name e = prefix → e_strategyChoiceEntry e = Some sc →
  wp (old ← someM (sc_strategy sc);
      parent ← findEffectiveStrategy (getParentName prefix);
      changeStrategy registry p (st_instanceName old) (st_instanceName parent.2);;
      nt (updateEntry p (setStrategyChoiceEntry None));;
      nt (eraseIfEmpty p true);;
      modify (λ s, set_scItems (size_t (t_scItems s - 1)) s))
    (λ _ s', TablesInv s' ∧ (tidy (ents s) → tidy (ents s')) ∧ strategyUnset s s' prefix p sc) s.
Proof.
  intros Hs Hd He Hn Hsc. assert (Hv : scV s !! p = Some (prefix, sc)) by (apply scV_lookup; eauto).
  destruct (sci_entry _ (tbi_sc _ Hs) _ _ _ Hv) as [Hpre [old Hold]].
  wp_step. wp_step; [exact Hold|]. wp_step. eapply wp_mono; [by apply findEffectiveStrategy_spec|]. intros parent s0 [-> Heff].
  wp_step. eapply wp_mono; [eapply changeStrategy_spec; [apply Hs|apply Hs|exact He|exact Hsc|congruence]|].
  intros [] s1 [[l Hc] Hinfo]. pose proof (PreInv_cleared _ _ _ (TablesInv_pre _ Hs) Hc) as Hs1.
  destruct (cleared_scFrame _ _ _ Hc) as [Hfr1 [= EV1 EI1]].
  assert (He1 : ∃ e1, ents s1 !! p = Some e1).
  { rewrite (cleared_lookup _ _ _ _ Hc), He. by eexists. }
  destruct He1 as [e1 He1]. wp_step. eapply wp_mono; [apply (nt_setSc p _ e1); [done..|done]|].
  intros _ s2 (Hs2 & E2 & Eq2 & Q1 & Q2 & Q3 & EV2). cbn [setStrategyChoiceEntry e_strategyChoiceEntry] in EV2.
  unfold pitPart in Q2. unfold measPart in Q3. injection Q2 as Q2a Q2b Q2c. injection Q3 as Q3a Q3b Q3c.
  assert (He2 : ents s2 !! p = Some (setStrategyChoiceEntry None e1)) by (by rewrite E2, lookup_insert_eq).
  wp_step. apply wp_nt_eq. eapply wp_mono; [by apply eraseIfEmpty_spec; [apply Hs2|]|].
  intros k t (Ht & [Hpr _] & _ & _ & _ & Htidy). wp_step. set (s3 := set_nt t s2).
  pose proof (sameTables_attached s2 t Hpr) as Hsame. fold s3 in Hsame.
  destruct (sameTables_scFrame _ _ Hsame) as (Hfr3 & EP3 & EM3 & [= EV3]). destruct Hsame as (S1 & S2 & S3 & _).
  assert (EV : scV s3 = delete p (scV s)) by (by rewrite EV3, EV2, EV1).
  split; [|split; [|split; [|split; [done|]]]].
  - apply PreInv_tables; [by eapply (PreInv_same s2)|]. eapply (ScInv_delete s); [apply Hs|by eexists|done|].
    cbn. rewrite Eq2. cbn. by rewrite EI1.
  - intros Hti. change (tidy (entries t)). apply Htidy; [done|]. change (entries (t_nt s2)) with (ents s2).
    rewrite E2. by eapply tidyBut_insert, cleared_tidyBut, tidy_tidyBut.
  - eapply scFrame_trans; [done|]. eapply (scFrame_trans _ s2); [|done]. split_and!; try done. by rewrite Eq2.
  - exists old, parent. split; [done|]. split; [done|]. destruct Hinfo as [I1 I2].
    split; [transitivity (t_pits s2)|transitivity (measV s2)]; [done|congruence|done|congruence].
Qed.

Lemma StrategyChoice_get_spec prefix s :
  TablesInv s → wp (StrategyChoice_get prefix) (λ r s', s' = s ∧
    r = ('(_, sc) ← atName (scV s) prefix; st_instanceName <$> sc_strategy sc)) s.
Proof.
  intros Hs. unfold StrategyChoice_get. wp_step. apply nt_findExactMatch; [apply Hs|]. rewrite firstn_all.
  unfold scV. rewrite (atName_view scF) by apply Hs.
  destruct (find_name (ents s) prefix) as [[p e]|] eqn:Hf; cbn [fmap option_fmap option_map fst mbind option_bind]; [|by wp_step].
  apply find_name_Some in Hf as [He Hn]; [|apply Hs]. wp_step. apply nt_derefEntry. exists e. split; [done|]. rewrite set_nt_same.
  unfold scF. destruct (e_strategyChoiceEntry e) as [sc|] eqn:Hsc; cbn [fmap option_fmap option_map]; [|by wp_step].
  destruct (sci_entry _ (tbi_sc _ Hs) p (e_name e) sc) as [_ [st Hst]]; [apply scV_lookup; eauto|].
  wp_step. wp_step; [exact Hst|]. wp_step. split; [done|]. cbn. by rewrite Hst.
Qed.

Lemma StrategyChoice_erase_spec prefix s :
  TablesInv s → hasDefault s → prefix ≠ [] →
  wp (StrategyChoice_erase registry prefix) (λ _ s', TablesInv s' ∧ (tidy (ents s) → tidy (ents s')) ∧ hasDefault s' ∧
    match atName (scV s) prefix with
    | None => s' = s
    | Some (p, sc) => strategyUnset s s' prefix p sc
    end) s.
Proof.
  intros Hs Hd Hne. unfold StrategyChoice_erase. wp_step. wp_step.
  { apply bool_decide_eq_true. destruct prefix; [done|simpl; lia]. }
  wp_step. apply nt_findExactMatch; [apply Hs|]. rewrite firstn_all. unfold scV at 1. rewrite (atName_view scF) by apply Hs.
  destruct (find_name (ents s) prefix) as [[p e]|] eqn:Hf; cbn [fmap option_fmap option_map fst mbind option_bind]; [|by wp_step].
  apply find_name_Some in Hf as [He Hn]; [|apply Hs].
  wp_step. apply nt_derefEntry. exists e. split; [done|]. rewrite set_nt_same. unfold scF.
  destruct (e_strategyChoiceEntry e) as [sc|] eqn:Hsc; cbn [fmap option_fmap option_map]; [|by wp_step].
  eapply wp_mono; [by eapply erase_found|]. intros r s' (Hs' & Ht & Hu). split; [done|]. split; [done|]. split; [|done].
  destruct Hd as (q & scd & Hq), Hu as (_ & EV & _). exists q, scd. rewrite EV, lookup_delete_ne; [done|].
  intros ->. apply scV_lookup in Hq as (e' & He' & Hn' & _). congruence.
Qed.

Lemma setDefaultStrategy_spec strategyName st s :
  TablesInv s → atName (scV s) [] = None → Strategy_create registry strategyName = Some (CR_strategy st) →
  wp (setDefaultStrategy registry strategyName) (λ _ s', TablesInv s' ∧ hasDefault s' ∧ (tidy (ents s) → tidy (ents s')) ∧
    (∃ p, scV s' = <[p := ([], setStrategy (Some st) (newStrategyChoiceEntry []))]> (scV s)) ∧
    fibPart s' = fibPart s ∧ pitPart s' = pitPart s ∧ measPart s' = measPart s) s.
Proof.
  intros Hs Hno Hcr. unfold setDefaultStrategy. wp_step. wp_step; [exact Hcr|]. cbv beta iota.
  wp_step. eapply wp_mono; [apply nt_lookup; [done|done|lia]|]. intros p s1 (Hs1 & Hsame & (e & He & Hn) & _ & Htidy).
  destruct (sameTables_scFrame _ _ Hsame) as (_ & _ & _ & [= EV EI]). rewrite take_nil in Hn.
  wp_step. eapply wp_mono; [apply (nt_setSc p _ e); [by apply TablesInv_pre|done|done]|].
  intros _ s2 (Hs2 & E2 & Eq2 & Q1 & Q2 & Q3 & EV2). cbn [setStrategyChoiceEntry e_strategyChoiceEntry] in EV2. wp_step.
  rewrite Hn, EV in EV2. set (s3 := set_scItems _ s2). change (scV s2) with (scV s3) in EV2.
  assert (Hnone : scV s !! p = None).
  { destruct (scV s !! p) as [[m sc]|] eqn:Hv; [|done]. rewrite <- EV in Hv. apply scV_lookup in Hv as Hv'.
    destruct Hv' as (e' & He' & Hm & _). rewrite EV in Hv. assert (m = []) as -> by congruence.
    rewrite atName_None in Hno. by destruct (Hno p sc). }
  destruct Hsame as (R1 & R2 & R3 & _).
  split; [|split; [|split; [|split; [by exists p|]]]]; [| | |split_and!; etrans; [exact Q1|done|exact Q2|done|exact Q3|done]].
  - apply PreInv_tables; [by eapply (PreInv_same s2); [done|apply Hs2|..]|].
    eapply (ScInv_insert s); [apply Hs|exact EV2|done|by eexists|].
    rewrite decide_False by (rewrite Hnone; by intros [??]). cbn. rewrite Eq2. cbn. by rewrite EI.
  - exists p. eexists. by rewrite EV2, lookup_insert_eq.
  - intros Ht. change (tidy (ents s2)). eapply (tidyBut_tidy p); [|by rewrite E2, lookup_insert_eq|].
    + rewrite E2. by apply tidyBut_insert, Htidy.
    + apply isEmpty_false. right. unfold hasTableEntries. cbn. by destruct (e_fibEntry e), (e_pitEntries e), (e_measurementsEntry e).
Qed.
End StrategyChoiceSpecs.

(** ** Correctness *)

Section StrategyChoiceCorrect.
Context {N : NdnCxx} {NL : NdnCxxLaws N} {SC : Scheduler} {SCL : SchedulerLaws SC} (registry : Registry).
Implicit Types (s : Tables) (p : ptr) (prefix name strategyName : Name).

(** The strategy selected by an instance name, in a registry sorted by name:
    with a version, the smallest registered name of the same strategy that is not
    below it; without, the greatest registered name under the given prefix; and
    none exactly when no registered name qualifies. *)
Theorem strategy_find_correct instanceName :
  sortedR registry → pin_strategyName (parseInstanceName instanceName) ≠ [] →
  let name := pin_strategyName (parseInstanceName instanceName) in
  match pin_version (parseInstanceName instanceName), registry !! Strategy_find registry instanceName with
  | Some _, Some (k, _) => getParentName name `prefix_of` k ∧ name_compare name k ≠ Gt ∧
      (∀ k', k' ∈ registry.*1 → name_compare name k' ≠ Gt → name_compare k k' ≠ Gt)
  | Some _, None => ∀ k', k' ∈ registry.*1 → name_compare name k' ≠ Gt → ¬ getParentName name `prefix_of` k'
  | None, Some (k, _) => name `prefix_of` k ∧
      (∀ k', k' ∈ registry.*1 → name `prefix_of` k' → name_compare k' k ≠ Gt)
  | None, None => ∀ k', k' ∈ registry.*1 → ¬ name `prefix_of` k'
  end.
Proof.
  intros Hr Hne name. destruct (pin_version (parseInstanceName instanceName)) as [v|] eqn:Hv.
  - exact (Strategy_find_versioned registry instanceName name v Hr Hv eq_refl).
  - exact (Strategy_find_unversioned registry instanceName name Hr Hv eq_refl Hne).
Qed.

(** C34: Inserting a strategy choice reports a prefix that is too long, an
    unregistered strategy and an exception of its constructor without changing
    anything; otherwise the prefix gets the strategy, and everything but strategy
    information is kept.  If the type of the strategy changes, that information is
    cleared for exactly the Measurements entries, and the PIT entries attached to name
    tree entries, whose name has the prefix as the longest one with a choice.  A PIT
    entry whose name ends in an implicit digest is attached to the name without it:
    when a strategy is chosen for the full name, its effective strategy changes and its
    information is not cleared, against the comment on this loop. *)
Theorem strategy_choice_insert prefix strategyName created s :
  TablesInv s → hasDefault s → Strategy_create registry strategyName = Some created →
  wp (StrategyChoice_insert registry prefix strategyName) (λ r s',
    TablesInv s' ∧ (tidy (ents s) → tidy (ents s')) ∧
    (if decide (getMaxDepth < length prefix) then r = IR_DEPTH_EXCEEDED ∧ s' = s
     else match created with
          | CR_null => r = IR_NOT_REGISTERED ∧ s' = s
          | CR_exception => r = IR_EXCEPTION ∧ s' = s
          | CR_strategy st => r = IR_OK ∧ strategySet registry s s' prefix st
          end)) s.
Proof. apply StrategyChoice_insert_spec. Qed.

(** Erasing a strategy choice other than the default keeps the default,
    removes the choice of that prefix only, clears the strategy information of
    exactly the entries attached at names that fall back to a strategy of another type,
    and does nothing when the prefix has no choice. *)
Theorem strategy_choice_erase prefix s :
  TablesInv s → hasDefault s → prefix ≠ [] →
  wp (StrategyChoice_erase registry prefix) (λ _ s', TablesInv s' ∧ (tidy (ents s) → tidy (ents s')) ∧ hasDefault s' ∧
    match atName (scV s) prefix with
    | None => s' = s
    | Some (p, sc) => strategyUnset registry s s' prefix p sc
    end) s.
Proof. apply StrategyChoice_erase_spec. Qed.

(** Once a default strategy is set, every lookup of the effective strategy (by
    name, for a PIT entry, for a Measurements entry) succeeds without changing
    anything and agrees with the choice of the longest prefix of the name. *)
Theorem effective_strategy_equivalence s :
  TablesInv s → hasDefault s →
  (∀ name, wp (findEffectiveStrategy name) (λ r s', s' = s ∧ isEffective s name r) s) ∧
  (∀ x pe, t_pits s !! x = Some pe → isAttached pe →
    wp (findEffectiveStrategy_pit x) (λ r s', s' = s ∧ isEffective s (pe_name pe) r) s) ∧
  (∀ p n me, measV s !! p = Some (n, me) →
    wp (findEffectiveStrategy_meas p) (λ r s', s' = s ∧ isEffective s n r) s).
Proof.
  intros Hs Hd. split; [|split]; intros *.
  - by apply findEffectiveStrategy_spec.
  - by apply findEffectiveStrategy_pit_spec.
  - by apply findEffectiveStrategy_meas_spec.
Qed.
End StrategyChoiceCorrect.

(** Examples: a registry of three strategies, and tables whose default is the
    first. *)
Definition exStrategy (instanceName class : list nat) : Strategy (N := NatNdn) := mkStrategy (N := NatNdn) instanceName class.
Definition exRegistry : list (list nat * (list nat → Created (N := NatNdn))) :=
  (λ n : list nat, (n, λ i, Instance (N := NatNdn) (exStrategy i n))) <$> [[201; 1001]; [201; 1003]; [202; 1001]].
Definition sc1 : Tables := run (setDefaultStrategy (N := NatNdn) exRegistry [201; 1001]) tables0.

Lemma sc1_inv : TablesInv sc1 ∧ hasDefault sc1.
Proof.
  destruct (run_spec _ _ _ (setDefaultStrategy_spec (N := NatNdn) exRegistry [201; 1001] (exStrategy [201; 1001] [201; 1001]) tables0 (proj1 tables0_inv)
    ltac:(vm_compute; reflexivity) ltac:(vm_compute; reflexivity))) as (r & H1 & H2 & _). exact (conj H1 H2).
Qed.

Lemma strategy_find_correct_witness :
  match exRegistry !! Strategy_find (N := NatNdn) exRegistry [201] with
  | Some (k, _) => ([201] : list nat) `prefix_of` k
  | None => False
  end.
Proof.
  assert (Hs : sortedR (N := NatNdn) exRegistry) by (repeat constructor).
  exact (proj1 (strategy_find_correct (N := NatNdn) exRegistry [201] Hs ltac:(discriminate))).
Defined.

Lemma strategy_choice_insert_witness :
  wp (StrategyChoice_insert (N := NatNdn) exRegistry [101] [202]) (λ r s', TablesInv s' ∧ r = IR_OK) sc1.
Proof.
  eapply wp_mono; [exact (strategy_choice_insert (N := NatNdn) exRegistry [101] [202] (CR_strategy (exStrategy [202] [202; 1001])) sc1
    (proj1 sc1_inv) (proj2 sc1_inv) ltac:(vm_compute; reflexivity))|].
  intros r s' (H1 & _ & H2). split; [exact H1|]. exact (proj1 H2).
Defined.

Lemma strategy_choice_erase_witness :
  wp (StrategyChoice_erase (N := NatNdn) exRegistry [101]) (λ _ s', TablesInv s' ∧ hasDefault s') sc1.
Proof.
  eapply wp_mono; [exact (strategy_choice_erase (N := NatNdn) exRegistry [101] sc1 (proj1 sc1_inv) (proj2 sc1_inv) ltac:(discriminate))|].
  intros r s' (H1 & _ & H2 & _). exact (conj H1 H2).
Defined.

Lemma effective_strategy_equivalence_witness :
  wp (findEffectiveStrategy (N := NatNdn) [101]) (λ r s', s' = sc1 ∧ isEffective sc1 ([101] : list nat) r) sc1.
Proof. exact (proj1 (effective_strategy_equivalence sc1 (proj1 sc1_inv) (proj2 sc1_inv)) [101]). Defined.
