(* ===== verification/Cleanup.v ===== *)
(** * Face removal: the tables forget a face

    [src/daemon/table/cleanup.cpp]: when a face is removed, its next hops leave
    the FIB, its records leave the PIT, and name tree entries left without
    content are erased. *)

From Stdlib Require Import ZArith Lia.
From stdpp Require Import base gmap option sorting list.
From S2P Require Import Prelude Scheduler CityHash Ndn FibEntry PitEntry NameTreeEntry Hashtable NameTree.
From S2P Require Import NameTreeIterator Tables Fib Pit.

Section Cleanup.
Context {N : NdnCxx} {SS : StdSort} {SC : Scheduler}.

(** [std::multimap::emplace]: after the elements with an equivalent key. *)
Fixpoint emplace (k : nat) (v : ptr) (l : list (nat * ptr)) : list (nat * ptr) :=
  match l with
  | [] => [(k, v)]
  | (k', v') :: l' => if decide (k < k') then (k, v) :: l else (k', v') :: emplace k v l'
  end.

(** The loop over the name tree; it collects [maybeEmptyNtes]. *)
Fixpoint visitNtes (face : FacePtr) (ntes : list ptr) (maybeEmptyNtes : list (nat * ptr))
  : M Tables (list (nat * ptr)) :=
  match ntes with
  | [] => mret maybeEmptyNtes
  | nte :: ntes' =>
      e ← nt (derefEntry nte);
      (if e_fibEntry e is Some _ then Fib_removeNextHop nte face;; mret tt else mret tt);;
      e ← nt (derefEntry nte);
      forM (e_pitEntries e) (λ x, Pit_deleteInOutRecords x face);;
      e ← nt (derefEntry nte);
      visitNtes face ntes'
        (if hasTableEntries e then maybeEmptyNtes else emplace (length (e_name e)) nte maybeEmptyNtes)
  end.

(** The loop erases no name tree entry, so the iterator visits those of the
    initial state. *)
Definition cleanupOnFaceRemoval (face : FacePtr) : M Tables unit :=
  s ← get_st;
  ntes ← someM (fullEnumerate (t_nt s) (λ _ _, true));
  maybeEmptyNtes ← visitNtes face ntes [];
  forM (rev maybeEmptyNtes) (λ kv, nt (eraseIfEmpty kv.2 false);; mret tt);;
  s ← get_st;
  ntes ← someM (fullEnumerate (t_nt s) (λ _ _, true));
  assertM (bool_decide (size (ents s) = 0) ||
           forallb (λ p, if ents s !! p is Some e then negb (isEmpty e) else true) ntes).
End Cleanup.

Section CleanupSpecs.
Context {N : NdnCxx} {NL : NdnCxxLaws N} {SS : StdSort} {SSL : StdSortLaws SS} {SC : Scheduler}.
Implicit Types (s : Tables) (p q x : ptr) (e : Entry) (l : list ptr) (pe : PitEntry) (fe : FibEntry) (face : FacePtr).

(** ** What the visit does to each entry *)

(** A FIB entry without the next hops of [face]; it is gone if none is left. *)
Definition cutFib face fe : option FibEntry :=
  let '(fe', isRemoved) := FibEntry_removeNextHop fe face in
  if isRemoved && negb (hasNextHops fe') then None else Some fe'.
Definition cutPit face pe : PitEntry := deleteOutRecord face (deleteInRecord face pe).

Definition cutEnt face l p e : Entry :=
  if decide (p ∈ l) then setFibEntry (e_fibEntry e ≫= cutFib face) e else e.
Definition cutPe face l pe : PitEntry := if decide (attachedIn l pe) then cutPit face pe else pe.

Definition visited face l s s' : Prop :=
  TablesInv s' ∧ (∀ q, ents s' !! q = cutEnt face l q <$> ents s !! q) ∧
  t_pits s' = cutPe face l <$> t_pits s ∧ t_pitItems s' = t_pitItems s ∧
  measPart s' = measPart s ∧ scPart s' = scPart s ∧ t_now s' = t_now s.

Lemma cutPit_keeps face pe : keepsKey pe (cutPit face pe).
Proof.
  unfold keepsKey, cutPit, pe_name. split_and!.
  1-4: rewrite deleteOutRecord_frame, deleteInRecord_frame; done.
  intros Hw. by apply deleteOutRecord_wf, deleteInRecord_wf.
Qed.

(** The step for the FIB entry of a name tree entry. *)
Lemma visit_fib face p e s :
  TablesInv s → ents s !! p = Some e →
  wp (if e_fibEntry e is Some _ then Fib_removeNextHop p face;; mret tt else mret tt) (λ _ s',
    TablesInv s' ∧ fibOnly s s' ∧ ents s' = <[p := setFibEntry (e_fibEntry e ≫= cutFib face) e]> (ents s)) s.
Proof.
  intros Hs He. destruct (e_fibEntry e) as [fe|] eqn:Hfe.
  2: { wp_step. split; [done|]. split; [by apply sameTables_fibOnly|]. symmetry. apply insert_id. rewrite He. f_equal.
       destruct e. simpl in Hfe. by subst. }
  assert (Hv : fibV s !! p = Some (e_name e, fe)) by (apply fibV_lookup; eauto).
  wp_step. eapply wp_mono; [by eapply Fib_removeNextHop_spec|]. intros r s' (Hs' & Ho & (e0 & fo & He0 & E') & Hr). wp_step.
  simplify_eq. split; [done|]. split; [done|]. rewrite E'. do 2 f_equal. cbn [mbind option_bind].
  assert (Hfo : fibV s' !! p = pair (e_name e) <$> fo).
  { unfold fibV. rewrite E', view_insert. unfold fibF. cbn. destruct fo; [by rewrite lookup_insert_eq|by rewrite lookup_delete_eq]. }
  unfold cutFib. pose proof (remove_result fe face) as Hres. pose proof (remove_noop fe face) as Hnoop.
  destruct (FibEntry_removeNextHop fe face) as [fe' isRemoved]. cbn [fst snd] in *. unfold hasNextHops.
  destruct r; destruct Hr as [Hin Hr].
  - rewrite Hr, Hv in Hfo. destruct isRemoved; [by destruct Hin; apply Hres|]. rewrite Hnoop by done. cbn.
    destruct fo; cbn in Hfo; congruence.
  - destruct Hr as [Hne Hr]. rewrite Hr, lookup_insert_eq in Hfo. destruct isRemoved; cbn; [destruct (fe_nextHops fe'); [done|cbn]|];
      (destruct fo; cbn in Hfo; congruence).
  - destruct Hr as [Hne Hr]. rewrite Hr, lookup_delete_eq in Hfo. apply Hres in Hin. subst. cbn. rewrite Hne. cbn.
    by destruct fo.
Qed.

Lemma visit_pits face p e s :
  TablesInv s → ents s !! p = Some e →
  wp (forM (e_pitEntries e) (λ x, Pit_deleteInOutRecords x face)) (λ _ s', TablesInv s' ∧ s' = set_pits (t_pits s') s ∧
    t_pits s' = cutPe face [p] <$> t_pits s) s.
Proof.
  intros Hs He. pose proof (tbi_pit _ Hs) as Hp. eapply wp_mono; [apply (updatePits_loop _ (cutPit face))|].
  { intros x s0 pe Hx. unfold Pit_deleteInOutRecords. wp_step. apply wp_updatePit. exists pe. split; [done|].
    apply wp_updatePit. eexists. split; [apply lookup_insert_eq|]. cbn. by rewrite insert_insert_eq. }
  { by eapply pitEntries_NoDup. }
  { intros x Hx. destruct (pits_of_entry _ _ _ _ Hp He Hx) as (pe & Hpe & _). by eexists. }
  intros _ s' [Hset Hx]. assert (EP : t_pits s' = cutPe face [p] <$> t_pits s).
  { apply map_eq. intros x. rewrite Hx, lookup_fmap. destruct (t_pits s !! x) as [pe|] eqn:Hpe; [|done]. cbn. f_equal.
    unfold cutPe. apply decide_ext. by eapply attached_here. }
  split; [|done]. eapply (TablesInv_pitOnly s); [done|by rewrite Hset; apply Hs| |by rewrite Hset].
  apply (PitInv_keeps s); [done|by rewrite Hset|by rewrite Hset|]. intros x. rewrite EP, lookup_fmap.
  destruct (t_pits s !! x) as [pe|]; [|done]. cbn. unfold cutPe. case_decide; [apply cutPit_keeps|by split_and!].
Qed.

Lemma visit_step face l p e s0 s1 s2 s3 :
  visited face l s0 s1 → p ∉ l → ents s1 !! p = Some e → fibOnly s1 s2 →
  ents s2 = <[p := setFibEntry (e_fibEntry e ≫= cutFib face) e]> (ents s1) →
  TablesInv s3 → s3 = set_pits (t_pits s3) s2 → t_pits s3 = cutPe face [p] <$> t_pits s2 →
  visited face (l ++ [p]) s0 s3.
Proof.
  intros (Hs1 & HE & HP & HI & HM & HS & HN) Hpl He (O1 & O2 & O3 & O4) E2 Hs3 Hset EP.
  unfold pitPart in O1. injection O1 as O1a O1b O1c. split; [done|]. split_and!.
  - intros q. assert (Eq : ents s3 = ents s2) by (by rewrite Hset). rewrite Eq, E2. destruct (decide (p = q)) as [<-|Hne].
    + rewrite lookup_insert_eq. rewrite HE in He. destruct (ents s0 !! p) as [e0|]; [|done]. cbn in He |- *. unfold cutEnt in *.
      rewrite decide_False in He by done. injection He as <-. rewrite decide_True; [done|].
      apply elem_of_app. right. constructor.
    + rewrite lookup_insert_ne, HE by done. destruct (ents s0 !! q); [|done]. cbn. f_equal. unfold cutEnt. apply decide_ext.
      rewrite elem_of_app, list_elem_of_singleton. naive_solver.
  - rewrite EP, O1b, HP, <- map_fmap_compose. apply map_fmap_ext. intros x pe _. cbn. unfold cutPe at 1.
    assert (Hatt : attachedIn [p] (cutPe face l pe) ↔ attachedIn [p] pe).
    { unfold attachedIn. unfold cutPe. case_decide; [|done]. by rewrite (proj1 (cutPit_keeps face pe)). }
    rewrite (decide_ext _ _ _ _ Hatt). unfold cutPe.
    assert (Happ : attachedIn (l ++ [p]) pe ↔ attachedIn l pe ∨ attachedIn [p] pe).
    { unfold attachedIn. setoid_rewrite elem_of_app. naive_solver. }
    assert (Hex : attachedIn [p] pe → ¬ attachedIn l pe).
    { intros (q & Hq & ->%list_elem_of_singleton) (q' & Hq' & Hl). by simplify_eq. }
    destruct (decide (attachedIn [p] pe)), (decide (attachedIn l pe)), (decide (attachedIn (l ++ [p]) pe)); tauto.
  - rewrite Hset. cbn. congruence.
  - rewrite Hset. etrans; [exact O2|done].
  - rewrite Hset. etrans; [exact O3|done].
  - rewrite Hset. etrans; [exact O4|done].
Qed.

Lemma emplace_elem k v (l : list (nat * ptr)) (x : nat * ptr) : x ∈ emplace k v l ↔ x = (k, v) ∨ x ∈ l.
Proof.
  induction l as [|[k' v'] l IH]; cbn [emplace]; [rewrite list_elem_of_singleton, elem_of_nil; naive_solver|].
  case_decide; rewrite !elem_of_cons, ?IH; naive_solver.
Qed.

Lemma emplace_NoDup k v (l : list (nat * ptr)) : (k, v) ∉ l → NoDup l → NoDup (emplace k v l).
Proof.
  induction l as [|[k' v'] l IH]; intros Hn Hnd; cbn [emplace]; [apply NoDup_singleton|]. case_decide.
  - by apply NoDup_cons.
  - apply NoDup_cons in Hnd as [H1 H2]. rewrite elem_of_cons in Hn. apply NoDup_cons. rewrite emplace_elem.
    split; [intros [E|]; [apply Hn; left; done|done]|]. apply IH; [tauto|done].
Qed.
Definition byKey (a b : nat * ptr) : Prop := a.1 ≤ b.1.

Lemma emplace_sorted k v (l : list (nat * ptr)) : StronglySorted byKey l → StronglySorted byKey (emplace k v l).
Proof.
  induction 1 as [|[k' v'] l Hl IH Hall]; cbn [emplace]; [by repeat constructor|]. case_decide as Hk.
  - constructor; [by constructor|]. rewrite Forall_forall in *. intros y [->|Hy]%elem_of_cons; unfold byKey; cbn; [lia|].
    specialize (Hall _ Hy). unfold byKey in Hall. simpl in Hall. lia.
  - constructor; [done|]. rewrite Forall_forall in *. intros y [->|Hy]%emplace_elem; [unfold byKey; cbn; lia|auto].
Qed.

(** The entries left without content by the visit. *)
Definition bare face (s0 : Tables) (l : list ptr) (kv : nat * ptr) : Prop :=
  kv.2 ∈ l ∧ ∃ e, ents s0 !! kv.2 = Some e ∧ kv.1 = length (e_name e) ∧
    hasTableEntries (setFibEntry (e_fibEntry e ≫= cutFib face) e) = false.

Lemma visitNtes_spec face ntes l acc s0 s :
  visited face l s0 s → NoDup (l ++ ntes) → (∀ p, p ∈ ntes → is_Some (ents s0 !! p)) →
  StronglySorted byKey acc → NoDup acc → (∀ kv, kv ∈ acc ↔ bare face s0 l kv) →
  wp (visitNtes face ntes acc) (λ acc' s', visited face (l ++ ntes) s0 s' ∧ StronglySorted byKey acc' ∧ NoDup acc' ∧
    ∀ kv, kv ∈ acc' ↔ bare face s0 (l ++ ntes) kv) s.
Proof.
  revert l acc s. induction ntes as [|p ntes IH]; intros l acc s Hv Hnd Hin Hsort Hnda Hacc; cbn [visitNtes].
  { wp_step. by rewrite app_nil_r. }
  assert (Hpl : p ∉ l). { apply NoDup_app in Hnd as (_ & Hd & _). intros Hp. apply (Hd p Hp). constructor. }
  destruct (Hin p) as [e0 He0]; [constructor|]. pose proof Hv as (Hs & HE & _).
  assert (He : ents s !! p = Some e0). { rewrite HE, He0. cbn. unfold cutEnt. by rewrite decide_False. }
  wp_step. apply nt_derefEntry. exists e0. split; [done|]. rewrite set_nt_same.
  wp_step. eapply wp_mono; [by apply visit_fib|]. intros _ s1 (Hs1 & Ho1 & E1).
  set (e1 := setFibEntry (e_fibEntry e0 ≫= cutFib face) e0) in *.
  assert (He1 : ents s1 !! p = Some e1) by (by rewrite E1, lookup_insert_eq).
  wp_step. apply nt_derefEntry. exists e1. split; [done|]. rewrite set_nt_same.
  wp_step. eapply wp_mono; [by apply (visit_pits face p)|]. intros _ s2 (Hs2 & Hset & EP).
  assert (He2 : ents s2 !! p = Some e1) by (by rewrite Hset).
  wp_step. apply nt_derefEntry. exists e1. split; [done|]. rewrite set_nt_same.
  assert (Hv2 : visited face (l ++ [p]) s0 s2) by (by eapply visit_step).
  replace (l ++ p :: ntes) with ((l ++ [p]) ++ ntes) in Hnd |- * by (by rewrite <- app_assoc).
  apply IH; [done|done|intros q Hq; apply Hin; by constructor| | |].
  - destruct (hasTableEntries e1); [done|by apply emplace_sorted].
  - destruct (hasTableEntries e1); [done|]. apply emplace_NoDup; [|done]. rewrite Hacc. by intros [? _].
  - intros [k q]. assert (Hb : bare face s0 (l ++ [p]) (k, q) ↔ bare face s0 l (k, q) ∨ (q = p ∧ k = length (e_name e0) ∧ hasTableEntries e1 = false)).
    { unfold bare. cbn. rewrite elem_of_app, list_elem_of_singleton. split.
      - intros [[Hq| ->] (e & He' & Hk & Ht)]; [left; eauto 10|right]. by simplify_eq.
      - intros [[Hq Hx]|(-> & -> & Ht)]; [eauto 10|]. split; [by right|]. by exists e0. }
    rewrite Hb. destruct (hasTableEntries e1); [rewrite Hacc; intuition congruence|]. rewrite emplace_elem, Hacc.
    rewrite pair_equal_spec. tauto.
Qed.

(** ** Erasing the entries without content, longest names first *)

Record EraseInv (s0 s : Tables) (rem : list (nat * ptr)) : Prop := {
  ei_tables : TablesInv s;
  ei_same : sameTables s0 s;
  ei_rem : ∀ k q, (k, q) ∈ rem → ∃ e, ents s !! q = Some e ∧ k = length (e_name e) ∧ hasTableEntries e = false;
  ei_empty : ∀ q e, ents s !! q = Some e → isEmpty e = true → q ∈ rem.*2;
  ei_passed : ∀ q e, ents s !! q = Some e → hasTableEntries e = false → q ∉ rem.*2 →
    ∀ k, k ∈ rem.*1 → k ≤ length (e_name e);
  ei_sorted : StronglySorted (flip byKey) rem;
  ei_nodup : NoDup rem.*2;
}.

Lemma EraseInv_keep s0 s k p e rem :
  EraseInv s0 s ((k, p) :: rem) → ents s !! p = Some e → isEmpty e = false → EraseInv s0 s rem.
Proof.
  intros [H1 H2 H3 H4 H5 H6 H7] Hp Hemp. inversion H6 as [|? ? Hsort Hall]; subst. inversion H7 as [|? ? Hnd Hnds]; subst. split; try done.
  - intros k' q Hq. apply H3. by constructor.
  - intros q e' He' Ht. specialize (H4 q e' He' Ht). apply elem_of_cons in H4 as [->|]; [cbn in He'; congruence|done].
  - intros q e' He' Ht Hq k' Hk'. destruct (decide (q = p)) as [->|Hne].
    + simplify_eq. destruct (H3 k p) as (e1 & He1 & -> & _); [constructor|]. simplify_eq.
      apply list_elem_of_fmap in Hk' as ([k1 q1] & -> & Hin). rewrite Forall_forall in Hall. exact (Hall _ Hin).
    + apply (H5 q e' He' Ht); [|cbn; by constructor]. cbn. rewrite elem_of_cons. naive_solver.
Qed.

Lemma EraseInv_drop s0 s s' k p e rem :
  EraseInv s0 s ((k, p) :: rem) → ents s !! p = Some e → isEmpty e = true →
  TablesInv s' → sameTables s s' → pruned (ents s) (ents s') → ents s' !! p = None →
  (∀ q e', ents s !! q = Some e' → q ≠ p → is_Some (ents s' !! q)) →
  (∀ q e', ents s' !! q = Some e' → e_parent e ≠ Some q → ents s !! q = Some e') → EraseInv s0 s' rem.
Proof.
  intros [H1 H2 H3 H4 H5 H6 H7] Hp Hemp Hs' Hsame [_ Hpr] Hgone Hkeep Hback.
  inversion H6 as [|? ? Hsort Hall]; subst. inversion H7 as [|? ? Hnd Hnds]; subst. cbn in Hnd.
  assert (Hstrip : ∀ q e', ents s' !! q = Some e' → ∃ e0, ents s !! q = Some e0 ∧ e_name e' = e_name e0 ∧
    hasTableEntries e' = hasTableEntries e0 ∧ q ≠ p).
  { intros q e' Hq. destruct (Hpr q e' Hq) as (e0 & He0 & Hst). exists e0. split; [done|]. split; [by apply strip_name|].
    split; [by apply strip_tables|congruence]. }
  destruct (H3 k p) as (e1 & He1 & Hk & _); [constructor|]. simplify_eq. split; try done.
  - by eapply sameTables_trans.
  - intros k' q Hq. destruct (H3 k' q) as (e0 & He0 & Hk' & Ht); [by constructor|].
    assert (Hqp : q ≠ p) by (intros ->; apply Hnd; apply list_elem_of_fmap; by exists (k', p)).
    destruct (Hkeep q e0 He0 Hqp) as [e' He']. destruct (Hstrip q e' He') as (e0' & He0' & Hn & Ht' & _). simplify_eq.
    exists e'. by rewrite Hn, Ht'.
  - intros q e' He' Ht. destruct (Hstrip q e' He') as (e0 & He0 & Hn & Htab & Hqp).
    assert (Hin : q ∈ ((length (e_name e), p) :: rem).*2); [|apply elem_of_cons in Hin as [->|]; done].
    destruct (decide (e_parent e = Some q)) as [Hpar|Hpar]; [|by apply (H4 q e'); [apply Hback|]].
    destruct (decide (q ∈ ((length (e_name e), p) :: rem).*2)) as [|Hno]; [done|exfalso].
    apply isEmpty_inv in Ht as [_ Ht]. assert (Hle := H5 q e0 He0 ltac:(congruence) Hno (length (e_name e)) ltac:(constructor)).
    pose proof (ti_parent _ (nti_tree _ (tbi_nt _ H1)) _ _ Hp) as Hc. rewrite Hpar in Hc. destruct Hc as (Hne & eq & Hq & Hname & _).
    change (ents s !! q = Some eq) in Hq. rewrite He0 in Hq. injection Hq as <-. rewrite Hname in Hle. unfold getParentName in Hle. rewrite length_take in Hle. destruct (e_name e); [done|simpl in Hle; lia].
  - intros q e' He' Ht Hq k' Hk'. destruct (Hstrip q e' He') as (e0 & He0 & Hn & Htab & Hqp). rewrite Hn.
    apply (H5 q e0 He0); [congruence| |cbn; by constructor]. cbn. rewrite elem_of_cons. naive_solver.
Qed.

Lemma erase_loop s0 rem s :
  EraseInv s0 s rem →
  wp (forM rem (λ kv, nt (eraseIfEmpty kv.2 false);; mret tt)) (λ _ s', TablesInv s' ∧ sameTables s0 s' ∧ tidy (ents s')) s.
Proof.
  intros Hinv. eapply wp_mono; [apply (wp_forM _ _ (λ rem s, EraseInv s0 s rem)); [|exact Hinv]|].
  - clear rem s Hinv. intros [k p] rem s Hinv. destruct (ei_rem _ _ _ Hinv k p) as (e & He & _); [constructor|].
    pose proof (ei_tables _ _ _ Hinv) as Hs. wp_step. apply wp_nt_eq.
    eapply wp_mono; [apply (eraseIfEmpty_self_spec p _ e); [apply Hs|done]|].
    intros _ t (Ht & Hpr & Hf & Hg & Hk & Hb). wp_step. destruct (isEmpty e) eqn:Hemp.
    + pose proof (sameTables_attached s t (proj1 Hpr)) as Hsame. eapply EraseInv_drop; [exact Hinv|exact He|done| |done|done|by apply Hg|done|done].
      by eapply TablesInv_same.
    + rewrite Hf, set_nt_same by done. by eapply EraseInv_keep.
  - intros [] s' Hinv'. split; [apply Hinv'|]. split; [apply Hinv'|]. intros q e Hq. destruct (isEmpty e) eqn:Hemp; [|done].
    pose proof (ei_empty _ _ _ Hinv' q e Hq Hemp) as Hin. by apply elem_of_nil in Hin.
Qed.

(** ** The whole function *)

Lemma visited_fibV face l s s' :
  visited face l s s' → (∀ p, is_Some (ents s !! p) → p ∈ l) →
  fibV s' = omap (λ nf, pair nf.1 <$> cutFib face nf.2) (fibV s) ∧ pitV s' = pitV s.
Proof.
  intros (_ & HE & _) Hall. split; apply map_eq; intros p; unfold fibV, pitV, view; rewrite ?lookup_omap, HE;
    (destruct (ents s !! p) as [e|] eqn:He; [|done]); cbn; unfold cutEnt; (rewrite decide_True by (apply Hall; by eexists)).
  - unfold fibF. cbn. by destruct (e_fibEntry e).
  - done.
Qed.

Lemma visited_pits face l s s' :
  PitInv s → visited face l s s' → (∀ p, is_Some (ents s !! p) → p ∈ l) →
  t_pits s' = (λ pe, if decide (isAttached pe) then cutPit face pe else pe) <$> t_pits s.
Proof.
  intros Hs (_ & _ & HP & _) Hall. rewrite HP. apply map_fmap_ext. intros x pe Hx. unfold cutPe. apply decide_ext. split.
  - intros (p & Hp & _). by eexists.
  - intros [p Hp]. exists p. split; [done|]. apply Hall. destruct (pi_back _ Hs _ _ _ Hx Hp) as (n & k & Hv & _).
    apply view_lookup in Hv as (e & He & _). by eexists.
Qed.

Lemma StronglySorted_rev_flip {A} (R : A → A → Prop) (l : list A) :
  StronglySorted R l → StronglySorted (flip R) (rev l).
Proof.
  induction 1 as [|x l Hl IH Hall]; cbn [rev]; [constructor|].
  assert (Happ : ∀ k, StronglySorted (flip R) k → (∀ y, y ∈ k → R x y) → StronglySorted (flip R) (k ++ [x])).
  { clear. induction 1 as [|y k Hk IH Hall]; intros Hx; cbn; [by repeat constructor|].
    constructor; [apply IH; intros z Hz; apply Hx; by constructor|]. apply Forall_app. split; [done|].
    repeat constructor. apply Hx. constructor. }
  apply Happ; [done|]. intros y Hy. rewrite Forall_forall in Hall. apply Hall. apply list_elem_of_In, in_rev, list_elem_of_In. done.
Qed.

Lemma NoDup_snd {A B} (l : list (A * B)) :
  NoDup l → (∀ a a' b, (a, b) ∈ l → (a', b) ∈ l → a = a') → NoDup l.*2.
Proof.
  intros Hnd Hfun. apply NoDup_fmap_2_strong; [|done]. intros [a b] [a' b'] Ha Ha'. cbn. intros ->. by rewrite (Hfun a a' b').
Qed.

(** The erase loop starts with every entry that has no content. *)
Lemma EraseInv_start face l acc s s1 :
  visited face l s s1 → (∀ p, p ∈ l ↔ is_Some (ents s !! p)) →
  StronglySorted byKey acc → NoDup acc → (∀ kv, kv ∈ acc ↔ bare face s l kv) → EraseInv s1 s1 (rev acc).
Proof.
  intros (Hs1 & HE & _) Hall Hsort Hnd Hacc.
  assert (Hbare : ∀ q e, ents s1 !! q = Some e → hasTableEntries e = false → q ∈ (rev acc).*2).
  { intros q e Hq Ht. rewrite HE in Hq. apply fmap_Some in Hq as (e0 & He0 & ->). apply list_elem_of_fmap.
    exists (length (e_name e0), q). split; [done|]. rewrite list_elem_of_In, <- in_rev, <- list_elem_of_In. apply Hacc.
    assert (Hql : q ∈ l) by (apply Hall; by eexists). unfold cutEnt in Ht. rewrite decide_True in Ht by done.
    split; [done|]. by exists e0. }
  split; [done|apply sameTables_refl|..].
  - intros k q Hq. rewrite list_elem_of_In, <- in_rev, <- list_elem_of_In in Hq. apply Hacc in Hq as [Hql (e & He & Hk & Ht)].
    cbn in *. eexists. rewrite HE, He. split; [done|]. unfold cutEnt. by rewrite decide_True.
  - intros q e Hq [_ Ht]%isEmpty_inv. by eapply Hbare.
  - intros q e Hq Ht Hno. by destruct Hno; eapply Hbare.
  - by apply StronglySorted_rev_flip.
  - apply NoDup_snd; [by rewrite <- Permutation_rev|]. intros k k' q.
    rewrite <- (Permutation_rev acc). intros (_ & e & He & Hk & _)%Hacc (_ & e' & He' & Hk' & _)%Hacc. cbn in *. by simplify_eq.
Qed.

Lemma cleanupOnFaceRemoval_spec face s :
  TablesInv s →
  wp (cleanupOnFaceRemoval face) (λ _ s', TablesInv s' ∧ tidy (ents s') ∧
    fibV s' = omap (λ nf, pair nf.1 <$> cutFib face nf.2) (fibV s) ∧ pitV s' = pitV s ∧
    t_pits s' = (λ pe, if decide (isAttached pe) then cutPit face pe else pe) <$> t_pits s ∧
    t_pitItems s' = t_pitItems s ∧ measPart s' = measPart s ∧ scPart s' = scPart s ∧ t_now s' = t_now s) s.
Proof.
  intros Hs. unfold cleanupOnFaceRemoval. do 2 wp_step.
  destruct (fullEnumerate_elem (t_nt s) (λ _ _, true)) as (l & El & Hnd & Hl); [apply Hs|].
  assert (Hall : ∀ p, p ∈ l ↔ is_Some (ents s !! p)) by (intros p; rewrite Hl; unfold is_Some, ents; naive_solver).
  wp_step. wp_step; [exact El|]. wp_step. eapply wp_mono; [apply (visitNtes_spec face l [] [] s s)|].
  - split; [done|]. split_and!; try done.
    + intros q. by destruct (ents s !! q).
    + apply map_eq. intros x. rewrite lookup_fmap. destruct (t_pits s !! x); [|done]. cbn. f_equal. unfold cutPe.
      rewrite decide_False; [done|]. intros (q & _ & Hq). by apply elem_of_nil in Hq.
  - done.
  - intros p Hp. by apply Hall.
  - constructor.
  - constructor.
  - intros kv. unfold bare. rewrite !elem_of_nil. naive_solver.
  - intros acc s1 (Hv & Hsort & Hnda & Hacc). cbn [app] in *. wp_step.
    eapply wp_mono; [apply (erase_loop s1); by eapply EraseInv_start|].
    intros [] s2 (Hs2 & Hsame & Htidy). do 2 wp_step.
    destruct (fullEnumerate_elem (t_nt s2) (λ _ _, true)) as (l2 & El2 & _ & _); [apply Hs2|].
    wp_step. wp_step; [exact El2|]. wp_step.
    + apply orb_true_iff. right. apply forallb_forall. intros p _. destruct (ents s2 !! p) as [e|] eqn:He; [|done].
      by rewrite (Htidy p e He).
    + pose proof (visited_fibV _ _ _ _ Hv (λ p Hp, proj2 (Hall p) Hp)) as [F1 F2].
      pose proof (visited_pits _ _ _ _ (tbi_pit _ Hs) Hv (λ p Hp, proj2 (Hall p) Hp)) as F3.
      destruct Hv as (_ & _ & _ & F4 & F5 & F6 & F7). destruct Hsame as (S1 & S2 & S3 & S4 & S5).
      unfold fibPart in S1. unfold pitPart in S2. injection S1 as S1 _. injection S2 as S2a S2b S2c.
      split_and!; [done|done|by etrans..].
Qed.
End CleanupSpecs.

(** ** Correctness *)

Section CleanupCorrect.
Context {N : NdnCxx} {NL : NdnCxxLaws N} {SS : StdSort} {SSL : StdSortLaws SS} {SC : Scheduler}.
Implicit Types (s : Tables) (x : ptr) (pe : PitEntry) (fe : FibEntry) (face : FacePtr) (n : Name).

Lemma fibCost_Some s n f c :
  TablesInv s → fibCost s n f = Some c ↔ ∃ p fe, fibV s !! p = Some (n, fe) ∧ costOf fe f = Some c.
Proof.
  intros Hs. unfold fibCost. rewrite bind_Some. split.
  - intros ([p fe] & Ha%atName_Some & Hc); [eauto|by apply fibV_unique].
  - intros (p & fe & Hp & Hc). exists (p, fe). rewrite atName_Some by (by apply fibV_unique). done.
Qed.

Lemma cutFib_costOf face fe f c :
  FibEntry_wf fe → (cutFib face fe ≫= λ fe', costOf fe' f) = Some c ↔ f ≠ face ∧ costOf fe f = Some c.
Proof.
  intros Hwf. assert (Hc : costOf (FibEntry_removeNextHop fe face).1 f = Some c ↔ f ≠ face ∧ costOf fe f = Some c)
    by (rewrite remove_costOf by done; case_decide; naive_solver).
  rewrite <- Hc. unfold cutFib, hasNextHops. destruct (FibEntry_removeNextHop fe face) as [[pre l] b]. cbn.
  destruct b, l; done.
Qed.

Lemma getRecords_cut face pe f :
  PitEntry_wf pe →
  getInRecord (cutPit face pe) f = (if decide (f = face) then None else getInRecord pe f) ∧
  getOutRecord (cutPit face pe) f = (if decide (f = face) then None else getOutRecord pe f).
Proof.
  intros Hwf. pose proof (deleteInRecord_wf face pe Hwf) as [_ Ho]. destruct Hwf as [Hi Ho0]. unfold cutPit. split.
  - rewrite <- getInRecord_delete by done. unfold getInRecord. by rewrite (deleteOutRecord_frame face).
  - rewrite getOutRecord_delete by done. unfold getOutRecord at 1. by rewrite (deleteInRecord_frame face).
Qed.

(** C19: When a face is removed, every nexthop and every PIT in- and out-record of
    that face disappears and those of other faces stay; no PIT entry is added or
    removed, Measurements and Strategy Choice are untouched, no name tree entry is
    left without a reason, and the final assertion of the function holds. *)
Theorem face_removal_cleanup face s :
  TablesInv s →
  wp (cleanupOnFaceRemoval face) (λ _ s', TablesInv s' ∧ tidy (ents s') ∧
    (∀ n f, fibCost s' n f = if decide (f = face) then None else fibCost s n f) ∧
    (∀ x pe, t_pits s !! x = Some pe → isAttached pe → ∃ pe', t_pits s' !! x = Some pe' ∧ keepsKey pe pe' ∧
      ∀ f, getInRecord pe' f = (if decide (f = face) then None else getInRecord pe f) ∧
           getOutRecord pe' f = (if decide (f = face) then None else getOutRecord pe f)) ∧
    dom (t_pits s') = dom (t_pits s) ∧ pitV s' = pitV s ∧ measPart s' = measPart s ∧ scPart s' = scPart s) s.
Proof.
  intros Hs. eapply wp_mono; [by apply cleanupOnFaceRemoval_spec|].
  intros _ s' (Hs' & Ht & HF & HP & Hpits & _ & HM & HS & _). split; [done|]. split; [done|]. split_and!; [..|done|done|done].
  - intros n f. apply option_eq. intros c. trans (f ≠ face ∧ fibCost s n f = Some c); [|case_decide; naive_solver].
    rewrite !fibCost_Some by done. assert (HF' : ∀ p, fibV s' !! p = fibV s !! p ≫= λ nf, pair nf.1 <$> cutFib face nf.2)
      by (intros p; by rewrite HF, lookup_omap).
    setoid_rewrite HF'. split.
    + intros (p & fe & Hp & Hc). apply bind_Some in Hp as ([m g] & Hg & Hp).
      apply fmap_Some in Hp as (fe' & Hcut & Heq). cbn [fst snd] in *. injection Heq as -> ->.
      destruct (fi_entry _ (tbi_fib _ Hs) _ _ _ Hg) as [_ Hwf].
      destruct (proj1 (cutFib_costOf face g f c Hwf)) as [Hne Hc']; [by rewrite Hcut|]. split; [done|]. by exists p, g.
    + intros (Hne & p & fe & Hp & Hc). destruct (fi_entry _ (tbi_fib _ Hs) _ _ _ Hp) as [_ Hwf].
      pose proof (proj2 (cutFib_costOf face fe f c Hwf) (conj Hne Hc)) as (fe' & Hcut & Hc')%bind_Some.
      exists p, fe'. rewrite Hp. cbn. rewrite Hcut. done.
  - intros x pe Hx Ha. exists (cutPit face pe). rewrite Hpits, lookup_fmap, Hx. cbn. rewrite decide_True by done.
    split; [done|]. split; [apply cutPit_keeps|]. intros f. apply getRecords_cut. by eapply (pi_wf _ (tbi_pit _ Hs)).
  - by rewrite Hpits, dom_fmap_L.
Qed.
End CleanupCorrect.

Lemma face_removal_cleanup_witness :
  wp (cleanupOnFaceRemoval (N := NatNdn) 7%positive) (λ _ s', TablesInv s' ∧ tidy (ents s')) fib1.
Proof.
  eapply wp_mono; [exact (face_removal_cleanup 7%positive fib1 (proj1 fib1_inv))|].
  intros x s' (H1 & H2 & _). exact (conj H1 H2).
Defined.
