(* ===== verification/Cs.v ===== *)
(** * Content Store

    [src/daemon/table/cs.cpp], [cs-entry.cpp] and [cs-policy.cpp].  The table is
    a [std::set]: a list of entries in increasing order, each with the identity
    of its node, to which the iterators held by the policy refer.  The
    replacement policy is an interface ([Policy] with [PolicyLaws]); the Content
    Store is verified against it. *)

From Stdlib Require Import ZArith Lia.
From stdpp Require Import base gmap option sorting list.
From S2P Require Import Prelude Scheduler Ndn FibEntry PitEntry.

(** ** Entries *)

(** A signed 64-bit count of nanoseconds. *)
Definition int64 (z : Z) : Z := (z + 2 ^ 63) mod 2 ^ 64 - 2 ^ 63.

Section CsEntry.
Context {N : NdnCxx} {NP : NdnPacket N}.

Record CsEntry := mkCsEntry {
  ce_data : Data;
  ce_isUnsolicited : bool;
  ce_freshUntil : Z;
}.

Definition updateFreshUntil (now : Z) (e : CsEntry) : CsEntry :=
  mkCsEntry (ce_data e) (ce_isUnsolicited e) (int64 (now + int64 (ms (d_freshnessPeriod (ce_data e))))).

Definition newCsEntry (now : Z) (data : Data) (isUnsolicited : bool) : CsEntry :=
  updateFreshUntil now (mkCsEntry data isUnsolicited 0).

Definition clearUnsolicited (e : CsEntry) : CsEntry := mkCsEntry (ce_data e) false (ce_freshUntil e).

Definition isFresh (now : Z) (e : CsEntry) : bool := (now <=? ce_freshUntil e)%Z.

Definition canSatisfy (now : Z) (interest : Interest) (e : CsEntry) : bool :=
  if negb (matchesData interest (ce_data e)) then false
  else if i_mustBeFresh interest && negb (isFresh now e) then false
  else true.

Definition compareQueryWithData (queryName : Name) (data : Data) : comparison :=
  let queryIsFullName := lastIs isImplicitSha256Digest queryName in
  let cmp := if queryIsFullName then name_compare (getParentName queryName) (d_name data)
             else name_compare queryName (d_name data) in
  match cmp with
  | Eq => if queryIsFullName
          then match last queryName with Some c => comp_compare c (d_digest data) | None => Lt end
          else Lt
  | c => c
  end.

Definition compareDataWithData (lhs rhs : Data) : comparison :=
  match name_compare (d_name lhs) (d_name rhs) with
  | Eq => comp_compare (d_digest lhs) (d_digest rhs)
  | c => c
  end.

(** [operator<(const Entry&, const Name&)] *)
Definition entry_lt_name (e : CsEntry) (queryName : Name) : bool :=
  match compareQueryWithData queryName (ce_data e) with Gt => true | _ => false end.

(** [operator<(const Entry&, const Entry&)] *)
Definition entry_ltb (lhs rhs : CsEntry) : bool :=
  match compareDataWithData (ce_data lhs) (ce_data rhs) with Lt => true | _ => false end.
End CsEntry.

Arguments CsEntry {N}.

(** ** The table *)

Abbreviation CsTable := (list (ptr * CsEntry)).

Section CsTable.
Context {N : NdnCxx}.

Definition tget (i : ptr) (t : CsTable) : option CsEntry :=
  snd <$> List.find (λ x, bool_decide (x.1 = i)) t.

Definition tupdate (i : ptr) (f : CsEntry → CsEntry) (t : CsTable) : CsTable :=
  (λ x, if decide (x.1 = i) then (x.1, f x.2) else x) <$> t.

Definition tids (t : CsTable) : gset ptr := list_to_set t.*1.
#[global] Arguments tids : simpl never.

(** [std::set::emplace]: the element and whether it was inserted. *)
Fixpoint templace (i : ptr) (e : CsEntry) (t : CsTable) : CsTable * (ptr * bool) :=
  match t with
  | [] => ([(i, e)], (i, true))
  | (j, f) :: t' =>
      match compareDataWithData (ce_data e) (ce_data f) with
      | Lt => ((i, e) :: t, (i, true))
      | Eq => (t, (j, false))
      | Gt => let '(t'', r) := templace i e t' in ((j, f) :: t'', r)
      end
  end.

(** [std::set::lower_bound], as a position *)
Fixpoint tlower_bound (t : CsTable) (name : Name) : nat :=
  match t with
  | [] => 0
  | (_, e) :: t' => if entry_lt_name e name then S (tlower_bound t' name) else 0
  end.

(** [std::set::erase]: the table without the element, and the element after it *)
Fixpoint terase (i : ptr) (t : CsTable) : option (CsTable * option ptr) :=
  match t with
  | [] => None
  | (j, e) :: t' =>
      if decide (j = i) then Some (t', fst <$> head t')
      else '(t'', next) ← terase i t'; Some ((j, e) :: t'', next)
  end.

(** [Cs::findPrefixRange] *)
Definition findPrefixRange (t : CsTable) (prefix : Name) : nat * nat :=
  let first := tlower_bound t prefix in
  let last := if decide (0 < length prefix) then tlower_bound t (getSuccessor prefix) else length t in
  (first, last).
End CsTable.

(** ** The Content Store and its policy *)

(** The event of the policies: moving an entry to the stale queue. *)
Inductive CsEvent := MoveToStaleQueue (i : ptr).

Section CsRecord.
Context {N : NdnCxx} {SC : Scheduler} {P : Type}.

Record Cs := mkCs {
  cs_table : CsTable;
  cs_policy : P;
  cs_limit : Z; (* Policy::m_limit *)
  cs_shouldAdmit : bool;
  cs_shouldServe : bool;
  cs_sched : SchedState CsEvent;
  cs_now : Z;
}.
End CsRecord.
Arguments Cs {N SC} P.

Section CsState.
Context {N : NdnCxx} {SC : Scheduler} {P : Type}.

Definition set_cs_table (t : CsTable) (s : Cs P) : Cs P :=
  mkCs t (cs_policy s) (cs_limit s) (cs_shouldAdmit s) (cs_shouldServe s) (cs_sched s) (cs_now s).
Definition set_cs_policy (p : P) (s : Cs P) : Cs P :=
  mkCs (cs_table s) p (cs_limit s) (cs_shouldAdmit s) (cs_shouldServe s) (cs_sched s) (cs_now s).
Definition set_cs_limit (n : Z) (s : Cs P) : Cs P :=
  mkCs (cs_table s) (cs_policy s) n (cs_shouldAdmit s) (cs_shouldServe s) (cs_sched s) (cs_now s).
Definition set_cs_sched (x : SchedState CsEvent) (s : Cs P) : Cs P :=
  mkCs (cs_table s) (cs_policy s) (cs_limit s) (cs_shouldAdmit s) (cs_shouldServe s) x (cs_now s).
Definition set_cs_now (x : Z) (s : Cs P) : Cs P :=
  mkCs (cs_table s) (cs_policy s) (cs_limit s) (cs_shouldAdmit s) (cs_shouldServe s) (cs_sched s) x.

Definition cs_size (s : Cs P) : Z := Z.of_nat (length (cs_table s)).

Definition derefCs (i : ptr) : M (Cs P) CsEntry := s ← get_st; someM (tget i (cs_table s)).

(** The handler of the [beforeEvict] signal. *)
Definition onBeforeEvict (i : ptr) : M (Cs P) unit :=
  s ← get_st;
  r ← someM (terase i (cs_table s));
  put_st (set_cs_table r.1 s).
End CsState.

Class Policy {N : NdnCxx} {SC : Scheduler} (P : Type) := {
  policy_init : P;
  doAfterInsert : ptr → M (Cs P) unit;
  doAfterRefresh : ptr → M (Cs P) unit;
  doBeforeErase : ptr → M (Cs P) unit;
  doBeforeUse : ptr → M (Cs P) unit;
  evictEntries : M (Cs P) unit;
  onEvent : positive → M (Cs P) unit; (* a scheduled event of the policy runs *)
}.

Section Cs.
Context {N : NdnCxx} {NP : NdnPacket N} {SC : Scheduler} {P : Type} {Pol : Policy P}.

Definition Policy_setLimit (nMaxEntries : Z) : M (Cs P) unit :=
  modify (set_cs_limit nMaxEntries);;
  evictEntries.

(** The constructor, at time [now]; the policy has no limit before it is set. *)
Definition newCs (sched : SchedState CsEvent) (now nMaxPackets : Z) : M (Cs P) unit :=
  put_st (mkCs [] policy_init 0 true true sched now);;
  Policy_setLimit nMaxPackets.

Definition Cs_insert (data : Data) (isUnsolicited : bool) : M (Cs P) unit :=
  s ← get_st;
  if negb (cs_shouldAdmit s) || (cs_limit s =? 0)%Z then mret tt
  else if d_noCache data then mret tt
  else
    let '(t, (it, isNewEntry)) := templace (fresh (tids (cs_table s))) (newCsEntry (cs_now s) data isUnsolicited) (cs_table s) in
    put_st (set_cs_table (tupdate it (updateFreshUntil (cs_now s)) t) s);;
    if negb isNewEntry then
      entry ← derefCs it;
      (if ce_isUnsolicited entry && negb isUnsolicited
       then modify (λ s, set_cs_table (tupdate it clearUnsolicited (cs_table s)) s) else mret tt);;
      doAfterRefresh it
    else doAfterInsert it.

(** The loop of [eraseImpl]; an iterator is the identity of its node, [None] for [end()]. *)
Fixpoint eraseImpl_loop (fuel : nat) (i last : option ptr) (nErased limit : Z) : M (Cs P) Z :=
  if decide (i = last) then mret nErased
  else if (limit <=? nErased)%Z then mret nErased
  else match fuel, i with
       | S fuel', Some x =>
           doBeforeErase x;;
           s ← get_st;
           r ← someM (terase x (cs_table s));
           put_st (set_cs_table r.1 s);;
           eraseImpl_loop fuel' r.2 last (nErased + 1) limit
       | _, _ => someM None
       end.

Definition Cs_eraseImpl (prefix : Name) (limit : Z) : M (Cs P) Z :=
  s ← get_st;
  let '(first, last) := findPrefixRange (cs_table s) prefix in
  eraseImpl_loop (length (cs_table s)) (fst <$> cs_table s !! first) (fst <$> cs_table s !! last) 0 limit.

(** [std::find_if] over the range; [None] is [m_table.end()]. *)
Definition Cs_findImpl (interest : Interest) : M (Cs P) (option ptr) :=
  s ← get_st;
  if negb (cs_shouldServe s) || (cs_limit s =? 0)%Z then mret None
  else
    let '(first, last) := findPrefixRange (cs_table s) (i_name interest) in
    assertM (bool_decide (first ≤ last));;
    match List.find (λ x, canSatisfy (cs_now s) interest x.2) (take (last - first) (drop first (cs_table s))) with
    | None => mret None
    | Some (i, _) => doBeforeUse i;; mret (Some i)
    end.

(** [Cs::find]: the Data given to [hit], or nothing when [miss] is called. *)
Definition Cs_find (interest : Interest) : M (Cs P) (option Data) :=
  found ← Cs_findImpl interest;
  match found with
  | None => mret None
  | Some i => e ← derefCs i; mret (Some (ce_data e))
  end.

Definition enableAdmit (b : bool) (s : Cs P) : Cs P :=
  mkCs (cs_table s) (cs_policy s) (cs_limit s) b (cs_shouldServe s) (cs_sched s) (cs_now s).
Definition enableServe (b : bool) (s : Cs P) : Cs P :=
  mkCs (cs_table s) (cs_policy s) (cs_limit s) (cs_shouldAdmit s) b (cs_sched s) (cs_now s).
End Cs.

(** [Cs::setPolicy]: the state with the new policy, from that with the old one. *)
Definition Cs_setPolicy {N : NdnCxx} {SC : Scheduler} {P Q : Type} {PolQ : Policy Q} (s : Cs P) : option (Cs Q * unit) :=
  Policy_setLimit (cs_limit s)
    (mkCs (cs_table s) policy_init (cs_limit s) (cs_shouldAdmit s) (cs_shouldServe s) (cs_sched s) (cs_now s)).

(** ** The order of the table *)

Section CsOrder.
Context {N : NdnCxx} {NL : NdnCxxLaws N}.
Implicit Types (d : Data) (e : CsEntry) (t : CsTable) (p q x : Name) (c D : Component).

Lemma comp_compare_gt c D : comp_compare c D = Gt ↔ comp_compare D c = Lt.
Proof. rewrite (comp_compare_antisym c D). by destruct (comp_compare c D). Qed.

Lemma compareData_eq d1 d2 :
  compareDataWithData d1 d2 = Eq ↔ d_name d1 = d_name d2 ∧ d_digest d1 = d_digest d2.
Proof.
  unfold compareDataWithData. destruct (name_compare (d_name d1) (d_name d2)) eqn:E.
  - apply name_compare_eq in E. rewrite comp_compare_eq. naive_solver.
  - split; [done|]. intros [E' _]. by rewrite E', name_compare_refl in E.
  - split; [done|]. intros [E' _]. by rewrite E', name_compare_refl in E.
Qed.

Lemma compareData_antisym d1 d2 : compareDataWithData d2 d1 = CompOpp (compareDataWithData d1 d2).
Proof.
  unfold compareDataWithData. rewrite (name_compare_antisym (d_name d1)), (comp_compare_antisym (d_digest d1)).
  by destruct (name_compare (d_name d1) (d_name d2)).
Qed.

Lemma compareData_trans d1 d2 d3 :
  compareDataWithData d1 d2 = Lt → compareDataWithData d2 d3 = Lt → compareDataWithData d1 d3 = Lt.
Proof.
  unfold compareDataWithData. destruct (name_compare (d_name d1) (d_name d2)) eqn:E1, (name_compare (d_name d2) (d_name d3)) eqn:E2; try done.
  - apply name_compare_eq in E1, E2. rewrite E1, E2, name_compare_refl. apply comp_compare_trans.
  - apply name_compare_eq in E1. by rewrite E1, E2.
  - apply name_compare_eq in E2. by rewrite <- E2, E1.
  - by rewrite (name_compare_trans _ _ _ E1 E2).
Qed.

(** A query as a pair: the name without its digest, and the digest if any. *)
Definition qkey q : Name * option Component :=
  if lastIs isImplicitSha256Digest q then (getParentName q, last q) else (q, None).

Definition cmpKey (k : Name * option Component) d : comparison :=
  match name_compare k.1 (d_name d) with
  | Eq => match k.2 with Some c => comp_compare c (d_digest d) | None => Lt end
  | c => c
  end.

Lemma compareQuery_key q d : compareQueryWithData q d = cmpKey (qkey q) d.
Proof.
  unfold compareQueryWithData, cmpKey, qkey.
  destruct (lastIs isImplicitSha256Digest q); cbn; by destruct (name_compare _ (d_name d)).
Qed.

Lemma qkey_snoc p c : qkey (p ++ [c]) = if isImplicitSha256Digest c then (p, Some c) else (p ++ [c], None).
Proof.
  unfold qkey, lastIs, getParentName. rewrite last_snoc, length_app, Nat.add_sub, take_app_length. done.
Qed.

Lemma cmpKey_mono k d1 d2 : compareDataWithData d1 d2 = Lt → cmpKey k d2 = Gt → cmpKey k d1 = Gt.
Proof.
  unfold cmpKey, compareDataWithData. destruct k as [n o]. cbn.
  destruct (name_compare (d_name d1) (d_name d2)) eqn:E1, (name_compare n (d_name d2)) eqn:E2; try done; intros H1.
  - apply name_compare_eq in E1. rewrite E1, E2. destruct o; [|done]. rewrite !comp_compare_gt. by apply comp_compare_trans.
  - apply name_compare_eq in E1. by rewrite E1, E2.
  - apply name_compare_eq in E2 as ->. intros _. apply name_compare_gt in E1. by rewrite E1.
  - apply name_compare_gt in E2. pose proof (name_compare_trans _ _ _ E1 E2) as E3. apply name_compare_gt in E3. by rewrite E3.
Qed.

Definition entryLt (a b : ptr * CsEntry) : Prop := compareDataWithData (ce_data a.2) (ce_data b.2) = Lt.
Definition sortedT t : Prop := StronglySorted entryLt t.

Lemma tlower_bound_le t q : tlower_bound t q ≤ length t.
Proof. induction t as [|[i e] t IH]; simpl; [lia|]. destruct (entry_lt_name e q); lia. Qed.

Lemma tlower_bound_lt t q k i e :
  sortedT t → t !! k = Some (i, e) → k < tlower_bound t q ↔ entry_lt_name e q = true.
Proof.
  intros Ht. revert k. induction Ht as [|[j f] t Ht IH Hall]; intros k Hk; [done|]. cbn [tlower_bound].
  destruct k as [|k]; simpl in Hk.
  - injection Hk as -> ->. destruct (entry_lt_name e q); split; try done; lia.
  - specialize (IH _ Hk). destruct (entry_lt_name f q) eqn:Ef; [rewrite <- IH; lia|]. split; [lia|]. intros Hq.
    rewrite Forall_forall in Hall. specialize (Hall (i, e)). unfold entryLt in Hall. cbn in Hall.
    assert (Hlt : compareDataWithData (ce_data f) (ce_data e) = Lt) by (apply Hall; by eapply list_elem_of_lookup_2).
    unfold entry_lt_name in *. rewrite compareQuery_key in *.
    destruct (cmpKey (qkey q) (ce_data e)) eqn:Ee; try done. by rewrite (cmpKey_mono _ _ _ Hlt Ee) in Ef.
Qed.

Lemma tlower_bound_mono t q q' :
  (∀ i e, (i, e) ∈ t → entry_lt_name e q = true → entry_lt_name e q' = true) → tlower_bound t q ≤ tlower_bound t q'.
Proof.
  induction t as [|[i e] t IH]; intros H; simpl; [lia|]. destruct (entry_lt_name e q) eqn:E; [|lia].
  rewrite (H i e) by (done || constructor). apply le_n_S, IH. intros j f Hj. apply (H j). by constructor.
Qed.

(** The successor of a name advances its last component. *)
Lemma name_compare_app_same p q r : name_compare (p ++ q) (p ++ r) = name_compare q r.
Proof. induction p as [|c p IH]; cbn; [done|]. by rewrite comp_compare_refl. Qed.

Lemma name_compare_app_gt p q r : name_compare p q = Gt → name_compare (p ++ r) q = Gt.
Proof.
  revert q. induction p as [|c p IH]; intros [|D q]; cbn; try done. destruct (comp_compare c D); auto.
Qed.

Lemma name_compare_between p q c :
  name_compare p q = Lt → name_compare q (p ++ [c]) = Lt → ∃ c' r, q = p ++ c' :: r ∧ comp_compare c' c = Lt.
Proof.
  revert q. induction p as [|D p IH]; intros [|c' q]; cbn; try done.
  - intros _. destruct (comp_compare c' c) eqn:E; [by destruct q|by eauto|done].
  - rewrite (comp_compare_antisym D c'). destruct (comp_compare D c') eqn:E; cbn; [|done|done].
    apply comp_compare_eq in E as <-. intros H1 H2. destruct (IH q H1 H2) as (c1 & r & -> & ?). eauto.
Qed.

Lemma successor_comp x : x ≠ [] → ∃ p c c', x = p ++ [c] ∧ getSuccessor x = p ++ [c'] ∧ comp_compare c c' = Lt ∧
  ∀ z, comp_compare c z = Lt → comp_compare c' z ≠ Gt.
Proof.
  intros Hx. destruct x as [|c p _] using rev_ind; [done|]. destruct (successor_parent _ Hx) as [c' Hc'].
  unfold getParentName in Hc'. rewrite length_app, Nat.add_sub, take_app_length in Hc'.
  pose proof (successor_lt _ Hx) as Hlt. rewrite Hc', name_compare_app_same in Hlt. cbn in Hlt.
  exists p, c, c'. split; [done|]. split; [done|]. split; [by destruct (comp_compare c c')|].
  intros z Hz. assert (Hle : name_compare (getSuccessor (p ++ [c])) (p ++ [z]) ≠ Gt).
  { apply successor_least; [done| |by rewrite name_compare_app_same; cbn; rewrite Hz].
    intros Hpre%prefix_app_inv%prefix_cons_inv_1. subst. by rewrite comp_compare_refl in Hz. }
  rewrite Hc', name_compare_app_same in Hle. cbn in Hle. by destruct (comp_compare c' z).
Qed.

Lemma entry_lt_successor x e :
  x ≠ [] → entry_lt_name e x = true → entry_lt_name e (getSuccessor x) = true.
Proof.
  intros Hx. destruct (successor_comp x Hx) as (p & c & c' & -> & -> & Hlt & _). unfold entry_lt_name. rewrite !compareQuery_key.
  intros Hgt. assert (H : cmpKey (qkey (p ++ [c])) (ce_data e) = Gt) by (by destruct (cmpKey _ _)). clear Hgt.
  assert (G : cmpKey (qkey (p ++ [c'])) (ce_data e) = Gt); [|by rewrite G]. revert H. rewrite !qkey_snoc. unfold cmpKey.
  destruct (isImplicitSha256Digest c) eqn:Ec, (isImplicitSha256Digest c') eqn:Ec'; cbn.
  - destruct (name_compare p (d_name (ce_data e))); [|done..]. rewrite !comp_compare_gt. intros. by eapply comp_compare_trans.
  - destruct (name_compare p (d_name (ce_data e))) eqn:E; [|done|].
    + apply name_compare_eq in E as <-. intros _.
      assert (E : name_compare (p ++ [c']) p = Gt); [|by rewrite E].
      rewrite <- (app_nil_r p) at 2. by rewrite name_compare_app_same.
    + intros _. by rewrite (name_compare_app_gt _ _ [c'] E).
  - pose proof (digest_first _ _ Ec' Ec) as Hd. by rewrite comp_compare_antisym, Hlt in Hd.
  - destruct (name_compare (p ++ [c]) (d_name (ce_data e))) eqn:E; [done..|]. intros _. apply name_compare_gt in E.
    assert (E2 : name_compare (p ++ [c]) (p ++ [c']) = Lt) by (rewrite name_compare_app_same; cbn; by rewrite Hlt).
    pose proof (name_compare_trans _ _ _ E E2) as E3. apply name_compare_gt in E3. by rewrite E3.
Qed.

(** A Data packet as the NDN packet format has them: an implicit digest does
    not occur in the name of the packet, and its digest is one. *)
Definition plainData d : Prop :=
  Forall (λ c, isImplicitSha256Digest c = false) (d_name d) ∧ isImplicitSha256Digest (d_digest d) = true.

Lemma range_generic x d c p :
  x = p ++ [c] → isImplicitSha256Digest c = false → isImplicitSha256Digest (d_digest d) = true →
  x `prefix_of` d_fullName d ↔ x `prefix_of` d_name d.
Proof.
  intros -> Hc Hd. split; [|intros; by apply prefix_app_r]. unfold d_fullName. intros [k Hk].
  destruct k as [|c' k _] using rev_ind.
  - rewrite app_nil_r in Hk. apply app_inj_tail in Hk as [_ Hk]. congruence.
  - rewrite app_assoc in Hk. apply app_inj_tail in Hk as [-> _]. by eexists.
Qed.

Lemma range_digest p c d :
  plainData d → isImplicitSha256Digest c = true → p ++ [c] `prefix_of` d_fullName d ↔ p = d_name d ∧ c = d_digest d.
Proof.
  intros [Hpl Hd] Hc. split; [|intros [-> ->]; done]. unfold d_fullName. intros [k Hk].
  destruct k as [|c' k _] using rev_ind.
  - rewrite app_nil_r in Hk. by apply app_inj_tail in Hk as [-> ->].
  - rewrite app_assoc in Hk. apply app_inj_tail in Hk as [Hk _]. rewrite Hk, !Forall_app in Hpl.
    destruct Hpl as [[_ Hpl] _]. apply Forall_cons in Hpl as [Hpl _]. congruence.
Qed.

(** The entries between [x] and its successor are those under the prefix [x]. *)
Lemma range_prefix x e :
  x ≠ [] → plainData (ce_data e) →
  entry_lt_name e x = false ∧ entry_lt_name e (getSuccessor x) = true ↔ x `prefix_of` d_fullName (ce_data e).
Proof.
  intros Hx Hpl. destruct (successor_comp x Hx) as (p & c & c' & Ex & Es & Hlt & Hleast). set (d := ce_data e) in *.
  assert (Hb : ∀ q, entry_lt_name e q = true ↔ cmpKey (qkey q) d = Gt).
  { intros q. unfold entry_lt_name. rewrite compareQuery_key. fold d. by destruct (cmpKey (qkey q) d). }
  rewrite <- not_true_iff_false, !Hb. pose proof Hpl as [Hplain Hd].
  destruct (isImplicitSha256Digest c) eqn:Ec.
  - rewrite Ex. rewrite (range_digest p c d) by done. rewrite <- Ex, Es, Ex, !qkey_snoc, Ec. unfold cmpKey.
    assert (HD : ∀ z, comp_compare c z = Lt → comp_compare c' z = Gt → False) by (intros z Hz Hz'; by apply (Hleast z)).
    assert (Hnd : isImplicitSha256Digest c' = false → comp_compare c' (d_digest d) = Gt).
    { intros Ec'. apply comp_compare_gt. by apply digest_first. }
    split.
    + intros [H1 H2]. cbn in H1. destruct (name_compare p (d_name d)) eqn:E; [|exfalso|done].
      * apply name_compare_eq in E. split; [done|]. apply comp_compare_eq.
        destruct (comp_compare c (d_digest d)) eqn:E'; [done|exfalso|done].
        apply (HD _ E'). destruct (isImplicitSha256Digest c'); [|by apply Hnd]. cbn in H2.
        by rewrite E, name_compare_refl in H2.
      * destruct (isImplicitSha256Digest c') eqn:Ec'; cbn in H2; [by rewrite E in H2|].
        assert (H3 : name_compare (d_name d) (p ++ [c']) = Lt) by (apply name_compare_gt; by destruct (name_compare (p ++ [c']) (d_name d))).
        destruct (name_compare_between _ _ _ E H3) as (z & r & Hz & Hzc). apply (HD z); [|by apply comp_compare_gt].
        rewrite Hz, Forall_app, Forall_cons in Hplain. apply digest_first; [done|apply Hplain].
    + intros [-> ->]. cbn. rewrite name_compare_refl, comp_compare_refl. split; [done|].
      destruct (isImplicitSha256Digest c') eqn:Ec'; cbn.
      * rewrite name_compare_refl. by apply comp_compare_gt.
      * rewrite <- (app_nil_r (d_name d)) at 2. by rewrite name_compare_app_same.
  - assert (Ec' : isImplicitSha256Digest c' = false).
    { destruct (isImplicitSha256Digest c') eqn:Ec'; [|done]. pose proof (digest_first _ _ Ec' Ec) as H.
      by rewrite comp_compare_antisym, Hlt in H. }
    rewrite (range_generic x d c p) by done. rewrite (successor_range x (d_name d)) by done.
    rewrite Es, Ex, !qkey_snoc, Ec, Ec'. unfold cmpKey. cbn. rewrite <- (name_compare_gt (p ++ [c']) (d_name d)).
    destruct (name_compare (p ++ [c]) (d_name d)), (name_compare (p ++ [c']) (d_name d)); naive_solver.
Qed.

Lemma entry_lt_nil e : entry_lt_name e [] = false.
Proof. unfold entry_lt_name, compareQueryWithData. cbn. by destruct (d_name (ce_data e)). Qed.

Lemma findPrefixRange_le t x : (findPrefixRange t x).1 ≤ (findPrefixRange t x).2.
Proof.
  unfold findPrefixRange. case_decide as Hx; cbn; [|apply tlower_bound_le].
  apply tlower_bound_mono. intros i e _. apply entry_lt_successor. destruct x; [simpl in Hx; lia|done].
Qed.

(** The range of a prefix holds exactly the entries under it. *)
Lemma findPrefixRange_spec t x k i e :
  sortedT t → t !! k = Some (i, e) → plainData (ce_data e) →
  (findPrefixRange t x).1 ≤ k < (findPrefixRange t x).2 ↔ x `prefix_of` d_fullName (ce_data e).
Proof.
  intros Ht Hk Hpl. unfold findPrefixRange. cbn. rewrite Nat.le_ngt, (tlower_bound_lt _ _ _ _ _ Ht Hk), not_true_iff_false.
  case_decide as Hx.
  - rewrite (tlower_bound_lt _ _ _ _ _ Ht Hk). apply range_prefix; [destruct x; [simpl in Hx; lia|done]|done].
  - destruct x; [|simpl in Hx; lia]. rewrite entry_lt_nil. apply lookup_lt_Some in Hk. split; [intros; apply prefix_nil|done].
Qed.
End CsOrder.

(** ** Table operations *)

Section CsTableFacts.
Context {N : NdnCxx} {NL : NdnCxxLaws N}.
Implicit Types (e f : CsEntry) (t : CsTable) (i j : ptr).

Lemma tids_elem t i : i ∈ tids t ↔ ∃ e, (i, e) ∈ t.
Proof.
  unfold tids. rewrite elem_of_list_to_set, list_elem_of_fmap. split.
  - intros ([j e] & -> & H). eauto.
  - intros [e H]. by exists (i, e).
Qed.

Lemma tget_Some t i e : NoDup t.*1 → tget i t = Some e ↔ (i, e) ∈ t.
Proof.
  intros Hnd. unfold tget. rewrite fmap_Some. split.
  - intros ([j f] & [Hin Hj]%find_some_elem & ->). apply bool_decide_eq_true in Hj. cbn in *. by subst.
  - intros Hin. destruct (List.find _ t) as [[j f]|] eqn:Hf.
    + apply find_some_elem in Hf as [Hin' Hj]. apply bool_decide_eq_true in Hj. cbn in Hj. subst j.
      exists (i, f). split; [done|]. by rewrite (NoDup_fst_unique _ _ _ _ Hnd Hin Hin').
    + rewrite find_none_iff in Hf. specialize (Hf _ Hin). by rewrite bool_decide_eq_true_2 in Hf.
Qed.

Lemma tupdate_fst i (f : CsEntry → CsEntry) t : (tupdate i f t).*1 = t.*1.
Proof. unfold tupdate. rewrite <- list_fmap_compose. apply list_fmap_ext. intros k [j e] _. cbn. by case_decide. Qed.

Lemma tupdate_elem i (f : CsEntry → CsEntry) t j e :
  (j, e) ∈ tupdate i f t ↔ ∃ e0, (j, e0) ∈ t ∧ e = if decide (j = i) then f e0 else e0.
Proof.
  unfold tupdate. rewrite list_elem_of_fmap. split.
  - intros ([j0 e0] & E & Hin). cbn in E. exists e0. repeat case_decide; by simplify_eq.
  - intros (e0 & Hin & ->). exists (j, e0). split; [|done]. cbn. by case_decide.
Qed.

Lemma tupdate_sorted' i (f : CsEntry → CsEntry) t :
  (∀ e, d_name (ce_data (f e)) = d_name (ce_data e) ∧ d_digest (ce_data (f e)) = d_digest (ce_data e)) →
  sortedT t → sortedT (tupdate i f t).
Proof.
  intros Hf. unfold sortedT. induction 1 as [|[j e] t Ht IH Hall]; [constructor|]. unfold tupdate in *. cbn [fmap list_fmap].
  constructor; [done|]. rewrite Forall_forall in *. intros [k g] Hg. apply (tupdate_elem i f t) in Hg as (e0 & Hin & ->).
  specialize (Hall _ Hin). unfold entryLt, compareDataWithData in *. cbn in *.
  repeat case_decide; cbn; rewrite ?(proj1 (Hf e)), ?(proj2 (Hf e)), ?(proj1 (Hf e0)), ?(proj2 (Hf e0)); done.
Qed.

Lemma tupdate_sorted i (f : CsEntry → CsEntry) t : (∀ e, ce_data (f e) = ce_data e) → sortedT t → sortedT (tupdate i f t).
Proof. intros Hf. apply tupdate_sorted'. intros e. by rewrite Hf. Qed.

Lemma templace_spec i e t t' j b :
  sortedT t → templace i e t = (t', (j, b)) →
  if b then j = i ∧ sortedT t' ∧ t' ≡ₚ (i, e) :: t ∧ (∀ k f, (k, f) ∈ t → compareDataWithData (ce_data e) (ce_data f) ≠ Eq)
  else t' = t ∧ ∃ f, (j, f) ∈ t ∧ compareDataWithData (ce_data e) (ce_data f) = Eq.
Proof.
  intros Ht. revert t'. induction Ht as [|[k f] t Ht IH Hall]; intros t'; cbn [templace].
  - intros [= <- <- <-]. split_and!; [done|by repeat constructor|done|]. intros k f Hk. by apply elem_of_nil in Hk.
  - rewrite Forall_forall in Hall. destruct (compareDataWithData (ce_data e) (ce_data f)) eqn:E.
    + intros [= <- <- <-]. split; [done|]. exists f. split; [constructor|done].
    + intros [= <- <- <-]. assert (Hlt : ∀ x, x ∈ (k, f) :: t → entryLt (i, e) x).
      { intros x [->|Hx]%elem_of_cons; [done|]. eapply compareData_trans; [exact E|by apply Hall]. }
      split_and!; [done| |done|].
      * constructor; [by constructor; [|by apply Forall_forall]|]. apply Forall_forall. exact Hlt.
      * intros k' f' Hk'. specialize (Hlt _ Hk'). unfold entryLt in Hlt. cbn in Hlt. by rewrite Hlt.
    + destruct (templace i e t) as [t'' [j' b']] eqn:Et. intros [= <- <- <-]. specialize (IH _ eq_refl). destruct b'.
      * destruct IH as (-> & Hs & Hp & Hne). split_and!; [done| |by rewrite Hp, perm_swap|].
        -- constructor; [done|]. apply Forall_forall. intros x. rewrite Hp. intros [->|Hx]%elem_of_cons; [|by apply Hall].
           unfold entryLt. cbn. by rewrite compareData_antisym, E.
        -- intros k' f' [[= -> ->]|Hk']%elem_of_cons; [by rewrite E|by eapply Hne].
      * destruct IH as (-> & f' & Hin & Hf'). split; [done|]. exists f'. split; [by constructor|done].
Qed.

Lemma terase_spec t i k :
  NoDup t.*1 → t.*1 !! k = Some i → terase i t = Some (take k t ++ drop (S k) t, fst <$> t !! S k).
Proof.
  revert k. induction t as [|[j e] t IH]; intros k Hnd Hk; [done|]. apply NoDup_cons in Hnd as [Hj Hnd]. cbn [terase].
  destruct k as [|k]; cbn in Hk.
  - injection Hk as ->. rewrite decide_True by done. cbn. by destruct t.
  - rewrite decide_False. 2: { intros ->. apply Hj. by eapply list_elem_of_lookup_2. }
    rewrite (IH k Hnd Hk). done.
Qed.

Lemma sublist_fst t t' : t' `sublist_of` t → t'.*1 `sublist_of` t.*1.
Proof. induction 1; cbn; by constructor. Qed.

Lemma sublist_sorted t t' : t' `sublist_of` t → sortedT t → sortedT t'.
Proof.
  unfold sortedT. intros Hsub. induction Hsub as [|x l1 l2 Hsub IH|x l1 l2 Hsub IH]; intros Hs; [constructor|..];
    inversion Hs as [|? ? Hs' Hall]; subst; [|auto]. constructor; [auto|]. rewrite Forall_forall in *.
  intros y Hy. apply Hall. by eapply sublist_subseteq in Hy.
Qed.
End CsTableFacts.

(** ** What a policy promises *)

Section PolicyInterface.
Context {N : NdnCxx} {SC : Scheduler} {P : Type}.
Implicit Types (s : Cs P).

(** A policy changes nothing but its own state, its events and, by evicting, the
    table. *)
Definition csFrame s s' : Prop :=
  cs_limit s' = cs_limit s ∧ cs_shouldAdmit s' = cs_shouldAdmit s ∧ cs_shouldServe s' = cs_shouldServe s ∧
  cs_now s' = cs_now s.

(** The size after an eviction: no more than the limit, and no entry is evicted
    without need. *)
Definition evictedTo s s' : Prop :=
  csFrame s s' ∧ cs_table s' `sublist_of` cs_table s ∧ cs_size s' = Z.min (cs_size s) (cs_limit s).

Definition wfTable s : Prop := NoDup (cs_table s).*1 ∧ (0 ≤ cs_limit s)%Z.
End PolicyInterface.

(** [tracks s X]: the cleanup index of the policy holds exactly the entries [X]. *)
Class PolicyLaws {N : NdnCxx} {SC : Scheduler} {P : Type} (Pol : Policy P) := {
  tracks : Cs P → gset ptr → Prop;
  tracks_init : ∀ s, cs_policy s = policy_init → sched_pending (cs_sched s) = ∅ → tracks s ∅;
  tracks_table : ∀ s t X, tracks s X → tracks (set_cs_table t s) X;
  tracks_limit : ∀ s n X, tracks s X → tracks (set_cs_limit n s) X;
  tracks_insert : ∀ s i, sortedT (cs_table s) → wfTable s → i ∈ tids (cs_table s) → tracks s (tids (cs_table s) ∖ {[i]}) →
    wp (doAfterInsert i) (λ _ s', evictedTo s s' ∧ tracks s' (tids (cs_table s'))) s;
  tracks_refresh : ∀ s i, sortedT (cs_table s) → wfTable s → i ∈ tids (cs_table s) → tracks s (tids (cs_table s)) →
    wp (doAfterRefresh i) (λ _ s', csFrame s s' ∧ cs_table s' = cs_table s ∧ tracks s' (tids (cs_table s))) s;
  tracks_use : ∀ s i, sortedT (cs_table s) → wfTable s → i ∈ tids (cs_table s) → tracks s (tids (cs_table s)) →
    wp (doBeforeUse i) (λ _ s', csFrame s s' ∧ cs_table s' = cs_table s ∧ tracks s' (tids (cs_table s))) s;
  tracks_erase : ∀ s i, sortedT (cs_table s) → wfTable s → i ∈ tids (cs_table s) → tracks s (tids (cs_table s)) →
    wp (doBeforeErase i) (λ _ s', csFrame s s' ∧ cs_table s' = cs_table s ∧ tracks s' (tids (cs_table s) ∖ {[i]})) s;
  tracks_evict : ∀ s, sortedT (cs_table s) → wfTable s → tracks s (tids (cs_table s)) →
    wp evictEntries (λ _ s', evictedTo s s' ∧ tracks s' (tids (cs_table s'))) s;
  tracks_now : ∀ s n X, tracks s X → tracks (set_cs_now n s) X;
  tracks_flags : ∀ s b X, tracks s X → tracks (enableAdmit b s) X ∧ tracks (enableServe b s) X;
  tracks_event : ∀ s id t ev, tracks s (tids (cs_table s)) → sched_pending (cs_sched s) !! id = Some (t, ev) →
    wp (onEvent id) (λ _ s', csFrame s s' ∧ cs_table s' = cs_table s ∧ tracks s' (tids (cs_table s))) s;
}.

Section CsSpecs.
Context {N : NdnCxx} {NL : NdnCxxLaws N} {NP : NdnPacket N} {NPL : NdnPacketLaws N NP} {SC : Scheduler}.
Context {P : Type} {Pol : Policy P} {PL : PolicyLaws Pol}.
Implicit Types (s : Cs P) (e f : CsEntry) (t : CsTable) (i j : ptr) (d data : Data).

Record CsInv s : Prop := {
  ci_sorted : sortedT (cs_table s);
  ci_wf : wfTable s;
  ci_limit : (cs_size s ≤ cs_limit s)%Z;
  ci_tracks : tracks s (tids (cs_table s));
}.

Lemma csFrame_refl s : csFrame s s.
Proof. done. Qed.

Lemma csFrame_trans s1 s2 s3 : csFrame s1 s2 → csFrame s2 s3 → csFrame s1 s3.
Proof. unfold csFrame. intuition congruence. Qed.

Lemma CsInv_evicted s s' :
  sortedT (cs_table s) → wfTable s → evictedTo s s' → tracks s' (tids (cs_table s')) → CsInv s'.
Proof.
  intros Hs [Hnd Hl] ((E1 & _) & Hsub & Hsz) Ht. split; [by eapply sublist_sorted| |unfold cs_size in *; lia|done].
  split; [|by rewrite E1]. exact (sublist_NoDup _ _ Hnd (sublist_fst _ _ Hsub)).
Qed.

Lemma Policy_setLimit_spec n s :
  sortedT (cs_table s) → NoDup (cs_table s).*1 → tracks s (tids (cs_table s)) → (0 ≤ n)%Z →
  wp (Policy_setLimit n) (λ _ s', CsInv s' ∧ cs_table s' `sublist_of` cs_table s ∧ cs_limit s' = n ∧
    cs_size s' = Z.min (cs_size s) n) s.
Proof.
  intros Hs Hnd Ht Hn. unfold Policy_setLimit. wp_step. wp_step.
  eapply wp_mono; [apply tracks_evict; [done|done|by apply tracks_limit]|]. intros [] s' [He Ht'].
  split; [by eapply CsInv_evicted; [| |exact He|]|]. destruct He as ((E1 & _) & ? & ?). done.
Qed.

Lemma newCs_spec sched now n s :
  sched_pending sched = ∅ → (0 ≤ n)%Z →
  wp (newCs sched now n) (λ _ s', CsInv s' ∧ cs_table s' = [] ∧ cs_limit s' = n) s.
Proof.
  intros Hsched Hn. unfold newCs. wp_step. wp_step. eapply wp_mono.
  - apply Policy_setLimit_spec; [constructor|constructor| |done]. by apply tracks_init.
  - intros [] s' (Hs & Hsub & Hl & _). split; [done|]. split; [by apply sublist_nil_r in Hsub|done].
Qed.

(** *** Insertion *)

(** [t'] is [t] with the packet [data] added, or its entry refreshed. *)
Definition admitted (now : Z) data (isUnsolicited : bool) t t' : Prop :=
  ∃ i e, (i, e) ∈ t' ∧ compareDataWithData data (ce_data e) = Eq ∧
    ce_freshUntil e = int64 (now + int64 (ms (d_freshnessPeriod (ce_data e)))) ∧
    ((t' ≡ₚ ((i, e) :: t) ∧ (i ∉ tids t) ∧ ce_data e = data ∧ ce_isUnsolicited e = isUnsolicited ∧
      ∀ j f, (j, f) ∈ t → compareDataWithData data (ce_data f) ≠ Eq) ∨
     (∃ e0, (i, e0) ∈ t ∧ t' = tupdate i (λ _, e) t ∧ ce_data e = ce_data e0 ∧
      ce_isUnsolicited e = (ce_isUnsolicited e0 && isUnsolicited))).

Lemma tupdate_twice i (f g : CsEntry → CsEntry) t : tupdate i g (tupdate i f t) = tupdate i (g ∘ f) t.
Proof.
  unfold tupdate. rewrite <- list_fmap_compose. apply list_fmap_ext. intros k [j e] _. cbn. case_decide; cbn; by case_decide.
Qed.

Lemma tupdate_const i e (f : CsEntry → CsEntry) t e0 :
  NoDup t.*1 → (i, e0) ∈ t → f e0 = e → tupdate i f t = tupdate i (λ _, e) t.
Proof.
  intros Hnd Hi <-. unfold tupdate. apply list_fmap_ext. intros k [j g] Hk%list_elem_of_lookup_2. cbn. case_decide; [|done].
  subst. by rewrite (NoDup_fst_unique _ _ _ _ Hnd Hk Hi).
Qed.

Lemma tupdate_tids i (f : CsEntry → CsEntry) t : tids (tupdate i f t) = tids t.
Proof. unfold tids. by rewrite tupdate_fst. Qed.

Lemma fresh_templace t t' (it i : ptr) e : t' ≡ₚ (i, e) :: t → i ∉ tids t → NoDup t.*1 → NoDup t'.*1.
Proof.
  intros Hp Hi Hnd. rewrite Hp. cbn. apply NoDup_cons. split; [|done]. unfold tids in Hi. by rewrite elem_of_list_to_set in Hi.
Qed.

Lemma insert_new_spec data uns s t i :
  let e := newCsEntry (cs_now s) data uns in
  CsInv s → i ∉ tids (cs_table s) → sortedT t → t ≡ₚ (i, e) :: cs_table s →
  (∀ j f, (j, f) ∈ cs_table s → compareDataWithData data (ce_data f) ≠ Eq) →
  wp (doAfterInsert i) (λ _ s', CsInv s' ∧ csFrame s s' ∧ ∃ t', admitted (cs_now s) data uns (cs_table s) t' ∧
    cs_table s' `sublist_of` t' ∧ cs_size s' = Z.min (Z.of_nat (length t')) (cs_limit s))
    (set_cs_table (tupdate i (updateFreshUntil (cs_now s)) t) s).
Proof.
  intros e [Hs [Hnd Hl] Hlim Htr] Hi Hst Hp Hne. set (t1 := tupdate i (updateFreshUntil (cs_now s)) t).
  assert (Hndt : NoDup t.*1) by (by eapply fresh_templace).
  assert (Hie : (i, e) ∈ t) by (rewrite Hp; constructor).
  assert (E1 : t1 = t).
  { unfold t1. rewrite (tupdate_const i e _ t e Hndt Hie eq_refl). unfold tupdate. rewrite <- (list_fmap_id t) at 2. apply list_fmap_ext.
    intros k [j g] Hk%list_elem_of_lookup_2. cbn. case_decide; [|done]. subst. by rewrite (NoDup_fst_unique _ _ _ _ Hndt Hk Hie). }
  rewrite E1. set (s1 := set_cs_table t s).
  assert (Hids : tids t = {[i]} ∪ tids (cs_table s)) by (unfold tids; by rewrite Hp).
  eapply wp_mono; [apply tracks_insert|].
  - done.
  - done.
  - change (cs_table s1) with t. rewrite Hids. set_solver.
  - change (cs_table s1) with t. rewrite Hids. replace (({[i]} ∪ tids (cs_table s)) ∖ {[i]}) with (tids (cs_table s)) by set_solver. by apply tracks_table.
  - intros [] s' [He Ht']. split; [by eapply (CsInv_evicted s1)|]. destruct He as (Hfr & Hsub & Hsz). split; [done|].
    exists t. split; [|done]. exists i, e. split_and!; [done|by apply compareData_eq|done|]. left. by split_and!.
Qed.

Lemma insert_refresh_spec data uns s i f :
  CsInv s → (i, f) ∈ cs_table s → compareDataWithData data (ce_data f) = Eq →
  wp (entry ← derefCs i;
      (if ce_isUnsolicited entry && negb uns
       then modify (λ s, set_cs_table (tupdate i clearUnsolicited (cs_table s)) s) else mret tt);;
      doAfterRefresh i)
    (λ _ s', CsInv s' ∧ csFrame s s' ∧ admitted (cs_now s) data uns (cs_table s) (cs_table s'))
    (set_cs_table (tupdate i (updateFreshUntil (cs_now s)) (cs_table s)) s).
Proof.
  intros [Hs [Hnd Hl] Hlim Htr] Hi Hf. set (e1 := updateFreshUntil (cs_now s) f).
  set (e := if ce_isUnsolicited f && negb uns then clearUnsolicited e1 else e1).
  assert (Hget : tget i (tupdate i (updateFreshUntil (cs_now s)) (cs_table s)) = Some e1).
  { apply tget_Some; [by rewrite tupdate_fst|]. apply tupdate_elem. exists f. by rewrite decide_True. }
  set (s2 := set_cs_table (tupdate i (λ _, e) (cs_table s)) s).
  assert (Hi2 : (i, e) ∈ cs_table s2) by (apply tupdate_elem; exists f; by rewrite decide_True).
  assert (Hstep : wp (doAfterRefresh i) (λ _ s', CsInv s' ∧ csFrame s s' ∧ admitted (cs_now s) data uns (cs_table s) (cs_table s')) s2).
  { assert (Hwf2 : wfTable s2) by (split; [cbn; by rewrite tupdate_fst|done]).
    assert (Hids : tids (cs_table s2) = tids (cs_table s)) by apply tupdate_tids.
    assert (Hst2 : sortedT (cs_table s2)).
    { cbn. rewrite <- (tupdate_const i e (λ x, mkCsEntry (ce_data x) (ce_isUnsolicited e) (ce_freshUntil e)) _ f); [by apply tupdate_sorted|done|done|].
      unfold e. by destruct (_ && _). }
    eapply wp_mono; [apply tracks_refresh|].
    - done.
    - done.
    - apply tids_elem. by exists e.
    - rewrite Hids. by apply tracks_table.
    - intros [] s' (Hfr & Et & Ht'). split; [|split; [done|]].
      + split; rewrite ?Et; [..|done].
        * done.
        * split; [rewrite Et; by apply Hwf2|]. by rewrite (proj1 Hfr).
        * unfold cs_size in *. rewrite Et, (proj1 Hfr). cbn. unfold tupdate. by rewrite length_fmap.
      + rewrite Et. exists i, e. split; [done|].
        assert (Ed : ce_data e = ce_data f) by (unfold e; by destruct (_ && _)). rewrite Ed.
        split; [done|]. split; [unfold e; by destruct (_ && _)|]. right. exists f. split_and!; [done..|].
        unfold e. destruct (ce_isUnsolicited f) eqn:E, uns; cbn; by rewrite ?E. }
  wp_step. unfold derefCs. do 2 wp_step. wp_step; [exact Hget|]. cbn [ce_isUnsolicited e1 updateFreshUntil].
  assert (Estep : ∀ g, g e1 = e → tupdate i g (tupdate i (updateFreshUntil (cs_now s)) (cs_table s)) = tupdate i (λ _, e) (cs_table s)).
  { intros g Hg. rewrite tupdate_twice. by apply (tupdate_const i e _ _ f). }
  change (ce_isUnsolicited e1) with (ce_isUnsolicited f). unfold e in *. destruct (ce_isUnsolicited f && negb uns).
  - do 2 wp_step. cbn [cs_table set_cs_table]. rewrite (Estep clearUnsolicited) by done. exact Hstep.
  - do 2 wp_step. rewrite (tupdate_const i e1 (updateFreshUntil (cs_now s)) _ f) by done. exact Hstep.
Qed.

Lemma Cs_insert_spec data uns s :
  CsInv s →
  wp (Cs_insert data uns) (λ _ s', CsInv s' ∧ csFrame s s' ∧
    if cs_shouldAdmit s && negb (cs_limit s =? 0)%Z && negb (d_noCache data)
    then ∃ t', admitted (cs_now s) data uns (cs_table s) t' ∧ cs_table s' `sublist_of` t' ∧
           cs_size s' = Z.min (Z.of_nat (length t')) (cs_limit s)
    else s' = s) s.
Proof.
  intros Hs. unfold Cs_insert. do 2 wp_step.
  destruct (cs_shouldAdmit s), (cs_limit s =? 0)%Z; cbn [negb orb andb]; [by wp_step| |by wp_step..].
  destruct (d_noCache data); cbn [negb]; [by wp_step|].
  destruct (templace _ _ _) as [t [it isNew]] eqn:Et. apply templace_spec in Et; [|apply Hs]. wp_step. wp_step.
  destruct isNew; cbn [negb].
  - destruct Et as (-> & Hst & Hp & Hne). apply insert_new_spec; [done|apply is_fresh|done..].
  - destruct Et as (-> & f & Hf & Hc). eapply wp_mono; [by apply (insert_refresh_spec data uns s it f)|].
    intros [] s' (Hs' & Hfr & Had). split; [done|]. split; [done|]. exists (cs_table s'). split; [done|]. split; [done|].
    pose proof (ci_limit _ Hs'). destruct Hfr as [E _]. unfold cs_size in *. lia.
Qed.

(** *** Lookup *)

Lemma find_range_spec (g : ptr * CsEntry → bool) t a b :
  a ≤ b → (∀ k x, t !! k = Some x → g x = true → a ≤ k < b) →
  List.find g (take (b - a) (drop a t)) = List.find g t.
Proof.
  intros Hab Hg. rewrite <- (take_drop a t) at 2. rewrite <- (take_drop (b - a) (drop a t)) at 2.
  assert (Hnone : ∀ l : list (ptr * CsEntry), (∀ x, x ∈ l → g x = false) → List.find g l = None) by (intros l; by rewrite find_none_iff).
  assert (Happ : ∀ l1 l2 : list (ptr * CsEntry), List.find g l1 = None → List.find g (l1 ++ l2) = List.find g l2).
  { induction l1 as [|x l1 IH]; intros l2; cbn; [done|]. destruct (g x); [done|auto]. }
  rewrite Happ.
  - destruct (List.find g (take (b - a) (drop a t))) as [x|] eqn:Hf.
    + clear -Hf. revert Hf. generalize (take (b - a) (drop a t)). intros l. induction l as [|y l IH]; cbn; [done|].
      destruct (g y); [done|]. intros Hf. by rewrite <- IH.
    + symmetry. rewrite Happ by done. apply Hnone. intros x [k Hk]%list_elem_of_lookup_1. rewrite !lookup_drop in Hk.
      destruct (g x) eqn:Hx; [|done]. specialize (Hg _ _ Hk Hx). lia.
  - apply Hnone. intros x [k [Hk Hlt]%lookup_take_Some]%list_elem_of_lookup_1.
    destruct (g x) eqn:Hx; [|done]. specialize (Hg _ _ Hk Hx). lia.
Qed.

Definition plainTable t : Prop := ∀ i e, (i, e) ∈ t → plainData (ce_data e).

Lemma canSatisfy_range t interest now k i e :
  sortedT t → plainTable t → t !! k = Some (i, e) → canSatisfy now interest e = true →
  (findPrefixRange t (i_name interest)).1 ≤ k < (findPrefixRange t (i_name interest)).2.
Proof.
  intros Hs Hpl Hk Hc. eapply findPrefixRange_spec; [done|done|by eapply Hpl, list_elem_of_lookup_2|].
  apply matchesData_prefix. unfold canSatisfy in Hc. by destruct (matchesData interest (ce_data e)).
Qed.

(** Reference: the first entry, in the order of the table, that satisfies the
    Interest. *)
Definition lookupCs (interest : Interest) s : option (ptr * CsEntry) :=
  if cs_shouldServe s && negb (cs_limit s =? 0)%Z
  then List.find (λ x, canSatisfy (cs_now s) interest x.2) (cs_table s) else None.

Lemma Cs_findImpl_spec interest s :
  CsInv s → plainTable (cs_table s) →
  wp (Cs_findImpl interest) (λ r s', CsInv s' ∧ csFrame s s' ∧ cs_table s' = cs_table s ∧
    r = fst <$> lookupCs interest s) s.
Proof.
  intros Hs Hpl. unfold Cs_findImpl, lookupCs. do 2 wp_step.
  destruct (cs_shouldServe s), (cs_limit s =? 0)%Z; cbn [negb orb andb]; [by wp_step| |by wp_step..].
  destruct (findPrefixRange (cs_table s) (i_name interest)) as [a b] eqn:Er. wp_step. wp_step.
  { apply bool_decide_eq_true. pose proof (findPrefixRange_le (cs_table s) (i_name interest)) as Hle. by rewrite Er in Hle. }
  rewrite find_range_spec.
  2: { pose proof (findPrefixRange_le (cs_table s) (i_name interest)) as Hle. by rewrite Er in Hle. }
  2: { intros k [i e] Hk Hc. pose proof (canSatisfy_range _ _ _ _ _ _ (ci_sorted _ Hs) Hpl Hk Hc) as Hr. by rewrite Er in Hr. }
  destruct (List.find _ _) as [[i e]|] eqn:Hf; [|by wp_step].
  apply find_some_elem in Hf as [Hin _]. destruct (ci_wf _ Hs) as [Hnd Hl].
  wp_step. eapply wp_mono; [apply tracks_use; [apply Hs|done|apply tids_elem; by eexists|apply Hs]|].
  intros [] s' (Hfr & Et & Ht). wp_step. split; [|done]. destruct Hs as [H1 H2 H3 H4].
  split; rewrite ?Et; [done| |unfold cs_size in *; by rewrite Et, (proj1 Hfr)|done].
  split; [by rewrite Et|by rewrite (proj1 Hfr)].
Qed.

Lemma lookupCs_Some interest s i e :
  lookupCs interest s = Some (i, e) → (i, e) ∈ cs_table s ∧ canSatisfy (cs_now s) interest e = true.
Proof. unfold lookupCs. destruct (_ && _); [|done]. by intros [??]%find_some_elem. Qed.

Lemma Cs_find_spec interest s :
  CsInv s → plainTable (cs_table s) →
  wp (Cs_find interest) (λ r s', CsInv s' ∧ csFrame s s' ∧ cs_table s' = cs_table s ∧
    r = (λ x, ce_data x.2) <$> lookupCs interest s) s.
Proof.
  intros Hs Hpl. unfold Cs_find. wp_step. eapply wp_mono; [by apply Cs_findImpl_spec|].
  intros r s' (Hs' & Hfr & Et & ->). destruct (lookupCs interest s) as [[i e]|] eqn:Hl.
  2: { by apply wp_ret. }
  apply lookupCs_Some in Hl as [Hin _]. apply wp_bind. unfold derefCs. do 2 wp_step. apply wp_someM. exists e.
  split; [rewrite Et; apply tget_Some; [apply Hs|done]|]. by apply wp_ret.
Qed.

(** Setting tags on a stored packet. *)
Lemma CsInv_retag i (f : CsEntry → CsEntry) s :
  (∀ e, d_name (ce_data (f e)) = d_name (ce_data e) ∧ d_digest (ce_data (f e)) = d_digest (ce_data e)) →
  CsInv s → CsInv (set_cs_table (tupdate i f (cs_table s)) s).
Proof.
  intros Hf [H1 [H2a H2b] H3 H4]. split; cbn [cs_table set_cs_table].
  - apply tupdate_sorted'; [|done]. intros e. destruct (Hf e) as [E1 E2]. done.
  - split; cbn; [by rewrite tupdate_fst|done].
  - unfold cs_size in *. cbn [cs_table set_cs_table cs_limit]. unfold tupdate. by rewrite length_fmap.
  - rewrite tupdate_tids. by apply tracks_table.
Qed.

Lemma plainTable_retag i (f : CsEntry → CsEntry) t :
  (∀ e, d_name (ce_data (f e)) = d_name (ce_data e) ∧ d_digest (ce_data (f e)) = d_digest (ce_data e)) →
  plainTable t → plainTable (tupdate i f t).
Proof.
  intros Hf Ht j e (e0 & Hin & ->)%tupdate_elem. specialize (Ht _ _ Hin). case_decide; [|done].
  unfold plainData in *. destruct (Hf e0) as [-> ->]. done.
Qed.

(** *** Erasure *)

Lemma terase_middle (pre post : CsTable) i e :
  NoDup (pre ++ (i, e) :: post).*1 →
  terase i (pre ++ (i, e) :: post) = Some (pre ++ post, fst <$> head post).
Proof.
  intros Hnd. rewrite (terase_spec _ i (length pre)).
  - rewrite take_app_length, drop_app_ge by lia. replace (S (length pre) - length pre) with 1 by lia.
    rewrite lookup_app_r by lia. replace (S (length pre) - length pre) with 1 by lia. cbn. rewrite drop_0. by destruct post.
  - done.
  - rewrite fmap_app, lookup_app_r by (by rewrite length_fmap). by rewrite length_fmap, Nat.sub_diag.
Qed.

Lemma eraseImpl_loop_spec fuel pre mid post (n limit : Z) s :
  CsInv s → cs_table s = pre ++ mid ++ post → length mid ≤ fuel → (n ≤ limit)%Z →
  wp (eraseImpl_loop fuel (fst <$> head (mid ++ post)) (fst <$> head post) n limit) (λ r s', CsInv s' ∧ csFrame s s' ∧
    r = Z.min (n + Z.of_nat (length mid)) limit ∧ cs_table s' = pre ++ drop (Z.to_nat (r - n)) mid ++ post) s.
Proof.
  revert fuel n s. induction mid as [|[i e] mid IH]; intros fuel n s Hs Et Hf Hn.
  { destruct fuel; cbn [eraseImpl_loop app]; rewrite decide_True by done; wp_step; (split; [done|]; split; [done|]);
      (split; [cbn; lia|]); replace (n - n)%Z with 0%Z by lia; done. }
  cbn [app head fmap option_fmap option_map fst]. destruct fuel as [|fuel]; [simpl in Hf; lia|]. cbn [eraseImpl_loop].
  destruct (ci_wf _ Hs) as [Hnd Hl]. rewrite Et in Hnd. rewrite decide_False.
  2: { intros E. destruct post as [|[j f] post]; [done|]. cbn in E. injection E as ->. cbn in Hnd.
       rewrite fmap_app in Hnd. cbn in Hnd. apply NoDup_app in Hnd as (_ & _ & Hnd). apply NoDup_cons in Hnd as [Hnd _].
       apply Hnd. rewrite fmap_app. apply elem_of_app. right. constructor. }
  destruct (Z.leb_spec limit n) as [Hle|Hlt].
  { wp_step. split; [done|]. split; [done|]. split; [lia|]. replace (n - n)%Z with 0%Z by lia. done. }
  assert (Hi : i ∈ tids (cs_table s)).
  { apply tids_elem. exists e. rewrite Et. apply elem_of_app. right. constructor. }
  wp_step. eapply wp_mono; [apply tracks_erase; [apply Hs|by apply Hs|done|apply Hs]|]. intros [] s1 (Hfr & Et1 & Ht1).
  do 2 wp_step. cbn [app] in Et, Hnd. rewrite Et1, Et.
  wp_step. wp_step; [by apply terase_middle|]. wp_step. wp_step. cbn [fst snd].
  set (s2 := set_cs_table (pre ++ mid ++ post) s1).
  assert (Hsub : pre ++ mid ++ post `sublist_of` cs_table s) by (rewrite Et; apply sublist_app; [done|by constructor]).
  assert (Hids : tids (pre ++ mid ++ post) = tids (cs_table s) ∖ {[i]}).
  { rewrite Et. unfold tids. rewrite !fmap_app. cbn. rewrite fmap_app, !list_to_set_app_L, list_to_set_cons, !list_to_set_app_L.
    rewrite !fmap_app in Hnd. cbn in Hnd. rewrite fmap_app in Hnd. apply NoDup_app in Hnd as (_ & Hd & Hnd). apply NoDup_cons in Hnd as [Hno _].
    assert (i ∉ pre.*1) by (intros Hin; apply (Hd i Hin); constructor). rewrite elem_of_app in Hno.
    apply set_eq. intros j. rewrite !elem_of_union, elem_of_difference, !elem_of_union, !elem_of_list_to_set, elem_of_singleton.
    destruct (decide (j = i)) as [->|]; tauto. }
  assert (Hs2 : CsInv s2).
  { split.
    - eapply sublist_sorted; [exact Hsub|apply Hs].
    - split; [|by cbn; rewrite (proj1 Hfr)]. cbn. apply (sublist_NoDup _ (cs_table s).*1); [apply Hs|]. by apply sublist_fst.
    - unfold cs_size. cbn. rewrite (proj1 Hfr). pose proof (ci_limit _ Hs) as Hlim. apply sublist_length in Hsub. unfold cs_size in Hlim. lia.
    - change (cs_table s2) with (pre ++ mid ++ post). rewrite Hids. by apply tracks_table. }
  eapply wp_mono; [apply (IH fuel (n + 1)%Z s2); [done|done|simpl in Hf; lia|lia]|].
  intros r s' (Hs' & Hfr' & Hr & Et'). split; [done|]. split; [by eapply csFrame_trans; [|exact Hfr']|].
  cbn [length]. split; [lia|]. rewrite Et'. replace (Z.to_nat (r - n)) with (S (Z.to_nat (r - (n + 1)))) by lia. done.
Qed.

(** The entries under the prefix form a segment of the table; the first [r] of
    them are erased. *)
Lemma Cs_eraseImpl_spec prefix limit s :
  CsInv s → (0 ≤ limit)%Z →
  wp (Cs_eraseImpl prefix limit) (λ r s', CsInv s' ∧ csFrame s s' ∧ ∃ pre mid post, cs_table s = pre ++ mid ++ post ∧
    (plainTable (cs_table s) → ∀ i e, (i, e) ∈ cs_table s → (i, e) ∈ mid ↔ prefix `prefix_of` d_fullName (ce_data e)) ∧
    r = Z.min (Z.of_nat (length mid)) limit ∧ cs_table s' = pre ++ drop (Z.to_nat r) mid ++ post) s.
Proof.
  intros Hs Hl. unfold Cs_eraseImpl. do 2 wp_step. set (t := cs_table s).
  pose proof (findPrefixRange_le t prefix) as Hle. pose proof (findPrefixRange_spec t prefix) as Hspec.
  destruct (findPrefixRange t prefix) as [a b] eqn:Er. cbn [fst snd] in *.
  set (pre := take a t). set (mid := take (b - a) (drop a t)). set (post := drop b t).
  assert (Hb : b ≤ length t).
  { assert (b = (findPrefixRange t prefix).2) as -> by (by rewrite Er). unfold findPrefixRange. cbn. case_decide; [apply tlower_bound_le|done]. }
  assert (Et : t = pre ++ mid ++ post).
  { unfold pre, mid, post. replace (drop b t) with (drop (b - a) (drop a t)) by (rewrite drop_drop; f_equal; lia).
    by rewrite !take_drop. }
  assert (Hpre : length pre = a) by (unfold pre; rewrite length_take; lia).
  assert (Hmid : length mid = b - a) by (unfold mid; rewrite length_take, length_drop; lia).
  assert (Ha : fst <$> t !! a = fst <$> head (mid ++ post)).
  { rewrite Et, lookup_app_r by lia. rewrite Hpre, Nat.sub_diag. by destruct (mid ++ post). }
  assert (Hb' : fst <$> t !! b = fst <$> head post).
  { rewrite Et, !lookup_app_r by lia. replace (b - length pre - length mid) with 0 by lia. by destruct post. }
  rewrite Ha, Hb'. eapply wp_mono; [apply (eraseImpl_loop_spec _ pre mid post); [done|done| |done]|].
  { rewrite Et, !length_app. lia. }
  intros r s' (Hs' & Hfr & Hr & Et'). split; [done|]. split; [done|]. exists pre, mid, post. split; [done|].
  split; [|split; [lia|by replace (r - 0)%Z with r in Et' by lia]].
  intros Hpl i e Hin. pose proof Hin as [k Hk]%list_elem_of_lookup_1. rewrite <- (Hspec k i e (ci_sorted _ Hs) Hk (Hpl _ _ Hin)). split.
  - intros [k' Hk']%list_elem_of_lookup_1. assert (Hk2 : t !! (a + k') = Some (i, e)).
    { unfold mid in Hk'. apply lookup_take_Some in Hk' as [Hk' _]. by rewrite lookup_drop in Hk'. }
    apply lookup_lt_Some in Hk'. rewrite Hmid in Hk'. destruct (ci_wf _ Hs) as [Hnd _].
    assert (k = a + k') as ->; [|lia]. eapply NoDup_lookup; [exact Hnd|..]; rewrite list_lookup_fmap; fold t; [by rewrite Hk|by rewrite Hk2].
  - intros Hr'. unfold mid. apply list_elem_of_lookup. exists (k - a). rewrite lookup_take_lt by lia.
    rewrite lookup_drop. replace (a + (k - a)) with k by lia. done.
Qed.
End CsSpecs.

(** ** Correctness *)

Section CsCorrect.
Context {N : NdnCxx} {NL : NdnCxxLaws N} {NP : NdnPacket N} {NPL : NdnPacketLaws N NP} {SC : Scheduler}.
Context {P : Type} {Pol : Policy P} {PL : PolicyLaws Pol}.
Implicit Types (s : Cs P) (e : CsEntry) (i : ptr) (data : Data) (interest : Interest).

(** C35: Inserting Data, with any replacement policy: unless admission is disabled,
    the capacity is zero or the packet is marked NO_CACHE, the packet is added (or
    the entry with the same full name refreshed, never downgraded to unsolicited)
    and then only as many entries are evicted as needed; the store never exceeds
    its capacity and stays sorted with each full name once. *)
Theorem cs_insert_correct data uns s :
  CsInv s →
  wp (Cs_insert data uns) (λ _ s', CsInv s' ∧ csFrame s s' ∧
    if cs_shouldAdmit s && negb (cs_limit s =? 0)%Z && negb (d_noCache data)
    then ∃ t', admitted (cs_now s) data uns (cs_table s) t' ∧ cs_table s' `sublist_of` t' ∧
           cs_size s' = Z.min (Z.of_nat (length t')) (cs_limit s)
    else s' = s) s.
Proof. apply Cs_insert_spec. Qed.

(** C17: Looking up Data: the search of the range between the name and its
    successor gives the same answer as a search of the whole store for the first
    entry, in the order of the store, that matches the Interest and is fresh if
    freshness is required; nothing is evicted.  This is claimed for a store whose Data
    are plain ([plainTable]): no name contains an implicit digest component, and the
    digest that the full name appends is one. *)
Theorem cs_find_equivalence interest s :
  CsInv s → plainTable (cs_table s) →
  wp (Cs_find interest) (λ r s', CsInv s' ∧ csFrame s s' ∧ cs_table s' = cs_table s ∧
    r = (λ x, ce_data x.2) <$> lookupCs interest s) s.
Proof. apply Cs_find_spec. Qed.

(** Erasing under a prefix removes, in the order of the store, the entries
    whose full name starts with the prefix, up to the limit, reports how many,
    and keeps all other entries. *)
Theorem cs_erase_correct prefix limit s :
  CsInv s → (0 ≤ limit)%Z →
  wp (Cs_eraseImpl prefix limit) (λ r s', CsInv s' ∧ csFrame s s' ∧ ∃ pre mid post, cs_table s = pre ++ mid ++ post ∧
    (plainTable (cs_table s) → ∀ i e, (i, e) ∈ cs_table s → (i, e) ∈ mid ↔ prefix `prefix_of` d_fullName (ce_data e)) ∧
    r = Z.min (Z.of_nat (length mid)) limit ∧ cs_table s' = pre ++ drop (Z.to_nat r) mid ++ post) s.
Proof. apply Cs_eraseImpl_spec. Qed.
End CsCorrect.
