(* ===== verification/CsPolicies.v ===== *)
(** * Content Store replacement policies

    [src/daemon/table/cs-policy-lru.cpp] and [cs-policy-priority-fifo.cpp], as
    instances of the policy interface of [Cs.v].  An [EntryRef] is the identity
    of a node of the table; the order on [EntryRef]s is that of the entries,
    which are pairwise different in the table, so that a container ordered by it
    is keyed by the node. *)

From Stdlib Require Import ZArith Lia.
From stdpp Require Import base gmap option sorting list.
From S2P Require Import Prelude Scheduler Ndn FibEntry PitEntry Cs.

(** ** The eviction loop *)

Section EvictLoop.
Context {N : NdnCxx} {SC : Scheduler} {P : Type}.

(** [while (cs->size() > limit) body]; every iteration removes an entry. *)
Fixpoint evictWhile (body : M (Cs P) unit) (fuel : nat) : M (Cs P) unit :=
  s ← get_st;
  if (cs_size s <=? cs_limit s)%Z then mret tt
  else match fuel with
       | O => someM None
       | S fuel' => body;; evictWhile body fuel'
       end.

Definition evictLoop (body : M (Cs P) unit) : M (Cs P) unit :=
  s ← get_st; evictWhile body (length (cs_table s)).
End EvictLoop.

(** ** LRU *)

Section Lru.
Context {N : NdnCxx} {SC : Scheduler}.

(** The sequenced index of [m_queue], least recently used first. *)
Record LruPolicy := mkLru { lru_queue : list ptr }.

Definition lru_insertToQueue (i : ptr) (isNewEntry : bool) : M (Cs LruPolicy) unit :=
  s ← get_st;
  let q := lru_queue (cs_policy s) in
  let isNew := bool_decide (i ∉ q) in
  assertM (eqb isNew isNewEntry);;
  put_st (set_cs_policy (mkLru (if isNewEntry then q ++ [i] else filter (λ j, j ≠ i) q ++ [i])) s).

(** The body of the loop of [evictEntries]. *)
Definition lru_evictOne : M (Cs LruPolicy) unit :=
  s ← get_st;
  match lru_queue (cs_policy s) with
  | [] => someM None
  | i :: q => put_st (set_cs_policy (mkLru q) s);; onBeforeEvict i
  end.

Definition lru_evictEntries : M (Cs LruPolicy) unit := evictLoop lru_evictOne.

#[export] Instance Lru : Policy LruPolicy := {|
  policy_init := mkLru [];
  doAfterInsert i := lru_insertToQueue i true;; lru_evictEntries;
  doAfterRefresh i := lru_insertToQueue i false;
  doBeforeErase i := modify (λ s, set_cs_policy (mkLru (filter (λ j, j ≠ i) (lru_queue (cs_policy s)))) s);
  doBeforeUse i := lru_insertToQueue i false;
  evictEntries := lru_evictEntries;
  onEvent id := modify (λ s, set_cs_sched (cancel (Some id) (cs_sched s)) s);
|}.
End Lru.

(** ** Priority FIFO *)

Inductive QueueType := QUEUE_UNSOLICITED | QUEUE_STALE | QUEUE_FIFO.

#[export] Instance QueueType_eqdec : EqDecision QueueType.
Proof. solve_decision. Defined.

(** [queueIt] is the position of the entry in its queue. *)
Record EntryInfo := mkEntryInfo { ei_queueType : QueueType; ei_moveStaleEventId : option positive }.

Record PriorityFifoPolicy := mkPf {
  pf_unsolicited : list ptr;
  pf_stale : list ptr;
  pf_fifo : list ptr;
  pf_entryInfoMap : gmap ptr EntryInfo;
}.

Definition pf_queue (q : QueueType) (p : PriorityFifoPolicy) : list ptr :=
  match q with QUEUE_UNSOLICITED => pf_unsolicited p | QUEUE_STALE => pf_stale p | QUEUE_FIFO => pf_fifo p end.
Definition pf_set_queue (q : QueueType) (l : list ptr) (p : PriorityFifoPolicy) : PriorityFifoPolicy :=
  match q with
  | QUEUE_UNSOLICITED => mkPf l (pf_stale p) (pf_fifo p) (pf_entryInfoMap p)
  | QUEUE_STALE => mkPf (pf_unsolicited p) l (pf_fifo p) (pf_entryInfoMap p)
  | QUEUE_FIFO => mkPf (pf_unsolicited p) (pf_stale p) l (pf_entryInfoMap p)
  end.
Definition pf_set_info (m : gmap ptr EntryInfo) (p : PriorityFifoPolicy) : PriorityFifoPolicy :=
  mkPf (pf_unsolicited p) (pf_stale p) (pf_fifo p) m.

Section PriorityFifo.
Context {N : NdnCxx} {SC : Scheduler}.

Definition pf_schedule (after : Z) (i : ptr) : M (Cs PriorityFifoPolicy) positive :=
  s ← get_st;
  let '(sched, id) := schedule (cs_now s + after)%Z (MoveToStaleQueue i) (cs_sched s) in
  put_st (set_cs_sched sched s);;
  mret id.

(** Put the entry at the end of a queue and record where it is. *)
Definition pf_enqueue (i : ptr) (info : EntryInfo) (p : PriorityFifoPolicy) : PriorityFifoPolicy :=
  let p := pf_set_queue (ei_queueType info) (pf_queue (ei_queueType info) p ++ [i]) p in
  pf_set_info (<[i := info]> (pf_entryInfoMap p)) p.

Definition attachQueue (i : ptr) : M (Cs PriorityFifoPolicy) unit :=
  s ← get_st;
  assertM (bool_decide (pf_entryInfoMap (cs_policy s) !! i = None));;
  e ← derefCs i;
  info ←
    (if ce_isUnsolicited e then mret (mkEntryInfo QUEUE_UNSOLICITED None)
     else if negb (isFresh (cs_now s) e) then mret (mkEntryInfo QUEUE_STALE None)
     else id ← pf_schedule (ms (d_freshnessPeriod (ce_data e))) i; mret (mkEntryInfo QUEUE_FIFO (Some id)));
  modify (λ s, set_cs_policy (pf_enqueue i info (cs_policy s)) s).

Definition detachQueue (i : ptr) : M (Cs PriorityFifoPolicy) unit :=
  s ← get_st;
  info ← someM (pf_entryInfoMap (cs_policy s) !! i);
  (if decide (ei_queueType info = QUEUE_FIFO)
   then modify (λ s, set_cs_sched (cancel (ei_moveStaleEventId info) (cs_sched s)) s) else mret tt);;
  modify (λ s,
    let p := cs_policy s in
    let p := pf_set_queue (ei_queueType info) (filter (λ j, j ≠ i) (pf_queue (ei_queueType info) p)) p in
    set_cs_policy (pf_set_info (delete i (pf_entryInfoMap p)) p) s).

Definition moveToStaleQueue (i : ptr) : M (Cs PriorityFifoPolicy) unit :=
  s ← get_st;
  info ← someM (pf_entryInfoMap (cs_policy s) !! i);
  assertM (bool_decide (ei_queueType info = QUEUE_FIFO));;
  modify (λ s,
    let p := cs_policy s in
    let p := pf_set_queue QUEUE_FIFO (filter (λ j, j ≠ i) (pf_fifo p)) p in
    set_cs_policy (pf_enqueue i (mkEntryInfo QUEUE_STALE (ei_moveStaleEventId info)) p) s).

(** The scheduler runs the event [id]. *)
Definition pf_fire (id : positive) : M (Cs PriorityFifoPolicy) unit :=
  s ← get_st;
  ev ← someM (sched_pending (cs_sched s) !! id);
  put_st (set_cs_sched (cancel (Some id) (cs_sched s)) s);;
  match ev with (_, MoveToStaleQueue i) => moveToStaleQueue i end.

Definition evictOne : M (Cs PriorityFifoPolicy) unit :=
  s ← get_st;
  let p := cs_policy s in
  i ← someM (match pf_unsolicited p, pf_stale p, pf_fifo p with
             | i :: _, _, _ => Some i
             | [], i :: _, _ => Some i
             | [], [], i :: _ => Some i
             | [], [], [] => None
             end);
  detachQueue i;;
  onBeforeEvict i.

Definition pf_evictEntries : M (Cs PriorityFifoPolicy) unit := evictLoop evictOne.

#[export] Instance PriorityFifo : Policy PriorityFifoPolicy := {|
  policy_init := mkPf [] [] [] ∅;
  doAfterInsert i := attachQueue i;; pf_evictEntries;
  doAfterRefresh i := detachQueue i;; attachQueue i;
  doBeforeErase i := detachQueue i;
  doBeforeUse i := s ← get_st; assertM (bool_decide (is_Some (pf_entryInfoMap (cs_policy s) !! i)));
  evictEntries := pf_evictEntries;
  onEvent := pf_fire;
|}.
End PriorityFifo.

(** ** The loop evicts the first entries of the cleanup order *)

Section EvictSpec.
Context {N : NdnCxx} {NL : NdnCxxLaws N} {SC : Scheduler} {P : Type}.
Implicit Types (s : Cs P) (t : CsTable) (i : ptr).

Definition tremove i t : CsTable := filter (λ x, x.1 ≠ i) t.
Definition tremoves (l : list ptr) t : CsTable := filter (λ x, x.1 ∉ l) t.

Lemma terase_remove i t : NoDup t.*1 → i ∈ tids t → ∃ next, terase i t = Some (tremove i t, next).
Proof.
  induction t as [|[j e] t IH]; intros Hnd Hi; [by apply tids_elem in Hi as [? ?%elem_of_nil]|].
  apply NoDup_cons in Hnd as [Hj Hnd]. cbn [terase]. unfold tremove. case_decide as Hji.
  - subst. eexists. rewrite filter_cons_False by (cbn; tauto). do 2 f_equal. symmetry. apply filter_all.
    intros [k f] Hk. cbn. intros ->. apply Hj. apply list_elem_of_fmap. by exists (i, f).
  - destruct IH as [next Hn]; [done| |].
    + apply tids_elem in Hi as [f [[= -> ->]|Hf]%elem_of_cons]; [done|]. apply tids_elem. by exists f.
    + rewrite Hn, filter_cons_True by done. eexists. done.
Qed.

Lemma tremove_size i t : NoDup t.*1 → i ∈ tids t → S (length (tremove i t)) = length t.
Proof.
  induction t as [|[j e] t IH]; intros Hnd Hi; [by apply tids_elem in Hi as [? ?%elem_of_nil]|].
  apply NoDup_cons in Hnd as [Hj Hnd]. unfold tremove in *. destruct (decide (j = i)) as [->|Hji].
  - rewrite filter_cons_False by (cbn; tauto). cbn. f_equal. rewrite filter_all; [done|].
    intros [k f] Hk. cbn. intros ->. apply Hj. apply list_elem_of_fmap. by exists (i, f).
  - rewrite filter_cons_True by done. cbn. rewrite IH; [done|done|].
    apply tids_elem in Hi as [f [[= -> ->]|Hf]%elem_of_cons]; [done|]. apply tids_elem. by exists f.
Qed.

Lemma tremove_tids i t : tids (tremove i t) = tids t ∖ {[i]}.
Proof.
  apply set_eq. intros j. rewrite elem_of_difference, elem_of_singleton, !tids_elem. unfold tremove.
  setoid_rewrite list_elem_of_filter. naive_solver.
Qed.

Lemma tremove_sublist i t : tremove i t `sublist_of` t.
Proof. unfold tremove. apply sublist_filter. Qed.

Lemma onBeforeEvict_spec i s :
  wfTable s → i ∈ tids (cs_table s) → wp (onBeforeEvict i) (λ _ s', s' = set_cs_table (tremove i (cs_table s)) s) s.
Proof.
  intros [Hnd _] Hi. unfold onBeforeEvict. do 2 wp_step. destruct (terase_remove i _ Hnd Hi) as [next Hn].
  wp_step. wp_step; [exact Hn|]. by wp_step.
Qed.

Context (order : P → list ptr) (Tr : Cs P → gset ptr → Prop) (body : M (Cs P) unit).
Context (HTr : ∀ s X, Tr s X → NoDup (order (cs_policy s)) ∧ list_to_set (order (cs_policy s)) = X).
Context (Hbody : ∀ s i l, wfTable s → Tr s (tids (cs_table s)) → order (cs_policy s) = i :: l →
  wp body (λ _ s', csFrame s s' ∧ cs_table s' = tremove i (cs_table s) ∧ Tr s' (tids (cs_table s')) ∧
    order (cs_policy s') = l) s).

Definition evictedFirst s s' : Prop :=
  let n := Z.to_nat (cs_size s - cs_limit s) in
  evictedTo s s' ∧ order (cs_policy s') = drop n (order (cs_policy s)) ∧
  cs_table s' = tremoves (take n (order (cs_policy s))) (cs_table s).

Lemma tremoves_cons i l t : tremoves l (tremove i t) = tremoves (i :: l) t.
Proof.
  unfold tremoves, tremove. rewrite list_filter_filter. apply list_filter_iff. intros x. rewrite not_elem_of_cons. tauto.
Qed.

Lemma evictWhile_spec fuel s :
  wfTable s → Tr s (tids (cs_table s)) → length (cs_table s) ≤ fuel →
  wp (evictWhile body fuel) (λ _ s', evictedFirst s s' ∧ Tr s' (tids (cs_table s'))) s.
Proof.
  revert s. induction fuel as [|fuel IH]; intros s Hwf Ht Hf; cbn [evictWhile]; do 2 wp_step;
    (destruct (Z.leb_spec (cs_size s) (cs_limit s)) as [Hle|Hlt]; [wp_step|]).
  1,3: split; [|done]; unfold evictedFirst; replace (Z.to_nat (cs_size s - cs_limit s)) with 0 by lia;
    (split; [split; [done|split; [done|lia]]|split; [done|]]); cbn; unfold tremoves; rewrite filter_all; [done|];
    intros x _; apply not_elem_of_nil.
  - destruct Hwf as [_ Hl]. unfold cs_size in Hlt. lia.
  - destruct (HTr _ _ Ht) as [Hnd Hset]. destruct (order (cs_policy s)) as [|i l] eqn:Ho.
    { exfalso. destruct (cs_table s) as [|[j e] t] eqn:Et; [unfold cs_size in Hlt; rewrite Et in Hlt; destruct Hwf; simpl in Hlt; lia|].
      assert (Hj : j ∈ tids ((j, e) :: t)) by (apply tids_elem; exists e; constructor). rewrite <- Hset in Hj. set_solver. }
    assert (Hi : i ∈ tids (cs_table s)) by (rewrite <- Hset; set_solver).
    pose proof (tremove_size i (cs_table s) (proj1 Hwf) Hi) as Hsz.
    wp_step. eapply wp_mono; [by apply (Hbody s i l)|]. intros [] s1 (Hfr & Et1 & Ht1 & Ho1).
    assert (Hwf1 : wfTable s1).
    { destruct Hwf as [Hn Hl]. split; [|by rewrite (proj1 Hfr)]. rewrite Et1.
      exact (sublist_NoDup _ _ Hn (sublist_fst _ _ (tremove_sublist i _))). }
    eapply wp_mono; [apply IH; [done|done|rewrite Et1; lia]|]. intros [] s2 [[Hev [Ho2 Et2]] Ht2]. split; [|done].
    assert (En : Z.to_nat (cs_size s - cs_limit s) = S (Z.to_nat (cs_size s1 - cs_limit s1))).
    { unfold cs_size in *. rewrite (proj1 Hfr), Et1. lia. }
    unfold evictedFirst. rewrite En, Ho. cbn [drop take]. split; [|split].
    + destruct Hev as (Hfr2 & Hsub2 & Hsz2). split; [|split].
      * destruct Hfr as (F1 & F2 & F3 & F4), Hfr2 as (G1 & G2 & G3 & G4). repeat split; congruence.
      * etrans; [exact Hsub2|]. rewrite Et1. apply tremove_sublist.
      * unfold cs_size in *. rewrite (proj1 Hfr), Et1 in Hsz2. rewrite Hsz2. destruct Hwf. lia.
    + by rewrite Ho2, Ho1.
    + by rewrite Et2, Et1, Ho1, tremoves_cons.
Qed.

Lemma evictLoop_spec s :
  wfTable s → Tr s (tids (cs_table s)) →
  wp (evictLoop body) (λ _ s', evictedFirst s s' ∧ Tr s' (tids (cs_table s'))) s.
Proof. intros Hwf Ht. unfold evictLoop. do 2 wp_step. by apply evictWhile_spec. Qed.
End EvictSpec.

(** ** LRU keeps the promises of a policy *)

Section LruSpecs.
Context {N : NdnCxx} {NL : NdnCxxLaws N} {SC : Scheduler}.
Implicit Types (s : Cs LruPolicy) (i : ptr) (X : gset ptr).

Definition lru_tracks s X : Prop :=
  NoDup (lru_queue (cs_policy s)) ∧ list_to_set (lru_queue (cs_policy s)) = X.

Lemma lru_evictOne_spec s i l :
  wfTable s → lru_tracks s (tids (cs_table s)) → lru_queue (cs_policy s) = i :: l →
  wp lru_evictOne (λ _ s', csFrame s s' ∧ cs_table s' = tremove i (cs_table s) ∧ lru_tracks s' (tids (cs_table s')) ∧
    lru_queue (cs_policy s') = l) s.
Proof.
  intros Hwf [Hnd Hset] Hq. unfold lru_evictOne. do 2 wp_step. rewrite Hq in *. apply NoDup_cons in Hnd as [Hi Hnd].
  wp_step. wp_step. eapply wp_mono; [apply onBeforeEvict_spec; [done|cbn; rewrite <- Hset; set_solver]|].
  intros [] s' ->. split; [done|]. split; [done|]. split; [|done]. split; [done|]. cbn [cs_policy cs_table set_cs_table set_cs_policy lru_queue].
  rewrite tremove_tids, <- Hset, list_to_set_cons. set_solver.
Qed.

(** Using an entry moves it to the end of the queue. *)
Lemma lru_touch_spec s i X :
  lru_tracks s X → i ∈ X →
  wp (lru_insertToQueue i false) (λ _ s', csFrame s s' ∧ cs_table s' = cs_table s ∧ lru_tracks s' X ∧
    lru_queue (cs_policy s') = filter (λ j, j ≠ i) (lru_queue (cs_policy s)) ++ [i]) s.
Proof.
  intros [Hnd Hset] Hi. unfold lru_insertToQueue. do 2 wp_step. wp_step. wp_step.
  { rewrite bool_decide_eq_false_2; [done|]. intros Hno. apply Hno. rewrite <- (elem_of_list_to_set (C := gset ptr)), Hset. done. }
  wp_step. split; [done|]. split; [done|]. split; [|done]. split; cbn.
  - apply NoDup_app. split; [by apply NoDup_filter|]. split; [|apply NoDup_singleton].
    intros j Hj ->%list_elem_of_singleton. by apply list_elem_of_filter in Hj as [? _].
  - rewrite <- Hset in *. apply set_eq. intros j. rewrite list_to_set_app_L, elem_of_union, !elem_of_list_to_set, list_elem_of_filter,
      list_elem_of_singleton. rewrite elem_of_list_to_set in Hi. destruct (decide (j = i)) as [->|]; tauto.
Qed.

Lemma lru_insert_spec s i :
  wfTable s → i ∈ tids (cs_table s) → lru_tracks s (tids (cs_table s) ∖ {[i]}) →
  wp (doAfterInsert i) (λ _ s', evictedFirst lru_queue (set_cs_policy (mkLru (lru_queue (cs_policy s) ++ [i])) s) s' ∧
    lru_tracks s' (tids (cs_table s'))) s.
Proof.
  intros Hwf Hi [Hnd Hset]. cbn [doAfterInsert Lru]. wp_step. unfold lru_insertToQueue. do 2 wp_step.
  assert (Hno : i ∉ lru_queue (cs_policy s)).
  { intros Hin. apply (elem_of_list_to_set (C := gset ptr)) in Hin. rewrite Hset in Hin. set_solver. }
  wp_step. wp_step; [by rewrite bool_decide_eq_true_2|]. wp_step.
  eapply wp_mono; [apply (evictLoop_spec lru_queue lru_tracks); [by intros ? ? [? ?]|apply lru_evictOne_spec|done|]|].
  - split; cbn.
    + apply NoDup_app. split; [done|]. split; [|apply NoDup_singleton]. by intros j Hj ->%list_elem_of_singleton.
    + rewrite list_to_set_app_L, Hset. cbn. rewrite union_empty_r_L, difference_union_L. set_solver.
  - intros [] s' [He Ht]. done.
Qed.

#[export] Instance LruLaws : PolicyLaws Lru.
Proof.
  refine {| tracks := lru_tracks |}.
  - intros s Hp _. unfold lru_tracks. rewrite Hp. by split; [constructor|].
  - done.
  - done.
  - intros s i _ Hwf Hi Ht. eapply wp_mono; [by apply lru_insert_spec|]. intros [] s' [[He _] Ht']. by split.
  - intros s i _ Hwf Hi Ht. eapply wp_mono; [by apply (lru_touch_spec s i _ Ht)|]. by intros [] s' (? & ? & ? & _).
  - intros s i _ Hwf Hi Ht. eapply wp_mono; [by apply (lru_touch_spec s i _ Ht)|]. by intros [] s' (? & ? & ? & _).
  - intros s i _ Hwf Hi [Hnd Hset]. cbn [doBeforeErase Lru]. wp_step. split; [done|]. split; [done|]. split; cbn.
    + by apply NoDup_filter.
    + rewrite <- Hset. apply set_eq. intros j. rewrite elem_of_difference, !elem_of_list_to_set, list_elem_of_filter, elem_of_singleton. tauto.
  - intros s _ Hwf Ht. eapply wp_mono; [apply (evictLoop_spec lru_queue lru_tracks); [by intros ? ? [? ?]|apply lru_evictOne_spec|done|done]|].
    intros [] s' [[He _] Ht']. by split.
  - done.
  - done.
  - intros s id t ev [Hnd Hset] Hp. cbn [onEvent Lru]. wp_step. split; [done|]. split; [done|by split].
Defined.
End LruSpecs.

(** ** Priority FIFO keeps the promises of a policy *)

Section PriorityFifoSpecs.
Context {N : NdnCxx} {NL : NdnCxxLaws N} {SC : Scheduler} {SCL : SchedulerLaws SC}.
Implicit Types (s : Cs PriorityFifoPolicy) (i : ptr) (X : gset ptr) (p : PriorityFifoPolicy) (ty : QueueType) (l : list ptr).

(** The eviction order: unsolicited, then stale, then fresh entries. *)
Definition pf_order p : list ptr := pf_unsolicited p ++ pf_stale p ++ pf_fifo p.

(** Every entry is in exactly one queue, the one its record names, and the
    entries of the FIFO queue are those with an event pending. *)
Record pf_tracks s X : Prop := {
  pt_nodup : NoDup (pf_order (cs_policy s));
  pt_set : list_to_set (pf_order (cs_policy s)) = X;
  pt_dom : dom (pf_entryInfoMap (cs_policy s)) = X;
  pt_info : ∀ i info, pf_entryInfoMap (cs_policy s) !! i = Some info →
    i ∈ pf_queue (ei_queueType info) (cs_policy s) ∧
    (ei_queueType info = QUEUE_FIFO → ∃ id t, ei_moveStaleEventId info = Some id ∧
      sched_pending (cs_sched s) !! id = Some (t, MoveToStaleQueue i));
  pt_event : ∀ id t i, sched_pending (cs_sched s) !! id = Some (t, MoveToStaleQueue i) →
    pf_entryInfoMap (cs_policy s) !! i = Some (mkEntryInfo QUEUE_FIFO (Some id));
}.

Lemma pf_queue_order p ty i : i ∈ pf_queue ty p → i ∈ pf_order p.
Proof. unfold pf_order. rewrite !elem_of_app. destruct ty; simpl; tauto. Qed.

Lemma pf_queue_unique p ty ty' i : NoDup (pf_order p) → i ∈ pf_queue ty p → i ∈ pf_queue ty' p → ty = ty'.
Proof.
  unfold pf_order. rewrite !NoDup_app. setoid_rewrite elem_of_app. intros (_ & H1 & _ & H2 & _).
  destruct ty, ty'; simpl; intros Ha Hb; try done; exfalso; naive_solver.
Qed.

Lemma pf_queue_set ty ty' l p : pf_queue ty (pf_set_queue ty' l p) = if decide (ty = ty') then l else pf_queue ty p.
Proof. by destruct ty, ty'. Qed.

Lemma filter_ne_all i l : i ∉ l → filter (λ j, j ≠ i) l = l.
Proof. intros Hi. apply filter_all. by intros j Hj ->. Qed.

(** Removing [i] from its queue removes it from the order. *)
Lemma pf_order_remove p ty i :
  NoDup (pf_order p) → i ∈ pf_queue ty p →
  pf_order (pf_set_queue ty (filter (λ j, j ≠ i) (pf_queue ty p)) p) = filter (λ j, j ≠ i) (pf_order p).
Proof.
  intros Hnd Hi. assert (Hno : ∀ ty', ty' ≠ ty → filter (λ j, j ≠ i) (pf_queue ty' p) = pf_queue ty' p).
  { intros ty' Hne. apply filter_ne_all. intros Hi'. by apply Hne, (pf_queue_unique p ty' ty i). }
  unfold pf_order. rewrite !filter_app.
  pose proof (Hno QUEUE_UNSOLICITED) as Q1. pose proof (Hno QUEUE_STALE) as Q2. pose proof (Hno QUEUE_FIFO) as Q3.
  destruct ty; simpl in *; rewrite ?Q1, ?Q2, ?Q3 by done; done.
Qed.

Lemma pf_order_insert p ty i : pf_order (pf_set_queue ty (pf_queue ty p ++ [i]) p) ≡ₚ i :: pf_order p.
Proof. unfold pf_order. destruct ty; simpl; solve_Permutation. Qed.

Lemma pf_info_order s X i info :
  pf_tracks s X → pf_entryInfoMap (cs_policy s) !! i = Some info → i ∈ X.
Proof. intros Ht Hi. rewrite <- (pt_dom _ _ Ht), elem_of_dom. by eexists. Qed.

Definition pf_removed i ty p : PriorityFifoPolicy :=
  let p := pf_set_queue ty (filter (λ j, j ≠ i) (pf_queue ty p)) p in pf_set_info (delete i (pf_entryInfoMap p)) p.

Lemma pf_removed_queue i ty ty' p : pf_queue ty (pf_removed i ty' p) =
  if decide (ty = ty') then filter (λ j, j ≠ i) (pf_queue ty' p) else pf_queue ty p.
Proof. by destruct ty, ty'. Qed.

Lemma pf_removed_info i ty p : pf_entryInfoMap (pf_removed i ty p) = delete i (pf_entryInfoMap p).
Proof. by destruct ty. Qed.

Lemma pf_removed_order i ty p :
  NoDup (pf_order p) → i ∈ pf_queue ty p → pf_order (pf_removed i ty p) = filter (λ j, j ≠ i) (pf_order p).
Proof. intros Hnd Hi. rewrite <- (pf_order_remove p ty i) by done. by destruct ty. Qed.

Lemma pf_tracks_remove s s' X i info :
  pf_tracks s X → pf_entryInfoMap (cs_policy s) !! i = Some info →
  cs_policy s' = pf_removed i (ei_queueType info) (cs_policy s) →
  (∀ id v, sched_pending (cs_sched s') !! id = Some v ↔
     sched_pending (cs_sched s) !! id = Some v ∧ v.2 ≠ MoveToStaleQueue i) →
  pf_tracks s' (X ∖ {[i]}).
Proof.
  intros Ht Hi Ep Es. destruct (pt_info _ _ Ht i info Hi) as [Hq Hev]. pose proof (pt_nodup _ _ Ht) as Hnd. split; rewrite ?Ep.
  - rewrite pf_removed_order by done. by apply NoDup_filter.
  - rewrite pf_removed_order by done. rewrite <- (pt_set _ _ Ht). apply set_eq. intros j.
    rewrite elem_of_difference, !elem_of_list_to_set, list_elem_of_filter, elem_of_singleton. tauto.
  - by rewrite pf_removed_info, dom_delete_L, (pt_dom _ _ Ht).
  - intros j inf. rewrite pf_removed_info, lookup_delete_Some. intros [Hj Hinf].
    destruct (pt_info _ _ Ht j inf Hinf) as [Hjq Hjev]. rewrite pf_removed_queue. split.
    + case_decide as E; [|done]. rewrite <- E, list_elem_of_filter. done.
    + intros Hty. destruct (Hjev Hty) as (id & t & Hid & Hp). exists id, t. split; [done|]. apply Es. split; [done|].
      cbn. congruence.
  - intros id t j [Hp Hne]%Es. cbn in Hne. rewrite pf_removed_info, lookup_delete_ne by congruence.
    by apply (pt_event _ _ Ht id t).
Qed.

Lemma detachQueue_spec s X i :
  pf_tracks s X → i ∈ X →
  wp (detachQueue i) (λ _ s', csFrame s s' ∧ cs_table s' = cs_table s ∧ pf_tracks s' (X ∖ {[i]}) ∧
    pf_order (cs_policy s') = filter (λ j, j ≠ i) (pf_order (cs_policy s))) s.
Proof.
  intros Ht Hi. rewrite <- (pt_dom _ _ Ht), elem_of_dom in Hi. destruct Hi as [info Hi].
  destruct (pt_info _ _ Ht i info Hi) as [Hq Hev].
  unfold detachQueue. do 2 wp_step. wp_step. wp_step; [exact Hi|]. wp_step. case_decide as Hty; [do 2 wp_step|do 2 wp_step];
    (split; [done|]; split; [done|]; split; [|by apply pf_removed_order; [apply Ht|]]);
    (eapply (pf_tracks_remove s _ X i info); [done|done|reflexivity|]); intros id v; cbn.
  - destruct (Hev Hty) as (id0 & t & Hid & Hp). rewrite (proj2 (cancel_spec _ _)), Hid, lookup_delete_Some. split.
    + intros [Hne Hv]. split; [done|]. intros Hv2. destruct v as [t' ev]. cbn in Hv2. subst ev.
      apply (pt_event _ _ Ht) in Hv. rewrite Hi in Hv. injection Hv as ->. cbn in Hid. congruence.
    + intros [Hv Hne]. split; [|done]. intros <-. rewrite Hp in Hv. injection Hv as <-. done.
  - split; [|by intros [? _]]. intros Hv. split; [done|]. destruct v as [t' ev]. cbn. intros ->.
    apply (pt_event _ _ Ht) in Hv. rewrite Hi in Hv. injection Hv as ->. done.
Qed.

(** The queue for an entry at the time of its insertion or refreshment. *)
Definition classify (now : Z) (e : CsEntry) : QueueType :=
  if ce_isUnsolicited e then QUEUE_UNSOLICITED else if negb (isFresh now e) then QUEUE_STALE else QUEUE_FIFO.

Lemma pf_enqueue_queue i info p ty : pf_queue ty (pf_enqueue i info p) =
  if decide (ty = ei_queueType info) then pf_queue ty p ++ [i] else pf_queue ty p.
Proof. unfold pf_enqueue. destruct info as [[] ?], ty; done. Qed.

Lemma pf_enqueue_info i info p : pf_entryInfoMap (pf_enqueue i info p) = <[i := info]> (pf_entryInfoMap p).
Proof. unfold pf_enqueue. by destruct info as [[] ?]. Qed.

Lemma pf_enqueue_order i info p : pf_order (pf_enqueue i info p) ≡ₚ i :: pf_order p.
Proof. rewrite <- (pf_order_insert p (ei_queueType info)). unfold pf_enqueue. by destruct info as [[] ?]. Qed.

Lemma pf_tracks_enqueue s s' X i info :
  pf_tracks s X → i ∉ X → cs_policy s' = pf_enqueue i info (cs_policy s) →
  match ei_queueType info with
  | QUEUE_FIFO => ∃ id t, ei_moveStaleEventId info = Some id ∧ sched_pending (cs_sched s) !! id = None ∧
      sched_pending (cs_sched s') = <[id := (t, MoveToStaleQueue i)]> (sched_pending (cs_sched s))
  | _ => sched_pending (cs_sched s') = sched_pending (cs_sched s)
  end → pf_tracks s' (X ∪ {[i]}).
Proof.
  intros Ht Hi Ep Hs.
  assert (Hmono : ∀ id v, sched_pending (cs_sched s) !! id = Some v → sched_pending (cs_sched s') !! id = Some v).
  { intros id v Hv. destruct (ei_queueType info); [by rewrite Hs..|]. destruct Hs as (id0 & t & _ & Hnone & ->).
    rewrite lookup_insert_ne; [done|congruence]. }
  split; rewrite ?Ep.
  - rewrite pf_enqueue_order. apply NoDup_cons. split; [|apply Ht].
    intros Hin. apply Hi. rewrite <- (pt_set _ _ Ht). by apply elem_of_list_to_set.
  - rewrite <- (pt_set _ _ Ht). apply set_eq. intros j.
    rewrite elem_of_union, !elem_of_list_to_set, elem_of_singleton, pf_enqueue_order, elem_of_cons. tauto.
  - rewrite pf_enqueue_info, dom_insert_L, (pt_dom _ _ Ht). set_solver.
  - intros j inf. rewrite pf_enqueue_info, lookup_insert_Some. intros [[<- <-]|[Hj Hinf]].
    + rewrite pf_enqueue_queue, decide_True by done. split; [apply elem_of_app; right; constructor|].
      intros E. rewrite E in Hs. destruct Hs as (id & t & Hid & _ & Es). exists id, t. by rewrite Es, lookup_insert_eq.
    + destruct (pt_info _ _ Ht j inf Hinf) as [Hjq Hjev]. rewrite pf_enqueue_queue. split.
      * case_decide; [apply elem_of_app; by left|done].
      * intros Hty. destruct (Hjev Hty) as (id & t & Hid & Hp). eauto.
  - intros id t j Hp. rewrite pf_enqueue_info. assert (Hold : sched_pending (cs_sched s) !! id = Some (t, MoveToStaleQueue j) →
      <[i:=info]> (pf_entryInfoMap (cs_policy s)) !! j = Some (mkEntryInfo QUEUE_FIFO (Some id))).
    { intros Hp'. apply (pt_event _ _ Ht) in Hp'. rewrite lookup_insert_ne; [done|]. intros <-. by apply Hi; eapply pf_info_order. }
    destruct info as [ty ev]. cbn in Hs. destruct ty; [rewrite Hs in Hp; auto..|]. destruct Hs as (id0 & t0 & -> & _ & Es).
    rewrite Es, lookup_insert_Some in Hp. destruct Hp as [[<- [= <- <-]]|[_ Hp]]; [by rewrite lookup_insert_eq|auto].
Qed.

Lemma attachQueue_spec s X i e :
  pf_tracks s X → i ∉ X → tget i (cs_table s) = Some e →
  wp (attachQueue i) (λ _ s', csFrame s s' ∧ cs_table s' = cs_table s ∧ pf_tracks s' (X ∪ {[i]}) ∧
    ∀ ty, pf_queue ty (cs_policy s') =
      if decide (ty = classify (cs_now s) e) then pf_queue ty (cs_policy s) ++ [i] else pf_queue ty (cs_policy s)) s.
Proof.
  intros Ht Hi He. unfold attachQueue. do 2 wp_step. wp_step. wp_step.
  { apply bool_decide_eq_true, not_elem_of_dom. by rewrite (pt_dom _ _ Ht). }
  wp_step. unfold derefCs. do 2 wp_step. wp_step; [exact He|]. wp_step. unfold classify.
  destruct (ce_isUnsolicited e); [|destruct (negb (isFresh (cs_now s) e))].
  - do 2 wp_step. split; [done|]. split; [done|]. split; [by eapply (pf_tracks_enqueue s)|]. intros ty. apply pf_enqueue_queue.
  - do 2 wp_step. split; [done|]. split; [done|]. split; [by eapply (pf_tracks_enqueue s)|]. intros ty. apply pf_enqueue_queue.
  - wp_step. unfold pf_schedule. do 2 wp_step. destruct (schedule _ _ _) as [sc id] eqn:Es.
    destruct (schedule_spec _ _ _ _ _ Es) as (Hfresh & _ & Hp). do 4 wp_step.
    split; [done|]. split; [done|]. split; [|intros ty; apply pf_enqueue_queue].
    eapply (pf_tracks_enqueue s); [done|done|reflexivity|]. cbn. exists id. eexists. split; [done|]. split; [|exact Hp].
    destruct (sched_pending (cs_sched s) !! id) eqn:E; [|done]. destruct Hfresh. apply pending_issued. by eexists.
Qed.

Lemma filter_ne_head i l : NoDup (i :: l) → filter (λ j, j ≠ i) (i :: l) = l.
Proof. intros [Hi _]%NoDup_cons. rewrite filter_cons_False by tauto. by apply filter_ne_all. Qed.

(** The victim is the first in the eviction order. *)
Lemma evictOne_spec s i l :
  wfTable s → pf_tracks s (tids (cs_table s)) → pf_order (cs_policy s) = i :: l →
  wp evictOne (λ _ s', csFrame s s' ∧ cs_table s' = tremove i (cs_table s) ∧ pf_tracks s' (tids (cs_table s')) ∧
    pf_order (cs_policy s') = l) s.
Proof.
  intros Hwf Ht Ho. unfold evictOne. do 2 wp_step.
  assert (Hsel : (match pf_unsolicited (cs_policy s), pf_stale (cs_policy s), pf_fifo (cs_policy s) with
             | i :: _, _, _ => Some i | [], i :: _, _ => Some i | [], [], i :: _ => Some i | [], [], [] => None end) = Some i).
  { unfold pf_order in Ho. destruct (pf_unsolicited (cs_policy s)), (pf_stale (cs_policy s)), (pf_fifo (cs_policy s));
      simpl in Ho; congruence. }
  wp_step. wp_step; [exact Hsel|].
  assert (Hi : i ∈ tids (cs_table s)) by (rewrite <- (pt_set _ _ Ht), Ho; set_solver).
  wp_step. eapply wp_mono; [by apply (detachQueue_spec s _ i Ht)|]. intros [] s1 (Hfr & Et & Ht1 & Ho1).
  eapply wp_mono; [apply onBeforeEvict_spec|].
  - split; [rewrite Et; apply Hwf|]. rewrite (proj1 Hfr). apply Hwf.
  - by rewrite Et.
  - intros [] s' ->. split; [done|]. split; [by rewrite Et|]. split.
    + cbn [cs_table set_cs_table]. rewrite tremove_tids, Et. by destruct Ht1.
    + cbn. rewrite Ho1, Ho. apply filter_ne_head. rewrite <- Ho. apply Ht.
Qed.

Lemma pf_evict_spec s :
  wfTable s → pf_tracks s (tids (cs_table s)) →
  wp pf_evictEntries (λ _ s', evictedFirst pf_order s s' ∧ pf_tracks s' (tids (cs_table s'))) s.
Proof.
  intros Hwf Ht. apply (evictLoop_spec pf_order pf_tracks); [|apply evictOne_spec|done|done].
  intros s0 X H0. split; apply H0.
Qed.

(** The timer of a fresh entry moves it to the end of the stale queue. *)
Lemma pf_fire_spec s X id t i :
  pf_tracks s X → sched_pending (cs_sched s) !! id = Some (t, MoveToStaleQueue i) →
  wp (pf_fire id) (λ _ s', csFrame s s' ∧ cs_table s' = cs_table s ∧ pf_tracks s' X ∧
    pf_unsolicited (cs_policy s') = pf_unsolicited (cs_policy s) ∧
    pf_stale (cs_policy s') = pf_stale (cs_policy s) ++ [i] ∧
    pf_fifo (cs_policy s') = filter (λ j, j ≠ i) (pf_fifo (cs_policy s))) s.
Proof.
  intros Ht Hp. pose proof (pt_event _ _ Ht _ _ _ Hp) as Hi. unfold pf_fire. do 2 wp_step. wp_step. wp_step; [exact Hp|].
  wp_step. wp_step. cbn. unfold moveToStaleQueue. do 2 wp_step. wp_step. wp_step; [exact Hi|]. wp_step. wp_step; [done|].
  wp_step. split; [done|]. split; [done|]. split; [|by split_and!].
  pose proof (pf_info_order _ _ _ _ Ht Hi) as HiX.
  set (s1 := set_cs_policy (pf_removed i QUEUE_FIFO (cs_policy s)) (set_cs_sched (cancel (Some id) (cs_sched s)) s)).
  assert (Ht1 : pf_tracks s1 (X ∖ {[i]})).
  { eapply (pf_tracks_remove s); [done|exact Hi|done|]. intros id' v. cbn. rewrite (proj2 (cancel_spec _ _)), lookup_delete_Some. split.
    - intros [Hne Hv]. split; [done|]. destruct v as [t' ev]. cbn. intros ->. apply (pt_event _ _ Ht) in Hv. congruence.
    - intros [Hv Hne]. split; [|done]. intros <-. rewrite Hp in Hv. by injection Hv as <-. }
  replace X with ((X ∖ {[i]}) ∪ {[i]}) by (rewrite difference_union_L; set_solver).
  eapply (pf_tracks_enqueue s1 _ _ i (mkEntryInfo QUEUE_STALE (Some id))); [done|set_solver| |done].
  unfold s1, pf_enqueue, pf_removed. cbn. by rewrite insert_delete_eq.
Qed.

#[export] Instance PriorityFifoLaws : PolicyLaws PriorityFifo.
Proof.
  refine {| tracks := pf_tracks |}.
  - intros s Hp Hs. split; rewrite Hp; cbn; [constructor|done|apply dom_empty_L|done|]. intros id t i. by rewrite Hs.
  - intros s t X [H1 H2 H3 H4 H5]. by split.
  - intros s n X [H1 H2 H3 H4 H5]. by split.
  - intros s i _ Hwf Hi Ht. cbn [doAfterInsert PriorityFifo]. wp_step. pose proof Hi as [e He]%tids_elem.
    eapply wp_mono; [apply (attachQueue_spec s _ i e Ht); [set_solver|by apply tget_Some; [apply Hwf|]]|].
    intros [] s1 (Hfr & Et & Ht1 & _). rewrite difference_union_L in Ht1.
    replace (tids (cs_table s) ∪ {[i]}) with (tids (cs_table s)) in Ht1 by set_solver.
    eapply wp_mono; [apply pf_evict_spec|].
    + split; [rewrite Et; apply Hwf|]. rewrite (proj1 Hfr). apply Hwf.
    + by rewrite Et.
    + intros [] s' [[(Hfr' & Hsub & Hsz) _] Ht']. split; [|done]. destruct Hfr as (F1 & F2 & F3 & F4), Hfr' as (G1 & G2 & G3 & G4).
      split; [repeat split; congruence|]. rewrite Et in Hsub. split; [done|]. unfold cs_size in *. by rewrite Hsz, Et, F1.
  - intros s i _ Hwf Hi Ht. cbn [doAfterRefresh PriorityFifo]. wp_step. pose proof Hi as [e He]%tids_elem.
    eapply wp_mono; [by apply (detachQueue_spec s _ i Ht)|]. intros [] s1 (Hfr & Et & Ht1 & _).
    eapply wp_mono; [apply (attachQueue_spec s1 _ i e Ht1); [set_solver|rewrite Et; by apply tget_Some; [apply Hwf|]]|].
    intros [] s2 (Hfr2 & Et2 & Ht2 & _). destruct Hfr as (F1 & F2 & F3 & F4), Hfr2 as (G1 & G2 & G3 & G4).
    split; [repeat split; congruence|]. split; [congruence|]. rewrite difference_union_L in Ht2.
    by replace (tids (cs_table s) ∪ {[i]}) with (tids (cs_table s)) in Ht2 by set_solver.
  - intros s i _ Hwf Hi Ht. cbn [doBeforeUse PriorityFifo]. do 2 wp_step. wp_step; [|done].
    apply bool_decide_eq_true. rewrite <- elem_of_dom, (pt_dom _ _ Ht). done.
  - intros s i _ Hwf Hi Ht. cbn [doBeforeErase PriorityFifo].
    eapply wp_mono; [by apply (detachQueue_spec s _ i Ht)|]. intros [] s1 (Hfr & Et & Ht1 & _). done.
  - intros s _ Hwf Ht. eapply wp_mono; [by apply pf_evict_spec|]. intros [] s' [[He _] Ht']. by split.
  - intros s n X [H1 H2 H3 H4 H5]. by split.
  - intros s b X [H1 H2 H3 H4 H5]. split; by split.
  - intros s id t [i] Ht Hp. eapply wp_mono; [by eapply pf_fire_spec|]. by intros [] s' (? & ? & ? & _).
Defined.
End PriorityFifoSpecs.

(** ** Correctness *)

Section PoliciesCorrect.
Context {N : NdnCxx} {NL : NdnCxxLaws N} {SC : Scheduler} {SCL : SchedulerLaws SC}.
Implicit Types (i : ptr) (e : CsEntry).

(** C36: LRU: using or refreshing an entry moves it to the end of the queue, and
    after an insertion the entries evicted are exactly the first of the queue, as
    many as the store is over its capacity, so that the entry just inserted is
    kept when the capacity is not zero. *)
Theorem lru_evicts_least_recent (s : Cs LruPolicy) i :
  wfTable s → i ∈ tids (cs_table s) →
  (lru_tracks s (tids (cs_table s)) →
    wp (doBeforeUse i) (λ _ s', cs_table s' = cs_table s ∧ lru_tracks s' (tids (cs_table s')) ∧
      lru_queue (cs_policy s') = filter (λ j, j ≠ i) (lru_queue (cs_policy s)) ++ [i]) s) ∧
  (lru_tracks s (tids (cs_table s) ∖ {[i]}) →
    wp (doAfterInsert i) (λ _ s',
      let n := Z.to_nat (cs_size s - cs_limit s) in
      let order := lru_queue (cs_policy s) ++ [i] in
      csFrame s s' ∧ lru_tracks s' (tids (cs_table s')) ∧ lru_queue (cs_policy s') = drop n order ∧
      cs_table s' = tremoves (take n order) (cs_table s) ∧
      (cs_limit s ≠ 0%Z → i ∈ tids (cs_table s'))) s).
Proof.
  intros Hwf Hi. split.
  - intros Ht. eapply wp_mono; [by apply (lru_touch_spec s i _ Ht)|]. intros [] s' (_ & Et & Ht' & Hq). by rewrite Et.
  - intros Ht. eapply wp_mono; [by apply lru_insert_spec|]. intros [] s' [((Hf & Hsub & Hsz) & Hq & Htab) Ht'].
    cbn [cs_policy cs_table cs_limit set_cs_policy lru_queue] in *. split_and!; [done..|].
    intros Hl. destruct Ht' as [_ <-]. apply elem_of_list_to_set. rewrite Hq. destruct Ht as [Hnd Hset].
    assert (Hn : Z.to_nat (cs_size (set_cs_policy (mkLru (lru_queue (cs_policy s) ++ [i])) s) - cs_limit s) ≤ length (lru_queue (cs_policy s)));
      [|rewrite drop_app_le by done; set_solver].
    assert (length (lru_queue (cs_policy s)) = length (cs_table s) - 1) as ->.
    { rewrite <- (size_list_to_set (C := gset ptr) _ Hnd), Hset, <- (length_fmap fst (cs_table s)).
      rewrite <- (size_list_to_set (C := gset ptr) _ (proj1 Hwf)). rewrite size_difference by (unfold tids in *; set_solver).
      by rewrite size_singleton. }
    unfold cs_size. destruct Hwf as [_ Hl0]. cbn. lia.
Qed.

(** C37: Priority FIFO: a new entry joins the queue of its class (unsolicited,
    stale, or fresh with a timer), and then the first entries in the order
    unsolicited, stale, fresh are evicted, as many as the store is over its
    capacity; a timer moves its entry from the fresh to the stale queue. *)
Theorem priority_fifo_order (s : Cs PriorityFifoPolicy) i e :
  wfTable s → tget i (cs_table s) = Some e →
  (pf_tracks s (tids (cs_table s) ∖ {[i]}) →
    wp (doAfterInsert i) (λ _ s', ∃ p,
      (∀ ty, pf_queue ty p = if decide (ty = classify (cs_now s) e) then pf_queue ty (cs_policy s) ++ [i]
                             else pf_queue ty (cs_policy s)) ∧
      let n := Z.to_nat (cs_size s - cs_limit s) in
      csFrame s s' ∧ pf_tracks s' (tids (cs_table s')) ∧ pf_order (cs_policy s') = drop n (pf_order p) ∧
      cs_table s' = tremoves (take n (pf_order p)) (cs_table s)) s) ∧
  (∀ id t, pf_tracks s (tids (cs_table s)) → sched_pending (cs_sched s) !! id = Some (t, MoveToStaleQueue i) →
    wp (pf_fire id) (λ _ s', csFrame s s' ∧ cs_table s' = cs_table s ∧ pf_tracks s' (tids (cs_table s)) ∧
      pf_unsolicited (cs_policy s') = pf_unsolicited (cs_policy s) ∧
      pf_stale (cs_policy s') = pf_stale (cs_policy s) ++ [i] ∧
      pf_fifo (cs_policy s') = filter (λ j, j ≠ i) (pf_fifo (cs_policy s))) s).
Proof.
  intros Hwf He. split; [|intros id t Ht Hp; by eapply pf_fire_spec]. intros Ht.
  assert (Hi : i ∈ tids (cs_table s)) by (apply tids_elem; exists e; by apply tget_Some in He; [|apply Hwf]).
  cbn [doAfterInsert PriorityFifo]. apply wp_bind.
  eapply wp_mono; [apply (attachQueue_spec s _ i e Ht); [set_solver|done]|].
  intros [] s1 (Hf1 & Et & Ht1 & Hq). rewrite difference_union_L in Ht1.
  replace (tids (cs_table s) ∪ {[i]}) with (tids (cs_table s)) in Ht1 by set_solver. pose proof Hf1 as (Hl & _).
  eapply wp_mono; [apply pf_evict_spec; [split; [rewrite Et|rewrite Hl]; apply Hwf|by rewrite Et]|].
  intros [] s' [((Hf2 & _) & Ho & Htab) Ht']. exists (cs_policy s1). split; [done|]. unfold cs_size in *.
  rewrite Et, Hl in Ho, Htab. split; [by eapply csFrame_trans|]. done.
Qed.
End PoliciesCorrect.

(** Examples: a store of capacity two, with one packet, under each policy. *)
Definition cs0 {P : Type} {Pol : Policy (N := NatNdn) P} : Cs (N := NatNdn) P :=
  mkCs [] policy_init 2 true true emptyScheduler 0.

Lemma cs0_inv {P : Type} {Pol : Policy (N := NatNdn) P} {PL : PolicyLaws Pol} : CsInv (cs0 (P := P)).
Proof. split; [constructor|split; [constructor|done]|done|]. by apply tracks_init. Qed.

Definition cs1 {P : Type} {Pol : Policy (N := NatNdn) P} : Cs (N := NatNdn) P :=
  run (Cs_insert (exData [101; 102] 1000) false) cs0.

Lemma cs1_inv {P : Type} {Pol : Policy (N := NatNdn) P} {PL : PolicyLaws Pol} : CsInv (cs1 (P := P)).
Proof.
  destruct (run_spec _ _ _ (Cs_insert_spec (exData [101; 102] 1000) false (cs0 (P := P)) cs0_inv)) as (r & H & _). exact H.
Qed.

Lemma cs_insert_correct_witness :
  wp (Cs_insert (exData [101; 103] 1000) false) (λ _ s', CsInv s') (cs1 (P := LruPolicy)).
Proof.
  eapply wp_mono; [exact (cs_insert_correct (exData [101; 103] 1000) false cs1 cs1_inv)|]. intros r s' [H _]. exact H.
Defined.

Lemma cs_find_equivalence_witness :
  wp (Cs_find (exInterest [101] true 1)) (λ r s', r = Some (exData [101; 102] 1000)) (cs1 (P := LruPolicy)).
Proof.
  assert (Hpl : plainTable (cs_table (cs1 (P := LruPolicy)))).
  { assert (cs_table (cs1 (P := LruPolicy)) = [(1%positive, newCsEntry 0 (exData [101; 102] 1000) false)]) as -> by reflexivity.
    intros i e Hi. apply list_elem_of_singleton in Hi. injection Hi as -> ->. split; [|reflexivity]. repeat constructor. }
  eapply wp_mono; [exact (cs_find_equivalence (exInterest [101] true 1) cs1 cs1_inv Hpl)|].
  intros r s' (_ & _ & _ & ->). vm_compute. reflexivity.
Defined.

Lemma cs_erase_correct_witness :
  wp (Cs_eraseImpl (N := NatNdn) [101] 5) (λ r s', CsInv s') (cs1 (P := LruPolicy)).
Proof.
  eapply wp_mono; [exact (cs_erase_correct (N := NatNdn) [101] 5 cs1 cs1_inv ltac:(lia))|]. intros r s' [H _]. exact H.
Defined.

(** The table with the packet inserted but not yet known to the policy. *)
Definition cs2 {P : Type} {Pol : Policy (N := NatNdn) P} : Cs (N := NatNdn) P :=
  set_cs_table [(1%positive, newCsEntry 0 (exData [101; 102] 1000) false)] cs0.

Lemma lru_evicts_least_recent_witness :
  wp (doBeforeUse 1%positive) (λ _ s', lru_queue (cs_policy s') = [1%positive]) (cs1 (P := LruPolicy)).
Proof.
  eapply wp_mono; [exact (proj1 (lru_evicts_least_recent cs1 1%positive (ci_wf _ cs1_inv)
    ltac:(apply (bool_decide_unpack _); vm_compute; exact I)) (ci_tracks (PL := LruLaws) _ (cs1_inv (PL := LruLaws))))|].
  intros r s' (_ & _ & ->). reflexivity.
Defined.

Lemma priority_fifo_order_witness :
  wp (doAfterInsert 1%positive) (λ _ s', pf_tracks s' (tids (cs_table s'))) (cs2 (P := PriorityFifoPolicy)).
Proof.
  assert (Hw : wfTable (cs2 (P := PriorityFifoPolicy))) by (split; [apply NoDup_singleton|done]).
  assert (Ht : pf_tracks (cs2 (P := PriorityFifoPolicy)) (tids (cs_table (cs2 (P := PriorityFifoPolicy))) ∖ {[1%positive]})).
  { replace (tids _ ∖ _) with (∅ : gset ptr) by (symmetry; apply (bool_decide_unpack _); vm_compute; exact I). by apply (tracks_init (PolicyLaws := PriorityFifoLaws)). }
  eapply wp_mono; [exact (proj1 (priority_fifo_order cs2 1%positive _ Hw eq_refl) Ht)|].
  intros r s' (p & _ & _ & H & _). exact H.
Defined.
