(* ===== verification/DeadNonceList.v ===== *)
(** * Dead Nonce List

    [src/daemon/table/dead-nonce-list.cpp]: a queue of 64-bit hashes of names
    and nonces, with marks inserted at fixed intervals, whose capacity is
    adjusted so that entries live for about the configured lifetime. *)

From Stdlib Require Import ZArith Lia.
From stdpp Require Import base gmap option list.
From S2P Require Import Prelude Scheduler CityHash Ndn.

Definition MIN_LIFETIME : Z := 50000000. (* 50 ms *)
Definition DEFAULT_LIFETIME : Z := 6000000000. (* 6 s *)
Definition INITIAL_CAPACITY : Z := 2 ^ 14.
Definition MIN_CAPACITY : Z := 2 ^ 10.
Definition MAX_CAPACITY : Z := 2 ^ 24.
Definition MARK : Z := 0.
Definition EXPECTED_MARK_COUNT : Z := 5.
Definition CAPACITY_UP : flt := Flt 5404319552844595 (-52). (* 1.2 *)
Definition CAPACITY_DOWN : flt := Flt 8106479329266893 (-53). (* 0.9 *)
Definition EVICT_LIMIT : Z := 64.

(** [find] of the hashed index of the container: the position in the queue of an
    element with the value, of several the library chooses. *)
Class HashedIndex := { hfind : Z → list Z → option nat }.

Class HashedIndexLaws (H : HashedIndex) : Prop := {
  hfind_Some : ∀ e q k, hfind e q = Some k → q !! k = Some e;
  hfind_None : ∀ e q, hfind e q = None → e ∉ q;
}.

#[export] Instance FirstIndex : HashedIndex := { hfind e q := fst <$> list_find (λ x, x = e) q }.

#[export] Instance FirstIndexLaws : HashedIndexLaws FirstIndex.
Proof.
  split.
  - intros e q k ([k' x] & (Hx & -> & _)%list_find_Some & ->)%fmap_Some. done.
  - intros e q Hn%fmap_None. apply list_find_None in Hn. rewrite Forall_forall in Hn. intros He. by eapply Hn.
Qed.

Inductive DnlEvent := DnlMark | DnlAdjustCapacity.

Section DeadNonceList.
Context {N : NdnCxx} {SC : Scheduler} {HI : HashedIndex}.

Record DeadNonceList := mkDnl {
  dn_lifetime : Z;
  dn_queue : list Z;
  dn_capacity : Z;
  dn_actualMarkCounts : list Z;
  dn_markEvent : option positive;
  dn_adjustCapacityEvent : option positive;
  dn_sched : SchedState DnlEvent;
  dn_now : Z;
}.

Definition set_dn_queue (q : list Z) (s : DeadNonceList) : DeadNonceList :=
  mkDnl (dn_lifetime s) q (dn_capacity s) (dn_actualMarkCounts s) (dn_markEvent s) (dn_adjustCapacityEvent s) (dn_sched s) (dn_now s).
Definition set_dn_capacity (c : Z) (s : DeadNonceList) : DeadNonceList :=
  mkDnl (dn_lifetime s) (dn_queue s) c (dn_actualMarkCounts s) (dn_markEvent s) (dn_adjustCapacityEvent s) (dn_sched s) (dn_now s).
Definition set_dn_counts (l : list Z) (s : DeadNonceList) : DeadNonceList :=
  mkDnl (dn_lifetime s) (dn_queue s) (dn_capacity s) l (dn_markEvent s) (dn_adjustCapacityEvent s) (dn_sched s) (dn_now s).
Definition set_dn_sched (x : SchedState DnlEvent) (s : DeadNonceList) : DeadNonceList :=
  mkDnl (dn_lifetime s) (dn_queue s) (dn_capacity s) (dn_actualMarkCounts s) (dn_markEvent s) (dn_adjustCapacityEvent s) x (dn_now s).

Definition dn_markInterval (s : DeadNonceList) : Z := dn_lifetime s ÷ EXPECTED_MARK_COUNT.
Definition dn_adjustCapacityInterval (s : DeadNonceList) : Z := dn_lifetime s.

(** [m_markEvent = getScheduler().schedule(m_markInterval, ...)]: the scoped
    event held before is cancelled. *)
Definition scheduleMark : M DeadNonceList unit :=
  s ← get_st;
  let '(sched, id) := schedule (dn_now s + dn_markInterval s)%Z DnlMark (dn_sched s) in
  put_st (mkDnl (dn_lifetime s) (dn_queue s) (dn_capacity s) (dn_actualMarkCounts s) (Some id) (dn_adjustCapacityEvent s)
    (cancel (dn_markEvent s) sched) (dn_now s)).
Definition scheduleAdjustCapacity : M DeadNonceList unit :=
  s ← get_st;
  let '(sched, id) := schedule (dn_now s + dn_adjustCapacityInterval s)%Z DnlAdjustCapacity (dn_sched s) in
  put_st (mkDnl (dn_lifetime s) (dn_queue s) (dn_capacity s) (dn_actualMarkCounts s) (dn_markEvent s) (Some id)
    (cancel (dn_adjustCapacityEvent s) sched) (dn_now s)).

(** The constructor; it throws on a lifetime below [MIN_LIFETIME]. *)
Definition newDeadNonceList (lifetime : Z) : M DeadNonceList unit :=
  assertM (MIN_LIFETIME <=? lifetime)%Z;;
  modify (λ s, mkDnl lifetime (replicate (Z.to_nat EXPECTED_MARK_COUNT) MARK) INITIAL_CAPACITY [] None None (dn_sched s) (dn_now s));;
  scheduleMark;;
  scheduleAdjustCapacity.

Definition makeEntry (name : Name) (nonce : Z) : option Z :=
  CityHash64WithSeed (name_wire name) 0 (Z.of_nat (length (name_wire name))) nonce.

Definition countMarks (s : DeadNonceList) : Z := Z.of_nat (length (filter (λ e, e = MARK) (dn_queue s))).

Definition dn_size (s : DeadNonceList) : Z := Z.of_nat (length (dn_queue s)) - countMarks s.

Definition DeadNonceList_has (name : Name) (nonce : Z) : M DeadNonceList bool :=
  entry ← someM (makeEntry name nonce);
  s ← get_st;
  mret (bool_decide (is_Some (hfind entry (dn_queue s)))).

Definition dn_evictEntries : M DeadNonceList unit :=
  s ← get_st;
  let size := Z.of_nat (length (dn_queue s)) in
  if (size <=? dn_capacity s)%Z then mret tt
  else
    let nEvict := Z.min (size - dn_capacity s) EVICT_LIMIT in
    put_st (set_dn_queue (drop (Z.to_nat nEvict) (dn_queue s)) s);;
    s ← get_st;
    assertM (dn_capacity s <=? Z.of_nat (length (dn_queue s)))%Z.

Definition DeadNonceList_add (name : Name) (nonce : Z) : M DeadNonceList unit :=
  entry ← someM (makeEntry name nonce);
  s ← get_st;
  match hfind entry (dn_queue s) with
  | Some k => put_st (set_dn_queue (delete k (dn_queue s) ++ [entry]) s)
  | None => put_st (set_dn_queue (dn_queue s ++ [entry]) s);; dn_evictEntries
  end.

Definition mark : M DeadNonceList unit :=
  modify (λ s, set_dn_queue (dn_queue s ++ [MARK]) s);;
  modify (λ s, set_dn_counts (countMarks s :: dn_actualMarkCounts s) s);;
  scheduleMark.

(** [equal_range] of the multiset, as numbers of elements before the bounds. *)
Definition equal_range (l : list Z) (x : Z) : nat * nat :=
  (length (filter (λ y, (y < x)%Z) l), length (filter (λ y, (y ≤ x)%Z) l)).

Definition adjustedCapacity (s : DeadNonceList) : Z :=
  let '(first, second) := equal_range (dn_actualMarkCounts s) EXPECTED_MARK_COUNT in
  if decide (second = 0) then Z.max MIN_CAPACITY (fscale double_prec CAPACITY_DOWN (dn_capacity s))
  else if decide (first = length (dn_actualMarkCounts s)) then Z.min MAX_CAPACITY (fscale double_prec CAPACITY_UP (dn_capacity s))
  else dn_capacity s.

Definition adjustCapacity : M DeadNonceList unit :=
  modify (λ s, set_dn_capacity (adjustedCapacity s) s);;
  modify (λ s, set_dn_counts [] s);;
  dn_evictEntries;;
  scheduleAdjustCapacity.

(** The scheduler runs the event [id]. *)
Definition dn_fire (id : positive) : M DeadNonceList unit :=
  s ← get_st;
  ev ← someM (sched_pending (dn_sched s) !! id);
  put_st (set_dn_sched (cancel (Some id) (dn_sched s)) s);;
  match ev with
  | (_, DnlMark) => mark
  | (_, DnlAdjustCapacity) => adjustCapacity
  end.
End DeadNonceList.

(** ** Invariant *)

Section DnlSpecs.
Context {N : NdnCxx} {SC : Scheduler} {SCL : SchedulerLaws SC} {HI : HashedIndex} {HIL : HashedIndexLaws HI}.
Implicit Types (s : DeadNonceList) (q : list Z) (e : Z).

(** The only pending events are the next mark and the next adjustment. *)
Record DnlInv s : Prop := {
  di_capacity : (MIN_CAPACITY ≤ dn_capacity s ≤ MAX_CAPACITY)%Z;
  di_lifetime : (MIN_LIFETIME ≤ dn_lifetime s)%Z;
  di_events : ∃ i j t t', dn_markEvent s = Some i ∧ dn_adjustCapacityEvent s = Some j ∧ i ≠ j ∧
    sched_pending (dn_sched s) = {[ i := (t, DnlMark); j := (t', DnlAdjustCapacity) ]};
}.

Lemma makeEntry_ok name nonce : ∃ h, makeEntry name nonce = Some h.
Proof.
  unfold makeEntry. destruct (yields_Some _ _ (CityHash64WithSeed_ok (name_wire name) 0 (Z.of_nat (length (name_wire name)))
    ltac:(lia) ltac:(lia) ltac:(lia) nonce)) as (h & Hh & _). eauto.
Qed.

Lemma scale_down c : (MIN_CAPACITY ≤ c ≤ MAX_CAPACITY → fscale double_prec CAPACITY_DOWN c ≤ c)%Z.
Proof.
  unfold MIN_CAPACITY, MAX_CAPACITY, CAPACITY_DOWN, double_prec. intros Hc.
  destruct (fscale_bounds 53 8106479329266893 53 c) as [H _]; [lia..|]. change (- (53))%Z with (-53)%Z in H. lia.
Qed.

Lemma scale_up c : (MIN_CAPACITY ≤ c ≤ MAX_CAPACITY → c < fscale double_prec CAPACITY_UP c)%Z.
Proof.
  unfold MIN_CAPACITY, MAX_CAPACITY, CAPACITY_UP, double_prec. intros Hc.
  destruct (fscale_bounds 53 5404319552844595 52 c) as [_ H]; [lia..|]. change (- (52))%Z with (-52)%Z in H. lia.
Qed.

Lemma adjustedCapacity_bounds s :
  (MIN_CAPACITY ≤ dn_capacity s ≤ MAX_CAPACITY)%Z → (MIN_CAPACITY ≤ adjustedCapacity s ≤ MAX_CAPACITY)%Z.
Proof.
  intros Hc. pose proof (scale_down _ Hc). pose proof (scale_up _ Hc). unfold adjustedCapacity, equal_range.
  repeat case_decide; unfold MIN_CAPACITY, MAX_CAPACITY in *; lia.
Qed.

(** The queue without the evicted entries. *)
Definition evictedQueue (capacity : Z) q : list Z :=
  drop (Z.to_nat (Z.min (Z.of_nat (length q) - capacity) EVICT_LIMIT)) q.

Lemma dn_evictEntries_spec s :
  (0 ≤ dn_capacity s)%Z → wp dn_evictEntries (λ _ s', s' = set_dn_queue (evictedQueue (dn_capacity s) (dn_queue s)) s) s.
Proof.
  intros Hc. unfold dn_evictEntries, evictedQueue. do 2 wp_step. destruct (Z.leb_spec (Z.of_nat (length (dn_queue s))) (dn_capacity s)).
  - wp_step. replace (Z.to_nat _) with 0 by lia. by destruct s.
  - wp_step. wp_step. do 2 wp_step. wp_step; [|done]. apply Z.leb_le. cbn. rewrite length_drop. unfold EVICT_LIMIT. lia.
Qed.

(** Re-arming a timer whose event [i] has run or is replaced; the other is [j]. *)
Lemma rearm (sched sc : SchedState DnlEvent) t ev i i' j v :
  schedule t ev sched = (sc, i') → sched_issued sched i → delete i (sched_pending sched) = {[ j := v ]} →
  i' ≠ j ∧ sched_pending (cancel (Some i) sc) = <[i' := (t, ev)]> {[ j := v ]}.
Proof.
  intros Es Hi Hp. destruct (schedule_spec _ _ _ _ _ Es) as (Hfresh & _ & Hsc).
  assert (Hii : i ≠ i') by (intros ->; done).
  assert (Hj : sched_pending sched !! j = Some v).
  { apply (f_equal (lookup j)) in Hp. rewrite lookup_singleton_eq in Hp. by apply lookup_delete_Some in Hp as [_ ?]. }
  split; [intros ->; apply Hfresh, pending_issued; by eexists|].
  rewrite (proj2 (cancel_spec _ _)), Hsc, delete_insert_ne by done. by rewrite Hp.
Qed.

Lemma scheduleMark_spec s i j v :
  dn_markEvent s = Some i → sched_issued (dn_sched s) i → delete i (sched_pending (dn_sched s)) = {[ j := v ]} →
  wp scheduleMark (λ _ s', dn_queue s' = dn_queue s ∧ dn_capacity s' = dn_capacity s ∧ dn_lifetime s' = dn_lifetime s ∧
    dn_actualMarkCounts s' = dn_actualMarkCounts s ∧ dn_adjustCapacityEvent s' = dn_adjustCapacityEvent s ∧
    ∃ i', dn_markEvent s' = Some i' ∧ i' ≠ j ∧
      sched_pending (dn_sched s') = <[i' := ((dn_now s + dn_markInterval s)%Z, DnlMark)]> {[ j := v ]}) s.
Proof.
  intros Hi Hiss Hp. unfold scheduleMark. do 2 wp_step. destruct (schedule _ _ _) as [sc i'] eqn:Es. wp_step. cbn.
  split_and!; try done. exists i'. rewrite Hi. destruct (rearm _ _ _ _ _ _ _ _ Es Hiss Hp). done.
Qed.

Lemma scheduleAdjust_spec s i j v :
  dn_adjustCapacityEvent s = Some i → sched_issued (dn_sched s) i → delete i (sched_pending (dn_sched s)) = {[ j := v ]} →
  wp scheduleAdjustCapacity (λ _ s', dn_queue s' = dn_queue s ∧ dn_capacity s' = dn_capacity s ∧ dn_lifetime s' = dn_lifetime s ∧
    dn_actualMarkCounts s' = dn_actualMarkCounts s ∧ dn_markEvent s' = dn_markEvent s ∧
    ∃ i', dn_adjustCapacityEvent s' = Some i' ∧ i' ≠ j ∧
      sched_pending (dn_sched s') = <[i' := ((dn_now s + dn_adjustCapacityInterval s)%Z, DnlAdjustCapacity)]> {[ j := v ]}) s.
Proof.
  intros Hi Hiss Hp. unfold scheduleAdjustCapacity. do 2 wp_step. destruct (schedule _ _ _) as [sc i'] eqn:Es. wp_step. cbn.
  split_and!; try done. exists i'. rewrite Hi. destruct (rearm _ _ _ _ _ _ _ _ Es Hiss Hp). done.
Qed.

Lemma DeadNonceList_add_spec name nonce h s :
  DnlInv s → makeEntry name nonce = Some h →
  wp (DeadNonceList_add name nonce) (λ _ s', DnlInv s' ∧
    s' = set_dn_queue (match hfind h (dn_queue s) with
      | Some k => delete k (dn_queue s) ++ [h]
      | None => evictedQueue (dn_capacity s) (dn_queue s ++ [h]) end) s) s.
Proof.
  intros Hs Hh. assert (Hinv : ∀ q, DnlInv (set_dn_queue q s)) by (intros q; by destruct Hs).
  unfold DeadNonceList_add. wp_step. wp_step; [exact Hh|]. do 2 wp_step. destruct (hfind h (dn_queue s)) as [k|].
  - wp_step. done.
  - wp_step. wp_step. eapply wp_mono; [apply dn_evictEntries_spec|].
    + destruct (di_capacity _ Hs). cbn. unfold MIN_CAPACITY in *. lia.
    + intros [] s' ->. split; [apply Hinv|done].
Qed.

(** A timer that runs is re-armed, and the other one stays as it is. *)
Lemma dn_fire_spec id t ev s :
  DnlInv s → sched_pending (dn_sched s) !! id = Some (t, ev) →
  wp (dn_fire id) (λ _ s', DnlInv s' ∧ dn_lifetime s' = dn_lifetime s ∧
    match ev with
    | DnlMark => dn_queue s' = dn_queue s ++ [MARK] ∧ dn_capacity s' = dn_capacity s
    | DnlAdjustCapacity => dn_capacity s' = adjustedCapacity s ∧
        dn_queue s' = evictedQueue (dn_capacity s') (dn_queue s)
    end) s.
Proof.
  intros [Hc Hl (i & j & ti & tj & Hi & Hj & Hij & Hp)] Hid. unfold dn_fire. do 2 wp_step. wp_step. wp_step; [exact Hid|].
  wp_step. wp_step. assert (Hiss : sched_issued (cancel (Some id) (dn_sched s)) id).
  { apply (proj1 (cancel_spec _ _)), pending_issued. by eexists. }
  pose proof (proj2 (cancel_spec (Some id) (dn_sched s))) as Hp'. rewrite Hp in Hid, Hp'.
  apply lookup_insert_Some in Hid as [[<- [= <- <-]]|[Hne [<- [= <- <-]]%lookup_singleton_Some]].
  - rewrite delete_insert_id in Hp' by (by rewrite lookup_singleton_ne). unfold mark. wp_step. wp_step. wp_step. wp_step.
    eapply wp_mono; [apply (scheduleMark_spec _ i j (tj, DnlAdjustCapacity)); [done|done|]|].
    { cbn. by rewrite Hp', delete_singleton_ne. }
    intros [] s' (E1 & E2 & E3 & E4 & E5 & i' & Hi' & Hij' & Hpend). cbn in *. split; [|done].
    split; [by rewrite E2|by rewrite E3|]. exists i', j. do 2 eexists. split_and!; [done|congruence|done|exact Hpend].
  - rewrite delete_insert_ne, delete_singleton_eq in Hp' by done.
    unfold adjustCapacity. wp_step. wp_step. wp_step. wp_step. wp_step.
    assert (Hc' : (MIN_CAPACITY ≤ adjustedCapacity s ≤ MAX_CAPACITY)%Z) by (by apply adjustedCapacity_bounds).
    eapply wp_mono; [apply dn_evictEntries_spec; change (0 ≤ adjustedCapacity s)%Z; unfold MIN_CAPACITY in Hc'; lia|].
    intros [] s1 ->. eapply wp_mono; [apply (scheduleAdjust_spec _ j i (ti, DnlMark)); [done|done|]|].
    { cbn. rewrite Hp', insert_empty. by apply delete_singleton_ne. }
    intros [] s' (E1 & E2 & E3 & E4 & E5 & j' & Hj' & Hij' & Hpend). cbn in E1, E2, E3, E5.
    assert (E2' : dn_capacity s' = adjustedCapacity s) by exact E2.
    split; [|split; [done|split; [done|rewrite E2'; exact E1]]].
    split; [by rewrite E2'|by rewrite E3|]. exists i, j'. do 2 eexists. split_and!; [congruence|done|congruence|].
    rewrite Hpend. apply insert_insert_ne. congruence.
Qed.

(** ** How long an entry is remembered *)

Definition set_dn_now (t : Z) s : DeadNonceList :=
  mkDnl (dn_lifetime s) (dn_queue s) (dn_capacity s) (dn_actualMarkCounts s) (dn_markEvent s) (dn_adjustCapacityEvent s) (dn_sched s) t.

(** What happens to the list: an entry is added or a timer runs. *)
Inductive dnl_step : DeadNonceList → DeadNonceList → Prop :=
  | step_add t name nonce s s' : (dn_now s ≤ t)%Z → DeadNonceList_add name nonce (set_dn_now t s) = Some (s', tt) → dnl_step s s'
  | step_fire t id s s' : (dn_now s ≤ t)%Z → dn_fire id (set_dn_now t s) = Some (s', tt) → dnl_step s s'.

(** [e] is among the last [k] elements of [q]. *)
Definition within (k : nat) e q : Prop := ∃ l1 l2, q = l1 ++ e :: l2 ∧ length l2 < k.

Lemma within_snoc k e q x : within k e q → within (S k) e (q ++ [x]).
Proof. intros (l1 & l2 & -> & Hl). exists l1, (l2 ++ [x]). rewrite <- app_assoc. split; [done|]. rewrite length_app. simpl. lia. Qed.

Lemma within_delete k e q j x : within k e q → q !! j = Some x → x ≠ e → within k e (delete j q).
Proof.
  intros (l1 & l2 & -> & Hl) Hj Hx. rewrite delete_take_drop. destruct (decide (j < length l1)) as [Hlt|Hge].
  - exists (take j l1 ++ drop (S j) l1), l2. split; [|done]. rewrite take_app_le, drop_app_le by lia. by rewrite app_assoc.
  - destruct (decide (j = length l1)) as [->|Hne]; [rewrite list_lookup_middle in Hj by done; congruence|].
    rewrite take_app_ge, drop_app_ge by lia. destruct (j - length l1) as [|m] eqn:E; [lia|].
    replace (S j - length l1) with (S (S m)) by lia. cbn. rewrite <- app_assoc. exists l1, (take m l2 ++ drop (S m) l2).
    split; [done|]. rewrite length_app, length_take, length_drop. lia.
Qed.

Lemma within_evict k e q c : (Z.of_nat k ≤ c)%Z → within k e q → within k e (evictedQueue c q).
Proof.
  intros Hk (l1 & l2 & -> & Hl). unfold evictedQueue.
  set (n := Z.to_nat _). assert (Hn : n ≤ length l1).
  { unfold n. rewrite length_app. simpl. lia. }
  exists (drop n l1), l2. split; [|done]. by rewrite drop_app_le.
Qed.

Lemma dnl_step_inv s s' : DnlInv s → dnl_step s s' → DnlInv s' ∧
  ∀ k e, (Z.of_nat k < MIN_CAPACITY)%Z → within k e (dn_queue s) → within (S k) e (dn_queue s').
Proof.
  intros Hs Hstep. destruct Hstep as [t name nonce s s' _ E|t id s s' _ E].
  - assert (Hs' : DnlInv (set_dn_now t s)) by (by destruct Hs). destruct (makeEntry_ok name nonce) as [h Hh].
    destruct (wp_elim _ _ _ (DeadNonceList_add_spec name nonce h _ Hs' Hh)) as (s1 & [] & E1 & Hs1 & Hq). rewrite E1 in E. injection E as <-. split; [done|].
    intros k e Hk Hw. rewrite Hq. cbn. pose proof (hfind_Some h (dn_queue s)) as Hsome.
    destruct (hfind h (dn_queue s)) as [j|].
    + specialize (Hsome j eq_refl). destruct (decide (h = e)) as [->|Hne].
      * exists (delete j (dn_queue s)), []. split; [done|]. simpl. lia.
      * by eapply within_snoc, within_delete.
    + apply within_evict; [destruct (di_capacity _ Hs); lia|]. by apply within_snoc.
  - assert (Hs' : DnlInv (set_dn_now t s)) by (by destruct Hs).
    assert (Hid : ∃ t' ev, sched_pending (dn_sched s) !! id = Some (t', ev)).
    { unfold dn_fire, mbind, M_bind, get_st, someM in E. cbn in E. destruct (sched_pending (dn_sched s) !! id) as [[t' ev]|]; [eauto|done]. }
    destruct Hid as (t' & ev & Hid).
    destruct (wp_elim _ _ _ (dn_fire_spec id t' ev _ Hs' Hid)) as (s1 & [] & E1 & Hs1 & _ & Hq). rewrite E1 in E. injection E as <-. split; [done|].
    intros k e Hk Hw. destruct ev.
    + destruct Hq as [-> _]. by apply within_snoc.
    + destruct Hq as [_ ->]. destruct (di_capacity _ Hs1). apply within_evict; [lia|].
      destruct Hw as (l1 & l2 & E' & Hl). exists l1, l2. split; [exact E'|lia].
Qed.

Lemma dnl_steps_within n s s' k e :
  DnlInv s → nsteps dnl_step n s s' → within k e (dn_queue s) → (Z.of_nat (k + n) ≤ MIN_CAPACITY)%Z →
  DnlInv s' ∧ within (k + n) e (dn_queue s').
Proof.
  intros Hs Hn. revert k. induction Hn as [s|n s s1 s' Hstep Hn IH]; intros k Hw Hk; [by rewrite Nat.add_0_r|].
  destruct (dnl_step_inv _ _ Hs Hstep) as [Hs1 Hw1]. specialize (IH Hs1 (S k) (Hw1 k e ltac:(lia) Hw) ltac:(lia)).
  by replace (k + S n) with (S k + n) by lia.
Qed.

Lemma within_has k name nonce h s :
  makeEntry name nonce = Some h → within k h (dn_queue s) → DeadNonceList_has name nonce s = Some (s, true).
Proof.
  intros Hh (l1 & l2 & E & _). unfold DeadNonceList_has, mbind, M_bind, someM. rewrite Hh. cbn.
  rewrite bool_decide_eq_true_2; [done|]. destruct (hfind h (dn_queue s)) as [k'|] eqn:Hf; [by eexists|].
  apply hfind_None in Hf. destruct Hf. rewrite E. set_solver.
Qed.
End DnlSpecs.

(** ** Correctness *)

Section DnlCorrect.
Context {N : NdnCxx} {SC : Scheduler} {SCL : SchedulerLaws SC} {HI : HashedIndex} {HIL : HashedIndexLaws HI}.
Implicit Types (s : DeadNonceList).

Lemma newDeadNonceList_spec lifetime s :
  sched_pending (dn_sched s) = ∅ → (MIN_LIFETIME ≤ lifetime)%Z →
  wp (newDeadNonceList lifetime) (λ _ s', DnlInv s' ∧ dn_queue s' = replicate (Z.to_nat EXPECTED_MARK_COUNT) MARK) s.
Proof.
  intros Hp Hl. unfold newDeadNonceList. wp_step. wp_step; [by apply Z.leb_le|]. wp_step. wp_step. wp_step.
  unfold scheduleMark. do 2 wp_step. cbn [dn_sched dn_now dn_markEvent dn_lifetime].
  destruct (schedule _ DnlMark (dn_sched s)) as [sc1 i] eqn:E1. wp_step.
  unfold scheduleAdjustCapacity. do 2 wp_step. cbn [dn_sched dn_now dn_adjustCapacityEvent dn_lifetime].
  destruct (schedule _ DnlAdjustCapacity (cancel None sc1)) as [sc2 j] eqn:E2. wp_step.
  destruct (schedule_spec _ _ _ _ _ E1) as (_ & I1 & P1), (schedule_spec _ _ _ _ _ E2) as (F2 & _ & P2).
  destruct (cancel_spec None sc1) as [I1' P1'], (cancel_spec None sc2) as [_ P2'].
  split; [|done]. split; cbn; [unfold MIN_CAPACITY, INITIAL_CAPACITY, MAX_CAPACITY; lia|done|].
  assert (i ≠ j) as Hij by (intros ->; apply F2; rewrite I1', I1; by right).
  do 4 eexists. split; [done|]. split; [done|]. split; [done|].
  rewrite P2', P2, P1', P1, Hp. by rewrite insert_insert_ne by congruence.
Qed.

(** C20: A nonce added to the list is still reported as dead after any number of steps
    below [MIN_CAPACITY], whatever the steps are: further additions, evictions, marks,
    and capacity adjustments at any time. *)
Theorem dnl_remembers name nonce n s :
  DnlInv s → (Z.of_nat n < MIN_CAPACITY)%Z →
  wp (DeadNonceList_add name nonce) (λ _ s1,
    ∀ s', nsteps dnl_step n s1 s' → DnlInv s' ∧ DeadNonceList_has name nonce s' = Some (s', true)) s.
Proof.
  intros Hs Hn. destruct (makeEntry_ok name nonce) as [h Hh]. eapply wp_mono; [by apply DeadNonceList_add_spec|].
  intros [] s1 [Hs1 E] s' Hsteps.
  assert (Hw : within 1 h (dn_queue s1)).
  { rewrite E. cbn. destruct (hfind h (dn_queue s)) as [k|].
    - exists (delete k (dn_queue s)), []. split; [done|simpl; lia].
    - apply within_evict; [destruct (di_capacity _ Hs); unfold MIN_CAPACITY in *; lia|]. exists (dn_queue s), []. split; [done|simpl; lia]. }
  destruct (dnl_steps_within n s1 s' 1 h Hs1 Hsteps Hw ltac:(lia)) as [Hs' Hw']. split; [done|]. by eapply within_has.
Qed.

(** From construction on, with any lifetime the constructor accepts, the list
    always has exactly one mark timer and one adjustment timer pending, each run
    of which arms the next, and its capacity stays between its hard limits; a
    lifetime below the minimum is rejected. *)
Theorem dnl_timers lifetime s :
  sched_pending (dn_sched s) = ∅ →
  (if decide (lifetime < MIN_LIFETIME)%Z then newDeadNonceList lifetime s = None
   else wp (newDeadNonceList lifetime) (λ _ s0, ∀ s', rtc dnl_step s0 s' → DnlInv s' ∧
     ∀ id t ev, sched_pending (dn_sched s') !! id = Some (t, ev) → wp (dn_fire id) (λ _ s'', DnlInv s'') s') s).
Proof.
  intros Hp. case_decide as Hl.
  - unfold newDeadNonceList, mbind, M_bind, assertM. assert ((MIN_LIFETIME <=? lifetime)%Z = false) as -> by lia. done.
  - eapply wp_mono; [apply newDeadNonceList_spec; [done|lia]|]. intros [] s0 [Hs0 _] s' Hr.
    assert (Hs' : DnlInv s') by (induction Hr as [|x y z Hst _ IH]; [done|]; apply IH; by eapply dnl_step_inv).
    split; [done|]. intros id t ev Hid. eapply wp_mono; [by eapply dn_fire_spec|]. by intros [] s'' [? _].
Qed.
End DnlCorrect.

(** Example: a new list with the default lifetime. *)
Definition dnlBlank : DeadNonceList (SC := MapScheduler) := mkDnl 0 [] 0 [] None None emptyScheduler 0.
Definition dnl0 : DeadNonceList := run (newDeadNonceList DEFAULT_LIFETIME) dnlBlank.

Lemma dnl0_inv : DnlInv dnl0.
Proof.
  destruct (run_spec _ _ _ (newDeadNonceList_spec DEFAULT_LIFETIME dnlBlank eq_refl ltac:(done))) as (r & H & _). exact H.
Qed.

Lemma dnl_remembers_witness :
  wp (DeadNonceList_add (N := NatNdn) [101] 77) (λ _ s1, ∀ s', nsteps (dnl_step (N := NatNdn) (HI := FirstIndex)) 1000 s1 s' →
    DeadNonceList_has (N := NatNdn) (HI := FirstIndex) [101] 77 s' = Some (s', true)) dnl0.
Proof.
  eapply wp_mono; [exact (dnl_remembers (N := NatNdn) [101] 77 1000 dnl0 dnl0_inv ltac:(done))|].
  intros r s1 H s' Hs'. exact (proj2 (H s' Hs')).
Defined.

Lemma dnl_timers_witness :
  wp (newDeadNonceList DEFAULT_LIFETIME) (λ _ s0, ∀ s', rtc (dnl_step (N := NatNdn) (HI := FirstIndex)) s0 s' → DnlInv s') dnlBlank.
Proof.
  eapply wp_mono; [exact (dnl_timers (N := NatNdn) (HI := FirstIndex) DEFAULT_LIFETIME dnlBlank eq_refl)|].
  intros r s0 H s' Hs'. exact (proj1 (H s' Hs')).
Defined.
