(* ===== verification/Algorithm.v ===== *)
(** * Algorithms shared by the forwarding strategies

    [src/daemon/fw/algorithm.cpp], [scope-prefix.cpp],
    [retx-suppression-exponential.cpp] and [retx-suppression-fixed.cpp].  Faces
    are objects on a heap; a function that looks at the face of a nexthop takes
    the heap and fails on a dangling face. *)

From Stdlib Require Import ZArith Lia.
From stdpp Require Import base gmap option list.
From S2P Require Import Prelude Ndn FibEntry PitEntry.

(** The names ndn:/localhost and ndn:/localhop. *)
Class ScopePrefix (N : NdnCxx) := { LOCALHOST : Name; LOCALHOP : Name }.

#[export] Instance NatScopePrefix : ScopePrefix NatNdn := {| LOCALHOST := [111 : nat]; LOCALHOP := [112 : nat] |}.

Section Algorithm.
Context {N : NdnCxx} {SP : ScopePrefix N}.

Definition wouldViolateScope (inFace : Face) (interest : Interest) (outFace : Face) : bool :=
  if bool_decide (f_scope outFace = FACE_SCOPE_LOCAL) then false
  else if isPrefixOf LOCALHOST (i_name interest) then true
  else if isPrefixOf LOCALHOP (i_name interest) then bool_decide (f_scope inFace ≠ FACE_SCOPE_LOCAL)
  else false.

Definition DUPLICATE_NONCE_NONE : Z := 0.
Definition DUPLICATE_NONCE_IN_SAME : Z := 1.
Definition DUPLICATE_NONCE_IN_OTHER : Z := 2.
Definition DUPLICATE_NONCE_OUT_SAME : Z := 4.
Definition DUPLICATE_NONCE_OUT_OTHER : Z := 8.

Definition findDuplicateNonce (pitEntry : PitEntry) (nonce : Z) (face : FacePtr) : Z :=
  let dnw := foldl (λ dnw inRecord,
    if (fr_lastNonce (in_rec inRecord) =? nonce)%Z
    then Z.lor dnw (if decide (in_face inRecord = face) then DUPLICATE_NONCE_IN_SAME else DUPLICATE_NONCE_IN_OTHER)
    else dnw) DUPLICATE_NONCE_NONE (pe_inRecords pitEntry) in
  foldl (λ dnw outRecord,
    if (fr_lastNonce (out_rec outRecord) =? nonce)%Z
    then Z.lor dnw (if decide (out_face outRecord = face) then DUPLICATE_NONCE_OUT_SAME else DUPLICATE_NONCE_OUT_OTHER)
    else dnw) dnw (pe_outRecords pitEntry).

Definition hasPendingOutRecords (now : Z) (pitEntry : PitEntry) : bool :=
  existsb (λ outRecord, (now <=? fr_expiry (out_rec outRecord))%Z && bool_decide (out_incomingNack outRecord = None))
    (pe_outRecords pitEntry).

Definition getLastOutgoing (pitEntry : PitEntry) : option Z :=
  lastOutgoing ← max_element (λ a b, (fr_lastRenewed (out_rec a) <? fr_lastRenewed (out_rec b))%Z) (pe_outRecords pitEntry);
  Some (fr_lastRenewed (out_rec lastOutgoing)).

Definition isNextHopEligible (faces : gmap FacePtr Face) (inFace : Face) (interest : Interest) (nexthop : NextHop)
  (pitEntry : PitEntry) (wantUnused : bool) (now : Z) : option bool :=
  outFace ← faces !! nh_face nexthop;
  if ((f_id outFace =? f_id inFace)%Z && bool_decide (f_linkType outFace ≠ LINK_TYPE_AD_HOC)) ||
     wouldViolateScope inFace interest outFace
  then Some false
  else if wantUnused then
    match getOutRecord pitEntry (nh_face nexthop) with
    | Some outRecord => Some (negb (now <? fr_expiry (out_rec outRecord))%Z)
    | None => Some true
    end
  else Some true.

(** [std::find_if] with a predicate that may fail. *)
Fixpoint find_if {A} (pred : A → option bool) (l : list A) : option (option A) :=
  match l with
  | [] => Some None
  | x :: l' => b ← pred x; if b : bool then Some (Some x) else find_if pred l'
  end.

(** The loop of [findEligibleNextHopWithEarliestOutRecord]. *)
Fixpoint earliest_from (faces : gmap FacePtr Face) (inFace : Face) (interest : Interest) (pitEntry : PitEntry)
  (nexthops : list NextHop) (found : option NextHop) (earliestRenewed : Z) : option (option NextHop) :=
  match nexthops with
  | [] => Some found
  | nh :: nexthops' =>
      b ← isNextHopEligible faces inFace interest nh pitEntry false TIME_MIN;
      if negb b then earliest_from faces inFace interest pitEntry nexthops' found earliestRenewed
      else
        outRecord ← getOutRecord pitEntry (nh_face nh);
        if (fr_lastRenewed (out_rec outRecord) <? earliestRenewed)%Z
        then earliest_from faces inFace interest pitEntry nexthops' (Some nh) (fr_lastRenewed (out_rec outRecord))
        else earliest_from faces inFace interest pitEntry nexthops' found earliestRenewed
  end.

Definition findEligibleNextHopWithEarliestOutRecord (faces : gmap FacePtr Face) (inFace : Face) (interest : Interest)
  (nexthops : list NextHop) (pitEntry : PitEntry) : option (option NextHop) :=
  earliest_from faces inFace interest pitEntry nexthops None TIME_MAX.

(** ** Suppression of retransmissions *)

Inductive RetxSuppressionResult := RETX_NEW | RETX_FORWARD | RETX_SUPPRESS.

#[export] Instance RetxSuppressionResult_eqdec : EqDecision RetxSuppressionResult.
Proof. solve_decision. Defined.

(** Intervals are in microseconds, the multiplier is a [float]. *)
Record RetxSuppressionExponential := mkRetx {
  rs_initialInterval : Z;
  rs_multiplier : flt;
  rs_maxInterval : Z;
}.

Definition newRetxSuppressionExponential (initialInterval : Z) (multiplier : flt) (maxInterval : Z)
  : option RetxSuppressionExponential :=
  guard (0 < initialInterval)%Z;;
  guard (flt_leb (Flt 1 0) multiplier = true);;
  guard (initialInterval ≤ maxInterval)%Z;;
  Some (mkRetx initialInterval multiplier maxInterval).

(** Nanoseconds of a duration in microseconds. *)
Definition us (n : Z) : Z := n * 1000.

Definition interval (si : StrategyInfo) : Z := match si with PitInfo i => i end.

(** [min(m_maxInterval, duration_cast<Duration>(interval * m_multiplier))]: the
    product is taken in [float] and truncated. *)
Definition nextInterval (rs : RetxSuppressionExponential) (i : Z) : Z :=
  Z.min (rs_maxInterval rs) (fscale float_prec (rs_multiplier rs) i).

(** The entry with the [PitInfo] that is there afterwards. *)
Definition decidePerPitEntry (rs : RetxSuppressionExponential) (now : Z) (pitEntry : PitEntry)
  : option (RetxSuppressionResult * PitEntry) :=
  if negb (hasPendingOutRecords now pitEntry) then Some (RETX_NEW, pitEntry)
  else
    lastOutgoing ← getLastOutgoing pitEntry;
    let sinceLastOutgoing := (now - lastOutgoing)%Z in
    let '(info, (pi, _)) := insertStrategyInfo (PitInfo (rs_initialInterval rs)) (pe_info pitEntry) in
    if (sinceLastOutgoing <? us (interval pi))%Z then Some (RETX_SUPPRESS, set_info info pitEntry)
    else Some (RETX_FORWARD, set_info (<[getTypeId pi := PitInfo (nextInterval rs (interval pi))]> info) pitEntry).

Definition set_out_info (h : StrategyInfoHost) (r : OutRecord) : OutRecord :=
  mkOutRecord (mkFaceRecord (fr_face (out_rec r)) (fr_lastNonce (out_rec r)) (fr_lastRenewed (out_rec r))
    (fr_expiry (out_rec r)) h) (out_incomingNack r).

Definition decidePerUpstream (rs : RetxSuppressionExponential) (now : Z) (pitEntry : PitEntry) (outFace : FacePtr)
  : RetxSuppressionResult * PitEntry :=
  match getOutRecord pitEntry outFace with
  | None => (RETX_NEW, pitEntry)
  | Some outRecord =>
      let sinceLastOutgoing := (now - fr_lastRenewed (out_rec outRecord))%Z in
      let '(info, (pi, _)) := insertStrategyInfo (PitInfo (rs_initialInterval rs)) (fr_info (out_rec outRecord)) in
      let pitEntry' := updateOutRecord outFace (set_out_info info) pitEntry in
      if (sinceLastOutgoing <? us (interval pi))%Z then (RETX_SUPPRESS, pitEntry') else (RETX_FORWARD, pitEntry')
  end.

Definition incrementIntervalForOutRecord (rs : RetxSuppressionExponential) (outRecord : OutRecord) : OutRecord :=
  let '(info, (pi, _)) := insertStrategyInfo (PitInfo (rs_initialInterval rs)) (fr_info (out_rec outRecord)) in
  set_out_info (<[getTypeId pi := PitInfo (nextInterval rs (interval pi))]> info) outRecord.

(** [RetxSuppressionFixed::decidePerPitEntry]; the interval is in milliseconds. *)
Definition decidePerPitEntry_fixed (minRetxInterval now : Z) (pitEntry : PitEntry) : option RetxSuppressionResult :=
  if negb (hasPendingOutRecords now pitEntry) then Some RETX_NEW
  else
    lastOutgoing ← getLastOutgoing pitEntry;
    Some (if (now - lastOutgoing <? ms minRetxInterval)%Z then RETX_SUPPRESS else RETX_FORWARD).
End Algorithm.

(** ** Facts *)

Section AlgorithmFacts.
Context {N : NdnCxx} {SP : ScopePrefix N}.
Implicit Types (pe : PitEntry) (rs : RetxSuppressionExponential).

(** [find_if] returns the first element that satisfies the predicate. *)
Lemma find_if_spec {A} (pred : A → option bool) (l : list A) :
  (∀ x, x ∈ l → is_Some (pred x)) →
  ∃ r, find_if pred l = Some r ∧
    match r with
    | Some x => ∃ l1 l2, l = l1 ++ x :: l2 ∧ pred x = Some true ∧ ∀ y, y ∈ l1 → pred y = Some false
    | None => ∀ y, y ∈ l → pred y = Some false
    end.
Proof.
  induction l as [|a l IH]; intros Hl; simpl.
  - exists None. split; [done|]. intros y Hy. by apply elem_of_nil in Hy.
  - destruct (Hl a ltac:(constructor)) as [[|] Ha]; rewrite Ha; simpl.
    + eexists. split; [done|]. exists [], l. split_and!; [done..|]. intros y Hy. by apply elem_of_nil in Hy.
    + destruct IH as (r & -> & Hr); [by intros; apply Hl; constructor|]. exists r. split; [done|].
      destruct r as [x|]; [destruct Hr as (l1 & l2 & -> & Hx & Hl1); exists (a :: l1), l2; split_and!; try done|];
        intros y [->|Hy]%elem_of_cons; eauto.
Qed.

(** Whether a nexthop passes the scope and same-face rules. *)
Definition allowedNextHop (faces : gmap FacePtr Face) (inFace : Face) (interest : Interest) (nh : NextHop) : Prop :=
  ∃ outFace, faces !! nh_face nh = Some outFace ∧
    (f_id outFace ≠ f_id inFace ∨ f_linkType outFace = LINK_TYPE_AD_HOC) ∧
    wouldViolateScope inFace interest outFace = false.

(** An out-record that has not expired at [now]. *)
Definition usedNextHop pe (now : Z) (nh : NextHop) : Prop :=
  ∃ r, getOutRecord pe (nh_face nh) = Some r ∧ (now < fr_expiry (out_rec r))%Z.

Lemma isNextHopEligible_spec faces inFace interest nh pe wantUnused now outFace :
  faces !! nh_face nh = Some outFace →
  ∃ b, isNextHopEligible faces inFace interest nh pe wantUnused now = Some b ∧
    (b = true ↔ allowedNextHop faces inFace interest nh ∧ (wantUnused = true → ¬ usedNextHop pe now nh)).
Proof.
  intros Hf. unfold isNextHopEligible, allowedNextHop, usedNextHop. rewrite Hf. simpl.
  destruct ((f_id outFace =? f_id inFace)%Z && bool_decide (f_linkType outFace ≠ LINK_TYPE_AD_HOC)) eqn:E1; simpl.
  { eexists. split; [done|]. split; [done|]. intros [(o & [= <-] & Ho & _) _].
    apply andb_true_iff in E1 as [?%Z.eqb_eq ?%bool_decide_eq_true]. naive_solver. }
  assert (H1 : f_id outFace ≠ f_id inFace ∨ f_linkType outFace = LINK_TYPE_AD_HOC).
  { apply andb_false_iff in E1 as [?%Z.eqb_neq|?%bool_decide_eq_false]; [by left|right; by apply dec_stable]. }
  destruct (wouldViolateScope inFace interest outFace) eqn:E2.
  { eexists. split; [done|]. split; [done|]. intros [(o & [= <-] & _ & Ho) _]. congruence. }
  assert (HA : ∃ o, Some outFace = Some o ∧ (f_id o ≠ f_id inFace ∨ f_linkType o = LINK_TYPE_AD_HOC) ∧
    wouldViolateScope inFace interest o = false) by eauto.
  destruct wantUnused; [|by eexists].
  destruct (getOutRecord pe (nh_face nh)) as [r|].
  - eexists. split; [done|]. destruct (Z.ltb_spec now (fr_expiry (out_rec r))); simpl; split; try done.
    + intros [_ Hu]. destruct Hu; eauto.
    + intros _. split; [done|]. intros _ (r' & [= <-] & ?). lia.
  - eexists. split; [done|]. split; [|done]. intros _. split; [done|]. by intros _ (r' & ? & _).
Qed.

(** Among the nexthops that may be used again, one of the earliest used. *)
Lemma earliest_from_spec faces inFace interest pe nexthops found t :
  (∀ nh, nh ∈ nexthops → is_Some (faces !! nh_face nh)) →
  (∀ nh, nh ∈ nexthops → allowedNextHop faces inFace interest nh → is_Some (getOutRecord pe (nh_face nh))) →
  ∃ r, earliest_from faces inFace interest pe nexthops found t = Some r ∧
    (r = found ∧ (∀ nh o, nh ∈ nexthops → allowedNextHop faces inFace interest nh →
        getOutRecord pe (nh_face nh) = Some o → (t ≤ fr_lastRenewed (out_rec o))%Z) ∨
     ∃ nh o, r = Some nh ∧ nh ∈ nexthops ∧ allowedNextHop faces inFace interest nh ∧
       getOutRecord pe (nh_face nh) = Some o ∧ (fr_lastRenewed (out_rec o) < t)%Z ∧
       ∀ nh' o', nh' ∈ nexthops → allowedNextHop faces inFace interest nh' →
         getOutRecord pe (nh_face nh') = Some o' → (fr_lastRenewed (out_rec o) ≤ fr_lastRenewed (out_rec o'))%Z).
Proof.
  revert found t. induction nexthops as [|nh l IH]; intros found t Hf Ho; cbn [earliest_from].
  { exists found. split; [done|]. left. split; [done|]. intros nh o Hn. by apply elem_of_nil in Hn. }
  destruct (Hf nh ltac:(constructor)) as [outFace HoF].
  destruct (isNextHopEligible_spec faces inFace interest nh pe false TIME_MIN outFace HoF) as (b & -> & Hb).
  cbn [mbind option_bind]. assert (Hf' : ∀ nh, nh ∈ l → is_Some (faces !! nh_face nh)) by (intros; apply Hf; by constructor).
  assert (Ho' : ∀ nh, nh ∈ l → allowedNextHop faces inFace interest nh → is_Some (getOutRecord pe (nh_face nh)))
    by (intros; apply Ho; [by constructor|done]).
  assert (Hnb : b = false → ¬ allowedNextHop faces inFace interest nh) by (intros -> Ha; enough (false = true) by done; by apply Hb).
  destruct b; cbn [negb].
  - destruct (proj1 Hb eq_refl) as [Ha _]. destruct (Ho nh ltac:(constructor) Ha) as [o Hor]. rewrite Hor. cbn [mbind option_bind].
    destruct (Z.ltb_spec (fr_lastRenewed (out_rec o)) t) as [Hlt|Hge].
    + destruct (IH (Some nh) (fr_lastRenewed (out_rec o)) Hf' Ho') as (r & -> & Hr). exists r. split; [done|]. right.
      destruct Hr as [[-> Hr]|(nh' & o' & -> & Hin & Ha' & Ho1 & Hlt' & Hr)].
      * exists nh, o. split_and!; [done|by constructor|done..|]. intros nh' o' [->|Hin]%elem_of_cons Ha' Ho1; [|eauto].
        simplify_eq. lia.
      * exists nh', o'. split_and!; [done|by constructor|done|done|lia|]. intros nh2 o2 [->|Hin2]%elem_of_cons Ha2 Ho2; [|eauto].
        simplify_eq. lia.
    + destruct (IH found t Hf' Ho') as (r & -> & Hr). exists r. split; [done|].
      destruct Hr as [[-> Hr]|(nh' & o' & -> & Hin & Ha' & Ho1 & Hlt' & Hr)]; [left; split; [done|]|right].
      * intros nh2 o2 [->|Hin2]%elem_of_cons Ha2 Ho2; [|eauto]. simplify_eq. lia.
      * exists nh', o'. split_and!; [done|by constructor|done|done|lia|]. intros nh2 o2 [->|Hin2]%elem_of_cons Ha2 Ho2; [|eauto].
        simplify_eq. lia.
  - destruct (IH found t Hf' Ho') as (r & -> & Hr). exists r. split; [done|].
    destruct Hr as [[-> Hr]|(nh' & o' & -> & Hin & Ha' & Ho1 & Hlt' & Hr)]; [left; split; [done|]|right].
    + intros nh2 o2 [->|Hin2]%elem_of_cons Ha2 Ho2; [by destruct (Hnb eq_refl)|eauto].
    + exists nh', o'. split_and!; [done|by constructor|done|done|lia|]. intros nh2 o2 [->|Hin2]%elem_of_cons Ha2 Ho2; [by destruct (Hnb eq_refl)|eauto].
Qed.
End AlgorithmFacts.

Section RetxFacts.
Context {N : NdnCxx} {SP : ScopePrefix N}.
Implicit Types (pe : PitEntry) (rs : RetxSuppressionExponential) (h : StrategyInfoHost).

(** The suppression interval in force, in microseconds. *)
Definition intervalIn rs h : Z := default (rs_initialInterval rs) (interval <$> getStrategyInfo 1020 h).

Record Retx_wf rs : Prop := {
  rw_initial : (0 < rs_initialInterval rs)%Z;
  rw_multiplier : flt_leb (Flt 1 0) (rs_multiplier rs) = true;
  rw_max : (rs_initialInterval rs ≤ rs_maxInterval rs)%Z;
}.

Lemma newRetx_wf i m mx rs : newRetxSuppressionExponential i m mx = Some rs → rs = mkRetx i m mx ∧ Retx_wf rs.
Proof.
  unfold newRetxSuppressionExponential. rewrite !bind_Some. intros (H1 & _ & H). rewrite bind_Some in H.
  destruct H as (H2 & _ & H). rewrite bind_Some in H. destruct H as (H3 & _ & [= <-]). split; [done|by split].
Qed.

Lemma hasPendingOutRecords_spec now pe :
  hasPendingOutRecords now pe = true ↔
  ∃ o, o ∈ pe_outRecords pe ∧ (now ≤ fr_expiry (out_rec o))%Z ∧ out_incomingNack o = None.
Proof.
  unfold hasPendingOutRecords. rewrite existsb_exists. setoid_rewrite <- list_elem_of_In.
  setoid_rewrite andb_true_iff. setoid_rewrite Z.leb_le. setoid_rewrite bool_decide_eq_true. done.
Qed.

Lemma getLastOutgoing_spec pe :
  pe_outRecords pe ≠ [] → ∃ t, getLastOutgoing pe = Some t ∧
    (∃ o, o ∈ pe_outRecords pe ∧ fr_lastRenewed (out_rec o) = t) ∧
    ∀ o, o ∈ pe_outRecords pe → (fr_lastRenewed (out_rec o) ≤ t)%Z.
Proof.
  intros Hne. unfold getLastOutgoing. destruct (max_element_Some (λ a b, (fr_lastRenewed (out_rec a) <? fr_lastRenewed (out_rec b))%Z)
    _ Hne) as [o Ho]. rewrite Ho. apply (max_element_key (λ a, fr_lastRenewed (out_rec a))) in Ho as [H1 H2].
  simpl. eauto 6.
Qed.

Lemma insertStrategyInfo_interval rs h :
  ∃ h' b, insertStrategyInfo (PitInfo (rs_initialInterval rs)) h = (h', (PitInfo (intervalIn rs h), b)) ∧
    intervalIn rs h' = intervalIn rs h ∧ ∀ i, intervalIn rs (<[1020%Z := PitInfo i]> h') = i.
Proof.
  unfold insertStrategyInfo, intervalIn, getStrategyInfo, StrategyInfoHost in *. cbn [getTypeId].
  destruct (h !! 1020%Z) as [[i]|] eqn:E; simpl; do 2 eexists; (split; [done|]).
  - rewrite E. split; [done|]. intros j. by rewrite lookup_insert_eq.
  - rewrite lookup_insert_eq. split; [done|]. intros j. by rewrite lookup_insert_eq.
Qed.

(** Both decisions compare the time since the last transmission with the
    interval in force; only a forwarded retransmission lengthens it. *)
Lemma decidePerPitEntry_spec rs now pe :
  ∃ r pe', decidePerPitEntry rs now pe = Some (r, pe') ∧ pe' = set_info (pe_info pe') pe ∧
    match r with
    | RETX_NEW => hasPendingOutRecords now pe = false ∧ pe' = pe
    | RETX_SUPPRESS => hasPendingOutRecords now pe = true ∧ intervalIn rs (pe_info pe') = intervalIn rs (pe_info pe) ∧
        ∃ o, o ∈ pe_outRecords pe ∧ (now - fr_lastRenewed (out_rec o) < us (intervalIn rs (pe_info pe)))%Z
    | RETX_FORWARD => hasPendingOutRecords now pe = true ∧
        intervalIn rs (pe_info pe') = nextInterval rs (intervalIn rs (pe_info pe)) ∧
        ∀ o, o ∈ pe_outRecords pe → (us (intervalIn rs (pe_info pe)) ≤ now - fr_lastRenewed (out_rec o))%Z
    end.
Proof.
  unfold decidePerPitEntry. destruct (hasPendingOutRecords now pe) eqn:E; simpl.
  2: { exists RETX_NEW, pe. split; [done|]. by destruct pe. }
  assert (pe_outRecords pe ≠ []) as Hne.
  { apply hasPendingOutRecords_spec in E as (o & Ho & _). intros Hn. rewrite Hn in Ho. by apply elem_of_nil in Ho. }
  destruct (getLastOutgoing_spec pe Hne) as (t & -> & (o & Ho & Hot) & Hmax). simpl.
  destruct (insertStrategyInfo_interval rs (pe_info pe)) as (h' & b & -> & Hh & Hn). cbn [interval getTypeId].
  destruct (Z.ltb_spec (now - t) (us (intervalIn rs (pe_info pe)))); do 2 eexists; (split; [done|]); (split; [done|]); simpl.
  - split_and!; [done..|]. exists o. split; [done|]. lia.
  - split_and!; [done|apply Hn|]. intros o' Ho'. specialize (Hmax _ Ho'). lia.
Qed.

Lemma decidePerUpstream_spec rs now pe face :
  let '(r, pe') := decidePerUpstream rs now pe face in
  match r with
  | RETX_NEW => getOutRecord pe face = None ∧ pe' = pe
  | RETX_SUPPRESS => ∃ o, getOutRecord pe face = Some o ∧
      (now - fr_lastRenewed (out_rec o) < us (intervalIn rs (fr_info (out_rec o))))%Z
  | RETX_FORWARD => ∃ o, getOutRecord pe face = Some o ∧
      (us (intervalIn rs (fr_info (out_rec o))) ≤ now - fr_lastRenewed (out_rec o))%Z
  end.
Proof.
  unfold decidePerUpstream. destruct (getOutRecord pe face) as [o|]; [|done].
  destruct (insertStrategyInfo_interval rs (fr_info (out_rec o))) as (h' & b & -> & Hh & Hn). cbn [interval].
  destruct (Z.ltb_spec (now - fr_lastRenewed (out_rec o)) (us (intervalIn rs (fr_info (out_rec o))))); eauto.
Qed.

Lemma nextInterval_bounds rs i :
  Retx_wf rs → (0 < i ≤ rs_maxInterval rs → 1 ≤ nextInterval rs i ≤ rs_maxInterval rs)%Z.
Proof.
  intros [H1 H2 H3] Hi. unfold nextInterval. split; [|lia]. apply Z.min_glb; [lia|].
  destruct (Z.lt_ge_cases i (2 ^ float_prec)) as [Hlt|Hge].
  - etrans; [|apply fscale_ge; [done|lia|done]]. lia.
  - unfold fscale, fmul. destruct (fround_lower float_prec i 0) as [Hm Hl]; [done|lia|]. fold (fof float_prec i) in *.
    unfold flt_leb in H2. cbn [mant expo] in H2. apply Z.leb_le in H2. set (f := rs_multiplier rs) in *.
    assert (Hf : (0 < mant f)%Z) by (pose proof (Z.pow_pos_nonneg 2 (0 - Z.min 0 (expo f))); nia).
    destruct (fround_lower float_prec (mant f * mant (fof float_prec i)) (expo f + expo (fof float_prec i))) as [Hm' Hl'];
      [done|nia|]. apply ftrunc_ge1; [done|]. etrans; [|exact Hl'].
    assert (0 ≤ Z.log2 (mant f) + expo f)%Z.
    { destruct (Z.le_gt_cases 0 (expo f)); [pose proof (Z.log2_nonneg (mant f)); lia|].
      rewrite Z.min_r, Z.sub_diag in H2 by lia. assert (0 - expo f ≤ Z.log2 (mant f))%Z; [|lia].
      apply Z.log2_le_pow2; lia. }
    pose proof (Z.log2_mul_below (mant f) (mant (fof float_prec i))). pose proof (Z.log2_nonneg i). lia.
Qed.

Lemma nextInterval_double rs i :
  rs_multiplier rs = Flt 1 1 → (0 < i < 2 ^ 24 → nextInterval rs i = Z.min (rs_maxInterval rs) (2 * i))%Z.
Proof. intros E Hi. unfold nextInterval. rewrite E. by rewrite fscale_double. Qed.
End RetxFacts.

Section RetxProperties.
Context {N : NdnCxx} {SP : ScopePrefix N}.
Implicit Types (pe : PitEntry) (rs : RetxSuppressionExponential).

(** With the multiplier 2 (the default), and the interval that [k] forwarded
    retransmissions have left, a retransmission is new when no unexpired,
    un-nacked out-record is pending; it is suppressed when some out-record was
    renewed within min(max, initial * 2^k), and otherwise forwarded, which
    leaves the interval of [k + 1] retransmissions.  Records do not change. *)
Theorem retx_suppression_backoff rs i mx k now pe :
  newRetxSuppressionExponential i (Flt 1 1) mx = Some rs → (mx < 2 ^ 24)%Z → (0 ≤ k)%Z →
  intervalIn rs (pe_info pe) = Z.min mx (i * 2 ^ k) →
  ∃ r pe', decidePerPitEntry rs now pe = Some (r, pe') ∧ pe' = set_info (pe_info pe') pe ∧
    match r with
    | RETX_NEW => pe' = pe ∧
        ∀ o, o ∈ pe_outRecords pe → (fr_expiry (out_rec o) < now)%Z ∨ out_incomingNack o ≠ None
    | RETX_SUPPRESS => intervalIn rs (pe_info pe') = Z.min mx (i * 2 ^ k) ∧
        ∃ o, o ∈ pe_outRecords pe ∧ (now - fr_lastRenewed (out_rec o) < us (Z.min mx (i * 2 ^ k)))%Z
    | RETX_FORWARD => intervalIn rs (pe_info pe') = Z.min mx (i * 2 ^ (k + 1)) ∧
        ∀ o, o ∈ pe_outRecords pe → (us (Z.min mx (i * 2 ^ k)) ≤ now - fr_lastRenewed (out_rec o))%Z
    end.
Proof.
  intros [-> Hwf]%newRetx_wf Hmx Hk Hi. pose proof (rw_initial _ Hwf). pose proof (rw_max _ Hwf). cbn in *.
  destruct (decidePerPitEntry_spec (mkRetx i (Flt 1 1) mx) now pe) as (r & pe' & -> & Hfr & Hr). exists r, pe'.
  split; [done|]. split; [done|]. rewrite <- Hi. pose proof (Z.pow_pos_nonneg 2 k).
  destruct r; destruct Hr as (Hp & Hr).
  - split; [done|]. intros o Ho. destruct (out_incomingNack o) eqn:En; [by right|left].
    apply Z.lt_nge. intros Hle. enough (hasPendingOutRecords now pe = true) by congruence.
    apply hasPendingOutRecords_spec. eauto.
  - destruct Hr as [Hr1 Hr2]. split; [|done]. rewrite Hr1, Hi, nextInterval_double by (done || nia).
    cbn [rs_maxInterval]. rewrite Z.pow_add_r by lia. nia.
  - done.
Qed.

(** With any multiplier the constructor accepts, the suppression interval of
    a PIT entry and of an out-record stays between one microsecond and the
    maximum, although the product is rounded to a [float]; below 2^24
    microseconds, where the rounding is exact, it never shrinks. *)
Theorem retx_interval_bounds rs i m mx now pe o :
  newRetxSuppressionExponential i m mx = Some rs →
  (1 ≤ intervalIn rs (pe_info pe) ≤ mx)%Z → (1 ≤ intervalIn rs (fr_info (out_rec o)) ≤ mx)%Z →
  (∃ r pe', decidePerPitEntry rs now pe = Some (r, pe') ∧ (1 ≤ intervalIn rs (pe_info pe') ≤ mx)%Z ∧
     ((intervalIn rs (pe_info pe) < 2 ^ 24)%Z → (intervalIn rs (pe_info pe) ≤ intervalIn rs (pe_info pe'))%Z)) ∧
  let o' := incrementIntervalForOutRecord rs o in
  (1 ≤ intervalIn rs (fr_info (out_rec o')) ≤ mx)%Z ∧
  ((intervalIn rs (fr_info (out_rec o)) < 2 ^ 24)%Z →
    (intervalIn rs (fr_info (out_rec o)) ≤ intervalIn rs (fr_info (out_rec o')))%Z).
Proof.
  intros [Ers Hwf]%newRetx_wf Hpe Ho. assert (Hmx : rs_maxInterval rs = mx) by (by subst).
  assert (Hnext : ∀ j, (1 ≤ j ≤ mx)%Z → (1 ≤ nextInterval rs j ≤ mx)%Z ∧ ((j < 2 ^ 24)%Z → (j ≤ nextInterval rs j)%Z)).
  { intros j Hj. rewrite <- Hmx. split; [apply nextInterval_bounds; [done|lia]|]. intros Hlt.
    apply Z.min_glb; [lia|]. apply fscale_ge; [done|done || (unfold float_prec; lia)|apply Hwf]. }
  split.
  - destruct (decidePerPitEntry_spec rs now pe) as (r & pe' & -> & _ & Hr). exists r, pe'. split; [done|].
    destruct r.
    + destruct Hr as [_ ->]. done.
    + destruct Hr as (_ & -> & _). by apply Hnext.
    + destruct Hr as (_ & -> & _). done.
  - unfold incrementIntervalForOutRecord.
    destruct (insertStrategyInfo_interval rs (fr_info (out_rec o))) as (h' & b & -> & Hh & Hn).
    cbn [interval getTypeId]. unfold set_out_info. cbn [out_rec fr_info]. rewrite Hn.
    by apply Hnext.
Qed.
End RetxProperties.

(** An entry with one out-record, renewed at 0 with a lifetime of 4 s. *)
Definition exRetxEntry : PitEntry (N := NatNdn) :=
  insertOrUpdateOutRecord 0 3%positive (exInterest [101] false 7) (newPitEntry (exInterest [101] false 7)).

Lemma retx_suppression_backoff_witness :
  ∃ r pe', decidePerPitEntry (mkRetx 1000 (Flt 1 1) 250000) (ms 2) exRetxEntry = Some (r, pe') ∧ r = RETX_FORWARD ∧
    intervalIn (mkRetx 1000 (Flt 1 1) 250000) (pe_info pe') = 2000%Z.
Proof.
  destruct (retx_suppression_backoff (mkRetx 1000 (Flt 1 1) 250000) 1000 250000 0 (ms 2) exRetxEntry
    eq_refl eq_refl ltac:(done) eq_refl) as (r & pe' & E & _ & Hr).
  exists r, pe'. split; [exact E|].
  assert (fst <$> decidePerPitEntry (mkRetx 1000 (Flt 1 1) 250000) (ms 2) exRetxEntry = Some RETX_FORWARD) as E'
    by (vm_compute; reflexivity).
  rewrite E in E'. injection E' as ->. split; [reflexivity|]. exact (proj1 Hr).
Defined.

Lemma retx_interval_bounds_witness :
  ∃ r pe', decidePerPitEntry (mkRetx 1000 (Flt 3 (-1)) 250000) (ms 2) exRetxEntry = Some (r, pe') ∧
    (1000 ≤ intervalIn (mkRetx 1000 (Flt 3 (-1)) 250000) (pe_info pe') ≤ 250000)%Z.
Proof.
  destruct (retx_interval_bounds (mkRetx 1000 (Flt 3 (-1)) 250000) 1000 (Flt 3 (-1)) 250000 (ms 2) exRetxEntry
    (newOutRecord 3%positive) eq_refl ltac:(by vm_compute) ltac:(by vm_compute)) as [(r & pe' & E & [_ Hr] & Hm) _].
  exists r, pe'. split; [done|]. split; [|exact Hr]. by apply Hm.
Defined.
