(* ===== verification/FwState.v ===== *)
(** * The state of the forwarder, its outgoing pipelines and the base strategy

    [src/daemon/fw/forwarder.cpp] (outgoing pipelines and helpers),
    [forwarder-counters.hpp], [face-table.cpp], [unsolicited-data-policy.cpp],
    [src/daemon/table/network-region-table.cpp], and the class [Strategy] of
    [src/daemon/fw/strategy.cpp] from which the strategies derive.

    What the forwarder hands to a face is appended to [fw_sent], with the face
    as it is at that moment.  The signals for observers ([afterCsHit] and the
    like) and the log are left out. *)

From Stdlib Require Import ZArith Lia.
From stdpp Require Import base gmap option list.
From S2P Require Import Prelude Scheduler CityHash Ndn FibEntry PitEntry NameTreeEntry Hashtable NameTree.
From S2P Require Import NameTreeIterator Tables Fib Pit Measurements StrategyChoice Cleanup Cs DeadNonceList.
From S2P Require Import Algorithm.

(** ** Library functions *)

(** [std::shuffle] with the random number engine of ndn-cxx. *)
Class RandomEngine := {
  RngState : Type;
  shuffle : ∀ {A}, list A → RngState → list A * RngState;
}.

Class RandomEngineLaws (RE : RandomEngine) : Prop := {
  shuffle_permutes : ∀ A (l : list A) r, (shuffle l r).1 ≡ₚ l;
}.

(** The iteration order of [std::unordered_set<Face*>]. *)
Class UnorderedSet := { iteration_order : list FacePtr → list FacePtr }.

Class UnorderedSetLaws (US : UnorderedSet) : Prop := {
  iteration_permutes : ∀ l, iteration_order l ≡ₚ l;
}.

(** Instances: a rotation by a counter, and insertion order. *)
#[export] Instance RotateEngine : RandomEngine := {|
  RngState := nat;
  shuffle A l n := (drop (n mod length l) l ++ take (n mod length l) l, S n);
|}.

#[export] Instance RotateEngineLaws : RandomEngineLaws RotateEngine.
Proof. split. intros A l n. cbn. rewrite (Permutation_app_comm _ _). by rewrite take_drop. Qed.

#[export] Instance InsertionOrder : UnorderedSet := {| iteration_order l := l |}.
#[export] Instance InsertionOrderLaws : UnorderedSetLaws InsertionOrder.
Proof. by split. Qed.

(** ** State *)

Inductive Counter :=
  | nInInterests | nOutInterests | nInData | nOutData | nInNacks | nOutNacks
  | nSatisfiedInterests | nUnsatisfiedInterests | nUnsolicitedData | nCsHits | nCsMisses.

#[export] Instance Counter_eqdec : EqDecision Counter.
Proof. solve_decision. Defined.

Definition ForwarderCounters : Type := Counter → Z.

Inductive UnsolicitedDataPolicy := DropAll | AdmitLocal | AdmitNetwork | AdmitAll.
Inductive UnsolicitedDataDecision := DECIDE_DROP | DECIDE_CACHE.

Definition decide_unsolicited (policy : UnsolicitedDataPolicy) (inFace : Face) : UnsolicitedDataDecision :=
  match policy with
  | DropAll => DECIDE_DROP
  | AdmitLocal => if bool_decide (f_scope inFace = FACE_SCOPE_LOCAL) then DECIDE_CACHE else DECIDE_DROP
  | AdmitNetwork => if bool_decide (f_scope inFace = FACE_SCOPE_NON_LOCAL) then DECIDE_CACHE else DECIDE_DROP
  | AdmitAll => DECIDE_CACHE
  end.

Record FaceEndpoint := mkFaceEndpoint { ep_face : FacePtr; ep_endpoint : Z }.

Definition set_f_id (id : Z) (f : Face) : Face :=
  mkFace id (f_scope f) (f_linkType f) (f_nInHopLimitZero f) (f_nOutHopLimitZero f).
Definition incr_nInHopLimitZero (f : Face) : Face :=
  mkFace (f_id f) (f_scope f) (f_linkType f) ((f_nInHopLimitZero f + 1) mod 2 ^ 64) (f_nOutHopLimitZero f).
Definition incr_nOutHopLimitZero (f : Face) : Face :=
  mkFace (f_id f) (f_scope f) (f_linkType f) (f_nInHopLimitZero f) ((f_nOutHopLimitZero f + 1) mod 2 ^ 64).

Section State.
Context {N : NdnCxx} {SC : Scheduler} {RE : RandomEngine} {P : Type}.

(** A packet given to a face. *)
Inductive Sent :=
  | SentInterest (egress : FacePtr) (face : Face) (interest : Interest)
  | SentData (egress : FacePtr) (face : Face) (data : Data)
  | SentNack (egress : FacePtr) (face : Face) (nack : Nack).

Record Forwarder := mkForwarder {
  fw_tables : Tables;                  (* NameTree, Fib, Pit, Measurements, StrategyChoice *)
  fw_cs : Cs P;
  fw_dnl : DeadNonceList;
  fw_faces : gmap FacePtr Face;        (* every Face object *)
  fw_faceTable : gmap Z FacePtr;       (* FaceTable::m_faces *)
  fw_lastFaceId : Z;                   (* FaceTable::m_lastFaceId *)
  fw_regions : list Name;              (* NetworkRegionTable *)
  fw_defaultHopLimit : Z;              (* m_config.defaultHopLimit *)
  fw_unsolicited : UnsolicitedDataPolicy;
  fw_csFace : FacePtr;
  fw_counters : ForwarderCounters;
  fw_rng : RngState;
  fw_sent : list Sent;
}.

Implicit Types (s : Forwarder).

Definition set_fw_tables (x : Tables) s : Forwarder :=
  mkForwarder x (fw_cs s) (fw_dnl s) (fw_faces s) (fw_faceTable s) (fw_lastFaceId s) (fw_regions s) (fw_defaultHopLimit s)
    (fw_unsolicited s) (fw_csFace s) (fw_counters s) (fw_rng s) (fw_sent s).
Definition set_fw_cs (x : Cs P) s : Forwarder :=
  mkForwarder (fw_tables s) x (fw_dnl s) (fw_faces s) (fw_faceTable s) (fw_lastFaceId s) (fw_regions s) (fw_defaultHopLimit s)
    (fw_unsolicited s) (fw_csFace s) (fw_counters s) (fw_rng s) (fw_sent s).
Definition set_fw_dnl (x : DeadNonceList) s : Forwarder :=
  mkForwarder (fw_tables s) (fw_cs s) x (fw_faces s) (fw_faceTable s) (fw_lastFaceId s) (fw_regions s) (fw_defaultHopLimit s)
    (fw_unsolicited s) (fw_csFace s) (fw_counters s) (fw_rng s) (fw_sent s).
Definition set_fw_faces (x : gmap FacePtr Face) s : Forwarder :=
  mkForwarder (fw_tables s) (fw_cs s) (fw_dnl s) x (fw_faceTable s) (fw_lastFaceId s) (fw_regions s) (fw_defaultHopLimit s)
    (fw_unsolicited s) (fw_csFace s) (fw_counters s) (fw_rng s) (fw_sent s).
Definition set_fw_faceTable (x : gmap Z FacePtr) (lastId : Z) s : Forwarder :=
  mkForwarder (fw_tables s) (fw_cs s) (fw_dnl s) (fw_faces s) x lastId (fw_regions s) (fw_defaultHopLimit s)
    (fw_unsolicited s) (fw_csFace s) (fw_counters s) (fw_rng s) (fw_sent s).
Definition set_fw_regions (regions : list Name) s : Forwarder :=
  mkForwarder (fw_tables s) (fw_cs s) (fw_dnl s) (fw_faces s) (fw_faceTable s) (fw_lastFaceId s) regions (fw_defaultHopLimit s)
    (fw_unsolicited s) (fw_csFace s) (fw_counters s) (fw_rng s) (fw_sent s).
Definition set_fw_config (hopLimit : Z) (policy : UnsolicitedDataPolicy) s : Forwarder :=
  mkForwarder (fw_tables s) (fw_cs s) (fw_dnl s) (fw_faces s) (fw_faceTable s) (fw_lastFaceId s) (fw_regions s) hopLimit
    policy (fw_csFace s) (fw_counters s) (fw_rng s) (fw_sent s).
Definition set_fw_counters (x : ForwarderCounters) s : Forwarder :=
  mkForwarder (fw_tables s) (fw_cs s) (fw_dnl s) (fw_faces s) (fw_faceTable s) (fw_lastFaceId s) (fw_regions s)
    (fw_defaultHopLimit s) (fw_unsolicited s) (fw_csFace s) x (fw_rng s) (fw_sent s).
Definition set_fw_rng (x : RngState) s : Forwarder :=
  mkForwarder (fw_tables s) (fw_cs s) (fw_dnl s) (fw_faces s) (fw_faceTable s) (fw_lastFaceId s) (fw_regions s)
    (fw_defaultHopLimit s) (fw_unsolicited s) (fw_csFace s) (fw_counters s) x (fw_sent s).
Definition set_fw_sent (x : list Sent) s : Forwarder :=
  mkForwarder (fw_tables s) (fw_cs s) (fw_dnl s) (fw_faces s) (fw_faceTable s) (fw_lastFaceId s) (fw_regions s)
    (fw_defaultHopLimit s) (fw_unsolicited s) (fw_csFace s) (fw_counters s) (fw_rng s) x.
End State.

Arguments Forwarder {N SC RE} P.
Arguments Sent {N}.

(** ** Helpers and outgoing pipelines *)

(** [std::set<std::pair<Face*, EndpointId>>]: in the order of addresses, then of endpoints. *)
Abbreviation Downstream := (FacePtr * Z)%type.

Definition downstream_cmp (a b : Downstream) : comparison :=
  match Pos.compare a.1 b.1 with Eq => Z.compare a.2 b.2 | c => c end.

Fixpoint ds_emplace (x : Downstream) (l : list Downstream) : list Downstream :=
  match l with
  | [] => [x]
  | y :: l' => match downstream_cmp x y with Lt => x :: l | Eq => l | Gt => y :: ds_emplace x l' end
  end.

Section Outgoing.
Context {N : NdnCxx} {NP : NdnPacket N} {SP : ScopePrefix N} {SC : Scheduler} {HI : HashedIndex} {RE : RandomEngine}
  {US : UnorderedSet} {P : Type}.
Local Abbreviation Fw := (Forwarder P).

Definition tb {A} (m : M Tables A) : M Fw A := lift fw_tables set_fw_tables m.
Definition csM {A} (m : M (Cs P) A) : M Fw A := lift fw_cs set_fw_cs m.
Definition dnlM {A} (m : M DeadNonceList A) : M Fw A := lift fw_dnl set_fw_dnl m.

(** [steady_clock::now()] *)
Definition getNow : M Fw Z := gets (λ s, t_now (fw_tables s)).

Definition derefFace (face : FacePtr) : M Fw Face := s ← get_st; someM (fw_faces s !! face).
Definition updateFace (face : FacePtr) (f : Face → Face) : M Fw unit :=
  F ← derefFace face; modify (λ s, set_fw_faces (<[face := f F]> (fw_faces s)) s).

(** [++m_counters.c], 64 bits wide *)
Definition count (c : Counter) : M Fw unit :=
  modify (λ s, set_fw_counters (λ c', if decide (c' = c) then (fw_counters s c + 1) mod 2 ^ 64 else fw_counters s c')%Z s).

Definition emit (x : Sent) : M Fw unit := modify (λ s, set_fw_sent (fw_sent s ++ [x]) s).

(** [Face::sendInterest], [sendData] and [sendNack] *)
Definition face_sendInterest (face : FacePtr) (i : Interest) : M Fw unit := F ← derefFace face; emit (SentInterest face F i).
Definition face_sendData (face : FacePtr) (d : Data) : M Fw unit := F ← derefFace face; emit (SentData face F d).
Definition face_sendNack (face : FacePtr) (n : Nack) : M Fw unit := F ← derefFace face; emit (SentNack face F n).

(** [Forwarder::setExpiryTimer]; the duration is in milliseconds. *)
Definition setExpiryTimer (pitEntry : ptr) (duration : Z) : M Fw unit :=
  let duration := Z.max duration 0 in
  pe ← tb (derefPit pitEntry);
  tb (cancelM (pe_expiryTimer pe));;
  i ← tb (scheduleM (ms duration) (PitExpiry pitEntry));
  tb (updatePit pitEntry (set_expiryTimer (Some i))).

Definition insertDeadNonceList (pitEntry : ptr) (upstream : option FacePtr) : M Fw unit :=
  pe ← tb (derefPit pitEntry);
  lifetime ← gets (λ s, dn_lifetime (fw_dnl s));
  needDnl ← (if pe_isSatisfied pe then
               assertM (0 <=? pe_dataFreshnessPeriod pe)%Z;;
               mret (i_mustBeFresh (pe_interest pe) && (ms (pe_dataFreshnessPeriod pe) <? lifetime)%Z)
             else mret true);
  if negb needDnl then mret tt
  else match upstream with
       | None => forM (pe_outRecords pe) (λ outRecord, dnlM (DeadNonceList_add (pe_name pe) (fr_lastNonce (out_rec outRecord))))
       | Some face =>
           match getOutRecord pe face with
           | Some outRecord => dnlM (DeadNonceList_add (pe_name pe) (fr_lastNonce (out_rec outRecord)))
           | None => mret tt
           end
       end.

Definition onInterestLoop (interest : Interest) (ingress : FaceEndpoint) : M Fw unit :=
  F ← derefFace (ep_face ingress);
  if decide (f_linkType F ≠ LINK_TYPE_POINT_TO_POINT) then mret tt
  else face_sendNack (ep_face ingress) (mkNack interest NACK_DUPLICATE None).

(** The assertion of [insertOrUpdateInRecord] and [insertOrUpdateOutRecord]. *)
Definition assertCanMatch (pitEntry : ptr) (interest : Interest) : M Fw unit :=
  pe ← tb (derefPit pitEntry); assertM (canMatch pe interest 0).

(** The pointer returned to an out-record is the face of the record. *)
Definition onOutgoingInterest (interest : Interest) (egress : FacePtr) (pitEntry : ptr) : M Fw (option FacePtr) :=
  F ← derefFace egress;
  if decide (i_hopLimit interest = Some 0%Z ∧ f_scope F = FACE_SCOPE_NON_LOCAL) then
    updateFace egress incr_nOutHopLimitZero;;
    mret None
  else
    now ← getNow;
    assertCanMatch pitEntry interest;;
    tb (updatePit pitEntry (insertOrUpdateOutRecord now egress interest));;
    face_sendInterest egress interest;;
    count nOutInterests;;
    mret (Some egress).

Definition onOutgoingData (data : Data) (egress : FacePtr) : M Fw bool :=
  F ← derefFace egress;
  if (f_id F =? INVALID_FACEID)%Z then mret false
  else if bool_decide (f_scope F = FACE_SCOPE_NON_LOCAL) && isPrefixOf LOCALHOST (d_name data) then mret false
  else
    face_sendData egress data;;
    count nOutData;;
    mret true.

Definition onOutgoingNack (reason : NackReason) (egress : FacePtr) (pitEntry : ptr) : M Fw bool :=
  F ← derefFace egress;
  if (f_id F =? INVALID_FACEID)%Z then mret false
  else
    pe ← tb (derefPit pitEntry);
    match getInRecord pe egress with
    | None => mret false
    | Some inRecord =>
        if decide (f_linkType F ≠ LINK_TYPE_POINT_TO_POINT) then mret false
        else
          interest ← someM (in_interest inRecord);
          tb (updatePit pitEntry (deleteInRecord egress));;
          face_sendNack egress (mkNack interest reason None);;
          count nOutNacks;;
          mret true
    end.

(** ** NetworkRegionTable and FaceTable *)

Definition isInProducerRegion (regions : list Name) (forwardingHint : list Name) : bool :=
  existsb (λ regionName, existsb (λ delegation, isPrefixOf delegation regionName) forwardingHint) regions.

Definition FaceTable_get (id : Z) : M Fw (option FacePtr) := gets (λ s, fw_faceTable s !! id).

Definition FaceTable_addImpl (face : FacePtr) (faceId : Z) : M Fw unit :=
  updateFace face (set_f_id faceId);;
  s ← get_st;
  assertM (bool_decide (fw_faceTable s !! faceId = None));; (* BOOST_VERIFY(ret.second) *)
  put_st (set_fw_faceTable (<[faceId := face]> (fw_faceTable s)) (fw_lastFaceId s) s).

Definition FaceTable_add (face : FacePtr) : M Fw unit :=
  F ← derefFace face;
  s ← get_st;
  if negb (f_id F =? INVALID_FACEID)%Z && bool_decide (is_Some (fw_faceTable s !! f_id F)) then mret tt
  else
    let faceId := ((fw_lastFaceId s + 1) mod 2 ^ 64)%Z in
    put_st (set_fw_faceTable (fw_faceTable s) faceId s);;
    assertM (FACEID_RESERVED_MAX <? faceId)%Z;;
    FaceTable_addImpl face faceId.

Definition FaceTable_addReserved (face : FacePtr) (faceId : Z) : M Fw unit :=
  F ← derefFace face;
  assertM (f_id F =? INVALID_FACEID)%Z;;
  assertM (faceId <=? FACEID_RESERVED_MAX)%Z;;
  FaceTable_addImpl face faceId.

(** [remove], with the forwarder's handler of [beforeRemove]. *)
Definition FaceTable_remove (faceId : Z) : M Fw unit :=
  s ← get_st;
  face ← someM (fw_faceTable s !! faceId);
  tb (cleanupOnFaceRemoval face);;
  modify (λ s, set_fw_faceTable (delete faceId (fw_faceTable s)) (fw_lastFaceId s) s);;
  updateFace face (set_f_id INVALID_FACEID).

(** ** class Strategy *)

Definition Strategy_setExpiryTimer := setExpiryTimer.
Definition rejectPendingInterest (pitEntry : ptr) : M Fw unit := setExpiryTimer pitEntry 0.
Definition sendNack (reason : NackReason) (egress : FacePtr) (pitEntry : ptr) : M Fw bool := onOutgoingNack reason egress pitEntry.

Definition sendInterest (interest : Interest) (egress : FacePtr) (pitEntry : ptr) : M Fw (option FacePtr) :=
  match i_pitToken interest with
  | Some _ => onOutgoingInterest (removePitToken interest) egress pitEntry
  | None => onOutgoingInterest interest egress pitEntry
  end.

(** The statements of [Strategy::sendData]; the result is [None] when control reaches
    the end of the body without a return statement. *)
Definition sendData_body (data : Data) (egress : FacePtr) (pitEntry : ptr) : M Fw (option bool) :=
  pe ← tb (derefPit pitEntry);
  assertM (matchesData (pe_interest pe) data);;
  pitToken ← match getInRecord pe egress with
             | Some inRecord => interest ← someM (in_interest inRecord); mret (i_pitToken interest)
             | None => mret None
             end;
  tb (updatePit pitEntry (deleteInRecord egress));;
  match pitToken with
  | Some _ => sent ← onOutgoingData (setDataPitToken pitToken data) egress; mret (Some sent)
  | None =>
      onOutgoingData data egress;;
      pe ← tb (derefPit pitEntry);
      (if negb (hasInRecords pe) then
         setExpiryTimer pitEntry 0;;
         tb (updatePit pitEntry (set_isSatisfied true))
       else mret tt);;
      mret None
  end.

(** Reaching the end of a function that returns [bool] is undefined behaviour, which
    is a failure here like any other: only the path with a PIT token returns. *)
Definition sendData (data : Data) (egress : FacePtr) (pitEntry : ptr) : M Fw bool :=
  result ← sendData_body data egress pitEntry;
  someM result.

Definition sendDataToAll (data : Data) (pitEntry : ptr) (inFace : FacePtr) : M Fw unit :=
  now ← getNow;
  pe ← tb (derefPit pitEntry);
  F ← derefFace inFace;
  pendingDownstreams ← (fix loop (l : list InRecord) (acc : list Downstream) : M Fw (list Downstream) :=
    match l with
    | [] => mret acc
    | inRecord :: l' =>
        if (now <? fr_expiry (in_rec inRecord))%Z then
          G ← derefFace (in_face inRecord);
          if (f_id G =? f_id F)%Z && bool_decide (f_linkType G ≠ LINK_TYPE_AD_HOC) then loop l' acc
          else loop l' (ds_emplace (in_face inRecord, 0%Z) acc)
        else loop l' acc
    end) (pe_inRecords pe) [];
  forM pendingDownstreams (λ d, sendData data d.1 pitEntry;; mret tt);;
  tb (updatePit pitEntry clearInRecords);;
  setExpiryTimer pitEntry 0;;
  tb (updatePit pitEntry (set_isSatisfied true)).

Definition sendNacks (reason : NackReason) (pitEntry : ptr) (exceptFaces : list FacePtr) : M Fw unit :=
  pe ← tb (derefPit pitEntry);
  let downstreams := filter (λ f, f ∉ exceptFaces) (remove_dups (in_face <$> pe_inRecords pe)) in
  forM (iteration_order downstreams) (λ downstream, sendNack reason downstream pitEntry;; mret tt).

(** The loop of [lookupFib] over the delegations; [found] is the last FIB entry looked up. *)
Fixpoint lookupFib_delegations (fh : list Name) (found : option (option ptr)) : M Fw (option ptr) :=
  match fh with
  | [] =>
      ref ← someM found;
      fe ← tb (derefFib ref);
      assertM (bool_decide (fe_prefix fe = []));;
      mret ref
  | delegation :: fh' =>
      ref ← tb (Fib_findLongestPrefixMatch delegation);
      fe ← tb (derefFib ref);
      if hasNextHops fe then mret ref
      else
        assertM (bool_decide (fe_prefix fe = []));;
        lookupFib_delegations fh' (Some ref)
  end.

Definition lookupFib (pitEntry : ptr) : M Fw (option ptr) :=
  pe ← tb (derefPit pitEntry);
  let fh := i_forwardingHint (pe_interest pe) in
  match fh with
  | [] => tb (Fib_findLongestPrefixMatch_pit pitEntry)
  | _ =>
      s ← get_st;
      assertM (negb (isInProducerRegion (fw_regions s) fh));;
      lookupFib_delegations fh None
  end.

(** The virtual member functions that the pipelines call. *)
Record StrategyOps := mkStrategyOps {
  so_afterReceiveInterest : Interest → FaceEndpoint → ptr → M Fw unit;
  so_afterReceiveLoopedInterest : FaceEndpoint → Interest → ptr → M Fw unit;
  so_beforeSatisfyInterest : Data → FaceEndpoint → ptr → M Fw unit;
  so_satisfyInterest : ptr → FaceEndpoint → Data → list Downstream → M Fw (list Downstream * list Downstream);
  so_afterContentStoreHit : Data → FaceEndpoint → ptr → M Fw unit;
  so_afterReceiveNack : Nack → FaceEndpoint → ptr → M Fw unit;
  so_onDroppedInterest : Interest → FacePtr → M Fw unit;
  so_afterNewNextHop : NextHop → ptr → M Fw unit;
}.

(** The implementations of the base class. *)
Definition base_afterReceiveLoopedInterest (ingress : FaceEndpoint) (interest : Interest) (pitEntry : ptr) : M Fw unit := mret tt.
Definition base_beforeSatisfyInterest (data : Data) (ingress : FaceEndpoint) (pitEntry : ptr) : M Fw unit := mret tt.

(** The set of satisfied downstreams is extended; [unsatisfiedDownstreams] stays
    empty.  [beforeSatisfyInterest] is the virtual function of the strategy. *)
Definition base_satisfyInterest (beforeSatisfyInterest : Data → FaceEndpoint → ptr → M Fw unit)
  (pitEntry : ptr) (ingress : FaceEndpoint) (data : Data) (satisfiedDownstreams : list Downstream)
  : M Fw (list Downstream * list Downstream) :=
  now ← getNow;
  pe ← tb (derefPit pitEntry);
  let satisfiedDownstreams := foldl (λ acc inRecord,
    if (now <? fr_expiry (in_rec inRecord))%Z then ds_emplace (in_face inRecord, 0%Z) acc else acc)
    satisfiedDownstreams (pe_inRecords pe) in
  beforeSatisfyInterest data ingress pitEntry;;
  mret (satisfiedDownstreams, []).

Definition base_afterContentStoreHit (data : Data) (ingress : FaceEndpoint) (pitEntry : ptr) : M Fw unit :=
  sendData data (ep_face ingress) pitEntry;; mret tt.

Definition base_afterReceiveData (beforeSatisfyInterest : Data → FaceEndpoint → ptr → M Fw unit)
  (data : Data) (ingress : FaceEndpoint) (pitEntry : ptr) : M Fw unit :=
  beforeSatisfyInterest data ingress pitEntry;;
  sendDataToAll data pitEntry (ep_face ingress).

Definition base_afterReceiveNack (nack : Nack) (ingress : FaceEndpoint) (pitEntry : ptr) : M Fw unit := mret tt.
Definition base_onDroppedInterest (interest : Interest) (egress : FacePtr) : M Fw unit := mret tt.
Definition base_afterNewNextHop (nextHop : NextHop) (pitEntry : ptr) : M Fw unit := mret tt.
End Outgoing.
