(* ===== verification/Strategies.v ===== *)
(** * The strategies

    [src/daemon/fw/best-route-strategy.cpp], [multicast-strategy.cpp],
    [random-strategy.cpp] and [process-nack-traits.cpp].  The functions a class
    does not override are those of the base class. *)

From Stdlib Require Import ZArith Lia.
From stdpp Require Import base gmap option list.
From S2P Require Import Prelude Scheduler CityHash Ndn FibEntry PitEntry NameTreeEntry Hashtable NameTree.
From S2P Require Import NameTreeIterator Tables Fib Pit Measurements StrategyChoice Cleanup Cs DeadNonceList.
From S2P Require Import Algorithm FwState.

(** The names returned by [getStrategyName]. *)
Class StrategyNames (N : NdnCxx) := {
  BestRoute_getStrategyName : Name;
  Multicast_getStrategyName : Name;
  Random_getStrategyName : Name;
}.

#[export] Instance NatStrategyNames : StrategyNames NatNdn := {|
  BestRoute_getStrategyName := [111; 113; 114; 201; 1005];
  Multicast_getStrategyName := [111; 113; 114; 202; 1004];
  Random_getStrategyName := [111; 113; 114; 203; 1001];
|}%nat.

Section Strategies.
Context {N : NdnCxx} {NP : NdnPacket N} {SP : ScopePrefix N} {SC : Scheduler} {HI : HashedIndex} {RE : RandomEngine}
  {US : UnorderedSet} {SN : StrategyNames N} {P : Type}.
Local Abbreviation Fw := (Forwarder P).

(** The constructors: a strategy takes no parameters and one version.  Strategy
    names end in a version, so [makeInstanceName] succeeds. *)
Definition newStrategy (strategyName name : Name) : Created :=
  let parsed := parseInstanceName name in
  if decide (pin_parameters parsed ≠ []) then InvalidArgument
  else if match pin_version parsed, last strategyName with
          | Some v, Some c => negb (v =? toVersion c)%Z
          | _, _ => false
          end
  then InvalidArgument
  else match makeInstanceName name strategyName with
       | Some instanceName => Instance (mkStrategy instanceName strategyName)
       | None => InvalidArgument
       end.

Definition newBestRouteStrategy (name : Name) : Created := newStrategy BestRoute_getStrategyName name.
Definition newMulticastStrategy (name : Name) : Created := newStrategy Multicast_getStrategyName name.
Definition newRandomStrategy (name : Name) : Created := newStrategy Random_getStrategyName name.

(** ** ProcessNackTraits *)

(** The loop over the out-records: how many have no Nack, the last of their
    faces, and the least severe reason. *)
Definition processNack_scan (outRecords : list OutRecord) : nat * option FacePtr * NackReason :=
  foldl (λ '(n, face, reason) outR,
    match out_incomingNack outR with
    | None => (S n, Some (out_face outR), reason)
    | Some inNack => (n, face, if isLessSevere inNack reason then inNack else reason)
    end) (0, None, NACK_NONE) outRecords.

Definition processNack (nack : Nack) (inFace : FacePtr) (pitEntry : ptr) : M Fw unit :=
  pe ← tb (derefPit pitEntry);
  let '(nOutRecordsNotNacked, lastFaceNotNacked, leastSevereReason) := processNack_scan (pe_outRecords pe) in
  bidirectional ← (if decide (nOutRecordsNotNacked = 1) then
                     face ← someM lastFaceNotNacked;
                     mret (_ ← getInRecord pe face; Some face)
                   else mret None);
  match bidirectional with
  | Some face => sendNack leastSevereReason face pitEntry;; mret tt
  | None =>
      if decide (0 < nOutRecordsNotNacked) then mret tt
      else sendNacks leastSevereReason pitEntry []
  end.

(** ** BestRouteStrategy *)

(** 10 ms, 2.0f and 250 ms *)
Definition retxSuppression : RetxSuppressionExponential := mkRetx 10000 (Flt 1 1) 250000.

Definition noRoute (ingress : FaceEndpoint) (pitEntry : ptr) : M Fw unit :=
  sendNack NACK_NO_ROUTE (ep_face ingress) pitEntry;;
  rejectPendingInterest pitEntry.

Definition BestRoute_afterReceiveInterest (interest : Interest) (ingress : FaceEndpoint) (pitEntry : ptr) : M Fw unit :=
  now ← getNow;
  pe ← tb (derefPit pitEntry);
  decision ← someM (decidePerPitEntry retxSuppression now pe);
  let '(suppression, pe') := decision in
  tb (updatePit pitEntry (λ _, pe'));;
  if decide (suppression = RETX_SUPPRESS) then mret tt
  else
    ref ← lookupFib pitEntry;
    fibEntry ← tb (derefFib ref);
    let nexthops := fe_nextHops fibEntry in
    inFace ← derefFace (ep_face ingress);
    faces ← gets fw_faces;
    if decide (suppression = RETX_NEW) then
      it ← someM (find_if (λ nexthop, isNextHopEligible faces inFace interest nexthop pe' false TIME_MIN) nexthops);
      match it with
      | None => noRoute ingress pitEntry
      | Some nexthop => sendInterest interest (nh_face nexthop) pitEntry;; mret tt
      end
    else
      it ← someM (find_if (λ nexthop, isNextHopEligible faces inFace interest nexthop pe' true now) nexthops);
      match it with
      | Some nexthop => sendInterest interest (nh_face nexthop) pitEntry;; mret tt
      | None =>
          it ← someM (findEligibleNextHopWithEarliestOutRecord faces inFace interest nexthops pe');
          match it with
          | None => mret tt
          | Some nexthop => sendInterest interest (nh_face nexthop) pitEntry;; mret tt
          end
      end.

Definition BestRoute_afterReceiveNack (nack : Nack) (ingress : FaceEndpoint) (pitEntry : ptr) : M Fw unit :=
  processNack nack (ep_face ingress) pitEntry.

Definition BestRouteStrategy : StrategyOps :=
  mkStrategyOps (P := P) BestRoute_afterReceiveInterest base_afterReceiveLoopedInterest base_beforeSatisfyInterest
    (base_satisfyInterest base_beforeSatisfyInterest) base_afterContentStoreHit BestRoute_afterReceiveNack
    base_onDroppedInterest base_afterNewNextHop.

(** ** MulticastStrategy *)

(** The body of the loop over the nexthops. *)
Definition Multicast_forwardTo (interest : Interest) (ingress : FaceEndpoint) (pitEntry : ptr) (nexthop : NextHop) : M Fw unit :=
  let outFace := nh_face nexthop in
  now ← getNow;
  pe ← tb (derefPit pitEntry);
  let '(suppressResult, pe') := decidePerUpstream retxSuppression now pe outFace in
  tb (updatePit pitEntry (λ _, pe'));;
  if decide (suppressResult = RETX_SUPPRESS) then mret tt
  else
    inFace ← derefFace (ep_face ingress);
    faces ← gets fw_faces;
    eligible ← someM (isNextHopEligible faces inFace interest nexthop pe' false TIME_MIN);
    if negb eligible then mret tt
    else
      sentOutRecord ← sendInterest interest outFace pitEntry;
      match sentOutRecord with
      | Some face =>
          if decide (suppressResult = RETX_FORWARD)
          then tb (updatePit pitEntry (updateOutRecord face (incrementIntervalForOutRecord retxSuppression)))
          else mret tt
      | None => mret tt
      end.

Definition Multicast_afterReceiveInterest (interest : Interest) (ingress : FaceEndpoint) (pitEntry : ptr) : M Fw unit :=
  ref ← lookupFib pitEntry;
  fibEntry ← tb (derefFib ref);
  forM (fe_nextHops fibEntry) (Multicast_forwardTo interest ingress pitEntry).

(** The loop stops at the first in-record from which the nexthop is eligible. *)
Fixpoint Multicast_newNextHop_loop (nextHop : NextHop) (pitEntry : ptr) (inRecords : list InRecord) : M Fw unit :=
  match inRecords with
  | [] => mret tt
  | r :: inRecords' =>
      inFace ← derefFace (in_face r);
      faces ← gets fw_faces;
      pe ← tb (derefPit pitEntry);
      eligible ← someM (isNextHopEligible faces inFace (pe_interest pe) nextHop pe false TIME_MIN);
      if eligible : bool then sendInterest (pe_interest pe) (nh_face nextHop) pitEntry;; mret tt
      else Multicast_newNextHop_loop nextHop pitEntry inRecords'
  end.

Definition Multicast_afterNewNextHop (nextHop : NextHop) (pitEntry : ptr) : M Fw unit :=
  derefFace (nh_face nextHop);;
  pe ← tb (derefPit pitEntry);
  Multicast_newNextHop_loop nextHop pitEntry (pe_inRecords pe).

Definition MulticastStrategy : StrategyOps :=
  mkStrategyOps (P := P) Multicast_afterReceiveInterest base_afterReceiveLoopedInterest base_beforeSatisfyInterest
    (base_satisfyInterest base_beforeSatisfyInterest) base_afterContentStoreHit base_afterReceiveNack
    base_onDroppedInterest Multicast_afterNewNextHop.

(** ** RandomStrategy *)

(** [std::copy_if] with a predicate that may fail *)
Fixpoint copy_if {A} (pred : A → option bool) (l : list A) : option (list A) :=
  match l with
  | [] => Some []
  | x :: l' => b ← pred x; r ← copy_if pred l'; Some (if b : bool then x :: r else r)
  end.

Definition shuffleM {A} (l : list A) : M Fw (list A) :=
  s ← get_st;
  let '(l', rng) := shuffle l (fw_rng s) in
  put_st (set_fw_rng rng s);;
  mret l'.

Definition Random_afterReceiveInterest (interest : Interest) (ingress : FaceEndpoint) (pitEntry : ptr) : M Fw unit :=
  ref ← lookupFib pitEntry;
  fibEntry ← tb (derefFib ref);
  inFace ← derefFace (ep_face ingress);
  faces ← gets fw_faces;
  pe ← tb (derefPit pitEntry);
  nhs ← someM (copy_if (λ nh, isNextHopEligible faces inFace interest nh pe false TIME_MIN) (fe_nextHops fibEntry));
  match nhs with
  | [] => noRoute ingress pitEntry
  | _ =>
      shuffled ← shuffleM nhs;
      front ← someM (head shuffled);
      sendInterest interest (nh_face front) pitEntry;;
      mret tt
  end.

Definition Random_afterReceiveNack (nack : Nack) (ingress : FaceEndpoint) (pitEntry : ptr) : M Fw unit :=
  processNack nack (ep_face ingress) pitEntry.

Definition RandomStrategy : StrategyOps :=
  mkStrategyOps (P := P) Random_afterReceiveInterest base_afterReceiveLoopedInterest base_beforeSatisfyInterest
    (base_satisfyInterest base_beforeSatisfyInterest) base_afterContentStoreHit Random_afterReceiveNack
    base_onDroppedInterest base_afterNewNextHop.
(** Virtual dispatch among the modelled strategies. *)
Definition standardStrategies (strategy : Strategy) : StrategyOps (P := P) :=
  if decide (st_class strategy = BestRoute_getStrategyName) then BestRouteStrategy
  else if decide (st_class strategy = Multicast_getStrategyName) then MulticastStrategy
  else RandomStrategy.
End Strategies.
