(* ===== verification/Forwarder.v ===== *)
(** * The forwarding pipelines

    [src/daemon/fw/forwarder.cpp].  The strategies are objects reached through
    the Strategy Choice table; [strategyOps] gives the virtual functions of an
    instance.  An Interest is an object shared between the face that received it,
    the PIT entry created for it and the in-record it updates. *)

From Stdlib Require Import ZArith Lia String.
From stdpp Require Import base gmap option strings list.
From S2P Require Import Prelude Scheduler CityHash Ndn FibEntry PitEntry NameTreeEntry Hashtable NameTree.
From S2P Require Import NameTreeIterator Tables Fib Pit Measurements StrategyChoice Cleanup Cs DeadNonceList.
From S2P Require Import Algorithm FwState Strategies.

Section Forwarder.
Context {N : NdnCxx} {NP : NdnPacket N} {SP : ScopePrefix N} {SC : Scheduler} {HI : HashedIndex} {RE : RandomEngine}
  {US : UnorderedSet} {SN : StrategyNames N} {P : Type} {Pol : Policy P} (strategyOps : Strategy → StrategyOps (P := P)).
Local Abbreviation Fw := (Forwarder P).

(** [m_strategyChoice.findEffectiveStrategy(...)] *)
Definition effectiveStrategy_pit (pitEntry : ptr) : M Fw StrategyOps :=
  r ← tb (findEffectiveStrategy_pit pitEntry); mret (strategyOps r.2).
Definition effectiveStrategy (name : Name) : M Fw StrategyOps :=
  r ← tb (findEffectiveStrategy name); mret (strategyOps r.2).

(** ** Interests *)

(** [isOwn]: the PIT entry was created for this very Interest object, which is
    also the Interest of the entry. *)
Definition onContentStoreMiss (interest : Interest) (ingress : FaceEndpoint) (pitEntry : ptr) (isOwn : bool) : M Fw unit :=
  count nCsMisses;;
  defaultHopLimit ← gets fw_defaultHopLimit;
  interest ← (if (0 <? defaultHopLimit)%Z && bool_decide (i_hopLimit interest = None) then
                let interest := setHopLimit (Some defaultHopLimit) interest in
                (if isOwn then tb (updatePit pitEntry (set_interest interest)) else mret tt);;
                mret interest
              else mret interest);
  now ← getNow;
  assertCanMatch pitEntry interest;;
  tb (updatePit pitEntry (insertOrUpdateInRecord now (ep_face ingress) interest));;
  pe ← tb (derefPit pitEntry);
  lastExpiring ← someM (max_element (λ a b, (fr_expiry (in_rec a) <? fr_expiry (in_rec b))%Z) (pe_inRecords pe));
  setExpiryTimer pitEntry ((fr_expiry (in_rec lastExpiring) - now) ÷ 1000000)%Z;;
  match i_nextHopFaceId interest with
  | Some nextHopTag =>
      nextHopFace ← FaceTable_get nextHopTag;
      match nextHopFace with
      | Some face => onOutgoingInterest interest face pitEntry;; mret tt
      | None => mret tt
      end
  | None =>
      strategy ← effectiveStrategy_pit pitEntry;
      so_afterReceiveInterest strategy interest (mkFaceEndpoint (ep_face ingress) 0) pitEntry
  end.

Definition setHitTags (interest : Interest) (e : CsEntry) : CsEntry :=
  mkCsEntry (setDataPitToken (i_pitToken interest) (setDataIncomingFaceId (Some FACEID_CONTENT_STORE) (ce_data e)))
    (ce_isUnsolicited e) (ce_freshUntil e).

(** [data] is the packet held by the Content Store entry [csEntry]; its tags are
    set in place. *)
Definition onContentStoreHit (interest : Interest) (ingress : FaceEndpoint) (pitEntry : ptr) (csEntry : ptr) : M Fw unit :=
  count nCsHits;;
  csM (modify (λ cs, set_cs_table (tupdate csEntry (setHitTags interest) (cs_table cs)) cs));;
  e ← csM (derefCs csEntry);
  let data := ce_data e in
  tb (updatePit pitEntry (set_isSatisfied true));;
  tb (updatePit pitEntry (set_dataFreshnessPeriod (d_freshnessPeriod data)));;
  setExpiryTimer pitEntry 0;;
  csFace ← gets fw_csFace;
  strategy ← effectiveStrategy_pit pitEntry;
  so_beforeSatisfyInterest strategy data (mkFaceEndpoint csFace 0) pitEntry;;
  strategy ← effectiveStrategy_pit pitEntry;
  so_afterContentStoreHit strategy data ingress pitEntry.

(** The rest of the incoming Interest pipeline, from the PIT insertion on. *)
Definition onIncomingInterest_insert (interest : Interest) (ingress : FaceEndpoint) (inFace : Face) : M Fw unit :=
  inserted ← tb (Pit_insert interest);
  pitEntry ← someM inserted.1;
  pe ← tb (derefPit pitEntry);
  let dnw := findDuplicateNonce pe (i_nonce interest) (ep_face ingress) in
  let hasDuplicateNonceInPit := negb (dnw =? DUPLICATE_NONCE_NONE)%Z in
  let hasDuplicateNonceInPit :=
    if decide (f_linkType inFace = LINK_TYPE_POINT_TO_POINT)
    then hasDuplicateNonceInPit && (Z.land dnw DUPLICATE_NONCE_IN_SAME =? 0)%Z
    else hasDuplicateNonceInPit in
  if hasDuplicateNonceInPit then
    onInterestLoop interest ingress;;
    strategy ← effectiveStrategy_pit pitEntry;
    so_afterReceiveLoopedInterest strategy ingress interest pitEntry
  else if negb (hasInRecords pe) then
    found ← csM (Cs_findImpl interest);
    match found with
    | Some csEntry => onContentStoreHit interest ingress pitEntry csEntry
    | None => onContentStoreMiss interest ingress pitEntry inserted.2
    end
  else onContentStoreMiss interest ingress pitEntry inserted.2.

Definition onIncomingInterest (interest : Interest) (ingress : FaceEndpoint) : M Fw unit :=
  inFace ← derefFace (ep_face ingress);
  let interest := setIncomingFaceId (Some (f_id inFace)) interest in
  count nInInterests;;
  if decide (i_hopLimit interest = Some 0%Z) then updateFace (ep_face ingress) incr_nInHopLimitZero
  else
    let interest := match i_hopLimit interest with
                    | Some h => setHopLimit (Some (h - 1)%Z) interest
                    | None => interest
                    end in
    if bool_decide (f_scope inFace = FACE_SCOPE_NON_LOCAL) && isPrefixOf LOCALHOST (i_name interest) then mret tt
    else
      hasDuplicateNonceInDnl ← dnlM (DeadNonceList_has (i_name interest) (i_nonce interest));
      if hasDuplicateNonceInDnl : bool then onInterestLoop interest ingress
      else
        regions ← gets fw_regions;
        let interest := if bool_decide (i_forwardingHint interest ≠ []) && isInProducerRegion regions (i_forwardingHint interest)
                        then setForwardingHint [] interest else interest in
        onIncomingInterest_insert interest ingress inFace.

Definition onInterestFinalize (pitEntry : ptr) : M Fw unit :=
  insertDeadNonceList pitEntry None;;
  pe ← tb (derefPit pitEntry);
  (if pe_isSatisfied pe then count nSatisfiedInterests else count nUnsatisfiedInterests);;
  tb (cancelM (pe_expiryTimer pe));;
  tb (Pit_erase pitEntry true).

(** The scheduler runs a due PIT timer. *)
Definition pit_fire (id : positive) : M Fw unit :=
  s ← get_st;
  ev ← someM (sched_pending (t_sched (fw_tables s)) !! id);
  tb (cancelM (Some id));;
  match ev with
  | (_, PitExpiry pitEntry) => onInterestFinalize pitEntry
  | _ => mret tt
  end.

(** ** Data *)

Definition onDataUnsolicited (data : Data) (ingress : FaceEndpoint) : M Fw unit :=
  inFace ← derefFace (ep_face ingress);
  policy ← gets fw_unsolicited;
  match decide_unsolicited policy inFace with
  | DECIDE_CACHE => csM (Cs_insert data true)
  | DECIDE_DROP => mret tt
  end;;
  count nUnsolicitedData.

(** [std::multimap::emplace]: after the elements with an equal key. *)
Fixpoint mm_emplace (k : Downstream) (x : ptr) (l : list (Downstream * ptr)) : list (Downstream * ptr) :=
  match l with
  | [] => [(k, x)]
  | y :: l' => match downstream_cmp k y.1 with Lt => (k, x) :: l | _ => y :: mm_emplace k x l' end
  end.

(** Closing an entry: the expiry timer is set to now and the entry is satisfied. *)
Definition closeEntry (pitEntry : ptr) : M Fw unit :=
  setExpiryTimer pitEntry 0;;
  tb (updatePit pitEntry (set_isSatisfied true)).

(** One round of the loop over the matching PIT entries. *)
Definition satisfyEntry (data : Data) (ingress : FaceEndpoint) (pitEntry : ptr)
  (satisfiedDownstreams : list Downstream) (unsatisfiedPitEntries : list (Downstream * ptr))
  : M Fw (list Downstream * list (Downstream * ptr)) :=
  strategy ← effectiveStrategy_pit pitEntry;
  r ← so_satisfyInterest strategy pitEntry ingress data satisfiedDownstreams;
  let '(satisfiedDownstreams, unsatisfiedDownstreams) := r in
  let unsatisfiedPitEntries := foldl (λ acc endpoint, mm_emplace endpoint pitEntry acc) unsatisfiedPitEntries unsatisfiedDownstreams in
  (if decide (unsatisfiedDownstreams = []) then closeEntry pitEntry else mret tt);;
  insertDeadNonceList pitEntry (Some (ep_face ingress));;
  tb (updatePit pitEntry (set_dataFreshnessPeriod (d_freshnessPeriod data)));;
  forM satisfiedDownstreams (λ endpoint, tb (updatePit pitEntry (deleteInRecord endpoint.1)));;
  tb (updatePit pitEntry (deleteOutRecord (ep_face ingress)));;
  mret (satisfiedDownstreams, unsatisfiedPitEntries).

Fixpoint satisfyEntries (data : Data) (ingress : FaceEndpoint) (pitMatches : list ptr)
  (satisfiedDownstreams : list Downstream) (unsatisfiedPitEntries : list (Downstream * ptr))
  : M Fw (list Downstream * list (Downstream * ptr)) :=
  match pitMatches with
  | [] => mret (satisfiedDownstreams, unsatisfiedPitEntries)
  | pitEntry :: pitMatches' =>
      r ← satisfyEntry data ingress pitEntry satisfiedDownstreams unsatisfiedPitEntries;
      satisfyEntries data ingress pitMatches' r.1 r.2
  end.

(** The loop over the entries whose strategy left a downstream unsatisfied. *)
Definition settleUnsatisfied (satisfiedDownstreams : list Downstream) (unsatisfied : Downstream * ptr) : M Fw unit :=
  if decide (unsatisfied.1 ∈ satisfiedDownstreams) then
    let pitEntry := unsatisfied.2 in
    tb (updatePit pitEntry (deleteInRecord unsatisfied.1.1));;
    pe ← tb (derefPit pitEntry);
    if negb (hasInRecords pe) then closeEntry pitEntry else mret tt
  else mret tt.

Definition deliver (data : Data) (ingress : FaceEndpoint) (downstream : Downstream) : M Fw unit :=
  F ← derefFace downstream.1;
  inFace ← derefFace (ep_face ingress);
  if (f_id F =? f_id inFace)%Z && (downstream.2 =? ep_endpoint ingress)%Z && bool_decide (f_linkType F ≠ LINK_TYPE_AD_HOC)
  then mret tt
  else onOutgoingData data downstream.1;; mret tt.

Definition onIncomingData (data : Data) (ingress : FaceEndpoint) : M Fw unit :=
  inFace ← derefFace (ep_face ingress);
  let data := setDataIncomingFaceId (Some (f_id inFace)) data in
  count nInData;;
  if bool_decide (f_scope inFace = FACE_SCOPE_NON_LOCAL) && isPrefixOf LOCALHOST (d_name data) then mret tt
  else
    s ← get_st;
    pitMatches ← someM (Pit_findAllDataMatches data (fw_tables s));
    if decide (pitMatches = []) then onDataUnsolicited data ingress
    else
      csM (Cs_insert data false);;
      r ← satisfyEntries data ingress pitMatches [] [];
      let '(satisfiedDownstreams, unsatisfiedPitEntries) := r in
      forM unsatisfiedPitEntries (settleUnsatisfied satisfiedDownstreams);;
      forM satisfiedDownstreams (deliver data ingress).

(** ** Nacks *)

Definition onIncomingNack (nack : Nack) (ingress : FaceEndpoint) : M Fw unit :=
  inFace ← derefFace (ep_face ingress);
  let nack := setNackIncomingFaceId (Some (f_id inFace)) nack in
  count nInNacks;;
  if decide (f_linkType inFace ≠ LINK_TYPE_POINT_TO_POINT) then mret tt
  else
    found ← tb (Pit_find (nack_interest nack));
    match found with
    | None => mret tt
    | Some pitEntry =>
        pe ← tb (derefPit pitEntry);
        match getOutRecord pe (ep_face ingress) with
        | None => mret tt
        | Some outRecord =>
            if negb (i_nonce (nack_interest nack) =? fr_lastNonce (out_rec outRecord))%Z then mret tt
            else
              tb (updatePit pitEntry (updateOutRecord (ep_face ingress) (λ r, (setIncomingNack nack r).1)));;
              pe ← tb (derefPit pitEntry);
              now ← getNow;
              (if negb (hasPendingOutRecords now pe) then setExpiryTimer pitEntry 0 else mret tt);;
              strategy ← effectiveStrategy_pit pitEntry;
              so_afterReceiveNack strategy nack ingress pitEntry
        end
    end.

(** ** Other events *)

Definition onDroppedInterest (interest : Interest) (egress : FacePtr) : M Fw unit :=
  strategy ← effectiveStrategy (i_name interest);
  so_onDroppedInterest strategy interest egress.

Definition newNextHopSel (prefix : Name) : EntrySubTreeSelector := λ _ nte,
  if bool_decide (is_Some (e_fibEntry nte)) && (length prefix <? length (e_name nte)) then (false, false)
  else (negb (bool_decide (e_pitEntries nte = [])), true).

(** [afterNewNextHop] changes nothing the iterator looks at, so the entries to
    visit are determined beforehand. *)
Definition onNewNextHop (prefix : Name) (nextHop : NextHop) : M Fw unit :=
  s ← get_st;
  affectedEntries ← someM (partialEnumerate prefix (newNextHopSel prefix) (t_nt (fw_tables s)));
  forM affectedEntries (λ nte,
    e ← tb (nt (derefEntry nte));
    forM (e_pitEntries e) (λ pitEntry,
      strategy ← effectiveStrategy_pit pitEntry;
      so_afterNewNextHop strategy nextHop pitEntry)).

(** [Forwarder::processConfig], a list of options; [parseNumber] is
    [ConfigFile::parseNumber<uint8_t>].  [None] is the exception. *)
Fixpoint parseForwarderConfig (parseNumber : string → option Z) (section : list (string * string)) (defaultHopLimit : Z)
  : option Z :=
  match section with
  | [] => Some defaultHopLimit
  | (key, value) :: section' =>
      if decide (key = "default_hop_limit"%string)
      then n ← parseNumber value; parseForwarderConfig parseNumber section' n
      else None
  end.

Definition processConfig (parseNumber : string → option Z) (section : list (string * string)) (isDryRun : bool) : M Fw unit :=
  config ← someM (parseForwarderConfig parseNumber section 0);
  if isDryRun then mret tt else modify (λ s, set_fw_config config (fw_unsolicited s) s).

(** The constructor, after those of the members; the signal handlers it connects
    are the pipelines. *)
Definition newForwarder (registry : Registry) (csFace : FacePtr) : M Fw unit :=
  FaceTable_addReserved csFace FACEID_CONTENT_STORE;;
  tb (setDefaultStrategy registry BestRoute_getStrategyName).
End Forwarder.
