(* ===== verification/Management.v ===== *)
(** * Management

    The modules of [src/daemon/mgmt] that work on the forwarder's tables:
    [FibManager], [CsManager], [StrategyChoiceManager], [ForwarderStatusManager]
    and [TablesConfigSection].  The command decoding and authentication of
    [ManagerBase] are not modelled: a command arrives as its validated
    parameters, with the fields that the protocol lets default filled in. *)

From Stdlib Require Import ZArith Lia String.
From stdpp Require Import base gmap option sorting strings list.
From S2P Require Import Prelude Scheduler CityHash Ndn FibEntry PitEntry NameTreeEntry Hashtable NameTree.
From S2P Require Import NameTreeIterator Tables Fib Pit Measurements StrategyChoice Cleanup Cs DeadNonceList.
From S2P Require Import Algorithm FwState Strategies Forwarder.

Section Control.
Context {N : NdnCxx}.

(** [ControlParameters], the fields the commands use; a field the protocol makes
    optional is an option. *)
Record ControlParameters := mkControlParameters {
  cp_name : Name;
  cp_faceId : Z;
  cp_cost : Z;
}.
Record CsParameters := mkCsParameters {
  csp_capacity : option Z;
  csp_count : option Z;
  csp_enableAdmit : option bool;
  csp_enableServe : option bool;
}.

(** [ControlResponse]: the code, and the body on success. *)
Record ControlResponse {B : Type} := mkControlResponse {
  cr_code : Z;
  cr_body : option B;
}.
#[global] Arguments ControlResponse : clear implicits.
End Control.
#[global] Arguments mkControlResponse {_} _ _.

(** ** FibManager *)

Section FibManager.
Context {N : NdnCxx} {NP : NdnPacket N} {SP : ScopePrefix N} {SS : StdSort} {SC : Scheduler} {HI : HashedIndex} {RE : RandomEngine}
  {P : Type} {Pol : Policy P}.
Context (strategyOps : Strategy → StrategyOps (P := P)).
Local Abbreviation Fw := (Forwarder P).

Definition setFaceForSelfRegistration (request : Interest) (parameters : ControlParameters) : M Fw ControlParameters :=
  if (cp_faceId parameters =? 0)%Z then
    incomingFaceIdTag ← someM (i_incomingFaceId request); (* BOOST_ASSERT *)
    mret (mkControlParameters (cp_name parameters) incomingFaceIdTag (cp_cost parameters))
  else mret parameters.

Definition addNextHop (interest : Interest) (parameters : ControlParameters) : M Fw (ControlResponse ControlParameters) :=
  parameters ← setFaceForSelfRegistration interest parameters;
  let prefix := cp_name parameters in
  if decide (getMaxDepth < length prefix) then mret (mkControlResponse 414 None)
  else
    face ← FaceTable_get (cp_faceId parameters);
    match face with
    | None => mret (mkControlResponse 410 None)
    | Some face =>
        r ← tb (Fib_insert prefix);
        signal ← tb (Fib_addOrUpdateNextHop r.1 face (cp_cost parameters));
        match signal with
        | Some (prefix, nextHop) => onNewNextHop strategyOps prefix nextHop (* afterNewNextHop *)
        | None => mret tt
        end;;
        mret (mkControlResponse 200 (Some parameters))
    end.

(** The response is sent before the nexthop is removed. *)
Definition removeNextHop (interest : Interest) (parameters : ControlParameters) : M Fw (ControlResponse ControlParameters) :=
  parameters ← setFaceForSelfRegistration interest parameters;
  let response := mkControlResponse 200 (Some parameters) in
  face ← FaceTable_get (cp_faceId parameters);
  match face with
  | None => mret response
  | Some face =>
      entry ← tb (Fib_findExactMatch (cp_name parameters));
      match entry with
      | None => mret response
      | Some entry => tb (Fib_removeNextHop entry face);; mret response
      end
  end.

(** The dataset: each prefix with the FaceId and cost of its nexthops. *)
Definition nextHopRecord (s : Fw) (nh : NextHop) : option (Z * Z) := F ← fw_faces s !! nh_face nh; Some (f_id F, nh_cost nh).
Definition listEntries : M Fw (list (Name * list (Z * Z))) :=
  s ← get_st;
  entries ← someM (Fib_getRange (fw_tables s));
  someM (mapM (λ entry, nexthops ← mapM (nextHopRecord s) (fe_nextHops entry); Some (fe_prefix entry, nexthops)) entries).
End FibManager.

(** ** CsManager *)

Section CsManager.
Context {N : NdnCxx} {NP : NdnPacket N} {SC : Scheduler} {RE : RandomEngine} {P : Type} {Pol : Policy P}.
Local Abbreviation Fw := (Forwarder P).

Definition ERASE_LIMIT : Z := 256.

Definition changeConfig (parameters : CsParameters) : M Fw (ControlResponse CsParameters) :=
  match csp_capacity parameters with Some capacity => csM (Policy_setLimit capacity) | None => mret tt end;;
  match csp_enableAdmit parameters with Some flag => csM (modify (enableAdmit flag)) | None => mret tt end;;
  match csp_enableServe parameters with Some flag => csM (modify (enableServe flag)) | None => mret tt end;;
  cs ← gets fw_cs;
  mret (mkControlResponse 200 (Some (mkCsParameters (Some (cs_limit cs)) None (Some (cs_shouldAdmit cs)) (Some (cs_shouldServe cs))))).

(** [Interest(name).setCanBePrefix(true)], the fields that a lookup reads. *)
Definition eraseProbe (name : Name) : Interest := mkInterest name true false [] 0 4000 None None None None.

(** The body has the number of erased entries, and the limit when it was reached
    and there are more. *)
Definition CsManager_erase (name : Name) (parameters : CsParameters) : M Fw (ControlResponse CsParameters) :=
  let count := default (2 ^ 64 - 1)%Z (csp_count parameters) in
  nErased ← csM (Cs_eraseImpl name (Z.min count ERASE_LIMIT));
  let body capacity := mkControlResponse 200 (Some (mkCsParameters capacity (Some nErased) None None)) in
  if (nErased =? ERASE_LIMIT)%Z && (ERASE_LIMIT <? count)%Z then
    found ← csM (Cs_find (eraseProbe name));
    mret (body (if found is Some _ then Some ERASE_LIMIT else None))
  else mret (body None).

Record CsInfo := mkCsInfo {
  csi_capacity : Z;
  csi_enableAdmit : bool;
  csi_enableServe : bool;
  csi_nEntries : Z;
  csi_nHits : Z;
  csi_nMisses : Z;
}.

Definition serveInfo (s : Fw) : CsInfo :=
  mkCsInfo (cs_limit (fw_cs s)) (cs_shouldAdmit (fw_cs s)) (cs_shouldServe (fw_cs s)) (cs_size (fw_cs s))
    (fw_counters s nCsHits) (fw_counters s nCsMisses).
End CsManager.

(** ** StrategyChoiceManager *)

Section StrategyChoiceManager.
Context {N : NdnCxx} {NP : NdnPacket N} {SC : Scheduler} {RE : RandomEngine} {P : Type} {Pol : Policy P} (registry : Registry).
Local Abbreviation Fw := (Forwarder P).

Definition getStatusCode (res : InsertResult) : Z :=
  match res with
  | IR_OK => 200
  | IR_NOT_REGISTERED => 404
  | IR_EXCEPTION => 409
  | IR_DEPTH_EXCEEDED => 414
  end.

(** The body is the prefix and the instance name. *)
Definition setStrategy (prefix strategy : Name) : M Fw (ControlResponse (Name * Name)) :=
  res ← tb (StrategyChoice_insert registry prefix strategy);
  match res with
  | IR_OK =>
      r ← tb (StrategyChoice_get prefix);
      instanceName ← someM r; (* BOOST_ASSERT_MSG *)
      mret (mkControlResponse 200 (Some (prefix, instanceName)))
  | _ => mret (mkControlResponse (getStatusCode res) None)
  end.

Definition unsetStrategy (prefix : Name) : M Fw (ControlResponse Name) :=
  tb (StrategyChoice_erase registry prefix);;
  mret (mkControlResponse 200 (Some prefix)).

Definition listChoices : M Fw (list (Name * Name)) :=
  s ← get_st;
  entries ← someM (StrategyChoice_getRange (fw_tables s));
  someM (mapM (λ entry, st ← sc_strategy entry; Some (sc_prefix entry, st_instanceName st)) entries).
End StrategyChoiceManager.

(** ** ForwarderStatusManager *)

Section ForwarderStatusManager.
Context {N : NdnCxx} {NP : NdnPacket N} {SC : Scheduler} {RE : RandomEngine} {P : Type} {Pol : Policy P}.
Local Abbreviation Fw := (Forwarder P).

Record ForwarderStatus := mkForwarderStatus {
  fs_nNameTreeEntries : Z;
  fs_nFibEntries : Z;
  fs_nPitEntries : Z;
  fs_nMeasurementsEntries : Z;
  fs_nCsEntries : Z;
  fs_counters : list Z;
}.

(** Without the version and the timestamps. *)
Definition collectGeneralStatus (s : Fw) : ForwarderStatus :=
  mkForwarderStatus (ht_size (t_nt (fw_tables s))) (t_fibItems (fw_tables s)) (t_pitItems (fw_tables s))
    (t_measItems (fw_tables s)) (cs_size (fw_cs s))
    (fw_counters s <$> [nInInterests; nOutInterests; nInData; nOutData; nInNacks; nOutNacks; nSatisfiedInterests; nUnsatisfiedInterests]).
End ForwarderStatusManager.

(** ** TablesConfigSection *)

Section TablesConfig.
Context {N : NdnCxx} {NP : NdnPacket N} {SC : Scheduler} {RE : RandomEngine} {P : Type} {Pol : Policy P} (registry : Registry).
Local Abbreviation Fw := (Forwarder P).

Definition DEFAULT_CS_MAX_PACKETS : Z := 65536.

(** [std::map<Name, Name>::emplace], with whether the key is new. *)
Fixpoint choices_emplace (prefix strategy : Name) (choices : list (Name * Name)) : list (Name * Name) * bool :=
  match choices with
  | [] => ([(prefix, strategy)], true)
  | c :: choices' =>
      match name_compare prefix c.1 with
      | Lt => ((prefix, strategy) :: choices, true)
      | Eq => (choices, false)
      | Gt => let '(l, isNew) := choices_emplace prefix strategy choices' in (c :: l, isNew)
      end
  end.

(** The section as pairs of names; [None] is the exception for an unknown
    strategy or a duplicate prefix. *)
Fixpoint collectChoices (section choices : list (Name * Name)) : option (list (Name * Name)) :=
  match section with
  | [] => Some choices
  | (prefix, strategy) :: section' =>
      if negb (canCreate registry strategy) then None
      else let '(choices, isNew) := choices_emplace prefix strategy choices in
           if negb isNew then None else collectChoices section' choices
  end.

Definition processStrategyChoiceSection (section : list (Name * Name)) (isDryRun : bool) : M Fw unit :=
  choices ← someM (collectChoices section []);
  if isDryRun then mret tt
  else forM choices (λ c,
    res ← tb (StrategyChoice_insert registry c.1 c.2);
    someM (match res with IR_OK => Some tt | _ => None end)).

(** [std::set<Name>::insert] *)
Fixpoint regions_insert (name : Name) (regions : list Name) : list Name :=
  match regions with
  | [] => [name]
  | r :: regions' =>
      match name_compare name r with
      | Lt => name :: regions
      | Eq => regions
      | Gt => r :: regions_insert name regions'
      end
  end.

Definition processNetworkRegionSection (section : list Name) (isDryRun : bool) : M Fw unit :=
  if isDryRun then mret tt
  else modify (set_fw_regions (foldl (λ regions name, regions_insert name regions) [] section)).
End TablesConfig.
