(* ===== verification/FwInvariant.v ===== *)
(** * The invariant of the forwarder

    What holds between two events ([FwInv]), what a pipeline or a strategy
    leaves alone ([fwFrame]), and the specifications of the outgoing pipelines
    and of the member functions of the base strategy.  The rule for a strategy
    ([StrategyLaws]) is what the incoming pipelines rely on. *)

From Stdlib Require Import ZArith Lia.
From stdpp Require Import base gmap option list.
From S2P Require Import Prelude Scheduler CityHash Ndn FibEntry PitEntry NameTreeEntry Hashtable NameTree.
From S2P Require Import NameTreeIterator Tables Fib Pit Measurements StrategyChoice Cleanup Cs DeadNonceList.
From S2P Require Import Algorithm FwState Strategies Forwarder.

Abbreviation pits s := (t_pits (fw_tables s)).
Abbreviation pendingOf t := (sched_pending (t_sched t)).

Section FwInvariant.
Context {N : NdnCxx} {NL : NdnCxxLaws N} {NP : NdnPacket N} {NPL : NdnPacketLaws N NP} {SP : ScopePrefix N}
  {SC : Scheduler} {SCL : SchedulerLaws SC} {HI : HashedIndex} {HIL : HashedIndexLaws HI} {RE : RandomEngine}
  {US : UnorderedSet} {USL : UnorderedSetLaws US} {P : Type} {Pol : Policy P} {PL : PolicyLaws Pol}.
Implicit Types (s : Forwarder P) (t : Tables) (x y : ptr) (f : FacePtr) (F : Face) (pe : PitEntry) (B : gset ptr).

(** ** Definitions *)

(** A face of the face table. *)
Definition live s f : Prop := ∃ F, fw_faces s !! f = Some F ∧ fw_faceTable s !! f_id F = Some f.

(** The records of a PIT entry belong to faces of the table, and an in-record has
    an Interest with the key of the entry. *)
Record PeOk s pe : Prop := {
  po_in : ∀ r, r ∈ pe_inRecords pe → live s (in_face r) ∧ ∃ i, in_interest r = Some i ∧ matchKey pe i;
  po_out : ∀ r, r ∈ pe_outRecords pe → live s (out_face r);
  po_hint : isInProducerRegion (fw_regions s) (i_forwardingHint (pe_interest pe)) = false;
  po_fresh : (0 ≤ pe_dataFreshnessPeriod pe)%Z;
}.

(** The pending expiry event of a PIT entry. *)
Definition hasTimer t x pe : Prop := ∃ i due, pe_expiryTimer pe = Some i ∧ pendingOf t !! i = Some (due, PitExpiry x).

(** What a packet on the wire obeys: no HopLimit 0 and no /localhost Interest
    leaves the host (an application that names the nexthop face itself is exempt
    from scope control), no /localhost Data leaves the host, Nacks are sent on
    point-to-point faces only, and nothing is sent on a removed face. *)
Definition sentOk (x : Sent) : Prop :=
  match x with
  | SentInterest f F i => f_id F ≠ INVALID_FACEID ∧
      (f_scope F = FACE_SCOPE_NON_LOCAL → i_hopLimit i ≠ Some 0%Z ∧
        (i_nextHopFaceId i = None → isPrefixOf LOCALHOST (i_name i) = false))
  | SentData f F d => f_id F ≠ INVALID_FACEID ∧ (f_scope F = FACE_SCOPE_NON_LOCAL → isPrefixOf LOCALHOST (d_name d) = false)
  | SentNack f F n => f_id F ≠ INVALID_FACEID ∧ f_linkType F = LINK_TYPE_POINT_TO_POINT
  end.

(** Data as packets are: a FreshnessPeriod is not negative. *)
Definition goodData (d : Data) : Prop := plainData d ∧ (0 ≤ d_freshnessPeriod d)%Z.
Definition goodTable (tbl : CsTable) : Prop := ∀ c e, (c, e) ∈ tbl → goodData (ce_data e).

(** [B]: the PIT entries whose timer has just run, or has not been set yet. *)
Record FwInvBut B s : Prop := {
  fw_i_tables : TablesInv (fw_tables s);
  fw_i_tidy : tidy (ents (fw_tables s));
  fw_i_default : hasDefault (fw_tables s);
  fw_i_cs : CsInv (fw_cs s) ∧ goodTable (cs_table (fw_cs s));
  fw_i_dnl : DnlInv (fw_dnl s);
  fw_i_pits : ∀ x pe, pits s !! x = Some pe → isAttached pe → PeOk s pe;
  fw_i_timer : ∀ x pe, pits s !! x = Some pe → isAttached pe → x ∉ B → hasTimer (fw_tables s) x pe;
  fw_i_exempt : ∀ x pe i, pits s !! x = Some pe → isAttached pe → x ∈ B → pe_expiryTimer pe = Some i →
    pendingOf (fw_tables s) !! i = None;
  fw_i_event : ∀ i due x, pendingOf (fw_tables s) !! i = Some (due, PitExpiry x) →
    ∃ pe, pits s !! x = Some pe ∧ isAttached pe ∧ pe_expiryTimer pe = Some i;
  fw_i_fib : ∀ p n fe, fibV (fw_tables s) !! p = Some (n, fe) →
    fe_nextHops fe ≠ [] ∧ ∀ nh, nh ∈ fe_nextHops fe → live s (nh_face nh);
  fw_i_faceTable : ∀ id f, fw_faceTable s !! id = Some f → id ≠ INVALID_FACEID ∧ ∃ F, fw_faces s !! f = Some F ∧ f_id F = id;
  fw_i_lastFaceId : (FACEID_RESERVED_MAX ≤ fw_lastFaceId s)%Z ∧ ∀ id f, fw_faceTable s !! id = Some f → (id ≤ fw_lastFaceId s)%Z;
  fw_i_csFace : live s (fw_csFace s) ∧ fw_faceTable s !! FACEID_CONTENT_STORE = Some (fw_csFace s);
  fw_i_hopLimit : (0 ≤ fw_defaultHopLimit s < 256)%Z;
  fw_i_sent : Forall sentOk (fw_sent s);
}.

Definition sameFace F F' : Prop := f_id F' = f_id F ∧ f_scope F' = f_scope F ∧ f_linkType F' = f_linkType F.

Definition keepsPit pe pe' : Prop :=
  keepsKey pe pe' ∧ i_forwardingHint (pe_interest pe') = i_forwardingHint (pe_interest pe).

(** No PIT entry comes or goes or changes its key, FIB, Strategy Choice and the
    faces stay, and packets may have been sent. *)
Record fwFrame s s' : Prop := {
  ff_faces : ∀ f, option_relation sameFace (λ _, False) (λ _, False) (fw_faces s !! f) (fw_faces s' !! f);
  ff_faceTable : fw_faceTable s' = fw_faceTable s ∧ fw_lastFaceId s' = fw_lastFaceId s;
  ff_regions : fw_regions s' = fw_regions s;
  ff_csFace : fw_csFace s' = fw_csFace s;
  ff_hopLimit : fw_defaultHopLimit s' = fw_defaultHopLimit s;
  ff_fib : fibPart (fw_tables s') = fibPart (fw_tables s);
  ff_sc : scPart (fw_tables s') = scPart (fw_tables s);
  ff_now : t_now (fw_tables s') = t_now (fw_tables s);
  ff_pits : ∀ x, option_relation keepsPit (λ _, False) (λ _, False) (pits s !! x) (pits s' !! x);
  ff_sent : fw_sent s `prefix_of` fw_sent s';
}.

(** ** The frame *)

Lemma option_relation_trans {A} (R : A → A → Prop) (o1 o2 o3 : option A) :
  (∀ a b c, R a b → R b c → R a c) →
  option_relation R (λ _, False) (λ _, False) o1 o2 → option_relation R (λ _, False) (λ _, False) o2 o3 →
  option_relation R (λ _, False) (λ _, False) o1 o3.
Proof. intros HR. destruct o1, o2, o3; simpl; naive_solver. Qed.

Lemma option_relation_refl {A} (R : A → A → Prop) (o : option A) :
  (∀ a, R a a) → option_relation R (λ _, False) (λ _, False) o o.
Proof. destruct o; simpl; auto. Qed.

Lemma keepsPit_refl pe : keepsPit pe pe.
Proof. unfold keepsPit, keepsKey. tauto. Qed.

Lemma keepsPit_trans pe1 pe2 pe3 : keepsPit pe1 pe2 → keepsPit pe2 pe3 → keepsPit pe1 pe3.
Proof. unfold keepsPit, keepsKey. intros [(?&?&?&?&?) ?] [(?&?&?&?&?) ?]. split_and!; try congruence. auto. Qed.

Lemma sameFace_refl F : sameFace F F.
Proof. by repeat split. Qed.

Lemma sameFace_trans F1 F2 F3 : sameFace F1 F2 → sameFace F2 F3 → sameFace F1 F3.
Proof. unfold sameFace. intuition congruence. Qed.

Lemma fwFrame_refl s : fwFrame s s.
Proof.
  split; try done; intros ?; apply option_relation_refl; auto using keepsPit_refl, sameFace_refl.
Qed.

Lemma fwFrame_trans s1 s2 s3 : fwFrame s1 s2 → fwFrame s2 s3 → fwFrame s1 s3.
Proof.
  intros [A1 [A2 A2'] A3 A4 A5 A6 A7 A8 A9 A10] [C1 [C2 C2'] C3 C4 C5 C6 C7 C8 C9 C10]. split; try congruence.
  - intros f. eapply option_relation_trans; [apply sameFace_trans|apply A1|apply C1].
  - split; congruence.
  - intros x. eapply option_relation_trans; [apply keepsPit_trans|apply A9|apply C9].
  - by etrans.
Qed.

Lemma frame_face s s' f F : fwFrame s s' → fw_faces s !! f = Some F → ∃ F', fw_faces s' !! f = Some F' ∧ sameFace F F'.
Proof. intros Hf HF. pose proof (ff_faces _ _ Hf f) as H. rewrite HF in H. destruct (fw_faces s' !! f); [eauto|done]. Qed.

Lemma frame_pit s s' x pe : fwFrame s s' → pits s !! x = Some pe → ∃ pe', pits s' !! x = Some pe' ∧ keepsPit pe pe'.
Proof. intros Hf Hx. pose proof (ff_pits _ _ Hf x) as H. rewrite Hx in H. destruct (pits s' !! x); [eauto|done]. Qed.

Lemma keeps_attached pe pe' : keepsPit pe pe' → isAttached pe → isAttached pe'.
Proof. intros [(E & _) _]. unfold isAttached. by rewrite E. Qed.

Lemma keeps_match pe pe' i : keepsPit pe pe' → matchKey pe i → matchKey pe' i.
Proof. intros [(_ & E1 & E2 & E3 & _) _] (K1 & K2 & K3). unfold matchKey. by rewrite E1, E2, E3. Qed.

Lemma live_frame s s' f : fwFrame s s' → live s f → live s' f.
Proof.
  intros Hf (F & HF & Ht). destruct (frame_face _ _ _ _ Hf HF) as (F' & HF' & E & _). exists F'. split; [done|].
  by rewrite E, (proj1 (ff_faceTable _ _ Hf)).
Qed.

Lemma PeOk_frame s s' pe : fwFrame s s' → PeOk s pe → PeOk s' pe.
Proof.
  intros Hf [H1 H2 H3 H4]. split.
  - intros r Hr. destruct (H1 r Hr) as [? ?]. split; [by eapply live_frame|done].
  - intros r Hr. eapply live_frame; eauto.
  - by rewrite (ff_regions _ _ Hf).
  - done.
Qed.
End FwInvariant.

Abbreviation FwInv := (FwInvBut ∅).

(** The frame of a step that leaves faces and PIT entries alone. *)
Ltac frame_same :=
  split; try done; try (intros ?; cbn; apply option_relation_refl; auto using sameFace_refl, keepsPit_refl).

(** ** Elementary steps *)

Section Steps.
Context {N : NdnCxx} {NL : NdnCxxLaws N} {NP : NdnPacket N} {NPL : NdnPacketLaws N NP} {SP : ScopePrefix N}
  {SC : Scheduler} {SCL : SchedulerLaws SC} {HI : HashedIndex} {HIL : HashedIndexLaws HI} {RE : RandomEngine}
  {US : UnorderedSet} {USL : UnorderedSetLaws US} {P : Type} {Pol : Policy P} {PL : PolicyLaws Pol}.
Implicit Types (s : Forwarder P) (t : Tables) (x y : ptr) (f : FacePtr) (F : Face) (pe : PitEntry) (B : gset ptr).

(** A step that does not touch the tables. *)
Lemma FwInv_other B s s' :
  FwInvBut B s → fwFrame s s' → fw_tables s' = fw_tables s → CsInv (fw_cs s') ∧ goodTable (cs_table (fw_cs s')) →
  DnlInv (fw_dnl s') → Forall sentOk (fw_sent s') → FwInvBut B s'.
Proof.
  intros [I1 I2 I3 I4 I5 I6 I7 I8 I9 I10 I11 I12 I13 I14 I15] Hf Et Hcs Hdnl Hsent.
  assert (Hl : ∀ f, live s f → live s' f) by (intros f; by apply live_frame).
  destruct (ff_faceTable _ _ Hf) as [Eft Elast]. split; rewrite ?Et, ?Eft, ?Elast, ?(ff_csFace _ _ Hf), ?(ff_hopLimit _ _ Hf); try done.
  - intros x pe Hx Ha. eapply PeOk_frame; eauto.
  - intros p n fe Hp. destruct (I10 _ _ _ Hp) as [? Hn]. split; [done|]. intros nh Hnh. eauto.
  - intros id f Hid. destruct (I11 _ _ Hid) as (? & F & HF & E). split; [done|].
    destruct (frame_face _ _ _ _ Hf HF) as (F' & HF' & E' & _). exists F'. split; [done|]. congruence.
  - destruct I13 as [? ?]. split; [auto|done].
Qed.

Lemma goodTable_plain tbl : goodTable tbl → plainTable tbl.
Proof. intros Ht c e He. by destruct (Ht c e He). Qed.

(** A step that changes PIT entries and timers only. *)
Lemma FwInv_pits B B' s t' :
  FwInvBut B s → fwFrame s (set_fw_tables t' s) → TablesInv t' → tidy (ents t') →
  (∀ x pe, t_pits t' !! x = Some pe → isAttached pe → PeOk s pe) →
  (∀ x pe, t_pits t' !! x = Some pe → isAttached pe → x ∉ B' → hasTimer t' x pe) →
  (∀ x pe i, t_pits t' !! x = Some pe → isAttached pe → x ∈ B' → pe_expiryTimer pe = Some i → pendingOf t' !! i = None) →
  (∀ i due x, pendingOf t' !! i = Some (due, PitExpiry x) →
    ∃ pe, t_pits t' !! x = Some pe ∧ isAttached pe ∧ pe_expiryTimer pe = Some i) →
  FwInvBut B' (set_fw_tables t' s).
Proof.
  intros [I1 I2 I3 I4 I5 I6 I7 I8 I9 I10 I11 I12 I13 I14 I15] Hf Ht Htidy Hpe Htm Hex Hev. split; try done.
  - pose proof (ff_sc _ _ Hf) as E. change (scPart t' = scPart (fw_tables s)) in E. injection E as E _.
    change (hasDefault t'). unfold hasDefault. by rewrite E.
  - intros x pe Hx Ha. eapply PeOk_frame; eauto.
  - pose proof (ff_fib _ _ Hf) as E. change (fibPart t' = fibPart (fw_tables s)) in E. injection E as E _.
    change (fw_tables (set_fw_tables t' s)) with t'. by rewrite E.
Qed.

Lemma TablesInv_updatePit t x pe pe' :
  TablesInv t → t_pits t !! x = Some pe → keepsKey pe pe' → TablesInv (set_pits (<[x := pe']> (t_pits t)) t).
Proof. intros Ht Hx Hk. eapply (TablesInv_pitOnly t); [done|apply Ht|by eapply PitInv_update; [apply Ht|..]|done]. Qed.

Lemma frame_updatePit s x pe pe' :
  pits s !! x = Some pe → keepsPit pe pe' → fwFrame s (set_fw_tables (set_pits (<[x := pe']> (pits s)) (fw_tables s)) s).
Proof.
  intros Hx Hk. split; try done; intros z; cbn; [apply option_relation_refl, sameFace_refl|].
  destruct (decide (x = z)) as [<-|]; [by rewrite lookup_insert_eq, Hx|].
  rewrite lookup_insert_ne by done. apply option_relation_refl, keepsPit_refl.
Qed.

Lemma wp_tb {A} (m : M Tables A) Q s : wp (tb m) Q s ↔ wp m (λ a t, Q a (set_fw_tables t s)) (fw_tables s).
Proof. apply wp_lift. Qed.

Lemma set_fw_tables_same s : set_fw_tables (fw_tables s) s = s.
Proof. by destruct s. Qed.

Lemma wp_tb_derefPit x Q s : wp (tb (derefPit x)) Q s ↔ ∃ pe, pits s !! x = Some pe ∧ Q pe s.
Proof. rewrite wp_tb, wp_derefPit. setoid_rewrite set_fw_tables_same. done. Qed.

(** Commands on the tables that only read. *)
Lemma wp_tb_reads {A} (m : M Tables A) (R : A → Prop) Q s :
  wp m (λ a t, t = fw_tables s ∧ R a) (fw_tables s) → (∀ a, R a → Q a s) → wp (tb m) Q s.
Proof. intros Hm HQ. apply wp_tb. eapply wp_mono; [exact Hm|]. intros a t [-> Ha]. rewrite set_fw_tables_same. auto. Qed.

(** An update of a PIT entry that keeps its key, its timer and the records in order. *)
Lemma fw_updatePit B x g pe (Q : unit → Forwarder P → Prop) s :
  FwInvBut B s → pits s !! x = Some pe → isAttached pe →
  keepsPit pe (g pe) → pe_expiryTimer (g pe) = pe_expiryTimer pe → PeOk s (g pe) →
  (∀ s', s' = set_fw_tables (set_pits (<[x := g pe]> (pits s)) (fw_tables s)) s → FwInvBut B s' → fwFrame s s' →
     pits s' !! x = Some (g pe) → Q tt s') →
  wp (tb (updatePit x g)) Q s.
Proof.
  intros Hs Hx Ha Hk Et Hok HQ. apply wp_tb, wp_updatePit. exists pe. split; [done|].
  pose proof (frame_updatePit s x pe (g pe) Hx Hk) as Hf. apply HQ; [done| |done|cbn; by rewrite lookup_insert_eq].
  eapply FwInv_pits; [done|done|eapply TablesInv_updatePit; [apply Hs|done|apply Hk]|apply Hs|..]; cbn.
  - intros y pe' [[<- <-]|[_ Hy]]%lookup_insert_Some Ha'; [done|]. by eapply (fw_i_pits _ _ Hs).
  - intros y pe' [[<- <-]|[_ Hy]]%lookup_insert_Some Ha' Hb; [|by eapply (fw_i_timer _ _ Hs)].
    destruct (fw_i_timer _ _ Hs _ _ Hx Ha Hb) as (i & due & ? & ?). exists i, due. by rewrite Et.
  - intros y pe' i [[<- <-]|[_ Hy]]%lookup_insert_Some Ha' Hb Hi; [|by eapply (fw_i_exempt _ _ Hs)].
    eapply (fw_i_exempt _ _ Hs); [done..|congruence].
  - intros i due y (pe0 & Hy & Ha0 & Hi)%(fw_i_event _ _ Hs). destruct (decide (x = y)) as [<-|].
    + exists (g pe). rewrite lookup_insert_eq. simplify_eq. split; [done|]. split; [by eapply keeps_attached|congruence].
    + exists pe0. by rewrite lookup_insert_ne.
Qed.

(** *** Timers *)

Lemma TablesInv_sched t sc :
  (∀ i due p, sched_pending sc !! i = Some (due, MeasurementsCleanup p) ↔ pendingOf t !! i = Some (due, MeasurementsCleanup p)) →
  TablesInv t → TablesInv (set_sched sc t).
Proof.
  intros Hev [H1 H2 H3 [M1 M2 M3] H5]. split; [done|by apply (FibInv_part t)|by apply (PitInv_part t)| |by apply (ScInv_part t)].
  split; cbn.
  - intros p n me Hp. destruct (M1 p n me Hp) as (? & i & ? & ?). split; [done|]. exists i. split; [done|]. by apply Hev.
  - intros i due p Hi%Hev. by eapply M2.
  - done.
Qed.

Lemma timer_unique B s x pe i (due : Z) (ev : Event) :
  FwInvBut B s → pits s !! x = Some pe → isAttached pe → pe_expiryTimer pe = Some i →
  pendingOf (fw_tables s) !! i = Some (due, ev) → ev = PitExpiry x.
Proof.
  intros Hs Hx Ha Hi Hp. destruct (decide (x ∈ B)) as [Hb|Hb].
  - by rewrite (fw_i_exempt _ _ Hs _ _ _ Hx Ha Hb Hi) in Hp.
  - destruct (fw_i_timer _ _ Hs _ _ Hx Ha Hb) as (j & due' & Hj & Hp'). by simplify_eq.
Qed.

(** The timers of the other entries are as before. *)
Definition otherTimers x s s' : Prop := ∀ k due y, y ≠ x →
  pendingOf (fw_tables s') !! k = Some (due, PitExpiry y) ↔ pendingOf (fw_tables s) !! k = Some (due, PitExpiry y).

(** Replacing the timer of an entry: [sc] is the scheduler after the old event is
    cancelled and the new one scheduled. *)
Lemma replace_timer B s x pe sc i due :
  FwInvBut B s → B ⊆ {[x]} → pits s !! x = Some pe → isAttached pe → pendingOf (fw_tables s) !! i = None →
  sched_pending sc = <[i := (due, PitExpiry x)]>
    (match pe_expiryTimer pe with Some j => delete j (pendingOf (fw_tables s)) | None => pendingOf (fw_tables s) end) →
  let t' := set_pits (<[x := set_expiryTimer (Some i) pe]> (pits s)) (set_sched sc (fw_tables s)) in
  FwInv (set_fw_tables t' s) ∧ fwFrame s (set_fw_tables t' s) ∧ otherTimers x s (set_fw_tables t' s).
Proof.
  intros Hs HB Hx Ha Hi Esc t'.
  assert (Hk : keepsPit pe (set_expiryTimer (Some i) pe)) by (unfold keepsPit, keepsKey; tauto).
  assert (Hold : ∀ k due' ev, ev ≠ PitExpiry x → sched_pending sc !! k = Some (due', ev) ↔ pendingOf (fw_tables s) !! k = Some (due', ev)).
  { intros k due' ev Hev. rewrite Esc. destruct (decide (i = k)) as [<-|Hik].
    - rewrite lookup_insert_eq, Hi. split; [|done]. by intros [= _ <-].
    - rewrite lookup_insert_ne by done. destruct (pe_expiryTimer pe) as [j|] eqn:Ej; [|done].
      destruct (decide (j = k)) as [<-|]; [|by rewrite lookup_delete_ne]. rewrite lookup_delete_eq. split; [done|].
      intros Hp. by pose proof (timer_unique _ _ _ _ _ _ _ Hs Hx Ha Ej Hp). }
  assert (Hnew : ∀ k due', sched_pending sc !! k = Some (due', PitExpiry x) → k = i).
  { intros k due'. rewrite Esc. destruct (decide (i = k)) as [<-|Hik]; [done|]. rewrite lookup_insert_ne by done. intros Hp.
    assert (Hp' : pendingOf (fw_tables s) !! k = Some (due', PitExpiry x)).
    { destruct (pe_expiryTimer pe) as [j|]; [|done]. by apply lookup_delete_Some in Hp as [_ ?]. }
    destruct (fw_i_event _ _ Hs _ _ _ Hp') as (pe0 & Hx0 & _ & Ek). simplify_eq. rewrite Ek in Hp. by rewrite lookup_delete_eq in Hp. }
  assert (Hf : fwFrame s (set_fw_tables t' s)).
  { split; try done; intros z; cbn; [apply option_relation_refl, sameFace_refl|].
    destruct (decide (x = z)) as [<-|]; [by rewrite lookup_insert_eq, Hx|].
    rewrite lookup_insert_ne by done. apply option_relation_refl, keepsPit_refl. }
  split; [|split; [done|intros k due' y Hne; apply Hold; congruence]]. eapply FwInv_pits; [done|done| |apply Hs|..]; cbn.
  - eapply (TablesInv_updatePit (set_sched sc (fw_tables s))); [|done|apply Hk].
    apply TablesInv_sched; [|apply Hs]. intros k due' p. by apply Hold.
  - intros y pe' [[<- <-]|[_ Hy]]%lookup_insert_Some Ha'; [|by eapply (fw_i_pits _ _ Hs)].
    destruct (fw_i_pits _ _ Hs _ _ Hx Ha) as [? ? ? ?]. by split.
  - intros y pe' [[<- <-]|[Hne Hy]]%lookup_insert_Some Ha' _.
    + exists i, due. split; [done|]. cbn. by rewrite Esc, lookup_insert_eq.
    + destruct (fw_i_timer _ _ Hs _ _ Hy Ha' ltac:(set_solver)) as (k & due' & Hk1 & Hk2). exists k, due'.
      split; [done|]. cbn. apply Hold; [congruence|done].
  - intros y pe' k _ _ Hb. set_solver.
  - intros k due' y Hp. destruct (decide (y = x)) as [->|Hne].
    + rewrite (Hnew _ _ Hp). eexists. rewrite lookup_insert_eq. by split.
    + apply Hold in Hp; [|congruence]. destruct (fw_i_event _ _ Hs _ _ _ Hp) as (pe0 & Hy & ? & ?). exists pe0.
      by rewrite lookup_insert_ne.
Qed.

(** The entry has the one pending timer, due after the given milliseconds. *)
Lemma setExpiryTimer_spec B x pe d s :
  FwInvBut B s → B ⊆ {[x]} → pits s !! x = Some pe → isAttached pe →
  wp (setExpiryTimer x d) (λ _ s', FwInv s' ∧ fwFrame s s' ∧ s' = set_fw_tables (fw_tables s') s ∧
    ∃ i, pits s' = <[x := set_expiryTimer (Some i) pe]> (pits s) ∧
      pendingOf (fw_tables s') !! i = Some ((t_now (fw_tables s) + ms (Z.max d 0))%Z, PitExpiry x) ∧ otherTimers x s s') s.
Proof.
  intros Hs HB Hx Ha. unfold setExpiryTimer. wp_step. apply wp_tb_derefPit. exists pe. split; [done|].
  wp_step. apply wp_tb. unfold cancelM. wp_step. set (sc0 := cancel (pe_expiryTimer pe) (t_sched (fw_tables s))).
  destruct (cancel_spec (pe_expiryTimer pe) (t_sched (fw_tables s))) as [Hiss Epend]. fold sc0 in Hiss, Epend.
  wp_step. apply wp_tb, wp_scheduleM. cbn. intros sc i Hi Esc. rewrite Epend in Esc.
  apply wp_tb, wp_updatePit. exists pe. split; [done|]. cbn.
  assert (Hnone : pendingOf (fw_tables s) !! i = None).
  { apply eq_None_not_Some. intros Hsome. apply Hi, Hiss. by apply pending_issued. }
  destruct (replace_timer B s x pe sc i _ Hs HB Hx Ha Hnone Esc) as (H1 & H2 & H3).
  split; [exact H1|]. split; [exact H2|]. split; [done|]. exists i. split; [done|]. split; [by rewrite Esc, lookup_insert_eq|exact H3].
Qed.

(** *** Faces, counters and sending *)

Lemma wp_derefFace f Q s : wp (derefFace f) Q s ↔ ∃ F, fw_faces s !! f = Some F ∧ Q F s.
Proof. unfold derefFace. rewrite wp_bind, wp_get_st, wp_someM. done. Qed.

Lemma live_id B s f F : FwInvBut B s → live s f → fw_faces s !! f = Some F → f_id F ≠ INVALID_FACEID.
Proof. intros Hs (F' & HF' & Ht) HF. simplify_eq. by destruct (fw_i_faceTable _ _ Hs _ _ Ht). Qed.

Lemma fw_updateFace B f g F s :
  FwInvBut B s → fw_faces s !! f = Some F → sameFace F (g F) →
  wp (updateFace f g) (λ _ s', FwInvBut B s' ∧ fwFrame s s' ∧ s' = set_fw_faces (<[f := g F]> (fw_faces s)) s) s.
Proof.
  intros Hs HF Hg. unfold updateFace. wp_step. apply wp_derefFace. exists F. split; [done|]. wp_step.
  assert (Hf : fwFrame s (set_fw_faces (<[f := g F]> (fw_faces s)) s)).
  { split; try done; intros z; cbn; [|apply option_relation_refl, keepsPit_refl].
    destruct (decide (f = z)) as [<-|]; [by rewrite lookup_insert_eq, HF|].
    rewrite lookup_insert_ne by done. apply option_relation_refl, sameFace_refl. }
  split; [|done]. eapply FwInv_other; [done|done|done|..]; apply Hs.
Qed.

(** A change of the counters, the random engine or the packets sent. *)
Lemma fw_count B c s :
  FwInvBut B s → wp (count c) (λ _ s', FwInvBut B s' ∧ fwFrame s s' ∧ ∃ c', s' = set_fw_counters c' s) s.
Proof.
  intros Hs. unfold count. wp_step. set (s' := set_fw_counters _ s).
  assert (Hf : fwFrame s s') by frame_same. split; [|split; [done|by eexists]].
  eapply FwInv_other; [done|done|done|apply Hs|apply Hs|apply Hs].
Qed.

Lemma fw_emit B (x : Sent) s :
  FwInvBut B s → sentOk x → wp (emit x) (λ _ s', FwInvBut B s' ∧ fwFrame s s' ∧ s' = set_fw_sent (fw_sent s ++ [x]) s) s.
Proof.
  intros Hs Hx. unfold emit. wp_step.
  assert (Hf : fwFrame s (set_fw_sent (fw_sent s ++ [x]) s)) by (frame_same; by eexists).
  split; [|done]. eapply FwInv_other; [done|done|done|apply Hs|apply Hs|].
  apply Forall_app. split; [apply Hs|by constructor].
Qed.

Lemma set_fw_tables_twice s t t' : set_fw_tables t (set_fw_tables t' s) = set_fw_tables t s.
Proof. done. Qed.
End Steps.

(** ** The outgoing pipelines *)

Section Outgoing.
Context {N : NdnCxx} {NL : NdnCxxLaws N} {NP : NdnPacket N} {NPL : NdnPacketLaws N NP} {SP : ScopePrefix N}
  {SC : Scheduler} {SCL : SchedulerLaws SC} {HI : HashedIndex} {HIL : HashedIndexLaws HI} {RE : RandomEngine}
  {US : UnorderedSet} {USL : UnorderedSetLaws US} {P : Type} {Pol : Policy P} {PL : PolicyLaws Pol}.
Implicit Types (s : Forwarder P) (t : Tables) (x y : ptr) (f : FacePtr) (F : Face) (pe : PitEntry) (B : gset ptr) (i : Interest).

(** The tables, the Content Store and the Dead Nonce List are the same. *)
Definition sameStores s s' : Prop := fw_tables s' = fw_tables s ∧ fw_cs s' = fw_cs s ∧ fw_dnl s' = fw_dnl s.

Lemma onInterestLoop_spec B i ingress F s :
  FwInvBut B s → live s (ep_face ingress) → fw_faces s !! ep_face ingress = Some F →
  wp (onInterestLoop i ingress) (λ _ s', FwInvBut B s' ∧ fwFrame s s' ∧ sameStores s s' ∧
    fw_sent s' = fw_sent s ++ (if decide (f_linkType F = LINK_TYPE_POINT_TO_POINT)
                               then [SentNack (ep_face ingress) F (mkNack i NACK_DUPLICATE None)] else [])) s.
Proof.
  intros Hs Hl HF. unfold onInterestLoop. wp_step. apply wp_derefFace. exists F. split; [done|].
  destruct (decide (f_linkType F = LINK_TYPE_POINT_TO_POINT)) as [Hp2p|Hn].
  - rewrite decide_False by tauto. unfold face_sendNack. wp_step. apply wp_derefFace. exists F. split; [done|].
    eapply wp_mono; [apply fw_emit; [done|]|].
    + split; [exact (live_id _ _ _ _ Hs Hl HF)|done].
    + intros [] s' (H1 & H2 & ->). done.
  - rewrite decide_True by done. wp_step. rewrite app_nil_r. split; [done|]. split; [apply fwFrame_refl|done].
Qed.

Definition scopeOk F i : Prop :=
  f_scope F = FACE_SCOPE_NON_LOCAL → i_nextHopFaceId i = None → isPrefixOf LOCALHOST (i_name i) = false.

Lemma PeOk_out s pe i f now : PeOk s pe → live s f → PeOk s (insertOrUpdateOutRecord now f i pe).
Proof.
  intros [H1 H2 H3 H4] Hl. pose proof (insertOrUpdateOutRecord_frame now f i pe) as E. split.
  - rewrite E. exact H1.
  - intros r [?| ->]%insertOrUpdateOutRecord_elem; [auto|done].
  - rewrite E. exact H3.
  - rewrite E. exact H4.
Qed.

Lemma PeOk_in s pe i f now : PeOk s pe → live s f → matchKey pe i → PeOk s (insertOrUpdateInRecord now f i pe).
Proof.
  intros [H1 H2 H3 H4] Hl Hk. pose proof (insertOrUpdateInRecord_frame now f i pe) as E. split.
  - intros r [Hr|[-> Hr]]%insertOrUpdateInRecord_elem; [rewrite E; by apply H1|]. split; [done|]. exists i.
    split; [done|]. by rewrite E.
  - rewrite E. exact H2.
  - rewrite E. exact H3.
  - rewrite E. exact H4.
Qed.

Lemma PeOk_deleteIn s pe f : PeOk s pe → PeOk s (deleteInRecord f pe).
Proof.
  intros [H1 H2 H3 H4]. pose proof (deleteInRecord_frame f pe) as E. split.
  - intros r Hr%deleteInRecord_elem. rewrite E. by apply H1.
  - rewrite E. exact H2.
  - rewrite E. exact H3.
  - rewrite E. exact H4.
Qed.

Lemma PeOk_deleteOut s pe f : PeOk s pe → PeOk s (deleteOutRecord f pe).
Proof.
  intros [H1 H2 H3 H4]. pose proof (deleteOutRecord_frame f pe) as E. split.
  - rewrite E. exact H1.
  - intros r Hr%deleteOutRecord_elem. by apply H2.
  - rewrite E. exact H3.
  - rewrite E. exact H4.
Qed.

(** The record operations keep what identifies an entry. *)
Lemma keeps_out now f i pe :
  keepsPit pe (insertOrUpdateOutRecord now f i pe) ∧ pe_expiryTimer (insertOrUpdateOutRecord now f i pe) = pe_expiryTimer pe.
Proof.
  pose proof (insertOrUpdateOutRecord_wf now f i pe) as Hw. rewrite (insertOrUpdateOutRecord_frame now f i pe) in *.
  unfold keepsPit, keepsKey. tauto.
Qed.

Lemma keeps_in now f i pe :
  keepsPit pe (insertOrUpdateInRecord now f i pe) ∧ pe_expiryTimer (insertOrUpdateInRecord now f i pe) = pe_expiryTimer pe.
Proof.
  pose proof (insertOrUpdateInRecord_wf now f i pe) as Hw. rewrite (insertOrUpdateInRecord_frame now f i pe) in *.
  unfold keepsPit, keepsKey. tauto.
Qed.

Lemma keeps_deleteIn f pe : keepsPit pe (deleteInRecord f pe) ∧ pe_expiryTimer (deleteInRecord f pe) = pe_expiryTimer pe.
Proof.
  pose proof (deleteInRecord_wf f pe) as Hw. rewrite (deleteInRecord_frame f pe) in *. unfold keepsPit, keepsKey. tauto.
Qed.

Lemma keeps_deleteOut f pe : keepsPit pe (deleteOutRecord f pe) ∧ pe_expiryTimer (deleteOutRecord f pe) = pe_expiryTimer pe.
Proof.
  pose proof (deleteOutRecord_wf f pe) as Hw. rewrite (deleteOutRecord_frame f pe) in *. unfold keepsPit, keepsKey. tauto.
Qed.

Lemma canMatch_key pe i : canMatch pe i 0 = true ↔ matchKey pe i.
Proof. by rewrite canMatch_spec. Qed.

Lemma onOutgoingInterest_spec B i f F x pe s :
  FwInvBut B s → pits s !! x = Some pe → isAttached pe → matchKey pe i → live s f → fw_faces s !! f = Some F → scopeOk F i →
  wp (onOutgoingInterest i f x) (λ r s', FwInvBut B s' ∧ fwFrame s s' ∧ fw_cs s' = fw_cs s ∧ fw_dnl s' = fw_dnl s ∧
    if decide (i_hopLimit i = Some 0%Z ∧ f_scope F = FACE_SCOPE_NON_LOCAL)
    then r = None ∧ fw_tables s' = fw_tables s ∧ fw_sent s' = fw_sent s ∧ fw_faces s' = <[f := incr_nOutHopLimitZero F]> (fw_faces s)
    else r = Some f ∧ fw_faces s' = fw_faces s ∧ fw_sent s' = fw_sent s ++ [SentInterest f F i] ∧
      fw_tables s' = set_pits (<[x := insertOrUpdateOutRecord (t_now (fw_tables s)) f i pe]> (pits s)) (fw_tables s)) s.
Proof.
  intros Hs Hx Ha Hk Hl HF Hsc. unfold onOutgoingInterest. wp_step. apply wp_derefFace. exists F. split; [done|].
  case_decide as Hz.
  - wp_step. eapply wp_mono; [apply (fw_updateFace B _ _ F); [done|done|by repeat split]|].
    intros [] s1 (H1 & H2 & ->). by wp_step.
  - wp_step. unfold getNow. wp_step. unfold assertCanMatch. wp_step. wp_step. apply wp_tb_derefPit. exists pe. split; [done|].
    wp_step; [by apply canMatch_key|]. wp_step.
    destruct (keeps_out (t_now (fw_tables s)) f i pe) as [Hkp Ht].
    eapply (fw_updatePit B); [done..|apply PeOk_out; [by eapply (fw_i_pits _ _ Hs)|done]|].
    intros s1 Es1 Hs1 Hf1 _. wp_step. unfold face_sendInterest. wp_step. apply wp_derefFace. exists F.
    split; [by rewrite Es1|]. eapply wp_mono; [apply fw_emit; [exact Hs1|]|].
    + split; [exact (live_id _ _ _ _ Hs Hl HF)|]. intros Hnl. split; [|by apply Hsc]. intros Hz'. by apply Hz.
    + intros [] s2 (Hs2 & Hf2 & Es2). wp_step. eapply wp_mono; [by apply fw_count|]. intros [] s3 (Hs3 & Hf3 & c3 & Es3). wp_step.
      split; [done|]. split; [exact (fwFrame_trans _ _ _ (fwFrame_trans _ _ _ Hf1 Hf2) Hf3)|]. subst. done.
Qed.

Lemma onOutgoingData_spec B d f F s :
  FwInvBut B s → live s f → fw_faces s !! f = Some F →
  wp (onOutgoingData d f) (λ r s', FwInvBut B s' ∧ fwFrame s s' ∧ sameStores s s' ∧
    if bool_decide (f_scope F = FACE_SCOPE_NON_LOCAL) && isPrefixOf LOCALHOST (d_name d)
    then r = false ∧ fw_sent s' = fw_sent s
    else r = true ∧ fw_sent s' = fw_sent s ++ [SentData f F d]) s.
Proof.
  intros Hs Hl HF. unfold onOutgoingData. wp_step. apply wp_derefFace. exists F. split; [done|].
  pose proof (live_id _ _ _ _ Hs Hl HF) as Hid. apply Z.eqb_neq in Hid as Hid'. rewrite Hid'.
  destruct (_ && _) eqn:Ev; [wp_step; split; [done|]; split; [apply fwFrame_refl|done]|].
  wp_step. unfold face_sendData. wp_step. apply wp_derefFace. exists F. split; [done|].
  eapply wp_mono; [apply fw_emit; [done|]|].
  - split; [done|]. intros Hnl. by rewrite bool_decide_eq_true_2 in Ev.
  - intros [] s1 (Hs1 & Hf1 & ->). wp_step. eapply wp_mono; [by apply fw_count|]. intros [] s2 (Hs2 & Hf2 & c2 & ->). wp_step.
    split; [done|]. split; [exact (fwFrame_trans _ _ _ Hf1 Hf2)|done].
Qed.

Lemma onOutgoingNack_spec B reason f F x pe s :
  FwInvBut B s → pits s !! x = Some pe → isAttached pe → live s f → fw_faces s !! f = Some F →
  wp (onOutgoingNack reason f x) (λ r s', FwInvBut B s' ∧ fwFrame s s' ∧ fw_cs s' = fw_cs s ∧ fw_dnl s' = fw_dnl s ∧
    fw_faces s' = fw_faces s ∧
    match getInRecord pe f with
    | Some rec => if decide (f_linkType F = LINK_TYPE_POINT_TO_POINT) then
        ∃ i, in_interest rec = Some i ∧ r = true ∧ fw_sent s' = fw_sent s ++ [SentNack f F (mkNack i reason None)] ∧
          fw_tables s' = set_pits (<[x := deleteInRecord f pe]> (pits s)) (fw_tables s)
        else s' = s ∧ r = false
    | None => s' = s ∧ r = false
    end) s.
Proof.
  intros Hs Hx Ha Hl HF. unfold onOutgoingNack. wp_step. apply wp_derefFace. exists F. split; [done|].
  pose proof (live_id _ _ _ _ Hs Hl HF) as Hid. apply Z.eqb_neq in Hid as Hid'. rewrite Hid'.
  wp_step. apply wp_tb_derefPit. exists pe. split; [done|].
  assert (Hno : FwInvBut B s ∧ fwFrame s s ∧ fw_cs s = fw_cs s ∧ fw_dnl s = fw_dnl s ∧ fw_faces s = fw_faces s)
    by (split; [done|split; [apply fwFrame_refl|done]]).
  destruct (getInRecord pe f) as [rec|] eqn:Hr; [|wp_step; tauto].
  case_decide as Hp; case_decide as Hp2; try done; [wp_step; tauto|].
  destruct (fw_i_pits _ _ Hs _ _ Hx Ha) as [Hin _ _ _]. pose proof (kfind_Some_elem in_face f _ _ Hr) as [Hel _].
  destruct (Hin _ Hel) as (_ & i & Hi & _). wp_step. wp_step; [exact Hi|]. wp_step. destruct (keeps_deleteIn f pe) as [Hk Ht].
  eapply (fw_updatePit B); [done..|apply PeOk_deleteIn; by eapply (fw_i_pits _ _ Hs)|].
  intros s1 Es1 Hs1 Hf1 _. wp_step. unfold face_sendNack. wp_step. apply wp_derefFace. exists F. split; [by rewrite Es1|].
  eapply wp_mono; [by apply fw_emit|]. intros [] s2 (Hs2 & Hf2 & Es2). wp_step.
  eapply wp_mono; [by apply fw_count|]. intros [] s3 (Hs3 & Hf3 & c3 & Es3). wp_step.
  split; [done|]. split; [exact (fwFrame_trans _ _ _ (fwFrame_trans _ _ _ Hf1 Hf2) Hf3)|].
  do 3 (split; [by subst|]). exists i. by subst.
Qed.

(** ** The member functions of class Strategy *)

Lemma sendInterest_eq i f x : sendInterest i f x = onOutgoingInterest (P := P) (removePitToken i) f x.
Proof. unfold sendInterest. destruct i as [? ? ? ? ? ? ? ? ? [tok|]]; done. Qed.

Lemma matchKey_token pe i : matchKey pe i → matchKey pe (removePitToken i).
Proof. done. Qed.

(** The Data as it is sent to a downstream: with the PIT token of its Interest. *)
Definition dataFor pe f (d : Data) : Data :=
  match getInRecord pe f with
  | Some r => match in_interest r with
              | Some i => match i_pitToken i with Some _ => setDataPitToken (i_pitToken i) d | None => d end
              | None => d
              end
  | None => d
  end.

Definition sentData F f (d : Data) : list Sent :=
  if bool_decide (f_scope F = FACE_SCOPE_NON_LOCAL) && isPrefixOf LOCALHOST (d_name d) then [] else [SentData f F d].

Lemma closeEntry_spec B x pe s :
  FwInvBut B s → B ⊆ {[x]} → pits s !! x = Some pe → isAttached pe →
  wp (setExpiryTimer x 0;; tb (updatePit x (set_isSatisfied true))) (λ _ s', FwInv s' ∧ fwFrame s s' ∧
    s' = set_fw_tables (fw_tables s') s ∧
    ∃ k, pits s' = <[x := set_isSatisfied true (set_expiryTimer (Some k) pe)]> (pits s) ∧
      pendingOf (fw_tables s') !! k = Some (t_now (fw_tables s), PitExpiry x) ∧ otherTimers x s s') s.
Proof.
  intros Hs HB Hx Ha. wp_step. eapply wp_mono; [by eapply setExpiryTimer_spec|].
  intros [] s1 (Hs1 & Hf1 & Es1 & k & Ep & Hi & Hot). assert (Hx1 : pits s1 !! x = Some (set_expiryTimer (Some k) pe)) by (by rewrite Ep, lookup_insert_eq).
  eapply (fw_updatePit ∅); [done|exact Hx1|done|unfold keepsPit, keepsKey; tauto|done| |].
  - destruct (fw_i_pits _ _ Hs1 _ _ Hx1 Ha) as [? ? ? ?]. by split.
  - intros s2 Es2 Hs2 Hf2 _. split; [done|]. split; [exact (fwFrame_trans _ _ _ Hf1 Hf2)|].
    split; [rewrite Es2, Es1; done|]. exists k. rewrite Es2. cbn. rewrite Ep, insert_insert_eq. split; [done|].
    change (Z.max 0 0) with 0%Z in Hi. unfold ms in Hi. rewrite Z.mul_0_l, Z.add_0_r in Hi. split; [exact Hi|exact Hot].
Qed.

(** The in-record is gone; the entry may have been closed. *)
Definition recordServed x f pe s s' : Prop :=
  pits s' = <[x := deleteInRecord f pe]> (pits s) ∧ pendingOf (fw_tables s') = pendingOf (fw_tables s) ∨
  ∃ k, pits s' = <[x := set_isSatisfied true (set_expiryTimer (Some k) (deleteInRecord f pe))]> (pits s) ∧
    pendingOf (fw_tables s') !! k = Some (t_now (fw_tables s), PitExpiry x).

Lemma sendData_body_spec d f F x pe s :
  FwInv s → pits s !! x = Some pe → isAttached pe → matchesData (pe_interest pe) d = true → live s f → fw_faces s !! f = Some F →
  wp (sendData_body d f x) (λ r s', (getInRecord pe f = None → r = None) ∧ FwInv s' ∧ fwFrame s s' ∧ fw_cs s' = fw_cs s ∧ fw_dnl s' = fw_dnl s ∧
    fw_sent s' = fw_sent s ++ sentData F f (dataFor pe f d) ∧
    recordServed x f pe s s') s.
Proof.
  intros Hs Hx Ha Hm Hl HF. unfold sendData_body, recordServed. wp_step. apply wp_tb_derefPit. exists pe. split; [done|]. wp_step. wp_step; [done|].
  set (tok := match getInRecord pe f with Some r => in_interest r ≫= i_pitToken | None => None end).
  wp_step. eapply (wp_mono _ (λ r s', r = tok ∧ s' = s)).
  { unfold tok. destruct (getInRecord pe f) as [r|] eqn:Hr; [|by wp_step].
    pose proof (kfind_Some_elem in_face f _ _ Hr) as [Hel _]. destruct (fw_i_pits _ _ Hs _ _ Hx Ha) as [Hin _ _ _].
    destruct (Hin _ Hel) as (_ & i & Hi & _). wp_step. wp_step; [exact Hi|]. wp_step. by rewrite Hi. }
  intros r s0 [-> ->]. wp_step. destruct (keeps_deleteIn f pe) as [Hk Ht].
  eapply (fw_updatePit ∅); [done..|apply PeOk_deleteIn; by eapply (fw_i_pits _ _ Hs)|].
  intros s1 Es1 Hs1 Hf1 Hx1. assert (HF1 : fw_faces s1 !! f = Some F) by (by rewrite Es1).
  assert (Ed : ∀ tk, tok = tk → dataFor pe f d = match tk with Some _ => setDataPitToken tk d | None => d end).
  { intros tk <-. unfold dataFor, tok. destruct (getInRecord pe f) as [r|]; [|done]. by destruct (in_interest r). }
  destruct tok as [tk|] eqn:Etok.
  - wp_step. eapply wp_mono; [by eapply onOutgoingData_spec; [..|eapply live_frame|]|].
    intros r s2 (Hs2 & Hf2 & (Et2 & Ec2 & Edn2) & Hsent). wp_step. split; [intros E; unfold tok in Etok; by rewrite E in Etok|]. split; [done|]. split; [exact (fwFrame_trans _ _ _ Hf1 Hf2)|].
    rewrite (Ed _ eq_refl), Ec2, Edn2, Et2. split; [by rewrite Es1|]. split; [by rewrite Es1|]. split.
    + unfold sentData. rewrite Es1 in Hsent. cbn in Hsent |- *. destruct (_ && _); destruct Hsent as [_ ->]; [|done].
      by rewrite app_nil_r.
    + left. by rewrite Es1.
  - wp_step. eapply wp_mono; [by eapply onOutgoingData_spec; [..|eapply live_frame|]|].
    intros r s2 (Hs2 & Hf2 & (Et2 & Ec2 & Edn2) & Hsent). wp_step. apply wp_tb_derefPit. exists (deleteInRecord f pe).
    split; [by rewrite Et2|]. rewrite (Ed _ eq_refl).
    assert (Esent : fw_sent s2 = fw_sent s ++ sentData F f d).
    { unfold sentData. rewrite Es1 in Hsent. cbn in Hsent |- *. destruct (_ && _); destruct Hsent as [_ ->]; [|done].
      by rewrite app_nil_r. }
    wp_step. destruct (negb (hasInRecords _)).
    + eapply wp_mono; [eapply (closeEntry_spec ∅); [done|set_solver|by rewrite Et2|by eapply keeps_attached]|].
      intros [] s3 (Hs3 & Hf3 & Es3 & i & Ep3 & Hi & _). wp_step. split; [done|]. split; [done|].
      split; [exact (fwFrame_trans _ _ _ (fwFrame_trans _ _ _ Hf1 Hf2) Hf3)|].
      split; [rewrite Es3; cbn; by rewrite Ec2, Es1|]. split; [rewrite Es3; cbn; by rewrite Edn2, Es1|].
      split; [by rewrite Es3|]. right. exists i. rewrite Ep3, Hi, Et2, Es1. cbn. by rewrite insert_insert_eq.
    + wp_step. wp_step. split; [done|]. split; [done|]. split; [exact (fwFrame_trans _ _ _ Hf1 Hf2)|]. rewrite Ec2, Edn2, Et2.
      split; [by rewrite Es1|]. split; [by rewrite Es1|]. split; [done|]. left. by rewrite Es1.
Qed.

(** Without an in-record of the downstream there is no PIT token, and no value to return. *)
Lemma sendData_fails d f F x pe s :
  FwInv s → pits s !! x = Some pe → isAttached pe → matchesData (pe_interest pe) d = true → live s f → fw_faces s !! f = Some F →
  getInRecord pe f = None → sendData d f x s = None.
Proof.
  intros Hs Hx Ha Hm Hl HF Hr. unfold sendData. apply (outcome_bind _ _ (λ r, r = None)). eapply wp_mono; [by eapply sendData_body_spec|].
  intros r s' [E _]. by rewrite (E Hr).
Qed.
End Outgoing.
