(* ===== verification/StrategySpecs.v ===== *)
(** * What the strategies do

    The rule every strategy follows ([StrategyLaws]), discharged by best-route,
    multicast and random, and where each of them forwards an Interest. *)

From Stdlib Require Import ZArith Lia.
From stdpp Require Import base gmap option sorting list.
From S2P Require Import Prelude Scheduler CityHash Ndn FibEntry PitEntry NameTreeEntry Hashtable NameTree.
From S2P Require Import NameTreeIterator Tables Fib Pit Measurements StrategyChoice Cleanup Cs DeadNonceList.
From S2P Require Import Algorithm FwState Strategies Forwarder FwInvariant.

Section Lookup.
Context {N : NdnCxx} {NL : NdnCxxLaws N} {NP : NdnPacket N} {NPL : NdnPacketLaws N NP} {SP : ScopePrefix N}
  {SC : Scheduler} {SCL : SchedulerLaws SC} {HI : HashedIndex} {HIL : HashedIndexLaws HI} {RE : RandomEngine}
  {US : UnorderedSet} {USL : UnorderedSetLaws US} {P : Type} {Pol : Policy P} {PL : PolicyLaws Pol}.
Implicit Types (s : Forwarder P) (x : ptr) (f : FacePtr) (F : Face) (pe : PitEntry) (i : Interest) (B : gset ptr).

(** ** lookupFib *)

(** Reference: the longest prefix match of the name of the Interest or, with a
    forwarding hint, of the first delegation that has one. *)
Definition lookupRef s pe : option (ptr * FibEntry) :=
  match i_forwardingHint (pe_interest pe) with
  | [] => lpmV (fibV (fw_tables s)) (pe_name pe)
  | fh => head (omap (lpmV (fibV (fw_tables s))) fh)
  end.

Definition routesFor s pe : list NextHop := match lookupRef s pe with Some (_, fe) => fe_nextHops fe | None => [] end.

Lemma derefFib_found B s name p fe :
  FwInvBut B s → lpmV (fibV (fw_tables s)) name = Some (p, fe) →
  wp (tb (derefFib (Some p))) (λ fe' s', s' = s ∧ fe' = fe) s ∧ fe_nextHops fe ≠ [] ∧ ∀ nh, nh ∈ fe_nextHops fe → live s (nh_face nh).
Proof.
  intros Hs Hl. apply lpmV_Some in Hl as (n & Hp & _); [|apply fibV_unique, Hs]. split; [|by eapply (fw_i_fib _ _ Hs)].
  apply fibV_lookup in Hp as (e & He & _ & Hfe). eapply (wp_tb_reads _ (λ fe', fe' = fe)); [|done].
  unfold derefFib. wp_step. apply nt_derefEntry. exists e. split; [done|]. rewrite set_nt_same. apply wp_someM. eauto.
Qed.

Lemma derefFib_none Q s : wp (tb (derefFib None)) Q s ↔ Q s_emptyEntry s.
Proof. rewrite wp_tb. cbn [derefFib]. rewrite wp_ret. by rewrite set_fw_tables_same. Qed.

Lemma lookupRef_lpm s pe r : lookupRef s pe = Some r → ∃ name, lpmV (fibV (fw_tables s)) name = Some r.
Proof.
  unfold lookupRef. destruct (i_forwardingHint (pe_interest pe)) as [|d fh]; [eauto|]. generalize (d :: fh).
  intros l. induction l as [|d' l IH]; [done|]. cbn. destruct (lpmV _ d') eqn:E; [|done]. cbn. intros [= ->]. eauto.
Qed.

Lemma lookupFib_delegations_spec B fh found s :
  FwInvBut B s → (fh = [] → found = Some None) → (found = None ∨ found = Some None) →
  wp (lookupFib_delegations fh found) (λ r s', s' = s ∧ r = fst <$> head (omap (lpmV (fibV (fw_tables s))) fh)) s.
Proof.
  intros Hs. revert found. induction fh as [|d fh IH]; intros found Hnil Hfound; cbn [lookupFib_delegations].
  - rewrite (Hnil eq_refl). wp_step. wp_step; [done|]. wp_step. apply derefFib_none; cbv beta. wp_step. wp_step; [done|]. by wp_step.
  - wp_step. eapply (wp_tb_reads _ (λ r, r = fst <$> lpmV (fibV (fw_tables s)) d)).
    { unfold Fib_findLongestPrefixMatch. apply nt_lpm; [apply Hs|]. done. }
    intros r ->. cbn [omap list_omap]. destruct (lpmV _ d) as [[p fe]|] eqn:Hl.
    + destruct (derefFib_found _ _ _ _ _ Hs Hl) as (Hd & Hne & _). wp_step. eapply wp_mono; [exact Hd|].
      intros fe' s' [-> ->]. assert (hasNextHops fe = true) as ->; [|by wp_step]. unfold hasNextHops. by destruct (fe_nextHops fe).
    + wp_step. apply derefFib_none; cbv beta. change (hasNextHops s_emptyEntry) with false; cbv iota. wp_step. wp_step; [done|]. apply IH; auto.
Qed.

Lemma lookupFib_spec B x pe s :
  FwInvBut B s → pits s !! x = Some pe → isAttached pe →
  wp (lookupFib x) (λ r s', s' = s ∧ r = fst <$> lookupRef s pe) s.
Proof.
  intros Hs Hx Ha. unfold lookupFib, lookupRef. wp_step. apply wp_tb_derefPit. exists pe. split; [done|].
  destruct (i_forwardingHint (pe_interest pe)) as [|d fh] eqn:Eh.
  - eapply (wp_tb_reads _ (λ r, r = fst <$> lpmV (fibV (fw_tables s)) (pe_name pe))); [|done].
    unfold Fib_findLongestPrefixMatch_pit. wp_step. apply wp_derefPit. exists pe. split; [done|].
    eapply nt_lpm_pit; [apply Hs|done|done|]. done.
  - wp_step. wp_step. wp_step. wp_step.
    { destruct (fw_i_pits _ _ Hs _ _ Hx Ha) as [_ _ Hh _]. by rewrite Eh in Hh; rewrite Hh. }
    eapply lookupFib_delegations_spec; [done|done|by left].
Qed.

(** The route to use is found without a failed assertion; it is that of the
    reference, and its nexthops are faces of the table. *)
Lemma routes_spec {A} B x pe (k : FibEntry → M (Forwarder P) A) Q s :
  FwInvBut B s → pits s !! x = Some pe → isAttached pe →
  (∀ fe, fe_nextHops fe = routesFor s pe → wp (k fe) Q s) →
  wp (ref ← lookupFib x; fe ← tb (derefFib ref); k fe) Q s.
Proof.
  intros Hs Hx Ha HQ. wp_step. eapply wp_mono; [by eapply lookupFib_spec|]. intros r s' [-> ->]. wp_step.
  unfold routesFor in HQ. destruct (lookupRef s pe) as [[p fe]|] eqn:El.
  - destruct (lookupRef_lpm _ _ _ El) as [name Hl]. destruct (derefFib_found _ _ _ _ _ Hs Hl) as (Hd & _). eapply wp_mono; [exact Hd|]. intros fe' s' [-> ->]. by apply HQ.
  - apply derefFib_none; cbv beta. by apply HQ.
Qed.

Lemma routes_live B s pe nh : FwInvBut B s → nh ∈ routesFor s pe → live s (nh_face nh).
Proof.
  intros Hs. unfold routesFor. destruct (lookupRef s pe) as [[p fe]|] eqn:El; [|by intros ?%elem_of_nil].
  destruct (lookupRef_lpm _ _ _ El) as [name Hl]. by destruct (derefFib_found _ _ _ _ _ Hs Hl) as (_ & _ & ?); auto.
Qed.

(** One route per face, in increasing order of cost. *)
Lemma routes_wf B s pe :
  FwInvBut B s → NoDup (nh_face <$> routesFor s pe) ∧ StronglySorted (key_le nh_cost) (routesFor s pe).
Proof.
  intros Hs. unfold routesFor. destruct (lookupRef s pe) as [[p fe]|] eqn:El; [|split; constructor].
  destruct (lookupRef_lpm _ _ _ El) as [name Hl]. apply lpmV_Some in Hl as (n & Hp & _); [|apply fibV_unique, Hs].
  by destruct (fi_entry _ (tbi_fib _ (fw_i_tables _ _ Hs)) _ _ _ Hp) as [_ ?].
Qed.
End Lookup.

(** ** The rule for strategies *)

(** A strategy keeps the invariant of the forwarder and its frame; it may only
    answer faces that are in the table.  Nothing is asked of Content Store hits, which
    the base class does not survive. *)
Class StrategyLaws {N : NdnCxx} {NP : NdnPacket N} {SP : ScopePrefix N} {SC : Scheduler} {RE : RandomEngine} {P : Type} {Pol : Policy P}
  {PL : PolicyLaws Pol} (st : StrategyOps (P := P)) : Prop := {
  sl_afterReceiveInterest : ∀ i ingress x pe s,
    FwInv s → pits s !! x = Some pe → isAttached pe → matchKey pe i → live s (ep_face ingress) →
    wp (so_afterReceiveInterest st i ingress x) (λ _ s', FwInv s' ∧ fwFrame s s') s;
  sl_afterReceiveLoopedInterest : ∀ ingress i x pe s,
    FwInv s → pits s !! x = Some pe → isAttached pe → matchKey pe i → live s (ep_face ingress) →
    wp (so_afterReceiveLoopedInterest st ingress i x) (λ _ s', FwInv s' ∧ fwFrame s s') s;
  sl_beforeSatisfyInterest : ∀ d ingress x pe s,
    FwInv s → pits s !! x = Some pe → isAttached pe → matchesData (pe_interest pe) d = true → live s (ep_face ingress) →
    wp (so_beforeSatisfyInterest st d ingress x) (λ _ s', FwInv s' ∧ fwFrame s s') s;
  sl_satisfyInterest : ∀ x pe ingress d satisfied s,
    FwInv s → pits s !! x = Some pe → isAttached pe → matchesData (pe_interest pe) d = true → live s (ep_face ingress) →
    (∀ ds, ds ∈ satisfied → live s ds.1) →
    wp (so_satisfyInterest st x ingress d satisfied) (λ r s', FwInv s' ∧ fwFrame s s' ∧ ∀ ds, ds ∈ r.1 → live s' ds.1) s;
  sl_afterReceiveNack : ∀ nack ingress x pe s,
    FwInv s → pits s !! x = Some pe → isAttached pe → live s (ep_face ingress) →
    wp (so_afterReceiveNack st nack ingress x) (λ _ s', FwInv s' ∧ fwFrame s s') s;
  sl_onDroppedInterest : ∀ i f s, FwInv s → live s f → wp (so_onDroppedInterest st i f) (λ _ s', FwInv s' ∧ fwFrame s s') s;
  sl_afterNewNextHop : ∀ nh x pe s,
    FwInv s → pits s !! x = Some pe → isAttached pe → live s (nh_face nh) →
    wp (so_afterNewNextHop st nh x) (λ _ s', FwInv s' ∧ fwFrame s s') s;
}.

Section Actions.
Context {N : NdnCxx} {NL : NdnCxxLaws N} {NP : NdnPacket N} {NPL : NdnPacketLaws N NP} {SP : ScopePrefix N}
  {SC : Scheduler} {SCL : SchedulerLaws SC} {HI : HashedIndex} {HIL : HashedIndexLaws HI} {RE : RandomEngine}
  {US : UnorderedSet} {USL : UnorderedSetLaws US} {P : Type} {Pol : Policy P} {PL : PolicyLaws Pol}.
Implicit Types (s : Forwarder P) (x : ptr) (f : FacePtr) (F : Face) (pe : PitEntry) (i : Interest) (B : gset ptr).

(** ** Sending *)

(** What goes out when an Interest is sent: nothing if its HopLimit is used up
    and the face is not local; the PIT token of the downstream is taken off. *)
Definition sentInterest F f i : list Sent :=
  if decide (i_hopLimit i = Some 0%Z ∧ f_scope F = FACE_SCOPE_NON_LOCAL) then [] else [SentInterest f F (removePitToken i)].

Lemma allowed_scopeOk (faces : gmap FacePtr Face) inFace i nh F :
  allowedNextHop faces inFace i nh → faces !! nh_face nh = Some F → scopeOk F (removePitToken i).
Proof.
  intros (F' & HF' & _ & Hv) HF Hnl _. simplify_eq. unfold wouldViolateScope in Hv. rewrite bool_decide_eq_false_2 in Hv by congruence.
  cbn. by destruct (isPrefixOf LOCALHOST (i_name i)).
Qed.

Lemma sendInterest_spec B i f F x pe s :
  FwInvBut B s → pits s !! x = Some pe → isAttached pe → matchKey pe i → live s f → fw_faces s !! f = Some F →
  scopeOk F (removePitToken i) →
  wp (sendInterest i f x) (λ r s', FwInvBut B s' ∧ fwFrame s s' ∧ fw_cs s' = fw_cs s ∧ fw_dnl s' = fw_dnl s ∧
    fw_sent s' = fw_sent s ++ sentInterest F f i ∧ (r = None ∨ r = Some f) ∧ (∀ g, g ≠ f → fw_faces s' !! g = fw_faces s !! g) ∧
    fw_tables s' = match r with
      | Some _ => set_pits (<[x := insertOrUpdateOutRecord (t_now (fw_tables s)) f (removePitToken i) pe]> (pits s)) (fw_tables s)
      | None => fw_tables s
      end ∧
    (r = None → i_hopLimit i = Some 0%Z ∧ f_scope F = FACE_SCOPE_NON_LOCAL)) s.
Proof.
  intros Hs Hx Ha Hk Hl HF Hsc. rewrite sendInterest_eq. eapply wp_mono; [by eapply onOutgoingInterest_spec|].
  intros r s' (H1 & H2 & H3 & H4 & Hr). do 4 (split; [done|]). unfold sentInterest. cbn in Hr.
  case_decide; destruct Hr as (-> & Hr).
  - destruct Hr as (-> & -> & ->). rewrite app_nil_r. split; [done|]. split; [by left|]. split; [|done].
    intros g Hg. by rewrite lookup_insert_ne.
  - destruct Hr as (-> & -> & ->). do 4 (split; [by auto|]). done.
Qed.

(** The Nack for one in-record. *)
Definition nackFor s pe reason f : list Sent :=
  match getInRecord pe f, fw_faces s !! f with
  | Some r, Some F =>
      if decide (f_linkType F = LINK_TYPE_POINT_TO_POINT)
      then match in_interest r with Some i => [SentNack f F (mkNack i reason None)] | None => [] end
      else []
  | _, _ => []
  end.

Lemma sendNack_spec B reason f x pe s :
  FwInvBut B s → pits s !! x = Some pe → isAttached pe → live s f →
  wp (sendNack reason f x) (λ _ s', FwInvBut B s' ∧ fwFrame s s' ∧ fw_cs s' = fw_cs s ∧ fw_dnl s' = fw_dnl s ∧ fw_faces s' = fw_faces s ∧
    fw_sent s' = fw_sent s ++ nackFor s pe reason f ∧
    ∃ pe', fw_tables s' = set_pits (<[x := pe']> (pits s)) (fw_tables s) ∧ (pe' = pe ∨ pe' = deleteInRecord f pe)) s.
Proof.
  intros Hs Hx Ha Hl. pose proof Hl as (F & HF & _). eapply wp_mono; [by eapply onOutgoingNack_spec|].
  intros r s' (H1 & H2 & H3 & H4 & H5 & Hr). do 5 (split; [done|]). unfold nackFor. rewrite HF.
  assert (Hid : fw_tables s = set_pits (<[x := pe]> (pits s)) (fw_tables s)) by (rewrite insert_id by done; by destruct (fw_tables s)).
  destruct (getInRecord pe f) as [rec|]; [|destruct Hr as [-> _]; rewrite app_nil_r; eauto].
  case_decide; [|destruct Hr as [-> _]; rewrite app_nil_r; eauto].
  destruct Hr as (i & -> & _ & -> & ->). eauto.
Qed.

Lemma sendNacks_loop B reason x pe0 l s0 s pe :
  FwInvBut B s → fwFrame s0 s → fw_faces s = fw_faces s0 → pits s !! x = Some pe → isAttached pe → PitEntry_wf pe →
  NoDup l → (∀ f, f ∈ l → live s f) → (∀ f, f ∈ l → getInRecord pe f = getInRecord pe0 f) →
  wp (forM l (λ downstream, sendNack reason downstream x;; mret tt)) (λ _ s', FwInvBut B s' ∧ fwFrame s0 s' ∧
    fw_cs s' = fw_cs s ∧ fw_dnl s' = fw_dnl s ∧ fw_sent s' = fw_sent s ++ (l ≫= nackFor s0 pe0 reason)) s.
Proof.
  revert s pe. induction l as [|f l IH]; intros s pe Hs Hf EF Hx Ha Hwf Hnd Hl Hg; cbn [forM].
  - wp_step. cbn. rewrite app_nil_r. done.
  - apply NoDup_cons in Hnd as [Hfl Hnd]. do 2 wp_step. eapply wp_mono; [eapply sendNack_spec; [done..|apply Hl; constructor]|].
    intros _ s1 (Hs1 & Hf1 & Ec & Ed & EF1 & Esent & pe' & Et & Hpe'). wp_step.
    assert (En : nackFor s pe reason f = nackFor s0 pe0 reason f).
    { unfold nackFor. rewrite EF. by rewrite (Hg f) by constructor. }
    assert (Hg' : ∀ g, g ≠ f → getInRecord pe' g = getInRecord pe g).
    { intros g Hgf. destruct Hpe' as [-> | ->]; [done|]. rewrite getInRecord_delete by apply Hwf. by rewrite decide_False. }
    eapply wp_mono; [eapply (IH s1 pe'); [done|exact (fwFrame_trans _ _ _ Hf Hf1)|congruence|rewrite Et; cbn; by rewrite lookup_insert_eq|..]|].
    + destruct Hpe' as [-> | ->]; [done|]. eapply keeps_attached; [apply keeps_deleteIn|done].
    + destruct Hpe' as [-> | ->]; [done|]. by apply deleteInRecord_wf.
    + done.
    + intros g Hgl. eapply live_frame; [done|]. apply Hl. by constructor.
    + intros g Hgl. rewrite Hg' by (by intros ->). apply Hg. by constructor.
    + intros _ s2 (Hs2 & Hf2 & Ec2 & Ed2 & Esent2). split; [done|]. split; [done|]. split; [congruence|]. split; [congruence|].
      rewrite Esent2, Esent, En. cbn. by rewrite <- (assoc_L (++)).
Qed.

Lemma PeOk_inFaces B s x pe : FwInvBut B s → pits s !! x = Some pe → isAttached pe → ∀ f, f ∈ in_face <$> pe_inRecords pe → live s f.
Proof.
  intros Hs Hx Ha f (r & -> & Hr)%list_elem_of_fmap. destruct (fw_i_pits _ _ Hs _ _ Hx Ha) as [Hin _ _ _]. by apply Hin.
Qed.

Lemma sendNacks_spec B reason x pe s :
  FwInvBut B s → pits s !! x = Some pe → isAttached pe →
  wp (sendNacks reason x []) (λ _ s', FwInvBut B s' ∧ fwFrame s s' ∧ fw_cs s' = fw_cs s ∧ fw_dnl s' = fw_dnl s ∧
    ∃ l, l ≡ₚ in_face <$> pe_inRecords pe ∧ fw_sent s' = fw_sent s ++ (l ≫= nackFor s pe reason)) s.
Proof.
  intros Hs Hx Ha. pose proof (pi_wf _ (tbi_pit _ (fw_i_tables _ _ Hs)) _ _ Hx) as Hwf.
  unfold sendNacks. wp_step. apply wp_tb_derefPit. exists pe. split; [done|].
  set (l := iteration_order _).
  assert (Hl : l ≡ₚ in_face <$> pe_inRecords pe).
  { unfold l. rewrite iteration_permutes, filter_all by (intros y _; apply not_elem_of_nil).
    apply NoDup_Permutation; [apply NoDup_remove_dups|apply Hwf|]. intros y. apply elem_of_remove_dups. }
  eapply wp_mono; [eapply (sendNacks_loop B reason x pe l s s pe); try done; [apply fwFrame_refl|rewrite Hl; apply Hwf|]|].
  - intros f. rewrite Hl. by eapply PeOk_inFaces.
  - intros _ s' (H1 & H2 & H3 & H4 & H5). eauto 10.
Qed.
End Actions.

(** ** The base class *)

Section Base.
Context {N : NdnCxx} {NL : NdnCxxLaws N} {NP : NdnPacket N} {NPL : NdnPacketLaws N NP} {SP : ScopePrefix N}
  {SC : Scheduler} {SCL : SchedulerLaws SC} {HI : HashedIndex} {HIL : HashedIndexLaws HI} {RE : RandomEngine}
  {US : UnorderedSet} {USL : UnorderedSetLaws US} {P : Type} {Pol : Policy P} {PL : PolicyLaws Pol}.
Implicit Types (s : Forwarder P) (x : ptr) (f : FacePtr) (F : Face) (pe : PitEntry) (i : Interest) (B : gset ptr).

Lemma downstream_cmp_eq (a b : Downstream) : downstream_cmp a b = Eq ↔ a = b.
Proof.
  destruct a as [a1 a2], b as [b1 b2]. unfold downstream_cmp. cbn.
  destruct (Pos.compare_spec a1 b1) as [->|?|?]; [|naive_solver lia..]. rewrite Z.compare_eq_iff. naive_solver.
Qed.

Lemma ds_emplace_elem (a b : Downstream) l : b ∈ ds_emplace a l ↔ b = a ∨ b ∈ l.
Proof.
  induction l as [|c l IH]; cbn; [set_solver|]. destruct (downstream_cmp a c) eqn:E.
  - apply downstream_cmp_eq in E as ->. set_solver.
  - set_solver.
  - rewrite !elem_of_cons, IH. naive_solver.
Qed.

(** The downstreams with an unexpired in-record. *)
Definition pendingDownstream s pe (ds : Downstream) : Prop :=
  ds.2 = 0%Z ∧ ∃ r, r ∈ pe_inRecords pe ∧ in_face r = ds.1 ∧ (t_now (fw_tables s) < fr_expiry (in_rec r))%Z.

Lemma collect_elem now (l : list InRecord) acc (ds : Downstream) :
  ds ∈ foldl (λ acc r, if (now <? fr_expiry (in_rec r))%Z then ds_emplace (in_face r, 0%Z) acc else acc) acc l ↔
  ds ∈ acc ∨ ds.2 = 0%Z ∧ ∃ r, r ∈ l ∧ in_face r = ds.1 ∧ (now < fr_expiry (in_rec r))%Z.
Proof.
  revert acc. induction l as [|r l IH]; intros acc; cbn [foldl].
  - split; [by left|]. intros [?|(_ & r & Hr & _)]; [done|by apply elem_of_nil in Hr].
  - rewrite IH. setoid_rewrite elem_of_cons. destruct (Z.ltb_spec now (fr_expiry (in_rec r))).
    + rewrite ds_emplace_elem. split.
      * intros [[->|?]|(? & r' & ? & ?)]; [right; split; [done|]; exists r; eauto|by left|right; split; [done|]; exists r'; tauto].
      * intros [?|(E & r' & [->|?] & Ef & ?)]; [by left; right| |right; split; [done|]; exists r'; tauto].
        left. left. destruct ds. cbn in *. by subst.
    + split.
      * intros [?|(? & r' & ? & ?)]; [by left|right; split; [done|]; exists r'; tauto].
      * intros [?|(E & r' & [->|?] & Ef & ?)]; [by left|lia|right; split; [done|]; exists r'; tauto].
Qed.

Lemma base_satisfyInterest_spec x pe ingress d satisfied s :
  pits s !! x = Some pe →
  wp (base_satisfyInterest base_beforeSatisfyInterest x ingress d satisfied) (λ r s', s' = s ∧ r.2 = [] ∧
    ∀ ds, ds ∈ r.1 ↔ ds ∈ satisfied ∨ pendingDownstream s pe ds) s.
Proof.
  intros Hx. unfold base_satisfyInterest, base_beforeSatisfyInterest, getNow. wp_step. wp_step. wp_step.
  apply wp_tb_derefPit. exists pe. split; [done|]. wp_step. wp_step. wp_step. split; [done|]. split; [done|].
  intros ds. apply collect_elem.
Qed.

Lemma base_satisfyInterest_live x pe ingress d satisfied s :
  FwInv s → pits s !! x = Some pe → isAttached pe → (∀ ds, ds ∈ satisfied → live s ds.1) →
  wp (base_satisfyInterest base_beforeSatisfyInterest x ingress d satisfied)
    (λ r s', FwInv s' ∧ fwFrame s s' ∧ ∀ ds, ds ∈ r.1 → live s' ds.1) s.
Proof.
  intros Hs Hx Ha Hsat. eapply wp_mono; [by eapply base_satisfyInterest_spec|]. intros r s' (-> & _ & Hr).
  split; [done|]. split; [apply fwFrame_refl|]. intros ds [Hds|(_ & rec & Hrec & <- & _)]%Hr; [auto|].
  eapply PeOk_inFaces; [done..|]. apply list_elem_of_fmap. eauto.
Qed.

Lemma noop_spec s : FwInv s → wp (mret tt) (λ _ s', FwInv s' ∧ fwFrame s s') s.
Proof. intros Hs. wp_step. by split; [|apply fwFrame_refl]. Qed.

(** *** ProcessNackTraits *)

(** The least severe of the reasons received, [NACK_NONE] when there is none. *)
Definition leastSevere (l : list OutRecord) (reason : NackReason) : Prop :=
  (∀ r nk, r ∈ l → out_incomingNack r = Some nk → nack_rank reason ≤ nack_rank nk) ∧
  (reason ≠ NACK_NONE → ∃ r, r ∈ l ∧ out_incomingNack r = Some reason).

Lemma leastSevere_nil : leastSevere [] NACK_NONE.
Proof. split; [by intros r nk ?%elem_of_nil|done]. Qed.

Lemma leastSevere_waiting l r reason : out_incomingNack r = None → leastSevere l reason → leastSevere (l ++ [r]) reason.
Proof.
  intros Hr [H1 H2]. split.
  - intros r' nk [Hr'| ->%list_elem_of_singleton]%elem_of_app Hnk; [by eapply H1|congruence].
  - intros (r' & ? & ?)%H2. exists r'. rewrite elem_of_app. auto.
Qed.

Lemma leastSevere_nacked l r nk reason : out_incomingNack r = Some nk → leastSevere l reason →
  leastSevere (l ++ [r]) (if isLessSevere nk reason then nk else reason).
Proof.
  intros Hr [H1 H2]. destruct (isLessSevere nk reason) eqn:E.
  - apply isLessSevere_spec in E. split.
    + intros r' nk' [Hr'| ->%list_elem_of_singleton]%elem_of_app Hnk; [|by simplify_eq]. specialize (H1 r' nk' Hr' Hnk). lia.
    + intros _. exists r. rewrite elem_of_app, list_elem_of_singleton. auto.
  - assert (¬ nack_rank nk < nack_rank reason) by (intros H%isLessSevere_spec; congruence). split.
    + intros r' nk' [Hr'| ->%list_elem_of_singleton]%elem_of_app Hnk; [by eapply H1|]. simplify_eq. lia.
    + intros (r' & ? & ?)%H2. exists r'. rewrite elem_of_app. auto.
Qed.

Lemma processNack_scan_spec (l : list OutRecord) :
  let '(n, face, reason) := processNack_scan l in
  n = length (filter (λ r, out_incomingNack r = None) l) ∧
  (0 < n → ∃ r, face = Some (out_face r) ∧ r ∈ l ∧ out_incomingNack r = None) ∧
  leastSevere l reason.
Proof.
  unfold processNack_scan. induction l as [|r l IH] using rev_ind; [cbn; split; [done|]; split; [lia|apply leastSevere_nil]|].
  rewrite foldl_app. destruct (foldl _ _ l) as [[n face] reason]. destruct IH as (IH1 & IH2 & IH3). cbn.
  rewrite filter_app. destruct (out_incomingNack r) as [nk|] eqn:En.
  - rewrite filter_cons_False by (by rewrite En). rewrite app_nil_r. split; [done|]. split.
    + intros Hn. destruct (IH2 Hn) as (r' & ? & ? & ?). exists r'. set_solver.
    + by apply leastSevere_nacked.
  - rewrite filter_cons_True by done. rewrite length_app. cbn. split; [lia|]. split; [intros _; exists r; set_solver|].
    by apply leastSevere_waiting.
Qed.

Lemma processNack_spec nack f x pe s :
  FwInv s → pits s !! x = Some pe → isAttached pe →
  wp (processNack nack f x) (λ _ s', FwInv s' ∧ fwFrame s s' ∧ fw_cs s' = fw_cs s ∧ fw_dnl s' = fw_dnl s ∧
    let '(n, last, reason) := processNack_scan (pe_outRecords pe) in
    match n with
    | 0 => ∃ l, l ≡ₚ in_face <$> pe_inRecords pe ∧ fw_sent s' = fw_sent s ++ (l ≫= nackFor s pe reason)
    | 1 => fw_sent s' = fw_sent s ++ from_option (nackFor s pe reason) [] last
    | _ => fw_sent s' = fw_sent s
    end) s.
Proof.
  intros Hs Hx Ha. unfold processNack. wp_step. apply wp_tb_derefPit. exists pe. split; [done|].
  pose proof (processNack_scan_spec (pe_outRecords pe)) as Hscan.
  destruct (processNack_scan (pe_outRecords pe)) as [[n last] reason]. destruct Hscan as (_ & Hlast & _).
  assert (Hsame : FwInv s ∧ fwFrame s s ∧ fw_cs s = fw_cs s ∧ fw_dnl s = fw_dnl s) by (split; [done|split; [apply fwFrame_refl|done]]).
  destruct n as [|[|n]]; wp_step.
  - rewrite decide_False by lia. wp_step. rewrite decide_False by lia. by apply sendNacks_spec.
  - rewrite decide_True by done. destruct Hlast as (r & -> & Hr & _); [lia|]. wp_step. wp_step; [done|]. wp_step.
    destruct (getInRecord pe (out_face r)) as [rec|] eqn:Hrec; cbn [mbind option_bind].
    + wp_step. eapply wp_mono; [eapply sendNack_spec; [done..|]|].
      * destruct (fw_i_pits _ _ Hs _ _ Hx Ha) as [_ Hout _ _]. by apply Hout.
      * intros _ s' (H1 & H2 & H3 & H4 & _ & H5 & _). by wp_step.
    + rewrite decide_True by lia. wp_step. cbn. unfold nackFor. rewrite Hrec, app_nil_r. tauto.
  - rewrite decide_False by lia. wp_step. rewrite decide_True by lia. wp_step. tauto.
Qed.
End Base.

(** ** Best route *)

Section BestRoute.
Context {N : NdnCxx} {NL : NdnCxxLaws N} {NP : NdnPacket N} {NPL : NdnPacketLaws N NP} {SP : ScopePrefix N}
  {SC : Scheduler} {SCL : SchedulerLaws SC} {HI : HashedIndex} {HIL : HashedIndexLaws HI} {RE : RandomEngine}
  {US : UnorderedSet} {USL : UnorderedSetLaws US} {P : Type} {Pol : Policy P} {PL : PolicyLaws Pol}.
Implicit Types (s : Forwarder P) (x : ptr) (f : FacePtr) (F : Face) (pe : PitEntry) (i : Interest) (B : gset ptr).

(** The entry expires now. *)
Definition expiresNow s x : Prop :=
  ∃ pe k, pits s !! x = Some pe ∧ pe_expiryTimer pe = Some k ∧
    pendingOf (fw_tables s) !! k = Some (t_now (fw_tables s), PitExpiry x).

Lemma noRoute_spec ingress x pe s :
  FwInv s → pits s !! x = Some pe → isAttached pe → live s (ep_face ingress) →
  wp (noRoute ingress x) (λ _ s', FwInv s' ∧ fwFrame s s' ∧ fw_cs s' = fw_cs s ∧ fw_dnl s' = fw_dnl s ∧
    fw_sent s' = fw_sent s ++ nackFor s pe NACK_NO_ROUTE (ep_face ingress) ∧ expiresNow s' x) s.
Proof.
  intros Hs Hx Ha Hl. unfold noRoute, rejectPendingInterest. wp_step. eapply wp_mono; [by eapply sendNack_spec|].
  intros _ s1 (Hs1 & Hf1 & Ec1 & Ed1 & EF1 & Esent & pe' & Et & Hpe').
  destruct (frame_pit _ _ _ _ Hf1 Hx) as (pe1 & Hx1 & Hk1).
  eapply wp_mono; [eapply (setExpiryTimer_spec ∅); [done|set_solver|exact Hx1|by eapply keeps_attached]|].
  intros [] s2 (Hs2 & Hf2 & Es2 & k & Ep & Hk & _). split; [done|]. split; [exact (fwFrame_trans _ _ _ Hf1 Hf2)|].
  split; [by rewrite Es2|]. split; [by rewrite Es2|]. split; [by rewrite Es2|].
  exists (set_expiryTimer (Some k) pe1), k. split; [by rewrite Ep, lookup_insert_eq|]. split; [done|].
  rewrite (ff_now _ _ Hf2), Hk. unfold ms. by rewrite Z.max_id, Z.mul_0_l, Z.add_0_r.
Qed.

(** The PIT entry keeps its in-records, and has an out-record of the nexthop unless the
    Interest was dropped for its HopLimit. *)
Definition recordedTo s' x pe F i (nh : NextHop) : Prop :=
  ∃ pe', pits s' !! x = Some pe' ∧ pe_inRecords pe' = pe_inRecords pe ∧
    (¬ (i_hopLimit i = Some 0%Z ∧ f_scope F = FACE_SCOPE_NON_LOCAL) → is_Some (getOutRecord pe' (nh_face nh))).

(** A nexthop chosen from the routes, what is sent to it and what is recorded. *)
Definition forwardedTo s s' x pe i (nh : NextHop) : Prop :=
  ∃ F, fw_faces s !! nh_face nh = Some F ∧ fw_sent s' = fw_sent s ++ sentInterest F (nh_face nh) i ∧ recordedTo s' x pe F i nh.

Lemma forward_spec i nh inFace x pe s :
  FwInv s → pits s !! x = Some pe → isAttached pe → matchKey pe i → nh ∈ routesFor s pe →
  allowedNextHop (fw_faces s) inFace i nh →
  wp (sendInterest i (nh_face nh) x;; mret tt) (λ _ s', FwInv s' ∧ fwFrame s s' ∧ fw_cs s' = fw_cs s ∧ fw_dnl s' = fw_dnl s ∧
    forwardedTo s s' x pe i nh) s.
Proof.
  intros Hs Hx Ha Hk Hin Hal. pose proof Hal as (F & HF & _). wp_step. pose proof (pi_wf _ (tbi_pit _ (fw_i_tables _ _ Hs)) _ _ Hx) as [_ Hwf].
  eapply wp_mono; [eapply sendInterest_spec; [done|done|done|done|by eapply routes_live|done|by eapply allowed_scopeOk]|].
  intros r s' (? & ? & ? & ? & ? & _ & _ & Et & Hr). wp_step. do 4 (split; [done|]). exists F. do 2 (split; [done|]).
  unfold recordedTo. rewrite Et. destruct r; cbn.
  - eexists. rewrite lookup_insert_eq. split; [done|]. rewrite getOutRecord_insert, decide_True by done. split; [by rewrite insertOrUpdateOutRecord_frame|eauto].
  - exists pe. split; [done|]. split; [done|]. intros Hn. by destruct Hn, Hr.
Qed.

(** Where best-route sends an Interest that arrived on [inFace]. *)
Definition bestRouteChoice s pe i inFace (r : RetxSuppressionResult) (choice : option NextHop) : Prop :=
  let allowed := allowedNextHop (fw_faces s) inFace i in
  let unused nh := ¬ usedNextHop pe (t_now (fw_tables s)) nh in
  let first (ok : NextHop → Prop) nh := ∃ l1 l2, routesFor s pe = l1 ++ nh :: l2 ∧ ok nh ∧ ∀ y, y ∈ l1 → ¬ ok y in
  match r, choice with
  | RETX_SUPPRESS, None => True
  | RETX_SUPPRESS, Some _ => False
  | RETX_NEW, Some nh => first allowed nh
  | RETX_NEW, None => ∀ nh, nh ∈ routesFor s pe → ¬ allowed nh
  | RETX_FORWARD, Some nh =>
      first (λ nh, allowed nh ∧ unused nh) nh ∨
      (∀ y, y ∈ routesFor s pe → allowed y → ¬ unused y) ∧ nh ∈ routesFor s pe ∧ allowed nh ∧
      ∃ o, getOutRecord pe (nh_face nh) = Some o ∧
        ∀ y oy, y ∈ routesFor s pe → allowed y → getOutRecord pe (nh_face y) = Some oy →
          (fr_lastRenewed (out_rec o) ≤ fr_lastRenewed (out_rec oy))%Z
  | RETX_FORWARD, None => ∀ nh, nh ∈ routesFor s pe → allowed nh →
      ∃ o, getOutRecord pe (nh_face nh) = Some o ∧ (TIME_MAX ≤ fr_lastRenewed (out_rec o))%Z
  end.

Lemma eligible_total s pe i inFace w now pe' :
  (∀ nh, nh ∈ routesFor s pe → live s (nh_face nh)) →
  ∀ nh, nh ∈ routesFor s pe → is_Some (isNextHopEligible (fw_faces s) inFace i nh pe' w now).
Proof.
  intros Hl nh Hnh. destruct (Hl nh Hnh) as (F & HF & _).
  destruct (isNextHopEligible_spec (fw_faces s) inFace i nh pe' w now F HF) as (b & -> & _). by eexists.
Qed.

Lemma eligible_true s i inFace nh pe' w now b :
  live s (nh_face nh) → isNextHopEligible (fw_faces s) inFace i nh pe' w now = Some b →
  b = true ↔ allowedNextHop (fw_faces s) inFace i nh ∧ (w = true → ¬ usedNextHop pe' now nh).
Proof.
  intros (F & HF & _). destruct (isNextHopEligible_spec (fw_faces s) inFace i nh pe' w now F HF) as (b' & -> & Hb).
  by intros [= <-].
Qed.

(** Storing the strategy information of an entry. *)
Lemma setInfo_spec {A} B x h pe (k : M (Forwarder P) A) Q s :
  FwInvBut B s → pits s !! x = Some pe → isAttached pe →
  (∀ s1, s1 = set_fw_tables (set_pits (<[x := set_info h pe]> (pits s)) (fw_tables s)) s → FwInvBut B s1 → fwFrame s s1 →
     pits s1 !! x = Some (set_info h pe) → wp k Q s1) →
  wp (tb (updatePit x (λ _, set_info h pe));; k) Q s.
Proof.
  intros Hs Hx Ha HQ. wp_step. eapply (fw_updatePit B); [done|exact Hx|done|unfold keepsPit, keepsKey; tauto|done| |exact HQ].
  destruct (fw_i_pits _ _ Hs _ _ Hx Ha) as [? ? ? ?]. by split.
Qed.

(** The choice for a new Interest. *)
Lemma bestRoute_new s pe i inFace :
  (∀ nh, nh ∈ routesFor s pe → live s (nh_face nh)) →
  ∃ choice, find_if (λ nh, isNextHopEligible (fw_faces s) inFace i nh pe false TIME_MIN) (routesFor s pe) = Some choice ∧
    bestRouteChoice s pe i inFace RETX_NEW choice.
Proof.
  intros Hl. destruct (find_if_spec _ _ (eligible_total s pe i inFace false TIME_MIN pe Hl)) as (c & -> & Hc).
  exists c. split; [done|]. destruct c as [nh|]; cbn.
  - destruct Hc as (l1 & l2 & E & Hnh & Hl1). exists l1, l2. split; [done|]. rewrite E in Hl. split.
    + eapply eligible_true in Hnh as [Hnh _]; [by apply Hnh|]. apply Hl. set_solver.
    + intros y Hy Hal. specialize (Hl1 y Hy). apply eligible_true in Hl1 as [_ Hl1]; [|apply Hl; set_solver].
      assert (false = true) by (by apply Hl1). done.
  - intros nh Hnh Hal. specialize (Hc nh Hnh). apply eligible_true in Hc as [_ Hc]; [|by apply Hl].
    assert (false = true) by (by apply Hc). done.
Qed.

(** The choice for a retransmission: an unused nexthop, or the one used earliest. *)
Lemma bestRoute_retx s pe i inFace :
  (∀ nh, nh ∈ routesFor s pe → live s (nh_face nh)) →
  ∃ c1, find_if (λ nh, isNextHopEligible (fw_faces s) inFace i nh pe true (t_now (fw_tables s))) (routesFor s pe) = Some c1 ∧
    match c1 with
    | Some nh => bestRouteChoice s pe i inFace RETX_FORWARD (Some nh)
    | None => ∃ c2, findEligibleNextHopWithEarliestOutRecord (fw_faces s) inFace i (routesFor s pe) pe = Some c2 ∧
        bestRouteChoice s pe i inFace RETX_FORWARD c2
    end.
Proof.
  intros Hl. destruct (find_if_spec _ _ (eligible_total s pe i inFace true (t_now (fw_tables s)) pe Hl)) as (c & -> & Hc).
  exists c. split; [done|]. destruct c as [nh|]; cbn.
  - destruct Hc as (l1 & l2 & E & Hnh & Hl1). left. exists l1, l2. split; [done|]. rewrite E in Hl. split.
    + eapply eligible_true in Hnh as [Hnh _]; [|apply Hl; set_solver]. destruct (Hnh eq_refl) as [? Hu]. by split; [|apply Hu].
    + intros y Hy [Hal Hu]. specialize (Hl1 y Hy). apply eligible_true in Hl1 as [_ Hl1]; [|apply Hl; set_solver].
      assert (false = true) by (by apply Hl1). done.
  - assert (Hused : ∀ nh, nh ∈ routesFor s pe → allowedNextHop (fw_faces s) inFace i nh → ¬ ¬ usedNextHop pe (t_now (fw_tables s)) nh).
    { intros nh Hnh Hal Hu. specialize (Hc nh Hnh). apply eligible_true in Hc as [_ Hc]; [|by apply Hl].
      assert (false = true) by (by apply Hc). done. }
    unfold findEligibleNextHopWithEarliestOutRecord.
    destruct (earliest_from_spec (fw_faces s) inFace i pe (routesFor s pe) None TIME_MAX) as (r & -> & Hr).
    { intros nh Hnh. destruct (Hl nh Hnh) as (F & HF & _). by eexists. }
    { intros nh Hnh Hal. specialize (Hused nh Hnh Hal). unfold usedNextHop in Hused.
      destruct (getOutRecord pe (nh_face nh)); [by eexists|]. destruct Hused. by intros (r & ? & _). }
    exists r. split; [done|]. destruct Hr as [[-> Hr]|(nh & o & -> & Hin & Hal & Ho & _ & Hr)].
    + intros nh Hnh Hal. specialize (Hused nh Hnh Hal). unfold usedNextHop in Hused.
      destruct (getOutRecord pe (nh_face nh)) as [o|] eqn:Eo; [eauto|]. destruct Hused. by intros (r & ? & _).
    + right. split; [done|]. eauto 10.
Qed.

Lemma choice_elem s pe i inFace r nh : bestRouteChoice s pe i inFace r (Some nh) → nh ∈ routesFor s pe ∧ allowedNextHop (fw_faces s) inFace i nh.
Proof.
  destruct r; cbn; [intros (l1 & l2 & -> & ? & _)|intros [(l1 & l2 & -> & [? _] & _)|(_ & ? & ? & _)]|done]; [set_solver|set_solver|done].
Qed.

Lemma earliest_info faces inFace i pe h l found t :
  earliest_from faces inFace i (set_info h pe) l found t = earliest_from faces inFace i pe l found t.
Proof.
  revert found t. induction l as [|nh l IH]; intros found t; cbn [earliest_from]; [done|].
  change (isNextHopEligible faces inFace i nh (set_info h pe) false TIME_MIN) with (isNextHopEligible faces inFace i nh pe false TIME_MIN).
  change (getOutRecord (set_info h pe) (nh_face nh)) with (getOutRecord pe (nh_face nh)).
  destruct (isNextHopEligible _ _ _ _ _ _ _) as [[|]|]; cbn; [|by rewrite IH|done].
  destruct (getOutRecord pe (nh_face nh)); cbn; [|done]. by rewrite !IH.
Qed.

(** What best-route has done for an Interest that arrived on [inFace]. *)
Definition bestRouteDone s i ingress inFace x pe s' : Prop :=
  ∃ r pe1 choice, decidePerPitEntry retxSuppression (t_now (fw_tables s)) pe = Some (r, pe1) ∧
    bestRouteChoice s pe i inFace r choice ∧
    match choice with
    | Some nh => forwardedTo s s' x pe i nh
    | None => if decide (r = RETX_NEW)
              then fw_sent s' = fw_sent s ++ nackFor s pe NACK_NO_ROUTE (ep_face ingress) ∧ expiresNow s' x
              else fw_sent s' = fw_sent s
    end.

Lemma BestRoute_spec i ingress inFace x pe s :
  FwInv s → pits s !! x = Some pe → isAttached pe → matchKey pe i → live s (ep_face ingress) →
  fw_faces s !! ep_face ingress = Some inFace →
  wp (BestRoute_afterReceiveInterest i ingress x) (λ _ s', FwInv s' ∧ fwFrame s s' ∧ fw_cs s' = fw_cs s ∧ fw_dnl s' = fw_dnl s ∧
    bestRouteDone s i ingress inFace x pe s') s.
Proof.
  intros Hs Hx Ha Hk Hl HF. unfold BestRoute_afterReceiveInterest, getNow. wp_step. wp_step. wp_step.
  apply wp_tb_derefPit. exists pe. split; [done|].
  destruct (decidePerPitEntry_spec retxSuppression (t_now (fw_tables s)) pe) as (r & pe1 & Ed & Epe1 & _).
  wp_step. wp_step; [exact Ed|]. rewrite Epe1 in Ed |- *. clear Epe1. set (h := pe_info pe1) in *. clearbody h. clear pe1.
  eapply (setInfo_spec ∅); [done..|]. intros s1 Es1 Hs1 Hf1 Hx1.
  assert (Hlive : ∀ nh, nh ∈ routesFor s pe → live s (nh_face nh)) by (intros nh; by apply (routes_live ∅)).
  assert (Efaces : fw_faces s1 = fw_faces s) by (by rewrite Es1).
  assert (Hfwd : ∀ nh, bestRouteChoice s pe i inFace r (Some nh) →
    wp (sendInterest i (nh_face nh) x;; mret tt) (λ _ s', FwInv s' ∧ fwFrame s s' ∧ fw_cs s' = fw_cs s ∧ fw_dnl s' = fw_dnl s ∧
      bestRouteDone s i ingress inFace x pe s') s1).
  { intros nh Hc. destruct (choice_elem _ _ _ _ _ _ Hc) as [Hin Hal].
    eapply wp_mono; [eapply (forward_spec i nh inFace x _ s1); [done|exact Hx1|done|done|by rewrite Es1|by rewrite Efaces]|].
    intros _ s' (H1 & H2 & H3 & H4 & F & H5 & H6 & H7). split; [done|]. split; [exact (fwFrame_trans _ _ _ Hf1 H2)|].
    rewrite H3, H4, Es1. split; [done|]. split; [done|]. exists r, (set_info h pe), (Some nh). split; [done|]. split; [done|].
    exists F. rewrite <- Efaces. split; [done|]. split; [by rewrite H6, Es1|exact H7]. }
  case_decide as Er.
  { wp_step. split; [done|]. split; [done|]. rewrite Es1. split; [done|]. split; [done|]. exists r, (set_info h pe), None.
    rewrite decide_False by (by subst). by subst r. }
  eapply (routes_spec ∅); [done|exact Hx1|done|]. intros fe Hfe.
  assert (Ero : routesFor s1 (set_info h pe) = routesFor s pe) by (by rewrite Es1). rewrite Ero in Hfe. clear Ero.
  wp_step. apply wp_derefFace. exists inFace. split; [by rewrite Efaces|]. wp_step. wp_step. rewrite Hfe, Efaces.
  case_decide as Er2.
  - subst r. destruct (bestRoute_new s pe i inFace Hlive) as (c & Hc & Hch). wp_step. wp_step; [exact Hc|].
    destruct c as [nh|]; [by apply Hfwd|]. eapply wp_mono; [by eapply noRoute_spec; [..|eapply live_frame]|].
    intros _ s' (H1 & H2 & H3 & H4 & H5 & H6). split; [done|]. split; [exact (fwFrame_trans _ _ _ Hf1 H2)|].
    rewrite H3, H4, Es1. split; [done|]. split; [done|]. exists RETX_NEW, (set_info h pe), None. split; [done|]. split; [done|].
    rewrite decide_True by done. split; [|done]. rewrite H5, Es1. done.
  - assert (r = RETX_FORWARD) as -> by (by destruct r). destruct (bestRoute_retx s pe i inFace Hlive) as (c & Hc & Hch).
    wp_step. wp_step; [exact Hc|]. destruct c as [nh|]; [by apply Hfwd|]. destruct Hch as (c2 & Hc2 & Hch).
    wp_step. unfold findEligibleNextHopWithEarliestOutRecord in Hc2 |- *. rewrite earliest_info. wp_step; [exact Hc2|]. destruct c2 as [nh|]; [by apply Hfwd|]. wp_step.
    split; [done|]. split; [done|]. rewrite Es1. split; [done|]. split; [done|]. by exists RETX_FORWARD, (set_info h pe), None.
Qed.

#[export] Instance BestRouteLaws : StrategyLaws BestRouteStrategy.
Proof.
  split.
  - intros i ingress x pe s Hs Hx Ha Hk Hl. pose proof Hl as (F & HF & _). eapply wp_mono; [by eapply BestRoute_spec|].
    intros _ s' (? & ? & _). done.
  - intros. by apply noop_spec.
  - intros. by apply noop_spec.
  - intros. by eapply base_satisfyInterest_live.
  - intros nack ingress x pe s Hs Hx Ha _. eapply wp_mono; [by eapply processNack_spec|]. intros _ s' (? & ? & _). done.
  - intros. by apply noop_spec.
  - intros. by apply noop_spec.
Qed.
End BestRoute.

(** ** Random *)

Section Random.
Context {N : NdnCxx} {NL : NdnCxxLaws N} {NP : NdnPacket N} {NPL : NdnPacketLaws N NP} {SP : ScopePrefix N}
  {SC : Scheduler} {SCL : SchedulerLaws SC} {HI : HashedIndex} {HIL : HashedIndexLaws HI} {RE : RandomEngine} {REL : RandomEngineLaws RE}
  {US : UnorderedSet} {USL : UnorderedSetLaws US} {P : Type} {Pol : Policy P} {PL : PolicyLaws Pol}.
Implicit Types (s : Forwarder P) (x : ptr) (f : FacePtr) (F : Face) (pe : PitEntry) (i : Interest) (B : gset ptr).

Lemma copy_if_spec {A} (pred : A → option bool) (l : list A) :
  (∀ a, a ∈ l → is_Some (pred a)) → ∃ r, copy_if pred l = Some r ∧ ∀ a, a ∈ r ↔ a ∈ l ∧ pred a = Some true.
Proof.
  induction l as [|a l IH]; intros Hl; cbn; [exists []; split; [done|]; set_solver|].
  destruct (Hl a ltac:(constructor)) as [b Hb]. destruct IH as (r & Hr & Hel); [by intros; apply Hl; constructor|].
  rewrite Hb, Hr. cbn. eexists. split; [done|]. intros c. destruct b; rewrite ?elem_of_cons, Hel; naive_solver.
Qed.

Lemma shuffleM_spec {A} B (l : list A) s :
  FwInvBut B s → wp (shuffleM l) (λ r s', r ≡ₚ l ∧ FwInvBut B s' ∧ fwFrame s s' ∧ ∃ rng, s' = set_fw_rng rng s) s.
Proof.
  intros Hs. unfold shuffleM. wp_step. wp_step. destruct (shuffle l (fw_rng s)) as [l' rng] eqn:E. wp_step. wp_step. wp_step.
  assert (Hf : fwFrame s (set_fw_rng rng s)) by frame_same.
  split; [pose proof (shuffle_permutes A l (fw_rng s)) as Hp; by rewrite E in Hp|]. split; [|split; [done|by eexists]].
  eapply FwInv_other; [done|done|done|apply Hs|apply Hs|apply Hs].
Qed.

Lemma Random_spec i ingress inFace x pe s :
  FwInv s → pits s !! x = Some pe → isAttached pe → matchKey pe i → live s (ep_face ingress) →
  fw_faces s !! ep_face ingress = Some inFace →
  wp (Random_afterReceiveInterest i ingress x) (λ _ s', FwInv s' ∧ fwFrame s s' ∧ fw_cs s' = fw_cs s ∧ fw_dnl s' = fw_dnl s ∧
    ((∃ nh, nh ∈ routesFor s pe ∧ allowedNextHop (fw_faces s) inFace i nh ∧ forwardedTo s s' x pe i nh) ∨
     (∀ nh, nh ∈ routesFor s pe → ¬ allowedNextHop (fw_faces s) inFace i nh) ∧
       fw_sent s' = fw_sent s ++ nackFor s pe NACK_NO_ROUTE (ep_face ingress) ∧ expiresNow s' x)) s.
Proof.
  intros Hs Hx Ha Hk Hl HF. unfold Random_afterReceiveInterest. eapply (routes_spec ∅); [done..|]. intros fe Hfe.
  wp_step. apply wp_derefFace. exists inFace. split; [done|]. wp_step. wp_step. wp_step. apply wp_tb_derefPit. exists pe. split; [done|].
  assert (Hlive : ∀ nh, nh ∈ routesFor s pe → live s (nh_face nh)) by (intros nh; by apply (routes_live ∅)). rewrite Hfe.
  destruct (copy_if_spec _ _ (eligible_total s pe i inFace false TIME_MIN pe Hlive)) as (r & Hr & Hel). wp_step. wp_step; [exact Hr|].
  assert (Hok : ∀ nh, nh ∈ r ↔ nh ∈ routesFor s pe ∧ allowedNextHop (fw_faces s) inFace i nh).
  { intros nh. rewrite Hel. split; intros [Hin Hnh]; (split; [done|]).
    - apply eligible_true in Hnh as [Hnh _]; [by apply Hnh|by apply Hlive].
    - destruct (eligible_total s pe i inFace false TIME_MIN pe Hlive nh Hin) as [b Hb]. rewrite Hb.
      apply eligible_true in Hb as [_ Hb]; [|by apply Hlive]. by rewrite Hb. }
  destruct r as [|nh0 r].
  - eapply wp_mono; [by eapply noRoute_spec|]. intros _ s' (H1 & H2 & H3 & H4 & H5 & H6). do 4 (split; [done|]). right.
    split; [|done]. intros nh Hin Hal. by apply (not_elem_of_nil nh), Hok.
  - wp_step. eapply wp_mono; [by apply shuffleM_spec|]. intros l s1 (Hperm & Hs1 & Hf1 & rng & ->).
    destruct l as [|nh l]; [by apply Permutation_nil_cons in Hperm|]. wp_step. wp_step; [done|].
    destruct (proj1 (Hok nh)) as [Hin Hal]; [rewrite <- Hperm; constructor|].
    eapply wp_mono; [by eapply (forward_spec i nh inFace x pe (set_fw_rng rng s))|].
    intros _ s' (H1 & H2 & H3 & H4 & H5). split; [done|]. split; [exact (fwFrame_trans _ _ _ Hf1 H2)|].
    split; [done|]. split; [done|]. left. exists nh. split; [done|]. split; [done|]. exact H5.
Qed.

#[export] Instance RandomLaws : StrategyLaws RandomStrategy.
Proof.
  split.
  - intros i ingress x pe s Hs Hx Ha Hk Hl. pose proof Hl as (F & HF & _). eapply wp_mono; [by eapply Random_spec|].
    intros _ s' (? & ? & _). done.
  - intros. by apply noop_spec.
  - intros. by apply noop_spec.
  - intros. by eapply base_satisfyInterest_live.
  - intros nack ingress x pe s Hs Hx Ha _. eapply wp_mono; [by eapply processNack_spec|]. intros _ s' (? & ? & _). done.
  - intros. by apply noop_spec.
  - intros. by apply noop_spec.
Qed.
End Random.

(** ** Multicast *)

Section Multicast.
Context {N : NdnCxx} {NL : NdnCxxLaws N} {NP : NdnPacket N} {NPL : NdnPacketLaws N NP} {SP : ScopePrefix N}
  {SC : Scheduler} {SCL : SchedulerLaws SC} {HI : HashedIndex} {HIL : HashedIndexLaws HI} {RE : RandomEngine}
  {US : UnorderedSet} {USL : UnorderedSetLaws US} {P : Type} {Pol : Policy P} {PL : PolicyLaws Pol}.
Implicit Types (s : Forwarder P) (x : ptr) (f : FacePtr) (F inFace : Face) (pe : PitEntry) (i : Interest) (faces : gmap FacePtr Face).

Lemma eligible_same faces faces' inFace inFace' i nh pe pe' F F' t :
  faces !! nh_face nh = Some F → faces' !! nh_face nh = Some F' → sameFace F F' → sameFace inFace inFace' →
  isNextHopEligible faces' inFace' i nh pe' false t = isNextHopEligible faces inFace i nh pe false t.
Proof.
  intros HF HF' (E1 & E2 & E3) (G1 & G2 & G3). unfold isNextHopEligible, wouldViolateScope. rewrite HF, HF'. cbn.
  by rewrite E1, E2, E3, G1, G2.
Qed.

Lemma keeps_updateOut f g pe :
  (∀ r, out_face (g r) = out_face r) →
  keepsPit pe (updateOutRecord f g pe) ∧ pe_expiryTimer (updateOutRecord f g pe) = pe_expiryTimer pe.
Proof.
  intros Hg. pose proof (updateOutRecord_wf f g pe Hg) as Hw. rewrite (updateOutRecord_frame f g pe) in *.
  unfold keepsPit, keepsKey. tauto.
Qed.

Lemma PeOk_updateOut s f g pe : (∀ r, out_face (g r) = out_face r) → PeOk s pe → PeOk s (updateOutRecord f g pe).
Proof.
  intros Hg [H1 H2 H3 H4]. pose proof (updateOutRecord_frame f g pe) as E. split.
  - rewrite E. exact H1.
  - intros r Hr. assert (Hel : out_face r ∈ out_face <$> pe_outRecords (updateOutRecord f g pe)) by (apply list_elem_of_fmap; eauto).
    rewrite updateOutRecord_faces in Hel by done. apply list_elem_of_fmap in Hel as (r' & -> & Hr'). by apply H2.
  - rewrite E. exact H3.
  - rewrite E. exact H4.
Qed.

Lemma decidePerUpstream_frame rs now pe f :
  let pe' := (decidePerUpstream rs now pe f).2 in pe' = pe ∨ ∃ h, pe' = updateOutRecord f (set_out_info h) pe.
Proof.
  unfold decidePerUpstream. destruct (getOutRecord pe f) as [o|]; [|by left].
  destruct (insertStrategyInfo _ _) as [h [pi b]]. right. exists h. by destruct (_ <? _)%Z.
Qed.

Lemma decidePerUpstream_same rs now pe pe' f :
  getOutRecord pe' f = getOutRecord pe f → (decidePerUpstream rs now pe' f).1 = (decidePerUpstream rs now pe f).1.
Proof.
  intros E. unfold decidePerUpstream. rewrite E. destruct (getOutRecord pe f) as [o|]; [|done].
  destruct (insertStrategyInfo _ _) as [h [pi b]]. by destruct (_ <? _)%Z.
Qed.

(** What multicast sends to one nexthop: nothing while the retransmission to that
    upstream is suppressed or when the nexthop is not eligible. *)
Definition multicastTo now faces pe i inFace (nh : NextHop) : list Sent :=
  match faces !! nh_face nh, isNextHopEligible faces inFace i nh pe false TIME_MIN with
  | Some F, Some true =>
      if decide ((decidePerUpstream retxSuppression now pe (nh_face nh)).1 = RETX_SUPPRESS) then []
      else sentInterest F (nh_face nh) i
  | _, _ => []
  end.

(** A step towards the upstream [f]: the out-records and the faces of others are
    not touched, [out] is sent. *)
Definition upstreamStep f s x pe s' (out : list Sent) : Prop :=
  FwInv s' ∧ fwFrame s s' ∧ fw_cs s' = fw_cs s ∧ fw_dnl s' = fw_dnl s ∧ fw_sent s' = fw_sent s ++ out ∧
  (∀ g, g ≠ f → fw_faces s' !! g = fw_faces s !! g) ∧
  ∃ pe', pits s' !! x = Some pe' ∧ keepsPit pe pe' ∧ ∀ g, g ≠ f → getOutRecord pe' g = getOutRecord pe g.

Lemma upstreamStep_trans f s x pe s1 pe1 o1 s2 o2 :
  upstreamStep f s x pe s1 o1 → pits s1 !! x = Some pe1 → upstreamStep f s1 x pe1 s2 o2 → upstreamStep f s x pe s2 (o1 ++ o2).
Proof.
  intros (_ & A2 & A3 & A4 & A5 & A6 & pe1' & Hx1' & A7 & A8) Hx1 (C1 & C2 & C3 & C4 & C5 & C6 & pe2 & Hx2 & C7 & C8). simplify_eq.
  split; [done|]. split; [exact (fwFrame_trans _ _ _ A2 C2)|]. split; [congruence|]. split; [congruence|].
  split; [rewrite C5, A5; by rewrite (assoc_L (++))|]. split; [intros g Hg; by rewrite C6, A6|].
  exists pe2. split; [done|]. split; [by eapply keepsPit_trans|]. intros g Hg. by rewrite C8, A8.
Qed.

Lemma upstream_update f x g pe (Q : unit → Forwarder P → Prop) s :
  FwInv s → pits s !! x = Some pe → isAttached pe →
  keepsPit pe (g pe) → pe_expiryTimer (g pe) = pe_expiryTimer pe → PeOk s (g pe) →
  (∀ h, h ≠ f → getOutRecord (g pe) h = getOutRecord pe h) →
  (∀ s', upstreamStep f s x pe s' [] → pits s' !! x = Some (g pe) → fw_faces s' = fw_faces s → Q tt s') →
  wp (tb (updatePit x g)) Q s.
Proof.
  intros Hs Hx Ha Hk Ht Hok Hg HQ. eapply (fw_updatePit ∅); [done..|]. intros s1 Es1 Hs1 Hf1 Hx1.
  apply HQ; [|done|by rewrite Es1]. split; [done|]. split; [done|]. split; [by rewrite Es1|]. split; [by rewrite Es1|].
  split; [by rewrite app_nil_r, Es1|]. split; [by rewrite Es1|]. eauto.
Qed.

Lemma upstream_updateOut f x g pe (Q : unit → Forwarder P → Prop) s :
  FwInv s → pits s !! x = Some pe → isAttached pe → (∀ r, out_face (g r) = out_face r) →
  (∀ s', upstreamStep f s x pe s' [] → Q tt s') → wp (tb (updatePit x (updateOutRecord f g))) Q s.
Proof.
  intros Hs Hx Ha Hg HQ. pose proof (pi_wf _ (tbi_pit _ (fw_i_tables _ _ Hs)) _ _ Hx) as [_ Hwf].
  destruct (keeps_updateOut f g pe Hg) as [Hk Ht].
  eapply (upstream_update f); [done..|apply PeOk_updateOut; [done|by eapply (fw_i_pits _ _ Hs)]| |by intros; apply HQ].
  intros h Hh. rewrite getOutRecord_update by done. by rewrite decide_False.
Qed.

Lemma forward_upstream i nh inFace x pe F s :
  FwInv s → pits s !! x = Some pe → isAttached pe → matchKey pe i → live s (nh_face nh) → fw_faces s !! nh_face nh = Some F →
  allowedNextHop (fw_faces s) inFace i nh →
  wp (sendInterest i (nh_face nh) x) (λ r s', upstreamStep (nh_face nh) s x pe s' (sentInterest F (nh_face nh) i) ∧
    (r = None ∨ r = Some (nh_face nh))) s.
Proof.
  intros Hs Hx Ha Hk Hl HF Hal. pose proof (pi_wf _ (tbi_pit _ (fw_i_tables _ _ Hs)) _ _ Hx) as [_ Hwf].
  eapply wp_mono; [eapply sendInterest_spec; [done..|by eapply allowed_scopeOk]|].
  intros r s' (H1 & H2 & H3 & H4 & H5 & H6 & H7 & H8 & _). split; [|done]. do 6 (split; [done|]).
  rewrite H8. destruct r; cbn.
  - eexists. rewrite lookup_insert_eq. split; [done|]. split; [apply keeps_out|]. intros g Hg.
    rewrite getOutRecord_insert by done. by rewrite decide_False.
  - exists pe. split; [done|]. split; [apply keepsPit_refl|done].
Qed.

(** The decision is stored in the out-record. *)
Lemma upstream_decide nh x pe (Q : unit → Forwarder P → Prop) s :
  FwInv s → pits s !! x = Some pe → isAttached pe →
  (∀ s' pe', upstreamStep (nh_face nh) s x pe s' [] → pits s' !! x = Some pe' → fw_faces s' = fw_faces s → keepsPit pe pe' → Q tt s') →
  wp (tb (updatePit x (λ _, (decidePerUpstream retxSuppression (t_now (fw_tables s)) pe (nh_face nh)).2))) Q s.
Proof.
  intros Hs Hx Ha HQ. pose proof (pi_wf _ (tbi_pit _ (fw_i_tables _ _ Hs)) _ _ Hx) as [_ Hwf].
  pose proof (fw_i_pits _ _ Hs _ _ Hx Ha) as Hok.
  destruct (decidePerUpstream_frame retxSuppression (t_now (fw_tables s)) pe (nh_face nh)) as [->|[h ->]].
  - eapply (upstream_update (nh_face nh)); [done|done|done|apply keepsPit_refl|done|done|done|]. intros s' H1 H2 H3.
    eapply HQ; [done..|apply keepsPit_refl].
  - destruct (keeps_updateOut (nh_face nh) (set_out_info h) pe) as [Hk Ht]; [done|].
    eapply (upstream_update (nh_face nh)); [done|done|done|done|done|by apply PeOk_updateOut| |].
    + intros g Hg. rewrite getOutRecord_update by done. by rewrite decide_False.
    + intros s' H1 H2 H3. by eapply HQ.
Qed.

Lemma Multicast_forwardTo_spec i ingress inFace x nh pe s :
  FwInv s → pits s !! x = Some pe → isAttached pe → matchKey pe i → fw_faces s !! ep_face ingress = Some inFace → live s (nh_face nh) →
  wp (Multicast_forwardTo i ingress x nh) (λ _ s',
    upstreamStep (nh_face nh) s x pe s' (multicastTo (t_now (fw_tables s)) (fw_faces s) pe i inFace nh)) s.
Proof.
  intros Hs Hx Ha Hk HFin Hl. pose proof Hl as (F & HF & _). unfold Multicast_forwardTo, getNow. wp_step. wp_step. wp_step.
  apply wp_tb_derefPit. exists pe. split; [done|]. pose proof (λ Q, upstream_decide nh x pe Q s Hs Hx Ha) as Hd.
  destruct (isNextHopEligible_spec (fw_faces s) inFace i nh pe false TIME_MIN F HF) as (b & Hb & Hbs).
  unfold multicastTo. rewrite HF, Hb.
  destruct (decidePerUpstream retxSuppression (t_now (fw_tables s)) pe (nh_face nh)) as [sup pe0].
  cbn [fst snd] in *. wp_step. apply Hd. clear Hd. intros s1 pe1 Hst Hx1 EF Hkp.
  pose proof Hst as (Hs1 & Hf1 & _). case_decide as Esup; [wp_step; by destruct b|].
  wp_step. apply wp_derefFace. exists inFace. split; [by rewrite EF|]. wp_step. wp_step. wp_step.
  wp_step; [rewrite EF, <- Hb; by eapply eligible_same|]. destruct b; cbn [negb]; [|by wp_step].
  destruct (proj1 Hbs eq_refl) as [Hal _]. wp_step. assert (Ha1 : isAttached pe1) by (by eapply keeps_attached).
  eapply wp_mono; [eapply (forward_upstream i nh inFace x pe1 F s1); [done|done|done|by eapply keeps_match|by eapply live_frame|by rewrite EF|by rewrite EF]|].
  intros r s2 [Hst2 Hr]. pose proof (upstreamStep_trans _ _ _ _ _ _ _ _ _ Hst Hx1 Hst2) as Hst3.
  pose proof Hst3 as (Hs2 & Hf2 & _ & _ & _ & _ & pe2 & Hx2 & Hkp2 & _). destruct Hr as [-> | ->]; [by wp_step|].
  case_decide; [|by wp_step]. eapply upstream_updateOut; [done|exact Hx2|by eapply keeps_attached| |].
  - intros r. unfold incrementIntervalForOutRecord. by destruct (insertStrategyInfo _ _) as [h [pi c]].
  - intros s3 Hst4. pose proof (upstreamStep_trans _ _ _ _ _ _ _ _ _ Hst3 Hx2 Hst4) as H5. by rewrite app_nil_r in H5.
Qed.

Lemma multicastTo_same now faces faces' pe pe' i inFace inFace' nh :
  faces' !! nh_face nh = faces !! nh_face nh → getOutRecord pe' (nh_face nh) = getOutRecord pe (nh_face nh) → sameFace inFace inFace' →
  multicastTo now faces' pe' i inFace' nh = multicastTo now faces pe i inFace nh.
Proof.
  intros EF Eo Hin. unfold multicastTo. rewrite EF. destruct (faces !! nh_face nh) as [F|] eqn:HF; [|done].
  rewrite (eligible_same faces faces' inFace inFace' i nh pe pe' F F TIME_MIN HF EF (sameFace_refl F) Hin).
  by rewrite (decidePerUpstream_same retxSuppression now pe pe' (nh_face nh) Eo).
Qed.

Lemma Multicast_loop i ingress inFace x pe l s0 s pe1 :
  FwInv s → fwFrame s0 s → pits s !! x = Some pe1 → isAttached pe1 → matchKey pe1 i →
  fw_faces s0 !! ep_face ingress = Some inFace → NoDup (nh_face <$> l) → (∀ nh, nh ∈ l → live s (nh_face nh)) →
  (∀ nh, nh ∈ l → fw_faces s !! nh_face nh = fw_faces s0 !! nh_face nh ∧ getOutRecord pe1 (nh_face nh) = getOutRecord pe (nh_face nh)) →
  wp (forM l (Multicast_forwardTo i ingress x)) (λ _ s', FwInv s' ∧ fwFrame s0 s' ∧ fw_cs s' = fw_cs s ∧ fw_dnl s' = fw_dnl s ∧
    fw_sent s' = fw_sent s ++ (l ≫= multicastTo (t_now (fw_tables s0)) (fw_faces s0) pe i inFace)) s.
Proof.
  revert s pe1. induction l as [|nh l IH]; intros s pe1 Hs Hf Hx Ha Hk HFin Hnd Hl Hag; cbn [forM].
  { wp_step. cbn. by rewrite app_nil_r. }
  cbn in Hnd. apply NoDup_cons in Hnd as [Hnh Hnd]. destruct (frame_face _ _ _ _ Hf HFin) as (inFace' & HFin' & Hsame). wp_step.
  eapply wp_mono; [eapply Multicast_forwardTo_spec; [done..|apply Hl; constructor]|].
  intros [] s1 (Hs1 & Hf1 & Ec1 & Ed1 & Esent & EF1 & pe2 & Hx2 & Hkp2 & Eo2). destruct (Hag nh ltac:(constructor)) as [EF Eo].
  rewrite (multicastTo_same _ (fw_faces s0) _ pe _ i inFace inFace') in Esent by done. rewrite (ff_now _ _ Hf) in Esent.
  assert (Hne : ∀ nh', nh' ∈ l → nh_face nh' ≠ nh_face nh).
  { intros nh' Hin E. apply Hnh. rewrite <- E. apply list_elem_of_fmap. eauto. }
  eapply wp_mono; [eapply (IH s1 pe2); [done|exact (fwFrame_trans _ _ _ Hf Hf1)|done|by eapply keeps_attached|by eapply keeps_match|done|done| |]|].
  - intros nh' Hin. eapply live_frame; [done|]. apply Hl. by constructor.
  - intros nh' Hin. rewrite EF1, Eo2 by (by apply Hne). apply Hag. by constructor.
  - intros _ s' (H1 & H2 & H3 & H4 & H5). split; [done|]. split; [done|]. split; [congruence|]. split; [congruence|].
    rewrite H5, Esent. cbn. by rewrite (assoc_L (++)).
Qed.

Lemma Multicast_spec i ingress inFace x pe s :
  FwInv s → pits s !! x = Some pe → isAttached pe → matchKey pe i → fw_faces s !! ep_face ingress = Some inFace →
  wp (Multicast_afterReceiveInterest i ingress x) (λ _ s', FwInv s' ∧ fwFrame s s' ∧ fw_cs s' = fw_cs s ∧ fw_dnl s' = fw_dnl s ∧
    fw_sent s' = fw_sent s ++ (routesFor s pe ≫= multicastTo (t_now (fw_tables s)) (fw_faces s) pe i inFace)) s.
Proof.
  intros Hs Hx Ha Hk HF. unfold Multicast_afterReceiveInterest. eapply (routes_spec ∅); [done..|]. intros fe ->.
  eapply (Multicast_loop i ingress inFace x pe _ s s pe); [done|apply fwFrame_refl|done..|by eapply routes_wf| |done].
  intros nh. by apply (routes_live ∅).
Qed.

Lemma Multicast_newNextHop_spec nh x l s pe :
  FwInv s → pits s !! x = Some pe → isAttached pe → live s (nh_face nh) → (∀ r, r ∈ l → live s (in_face r)) →
  wp (Multicast_newNextHop_loop nh x l) (λ _ s', FwInv s' ∧ fwFrame s s') s.
Proof.
  intros Hs Hx Ha Hl. induction l as [|r l IH]; intros Hin; cbn [Multicast_newNextHop_loop]; [by apply noop_spec|].
  destruct (Hin r ltac:(constructor)) as (inFace & HFin & _). wp_step. apply wp_derefFace. exists inFace. split; [done|].
  wp_step. wp_step. wp_step. apply wp_tb_derefPit. exists pe. split; [done|]. pose proof Hl as (F & HF & _).
  destruct (isNextHopEligible_spec (fw_faces s) inFace (pe_interest pe) nh pe false TIME_MIN F HF) as (b & Hb & Hbs).
  wp_step. wp_step; [exact Hb|]. destruct b; [|apply IH; intros r' Hr'; apply Hin; by constructor].
  destruct (proj1 Hbs eq_refl) as [Hal _]. wp_step.
  eapply wp_mono; [by eapply forward_upstream|]. intros _ s' [(H1 & H2 & _) _]. by wp_step.
Qed.

#[export] Instance MulticastLaws : StrategyLaws MulticastStrategy.
Proof.
  split.
  - intros i ingress x pe s Hs Hx Ha Hk (F & HF & _). eapply wp_mono; [by eapply Multicast_spec|]. intros _ s' (? & ? & _). done.
  - intros. by apply noop_spec.
  - intros. by apply noop_spec.
  - intros. by eapply base_satisfyInterest_live.
  - intros. by apply noop_spec.
  - intros. by apply noop_spec.
  - intros nh x pe s Hs Hx Ha Hl. pose proof Hl as (F & HF & _). cbn [so_afterNewNextHop MulticastStrategy].
    unfold Multicast_afterNewNextHop. wp_step. apply wp_derefFace. exists F. split; [done|]. wp_step. apply wp_tb_derefPit.
    exists pe. split; [done|]. eapply Multicast_newNextHop_spec; [done..|]. intros r Hr.
    eapply PeOk_inFaces; [done..|]. apply list_elem_of_fmap. eauto.
Qed.
End Multicast.

(** ** Dispatch *)

#[export] Instance standardLaws {N : NdnCxx} {NL : NdnCxxLaws N} {NP : NdnPacket N} {NPL : NdnPacketLaws N NP} {SP : ScopePrefix N}
  {SC : Scheduler} {SCL : SchedulerLaws SC} {HI : HashedIndex} {HIL : HashedIndexLaws HI} {RE : RandomEngine} {REL : RandomEngineLaws RE}
  {US : UnorderedSet} {USL : UnorderedSetLaws US} {SN : StrategyNames N} {P : Type} {Pol : Policy P} {PL : PolicyLaws Pol}
  (strategy : Strategy) : StrategyLaws (standardStrategies (P := P) strategy).
Proof. unfold standardStrategies. repeat case_decide; apply _. Qed.
