(* ===== verification/ForwarderSpecs.v ===== *)
(** * The pipelines keep the invariant

    Specifications of the pipelines of [Forwarder]: each runs to completion, without
    a failed assertion or an access through a dangling pointer, and establishes
    the invariant again. *)

From Stdlib Require Import ZArith Lia.
From stdpp Require Import base gmap option sorting list.
From S2P Require Import Prelude Scheduler CityHash Ndn FibEntry PitEntry NameTreeEntry Hashtable NameTree.
From S2P Require Import NameTreeIterator Tables Fib Pit Measurements StrategyChoice Cleanup Cs DeadNonceList.
From S2P Require Import Algorithm FwState Strategies Forwarder FwInvariant StrategySpecs.

Section Pipelines.
Context {N : NdnCxx} {NL : NdnCxxLaws N} {NP : NdnPacket N} {NPL : NdnPacketLaws N NP} {SP : ScopePrefix N}
  {SC : Scheduler} {SCL : SchedulerLaws SC} {HI : HashedIndex} {HIL : HashedIndexLaws HI} {RE : RandomEngine}
  {US : UnorderedSet} {USL : UnorderedSetLaws US} {P : Type} {Pol : Policy P} {PL : PolicyLaws Pol}.
Context (strategyOps : Strategy → StrategyOps (P := P)) {SL : ∀ st, StrategyLaws (strategyOps st)}.
Implicit Types (s : Forwarder P) (x : ptr) (f : FacePtr) (F : Face) (pe : PitEntry) (i : Interest) (d : Data) (B : gset ptr).

(** ** Dead Nonce List *)

Lemma dnl_has_spec name nonce (Q : bool → Forwarder P → Prop) s :
  (∀ h, makeEntry name nonce = Some h → Q (bool_decide (is_Some (hfind h (dn_queue (fw_dnl s))))) s) →
  wp (dnlM (DeadNonceList_has name nonce)) Q s.
Proof.
  intros HQ. destruct (makeEntry_ok name nonce) as [h Hh]. apply wp_lift. unfold DeadNonceList_has. wp_step. wp_step; [exact Hh|].
  wp_step. wp_step. wp_step. replace (set_fw_dnl (fw_dnl s) s) with s by (by destruct s). by apply HQ.
Qed.

(** A change of the Dead Nonce List only. *)
Definition dnlOnly s s' : Prop := ∃ dn, s' = set_fw_dnl dn s.

Lemma dnl_add_spec B name nonce s :
  FwInvBut B s → wp (dnlM (DeadNonceList_add name nonce)) (λ _ s', FwInvBut B s' ∧ fwFrame s s' ∧ dnlOnly s s') s.
Proof.
  intros Hs. destruct (makeEntry_ok name nonce) as [h Hh]. apply wp_lift.
  eapply wp_mono; [apply DeadNonceList_add_spec; [apply Hs|done]|]. intros [] dn [Hd _].
  assert (Hf : fwFrame s (set_fw_dnl dn s)) by frame_same. split; [|split; [done|by eexists]].
  eapply FwInv_other; [done|done|done|apply Hs|done|apply Hs].
Qed.

Lemma dnlOnly_trans s1 s2 s3 : dnlOnly s1 s2 → dnlOnly s2 s3 → dnlOnly s1 s3.
Proof. intros [? ->] [? ->]. by eexists. Qed.

Lemma insertDeadNonceList_spec B x pe up s :
  FwInvBut B s → pits s !! x = Some pe → isAttached pe →
  wp (insertDeadNonceList x up) (λ _ s', FwInvBut B s' ∧ fwFrame s s' ∧ dnlOnly s s') s.
Proof.
  intros Hs Hx Ha. assert (Hrefl : FwInvBut B s ∧ fwFrame s s ∧ dnlOnly s s).
  { split; [done|]. split; [apply fwFrame_refl|]. exists (fw_dnl s). by destruct s. }
  unfold insertDeadNonceList. wp_step. apply wp_tb_derefPit. exists pe. split; [done|]. wp_step. wp_step. wp_step.
  eapply (wp_mono _ (λ _ s', s' = s)).
  { destruct (pe_isSatisfied pe); [|by wp_step]. wp_step. wp_step; [|by wp_step].
    apply Z.leb_le. by apply (po_fresh _ _ (fw_i_pits _ _ Hs _ _ Hx Ha)). }
  intros need s' ->. destruct (negb need); [by wp_step|]. destruct up as [f|].
  - destruct (getOutRecord pe f); [by apply dnl_add_spec|by wp_step].
  - eapply wp_mono; [apply (wp_forM _ _ (λ _ s', FwInvBut B s' ∧ fwFrame s s' ∧ dnlOnly s s')); [|done]|done].
    intros o l s1 (Hs1 & Hf1 & Hd1). eapply wp_mono; [by apply dnl_add_spec|]. intros [] s2 (Hs2 & Hf2 & Hd2).
    split; [done|]. split; [exact (fwFrame_trans _ _ _ Hf1 Hf2)|by eapply dnlOnly_trans].
Qed.

(** ** Strategy dispatch *)

Lemma effectiveStrategy_pit_spec B x pe s :
  FwInvBut B s → pits s !! x = Some pe → isAttached pe →
  wp (effectiveStrategy_pit strategyOps x) (λ ops s', s' = s ∧ ∃ p st, ops = strategyOps st ∧ isEffective (fw_tables s) (pe_name pe) (p, st)) s.
Proof.
  intros Hs Hx Ha. unfold effectiveStrategy_pit. wp_step.
  eapply (wp_tb_reads _ (λ r, isEffective (fw_tables s) (pe_name pe) r)); [apply findEffectiveStrategy_pit_spec; [apply Hs..|done|done]|].
  intros [p st] Hr. wp_step. split; [done|]. by exists p, st.
Qed.

(** Run a virtual function of the effective strategy of a PIT entry. *)
Lemma dispatch_spec {A} B x pe (k : StrategyOps → M (Forwarder P) A) Q s :
  FwInvBut B s → pits s !! x = Some pe → isAttached pe → (∀ st, wp (k (strategyOps st)) Q s) →
  wp (effectiveStrategy_pit strategyOps x ≫= k) Q s.
Proof.
  intros Hs Hx Ha HQ. wp_step. eapply wp_mono; [by eapply effectiveStrategy_pit_spec|]. intros ops s' (-> & p & st & -> & _). apply HQ.
Qed.

(** ** Incoming Interests *)

Definition withDefaultHopLimit s i : Interest :=
  if (0 <? fw_defaultHopLimit s)%Z && bool_decide (i_hopLimit i = None) then setHopLimit (Some (fw_defaultHopLimit s)) i else i.

Lemma withDefaultHopLimit_key s i pe : matchKey pe i → matchKey pe (withDefaultHopLimit s i).
Proof. unfold withDefaultHopLimit. by destruct (_ && _). Qed.

Lemma withDefaultHopLimit_back s i pe : matchKey pe (withDefaultHopLimit s i) → matchKey pe i.
Proof. unfold withDefaultHopLimit. by destruct (_ && _). Qed.

(** The entry after the first part of the pipeline: its in-record is renewed, its
    Interest has the default HopLimit when it is the Interest received. *)
Definition missEntry s i f (isOwn : bool) pe : PitEntry :=
  insertOrUpdateInRecord (t_now (fw_tables s)) f (withDefaultHopLimit s i)
    (if isOwn then set_interest (withDefaultHopLimit s i) pe else pe).

Lemma hopLimit_step B i x pe isOwn s :
  FwInvBut B s → pits s !! x = Some pe → isAttached pe → matchKey pe i → (isOwn = true → pe_interest pe = i) →
  wp (if (0 <? fw_defaultHopLimit s)%Z && bool_decide (i_hopLimit i = None) then
        (if isOwn then tb (updatePit x (set_interest (setHopLimit (Some (fw_defaultHopLimit s)) i))) else mret tt);;
        mret (setHopLimit (Some (fw_defaultHopLimit s)) i)
      else mret i) (λ i' s', i' = withDefaultHopLimit s i ∧ FwInvBut B s' ∧ fwFrame s s' ∧ s' = set_fw_tables (fw_tables s') s ∧
        fw_tables s' = set_pits (<[x := if isOwn then set_interest i' pe else pe]> (pits s)) (fw_tables s)) s.
Proof.
  intros Hs Hx Ha Hk Hown. unfold withDefaultHopLimit.
  assert (Hid : ∀ pe', pe' = pe → fw_tables s = set_pits (<[x := pe']> (pits s)) (fw_tables s)).
  { intros pe' ->. rewrite insert_id by done. by destruct (fw_tables s). }
  destruct (_ && _).
  - wp_step. destruct isOwn.
    + specialize (Hown eq_refl). eapply (fw_updatePit B); [done..| |done| |].
      * destruct Hk as (K1 & K2 & K3). unfold keepsPit, keepsKey, pe_name in *. cbn. rewrite <- Hown. cbn. by rewrite Hown.
      * destruct (fw_i_pits _ _ Hs _ _ Hx Ha) as [H1 H2 H3 H4]. split; try done; cbn.
        -- intros r Hr. destruct (H1 r Hr) as (? & i0 & ? & K0). split; [done|]. exists i0. split; [done|].
           unfold matchKey, pe_name in *. cbn. rewrite <- Hown. done.
        -- by rewrite <- Hown.
      * intros s1 Es1 Hs1 Hf1 _. wp_step. split; [done|]. split; [done|]. split; [done|]. split; [by rewrite Es1|by rewrite Es1].
    + wp_step. wp_step. split; [done|]. split; [done|]. split; [apply fwFrame_refl|]. split; [by destruct s|by apply Hid].
  - wp_step. split; [done|]. split; [done|]. split; [apply fwFrame_refl|]. split; [by destruct s|]. apply Hid.
    destruct isOwn; [|done]. specialize (Hown eq_refl). destruct pe. cbn in *. by subst.
Qed.

(** The state when the strategy, or the face named by the application, takes over:
    the in-record is there and the timer is due when the last in-record expires,
    rounded down to milliseconds. *)
Definition missReady i f isOwn x pe s s1 : Prop :=
  FwInv s1 ∧ fwFrame s s1 ∧ fw_cs s1 = fw_cs s ∧ fw_dnl s1 = fw_dnl s ∧ fw_faces s1 = fw_faces s ∧ fw_sent s1 = fw_sent s ∧
  ∃ k last, pits s1 = <[x := set_expiryTimer (Some k) (missEntry s i f isOwn pe)]> (pits s) ∧
    last ∈ pe_inRecords (missEntry s i f isOwn pe) ∧
    (∀ r, r ∈ pe_inRecords (missEntry s i f isOwn pe) → (fr_expiry (in_rec r) ≤ fr_expiry (in_rec last))%Z) ∧
    pendingOf (fw_tables s1) !! k =
      Some ((t_now (fw_tables s) + ms (Z.max ((fr_expiry (in_rec last) - t_now (fw_tables s)) ÷ 1000000) 0))%Z, PitExpiry x).

Lemma insertIn_nonempty now f i pe : pe_inRecords (insertOrUpdateInRecord now f i pe) ≠ [].
Proof.
  unfold insertOrUpdateInRecord. destruct (list_find _ _) as [[j r]|] eqn:Hf; cbn; [|done].
  apply list_find_Some in Hf as (Hj & _). intros E. apply (f_equal length) in E. rewrite length_alter in E. cbn in E.
  apply lookup_lt_Some in Hj. lia.
Qed.

Lemma onContentStoreMiss_prefix B i ingress x pe isOwn (Q : unit → Forwarder P → Prop) s :
  FwInvBut B s → B ⊆ {[x]} → pits s !! x = Some pe → isAttached pe → matchKey pe i → (isOwn = true → pe_interest pe = i) →
  live s (ep_face ingress) →
  (∀ s1, missReady i (ep_face ingress) isOwn x pe s s1 →
     wp (match i_nextHopFaceId (withDefaultHopLimit s i) with
         | Some tag => nextHopFace ← FaceTable_get tag;
             match nextHopFace with
             | Some face => onOutgoingInterest (withDefaultHopLimit s i) face x;; mret tt
             | None => mret tt
             end
         | None => strategy ← effectiveStrategy_pit strategyOps x;
             so_afterReceiveInterest strategy (withDefaultHopLimit s i) (mkFaceEndpoint (ep_face ingress) 0) x
         end) Q s1) →
  wp (onContentStoreMiss strategyOps i ingress x isOwn) Q s.
Proof.
  intros Hs HB Hx Ha Hk Hown Hl HQ. unfold onContentStoreMiss. wp_step. eapply wp_mono; [by apply fw_count|].
  intros [] s0 (Hs0 & Hf0 & c & Es0). wp_step. wp_step. wp_step.
  eapply wp_mono; [eapply (hopLimit_step B i x pe isOwn s0); [done|by rewrite Es0|done..]|].
  intros i' s1 (-> & Hs1 & Hf1 & Es1 & Et1). assert (Ei : withDefaultHopLimit s0 i = withDefaultHopLimit s i) by (by rewrite Es0).
  rewrite Ei in *. set (i' := withDefaultHopLimit s i) in *. set (pe1 := if isOwn then set_interest i' pe else pe) in *.
  assert (Hx1 : pits s1 !! x = Some pe1) by (rewrite Et1; cbn; by rewrite lookup_insert_eq).
  destruct (frame_pit _ _ _ _ Hf1 (eq_trans (f_equal (λ t, t_pits (fw_tables t) !! x) Es0) Hx)) as (pe1' & Hx1' & Hk1).
  rewrite Hx1 in Hx1'. injection Hx1' as <-.
  assert (Ha1 : isAttached pe1) by (by eapply keeps_attached).
  assert (Hk' : matchKey pe1 i') by (eapply keeps_match; [done|]; by apply withDefaultHopLimit_key).
  assert (Enow : t_now (fw_tables s1) = t_now (fw_tables s)) by (rewrite (ff_now _ _ Hf1), (ff_now _ _ Hf0); done).
  wp_step. unfold getNow. wp_step. wp_step. unfold assertCanMatch. wp_step. apply wp_tb_derefPit. exists pe1. split; [done|].
  wp_step; [by apply canMatch_key|]. wp_step. rewrite Enow. destruct (keeps_in (t_now (fw_tables s)) (ep_face ingress) i' pe1) as [Hk2 Ht2].
  assert (Hl1 : live s1 (ep_face ingress)) by (eapply live_frame; [exact Hf1|]; by eapply live_frame).
  eapply (fw_updatePit B); [done..|apply PeOk_in; [by eapply (fw_i_pits _ _ Hs1)|done|done]|].
  intros s2 Es2 Hs2 Hf2 Hx2. wp_step. apply wp_tb_derefPit. eexists. split; [exact Hx2|].
  destruct (max_element_Some (λ a b, (fr_expiry (in_rec a) <? fr_expiry (in_rec b))%Z) _
    (insertIn_nonempty (t_now (fw_tables s)) (ep_face ingress) i' pe1)) as [last Hlast].
  wp_step. wp_step; [exact Hlast|]. apply (max_element_key (λ a, fr_expiry (in_rec a))) in Hlast as [Hlin Hlmax]. wp_step.
  eapply wp_mono; [eapply (setExpiryTimer_spec B); [done|done|exact Hx2|by eapply keeps_attached]|].
  intros [] s3 (Hs3 & Hf3 & Es3 & k & Ep3 & Hk3 & _). apply HQ.
  split; [done|]. split; [exact (fwFrame_trans _ _ _ Hf0 (fwFrame_trans _ _ _ Hf1 (fwFrame_trans _ _ _ Hf2 Hf3)))|].
  split; [by rewrite Es3, Es2, Es1, Es0|]. split; [by rewrite Es3, Es2, Es1, Es0|]. split; [by rewrite Es3, Es2, Es1, Es0|].
  split; [by rewrite Es3, Es2, Es1, Es0|]. exists k, last. unfold missEntry. fold i' pe1. split; [|split; [done|split; [done|]]].
  - rewrite Ep3, Es2. cbn. rewrite Et1. cbn. rewrite Es0. cbn. by rewrite !insert_insert_eq.
  - rewrite Hk3. rewrite (ff_now _ _ Hf2), Enow. done.
Qed.

Lemma onContentStoreMiss_spec B i ingress x pe isOwn s :
  FwInvBut B s → B ⊆ {[x]} → pits s !! x = Some pe → isAttached pe → matchKey pe i → (isOwn = true → pe_interest pe = i) →
  live s (ep_face ingress) →
  wp (onContentStoreMiss strategyOps i ingress x isOwn) (λ _ s', FwInv s' ∧ fwFrame s s') s.
Proof.
  intros Hs HB Hx Ha Hk Hown Hl. eapply onContentStoreMiss_prefix; [done..|]. intros s1 (Hs1 & Hf1 & _).
  destruct (frame_pit _ _ _ _ Hf1 Hx) as (pe1 & Hx1 & Hk1). assert (Ha1 : isAttached pe1) by (by eapply keeps_attached).
  assert (Hm1 : matchKey pe1 (withDefaultHopLimit s i)) by (eapply keeps_match; [done|]; by apply withDefaultHopLimit_key).
  destruct (i_nextHopFaceId _) as [tag|] eqn:Etag.
  - wp_step. unfold FaceTable_get. wp_step. destruct (fw_faceTable s1 !! tag) as [f|] eqn:Eft; [|wp_step; done].
    destruct (fw_i_faceTable _ _ Hs1 _ _ Eft) as (_ & F & HF & Eid). wp_step.
    eapply wp_mono; [eapply onOutgoingInterest_spec; [done|done|done|done|exists F; by rewrite Eid|done|]|].
    + intros _ Hn. congruence.
    + intros _ s2 (Hs2 & Hf2 & _). wp_step. split; [done|exact (fwFrame_trans _ _ _ Hf1 Hf2)].
  - eapply dispatch_spec; [done..|]. intros st. eapply wp_mono; [eapply sl_afterReceiveInterest; [done..|by eapply live_frame]|].
    intros [] s2 [Hs2 Hf2]. split; [done|exact (fwFrame_trans _ _ _ Hf1 Hf2)].
Qed.

(** *** Content Store hit *)

Lemma goodTable_retag c i tbl : goodTable tbl → goodTable (tupdate c (setHitTags i) tbl).
Proof. intros Ht c' e (e0 & Hin & ->)%tupdate_elem. specialize (Ht _ _ Hin). by case_decide. Qed.

Lemma wp_csM {A} (m : M (Cs P) A) Q s : wp (csM m) Q s ↔ wp m (λ a cs, Q a (set_fw_cs cs s)) (fw_cs s).
Proof. apply wp_lift. Qed.

(** A change of the Content Store only. *)
Lemma fw_cs_step B s cs :
  FwInvBut B s → CsInv cs → goodTable (cs_table cs) → FwInvBut B (set_fw_cs cs s) ∧ fwFrame s (set_fw_cs cs s).
Proof.
  intros Hs Hcs Hg. assert (Hf : fwFrame s (set_fw_cs cs s)) by frame_same. split; [|done].
  eapply FwInv_other; [done|done|done|done|apply Hs|apply Hs].
Qed.

(** The Data served from the Content Store, with the tags of this delivery. *)
Definition hitData i (e : CsEntry) : Data :=
  setDataPitToken (i_pitToken i) (setDataIncomingFaceId (Some FACEID_CONTENT_STORE) (ce_data e)).

(** The state when the strategy takes over after a hit. *)
Definition hitReady i e x pe s s1 : Prop :=
  FwInv s1 ∧ fwFrame s s1 ∧ fw_dnl s1 = fw_dnl s ∧ fw_faces s1 = fw_faces s ∧ fw_sent s1 = fw_sent s ∧
  ∃ k, pits s1 = <[x := set_expiryTimer (Some k) (set_dataFreshnessPeriod (d_freshnessPeriod (ce_data e)) (set_isSatisfied true pe))]> (pits s) ∧
    pendingOf (fw_tables s1) !! k = Some (t_now (fw_tables s), PitExpiry x).

(** What a hit comes to is what the strategy makes of it. *)
Lemma onContentStoreHit_prefix B i ingress x pe c e (R : option (Forwarder P * unit) → Prop) s :
  FwInvBut B s → B ⊆ {[x]} → pits s !! x = Some pe → isAttached pe → (c, e) ∈ cs_table (fw_cs s) →
  (∀ s1, hitReady i e x pe s s1 →
     R ((csFace ← gets fw_csFace;
         strategy ← effectiveStrategy_pit strategyOps x;
         so_beforeSatisfyInterest strategy (hitData i e) (mkFaceEndpoint csFace 0) x;;
         strategy ← effectiveStrategy_pit strategyOps x;
         so_afterContentStoreHit strategy (hitData i e) ingress x) s1)) →
  R (onContentStoreHit strategyOps i ingress x c s).
Proof.
  intros Hs HB Hx Ha Hc HQ. unfold onContentStoreHit. apply outcome_bind. eapply wp_mono; [by apply fw_count|].
  intros [] s0 (Hs0 & Hf0 & c0 & Es0). assert (Hc0 : (c, e) ∈ cs_table (fw_cs s0)) by (by rewrite Es0).
  destruct (fw_i_cs _ _ Hs0) as [Hcs Hgood]. destruct (Hgood _ _ Hc0) as [_ Hfresh].
  apply outcome_bind, wp_csM. wp_step. set (tbl := tupdate c (setHitTags i) (cs_table (fw_cs s0))). set (cs1 := set_cs_table tbl (fw_cs s0)).
  destruct (fw_cs_step B s0 cs1 Hs0) as [Hs1 Hf1]; [apply CsInv_retag; [done|done]|by apply goodTable_retag|].
  apply outcome_bind, wp_csM. unfold derefCs. wp_step. wp_step. apply wp_someM. exists (setHitTags i e). split.
  { apply tget_Some; [apply (ci_wf _ (proj1 (fw_i_cs _ _ Hs1)))|]. apply tupdate_elem. exists e. by rewrite decide_True. }
  change (set_fw_cs (fw_cs (set_fw_cs cs1 s0)) (set_fw_cs cs1 s0)) with (set_fw_cs cs1 s0). set (s1 := set_fw_cs cs1 s0) in *.
  assert (Hx1 : pits s1 !! x = Some pe) by (unfold s1; cbn; by rewrite Es0).
  apply outcome_bind. eapply (fw_updatePit B); [done|exact Hx1|done|unfold keepsPit, keepsKey; tauto|done| |].
  { destruct (fw_i_pits _ _ Hs1 _ _ Hx1 Ha) as [? ? ? ?]. by split. }
  intros s2 Es2 Hs2 Hf2 Hx2. apply outcome_bind. eapply (fw_updatePit B); [done|exact Hx2|done|unfold keepsPit, keepsKey; tauto|done| |].
  { destruct (fw_i_pits _ _ Hs2 _ _ Hx2 Ha) as [? ? ? ?]. by split. }
  intros s3 Es3 Hs3 Hf3 Hx3. apply outcome_bind.
  eapply wp_mono; [eapply (setExpiryTimer_spec B); [done|done|exact Hx3|done]|].
  intros [] s4 (Hs4 & Hf4 & Es4 & k & Ep4 & Hk4 & _). apply HQ. split; [done|].
  split; [exact (fwFrame_trans _ _ _ Hf0 (fwFrame_trans _ _ _ Hf1 (fwFrame_trans _ _ _ Hf2 (fwFrame_trans _ _ _ Hf3 Hf4))))|].
  split; [by rewrite Es4, Es3, Es2; cbn; rewrite Es0|]. split; [by rewrite Es4, Es3, Es2; cbn; rewrite Es0|].
  split; [by rewrite Es4, Es3, Es2; cbn; rewrite Es0|]. exists k. split.
  - rewrite Ep4, Es3. cbn. rewrite Es2. cbn. rewrite Es0. cbn. by rewrite !insert_insert_eq.
  - rewrite Hk4, (ff_now _ _ Hf3), (ff_now _ _ Hf2), (ff_now _ _ Hf1), (ff_now _ _ Hf0).
    unfold ms. by rewrite Z.max_id, Z.mul_0_l, Z.add_0_r.
Qed.

(** *** PIT insertion and the incoming Interest pipeline *)

(** A PIT step that leaves everything but the PIT alone. *)
Lemma FwInv_pitOnly B B' s t' :
  FwInvBut B s → TablesInv t' → tidy (ents t') → pitOnly (fw_tables s) t' →
  (∀ x pe, t_pits t' !! x = Some pe → isAttached pe → PeOk s pe) →
  (∀ x pe, t_pits t' !! x = Some pe → isAttached pe → x ∉ B' → hasTimer t' x pe) →
  (∀ x pe k, t_pits t' !! x = Some pe → isAttached pe → x ∈ B' → pe_expiryTimer pe = Some k → pendingOf t' !! k = None) →
  (∀ k due x, pendingOf t' !! k = Some (due, PitExpiry x) → ∃ pe, t_pits t' !! x = Some pe ∧ isAttached pe ∧ pe_expiryTimer pe = Some k) →
  FwInvBut B' (set_fw_tables t' s).
Proof.
  intros [I1 I2 I3 I4 I5 I6 I7 I8 I9 I10 I11 I12 I13 I14 I15] Ht Htidy (E1 & _ & E3 & _) Hpe Htm Hex Hev. injection E1 as EF _. injection E3 as ES _.
  split; try done.
  - change (hasDefault t'). unfold hasDefault. by rewrite ES.
  - intros x pe Hx Ha. destruct (Hpe x pe Hx Ha) as [? ? ? ?]. by split.
  - change (fw_tables (set_fw_tables t' s)) with t'. by rewrite EF.
Qed.

Lemma fw_Pit_insert i s :
  FwInv s → isInProducerRegion (fw_regions s) (i_forwardingHint i) = false →
  wp (tb (Pit_insert i)) (λ r s', s' = set_fw_tables (fw_tables s') s ∧ pitOnly (fw_tables s) (fw_tables s') ∧
    ∃ x pe, r.1 = Some x ∧ pits s' = <[x := pe]> (pits s) ∧ isAttached pe ∧ matchKey pe i ∧ FwInvBut (if r.2 then {[x]} else ∅) s' ∧
      if r.2 then noMatch (fw_tables s) i ∧ ∃ p, pe = set_nameTreeEntry (Some p) (newPitEntry i)
      else pits s !! x = Some pe) s.
Proof.
  intros Hs Hh. apply wp_tb. eapply wp_mono; [apply Pit_insert_spec, Hs|].
  intros [o isNew] t (Ht & Ho & Htidy & x & Hx & Hr). cbn [fst snd] in *. subst o. split; [done|]. split; [done|]. exists x.
  pose proof Ho as (_ & EM & _). injection EM as _ _ Esched. destruct isNew.
  - destruct Hr as (Hno & Hnone & p & Ep). eexists. split; [done|]. split; [exact Ep|]. split; [by eexists|]. split; [done|]. split; [|eauto].
    eapply FwInv_pitOnly; [exact Hs|done|apply Htidy, Hs|done|..]; rewrite ?Ep, ?Esched.
    + intros y pe [[<- <-]|[_ Hy]]%lookup_insert_Some Ha; [|by eapply (fw_i_pits _ _ Hs)].
      split; cbn; [by intros r ?%elem_of_nil|by intros r ?%elem_of_nil|done|done].
    + intros y pe [[<- <-]|[_ Hy]]%lookup_insert_Some Ha Hb; [set_solver|]. unfold hasTimer. rewrite Esched. by eapply (fw_i_timer _ _ Hs).
    + intros y pe k [[<- <-]|[Hne Hy]]%lookup_insert_Some Ha Hb; [done|set_solver].
    + intros k due y (pe & Hy & ?)%(fw_i_event _ _ Hs). exists pe. rewrite lookup_insert_ne; [done|congruence].
  - destruct Hr as (Ep & pe & Hpe & Ha & Hk). exists pe. split; [done|]. split; [by rewrite insert_id|]. split; [done|]. split; [done|]. split; [|done].
    eapply FwInv_pitOnly; [exact Hs|done|apply Htidy, Hs|done|..]; rewrite ?Ep, ?Esched; [apply Hs| | |apply Hs].
    + intros y pe' Hy Ha' Hb. unfold hasTimer. rewrite Esched. by eapply (fw_i_timer _ _ Hs).
    + intros y pe' k Hy Ha' Hb. set_solver.
Qed.

(** The Interest would be answered from the Content Store: that has Data for it, and
    nobody waits for the same Data. *)
Definition servedFromCs s i : Prop :=
  is_Some (lookupCs i (fw_cs s)) ∧ ∀ x pe, pits s !! x = Some pe → isAttached pe → matchKey pe i → pe_inRecords pe = [].

Lemma onIncomingInterest_insert_spec i ingress inFace s :
  FwInv s → live s (ep_face ingress) → isInProducerRegion (fw_regions s) (i_forwardingHint i) = false → ¬ servedFromCs s i →
  wp (onIncomingInterest_insert strategyOps i ingress inFace) (λ _ s', FwInv s') s.
Proof.
  intros Hs Hl Hh Hcsn. unfold onIncomingInterest_insert. wp_step. eapply wp_mono; [by apply fw_Pit_insert|].
  intros [o isNew] s1 (Es1 & Ho & x & pe & Hr1 & Ep & Ha & Hk & Hs1 & Hr). cbn [fst snd] in *. subst o. wp_step. wp_step; [done|].
  assert (Hx : pits s1 !! x = Some pe) by (by rewrite Ep, lookup_insert_eq). wp_step. apply wp_tb_derefPit. exists pe. split; [done|].
  assert (Hl1 : live s1 (ep_face ingress)) by (by rewrite Es1).
  assert (HB : (if isNew then {[x]} else ∅ : gset ptr) ⊆ {[x]}) by (destruct isNew; set_solver).
  assert (Hown : isNew = true → pe_interest pe = i) by (intros ->; destruct Hr as (_ & p & ->); done).
  destruct (if decide (f_linkType inFace = LINK_TYPE_POINT_TO_POINT) then _ else _) eqn:Edup.
  - assert (isNew = false) as ->.
    { destruct isNew; [|done]. destruct Hr as (_ & p & ->). by case_decide. }
    pose proof Hl1 as (F & HF & _). wp_step. eapply wp_mono; [by eapply onInterestLoop_spec|]. intros [] s2 (Hs2 & Hf2 & (Et2 & _) & _).
    eapply dispatch_spec; [done|by rewrite Et2|done|]. intros st.
    eapply wp_mono; [eapply sl_afterReceiveLoopedInterest; [done|by rewrite Et2|done|done|by eapply live_frame]|]. by intros _ s3 [? _].
  - destruct (negb (hasInRecords pe)) eqn:Ein.
    + wp_step. apply wp_csM. destruct (fw_i_cs _ _ Hs1) as [Hcs Hgood].
      eapply wp_mono; [apply Cs_findImpl_spec; [done|by apply goodTable_plain]|]. intros r cs (Hcs' & Hfr & Etbl & ->).
      destruct (fw_cs_step _ s1 cs Hs1 Hcs') as [Hs2 Hf2]; [by rewrite Etbl|].
      destruct (lookupCs i (fw_cs s1)) as [[c e]|] eqn:Elook; cbn [fmap option_fmap option_map fst].
      * destruct Hcsn. split; [rewrite Es1 in Elook; by exists (c, e)|]. intros y pe' Hy Hay (L1 & L2 & L3). destruct isNew.
        { destruct Hr as [Hno _]. by destruct (Hno y pe' Hy Hay). }
        destruct Hk as (K1 & K2 & K3). assert (y = x) as ->.
        { eapply (pi_unique _ (tbi_pit _ (fw_i_tables _ _ Hs))); [exact Hy|exact Hr|done|done|congruence|congruence|congruence]. }
        rewrite Hr in Hy. injection Hy as <-. unfold hasInRecords in Ein. by destruct (pe_inRecords pe).
      * eapply wp_mono; [eapply onContentStoreMiss_spec; [done|done|done|done|done|done|by eapply live_frame]|by intros _ s3 [? _]].
    + eapply wp_mono; [by eapply onContentStoreMiss_spec|by intros _ s3 [? _]].
Qed.

Lemma region_nil regions : isInProducerRegion regions [] = false.
Proof. unfold isInProducerRegion. by induction regions. Qed.

Lemma lookupCs_ext i j (cs : Cs P) : i_name i = i_name j → i_canBePrefix i = i_canBePrefix j → i_mustBeFresh i = i_mustBeFresh j → lookupCs i cs = lookupCs j cs.
Proof.
  intros H1 H2 H3. unfold lookupCs. destruct (_ && _); [|done]. induction (cs_table cs) as [|x l IH]; cbn; [done|]. rewrite IH. unfold canSatisfy. by rewrite (matchesData_ext i j _ (ce_data x.2)), H3.
Qed.

Lemma servedFromCs_key s s' i j : fw_cs s' = fw_cs s → pits s' = pits s →
  i_name i = i_name j → i_canBePrefix i = i_canBePrefix j → i_mustBeFresh i = i_mustBeFresh j → servedFromCs s' i → servedFromCs s j.
Proof. intros E1 E2 H1 H2 H3 [L1 L2]. split; [by rewrite <- (lookupCs_ext i j), <- E1|]. intros x pe. rewrite <- E2. unfold matchKey in *. rewrite <- H1, <- H2, <- H3. apply L2. Qed.

Lemma onIncomingInterest_spec i ingress s :
  FwInv s → live s (ep_face ingress) → ¬ servedFromCs s i → wp (onIncomingInterest strategyOps i ingress) (λ _ s', FwInv s') s.
Proof.
  intros Hs Hl Hcsn. pose proof Hl as (F & HF & _). unfold onIncomingInterest. wp_step. apply wp_derefFace. exists F. split; [done|].
  wp_step. eapply wp_mono; [by apply fw_count|]. intros [] s1 (Hs1 & Hf1 & c & Es1).
  assert (Hl1 : live s1 (ep_face ingress)) by (by eapply live_frame). assert (HF1 : fw_faces s1 !! ep_face ingress = Some F) by (by rewrite Es1).
  case_decide; [eapply wp_mono; [apply (fw_updateFace ∅ _ _ F); [done|done|by repeat split]|by intros [] s2 [? _]]|].
  set (i1 := match _ with Some h => _ | None => _ end). destruct (_ && _); [by wp_step|]. wp_step. apply dnl_has_spec. intros h _.
  case_bool_decide; [eapply wp_mono; [by eapply onInterestLoop_spec|by intros [] s2 [? _]]|]. wp_step. wp_step.
  apply onIncomingInterest_insert_spec; [done|done| |].
  2: { intros Hserved. apply Hcsn. revert Hserved. apply servedFromCs_key; [by rewrite Es1..| | |]; destruct (_ && _); unfold i1; cbn; by destruct (i_hopLimit i). }
  destruct (isInProducerRegion (fw_regions s1) (i_forwardingHint i1)) eqn:Er.
  - rewrite bool_decide_eq_true_2; [apply region_nil|]. intros E. by rewrite E, region_nil in Er.
  - by rewrite andb_false_r.
Qed.

(** ** Expiry *)

Lemma cancel_absent B s k :
  FwInvBut B s → (∀ j, k = Some j → pendingOf (fw_tables s) !! j = None) →
  let s' := set_fw_tables (set_sched (cancel k (t_sched (fw_tables s))) (fw_tables s)) s in
  FwInvBut B s' ∧ fwFrame s s' ∧ pendingOf (fw_tables s') = pendingOf (fw_tables s).
Proof.
  intros Hs Hk s'. destruct (cancel_spec k (t_sched (fw_tables s))) as [_ Ep].
  assert (E : pendingOf (fw_tables s') = pendingOf (fw_tables s)).
  { unfold s'. cbn. rewrite Ep. destruct k as [j|]; [|done]. by rewrite delete_id by (by apply Hk). }
  assert (Hf : fwFrame s s') by frame_same. split; [|done].
  eapply FwInv_pits; [done|done| |apply Hs|..]; cbn.
  - apply TablesInv_sched; [|apply Hs]. intros j due p. unfold s' in E. cbn in E. by rewrite E.
  - apply Hs.
  - intros x pe Hx Ha Hb. destruct (fw_i_timer _ _ Hs _ _ Hx Ha Hb) as (j & due & ? & ?). exists j, due. split; [done|].
    unfold s' in E. cbn in E |- *. by rewrite E.
  - intros x pe j Hx Ha Hb Hj. unfold s' in E. cbn in E |- *. rewrite E. by eapply (fw_i_exempt _ _ Hs).
  - intros j due x Hj. unfold s' in E. cbn in E. rewrite E in Hj. by eapply (fw_i_event _ _ Hs).
Qed.

(** Taking a due PIT timer out of the scheduler. *)
Lemma take_timer s k due x :
  FwInv s → pendingOf (fw_tables s) !! k = Some (due, PitExpiry x) →
  let s' := set_fw_tables (set_sched (cancel (Some k) (t_sched (fw_tables s))) (fw_tables s)) s in
  FwInvBut {[x]} s' ∧ fwFrame s s'.
Proof.
  intros Hs Hk s'. destruct (cancel_spec (Some k) (t_sched (fw_tables s))) as [_ Ep]. destruct (fw_i_event _ _ Hs _ _ _ Hk) as (pe & Hx & Ha & Et).
  assert (Hf : fwFrame s s') by frame_same. split; [|done].
  eapply FwInv_pits; [done|done| |apply Hs|apply Hs|..]; cbn; unfold hasTimer; cbn; rewrite ?Ep.
  - apply TablesInv_sched; [|apply Hs]. intros j due' p. rewrite Ep. destruct (decide (k = j)) as [<-|]; [|by rewrite lookup_delete_ne].
    rewrite lookup_delete_eq, Hk. naive_solver.
  - intros y pe' Hy Ha' Hb. destruct (fw_i_timer _ _ Hs _ _ Hy Ha' ltac:(set_solver)) as (j & due' & Hj & Hp). exists j, due'.
    split; [done|]. rewrite lookup_delete_ne; [done|]. intros ->. rewrite Hk in Hp. simplify_eq. set_solver.
  - intros y pe' j Hy Ha' ->%elem_of_singleton Hj. simplify_eq. by rewrite lookup_delete_eq.
  - intros j due' y [_ Hj]%lookup_delete_Some. by eapply (fw_i_event _ _ Hs).
Qed.

Lemma onInterestFinalize_spec x pe s :
  FwInvBut {[x]} s → pits s !! x = Some pe → isAttached pe →
  wp (onInterestFinalize x) (λ _ s', FwInv s' ∧ pits s' = <[x := set_nameTreeEntry None pe]> (pits s) ∧
    pendingOf (fw_tables s') = pendingOf (fw_tables s) ∧ fw_sent s' = fw_sent s ∧ fw_cs s' = fw_cs s) s.
Proof.
  intros Hs Hx Ha. unfold onInterestFinalize. wp_step. eapply wp_mono; [by eapply insertDeadNonceList_spec|].
  intros [] s1 (Hs1 & Hf1 & dn & Es1). wp_step. apply wp_tb_derefPit. exists pe. split; [by rewrite Es1|]. wp_step.
  eapply (wp_mono _ (λ _ s2, FwInvBut {[x]} s2 ∧ fwFrame s1 s2 ∧ ∃ c, s2 = set_fw_counters c s1)).
  { destruct (pe_isSatisfied pe); by apply fw_count. }
  intros [] s2 (Hs2 & Hf2 & c & Es2). wp_step. apply wp_tb. unfold cancelM. wp_step.
  assert (Hx2 : pits s2 !! x = Some pe) by (by rewrite Es2, Es1).
  destruct (cancel_absent {[x]} s2 (pe_expiryTimer pe) Hs2) as (Hs3 & Hf3 & Ep3).
  { intros j Hj. by eapply (fw_i_exempt _ _ Hs2); [..|apply elem_of_singleton_2|]. }
  set (s3 := set_fw_tables _ s2) in *. apply wp_tb.
  eapply wp_mono; [apply (Pit_erase_spec x pe true); [apply Hs3|exact Hx2|done]|].
  intros [] t (Ht & Ho & Ep & Htidy). pose proof Ho as (_ & EM & _). injection EM as _ _ Esched.
  assert (E3 : pits s3 = pits s ∧ fw_sent s3 = fw_sent s ∧ fw_cs s3 = fw_cs s ∧ pendingOf (fw_tables s2) = pendingOf (fw_tables s))
    by (unfold s3; cbn; by rewrite Es2, Es1).
  destruct E3 as (E3 & E4 & E5 & E6). split; [|split; [|split; [|done]]].
  2: { change (t_pits t = <[x := set_nameTreeEntry None pe]> (pits s)). by rewrite Ep, E3. }
  2: { change (pendingOf t = pendingOf (fw_tables s)). rewrite Esched, <- E6. exact Ep3. }
  eapply FwInv_pitOnly; [exact Hs3|done|by apply Htidy; [|apply Hs3]|done|..]; unfold hasTimer; rewrite ?Ep, ?Esched.
  - intros y pe' [[<- <-]|[_ Hy]]%lookup_insert_Some Ha'; [by destruct Ha'|by eapply (fw_i_pits _ _ Hs3)].
  - intros y pe' [[<- <-]|[Hne Hy]]%lookup_insert_Some Ha' _; [by destruct Ha'|]. eapply (fw_i_timer _ _ Hs3); [done|done|set_solver].
  - intros y pe' k _ _ Hb. set_solver.
  - intros k due y Hk. destruct (fw_i_event _ _ Hs3 _ _ _ Hk) as (pe' & Hy & Ha' & Et). exists pe'. rewrite lookup_insert_ne; [done|].
    intros <-. assert (pe' = pe) as -> by (cbn in Hy; congruence).
    pose proof (fw_i_exempt _ _ Hs3 x pe k Hx2 Ha ltac:(set_solver) Et) as Hnone. unfold s3 in Hnone. cbn in Hnone, Hk. congruence.
Qed.

Lemma pit_fire_spec k due x s :
  FwInv s → pendingOf (fw_tables s) !! k = Some (due, PitExpiry x) →
  wp (pit_fire k) (λ _ s', FwInv s' ∧ pendingOf (fw_tables s') = delete k (pendingOf (fw_tables s)) ∧ fw_sent s' = fw_sent s ∧
    ∃ pe, pits s !! x = Some pe ∧ pits s' = <[x := set_nameTreeEntry None pe]> (pits s)) s.
Proof.
  intros Hs Hk. destruct (fw_i_event _ _ Hs _ _ _ Hk) as (pe & Hx & Ha & _). unfold pit_fire. wp_step. wp_step. wp_step.
  wp_step; [exact Hk|]. wp_step. apply wp_tb. unfold cancelM. wp_step. destruct (take_timer s k due x Hs Hk) as [Hs1 Hf1].
  eapply wp_mono; [by eapply (onInterestFinalize_spec x pe)|]. intros [] s2 (Hs2 & Ep & Esc & Esent & _). split; [done|].
  split; [rewrite Esc; cbn; by rewrite (proj2 (cancel_spec (Some k) (t_sched (fw_tables s))))|]. split; [by rewrite Esent|]. eauto.
Qed.

(** ** Incoming Data *)

Lemma closeEntry_fw B x pe s :
  FwInvBut B s → B ⊆ {[x]} → pits s !! x = Some pe → isAttached pe → wp (closeEntry x) (λ _ s', FwInv s' ∧ fwFrame s s') s.
Proof.
  intros Hs HB Hx Ha. eapply wp_mono; [by eapply closeEntry_spec|]. intros [] s' (? & ? & _). done.
Qed.

Lemma mm_emplace_elem k x l (u : Downstream * ptr) : u ∈ mm_emplace k x l → u = (k, x) ∨ u ∈ l.
Proof.
  induction l as [|v l IH]; cbn; [set_solver|]. destruct (downstream_cmp k v.1); [|set_solver|];
    (intros [->|Hu]%elem_of_cons; [set_solver|destruct (IH Hu); set_solver]).
Qed.

Lemma mm_emplaces_elem x ds acc (u : Downstream * ptr) :
  u ∈ foldl (λ acc endpoint, mm_emplace endpoint x acc) acc ds → u ∈ acc ∨ u.2 = x.
Proof.
  revert acc. induction ds as [|k ds IH]; intros acc; cbn; [by left|]. intros [Hu|?]%IH; [|by right].
  apply mm_emplace_elem in Hu as [->|?]; [by right|by left].
Qed.

(** Deleting the in-records of some downstreams. *)
Definition deleteIns (l : list Downstream) pe : PitEntry := foldl (λ pe ds, deleteInRecord ds.1 pe) pe l.

Lemma deleteIns_loop B x (l : list Downstream) pe s :
  FwInvBut B s → pits s !! x = Some pe → isAttached pe →
  wp (forM l (λ ds, tb (updatePit x (deleteInRecord ds.1)))) (λ _ s', FwInvBut B s' ∧ fwFrame s s' ∧
    s' = set_fw_tables (set_pits (<[x := deleteIns l pe]> (pits s)) (fw_tables s)) s) s.
Proof.
  revert s pe. induction l as [|ds l IH]; intros s pe Hs Hx Ha; cbn [forM].
  - wp_step. split; [done|]. split; [apply fwFrame_refl|]. cbn. rewrite insert_id by done. by destruct s as [[] ? ? ? ? ? ? ? ? ? ? ? ?].
  - wp_step. destruct (keeps_deleteIn ds.1 pe) as [Hk Ht].
    eapply (fw_updatePit B); [done..|apply PeOk_deleteIn; by eapply (fw_i_pits _ _ Hs)|]. intros s1 Es1 Hs1 Hf1 Hx1.
    eapply wp_mono; [eapply IH; [done|exact Hx1|by eapply keeps_attached]|]. intros [] s2 (Hs2 & Hf2 & Es2).
    split; [done|]. split; [exact (fwFrame_trans _ _ _ Hf1 Hf2)|]. rewrite Es2, Es1. cbn. by rewrite insert_insert_eq.
Qed.

(** The end of a round: Dead Nonce List, freshness and the records. *)
Lemma satisfyEntry_tail d ingress x pe sat s :
  FwInv s → pits s !! x = Some pe → isAttached pe → goodData d →
  wp (insertDeadNonceList x (Some (ep_face ingress));;
      tb (updatePit x (set_dataFreshnessPeriod (d_freshnessPeriod d)));;
      forM sat (λ endpoint, tb (updatePit x (deleteInRecord endpoint.1)));;
      tb (updatePit x (deleteOutRecord (ep_face ingress)))) (λ _ s', FwInv s' ∧ fwFrame s s' ∧
    fw_sent s' = fw_sent s ∧ fw_faces s' = fw_faces s ∧
    fw_tables s' = set_pits (<[x := deleteOutRecord (ep_face ingress) (deleteIns sat (set_dataFreshnessPeriod (d_freshnessPeriod d) pe))]> (pits s)) (fw_tables s)) s.
Proof.
  intros Hs Hx Ha [_ Hd]. wp_step. eapply wp_mono; [by eapply insertDeadNonceList_spec|]. intros [] s1 (Hs1 & Hf1 & dn & Es1).
  assert (Hx1 : pits s1 !! x = Some pe) by (by rewrite Es1). wp_step.
  eapply (fw_updatePit ∅); [done|exact Hx1|done|unfold keepsPit, keepsKey; tauto|done| |].
  { destruct (fw_i_pits _ _ Hs1 _ _ Hx1 Ha) as [? ? ? ?]. by split. }
  intros s2 Es2 Hs2 Hf2 Hx2. wp_step. eapply wp_mono; [by eapply deleteIns_loop|]. intros [] s3 (Hs3 & Hf3 & Es3).
  assert (Hx3 : pits s3 !! x = Some (deleteIns sat (set_dataFreshnessPeriod (d_freshnessPeriod d) pe))).
  { rewrite Es3. cbn. by rewrite lookup_insert_eq. }
  destruct (frame_pit _ _ _ _ Hf3 Hx2) as (pe3 & Hx3' & Hk3). rewrite Hx3 in Hx3'. injection Hx3' as <-.
  destruct (keeps_deleteOut (ep_face ingress) (deleteIns sat (set_dataFreshnessPeriod (d_freshnessPeriod d) pe))) as [Hk Ht].
  assert (Ha3 : isAttached (deleteIns sat (set_dataFreshnessPeriod (d_freshnessPeriod d) pe))) by (by eapply keeps_attached).
  eapply (fw_updatePit ∅); [done|exact Hx3|done|done|done|apply PeOk_deleteOut; by eapply (fw_i_pits _ _ Hs3)|].
  intros s4 Es4 Hs4 Hf4 _. split; [done|]. split; [exact (fwFrame_trans _ _ _ Hf1 (fwFrame_trans _ _ _ Hf2 (fwFrame_trans _ _ _ Hf3 Hf4)))|].
  rewrite Es4, Es3, Es2, Es1. cbn. rewrite !insert_insert_eq. done.
Qed.

Lemma satisfyEntry_spec d ingress x pe sat unsat s :
  FwInv s → pits s !! x = Some pe → isAttached pe → matchesData (pe_interest pe) d = true → goodData d → live s (ep_face ingress) →
  (∀ ds, ds ∈ sat → live s ds.1) →
  wp (satisfyEntry strategyOps d ingress x sat unsat) (λ r s', FwInv s' ∧ fwFrame s s' ∧ (∀ ds, ds ∈ r.1 → live s' ds.1) ∧
    ∀ u, u ∈ r.2 → u ∈ unsat ∨ u.2 = x) s.
Proof.
  intros Hs Hx Ha Hm Hd Hl Hsat. unfold satisfyEntry. eapply dispatch_spec; [done..|]. intros st. wp_step.
  eapply wp_mono; [by eapply sl_satisfyInterest|]. intros [sat' uns] s1 (Hs1 & Hf1 & Hl1). cbn [fst] in Hl1.
  destruct (frame_pit _ _ _ _ Hf1 Hx) as (pe1 & Hx1 & Hk1). wp_step.
  eapply (wp_mono _ (λ _ s2, FwInv s2 ∧ fwFrame s1 s2)).
  { case_decide; [|by apply noop_spec]. eapply (closeEntry_fw ∅); [done|set_solver|done|by eapply keeps_attached]. }
  intros [] s2 [Hs2 Hf2]. destruct (frame_pit _ _ _ _ Hf2 Hx1) as (pe2 & Hx2 & Hk2).
  assert (Ha2 : isAttached pe2) by (eapply keeps_attached; [exact Hk2|]; by eapply keeps_attached).
  pose proof (satisfyEntry_tail d ingress x pe2 sat' s2 Hs2 Hx2 Ha2 Hd) as Htail. repeat (wp_step; apply wp_bind in Htail;
    eapply wp_mono; [exact Htail|]; clear Htail; intros [] ? Htail; cbv beta in Htail).
  wp_step. eapply wp_mono; [exact Htail|]. intros [] s3 (Hs3 & Hf3 & _). wp_step. cbn [fst snd].
  pose proof (fwFrame_trans _ _ _ Hf2 Hf3) as Hf23. split; [done|]. split; [exact (fwFrame_trans _ _ _ Hf1 Hf23)|]. split.
  - intros ds Hds. eapply live_frame; [exact Hf23|]. by apply Hl1.
  - intros u. apply mm_emplaces_elem.
Qed.

Lemma keepsPit_matches pe pe' d : keepsPit pe pe' → matchesData (pe_interest pe') d = matchesData (pe_interest pe) d.
Proof. intros [(_ & E1 & E2 & _) _]. by apply matchesData_ext. Qed.

Lemma satisfyEntries_spec d ingress l sat unsat s :
  FwInv s → goodData d → live s (ep_face ingress) →
  (∀ x, x ∈ l → ∃ pe, pits s !! x = Some pe ∧ isAttached pe ∧ matchesData (pe_interest pe) d = true) →
  (∀ ds, ds ∈ sat → live s ds.1) →
  wp (satisfyEntries strategyOps d ingress l sat unsat) (λ r s', FwInv s' ∧ fwFrame s s' ∧ (∀ ds, ds ∈ r.1 → live s' ds.1) ∧
    ∀ u, u ∈ r.2 → u ∈ unsat ∨ u.2 ∈ l) s.
Proof.
  revert sat unsat s. induction l as [|x l IH]; intros sat unsat s Hs Hd Hl Hm Hsat; cbn [satisfyEntries].
  - wp_step. split; [done|]. split; [apply fwFrame_refl|]. split; [done|]. intros u Hu. by left.
  - destruct (Hm x) as (pe & Hx & Ha & Hxm); [set_solver|]. wp_step.
    eapply wp_mono; [by eapply satisfyEntry_spec|]. intros [sat1 uns1] s1 (Hs1 & Hf1 & Hsat1 & Hu1). cbn [fst snd] in *.
    eapply wp_mono; [apply IH; [done|done|by eapply live_frame| |done]|].
    + intros y Hy. destruct (Hm y) as (pey & Hy1 & Hay & Hym); [set_solver|].
      destruct (frame_pit _ _ _ _ Hf1 Hy1) as (pey' & Hy2 & Hk). exists pey'. split; [done|]. split; [by eapply keeps_attached|].
      by rewrite (keepsPit_matches _ _ _ Hk).
    + intros [sat2 uns2] s2 (Hs2 & Hf2 & Hsat2 & Hu2). cbn [fst snd] in *. split; [done|]. split; [exact (fwFrame_trans _ _ _ Hf1 Hf2)|].
      split; [done|]. intros u [Hu|Hu]%Hu2; [|set_solver]. apply Hu1 in Hu as [?| ->]; [by left|set_solver].
Qed.

Lemma settleUnsatisfied_spec sat u pe s :
  FwInv s → pits s !! u.2 = Some pe → isAttached pe →
  wp (settleUnsatisfied sat u) (λ _ s', FwInv s' ∧ fwFrame s s') s.
Proof.
  intros Hs Hx Ha. unfold settleUnsatisfied. case_decide; [|by apply noop_spec]. wp_step.
  destruct (keeps_deleteIn u.1.1 pe) as [Hk Ht].
  eapply (fw_updatePit ∅); [done..|apply PeOk_deleteIn; by eapply (fw_i_pits _ _ Hs)|]. intros s1 Es1 Hs1 Hf1 Hx1.
  wp_step. apply wp_tb_derefPit. eexists. split; [exact Hx1|]. destruct (negb _).
  - eapply wp_mono; [eapply (closeEntry_fw ∅); [done|set_solver|exact Hx1|by eapply keeps_attached]|].
    intros [] s2 [Hs2 Hf2]. split; [done|exact (fwFrame_trans _ _ _ Hf1 Hf2)].
  - wp_step. done.
Qed.

(** What is delivered to one downstream: nothing on the face the Data came from,
    unless it is an ad hoc link. *)
Definition delivered s d ingress (ds : Downstream) : list Sent :=
  match fw_faces s !! ds.1, fw_faces s !! ep_face ingress with
  | Some F, Some inFace =>
      if (f_id F =? f_id inFace)%Z && (ds.2 =? ep_endpoint ingress)%Z && bool_decide (f_linkType F ≠ LINK_TYPE_AD_HOC)
      then [] else sentData F ds.1 d
  | _, _ => []
  end.

Lemma deliver_spec B d ingress ds s :
  FwInvBut B s → live s (ep_face ingress) → live s ds.1 →
  wp (deliver d ingress ds) (λ _ s', FwInvBut B s' ∧ fwFrame s s' ∧ sameStores s s' ∧ fw_sent s' = fw_sent s ++ delivered s d ingress ds) s.
Proof.
  intros Hs Hl Hds. destruct Hl as (inFace & Hin & Hl'). pose proof Hds as (F & HF & _). unfold deliver, delivered. wp_step.
  apply wp_derefFace. exists F. split; [done|]. wp_step. apply wp_derefFace. exists inFace. split; [done|]. rewrite HF, Hin.
  destruct (_ && _ && _); [wp_step; rewrite app_nil_r; split; [done|]; split; [apply fwFrame_refl|done]|].
  wp_step. eapply wp_mono; [by eapply onOutgoingData_spec|]. intros r s1 (Hs1 & Hf1 & Hst & Hr). wp_step.
  split; [done|]. split; [done|]. split; [done|]. unfold sentData. destruct (_ && _); destruct Hr as [_ ->]; [by rewrite app_nil_r|done].
Qed.

(** Running an action that keeps the invariant on each element of a list. *)
Lemma fw_forM {A} (I : A → Forwarder P → Prop) (g : A → M (Forwarder P) unit) l s :
  (∀ a s s', fwFrame s s' → I a s → I a s') →
  (∀ a s, a ∈ l → FwInv s → I a s → wp (g a) (λ _ s', FwInv s' ∧ fwFrame s s') s) →
  FwInv s → (∀ a, a ∈ l → I a s) → wp (forM l g) (λ _ s', FwInv s' ∧ fwFrame s s') s.
Proof.
  intros HI'. revert s. induction l as [|a l IH]; intros s Hg Hs Hl; cbn [forM]; [by apply noop_spec|].
  wp_step. eapply wp_mono; [apply Hg; [set_solver|done|apply Hl; set_solver]|]. intros _ s1 [Hs1 Hf1].
  eapply wp_mono; [apply IH; [|done|]|].
  - intros b s2 Hb. apply Hg. set_solver.
  - intros b Hb. eapply HI'; [exact Hf1|]. apply Hl. set_solver.
  - intros [] s2 [Hs2 Hf2]. split; [done|exact (fwFrame_trans _ _ _ Hf1 Hf2)].
Qed.

Lemma admitted_good now d uns t t' : admitted now d uns t t' → goodTable t → goodData d → goodTable t'.
Proof.
  intros (i & e & Hi & _ & _ & [(Hp & _ & Ed & _)|(e0 & He0 & -> & Ee & _)]) Ht Hd c e' He'.
  - rewrite Hp in He'. apply elem_of_cons in He' as [[= -> ->]|?]; [by rewrite Ed|by eapply Ht].
  - unfold tupdate in He'. apply list_elem_of_fmap in He' as ([j f] & Ej & Hf). cbn in Ej. case_decide; simplify_eq.
    + rewrite Ee. by eapply Ht.
    + by eapply Ht.
Qed.

Lemma fw_Cs_insert B d uns s :
  FwInvBut B s → goodData d →
  wp (csM (Cs_insert d uns)) (λ _ s', FwInvBut B s' ∧ fwFrame s s' ∧ s' = set_fw_cs (fw_cs s') s) s.
Proof.
  intros Hs Hd. destruct (fw_i_cs _ _ Hs) as [Hcs Hg]. apply wp_csM. eapply wp_mono; [by apply Cs_insert_spec|].
  intros [] cs' (Hcs' & _ & H). destruct (fw_cs_step B s cs') as [H1 H2]; [done|done| |done].
  destruct (_ && _ && _); [|by rewrite H]. destruct H as (t' & Had & Hsub & _). pose proof (admitted_good _ _ _ _ _ Had Hg Hd) as Hg'.
  intros c e He. eapply Hg', elem_of_sublist; done.
Qed.

Lemma onDataUnsolicited_spec d ingress s :
  FwInv s → goodData d → live s (ep_face ingress) → wp (onDataUnsolicited d ingress) (λ _ s', FwInv s' ∧ fwFrame s s' ∧
    fw_tables s' = fw_tables s ∧ fw_sent s' = fw_sent s) s.
Proof.
  intros Hs Hd (F & HF & Hl). unfold onDataUnsolicited. wp_step. apply wp_derefFace. exists F. split; [done|]. wp_step. wp_step. wp_step.
  eapply (wp_mono _ (λ _ s', FwInv s' ∧ fwFrame s s' ∧ s' = set_fw_cs (fw_cs s') s)).
  { destruct (decide_unsolicited _ _); [wp_step; split; [done|]; split; [apply fwFrame_refl|by destruct s]|by apply fw_Cs_insert]. }
  intros [] s1 (Hs1 & Hf1 & Es1). eapply wp_mono; [by apply fw_count|]. intros [] s2 (Hs2 & Hf2 & c & ->).
  split; [done|]. split; [exact (fwFrame_trans _ _ _ Hf1 Hf2)|]. rewrite Es1. done.
Qed.

Lemma onIncomingData_spec d ingress s :
  FwInv s → goodData d → live s (ep_face ingress) → wp (onIncomingData strategyOps d ingress) (λ _ s', FwInv s' ∧ fwFrame s s') s.
Proof.
  intros Hs Hd Hl. pose proof Hl as (F & HF & _). unfold onIncomingData. wp_step. apply wp_derefFace. exists F. split; [done|]. wp_step.
  set (d1 := setDataIncomingFaceId _ d). assert (Hd1 : goodData d1) by done.
  eapply wp_mono; [by apply fw_count|]. intros [] s1 (Hs1 & Hf1 & _). destruct (_ && _); [by wp_step|]. wp_step. wp_step. wp_step.
  destruct (Pit_findAllDataMatches_spec d1 (fw_tables s1)) as (l & El & _ & Hm); [apply Hs1|]. wp_step; [exact El|].
  pose proof (live_frame _ _ _ Hf1 Hl) as Hl1. case_decide as Enil.
  { eapply wp_mono; [by apply onDataUnsolicited_spec|]. intros [] s2 (Hs2 & Hf2 & _). split; [done|exact (fwFrame_trans _ _ _ Hf1 Hf2)]. }
  wp_step. eapply wp_mono; [by apply fw_Cs_insert|]. intros [] s2 (Hs2 & Hf2 & Es2).
  pose proof (fwFrame_trans _ _ _ Hf1 Hf2) as Hf02. wp_step.
  assert (Hm2 : ∀ x, x ∈ l → ∃ pe, pits s2 !! x = Some pe ∧ isAttached pe ∧ matchesData (pe_interest pe) d1 = true).
  { intros x Hx. rewrite Es2. by apply Hm. }
  eapply wp_mono; [eapply satisfyEntries_spec; [done|done|by eapply live_frame|exact Hm2|by intros ? ?%elem_of_nil]|].
  intros [sat uns] s3 (Hs3 & Hf3 & Hsat & Hun). cbn [fst snd] in *. pose proof (fwFrame_trans _ _ _ Hf02 Hf3) as Hf03. wp_step.
  eapply wp_mono; [apply (fw_forM (λ u s, ∃ pe, pits s !! u.2 = Some pe ∧ isAttached pe))|].
  - intros u sa sb Hf (pe & Hx & Ha). destruct (frame_pit _ _ _ _ Hf Hx) as (pe' & Hx' & Hk). exists pe'. split; [done|by eapply keeps_attached].
  - intros u sa Hu Hsa (pe & Hx & Ha). by eapply settleUnsatisfied_spec.
  - done.
  - intros u [?%elem_of_nil|Hu]%Hun; [done|]. destruct (Hm2 _ Hu) as (pe & Hx & Ha & _).
    destruct (frame_pit _ _ _ _ Hf3 Hx) as (pe' & Hx' & Hk). exists pe'. split; [done|by eapply keeps_attached].
  - intros [] s4 [Hs4 Hf4]. pose proof (fwFrame_trans _ _ _ Hf03 Hf4) as Hf04.
    eapply wp_mono; [apply (fw_forM (λ ds s, live s (ep_face ingress) ∧ live s ds.1))|].
    + intros ds sa sb Hf [? ?]. split; by eapply live_frame.
    + intros ds sa _ Hsa [? ?]. eapply wp_mono; [by apply deliver_spec|]. intros [] sb (? & ? & _). done.
    + done.
    + intros ds Hds. split; [by eapply live_frame|]. eapply live_frame; [exact Hf4|]. by apply Hsat.
    + intros [] s5 [Hs5 Hf5]. split; [done|exact (fwFrame_trans _ _ _ Hf04 Hf5)].
Qed.

(** ** Incoming Nacks and the other triggers *)

Lemma keeps_nack f n pe :
  let pe' := updateOutRecord f (λ r, (setIncomingNack n r).1) pe in keepsPit pe pe' ∧ pe_expiryTimer pe' = pe_expiryTimer pe.
Proof.
  assert (Hr : ∀ r, out_face (setIncomingNack n r).1 = out_face r) by (intros r; unfold setIncomingNack; by destruct (_ =? _)%Z).
  pose proof (updateOutRecord_wf f _ pe Hr) as Hw. cbv zeta. rewrite (updateOutRecord_frame f (λ r, (setIncomingNack n r).1) pe) in *.
  unfold keepsPit, keepsKey. tauto.
Qed.

Lemma PeOk_nack s pe f n : PeOk s pe → PeOk s (updateOutRecord f (λ r, (setIncomingNack n r).1) pe).
Proof.
  assert (Hr : ∀ r, out_face (setIncomingNack n r).1 = out_face r) by (intros r; unfold setIncomingNack; by destruct (_ =? _)%Z).
  intros [H1 H2 H3 H4]. pose proof (updateOutRecord_frame f (λ r, (setIncomingNack n r).1) pe) as E. split.
  - rewrite E. exact H1.
  - intros r Hel. assert (Hf : out_face r ∈ out_face <$> pe_outRecords (updateOutRecord f (λ r, (setIncomingNack n r).1) pe))
      by (apply list_elem_of_fmap; eauto).
    rewrite (updateOutRecord_faces f (λ r, (setIncomingNack n r).1)) in Hf by done. apply list_elem_of_fmap in Hf as (r' & -> & Hr').
    by apply H2.
  - rewrite E. exact H3.
  - rewrite E. exact H4.
Qed.

Lemma onIncomingNack_spec n ingress s :
  FwInv s → live s (ep_face ingress) → wp (onIncomingNack strategyOps n ingress) (λ _ s', FwInv s' ∧ fwFrame s s') s.
Proof.
  intros Hs Hl. pose proof Hl as (F & HF & _). unfold onIncomingNack. wp_step. apply wp_derefFace. exists F. split; [done|]. wp_step.
  set (n1 := setNackIncomingFaceId _ n).
  eapply wp_mono; [by apply fw_count|]. intros [] s1 (Hs1 & Hf1 & _). case_decide; [by wp_step|]. wp_step.
  eapply wp_tb_reads; [apply (Pit_find_spec (nack_interest n1)); apply Hs1|]. intros [x|]; [|intros _; by wp_step].
  intros (pe & Hx & Ha & Hk). wp_step. apply wp_tb_derefPit. exists pe. split; [done|].
  destruct (getOutRecord pe _) as [r|]; [|by wp_step]. destruct (negb _); [by wp_step|]. wp_step.
  destruct (keeps_nack (ep_face ingress) n1 pe) as [Hkn Htn].
  eapply (fw_updatePit ∅); [done..|apply PeOk_nack; by eapply (fw_i_pits _ _ Hs1)|]. intros s2 Es2 Hs2 Hf2 Hx2.
  pose proof (keeps_attached _ _ Hkn Ha) as Ha2. unfold getNow.
  wp_step. apply wp_tb_derefPit. eexists. split; [exact Hx2|]. wp_step. wp_step. wp_step.
  eapply (wp_mono _ (λ _ s3, FwInv s3 ∧ fwFrame s2 s3)).
  { destruct (negb _); [|by apply noop_spec]. eapply wp_mono; [eapply (setExpiryTimer_spec ∅); [done|set_solver|exact Hx2|done]|].
    intros [] s3 (? & ? & _). done. }
  intros [] s3 [Hs3 Hf3]. destruct (frame_pit _ _ _ _ Hf3 Hx2) as (pe3 & Hx3 & Hk3). pose proof (keeps_attached _ _ Hk3 Ha2) as Ha3.
  pose proof (fwFrame_trans _ _ _ (fwFrame_trans _ _ _ Hf1 Hf2) Hf3) as Hf03.
  eapply dispatch_spec; [done..|]. intros st. eapply wp_mono; [eapply sl_afterReceiveNack; [done..|by eapply live_frame]|].
  intros [] s4 [Hs4 Hf4]. split; [done|exact (fwFrame_trans _ _ _ Hf03 Hf4)].
Qed.

Lemma onDroppedInterest_spec i f s :
  FwInv s → live s f → wp (onDroppedInterest strategyOps i f) (λ _ s', FwInv s' ∧ fwFrame s s') s.
Proof.
  intros Hs Hl. unfold onDroppedInterest, effectiveStrategy. wp_step. wp_step.
  eapply wp_tb_reads; [apply findEffectiveStrategy_spec; apply Hs|]. intros [p st] _. wp_step. by apply sl_onDroppedInterest.
Qed.

(** The PIT entries of a name tree entry, and that it has some. *)
Lemma pitEntries_attached B s p e :
  FwInvBut B s → ents (fw_tables s) !! p = Some e → ∀ x, x ∈ e_pitEntries e → ∃ pe, pits s !! x = Some pe ∧ pe_nameTreeEntry pe = Some p.
Proof.
  intros Hs He x Hx. destruct (pi_fwd _ (tbi_pit _ (fw_i_tables _ _ Hs)) p (e_name e) (e_pitEntries e) x) as (pe & ? & ? & _); [|done|by exists pe].
  apply view_lookup. exists e. split; [done|]. split; [done|]. unfold pitF. by destruct (e_pitEntries e); [apply elem_of_nil in Hx|].
Qed.

Lemma attached_entry B s x pe p :
  FwInvBut B s → pits s !! x = Some pe → pe_nameTreeEntry pe = Some p → ∃ e, ents (fw_tables s) !! p = Some e.
Proof.
  intros Hs Hx Hp. destruct (pi_back _ (tbi_pit _ (fw_i_tables _ _ Hs)) _ _ _ Hx Hp) as (n & l & (e & He & _)%view_lookup & _). by exists e.
Qed.

Lemma onNewNextHop_spec prefix nh s :
  FwInv s → live s (nh_face nh) → wp (onNewNextHop strategyOps prefix nh) (λ _ s', FwInv s' ∧ fwFrame s s') s.
Proof.
  intros Hs Hl. unfold onNewNextHop. wp_step. wp_step. wp_step.
  destruct (partialEnumerate_elem (t_nt (fw_tables s)) prefix (newNextHopSel prefix)) as (l & El & _ & Hl'); [apply Hs|].
  wp_step; [exact El|].
  set (I x p (s : Forwarder P) := live s (nh_face nh) ∧ ∃ pe, pits s !! x = Some pe ∧ pe_nameTreeEntry pe = Some p).
  assert (HF : ∀ x p s s', fwFrame s s' → I x p s → I x p s').
  { intros x p sa sb Hf (? & pe & Hx & Hp). split; [by eapply live_frame|]. destruct (frame_pit _ _ _ _ Hf Hx) as (pe' & ? & (E & _) & _).
    exists pe'. by rewrite E. }
  apply (fw_forM (λ p s, ∃ x, I x p s)).
  - intros p sa sb Hf (x & Hx). exists x. by eapply HF.
  - intros p sa _ Hsa (x & Hla & pe & Hx & Hp). destruct (attached_entry _ _ _ _ _ Hsa Hx Hp) as (e & He).
    wp_step. apply wp_tb, nt_derefEntry. exists e. split; [done|]. rewrite set_nt_same, set_fw_tables_same.
    apply (fw_forM (λ y s, I y p s)).
    + intros y s1 s2. apply HF.
    + intros y s1 _ Hs1 (Hl1 & pey & Hy & Ha). eapply dispatch_spec; [done|done|by eexists|]. intros st.
      eapply sl_afterNewNextHop; [done|exact Hy|by eexists|done].
    + done.
    + intros y Hy. split; [done|]. by eapply pitEntries_attached.
  - done.
  - intros p (q & eq & e & _ & _ & _ & He & Hsel)%Hl'. unfold newNextHopSel in Hsel. destruct (_ && _); [done|]. cbn in Hsel.
    apply negb_true_iff, bool_decide_eq_false in Hsel. destruct (e_pitEntries e) as [|x l0] eqn:Epe; [done|].
    exists x. split; [done|]. eapply pitEntries_attached; [done|done|]. rewrite Epe. set_solver.
Qed.
End Pipelines.
