(* ===== verification/PipelineSpecs.v ===== *)
(** * What the pipelines do

    The functional behaviour of the incoming Interest and Data pipelines, with
    strategies that keep the base class's treatment of loops, Content Store hits
    and incoming Data. *)

From Stdlib Require Import ZArith Lia.
From stdpp Require Import base gmap option sorting list.
From S2P Require Import Prelude Scheduler CityHash Ndn FibEntry PitEntry NameTreeEntry Hashtable NameTree.
From S2P Require Import NameTreeIterator Tables Fib Pit Measurements StrategyChoice Cleanup Cs DeadNonceList.
From S2P Require Import Algorithm FwState Strategies Forwarder FwInvariant StrategySpecs ForwarderSpecs.

(** A strategy that does not override the virtual functions for loops, Content
    Store hits and incoming Data. *)
Class BaseStrategy {N : NdnCxx} {NP : NdnPacket N} {SP : ScopePrefix N} {SC : Scheduler} {RE : RandomEngine} {P : Type}
  (ops : StrategyOps (P := P)) : Prop := {
  bs_looped : so_afterReceiveLoopedInterest ops = base_afterReceiveLoopedInterest;
  bs_before : so_beforeSatisfyInterest ops = base_beforeSatisfyInterest;
  bs_satisfy : so_satisfyInterest ops = base_satisfyInterest base_beforeSatisfyInterest;
  bs_hit : so_afterContentStoreHit ops = base_afterContentStoreHit;
}.

#[export] Instance standardBase {N : NdnCxx} {NP : NdnPacket N} {SP : ScopePrefix N} {SC : Scheduler} {HI : HashedIndex}
  {RE : RandomEngine} {US : UnorderedSet} {SN : StrategyNames N} {P : Type} (strategy : Strategy) :
  BaseStrategy (standardStrategies (P := P) strategy).
Proof. unfold standardStrategies. repeat case_decide; by split. Qed.

Section Pipelines.
Context {N : NdnCxx} {NL : NdnCxxLaws N} {NP : NdnPacket N} {NPL : NdnPacketLaws N NP} {SP : ScopePrefix N}
  {SC : Scheduler} {SCL : SchedulerLaws SC} {HI : HashedIndex} {HIL : HashedIndexLaws HI} {RE : RandomEngine}
  {US : UnorderedSet} {USL : UnorderedSetLaws US} {P : Type} {Pol : Policy P} {PL : PolicyLaws Pol}.
Context (strategyOps : Strategy → StrategyOps (P := P)) {SL : ∀ st, StrategyLaws (strategyOps st)}.
Implicit Types (s : Forwarder P) (x : ptr) (f : FacePtr) (F : Face) (pe : PitEntry) (i : Interest) (d : Data) (B : gset ptr).

(** ** Incoming Interests *)

(** The Interest passes the HopLimit and scope checks. *)
Definition accepted F i : Prop :=
  i_hopLimit i ≠ Some 0%Z ∧ (f_scope F = FACE_SCOPE_NON_LOCAL → isPrefixOf LOCALHOST (i_name i) = false).

(** The Interest tagged with its incoming face and with the HopLimit decremented,
    and without a forwarding hint that has reached the producer region. *)
Definition tagged F i : Interest :=
  let i := setIncomingFaceId (Some (f_id F)) i in
  match i_hopLimit i with Some h => setHopLimit (Some (h - 1)%Z) i | None => i end.
Definition received s F i : Interest :=
  if isInProducerRegion (fw_regions s) (i_forwardingHint i) then setForwardingHint [] (tagged F i) else tagged F i.

Lemma tagged_key F i : i_name (tagged F i) = i_name i ∧ i_nonce (tagged F i) = i_nonce i ∧
  i_canBePrefix (tagged F i) = i_canBePrefix i ∧ i_mustBeFresh (tagged F i) = i_mustBeFresh i ∧
  i_forwardingHint (tagged F i) = i_forwardingHint i ∧ i_nextHopFaceId (tagged F i) = i_nextHopFaceId i.
Proof. unfold tagged. cbn. by destruct (i_hopLimit i). Qed.

(** The Dead Nonce List has the Nonce. *)
Definition inDnl s i : bool :=
  match makeEntry (i_name i) (i_nonce i) with
  | Some h => bool_decide (is_Some (hfind h (dn_queue (fw_dnl s))))
  | None => false
  end.

Lemma onIncomingInterest_outcome i ingress F (R : option (Forwarder P * unit) → Prop) s :
  FwInv s → live s (ep_face ingress) → fw_faces s !! ep_face ingress = Some F → accepted F i →
  (∀ s1 c, s1 = set_fw_counters c s → FwInv s1 →
    if inDnl s i then R (onInterestLoop (tagged F i) ingress s1)
    else R (onIncomingInterest_insert strategyOps (received s F i) ingress F s1)) →
  R (onIncomingInterest strategyOps i ingress s).
Proof.
  intros Hs Hl HF [Hh Hsc] HQ. unfold onIncomingInterest. apply outcome_bind, wp_derefFace. exists F. split; [done|].
  apply outcome_bind. eapply wp_mono; [by apply fw_count|]. intros [] s1 (Hs1 & Hf1 & c & Es1). specialize (HQ s1 c Es1 Hs1).
  destruct (tagged_key F i) as (En & Enn & _ & _ & Eh & _).
  change (match i_hopLimit (setIncomingFaceId (Some (f_id F)) i) with Some h => _ | None => _ end) with (tagged F i).
  rewrite decide_False by done. rewrite En, Enn, Eh.
  assert (bool_decide (f_scope F = FACE_SCOPE_NON_LOCAL) && isPrefixOf LOCALHOST (i_name i) = false) as ->.
  { case_bool_decide; [by rewrite Hsc|done]. }
  apply outcome_bind, dnl_has_spec. intros h Hh'. unfold inDnl in HQ. rewrite Hh' in HQ.
  assert (Edn : fw_dnl s1 = fw_dnl s) by (by rewrite Es1). rewrite Edn. destruct (bool_decide _); [exact HQ|].
  apply outcome_bind, wp_gets. assert (Er : fw_regions s1 = fw_regions s) by (by rewrite Es1). rewrite Er.
  replace (if bool_decide (i_forwardingHint i ≠ []) && _ then _ else _) with (received s F i); [exact HQ|].
  unfold received. destruct (isInProducerRegion _ _) eqn:Ereg; [|by rewrite andb_false_r]. rewrite andb_true_r, bool_decide_eq_true_2; [done|].
  intros E. by rewrite E, region_nil in Ereg.
Qed.

Lemma onIncomingInterest_accepted i ingress F (Q : unit → Forwarder P → Prop) s :
  FwInv s → live s (ep_face ingress) → fw_faces s !! ep_face ingress = Some F → accepted F i →
  (∀ s1 c, s1 = set_fw_counters c s → FwInv s1 →
    if inDnl s i then wp (onInterestLoop (tagged F i) ingress) Q s1
    else wp (onIncomingInterest_insert strategyOps (received s F i) ingress F) Q s1) →
  wp (onIncomingInterest strategyOps i ingress) Q s.
Proof. apply (onIncomingInterest_outcome i ingress F (λ r, match r with Some (s', a) => Q a s' | None => False end)). Qed.

(** *** Loops *)

(** A record of another transmission with the Nonce: on a point-to-point link, a
    retransmission of the downstream with its old Nonce is not a loop. *)
Definition duplicateNonce F pe (nonce : Z) f : Prop :=
  ((∃ r, r ∈ pe_inRecords pe ∧ fr_lastNonce (in_rec r) = nonce) ∨ (∃ r, r ∈ pe_outRecords pe ∧ fr_lastNonce (out_rec r) = nonce)) ∧
  (f_linkType F = LINK_TYPE_POINT_TO_POINT → ∀ r, r ∈ pe_inRecords pe → in_face r = f → fr_lastNonce (in_rec r) ≠ nonce).

(** One of the two loops: the bits for the given face and for others. *)
Definition nonceBits {A} (nonce : Z) (n : A → Z) (g : A → FacePtr) f (l : list A) : bool * bool :=
  (existsb (λ r, (n r =? nonce)%Z && bool_decide (g r = f)) l, existsb (λ r, (n r =? nonce)%Z && negb (bool_decide (g r = f))) l).

Lemma foldl_nonce {A} nonce (n : A → Z) (g : A → FacePtr) f a b (l : list A) z :
  foldl (λ acc r, if (n r =? nonce)%Z then Z.lor acc (if decide (g r = f) then a else b) else acc) z l =
  Z.lor z (Z.lor (if (nonceBits nonce n g f l).1 then a else 0) (if (nonceBits nonce n g f l).2 then b else 0)).
Proof.
  revert z. induction l as [|r l IH]; intros z; cbn; [by rewrite Z.lor_0_r|]. rewrite IH. cbn.
  apply Z.bits_inj'. intros k Hk. destruct (n r =? nonce)%Z; cbn; [|done]. destruct (decide (g r = f)) as [E|E].
  - rewrite (bool_decide_eq_true_2 _ E). cbn. rewrite !Z.lor_spec. destruct (existsb _ l), (existsb _ l); rewrite ?Z.bits_0;
      destruct (Z.testbit z k), (Z.testbit a k), (Z.testbit b k); done.
  - rewrite (bool_decide_eq_false_2 _ E). cbn. rewrite !Z.lor_spec. destruct (existsb _ l), (existsb _ l); rewrite ?Z.bits_0;
      destruct (Z.testbit z k), (Z.testbit a k), (Z.testbit b k); done.
Qed.

Lemma nonceBits_spec {A} nonce (n : A → Z) (g : A → FacePtr) f (l : list A) :
  ((nonceBits nonce n g f l).1 = true ↔ ∃ r, r ∈ l ∧ g r = f ∧ n r = nonce) ∧
  ((nonceBits nonce n g f l).1 || (nonceBits nonce n g f l).2 = true ↔ ∃ r, r ∈ l ∧ n r = nonce).
Proof.
  induction l as [|r l [IH1 IH2]]; [cbn; split; (split; [done|intros (r & Hr%elem_of_nil & _); done])|].
  cbn in *. setoid_rewrite elem_of_cons. split.
  - rewrite orb_true_iff, IH1, andb_true_iff, Z.eqb_eq, bool_decide_eq_true. naive_solver.
  - transitivity (n r = nonce ∨ ∃ r, r ∈ l ∧ n r = nonce); [|naive_solver]. rewrite <- IH2.
    destruct (Z.eqb_spec (n r) nonce), (bool_decide (g r = f)), (existsb _ l), (existsb _ l); cbn; naive_solver.
Qed.

Lemma findDuplicateNonce_spec F pe nonce f :
  (if decide (f_linkType F = LINK_TYPE_POINT_TO_POINT)
   then negb (findDuplicateNonce pe nonce f =? DUPLICATE_NONCE_NONE)%Z && (Z.land (findDuplicateNonce pe nonce f) DUPLICATE_NONCE_IN_SAME =? 0)%Z
   else negb (findDuplicateNonce pe nonce f =? DUPLICATE_NONCE_NONE)%Z) = true ↔ duplicateNonce F pe nonce f.
Proof.
  unfold findDuplicateNonce, duplicateNonce. rewrite (foldl_nonce nonce (λ r, fr_lastNonce (in_rec r)) in_face f).
  rewrite (foldl_nonce nonce (λ r, fr_lastNonce (out_rec r)) out_face f).
  destruct (nonceBits_spec nonce (λ r, fr_lastNonce (in_rec r)) in_face f (pe_inRecords pe)) as [Hsame Hin].
  destruct (nonceBits_spec nonce (λ r, fr_lastNonce (out_rec r)) out_face f (pe_outRecords pe)) as [_ Hout].
  rewrite <- Hin, <- Hout.
  assert (Hno : (∀ r, r ∈ pe_inRecords pe → in_face r = f → fr_lastNonce (in_rec r) ≠ nonce) ↔
    (nonceBits nonce (λ r, fr_lastNonce (in_rec r)) in_face f (pe_inRecords pe)).1 ≠ true) by (rewrite Hsame; naive_solver).
  rewrite Hno. clear. destruct (nonceBits _ _ in_face _ _) as [[] []], (nonceBits _ _ out_face _ _) as [[] []];
    case_decide; cbn; naive_solver.
Qed.

(** The Nack about a duplicate Nonce. *)
Definition loopNack F f i : list Sent :=
  if decide (f_linkType F = LINK_TYPE_POINT_TO_POINT) then [SentNack f F (mkNack i NACK_DUPLICATE None)] else [].

(** Inserting an Interest that is pending. *)
Lemma insert_pending i x pe s :
  FwInv s → isInProducerRegion (fw_regions s) (i_forwardingHint i) = false →
  pits s !! x = Some pe → isAttached pe → matchKey pe i →
  wp (tb (Pit_insert i)) (λ r s', r = (Some x, false) ∧ FwInv s' ∧ s' = set_fw_tables (fw_tables s') s ∧ pits s' = pits s ∧
    pitOnly (fw_tables s) (fw_tables s')) s.
Proof.
  intros Hs Hh Hx Ha (K1 & K2 & K3). eapply wp_mono; [by apply (fw_Pit_insert strategyOps)|].
  intros [o isNew] s1 (Es1 & Ho & y & pe' & Hy & Ep & Ha' & (L1 & L2 & L3) & Hs1 & Hr). cbn [fst snd] in *. subst o.
  destruct isNew; [destruct Hr as [Hno _]; exfalso; by eapply (Hno x pe)|].
  assert (y = x) as ->.
  { eapply (pi_unique _ (tbi_pit _ (fw_i_tables _ _ Hs))); [exact Hr|exact Hx|done|done|congruence|congruence|congruence]. }
  split; [done|]. split; [done|]. split; [done|]. split; [|done]. by rewrite Ep, insert_id.
Qed.

Lemma insert_loop i ingress F x pe s :
  (∀ st, BaseStrategy (strategyOps st)) →
  FwInv s → isInProducerRegion (fw_regions s) (i_forwardingHint i) = false →
  live s (ep_face ingress) → fw_faces s !! ep_face ingress = Some F →
  pits s !! x = Some pe → isAttached pe → matchKey pe i → duplicateNonce F pe (i_nonce i) (ep_face ingress) →
  wp (onIncomingInterest_insert strategyOps i ingress F) (λ _ s',
    pits s' = pits s ∧ fw_cs s' = fw_cs s ∧ fw_dnl s' = fw_dnl s ∧ fw_sent s' = fw_sent s ++ loopNack F (ep_face ingress) i) s.
Proof.
  intros Hb Hs Hh Hl HF Hx Ha Hk Hdup. unfold onIncomingInterest_insert. wp_step. eapply wp_mono; [by eapply insert_pending|].
  intros r s1 (-> & Hs1 & Es1 & Ep & _). wp_step. wp_step; [done|]. wp_step. apply wp_tb_derefPit. exists pe. split; [by rewrite Ep|].
  apply findDuplicateNonce_spec in Hdup. cbv zeta. rewrite Hdup. wp_step.
  eapply wp_mono; [eapply onInterestLoop_spec; [done|by rewrite Es1|by rewrite Es1]|]. intros [] s2 (Hs2 & Hf2 & (Et2 & Ec2 & Ed2) & Esent).
  eapply dispatch_spec; [done|by rewrite Et2, Ep|done|]. intros st. destruct (Hb st) as [-> _ _ _].
  unfold base_afterReceiveLoopedInterest. wp_step. rewrite Et2, Ec2, Ed2, Ep, Esent. split; [done|]. rewrite Es1. done.
Qed.

(** *** New Interests *)

Lemma insert_fresh i s :
  FwInv s → isInProducerRegion (fw_regions s) (i_forwardingHint i) = false → noMatch (fw_tables s) i →
  wp (tb (Pit_insert i)) (λ r s', ∃ x p, r = (Some x, true) ∧ pits s' = <[x := set_nameTreeEntry (Some p) (newPitEntry i)]> (pits s) ∧
    FwInvBut {[x]} s' ∧ s' = set_fw_tables (fw_tables s') s ∧ pitOnly (fw_tables s) (fw_tables s')) s.
Proof.
  intros Hs Hh Hno. eapply wp_mono; [by apply (fw_Pit_insert strategyOps)|].
  intros [o isNew] s1 (Es1 & Ho & y & pe & Hy & Ep & Ha & Hk & Hs1 & Hr). cbn [fst snd] in *. subst o. destruct isNew.
  - destruct Hr as (_ & p & ->). exists y, p. done.
  - exfalso. by eapply (Hno y pe).
Qed.

(** The pipeline of a new Interest, up to the Content Store lookup. *)
Lemma insert_new_prefix i ingress F (R : option (Forwarder P * unit) → Prop) s :
  FwInv s → isInProducerRegion (fw_regions s) (i_forwardingHint i) = false → noMatch (fw_tables s) i →
  (∀ x p s1, let pe := set_nameTreeEntry (Some p) (newPitEntry i) in
    FwInvBut {[x]} s1 → pits s1 = <[x := pe]> (pits s) → pitOnly (fw_tables s) (fw_tables s1) →
    fw_faces s1 = fw_faces s → fw_faceTable s1 = fw_faceTable s → fw_sent s1 = fw_sent s → fw_dnl s1 = fw_dnl s → fw_regions s1 = fw_regions s →
    fw_defaultHopLimit s1 = fw_defaultHopLimit s → cs_table (fw_cs s1) = cs_table (fw_cs s) →
    R (match fst <$> lookupCs i (fw_cs s) with
        | Some csEntry => onContentStoreHit strategyOps i ingress x csEntry s1
        | None => onContentStoreMiss strategyOps i ingress x true s1
        end)) →
  R (onIncomingInterest_insert strategyOps i ingress F s).
Proof.
  intros Hs Hh Hno HQ. unfold onIncomingInterest_insert. apply outcome_bind. eapply wp_mono; [by apply insert_fresh|].
  intros r s1 (x & p & -> & Ep & Hs1 & Es1 & Ho). apply outcome_bind. wp_step; [done|]. apply outcome_bind, wp_tb_derefPit.
  exists (set_nameTreeEntry (Some p) (newPitEntry i)). split; [by rewrite Ep, lookup_insert_eq|].
  assert (Edup : (if decide (f_linkType F = LINK_TYPE_POINT_TO_POINT) then
    negb (findDuplicateNonce (set_nameTreeEntry (Some p) (newPitEntry i)) (i_nonce i) (ep_face ingress) =? DUPLICATE_NONCE_NONE)%Z &&
    (Z.land (findDuplicateNonce (set_nameTreeEntry (Some p) (newPitEntry i)) (i_nonce i) (ep_face ingress)) DUPLICATE_NONCE_IN_SAME =? 0)%Z
    else negb (findDuplicateNonce (set_nameTreeEntry (Some p) (newPitEntry i)) (i_nonce i) (ep_face ingress) =? DUPLICATE_NONCE_NONE)%Z) = false)
    by (by case_decide).
  cbv zeta. rewrite Edup. change (negb (hasInRecords _)) with true. cbv iota. apply outcome_bind, wp_csM. destruct (fw_i_cs _ _ Hs1) as [Hcs Hgood].
  eapply wp_mono; [apply Cs_findImpl_spec; [done|by apply goodTable_plain]|]. intros r cs (Hcs' & Hfr & Etbl & ->).
  destruct (fw_cs_step _ s1 cs Hs1 Hcs') as [Hs2 _]; [by rewrite Etbl|].
  assert (Ecs : fw_cs s1 = fw_cs s) by (by rewrite Es1). rewrite Ecs in *.
  match goal with |- R (_ ?s2) => pose proof (HQ x p s2) as HQ' end. destruct (lookupCs i (fw_cs s)) as [[c e]|]; apply HQ'; try done; cbn; by rewrite Es1.
Qed.

(** A Content Store hit: the strategy's function does not return. *)
Lemma insert_hit_fails i ingress F c e s :
  (∀ st, BaseStrategy (strategyOps st)) →
  FwInv s → isInProducerRegion (fw_regions s) (i_forwardingHint i) = false → noMatch (fw_tables s) i →
  live s (ep_face ingress) → fw_faces s !! ep_face ingress = Some F → lookupCs i (fw_cs s) = Some (c, e) →
  onIncomingInterest_insert strategyOps i ingress F s = None.
Proof.
  intros Hb Hs Hh Hno Hl HF Hlook. apply (insert_new_prefix i ingress F (λ r, r = None)); [done..|]. intros x p s1 pe Hs1 Ep Ho EF EFt Esent _ _ _ Ecs.
  rewrite Hlook. cbn [fmap option_fmap option_map fst]. apply lookupCs_Some in Hlook as [Hin Hsat].
  assert (Hx : pits s1 !! x = Some pe) by (by rewrite Ep, lookup_insert_eq).
  assert (Hl1 : live s1 (ep_face ingress)) by (unfold live; by rewrite EF, EFt).
  eapply (onContentStoreHit_prefix _ _ _ _ _ _ _ _ (λ r, r = None)); [exact Hs1|done|exact Hx|by eexists|by rewrite Ecs|].
  intros s2 (Hs2 & Hf2 & _ & EF2 & Esent2 & k & Ep2 & Hk).
  set (pe2 := set_expiryTimer _ _) in Ep2. assert (Hx2 : pits s2 !! x = Some pe2) by (by rewrite Ep2, lookup_insert_eq).
  apply (outcome_bind _ _ (λ r, r = None)), wp_gets. apply (outcome_bind _ _ (λ r, r = None)).
  eapply wp_mono; [eapply effectiveStrategy_pit_spec; [done|exact Hx2|by eexists]|]. intros ops s3 (-> & p1 & st & -> & _). destruct (Hb st) as [_ -> _ _].
  apply (outcome_bind _ _ (λ r, r = None)), wp_ret. apply (outcome_bind _ _ (λ r, r = None)).
  eapply wp_mono; [eapply effectiveStrategy_pit_spec; [done|exact Hx2|by eexists]|]. intros ops s3 (-> & p2 & st2 & -> & _). destruct (Hb st2) as [_ _ _ ->].
  unfold base_afterContentStoreHit, mbind, M_bind.
  assert (Hm : matchesData (pe_interest pe2) (hitData i e) = true).
  { unfold canSatisfy in Hsat. destruct (matchesData i (ce_data e)) eqn:Em; [|done]. rewrite <- Em. by apply matchesData_ext. }
  by rewrite (sendData_fails (hitData i e) (ep_face ingress) F x pe2 s2 Hs2 Hx2 ltac:(by eexists) Hm ltac:(by eapply live_frame) ltac:(by rewrite EF2, EF) eq_refl).
Qed.

(** A miss: the in-record is there when the strategy of the name takes over. *)
Lemma insert_miss i ingress F (Q : unit → Forwarder P → Prop) s :
  FwInv s → isInProducerRegion (fw_regions s) (i_forwardingHint i) = false → noMatch (fw_tables s) i →
  live s (ep_face ingress) → lookupCs i (fw_cs s) = None → i_nextHopFaceId i = None →
  (∀ x st p s1, isEffective (fw_tables s) (i_name i) (p, st) → FwInv s1 → fw_faces s1 = fw_faces s → fw_faceTable s1 = fw_faceTable s →
     fw_sent s1 = fw_sent s → fibV (fw_tables s1) = fibV (fw_tables s) → t_now (fw_tables s1) = t_now (fw_tables s) →
     ∀ pe1, pits s1 !! x = Some pe1 → isAttached pe1 → matchKey pe1 (withDefaultHopLimit s i) → pe_interest pe1 = withDefaultHopLimit s i →
     pe_outRecords pe1 = [] → pe_inRecords pe1 = [InRecord_update (t_now (fw_tables s)) (withDefaultHopLimit s i) (newInRecord (ep_face ingress))] →
     wp (so_afterReceiveInterest (strategyOps st) (withDefaultHopLimit s i) (mkFaceEndpoint (ep_face ingress) 0) x) Q s1) →
  wp (onIncomingInterest_insert strategyOps i ingress F) Q s.
Proof.
  intros Hs Hh Hno Hl Hlook Htag HQ. apply (insert_new_prefix i ingress F (λ r, match r with Some (s', a) => Q a s' | None => False end)); [done..|]. intros x p s1 pe Hs1 Ep Ho EF EFt Esent Edn Ereg Ehop Ecs.
  rewrite Hlook. cbn [fmap option_fmap option_map].
  assert (Hx : pits s1 !! x = Some pe) by (by rewrite Ep, lookup_insert_eq).
  assert (Hl1 : live s1 (ep_face ingress)) by (unfold live; by rewrite EF, EFt).
  assert (Ei : withDefaultHopLimit s1 i = withDefaultHopLimit s i) by (unfold withDefaultHopLimit; by rewrite Ehop).
  destruct Ho as (O1 & _ & O3 & O4). injection O1 as O1 _. injection O3 as O3 _.
  eapply onContentStoreMiss_prefix; [done|done|exact Hx|by eexists|done|done|done|].
  intros s2 (Hs2 & Hf2 & _ & _ & EF2 & Esent2 & k & last & Ep2 & _). rewrite Ei in *.
  assert (Etag : i_nextHopFaceId (withDefaultHopLimit s i) = None) by (unfold withDefaultHopLimit; by destruct (_ && _)). rewrite Etag.
  set (pe2 := set_expiryTimer _ _) in Ep2. assert (Hx2 : pits s2 !! x = Some pe2) by (by rewrite Ep2, lookup_insert_eq).
  wp_step. eapply wp_mono; [eapply effectiveStrategy_pit_spec; [done|exact Hx2|by eexists]|]. intros ops s2' (-> & q & st & -> & Heff).
  pose proof (ff_sc _ _ Hf2) as Esc. injection Esc as Esc _. pose proof (ff_fib _ _ Hf2) as Efib. injection Efib as Efib _.
  eapply (HQ x st q s2); try done.
  - destruct Heff as (sc & Hlpm & Hst). exists sc. split; [|done]. rewrite Esc, O3 in Hlpm. rewrite <- Hlpm. f_equal.
    unfold pe2, missEntry. rewrite Ei. cbn. unfold pe_name, withDefaultHopLimit. cbn. by destruct (_ && _).
  - by rewrite EF2.
  - by rewrite (proj1 (ff_faceTable _ _ Hf2)).
  - by rewrite Esent2.
  - by rewrite Efib.
  - by rewrite (ff_now _ _ Hf2).
  - by eexists.
  - unfold pe2, missEntry. rewrite Ei. done.
  - unfold pe2, missEntry. rewrite Ei. cbn. by rewrite O4.
Qed.

(** The route of a name: the nexthops of the longest matching FIB entry, by cost. *)
Definition routesOf s i : list NextHop :=
  match (match i_forwardingHint i with
         | [] => lpmV (fibV (fw_tables s)) (i_name i)
         | fh => head (omap (lpmV (fibV (fw_tables s))) fh)
         end) with
  | Some (_, fe) => fe_nextHops fe
  | None => []
  end.

Lemma routesFor_of s s1 pe i : pe_interest pe = i → fibV (fw_tables s1) = fibV (fw_tables s) → routesFor s1 pe = routesOf s i.
Proof. intros <- E. unfold routesFor, routesOf, lookupRef, pe_name. by rewrite E. Qed.

(** ** Incoming Data *)

(** The downstreams in the order of the set, each once. *)
Definition sortedDs (l : list Downstream) : Prop := StronglySorted (λ a b, downstream_cmp a b = Lt) l.

Lemma downstream_lt (a b : Downstream) : downstream_cmp a b = Lt ↔ (a.1 < b.1)%positive ∨ a.1 = b.1 ∧ (a.2 < b.2)%Z.
Proof. unfold downstream_cmp. destruct (Pos.compare_spec a.1 b.1) as [->|?|?]; rewrite ?Z.compare_lt_iff; split; naive_solver lia. Qed.

Lemma downstream_gt (a b : Downstream) : downstream_cmp a b = Gt ↔ downstream_cmp b a = Lt.
Proof.
  rewrite downstream_lt. unfold downstream_cmp. destruct (Pos.compare_spec a.1 b.1) as [->|?|?]; rewrite ?Z.compare_gt_iff; split; naive_solver lia.
Qed.

Lemma ds_emplace_sorted a l : sortedDs l → sortedDs (ds_emplace a l).
Proof.
  unfold sortedDs. induction l as [|b l IH]; intros Hs; cbn; [by repeat constructor|].
  apply StronglySorted_inv in Hs as [Hs Hb]. rewrite Forall_forall in Hb. destruct (downstream_cmp a b) eqn:E.
  - constructor; [done|by apply Forall_forall].
  - constructor; [constructor; [done|by apply Forall_forall]|]. apply Forall_forall. intros c [->|Hc]%elem_of_cons; [done|].
    apply Hb in Hc. rewrite downstream_lt in *. lia.
  - constructor; [by apply IH|]. apply Forall_forall. intros c [->|Hc]%ds_emplace_elem; [by apply downstream_gt|by apply Hb].
Qed.

Lemma sortedDs_nodup l : sortedDs l → NoDup l.
Proof.
  induction 1 as [|a l Hs IH Ha]; constructor; [|done]. intros Hin. rewrite Forall_forall in Ha. apply Ha, downstream_lt in Hin. lia.
Qed.

Lemma collect_sorted now (l : list InRecord) acc :
  sortedDs acc → sortedDs (foldl (λ acc r, if (now <? fr_expiry (in_rec r))%Z then ds_emplace (in_face r, 0%Z) acc else acc) acc l).
Proof.
  revert acc. induction l as [|r l IH]; intros acc Hs; cbn; [done|]. apply IH. destruct (_ <? _)%Z; [by apply ds_emplace_sorted|done].
Qed.

Lemma base_satisfyInterest_sorted x pe ingress d sat s :
  pits s !! x = Some pe → sortedDs sat →
  wp (base_satisfyInterest base_beforeSatisfyInterest x ingress d sat) (λ r s', sortedDs r.1) s.
Proof.
  intros Hx Hs. unfold base_satisfyInterest, base_beforeSatisfyInterest, getNow. wp_step. wp_step. wp_step.
  apply wp_tb_derefPit. exists pe. split; [done|]. wp_step. wp_step. wp_step. by apply collect_sorted.
Qed.

Lemma deleteIns_wf l pe : PitEntry_wf pe → PitEntry_wf (deleteIns l pe).
Proof. revert pe. induction l as [|ds l IH]; intros pe Hw; [done|]. by apply IH, deleteInRecord_wf. Qed.

Lemma deleteIns_get l pe f :
  PitEntry_wf pe → getInRecord (deleteIns l pe) f = if decide (f ∈ l.*1) then None else getInRecord pe f.
Proof.
  revert pe. induction l as [|ds l IH]; intros pe Hw; [done|]. cbn [deleteIns foldl]. fold (deleteIns l (deleteInRecord ds.1 pe)).
  rewrite IH by (by apply deleteInRecord_wf). rewrite getInRecord_delete by apply Hw. cbn. repeat case_decide; set_solver.
Qed.

Lemma deleteIns_elem l pe r : r ∈ pe_inRecords (deleteIns l pe) → r ∈ pe_inRecords pe.
Proof.
  revert pe. induction l as [|ds l IH]; intros pe; [done|]. cbn [deleteIns foldl]. fold (deleteIns l (deleteInRecord ds.1 pe)).
  intros Hr%IH. by apply deleteInRecord_elem in Hr.
Qed.

Lemma deleteIns_frame l pe : same_but_in pe (deleteIns l pe).
Proof.
  revert pe. induction l as [|ds l IH]; intros pe; [by destruct pe|]. specialize (IH (deleteInRecord ds.1 pe)).
  pose proof (deleteInRecord_frame ds.1 pe) as E. cbn [deleteIns foldl]. fold (deleteIns l (deleteInRecord ds.1 pe)).
  destruct (deleteIns l (deleteInRecord ds.1 pe)), (deleteInRecord ds.1 pe), pe. unfold same_but_in, set_inRecords in *. cbn in *. congruence.
Qed.

(** What remains of an entry satisfied by Data: no downstream waits, the upstream
    has answered, and the entry expires now. *)
Definition entryDone ingress s x : Prop :=
  ∃ pe k, pits s !! x = Some pe ∧ pe_isSatisfied pe = true ∧ (∀ ds, ¬ pendingDownstream s pe ds) ∧
    getOutRecord pe (ep_face ingress) = None ∧ pe_expiryTimer pe = Some k ∧
    pendingOf (fw_tables s) !! k = Some (t_now (fw_tables s), PitExpiry x).

(** Nothing but the entries in [l] and their timers changes. *)
Definition onlyEntries (l : list ptr) s s' : Prop :=
  fw_sent s' = fw_sent s ∧ fw_faces s' = fw_faces s ∧ t_now (fw_tables s') = t_now (fw_tables s) ∧
  (∀ y, y ∉ l → pits s' !! y = pits s !! y) ∧
  ∀ k due y, y ∉ l → pendingOf (fw_tables s') !! k = Some (due, PitExpiry y) ↔ pendingOf (fw_tables s) !! k = Some (due, PitExpiry y).

Lemma entryDone_kept ingress l s s' x : onlyEntries l s s' → x ∉ l → entryDone ingress s x → entryDone ingress s' x.
Proof.
  intros (_ & _ & En & Hp & Ht) Hx (pe & k & H1 & H2 & H3 & H4 & H5 & H6). exists pe, k. rewrite (Hp x Hx), En. do 2 (split; [done|]).
  split; [intros ds; unfold pendingDownstream; rewrite En; apply H3|]. do 2 (split; [done|]). by apply (Ht k _ x Hx).
Qed.

Lemma onlyEntries_trans l1 l2 s s1 s2 : onlyEntries l1 s s1 → onlyEntries l2 s1 s2 → onlyEntries (l1 ++ l2) s s2.
Proof.
  intros (A1 & A2 & A3 & A4 & A5) (C1 & C2 & C3 & C4 & C5). split; [congruence|]. split; [congruence|]. split; [congruence|].
  setoid_rewrite not_elem_of_app. split.
  - intros y [? ?]. by rewrite C4, A4.
  - intros k due y [? ?]. by rewrite C5, A5.
Qed.

Lemma satisfyEntry_base d ingress x pe sat unsat s :
  (∀ st, BaseStrategy (strategyOps st)) →
  FwInv s → pits s !! x = Some pe → isAttached pe → goodData d → sortedDs sat →
  wp (satisfyEntry strategyOps d ingress x sat unsat) (λ r s', FwInv s' ∧ r.2 = unsat ∧ sortedDs r.1 ∧
    (∀ ds, ds ∈ r.1 ↔ ds ∈ sat ∨ pendingDownstream s pe ds) ∧ onlyEntries [x] s s' ∧ entryDone ingress s' x) s.
Proof.
  intros Hb Hs Hx Ha Hd Hso. unfold satisfyEntry. eapply dispatch_spec; [done..|]. intros st. destruct (Hb st) as [_ _ -> _]. wp_step.
  eapply wp_mono; [apply wp_and; [by eapply base_satisfyInterest_spec|by eapply base_satisfyInterest_sorted]|].
  intros [sat' uns] s1 [(-> & Eu & Hr) Hso']. cbn [fst snd] in *. subst uns. rewrite decide_True by done. cbn [foldl]. wp_step.
  eapply wp_mono; [eapply (closeEntry_spec ∅); [done|set_solver|done|done]|]. intros [] s2 (Hs2 & Hf2 & Es2 & k & Ep2 & Hk & Hot).
  set (pe2 := set_isSatisfied _ _) in Ep2. assert (Hx2 : pits s2 !! x = Some pe2) by (by rewrite Ep2, lookup_insert_eq).
  assert (Ha2 : isAttached pe2) by exact Ha.
  pose proof (satisfyEntry_tail d ingress x pe2 sat' s2 Hs2 Hx2 Ha2 Hd) as Htail. repeat (wp_step; apply wp_bind in Htail;
    eapply wp_mono; [exact Htail|]; clear Htail; intros [] ? Htail; cbv beta in Htail).
  wp_step. eapply wp_mono; [exact Htail|]. intros [] s3 (Hs3 & Hf3 & Esent & EF & Et). wp_step. cbn [fst snd].
  split; [done|]. split; [done|]. split; [done|]. split; [done|].
  assert (En : t_now (fw_tables s3) = t_now (fw_tables s)) by (rewrite Et; apply (ff_now _ _ Hf2)).
  assert (Epend : pendingOf (fw_tables s3) = pendingOf (fw_tables s2)) by (by rewrite Et).
  set (pe3 := deleteOutRecord (ep_face ingress) (deleteIns sat' (set_dataFreshnessPeriod (d_freshnessPeriod d) pe2))) in Et.
  assert (Hx3 : pits s3 !! x = Some pe3) by (rewrite Et; cbn; by rewrite lookup_insert_eq).
  assert (Hwf : PitEntry_wf pe2) by (by eapply (pi_wf _ (tbi_pit _ (fw_i_tables _ _ Hs2)))).
  pose proof (deleteIns_wf sat' (set_dataFreshnessPeriod (d_freshnessPeriod d) pe2) Hwf) as Hwf'.
  pose proof (deleteIns_frame sat' (set_dataFreshnessPeriod (d_freshnessPeriod d) pe2)) as Efr.
  split.
  - split; [rewrite Esent, Es2; done|]. split; [rewrite EF, Es2; done|]. split; [done|]. split.
    + intros y Hy%not_elem_of_cons. rewrite Et. cbn. rewrite lookup_insert_ne by (intros ->; tauto). rewrite Ep2. by rewrite lookup_insert_ne by (intros ->; tauto).
    + intros j due y Hy%not_elem_of_cons. rewrite Epend. apply Hot. tauto.
  - exists pe3, k. split; [done|]. rewrite Epend, En. unfold pe3. split; [by rewrite deleteOutRecord_frame, Efr|]. split; [|split; [|split; [|done]]].
    + intros ds (E0 & r & Hrec & Hf & Hexp). rewrite deleteOutRecord_frame in Hrec. rewrite En in Hexp.
      pose proof (deleteIns_elem _ _ _ Hrec) as Hrec'. assert (Hin : ds ∈ sat') by (apply Hr; right; split; [done|]; by exists r).
      pose proof (deleteIns_get sat' (set_dataFreshnessPeriod (d_freshnessPeriod d) pe2) (in_face r) Hwf) as Hnone. rewrite decide_True in Hnone; [|rewrite Hf; apply list_elem_of_fmap; eauto].
      apply (kfind_None in_face) in Hnone. apply Hnone, list_elem_of_fmap. eauto.
    + rewrite getOutRecord_delete by apply Hwf'. by rewrite decide_True.
    + by rewrite deleteOutRecord_frame, Efr.
Qed.

(** A downstream of one of the entries waits for the Data. *)
Definition waiting s (l : list ptr) (ds : Downstream) : Prop :=
  ∃ x pe, x ∈ l ∧ pits s !! x = Some pe ∧ pendingDownstream s pe ds.

Lemma satisfyEntries_base d ingress l sat unsat s :
  (∀ st, BaseStrategy (strategyOps st)) → FwInv s → goodData d → sortedDs sat → NoDup l →
  (∀ x, x ∈ l → ∃ pe, pits s !! x = Some pe ∧ isAttached pe) →
  wp (satisfyEntries strategyOps d ingress l sat unsat) (λ r s', FwInv s' ∧ r.2 = unsat ∧ sortedDs r.1 ∧
    (∀ ds, ds ∈ r.1 ↔ ds ∈ sat ∨ waiting s l ds) ∧ onlyEntries l s s' ∧ ∀ x, x ∈ l → entryDone ingress s' x) s.
Proof.
  intros Hb. revert sat unsat s. induction l as [|x l IH]; intros sat unsat s Hs Hd Hso Hnd Hl; cbn [satisfyEntries].
  - wp_step. split; [done|]. split; [done|]. split; [done|]. split.
    + intros ds. split; [by left|]. intros [?|(x & pe & Hx & _)]; [done|]. by apply elem_of_nil in Hx.
    + split; [by split|]. by intros x ?%elem_of_nil.
  - apply NoDup_cons in Hnd as [Hxl Hnd]. destruct (Hl x) as (pe & Hx & Ha); [apply list_elem_of_here|]. wp_step.
    eapply wp_mono; [by eapply satisfyEntry_base|]. intros [sat1 uns1] s1 (Hs1 & -> & Hso1 & Hr1 & Honly1 & Hdone1). cbn [fst snd] in *.
    pose proof Honly1 as (_ & _ & En1 & Hp1 & _).
    assert (Hsame : ∀ y, y ∈ l → pits s1 !! y = pits s !! y) by (intros y Hy; apply Hp1; intros ->%list_elem_of_singleton; done).
    eapply wp_mono; [apply IH; [done|done|done|done|]|].
    + intros y Hy. rewrite Hsame by done. apply Hl. by apply list_elem_of_further.
    + intros r s2 (Hs2 & Eu & Hso2 & Hr2 & Honly2 & Hdone2). split; [done|]. split; [done|]. split; [done|]. split; [|split].
      * intros ds. rewrite Hr2, Hr1. unfold waiting, pendingDownstream. rewrite En1. setoid_rewrite elem_of_cons. split.
        -- intros [[?|?]|(y & pey & Hy & Hy2 & ?)]; [by left|right; exists x, pe; tauto|].
           right. exists y, pey. rewrite <- (Hsame y Hy). tauto.
        -- intros [?|(y & pey & [->|Hy] & Hy2 & ?)]; [by left; left| |].
           { left. right. rewrite Hx in Hy2. by injection Hy2 as <-. }
           right. exists y, pey. rewrite (Hsame y Hy). tauto.
      * exact (onlyEntries_trans [x] l _ _ _ Honly1 Honly2).
      * intros y [->|Hy]%elem_of_cons; [|by apply Hdone2]. by eapply entryDone_kept.
Qed.

Lemma deliver_faces d ingress ds s :
  live s (ep_face ingress) → live s ds.1 → wp (deliver d ingress ds) (λ _ s', fw_faces s' = fw_faces s) s.
Proof.
  intros (inFace & Hin & _) (F & HF & _). unfold deliver. wp_step. apply wp_derefFace. exists F. split; [done|].
  wp_step. apply wp_derefFace. exists inFace. split; [done|]. destruct (_ && _ && _); [by wp_step|]. wp_step.
  unfold onOutgoingData, count. wp_step. apply wp_derefFace. exists F. split; [done|]. destruct (_ =? _)%Z; [by do 2 wp_step|].
  destruct (_ && _); [by do 2 wp_step|]. unfold face_sendData, emit. wp_step. wp_step. apply wp_derefFace. exists F. split; [done|].
  wp_step. wp_step. wp_step. wp_step. by wp_step.
Qed.

Lemma deliver_all d ingress l s :
  FwInv s → live s (ep_face ingress) → (∀ ds, ds ∈ l → live s ds.1) →
  wp (forM l (deliver d ingress)) (λ _ s', FwInv s' ∧ fw_tables s' = fw_tables s ∧ fw_sent s' = fw_sent s ++ (l ≫= delivered s d ingress)) s.
Proof.
  revert s. induction l as [|ds l IH]; intros s Hs Hl Hlive; cbn [forM]; [wp_step; by rewrite app_nil_r|]. wp_step.
  assert (Hds : live s ds.1) by (apply Hlive; set_solver).
  eapply wp_mono; [apply wp_and; [by apply (deliver_spec ∅)|by apply deliver_faces]|].
  intros [] s1 [(Hs1 & Hf1 & (Et & _) & Esent) EF].
  eapply wp_mono; [apply IH; [done|by eapply live_frame|]|].
  - intros ds' Hds'. eapply live_frame; [exact Hf1|]. apply Hlive. set_solver.
  - intros [] s2 (Hs2 & Et2 & Esent2). split; [done|]. split; [congruence|]. rewrite Esent2, Esent, <- app_assoc. do 2 f_equal.
    unfold delivered. by rewrite EF.
Qed.

(** The Data pipeline when the Data is expected. *)
Lemma onIncomingData_base d ingress F s :
  (∀ st, BaseStrategy (strategyOps st)) →
  FwInv s → goodData d → live s (ep_face ingress) → fw_faces s !! ep_face ingress = Some F →
  (f_scope F = FACE_SCOPE_NON_LOCAL → isPrefixOf LOCALHOST (d_name d) = false) →
  (∃ x pe, pits s !! x = Some pe ∧ isAttached pe ∧ matchesData (pe_interest pe) d = true) →
  wp (onIncomingData strategyOps d ingress) (λ _ s', FwInv s' ∧
    (∃ l, NoDup l ∧ fw_sent s' = fw_sent s ++ (l ≫= delivered s (setDataIncomingFaceId (Some (f_id F)) d) ingress) ∧
      ∀ ds, ds ∈ l ↔ ∃ x pe, pits s !! x = Some pe ∧ isAttached pe ∧ matchesData (pe_interest pe) d = true ∧ pendingDownstream s pe ds) ∧
    (∀ x pe, pits s !! x = Some pe → isAttached pe → matchesData (pe_interest pe) d = true → entryDone ingress s' x) ∧
    (∀ x pe, pits s !! x = Some pe → isAttached pe → matchesData (pe_interest pe) d = false → pits s' !! x = Some pe)) s.
Proof.
  intros Hb Hs Hd Hl HF Hsc (x0 & pe0 & Hx0 & Ha0 & Hm0). unfold onIncomingData. wp_step. apply wp_derefFace. exists F. split; [done|]. wp_step.
  set (d1 := setDataIncomingFaceId _ d). assert (Hd1 : goodData d1) by done.
  assert (Hmd : ∀ i, matchesData i d1 = matchesData i d) by (intros i; by apply matchesData_ext).
  eapply wp_mono; [by apply fw_count|]. intros [] s1 (Hs1 & Hf1 & c & ->).
  assert (bool_decide (f_scope F = FACE_SCOPE_NON_LOCAL) && isPrefixOf LOCALHOST (d_name d1) = false) as ->.
  { change (d_name d1) with (d_name d). case_bool_decide; [by rewrite Hsc|done]. }
  wp_step. wp_step. wp_step. destruct (Pit_findAllDataMatches_spec d1 (fw_tables s)) as (l & El & Hnd & Hm); [apply Hs|].
  setoid_rewrite Hmd in Hm. wp_step; [exact El|].
  rewrite decide_False by (intros ->; assert (x0 ∈ []) as ?%elem_of_nil by (apply Hm; eauto); done).
  wp_step. eapply wp_mono; [by apply (fw_Cs_insert ∅)|]. intros [] s2 (Hs2 & Hf2 & Es2). wp_step.
  assert (Ep2 : pits s2 = pits s) by (by rewrite Es2). assert (En2 : t_now (fw_tables s2) = t_now (fw_tables s)) by (by rewrite Es2).
  assert (Hl2 : live s2 (ep_face ingress)) by (eapply live_frame; [exact Hf2|]; by eapply live_frame).
  assert (Hall : ∀ x, x ∈ l → ∃ pe, pits s2 !! x = Some pe ∧ isAttached pe ∧ matchesData (pe_interest pe) d1 = true).
  { intros x Hx. rewrite Ep2. setoid_rewrite Hmd. by apply Hm. }
  pose proof (satisfyEntries_base d1 ingress l [] [] s2 Hb Hs2 Hd1 (SSorted_nil _) Hnd
    ltac:(intros x (pe & ? & ? & _)%Hall; eauto)) as Hbase.
  pose proof (satisfyEntries_spec strategyOps d1 ingress l [] [] s2 Hs2 Hd1 Hl2 Hall ltac:(by intros ? ?%elem_of_nil)) as Hinv.
  eapply wp_mono; [exact (wp_and _ _ _ _ Hbase Hinv)|]. clear Hbase Hinv.
  intros [sat uns] s3 [(Hs3 & Eu & Hso & Hr & (Esent & EF & En3 & Hp & _) & Hdone) (_ & Hf3 & Hlive & _)]. cbn [fst snd] in *. subst uns.
  cbn [forM]. wp_step. wp_step.
  eapply wp_mono; [apply deliver_all; [done|by eapply live_frame|done]|]. intros [] s4 (Hs4 & Et4 & Esent4). split; [done|].
  assert (EF0 : fw_faces s3 = fw_faces s) by (rewrite EF, Es2; done). split; [|split].
  - exists sat. split; [by apply sortedDs_nodup|]. split.
    + rewrite Esent4, Esent, Es2. cbn. f_equal. unfold delivered. by rewrite EF0.
    + intros ds. rewrite Hr. unfold waiting, pendingDownstream. rewrite Ep2, En2. split.
      * intros [?%elem_of_nil|(x & pe & Hx & Hpe & ?)]; [done|]. apply Hm in Hx as (pe' & Hx & ? & ?). rewrite Hx in Hpe. injection Hpe as ->. eauto 10.
      * intros (x & pe & Hx & Ha & Hxm & ?). right. exists x, pe. split; [apply Hm; eauto|done].
  - intros x pe Hx Ha Hxm. destruct (Hdone x) as (pe' & k & H1 & H2 & H3 & H4 & H5 & H6); [apply Hm; eauto|]. exists pe', k.
    unfold pendingDownstream in *. rewrite Et4. done.
  - intros x pe Hx Ha Hxm. rewrite Et4, Hp, Ep2; [done|]. intros (pe' & Hx' & _ & Hm')%Hm. rewrite Hx in Hx'. injection Hx' as <-. congruence.
Qed.
End Pipelines.
