(* ===== verification/ForwarderRun.v ===== *)
(** * Runs of the forwarder

    The events the forwarder reacts to, as a step relation: packets and signals of
    the faces, timers, face creation and removal, and management commands.  Every
    reachable state satisfies the invariant, and every event the environment may
    produce there is handled to the end. *)

From Stdlib Require Import ZArith Lia String.
From stdpp Require Import base gmap option sorting relations list.
From S2P Require Import Prelude Scheduler CityHash Ndn FibEntry PitEntry NameTreeEntry Hashtable NameTree.
From S2P Require Import NameTreeIterator Tables Fib Pit Measurements StrategyChoice Cleanup Cs DeadNonceList.
From S2P Require Import Algorithm FwState Strategies Forwarder Management FwInvariant StrategySpecs ForwarderSpecs.

Section TablesSteps.
Context {N : NdnCxx} {NL : NdnCxxLaws N} {NP : NdnPacket N} {NPL : NdnPacketLaws N NP} {SP : ScopePrefix N}
  {SS : StdSort} {SSL : StdSortLaws SS}
  {SC : Scheduler} {SCL : SchedulerLaws SC} {HI : HashedIndex} {HIL : HashedIndexLaws HI} {RE : RandomEngine}
  {US : UnorderedSet} {USL : UnorderedSetLaws US} {P : Type} {Pol : Policy P} {PL : PolicyLaws Pol}.
Implicit Types (s : Forwarder P) (x : ptr) (f : FacePtr) (F : Face) (pe : PitEntry) (i : Interest) (d : Data) (B : gset ptr).

(** A PIT entry keeps its place, its timer and the order of its records. *)
Definition pitKept s pe pe' : Prop :=
  pe_nameTreeEntry pe' = pe_nameTreeEntry pe ∧ pe_expiryTimer pe' = pe_expiryTimer pe ∧ (PeOk s pe → PeOk s pe').

(** A step of the tables that leaves the PIT in place. *)
Lemma FwInv_tables s t' :
  FwInv s → TablesInv t' → tidy (ents t') → hasDefault t' →
  (∀ x, option_relation (pitKept s) (λ _, False) (λ _, False) (pits s !! x) (t_pits t' !! x)) →
  samePitTimers (fw_tables s) t' →
  (∀ p n fe, fibV t' !! p = Some (n, fe) → fe_nextHops fe ≠ [] ∧ ∀ nh, nh ∈ fe_nextHops fe → live s (nh_face nh)) →
  FwInv (set_fw_tables t' s).
Proof.
  intros [I1 I2 I3 I4 I5 I6 I7 I8 I9 I10 I11 I12 I13 I14 I15] Ht Htidy Hd Hp Htm Hfib.
  assert (Hback : ∀ x pe', t_pits t' !! x = Some pe' → isAttached pe' → ∃ pe, pits s !! x = Some pe ∧ isAttached pe ∧ pitKept s pe pe').
  { intros x pe' Hx Ha. specialize (Hp x). rewrite Hx in Hp. destruct (pits s !! x) as [pe|]; [|done]. exists pe. split; [done|].
    split; [|done]. unfold isAttached in *. destruct Hp as (<- & _). done. }
  split; try done.
  - intros x pe' Hx Ha. destruct (Hback _ _ Hx Ha) as (pe & Hx' & Ha' & _ & _ & Hk). destruct (Hk (I6 _ _ Hx' Ha')) as [? ? ? ?]. by split.
  - intros x pe' Hx Ha _. destruct (Hback _ _ Hx Ha) as (pe & Hx' & Ha' & _ & Et & _).
    destruct (I7 _ _ Hx' Ha') as (k & due & Hk & Hpend); [apply not_elem_of_empty|]. exists k, due. rewrite Et. split; [done|]. by apply Htm.
  - intros k due x Hk. apply Htm in Hk. destruct (I9 _ _ _ Hk) as (pe & Hx & Ha & Et). specialize (Hp x). rewrite Hx in Hp.
    change (pits (set_fw_tables t' s)) with (t_pits t'). destruct (t_pits t' !! x) as [pe'|]; [|done]. exists pe'. split; [done|].
    destruct Hp as (E1 & E2 & _). unfold isAttached in *. by rewrite E1, E2.
Qed.

Lemma pitKept_refl s (p : gmap ptr PitEntry) x : option_relation (pitKept s) (λ _, False) (λ _, False) (p !! x) (p !! x).
Proof. apply option_relation_refl. intros pe. by split. Qed.

(** The rest of the state as it was, and the tables changed so. *)
Lemma FwInv_liveMap s s' :
  FwInv s → fw_tables s' = fw_tables s → CsInv (fw_cs s') ∧ goodTable (cs_table (fw_cs s')) → DnlInv (fw_dnl s') →
  fw_regions s' = fw_regions s → fw_csFace s' = fw_csFace s → fw_faceTable s' !! FACEID_CONTENT_STORE = Some (fw_csFace s) →
  (0 ≤ fw_defaultHopLimit s' < 256)%Z → fw_sent s' = fw_sent s →
  (FACEID_RESERVED_MAX ≤ fw_lastFaceId s')%Z → (∀ id f, fw_faceTable s' !! id = Some f → (id ≤ fw_lastFaceId s')%Z) →
  (∀ id f, fw_faceTable s' !! id = Some f → id ≠ INVALID_FACEID ∧ ∃ F, fw_faces s' !! f = Some F ∧ f_id F = id) →
  (∀ f, live s f → live s' f) → FwInv s'.
Proof.
  intros [I1 I2 I3 I4 I5 I6 I7 I8 I9 I10 I11 I12 I13 I14 I15] Et Hcs Hdn Er Ec Hcf Hh Es Hl1 Hl2 Hft Hl.
  split; rewrite ?Et, ?Ec, ?Es; try done.
  - intros x pe Hx Ha. destruct (I6 x pe Hx Ha) as [P1 P2 P3 P4]. split; rewrite ?Er; [|eauto|done|done].
    intros r Hr. destruct (P1 r Hr) as [? ?]. eauto.
  - intros p n fe Hp. destruct (I10 _ _ _ Hp) as [? ?]. eauto.
  - destruct I13. eauto.
Qed.

(** ** Time *)

Definition tick (now : Z) : M (Forwarder P) unit :=
  modify (λ s, set_fw_dnl (set_dn_now now (fw_dnl s)) (set_fw_cs (set_cs_now now (fw_cs s)) (set_fw_tables (set_now now (fw_tables s)) s))).

Lemma TablesInv_now now (t : Tables) : TablesInv t → TablesInv (set_now now t).
Proof. intros [H1 [] [] [] []]. by split; [|split..]. Qed.

Lemma CsInv_now now (c : Cs P) : CsInv c → CsInv (set_cs_now now c).
Proof. intros [H1 H2 H3 H4]. split; [done|done|done|]. by apply (tracks_now c now). Qed.

Lemma tick_spec now s : FwInv s → wp (tick now) (λ _ s', FwInv s') s.
Proof.
  intros Hs. unfold tick. wp_step.
  assert (H1 : FwInv (set_fw_tables (set_now now (fw_tables s)) s)).
  { apply FwInv_tables; [done|apply TablesInv_now, Hs|apply Hs|apply Hs|intros x; apply pitKept_refl|done|apply (fw_i_fib _ _ Hs)]. }
  destruct (fw_i_cs _ _ Hs) as [Hcs Hg]. destruct (fw_cs_step ∅ _ (set_cs_now now (fw_cs s)) H1) as [H2 _]; [by apply CsInv_now|done|].
  eapply (FwInv_other ∅ _ _ H2); [frame_same|done|apply H2| |apply H2]. destruct (fw_i_dnl _ _ Hs) as [? ? ?]. by split.
Qed.

(** ** Timers *)

(** A Measurements entry expires. *)
Lemma measurements_timer_spec k due p s :
  FwInv s → pendingOf (fw_tables s) !! k = Some (due, MeasurementsCleanup p) →
  wp (tb (Measurements_fire k)) (λ _ s', FwInv s') s.
Proof.
  intros Hs Hk. apply wp_tb. eapply wp_mono; [eapply Measurements_fire_spec; [apply Hs|exact Hk]|].
  intros [] t (Ht & (EF & EP & ESc & _ & Htm) & _ & Htidy & _). injection EF as EF _. injection EP as _ EP _. injection ESc as ESc _.
  apply FwInv_tables; [done|done|apply Htidy, Hs| | |done|].
  - unfold hasDefault. rewrite ESc. apply Hs.
  - intros x. rewrite EP. apply pitKept_refl.
  - rewrite EF. apply Hs.
Qed.

Lemma dnl_timer_spec k due ev s :
  FwInv s → sched_pending (dn_sched (fw_dnl s)) !! k = Some (due, ev) → wp (dnlM (dn_fire k)) (λ _ s', FwInv s') s.
Proof.
  intros Hs Hk. apply wp_lift. eapply wp_mono; [eapply dn_fire_spec; [apply Hs|exact Hk]|]. intros [] dn [Hd _].
  eapply (FwInv_other ∅ s); [done|frame_same|done|apply Hs|done|apply Hs].
Qed.

Lemma cs_timer_spec k due ev s :
  FwInv s → sched_pending (cs_sched (fw_cs s)) !! k = Some (due, ev) → wp (csM (onEvent k)) (λ _ s', FwInv s') s.
Proof.
  intros Hs Hk. destruct (fw_i_cs _ _ Hs) as [[C1 C2 C3 C4] Hg]. apply wp_csM. eapply wp_mono; [by eapply tracks_event|].
  intros [] c ((F1 & F2 & F3 & F4) & Et & Htr). apply (fw_cs_step ∅); [done| |by rewrite Et].
  split; [by rewrite Et|split; [rewrite Et; apply C2|rewrite F1; apply C2]| |by rewrite Et].
  unfold cs_size in *. by rewrite Et, F1.
Qed.

(** ** Faces *)

(** A new Face object is not in the face table; an object that is not there may go. *)
Definition createFace (f : FacePtr) (F : Face) : M (Forwarder P) unit := modify (λ s, set_fw_faces (<[f := F]> (fw_faces s)) s).
Definition destroyFace (f : FacePtr) : M (Forwarder P) unit := modify (λ s, set_fw_faces (delete f (fw_faces s)) s).

Lemma createFace_spec f F s : FwInv s → fw_faces s !! f = None → wp (createFace f F) (λ _ s', FwInv s') s.
Proof.
  intros Hs Hn. unfold createFace. wp_step. pose proof Hs as [I1 I2 I3 I4 I5 I6 I7 I8 I9 I10 I11 I12 I13 I14 I15].
  apply (FwInv_liveMap s); try done; [apply I13|apply I12|apply I12|..]; cbn.
  - intros id g Hid. destruct (I11 _ _ Hid) as (? & G & HG & ?). split; [done|]. exists G. rewrite lookup_insert_ne by congruence. done.
  - intros g (G & HG & ?). exists G. cbn. rewrite lookup_insert_ne by congruence. done.
Qed.

Lemma destroyFace_spec f s : FwInv s → (∀ id, fw_faceTable s !! id ≠ Some f) → wp (destroyFace f) (λ _ s', FwInv s') s.
Proof.
  intros Hs Hn. unfold destroyFace. wp_step. pose proof Hs as [I1 I2 I3 I4 I5 I6 I7 I8 I9 I10 I11 I12 I13 I14 I15].
  apply (FwInv_liveMap s); try done; [apply I13|apply I12|apply I12|..]; cbn.
  - intros id g Hid. destruct (I11 _ _ Hid) as (? & G & HG & ?). split; [done|]. exists G.
    rewrite lookup_delete_ne; [done|]. intros <-. by eapply Hn.
  - intros g (G & HG & Hid). exists G. cbn. rewrite lookup_delete_ne; [done|]. intros <-. by eapply Hn.
Qed.

Lemma FaceTable_add_spec f F s :
  FwInv s → fw_faces s !! f = Some F → (fw_lastFaceId s + 1 < 2 ^ 64)%Z →
  wp (FaceTable_add f) (λ _ s', FwInv s' ∧
    ((∀ id, fw_faceTable s !! id ≠ Some f) → f_id F = INVALID_FACEID →
      live s' f ∧ fw_faceTable s' = <[(fw_lastFaceId s + 1)%Z := f]> (fw_faceTable s) ∧ fw_faceTable s !! (fw_lastFaceId s + 1)%Z = None)) s.
Proof.
  intros Hs HF Hlast. pose proof Hs as [I1 I2 I3 I4 I5 I6 I7 I8 I9 I10 I11 I12 I13 I14 I15]. destruct I12 as [Hres Hmax].
  unfold FaceTable_add. wp_step. apply wp_derefFace. exists F. split; [done|]. wp_step. wp_step.
  destruct (_ && _) eqn:Ein.
  { wp_step. split; [done|]. intros _ Ei. apply andb_true_iff in Ein as [Ei' _]. by rewrite Ei in Ei'. }
  rewrite Z.mod_small by (unfold FACEID_RESERVED_MAX in *; lia). set (k := (fw_lastFaceId s + 1)%Z).
  assert (Hk : fw_faceTable s !! k = None).
  { destruct (fw_faceTable s !! k) as [g|] eqn:Hg; [|done]. apply Hmax in Hg. unfold k in Hg. lia. }
  assert (Hno : ∀ id, fw_faceTable s !! id ≠ Some f).
  { intros id Hid. destruct (I11 _ _ Hid) as (Hne & F' & HF' & Eid). rewrite HF in HF'. injection HF' as <-. subst id.
    apply andb_false_iff in Ein as [Ein|Ein].
    - apply negb_false_iff, Z.eqb_eq in Ein. done.
    - apply bool_decide_eq_false in Ein. apply Ein. by eexists. }
  wp_step. wp_step. wp_step. wp_step; [apply Z.ltb_lt; unfold FACEID_RESERVED_MAX, k in *; lia|].
  unfold FaceTable_addImpl, updateFace. wp_step. wp_step. apply wp_derefFace. exists F. split; [done|]. wp_step. wp_step. wp_step. wp_step.
  wp_step; [by apply bool_decide_eq_true|]. wp_step. cbn.
  assert (Hl' : ∀ s', fw_faces s' = <[f := set_f_id k F]> (fw_faces s) → fw_faceTable s' = <[k := f]> (fw_faceTable s) →
    (∀ g, live s g → live s' g) ∧ live s' f).
  { intros s' E1 E2. split.
    - intros g (G & HG & Hid). exists G. rewrite E1, E2. rewrite !lookup_insert_ne; [done| |].
      + intros E. rewrite <- E in Hid. congruence.
      + intros <-. by eapply Hno.
    - exists (set_f_id k F). rewrite E1, E2, lookup_insert_eq. split; [done|]. cbn. by rewrite lookup_insert_eq. }
  split; [|intros _ _; split; [by apply Hl'|done]]. apply (FwInv_liveMap s); try done; cbn.
  - rewrite lookup_insert_ne; [apply I13|]. unfold k, FACEID_CONTENT_STORE, FACEID_RESERVED_MAX in *. lia.
  - unfold k. lia.
  - intros id g [[<- <-]|[_ Hid]]%lookup_insert_Some; [done|]. apply Hmax in Hid. unfold k. lia.
  - intros id g [[<- <-]|[Hne Hid]]%lookup_insert_Some.
    + split; [unfold k, INVALID_FACEID, FACEID_RESERVED_MAX in *; lia|]. exists (set_f_id k F). by rewrite lookup_insert_eq.
    + destruct (I11 _ _ Hid) as (? & G & HG & ?). split; [done|]. exists G. rewrite lookup_insert_ne; [done|]. intros <-. by eapply Hno.
  - by apply Hl'.
Qed.

(** Removal, with the cleanup of the tables it triggers; the Content Store face stays. *)
Lemma PeOk_cut s s' f pe :
  PitEntry_wf pe → (∀ g, g ≠ f → live s g → live s' g) → fw_regions s' = fw_regions s → PeOk s pe → PeOk s' (cutPit f pe).
Proof.
  intros Hwf Hl Er [P1 P2 P3 P4]. pose proof (cutPit_keeps f pe) as (_ & Kn & Kc & Km & _).
  assert (Hcut : ∀ g, getInRecord (cutPit f pe) g = None ∧ getOutRecord (cutPit f pe) g = None ∨ g ≠ f).
  { intros g. destruct (getRecords_cut f pe g Hwf) as [-> ->]. destruct (decide (g = f)); auto. }
  split.
  - intros r Hr. assert (Hr' : r ∈ pe_inRecords pe).
    { unfold cutPit in Hr. rewrite deleteOutRecord_frame in Hr. by apply deleteInRecord_elem in Hr. }
    destruct (P1 r Hr') as [Hlr (i & Ei & K1 & K2 & K3)]. split.
    + apply Hl; [|done]. intros E. destruct (Hcut (in_face r)) as [[Hc _]|]; [|done].
      apply (kfind_None in_face (in_face r)) in Hc. apply Hc, list_elem_of_fmap. eauto.
    + exists i. split; [done|]. unfold matchKey in *. rewrite Kn, Kc, Km. done.
  - intros r Hr. assert (Hr' : r ∈ pe_outRecords pe).
    { unfold cutPit in Hr. apply deleteOutRecord_elem in Hr. by rewrite deleteInRecord_frame in Hr. }
    apply Hl; [|by apply P2]. intros E. destruct (Hcut (out_face r)) as [[_ Hc]|]; [|done].
    apply (kfind_None out_face (out_face r)) in Hc. apply Hc, list_elem_of_fmap. eauto.
  - rewrite Er. unfold cutPit. rewrite deleteOutRecord_frame, deleteInRecord_frame. done.
  - unfold cutPit. rewrite deleteOutRecord_frame, deleteInRecord_frame. done.
Qed.

Lemma cutFib_live s s' f (fe fe' : FibEntry) :
  FibEntry_wf fe → (∀ g, g ≠ f → live s g → live s' g) → fe_nextHops fe ≠ [] → (∀ nh, nh ∈ fe_nextHops fe → live s (nh_face nh)) →
  cutFib f fe = Some fe' → fe_nextHops fe' ≠ [] ∧ ∀ nh, nh ∈ fe_nextHops fe' → live s' (nh_face nh).
Proof.
  intros [Hnd _] Hl Hne Hlive. unfold cutFib. pose proof (remove_elem_of fe f Hnd) as Hel. pose proof (remove_noop fe f) as Hno.
  destruct (FibEntry_removeNextHop fe f) as [g isRemoved]. cbn [fst snd] in *. intros Hcut.
  assert (g = fe') as <- by (destruct (isRemoved && _); congruence). split.
  - destruct isRemoved; [|by rewrite Hno]. unfold hasNextHops in Hcut. by destruct (fe_nextHops g).
  - intros nh [? ?]%Hel. auto.
Qed.

Lemma FaceTable_remove_spec k f s :
  FwInv s → fw_faceTable s !! k = Some f → k ≠ FACEID_CONTENT_STORE →
  wp (FaceTable_remove k) (λ _ s', FwInv s' ∧ fw_faceTable s' = delete k (fw_faceTable s) ∧ fw_sent s' = fw_sent s) s.
Proof.
  intros Hs Hk Hne. pose proof Hs as [I1 I2 I3 I4 I5 I6 I7 I8 I9 I10 I11 I12 I13 I14 I15].
  destruct (I11 _ _ Hk) as (_ & F & HF & Eid).
  unfold FaceTable_remove. wp_step. wp_step. wp_step. wp_step; [exact Hk|]. wp_step. apply wp_tb.
  eapply wp_mono; [apply cleanupOnFaceRemoval_spec, I1|]. intros [] t (Ht & Htidy & EF & _ & Ep & _ & EM & ES & _).
  injection EM as _ _ Esched. injection ES as ESV _.
  wp_step. wp_step. unfold updateFace. wp_step. apply wp_derefFace. exists F. split; [done|]. wp_step.
  split; [|by split]. set (s' := set_fw_faces _ _).
  assert (Hl : ∀ g, g ≠ f → live s g → live s' g).
  { intros g Hg (G & HG & Hid). exists G. unfold s'. cbn. rewrite lookup_insert_ne by done. split; [done|].
    rewrite lookup_delete_ne; [done|]. intros E. rewrite <- E in Hid. congruence. }
  assert (Hpit : ∀ x pe, t_pits t !! x = Some pe → isAttached pe → ∃ pe0, pits s !! x = Some pe0 ∧ isAttached pe0 ∧ pe = cutPit f pe0).
  { intros x pe. rewrite Ep, lookup_fmap. intros (pe0 & Hx & ->)%fmap_Some Ha. rename Hx into Hx'. exists pe0. split; [exact Hx'|]. by case_decide. }
  assert (Hcsne : fw_csFace s ≠ f).
  { intros E. destruct I13 as [_ Hcs]. destruct (I11 _ _ Hcs) as (_ & F' & HF' & E'). rewrite E in HF'. congruence. }
  split; try done; cbn.
  - unfold hasDefault. by rewrite ESV.
  - intros x pe Hx Ha. destruct (Hpit _ _ Hx Ha) as (pe0 & Hx0 & Ha0 & ->). eapply PeOk_cut; [|exact Hl|done|by apply (I6 x)].
    by eapply (pi_wf _ (tbi_pit _ I1)).
  - intros x pe Hx Ha Hnb. destruct (Hpit _ _ Hx Ha) as (pe0 & Hx0 & Ha0 & ->). unfold hasTimer. rewrite Esched.
    destruct (I7 _ _ Hx0 Ha0 Hnb) as (j & due & Hj & Hp). exists j, due. split; [|done]. unfold cutPit. by rewrite deleteOutRecord_frame, deleteInRecord_frame.
  - rewrite Esched. intros j due x Hj. destruct (I9 _ _ _ Hj) as (pe & Hx & Ha & Et). exists (cutPit f pe).
    change (pits s') with (t_pits t). rewrite Ep, lookup_fmap, Hx. cbn. rewrite decide_True by done. split; [done|].
    unfold isAttached, cutPit. by rewrite deleteOutRecord_frame, deleteInRecord_frame.
  - rewrite EF. intros p n fe. rewrite lookup_omap. intros ([m fe0] & Hp & (fe1 & Hc & E)%fmap_Some)%bind_Some. cbn in Hc, E. injection E as -> ->.
    destruct (I10 _ _ _ Hp) as [Hn0 Hl0]. eapply cutFib_live; [|exact Hl|done|done|done]. by eapply (fi_entry _ (tbi_fib _ I1)).
  - intros j g [Hj Hg]%lookup_delete_Some. destruct (I11 _ _ Hg) as (? & G & HG & EG). split; [done|]. exists G.
    rewrite lookup_insert_ne; [done|]. intros <-. congruence.
  - destruct I12 as [? Hmax]. split; [done|]. intros j g [_ Hg]%lookup_delete_Some. by eapply Hmax.
  - destruct I13 as [Hcl Hcf]. split; [by apply Hl|]. by rewrite lookup_delete_ne.
Qed.
End TablesSteps.

(** ** Management *)

Section ManagementSteps.
Context {N : NdnCxx} {NL : NdnCxxLaws N} {NP : NdnPacket N} {NPL : NdnPacketLaws N NP} {SP : ScopePrefix N}
  {SS : StdSort} {SSL : StdSortLaws SS}
  {SC : Scheduler} {SCL : SchedulerLaws SC} {HI : HashedIndex} {HIL : HashedIndexLaws HI} {RE : RandomEngine}
  {US : UnorderedSet} {USL : UnorderedSetLaws US} {P : Type} {Pol : Policy P} {PL : PolicyLaws Pol}.
Context (strategyOps : Strategy → StrategyOps (P := P)) {SL : ∀ st, StrategyLaws (strategyOps st)} (registry : Registry).
Implicit Types (s : Forwarder P) (x : ptr) (f : FacePtr) (F : Face) (pe : PitEntry) (i : Interest) (d : Data) (B : gset ptr).

(** The FaceId a command is about. *)
Definition commandFaceId (req : Interest) (cp : ControlParameters) : option Z :=
  if (cp_faceId cp =? 0)%Z then i_incomingFaceId req else Some (cp_faceId cp).

Lemma setFaceForSelfRegistration_spec (Q : ControlParameters → Forwarder P → Prop) req cp k s :
  commandFaceId req cp = Some k → Q (mkControlParameters (cp_name cp) k (cp_cost cp)) s →
  wp (setFaceForSelfRegistration req cp) Q s.
Proof.
  unfold commandFaceId, setFaceForSelfRegistration. destruct (_ =? _)%Z.
  - intros Hk HQ. wp_step. wp_step; [exact Hk|]. by wp_step.
  - intros [= <-] HQ. wp_step. by destruct cp.
Qed.

(** A FIB step. *)
Lemma FwInv_fib s t' :
  FwInv s → TablesInv t' → tidy (ents t') → fibOnly (fw_tables s) t' →
  (∀ p n fe, fibV t' !! p = Some (n, fe) → fe_nextHops fe ≠ [] ∧ ∀ nh, nh ∈ fe_nextHops fe → live s (nh_face nh)) →
  FwInv (set_fw_tables t' s).
Proof.
  intros Hs Ht Htidy (EP & EM & ES & _) Hf. injection EP as _ EP _. injection EM as _ _ EM. injection ES as ES _.
  apply FwInv_tables; [done|done|done| | |unfold samePitTimers; by rewrite EM|done].
  - unfold hasDefault. rewrite ES. apply Hs.
  - intros x. rewrite EP. apply pitKept_refl.
Qed.

Lemma addNextHop_faces s (fe : FibEntry) f cost :
  live s f → (∀ nh, nh ∈ fe_nextHops fe → live s (nh_face nh)) →
  fe_nextHops (FibEntry_addOrUpdateNextHop fe f cost).1 ≠ [] ∧
  ∀ nh, nh ∈ fe_nextHops (FibEntry_addOrUpdateNextHop fe f cost).1 → live s (nh_face nh).
Proof.
  intros Hl Hfe. pose proof (addOrUpdate_faces fe f cost) as Hp. set (fe' := (FibEntry_addOrUpdateNextHop fe f cost).1) in *.
  assert (Hin : ∀ g, g ∈ nh_face <$> fe_nextHops fe' ↔ g = f ∨ g ∈ nh_face <$> fe_nextHops fe).
  { intros g. rewrite Hp. case_decide; set_solver. }
  split.
  - intros E. rewrite E in Hin. specialize (Hin f). set_solver.
  - intros nh Hnh. assert (Hg : nh_face nh ∈ nh_face <$> fe_nextHops fe') by (apply list_elem_of_fmap; eauto).
    apply Hin in Hg as [->|(nh' & -> & ?)%list_elem_of_fmap]; [done|auto].
Qed.

Lemma addNextHop_spec req cp k s :
  FwInv s → commandFaceId req cp = Some k →
  wp (addNextHop strategyOps req cp) (λ r s', FwInv s' ∧
    if decide (getMaxDepth < length (cp_name cp)) then cr_code r = 414%Z ∧ s' = s
    else match fw_faceTable s !! k with
         | None => cr_code r = 410%Z ∧ s' = s
         | Some f => cr_code r = 200%Z ∧
             ∀ n g, fibCost (fw_tables s') n g = if decide (n = cp_name cp ∧ g = f) then Some (cp_cost cp) else fibCost (fw_tables s) n g
         end) s.
Proof.
  intros Hs Hk. unfold addNextHop. wp_step. eapply setFaceForSelfRegistration_spec; [exact Hk|]. cbn [cp_name cp_faceId cp_cost].
  case_decide as Hlen; [by wp_step|]. wp_step. unfold FaceTable_get. wp_step.
  destruct (fw_faceTable s !! k) as [f|] eqn:Hf; [|by wp_step].
  pose proof (Fib_add_spec (cp_name cp) f (cp_cost cp) (fw_tables s) (fw_i_tables _ _ Hs) ltac:(lia)) as Hadd. apply wp_bind in Hadd.
  wp_step. apply wp_tb. eapply wp_mono; [exact Hadd|]. clear Hadd. intros r t1 Hadd. wp_step. apply wp_tb.
  eapply wp_mono; [exact Hadd|]. intros sig t2 (Ht & Ho & Htidy & Hc & p & fe & EV & Hfe & Hsig).
  change (set_fw_tables t2 (set_fw_tables t1 s)) with (set_fw_tables t2 s). set (s2 := set_fw_tables t2 s).
  assert (Hl : live s f).
  { destruct (fw_i_faceTable _ _ Hs _ _ Hf) as (_ & F & HF & E). exists F. by rewrite E. }
  assert (Hfe' : fe_nextHops (FibEntry_addOrUpdateNextHop fe f (cp_cost cp)).1 ≠ [] ∧
    ∀ nh, nh ∈ fe_nextHops (FibEntry_addOrUpdateNextHop fe f (cp_cost cp)).1 → live s (nh_face nh)).
  { apply addNextHop_faces; [done|]. destruct Hfe as [->|Hp]; [by intros nh ?%elem_of_nil|]. by eapply (fw_i_fib _ _ Hs). }
  assert (Hs2 : FwInv s2).
  { apply FwInv_fib; [done|done|apply Htidy, Hs|done|]. rewrite EV. intros q n g [[<- [= <- <-]]|[_ Hq]]%lookup_insert_Some; [done|].
    by eapply (fw_i_fib _ _ Hs). }
  wp_step. eapply (wp_mono _ (λ _ s', FwInv s' ∧ fwFrame s2 s')).
  { destruct sig as [[pn nh]|]; [|by apply noop_spec]. apply onNewNextHop_spec; [done|done|]. destruct (Hsig _ _ eq_refl) as [_ Hnh].
    by apply (proj2 Hfe'). }
  intros [] s3 [Hs3 Hf3]. wp_step. split; [done|]. split; [done|]. pose proof (ff_fib _ _ Hf3) as E. injection E as E _.
  unfold fibCost at 1. rewrite E. exact Hc.
Qed.

(** Removing a nexthop, when the name tree entry is not left empty. *)
Definition keepsNte s (k : Z) (prefix : Name) : Prop :=
  ∀ f p e fe, fw_faceTable s !! k = Some f → ents (fw_tables s) !! p = Some e → e_name e = prefix → e_fibEntry e = Some fe →
    (∀ nh, nh ∈ fe_nextHops fe → nh_face nh = f) → isEmpty (setFibEntry None e) = false.

Lemma removeNextHop_spec req cp k s :
  FwInv s → commandFaceId req cp = Some k → keepsNte s k (cp_name cp) →
  wp (removeNextHop req cp) (λ r s', FwInv s' ∧ cr_code r = 200%Z) s.
Proof.
  intros Hs Hk Hkeep. unfold removeNextHop. wp_step. eapply setFaceForSelfRegistration_spec; [exact Hk|]. cbn [cp_name cp_faceId cp_cost].
  wp_step. unfold FaceTable_get. wp_step. destruct (fw_faceTable s !! k) as [f|] eqn:Hf; [|by wp_step].
  wp_step. eapply wp_tb_reads; [apply Fib_findExactMatch_spec, Hs|]. intros ? ->.
  destruct (atName (fibV (fw_tables s)) (cp_name cp)) as [[p fe]|] eqn:Hat; cbn [fmap option_fmap option_map fst]; [|by wp_step].
  apply atName_Some in Hat as Hp; [|apply fibV_unique, Hs]. wp_step. apply wp_tb.
  destruct (fi_entry _ (tbi_fib _ (fw_i_tables _ _ Hs)) _ _ _ Hp) as [_ [Hnd _]].
  eapply wp_mono; [eapply Fib_removeNextHop_spec; [apply Hs|exact Hp]|]. intros r t (Ht & Ho & (e & fo & He & Ee) & Hr). wp_step.
  split; [|done]. apply fibV_lookup in Hp as Hp'. destruct Hp' as (e' & He' & Hn & Hfe). rewrite He in He'. injection He' as <-.
  destruct (fw_i_fib _ _ Hs _ _ _ Hp) as [Hne Hlive].
  assert (Htidy : isEmpty (setFibEntry fo e) = false → tidy (ents t)).
  { intros HE. rewrite Ee. intros q e2 [[<- <-]|[_ Hq]]%lookup_insert_Some; [done|]. by eapply (fw_i_tidy _ _ Hs). }
  assert (Hlook : ∀ q, fibV t !! q = if decide (q = p) then pair (e_name e) <$> fo else fibV (fw_tables s) !! q).
  { intros q. unfold fibV. rewrite Ee, view_insert. unfold fibF at 1. cbn. case_decide as Eq; [subst q|].
    - destruct fo; cbn; [by rewrite lookup_insert_eq|by rewrite lookup_delete_eq].
    - destruct fo; cbn; [by rewrite lookup_insert_ne|by rewrite lookup_delete_ne]. }
  pose proof (remove_elem_of fe f Hnd) as Hel.
  apply FwInv_fib; [done|done| |done|].
  - apply Htidy. destruct r; destruct Hr as (Hin & Hr).
    + specialize (Hlook p). rewrite Hr, Hp, decide_True in Hlook by done. destruct fo; [|done]. by eapply hasFib_notEmpty.
    + destruct Hr as [_ Hr]. specialize (Hlook p). rewrite Hr, lookup_insert_eq, decide_True in Hlook by done. destruct fo; [|done]. by eapply hasFib_notEmpty.
    + destruct Hr as [Hnil Hr]. specialize (Hlook p). rewrite Hr, lookup_delete_eq, decide_True in Hlook by done. destruct fo; [done|].
      eapply Hkeep; [done..|]. intros nh Hnh. destruct (decide (nh_face nh = f)) as [|Hnf]; [done|].
      pose proof (proj2 (Hel nh) (conj Hnh Hnf)) as Hx. rewrite Hnil in Hx. by apply elem_of_nil in Hx.
  - intros q n g Hq. destruct r; destruct Hr as (Hin & Hr).
    + rewrite Hr in Hq. by eapply (fw_i_fib _ _ Hs).
    + destruct Hr as [Hnn Hr]. rewrite Hr in Hq. apply lookup_insert_Some in Hq as [[<- [= <- <-]]|[_ Hq]]; [|by eapply (fw_i_fib _ _ Hs)].
      split; [done|]. intros nh [? _]%Hel. by apply Hlive.
    + destruct Hr as [_ Hr]. rewrite Hr in Hq. apply lookup_delete_Some in Hq as [_ Hq]. by eapply (fw_i_fib _ _ Hs).
Qed.

(** When it is left empty, the entry stays in the name tree. *)
Lemma removeNextHop_leavesEmpty req cp k f p e fe s :
  FwInv s → commandFaceId req cp = Some k → fw_faceTable s !! k = Some f →
  ents (fw_tables s) !! p = Some e → e_name e = cp_name cp → e_fibEntry e = Some fe →
  (∀ nh, nh ∈ fe_nextHops fe → nh_face nh = f) → isEmpty (setFibEntry None e) = true →
  wp (removeNextHop req cp) (λ r s', cr_code r = 200%Z ∧ TablesInv (fw_tables s') ∧ fw_faces s' = fw_faces s ∧
    ents (fw_tables s') !! p = Some (setFibEntry None e)) s.
Proof.
  intros Hs Hk Hf He Hn Hfe Hall Hempty. unfold removeNextHop. wp_step. eapply setFaceForSelfRegistration_spec; [exact Hk|]. cbn [cp_name cp_faceId cp_cost].
  wp_step. unfold FaceTable_get. wp_step. rewrite Hf. wp_step. eapply wp_tb_reads; [apply Fib_findExactMatch_spec, Hs|]. intros ? ->.
  assert (Hp : fibV (fw_tables s) !! p = Some (cp_name cp, fe)) by (apply fibV_lookup; eauto).
  rewrite (proj2 (atName_Some _ (cp_name cp) p fe (fibV_unique _ (fw_i_tables _ _ Hs))) Hp). cbn [fmap option_fmap option_map fst]. wp_step. apply wp_tb.
  destruct (fi_entry _ (tbi_fib _ (fw_i_tables _ _ Hs)) _ _ _ Hp) as [_ [Hnd _]]. destruct (fw_i_fib _ _ Hs _ _ _ Hp) as [Hne _].
  eapply wp_mono; [eapply Fib_removeNextHop_spec; [apply Hs|exact Hp]|]. intros r t (Ht & Ho & (e0 & fo & He0 & Ee) & Hr). wp_step.
  rewrite He in He0. injection He0 as <-. split; [done|]. split; [done|]. split; [done|]. cbn. rewrite Ee, lookup_insert_eq. do 2 f_equal.
  pose proof (remove_elem_of fe f Hnd) as Hel.
  assert (Hlook : fibV t !! p = pair (e_name e) <$> fo).
  { unfold fibV. rewrite Ee, view_insert. unfold fibF at 1. cbn. destruct fo; cbn; [by rewrite lookup_insert_eq|by rewrite lookup_delete_eq]. }
  assert (Hnil : fe_nextHops (FibEntry_removeNextHop fe f).1 = []).
  { apply elem_of_nil_inv. intros nh [Hin Hnf]%Hel. by apply Hnf, Hall. }
  destruct r; destruct Hr as [Hin Hr].
  - destruct Hin. destruct (fe_nextHops fe) as [|nh l] eqn:E; [done|]. apply list_elem_of_fmap. exists nh. split; [|constructor]. symmetry. apply Hall. constructor.
  - by destruct Hr.
  - destruct Hr as [_ Hr]. rewrite Hr, lookup_delete_eq in Hlook. by destruct fo.
Qed.

(** The Nack that finds it. *)
Lemma onIncomingNack_empty nack ingress F p e s :
  TablesInv (fw_tables s) → fw_faces s !! ep_face ingress = Some F → f_linkType F = LINK_TYPE_POINT_TO_POINT →
  ents (fw_tables s) !! p = Some e → e_name e = take (pitDepth (i_name (nack_interest nack))) (i_name (nack_interest nack)) → isEmpty e = true →
  onIncomingNack strategyOps nack ingress s = None.
Proof.
  intros Hs HF Hlt He Hn Hempty. unfold onIncomingNack. apply (outcome_bind _ _ (λ r, r = None)), wp_derefFace. exists F. split; [done|].
  apply (outcome_bind _ _ (λ r, r = None)). unfold count. wp_step. rewrite decide_False by (intros H; by apply H).
  unfold mbind, M_bind, tb, lift. cbn [fw_tables set_fw_counters nack_interest setNackIncomingFaceId]. by rewrite (Pit_find_empty _ p e).
Qed.

(** Strategy choice *)
Lemma PeOk_clear s pe : PeOk s pe → PeOk s (clearPitInfo pe).
Proof.
  intros [P1 P2 P3 P4]. split; [| |done|done].
  - intros r (r0 & -> & Hr)%list_elem_of_fmap. exact (P1 r0 Hr).
  - intros r (r0 & -> & Hr)%list_elem_of_fmap. exact (P2 r0 Hr).
Qed.

Lemma FwInv_sc Pn s t' :
  FwInv s → TablesInv t' → tidy (ents t') → hasDefault t' → scFrame (fw_tables s) t' → infoCleared Pn (fw_tables s) t' →
  FwInv (set_fw_tables t' s).
Proof.
  intros Hs Ht Htidy Hd (EF & _ & _ & _ & ES & _) [Ep _]. injection EF as EF _.
  apply FwInv_tables; [done|done|done|done| |unfold samePitTimers; by rewrite ES|rewrite EF; apply Hs].
  intros x. rewrite Ep, lookup_fmap. destruct (pits s !! x) as [pe|]; [|done]. cbn. destruct (_ && _); [|by split].
  split; [done|]. split; [done|]. apply PeOk_clear.
Qed.

Lemma setStrategy_spec prefix strategy created s :
  FwInv s → Strategy_create registry strategy = Some created →
  wp (setStrategy registry prefix strategy) (λ r s', FwInv s' ∧
    if decide (getMaxDepth < length prefix) then cr_code r = 414%Z ∧ s' = s
    else match created with
         | CR_null => cr_code r = 404%Z ∧ s' = s
         | CR_exception => cr_code r = 409%Z ∧ s' = s
         | CR_strategy st => cr_code r = 200%Z ∧ cr_body r = Some (prefix, st_instanceName st)
         end) s.
Proof.
  intros Hs Hcr. unfold setStrategy. wp_step. apply wp_tb.
  eapply wp_mono; [eapply StrategyChoice_insert_spec; [apply Hs|apply Hs|exact Hcr]|]. intros res t (Ht & Htidy & Hr).
  case_decide as Hlen; [destruct Hr as [-> ->]; rewrite set_fw_tables_same; by wp_step|].
  destruct created as [| |st]; [destruct Hr as [-> ->]; rewrite set_fw_tables_same; by wp_step..|].
  destruct Hr as (-> & Hfr & p & sc & st' & old & EV & Hpre & Hst & Hname & _ & Hinfo).
  assert (Hd : hasDefault t).
  { destruct (fw_i_default _ _ Hs) as (q & sq & Hq). destruct (decide (q = p)) as [->|Hne].
    - exists p, sc. by rewrite EV, lookup_insert_eq, (Hpre _ _ Hq).
    - exists q, sq. by rewrite EV, lookup_insert_ne. }
  pose proof (FwInv_sc _ _ _ Hs Ht (Htidy (fw_i_tidy _ _ Hs)) Hd Hfr Hinfo) as Hs'.
  wp_step. eapply wp_tb_reads; [apply StrategyChoice_get_spec, Ht|]. intros r ->.
  assert (Hat : atName (scV t) prefix = Some (p, sc)).
  { apply atName_Some; [apply scV_unique, Ht|]. by rewrite EV, lookup_insert_eq. }
  cbn [fw_tables set_fw_tables]. rewrite Hat. cbn [mbind option_bind]. rewrite Hst. cbn [fmap option_fmap option_map].
  wp_step. wp_step; [done|]. wp_step. split; [done|]. split; [done|]. cbn. by rewrite Hname.
Qed.

Lemma unsetStrategy_spec prefix s :
  FwInv s → prefix ≠ [] → wp (unsetStrategy registry prefix) (λ r s', FwInv s' ∧ cr_code r = 200%Z) s.
Proof.
  intros Hs Hne. unfold unsetStrategy. wp_step. apply wp_tb.
  eapply wp_mono; [apply StrategyChoice_erase_spec; [apply Hs|apply Hs|done]|]. intros [] t (Ht & Htidy & Hd & Hr). wp_step.
  split; [|done]. destruct (atName _ prefix) as [[p sc]|]; [|subst t; by rewrite set_fw_tables_same].
  destruct Hr as (Hfr & _ & old & parent & _ & _ & Hinfo). eapply FwInv_sc; [done|done|by apply Htidy, Hs|done|done|exact Hinfo].
Qed.

(** Content Store *)
Lemma fw_csM {A} (m : M (Cs P) A) (Q : A → Prop) s :
  FwInv s → wp m (λ a c, CsInv c ∧ cs_table c `sublist_of` cs_table (fw_cs s) ∧ Q a) (fw_cs s) →
  wp (csM m) (λ a s', FwInv s' ∧ s' = set_fw_cs (fw_cs s') s ∧ Q a) s.
Proof.
  intros Hs Hm. apply wp_csM. eapply wp_mono; [exact Hm|]. intros a c (Hc & Hsub & HQ). split; [|done].
  apply (fw_cs_step ∅); [done|done|]. intros k e He. destruct (fw_i_cs _ _ Hs) as [_ Hg]. eapply Hg, elem_of_sublist; done.
Qed.

Lemma changeConfig_spec cp s :
  FwInv s → (∀ n, csp_capacity cp = Some n → (0 ≤ n)%Z) → wp (changeConfig cp) (λ r s', FwInv s' ∧ cr_code r = 200%Z) s.
Proof.
  intros Hs Hn. unfold changeConfig.
  assert (Hflag : ∀ g : bool → Cs P → Cs P, (∀ b c, CsInv c → CsInv (g b c) ∧ cs_table (g b c) = cs_table c) →
    ∀ (o : option bool) s, FwInv s → wp (match o with Some b => csM (modify (g b)) | None => mret tt end) (λ _ s', FwInv s') s).
  { intros g Hg [b|] s1 Hs1; [|by wp_step]. eapply wp_mono; [apply (fw_csM _ (λ _, True)); [done|]|by intros [] s2 [? _]].
    wp_step. destruct (Hg b (fw_cs s1)) as [? ->]; [apply Hs1|]. done. }
  wp_step. eapply (wp_mono _ (λ _ s', FwInv s')).
  { destruct (csp_capacity cp) as [n|]; [|by wp_step]. destruct (fw_i_cs _ _ Hs) as [[C1 C2 C3 C4] _].
    eapply wp_mono; [apply (fw_csM _ (λ _, True)); [done|]|by intros [] s2 [? _]].
    eapply wp_mono; [apply Policy_setLimit_spec; [done|apply C2|done|by apply Hn]|]. by intros [] c (? & ? & _). }
  intros [] s1 Hs1. wp_step. eapply wp_mono; [apply (Hflag enableAdmit); [|done]|].
  { intros b c [C1 C2 C3 C4]. split; [|done]. split; [done|done|done|]. by apply (tracks_flags c b). }
  intros [] s2 Hs2. wp_step. eapply wp_mono; [apply (Hflag enableServe); [|done]|].
  { intros b c [C1 C2 C3 C4]. split; [|done]. split; [done|done|done|]. by apply (tracks_flags c b). }
  intros [] s3 Hs3. wp_step. wp_step. by wp_step.
Qed.

Lemma CsManager_erase_spec name cp s :
  FwInv s → (∀ n, csp_count cp = Some n → (0 ≤ n)%Z) → wp (CsManager_erase name cp) (λ r s', FwInv s' ∧ cr_code r = 200%Z) s.
Proof.
  intros Hs Hn. unfold CsManager_erase. wp_step. destruct (fw_i_cs _ _ Hs) as [Hc _].
  eapply wp_mono; [apply (fw_csM _ (λ _, True)); [done|]|].
  { eapply wp_mono; [apply Cs_eraseImpl_spec; [done|]|].
    - unfold ERASE_LIMIT. destruct (csp_count cp) as [n|]; cbn; [specialize (Hn n eq_refl)|]; lia.
    - intros r c (Hc' & _ & pre & mid & post & E & _ & _ & ->). split; [done|]. split; [|done]. rewrite E.
      apply sublist_app; [done|]. apply sublist_app; [apply sublist_drop|done]. }
  intros r s1 (Hs1 & _). destruct (_ && _); [|by wp_step]. destruct (fw_i_cs _ _ Hs1) as [Hc1 Hg1].
  wp_step. eapply wp_mono; [apply (fw_csM _ (λ _, True)); [done|]|].
  { eapply wp_mono; [apply Cs_find_spec; [done|by apply goodTable_plain]|]. intros o c (Hc' & _ & -> & _). done. }
  intros o s2 (Hs2 & _). by wp_step.
Qed.

(** Configuration *)
Lemma processConfig_spec parseNumber section isDryRun s config :
  FwInv s → parseForwarderConfig parseNumber section 0 = Some config → (∀ v n, parseNumber v = Some n → (0 ≤ n < 256)%Z) →
  wp (processConfig parseNumber section isDryRun) (λ _ s', FwInv s') s.
Proof.
  intros Hs Hp Hn. unfold processConfig. wp_step. wp_step; [exact Hp|]. destruct isDryRun; [by wp_step|]. wp_step.
  assert (Hr : ∀ l n, (0 ≤ n < 256)%Z → parseForwarderConfig parseNumber l n = Some config → (0 ≤ config < 256)%Z).
  { intros l. induction l as [|[k v] l IH]; intros n Hb; cbn; [by intros [= <-]|]. case_decide; [|done].
    destruct (parseNumber v) as [m|] eqn:Hm; [|done]. cbn. apply IH. by eapply Hn. }
  pose proof Hs as [I1 I2 I3 I4 I5 I6 I7 I8 I9 I10 I11 I12 I13 I14 I15].
  apply (FwInv_liveMap s); try done; [apply I13|by eapply (Hr section 0%Z)|apply I12|apply I12].
Qed.

(** The regions may change while no Interest with a forwarding hint into them is pending. *)
Lemma processNetworkRegionSection_spec section isDryRun s :
  FwInv s → (∀ x pe, pits s !! x = Some pe → isAttached pe →
    isInProducerRegion (foldl (λ regions name, regions_insert name regions) [] section) (i_forwardingHint (pe_interest pe)) = false) →
  wp (processNetworkRegionSection section isDryRun) (λ _ s', FwInv s') s.
Proof.
  intros Hs Hp. unfold processNetworkRegionSection. destruct isDryRun; [by wp_step|]. wp_step.
  destruct Hs as [I1 I2 I3 I4 I5 I6 I7 I8 I9 I10 I11 I12 I13 I14 I15]. split; try done.
  intros x pe Hx Ha. destruct (I6 x pe Hx Ha) as [P1 P2 P3 P4]. split; [done|done|by apply (Hp x)|done].
Qed.
End ManagementSteps.

(** ** Events *)

Inductive FwEvent {N : NdnCxx} {NP : NdnPacket N} :=
| ReceiveInterest (interest : Interest) (ingress : FaceEndpoint)
| ReceiveData (data : Data) (ingress : FaceEndpoint)
| ReceiveNack (nack : Nack) (ingress : FaceEndpoint)
| DroppedInterest (interest : Interest) (egress : FacePtr)
| TablesTimer (id : positive)
| DnlTimer (id : positive)
| CsTimer (id : positive)
| Tick (now : Z)
| CreateFace (face : FacePtr) (F : Face)
| AddFace (face : FacePtr)
| RemoveFace (faceId : Z)
| DestroyFace (face : FacePtr)
| CmdAddNextHop (request : Interest) (parameters : ControlParameters)
| CmdRemoveNextHop (request : Interest) (parameters : ControlParameters)
| CmdSetStrategy (prefix strategy : Name)
| CmdUnsetStrategy (prefix : Name)
| CmdCsConfig (parameters : CsParameters)
| CmdCsErase (name : Name) (parameters : CsParameters).

Section Run.
Context {N : NdnCxx} {NL : NdnCxxLaws N} {NP : NdnPacket N} {NPL : NdnPacketLaws N NP} {SP : ScopePrefix N}
  {SS : StdSort} {SSL : StdSortLaws SS}
  {SC : Scheduler} {SCL : SchedulerLaws SC} {HI : HashedIndex} {HIL : HashedIndexLaws HI} {RE : RandomEngine}
  {US : UnorderedSet} {USL : UnorderedSetLaws US} {P : Type} {Pol : Policy P} {PL : PolicyLaws Pol}.
Context (strategyOps : Strategy → StrategyOps (P := P)) {SL : ∀ st, StrategyLaws (strategyOps st)} (registry : Registry).
Implicit Types (s : Forwarder P).

(** A timer of the PIT or of the Measurements table runs. *)
Definition tablesTimer (id : positive) : M (Forwarder P) unit :=
  s ← get_st;
  ev ← someM (sched_pending (t_sched (fw_tables s)) !! id);
  match ev.2 with
  | PitExpiry _ => pit_fire id
  | MeasurementsCleanup _ => tb (Measurements_fire id);; mret tt
  end.

Definition handle (ev : FwEvent) : M (Forwarder P) unit :=
  match ev with
  | ReceiveInterest interest ingress => onIncomingInterest strategyOps interest ingress
  | ReceiveData data ingress => onIncomingData strategyOps data ingress
  | ReceiveNack nack ingress => onIncomingNack strategyOps nack ingress
  | DroppedInterest interest egress => onDroppedInterest strategyOps interest egress
  | TablesTimer id => tablesTimer id
  | DnlTimer id => dnlM (dn_fire id)
  | CsTimer id => csM (onEvent id)
  | Tick now => tick now
  | CreateFace face F => createFace face F
  | AddFace face => FaceTable_add face
  | RemoveFace faceId => FaceTable_remove faceId
  | DestroyFace face => destroyFace face
  | CmdAddNextHop request parameters => addNextHop strategyOps request parameters;; mret tt
  | CmdRemoveNextHop request parameters => removeNextHop request parameters;; mret tt
  | CmdSetStrategy prefix strategy => setStrategy registry prefix strategy;; mret tt
  | CmdUnsetStrategy prefix => unsetStrategy registry prefix;; mret tt
  | CmdCsConfig parameters => changeConfig parameters;; mret tt
  | CmdCsErase name parameters => CsManager_erase name parameters;; mret tt
  end.

(** What the environment may do.

    Two ordinary events are left out because the code does not survive them: an
    Interest that is answered from the Content Store ([servedFromCs]; the base class
    reaches the end of a function without a return statement), and the removal of the
    last nexthop of a prefix whose name tree entry holds nothing else ([keepsNte]; the
    empty entry fails an assertion later).  Both have a theorem of their own in
    [ForwarderCorrect].

    The other conditions: packets come in on faces of the face table; Data has no
    implicit digest inside its name and no negative FreshnessPeriod ([goodData]); timers that are
    pending run; a Face object is created at a new address, and destroyed only when it
    is not in the face table; the Content Store face is not removed and the FaceIds do
    not run out; commands carry a FaceId, a known strategy, counts that are not negative,
    and do not unset the default strategy. *)
Definition allowed s (ev : FwEvent) : Prop :=
  match ev with
  | ReceiveInterest interest ingress => live s (ep_face ingress) ∧ ¬ servedFromCs s interest
  | ReceiveData data ingress => goodData data ∧ live s (ep_face ingress)
  | ReceiveNack _ ingress => live s (ep_face ingress)
  | DroppedInterest _ egress => live s egress
  | TablesTimer id => is_Some (pendingOf (fw_tables s) !! id)
  | DnlTimer id => is_Some (sched_pending (dn_sched (fw_dnl s)) !! id)
  | CsTimer id => is_Some (sched_pending (cs_sched (fw_cs s)) !! id)
  | Tick _ => True
  | CreateFace face _ => fw_faces s !! face = None
  | AddFace face => is_Some (fw_faces s !! face) ∧ (fw_lastFaceId s + 1 < 2 ^ 64)%Z
  | RemoveFace faceId => is_Some (fw_faceTable s !! faceId) ∧ faceId ≠ FACEID_CONTENT_STORE
  | DestroyFace face => ∀ id, fw_faceTable s !! id ≠ Some face
  | CmdAddNextHop request parameters => is_Some (commandFaceId request parameters)
  | CmdRemoveNextHop request parameters =>
      ∃ k, commandFaceId request parameters = Some k ∧ keepsNte s k (cp_name parameters)
  | CmdSetStrategy _ strategy => is_Some (Strategy_create registry strategy)
  | CmdUnsetStrategy prefix => prefix ≠ []
  | CmdCsConfig parameters => ∀ n, csp_capacity parameters = Some n → (0 ≤ n)%Z
  | CmdCsErase _ parameters => ∀ n, csp_count parameters = Some n → (0 ≤ n)%Z
  end.

Lemma tablesTimer_spec k s :
  FwInv s → is_Some (pendingOf (fw_tables s) !! k) → wp (tablesTimer k) (λ _ s', FwInv s') s.
Proof.
  intros Hs [[due ev] Hk]. unfold tablesTimer. wp_step. wp_step. wp_step. wp_step; [exact Hk|]. destruct ev as [x|p]; cbn [snd].
  - eapply wp_mono; [by eapply pit_fire_spec|]. intros [] s' H. apply H.
  - wp_step. eapply wp_mono; [by eapply measurements_timer_spec|]. intros [] s' ?. by wp_step.
Qed.

(** Every allowed event is handled to the end and keeps the invariant. *)
Lemma handle_spec ev s : FwInv s → allowed s ev → wp (handle ev) (λ _ s', FwInv s') s.
Proof.
  assert (Hret : ∀ A (m : M (Forwarder P) A) (Q : A → Forwarder P → Prop) s', wp m (λ r s, FwInv s ∧ Q r s) s' →
    wp (m;; mret tt) (λ _ s, FwInv s) s').
  { intros A m Q s' Hm. wp_step. eapply wp_mono; [exact Hm|]. intros r s1 [? _]. by wp_step. }
  intros Hs. destruct ev; cbn [handle allowed].
  - intros [Hl Hcs]. by apply onIncomingInterest_spec.
  - intros [Hd Hl]. eapply wp_mono; [by apply onIncomingData_spec|]. by intros [] s' [? _].
  - intros Hl. eapply wp_mono; [by apply onIncomingNack_spec|]. by intros [] s' [? _].
  - intros Hl. eapply wp_mono; [by apply onDroppedInterest_spec|]. by intros [] s' [? _].
  - by apply tablesTimer_spec.
  - intros [[due e] Hk]. by eapply dnl_timer_spec.
  - intros [[due e] Hk]. by eapply cs_timer_spec.
  - intros _. by apply tick_spec.
  - by apply createFace_spec.
  - intros [[F HF] Hlast]. eapply wp_mono; [by eapply FaceTable_add_spec|]. by intros [] s' [? _].
  - intros [[f Hf] Hne]. eapply wp_mono; [by eapply FaceTable_remove_spec|]. by intros [] s' [? _].
  - by apply destroyFace_spec.
  - intros [k Hk]. eapply Hret. by eapply addNextHop_spec.
  - intros (k & Hk & Hkeep). eapply Hret. by eapply removeNextHop_spec.
  - intros [c Hc]. eapply Hret. by eapply setStrategy_spec.
  - intros Hne. eapply Hret. by eapply unsetStrategy_spec.
  - intros Hn. eapply Hret. by eapply changeConfig_spec.
  - intros Hn. eapply Hret. by eapply CsManager_erase_spec.
Qed.

(** The step relation, and the states reached from [s0]. *)
Inductive fwStep : Forwarder P → Forwarder P → Prop :=
| fwStep_event s ev s' : allowed s ev → handle ev s = Some (s', tt) → fwStep s s'.

Lemma reachable_inv s0 s : FwInv s0 → rtc fwStep s0 s → FwInv s.
Proof.
  intros H0 Hr. induction Hr as [|s1 s2 s3 Hst _ IH]; [done|]. apply IH. destruct Hst as [s1 ev s2 Hal Hh].
  destruct (wp_elim _ _ _ (handle_spec ev s1 H0 Hal)) as (s' & [] & Hh' & Hs'). rewrite Hh in Hh'. injection Hh' as ->. exact Hs'.
Qed.
End Run.

(** ** Construction *)

Section Construction.
Context {N : NdnCxx} {NL : NdnCxxLaws N} {NP : NdnPacket N} {NPL : NdnPacketLaws N NP} {SP : ScopePrefix N}
  {SC : Scheduler} {SCL : SchedulerLaws SC} {HI : HashedIndex} {HIL : HashedIndexLaws HI} {RE : RandomEngine}
  {US : UnorderedSet} {USL : UnorderedSetLaws US} {SN : StrategyNames N} {P : Type} {Pol : Policy P} {PL : PolicyLaws Pol}
  (registry : Registry).
Implicit Types (s : Forwarder P).

(** The members as their constructors leave them; [csFace] is the null face
    created for the Content Store. *)
Definition members (nt : Hashtable) (sched : SchedState Event) (now : Z) (cs : Cs P) (dnl : DeadNonceList)
  (csFace : FacePtr) (F : Face) (rng : RngState) : Forwarder P :=
  mkForwarder (newTables nt sched now) cs dnl {[csFace := F]} ∅ FACEID_RESERVED_MAX [] 0 DropAll csFace (λ _, 0%Z) rng [].

Lemma newForwarder_spec nBuckets nt sched now cs dnl csFace F rng st :
  newNameTree nBuckets = Some nt → sched_pending sched = ∅ → CsInv cs → cs_table cs = [] → DnlInv dnl →
  f_id F = INVALID_FACEID → Strategy_create registry BestRoute_getStrategyName = Some (CR_strategy st) →
  wp (newForwarder registry csFace) (λ _ s', FwInv s' ∧ fw_sent s' = []) (members nt sched now cs dnl csFace F rng).
Proof.
  intros Hnt Hsc Hcs Htbl Hdnl HF Hcr. destruct (newTables_inv nBuckets nt sched now Hnt Hsc) as [Ht Htidy].
  assert (HE : ents (newTables nt sched now) = ∅) by (apply newHashtable_spec in Hnt as [_ He]; exact He).
  unfold newForwarder, FaceTable_addReserved, FaceTable_addImpl, updateFace.
  wp_step. wp_step. apply wp_derefFace. exists F. split; [cbn; by rewrite lookup_singleton_eq|].
  wp_step. wp_step; [by apply Z.eqb_eq|]. wp_step. wp_step; [done|].
  wp_step. wp_step. apply wp_derefFace. exists F. split; [cbn; by rewrite lookup_singleton_eq|]. wp_step. wp_step. wp_step. wp_step.
  wp_step; [done|]. wp_step. apply wp_tb. cbn [fw_tables set_fw_faceTable set_fw_faces members].
  eapply wp_mono; [apply setDefaultStrategy_spec; [done| |exact Hcr]|].
  { apply atName_None. intros p sc (e & He & _)%scV_lookup. by rewrite HE in He. }
  intros [] t (Ht' & Hd & Htidy' & _ & EF & EP & EM). injection EF as EF _. injection EP as _ EP _. injection EM as _ _ EM.
  set (s' := set_fw_tables _ _). split; [|done].
  assert (Hpits : pits s' = ∅) by (exact EP). assert (Hpend : pendingOf (fw_tables s') = ∅) by (cbn; by rewrite EM).
  assert (Hfib : fibV (fw_tables s') = ∅) by (cbn; rewrite EF; unfold fibV; by rewrite HE, view_empty).
  assert (Hface : fw_faces s' !! csFace = Some (set_f_id FACEID_CONTENT_STORE F)) by (unfold s'; cbn; by rewrite lookup_insert_eq).
  split; rewrite ?Hpits, ?Hpend, ?Hfib; try done.
  - by apply Htidy'.
  - split; [done|]. cbn. rewrite Htbl. by intros c e ?%elem_of_nil.
  - intros k f Hk. cbn in Hk. apply lookup_insert_Some in Hk as [[<- <-]|[_ Hk]]; [|by rewrite lookup_empty in Hk].
    split; [done|]. by eexists.
  - split; [done|]. intros k f Hk. cbn in Hk. apply lookup_insert_Some in Hk as [[<- <-]|[_ Hk]]; [done|by rewrite lookup_empty in Hk].
  - split; [|done]. eexists. split; [exact Hface|done].
Qed.
End Construction.
