(* ===== verification/ForwarderCorrect.v ===== *)
(** * Correctness of the forwarder

    The theorems about whole runs and about the pipelines, with an example
    forwarder: a local face 2, two remote faces 3 and 4, and a route for /101
    through face 3. *)

From Stdlib Require Import ZArith Lia String.
From stdpp Require Import base gmap option sorting relations list.
From S2P Require Import Prelude Scheduler CityHash Ndn FibEntry PitEntry NameTreeEntry Hashtable NameTree.
From S2P Require Import NameTreeIterator Tables Fib Pit Measurements StrategyChoice Cleanup Cs CsPolicies.
From S2P Require Import DeadNonceList Algorithm FwState Strategies Forwarder Management FwInvariant StrategySpecs ForwarderSpecs.
From S2P Require Import PipelineSpecs ForwarderRun.

(** ** Example *)

Definition exFwRegistry : list (list (@Component NatNdn) * (list (@Component NatNdn) → Created)) :=
  [(BestRoute_getStrategyName, newBestRouteStrategy); (Multicast_getStrategyName, newMulticastStrategy);
   (Random_getStrategyName, newRandomStrategy)].
Definition exStrategies : Strategy (N := NatNdn) → StrategyOps (P := LruPolicy) := standardStrategies.
Definition exFace (scope : FaceScope) : Face := mkFace INVALID_FACEID scope LINK_TYPE_POINT_TO_POINT 0 0.

Definition exMembers : Forwarder (N := NatNdn) LruPolicy :=
  members emptyHashtable emptyScheduler 0 cs0 dnl0 1%positive (exFace FACE_SCOPE_NON_LOCAL) 0.
Definition fw0 : Forwarder (N := NatNdn) LruPolicy := run (newForwarder exFwRegistry 1%positive) exMembers.

Definition exBestRoute : Strategy (N := NatNdn) := mkStrategy (N := NatNdn) BestRoute_getStrategyName BestRoute_getStrategyName.

Lemma exDefault : Strategy_create exFwRegistry BestRoute_getStrategyName = Some (CR_strategy exBestRoute).
Proof. vm_compute. reflexivity. Qed.

Lemma exNameTree : newNameTree (N := NatNdn) 2 = Some emptyHashtable.
Proof. vm_compute. reflexivity. Qed.

Lemma fw0_new : newForwarder exFwRegistry 1%positive exMembers = Some (fw0, tt) ∧ FwInv fw0.
Proof.
  assert (H : wp (newForwarder exFwRegistry 1%positive) (λ _ s', FwInv s' ∧ fw_sent s' = []) exMembers)
    by (eapply (newForwarder_spec exFwRegistry 2); [exact exNameTree|reflexivity|apply cs0_inv|reflexivity|apply dnl0_inv|reflexivity|exact exDefault]).
  destruct (wp_elim _ _ _ H) as (s' & [] & E & Hs' & _). assert (fw0 = s') as -> by (unfold fw0, run; by rewrite E). done.
Qed.

Definition exHandle := handle exStrategies exFwRegistry.

(** Running a list of events the environment may produce. *)
Definition runEvents (l : list (FwEvent (N := NatNdn))) (s : Forwarder LruPolicy) : Forwarder LruPolicy :=
  foldl (λ s ev, run (exHandle ev) s) s l.
Fixpoint allAllowed (l : list (FwEvent (N := NatNdn))) (s : Forwarder LruPolicy) : Prop :=
  match l with
  | [] => True
  | ev :: l' => allowed exFwRegistry s ev ∧ allAllowed l' (run (exHandle ev) s)
  end.

Lemma runEvents_inv l s : FwInv s → allAllowed l s → FwInv (runEvents l s).
Proof.
  revert s. induction l as [|ev l IH]; intros s Hs; [done|]. intros [Hal Hl]. apply IH; [|exact Hl].
  destruct (run_spec _ _ _ (handle_spec exStrategies exFwRegistry ev s Hs Hal)) as (r & H). exact H.
Qed.

Definition exCommand (prefix : list nat) (faceId cost : Z) : ControlParameters (N := NatNdn) := mkControlParameters (N := NatNdn) prefix faceId cost.
Definition exSetup : list (FwEvent (N := NatNdn)) :=
  [CreateFace 2%positive (exFace FACE_SCOPE_LOCAL); AddFace 2%positive;
   CreateFace 3%positive (exFace FACE_SCOPE_NON_LOCAL); AddFace 3%positive;
   CreateFace 4%positive (exFace FACE_SCOPE_NON_LOCAL); AddFace 4%positive;
   CmdAddNextHop (exInterest [101] false 0) (exCommand [101] 257 10)].
Definition fw1 : Forwarder (N := NatNdn) LruPolicy := runEvents exSetup fw0.

(** Discharges the conditions of an event on a concrete state. *)
Ltac allowed_tac :=
  repeat match goal with
  | |- allAllowed [] _ => exact I
  | |- allAllowed (_ :: _) _ => split
  | |- allowed _ _ _ => unfold allowed
  | |- _ ∧ _ => split
  | |- ¬ servedFromCs _ _ => intros [[? Hhit] _]; vm_compute in Hhit; discriminate Hhit
  | |- is_Some _ => eexists; vm_compute; reflexivity
  | |- live _ _ => eexists; split; vm_compute; reflexivity
  | |- _ = _ => vm_compute; reflexivity
  | |- (_ < _)%Z => vm_compute; reflexivity
  | |- _ ≠ _ => vm_compute; discriminate
  end.

Lemma fw1_inv : FwInv fw1.
Proof. apply runEvents_inv; [apply fw0_new|]. unfold exSetup. allowed_tac. Qed.

(** ** Runs *)

Section RunCorrect.
Context {N : NdnCxx} {NL : NdnCxxLaws N} {NP : NdnPacket N} {NPL : NdnPacketLaws N NP} {SP : ScopePrefix N}
  {SS : StdSort} {SSL : StdSortLaws SS}
  {SC : Scheduler} {SCL : SchedulerLaws SC} {HI : HashedIndex} {HIL : HashedIndexLaws HI} {RE : RandomEngine}
  {US : UnorderedSet} {USL : UnorderedSetLaws US} {SN : StrategyNames N} {P : Type} {Pol : Policy P} {PL : PolicyLaws Pol}.
Context (strategyOps : Strategy → StrategyOps (P := P)) {SL : ∀ st, StrategyLaws (strategyOps st)} (registry : Registry).
Implicit Types (s : Forwarder P).

(** The states of a forwarder: those reached by events from a constructed one. *)
Definition reachable s : Prop :=
  ∃ nBuckets nt sched now cs dnl csFace F rng st s0,
    newNameTree nBuckets = Some nt ∧ sched_pending sched = ∅ ∧ CsInv cs ∧ cs_table cs = [] ∧ DnlInv dnl ∧ f_id F = INVALID_FACEID ∧
    Strategy_create registry BestRoute_getStrategyName = Some (CR_strategy st) ∧
    newForwarder registry csFace (members nt sched now cs dnl csFace F rng) = Some (s0, tt) ∧
    rtc (fwStep strategyOps registry) s0 s.

Lemma reachable_FwInv s : reachable s → FwInv s.
Proof.
  intros (nB & nt & sched & now & cs & dnl & csFace & F & rng & st & s0 & H1 & H2 & H3 & H4 & H5 & H6 & H7 & H0 & Hr).
  refine (reachable_inv strategyOps registry s0 s _ Hr).
  destruct (wp_elim _ _ _ (newForwarder_spec registry nB nt sched now cs dnl csFace F rng st H1 H2 H3 H4 H5 H6 H7)) as (s' & [] & H' & Hs' & _).
  rewrite H0 in H'. by injection H' as ->.
Qed.

(** C1: The forwarder handles every [allowed] event.  In every state reached from
    construction by [allowed] packets, timers, face changes and management commands,
    every [allowed] event is handled to the end, with no failed assertion, null or
    dangling pointer or undefined behaviour, and every pending Interest has a pending
    timer that will finalize it.  Two ordinary events are not [allowed], and the
    theorem says nothing about runs with them: an Interest that is answered from the
    Content Store, and a command that removes the last nexthop of a prefix whose
    name tree entry holds nothing else; [content_store_hit_undefined] and
    [nack_after_route_removal_fails] show that the code does not survive them.
    The other conditions are those of [allowed]: Data has no implicit digest inside its
    name and no negative FreshnessPeriod, packets arrive on faces of the face table, the
    Content Store face stays, FaceIds do not run out, and commands name a registered
    strategy, do not unset the default one and carry no negative count. *)
Theorem forwarder_never_fails s :
  reachable s →
  (∀ ev, allowed registry s ev → ∃ s', handle strategyOps registry ev s = Some (s', tt) ∧ reachable s') ∧
  (∀ x pe, pits s !! x = Some pe → isAttached pe → hasTimer (fw_tables s) x pe).
Proof.
  intros Hr. pose proof (reachable_FwInv s Hr) as Hs. split.
  - intros ev Hal. destruct (wp_elim _ _ _ (handle_spec strategyOps registry ev s Hs Hal)) as (s' & [] & Hh & _). exists s'. split; [done|].
    destruct Hr as (nB & nt & sched & now & cs & dnl & csFace & F & rng & st & s0 & H1 & H2 & H3 & H4 & H5 & H6 & H7 & H0 & Hr).
    exists nB, nt, sched, now, cs, dnl, csFace, F, rng, st, s0. do 8 (split; [done|]). eapply rtc_r; [exact Hr|]. by econstructor.
  - intros x pe Hx Ha. eapply (fw_i_timer _ _ Hs); [done|done|]. apply not_elem_of_empty.
Qed.

End RunCorrect.

Lemma runEvents_steps l s : FwInv s → allAllowed l s → rtc (fwStep exStrategies exFwRegistry) s (runEvents l s).
Proof.
  revert s. induction l as [|ev l IH]; intros s Hs; [intros _; apply rtc_refl|]. intros [Hal Hl].
  destruct (wp_elim _ _ _ (handle_spec exStrategies exFwRegistry ev s Hs Hal)) as (s' & [] & Hh & Hs'). cbn [runEvents foldl].
  assert (E : run (exHandle ev) s = s') by (unfold run, exHandle; by rewrite Hh). rewrite E in *.
  eapply rtc_l; [exact (fwStep_event _ _ s ev s' Hal Hh)|by apply IH].
Qed.

Lemma fw1_reachable : reachable exStrategies exFwRegistry fw1.
Proof.
  exists 2, emptyHashtable, emptyScheduler, 0%Z, cs0, dnl0, 1%positive, (exFace FACE_SCOPE_NON_LOCAL), 0, exBestRoute, fw0.
  split; [exact exNameTree|]. split; [reflexivity|]. split; [apply cs0_inv|]. split; [reflexivity|]. split; [apply dnl0_inv|].
  split; [reflexivity|]. split; [exact exDefault|]. split; [apply fw0_new|].
  apply runEvents_steps; [apply fw0_new|]. unfold exSetup. allowed_tac.
Qed.

Lemma forwarder_never_fails_witness :
  ∃ s', exHandle (ReceiveInterest (exInterest [101; 102] false 7) (mkFaceEndpoint 2 0)) fw1 = Some (s', tt).
Proof.
  destruct (proj1 (forwarder_never_fails exStrategies exFwRegistry fw1 fw1_reachable)
    (ReceiveInterest (exInterest [101; 102] false 7) (mkFaceEndpoint 2 0))) as (s' & H & _); [allowed_tac|]. exists s'. exact H.
Defined.

(** ** Incoming Interests *)

Section InterestCorrect.
Context {N : NdnCxx} {NL : NdnCxxLaws N} {NP : NdnPacket N} {NPL : NdnPacketLaws N NP} {SP : ScopePrefix N}
  {SC : Scheduler} {SCL : SchedulerLaws SC} {HI : HashedIndex} {HIL : HashedIndexLaws HI} {RE : RandomEngine} {REL : RandomEngineLaws RE}
  {US : UnorderedSet} {USL : UnorderedSetLaws US} {SN : StrategyNames N} {P : Type} {Pol : Policy P} {PL : PolicyLaws Pol}.
Implicit Types (s : Forwarder P) (x : ptr) (f : FacePtr) (F : Face) (pe : PitEntry) (i : Interest).

(** The received Interest never has a forwarding hint in a producer region. *)
Lemma received_hint s F i : isInProducerRegion (fw_regions s) (i_forwardingHint (received s F i)) = false.
Proof.
  unfold received. destruct (tagged_key F i) as (_ & _ & _ & _ & Eh & _). destruct (isInProducerRegion _ (i_forwardingHint i)) eqn:E.
  - apply region_nil.
  - by rewrite Eh.
Qed.

Lemma received_key s F i : i_name (received s F i) = i_name i ∧ i_nonce (received s F i) = i_nonce i ∧
  i_canBePrefix (received s F i) = i_canBePrefix i ∧ i_mustBeFresh (received s F i) = i_mustBeFresh i ∧
  i_nextHopFaceId (received s F i) = i_nextHopFaceId i.
Proof. unfold received. destruct (tagged_key F i) as (? & ? & ? & ? & _ & ?). by destruct (isInProducerRegion _ _). Qed.

Lemma received_match s F i pe : matchKey pe i → matchKey pe (received s F i).
Proof. unfold matchKey. destruct (received_key s F i) as (-> & _ & -> & -> & _). done. Qed.

(** C9: Loops are cut: an Interest whose Nonce is in the Dead Nonce List, or in
    another record of the PIT entry it would join (on a point-to-point link, not in
    the in-record of the same downstream), is not forwarded; no table changes,
    and the only packet sent is a Nack with reason Duplicate to a downstream on a
    point-to-point link. *)
Theorem interest_loop_cut i ingress F s :
  FwInv s → live s (ep_face ingress) → fw_faces s !! ep_face ingress = Some F → accepted F i →
  inDnl s i = true ∨ (∃ x pe, pits s !! x = Some pe ∧ isAttached pe ∧ matchKey pe i ∧ duplicateNonce F pe (i_nonce i) (ep_face ingress)) →
  wp (onIncomingInterest standardStrategies i ingress) (λ _ s',
    pits s' = pits s ∧ fw_cs s' = fw_cs s ∧ fw_dnl s' = fw_dnl s ∧
    ∃ i', i_name i' = i_name i ∧ i_nonce i' = i_nonce i ∧ fw_sent s' = fw_sent s ++ loopNack F (ep_face ingress) i') s.
Proof.
  intros Hs Hl HF Hacc Hdup. eapply onIncomingInterest_accepted; [done..|]. intros s1 c -> Hs1.
  destruct (inDnl s i) eqn:Ednl.
  - eapply wp_mono; [by eapply onInterestLoop_spec|]. intros [] s2 (_ & _ & (Et & Ec & Ed) & Esent).
    rewrite Et, Ec, Ed, Esent. do 3 (split; [done|]). exists (tagged F i). by destruct (tagged_key F i) as (? & ? & _).
  - destruct Hdup as [?|(x & pe & Hx & Ha & Hk & Hdup)]; [done|]. destruct (received_key s F i) as (En & Enn & _).
    eapply wp_mono; [eapply insert_loop; [apply _|apply _|done|exact (received_hint s F i)|done|done|exact Hx|done|by apply received_match|by rewrite Enn]|].
    intros [] s2 (Ep & Ec & Ed & Esent). rewrite Ep, Ec, Ed, Esent. do 3 (split; [done|]). by exists (received s F i).
Qed.

(** C12: Every answer from the Content Store is undefined behaviour: when a new
    Interest passes the checks of the pipeline and the Content Store has Data for it,
    [Strategy::sendData] finds no in-record and so no PIT token, and reaches the end of
    its body, which returns [bool], without a return statement.  This holds in
    every state, for every Interest and each of the three strategies. *)
Theorem content_store_hit_undefined i ingress F c e s :
  FwInv s → live s (ep_face ingress) → fw_faces s !! ep_face ingress = Some F → accepted F i →
  inDnl s i = false → noMatch (fw_tables s) i → lookupCs i (fw_cs s) = Some (c, e) →
  onIncomingInterest standardStrategies i ingress s = None.
Proof.
  intros Hs Hl HF Hacc Hdnl Hno Hlook. destruct (received_key s F i) as (En & _ & Ec & Em & _).
  apply (onIncomingInterest_outcome standardStrategies i ingress F (λ r, r = None)); [done..|]. intros s1 c1 -> Hs1. rewrite Hdnl.
  eapply insert_hit_fails; [apply _|apply _|done|exact (received_hint s F i)| |done|done|rewrite <- Hlook; by apply lookupCs_ext].
  intros x pe Hx Ha Hm. eapply (Hno x pe); [done|done|]. revert Hm. unfold matchKey. by rewrite En, Ec, Em.
Qed.

(** The nexthops that may be used, of least cost. *)
Definition cheapest s F i (nh : NextHop) : Prop :=
  nh ∈ routesOf s i ∧ allowedNextHop (fw_faces s) F i nh ∧
  ∀ y, y ∈ routesOf s i → allowedNextHop (fw_faces s) F i y → (nh_cost nh ≤ nh_cost y)%Z.

Lemma first_cheapest l (ok : NextHop → Prop) nh l1 l2 :
  StronglySorted (key_le nh_cost) l → l = l1 ++ nh :: l2 → (∀ y, y ∈ l1 → ¬ ok y) → ∀ y, y ∈ l → ok y → (nh_cost nh ≤ nh_cost y)%Z.
Proof.
  intros Hso -> Hno y Hy Hok. apply elem_of_app in Hy as [Hy|Hy]; [by destruct (Hno y Hy)|].
  apply StronglySorted_app_1_r, StronglySorted_inv in Hso as [_ Hall]. rewrite Forall_forall in Hall.
  apply elem_of_cons in Hy as [->|Hy]; [done|]. by apply Hall.
Qed.

(** C10: A new Interest that the Content Store cannot answer, where the strategy of its
    name is best-route.  If the longest matching FIB entry has a nexthop that is
    neither the incoming face (ad hoc links apart) nor out of scope, the cheapest of
    these is chosen: the Interest is sent to it once, and to nobody else, and the PIT
    entry has the in-record of the downstream and an out-record of that nexthop; but
    if the HopLimit, decremented on reception, is 0 and the nexthop is not local, the
    Interest is dropped, with the in-record and without a Nack.  If there is no such
    nexthop, a Nack with reason NoRoute is returned on a point-to-point link and the
    PIT entry expires now. *)
Theorem new_interest_best_route i ingress F p st s :
  let i' := withDefaultHopLimit s (received s F i) in
  FwInv s → live s (ep_face ingress) → fw_faces s !! ep_face ingress = Some F → accepted F i →
  inDnl s i = false → noMatch (fw_tables s) i → lookupCs (received s F i) (fw_cs s) = None → i_nextHopFaceId i = None →
  isEffective (fw_tables s) (i_name i) (p, st) → st_class st = BestRoute_getStrategyName →
  wp (onIncomingInterest standardStrategies i ingress) (λ _ s', FwInv s' ∧ ∃ x pe, pits s' !! x = Some pe ∧ isAttached pe ∧ matchKey pe i ∧
    ((∃ nh G, cheapest s F i' nh ∧ fw_faces s !! nh_face nh = Some G ∧ (∃ r, getInRecord pe (ep_face ingress) = Some r ∧ in_interest r = Some i') ∧
        if decide (i_hopLimit i' = Some 0%Z ∧ f_scope G = FACE_SCOPE_NON_LOCAL) then fw_sent s' = fw_sent s
        else fw_sent s' = fw_sent s ++ [SentInterest (nh_face nh) G (removePitToken i')] ∧ is_Some (getOutRecord pe (nh_face nh))) ∨
     (∀ nh, nh ∈ routesOf s i' → ¬ allowedNextHop (fw_faces s) F i' nh) ∧ expiresNow s' x ∧
       fw_sent s' = fw_sent s ++ (if decide (f_linkType F = LINK_TYPE_POINT_TO_POINT)
                                  then [SentNack (ep_face ingress) F (mkNack i' NACK_NO_ROUTE None)] else []))) s.
Proof.
  intros i' Hs Hl HF Hacc Hdnl Hno Hlook Htag Heff Hst. eapply onIncomingInterest_accepted; [done..|]. intros s1 c1 -> Hs1. rewrite Hdnl.
  destruct (received_key s F i) as (En & _ & Ec & Em & Etag).
  assert (Hk : ∀ pe, matchKey pe (received s F i) → matchKey pe i) by (intros pe; unfold matchKey; by rewrite En, Ec, Em).
  eapply insert_miss; [apply _|done|exact (received_hint s F i)| |done|exact Hlook|by rewrite Etag|].
  { intros x pe Hx Ha Hm. by eapply (Hno x pe), Hk. }
  intros x st' p' s2 Heff' Hs2 EF EFt Esent Efib Enow pe Hx Ha Hm Eint Eout Ein. cbn in EF, EFt, Esent, Efib, Enow.
  change (withDefaultHopLimit (set_fw_counters c1 s) (received s F i)) with i' in *. change (fw_tables (set_fw_counters c1 s)) with (fw_tables s) in *.
  assert (st' = st) as ->.
  { destruct Heff as (sc & E1 & E2), Heff' as (sc' & E1' & E2'). rewrite En in E1'. cbn in *. congruence. }
  unfold standardStrategies. rewrite decide_True by done. cbn [so_afterReceiveInterest BestRouteStrategy].
  assert (Hl2 : live s2 (ep_face ingress)) by (unfold live; by rewrite EF, EFt).
  eapply wp_mono; [eapply (BestRoute_spec i' _ F x pe s2); [done|done|done|done|exact Hl2|by rewrite EF]|].
  intros _ s3 (Hs3 & Hf3 & _ & _ & r & pe1 & choice & Hdec & Hch & Hres). split; [done|].
  destruct (frame_pit _ _ _ _ Hf3 Hx) as (pe3 & Hx3 & Hk3). exists x, pe3. split; [done|]. split; [by eapply keeps_attached|].
  split; [apply Hk, (withDefaultHopLimit_back s); by eapply keeps_match|].
  unfold decidePerPitEntry, hasPendingOutRecords in Hdec. rewrite Eout in Hdec. cbn in Hdec. injection Hdec as <- <-.
  destruct (routes_wf _ s2 pe Hs2) as [_ Hso]. unfold bestRouteChoice in Hch. rewrite (routesFor_of s s2 pe i') in * by done. rewrite EF in Hch.
  destruct choice as [nh|].
  - left. destruct Hch as (l1 & l2 & El & Hok & Hno1). destruct Hres as (G & HG & Hsent & pe4 & Hx4 & Ein4 & Hout4). exists nh, G. rewrite EF in HG. rewrite Esent in Hsent.
    rewrite Hx3 in Hx4. injection Hx4 as <-. split; [|split; [done|split]].
    + split; [rewrite El; set_solver|]. split; [done|]. by eapply first_cheapest.
    + unfold getInRecord. rewrite Ein4, Ein. cbn. rewrite bool_decide_eq_true_2 by done. by eexists.
    + unfold sentInterest in Hsent. case_decide; [by rewrite app_nil_r in Hsent|]. split; [done|by apply Hout4].
  - right. destruct Hres as [Hsent Hexp]. split; [done|]. split; [done|]. rewrite Hsent, Esent. f_equal.
    unfold nackFor, getInRecord. rewrite Ein, EF. cbn [ep_face] in *. rewrite HF. cbn. rewrite bool_decide_eq_true_2 by done. done.
Qed.
End InterestCorrect.

(** ** Incoming Data, expiry and Nacks *)

Section DataCorrect.
Context {N : NdnCxx} {NL : NdnCxxLaws N} {NP : NdnPacket N} {NPL : NdnPacketLaws N NP} {SP : ScopePrefix N}
  {SC : Scheduler} {SCL : SchedulerLaws SC} {HI : HashedIndex} {HIL : HashedIndexLaws HI} {RE : RandomEngine} {REL : RandomEngineLaws RE}
  {US : UnorderedSet} {USL : UnorderedSetLaws US} {SN : StrategyNames N} {P : Type} {Pol : Policy P} {PL : PolicyLaws Pol}.
Implicit Types (s : Forwarder P) (x : ptr) (f : FacePtr) (F : Face) (pe : PitEntry) (i : Interest) (d : Data).

Lemma delivered_token s d ingress ds f G d' : SentData f G d' ∈ delivered s d ingress ds → d_pitToken d' = d_pitToken d.
Proof.
  unfold delivered, sentData. destruct (fw_faces s !! ds.1), (fw_faces s !! ep_face ingress); [|by intros ?%elem_of_nil..].
  destruct (_ && _); [by intros ?%elem_of_nil|]. destruct (_ && _); [by intros ?%elem_of_nil|]. by intros [= -> -> ->]%list_elem_of_singleton.
Qed.

(** C2: Data delivery: Data that is expected and in scope (and has no implicit digest
    inside its name) is sent exactly once to each downstream with an unexpired in-record
    in a matching PIT entry (not back to the face it came from, unless that is an ad
    hoc link, and not where scope control forbids it) and to nobody else.  What is sent
    is the Data as it was received, with the PIT token it came with: each downstream
    should get the token of its own Interest instead, as
    [tests/daemon/fw/pit-token.t.cpp] expects, so that the theorem documents a defect
    of this pipeline in that respect.  Afterwards the matching entries are
    satisfied, have no waiting downstream, and expire now; the other entries are
    as before. *)
Theorem data_delivery d ingress F s :
  FwInv s → goodData d → live s (ep_face ingress) → fw_faces s !! ep_face ingress = Some F →
  (f_scope F = FACE_SCOPE_NON_LOCAL → isPrefixOf LOCALHOST (d_name d) = false) →
  (∃ x pe, pits s !! x = Some pe ∧ isAttached pe ∧ matchesData (pe_interest pe) d = true) →
  wp (onIncomingData standardStrategies d ingress) (λ _ s',
    (∃ l, NoDup l ∧ fw_sent s' = fw_sent s ++ (l ≫= delivered s (setDataIncomingFaceId (Some (f_id F)) d) ingress) ∧
      (∀ f G d', SentData f G d' ∈ (l ≫= delivered s (setDataIncomingFaceId (Some (f_id F)) d) ingress) → d_pitToken d' = d_pitToken d) ∧
      ∀ ds, ds ∈ l ↔ ∃ x pe, pits s !! x = Some pe ∧ isAttached pe ∧ matchesData (pe_interest pe) d = true ∧ pendingDownstream s pe ds) ∧
    (∀ x pe, pits s !! x = Some pe → isAttached pe → matchesData (pe_interest pe) d = true → entryDone ingress s' x) ∧
    (∀ x pe, pits s !! x = Some pe → isAttached pe → matchesData (pe_interest pe) d = false → pits s' !! x = Some pe)) s.
Proof.
  intros Hs Hd Hl HF Hsc Hex. eapply wp_mono; [eapply (onIncomingData_base standardStrategies); [apply _|done..]|].
  intros [] s' (_ & (l & Hnd & Hsent & Hl') & H). split; [|exact H]. exists l. split; [done|]. split; [done|]. split; [|exact Hl'].
  intros f G d' (ds & Hin & _)%list_elem_of_bind. exact (delivered_token _ _ _ _ _ _ _ Hin).
Qed.

(** C13: Every pending Interest is finalized: it has a timer, and when the timer runs,
    the PIT entry leaves the table, so that the Interest is no longer pending,
    nothing is sent and no other entry is touched. *)
Theorem pit_entry_expires x pe s :
  FwInv s → pits s !! x = Some pe → isAttached pe →
  ∃ k due, pendingOf (fw_tables s) !! k = Some (due, PitExpiry x) ∧
  wp (pit_fire k) (λ _ s', FwInv s' ∧ noMatch (fw_tables s') (pe_interest pe) ∧ fw_sent s' = fw_sent s ∧
    (∀ y, y ≠ x → pits s' !! y = pits s !! y) ∧ pendingOf (fw_tables s') !! k = None) s.
Proof.
  intros Hs Hx Ha. destruct (fw_i_timer _ _ Hs _ _ Hx Ha) as (k & due & _ & Hk); [apply not_elem_of_empty|]. exists k, due. split; [done|].
  eapply wp_mono; [by eapply (pit_fire_spec standardStrategies)|]. intros [] s' (Hs' & Ep & Esent & pe0 & Hx0 & Epits). rewrite Hx in Hx0. injection Hx0 as <-.
  split; [done|]. split; [|split; [done|split; [intros y Hy; by rewrite Epits, lookup_insert_ne|by rewrite Ep, lookup_delete_eq]]].
  intros y pey Hy Hay (K1 & K2 & K3). rewrite Epits in Hy. apply lookup_insert_Some in Hy as [[<- <-]|[Hne Hy]].
  - by destruct Hay.
  - apply Hne. eapply (pi_unique _ (tbi_pit _ (fw_i_tables _ _ Hs))); [exact Hx|exact Hy|done|done|by symmetry|by symmetry|by symmetry].
Qed.
End DataCorrect.

(** ** Strategies *)

Section StrategyCorrect.
Context {N : NdnCxx} {NL : NdnCxxLaws N} {NP : NdnPacket N} {NPL : NdnPacketLaws N NP} {SP : ScopePrefix N}
  {SC : Scheduler} {SCL : SchedulerLaws SC} {HI : HashedIndex} {HIL : HashedIndexLaws HI} {RE : RandomEngine} {REL : RandomEngineLaws RE}
  {US : UnorderedSet} {USL : UnorderedSetLaws US} {SN : StrategyNames N} {P : Type} {Pol : Policy P} {PL : PolicyLaws Pol}.
Implicit Types (s : Forwarder P) (x : ptr) (f : FacePtr) (F : Face) (pe : PitEntry) (i : Interest).

(** Best-route: the retransmission suppression decides from the out-records; a
    new Interest goes to the first allowed nexthop by cost, or is answered with a
    NoRoute Nack and rejected; a retransmission that is not suppressed goes to the
    first allowed nexthop not used yet or, when all are, to the one used longest
    ago; a suppressed one sends nothing. *)
Theorem best_route_forwarding i ingress inFace x pe s :
  FwInv s → pits s !! x = Some pe → isAttached pe → matchKey pe i → live s (ep_face ingress) →
  fw_faces s !! ep_face ingress = Some inFace →
  wp (BestRoute_afterReceiveInterest i ingress x) (λ _ s', FwInv s' ∧ bestRouteDone s i ingress inFace x pe s') s.
Proof.
  intros Hs Hx Ha Hk Hl HF. eapply wp_mono; [by eapply BestRoute_spec|]. intros [] s' (H1 & _ & _ & _ & H2). done.
Qed.

(** Multicast: the Interest goes, in the order of the FIB nexthops, to every
    allowed nexthop whose own suppression interval does not forbid it, once each,
    and to nobody else. *)
Theorem multicast_forwarding i ingress inFace x pe s :
  FwInv s → pits s !! x = Some pe → isAttached pe → matchKey pe i → fw_faces s !! ep_face ingress = Some inFace →
  wp (Multicast_afterReceiveInterest i ingress x) (λ _ s', FwInv s' ∧ NoDup (nh_face <$> routesFor s pe) ∧
    fw_sent s' = fw_sent s ++ (routesFor s pe ≫= multicastTo (t_now (fw_tables s)) (fw_faces s) pe i inFace)) s.
Proof.
  intros Hs Hx Ha Hk HF. eapply wp_mono; [by eapply Multicast_spec|]. intros [] s' (H1 & _ & _ & _ & H2).
  split; [done|]. split; [|done]. by eapply routes_wf.
Qed.

(** Random: the Interest goes to one allowed nexthop; if there is none, a
    NoRoute Nack is returned and the Interest rejected. *)
Theorem random_forwarding i ingress inFace x pe s :
  FwInv s → pits s !! x = Some pe → isAttached pe → matchKey pe i → live s (ep_face ingress) →
  fw_faces s !! ep_face ingress = Some inFace →
  wp (Random_afterReceiveInterest i ingress x) (λ _ s', FwInv s' ∧
    ((∃ nh, nh ∈ routesFor s pe ∧ allowedNextHop (fw_faces s) inFace i nh ∧ forwardedTo s s' x pe i nh) ∨
     (∀ nh, nh ∈ routesFor s pe → ¬ allowedNextHop (fw_faces s) inFace i nh) ∧
       fw_sent s' = fw_sent s ++ nackFor s pe NACK_NO_ROUTE (ep_face ingress) ∧ expiresNow s' x)) s.
Proof.
  intros Hs Hx Ha Hk Hl HF. eapply wp_mono; [by eapply Random_spec|]. intros [] s' (H1 & _ & _ & _ & H2). done.
Qed.

(** The out-records without a Nack, and what the downstreams are told. *)
Definition unNacked pe : list OutRecord := filter (λ o, out_incomingNack o = None) (pe_outRecords pe).

(** C39: Processing a Nack: it is passed on only when every upstream has sent one,
    then to every downstream on a point-to-point link; when all but one have and
    that one is also a downstream, to it only; otherwise the forwarder waits.  The
    reason is the least severe of those received (Congestion before Duplicate before
    NoRoute), and [NACK_NONE] only if no other has been received. *)
Theorem nack_processing nack f x pe s :
  FwInv s → pits s !! x = Some pe → isAttached pe →
  wp (processNack nack f x) (λ _ s', FwInv s' ∧ ∃ reason,
    leastSevere (pe_outRecords pe) reason ∧
    match unNacked pe with
    | [] => ∃ l, l ≡ₚ in_face <$> pe_inRecords pe ∧ fw_sent s' = fw_sent s ++ (l ≫= nackFor s pe reason)
    | [o] => fw_sent s' = fw_sent s ++ nackFor s pe reason (out_face o)
    | _ => fw_sent s' = fw_sent s
    end) s.
Proof.
  intros Hs Hx Ha. eapply wp_mono; [by eapply processNack_spec|]. intros [] s' (Hs' & _ & _ & _ & H). split; [done|].
  pose proof (processNack_scan_spec (pe_outRecords pe)) as Hscan. destruct (processNack_scan (pe_outRecords pe)) as [[n last] reason].
  destruct Hscan as (-> & Hlast & Hreason). exists reason. split; [done|]. unfold unNacked.
  destruct (filter _ (pe_outRecords pe)) as [|o [|o' l]] eqn:Ef; cbn in *; [done| |done].
  destruct Hlast as (r & -> & Hr & Hn); [lia|]. cbn in H.
  assert (Hin : r ∈ filter (λ o, out_incomingNack o = None) (pe_outRecords pe)) by (by apply list_elem_of_filter).
  rewrite Ef in Hin. by apply list_elem_of_singleton in Hin as ->.
Qed.
End StrategyCorrect.

(** ** FIB management *)

Section ManagementCorrect.
Context {N : NdnCxx} {NL : NdnCxxLaws N} {NP : NdnPacket N} {NPL : NdnPacketLaws N NP} {SP : ScopePrefix N}
  {SS : StdSort} {SSL : StdSortLaws SS}
  {SC : Scheduler} {SCL : SchedulerLaws SC} {HI : HashedIndex} {HIL : HashedIndexLaws HI} {RE : RandomEngine} {REL : RandomEngineLaws RE}
  {US : UnorderedSet} {USL : UnorderedSetLaws US} {SN : StrategyNames N} {P : Type} {Pol : Policy P} {PL : PolicyLaws Pol}.
Implicit Types (s : Forwarder P).

(** The command that adds a nexthop answers 414 to a prefix that is too long and
    410 to an unknown face, changing nothing; otherwise it answers 200 and sets the
    cost of that prefix and face, of no other, although the strategies of pending
    Interests react to the new nexthop. *)
Theorem add_nexthop_command req cp k s :
  FwInv s → commandFaceId req cp = Some k →
  wp (addNextHop standardStrategies req cp) (λ r s', FwInv s' ∧
    if decide (getMaxDepth < length (cp_name cp)) then cr_code r = 414%Z ∧ s' = s
    else match fw_faceTable s !! k with
         | None => cr_code r = 410%Z ∧ s' = s
         | Some f => cr_code r = 200%Z ∧
             ∀ n g, fibCost (fw_tables s') n g = if decide (n = cp_name cp ∧ g = f) then Some (cp_cost cp) else fibCost (fw_tables s) n g
         end) s.
Proof. intros Hs Hk. by apply (addNextHop_spec standardStrategies). Qed.

(** C40: Removing the last nexthop of a prefix through management, when its name tree
    entry holds nothing but the FIB entry (no PIT entry, measurements, strategy or
    children), succeeds with code 200 and leaves the name tree entry behind, empty.
    Every Nack for an Interest of that name that then arrives on a point-to-point face fails:
    [Pit::find] asserts that no name tree entry is empty. *)
Theorem nack_after_route_removal_fails req cp k f p e fe nack ingress F s :
  FwInv s → commandFaceId req cp = Some k → fw_faceTable s !! k = Some f →
  ents (fw_tables s) !! p = Some e → e_name e = cp_name cp → e_fibEntry e = Some fe →
  (∀ nh, nh ∈ fe_nextHops fe → nh_face nh = f) → isEmpty (setFibEntry None e) = true →
  fw_faces s !! ep_face ingress = Some F → f_linkType F = LINK_TYPE_POINT_TO_POINT →
  take (pitDepth (i_name (nack_interest nack))) (i_name (nack_interest nack)) = cp_name cp →
  ∃ s' r, removeNextHop req cp s = Some (s', r) ∧ cr_code r = 200%Z ∧
    ents (fw_tables s') !! p = Some (setFibEntry None e) ∧ onIncomingNack standardStrategies nack ingress s' = None.
Proof.
  intros Hs Hk Hf He Hn Hfe Hall Hempty HF Hlt Htake.
  destruct (wp_elim _ _ _ (removeNextHop_leavesEmpty req cp k f p e fe s Hs Hk Hf He Hn Hfe Hall Hempty)) as (s' & r & E & Hr & Ht & HF' & He').
  exists s', r. split; [done|]. split; [done|]. split; [done|].
  eapply onIncomingNack_empty; [done|by rewrite HF'|done|exact He'|by rewrite Htake|done].
Qed.
End ManagementCorrect.

(** ** Examples *)

(** An Interest for /101/102 from face 2, and the entry it creates. *)
Definition exPending : Interest := exInterest [101; 102] false 7.
Definition exLocal : FaceEndpoint := mkFaceEndpoint 2 0.
Definition exRemote : FaceEndpoint := mkFaceEndpoint 3 0.
Definition exLocalFace : Face := set_f_id 256 (exFace FACE_SCOPE_LOCAL).
Definition exRemoteFace : Face := set_f_id 257 (exFace FACE_SCOPE_NON_LOCAL).
Definition fw2 : Forwarder LruPolicy := runEvents [ReceiveInterest exPending exLocal] fw1.
Definition exPe : PitEntry (N := NatNdn) := default (newPitEntry exPending) (pits fw2 !! 1%positive).
(** The Data comes back and is stored. *)
Definition exAnswer : Data := exData [101; 102] 1000.
Definition fw3 : Forwarder LruPolicy := runEvents [ReceiveData exAnswer exRemote; TablesTimer 2%positive] fw2.



Lemma fw2_inv : FwInv fw2.
Proof. apply runEvents_inv; [apply fw1_inv|]. allowed_tac. Qed.

Lemma exAnswer_good : goodData exAnswer.
Proof. split; [split|done]; [|reflexivity]. repeat constructor. Qed.

Lemma fw3_inv : FwInv fw3.
Proof. apply runEvents_inv; [apply fw2_inv|]. split; [split; [apply exAnswer_good|allowed_tac]|allowed_tac]. Qed.

Lemma exPe_pending : pits fw2 !! 1%positive = Some exPe ∧ isAttached exPe ∧ matchKey exPe exPending.
Proof. split; [vm_compute; reflexivity|]. split; [eexists; vm_compute; reflexivity|]. split_and!; vm_compute; reflexivity. Qed.

Lemma exLocal_live : live fw2 2%positive ∧ fw_faces fw2 !! 2%positive = Some exLocalFace.
Proof. split; [eexists; split; vm_compute; reflexivity|vm_compute; reflexivity]. Qed.

Lemma interest_loop_cut_witness :
  wp (onIncomingInterest standardStrategies exPending (mkFaceEndpoint 4 0)) (λ _ s', pits s' = pits fw2) fw2.
Proof.
  assert (Hdup : duplicateNonce (set_f_id 258 (exFace FACE_SCOPE_NON_LOCAL)) exPe (i_nonce exPending) 4%positive).
  { apply findDuplicateNonce_spec. vm_compute. reflexivity. }
  eapply wp_mono; [apply (interest_loop_cut exPending (mkFaceEndpoint 4 0) (set_f_id 258 (exFace FACE_SCOPE_NON_LOCAL)) fw2 fw2_inv)|].
  - eexists; split; vm_compute; reflexivity.
  - vm_compute. reflexivity.
  - split; [vm_compute; discriminate|]. intros _. vm_compute. reflexivity.
  - right. exists 1%positive, exPe. destruct exPe_pending as (H1 & H2 & H3). exact (conj H1 (conj H2 (conj H3 Hdup))).
  - intros [] s' [H _]. exact H.
Defined.

(** No Interest is pending. *)
Lemma noPending (s : Forwarder LruPolicy) (i : Interest) : map_Forall (λ _ pe, pe_nameTreeEntry pe = None) (pits s) → noMatch (fw_tables s) i.
Proof. intros Hall x pe Hx [p Hp] _. by rewrite (Hall x pe Hx) in Hp. Qed.

Lemma fw1_noPending : map_Forall (λ _ pe, pe_nameTreeEntry pe = None) (pits fw1).
Proof. apply (bool_decide_unpack _). vm_compute. exact I. Qed.
Lemma fw3_noPending : map_Forall (λ _ pe, pe_nameTreeEntry pe = None) (pits fw3).
Proof. apply (bool_decide_unpack _). vm_compute. exact I. Qed.

Definition exAgain : Interest := exInterest [101; 102] false 9.
Definition exHit : ptr * CsEntry (N := NatNdn) :=
  default (1%positive, newCsEntry 0 exAnswer false) (lookupCs exAgain (fw_cs fw3)).

Lemma content_store_hit_undefined_witness : onIncomingInterest standardStrategies exAgain exLocal fw3 = None.
Proof.
  apply (content_store_hit_undefined exAgain exLocal exLocalFace exHit.1 exHit.2 fw3 fw3_inv).
  - eexists; split; vm_compute; reflexivity.
  - vm_compute. reflexivity.
  - split; [vm_compute; discriminate|]. intros H. vm_compute in H. discriminate.
  - vm_compute. reflexivity.
  - apply noPending, fw3_noPending.
  - vm_compute. reflexivity.
Defined.

Lemma new_interest_best_route_witness :
  wp (onIncomingInterest standardStrategies exPending exLocal) (λ _ s', FwInv s') fw1.
Proof.
  eapply wp_mono; [apply (new_interest_best_route exPending exLocal exLocalFace 1%positive exBestRoute fw1 fw1_inv)|].
  - eexists; split; vm_compute; reflexivity.
  - vm_compute. reflexivity.
  - split; [vm_compute; discriminate|]. intros H. vm_compute in H. discriminate.
  - vm_compute. reflexivity.
  - apply noPending, fw1_noPending.
  - vm_compute. reflexivity.
  - reflexivity.
  - eexists. split; vm_compute; reflexivity.
  - reflexivity.
  - intros [] s' [H _]. exact H.
Defined.

Lemma data_delivery_witness :
  wp (onIncomingData standardStrategies exAnswer exRemote) (λ _ s', entryDone exRemote s' 1%positive) fw2.
Proof.
  destruct exPe_pending as (H1 & H2 & _). assert (H3 : matchesData (pe_interest exPe) exAnswer = true) by (vm_compute; reflexivity).
  eapply wp_mono; [apply (data_delivery exAnswer exRemote exRemoteFace fw2 fw2_inv exAnswer_good)|].
  - eexists; split; vm_compute; reflexivity.
  - vm_compute. reflexivity.
  - intros _. vm_compute. reflexivity.
  - exists 1%positive, exPe. exact (conj H1 (conj H2 H3)).
  - intros [] s' (_ & H & _). exact (H _ _ H1 H2 H3).
Defined.

Lemma pit_entry_expires_witness :
  ∃ k due, pendingOf (fw_tables fw2) !! k = Some (due, PitExpiry 1%positive) ∧ wp (pit_fire k) (λ _ s', FwInv s') fw2.
Proof.
  destruct exPe_pending as (H1 & H2 & _). destruct (pit_entry_expires 1%positive exPe fw2 fw2_inv H1 H2) as (k & due & Hk & Hw).
  exists k, due. split; [exact Hk|]. eapply wp_mono; [exact Hw|]. intros [] s' [H _]. exact H.
Defined.

Lemma best_route_forwarding_witness : wp (BestRoute_afterReceiveInterest exPending exLocal 1%positive) (λ _ s', FwInv s') fw2.
Proof.
  destruct exPe_pending as (H1 & H2 & H3), exLocal_live as [H4 H5].
  eapply wp_mono; [exact (best_route_forwarding exPending exLocal exLocalFace 1%positive exPe fw2 fw2_inv H1 H2 H3 H4 H5)|].
  intros [] s' [H _]. exact H.
Defined.

Lemma multicast_forwarding_witness : wp (Multicast_afterReceiveInterest exPending exLocal 1%positive) (λ _ s', FwInv s') fw2.
Proof.
  destruct exPe_pending as (H1 & H2 & H3), exLocal_live as [H4 H5].
  eapply wp_mono; [exact (multicast_forwarding exPending exLocal exLocalFace 1%positive exPe fw2 fw2_inv H1 H2 H3 H5)|].
  intros [] s' [H _]. exact H.
Defined.

Lemma random_forwarding_witness : wp (Random_afterReceiveInterest exPending exLocal 1%positive) (λ _ s', FwInv s') fw2.
Proof.
  destruct exPe_pending as (H1 & H2 & H3), exLocal_live as [H4 H5].
  eapply wp_mono; [exact (random_forwarding exPending exLocal exLocalFace 1%positive exPe fw2 fw2_inv H1 H2 H3 H4 H5)|].
  intros [] s' [H _]. exact H.
Defined.

(** The only upstream has answered with a Nack. *)
Definition exNack : Nack := mkNack exPending NACK_NO_ROUTE None.
Definition exNacked (pe : PitEntry (N := NatNdn)) : PitEntry (N := NatNdn) := updateOutRecord 3 (λ r, (setIncomingNack exNack r).1) pe.
Definition fw4 : Forwarder LruPolicy := run (tb (updatePit 1 exNacked)) fw2.

Lemma fw4_nacked : FwInv fw4 ∧ pits fw4 !! 1%positive = Some (exNacked exPe) ∧ isAttached (exNacked exPe).
Proof.
  destruct exPe_pending as (H1 & H2 & _). destruct (keeps_nack 3 exNack exPe) as [Hk Ht].
  assert (H : wp (tb (updatePit 1 exNacked)) (λ _ s', FwInv s' ∧ pits s' !! 1%positive = Some (exNacked exPe)) fw2).
  { eapply (fw_updatePit ∅); [exact fw2_inv|exact H1|exact H2|exact Hk|exact Ht|apply PeOk_nack; by eapply (fw_i_pits _ _ fw2_inv)|].
    intros s' _ Hs' _ Hx. exact (conj Hs' Hx). }
  destruct (wp_elim _ _ _ H) as (s' & [] & E & Hs' & Hx). assert (fw4 = s') as -> by (unfold fw4, run; by rewrite E).
  split; [done|]. split; [done|by eapply keeps_attached].
Qed.

Lemma leastSevere_single (l : list OutRecord) reason nk :
  leastSevere l reason → out_incomingNack <$> l = [Some nk] → nk ≠ NACK_NONE → reason = nk.
Proof.
  destruct l as [|o [|]]; [done| |done]. intros [Hmin Hel] [= Eo] Hnk. specialize (Hmin o nk (list_elem_of_here _ _) Eo).
  destruct (decide (reason = NACK_NONE)) as [->|(o' & ->%list_elem_of_singleton & Eo')%Hel]; [|congruence]. destruct nk; cbn in Hmin; [done|lia..].
Qed.

Lemma nack_processing_witness :
  wp (processNack exNack 3%positive 1%positive) (λ _ s', ∃ i, fw_sent s' = fw_sent fw4 ++ [SentNack 2%positive exLocalFace (mkNack i NACK_NO_ROUTE None)]) fw4.
Proof.
  destruct fw4_nacked as (H1 & H2 & H3).
  eapply wp_mono; [exact (nack_processing exNack 3%positive 1%positive (exNacked exPe) fw4 H1 H2 H3)|].
  intros [] s' (_ & reason & Hr & H). assert (reason = NACK_NO_ROUTE) as ->.
  { apply (leastSevere_single _ _ NACK_NO_ROUTE Hr); [vm_compute; reflexivity|discriminate]. }
  replace (unNacked (exNacked exPe)) with (@nil OutRecord) in H by (vm_compute; reflexivity).
  destruct H as (l & Hl & ->). replace (in_face <$> pe_inRecords (exNacked exPe)) with [2%positive] in Hl by (vm_compute; reflexivity).
  apply Permutation_singleton_r in Hl as ->. exists (default exPending (in_interest (default (newInRecord 2%positive) (getInRecord (exNacked exPe) 2%positive)))).
  apply (f_equal (app (fw_sent fw4))). vm_compute. reflexivity.
Defined.

Lemma add_nexthop_command_witness :
  wp (addNextHop standardStrategies exPending (exCommand [101] 258 5)) (λ r s', cr_code r = 200%Z) fw2.
Proof.
  eapply wp_mono; [exact (add_nexthop_command exPending (exCommand [101] 258 5) 258 fw2 fw2_inv eq_refl)|].
  intros r s' [_ H]. revert H. rewrite decide_False by (vm_compute; lia).
  replace (fw_faceTable fw2 !! 258%Z) with (Some 4%positive) by (vm_compute; reflexivity). intros [H _]. exact H.
Defined.

(** The route of fw1. *)
Definition exRoute : ptr * Entry (N := NatNdn) := default (1%positive, newEntry (N := NatNdn) [])
  (head (filter (λ pe, bool_decide (e_name pe.2 = [101])) (map_to_list (ents (fw_tables fw1))))).
Definition exRouteFib : FibEntry (N := NatNdn) := default (mkFibEntry (N := NatNdn) [] []) (e_fibEntry exRoute.2).

Lemma nack_after_route_removal_fails_witness :
  ∃ s r, removeNextHop exPending (exCommand [101] 257 0) fw1 = Some (s, r) ∧ cr_code r = 200%Z ∧
    onIncomingNack standardStrategies (mkNack (exInterest [101] false 1) NACK_NO_ROUTE None) exRemote s = None.
Proof.
  assert (Hall : Forall (λ nh, nh_face nh = 3%positive) (fe_nextHops exRouteFib)) by (vm_compute; repeat constructor).
  destruct (nack_after_route_removal_fails exPending (exCommand [101] 257 0) 257 3%positive exRoute.1 exRoute.2 exRouteFib
    (mkNack (exInterest [101] false 1) NACK_NO_ROUTE None) exRemote exRemoteFace fw1 fw1_inv) as (s & r & H1 & H2 & _ & H3);
    lazymatch goal with
    | |- ∀ _, _ => apply Forall_forall; exact Hall
    | |- ∃ _, _ => exists s, r; exact (conj H1 (conj H2 H3))
    | _ => vm_compute; reflexivity
    end.
Defined.
