(* ===== verification/Rib.v ===== *)
(** * The Routing Information Base

    [src/daemon/rib/route.cpp], [rib-entry.cpp] and [rib.cpp].  The entries are
    objects shared between the table, their parent and their children, so they
    live in a heap and a [shared_ptr<RibEntry>] is an address; an entry that left
    the table stays in the heap, empty.  The [std::map] of entries is a list in
    the order of the names, the [std::multimap] of faces a list in the order of
    the face identifiers.  Emitted signals are appended to a log. *)

From Stdlib Require Import ZArith Lia.
From stdpp Require Import base gmap option list sorting.
From S2P Require Import Prelude Scheduler Ndn FibEntry.

(** ** Routes *)

(** Route flags of the NFD management protocol. *)
Definition ROUTE_FLAG_CHILD_INHERIT : Z := 1.
Definition ROUTE_FLAG_CAPTURE : Z := 2.

(** [ROUTE_ORIGIN_PREFIXANN] of the protocol. *)
Definition ROUTE_ORIGIN_PREFIXANN : Z := 129.

Section RouteData.
Context {N : NdnCxx}.

(** The fields of [ndn::PrefixAnnouncement] that are read: the announced name,
    the expiration period in milliseconds and the validity period in system
    clock nanoseconds. *)
Record PrefixAnnouncement := mkPrefixAnnouncement {
  pa_announcedName : Name;
  pa_expiration : Z;
  pa_validityPeriod : option (Z * Z);
}.

Record Route := mkRoute {
  rt_faceId : Z;
  rt_origin : Z;
  rt_cost : Z;
  rt_flags : Z;
  rt_expires : option Z;
  rt_announcement : option PrefixAnnouncement;
  rt_annExpires : Z;
  rt_expirationEvent : option positive;
}.

Definition isChildInherit (r : Route) : bool := negb (Z.land (rt_flags r) ROUTE_FLAG_CHILD_INHERIT =? 0)%Z.
Definition isRibCapture (r : Route) : bool := negb (Z.land (rt_flags r) ROUTE_FLAG_CAPTURE =? 0)%Z.

Definition setExpirationEvent (eid : option positive) (r : Route) : Route :=
  mkRoute (rt_faceId r) (rt_origin r) (rt_cost r) (rt_flags r) (rt_expires r) (rt_announcement r) (rt_annExpires r) eid.
Definition set_rt_expires (expires : option Z) (r : Route) : Route :=
  mkRoute (rt_faceId r) (rt_origin r) (rt_cost r) (rt_flags r) expires (rt_announcement r) (rt_annExpires r) (rt_expirationEvent r).

Definition PA_ROUTE_COST : Z := 2048.

(** The greatest [steady_clock::duration]. *)
Definition DURATION_MAX : Z := 2 ^ 63 - 1.

Definition computeExpiration (steadyNow systemNow : Z) (ann : PrefixAnnouncement) : Z :=
  let validityEnd :=
    match pa_validityPeriod ann with
    | None => DURATION_MAX
    | Some (notBefore, notAfter) =>
        if (notBefore <=? systemNow)%Z && (systemNow <=? notAfter)%Z then (notAfter - systemNow)%Z else 0%Z
    end in
  (steadyNow + Z.min validityEnd (pa_expiration ann * 1000000))%Z.

(** [Route::Route(ann, faceId)] *)
Definition routeOfAnnouncement (steadyNow systemNow : Z) (ann : PrefixAnnouncement) (faceId : Z) : Route :=
  let expires := computeExpiration steadyNow systemNow ann in
  mkRoute faceId ROUTE_ORIGIN_PREFIXANN PA_ROUTE_COST ROUTE_FLAG_CHILD_INHERIT (Some expires) (Some ann) expires None.
End RouteData.

(** ** Entries *)

Section EntryData.
Context {N : NdnCxx}.

Record RibEntry := mkRibEntry {
  re_name : Name;
  re_children : list ptr;
  re_parent : option ptr;
  re_routes : list Route;
  re_inheritedRoutes : list Route;
  re_nRoutesWithCaptureSet : Z; (* uint64_t *)
}.
End EntryData.

(** The index of the first element that satisfies [p]; [None] is [end()]. *)
Fixpoint find_index {A} (p : A → bool) (l : list A) : option nat :=
  match l with
  | [] => None
  | x :: l' => if p x then Some 0 else S <$> find_index p l'
  end.

(** [std::nth_element] leaves the order of equivalent elements open. *)
Class NthElement := { nth_element : ∀ {A : Type}, (A → Z) → nat → list A → list A }.

Class NthElementLaws (NE : NthElement) : Prop := {
  nth_element_perm : ∀ {A} (key : A → Z) n l, nth_element key n l ≡ₚ l;
  nth_element_spec : ∀ {A} (key : A → Z) n l x, nth_element key n l !! n = Some x →
    Forall (λ y, key y ≤ key x)%Z (take n (nth_element key n l)) ∧ Forall (λ y, key x ≤ key y)%Z (drop n (nth_element key n l));
}.

#[export] Instance SortedNth : NthElement := {| nth_element A key _ l := insertion_sort key l |}.

#[export] Instance SortedNthLaws : NthElementLaws SortedNth.
Proof.
  split; intros A key n l; [apply (std_sort_perm (SS := InsertionSort))|]. cbn. intros x Hx.
  pose proof (std_sort_sorted (SS := InsertionSort) key l) as Hs. change (std_sort key l) with (insertion_sort key l) in Hs.
  revert n Hx. induction Hs as [|y l' Hs IH Hall]; intros [|n] Hx; [done|done| |]; cbn in *.
  - injection Hx as ->. split; [constructor|]. constructor; [lia|done].
  - destruct (IH n Hx) as [H1 H2]. split; [|done]. constructor; [|done].
    rewrite Forall_forall in Hall. apply Hall. by eapply list_elem_of_lookup_2.
Qed.

Section RibEntry.
Context {N : NdnCxx} {NE : NthElement}.

Definition newRibEntry (name : Name) : RibEntry := mkRibEntry name [] None [] [] 0.

Definition set_re_children (x : list ptr) (e : RibEntry) : RibEntry :=
  mkRibEntry (re_name e) x (re_parent e) (re_routes e) (re_inheritedRoutes e) (re_nRoutesWithCaptureSet e).
Definition set_re_parent (x : option ptr) (e : RibEntry) : RibEntry :=
  mkRibEntry (re_name e) (re_children e) x (re_routes e) (re_inheritedRoutes e) (re_nRoutesWithCaptureSet e).
Definition set_re_routes (x : list Route) (n : Z) (e : RibEntry) : RibEntry :=
  mkRibEntry (re_name e) (re_children e) (re_parent e) x (re_inheritedRoutes e) n.
Definition set_re_inherited (x : list Route) (e : RibEntry) : RibEntry :=
  mkRibEntry (re_name e) (re_children e) (re_parent e) (re_routes e) x (re_nRoutesWithCaptureSet e).

Definition compareFaceIdAndOrigin (lhs rhs : Route) : bool :=
  (rt_faceId lhs =? rt_faceId rhs)%Z && (rt_origin lhs =? rt_origin rhs)%Z.

Definition findRoute (e : RibEntry) (route : Route) : option nat :=
  find_index (λ r, compareFaceIdAndOrigin r route) (re_routes e).

(** The entry, the iterator and whether the route is new. *)
Definition insertRoute (route : Route) (e : RibEntry) : RibEntry * nat * bool :=
  match findRoute e route with
  | None =>
      let n := if isRibCapture route then ((re_nRoutesWithCaptureSet e + 1) mod 2 ^ 64)%Z else re_nRoutesWithCaptureSet e in
      (set_re_routes (re_routes e ++ [route]) n e, length (re_routes e), true)
  | Some it => (e, it, false)
  end.

(** [eraseRoute(it)]: the entry, and the expiration event it cancels. *)
Definition eraseRouteAt (it : option nat) (e : RibEntry) : RibEntry * option positive :=
  match it with
  | None => (e, None)
  | Some i =>
      match re_routes e !! i with
      | None => (e, None)
      | Some route =>
          let n := if isRibCapture route then ((re_nRoutesWithCaptureSet e - 1) mod 2 ^ 64)%Z else re_nRoutesWithCaptureSet e in
          (set_re_routes (delete i (re_routes e)) n e, rt_expirationEvent route)
      end
  end.

Definition eraseRoute (route : Route) (e : RibEntry) : RibEntry * option positive := eraseRouteAt (findRoute e route) e.

Definition hasRoute (e : RibEntry) (route : Route) : bool := bool_decide (is_Some (findRoute e route)).
Definition hasFaceId (e : RibEntry) (faceId : Z) : bool := existsb (λ r, rt_faceId r =? faceId)%Z (re_routes e).
Definition getNRoutes (e : RibEntry) : nat := length (re_routes e).

Definition entry_addInheritedRoute (route : Route) (e : RibEntry) : RibEntry :=
  set_re_inherited (re_inheritedRoutes e ++ [route]) e.
Definition entry_removeInheritedRoute (route : Route) (e : RibEntry) : RibEntry :=
  set_re_inherited (filter (λ r, rt_faceId r ≠ rt_faceId route) (re_inheritedRoutes e)) e.
Definition findInheritedRoute (e : RibEntry) (route : Route) : option nat :=
  find_index (λ r, rt_faceId r =? rt_faceId route)%Z (re_inheritedRoutes e).
Definition hasInheritedRoute (e : RibEntry) (route : Route) : bool := bool_decide (is_Some (findInheritedRoute e route)).

Definition hasCapture (e : RibEntry) : bool := (0 <? re_nRoutesWithCaptureSet e)%Z.
Definition hasChildInheritOnFaceId (e : RibEntry) (faceId : Z) : bool :=
  existsb (λ r, (rt_faceId r =? faceId)%Z && isChildInherit r) (re_routes e).

(** The loop that looks for the route of lowest cost among those that satisfy [p]. *)
Definition lowestCost (p : Route → bool) (routes : list Route) : option Route :=
  foldl (λ candidate route,
    if p route then
      match candidate with
      | None => Some route
      | Some c => if (rt_cost route <? rt_cost c)%Z then Some route else candidate
      end
    else candidate) None routes.

Definition getRouteWithLowestCostByFaceId (e : RibEntry) (faceId : Z) : option Route :=
  lowestCost (λ r, rt_faceId r =? faceId)%Z (re_routes e).

Definition getRouteWithSecondLowestCostByFaceId (e : RibEntry) (faceId : Z) : option Route :=
  let matches := filter (λ r, rt_faceId r = faceId) (re_routes e) in
  if decide (length matches < 2) then None else nth_element rt_cost 1 matches !! 1.

Definition getRouteWithLowestCostAndChildInheritByFaceId (e : RibEntry) (faceId : Z) : option Route :=
  lowestCost (λ r, (rt_faceId r =? faceId)%Z && isChildInherit r) (re_routes e).

(** [time_point::min()] and [time_point::max()], in nanoseconds *)
Definition TIME_POINT_MIN : Z := - 2 ^ 63.
Definition TIME_POINT_MAX : Z := 2 ^ 63 - 1.

(** The loop of [getPrefixAnnouncement]: the route with an announcement that
    expires last, and the expiration time of the entry. *)
Definition announcementScan (routes : list Route) : option Route * Z :=
  foldl (λ acc route,
    let '(best, entryExpiry) := acc in
    match rt_expires route with
    | None => (best, TIME_POINT_MAX)
    | Some expires =>
        (match rt_announcement route, best with
         | None, _ => best
         | Some _, None => Some route
         | Some _, Some b => if (default 0 (rt_expires b) <? expires)%Z then Some route else best
         end, Z.max entryExpiry expires)
    end) (None, TIME_POINT_MIN) routes.

Definition getPrefixAnnouncement (now minExpiration maxExpiration : Z) (e : RibEntry) : option PrefixAnnouncement :=
  let '(best, entryExpiry) := announcementScan (re_routes e) in
  match best with
  | Some route => rt_announcement route
  | None =>
      let remaining := ((entryExpiry - now) ÷ 1000000)%Z in
      Some (mkPrefixAnnouncement (re_name e) (Z.max minExpiration (Z.min remaining maxExpiration)) None)
  end.
End RibEntry.

(** ** The table *)

Inductive RibUpdateAction := REGISTER | UNREGISTER | REMOVE_FACE.

#[export] Instance RibUpdateAction_eqdec : EqDecision RibUpdateAction.
Proof. solve_decision. Defined.

Section UpdateData.
Context {N : NdnCxx}.

Record RibUpdate := mkRibUpdate {
  ru_action : RibUpdateAction;
  ru_name : Name;
  ru_route : Route;
}.

Record RibUpdateBatch := mkRibUpdateBatch {
  b_faceId : Z;
  b_updates : list RibUpdate;
}.
End UpdateData.

Section Table.
Context {N : NdnCxx} {SC : Scheduler}.

(** The callback of a pending expiration event. *)
Inductive RibEvent := RouteExpiration (prefix : Name) (route : Route).

(** Signals, with the entry or the route they are about. *)
Inductive RibSignal :=
| AfterInsertEntry (prefix : Name)
| AfterEraseEntry (prefix : Name)
| AfterAddRoute (prefix : Name) (route : Route)
| BeforeRemoveRoute (prefix : Name) (route : Route).

(** A queued batch with the identity of the manager's callbacks. *)
Record UpdateQueueItem := mkUpdateQueueItem {
  q_batch : RibUpdateBatch;
  q_callback : option nat;
}.

Record Rib := mkRib {
  rb_heap : gmap ptr RibEntry;
  rb_rib : list (Name * ptr);
  rb_faceEntries : list (Z * ptr);
  rb_nItems : Z;
  rb_updateBatches : list UpdateQueueItem;
  rb_isUpdateInProgress : bool;
  rb_now : Z;
  rb_sched : SchedState RibEvent;
  rb_signals : list RibSignal;
}.

Definition set_rb_heap (x : gmap ptr RibEntry) (s : Rib) : Rib :=
  mkRib x (rb_rib s) (rb_faceEntries s) (rb_nItems s) (rb_updateBatches s) (rb_isUpdateInProgress s) (rb_now s) (rb_sched s) (rb_signals s).
Definition set_rb_rib (x : list (Name * ptr)) (s : Rib) : Rib :=
  mkRib (rb_heap s) x (rb_faceEntries s) (rb_nItems s) (rb_updateBatches s) (rb_isUpdateInProgress s) (rb_now s) (rb_sched s) (rb_signals s).
Definition set_rb_faceEntries (x : list (Z * ptr)) (s : Rib) : Rib :=
  mkRib (rb_heap s) (rb_rib s) x (rb_nItems s) (rb_updateBatches s) (rb_isUpdateInProgress s) (rb_now s) (rb_sched s) (rb_signals s).
Definition set_rb_nItems (x : Z) (s : Rib) : Rib :=
  mkRib (rb_heap s) (rb_rib s) (rb_faceEntries s) x (rb_updateBatches s) (rb_isUpdateInProgress s) (rb_now s) (rb_sched s) (rb_signals s).
Definition set_rb_queue (x : list UpdateQueueItem) (inProgress : bool) (s : Rib) : Rib :=
  mkRib (rb_heap s) (rb_rib s) (rb_faceEntries s) (rb_nItems s) x inProgress (rb_now s) (rb_sched s) (rb_signals s).
Definition set_rb_sched (x : SchedState RibEvent) (s : Rib) : Rib :=
  mkRib (rb_heap s) (rb_rib s) (rb_faceEntries s) (rb_nItems s) (rb_updateBatches s) (rb_isUpdateInProgress s) (rb_now s) x (rb_signals s).
Definition set_rb_signals (x : list RibSignal) (s : Rib) : Rib :=
  mkRib (rb_heap s) (rb_rib s) (rb_faceEntries s) (rb_nItems s) (rb_updateBatches s) (rb_isUpdateInProgress s) (rb_now s) (rb_sched s) x.

Definition derefEntry (p : ptr) : M Rib RibEntry := s ← get_st; someM (rb_heap s !! p).
Definition updateEntry (p : ptr) (f : RibEntry → RibEntry) : M Rib unit :=
  e ← derefEntry p; modify (λ s, set_rb_heap (<[p := f e]> (rb_heap s)) s).
Definition emitSignal (x : RibSignal) : M Rib unit := modify (λ s, set_rb_signals (rb_signals s ++ [x]) s).
Definition cancelEvent (ev : option positive) : M Rib unit := modify (λ s, set_rb_sched (cancel ev (rb_sched s)) s).

(** [m_rib.find(prefix)] *)
Definition table_find (table : list (Name * ptr)) (prefix : Name) : option ptr :=
  snd <$> find (λ kv, bool_decide (kv.1 = prefix)) table.

(** [m_rib[prefix] = entry] for a new prefix *)
Fixpoint table_insert (prefix : Name) (entry : ptr) (table : list (Name * ptr)) : list (Name * ptr) :=
  match table with
  | [] => [(prefix, entry)]
  | kv :: table' => if name_ltb prefix kv.1 then (prefix, entry) :: table else kv :: table_insert prefix entry table'
  end.

(** [m_faceEntries.emplace(faceId, entry)]: after the elements with the same key *)
Fixpoint faces_emplace (faceId : Z) (entry : ptr) (l : list (Z * ptr)) : list (Z * ptr) :=
  match l with
  | [] => [(faceId, entry)]
  | kv :: l' => if (faceId <? kv.1)%Z then (faceId, entry) :: l else kv :: faces_emplace faceId entry l'
  end.

(** The loop over [equal_range(faceId)] that erases the first pair of this entry *)
Fixpoint faces_eraseOne (faceId : Z) (entry : ptr) (l : list (Z * ptr)) : list (Z * ptr) :=
  match l with
  | [] => []
  | kv :: l' => if decide (kv = (faceId, entry)) then l' else kv :: faces_eraseOne faceId entry l'
  end.

Definition Rib_find (prefix : Name) (s : Rib) : option ptr := table_find (rb_rib s) prefix.

(** [find(prefix, route)] *)
Definition Rib_findRoute (prefix : Name) (route : Route) (s : Rib) : option Route :=
  p ← Rib_find prefix s; e ← rb_heap s !! p; i ← findRoute e route; re_routes e !! i.

(** The loop of [findParent], from prefix length [i - 1] down. *)
Fixpoint findParent_from (table : list (Name * ptr)) (prefix : Name) (i : nat) : option ptr :=
  match i with
  | 0 => None
  | S i' =>
      match table_find table (take i' prefix) with
      | Some p => Some p
      | None => findParent_from table prefix i'
      end
  end.
Definition findParent (prefix : Name) (s : Rib) : option ptr := findParent_from (rb_rib s) prefix (length prefix).

Definition findLongestPrefix (prefix : Name) (route : Route) (s : Rib) : option Route :=
  match Rib_findRoute prefix route s with
  | Some r => Some r
  | None => p ← findParent prefix s; e ← rb_heap s !! p; Rib_findRoute (re_name e) route s
  end.

(** The elements from [m_rib.find(prefix)] on. *)
Fixpoint table_from (table : list (Name * ptr)) (prefix : Name) : list (Name * ptr) :=
  match table with
  | [] => []
  | kv :: table' => if bool_decide (kv.1 = prefix) then table else table_from table' prefix
  end.

Fixpoint take_while {A} (p : A → bool) (l : list A) : list A :=
  match l with
  | [] => []
  | x :: l' => if p x then x :: take_while p l' else []
  end.

Definition findDescendants (prefix : Name) (s : Rib) : list ptr :=
  match table_from (rb_rib s) prefix with
  | [] => []
  | _ :: rest => snd <$> take_while (λ kv, isPrefixOf prefix kv.1) rest
  end.

Definition findDescendantsForNonInsertedName (prefix : Name) (s : Rib) : list ptr :=
  snd <$> filter (λ kv, isPrefixOf prefix kv.1 = true) (rb_rib s).

Definition addChild (self child : ptr) : M Rib unit :=
  c ← derefEntry child;
  assertM (bool_decide (re_parent c = None));;
  updateEntry child (set_re_parent (Some self));;
  updateEntry self (λ e, set_re_children (re_children e ++ [child]) e).

Definition removeChild (self child : ptr) : M Rib unit :=
  c ← derefEntry child;
  assertM (bool_decide (re_parent c = Some self));;
  updateEntry child (set_re_parent None);;
  updateEntry self (λ e, set_re_children (filter (λ x, x ≠ child) (re_children e)) e).

(** The branch of [insert] for a name that is in the table. *)
Definition insertExisting (entry : ptr) (prefix : Name) (route : Route) : M Rib unit :=
  e ← derefEntry entry;
  let '(e', it, didInsert) := insertRoute route e in
  updateEntry entry (λ _, e');;
  if didInsert : bool then
    modify (λ s, set_rb_nItems (rb_nItems s + 1) s);;
    emitSignal (AfterAddRoute prefix route);;
    modify (λ s, set_rb_faceEntries (faces_emplace (rt_faceId route) entry (rb_faceEntries s)) s)
  else
    old ← someM (re_routes e !! it);
    cancelEvent (rt_expirationEvent old);;
    updateEntry entry (λ e, set_re_routes (<[it := route]> (re_routes e)) (re_nRoutesWithCaptureSet e) e).

(** The branch for a new name. *)
Definition insertNew (prefix : Name) (route : Route) : M Rib unit :=
  s ← get_st;
  let entry := fresh (dom (rb_heap s)) in
  modify (λ s, set_rb_heap (<[entry := newRibEntry prefix]> (rb_heap s)) s);;
  modify (λ s, set_rb_rib (table_insert prefix entry (rb_rib s)) s);;
  modify (λ s, set_rb_nItems (rb_nItems s + 1) s);;
  updateEntry entry (λ e, (insertRoute route e).1.1);;
  s ← get_st;
  let parent := findParent prefix s in
  match parent with Some p => addChild p entry | None => mret tt end;;
  s ← get_st;
  forM (findDescendants prefix s) (λ child,
    c ← derefEntry child;
    if decide (re_parent c = parent) then
      match parent with Some p => removeChild p child | None => mret tt end;;
      addChild entry child
    else mret tt);;
  modify (λ s, set_rb_faceEntries (faces_emplace (rt_faceId route) entry (rb_faceEntries s)) s);;
  emitSignal (AfterInsertEntry prefix);;
  emitSignal (AfterAddRoute prefix route).

Definition Rib_insert (prefix : Name) (route : Route) : M Rib unit :=
  s ← get_st;
  match Rib_find prefix s with
  | Some entry => insertExisting entry prefix route
  | None => insertNew prefix route
  end.

(** [eraseEntry(it)] for the iterator of [prefix], which is in the table. *)
Definition eraseEntry (prefix : Name) (entry : ptr) : M Rib unit :=
  e ← derefEntry entry;
  let parent := re_parent e in
  match parent with Some p => removeChild p entry | None => mret tt end;;
  forM (re_children e) (λ child,
    removeChild entry child;;
    match parent with Some p => addChild p child | None => mret tt end);;
  modify (λ s, set_rb_rib (filter (λ kv, kv.1 ≠ prefix) (rb_rib s)) s);;
  emitSignal (AfterEraseEntry (re_name e)).

Definition Rib_erase (prefix : Name) (route : Route) : M Rib unit :=
  s ← get_st;
  match Rib_find prefix s with
  | None => mret tt
  | Some entry =>
      e ← derefEntry entry;
      match findRoute e route with
      | None => mret tt
      | Some it =>
          old ← someM (re_routes e !! it);
          emitSignal (BeforeRemoveRoute prefix old);;
          let '(e', ev) := eraseRouteAt (Some it) e in
          cancelEvent ev;;
          updateEntry entry (λ _, e');;
          modify (λ s, set_rb_nItems (rb_nItems s - 1) s);;
          (if hasFaceId e' (rt_faceId route) then mret tt
           else modify (λ s, set_rb_faceEntries (faces_eraseOne (rt_faceId route) entry (rb_faceEntries s)) s));;
          (if decide (re_routes e' = []) then eraseEntry prefix entry else mret tt)
      end
  end.

(** ** Ancestor routes *)

(** [std::set<Route>] ordered by [sortRoutes], the face identifier. *)
Fixpoint set_insert (route : Route) (l : list Route) : list Route :=
  match l with
  | [] => [route]
  | r :: l' =>
      if (rt_faceId route <? rt_faceId r)%Z then route :: l
      else if (rt_faceId r <? rt_faceId route)%Z then r :: set_insert route l'
      else l
  end.
Definition set_find (route : Route) (l : list Route) : option Route := find (λ r, rt_faceId r =? rt_faceId route)%Z l.
Definition set_erase (route : Route) (l : list Route) : list Route := filter (λ r, rt_faceId r ≠ rt_faceId route) l.

Definition inheritFrom (e : RibEntry) (ancestorRoutes : list Route) : list Route :=
  foldl (λ acc route, if isChildInherit route then set_insert route acc else acc) ancestorRoutes (re_routes e).

(** The [while (parent != nullptr)] loop; the fuel bounds the number of ancestors. *)
Fixpoint ancestors_loop (fuel : nat) (heap : gmap ptr RibEntry) (parent : option ptr) (ancestorRoutes : list Route)
    : option (list Route) :=
  match parent with
  | None => Some ancestorRoutes
  | Some p =>
      match fuel with
      | 0 => None
      | S fuel =>
          e ← heap !! p;
          let ancestorRoutes := inheritFrom e ancestorRoutes in
          if hasCapture e then Some ancestorRoutes else ancestors_loop fuel heap (re_parent e) ancestorRoutes
      end
  end.

(** The two overloads of [getAncestorRoutes]. *)
Definition getAncestorRoutes_entry (e : RibEntry) (s : Rib) : option (list Route) :=
  ancestors_loop (S (size (rb_heap s))) (rb_heap s) (re_parent e) [].
Definition getAncestorRoutes_name (name : Name) (s : Rib) : option (list Route) :=
  ancestors_loop (S (size (rb_heap s))) (rb_heap s) (findParent name s) [].

(** ** Inherited routes of the entries *)

Definition modifyInheritedRoute (update : RibUpdate) : M Rib unit :=
  s ← get_st;
  entry ← someM (Rib_find (ru_name update) s); (* BOOST_ASSERT *)
  match ru_action update with
  | REGISTER => updateEntry entry (entry_addInheritedRoute (ru_route update))
  | UNREGISTER => updateEntry entry (entry_removeInheritedRoute (ru_route update))
  | REMOVE_FACE => mret tt
  end.

Definition modifyInheritedRoutes (inheritedRoutes : list RibUpdate) : M Rib unit :=
  forM inheritedRoutes modifyInheritedRoute.

(** ** The queue of updates *)

Definition addUpdateToQueue (update : RibUpdate) (callback : option nat) : M Rib unit :=
  let batch := mkRibUpdateBatch (rt_faceId (ru_route update)) [update] in
  modify (λ s, set_rb_queue (rb_updateBatches s ++ [mkUpdateQueueItem batch callback]) (rb_isUpdateInProgress s) s).

Definition enqueueRemoveFace (entry : ptr) (faceId : Z) : M Rib unit :=
  e ← derefEntry entry;
  forM (re_routes e) (λ route,
    if (rt_faceId route =? faceId)%Z then addUpdateToQueue (mkRibUpdate REMOVE_FACE (re_name e) route) None
    else mret tt).
End Table.
