(* ===== verification/FibUpdater.v ===== *)
(** * From RIB updates to FIB updates

    [src/daemon/rib/fib-update.cpp], [fib-updater.cpp], and the functions of
    [rib.cpp] that move the queue of updates.  A command given to the controller
    stays outstanding until its response arrives, as a separate event; the
    callbacks bound to it are the queue item it belongs to.  What the manager's
    callbacks are told is appended to a log. *)

From Stdlib Require Import ZArith Lia.
From stdpp Require Import base gmap option list.
From S2P Require Import Prelude Scheduler Ndn FibEntry Rib.

Inductive FibUpdateAction := ADD_NEXTHOP | REMOVE_NEXTHOP.

#[export] Instance FibUpdateAction_eqdec : EqDecision FibUpdateAction.
Proof. solve_decision. Defined.

Section FibUpdater.
Context {N : NdnCxx} {SC : Scheduler} {NE : NthElement}.

Record FibUpdate := mkFibUpdate {
  fu_name : Name;
  fu_faceId : Z;
  fu_cost : Z;
  fu_action : FibUpdateAction;
}.

#[export] Instance FibUpdate_eqdec : EqDecision FibUpdate.
Proof. solve_decision. Defined.

Definition createAddUpdate (name : Name) (faceId cost : Z) : FibUpdate := mkFibUpdate name faceId cost ADD_NEXTHOP.
Definition createRemoveUpdate (name : Name) (faceId : Z) : FibUpdate := mkFibUpdate name faceId 0 REMOVE_NEXTHOP.

Record FibUpdater := mkFibUpdater {
  up_batchFaceId : Z;
  up_updatesForBatchFaceId : list FibUpdate;
  up_updatesForNonBatchFaceId : list FibUpdate;
  up_inheritedRoutes : list RibUpdate;
}.

Definition set_up_updates (batch nonBatch : list FibUpdate) (u : FibUpdater) : FibUpdater :=
  mkFibUpdater (up_batchFaceId u) batch nonBatch (up_inheritedRoutes u).
Definition set_up_inherited (x : list RibUpdate) (u : FibUpdater) : FibUpdater :=
  mkFibUpdater (up_batchFaceId u) (up_updatesForBatchFaceId u) (up_updatesForNonBatchFaceId u) x.

(** ** Computing the updates *)

(** Replaces the update of the same name and face, or appends. *)
Fixpoint replaceUpdate (update : FibUpdate) (updates : list FibUpdate) : list FibUpdate :=
  match updates with
  | [] => [update]
  | other :: rest =>
      if decide (fu_name update = fu_name other ∧ fu_faceId update = fu_faceId other)
      then mkFibUpdate (fu_name other) (fu_faceId other) (fu_cost update) (fu_action update) :: rest
      else other :: replaceUpdate update rest
  end.

Definition addFibUpdate (update : FibUpdate) : M FibUpdater unit := modify (λ u,
  if (fu_faceId update =? up_batchFaceId u)%Z
  then set_up_updates (replaceUpdate update (up_updatesForBatchFaceId u)) (up_updatesForNonBatchFaceId u) u
  else set_up_updates (up_updatesForBatchFaceId u) (replaceUpdate update (up_updatesForNonBatchFaceId u)) u).

Definition addInheritedRoute (name : Name) (route : Route) : M FibUpdater unit :=
  modify (λ u, set_up_inherited (up_inheritedRoutes u ++ [mkRibUpdate REGISTER name route]) u).
Definition removeInheritedRoute (name : Name) (route : Route) : M FibUpdater unit :=
  modify (λ u, set_up_inherited (up_inheritedRoutes u ++ [mkRibUpdate UNREGISTER name route]) u).

(** The two overloads of [addInheritedRoutes]. *)
Definition addInheritedRoutes_entry (entry : RibEntry) (routesToAdd : list Route) : M FibUpdater unit :=
  forM routesToAdd (λ route,
    if hasFaceId entry (rt_faceId route) then mret tt
    else
      addInheritedRoute (re_name entry) route;;
      addFibUpdate (createAddUpdate (re_name entry) (rt_faceId route) (rt_cost route))).
Definition addInheritedRoutes_name (name : Name) (routesToAdd : list Route) (ignore : Route) : M FibUpdater unit :=
  forM routesToAdd (λ route,
    if (rt_faceId route =? rt_faceId ignore)%Z then mret tt
    else
      addInheritedRoute name route;;
      addFibUpdate (createAddUpdate name (rt_faceId route) (rt_cost route))).

Definition removeInheritedRoutes (entry : RibEntry) (routesToRemove : list Route) : M FibUpdater unit :=
  forM routesToRemove (λ route,
    if hasInheritedRoute entry route then
      removeInheritedRoute (re_name entry) route;;
      addFibUpdate (createRemoveUpdate (re_name entry) (rt_faceId route))
    else mret tt).

(** The two loops of [traverseSubTree]; each returns the routes left in its set. *)
Fixpoint removeLoop (entry : RibEntry) (routesToRemove : list Route) : M FibUpdater (list Route) :=
  match routesToRemove with
  | [] => mret []
  | route :: rest =>
      if hasChildInheritOnFaceId entry (rt_faceId route) then removeLoop entry rest
      else
        (if hasInheritedRoute entry route then
           removeInheritedRoute (re_name entry) route;;
           addFibUpdate (createRemoveUpdate (re_name entry) (rt_faceId route))
         else mret tt);;
        kept ← removeLoop entry rest;
        mret (route :: kept)
  end.

Fixpoint addLoop (entry : RibEntry) (routesToAdd : list Route) : M FibUpdater (list Route) :=
  match routesToAdd with
  | [] => mret []
  | route :: rest =>
      if hasChildInheritOnFaceId entry (rt_faceId route) then addLoop entry rest
      else
        (if hasFaceId entry (rt_faceId route) then mret tt
         else
           addInheritedRoute (re_name entry) route;;
           addFibUpdate (createAddUpdate (re_name entry) (rt_faceId route) (rt_cost route)));;
        kept ← addLoop entry rest;
        mret (route :: kept)
  end.

Section Compute.
Context (m_rib : Rib).

(** The fuel bounds the depth of the subtree. *)
Fixpoint traverseSubTree (fuel : nat) (entry : ptr) (routesToAdd routesToRemove : list Route) : M FibUpdater unit :=
  match fuel with
  | 0 => assertM false
  | S fuel =>
      e ← someM (rb_heap m_rib !! entry);
      if hasCapture e then mret tt
      else
        routesToRemove ← removeLoop e routesToRemove;
        routesToAdd ← addLoop e routesToAdd;
        forM (re_children e) (λ child, traverseSubTree fuel child routesToAdd routesToRemove)
  end.

Definition modifyChildrensInheritedRoutes (children : list ptr) (routesToAdd routesToRemove : list Route) : M FibUpdater unit :=
  forM children (λ child, traverseSubTree (S (size (rb_heap m_rib))) child routesToAdd routesToRemove).

Definition createFibUpdatesForNewRibEntry (name : Name) (route : Route) (children : list ptr) : M FibUpdater unit :=
  addFibUpdate (createAddUpdate name (rt_faceId route) (rt_cost route));;
  if negb (isChildInherit route) && negb (isRibCapture route) then
    ancestorRoutes ← someM (getAncestorRoutes_name name m_rib);
    addInheritedRoutes_name name ancestorRoutes route
  else if isChildInherit route && isRibCapture route then
    ancestorRoutes ← someM (getAncestorRoutes_name name m_rib);
    modifyChildrensInheritedRoutes children [route] ancestorRoutes
  else if isChildInherit route then
    ancestorRoutes ← someM (getAncestorRoutes_name name m_rib);
    addInheritedRoutes_name name ancestorRoutes route;;
    let ancestorRoutes := if set_find route ancestorRoutes is Some r then set_erase r ancestorRoutes else ancestorRoutes in
    modifyChildrensInheritedRoutes children (set_insert route ancestorRoutes) []
  else if isRibCapture route then
    ancestorRoutes ← someM (getAncestorRoutes_name name m_rib);
    modifyChildrensInheritedRoutes children [] ancestorRoutes
  else mret tt.

Definition createFibUpdatesForNewRoute (entry : RibEntry) (route : Route) (captureWasTurnedOn : bool) : M FibUpdater unit :=
  let prevRoute := getRouteWithLowestCostAndChildInheritByFaceId entry (rt_faceId route) in
  let routesToAdd :=
    if isChildInherit route && (if prevRoute is Some prev then (rt_cost route <=? rt_cost prev)%Z else true) then [route] else [] in
  routesToRemove ← (if captureWasTurnedOn then
                      routesToRemove ← someM (getAncestorRoutes_entry entry m_rib);
                      removeInheritedRoutes entry routesToRemove;;
                      mret routesToRemove
                    else mret []);
  modifyChildrensInheritedRoutes (re_children entry) routesToAdd routesToRemove;;
  if (if getRouteWithLowestCostByFaceId entry (rt_faceId route) is Some other then (rt_cost route <=? rt_cost other)%Z else true)
  then addFibUpdate (createAddUpdate (re_name entry) (rt_faceId route) (rt_cost route))
  else mret tt.

(** The part of [createFibUpdatesForUpdatedRoute] for a changed cost; the result
    says whether the function returns there. *)
Definition updateForChangedCost (entry : RibEntry) (route existingRoute : Route) (prevRoute : option Route) : M FibUpdater bool :=
  lowest ← someM (getRouteWithLowestCostByFaceId entry (rt_faceId route)); (* dereferenced *)
  (if (rt_cost route <=? rt_cost lowest)%Z then
     addFibUpdate (createAddUpdate (re_name entry) (rt_faceId route) (rt_cost route))
   else if (rt_cost existingRoute <? rt_cost lowest)%Z then
     prev ← someM prevRoute; (* dereferenced *)
     addFibUpdate (createAddUpdate (re_name entry) (rt_faceId prev) (rt_cost prev))
   else mret tt);;
  if (if prevRoute is Some prev then (rt_cost route <=? rt_cost prev)%Z else true) &&
     ((rt_flags route =? rt_flags existingRoute)%Z && isChildInherit route) then
    modifyChildrensInheritedRoutes (re_children entry) [route] [];;
    mret true
  else mret false.

(** The part for changed flags. *)
Definition updateForChangedFlags (entry : RibEntry) (route existingRoute : Route) (prevRoute : option Route) : M FibUpdater unit :=
  (if negb (isChildInherit existingRoute) && isChildInherit route then
     if (if prevRoute is Some prev then (rt_cost route <=? rt_cost prev)%Z else true)
     then modifyChildrensInheritedRoutes (re_children entry) [route] []
     else mret tt
   else if isChildInherit existingRoute && negb (isChildInherit route) then
     routesToAdd ← (match prevRoute with
                    | Some prev => mret [prev]
                    | None =>
                        ancestorRoutes ← someM (getAncestorRoutes_entry entry m_rib);
                        mret (if set_find route ancestorRoutes is Some r then [r] else [])
                    end);
     modifyChildrensInheritedRoutes (re_children entry) routesToAdd [route]
   else mret tt);;
  if negb (isRibCapture existingRoute) && isRibCapture route then
    ancestorRoutes ← someM (getAncestorRoutes_entry entry m_rib);
    removeInheritedRoutes entry ancestorRoutes;;
    modifyChildrensInheritedRoutes (re_children entry) [] ancestorRoutes
  else if isRibCapture existingRoute && negb (isRibCapture route) then
    ancestorRoutes ← someM (getAncestorRoutes_entry entry m_rib);
    addInheritedRoutes_entry entry ancestorRoutes;;
    modifyChildrensInheritedRoutes (re_children entry) ancestorRoutes []
  else mret tt.

Definition createFibUpdatesForUpdatedRoute (entry : RibEntry) (route existingRoute : Route) : M FibUpdater unit :=
  let costDidChange := negb (rt_cost route =? rt_cost existingRoute)%Z in
  let prevRoute := getRouteWithLowestCostAndChildInheritByFaceId entry (rt_faceId route) in
  if (rt_flags route =? rt_flags existingRoute)%Z && negb costDidChange then mret tt
  else
    returned ← (if costDidChange then updateForChangedCost entry route existingRoute prevRoute else mret false);
    if returned : bool then mret tt else updateForChangedFlags entry route existingRoute prevRoute.

Definition createFibUpdatesForErasedRoute (entry : RibEntry) (route : Route) (captureWasTurnedOff : bool) : M FibUpdater unit :=
  addFibUpdate (createRemoveUpdate (re_name entry) (rt_faceId route));;
  (if isChildInherit route && isRibCapture route then
     routesToAdd ← (if captureWasTurnedOff && negb (getNRoutes entry =? 0) then
                      routesToAdd ← someM (getAncestorRoutes_entry entry m_rib);
                      addInheritedRoutes_entry entry routesToAdd;;
                      mret routesToAdd
                    else mret []);
     modifyChildrensInheritedRoutes (re_children entry) routesToAdd [route]
   else if isChildInherit route then
     routesToAdd ← (if hasCapture entry then mret [] else someM (getAncestorRoutes_entry entry m_rib));
     modifyChildrensInheritedRoutes (re_children entry) routesToAdd [route]
   else if isRibCapture route then
     routesToAdd ← (if captureWasTurnedOff && negb (getNRoutes entry =? 0) then
                      routesToAdd ← someM (getAncestorRoutes_entry entry m_rib);
                      addInheritedRoutes_entry entry routesToAdd;;
                      mret routesToAdd
                    else mret []);
     modifyChildrensInheritedRoutes (re_children entry) routesToAdd []
   else mret tt);;
  ancestorRoutes ← someM (getAncestorRoutes_entry entry m_rib);
  if negb (hasCapture entry) && negb (getNRoutes entry =? 0) then
    match set_find route ancestorRoutes with
    | Some it =>
        addInheritedRoute (re_name entry) it;;
        addFibUpdate (createAddUpdate (re_name entry) (rt_faceId it) (rt_cost it))
    | None => mret tt
    end
  else mret tt.

Definition createFibUpdatesForErasedRibEntry (entry : RibEntry) : M FibUpdater unit :=
  forM (re_inheritedRoutes entry) (λ route, addFibUpdate (createRemoveUpdate (re_name entry) (rt_faceId route))).

Definition computeUpdatesForRegistration (update : RibUpdate) : M FibUpdater unit :=
  let prefix := ru_name update in
  let route := ru_route update in
  match Rib_find prefix m_rib with
  | Some p =>
      entry ← someM (rb_heap m_rib !! p);
      match findRoute entry route with
      | None =>
          let willCaptureBeTurnedOn := negb (hasCapture entry) && isRibCapture route in
          createFibUpdatesForNewRoute entry route willCaptureBeTurnedOn
      | Some it =>
          existingRoute ← someM (re_routes entry !! it);
          let routeToUpdate := mkRoute (rt_faceId existingRoute) (rt_origin existingRoute) (rt_cost route) (rt_flags route)
            (rt_expires route) (rt_announcement existingRoute) (rt_annExpires existingRoute) (rt_expirationEvent existingRoute) in
          let entryCopy := set_re_routes (<[it := routeToUpdate]> (re_routes entry)) (re_nRoutesWithCaptureSet entry) entry in
          createFibUpdatesForUpdatedRoute entryCopy route existingRoute
      end
  | None =>
      let parent := findParent prefix m_rib in
      let descendants := findDescendantsForNonInsertedName prefix m_rib in
      let children := filter (λ d, (rb_heap m_rib !! d) ≫= re_parent = parent) descendants in
      createFibUpdatesForNewRibEntry prefix route children
  end.

(** The result is the expiration event that the erasure from the temporary copy of
    the entry cancels. *)
Definition computeUpdatesForUnregistration (update : RibUpdate) : M FibUpdater (option positive) :=
  let prefix := ru_name update in
  let route := ru_route update in
  match Rib_find prefix m_rib with
  | None => mret None
  | Some p =>
      entry ← someM (rb_heap m_rib !! p);
      let hadCapture := hasCapture entry in
      match findRoute entry route with
      | None => mret None
      | Some it =>
          existing ← someM (re_routes entry !! it);
          let '(temp, ev) := eraseRoute route entry in
          let captureWasTurnedOff := hadCapture && negb (hasCapture temp) in
          createFibUpdatesForErasedRoute temp existing captureWasTurnedOff;;
          match getRouteWithSecondLowestCostByFaceId entry (rt_faceId route) with
          | Some next => createFibUpdatesForNewRoute temp next false
          | None => mret tt
          end;;
          (if decide (getNRoutes entry = 1) then createFibUpdatesForErasedRibEntry entry else mret tt);;
          mret ev
      end
  end.
End Compute.

(** ** Sending the updates and moving the queue *)

(** A command started with the controller; [c_verb] is the command that was sent. *)
Record Command := mkCommand {
  c_verb : FibUpdateAction;
  c_update : FibUpdate;
  c_nTimeouts : nat;
  c_item : UpdateQueueItem;
}.

Inductive RibUpdateResult := UpdateOk | UpdateFailed (code : Z).

Record RibState := mkRibState {
  rs_rib : Rib;
  rs_updater : FibUpdater;
  rs_commands : list Command;
  rs_done : list (nat * RibUpdateResult);
}.

Definition set_rs_rib (x : Rib) (s : RibState) : RibState := mkRibState x (rs_updater s) (rs_commands s) (rs_done s).
Definition set_rs_updater (x : FibUpdater) (s : RibState) : RibState := mkRibState (rs_rib s) x (rs_commands s) (rs_done s).
Definition set_rs_commands (x : list Command) (s : RibState) : RibState := mkRibState (rs_rib s) (rs_updater s) x (rs_done s).
Definition set_rs_done (x : list (nat * RibUpdateResult)) (s : RibState) : RibState :=
  mkRibState (rs_rib s) (rs_updater s) (rs_commands s) x.

Definition ribM {A} (m : M Rib A) : M RibState A := lift rs_rib set_rs_rib m.
Definition updaterM {A} (m : M FibUpdater A) : M RibState A := lift rs_updater set_rs_updater m.

Definition MAX_NUM_TIMEOUTS : nat := 10.
Definition ERROR_FACE_NOT_FOUND : Z := 410.
(** [ndn::nfd::Controller::ERROR_TIMEOUT] *)
Definition ERROR_TIMEOUT : Z := 10060.

Definition callManager (callback : option nat) (result : RibUpdateResult) : M RibState unit :=
  match callback with
  | Some id => modify (λ s, set_rs_done (rs_done s ++ [(id, result)]) s)
  | None => mret tt
  end.

Definition sendAddNextHopUpdate (update : FibUpdate) (item : UpdateQueueItem) (nTimeouts : nat) : M RibState unit :=
  modify (λ s, set_rs_commands (rs_commands s ++ [mkCommand ADD_NEXTHOP update nTimeouts item]) s).
Definition sendRemoveNextHopUpdate (update : FibUpdate) (item : UpdateQueueItem) (nTimeouts : nat) : M RibState unit :=
  modify (λ s, set_rs_commands (rs_commands s ++ [mkCommand REMOVE_NEXTHOP update nTimeouts item]) s).

Definition sendUpdates (updates : list FibUpdate) (item : UpdateQueueItem) : M RibState unit :=
  forM updates (λ update,
    match fu_action update with
    | ADD_NEXTHOP => sendAddNextHopUpdate update item 0
    | REMOVE_NEXTHOP => sendRemoveNextHopUpdate update item 0
    end).

(** [onSuccess] is the function bound as [FibUpdateSuccessCallback]. *)
Definition sendUpdatesForNonBatchFaceId (item : UpdateQueueItem) (onSuccess : list RibUpdate → M RibState unit) : M RibState unit :=
  u ← gets rs_updater;
  match up_updatesForNonBatchFaceId u with
  | [] => onSuccess (up_inheritedRoutes u)
  | updates => sendUpdates updates item
  end.

Definition sendUpdatesForBatchFaceId (item : UpdateQueueItem) (onSuccess : list RibUpdate → M RibState unit) : M RibState unit :=
  u ← gets rs_updater;
  match up_updatesForBatchFaceId u with
  | [] => sendUpdatesForNonBatchFaceId item onSuccess
  | updates => sendUpdates updates item
  end.

Definition computeUpdate (update : RibUpdate) : M RibState unit :=
  rib ← gets rs_rib;
  match ru_action update with
  | REGISTER => updaterM (computeUpdatesForRegistration rib update)
  | UNREGISTER =>
      ev ← updaterM (computeUpdatesForUnregistration rib update);
      ribM (cancelEvent ev)
  | REMOVE_FACE =>
      ev ← updaterM (computeUpdatesForUnregistration rib update);
      ribM (cancelEvent ev);;
      updaterM (modify (λ u, set_up_updates [] (up_updatesForNonBatchFaceId u) u))
  end.

Definition computeAndSendFibUpdates (item : UpdateQueueItem) (onSuccess : list RibUpdate → M RibState unit) : M RibState unit :=
  updaterM (put_st (mkFibUpdater (b_faceId (q_batch item)) [] [] []));;
  forM (b_updates (q_batch item)) computeUpdate;;
  sendUpdatesForBatchFaceId item onSuccess.

Definition applyRibUpdate (update : RibUpdate) : M RibState unit :=
  match ru_action update with
  | REGISTER => ribM (Rib_insert (ru_name update) (ru_route update))
  | UNREGISTER | REMOVE_FACE => ribM (Rib_erase (ru_name update) (ru_route update))
  end.

(** [next] is the call of [sendBatchFromQueue] that ends these two functions. *)
Definition onFibUpdateSuccess (next : M RibState unit) (item : UpdateQueueItem) (inheritedRoutes : list RibUpdate) : M RibState unit :=
  forM (b_updates (q_batch item)) applyRibUpdate;;
  ribM (modifyInheritedRoutes inheritedRoutes);;
  ribM (modify (λ s, set_rb_queue (rb_updateBatches s) false s));;
  callManager (q_callback item) UpdateOk;;
  next.

Definition onFibUpdateFailure (next : M RibState unit) (item : UpdateQueueItem) (code : Z) : M RibState unit :=
  ribM (modify (λ s, set_rb_queue (rb_updateBatches s) false s));;
  callManager (q_callback item) (UpdateFailed code);;
  next.

(** Each turn takes one batch off the queue, so its length is fuel enough. *)
Fixpoint sendBatch_loop (fuel : nat) : M RibState unit :=
  rib ← gets rs_rib;
  match rb_updateBatches rib, rb_isUpdateInProgress rib with
  | [], _ | _, true => mret tt
  | item :: rest, false =>
      match fuel with
      | 0 => assertM false
      | S fuel =>
          ribM (modify (set_rb_queue rest true));;
          assertM (length (b_updates (q_batch item)) =? 1);;
          computeAndSendFibUpdates item (onFibUpdateSuccess (sendBatch_loop fuel) item)
      end
  end.

Definition sendBatchFromQueue : M RibState unit :=
  rib ← gets rs_rib;
  sendBatch_loop (length (rb_updateBatches rib)).

Definition beginApplyUpdate (update : RibUpdate) (callback : option nat) : M RibState unit :=
  ribM (addUpdateToQueue update callback);;
  sendBatchFromQueue.

Definition beginRemoveFace (faceId : Z) : M RibState unit :=
  rib ← gets rs_rib;
  forM (filter (λ kv, kv.1 = faceId) (rb_faceEntries rib)) (λ kv, ribM (enqueueRemoveFace kv.2 faceId));;
  sendBatchFromQueue.

Definition beginRemoveFailedFaces (activeFaceIds : list Z) : M RibState unit :=
  rib ← gets rs_rib;
  forM (rb_faceEntries rib) (λ kv,
    if decide (kv.1 ∈ activeFaceIds) then mret tt else ribM (enqueueRemoveFace kv.2 kv.1));;
  sendBatchFromQueue.

Definition onRouteExpiration (prefix : Name) (route : Route) : M RibState unit :=
  beginApplyUpdate (mkRibUpdate UNREGISTER prefix route) None.

(** ** Responses of the controller *)

(** [updates.remove(update)] *)
Definition removeUpdate (update : FibUpdate) (updates : list FibUpdate) : list FibUpdate := filter (λ u, u ≠ update) updates.

Definition onUpdateSuccess (update : FibUpdate) (item : UpdateQueueItem) : M RibState unit :=
  let onSuccess := onFibUpdateSuccess sendBatchFromQueue item in
  u ← gets rs_updater;
  if (fu_faceId update =? up_batchFaceId u)%Z then
    let updates := removeUpdate update (up_updatesForBatchFaceId u) in
    updaterM (modify (set_up_updates updates (up_updatesForNonBatchFaceId u)));;
    if decide (updates = []) then sendUpdatesForNonBatchFaceId item onSuccess else mret tt
  else
    let updates := removeUpdate update (up_updatesForNonBatchFaceId u) in
    updaterM (modify (set_up_updates (up_updatesForBatchFaceId u) updates));;
    if decide (updates = []) then onSuccess (up_inheritedRoutes u) else mret tt.

Definition onUpdateError (update : FibUpdate) (item : UpdateQueueItem) (code : Z) (nTimeouts : nat) : M RibState unit :=
  u ← gets rs_updater;
  if (code =? ERROR_TIMEOUT)%Z && bool_decide (nTimeouts < MAX_NUM_TIMEOUTS) then
    sendAddNextHopUpdate update item (S nTimeouts)
  else if (code =? ERROR_FACE_NOT_FOUND)%Z then
    if (fu_faceId update =? up_batchFaceId u)%Z then onFibUpdateFailure sendBatchFromQueue item code
    else
      let updates := removeUpdate update (up_updatesForNonBatchFaceId u) in
      updaterM (modify (set_up_updates (up_updatesForBatchFaceId u) updates));;
      if decide (updates = []) then onFibUpdateSuccess sendBatchFromQueue item (up_inheritedRoutes u) else mret tt
  else assertM false. (* NDN_THROW *)

(** The controller answers the [i]th outstanding command: 200, or an error code. *)
Definition onResponse (i : nat) (code : Z) : M RibState unit :=
  s ← get_st;
  c ← someM (rs_commands s !! i);
  modify (λ s, set_rs_commands (delete i (rs_commands s)) s);;
  if (code =? 200)%Z then onUpdateSuccess (c_update c) (c_item c)
  else onUpdateError (c_update c) (c_item c) code (c_nTimeouts c).
End FibUpdater.
