(* ===== verification/RibSpecs.v ===== *)
(** * Specifications of the RIB

    The invariant [RibInv] ties the tree of entries to the table: the parent of an
    entry is the entry of its longest proper prefix, and the children are the
    entries it is the parent of.  [Rib::insert] and [Rib::erase] are specified by
    their effect on the routes of every name ([routesAt]), and
    [getAncestorRoutes] by a reference definition over the prefixes of the name. *)

From Stdlib Require Import ZArith Lia.
From stdpp Require Import base gmap option list sorting fin_maps.
From S2P Require Import Prelude Scheduler Ndn FibEntry Rib.

Section Tables.
Context {N : NdnCxx} {NL : NdnCxxLaws N}.
Implicit Types (t : list (Name * ptr)) (n m : Name) (p q : ptr).

Lemma NoDup_snd_unique {A B} (l : list (A * B)) a a' b : NoDup l.*2 → (a, b) ∈ l → (a', b) ∈ l → a = a'.
Proof.
  intros Hnd H1 H2. assert (Hnd' : NoDup ((λ x : A * B, (x.2, x.1)) <$> l).*1) by (by rewrite <- list_fmap_compose).
  eapply NoDup_fst_unique; [exact Hnd'|..]; apply list_elem_of_fmap; [by exists (a, b)|by exists (a', b)].
Qed.

Definition name_lt (a b : Name * ptr) : Prop := name_compare a.1 b.1 = Lt.

Lemma table_find_Some t n p : table_find t n = Some p → (n, p) ∈ t.
Proof.
  unfold table_find. destruct (find _ t) as [[n' p']|] eqn:E; [|done]. intros [= <-].
  apply find_some in E as [Hin E]. apply bool_decide_eq_true in E. cbn in E. subst n'. by apply list_elem_of_In.
Qed.

Lemma table_find_elem t n p : NoDup t.*1 → (n, p) ∈ t → table_find t n = Some p.
Proof.
  intros Hnd Hin. unfold table_find. destruct (find _ t) as [[n' p']|] eqn:E.
  - apply find_some in E as [Hin' E]. apply bool_decide_eq_true in E. cbn in E. subst n'. apply list_elem_of_In in Hin'.
    cbn. f_equal. by eapply NoDup_fst_unique.
  - apply list_elem_of_In in Hin. eapply find_none in E; [|exact Hin]. cbn in E. by rewrite bool_decide_eq_true_2 in E.
Qed.

Lemma table_find_None t n : table_find t n = None ↔ n ∉ t.*1.
Proof.
  unfold table_find. induction t as [|[m p] t IH]; cbn; [split; [by intros _ ?%elem_of_nil|done]|].
  rewrite not_elem_of_cons. case_bool_decide; cbn; [naive_solver|]. rewrite IH. naive_solver.
Qed.

Lemma sorted_NoDup t : StronglySorted name_lt t → NoDup t.*1.
Proof.
  induction 1 as [|[n p] t Hs IH Hall]; cbn; constructor; [|done].
  intros [[m q] [E Hin]]%list_elem_of_fmap. cbn in E. subst m.
  eapply Forall_forall in Hall; [|exact Hin]. unfold name_lt in Hall. cbn in Hall. by rewrite name_compare_refl in Hall.
Qed.

Lemma table_insert_perm n p t : table_insert n p t ≡ₚ (n, p) :: t.
Proof.
  induction t as [|kv t IH]; cbn; [done|]. destruct (name_ltb n kv.1); [done|]. rewrite IH. apply Permutation_swap.
Qed.

Lemma table_insert_find n p t m : n ∉ t.*1 → NoDup t.*1 →
  table_find (table_insert n p t) m = if decide (m = n) then Some p else table_find t m.
Proof.
  intros Hn Hnd. assert (Hnd' : NoDup (table_insert n p t).*1).
  { rewrite table_insert_perm. cbn. by constructor. }
  destruct (decide (m = n)) as [->|Hm].
  - apply table_find_elem; [done|]. rewrite table_insert_perm. by left.
  - destruct (table_find t m) as [q|] eqn:E.
    + apply table_find_elem; [done|]. rewrite table_insert_perm. right. by apply table_find_Some.
    + apply table_find_None in E. apply table_find_None. rewrite table_insert_perm. cbn. by apply not_elem_of_cons.
Qed.

Lemma table_insert_sorted n p t : n ∉ t.*1 → StronglySorted name_lt t → StronglySorted name_lt (table_insert n p t).
Proof.
  intros Hn. induction 1 as [|kv t Hs IH Hall]; cbn; [by repeat constructor|].
  cbn in Hn. apply not_elem_of_cons in Hn as [Hne Hn]. unfold name_ltb.
  destruct (name_compare n kv.1) eqn:E.
  - by apply name_compare_eq in E.
  - constructor; [by constructor|]. constructor; [done|]. eapply Forall_impl; [exact Hall|].
    intros x Hx. unfold name_lt in *. cbn. by eapply name_compare_trans.
  - constructor; [by apply IH|]. rewrite table_insert_perm. constructor; [|done]. unfold name_lt. cbn. by apply name_compare_gt.
Qed.

Lemma table_remove_find n t m :
  table_find (filter (λ kv, kv.1 ≠ n) t) m = if decide (m = n) then None else table_find t m.
Proof.
  unfold table_find. induction t as [|[k p] t IH]; [by destruct (decide _)|]. rewrite filter_cons. cbn [fst].
  destruct (decide (k ≠ n)) as [Hk|Hk]; cbn [find fst]; rewrite ?IH.
  - case_bool_decide; subst; [by rewrite decide_False|done].
  - destruct (decide (m = n)); [done|]. rewrite bool_decide_eq_false_2; [done|]. intros ->. by apply Hk.
Qed.

(** ** The parent of a name *)

Lemma findParent_from_ext t t' n i :
  (∀ k, k < i → table_find t (take k n) = table_find t' (take k n)) → findParent_from t n i = findParent_from t' n i.
Proof.
  induction i as [|i IH]; intros H; [done|]. cbn. rewrite (H i) by lia. rewrite IH; [done|]. intros k Hk. apply H. lia.
Qed.

(** The longest proper prefix that is in the table. *)
Definition parentOf t n (m : Name) : Prop :=
  ∃ k, k < length n ∧ m = take k n ∧ is_Some (table_find t m) ∧ ∀ j, k < j < length n → table_find t (take j n) = None.

Lemma findParent_from_Some t n i p : findParent_from t n i = Some p →
  ∃ k, k < i ∧ table_find t (take k n) = Some p ∧ ∀ j, k < j < i → table_find t (take j n) = None.
Proof.
  induction i as [|i IH]; [done|]. cbn. destruct (table_find t (take i n)) as [q|] eqn:E.
  - intros [= ->]. exists i. split; [lia|]. split; [done|]. lia.
  - intros (k & Hk & Hp & Hno)%IH. exists k. split; [lia|]. split; [done|]. intros j Hj.
    destruct (decide (j = i)) as [->|]; [done|]. apply Hno. lia.
Qed.

Lemma findParent_from_intro t n i k p :
  k < i → table_find t (take k n) = Some p → (∀ j, k < j < i → table_find t (take j n) = None) → findParent_from t n i = Some p.
Proof.
  revert k. induction i as [|i IH]; intros k Hk Hp Hno; [lia|]. cbn. destruct (decide (k = i)) as [->|]; [by rewrite Hp|].
  rewrite Hno by lia. apply (IH k); [lia|done|]. intros j Hj. apply Hno. lia.
Qed.

Lemma findParent_from_None t n i : findParent_from t n i = None ↔ ∀ k, k < i → table_find t (take k n) = None.
Proof.
  induction i as [|i IH]; cbn; [split; [lia|done]|]. destruct (table_find t (take i n)) as [q|] eqn:E.
  - split; [done|]. intros H. by rewrite H in E by lia.
  - rewrite IH. split; intros H k Hk; [|apply H; lia]. destruct (decide (k = i)) as [->|]; [done|]. apply H. lia.
Qed.

Lemma prefix_take n m : n `prefix_of` m → n = take (length n) m.
Proof. intros [k ->]. by rewrite take_app_length. Qed.

Lemma take_prefix k n : take k n `prefix_of` n.
Proof. exists (drop k n). by rewrite take_drop. Qed.

(** Inserting [n] makes it the parent of those below it that have its parent. *)
Lemma findParent_insert t n x m :
  NoDup t.*1 → NoDup t.*2 → n ∉ t.*1 → is_Some (table_find t m) →
  findParent_from (table_insert n x t) m (length m) =
    if decide (n `prefix_of` m ∧ findParent_from t m (length m) = findParent_from t n (length n))
    then Some x else findParent_from t m (length m).
Proof.
  intros Hnd1 Hnd2 Hn Hm. assert (Hfind : ∀ k, table_find (table_insert n x t) (take k m) =
    if decide (take k m = n) then Some x else table_find t (take k m)) by (intros; by apply table_insert_find).
  assert (Hnt : table_find t n = None) by (by apply table_find_None).
  destruct (decide (n `prefix_of` m)) as [Hp|Hp].
  - pose proof (prefix_take _ _ Hp) as Et. assert (Hlt : length n < length m).
    { pose proof (prefix_length _ _ Hp). destruct (decide (length n = length m)) as [E|]; [|lia].
      assert (n = m) as -> by (rewrite Et, E; by rewrite take_ge). destruct Hm as [q Hq]. congruence. }
    assert (Hpre : ∀ j, j ≤ length n → take j m = take j n) by (intros j Hj; rewrite Et, take_take; f_equal; lia).
    assert (Hdec : Decision (∀ j, length n < j < length m → table_find t (take j m) = None)).
    { destruct (decide (Forall (λ j, table_find t (take j m) = None) (seq (S (length n)) (length m - S (length n))))) as [H|H];
        [left|right]; rewrite Forall_seq in H; [intros j Hj; apply H; lia|]. intros H'. apply H. intros j Hj. apply H'. lia. }
    destruct (decide (∀ j, length n < j < length m → table_find t (take j m) = None)) as [Hno|Hno].
    + rewrite decide_True.
      * apply (findParent_from_intro _ _ _ (length n)); [done|rewrite Hfind, decide_True; [done|by symmetry]|].
        intros j Hj. rewrite Hfind, decide_False; [by apply Hno|]. intros E. apply (f_equal length) in E. rewrite length_take in E. lia.
      * split; [done|]. destruct (findParent_from t n (length n)) as [p|] eqn:E.
        -- apply findParent_from_Some in E as (k & Hk & Hf & Hz). apply (findParent_from_intro _ _ _ k); [lia|by rewrite Hpre by lia|].
           intros j Hj. destruct (decide (j < length n)); [rewrite Hpre by lia; apply Hz; lia|].
           destruct (decide (j = length n)) as [->|]; [by rewrite <- Et|]. apply Hno. lia.
        -- apply findParent_from_None. pose proof (proj1 (findParent_from_None _ _ _) E) as Hz. intros j Hj.
           destruct (decide (j < length n)); [rewrite Hpre by lia; apply Hz; lia|].
           destruct (decide (j = length n)) as [->|]; [by rewrite <- Et|]. apply Hno. lia.
    + destruct (findParent_from t m (length m)) as [p|] eqn:E.
      * pose proof E as E0. apply findParent_from_Some in E as (k & Hk & Hf & Hz).
        assert (length n < k).
        { destruct (decide (length n < k)); [done|]. exfalso. apply Hno. intros j Hj. apply Hz. lia. }
        rewrite decide_False.
        -- apply (findParent_from_intro _ _ _ k); [done| |].
           ++ rewrite Hfind, decide_False; [done|]. intros Ek. apply (f_equal length) in Ek. rewrite length_take in Ek. lia.
           ++ intros j Hj. rewrite Hfind, decide_False; [by apply Hz|]. intros Ek. apply (f_equal length) in Ek. rewrite length_take in Ek. lia.
        -- intros [_ Eq]. symmetry in Eq. apply findParent_from_Some in Eq as (k' & Hk' & Hf' & _).
           apply table_find_Some in Hf, Hf'. assert (Ek : take k m = take k' n).
           { by eapply NoDup_snd_unique. }
           apply (f_equal length) in Ek. rewrite !length_take in Ek. lia.
      * exfalso. apply Hno. intros j Hj. apply (proj1 (findParent_from_None _ _ _) E). lia.
  - rewrite decide_False by tauto. apply findParent_from_ext. intros k Hk. rewrite Hfind, decide_False; [done|].
    intros <-. apply Hp, take_prefix.
Qed.
(** Removing [n] gives its children to its parent. *)
Lemma findParent_remove t n x m :
  NoDup t.*1 → NoDup t.*2 → table_find t n = Some x →
  findParent_from (filter (λ kv, kv.1 ≠ n) t) m (length m) =
    if decide (findParent_from t m (length m) = Some x) then findParent_from t n (length n) else findParent_from t m (length m).
Proof.
  intros Hnd1 Hnd2 Hx. pose proof (λ k, table_remove_find n t (take k m)) as Hfind.
  assert (Hinj : ∀ a q, table_find t a = Some q → q = x → a = n).
  { intros a q Ha%table_find_Some ->. apply table_find_Some in Hx. by eapply NoDup_snd_unique. }
  destruct (decide (findParent_from t m (length m) = Some x)) as [E|E].
  - apply findParent_from_Some in E as (k & Hk & Hf & Hz). assert (Et : take k m = n) by (by eapply Hinj).
    assert (Hlen : length n = k) by (rewrite <- Et, length_take; lia).
    assert (Hpre : ∀ j, j < k → take j m = take j n) by (intros j Hj; rewrite <- Et, take_take; f_equal; lia).
    assert (Hge : ∀ j, k ≤ j < length m → table_find (filter (λ kv, kv.1 ≠ n) t) (take j m) = None).
    { intros j Hj. rewrite Hfind. destruct (decide (take j m = n)) as [|Hne]; [done|]. apply Hz.
      destruct (decide (j = k)) as [->|]; [done|lia]. }
    destruct (findParent_from t n (length n)) as [p|] eqn:E.
    + apply findParent_from_Some in E as (k' & Hk' & Hf' & Hz'). apply (findParent_from_intro _ _ _ k'); [lia| |].
      * rewrite Hfind, Hpre by lia. rewrite decide_False; [done|]. intros E. apply (f_equal length) in E. rewrite length_take in E. lia.
      * intros j Hj. destruct (decide (j < k)); [|apply Hge; lia]. rewrite Hfind, Hpre by lia.
        destruct (decide _); [done|]. apply Hz'. lia.
    + apply findParent_from_None. pose proof (proj1 (findParent_from_None _ _ _) E) as Hz'. intros j Hj.
      destruct (decide (j < k)); [|apply Hge; lia]. rewrite Hfind, Hpre by lia. destruct (decide _); [done|]. apply Hz'. lia.
  - destruct (findParent_from t m (length m)) as [p|] eqn:Ep.
    + apply findParent_from_Some in Ep as (k & Hk & Hf & Hz). apply (findParent_from_intro _ _ _ k); [done| |].
      * rewrite Hfind, decide_False; [done|]. intros <-. congruence.
      * intros j Hj. rewrite Hfind. destruct (decide _); [done|]. by apply Hz.
    + apply findParent_from_None. pose proof (proj1 (findParent_from_None _ _ _) Ep) as Hz. intros j Hj. rewrite Hfind.
      destruct (decide _); [done|]. by apply Hz.
Qed.

(** ** Descendants *)

Lemma table_from_sorted t n : StronglySorted name_lt t → StronglySorted name_lt (table_from t n).
Proof. induction 1 as [|kv t Hs IH Hall]; cbn; [constructor|]. case_bool_decide; [by constructor|done]. Qed.

Lemma table_from_elem t n p : StronglySorted name_lt t → table_find t n = Some p →
  ∃ rest, table_from t n = (n, p) :: rest ∧ ∀ kv, kv ∈ rest ↔ kv ∈ t ∧ name_compare n kv.1 = Lt.
Proof.
  induction 1 as [|[k q] t Hs IH Hall]; [done|]. unfold table_find. cbn [find table_from fst]. case_bool_decide as Hk.
  - intros [= <-]. subst k. exists t. split; [done|]. intros kv. rewrite elem_of_cons. split.
    + intros Hin. split; [by right|]. eapply Forall_forall in Hall; [|exact Hin]. exact Hall.
    + intros [[->|?] Hlt]; [|done]. cbn in Hlt. by rewrite name_compare_refl in Hlt.
  - intros Hf. destruct (IH Hf) as (rest & -> & Hr). exists rest. split; [done|]. intros kv. rewrite Hr, elem_of_cons.
    split; [tauto|]. intros [[->|?] Hlt]; [|done]. cbn in Hlt. exfalso.
    apply table_find_Some in Hf. eapply Forall_forall in Hall; [|exact Hf]. unfold name_lt in Hall. cbn in Hall.
    apply name_compare_gt in Hlt. congruence.
Qed.

Lemma take_while_convex {A} (P : A → bool) (l : list A) x :
  (∀ l1 l2 y, l = l1 ++ x :: l2 → P x = true → y ∈ l1 → P y = true) → NoDup l →
  x ∈ take_while P l ↔ x ∈ l ∧ P x = true.
Proof.
  intros Hc Hnd. split.
  - clear. induction l as [|y l IH]; cbn; [by intros ?%elem_of_nil|]. destruct (P y) eqn:E; [|by intros ?%elem_of_nil].
    rewrite !elem_of_cons. intros [->|Hin]; [by split; [left|]|]. split; [right|]; by apply IH.
  - intros [(l1 & l2 & ->)%list_elem_of_split Hx]. specialize (Hc l1 l2).
    assert (Hall : ∀ y, y ∈ l1 → P y = true) by (intros y Hy; by apply Hc). clear Hc Hnd.
    induction l1 as [|y l1 IH]; cbn; [rewrite Hx; by left|]. rewrite Hall by (by left). right. apply IH. intros z Hz. apply Hall. by right.
Qed.

Lemma descendants_elem t n x p rest : StronglySorted name_lt t → table_find t n = Some x →
  table_from t n = (n, x) :: rest →
  p ∈ snd <$> take_while (λ kv, isPrefixOf n kv.1) rest ↔ ∃ m, (m, p) ∈ t ∧ n `prefix_of` m ∧ m ≠ n.
Proof.
  intros Hs Hf E. destruct (table_from_elem t n x Hs Hf) as (rest' & E' & Hr). rewrite E in E'. injection E' as <-.
  pose proof (table_from_sorted t n Hs) as Hs'. rewrite E in Hs'. inversion Hs' as [|? ? Hsr _]; subst.
  assert (Hconv : ∀ kv, kv ∈ take_while (λ kv, isPrefixOf n kv.1) rest ↔ kv ∈ rest ∧ isPrefixOf n kv.1 = true).
  { intros kv. apply (take_while_convex (λ kv : Name * ptr, isPrefixOf n kv.1)); [|apply (NoDup_fmap_1 fst), sorted_NoDup, Hsr].
    intros l1 l2 y El Hp Hy. unfold isPrefixOf in *. rewrite bool_decide_eq_true in *. eapply name_compare_convex; [..|exact Hp].
    - assert (Hin : y ∈ rest) by (rewrite El; apply elem_of_app; by left). apply Hr in Hin as [_ ->]. done.
    - rewrite El in Hsr. apply list_elem_of_split in Hy as (l3 & l4 & ->). rewrite <- app_assoc in Hsr. cbn in Hsr.
      apply StronglySorted_app_1_r in Hsr. inversion Hsr as [|? ? _ Hall]; subst.
      eapply Forall_forall in Hall; [unfold name_lt in Hall; by rewrite Hall|]. apply elem_of_app. right. by left. }
  rewrite list_elem_of_fmap. split.
  - intros ([m q] & -> & Hin). apply Hconv in Hin as [Hin Hp]. cbn in Hp. unfold isPrefixOf in Hp. rewrite bool_decide_eq_true in Hp.
    apply Hr in Hin as [Hin Hlt]. exists m. split; [done|]. split; [done|]. intros ->. cbn in Hlt. by rewrite name_compare_refl in Hlt.
  - intros (m & Hin & Hp & Hne). exists (m, p). split; [done|]. apply Hconv. cbn. unfold isPrefixOf. rewrite bool_decide_eq_true.
    split; [|done]. apply Hr. split; [done|]. cbn. destruct (name_compare n m) eqn:Ec; [|done|].
    + by apply name_compare_eq in Ec.
    + by apply name_compare_prefix in Hp.
Qed.
End Tables.

(** ** Moving children between parents *)

Section Children.
Context {N : NdnCxx} {SC : Scheduler}.
Implicit Types (s : Rib) (h : gmap ptr RibEntry) (p q c : ptr) (F T : option ptr).

Lemma set_heap_heap h h' s : set_rb_heap h (set_rb_heap h' s) = set_rb_heap h s.
Proof. done. Qed.

Lemma updateRibEntry_spec p f e s (Q : unit → Rib → Prop) :
  rb_heap s !! p = Some e → Q tt (set_rb_heap (<[p := f e]> (rb_heap s)) s) → wp (updateEntry p f) Q s.
Proof. intros He HQ. unfold updateEntry, derefEntry. do 2 wp_step. wp_step. wp_step; [exact He|]. by wp_step. Qed.

Lemma addChild_spec p c e ec s (Q : unit → Rib → Prop) :
  rb_heap s !! p = Some e → rb_heap s !! c = Some ec → re_parent ec = None → p ≠ c →
  Q tt (set_rb_heap (<[p := set_re_children (re_children e ++ [c]) e]> (<[c := set_re_parent (Some p) ec]> (rb_heap s))) s) →
  wp (addChild p c) Q s.
Proof.
  intros He Hc Hp Hne HQ. unfold addChild, derefEntry. do 2 wp_step. wp_step. wp_step; [exact Hc|]. wp_step. wp_step.
  { by apply bool_decide_eq_true. }
  wp_step. eapply updateRibEntry_spec; [exact Hc|]. eapply updateRibEntry_spec; [|exact HQ]. cbn. by rewrite lookup_insert_ne.
Qed.

Lemma removeChild_spec p c e ec s (Q : unit → Rib → Prop) :
  rb_heap s !! p = Some e → rb_heap s !! c = Some ec → re_parent ec = Some p → p ≠ c →
  Q tt (set_rb_heap (<[p := set_re_children (filter (λ x, x ≠ c) (re_children e)) e]> (<[c := set_re_parent None ec]> (rb_heap s))) s) →
  wp (removeChild p c) Q s.
Proof.
  intros He Hc Hp Hne HQ. unfold removeChild, derefEntry. do 2 wp_step. wp_step. wp_step; [exact Hc|]. wp_step. wp_step.
  { by apply bool_decide_eq_true. }
  wp_step. eapply updateRibEntry_spec; [exact Hc|]. eapply updateRibEntry_spec; [|exact HQ]. cbn. by rewrite lookup_insert_ne.
Qed.

(** The body of both loops: from the children of [F] to those of [T]. *)
Definition moveChild F T c : M Rib unit :=
  match F with Some p => removeChild p c | None => mret tt end;;
  match T with Some p => addChild p c | None => mret tt end.

(** The heap after the children [D] of [F] have moved to [T]. *)
Definition moved F T (D : list ptr) h q : option RibEntry :=
  if decide (q ∈ D) then set_re_parent T <$> h !! q
  else if decide (Some q = F) then (λ e, set_re_children (filter (λ x, x ∉ D) (re_children e)) e) <$> h !! q
  else if decide (Some q = T) then (λ e, set_re_children (re_children e ++ D) e) <$> h !! q
  else h !! q.

Definition isMoved F T D h h' : Prop := ∀ q, h' !! q = moved F T D h q.

Lemma set_children_same e : set_re_children (re_children e) e = e.
Proof. by destruct e. Qed.
Lemma set_parent_twice x y e : set_re_parent x (set_re_parent y e) = set_re_parent x e.
Proof. done. Qed.
Lemma set_parent_same e : set_re_parent (re_parent e) e = e.
Proof. by destruct e. Qed.

Lemma filter_notin_nil {A} `{EqDecision A} (l : list A) : filter (λ x, x ∉ []) l = l.
Proof. apply filter_all. intros x _. apply not_elem_of_nil. Qed.

Lemma isMoved_nil F T h : isMoved F T [] h h.
Proof.
  intros q. unfold moved. rewrite decide_False by apply not_elem_of_nil. destruct (decide _) as [_|_].
  - destruct (h !! q) as [e|]; cbn; [|done]. by rewrite filter_notin_nil, set_children_same.
  - destruct (decide _) as [_|_]; [|done]. destruct (h !! q) as [e|]; cbn; [|done]. by rewrite app_nil_r, set_children_same.
Qed.

Lemma filter_notin_snoc {A} `{EqDecision A} (D : list A) (c : A) (l : list A) :
  filter (λ x, x ∉ D ++ [c]) l = filter (λ x, x ≠ c) (filter (λ x, x ∉ D) l).
Proof.
  rewrite list_filter_filter. apply list_filter_iff. intros x. rewrite not_elem_of_app, list_elem_of_singleton. tauto.
Qed.

Definition validPeer (L : list ptr) h (o : option ptr) : Prop := ∀ p, o = Some p → is_Some (h !! p) ∧ p ∉ L.

Lemma moveChild_spec F T D c ec h s :
  isMoved F T D h (rb_heap s) → F ≠ T → c ∉ D → h !! c = Some ec → re_parent ec = F →
  validPeer (D ++ [c]) h F → validPeer (D ++ [c]) h T →
  wp (moveChild F T c) (λ _ s', ∃ h', s' = set_rb_heap h' s ∧ isMoved F T (D ++ [c]) h h') s.
Proof.
  intros Hm HFT HcD Hc Hpar HF HT.
  assert (HcF : Some c ≠ F) by (intros <-; destruct (HF c) as [_ []]; [done|]; apply elem_of_app; right; by left).
  assert (HcT : Some c ≠ T) by (intros <-; destruct (HT c) as [_ []]; [done|]; apply elem_of_app; right; by left).
  assert (Hc' : rb_heap s !! c = Some ec).
  { rewrite Hm. unfold moved. rewrite decide_False by done. rewrite decide_False by done. by rewrite decide_False. }
  assert (HD : ∀ q, q ∈ D ++ [c] ↔ q ∈ D ∨ q = c) by (intros q; by rewrite elem_of_app, list_elem_of_singleton).
  assert (HmF : ∀ p, F = Some p → ∃ e, h !! p = Some e ∧ p ≠ c ∧ (p ∉ D) ∧
    rb_heap s !! p = Some (set_re_children (filter (λ x, x ∉ D) (re_children e)) e)).
  { intros p ->. destruct (HF p) as [[e He] Hn]; [done|]. rewrite HD in Hn. exists e. split; [done|]. split; [naive_solver|]. split; [naive_solver|].
    rewrite Hm. unfold moved. rewrite decide_False by naive_solver. rewrite decide_True by done. by rewrite He. }
  assert (HmT : ∀ p, T = Some p → ∃ e, h !! p = Some e ∧ p ≠ c ∧ (p ∉ D) ∧ Some p ≠ F ∧
    rb_heap s !! p = Some (set_re_children (re_children e ++ D) e)).
  { intros p ->. destruct (HT p) as [[e He] Hn]; [done|]. rewrite HD in Hn. exists e. split; [done|]. split; [naive_solver|]. split; [naive_solver|].
    split; [naive_solver|]. rewrite Hm. unfold moved. rewrite decide_False by naive_solver. rewrite decide_False by naive_solver.
    rewrite decide_True by done. by rewrite He. }
  (* the heap in between *)
  assert (Hstep1 : wp (match F with Some p => removeChild p c | None => mret tt end)
    (λ _ s', ∃ h', s' = set_rb_heap h' s ∧ h' !! c = Some (set_re_parent None ec) ∧
       ∀ q, q ≠ c → h' !! q = if decide (Some q = F) then moved F T (D ++ [c]) h q else rb_heap s !! q) s).
  { destruct F as [p|].
    - destruct (HmF p) as (e & He & Hpc & HpD & Hp); [done|]. eapply removeChild_spec; [exact Hp|exact Hc'|done|done|].
      eexists. split; [done|]. split; [by rewrite lookup_insert_ne, lookup_insert_eq|]. intros q Hq.
      destruct (decide (Some q = Some p)) as [[= ->]|Hqp].
      + rewrite lookup_insert_eq. unfold moved. rewrite decide_False by (rewrite HD; naive_solver). rewrite decide_True by done.
        rewrite He. cbn. rewrite filter_notin_snoc. done.
      + rewrite lookup_insert_ne by congruence. by rewrite lookup_insert_ne.
    - wp_step. exists (rb_heap s). split; [by destruct s|]. split; [rewrite Hc'; f_equal; rewrite <- Hpar; by rewrite set_parent_same|].
      intros q _. by rewrite decide_False. }
  unfold moveChild. wp_step. eapply wp_mono; [exact Hstep1|]. clear Hstep1. intros [] s1 (h1 & -> & Hc1 & Hq1).
  destruct T as [p|].
  - destruct (HmT p) as (e & He & Hpc & HpD & HpF & Hp). { done. }
    eapply addChild_spec; [cbn; rewrite Hq1 by done; rewrite decide_False by done; exact Hp|exact Hc1|done|done|].
    eexists. split; [done|]. intros q. cbn. unfold moved. destruct (decide (q = p)) as [->|Hqp].
    + rewrite lookup_insert_eq, decide_False by (rewrite HD; naive_solver). rewrite decide_False by done. rewrite decide_True by done.
      rewrite He. cbn. by rewrite app_assoc.
    + rewrite lookup_insert_ne by done. destruct (decide (q = c)) as [->|Hqc].
      * rewrite lookup_insert_eq, decide_True by (rewrite HD; by right). by rewrite Hc.
      * rewrite lookup_insert_ne by done. rewrite Hq1 by done. unfold moved. destruct (decide (Some q = F)); [done|].
        rewrite Hm. unfold moved. destruct (decide (q ∈ D)) as [H|H], (decide (q ∈ D ++ [c])) as [H'|H']; rewrite HD in H'; try tauto; [].
        destruct (decide (Some q = F)); [done|]. rewrite !decide_False by congruence. done.
  - wp_step. exists h1. split; [done|]. intros q. destruct (decide (q = c)) as [->|Hqc].
    + rewrite Hc1. unfold moved. rewrite decide_True by (rewrite HD; by right). by rewrite Hc.
    + rewrite Hq1 by done. unfold moved. destruct (decide (Some q = F)) as [Hf|Hf]; [done|].
      rewrite Hm. unfold moved. destruct (decide (q ∈ D)) as [H|H], (decide (q ∈ D ++ [c])) as [H'|H']; rewrite HD in H'; try tauto.
      rewrite !decide_False by done. done.
Qed.
Lemma moveChildren_spec F T L s :
  NoDup L → F ≠ T → validPeer L (rb_heap s) F → validPeer L (rb_heap s) T →
  (∀ c, c ∈ L → ∃ ec, rb_heap s !! c = Some ec ∧ re_parent ec = F) →
  wp (forM L (moveChild F T)) (λ _ s', ∃ h', s' = set_rb_heap h' s ∧ isMoved F T L (rb_heap s) h') s.
Proof.
  intros Hnd HFT HF HT HL.
  eapply wp_mono; [apply (wp_forM _ _ (λ l s', ∃ D h', L = D ++ l ∧ s' = set_rb_heap h' s ∧ isMoved F T D (rb_heap s) h'))|].
  - intros c l s1 (D & h1 & -> & -> & Hm). destruct (HL c) as (ec & Hc & Hp). { apply elem_of_app. right. by left. }
    assert (Hsub : ∀ o, validPeer (D ++ c :: l) (rb_heap s) o → validPeer (D ++ [c]) (rb_heap s) o).
    { intros o Ho p Ep. destruct (Ho p Ep) as [? Hn]. split; [done|]. intros Hin. apply Hn. rewrite elem_of_app in *.
      rewrite list_elem_of_singleton in Hin. rewrite elem_of_cons. tauto. }
    eapply wp_mono; [apply (moveChild_spec F T D c ec (rb_heap s)); [done|done| |done|done|by apply Hsub|by apply Hsub]|].
    + intros Hin. apply NoDup_app in Hnd as (_ & Hd & _). eapply Hd; [exact Hin|by left].
    + intros [] s2 (h2 & -> & Hm2). exists (D ++ [c]), h2. split; [by rewrite <- app_assoc|done].
  - exists [], (rb_heap s). split; [done|]. split; [by destruct s|apply isMoved_nil].
  - intros [] s' (D & h' & -> & -> & Hm). exists h'. split; [done|]. by rewrite app_nil_r.
Qed.

Lemma moveMatching_spec F T L s :
  let D := filter (λ c, (rb_heap s !! c) ≫= re_parent = F) L in
  NoDup L → F ≠ T → validPeer L (rb_heap s) F → validPeer L (rb_heap s) T → (∀ c, c ∈ L → is_Some (rb_heap s !! c)) →
  wp (forM L (λ c, ec ← derefEntry c; if decide (re_parent ec = F) then moveChild F T c else mret tt))
    (λ _ s', ∃ h', s' = set_rb_heap h' s ∧ isMoved F T D (rb_heap s) h') s.
Proof.
  intros D Hnd HFT HF HT HL.
  eapply wp_mono; [apply (wp_forM _ _ (λ l s', ∃ L1 h', L = L1 ++ l ∧ s' = set_rb_heap h' s ∧
    isMoved F T (filter (λ c, (rb_heap s !! c) ≫= re_parent = F) L1) (rb_heap s) h'))|].
  - intros c l s1 (L1 & h1 & -> & -> & Hm). destruct (HL c) as [ec Hc]. { apply elem_of_app. right. by left. }
    set (D1 := filter _ L1) in Hm. assert (HcL1 : c ∉ L1).
    { intros Hin. apply NoDup_app in Hnd as (_ & Hd & _). eapply Hd; [exact Hin|by left]. }
    assert (HcD : c ∉ D1) by (intros [_ ?]%list_elem_of_filter; done).
    assert (Hpeer : ∀ o, validPeer (L1 ++ c :: l) (rb_heap s) o → Some c ≠ o ∧ validPeer (D1 ++ [c]) (rb_heap s) o).
    { intros o Ho. split; [intros <-; destruct (Ho c) as [_ []]; [done|]; apply elem_of_app; right; by left|].
      intros p Ep. destruct (Ho p Ep) as [? Hn]. split; [done|]. intros Hin. apply Hn. rewrite elem_of_app, list_elem_of_singleton in Hin.
      rewrite elem_of_app, elem_of_cons. destruct Hin as [[_ ?]%list_elem_of_filter| ->]; tauto. }
    destruct (Hpeer F HF) as [HcF HF'], (Hpeer T HT) as [HcT HT'].
    assert (Hc1 : h1 !! c = Some ec).
    { rewrite Hm. unfold moved. rewrite decide_False by done. rewrite decide_False by done. by rewrite decide_False. }
    unfold derefEntry. do 2 wp_step. wp_step. wp_step; [exact Hc1|].
    destruct (decide (re_parent ec = F)) as [Hp|Hp].
    + eapply wp_mono; [apply (moveChild_spec F T D1 c ec (rb_heap s)); done|]. intros [] s2 (h2 & -> & Hm2).
      exists (L1 ++ [c]), h2. split; [by rewrite <- app_assoc|]. split; [done|].
      rewrite filter_app, filter_cons, Hc. cbn [mbind option_bind]. rewrite decide_True by done. done.
    + wp_step. exists (L1 ++ [c]), h1. split; [by rewrite <- app_assoc|]. split; [done|].
      rewrite filter_app, filter_cons, Hc. cbn [mbind option_bind]. rewrite decide_False by done. by rewrite app_nil_r.
  - exists [], (rb_heap s). split; [done|]. split; [by destruct s|apply isMoved_nil].
  - intros [] s' (L1 & h' & E & -> & Hm). exists h'. split; [done|]. rewrite app_nil_r in E. subst L1. done.
Qed.
End Children.

(** ** The invariant *)

Section Invariant.
Context {N : NdnCxx} {NL : NdnCxxLaws N} {SC : Scheduler}.
Implicit Types (s : Rib) (n m : Name) (p q c : ptr) (e : RibEntry) (r : Route).

Definition entryAt s n : option RibEntry := p ← Rib_find n s; rb_heap s !! p.

(** The routes of a name, its inherited routes and its count of capturing routes. *)
Definition routesAt s n : list Route := default [] (re_routes <$> entryAt s n).
Definition inheritedAt s n : list Route := default [] (re_inheritedRoutes <$> entryAt s n).
Definition captureAt s n : Z := default 0%Z (re_nRoutesWithCaptureSet <$> entryAt s n).

Definition routeKey r : Z * Z := (rt_faceId r, rt_origin r).

Record EntryOk s n p e : Prop := {
  eo_name : re_name e = n;
  eo_routes : re_routes e ≠ [];
  eo_keys : NoDup (routeKey <$> re_routes e);
  eo_parent : re_parent e = findParent n s;
  eo_nodup : NoDup (re_children e);
  eo_children : ∀ c, c ∈ re_children e ↔ ∃ m, Rib_find m s = Some c ∧ findParent m s = Some p;
  eo_faces : ∀ r, r ∈ re_routes e → (rt_faceId r, p) ∈ rb_faceEntries s;
}.

Definition countRoutes s : Z := Z.of_nat (sum_list_with (λ kv, length (routesAt s kv.1)) (rb_rib s)).

Record RibInv s : Prop := {
  ri_sorted : StronglySorted name_lt (rb_rib s);
  ri_ptrs : NoDup (rb_rib s).*2;
  ri_entry : ∀ n p, Rib_find n s = Some p → ∃ e, rb_heap s !! p = Some e ∧ EntryOk s n p e;
  ri_faceEntries : ∀ f p, (f, p) ∈ rb_faceEntries s → is_Some (rb_heap s !! p);
  ri_nItems : rb_nItems s = countRoutes s;
}.

Lemma ri_keys s : RibInv s → NoDup (rb_rib s).*1.
Proof. intros Hs. apply sorted_NoDup, Hs. Qed.

Lemma Rib_find_inj s n m p : RibInv s → Rib_find n s = Some p → Rib_find m s = Some p → n = m.
Proof. intros Hs H1%table_find_Some H2%table_find_Some. eapply NoDup_snd_unique; [apply Hs|exact H1|exact H2]. Qed.

Lemma entryAt_Some s n p e : Rib_find n s = Some p → rb_heap s !! p = Some e → entryAt s n = Some e.
Proof. unfold entryAt. intros ->. done. Qed.

Lemma routesAt_Some s n p e : Rib_find n s = Some p → rb_heap s !! p = Some e → routesAt s n = re_routes e.
Proof. intros H1 H2. unfold routesAt. by rewrite (entryAt_Some s n p e). Qed.

Lemma routesAt_None s n : Rib_find n s = None → routesAt s n = [].
Proof. unfold routesAt, entryAt. by intros ->. Qed.

(** A name is in the table when it has a route. *)
Lemma routesAt_nonempty s n : RibInv s → routesAt s n ≠ [] ↔ is_Some (Rib_find n s).
Proof.
  intros Hs. destruct (Rib_find n s) as [p|] eqn:E.
  - destruct (ri_entry s Hs n p E) as (e & He & Ho). rewrite (routesAt_Some s n p e) by done. split; [eauto|]. intros _. apply Ho.
  - rewrite routesAt_None by done. split; [done|]. by intros [? ?].
Qed.

Lemma sum_list_with_ext {A} (f g : A → nat) l : (∀ x, x ∈ l → f x = g x) → sum_list_with f l = sum_list_with g l.
Proof.
  induction l as [|x l IH]; intros H; cbn; [done|]. rewrite (H x) by (by left). rewrite IH; [done|]. intros y Hy. apply H. by right.
Qed.

Lemma sum_list_with_update (t : list (Name * ptr)) (f g : Name → nat) n p :
  NoDup t.*1 → (n, p) ∈ t → (∀ m, m ≠ n → f m = g m) →
  (sum_list_with (λ kv, f kv.1) t + g n = sum_list_with (λ kv, g kv.1) t + f n)%nat.
Proof.
  intros Hnd Hin Hext. induction t as [|[m q] t IH]; [by apply elem_of_nil in Hin|]. cbn in *. apply NoDup_cons in Hnd as [Hm Hnd].
  apply elem_of_cons in Hin as [[= <- <-]|Hin].
  - rewrite (sum_list_with_ext (λ kv, f kv.1) (λ kv, g kv.1)); [lia|]. intros [m' q'] Hx. cbn. apply Hext. intros ->.
    apply Hm. apply list_elem_of_fmap. by exists (n, q').
  - specialize (IH Hnd Hin). rewrite (Hext m); [lia|]. intros ->. apply Hm. apply list_elem_of_fmap. by exists (n, p).
Qed.

(** Changing the routes of one entry. *)
Lemma update_views s s' n p e e' :
  RibInv s → Rib_find n s = Some p → rb_heap s !! p = Some e → rb_rib s' = rb_rib s → rb_heap s' = <[p := e']> (rb_heap s) →
  (∀ m, entryAt s' m = if decide (m = n) then Some e' else entryAt s m).
Proof.
  intros Hs Hp He Er Eh m. unfold entryAt, Rib_find in *. rewrite Er, Eh. destruct (decide (m = n)) as [->|Hm].
  - rewrite Hp. cbn. by rewrite lookup_insert_eq.
  - destruct (table_find (rb_rib s) m) as [q|] eqn:E; [|done]. cbn. rewrite lookup_insert_ne; [done|]. intros ->.
    apply Hm. by eapply Rib_find_inj.
Qed.

Lemma RibInv_update s s' n p e e' :
  RibInv s → Rib_find n s = Some p → rb_heap s !! p = Some e →
  rb_rib s' = rb_rib s → rb_heap s' = <[p := e']> (rb_heap s) →
  re_name e' = re_name e → re_parent e' = re_parent e → re_children e' = re_children e →
  re_routes e' ≠ [] → NoDup (routeKey <$> re_routes e') →
  (∀ r, r ∈ re_routes e' → (rt_faceId r, p) ∈ rb_faceEntries s') →
  (∀ f q, q ≠ p → (f, q) ∈ rb_faceEntries s ↔ (f, q) ∈ rb_faceEntries s') →
  (rb_nItems s' - rb_nItems s = Z.of_nat (length (re_routes e')) - Z.of_nat (length (re_routes e)))%Z →
  RibInv s'.
Proof.
  intros Hs Hp He Er Eh En Epar Ech Hne Hnd Hf Hfe Hn.
  assert (Hfind : ∀ m, Rib_find m s' = Rib_find m s) by (intros m; unfold Rib_find; by rewrite Er).
  assert (Hpar : ∀ m, findParent m s' = findParent m s) by (intros m; unfold findParent; by rewrite Er).
  pose proof (update_views s s' n p e e' Hs Hp He Er Eh) as Hv.
  split; rewrite ?Er; [apply Hs|apply Hs|..].
  - intros m q Hq. rewrite Hfind in Hq. rewrite Eh. destruct (ri_entry s Hs m q Hq) as (eq & Heq & Ho).
    destruct (decide (q = p)) as [->|Hqp].
    + assert (m = n) as -> by (by eapply Rib_find_inj). rewrite lookup_insert_eq. exists e'. split; [done|].
      rewrite He in Heq. injection Heq as <-. destruct Ho as [H1 H2 H3 H4 H5 H6 H7]. split.
      * by rewrite En.
      * done.
      * done.
      * by rewrite Epar, Hpar.
      * by rewrite Ech.
      * intros c. rewrite Ech, H6. split; intros (m & ? & ?); exists m; by rewrite ?Hfind, ?Hpar in *.
      * done.
    + rewrite lookup_insert_ne by done. exists eq. split; [done|]. destruct Ho as [H1 H2 H3 H4 H5 H6 H7]. split; try done.
      * by rewrite Hpar.
      * intros c. rewrite H6. split; intros (m' & ? & ?); exists m'; by rewrite ?Hfind, ?Hpar in *.
      * intros r Hr. apply Hfe; [done|]. by apply H7.
  - intros f q Hq. rewrite Eh. destruct (decide (q = p)) as [->|Hqp]; [rewrite lookup_insert_eq; eauto|]. rewrite lookup_insert_ne by done.
    eapply ri_faceEntries; [exact Hs|]. by apply Hfe in Hq.
  - unfold countRoutes. rewrite Er. pose proof (ri_nItems s Hs) as Hc. unfold countRoutes in Hc.
    pose proof (sum_list_with_update (rb_rib s) (λ m, length (routesAt s' m)) (λ m, length (routesAt s m)) n p (ri_keys s Hs)) as Hsum.
    cbn beta in Hsum. rewrite (routesAt_Some s n p e) in Hsum by done.
    assert (Hn' : routesAt s' n = re_routes e') by (unfold routesAt; by rewrite Hv, decide_True). rewrite Hn' in Hsum.
    assert (Hsum' := Hsum (table_find_Some _ _ _ Hp)). rewrite Hc in Hn. rewrite <- (Nat2Z.inj_iff) in Hsum'.
    rewrite !Nat2Z.inj_add in Hsum'. enough (∀ m, m ≠ n → length (routesAt s' m) = length (routesAt s m)) as H by (specialize (Hsum' H); lia).
    intros m Hm. unfold routesAt. by rewrite Hv, decide_False.
Qed.
(** ** Lookups in the lists of routes *)

Lemma find_index_Some {A} (P : A → bool) l i : find_index P l = Some i → ∃ x, l !! i = Some x ∧ P x = true.
Proof.
  revert i. induction l as [|y l IH]; intros i; cbn; [done|]. destruct (P y) eqn:E; [intros [= <-]; eauto|].
  destruct (find_index P l) as [j|]; [|done]. intros [= <-]. by apply IH.
Qed.

Lemma find_index_None {A} (P : A → bool) l : find_index P l = None ↔ ∀ x, x ∈ l → P x = false.
Proof.
  induction l as [|y l IH]; cbn; [split; [by intros _ ? ?%elem_of_nil|done]|]. destruct (P y) eqn:E.
  - split; [done|]. intros H. rewrite H in E; [done|by left].
  - destruct (find_index P l) as [j|]; cbn; split; [done| | |done].
    + intros H. enough (Some j = None) by done. apply IH. intros x Hx. apply H. by right.
    + intros _ x [->|Hx]%elem_of_cons; [done|]. by apply IH.
Qed.

Lemma compare_key r r' : compareFaceIdAndOrigin r r' = true ↔ routeKey r = routeKey r'.
Proof. unfold compareFaceIdAndOrigin, routeKey. rewrite andb_true_iff, !Z.eqb_eq. split; [intros [-> ->]; done|by intros [= -> ->]]. Qed.

(** Adding or replacing a route, and removing one. *)
Definition upsert r (l : list Route) : list Route :=
  match find_index (λ r', compareFaceIdAndOrigin r' r) l with Some i => <[i := r]> l | None => l ++ [r] end.
Definition removeKey r (l : list Route) : list Route :=
  match find_index (λ r', compareFaceIdAndOrigin r' r) l with Some i => delete i l | None => l end.

Lemma upsert_keys r l : NoDup (routeKey <$> l) → NoDup (routeKey <$> upsert r l).
Proof.
  intros Hnd. unfold upsert. destruct (find_index _ l) as [i|] eqn:E.
  - apply find_index_Some in E as (x & Hx & Hk%compare_key). rewrite list_fmap_insert, list_insert_id; [done|].
    by rewrite list_lookup_fmap, Hx, <- Hk.
  - pose proof (proj1 (find_index_None _ _) E) as Hn. rewrite fmap_app. apply NoDup_app. split; [done|].
    split; [|apply NoDup_singleton]. intros k (x & -> & Hx)%list_elem_of_fmap Hk%list_elem_of_singleton.
    assert (compareFaceIdAndOrigin x r = true) by (by apply compare_key). by rewrite Hn in H.
Qed.

Lemma upsert_nonempty r l : upsert r l ≠ [].
Proof.
  unfold upsert. destruct (find_index _ l) as [i|] eqn:E; [|by destruct l].
  apply find_index_Some in E as (x & Hx & _). intros H. apply (f_equal length) in H. rewrite length_insert in H.
  apply lookup_lt_Some in Hx. cbn in H. lia.
Qed.

Lemma removeKey_keys r l : NoDup (routeKey <$> l) → NoDup (routeKey <$> removeKey r l).
Proof. intros Hnd. unfold removeKey. destruct (find_index _ l); [|done]. by apply keys_delete_NoDup. Qed.

Lemma faces_emplace_perm f p l : faces_emplace f p l ≡ₚ (f, p) :: l.
Proof. induction l as [|kv l IH]; cbn; [done|]. destruct (f <? kv.1)%Z; [done|]. rewrite IH. apply Permutation_swap. Qed.

Lemma faces_eraseOne_elem f p l g q : (g, q) ∈ faces_eraseOne f p l → (g, q) ∈ l.
Proof.
  induction l as [|kv l IH]; cbn; [done|]. destruct (decide _); [by right|]. rewrite !elem_of_cons. tauto.
Qed.

Lemma faces_eraseOne_other f p l g q : (g, q) ≠ (f, p) → (g, q) ∈ l → (g, q) ∈ faces_eraseOne f p l.
Proof.
  intros Hne. induction l as [|kv l IH]; cbn; [done|]. destruct (decide _) as [->|]; rewrite elem_of_cons; [naive_solver|].
  rewrite elem_of_cons. tauto.
Qed.

(** What the operations on the table leave alone. *)
Definition queueFrame s s' : Prop :=
  rb_updateBatches s' = rb_updateBatches s ∧ rb_isUpdateInProgress s' = rb_isUpdateInProgress s ∧ rb_now s' = rb_now s.

Lemma insertExisting_spec n p r s :
  RibInv s → Rib_find n s = Some p →
  wp (insertExisting p n r) (λ _ s', RibInv s' ∧ queueFrame s s' ∧
    (∀ m, routesAt s' m = if decide (m = n) then upsert r (routesAt s n) else routesAt s m) ∧
    (∀ m, inheritedAt s' m = inheritedAt s m) ∧
    (∀ m, captureAt s' m = if decide (m = n ∧ find_index (λ r', compareFaceIdAndOrigin r' r) (routesAt s n) = None ∧ isRibCapture r = true)
                           then ((captureAt s n + 1) mod 2 ^ 64)%Z else captureAt s m)) s.
Proof.
  intros Hs Hp. destruct (ri_entry s Hs n p Hp) as (e & He & Ho). rewrite (routesAt_Some s n p e) by done.
  unfold insertExisting, derefEntry. do 2 wp_step. wp_step. wp_step; [exact He|]. unfold insertRoute, findRoute.
  destruct (find_index _ (re_routes e)) as [i|] eqn:Ei; wp_step; (eapply updateRibEntry_spec; [exact He|]).
  - pose proof Ei as Hi. apply find_index_Some in Hi as (old & Hold & Hk%compare_key). wp_step. wp_step; [exact Hold|].
    unfold cancelEvent. wp_step. wp_step. eapply updateRibEntry_spec; [cbn; by rewrite lookup_insert_eq|].
    set (e' := set_re_routes _ _ e). set (s' := set_rb_heap _ _).
    assert (Hup : re_routes e' = upsert r (re_routes e)) by (unfold upsert; by rewrite Ei).
    assert (Eh : rb_heap s' = <[p := e']> (rb_heap s)) by (unfold s'; cbn; by rewrite insert_insert_eq).
    pose proof (update_views s s' n p e e' Hs Hp He eq_refl Eh) as Hv.
    split; [|split; [done|split; [|split]]].
    + eapply (RibInv_update s s' n p e e'); try done; rewrite ?Hup.
      * apply upsert_nonempty.
      * by apply upsert_keys, Ho.
      * intros r' (j & Hj)%list_elem_of_lookup. change (rb_faceEntries s') with (rb_faceEntries s).
        rewrite <- Hup in Hj. cbn in Hj. apply list_lookup_insert_Some in Hj as [(-> & -> & Hlt)|[Hne Hj]].
        -- injection Hk as Hf _. rewrite <- Hf. apply Ho. by eapply list_elem_of_lookup_2.
        -- apply Ho. by eapply list_elem_of_lookup_2.
      * cbn. unfold upsert. rewrite Ei, length_insert. lia.
    + intros m. unfold routesAt. rewrite Hv. by destruct (decide (m = n)).
    + intros m. unfold inheritedAt. rewrite Hv. destruct (decide (m = n)) as [->|]; [|done]. by rewrite (entryAt_Some s n p e).
    + intros m. rewrite decide_False by naive_solver. unfold captureAt. rewrite Hv. destruct (decide (m = n)) as [->|]; [|done].
      by rewrite (entryAt_Some s n p e).
  - unfold emitSignal. wp_step. wp_step. wp_step. wp_step. wp_step.
    set (e' := set_re_routes _ _ e). set (s' := set_rb_faceEntries _ _).
    assert (Hup : re_routes e' = upsert r (re_routes e)) by (unfold upsert; by rewrite Ei).
    pose proof (update_views s s' n p e e' Hs Hp He eq_refl eq_refl) as Hv.
    split; [|split; [done|split; [|split]]].
    + eapply (RibInv_update s s' n p e e'); try done; rewrite ?Hup.
      * apply upsert_nonempty.
      * by apply upsert_keys, Ho.
      * intros r' Hr. cbn. rewrite faces_emplace_perm, elem_of_cons. rewrite <- Hup in Hr. cbn in Hr.
        apply elem_of_app in Hr as [Hr| ->%list_elem_of_singleton]; [right; by apply Ho|by left].
      * intros f q Hq. cbn. rewrite faces_emplace_perm, elem_of_cons. naive_solver.
      * cbn. unfold upsert. rewrite Ei, length_app. cbn. lia.
    + intros m. unfold routesAt. rewrite Hv. by destruct (decide (m = n)).
    + intros m. unfold inheritedAt. rewrite Hv. destruct (decide (m = n)) as [->|]; [|done]. by rewrite (entryAt_Some s n p e).
    + intros m. unfold captureAt. rewrite Hv. rewrite (entryAt_Some s n p e) by done. cbn.
      destruct (decide (m = n)) as [->|].
      * rewrite (entryAt_Some s n p e) by done. cbn. destruct (isRibCapture r); [by rewrite decide_True|]. by rewrite decide_False by naive_solver.
      * by rewrite decide_False by naive_solver.
Qed.
(** ** Inserting a new name *)

Lemma take_while_sublist {A} (P : A → bool) (l : list A) : take_while P l `sublist_of` l.
Proof. induction l as [|x l IH]; cbn; [done|]. destruct (P x); [by apply sublist_skip|apply sublist_nil_l]. Qed.

Lemma table_from_sublist (t : list (Name * ptr)) n : table_from t n `sublist_of` t.
Proof. induction t as [|kv t IH]; cbn; [done|]. case_bool_decide; [done|by apply sublist_cons]. Qed.

Lemma findDescendants_spec n x s :
  StronglySorted name_lt (rb_rib s) → NoDup (rb_rib s).*2 → Rib_find n s = Some x →
  NoDup (findDescendants n s) ∧
  ∀ q, q ∈ findDescendants n s ↔ ∃ m, Rib_find m s = Some q ∧ n `prefix_of` m ∧ m ≠ n.
Proof.
  intros Hs Hnd Hx. destruct (table_from_elem _ _ _ Hs Hx) as (rest & E & _). unfold findDescendants. rewrite E. split.
  - eapply sublist_NoDup; [exact Hnd|]. apply sublist_fmap_mono. etrans; [apply take_while_sublist|].
    etrans; [|apply (table_from_sublist _ n)]. rewrite E. by apply sublist_cons.
  - intros q. rewrite (descendants_elem _ _ _ _ _ Hs Hx E). apply exist_proper. intros m. split.
    + intros (Hin & ? & ?). split; [|done]. apply table_find_elem; [by apply sorted_NoDup|done].
    + intros (Hin%table_find_Some & ? & ?). done.
Qed.

(** The heap after the insertion of [n] at [x] with parent [P] and children [D]. *)
Definition insertedHeap s n x P D r cap (h : gmap ptr RibEntry) : Prop :=
  h !! x = Some (mkRibEntry n D P [r] [] cap) ∧
  ∀ q, q ≠ x → h !! q = (λ e, set_re_parent (if decide (q ∈ D) then Some x else re_parent e)
    (set_re_children (if decide (Some q = P) then filter (λ c, c ∉ D) (re_children e) ++ [x] else re_children e) e)) <$> rb_heap s !! q.

Definition insertedChildren s n P D : Prop :=
  NoDup D ∧ ∀ q, q ∈ D ↔ ∃ m, Rib_find m s = Some q ∧ n `prefix_of` m ∧ findParent m s = P.

Lemma inserted_find s s' n x m : RibInv s → Rib_find n s = None → rb_rib s' = table_insert n x (rb_rib s) →
  Rib_find m s' = if decide (m = n) then Some x else Rib_find m s.
Proof. intros Hs Hn E. unfold Rib_find. rewrite E. apply table_insert_find; [by apply table_find_None|by apply ri_keys]. Qed.

Lemma inserted_parent s s' n x : RibInv s → Rib_find n s = None → rb_rib s' = table_insert n x (rb_rib s) →
  findParent n s' = findParent n s ∧
  ∀ m q, Rib_find m s = Some q → findParent m s' =
    if decide (n `prefix_of` m ∧ findParent m s = findParent n s) then Some x else findParent m s.
Proof.
  intros Hs Hn E. unfold findParent. rewrite E. split.
  - apply findParent_from_ext. intros k Hk. rewrite table_insert_find; [|by apply table_find_None|by apply ri_keys].
    rewrite decide_False; [done|]. intros Ek. apply (f_equal length) in Ek. rewrite length_take in Ek. lia.
  - intros m q Hm. apply findParent_insert; [by apply ri_keys|apply Hs|by apply table_find_None|]. by exists q.
Qed.

Lemma findParent_table s m p : findParent m s = Some p → ∃ k, k < length m ∧ Rib_find (take k m) s = Some p.
Proof. intros (k & Hk & Hf & _)%findParent_from_Some. by exists k. Qed.

Lemma fresh_not_parent s n x m : RibInv s → rb_heap s !! x = None → findParent m s ≠ Some x.
Proof. intros Hs Hx (k & _ & Hf)%findParent_table. destruct (ri_entry s Hs _ _ Hf) as (e & He & _). congruence. Qed.

(** Whom the entries have as children afterwards. *)
Lemma inserted_childOf s s' n x D c p :
  RibInv s → Rib_find n s = None → rb_heap s !! x = None → rb_rib s' = table_insert n x (rb_rib s) →
  insertedChildren s n (findParent n s) D →
  (∃ m, Rib_find m s' = Some c ∧ findParent m s' = Some p) ↔
    if decide (p = x) then c ∈ D
    else (c = x ∧ findParent n s = Some p) ∨ ((c ∉ D) ∧ ∃ m, Rib_find m s = Some c ∧ findParent m s = Some p).
Proof.
  intros Hs Hn Hx E [_ HD]. pose proof (inserted_find s s' n x) as Hf. destruct (inserted_parent s s' n x Hs Hn E) as [Hpn Hpm].
  assert (HDm : ∀ m, Rib_find m s = Some c → c ∈ D ↔ n `prefix_of` m ∧ findParent m s = findParent n s).
  { intros m Hm. rewrite HD. split; [|eauto]. intros (m' & Hm' & ?). by assert (m' = m) as -> by (by eapply Rib_find_inj). }
  destruct (decide (p = x)) as [->|Hpx].
  - split.
    + intros (m & Hm & Hp). rewrite Hf in Hm by done. destruct (decide (m = n)) as [->|].
      * exfalso. eapply (fresh_not_parent s n x n); [done|done|]. by rewrite <- Hpn.
      * rewrite (Hpm m c Hm) in Hp. apply (HDm m Hm). destruct (decide _); [done|]. by apply (fresh_not_parent s n x m) in Hp.
    + intros Hc. pose proof (proj1 (HD c) Hc) as (m & Hm & Hcond). exists m. rewrite Hf by done.
      rewrite decide_False by (intros ->; congruence). split; [done|]. rewrite (Hpm m c Hm). by rewrite decide_True.
  - split.
    + intros (m & Hm & Hp). rewrite Hf in Hm by done. destruct (decide (m = n)) as [->|Hmn].
      * injection Hm as <-. left. by rewrite <- Hpn.
      * right. rewrite (Hpm m c Hm) in Hp. destruct (decide _) as [|Hnc]; [congruence|]. split; [by rewrite (HDm m Hm)|eauto].
    + intros [[-> Hp]|(HcD & m & Hm & Hp)].
      * exists n. rewrite Hf, decide_True by done. by rewrite Hpn.
      * exists m. rewrite Hf by done. rewrite decide_False by (intros ->; congruence). split; [done|].
        rewrite (Hpm m c Hm), decide_False; [done|]. by rewrite <- (HDm m Hm).
Qed.
Lemma inserted_entryAt s s' n x D r cap m :
  RibInv s → Rib_find n s = None → rb_rib s' = table_insert n x (rb_rib s) → rb_heap s !! x = None →
  insertedHeap s n x (findParent n s) D r cap (rb_heap s') →
  if decide (m = n) then entryAt s' m = Some (mkRibEntry n D (findParent n s) [r] [] cap)
  else ∃ P' C', entryAt s' m = (λ e, set_re_parent (P' e) (set_re_children (C' e) e)) <$> entryAt s m.
Proof.
  intros Hs Hn E Hx [H1 H2]. unfold entryAt. rewrite (inserted_find s s' n x m) by done. destruct (decide (m = n)) as [->|Hm]; [done|].
  destruct (Rib_find m s) as [q|] eqn:Eq; cbn; [|by exists (λ _, None), (λ _, [])].
  destruct (ri_entry s Hs m q Eq) as (e & He & _). rewrite H2 by (intros ->; congruence). by eexists (λ e, _), (λ e, _).
Qed.

Lemma inserted_inv s s' n x D r cap :
  RibInv s → Rib_find n s = None → rb_heap s !! x = None → rb_rib s' = table_insert n x (rb_rib s) →
  insertedChildren s n (findParent n s) D → insertedHeap s n x (findParent n s) D r cap (rb_heap s') →
  rb_faceEntries s' = faces_emplace (rt_faceId r) x (rb_faceEntries s) → rb_nItems s' = (rb_nItems s + 1)%Z →
  RibInv s'.
Proof.
  intros Hs Hn Hx E HD Hh Ef Ei. pose proof (proj1 (table_find_None _ _) Hn) as Hn'.
  destruct (inserted_parent s s' n x Hs Hn E) as [Hpn Hpm]. pose proof Hh as [Hh1 Hh2].
  assert (Hxt : x ∉ (rb_rib s).*2).
  { intros ([m q] & -> & Hin)%list_elem_of_fmap. cbn in *. apply table_find_elem in Hin; [|by apply ri_keys].
    destruct (ri_entry s Hs m q Hin) as (e & He & _). congruence. }
  split.
  - rewrite E. apply table_insert_sorted; [done|apply Hs].
  - rewrite E, table_insert_perm. cbn. constructor; [done|apply Hs].
  - intros m q Hq. rewrite (inserted_find s s' n x m) in Hq by done. destruct (decide (m = n)) as [->|Hm].
    + injection Hq as <-. eexists. split; [exact Hh1|]. split; cbn; [done|done|apply NoDup_singleton|done|apply HD|..].
      * intros c. rewrite (inserted_childOf s s' n x D c x) by done. by rewrite decide_True.
      * intros r' ->%list_elem_of_singleton. rewrite Ef, faces_emplace_perm. by left.
    + destruct (ri_entry s Hs m q Hq) as (e & He & Ho). assert (Hqx : q ≠ x) by (intros ->; congruence).
      rewrite Hh2, He by done. eexists. split; [done|]. destruct Ho as [O1 O2 O3 O4 O5 O6 O7]. split; cbn; [done|done|done|..].
      * rewrite (Hpm m q Hq). destruct HD as [_ HD]. destruct (decide (q ∈ D)) as [Hin|Hin]; rewrite HD in Hin.
        -- destruct Hin as (m' & Hm' & Hc). assert (m' = m) as -> by (by eapply Rib_find_inj). by rewrite decide_True.
        -- rewrite decide_False; [done|]. intros ?. apply Hin. by exists m.
      * destruct (decide (Some q = findParent n s)); [|done]. apply NoDup_app. split; [by apply NoDup_filter|].
        split; [|apply NoDup_singleton]. intros c [_ Hc]%list_elem_of_filter ->%list_elem_of_singleton.
        apply O6 in Hc as (m' & Hm' & _). apply Hxt. apply list_elem_of_fmap. exists (m', x). split; [done|by apply table_find_Some].
      * intros c. rewrite (inserted_childOf s s' n x D c q) by done. rewrite (decide_False (P := q = x)) by done.
        destruct (decide (Some q = findParent n s)) as [Hq'|Hq'].
        -- rewrite elem_of_app, list_elem_of_filter, list_elem_of_singleton, O6. naive_solver.
        -- rewrite O6. split; [|naive_solver]. intros Hc. right. split; [|done]. destruct Hc as (m' & Hm' & Hp').
           destruct HD as [_ HD]. rewrite HD. intros (m'' & Hm'' & _ & Hp''). assert (m'' = m') as -> by (by eapply Rib_find_inj). congruence.
      * intros r' Hr. rewrite Ef, faces_emplace_perm. right. by apply O7.
  - intros f q. rewrite Ef, faces_emplace_perm, elem_of_cons. intros [[= -> ->]|Hq]; [rewrite Hh1; eauto|].
    destruct (ri_faceEntries s Hs f q Hq) as [e He]. rewrite Hh2 by (intros ->; congruence). rewrite He. cbn. eauto.
  - rewrite Ei, (ri_nItems s Hs). unfold countRoutes. rewrite E, table_insert_perm. cbn.
    assert (Hr : ∀ m, routesAt s' m = if decide (m = n) then [r] else routesAt s m).
    { intros m. pose proof (inserted_entryAt s s' n x D r cap m Hs Hn E Hx Hh) as He. unfold routesAt. destruct (decide (m = n)).
      - by rewrite He.
      - destruct He as (P' & C' & ->). by destruct (entryAt s m). }
    rewrite Hr, decide_True by done. cbn. rewrite (sum_list_with_ext (λ kv, length (routesAt s' kv.1)) (λ kv, length (routesAt s kv.1))).
    + lia.
    + intros [m q] Hin. cbn. rewrite Hr, decide_False; [done|]. intros ->. apply Hn', list_elem_of_fmap. by exists (n, q).
Qed.
(** The entry and its place below the parent, before its children are moved. *)
Definition withChild (o : option ptr) x (h : gmap ptr RibEntry) : gmap ptr RibEntry :=
  match o with
  | Some p => alter (λ e, set_re_children (re_children e ++ [x]) e) p h
  | None => h
  end.

Lemma addChild_option P x ex s (Q : unit → Rib → Prop) :
  rb_heap s !! x = Some ex → re_parent ex = None → (∀ p, P = Some p → is_Some (rb_heap s !! p) ∧ p ≠ x) →
  Q tt (set_rb_heap (withChild P x (<[x := set_re_parent P ex]> (rb_heap s))) s) →
  wp (match P with Some p => addChild p x | None => mret tt end) Q s.
Proof.
  intros Hx Hp HP HQ. destruct P as [p|].
  - destruct (HP p) as [[e He] Hne]; [done|]. eapply addChild_spec; [exact He|exact Hx|done|done|].
    eapply eq_ind; [exact HQ|]. f_equal. f_equal. cbn [withChild]. apply map_eq. intros q. destruct (decide (q = p)) as [->|].
    + rewrite lookup_insert_eq, lookup_alter_eq, lookup_insert_ne by done. by rewrite He.
    + by rewrite lookup_insert_ne, lookup_alter_ne.
  - wp_step. cbn [withChild] in HQ. rewrite <- Hp, set_parent_same, insert_id in HQ by done. by destruct s.
Qed.

Definition newCapture r : Z := if isRibCapture r then 1 else 0.

Lemma parent_entry n s p : RibInv s → findParent n s = Some p →
  ∃ e m, rb_heap s !! p = Some e ∧ Rib_find m s = Some p ∧ length m < length n.
Proof.
  intros Hs Hp. destruct (findParent_table _ _ _ Hp) as (k & Hk & Hf). destruct (ri_entry s Hs _ _ Hf) as (e & He & _).
  exists e, (take k n). split; [done|]. split; [done|]. rewrite length_take. lia.
Qed.

(** The heap once the new entry is a child of its parent. *)
Definition placedHeap s n x r : gmap ptr RibEntry :=
  withChild (findParent n s) x (<[x := mkRibEntry n [] (findParent n s) [r] [] (newCapture r)]> (rb_heap s)).

Lemma placedHeap_lookup s n x r q : RibInv s → rb_heap s !! x = None →
  placedHeap s n x r !! q =
    if decide (q = x) then Some (mkRibEntry n [] (findParent n s) [r] [] (newCapture r))
    else if decide (Some q = findParent n s) then (λ e, set_re_children (re_children e ++ [x]) e) <$> rb_heap s !! q
    else rb_heap s !! q.
Proof.
  intros Hs Hx. unfold placedHeap. destruct (findParent n s) as [p|] eqn:Ep; cbn [withChild].
  - destruct (parent_entry n s p Hs Ep) as (e & m & He & _). destruct (decide (q = x)) as [->|Hq].
    + rewrite lookup_alter_ne by congruence. by rewrite lookup_insert_eq.
    + destruct (decide (Some q = Some p)) as [[= ->]|]; [by rewrite lookup_alter_eq, lookup_insert_ne|].
      rewrite lookup_alter_ne by congruence. by rewrite lookup_insert_ne.
  - destruct (decide (q = x)) as [->|Hq]; [by rewrite lookup_insert_eq|]. by rewrite decide_False, lookup_insert_ne.
Qed.

(** The entries below the new one, in the state [s2] in which it has been placed. *)
Lemma placed_descendants s s2 n x : RibInv s → Rib_find n s = None → rb_heap s !! x = None →
  rb_rib s2 = table_insert n x (rb_rib s) →
  NoDup (findDescendants n s2) ∧
  (∀ m q, Rib_find m s = Some q → n `prefix_of` m → q ∈ findDescendants n s2) ∧
  ∀ q, q ∈ findDescendants n s2 → ∃ e m, rb_heap s !! q = Some e ∧ q ≠ x ∧ Some q ≠ findParent n s ∧
    Rib_find m s = Some q ∧ n `prefix_of` m ∧ EntryOk s m q e.
Proof.
  intros Hs Hn Hx E. destruct (findDescendants_spec n x s2) as [HLnd HL].
  { rewrite E. apply table_insert_sorted; [by apply table_find_None|apply Hs]. }
  { rewrite E, table_insert_perm. cbn. constructor; [|apply Hs].
    intros ([m q] & Eq & Hin)%list_elem_of_fmap. cbn in *. subst q. apply table_find_elem in Hin; [|by apply ri_keys].
    destruct (ri_entry s Hs m x Hin) as (e & He & _). congruence. }
  { by rewrite (inserted_find s s2 n x), decide_True. }
  split; [done|]. split.
  - intros m q Hm Hpre. apply HL. exists m. assert (m ≠ n) by congruence. by rewrite (inserted_find s s2 n x), decide_False.
  - intros q (m & Hm & Hpre & Hne)%HL. rewrite (inserted_find s s2 n x), decide_False in Hm by done.
    destruct (ri_entry s Hs m q Hm) as (e & He & Ho). exists e, m. split; [done|]. split; [congruence|]. split; [|done].
    intros Eq. destruct (parent_entry n s q) as (e' & m' & _ & Hm' & Hlen); [done|done|].
    assert (m' = m) as -> by (by eapply Rib_find_inj). apply prefix_length in Hpre. lia.
Qed.

Lemma placed_children s s2 n x r : RibInv s → Rib_find n s = None → rb_heap s !! x = None →
  rb_rib s2 = table_insert n x (rb_rib s) → rb_heap s2 = placedHeap s n x r →
  insertedChildren s n (findParent n s) (filter (λ c, (rb_heap s2 !! c) ≫= re_parent = findParent n s) (findDescendants n s2)).
Proof.
  intros Hs Hn Hx E Eh. destruct (placed_descendants s s2 n x) as (Hnd & Hin & HL); [done..|]. split; [by apply NoDup_filter|].
  intros q. rewrite list_elem_of_filter, Eh, placedHeap_lookup by done. split.
  - intros [Ep Hq]. destruct (HL q Hq) as (e & m & He & Hqx & HqP & Hm & Hpre & Ho).
    rewrite decide_False, decide_False, He in Ep by done. cbn in Ep. exists m. by rewrite <- (eo_parent _ _ _ _ Ho).
  - intros (m & Hm & Hpre & Hp). specialize (Hin m q Hm Hpre). split; [|done].
    destruct (HL q Hin) as (e & m' & He & Hqx & HqP & Hm' & _ & Ho). assert (m' = m) as -> by (by eapply Rib_find_inj).
    rewrite decide_False, decide_False, He by done. cbn. by rewrite (eo_parent _ _ _ _ Ho).
Qed.

Lemma moved_inserted s n x r D h : RibInv s → rb_heap s !! x = None → insertedChildren s n (findParent n s) D →
  isMoved (findParent n s) (Some x) D (placedHeap s n x r) h → insertedHeap s n x (findParent n s) D r (newCapture r) h.
Proof.
  intros Hs Hx [_ HD] Hm.
  assert (Hq : ∀ q, q ∈ D → is_Some (rb_heap s !! q) ∧ Some q ≠ findParent n s).
  { intros q (m & Hq & Hpre & Hp)%HD. destruct (ri_entry s Hs m q Hq) as (e & He & _). split; [by exists e|]. intros Eq.
    rewrite <- Hp in Eq. symmetry in Eq. destruct (parent_entry m s q) as (e' & m' & _ & Hm' & Hlen); [done|done|].
    assert (m' = m) as -> by (by eapply Rib_find_inj). lia. }
  assert (HxD : x ∉ D) by (intros [[e He] _]%Hq; congruence).
  assert (HxP : Some x ≠ findParent n s) by (intros EP; symmetry in EP; destruct (parent_entry n s x) as (e & m & He & _); [done|done|congruence]).
  split.
  - rewrite Hm. unfold moved. rewrite placedHeap_lookup by done. rewrite decide_False by done. rewrite decide_False by done.
    rewrite decide_True by done. by rewrite decide_True.
  - intros q Hqx. rewrite Hm. unfold moved. rewrite placedHeap_lookup by done. rewrite (decide_False (P := q = x)) by done.
    rewrite (decide_False (P := Some q = Some x)) by congruence. destruct (decide (q ∈ D)) as [HqD|HqD].
    + destruct (Hq q HqD) as [_ HqP]. rewrite !decide_False by done. destruct (rb_heap s !! q) as [e|]; cbn; [|done].
      rewrite decide_False by done. by destruct e.
    + destruct (decide (Some q = findParent n s)) as [HqP|HqP]; destruct (rb_heap s !! q) as [e|]; cbn; [|done| |done].
      * by rewrite filter_app, filter_cons, decide_True.
      * by destruct e.
Qed.

Lemma insertNew_spec n r s :
  RibInv s → Rib_find n s = None →
  wp (insertNew n r) (λ _ s', RibInv s' ∧ queueFrame s s' ∧
    (∀ m, routesAt s' m = if decide (m = n) then [r] else routesAt s m) ∧
    (∀ m, inheritedAt s' m = inheritedAt s m) ∧
    (∀ m, captureAt s' m = if decide (m = n) then newCapture r else captureAt s m)) s.
Proof.
  intros Hs Hn. unfold insertNew. do 2 wp_step. set (x := fresh (dom (rb_heap s))).
  assert (Hx : rb_heap s !! x = None) by (apply not_elem_of_dom, is_fresh).
  do 6 wp_step. wp_step. eapply updateRibEntry_spec; [cbn; by rewrite lookup_insert_eq|]. do 2 wp_step.
  set (ex := (insertRoute r (newRibEntry n)).1.1). assert (Eex : ex = mkRibEntry n [] None [r] [] (newCapture r)).
  { unfold ex, newCapture. cbn. by destruct (isRibCapture r). }
  set (s1 := set_rb_heap _ _).
  assert (Eh1 : rb_heap s1 = <[x := ex]> (rb_heap s)) by (unfold s1; cbn; by rewrite insert_insert_eq).
  assert (EP : findParent n s1 = findParent n s) by (by apply (inserted_parent s s1 n x)). rewrite EP.
  wp_step. eapply (addChild_option _ x ex); [by rewrite Eh1, lookup_insert_eq|by rewrite Eex| |].
  { intros p Hp. destruct (parent_entry n s p Hs Hp) as (e & m & He & _). assert (p ≠ x) by congruence. by rewrite Eh1, lookup_insert_ne. }
  rewrite Eh1, insert_insert_eq, Eex. set (s2 := set_rb_heap (placedHeap s n x r) s1). do 2 wp_step.
  destruct (placed_descendants s s2 n x) as (Hnd & _ & HL); [done..|].
  pose proof (placed_children s s2 n x r Hs Hn Hx eq_refl eq_refl) as HD.
  wp_step. eapply wp_mono; [apply (moveMatching_spec (findParent n s) (Some x) (findDescendants n s2) s2); [done|..]|].
  - intros EPx. destruct (parent_entry n s x) as (e & m & He & _); [done|done|congruence].
  - intros p Hp. destruct (parent_entry n s p Hs Hp) as (e & m & He & _). split; [|by intros (? & ? & _ & _ & ? & _)%HL].
    change (rb_heap s2) with (placedHeap s n x r). rewrite placedHeap_lookup, decide_False, decide_True, He by congruence. by eexists.
  - intros p [= <-]. change (rb_heap s2) with (placedHeap s n x r). rewrite placedHeap_lookup, decide_True by done.
    split; [by eexists|]. by intros (? & ? & _ & ? & _)%HL.
  - intros q (e & m & He & ? & ? & _)%HL. change (rb_heap s2) with (placedHeap s n x r).
    rewrite placedHeap_lookup, decide_False, decide_False, He by done. by eexists.
  - intros [] s3 (h3 & -> & Hm3). set (D := filter _ _) in *. unfold emitSignal. do 3 wp_step. wp_step. wp_step.
    set (s4 := set_rb_signals _ _). pose proof (moved_inserted s n x r D h3 Hs Hx HD Hm3) as Hh.
    assert (Hinv : RibInv s4) by (by eapply (inserted_inv s s4 n x D r)).
    pose proof (λ m, inserted_entryAt s s4 n x D r (newCapture r) m Hs Hn eq_refl Hx Hh) as Hv.
    split; [done|]. split; [done|]. unfold routesAt, inheritedAt, captureAt. split; [|split]; intros m; specialize (Hv m);
      (destruct (decide (m = n)) as [->|]; [rewrite Hv|destruct Hv as (P' & C' & ->); by destruct (entryAt s m)]); [done| |done].
    unfold entryAt. by rewrite Hn.
Qed.

(** [Rib::insert] *)
Lemma Rib_insert_spec n r s :
  RibInv s →
  wp (Rib_insert n r) (λ _ s', RibInv s' ∧ queueFrame s s' ∧
    (∀ m, routesAt s' m = if decide (m = n) then upsert r (routesAt s n) else routesAt s m) ∧
    (∀ m, inheritedAt s' m = inheritedAt s m) ∧
    (∀ m, m ≠ n → captureAt s' m = captureAt s m) ∧
    (isRibCapture r = false → captureAt s' n = captureAt s n)) s.
Proof.
  intros Hs. unfold Rib_insert. do 2 wp_step. destruct (Rib_find n s) as [p|] eqn:Ep.
  - eapply wp_mono; [by apply insertExisting_spec|]. intros [] s' (H1 & H2 & H3 & H4 & H5).
    do 4 (split; [done|]). split; [intros m Hm; rewrite H5, decide_False; [done|]; by intros [? _]|].
    intros Hr. rewrite H5, decide_False; [done|]. intros (_ & _ & ?). congruence.
  - eapply wp_mono; [by apply insertNew_spec|]. intros [] s' (H1 & H2 & H3 & H4 & H5). split; [done|]. split; [done|]. split.
    + intros m. rewrite H3. by rewrite (routesAt_None s n).
    + split; [done|]. split; [intros m Hm; by rewrite H5, decide_False|]. intros Hr. rewrite H5, decide_True by done.
      unfold newCapture, captureAt, entryAt. by rewrite Hr, Ep.
Qed.
(** ** Erasing *)

(** The heap after the erasure of the entry at [x] with parent [P] and children [L]. *)
Definition erasedHeap s x P (L : list ptr) (h : gmap ptr RibEntry) : Prop :=
  is_Some (h !! x) ∧
  ∀ q, q ≠ x → h !! q = (λ e, set_re_parent (if decide (q ∈ L) then P else re_parent e)
    (set_re_children (if decide (Some q = P) then filter (λ c, c ≠ x) (re_children e) ++ L else re_children e) e)) <$> rb_heap s !! q.

Lemma erased_find s s' n m : rb_rib s' = filter (λ kv, kv.1 ≠ n) (rb_rib s) →
  Rib_find m s' = if decide (m = n) then None else Rib_find m s.
Proof. intros E. unfold Rib_find. rewrite E. apply table_remove_find. Qed.

Lemma erased_entryAt s s' n x e L m :
  RibInv s → Rib_find n s = Some x → rb_rib s' = filter (λ kv, kv.1 ≠ n) (rb_rib s) → erasedHeap s x (findParent n s) L (rb_heap s') →
  if decide (m = n) then entryAt s' m = None
  else ∃ P' C', entryAt s' m = (λ e, set_re_parent (P' e) (set_re_children (C' e) e)) <$> entryAt s m.
Proof.
  intros Hs Hn E [_ H2]. unfold entryAt. rewrite (erased_find s s' n m) by done. destruct (decide (m = n)) as [->|Hm]; [done|].
  destruct (Rib_find m s) as [q|] eqn:Eq; cbn; [|by exists (λ _, None), (λ _, [])].
  rewrite H2; [by eexists (λ e, _), (λ e, _)|]. intros ->. apply Hm. by eapply Rib_find_inj.
Qed.

Lemma erased_parent s s' n x m : RibInv s → Rib_find n s = Some x → rb_rib s' = filter (λ kv, kv.1 ≠ n) (rb_rib s) →
  findParent m s' = if decide (findParent m s = Some x) then findParent n s else findParent m s.
Proof. intros Hs Hn E. unfold findParent. rewrite E. apply findParent_remove; [by apply ri_keys|apply Hs|done]. Qed.

Lemma erased_childOf s s' n x e c q :
  RibInv s → Rib_find n s = Some x → EntryOk s n x e → rb_rib s' = filter (λ kv, kv.1 ≠ n) (rb_rib s) →
  (∃ m, Rib_find m s' = Some c ∧ findParent m s' = Some q) ↔
    (c ≠ x ∧ q ≠ x ∧ ∃ m, Rib_find m s = Some c ∧ findParent m s = Some q) ∨ (c ∈ re_children e ∧ findParent n s = Some q).
Proof.
  intros Hs Hn Hox E. pose proof (λ m, erased_find s s' n m E) as Hfind. pose proof (λ m, erased_parent s s' n x m Hs Hn E) as Hpar.
  assert (Hinj : ∀ m, Rib_find m s = Some x → m = n) by (intros m Hm; by eapply Rib_find_inj).
  assert (Hself : findParent n s ≠ Some x).
  { intros Hp. destruct (parent_entry n s x Hs Hp) as (e' & m & _ & Hm & Hlt). rewrite (Hinj _ Hm) in Hlt. lia. }
  rewrite (eo_children _ _ _ _ Hox). split.
  - intros (m & Hm & Hp). rewrite Hfind in Hm. destruct (decide (m = n)) as [|Hne]; [done|]. rewrite Hpar in Hp.
    destruct (decide (findParent m s = Some x)); [right; eauto|]. left. split; [intros ->; by apply Hne, Hinj|]. split; [congruence|eauto].
  - intros [(Hcx & Hqx & m & Hm & Hp)|[(m & Hm & Hp) Hq]]; exists m; rewrite Hfind, Hpar.
    + rewrite decide_False by (intros ->; congruence). by rewrite decide_False by congruence.
    + assert (Hne : m ≠ n) by (by intros ->). rewrite decide_False by done. by rewrite decide_True.
Qed.

Lemma erased_count s s' n x e :
  RibInv s → Rib_find n s = Some x → rb_heap s !! x = Some e → length (re_routes e) = 1 →
  rb_rib s' = filter (λ kv, kv.1 ≠ n) (rb_rib s) → erasedHeap s x (findParent n s) (re_children e) (rb_heap s') →
  (countRoutes s = countRoutes s' + 1)%Z.
Proof.
  intros Hs Hn He Hlen E Hh. unfold countRoutes. rewrite E. pose proof (erased_entryAt s s' n x e (re_children e)) as Hv.
    assert (Hperm : rb_rib s ≡ₚ (n, x) :: filter (λ kv, kv.1 ≠ n) (rb_rib s)).
    { apply NoDup_Permutation; [apply (NoDup_fmap_1 fst), ri_keys, Hs| |].
      - constructor; [by intros [? _]%list_elem_of_filter|]. apply NoDup_filter, (NoDup_fmap_1 fst), ri_keys, Hs.
      - intros [m q]. rewrite elem_of_cons, list_elem_of_filter. cbn. destruct (decide (m = n)) as [->|].
        + split; [|naive_solver by eauto using table_find_Some]. intros Hin. apply table_find_elem in Hin; [|by apply ri_keys].
          left. unfold Rib_find in Hn. congruence.
        + naive_solver. }
    rewrite Hperm at 1. cbn. rewrite (routesAt_Some s n x e), Hlen by done.
    rewrite (sum_list_with_ext (λ kv, length (routesAt s' kv.1)) (λ kv, length (routesAt s kv.1))); [lia|].
    intros [m q] [Hm _]%list_elem_of_filter. cbn in *. specialize (Hv m Hs Hn E Hh). rewrite decide_False in Hv by done.
    destruct Hv as (P' & C' & Hv). unfold routesAt. rewrite Hv. by destruct (entryAt s m).
Qed.

Lemma erased_inv s s' n x e :
  RibInv s → Rib_find n s = Some x → rb_heap s !! x = Some e → length (re_routes e) = 1 →
  rb_rib s' = filter (λ kv, kv.1 ≠ n) (rb_rib s) → erasedHeap s x (findParent n s) (re_children e) (rb_heap s') →
  (∀ f q, q ≠ x → (f, q) ∈ rb_faceEntries s → (f, q) ∈ rb_faceEntries s') → (∀ f q, (f, q) ∈ rb_faceEntries s' → (f, q) ∈ rb_faceEntries s) →
  rb_nItems s' = (rb_nItems s - 1)%Z →
  RibInv s'.
Proof.
  intros Hs Hn He Hlen E Hh Hf1 Hf2 Ei. pose proof (λ m, erased_find s s' n m E) as Hfind.
  pose proof (λ m, erased_parent s s' n x m Hs Hn E) as Hpar. pose proof Hh as [Hh1 Hh2].
  destruct (ri_entry s Hs n x Hn) as (e0 & He0 & Hox). rewrite He in He0. injection He0 as <-.
  assert (Hinj : ∀ m, Rib_find m s = Some x → m = n) by (intros m Hm; by eapply Rib_find_inj).
  split.
  - rewrite E. eapply StronglySorted_sublist; [apply sublist_filter|apply Hs].
  - rewrite E. eapply sublist_NoDup; [apply (ri_ptrs s Hs)|]. apply sublist_fmap_mono, sublist_filter.
  - intros m q Hq. rewrite Hfind in Hq. destruct (decide (m = n)) as [|Hmn]; [done|].
    destruct (ri_entry s Hs m q Hq) as (eq & Heq & Ho). assert (Hqx : q ≠ x) by (intros ->; by apply Hmn, Hinj).
    rewrite Hh2, Heq by done. eexists. split; [done|]. destruct Ho as [O1 O2 O3 O4 O5 O6 O7]. split; cbn; [done|done|done|..].
    + rewrite Hpar, O4. destruct (decide (q ∈ re_children e)) as [Hin|Hin]; rewrite (eo_children _ _ _ _ Hox) in Hin.
      * destruct Hin as (m' & Hm' & Hc). assert (m' = m) as -> by (by eapply Rib_find_inj). by rewrite decide_True.
      * rewrite decide_False; [done|]. intros ?. apply Hin. by exists m.
    + destruct (decide (Some q = findParent n s)); [|done]. apply NoDup_app. split; [by apply NoDup_filter|].
      split; [|apply Hox]. intros c [_ Hc]%list_elem_of_filter Hc'. apply O6 in Hc as (m' & Hm' & Hp').
      apply Hox in Hc' as (m'' & Hm'' & Hp''). assert (m'' = m') as -> by (by eapply Rib_find_inj). congruence.
    + intros c. rewrite (erased_childOf s s' n x e c q) by done.
      destruct (decide (Some q = findParent n s)) as [Hq'|Hq'].
      * rewrite elem_of_app, list_elem_of_filter, O6. naive_solver.
      * rewrite O6. split; [|naive_solver]. intros (m' & Hm' & Hp'). left. split; [|eauto]. intros ->. rewrite (Hinj _ Hm') in Hp'. congruence.
    + intros r Hr. apply Hf1; [done|]. by apply O7.
  - intros f q Hq. destruct (decide (q = x)) as [->|Hqx]; [done|]. destruct (ri_faceEntries s Hs f q) as [eq Heq]; [by apply Hf2|].
    rewrite Hh2, Heq by done. by eexists.
  - rewrite Ei, (ri_nItems s Hs). rewrite (erased_count s s' n x e) by done. lia.
Qed.
Lemma removeChild_option P x e s (Q : unit → Rib → Prop) :
  rb_heap s !! x = Some e → re_parent e = P → (∀ p, P = Some p → is_Some (rb_heap s !! p) ∧ p ≠ x) →
  (∀ h, h !! x = Some (set_re_parent None e) →
    (∀ q, q ≠ x → h !! q = (λ e, set_re_children (if decide (Some q = P) then filter (λ c, c ≠ x) (re_children e) else re_children e) e)
      <$> rb_heap s !! q) → Q tt (set_rb_heap h s)) →
  wp (match P with Some p => removeChild p x | None => mret tt end) Q s.
Proof.
  intros He Hp HP HQ. destruct P as [p|].
  - destruct (HP p) as [[ep Hep] Hne]; [done|]. eapply removeChild_spec; [exact Hep|exact He|done|done|]. apply HQ.
    + by rewrite lookup_insert_ne, lookup_insert_eq.
    + intros q Hq. destruct (decide (Some q = Some p)) as [[= ->]|]; [by rewrite lookup_insert_eq, Hep|].
      rewrite lookup_insert_ne by congruence. rewrite lookup_insert_ne by done.
      destruct (rb_heap s !! q) as [eq|]; cbn; [|done]. by rewrite set_children_same.
  - wp_step. replace s with (set_rb_heap (rb_heap s) s) by (by destruct s). apply HQ.
    + rewrite He, <- Hp. by rewrite set_parent_same.
    + intros q _. destruct (rb_heap s !! q) as [eq|]; cbn; [|done]. by destruct eq.
Qed.

Lemma eraseEntry_spec n x e e' s s1 :
  RibInv s → Rib_find n s = Some x → EntryOk s n x e →
  rb_rib s1 = rb_rib s → rb_heap s1 = <[x := e']> (rb_heap s) → re_parent e' = re_parent e → re_children e' = re_children e →
  wp (eraseEntry n x) (λ _ s', queueFrame s1 s' ∧ rb_rib s' = filter (λ kv, kv.1 ≠ n) (rb_rib s) ∧
    erasedHeap s x (findParent n s) (re_children e) (rb_heap s') ∧ rb_faceEntries s' = rb_faceEntries s1 ∧ rb_nItems s' = rb_nItems s1) s1.
Proof.
  intros Hs Hn Ho Er Eh Ep Ec. unfold eraseEntry, derefEntry. do 2 wp_step. wp_step. wp_step; [by rewrite Eh, lookup_insert_eq|].
  rewrite Ep, Ec, (eo_parent _ _ _ _ Ho). set (P := findParent n s).
  assert (HP : ∀ p, P = Some p → is_Some (rb_heap s1 !! p) ∧ p ≠ x).
  { intros p Hp. destruct (parent_entry n s p Hs Hp) as (ep & m & Hep & Hm & Hlt).
    assert (Hpx : p ≠ x) by (intros ->; assert (m = n) as -> by (by eapply Rib_find_inj); lia). by rewrite Eh, lookup_insert_ne. }
  assert (HL : ∀ c, c ∈ re_children e → ∃ ec, rb_heap s !! c = Some ec ∧ re_parent ec = Some x ∧ c ≠ x ∧ Some c ≠ P).
  { intros c (m & Hm & Hpm)%Ho. destruct (ri_entry s Hs m c Hm) as (ec & Hec & Hoc). exists ec. split; [done|].
    split; [by rewrite (eo_parent _ _ _ _ Hoc)|]. destruct (parent_entry m s x Hs Hpm) as (ex & m' & _ & Hm' & Hlt).
    assert (m' = n) as -> by (by eapply Rib_find_inj). split; [intros ->; assert (m = n) as -> by (by eapply Rib_find_inj); lia|].
    intros EP. symmetry in EP. destruct (parent_entry n s c Hs EP) as (ep & m'' & _ & Hm'' & Hlt'').
    assert (m'' = m) as -> by (by eapply Rib_find_inj). lia. }
  wp_step. eapply (removeChild_option P x e'); [by rewrite Eh, lookup_insert_eq|by rewrite Ep, (eo_parent _ _ _ _ Ho)|done|].
  intros h2 Hx2 Hq2. assert (Hq2' : ∀ q, q ≠ x → h2 !! q = (λ e, set_re_children (if decide (Some q = P) then filter (λ c, c ≠ x) (re_children e)
    else re_children e) e) <$> rb_heap s !! q) by (intros q Hq; rewrite Hq2, Eh by done; by rewrite lookup_insert_ne).
  wp_step. eapply wp_mono; [apply (moveChildren_spec (Some x) P (re_children e) (set_rb_heap h2 s1)); [apply Ho|..]|]; cbn.
  - intros E. destruct (HP x) as [_ ?]; [by symmetry|done].
  - intros p [= <-]. split; [by rewrite Hx2|]. by intros (? & _ & _ & ? & _)%HL.
  - intros p Hp. destruct (HP p Hp) as [[ep Hep] Hpx]. rewrite Eh, lookup_insert_ne in Hep by done. split; [by rewrite Hq2', Hep|].
    intros (ec & _ & _ & _ & ?)%HL. by rewrite Hp in *.
  - intros c (ec & Hec & Hpc & Hcx & HcP)%HL. rewrite Hq2', Hec by done. by eexists.
  - intros [] s3 (h3 & -> & Hm3). unfold emitSignal. do 2 wp_step. wp_step. split; [done|]. cbn. rewrite Er. split; [done|]. split; [|done].
    assert (HxL : x ∉ re_children e) by (by intros (? & _ & _ & ? & _)%HL).
    split.
    + rewrite Hm3. unfold moved. rewrite decide_False by done. rewrite decide_True by done. by rewrite Hx2.
    + intros q Hq. rewrite Hm3. unfold moved. rewrite (decide_False (P := Some q = Some x)) by congruence. rewrite Hq2' by done.
      destruct (decide (q ∈ re_children e)) as [Hin|Hin].
      * destruct (HL q Hin) as (eq & Heq & _ & _ & HqP). rewrite Heq. cbn. by rewrite !(decide_False (P := Some q = P)).
      * destruct (decide (Some q = P)); destruct (rb_heap s !! q) as [eq|]; cbn; [|done| |done]; by destruct eq.
Qed.

(** [Rib::erase] *)
Lemma Rib_erase_spec n r s :
  RibInv s →
  wp (Rib_erase n r) (λ _ s', RibInv s' ∧ queueFrame s s' ∧
    (∀ m, routesAt s' m = if decide (m = n) then removeKey r (routesAt s n) else routesAt s m) ∧
    (∀ m, routesAt s' m ≠ [] → inheritedAt s' m = inheritedAt s m) ∧
    (∀ m, m ≠ n → captureAt s' m = captureAt s m) ∧
    ((∀ r', r' ∈ routesAt s n → isRibCapture r' = false) → routesAt s' n ≠ [] → captureAt s' n = captureAt s n)) s.
Proof.
  intros Hs. unfold Rib_erase. do 2 wp_step. destruct (Rib_find n s) as [x|] eqn:Hn.
  2:{ wp_step. split; [done|]. split; [done|]. rewrite (routesAt_None s n) by done. split; [|done]. intros m.
      destruct (decide (m = n)) as [->|]; [by rewrite routesAt_None|done]. }
  destruct (ri_entry s Hs n x Hn) as (e & He & Ho). rewrite (routesAt_Some s n x e) by done.
  unfold derefEntry. do 2 wp_step. wp_step. wp_step; [exact He|]. unfold findRoute.
  destruct (find_index _ (re_routes e)) as [i|] eqn:Ei.
  2:{ wp_step. split; [done|]. split; [done|]. split; [|done]. intros m. unfold removeKey. rewrite Ei.
      destruct (decide (m = n)) as [->|]; [by rewrite (routesAt_Some s n x e)|done]. }
  pose proof Ei as Hi. apply find_index_Some in Hi as (old & Hold & Hk%compare_key). wp_step. wp_step; [exact Hold|].
  unfold eraseRouteAt. rewrite Hold. unfold emitSignal, cancelEvent. do 2 wp_step. do 2 wp_step. wp_step. eapply updateRibEntry_spec; [exact He|].
  set (cap := if isRibCapture old then _ else _). set (e' := set_re_routes _ _ e). do 2 wp_step.
  assert (Hrem : re_routes e' = removeKey r (re_routes e)) by (unfold removeKey; by rewrite Ei).
  assert (Hlen : S (length (re_routes e')) = length (re_routes e)).
  { cbn. rewrite length_delete by (by eexists). apply lookup_lt_Some in Hold. lia. }
  set (s1 := set_rb_nItems _ _). wp_step.
  set (fe := if hasFaceId e' (rt_faceId r) then rb_faceEntries s else faces_eraseOne (rt_faceId r) x (rb_faceEntries s)).
  apply wp_mono with (Q := λ _ s', s' = set_rb_faceEntries fe s1).
  { unfold fe. destruct (hasFaceId e' (rt_faceId r)); by wp_step. }
  intros [] s2 ->.
  assert (Hfe1 : ∀ f q, q ≠ x → (f, q) ∈ rb_faceEntries s ↔ (f, q) ∈ fe).
  { intros f q Hq. unfold fe. destruct (hasFaceId e' _); [done|]. split; [|apply faces_eraseOne_elem]. apply faces_eraseOne_other. congruence. }
  assert (Hcapt : (∀ r', r' ∈ re_routes e → isRibCapture r' = false) → cap = re_nRoutesWithCaptureSet e).
  { intros Hall. unfold cap. rewrite Hall; [done|]. by eapply list_elem_of_lookup_2. }
  destruct (decide (re_routes e' = [])) as [Hemp|Hemp].
  - eapply wp_mono; [by apply (eraseEntry_spec n x e e' s)|]. intros [] s' (Hq & Er & Hh & Ef & Ei').
    pose proof (λ m, erased_entryAt s s' n x e _ m Hs Hn Er Hh) as Hv.
    assert (Hr : ∀ m, routesAt s' m = if decide (m = n) then removeKey r (re_routes e) else routesAt s m).
    { intros m. specialize (Hv m). unfold routesAt. destruct (decide (m = n)) as [->|].
      - rewrite Hv. cbn. by rewrite <- Hrem, Hemp.
      - destruct Hv as (P' & C' & ->). by destruct (entryAt s m). }
    split; [|split; [done|split; [done|split; [|split]]]].
    + apply (erased_inv s s' n x e); try done.
      * rewrite Hemp in Hlen. by cbn in Hlen.
      * intros f q Hq' Hin. rewrite Ef. cbn. by apply Hfe1.
      * intros f q. rewrite Ef. cbn. unfold fe. destruct (hasFaceId e' _); [done|]. apply faces_eraseOne_elem.
    + intros m Hm. rewrite Hr in Hm. specialize (Hv m). destruct (decide (m = n)); [by rewrite <- Hrem in Hm|].
      destruct Hv as (P' & C' & Hv). unfold inheritedAt. rewrite Hv. by destruct (entryAt s m).
    + intros m Hm. specialize (Hv m). rewrite decide_False in Hv by done. destruct Hv as (P' & C' & Hv). unfold captureAt. rewrite Hv.
      by destruct (entryAt s m).
    + intros _ Hm. rewrite Hr, decide_True in Hm by done. by rewrite <- Hrem in Hm.
  - wp_step. set (s2 := set_rb_faceEntries fe s1). pose proof (update_views s s2 n x e e' Hs Hn He eq_refl eq_refl) as Hv.
    split; [|split; [done|split; [|split; [|split]]]].
    + apply (RibInv_update s s2 n x e e'); try done.
      * rewrite Hrem. by apply removeKey_keys, Ho.
      * intros r' Hr'. cbn. assert (Hin : (rt_faceId r', x) ∈ rb_faceEntries s).
        { apply Ho. cbn in Hr'. eapply sublist_subseteq; [apply sublist_delete|done]. }
        unfold fe. destruct (hasFaceId e' (rt_faceId r)) eqn:Ehas; [done|]. apply faces_eraseOne_other; [|done]. intros [= Ef].
        assert (hasFaceId e' (rt_faceId r) = true); [|congruence]. apply existsb_exists. exists r'. split; [by apply list_elem_of_In|].
        by apply Z.eqb_eq.
      * change (rb_nItems s2) with (rb_nItems s - 1)%Z. lia.
    + intros m. unfold routesAt. rewrite Hv. destruct (decide (m = n)); [done|done].
    + intros m _. unfold inheritedAt. rewrite Hv. destruct (decide (m = n)) as [->|]; [|done]. by rewrite (entryAt_Some s n x e).
    + intros m Hm. unfold captureAt. by rewrite Hv, decide_False.
    + intros Hall _. unfold captureAt. rewrite Hv, decide_True, (entryAt_Some s n x e) by done. cbn. by apply Hcapt.
Qed.
End Invariant.
