(* ===== verification/RibAncestors.v ===== *)
(** * The routes a name inherits

    [Rib::getAncestorRoutes] follows the parent pointers; here it is shown equal
    to a reference definition over the prefixes of the name: on every face, the
    route of the nearest ancestor that has a route with the child-inherit flag
    there, not looking beyond an ancestor that captures. *)

From Stdlib Require Import ZArith Lia.
From stdpp Require Import base gmap option list sorting fin_maps.
From S2P Require Import Prelude Scheduler Ndn FibEntry Rib RibSpecs.

Section Ancestors.
Context {N : NdnCxx} {NL : NdnCxxLaws N} {SC : Scheduler}.
Implicit Types (s : Rib) (n m : Name) (p q c : ptr) (e : RibEntry) (r : Route) (f : Z).

(** The first route with the child-inherit flag on a face. *)
Definition firstOn f (routes : list Route) : option Route :=
  find (λ r, (rt_faceId r =? f)%Z && isChildInherit r) routes.

(** The reference: among the prefixes of [n] of length less than [k]. *)
Fixpoint nearestRoute s n (k : nat) f : option Route :=
  match k with
  | 0 => None
  | S k =>
      match firstOn f (routesAt s (take k n)) with
      | Some r => Some r
      | None => if (0 <? captureAt s (take k n))%Z then None else nearestRoute s n k f
      end
  end.

(** ** Sets of routes *)

Definition setLookup f (l : list Route) : option Route := find (λ r, rt_faceId r =? f)%Z l.

Definition face_lt r r' : Prop := (rt_faceId r < rt_faceId r')%Z.

Lemma setLookup_Some f l r : setLookup f l = Some r → r ∈ l ∧ rt_faceId r = f.
Proof. intros [H1 H2]%find_some. rewrite Z.eqb_eq in H2. by rewrite list_elem_of_In. Qed.

Lemma setLookup_None f l : setLookup f l = None ↔ f ∉ rt_faceId <$> l.
Proof.
  unfold setLookup. induction l as [|r l IH]; cbn; [split; [by intros _ ?%elem_of_nil|done]|]. rewrite not_elem_of_cons.
  destruct (Z.eqb_spec (rt_faceId r) f); [naive_solver|]. rewrite IH. naive_solver.
Qed.

Lemma setLookup_lt f l r : StronglySorted face_lt (r :: l) → (f ≤ rt_faceId r)%Z → setLookup f l = None.
Proof.
  intros Hs Hle. inversion Hs as [|? ? _ Hall]; subst. apply setLookup_None. intros (r' & -> & Hin)%list_elem_of_fmap.
  eapply Forall_forall in Hall; [|exact Hin]. unfold face_lt in Hall. lia.
Qed.

Lemma set_insert_elem r l r' : r' ∈ set_insert r l → r' = r ∨ r' ∈ l.
Proof.
  induction l as [|x l IH]; cbn; [rewrite list_elem_of_singleton; tauto|]. destruct (_ <? _)%Z; [rewrite elem_of_cons; tauto|].
  destruct (_ <? _)%Z; rewrite ?elem_of_cons; tauto.
Qed.

Lemma set_insert_sorted r l : StronglySorted face_lt l → StronglySorted face_lt (set_insert r l).
Proof.
  induction 1 as [|x l Hs IH Hall]; cbn; [by repeat constructor|]. destruct (Z.ltb_spec (rt_faceId r) (rt_faceId x)).
  - constructor; [by constructor|]. constructor; [done|]. eapply Forall_impl; [exact Hall|]. unfold face_lt. lia.
  - destruct (Z.ltb_spec (rt_faceId x) (rt_faceId r)); [|by constructor]. constructor; [done|].
    apply Forall_forall. intros y [->|Hy]%set_insert_elem; [done|]. by eapply Forall_forall in Hall.
Qed.

Lemma set_insert_lookup r l f : StronglySorted face_lt l →
  setLookup f (set_insert r l) = match setLookup f l with Some r' => Some r' | None => if (rt_faceId r =? f)%Z then Some r else None end.
Proof.
  induction 1 as [|x l Hs IH Hall]; unfold setLookup in *; cbn; [done|]. assert (Hs' : StronglySorted face_lt (x :: l)) by (by constructor).
  destruct (Z.ltb_spec (rt_faceId r) (rt_faceId x)); cbn.
  - destruct (Z.eqb_spec (rt_faceId r) f) as [<-|].
    + destruct (Z.eqb_spec (rt_faceId x) (rt_faceId r)); [lia|]. pose proof (setLookup_lt (rt_faceId r) l x Hs') as E. unfold setLookup in E. rewrite E by lia. done.
    + destruct (Z.eqb_spec (rt_faceId x) f); [done|]. by destruct (find _ l).
  - destruct (Z.ltb_spec (rt_faceId x) (rt_faceId r)); cbn.
    + destruct (Z.eqb_spec (rt_faceId x) f); [done|]. apply IH.
    + destruct (Z.eqb_spec (rt_faceId x) f); [done|]. destruct (find _ l); [done|]. destruct (Z.eqb_spec (rt_faceId r) f); [lia|done].
Qed.

Lemma inheritFrom_spec e acc : StronglySorted face_lt acc →
  StronglySorted face_lt (inheritFrom e acc) ∧
  ∀ f, setLookup f (inheritFrom e acc) = match setLookup f acc with Some r => Some r | None => firstOn f (re_routes e) end.
Proof.
  unfold inheritFrom. generalize (re_routes e). intros l. revert acc. induction l as [|r l IH]; intros acc Hacc; cbn [foldl].
  - split; [done|]. intros f. by destruct (setLookup f acc).
  - unfold firstOn. cbn [find]. destruct (isChildInherit r) eqn:Ei.
    + destruct (IH (set_insert r acc)) as [H1 H2]; [by apply set_insert_sorted|]. split; [done|]. intros f.
      rewrite H2, set_insert_lookup by done. destruct (setLookup f acc); [done|]. rewrite andb_true_r. by destruct (rt_faceId r =? f)%Z.
    + destruct (IH acc Hacc) as [H1 H2]. split; [done|]. intros f. rewrite H2, andb_false_r. done.
Qed.

(** ** Fuel: the entries among the prefixes *)

Definition prefixEntries s n (k : nat) : list nat := filter (λ j, is_Some (Rib_find (take j n) s)) (seq 0 k).

Lemma prefixEntries_lt s n j k p : j < k → Rib_find (take j n) s = Some p → length (prefixEntries s n j) < length (prefixEntries s n k).
Proof.
  intros Hjk Hp. unfold prefixEntries. replace k with (j + S (k - S j)) by lia. rewrite seq_app, filter_app, length_app. cbn [seq].
  rewrite filter_cons, decide_True by (by exists p). cbn. lia.
Qed.

Lemma NoDup_subset_size (h : gmap ptr RibEntry) (l : list ptr) : NoDup l → (∀ p, p ∈ l → is_Some (h !! p)) → length l ≤ size h.
Proof.
  intros Hnd Hl. rewrite <- (size_dom (D := gset ptr)). rewrite <- (size_list_to_set (C := gset ptr) l) by done.
  apply subseteq_size. intros p Hp. apply elem_of_dom, Hl. by apply elem_of_list_to_set in Hp.
Qed.

Lemma prefixEntries_size s n k : RibInv s → k ≤ length n → length (prefixEntries s n k) ≤ size (rb_heap s).
Proof.
  intros Hs Hk. set (l := prefixEntries s n k).
  set (ptrs := omap (λ j, Rib_find (take j n) s) l).
  assert (Hlen : length ptrs = length l).
  { unfold ptrs, l, prefixEntries. generalize (seq 0 k). intros l0. induction l0 as [|j l0 IH]; [done|]. rewrite filter_cons.
    destruct (decide (is_Some _)) as [[p Hp]|]; [|done]. cbn. rewrite Hp. cbn. by rewrite IH. }
  rewrite <- Hlen. apply NoDup_subset_size.
  - unfold ptrs, l, prefixEntries. clear -Hs Hk. assert (Hall : Forall (λ j, j < length n) (seq 0 k)) by (apply Forall_seq; lia).
    pose proof (NoDup_seq 0 k) as Hnd. revert Hall Hnd. generalize (seq 0 k). intros l0. induction l0 as [|j l0 IH]; intros Hall Hnd; [constructor|].
    apply NoDup_cons in Hnd as [Hj Hnd]. apply Forall_cons in Hall as [Hjn Hall]. rewrite filter_cons. destruct (decide _) as [[p Hp]|]; [|by apply IH].
    cbn. rewrite Hp. constructor; [|by apply IH]. intros (i & [_ Hi]%list_elem_of_filter & Hip)%list_elem_of_omap.
    assert (E : take j n = take i n) by (by eapply Rib_find_inj). apply (f_equal length) in E. rewrite !length_take in E.
    eapply Forall_forall in Hall; [|exact Hi]. assert (i = j) by lia. by subst.
  - intros p (j & _ & Hp)%list_elem_of_omap. destruct (ri_entry s Hs _ _ Hp) as (e & He & _). by exists e.
Qed.

(** ** The loop *)

Lemma nearestRoute_parent s n k f : RibInv s → findParent_from (rb_rib s) n k = None → nearestRoute s n k f = None.
Proof.
  intros Hs. induction k as [|k IH]; [done|]. cbn. fold (Rib_find (take k n) s). destruct (Rib_find (take k n) s) eqn:E; [done|].
  intros H. rewrite routesAt_None by done. unfold captureAt, entryAt. rewrite E. cbn. by apply IH.
Qed.

Lemma nearestRoute_skip s n k p f : RibInv s → findParent_from (rb_rib s) n k = Some p →
  ∃ j, j < k ∧ Rib_find (take j n) s = Some p ∧ nearestRoute s n k f = nearestRoute s n (S j) f.
Proof.
  intros Hs. induction k as [|k IH]; [done|]. cbn [findParent_from nearestRoute]. fold (Rib_find (take k n) s).
  destruct (Rib_find (take k n) s) as [q|] eqn:E; [intros [= ->]; exists k; split; [lia|done]|].
  intros (j & Hj & Hp & En)%IH. exists j. split; [lia|]. split; [done|]. rewrite routesAt_None by done.
  unfold captureAt, entryAt. rewrite E. cbn [mbind option_bind fmap option_fmap option_map default firstOn find]. exact En.
Qed.

Lemma ancestors_loop_spec s n fuel k acc :
  RibInv s → k ≤ length n → length (prefixEntries s n k) ≤ fuel → StronglySorted face_lt acc →
  ∃ l, ancestors_loop fuel (rb_heap s) (findParent_from (rb_rib s) n k) acc = Some l ∧ StronglySorted face_lt l ∧
    ∀ f, setLookup f l = match setLookup f acc with Some r => Some r | None => nearestRoute s n k f end.
Proof.
  intros Hs. revert k acc. induction fuel as [|fuel IH]; intros k acc Hk Hfuel Hacc.
  - destruct (findParent_from (rb_rib s) n k) as [p|] eqn:Ep; cbn.
    + exfalso. apply findParent_from_Some in Ep as (j & Hj & Hp & _). pose proof (prefixEntries_lt s n j k p Hj Hp). lia.
    + exists acc. split; [done|]. split; [done|]. intros f. rewrite nearestRoute_parent by done. by destruct (setLookup f acc).
  - destruct (findParent_from (rb_rib s) n k) as [p|] eqn:Ep; cbn.
    + pose proof Ep as Ep'. apply (findParent_from_Some) in Ep' as (j & Hj & Hp & _).
      destruct (ri_entry s Hs _ _ Hp) as (e & He & Ho). rewrite He. cbn.
      assert (Hn : ∀ f, nearestRoute s n k f = nearestRoute s n (S j) f).
      { intros f. destruct (nearestRoute_skip s n k p f Hs Ep) as (j' & Hj' & Hp' & ->).
        assert (E : take j' n = take j n) by (by eapply Rib_find_inj). apply (f_equal length) in E. rewrite !length_take in E. do 2 f_equal. lia. }
      destruct (inheritFrom_spec e acc Hacc) as [Hs1 Hl1].
      assert (Hroutes : routesAt s (take j n) = re_routes e) by (by eapply routesAt_Some).
      assert (Hcap : captureAt s (take j n) = re_nRoutesWithCaptureSet e) by (unfold captureAt; by rewrite (entryAt_Some s _ p e)).
      unfold hasCapture. destruct (0 <? re_nRoutesWithCaptureSet e)%Z eqn:Ec.
      * exists (inheritFrom e acc). split; [done|]. split; [done|]. intros f. rewrite Hl1, Hn. cbn. rewrite Hroutes, Hcap, Ec.
        destruct (setLookup f acc); [done|]. by destruct (firstOn f (re_routes e)).
      * rewrite (eo_parent _ _ _ _ Ho). unfold findParent. rewrite length_take, Nat.min_l by lia.
        assert (Eq : findParent_from (rb_rib s) (take j n) j = findParent_from (rb_rib s) n j).
        { clear. assert (H : ∀ i, i ≤ j → findParent_from (rb_rib s) (take j n) i = findParent_from (rb_rib s) n i); [|by apply H].
          induction i as [|i IHi]; intros Hi; [done|]. cbn. rewrite take_take, Nat.min_l, IHi by lia. done. }
        rewrite Eq. destruct (IH j (inheritFrom e acc)) as (l & Hl & Hls & Hlook); [lia| |done|].
        { pose proof (prefixEntries_lt s n j k p Hj Hp). lia. }
        exists l. split; [done|]. split; [done|]. intros f. rewrite Hlook, Hl1, Hn. cbn. rewrite Hroutes, Hcap, Ec.
        destruct (setLookup f acc); [done|]. by destruct (firstOn f (re_routes e)).
    + exists acc. split; [done|]. split; [done|]. intros f. rewrite nearestRoute_parent by done. by destruct (setLookup f acc).
Qed.

(** Both overloads. *)
Lemma getAncestorRoutes_spec s n : RibInv s →
  ∃ l, getAncestorRoutes_name n s = Some l ∧ (∀ e, re_parent e = findParent n s → getAncestorRoutes_entry e s = Some l) ∧
    StronglySorted face_lt l ∧ ∀ f, setLookup f l = nearestRoute s n (length n) f.
Proof.
  intros Hs. destruct (ancestors_loop_spec s n (S (size (rb_heap s))) (length n) []) as (l & Hl & Hls & Hlook); [done|done| |constructor|].
  { pose proof (prefixEntries_size s n (length n) Hs). lia. }
  exists l. split; [done|]. split; [|done]. intros e He. unfold getAncestorRoutes_entry. by rewrite He.
Qed.
End Ancestors.
