(* ===== verification/FibUpdaterSpecs.v ===== *)
(** * What the FIB updates of a RIB update achieve

    [updOf] and [logOf] read the pending update of a name and face, and the last
    recorded change of its inherited routes, from the state of the [FibUpdater].
    With routes that all have the child-inherit flag only and one origin per face
    ([Plain]), the FIB that the RIB stands for is [ideal]: a name of the RIB gets,
    on every face, the cost of the route of its nearest prefix.  What
    [modifyChildrensInheritedRoutes] changes below a name is given in closed form by
    [subU] and [subL]. *)

From Stdlib Require Import ZArith Lia.
From stdpp Require Import base gmap option list sorting fin_maps.
From S2P Require Import Prelude Scheduler Ndn FibEntry Rib FibUpdater RibSpecs RibAncestors.

(** ** The state of the updater as functions *)

Section Views.
Context {N : NdnCxx}.
Implicit Types (n m : Name) (f : Z) (u : FibUpdater).

Definition updateKey (x : FibUpdate) : Name * Z := (fu_name x, fu_faceId x).

Definition lookupUpdate n f (l : list FibUpdate) : option (FibUpdateAction * Z) :=
  (λ x, (fu_action x, fu_cost x)) <$> find (λ x, bool_decide (updateKey x = (n, f))) l.

Definition updOf u n f : option (FibUpdateAction * Z) :=
  lookupUpdate n f (if (f =? up_batchFaceId u)%Z then up_updatesForBatchFaceId u else up_updatesForNonBatchFaceId u).

Record UpdOk u : Prop := {
  uo_batch : NoDup (updateKey <$> up_updatesForBatchFaceId u);
  uo_nonBatch : NoDup (updateKey <$> up_updatesForNonBatchFaceId u);
  uo_batchFace : ∀ x, x ∈ up_updatesForBatchFaceId u → fu_faceId x = up_batchFaceId u;
  uo_nonBatchFace : ∀ x, x ∈ up_updatesForNonBatchFaceId u → fu_faceId x ≠ up_batchFaceId u;
}.

(** The last change of the inherited route of a name on a face. *)
Definition logOf (l : list RibUpdate) n f : option bool :=
  foldl (λ acc x, if bool_decide (ru_name x = n ∧ rt_faceId (ru_route x) = f) then Some (bool_decide (ru_action x = REGISTER)) else acc) None l.

Lemma logOf_snoc l x n f :
  logOf (l ++ [x]) n f = if decide (ru_name x = n ∧ rt_faceId (ru_route x) = f) then Some (bool_decide (ru_action x = REGISTER)) else logOf l n f.
Proof. unfold logOf. rewrite foldl_app. cbn. case_bool_decide as H; [by rewrite decide_True|by rewrite decide_False]. Qed.

Lemma replaceUpdate_keys (x : FibUpdate) l : updateKey <$> replaceUpdate x l =
  if decide (updateKey x ∈ updateKey <$> l) then updateKey <$> l else (updateKey <$> l) ++ [updateKey x].
Proof.
  induction l as [|y l IH]; cbn; [done|]. destruct (decide (fu_name x = fu_name y ∧ fu_faceId x = fu_faceId y)) as [[E1 E2]|Hne].
  - rewrite decide_True; [done|]. apply elem_of_cons. left. unfold updateKey. by rewrite E1, E2.
  - cbn. rewrite IH. destruct (decide (updateKey x ∈ updateKey <$> l)); [rewrite decide_True by (by right); done|].
    rewrite decide_False; [done|]. rewrite not_elem_of_cons. split; [|done]. unfold updateKey. intros [=]. by apply Hne.
Qed.

Lemma replaceUpdate_lookup (x : FibUpdate) l n f :
  lookupUpdate n f (replaceUpdate x l) = if decide ((n, f) = updateKey x) then Some (fu_action x, fu_cost x) else lookupUpdate n f l.
Proof.
  unfold lookupUpdate. induction l as [|y l IH]; cbn.
  - case_bool_decide as H; cbn; [by rewrite decide_True|]. rewrite decide_False; [done|]. congruence.
  - destruct (decide (fu_name x = fu_name y ∧ fu_faceId x = fu_faceId y)) as [[E1 E2]|Hne]; cbn.
    + assert (Ek : updateKey (mkFibUpdate (fu_name y) (fu_faceId y) (fu_cost x) (fu_action x)) = updateKey x) by (unfold updateKey; cbn; congruence).
      assert (Ek' : updateKey y = updateKey x) by (unfold updateKey; congruence). rewrite Ek, Ek'.
      case_bool_decide as H; cbn; [by rewrite decide_True|]. rewrite decide_False; [done|congruence].
    + case_bool_decide as H; cbn; [|done]. rewrite decide_False; [done|]. rewrite <- H. unfold updateKey. intros [=]. by apply Hne.
Qed.

Lemma replaceUpdate_elem (x : FibUpdate) l (y : FibUpdate) : y ∈ replaceUpdate x l → updateKey y = updateKey x ∨ y ∈ l.
Proof.
  induction l as [|z l IH]; cbn; [intros ->%list_elem_of_singleton; by left|].
  destruct (decide _) as [[E1 E2]|]; rewrite !elem_of_cons; [|tauto]. intros [->|]; [|tauto]. left. unfold updateKey. cbn. congruence.
Qed.

Lemma replaceUpdate_NoDup (x : FibUpdate) l : NoDup (updateKey <$> l) → NoDup (updateKey <$> replaceUpdate x l).
Proof.
  intros Hnd. rewrite replaceUpdate_keys. destruct (decide _); [done|]. apply NoDup_app. split; [done|]. split; [|apply NoDup_singleton].
  intros k Hk ->%list_elem_of_singleton. done.
Qed.

Lemma addFibUpdate_spec (x : FibUpdate) u : UpdOk u →
  wp (addFibUpdate x) (λ _ u', UpdOk u' ∧ up_batchFaceId u' = up_batchFaceId u ∧ up_inheritedRoutes u' = up_inheritedRoutes u ∧
    ∀ n f, updOf u' n f = if decide ((n, f) = updateKey x) then Some (fu_action x, fu_cost x) else updOf u n f) u.
Proof.
  intros [H1 H2 H3 H4]. unfold addFibUpdate. wp_step. destruct (Z.eqb_spec (fu_faceId x) (up_batchFaceId u)) as [E|E].
  - split; [split; cbn; [by apply replaceUpdate_NoDup|done| |done]|].
    + intros y [[= _ ->]|Hy]%replaceUpdate_elem; [done|by apply H3].
    + split; [done|]. split; [done|]. intros n f. unfold updOf. cbn. destruct (Z.eqb_spec f (up_batchFaceId u)) as [->|Hf].
      * apply replaceUpdate_lookup.
      * rewrite decide_False; [done|]. unfold updateKey. congruence.
  - split; [split; cbn; [done|by apply replaceUpdate_NoDup|done|]|].
    + intros y [[= _ ->]|Hy]%replaceUpdate_elem; [done|by apply H4].
    + split; [done|]. split; [done|]. intros n f. unfold updOf. cbn. destruct (Z.eqb_spec f (up_batchFaceId u)) as [->|Hf].
      * rewrite decide_False; [done|]. unfold updateKey. congruence.
      * apply replaceUpdate_lookup.
Qed.

(** A change of the updater: pending updates [U] and inherited routes [L]. *)
Definition changed u u' (U : Name → Z → option (FibUpdateAction * Z)) (L : Name → Z → option bool) : Prop :=
  UpdOk u' ∧ up_batchFaceId u' = up_batchFaceId u ∧
  (∀ n f, updOf u' n f = match U n f with Some x => Some x | None => updOf u n f end) ∧
  (∀ n f, logOf (up_inheritedRoutes u') n f = match L n f with Some b => Some b | None => logOf (up_inheritedRoutes u) n f end) ∧
  (∀ x, x ∈ up_inheritedRoutes u' → x ∈ up_inheritedRoutes u ∨ (is_Some (L (ru_name x) (rt_faceId (ru_route x))) ∧ ru_action x ≠ REMOVE_FACE)).

Definition noChange {A} : Name → Z → option A := λ _ _, None.
Definition oneChange {A} n f (x : A) : Name → Z → option A := λ m g, if decide ((m, g) = (n, f)) then Some x else None.
(** [G] after [F] *)
Definition override {A} (F G : Name → Z → option A) : Name → Z → option A :=
  λ n f, match G n f with Some x => Some x | None => F n f end.

Lemma changed_refl u : UpdOk u → changed u u noChange noChange.
Proof. intros Hu. split; [done|]. split; [done|]. split; [done|]. split; [done|]. by left. Qed.

Lemma changed_trans u1 u2 u3 U L U' L' : changed u1 u2 U L → changed u2 u3 U' L' → changed u1 u3 (override U U') (override L L').
Proof.
  intros (H1 & H2 & H3 & H4 & H5) (K1 & K2 & K3 & K4 & K5). split; [done|]. split; [congruence|]. unfold override. split; [|split].
  - intros n f. rewrite K3, H3. by destruct (U' n f).
  - intros n f. rewrite K4, H4. by destruct (L' n f).
  - intros x [Hx|[Hx Ha]]%K5; [apply H5 in Hx as [?|[Hx Ha]]; [by left|]|]; right; (split; [|done]); [destruct (L' _ _); [by eexists|done]|].
    destruct Hx as [b ->]. by eexists.
Qed.

Lemma changed_ext u u' U L U' L' : changed u u' U L → (∀ n f, U n f = U' n f) → (∀ n f, L n f = L' n f) → changed u u' U' L'.
Proof.
  intros (H1 & H2 & H3 & H4 & H5) HU HL. split; [done|]. split; [done|]. split; [|split].
  - intros n f. by rewrite <- HU.
  - intros n f. by rewrite <- HL.
  - intros x. rewrite <- HL. apply H5.
Qed.

(** Triples over the updater that only say what changes. *)
Definition changes {A} (c : M FibUpdater A) (a : A) U L : Prop := ∀ u, UpdOk u → wp c (λ a' u', a' = a ∧ changed u u' U L) u.

Lemma changes_ret {A} (a : A) : changes (mret a) a noChange noChange.
Proof. intros u Hu. wp_step. split; [done|by apply changed_refl]. Qed.

Lemma changes_bind {A B} (c : M FibUpdater A) (k : A → M FibUpdater B) a b U L U' L' :
  changes c a U L → changes (k a) b U' L' → changes (c ≫= k) b (override U U') (override L L').
Proof.
  intros Hc Hk u Hu. wp_step. eapply wp_mono; [by apply Hc|]. intros a' u1 [-> H1]. eapply wp_mono; [apply Hk, H1|].
  intros b' u2 [-> H2]. split; [done|]. by eapply changed_trans.
Qed.

Lemma changes_ext {A} (c : M FibUpdater A) a U L U' L' :
  changes c a U L → (∀ n f, U n f = U' n f) → (∀ n f, L n f = L' n f) → changes c a U' L'.
Proof. intros Hc HU HL u Hu. eapply wp_mono; [by apply Hc|]. intros a' u' [-> H]. split; [done|]. by eapply changed_ext. Qed.

Lemma changes_update (x : FibUpdate) : changes (addFibUpdate x) tt (oneChange (fu_name x) (fu_faceId x) (fu_action x, fu_cost x)) noChange.
Proof.
  intros u Hu. eapply wp_mono; [by apply addFibUpdate_spec|]. intros [] u' (H1 & H2 & H3 & H4). split; [done|]. split; [done|]. split; [done|].
  split; [|split; rewrite H3; [done|by left]]. intros n f. rewrite H4. unfold oneChange, updateKey. by destruct (decide _).
Qed.

Lemma changes_log (b : bool) n r : changes (if b then addInheritedRoute n r else removeInheritedRoute n r) tt noChange (oneChange n (rt_faceId r) b).
Proof.
  intros u Hu. assert (H : ∀ x : RibUpdate, ru_name x = n → ru_route x = r → bool_decide (ru_action x = REGISTER) = b → ru_action x ≠ REMOVE_FACE →
    changed u (set_up_inherited (up_inheritedRoutes u ++ [x]) u) noChange (oneChange n (rt_faceId r) b)).
  { intros x En Er Eb Ea. split; [by destruct Hu|]. split; [done|]. split; [done|]. split; cbn [up_inheritedRoutes set_up_inherited].
    - intros m f. rewrite logOf_snoc, En, Er, Eb. unfold oneChange. destruct (decide ((m, f) = (n, rt_faceId r))) as [E|Hne]; [injection E as -> ->; by rewrite decide_True|].
      rewrite decide_False; [done|]. intros [E1 E2]. apply Hne. congruence.
    - intros y [?| ->%list_elem_of_singleton]%elem_of_app; [by left|right]. unfold oneChange. rewrite En, Er, decide_True by done. by split; [eexists|]. }
  destruct b; unfold addInheritedRoute, removeInheritedRoute; wp_step; (split; [done|by apply H]).
Qed.
End Views.

(** ** The FIB that a RIB stands for *)

Section Ideal.
Context {N : NdnCxx} {NL : NdnCxxLaws N}.
Implicit Types (R : Name → list Route) (n m : Name) (f : Z) (r : Route).

Definition hasOn f (l : list Route) : bool := existsb (λ r, rt_faceId r =? f)%Z l.

(** The route on [f] of the longest prefix of [n] shorter than [k]. *)
Fixpoint nearest R n (k : nat) f : option Route :=
  match k with
  | 0 => None
  | S k => match setLookup f (R (take k n)) with Some r => Some r | None => nearest R n k f end
  end.

Definition ideal R n f : option Z :=
  if decide (R n = []) then None else rt_cost <$> nearest R n (S (length n)) f.

(** No entry below [n0] down to [m] has a route on [f]. *)
Definition clear R n0 m f : bool := forallb (λ k, negb (hasOn f (R (take k m)))) (seq (S (length n0)) (length m - length n0)).
Definition below n0 m : bool := bool_decide (n0 `prefix_of` m ∧ n0 ≠ m).
Definition affected R n0 m f : bool := bool_decide (R m ≠ []) && below n0 m && clear R n0 m f.

Lemma hasOn_lookup f l : hasOn f l = bool_decide (is_Some (setLookup f l)).
Proof.
  unfold hasOn, setLookup. induction l as [|r l IH]; cbn; [done|]. destruct (rt_faceId r =? f)%Z; [|done]. by rewrite bool_decide_eq_true_2.
Qed.

Lemma hasOn_false f l : hasOn f l = false ↔ setLookup f l = None.
Proof. rewrite hasOn_lookup, bool_decide_eq_false, <- eq_None_not_Some. done. Qed.

Lemma hasOn_true f l : hasOn f l = true ↔ is_Some (setLookup f l).
Proof. by rewrite hasOn_lookup, bool_decide_eq_true. Qed.

Lemma clear_spec R n0 m f : clear R n0 m f = true ↔ ∀ k, length n0 < k ≤ length m → setLookup f (R (take k m)) = None.
Proof.
  unfold clear. rewrite forallb_forall. split.
  - intros H k Hk. apply hasOn_false. apply negb_true_iff. apply H. apply in_seq. lia.
  - intros H k Hk%in_seq. apply negb_true_iff, hasOn_false. apply H. lia.
Qed.

Lemma below_spec n0 m : below n0 m = true ↔ n0 = take (length n0) m ∧ length n0 < length m.
Proof.
  unfold below. rewrite bool_decide_eq_true. split.
  - intros [Hp Hne]. split; [by apply prefix_take|]. pose proof (prefix_length _ _ Hp). destruct (decide (length n0 = length m)) as [E|]; [|lia].
    exfalso. apply Hne. rewrite (prefix_take _ _ Hp), E. by apply take_ge.
  - intros [E Hlt]. split; [rewrite E; apply take_prefix|]. intros ->. lia.
Qed.

Lemma nearest_agree R R' n k f : (∀ j, j < k → setLookup f (R (take j n)) = setLookup f (R' (take j n))) → nearest R n k f = nearest R' n k f.
Proof. induction k as [|k IH]; intros H; cbn; [done|]. rewrite (H k) by lia. rewrite IH; [done|]. intros j Hj. apply H. lia. Qed.

Lemma nearest_take R n j k f : k ≤ S j → nearest R (take j n) k f = nearest R n k f.
Proof. induction k as [|k IH]; intros Hk; cbn; [done|]. rewrite take_take, Nat.min_l by lia. rewrite IH by lia. done. Qed.

Lemma nearest_clear R n0 m f : n0 = take (length n0) m → length n0 ≤ length m → clear R n0 m f = true →
  nearest R m (S (length m)) f = nearest R n0 (S (length n0)) f.
Proof.
  intros E Hle Hc. rewrite E at 1. rewrite nearest_take by lia. pose proof (proj1 (clear_spec R n0 m f) Hc) as Hc'. clear Hc.
  assert (H : ∀ d, length n0 + d ≤ length m → nearest R m (S (length n0 + d)) f = nearest R m (S (length n0)) f).
  { induction d as [|d IH]; intros Hd; [by rewrite Nat.add_0_r|]. rewrite <- IH by lia. cbn [nearest].
    rewrite Hc' by lia. replace (length n0 + S d) with (S (length n0 + d)) by lia. done. }
  specialize (H (length m - length n0)). rewrite <- H by lia. f_equal. lia.
Qed.

Lemma nearest_blocked R R' n0 m f : clear R n0 m f = false → (∀ k, length n0 < k ≤ length m → R (take k m) = R' (take k m)) →
  nearest R m (S (length m)) f = nearest R' m (S (length m)) f.
Proof.
  intros Hc Hag. assert (H : ∃ k, length n0 < k ≤ length m ∧ is_Some (setLookup f (R (take k m)))).
  { unfold clear in Hc. apply not_true_iff_false in Hc. rewrite forallb_forall in Hc.
    destruct (decide (Exists (λ k, is_Some (setLookup f (R (take k m)))) (seq (S (length n0)) (length m - length n0)))) as [He|He].
    - apply Exists_exists in He as (k & Hk & Hs). apply elem_of_seq in Hk. exists k. split; [lia|done].
    - exfalso. apply Hc. intros k Hk%list_elem_of_In. apply negb_true_iff, hasOn_false, eq_None_not_Some. intros Hs. apply He, Exists_exists. eauto. }
  destruct H as (k & Hk & Hs). clear Hc.
  assert (H : ∀ j, k ≤ j ≤ length m → nearest R m (S j) f = nearest R' m (S j) f).
  { induction j as [|j IH]; intros Hj.
    - assert (k = 0) as -> by lia. lia.
    - cbn [nearest]. rewrite <- (Hag (S j)) by lia. destruct (setLookup f (R (take (S j) m))) eqn:E; [done|].
      destruct (decide (k = S j)) as [->|]; [rewrite E in Hs; by destruct Hs|]. apply IH. lia. }
  apply H. lia.
Qed.

(** When only the routes of [n0] change. *)
Definition changedAt n0 R R' : Prop := ∀ m, m ≠ n0 → R' m = R m.

Lemma ideal_elsewhere R R' n0 m f : changedAt n0 R R' → m ≠ n0 → below n0 m = false → ideal R' m f = ideal R m f.
Proof.
  intros Hch Hm Hb. unfold ideal. rewrite Hch by done. destruct (decide (R m = [])); [done|]. f_equal. apply nearest_agree.
  intros j Hj. rewrite Hch; [done|]. intros E. destruct (decide (j = length m)) as [->|]; [by rewrite take_ge in E|].
  assert (below n0 m = true); [|congruence]. apply below_spec. rewrite <- E, length_take, Nat.min_l by lia. split; [done|lia].
Qed.

Lemma ideal_blocked R R' n0 m f : changedAt n0 R R' → below n0 m = true → clear R n0 m f = false → ideal R' m f = ideal R m f.
Proof.
  intros Hch [E Hlt]%below_spec Hc. unfold ideal. rewrite Hch by (intros ->; lia). destruct (decide (R m = [])); [done|]. f_equal. symmetry.
  apply (nearest_blocked R R' n0); [done|]. intros k Hk. rewrite Hch; [done|]. intros Ek. apply (f_equal length) in Ek. rewrite length_take in Ek. lia.
Qed.

Lemma ideal_affected R R' n0 m f : changedAt n0 R R' → affected R n0 m f = true → ideal R' m f = rt_cost <$> nearest R' n0 (S (length n0)) f.
Proof.
  intros Hch [[Hm Hb]%andb_true_iff Hc]%andb_true_iff. apply bool_decide_eq_true in Hm. apply below_spec in Hb as [E Hlt].
  unfold ideal. rewrite Hch by (intros ->; lia). rewrite decide_False by done. f_equal. apply nearest_clear; [done|lia|].
  rewrite clear_spec in *. intros k Hk. rewrite Hch; [by apply Hc|]. intros Ek. apply (f_equal length) in Ek. rewrite length_take in Ek. lia.
Qed.

Lemma changedAt_refl n0 R : changedAt n0 R R.
Proof. done. Qed.
End Ideal.

(** ** Traversing a subtree *)

Section Loops.
Context {N : NdnCxx} {NL : NdnCxxLaws N} {SC : Scheduler}.
Implicit Types (n m : Name) (f : Z) (r : Route) (e : RibEntry) (c : ptr).

Lemma changes_if {A} (b : bool) (x y : M FibUpdater A) a U L U' L' :
  (b = true → changes x a U L) → (b = false → changes y a U' L') →
  changes (if b then x else y) a (if b then U else U') (if b then L else L').
Proof. destruct b; auto. Qed.

Lemma hasInheritedRoute_hasOn e r : hasInheritedRoute e r = hasOn (rt_faceId r) (re_inheritedRoutes e).
Proof.
  unfold hasInheritedRoute, findInheritedRoute, hasOn. generalize (re_inheritedRoutes e). intros l. induction l as [|x l IH]; [done|].
  cbn [find_index existsb]. destruct (rt_faceId x =? rt_faceId r)%Z; [done|]. cbn [orb]. rewrite <- IH. apply bool_decide_ext. by rewrite fmap_is_Some.
Qed.

(** All routes of the entry have the child-inherit flag. *)
Definition inheritOnly e : Prop := ∀ r, r ∈ re_routes e → isChildInherit r = true.

Lemma hasChildInherit_hasOn e f : inheritOnly e → hasChildInheritOnFaceId e f = hasOn f (re_routes e).
Proof.
  unfold inheritOnly, hasChildInheritOnFaceId, hasOn. induction (re_routes e) as [|r l IH]; intros H; cbn; [done|].
  rewrite (H r) by (by left). rewrite andb_true_r, IH; [done|]. intros x Hx. apply H. by right.
Qed.

Definition keptRoutes e (l : list Route) : list Route := filter (λ r, hasOn (rt_faceId r) (re_routes e) = false) l.

Definition removes e (l : list Route) m f : bool :=
  bool_decide (m = re_name e) && negb (hasOn f (re_routes e)) && hasOn f l && hasOn f (re_inheritedRoutes e).

Lemma removes_cons e r l m f :
  removes e (r :: l) m f = (if hasOn (rt_faceId r) (re_routes e) then false
    else if decide ((m, f) = (re_name e, rt_faceId r)) then hasOn (rt_faceId r) (re_inheritedRoutes e) else false) || removes e l m f.
Proof.
  unfold removes. cbn [hasOn existsb]. change (existsb (λ r, (rt_faceId r =? f)%Z) l) with (hasOn f l).
  destruct (Z.eqb_spec (rt_faceId r) f) as [<-|Hf].
  - destruct (bool_decide_reflect (m = re_name e)) as [->|Hm].
    + rewrite decide_True by done. destruct (hasOn (rt_faceId r) (re_routes e)), (hasOn (rt_faceId r) (re_inheritedRoutes e)), (hasOn (rt_faceId r) l); done.
    + rewrite decide_False by congruence. by destruct (hasOn (rt_faceId r) (re_routes e)).
  - rewrite decide_False by congruence. by destruct (hasOn (rt_faceId r) (re_routes e)).
Qed.

Lemma removeLoop_spec e l : inheritOnly e →
  changes (removeLoop e l) (keptRoutes e l)
    (λ m f, if removes e l m f then Some (REMOVE_NEXTHOP, 0%Z) else None) (λ m f, if removes e l m f then Some false else None).
Proof.
  intros He. induction l as [|r l IH]; cbn [removeLoop].
  - eapply changes_ext; [apply changes_ret|..]; intros m f; unfold removes; cbn; by rewrite andb_false_r.
  - unfold keptRoutes. rewrite filter_cons, hasChildInherit_hasOn by done. fold (keptRoutes e l).
    destruct (hasOn (rt_faceId r) (re_routes e)) eqn:Eo.
    + rewrite decide_False by done. eapply changes_ext; [exact IH|..]; intros m f; by rewrite removes_cons, Eo.
    + rewrite decide_True by done. rewrite hasInheritedRoute_hasOn. set (b := hasOn (rt_faceId r) (re_inheritedRoutes e)).
      assert (Hhead : changes (if b then removeInheritedRoute (re_name e) r;; addFibUpdate (createRemoveUpdate (re_name e) (rt_faceId r))
                               else mret tt) tt
        (λ m f, if b then oneChange (re_name e) (rt_faceId r) (REMOVE_NEXTHOP, 0%Z) m f else None)
        (λ m f, if b then oneChange (re_name e) (rt_faceId r) false m f else None)).
      { destruct b; [|apply changes_ret].
        eapply changes_ext; [eapply changes_bind; [apply (changes_log false)|apply changes_update]|..]; intros m f; unfold override, noChange; cbn;
          [by destruct (oneChange _ _ _ m f)|done]. }
      eapply changes_ext; [eapply changes_bind; [exact Hhead|]; eapply changes_bind; [exact IH|apply changes_ret]|..]; intros m f;
        unfold override, noChange, oneChange; rewrite removes_cons, Eo; fold b;
        destruct (decide ((m, f) = (re_name e, rt_faceId r))), b, (removes e l m f); done.
Qed.

(** What [addLoop] adds to an entry. *)
Definition addsTo e (l : list Route) m f : option Route :=
  if bool_decide (m = re_name e) && negb (hasOn f (re_routes e)) then setLookup f l else None.

Definition addChange (o : option Route) : option (FibUpdateAction * Z) := (λ r, (ADD_NEXTHOP, rt_cost r)) <$> o.
Definition addLog (o : option Route) : option bool := (λ _, true) <$> o.

Lemma addInherited_spec n r :
  changes (addInheritedRoute n r;; addFibUpdate (createAddUpdate n (rt_faceId r) (rt_cost r))) tt
    (oneChange n (rt_faceId r) (ADD_NEXTHOP, rt_cost r)) (oneChange n (rt_faceId r) true).
Proof.
  eapply changes_ext; [eapply changes_bind; [apply (changes_log true)|apply changes_update]|..]; intros m f; unfold override, noChange; cbn;
    [by destruct (oneChange _ _ _ m f)|done].
Qed.

Lemma addLoop_spec e l : inheritOnly e → NoDup (rt_faceId <$> l) →
  changes (addLoop e l) (keptRoutes e l) (λ m f, addChange (addsTo e l m f)) (λ m f, addLog (addsTo e l m f)).
Proof.
  intros He. induction l as [|r l IH]; intros Hnd; cbn [addLoop].
  - eapply changes_ext; [apply changes_ret|..]; intros m f; unfold addsTo; cbn; by destruct (_ && _).
  - cbn in Hnd. apply NoDup_cons in Hnd as [Hr Hnd]. specialize (IH Hnd). apply setLookup_None in Hr.
    unfold keptRoutes. rewrite filter_cons, hasChildInherit_hasOn by done. fold (keptRoutes e l).
    change (hasFaceId e (rt_faceId r)) with (hasOn (rt_faceId r) (re_routes e)).
    assert (Hcons : ∀ m f, addsTo e (r :: l) m f = if hasOn (rt_faceId r) (re_routes e) then addsTo e l m f
                      else if decide ((m, f) = (re_name e, rt_faceId r)) then Some r else addsTo e l m f).
    { intros m f. unfold addsTo, setLookup. cbn [find]. destruct (Z.eqb_spec (rt_faceId r) f) as [<-|Hf].
      - unfold setLookup in Hr. rewrite Hr. destruct (hasOn (rt_faceId r) (re_routes e)); [by rewrite andb_false_r|]. rewrite andb_true_r.
        case_bool_decide; [subst; by rewrite decide_True|]. by rewrite decide_False by congruence.
      - rewrite decide_False by congruence. by destruct (hasOn (rt_faceId r) (re_routes e)). }
    destruct (hasOn (rt_faceId r) (re_routes e)) eqn:Eo.
    + rewrite decide_False by done. eapply changes_ext; [exact IH|..]; intros m f; by rewrite Hcons.
    + rewrite decide_True by done.
      eapply changes_ext; [eapply changes_bind; [apply addInherited_spec|]; eapply changes_bind; [exact IH|apply changes_ret]|..]; intros m f;
        rewrite Hcons; unfold override, noChange, oneChange; destruct (decide _) as [E|E]; try (by destruct (addsTo e l m f));
        injection E as -> ->; unfold addsTo; rewrite Hr; by destruct (_ && _).
Qed.

Lemma changes_forM (l : list ptr) (body : ptr → M FibUpdater unit) (P : ptr → Name → bool) U L :
  (∀ c, c ∈ l → changes (body c) tt (λ m f, if P c m then U m f else None) (λ m f, if P c m then L m f else None)) →
  changes (forM l body) tt (λ m f, if existsb (λ c, P c m) l then U m f else None) (λ m f, if existsb (λ c, P c m) l then L m f else None).
Proof.
  induction l as [|c l IH]; intros H; cbn [forM existsb]; [apply changes_ret|].
  eapply changes_ext; [eapply changes_bind; [apply H; by left|apply IH; intros c' Hc'; apply H; by right]|..]; intros m f; unfold override;
    destruct (P c m), (existsb _ l); cbn; try done; [by destruct (U m f)| |by destruct (L m f)|].
  all: by destruct (U m f), (L m f).
Qed.
End Loops.

Section Traverse.
Context {N : NdnCxx} {NL : NdnCxxLaws N} {SC : Scheduler} {NE : NthElement} (originOf : Z → Z).
Implicit Types (s : Rib) (n m : Name) (f : Z) (r : Route) (e : RibEntry) (c : ptr).

(** The flags are child-inherit only, and a face has routes of one origin. *)
Definition plain r : Prop := rt_flags r = ROUTE_FLAG_CHILD_INHERIT ∧ rt_origin r = originOf (rt_faceId r).

Record Plain s : Prop := {
  pl_routes : ∀ n r, r ∈ routesAt s n → plain r;
  pl_capture : ∀ n, captureAt s n = 0%Z;
}.

Lemma plain_inherit r : plain r → isChildInherit r = true ∧ isRibCapture r = false.
Proof. intros [E _]. unfold isChildInherit, isRibCapture. by rewrite E. Qed.

Lemma Plain_entry s n p e : RibInv s → Plain s → Rib_find n s = Some p → rb_heap s !! p = Some e → inheritOnly e ∧ hasCapture e = false.
Proof.
  intros Hs Hp Hn He. split.
  - intros r Hr. apply plain_inherit. eapply pl_routes; [done|]. by rewrite (routesAt_Some s n p e).
  - unfold hasCapture. pose proof (pl_capture s Hp n) as Hc. unfold captureAt in Hc. rewrite (entryAt_Some s n p e) in Hc by done. cbn in Hc. by rewrite Hc.
Qed.

Lemma nearestRoute_plain s n k f : Plain s → nearestRoute s n k f = nearest (routesAt s) n k f.
Proof.
  intros Hp. induction k as [|k IH]; cbn; [done|]. rewrite (pl_capture s Hp). rewrite IH.
  assert (E : firstOn f (routesAt s (take k n)) = setLookup f (routesAt s (take k n))); [|by rewrite E].
  pose proof (pl_routes s Hp (take k n)) as Hr. induction (routesAt s (take k n)) as [|r l IHl]; [done|]. unfold firstOn, setLookup in *. cbn.
  destruct (plain_inherit r) as [-> _]; [apply Hr; by left|]. rewrite andb_true_r, IHl; [done|]. intros x Hx. apply Hr. by right.
Qed.

Definition inh s m f : bool := hasOn f (inheritedAt s m).

(** The changes below [n0] when the routes [A] are added to and [D] removed from what
    its descendants inherit. *)
Definition inheritU s (A D : list Route) m f : option (FibUpdateAction * Z) :=
  match setLookup f A with
  | Some r => Some (ADD_NEXTHOP, rt_cost r)
  | None => if hasOn f D && inh s m f then Some (REMOVE_NEXTHOP, 0%Z) else None
  end.
Definition inheritL s (A D : list Route) m f : option bool :=
  match setLookup f A with
  | Some r => Some true
  | None => if hasOn f D && inh s m f then Some false else None
  end.
Definition subU s n0 A D m f := if affected (routesAt s) n0 m f then inheritU s A D m f else None.
Definition subL s n0 A D m f := if affected (routesAt s) n0 m f then inheritL s A D m f else None.

(** [cn] is directly below [n0]. *)
Definition directlyBelow s n0 n : Prop := below n0 n = true ∧ ∀ k, length n0 < k < length n → Rib_find (take k n) s = None.

Definition childPrefix s c m : bool := match rb_heap s !! c with Some e => isPrefixOf (re_name e) m | None => false end.

Lemma childPrefix_spec s c n m : RibInv s → Rib_find n s = Some c → childPrefix s c m = isPrefixOf n m.
Proof. intros Hs Hc. destruct (ri_entry s Hs n c Hc) as (e & He & Ho). unfold childPrefix. by rewrite He, (eo_name _ _ _ _ Ho). Qed.

Lemma findParent_directlyBelow s n m p : RibInv s → Rib_find n s = Some p → findParent m s = Some p ↔ directlyBelow s n m.
Proof.
  intros Hs Hn. unfold findParent. split.
  - intros (k & Hk & Hf & Hz)%findParent_from_Some. assert (take k m = n) as <- by (by eapply Rib_find_inj).
    split; [apply below_spec|]; rewrite length_take, Nat.min_l by lia; [done|exact Hz].
  - intros [[E Hlt]%below_spec Hz]. apply (findParent_from_intro _ _ _ (length n)); [done|by rewrite <- E|exact Hz].
Qed.

(** The first entry below [n] on the way to [m]. *)
Lemma topmost_below s n m : RibInv s → routesAt s m ≠ [] → below n m = true →
  ∃ k c, length n < k ≤ length m ∧ Rib_find (take k m) s = Some c ∧ directlyBelow s n (take k m).
Proof.
  intros Hs [q Hq]%routesAt_nonempty [E Hlt]%below_spec; [|done].
  assert (Hex : ∃ k c, length n < k ≤ length m ∧ Rib_find (take k m) s = Some c).
  { exists (length m), q. split; [lia|]. by rewrite take_ge. }
  destruct Hex as (k & c & Hk & Hc). revert c Hk Hc. induction (lt_wf k) as [k _ IH]. intros c Hk Hc.
  destruct (decide (Forall (λ j, Rib_find (take j m) s = None) (seq (S (length n)) (k - S (length n))))) as [Hall|Hall].
  - exists k, c. split; [done|]. split; [done|]. split; [apply below_spec; rewrite take_take, length_take, !Nat.min_l by lia; split; [done|lia]|].
    rewrite length_take, Nat.min_l by lia. intros j Hj. rewrite take_take, Nat.min_l by lia. rewrite Forall_seq in Hall. apply Hall. lia.
  - apply not_Forall_Exists, Exists_exists in Hall; [|apply _]. destruct Hall as (j & [Hj1 Hj2]%elem_of_seq & Hj).
    destruct (Rib_find (take j m) s) as [c'|] eqn:Ec; [|done]. apply (IH j) with (c := c'); [lia|lia|done].
Qed.

(** Every entry below [n] is below one of its children. *)
Lemma children_cover s n p e m : RibInv s → Rib_find n s = Some p → rb_heap s !! p = Some e →
  routesAt s m ≠ [] → below n m = true → existsb (λ c, childPrefix s c m) (re_children e) = true.
Proof.
  intros Hs Hn He Hm Hb. destruct (ri_entry s Hs n p Hn) as (e' & He' & Ho). rewrite He in He'. injection He' as <-.
  destruct (topmost_below s n m) as (k & c & Hk & Hc & Hd); [done..|]. apply existsb_exists. exists c. split.
  - apply list_elem_of_In. apply Ho. exists (take k m). split; [done|]. by apply (findParent_directlyBelow s n).
  - rewrite (childPrefix_spec s c (take k m)) by done. unfold isPrefixOf. apply bool_decide_eq_true. apply take_prefix.
Qed.

Definition countBelow s n : nat := length (filter (λ kv, isPrefixOf n kv.1 = true) (rb_rib s)).

Lemma countBelow_lt s n m p : RibInv s → Rib_find n s = Some p → below n m = true → countBelow s m < countBelow s n.
Proof.
  intros Hs Hn Hb. unfold countBelow. assert (Hpm : n `prefix_of` m) by (unfold below in Hb; apply bool_decide_eq_true in Hb; tauto).
  assert (Hsub : filter (λ kv, isPrefixOf m kv.1 = true) (rb_rib s) ⊆+ filter (λ kv, kv ≠ (n, p)) (filter (λ kv, isPrefixOf n kv.1 = true) (rb_rib s))).
  { apply NoDup_submseteq; [apply NoDup_filter, (NoDup_fmap_1 fst), ri_keys, Hs|]. intros [k q]. rewrite !list_elem_of_filter. unfold isPrefixOf. cbn.
    rewrite !bool_decide_eq_true. intros [Hk Hin]. split; [|split; [by etrans|done]]. intros [= -> ->].
    apply below_spec in Hb as [_ Hlt]. apply prefix_length in Hk. lia. }
  apply submseteq_length in Hsub. eapply Nat.le_lt_trans; [exact Hsub|]. apply length_filter_lt with (x := (n, p)).
  - apply list_elem_of_filter. cbn. unfold isPrefixOf. rewrite bool_decide_eq_true. split; [done|by apply table_find_Some].
  - intros Hne. by apply Hne.
Qed.

Lemma countBelow_size s n : RibInv s → countBelow s n ≤ size (rb_heap s).
Proof.
  intros Hs. unfold countBelow. rewrite <- (length_fmap snd). apply NoDup_subset_size.
  - eapply sublist_NoDup; [apply (ri_ptrs s Hs)|]. apply sublist_fmap_mono, sublist_filter.
  - intros q ([m q'] & -> & [_ Hin]%list_elem_of_filter)%list_elem_of_fmap. apply table_find_elem in Hin; [|by apply ri_keys].
    destruct (ri_entry s Hs _ _ Hin) as (e & He & _). by exists e.
Qed.
Lemma keptRoutes_lookup e l f : setLookup f (keptRoutes e l) = if hasOn f (re_routes e) then None else setLookup f l.
Proof.
  unfold keptRoutes, setLookup. induction l as [|r l IH]; [by destruct (hasOn _ _)|]. rewrite filter_cons. cbn [find].
  destruct (decide (hasOn (rt_faceId r) (re_routes e) = false)) as [E|E]; cbn [find].
  - destruct (Z.eqb_spec (rt_faceId r) f) as [<-|]; [by rewrite E|apply IH].
  - rewrite IH. destruct (Z.eqb_spec (rt_faceId r) f) as [<-|]; [|done]. by destruct (hasOn _ _).
Qed.

Lemma keptRoutes_NoDup e l : NoDup (rt_faceId <$> l) → NoDup (rt_faceId <$> keptRoutes e l).
Proof. intros Hnd. eapply sublist_NoDup; [exact Hnd|]. apply sublist_fmap_mono, sublist_filter. Qed.

Lemma clear_self s n0 n f : RibInv s → directlyBelow s n0 n → clear (routesAt s) n0 n f = negb (hasOn f (routesAt s n)).
Proof.
  intros Hs [[E Hlt]%below_spec Hz]. apply eq_true_iff_eq. rewrite clear_spec, negb_true_iff, hasOn_false. split.
  - intros H. rewrite <- (take_ge n (length n)) by done. apply H. lia.
  - intros H k Hk. destruct (decide (k = length n)) as [->|]; [by rewrite take_ge|]. rewrite routesAt_None; [done|]. apply Hz. lia.
Qed.

Lemma clear_split s n0 n m f : RibInv s → directlyBelow s n0 n → below n m = true →
  clear (routesAt s) n0 m f = clear (routesAt s) n m f && negb (hasOn f (routesAt s n)).
Proof.
  intros Hs Hd [E Hlt]%below_spec. rewrite <- (clear_self s n0 n f Hs Hd). destruct Hd as [[E0 Hlt0]%below_spec _].
  assert (Ht : ∀ k, k ≤ length n → take k m = take k n) by (intros k Hk; rewrite E, take_take; f_equal; lia).
  apply eq_true_iff_eq. rewrite andb_true_iff, !clear_spec. split.
  - intros H. split; [intros k Hk; apply H; lia|]. intros k Hk. rewrite <- Ht by lia. apply H. lia.
  - intros [H1 H2] k Hk. destruct (decide (k ≤ length n)); [|apply H1; lia]. rewrite Ht by lia. apply H2. lia.
Qed.

Lemma below_trans n0 n m : below n0 n = true → below n m = true → below n0 m = true.
Proof.
  rewrite !below_spec. intros [E0 H0] [E H]. split; [|lia]. rewrite E0 at 1. rewrite E, take_take. f_equal. lia.
Qed.

Lemma below_isPrefixOf n m : isPrefixOf n m = bool_decide (m = n) || below n m.
Proof.
  unfold isPrefixOf, below. destruct (decide (m = n)) as [->|Hne].
  - by rewrite (bool_decide_eq_true_2 (n = n)), bool_decide_eq_true_2.
  - rewrite (bool_decide_eq_false_2 (m = n)) by done. cbn. apply bool_decide_ext. split; [|tauto]. intros ?. split; [done|congruence].
Qed.

(** The changes at an entry and below it add up to those of the subtree. *)
Lemma subtree_split {B} s n0 n p e (own child target : Name → Z → option B) :
  RibInv s → Rib_find n s = Some p → rb_heap s !! p = Some e → directlyBelow s n0 n →
  (∀ m f, m ≠ n → own m f = None) →
  (∀ f, own n f = if hasOn f (re_routes e) then None else target n f) →
  (∀ m f, child m f = if hasOn f (re_routes e) then None else target m f) →
  ∀ m f, override own (λ m f, if existsb (λ c, childPrefix s c m) (re_children e) then
                              (if affected (routesAt s) n m f then child m f else None) else None) m f =
    if isPrefixOf n m then (if affected (routesAt s) n0 m f then target m f else None) else None.
Proof.
  intros Hs Hn He Hd Hown1 Hown2 Hchild m f. unfold override. rewrite below_isPrefixOf. pose proof (routesAt_Some s n p e Hn He) as Er.
  destruct (decide (m = n)) as [->|Hmn].
  - rewrite bool_decide_eq_true_2 by done. cbn [orb]. assert (Hself : affected (routesAt s) n n f = false).
    { unfold affected, below. rewrite (bool_decide_eq_false_2 (n `prefix_of` n ∧ n ≠ n)) by tauto. by rewrite andb_false_r. }
    rewrite Hself, Hown2. replace (if existsb _ _ then None else None) with (@None B) by (by destruct (existsb _ _)).
    unfold affected. rewrite (proj1 Hd), (clear_self s n0 n f) by done. rewrite Er.
    destruct (ri_entry s Hs n p Hn) as (e' & He' & Ho). rewrite He in He'. injection He' as <-.
    rewrite (bool_decide_eq_true_2 (re_routes e ≠ [])) by apply Ho. by destruct (hasOn f (re_routes e)).
  - rewrite (bool_decide_eq_false_2 (m = n)), Hown1 by done. cbn [orb]. unfold affected at 1.
    destruct (below n m) eqn:Hb; [|rewrite andb_false_r; by destruct (existsb _ _)].
    unfold affected. rewrite (below_trans n0 n m), (clear_split s n0 n m f), Er by (done || apply Hd).
    destruct (bool_decide_reflect (routesAt s m ≠ [])) as [Hm|Hm]; cbn; [|by destruct (existsb _ _)].
    rewrite (children_cover s n p e m) by done. rewrite Hchild.
    destruct (clear (routesAt s) n m f), (hasOn f (re_routes e)), (target m f); done.
Qed.

Lemma traverse_spec s fuel n0 c n A D :
  RibInv s → Plain s → Rib_find n s = Some c → directlyBelow s n0 n → NoDup (rt_faceId <$> A) → countBelow s n ≤ fuel →
  changes (traverseSubTree s fuel c A D) tt
    (λ m f, if childPrefix s c m then subU s n0 A D m f else None) (λ m f, if childPrefix s c m then subL s n0 A D m f else None).
Proof.
  intros Hs Hpl. revert n0 c n A D. induction fuel as [|fuel IH]; intros n0 c n A D Hn Hd Hnd Hfuel.
  { exfalso. unfold countBelow in Hfuel. assert (Hin : (n, c) ∈ filter (λ kv, isPrefixOf n kv.1 = true) (rb_rib s)).
    { apply list_elem_of_filter. cbn. unfold isPrefixOf. rewrite bool_decide_eq_true. split; [done|by apply table_find_Some]. }
    destruct (filter _ _); [by apply elem_of_nil in Hin|]. cbn in Hfuel. lia. }
  destruct (ri_entry s Hs n c Hn) as (e & He & Ho). destruct (Plain_entry s n c e Hs Hpl Hn He) as [Hio Hcap].
  pose proof (eo_name _ _ _ _ Ho) as En. cbn [traverseSubTree]. rewrite He. intros u Hu. wp_step. wp_step; [reflexivity|]. rewrite Hcap. revert u Hu.
  assert (Hkids : changes (forM (re_children e) (λ child, traverseSubTree s fuel child (keptRoutes e A) (keptRoutes e D))) tt
    (λ m f, if existsb (λ c, childPrefix s c m) (re_children e) then subU s n (keptRoutes e A) (keptRoutes e D) m f else None)
    (λ m f, if existsb (λ c, childPrefix s c m) (re_children e) then subL s n (keptRoutes e A) (keptRoutes e D) m f else None)).
  { apply changes_forM. intros c' (n' & Hn' & Hp')%Ho. pose proof (proj1 (findParent_directlyBelow s n n' c Hs Hn) Hp') as Hd'.
    apply (IH n c' n'); [done|done|by apply keptRoutes_NoDup|]. pose proof (countBelow_lt s n n' c Hs Hn (proj1 Hd')). lia. }
  change (changes (removeLoop e D ≫= λ D', addLoop e A ≫= λ A', forM (re_children e) (λ child, traverseSubTree s fuel child A' D')) tt
    (λ m f, if childPrefix s c m then subU s n0 A D m f else None) (λ m f, if childPrefix s c m then subL s n0 A D m f else None)).
  assert (Hinh : ∀ f, hasOn f (re_inheritedRoutes e) = inh s n f) by (intros f; unfold inh, inheritedAt; by rewrite (entryAt_Some s n c e)).
  assert (Hkept : ∀ f, hasOn f (keptRoutes e D) = if hasOn f (re_routes e) then false else hasOn f D).
  { intros f. rewrite (hasOn_lookup f (keptRoutes e D)), keptRoutes_lookup. destruct (hasOn f (re_routes e)); [done|]. by rewrite hasOn_lookup. }
  eapply changes_ext; [eapply changes_bind; [by apply removeLoop_spec|]; eapply changes_bind; [by apply addLoop_spec|exact Hkids]|..]; intros m f;
    rewrite (childPrefix_spec s c n) by done; unfold subU, subL.
  - rewrite <- (subtree_split s n0 n c e (override (λ m f, if removes e D m f then Some (REMOVE_NEXTHOP, 0%Z) else None) (λ m f, addChange (addsTo e A m f)))
      (λ m f, inheritU s (keptRoutes e A) (keptRoutes e D) m f) (inheritU s A D)); try done.
    + unfold override. by destruct (existsb _ _), (affected (routesAt s) n m f), (addsTo e A m f), (inheritU s (keptRoutes e A) (keptRoutes e D) m f).
    + intros m' f' Hm'. unfold override, addsTo, removes. rewrite En, (bool_decide_eq_false_2 (m' = n)) by done. done.
    + intros f'. unfold override, addsTo, removes, inheritU, addChange. rewrite En, bool_decide_eq_true_2, Hinh by done.
      destruct (hasOn f' (re_routes e)); cbn; [done|]. by destruct (setLookup f' A).
    + intros m' f'. unfold inheritU. rewrite keptRoutes_lookup, Hkept. by destruct (hasOn f' (re_routes e)).
  - rewrite <- (subtree_split s n0 n c e (override (λ m f, if removes e D m f then Some false else None) (λ m f, addLog (addsTo e A m f)))
      (λ m f, inheritL s (keptRoutes e A) (keptRoutes e D) m f) (inheritL s A D)); try done.
    + unfold override. by destruct (existsb _ _), (affected (routesAt s) n m f), (addsTo e A m f), (inheritL s (keptRoutes e A) (keptRoutes e D) m f).
    + intros m' f' Hm'. unfold override, addsTo, removes. rewrite En, (bool_decide_eq_false_2 (m' = n)) by done. done.
    + intros f'. unfold override, addsTo, removes, inheritL, addLog. rewrite En, bool_decide_eq_true_2, Hinh by done.
      destruct (hasOn f' (re_routes e)); cbn; [done|]. by destruct (setLookup f' A).
    + intros m' f'. unfold inheritL. rewrite keptRoutes_lookup, Hkept. by destruct (hasOn f' (re_routes e)).
Qed.

(** [modifyChildrensInheritedRoutes] with all the entries directly below [n0]. *)
Definition allChildren s n0 (l : list ptr) : Prop :=
  (∀ c, c ∈ l → ∃ n, Rib_find n s = Some c ∧ directlyBelow s n0 n) ∧
  (∀ m, routesAt s m ≠ [] → below n0 m = true → existsb (λ c, childPrefix s c m) l = true).

Lemma modifyChildren_spec s n0 l A D :
  RibInv s → Plain s → allChildren s n0 l → NoDup (rt_faceId <$> A) →
  changes (modifyChildrensInheritedRoutes s l A D) tt (subU s n0 A D) (subL s n0 A D).
Proof.
  intros Hs Hpl [Hl Hcov] Hnd. unfold modifyChildrensInheritedRoutes.
  eapply changes_ext; [apply changes_forM with (P := childPrefix s) (U := subU s n0 A D) (L := subL s n0 A D)|..].
  - intros c Hc. destruct (Hl c Hc) as (n & Hn & Hd). eapply traverse_spec; [done|done|done|done|done|].
    pose proof (countBelow_size s n Hs). lia.
  - intros m f. unfold subU, affected. destruct (bool_decide_reflect (routesAt s m ≠ [])) as [Hm|Hm]; cbn; [|by destruct (existsb _ _)].
    destruct (below n0 m) eqn:Hb; cbn; [by rewrite Hcov|by destruct (existsb _ _)].
  - intros m f. unfold subL, affected. destruct (bool_decide_reflect (routesAt s m ≠ [])) as [Hm|Hm]; cbn; [|by destruct (existsb _ _)].
    destruct (below n0 m) eqn:Hb; cbn; [by rewrite Hcov|by destruct (existsb _ _)].
Qed.
End Traverse.
