(* ===== verification/RibFib.v ===== *)
(** * The FIB follows the RIB

    [fibMatches R fib]: on every face, a name has a nexthop in the FIB exactly when
    it is in the RIB and it or one of its prefixes has a route there, and with a
    route of its own the nexthop has the cost of that route.  The updates computed
    for a registration or an unregistration take a FIB that matches the old routes
    to one that matches the new routes. *)

From Stdlib Require Import ZArith Lia.
From stdpp Require Import base gmap option list sorting fin_maps.
From S2P Require Import Prelude Scheduler Ndn FibEntry Rib FibUpdater RibSpecs RibAncestors FibUpdaterSpecs.

Section Matching.
Context {N : NdnCxx} {NL : NdnCxxLaws N} {SC : Scheduler} {NE : NthElement} (originOf : Z → Z).
Implicit Types (s : Rib) (R : Name → list Route) (n m : Name) (f : Z) (r : Route) (fib : gmap (Name * Z) Z).

Definition fibMatchesAt R (o : option Z) n f : Prop :=
  (is_Some o ↔ is_Some (ideal R n f)) ∧ ∀ r, setLookup f (R n) = Some r → o = Some (rt_cost r).

Definition fibMatches R fib : Prop := ∀ n f, fibMatchesAt R (fib !! (n, f)) n f.

(** The effect of the pending update of a name and face on its nexthop. *)
Definition applyUpd (x : option (FibUpdateAction * Z)) (o : option Z) : option Z :=
  match x with
  | Some (ADD_NEXTHOP, cost) => Some cost
  | Some (REMOVE_NEXTHOP, _) => None
  | None => o
  end.

(** What a name without a route of its own inherits is recorded.  An entry can
    record more: what it inherited before it got a route of its own stays. *)
Definition inhMatchesAt R (b : bool) n f : Prop := R n ≠ [] → hasOn f (R n) = false → is_Some (ideal R n f) → b = true.

Definition inhMatches s : Prop := ∀ n f, inhMatchesAt (routesAt s) (inh s n f) n f.

(** The changes [U] and [L] are right for the new routes [R']. *)
Definition goodAt s R' U L n f : Prop :=
  (∀ o, fibMatchesAt (routesAt s) o n f → fibMatchesAt R' (applyUpd (U n f) o) n f) ∧
  inhMatchesAt R' (default (inh s n f) (L n f)) n f ∧ (is_Some (L n f) → R' n ≠ []).

Definition good s R' U L : Prop := ∀ n f, goodAt s R' U L n f.

Lemma ideal_own R n f r : setLookup f (R n) = Some r → ideal R n f = Some (rt_cost r).
Proof.
  intros E. unfold ideal. rewrite decide_False by (intros H; by rewrite H in E). cbn [nearest]. rewrite take_ge by done. by rewrite E.
Qed.

Lemma goodAt_same s R' n f : inhMatches s → is_Some (ideal R' n f) ↔ is_Some (ideal (routesAt s) n f) →
  (R' n ≠ [] → routesAt s n ≠ []) → rt_cost <$> setLookup f (R' n) = rt_cost <$> setLookup f (routesAt s n) →
  goodAt s R' noChange noChange n f.
Proof.
  intros Hi Hid Hne Hown. split; [|split; [|by intros [? ?]]].
  - intros o [H1 H2]. cbn. split; [by rewrite Hid|]. intros r Hr. rewrite Hr in Hown. cbn in Hown.
    destruct (setLookup f (routesAt s n)) as [r'|]; [|done]. rewrite (H2 r') by done. cbn in Hown. congruence.
  - intros HR Ho. rewrite Hid. apply Hi; [by apply Hne|]. apply hasOn_false in Ho. rewrite Ho in Hown. apply hasOn_false.
    by destruct (setLookup f (routesAt s n)).
Qed.

Lemma goodAt_add s R' U L n f c : U n f = Some (ADD_NEXTHOP, c) → L n f = Some true ∨ hasOn f (R' n) = true →
  is_Some (ideal R' n f) → (∀ r, setLookup f (R' n) = Some r → c = rt_cost r) → goodAt s R' U L n f.
Proof.
  intros HU HL Hid Hc. assert (Hne : R' n ≠ []) by (unfold ideal in Hid; destruct (decide _); [by destruct Hid|done]).
  split; [|split; [|done]].
  - intros o _. rewrite HU. cbn. split; [by split|]. intros r Hr. by rewrite (Hc r).
  - intros _ Ho. destruct HL as [-> |?]; [done|congruence].
Qed.

Lemma goodAt_remove s R' U L n f c : U n f = Some (REMOVE_NEXTHOP, c) → (is_Some (L n f) → R' n ≠ []) →
  ideal R' n f = None → goodAt s R' U L n f.
Proof.
  intros HU HL Hid. split; [|split; [|done]].
  - intros o _. rewrite HU. split; [by rewrite Hid|]. intros r Hr. apply ideal_own in Hr. congruence.
  - intros _ _. rewrite Hid. by intros [? ?].
Qed.

Lemma goodAt_ext s R' U L U' L' n f : goodAt s R' U L n f → U' n f = U n f → L' n f = L n f → goodAt s R' U' L' n f.
Proof. unfold goodAt. by intros ? -> ->. Qed.

(** The subtree below a name whose routes change. *)
Lemma subtree_good s R' n0 A D m f :
  inhMatches s → changedAt n0 (routesAt s) R' → m ≠ n0 →
  (∀ r, setLookup f A = Some r → is_Some (nearest R' n0 (S (length n0)) f)) →
  (setLookup f A = None → hasOn f D = true → nearest R' n0 (S (length n0)) f = None) →
  (setLookup f A = None → hasOn f D = false →
    is_Some (nearest R' n0 (S (length n0)) f) ↔ is_Some (nearest (routesAt s) n0 (S (length n0)) f)) →
  goodAt s R' (subU s n0 A D) (subL s n0 A D) m f.
Proof.
  intros Hi Hch Hm HA HD Hrest. unfold subU, subL. destruct (affected (routesAt s) n0 m f) eqn:Ha.
  - pose proof (ideal_affected _ _ _ _ _ Hch Ha) as Hid. pose proof (ideal_affected _ _ _ _ _ (changedAt_refl n0 (routesAt s)) Ha) as Hid0.
    assert (Hne : R' m ≠ []). { rewrite Hch by done. apply andb_true_iff in Ha as [[Hne%bool_decide_eq_true _]%andb_true_iff _]. done. }
    assert (Hown : setLookup f (R' m) = None).
    { rewrite Hch by done. apply andb_true_iff in Ha as [[_ Hb]%andb_true_iff Hc]. apply below_spec in Hb as [_ Hlt].
      rewrite clear_spec in Hc. rewrite <- (take_ge m (length m)) by done. apply Hc. lia. }
    destruct (setLookup f A) as [r|] eqn:EA.
    + apply (goodAt_add s R' _ _ m f (rt_cost r)); [by rewrite Ha; unfold inheritU; rewrite EA|left; by rewrite Ha; unfold inheritL; rewrite EA| |].
      * rewrite Hid, fmap_is_Some. by eapply HA.
      * intros r' Hr'. congruence.
    + destruct (hasOn f D && inh s m f) eqn:ED.
      * apply (goodAt_remove s R' _ _ m f 0); [by rewrite Ha; unfold inheritU; rewrite EA, ED| |].
        -- done.
        -- apply andb_true_iff in ED as [ED _]. by rewrite Hid, HD.
      * apply (goodAt_ext _ _ noChange noChange); [|by rewrite Ha; unfold inheritU; rewrite EA, ED|by rewrite Ha; unfold inheritL; rewrite EA, ED].
        apply goodAt_same; [done| |by rewrite Hch|by rewrite Hch].
        destruct (hasOn f D) eqn:EfD; cbn in ED.
        -- rewrite Hid, HD by done. split; [by intros [? ?]|]. intros Hs. exfalso.
           assert (inh s m f = true); [|congruence]. apply Hi; rewrite <- ?Hch; try done. by apply hasOn_false.
        -- rewrite Hid, Hid0, !fmap_is_Some. by apply Hrest.
  - apply (goodAt_ext _ _ noChange noChange); [|by rewrite Ha|by rewrite Ha]. apply goodAt_same; [done| |by rewrite Hch|by rewrite Hch].
    destruct (below n0 m) eqn:Hb.
    + destruct (decide (routesAt s m = [])) as [He|He].
      * unfold ideal. rewrite Hch by done. by rewrite He.
      * unfold affected in Ha. rewrite bool_decide_eq_true_2, Hb in Ha by done. by rewrite (ideal_blocked (routesAt s) R' n0).
    + by rewrite (ideal_elsewhere (routesAt s) R' n0).
Qed.
End Matching.

(** ** Plain lists of routes *)

#[local] Arguments setLookup : simpl never.

Section PlainLists.
Context {N : NdnCxx} {NL : NdnCxxLaws N} {SC : Scheduler} {NE : NthElement} (originOf : Z → Z).
Implicit Types (s : Rib) (n m : Name) (f : Z) (r : Route) (e : RibEntry) (l : list Route).

(** Routes with different keys, one origin per face: at most one route on a face. *)
Definition plainList l : Prop := NoDup (rt_faceId <$> l) ∧ ∀ r, r ∈ l → plain originOf r.

Lemma plainList_intro l : NoDup (routeKey <$> l) → (∀ r, r ∈ l → plain originOf r) → plainList l.
Proof.
  intros Hk Hp. split; [|done]. induction l as [|r l IH]; cbn in *; [constructor|]. apply NoDup_cons in Hk as [Hr Hk].
  apply NoDup_cons. split; [|apply IH; [done|]; intros x Hx; apply Hp; by right].
  intros (x & Ex & Hx)%list_elem_of_fmap. apply Hr. apply list_elem_of_fmap. exists x. split; [|done].
  unfold routeKey. destruct (Hp r) as [_ ->]; [by left|]. destruct (Hp x) as [_ ->]; [by right|]. by rewrite Ex.
Qed.

Lemma plainList_at s n : RibInv s → Plain originOf s → plainList (routesAt s n).
Proof.
  intros Hs Hp. apply plainList_intro; [|apply pl_routes, Hp]. destruct (Rib_find n s) as [p|] eqn:E.
  - destruct (ri_entry s Hs n p E) as (e & He & Ho). rewrite (routesAt_Some s n p e) by done. apply Ho.
  - rewrite routesAt_None by done. constructor.
Qed.

Lemma setLookup_intro l r : NoDup (rt_faceId <$> l) → r ∈ l → setLookup (rt_faceId r) l = Some r.
Proof.
  unfold setLookup. induction l as [|x l IH]; cbn; intros Hnd; [by intros ?%elem_of_nil|]. apply NoDup_cons in Hnd as [Hx Hnd].
  intros [->|Hr]%elem_of_cons; [by rewrite Z.eqb_refl|]. destruct (Z.eqb_spec (rt_faceId x) (rt_faceId r)) as [E|]; [|by apply IH].
  exfalso. apply Hx. rewrite E. apply list_elem_of_fmap. eauto.
Qed.

Lemma setLookup_cons f r l : setLookup f (r :: l) = if decide (rt_faceId r = f) then Some r else setLookup f l.
Proof. unfold setLookup. cbn. destruct (Z.eqb_spec (rt_faceId r) f); [by rewrite decide_True|by rewrite decide_False]. Qed.

Lemma setLookup_app f l l' : setLookup f (l ++ l') = match setLookup f l with Some r => Some r | None => setLookup f l' end.
Proof. induction l as [|r l IH]; cbn [app]; [done|]. rewrite !setLookup_cons. by destruct (decide _). Qed.

Lemma setLookup_insert f i r x l : l !! i = Some x → rt_faceId x = rt_faceId r → NoDup (rt_faceId <$> l) →
  setLookup f (<[i := r]> l) = if decide (f = rt_faceId r) then Some r else setLookup f l.
Proof.
  revert i. induction l as [|y l IH]; intros [|i] Hi Hx Hnd; [done|done| |]; apply NoDup_cons in Hnd as [Hy Hnd].
  - injection Hi as ->. change (<[0 := r]> (x :: l)) with (r :: l). rewrite !setLookup_cons, Hx.
    destruct (decide (f = rt_faceId r)) as [->|]; [by rewrite decide_True|by rewrite !decide_False].
  - change (<[S i := r]> (y :: l)) with (y :: <[i := r]> l). rewrite !setLookup_cons, (IH i) by done. destruct (decide (rt_faceId y = f)) as [<-|]; [|done]. rewrite decide_False; [done|]. intros E. apply Hy.
    cbn. rewrite E, <- Hx. apply list_elem_of_fmap. exists x. split; [done|]. by eapply list_elem_of_lookup_2.
Qed.

Lemma setLookup_delete f i x l : l !! i = Some x → NoDup (rt_faceId <$> l) →
  setLookup f (delete i l) = if decide (f = rt_faceId x) then None else setLookup f l.
Proof.
  revert i. induction l as [|y l IH]; intros [|i] Hi Hnd; [done|done| |]; apply NoDup_cons in Hnd as [Hy Hnd].
  - injection Hi as ->. change (delete 0 (x :: l)) with l. rewrite setLookup_cons. destruct (decide (f = rt_faceId x)) as [->|]; [by apply setLookup_None|by rewrite decide_False].
  - change (delete (S i) (y :: l)) with (y :: delete i l). rewrite !setLookup_cons, (IH i) by done. destruct (decide (rt_faceId y = f)) as [<-|]; [|done].
    rewrite decide_False; [done|]. intros E. apply Hy. cbn. rewrite E. apply list_elem_of_fmap. exists x. split; [done|]. by eapply list_elem_of_lookup_2.
Qed.

(** The route with the key of a plain route is the one on its face. *)
Lemma plain_find l r : plainList l → plain originOf r →
  match find_index (λ r', compareFaceIdAndOrigin r' r) l with
  | Some i => ∃ x, l !! i = Some x ∧ setLookup (rt_faceId r) l = Some x ∧ plain originOf x
  | None => setLookup (rt_faceId r) l = None
  end.
Proof.
  intros [Hnd Hp] [_ Ho]. destruct (find_index _ l) as [i|] eqn:E.
  - apply find_index_Some in E as (x & Hx & [= Ef _]%compare_key). exists x. split; [done|]. apply list_elem_of_lookup_2 in Hx.
    split; [|by apply Hp]. rewrite <- Ef. by apply setLookup_intro.
  - apply setLookup_None. intros (x & Ex & Hx)%list_elem_of_fmap. rewrite find_index_None in E. specialize (E x Hx).
    assert (compareFaceIdAndOrigin x r = true); [|congruence]. apply compare_key. unfold routeKey. destruct (Hp x Hx) as [_ ->]. by rewrite Ho, Ex.
Qed.

Lemma upsert_lookup l r f : plainList l → plain originOf r →
  setLookup f (upsert r l) = if decide (f = rt_faceId r) then Some r else setLookup f l.
Proof.
  intros Hl Hr. pose proof (plain_find l r Hl Hr) as H. unfold upsert. destruct (find_index _ l) as [i|].
  - destruct H as (x & Hx & Hlx & _). apply setLookup_Some in Hlx as [_ Ex]. by apply (setLookup_insert f i r x); [| |apply Hl].
  - rewrite setLookup_app, setLookup_cons. destruct (decide (f = rt_faceId r)) as [->|]; [by rewrite H, decide_True|].
    rewrite decide_False by done. by destruct (setLookup f l).
Qed.

Lemma removeKey_lookup l r f : plainList l →
  setLookup f (removeKey r l) = match find_index (λ r', compareFaceIdAndOrigin r' r) l with
    | Some _ => if decide (f = rt_faceId r) then None else setLookup f l | None => setLookup f l end.
Proof.
  intros Hl. unfold removeKey. destruct (find_index _ l) as [i|] eqn:E; [|done].
  apply find_index_Some in E as (x & Hx & [= Ef _]%compare_key). rewrite <- Ef. by apply (setLookup_delete f i x); [|apply Hl].
Qed.

(** The selections by cost on such a list. *)
Lemma lowestCost_plain p l f : NoDup (rt_faceId <$> l) → (∀ r, r ∈ l → p r = (rt_faceId r =? f)%Z) → lowestCost p l = setLookup f l.
Proof.
  intros Hnd Hp. unfold lowestCost.
  assert (H : ∀ acc, (is_Some acc → setLookup f l = None) → foldl (λ candidate route, if p route then
      match candidate with None => Some route | Some c => if (rt_cost route <? rt_cost c)%Z then Some route else candidate end
    else candidate) acc l = match acc with Some r => Some r | None => setLookup f l end); [|by apply H; intros [? ?]].
  induction l as [|r l IH]; intros acc Hacc; cbn [foldl]; [by destruct acc|]. cbn in Hnd. apply NoDup_cons in Hnd as [Hr Hnd].
  rewrite setLookup_cons in *. rewrite (Hp r) by (by left). destruct (Z.eqb_spec (rt_faceId r) f) as [E|E].
  - rewrite decide_True in * by done. destruct acc; [by discriminate Hacc|]. rewrite IH; [done|done| |].
    + intros x Hx. apply Hp. by right.
    + intros _. apply setLookup_None. by rewrite <- E.
  - rewrite decide_False in * by done. rewrite IH; [done|done| |done]. intros x Hx. apply Hp. by right.
Qed.

Lemma lowest_plain e f : plainList (re_routes e) → getRouteWithLowestCostByFaceId e f = setLookup f (re_routes e).
Proof. intros [Hnd Hp]. by apply lowestCost_plain. Qed.

Lemma lowestInherit_plain e f : plainList (re_routes e) → getRouteWithLowestCostAndChildInheritByFaceId e f = setLookup f (re_routes e).
Proof. intros [Hnd Hp]. apply lowestCost_plain; [done|]. intros r Hr. destruct (plain_inherit originOf r) as [-> _]; [by apply Hp|]. apply andb_true_r. Qed.

Lemma secondLowest_plain e f : plainList (re_routes e) → getRouteWithSecondLowestCostByFaceId e f = None.
Proof.
  intros [Hnd _]. unfold getRouteWithSecondLowestCostByFaceId. rewrite decide_True; [done|].
  induction (re_routes e) as [|r l IH]; [cbn; lia|]. cbn in Hnd. apply NoDup_cons in Hnd as [Hr Hnd]. rewrite filter_cons.
  destruct (decide (rt_faceId r = f)) as [E|E]; [|by apply IH].
  assert (Hnil : filter (λ r, rt_faceId r = f) l = []); [|rewrite Hnil; cbn; lia].
  destruct (filter (λ r, rt_faceId r = f) l) as [|x l'] eqn:El; [done|]. exfalso. apply Hr.
  assert (Hx : x ∈ filter (λ r, rt_faceId r = f) l) by (rewrite El; by left). apply list_elem_of_filter in Hx as [Ex Hx].
  rewrite E, <- Ex. apply list_elem_of_fmap. eauto.
Qed.
End PlainLists.

(** ** Registration and unregistration *)

Section ComputeGood.
Context {N : NdnCxx} {NL : NdnCxxLaws N} {SC : Scheduler} {NE : NthElement} (originOf : Z → Z).
Implicit Types (s : Rib) (R : Name → list Route) (n m : Name) (f : Z) (r : Route) (e : RibEntry) (l : list Route).

Definition insertAt s n r : Name → list Route := λ m, if decide (m = n) then upsert r (routesAt s n) else routesAt s m.
Definition eraseAt s n r : Name → list Route := λ m, if decide (m = n) then removeKey r (routesAt s n) else routesAt s m.

Lemma insertAt_changed s n r : changedAt n (routesAt s) (insertAt s n r).
Proof. intros m Hm. unfold insertAt. by rewrite decide_False. Qed.
Lemma eraseAt_changed s n r : changedAt n (routesAt s) (eraseAt s n r).
Proof. intros m Hm. unfold eraseAt. by rewrite decide_False. Qed.
Lemma insertAt_self s n r : insertAt s n r n = upsert r (routesAt s n).
Proof. unfold insertAt. by rewrite decide_True. Qed.
Lemma eraseAt_self s n r : eraseAt s n r n = removeKey r (routesAt s n).
Proof. unfold eraseAt. by rewrite decide_True. Qed.

Lemma nearest_own R n f :
  nearest R n (S (length n)) f = match setLookup f (R n) with Some r => Some r | None => nearest R n (length n) f end.
Proof. cbn [nearest]. by rewrite take_ge. Qed.

Lemma nearest_above n R R' f : changedAt n R R' → nearest R' n (length n) f = nearest R n (length n) f.
Proof.
  intros Hch. apply nearest_agree. intros j Hj. rewrite Hch; [done|]. intros E. apply (f_equal length) in E. rewrite length_take in E. lia.
Qed.

Lemma ideal_self R n f : R n ≠ [] →
  ideal R n f = rt_cost <$> match setLookup f (R n) with Some r => Some r | None => nearest R n (length n) f end.
Proof. intros Hne. unfold ideal. by rewrite decide_False, nearest_own. Qed.

Lemma changes_some {A} (o : option A) a : o = Some a → changes (someM o) a noChange noChange.
Proof. intros -> u Hu. wp_step; [reflexivity|]. split; [done|by apply changed_refl]. Qed.

Lemma changes_some_bind {A B} (o : option A) (k : A → M FibUpdater B) a b U L :
  o = Some a → changes (k a) b U L → changes (someM o ≫= k) b U L.
Proof.
  intros Ho Hk. eapply changes_ext; [eapply changes_bind; [by apply changes_some|exact Hk]|..]; intros m f; unfold override, noChange;
    [by destruct (U m f)|by destruct (L m f)].
Qed.

Lemma affected_self R n f : affected R n n f = false.
Proof. unfold affected, below. rewrite (bool_decide_eq_false_2 (_ ∧ n ≠ n)) by (by intros [_ ?]). by rewrite andb_false_r. Qed.

Lemma entryChildren s n p e : RibInv s → Rib_find n s = Some p → rb_heap s !! p = Some e → allChildren s n (re_children e).
Proof.
  intros Hs Hn He. split; [|intros m Hm Hb; by eapply children_cover]. destruct (ri_entry s Hs n p Hn) as (e' & He' & Ho).
  rewrite He in He'. injection He' as <-. intros c (m & Hm & Hp)%Ho. exists m. split; [done|]. by apply (findParent_directlyBelow s n m p).
Qed.

Lemma newName_parent s n m : RibInv s → Rib_find n s = None → below n m = true → findParent m s = findParent n s ↔ directlyBelow s n m.
Proof.
  intros Hs Hn Hb. pose proof Hb as [E Hlt]%below_spec. assert (Ht : ∀ k, k ≤ length n → take k m = take k n) by (intros k Hk; rewrite E, take_take; f_equal; lia).
  unfold findParent. split.
  - intros Ep. split; [done|]. intros k Hk. destruct (Rib_find (take k m) s) as [c|] eqn:Ec; [|done]. exfalso.
    destruct (findParent_from (rb_rib s) m (length m)) as [p|] eqn:Em.
    + apply findParent_from_Some in Em as (j & Hj & Hfj & Hz). symmetry in Ep. apply findParent_from_Some in Ep as (i & Hi & Hfi & _).
      assert (Hin : take j m = take i n) by (by eapply Rib_find_inj). apply (f_equal length) in Hin. rewrite !length_take in Hin.
      assert (j < k) by lia. unfold Rib_find in Ec. rewrite Hz in Ec; [done|lia].
    + rewrite findParent_from_None in Em. unfold Rib_find in Ec. rewrite Em in Ec; [done|lia].
  - intros [_ Hz]. destruct (findParent_from (rb_rib s) n (length n)) as [p|] eqn:En.
    + apply findParent_from_Some in En as (i & Hi & Hfi & Hzi). apply (findParent_from_intro _ _ _ i); [lia|by rewrite Ht by lia|].
      intros k Hk. destruct (decide (k < length n)); [rewrite Ht by lia; apply Hzi; lia|]. destruct (decide (k = length n)) as [->|]; [|apply Hz; lia].
      by rewrite <- E.
    + rewrite findParent_from_None in *. intros k Hk. destruct (decide (k < length n)); [rewrite Ht by lia; by apply En|].
      destruct (decide (k = length n)) as [->|]; [by rewrite <- E|apply Hz; lia].
Qed.

Lemma newChildren s n : RibInv s → Rib_find n s = None →
  allChildren s n (filter (λ d, (rb_heap s !! d) ≫= re_parent = findParent n s) (findDescendantsForNonInsertedName n s)).
Proof.
  intros Hs Hn. assert (Hel : ∀ m c, Rib_find m s = Some c → (rb_heap s !! c) ≫= re_parent = findParent m s).
  { intros m c Hc. destruct (ri_entry s Hs m c Hc) as (e & He & Ho). rewrite He. apply (eo_parent _ _ _ _ Ho). }
  assert (Hin : ∀ m c, Rib_find m s = Some c → n `prefix_of` m → below n m = true).
  { intros m c Hc Hp. unfold below. apply bool_decide_eq_true. split; [done|]. intros ->. congruence. }
  split.
  - intros c [Hp ([m c'] & -> & [Hpre Hc]%list_elem_of_filter)%list_elem_of_fmap]%list_elem_of_filter. cbn in *.
    unfold isPrefixOf in Hpre. apply bool_decide_eq_true in Hpre. apply table_find_elem in Hc; [|by apply ri_keys]. exists m. split; [done|].
    apply newName_parent; [done|done|by eapply Hin|]. by rewrite <- (Hel m c').
  - intros m Hm Hb. destruct (topmost_below s n m) as (k & c & Hk & Hc & Hd); [done..|]. apply existsb_exists. exists c.
    split; [|rewrite (childPrefix_spec s c (take k m)) by done; unfold isPrefixOf; apply bool_decide_eq_true, take_prefix].
    apply list_elem_of_In, list_elem_of_filter. rewrite (Hel _ _ Hc). destruct Hd as [Hb' Hz]. split; [by apply newName_parent|].
    apply list_elem_of_fmap. exists (take k m, c). split; [done|]. apply list_elem_of_filter. split; [|by apply table_find_Some].
    unfold isPrefixOf, below in *. apply bool_decide_eq_true in Hb' as [Hb' _]. by apply bool_decide_eq_true.
Qed.


(** Below [n], for a route that [n] gains or changes. *)
Lemma upsert_below_good s n r A m f :
  RibInv s → Plain originOf s → inhMatches s → plain originOf r → m ≠ n →
  (∀ g, setLookup g A = if decide (g = rt_faceId r) then Some r else if decide (routesAt s n = []) then nearest (routesAt s) n (length n) g else None) →
  goodAt s (insertAt s n r) (subU s n A []) (subL s n A []) m f.
Proof.
  intros Hs Hp Hi Hr Hm HA. pose proof (insertAt_changed s n r) as Hch. pose proof (plainList_at originOf s n Hs Hp) as Hl.
  assert (Hnear : nearest (insertAt s n r) n (S (length n)) f =
    if decide (f = rt_faceId r) then Some r else nearest (routesAt s) n (S (length n)) f).
  { rewrite !nearest_own, insertAt_self, (upsert_lookup originOf) by done. destruct (decide (f = rt_faceId r)); [done|]. by rewrite (nearest_above n (routesAt s)). }
  apply subtree_good; [done|done|done|..].
  - intros x. rewrite HA, Hnear. destruct (decide (f = rt_faceId r)); [by eexists|]. destruct (decide _) as [E|]; [|done].
    rewrite nearest_own, E. cbn. intros ->. by eexists.
  - done.
  - rewrite HA, Hnear. by destruct (decide (f = rt_faceId r)).
Qed.

(** An entry that gains a route or whose route gets another cost. *)
Lemma upsert_good s n r U L :
  RibInv s → Plain originOf s → inhMatches s → plain originOf r → routesAt s n ≠ [] →
  (∀ m f, m ≠ n → U m f = subU s n [r] [] m f ∧ L m f = subL s n [r] [] m f) →
  (∀ f, U n f = (if decide (f = rt_faceId r) then Some (ADD_NEXTHOP, rt_cost r) else None) ∧ L n f = None) →
  good s (insertAt s n r) U L.
Proof.
  intros Hs Hp Hi Hr Hne Hm Hn m f. pose proof (plainList_at originOf s n Hs Hp) as Hl. destruct (decide (m = n)) as [->|Hmn].
  - destruct (Hn f) as [EU EL]. pose proof (upsert_lookup originOf (routesAt s n) r f Hl Hr) as Hown. rewrite <- insertAt_self in Hown.
    assert (Hne' : insertAt s n r n ≠ []) by (rewrite insertAt_self; apply upsert_nonempty).
    destruct (decide (f = rt_faceId r)) as [->|Hf].
    + apply (goodAt_add s _ _ _ n _ (rt_cost r)); [done|right; apply hasOn_true; rewrite Hown; by eexists|rewrite ideal_self, Hown by done; by eexists|].
      intros x. rewrite Hown. by intros [= ->].
    + apply (goodAt_ext _ _ noChange noChange); [|done|done]. apply goodAt_same; [done| |done|by rewrite Hown].
      by rewrite !ideal_self, Hown, (nearest_above n (routesAt s)) by (done || apply insertAt_changed).
  - destruct (Hm m f Hmn) as [EU EL]. eapply goodAt_ext; [|exact EU|exact EL]. apply upsert_below_good; try done.
    intros g. rewrite setLookup_cons. destruct (decide (g = rt_faceId r)) as [->|]; [by rewrite decide_True|].
    rewrite !decide_False by done. done.
Qed.

(** The same cost again. *)
Lemma upsert_same_good s n r x :
  RibInv s → Plain originOf s → inhMatches s → plain originOf r →
  setLookup (rt_faceId r) (routesAt s n) = Some x → rt_cost r = rt_cost x → good s (insertAt s n r) noChange noChange.
Proof.
  intros Hs Hp Hi Hr Hx Hc m f. pose proof (plainList_at originOf s n Hs Hp) as Hl. pose proof (insertAt_changed s n r) as Hch.
  assert (Hne : routesAt s n ≠ []) by (intros E; by rewrite E in Hx).
  assert (Hown : ∀ g, rt_cost <$> setLookup g (insertAt s n r n) = rt_cost <$> setLookup g (routesAt s n)).
  { intros g. rewrite insertAt_self, (upsert_lookup originOf) by done. destruct (decide (g = rt_faceId r)) as [->|]; [|done]. rewrite Hx. cbn. by rewrite Hc. }
  assert (Hiff : ∀ g, is_Some (nearest (insertAt s n r) n (S (length n)) g) ↔ is_Some (nearest (routesAt s) n (S (length n)) g)).
  { intros g. specialize (Hown g). rewrite !nearest_own, (nearest_above n (routesAt s)) by done.
    by destruct (setLookup g (insertAt s n r n)), (setLookup g (routesAt s n)). }
  destruct (decide (m = n)) as [->|Hmn].
  - apply goodAt_same; [done| |done|apply Hown]. unfold ideal. rewrite decide_False by (rewrite insertAt_self; apply upsert_nonempty).
    rewrite decide_False by done. by rewrite !fmap_is_Some.
  - apply (goodAt_ext _ _ (subU s n [] []) (subL s n [] [])).
    + by apply subtree_good.
    + unfold subU, inheritU, noChange. cbn. by destruct (affected _ _ _ _).
    + unfold subL, inheritL, noChange. cbn. by destruct (affected _ _ _ _).
Qed.

(** A new entry. *)
Lemma newEntry_good s n r anc A U L :
  RibInv s → Plain originOf s → inhMatches s → plain originOf r → Rib_find n s = None →
  (∀ f, setLookup f anc = nearest (routesAt s) n (length n) f) →
  (∀ f, setLookup f A = if decide (f = rt_faceId r) then Some r else setLookup f anc) →
  (∀ m f, m ≠ n → U m f = subU s n A [] m f ∧ L m f = subL s n A [] m f) →
  (∀ f, U n f = addChange (setLookup f A) ∧ L n f = if decide (f = rt_faceId r) then None else addLog (setLookup f anc)) →
  good s (insertAt s n r) U L.
Proof.
  intros Hs Hp Hi Hr Hn Hanc HA Hm Hself m f. pose proof (routesAt_None s n Hn) as Hnil. pose proof (insertAt_changed s n r) as Hch.
  destruct (decide (m = n)) as [->|Hmn].
  - destruct (Hself f) as [EU EL]. rewrite HA in EU. assert (Hl : plainList originOf (routesAt s n)) by (by apply plainList_at).
    assert (Hown : setLookup f (insertAt s n r n) = if decide (f = rt_faceId r) then Some r else None).
    { rewrite insertAt_self, (upsert_lookup originOf), Hnil by done. done. }
    assert (Hne : insertAt s n r n ≠ []) by (rewrite insertAt_self; apply upsert_nonempty).
    assert (Hid : ideal (insertAt s n r) n f = rt_cost <$> if decide (f = rt_faceId r) then Some r else setLookup f anc).
    { rewrite ideal_self, Hown, Hanc, (nearest_above n (routesAt s)) by done. by destruct (decide _). }
    destruct (decide (f = rt_faceId r)) as [->|Hf]; [|destruct (setLookup f anc) as [r'|] eqn:Ea].
    + apply (goodAt_add s _ _ _ n _ (rt_cost r)); [done|right; apply hasOn_true; rewrite Hown; by eexists|rewrite Hid; by eexists|].
      intros x. rewrite Hown. by intros [= ->].
    + apply (goodAt_add s _ _ _ n _ (rt_cost r')); [done|by left|rewrite Hid; by eexists|]. intros x. by rewrite Hown.
    + split; [|split; [|by rewrite EL; intros [? ?]]].
      * intros o [H1 _]. rewrite EU. cbn. split; [rewrite H1, Hid; unfold ideal; by rewrite Hnil|]. intros x. by rewrite Hown.
      * intros _ _. rewrite EL, Hid. cbn. unfold inh, inheritedAt, entryAt. rewrite Hn. cbn. by intros [? ?].
  - destruct (Hm m f Hmn) as [EU EL]. eapply goodAt_ext; [|exact EU|exact EL]. apply upsert_below_good; try done.
    intros g. rewrite HA, Hanc, Hnil. done.
Qed.

Lemma ancestors_plain s n : RibInv s → Plain originOf s →
  ∃ l, getAncestorRoutes_name n s = Some l ∧ (∀ e, re_parent e = findParent n s → getAncestorRoutes_entry e s = Some l) ∧
    StronglySorted face_lt l ∧ ∀ f, setLookup f l = nearest (routesAt s) n (length n) f.
Proof.
  intros Hs Hp. destruct (getAncestorRoutes_spec s n Hs) as (l & H1 & H2 & H3 & H4). exists l. do 3 (split; [done|]).
  intros f. rewrite H4. by apply (nearestRoute_plain originOf).
Qed.

Lemma sorted_faces l : StronglySorted face_lt l → NoDup (rt_faceId <$> l).
Proof.
  induction 1 as [|r l Hs IH Hall]; cbn; [constructor|]. apply NoDup_cons. split; [|done]. intros (x & Ex & Hx)%list_elem_of_fmap.
  eapply Forall_forall in Hall; [|exact Hx]. unfold face_lt in Hall. lia.
Qed.

Lemma entry_plain s n p e : RibInv s → Plain originOf s → Rib_find n s = Some p → rb_heap s !! p = Some e →
  plainList originOf (re_routes e) ∧ routesAt s n = re_routes e ∧ hasCapture e = false ∧ EntryOk s n p e.
Proof.
  intros Hs Hp Hn He. pose proof (routesAt_Some s n p e Hn He) as E. split; [rewrite <- E; by apply plainList_at|]. split; [done|].
  split; [by eapply (Plain_entry originOf)|]. destruct (ri_entry s Hs n p Hn) as (e' & He' & Ho). congruence.
Qed.

Lemma newRoute_changes s n p e r :
  RibInv s → Plain originOf s → plain originOf r → Rib_find n s = Some p → rb_heap s !! p = Some e →
  setLookup (rt_faceId r) (re_routes e) = None →
  changes (createFibUpdatesForNewRoute s e r false) tt
    (override (subU s n [r] []) (oneChange n (rt_faceId r) (ADD_NEXTHOP, rt_cost r))) (subL s n [r] []).
Proof.
  intros Hs Hp Hr Hn He Hnone. destruct (entry_plain s n p e) as (Hl & _ & _ & Ho); [done..|]. unfold createFibUpdatesForNewRoute.
  rewrite (lowestInherit_plain originOf), (lowest_plain originOf), Hnone by done. destruct (plain_inherit originOf r Hr) as [-> _]. cbn [andb].
  eapply changes_ext; [eapply changes_bind; [apply changes_ret|]; eapply changes_bind;
    [eapply modifyChildren_spec; [done|done|by eapply entryChildren|apply NoDup_singleton]|apply changes_update]|..]; intros m f;
    unfold override, noChange; cbn [fu_name fu_faceId fu_action fu_cost createAddUpdate]; [|by destruct (subL _ _ _ _ _ _)].
  rewrite (eo_name _ _ _ _ Ho). by destruct (oneChange _ _ _ _ _); [|destruct (subU _ _ _ _ _ _)].
Qed.

Lemma updatedRoute_changes s n p e r i x :
  RibInv s → Plain originOf s → plain originOf r → Rib_find n s = Some p → rb_heap s !! p = Some e →
  re_routes e !! i = Some x → rt_faceId x = rt_faceId r → rt_cost r ≠ rt_cost x →
  let y := mkRoute (rt_faceId x) (rt_origin x) (rt_cost r) (rt_flags r) (rt_expires r) (rt_announcement x) (rt_annExpires x) (rt_expirationEvent x) in
  changes (createFibUpdatesForUpdatedRoute s (set_re_routes (<[i := y]> (re_routes e)) (re_nRoutesWithCaptureSet e) e) r x) tt
    (override (oneChange n (rt_faceId r) (ADD_NEXTHOP, rt_cost r)) (subU s n [r] [])) (subL s n [r] []).
Proof.
  intros Hs Hp Hr Hn He Hi Hf Hc y. destruct (entry_plain s n p e) as (Hl & _ & _ & Ho); [done..|]. set (e' := set_re_routes _ _ e).
  assert (Hx : plain originOf x) by (apply Hl; by eapply list_elem_of_lookup_2). assert (Hy : plain originOf y) by (split; [apply Hr|apply Hx]).
  assert (Hl' : plainList originOf (re_routes e')).
  { destruct Hl as [Hnd Hall]. split.
    - cbn. rewrite list_fmap_insert, list_insert_id; [done|]. by rewrite list_lookup_fmap, Hi.
    - intros z Hz. apply list_elem_of_lookup in Hz as [j Hj]. cbn in Hj. apply list_lookup_insert_Some in Hj as [(_ & <- & _)|[_ Hj]]; [done|].
      apply Hall. by eapply list_elem_of_lookup_2. }
  assert (Hlook : setLookup (rt_faceId r) (re_routes e') = Some y).
  { rewrite <- Hf. change (rt_faceId x) with (rt_faceId y). apply setLookup_intro; [apply Hl'|]. apply list_elem_of_lookup. exists i. cbn. apply list_lookup_insert_eq. by eapply lookup_lt_Some. }
  unfold createFibUpdatesForUpdatedRoute. rewrite (lowestInherit_plain originOf), Hlook by done.
  assert (Ef : rt_flags r = rt_flags x) by (destruct Hr as [-> _]; by destruct Hx as [-> _]). rewrite Ef, Z.eqb_refl. destruct (Z.eqb_spec (rt_cost r) (rt_cost x)) as [|_]; [done|].
  cbn [andb negb]. unfold updateForChangedCost. rewrite (lowest_plain originOf), Hlook, Ef, Z.eqb_refl by done.
  change (rt_cost y) with (rt_cost r). rewrite Z.leb_refl. destruct (plain_inherit originOf r Hr) as [-> _]. cbn [andb].
  eapply changes_ext; [eapply changes_bind; [eapply changes_bind; [by apply changes_some|]; eapply changes_bind; [rewrite Z.leb_refl; apply changes_update|];
    eapply changes_bind; [eapply modifyChildren_spec; [done|done|by eapply (entryChildren s n p e)|apply NoDup_singleton]|apply changes_ret]|apply changes_ret]|..];
    intros m f; unfold override, noChange; cbn [fu_name fu_faceId fu_action fu_cost createAddUpdate]; [|by destruct (subL _ _ _ _ _ _)].
  change (re_name e') with (re_name e). rewrite (eo_name _ _ _ _ Ho). by destruct (subU _ _ _ _ _ _); [|destruct (oneChange _ _ _ _ _)].
Qed.

Lemma addInheritedRoutes_name_spec n l r : NoDup (rt_faceId <$> l) →
  changes (addInheritedRoutes_name n l r) tt
    (λ m f, if decide (m = n ∧ f ≠ rt_faceId r) then addChange (setLookup f l) else None)
    (λ m f, if decide (m = n ∧ f ≠ rt_faceId r) then addLog (setLookup f l) else None).
Proof.
  unfold addInheritedRoutes_name. induction l as [|x l IH]; intros Hnd; cbn [forM].
  - eapply changes_ext; [apply changes_ret|..]; intros m f; by destruct (decide _).
  - cbn in Hnd. apply NoDup_cons in Hnd as [Hx%setLookup_None Hnd].
    eapply changes_ext; [eapply changes_bind; [|by apply IH]|..].
    + apply (changes_if (rt_faceId x =? rt_faceId r)%Z); intros _; [apply changes_ret|apply addInherited_spec].
    + intros m f. unfold override. rewrite setLookup_cons. destruct (Z.eqb_spec (rt_faceId x) (rt_faceId r)) as [E|E]; unfold noChange, oneChange.
      * destruct (decide (m = n ∧ f ≠ rt_faceId r)) as [[_ Hf]|]; [|done]. rewrite decide_False by congruence. by destruct (setLookup f l).
      * destruct (decide (m = n ∧ f ≠ rt_faceId r)) as [[-> Hf]|Hn].
        -- destruct (decide (rt_faceId x = f)) as [<-|]; [by rewrite Hx, decide_True|]. rewrite decide_False by congruence. by destruct (setLookup f l).
        -- rewrite decide_False; [done|]. intros [= -> ->]. by apply Hn.
    + intros m f. unfold override. rewrite setLookup_cons. destruct (Z.eqb_spec (rt_faceId x) (rt_faceId r)) as [E|E]; unfold noChange, oneChange.
      * destruct (decide (m = n ∧ f ≠ rt_faceId r)) as [[_ Hf]|]; [|done]. rewrite decide_False by congruence. by destruct (setLookup f l).
      * destruct (decide (m = n ∧ f ≠ rt_faceId r)) as [[-> Hf]|Hn].
        -- destruct (decide (rt_faceId x = f)) as [<-|]; [by rewrite Hx, decide_True|]. rewrite decide_False by congruence. by destruct (setLookup f l).
        -- rewrite decide_False; [done|]. intros [= -> ->]. by apply Hn.
Qed.

(** The routes that the children of a new entry inherit. *)
Lemma newRoutes_lookup r l : StronglySorted face_lt l →
  let l' := if set_find r l is Some x then set_erase x l else l in
  StronglySorted face_lt (set_insert r l') ∧
  ∀ f, setLookup f (set_insert r l') = if decide (f = rt_faceId r) then Some r else setLookup f l.
Proof.
  intros Hl l'. assert (H : StronglySorted face_lt l' ∧ ∀ f, setLookup f l' = if decide (f = rt_faceId r) then None else setLookup f l).
  { unfold l', set_find. fold (setLookup (rt_faceId r) l). destruct (setLookup (rt_faceId r) l) as [x|] eqn:E.
    - apply setLookup_Some in E as [_ E]. unfold set_erase. rewrite E. clear - Hl. split.
      + induction Hl as [|y l Hs IH Hall]; [constructor|]. rewrite filter_cons. destruct (decide _); [|done]. constructor; [done|].
        apply Forall_forall. intros z [_ Hz]%list_elem_of_filter. by eapply Forall_forall in Hall.
      + intros f. clear Hl. induction l as [|y l IH]; [by destruct (decide _)|]. rewrite filter_cons, setLookup_cons.
        destruct (decide (rt_faceId y ≠ rt_faceId r)) as [Hy|Hy]; [rewrite setLookup_cons|]; rewrite IH; destruct (decide (rt_faceId y = f)) as [<-|]; try done.
        * by rewrite decide_False.
        * by destruct (decide (rt_faceId y = rt_faceId r)).
    - split; [done|]. intros f. by destruct (decide (f = rt_faceId r)) as [->|]. }
  destruct H as [Hs Hlook]. split; [by apply set_insert_sorted|]. intros f. rewrite set_insert_lookup, Hlook by done.
  destruct (Z.eqb_spec (rt_faceId r) f) as [<-|]; [by rewrite !decide_True|]. rewrite !decide_False by done. by destruct (setLookup f l).
Qed.

Lemma newRibEntry_good s n r (kids : list ptr) :
  RibInv s → Plain originOf s → inhMatches s → plain originOf r → Rib_find n s = None → allChildren s n kids →
  ∃ U L, changes (createFibUpdatesForNewRibEntry s n r kids) tt U L ∧ good s (insertAt s n r) U L.
Proof.
  intros Hs Hp Hi Hr Hn Hc. destruct (ancestors_plain s n Hs Hp) as (anc & Hanc & _ & Hsort & Hlook).
  destruct (newRoutes_lookup r anc Hsort) as [Hs' HA]. destruct (plain_inherit originOf r Hr) as [Hci Hcap].
  unfold createFibUpdatesForNewRibEntry. rewrite Hci, Hcap. cbn [negb andb]. eexists _, _. split.
  - eapply changes_bind; [apply changes_update|]. eapply changes_bind; [apply changes_some, Hanc|].
    eapply changes_bind; [by apply addInheritedRoutes_name_spec, sorted_faces|]. eapply modifyChildren_spec; [done|done|done|]. by apply sorted_faces.
  - eapply (newEntry_good s n r anc); [done..| | ]; cbn [fu_name fu_faceId fu_action fu_cost createAddUpdate]; unfold override, noChange, oneChange.
    + intros m f Hm. split; [destruct (subU _ _ _ _ _ _); [done|]|destruct (subL _ _ _ _ _ _); [done|]]; rewrite decide_False by (by intros [? _]); [|done].
      by rewrite decide_False by congruence.
    + intros f. unfold subU, subL. rewrite affected_self, HA. destruct (decide (f = rt_faceId r)) as [->|Hf].
      * rewrite !(decide_False (P := n = n ∧ _)) by (by intros [_ ?]). by rewrite decide_True.
      * rewrite !(decide_True (P := n = n ∧ _)) by done. split; [|by destruct (setLookup f anc)].
        rewrite decide_False by congruence. by destruct (setLookup f anc).
Qed.

Lemma registration_good s x :
  RibInv s → Plain originOf s → inhMatches s → plain originOf (ru_route x) →
  ∃ U L, changes (computeUpdatesForRegistration s x) tt U L ∧ good s (insertAt s (ru_name x) (ru_route x)) U L.
Proof.
  intros Hs Hp Hi Hr. set (n := ru_name x). set (r := ru_route x) in *. unfold computeUpdatesForRegistration. fold n r.
  destruct (Rib_find n s) as [p|] eqn:Hn; [|by apply newRibEntry_good, newChildren].
  destruct (ri_entry s Hs n p Hn) as (e & He & _). destruct (entry_plain s n p e) as (Hl & ER & Hcap & Ho); [done..|].
  assert (Hne : routesAt s n ≠ []) by (apply routesAt_nonempty; eauto).
  pose proof (plain_find originOf (re_routes e) r Hl Hr) as Hfind. fold (findRoute e r) in Hfind.
  destruct (findRoute e r) as [i|] eqn:Efr.
  - destruct Hfind as (y & Hy & Hly & Hpy). assert (Ef : rt_faceId y = rt_faceId r) by (by destruct (setLookup_Some _ _ _ Hly)).
    destruct (decide (rt_cost r = rt_cost y)) as [Ec|Ec].
    + eexists _, _. split; [apply (changes_some_bind _ _ e); [done|]; rewrite Efr; apply (changes_some_bind _ _ y); [done|]|].
      * unfold createFibUpdatesForUpdatedRoute. destruct Hr as [Ef1 _], Hpy as [Ef2 _]. rewrite Ef1, Ef2, Ec, !Z.eqb_refl. apply changes_ret.
      * eapply upsert_same_good; [done..|by rewrite ER|done].
    + eexists _, _. split; [apply (changes_some_bind _ _ e); [done|]; rewrite Efr; apply (changes_some_bind _ _ y); [done|]; by apply updatedRoute_changes with (n := n) (p := p)|].
      eapply upsert_good; [done..| |]; unfold override, noChange, oneChange.
      * intros m f Hm. split; [|done]. destruct (subU _ _ _ _ _ _); [done|]. by rewrite decide_False by congruence.
      * intros f. unfold subU, subL. rewrite affected_self. split; [|done]. destruct (decide (f = rt_faceId r)) as [->|]; [by rewrite decide_True|]. by rewrite decide_False by congruence.
  - destruct (plain_inherit originOf r Hr) as [_ Hnc].
    eexists _, _. split; [apply (changes_some_bind _ _ e); [done|]; rewrite Efr, Hcap, Hnc; cbn [negb andb]; by apply newRoute_changes with (p := p)|].
    eapply upsert_good; [done..| |]; unfold override, noChange, oneChange.
    + intros m f Hm. split; [|done]. by rewrite decide_False by congruence.
    + intros f. unfold subU, subL. rewrite affected_self. split; [|done]. destruct (decide (f = rt_faceId r)) as [->|]; [by rewrite decide_True|]. by rewrite decide_False by congruence.
Qed.

Lemma erase_none_good s n r : inhMatches s →
  (Rib_find n s = None ∨ find_index (λ r', compareFaceIdAndOrigin r' r) (routesAt s n) = None) → good s (eraseAt s n r) noChange noChange.
Proof.
  intros Hi Hnone. assert (E : ∀ m, eraseAt s n r m = routesAt s m).
  { intros m. unfold eraseAt. destruct (decide (m = n)) as [->|]; [|done]. unfold removeKey. destruct Hnone as [Hn| ->]; [|done].
    by rewrite (routesAt_None s n Hn). }
  intros m f. apply goodAt_same; [done| |by rewrite E|by rewrite E]. unfold ideal. rewrite E.
  destruct (decide _); [done|]. rewrite (nearest_agree _ (routesAt s)); [done|]. intros j _. by rewrite E.
Qed.

(** The pending updates for the entry that loses the route [x]. *)
Definition erasedU (anc : list Route) (rest inherited : list Route) (x : Route) f : option (FibUpdateAction * Z) :=
  if decide (f = rt_faceId x) then
    match rest, setLookup f anc with
    | _ :: _, Some y => Some (ADD_NEXTHOP, rt_cost y)
    | _, _ => Some (REMOVE_NEXTHOP, 0%Z)
    end
  else if decide (rest = []) then (if hasOn f inherited then Some (REMOVE_NEXTHOP, 0%Z) else None) else None.

Definition erasedL (anc : list Route) (rest : list Route) (x : Route) f : option bool :=
  if decide (f = rt_faceId x ∧ rest ≠ []) then addLog (setLookup f anc) else None.

Lemma erase_good s n r i x anc U L :
  RibInv s → Plain originOf s → inhMatches s →
  find_index (λ r', compareFaceIdAndOrigin r' r) (routesAt s n) = Some i → routesAt s n !! i = Some x → rt_faceId x = rt_faceId r →
  (∀ f, setLookup f anc = nearest (routesAt s) n (length n) f) →
  (∀ m f, m ≠ n → U m f = subU s n anc [x] m f ∧ L m f = subL s n anc [x] m f) →
  (∀ f, U n f = erasedU anc (eraseAt s n r n) (inheritedAt s n) x f ∧ L n f = erasedL anc (eraseAt s n r n) x f) →
  good s (eraseAt s n r) U L.
Proof.
  intros Hs Hp Hi Hfi Hx Ef Hanc Hm Hself m f. pose proof (plainList_at originOf s n Hs Hp) as Hl. pose proof (eraseAt_changed s n r) as Hch.
  assert (Hown : ∀ g, setLookup g (eraseAt s n r n) = if decide (g = rt_faceId x) then None else setLookup g (routesAt s n)).
  { intros g. rewrite eraseAt_self, (removeKey_lookup originOf), Hfi, Ef by done. done. }
  assert (Hnear : ∀ g, nearest (eraseAt s n r) n (S (length n)) g = match setLookup g (eraseAt s n r n) with Some y => Some y | None => setLookup g anc end).
  { intros g. rewrite nearest_own, Hanc. by rewrite (nearest_above n (routesAt s)). }
  assert (Hne : routesAt s n ≠ []) by (intros E; by rewrite E in Hx).
  destruct (decide (m = n)) as [->|Hmn].
  - destruct (Hself f) as [EU EL].
    assert (HLne : is_Some (L n f) → eraseAt s n r n ≠ []) by (rewrite EL; unfold erasedL; destruct (decide _) as [[_ ?]|]; [done|by intros [? ?]]).
    destruct (decide (eraseAt s n r n = [])) as [Hnil|Hnil].
    + assert (Hid : ideal (eraseAt s n r) n f = None) by (unfold ideal; by rewrite decide_True).
      unfold erasedU in EU. rewrite Hnil in EU.
      destruct (decide (f = rt_faceId x)) as [->|Hf]; [by apply (goodAt_remove s _ _ _ n _ 0)|]. rewrite decide_True in EU by done.
      destruct (hasOn f (inheritedAt s n)) eqn:Einh; [by apply (goodAt_remove s _ _ _ n _ 0)|]. split; [|split; [|done]].
      * intros o [H1 _]. rewrite EU. cbn. split; [|intros y; by rewrite Hnil]. rewrite Hid. split; [|by intros [? ?]]. intros Ho%H1. exfalso.
        assert (inh s n f = true); [|unfold inh in *; congruence]. apply Hi; [done| |done]. apply hasOn_false.
        specialize (Hown f). rewrite decide_False, Hnil in Hown by done. done.
      * by intros ?.
    + unfold erasedU, erasedL in *. specialize (Hnear f). rewrite Hown in Hnear.
      assert (Hid : ideal (eraseAt s n r) n f = rt_cost <$> nearest (eraseAt s n r) n (S (length n)) f) by (unfold ideal; by rewrite decide_False).
      destruct (decide (f = rt_faceId x)) as [->|Hf].
      * rewrite decide_True in EL by done. rewrite Hnear in Hid. destruct (eraseAt s n r n) as [|a rest] eqn:Erest; [done|].
        destruct (setLookup (rt_faceId x) anc) as [y|] eqn:Ey; [|by apply (goodAt_remove s _ _ _ n _ 0); [|rewrite Erest|]].
        apply (goodAt_add s _ _ _ n _ (rt_cost y)); [done|by left|rewrite Hid; by eexists|]. intros z. by rewrite Erest, Hown, decide_True.
      * rewrite decide_False in EU by done. rewrite decide_False in EL by (by intros [? _]).
        apply (goodAt_ext _ _ noChange noChange); [|done|done]. apply goodAt_same; [done| |done|by rewrite Hown, decide_False].
        rewrite Hid, Hnear, (ideal_self (routesAt s)), Hanc by done. done.
  - destruct (Hm m f Hmn) as [EU EL]. eapply goodAt_ext; [|exact EU|exact EL]. apply subtree_good; [done|done|done|..].
    + intros y Hy. rewrite Hnear, Hy. by destruct (setLookup f (eraseAt s n r n)).
    + intros Ha HD. rewrite Hnear, Ha, Hown. apply hasOn_true in HD as [y Hy]. apply setLookup_Some in Hy as [->%list_elem_of_singleton <-].
      by rewrite decide_True.
    + intros Ha HD. rewrite Hnear, Ha, nearest_own, <- Hanc, Ha, Hown. apply hasOn_false in HD. rewrite setLookup_cons in HD.
      destruct (decide (rt_faceId x = f)); [done|]. by rewrite decide_False.
Qed.

Lemma erasedRibEntry_changes e :
  changes (createFibUpdatesForErasedRibEntry e) tt
    (λ m f, if bool_decide (m = re_name e) && hasOn f (re_inheritedRoutes e) then Some (REMOVE_NEXTHOP, 0%Z) else None) noChange.
Proof.
  unfold createFibUpdatesForErasedRibEntry. induction (re_inheritedRoutes e) as [|r l IH]; cbn [forM].
  - eapply changes_ext; [apply changes_ret|..]; intros m f; [by rewrite andb_false_r|done].
  - eapply changes_ext; [eapply changes_bind; [apply changes_update|exact IH]|..]; intros m f; unfold override, noChange, oneChange; [|done].
    cbn [fu_name fu_faceId fu_action fu_cost createRemoveUpdate hasOn existsb]. fold (hasOn f l). case_bool_decide as Hm; cbn [andb].
    + subst m. destruct (hasOn f l); [by rewrite orb_true_r|]. rewrite orb_false_r. destruct (Z.eqb_spec (rt_faceId r) f) as [->|]; [by rewrite decide_True|].
      by rewrite decide_False by congruence.
    + by rewrite decide_False by congruence.
Qed.

(** The changes of [createFibUpdatesForErasedRoute], for the entry left without [x]. *)
Lemma erasedRoute_changes s n p e i x anc off :
  RibInv s → Plain originOf s → Rib_find n s = Some p → rb_heap s !! p = Some e → plain originOf x →
  (∀ e', re_parent e' = findParent n s → getAncestorRoutes_entry e' s = Some anc) → StronglySorted face_lt anc →
  let rest := delete i (re_routes e) in
  changes (createFibUpdatesForErasedRoute s (set_re_routes rest (re_nRoutesWithCaptureSet e) e) x off) tt
    (override (oneChange n (rt_faceId x) (REMOVE_NEXTHOP, 0%Z)) (override (subU s n anc [x])
      (λ m f, if decide (m = n ∧ f = rt_faceId x ∧ rest ≠ []) then addChange (setLookup f anc) else None)))
    (override (subL s n anc [x]) (λ m f, if decide (m = n ∧ f = rt_faceId x ∧ rest ≠ []) then addLog (setLookup f anc) else None)).
Proof.
  intros Hs Hp Hn He Hx Hanc Hsort rest. destruct (entry_plain s n p e) as (_ & _ & Hcap & Ho); [done..|].
  set (temp := set_re_routes rest _ e). unfold createFibUpdatesForErasedRoute. destruct (plain_inherit originOf x Hx) as [-> ->].
  change (hasCapture temp) with (hasCapture e). rewrite Hcap. cbn [andb negb].
  assert (Hpar : getAncestorRoutes_entry temp s = Some anc) by (apply Hanc, (eo_parent _ _ _ _ Ho)).
  assert (Htail : changes (if negb (getNRoutes temp =? 0) then match set_find x anc with
      | Some it => addInheritedRoute (re_name temp) it;; addFibUpdate (createAddUpdate (re_name temp) (rt_faceId it) (rt_cost it)) | None => mret tt end else mret tt) tt
    (λ m f, if decide (m = n ∧ f = rt_faceId x ∧ rest ≠ []) then addChange (setLookup f anc) else None)
    (λ m f, if decide (m = n ∧ f = rt_faceId x ∧ rest ≠ []) then addLog (setLookup f anc) else None)).
  { change (set_find x anc) with (setLookup (rt_faceId x) anc). unfold getNRoutes. cbn [temp re_routes set_re_routes re_name]. rewrite (eo_name _ _ _ _ Ho).
    destruct rest as [|a l]; cbn [length Nat.eqb negb].
    - eapply changes_ext; [apply changes_ret|..]; intros m f; by rewrite decide_False by (by intros (_ & _ & ?)).
    - destruct (setLookup (rt_faceId x) anc) as [y|] eqn:Ey.
      + pose proof (setLookup_Some _ _ _ Ey) as [_ Efy].
        eapply changes_ext; [apply addInherited_spec|..]; intros m f; unfold oneChange; rewrite Efy;
          (destruct (decide ((m, f) = (n, rt_faceId x))) as [E|E]; [injection E as -> ->; rewrite decide_True by done; by rewrite Ey|]);
          rewrite decide_False; [done| |done|]; intros (-> & -> & _); by apply E.
      + eapply changes_ext; [apply changes_ret|..]; intros m f; (destruct (decide _) as [(-> & -> & _)|]; [by rewrite Ey|done]). }
  eapply changes_ext; [eapply changes_bind; [apply changes_update|]; eapply changes_bind;
    [eapply changes_some_bind; [exact Hpar|]; eapply modifyChildren_spec; [done|done|by eapply (entryChildren s n p e)|by apply sorted_faces]|];
    eapply changes_some_bind; [exact Hpar|exact Htail]|..]; intros m f; [|by unfold override, noChange; destruct (if decide _ then _ else _); [|destruct (subL _ _ _ _ _ _)]].
  cbn [fu_name fu_faceId fu_action fu_cost createRemoveUpdate]. change (re_name temp) with (re_name e). by rewrite (eo_name _ _ _ _ Ho).
Qed.

Lemma unregistration_good s x :
  RibInv s → Plain originOf s → inhMatches s →
  ∃ ev U L, changes (computeUpdatesForUnregistration s x) ev U L ∧ good s (eraseAt s (ru_name x) (ru_route x)) U L.
Proof.
  intros Hs Hp Hi. set (n := ru_name x). set (r := ru_route x). unfold computeUpdatesForUnregistration. fold n r.
  destruct (Rib_find n s) as [p|] eqn:Hn; [|eexists _, _, _; split; [apply changes_ret|apply erase_none_good; [done|by left]]].
  destruct (ri_entry s Hs n p Hn) as (e & He & _). destruct (entry_plain s n p e) as (Hl & ER & Hcap & Ho); [done..|].
  destruct (findRoute e r) as [i|] eqn:Efr.
  2:{ eexists _, _, _. split; [apply (changes_some_bind _ _ e); [done|]; rewrite Efr; apply changes_ret|]. apply erase_none_good; [done|right]. by rewrite ER. }
  pose proof Efr as (y & Hy & [= Ef _]%compare_key)%find_index_Some. assert (Hpy : plain originOf y) by (apply Hl; by eapply list_elem_of_lookup_2).
  destruct (ancestors_plain s n Hs Hp) as (anc & _ & Hanc & Hsort & Hlook). set (rest := delete i (re_routes e)).
  assert (Herase : eraseRoute r e = (set_re_routes rest (re_nRoutesWithCaptureSet e) e, rt_expirationEvent y)).
  { unfold eraseRoute, eraseRouteAt. rewrite Efr, Hy. destruct (plain_inherit originOf y Hpy) as [_ ->]. done. }
  assert (Erest : eraseAt s n r n = rest) by (rewrite eraseAt_self, ER; unfold removeKey; unfold findRoute in Efr; by rewrite Efr).
  assert (Hone : getNRoutes e = 1 ↔ rest = []).
  { unfold getNRoutes, rest. rewrite <- length_zero_iff_nil, length_delete by (by eexists). pose proof (lookup_lt_Some _ _ _ Hy). lia. }
  eexists _, _, _. split.
  - apply (changes_some_bind _ _ e); [done|]. rewrite Efr. apply (changes_some_bind _ _ y); [done|]. rewrite Herase, (secondLowest_plain originOf) by done.
    eapply changes_bind; [by apply (erasedRoute_changes s n p e i y anc)|]. eapply changes_bind; [apply changes_ret|].
    eapply changes_bind; [|apply changes_ret]. instantiate (1 := noChange).
    instantiate (1 := λ m f, if bool_decide (m = n ∧ rest = []) && hasOn f (re_inheritedRoutes e) then Some (REMOVE_NEXTHOP, 0%Z) else None).
    destruct (decide (getNRoutes e = 1)) as [H1|H1].
    + eapply changes_ext; [apply erasedRibEntry_changes|..]; intros m f; [|done]. rewrite (eo_name _ _ _ _ Ho). rewrite (bool_decide_ext (m = n) (m = n ∧ rest = [])); [done|tauto].
    + eapply changes_ext; [apply changes_ret|..]; intros m f; [|done]. rewrite bool_decide_eq_false_2; [done|]. tauto.
  - eapply (erase_good s n r i y anc); [done|done|done|by rewrite ER|by rewrite ER|done|done| |]; fold rest; unfold override, noChange, oneChange.
    + intros m f Hm. rewrite !(decide_False (P := m = n ∧ _)), (bool_decide_eq_false_2 (m = n ∧ _)) by (by intros [? _]). cbn [andb].
      rewrite decide_False by congruence. split; [by destruct (subU _ _ _ _ _ _)|by destruct (subL _ _ _ _ _ _)].
    + intros f. unfold subU, subL. rewrite Erest. unfold inheritedAt. rewrite (entryAt_Some s n p e) by done. cbn [fmap option_fmap option_map default].
      unfold erasedU, erasedL. rewrite affected_self. clearbody rest. destruct (decide (f = rt_faceId y)) as [->|Hf].
      * rewrite (decide_True (P := (n, _) = _)) by done. destruct rest as [|a l].
        -- rewrite !(decide_False (P := n = n ∧ _)), !(decide_False (P := rt_faceId y = rt_faceId y ∧ _)) by tauto. by destruct (_ && _).
        -- rewrite !(decide_True (P := n = n ∧ _)), !(decide_True (P := rt_faceId y = rt_faceId y ∧ _)) by done. rewrite bool_decide_eq_false_2 by (by intros [_ ?]).
           by destruct (setLookup (rt_faceId y) anc).
      * rewrite !(decide_False (P := n = n ∧ _)), !(decide_False (P := f = rt_faceId y ∧ _)) by tauto. rewrite (decide_False (P := (n, f) = _)) by congruence.
        split; [|done]. destruct (decide (rest = [])) as [->|]; [rewrite bool_decide_eq_true_2 by done|rewrite bool_decide_eq_false_2 by tauto]; cbn [andb id];
          [by destruct (hasOn f (re_inheritedRoutes e))|done].
Qed.
End ComputeGood.
