(* ===== verification/RibSystem.v ===== *)
(** * The RIB, its updater and the FIB together

    The RIB service ([Rib], [FibUpdater]) with what surrounds it: the managers that
    request updates, the faces that go down, and the FIB management that executes
    the commands and answers.  A run is any sequence of such events.  The invariant
    says that the FIB, with the updates that are still pending, matches the routes
    the RIB has when the current batch is applied. *)

From Stdlib Require Import ZArith Lia.
From stdpp Require Import base gmap option list sorting fin_maps.
From S2P Require Import Prelude Scheduler Ndn FibEntry Rib FibUpdater RibSpecs RibAncestors FibUpdaterSpecs.
From S2P Require Import RibFib.

(** ** Applying a batch *)

Section Apply.
Context {N : NdnCxx} {NL : NdnCxxLaws N} {SC : Scheduler} {NE : NthElement} (originOf : Z → Z).
Implicit Types (s : Rib) (R : Name → list Route) (n m : Name) (f : Z) (r : Route) (x : RibUpdate) (u : FibUpdater).

Definition sameTable s s' : Prop :=
  rb_heap s' = rb_heap s ∧ rb_rib s' = rb_rib s ∧ rb_faceEntries s' = rb_faceEntries s ∧ rb_nItems s' = rb_nItems s.

Lemma sameTable_views s s' : sameTable s s' →
  (∀ n, Rib_find n s' = Rib_find n s) ∧ (∀ n, findParent n s' = findParent n s) ∧ (∀ n, entryAt s' n = entryAt s n).
Proof.
  intros (Eh & Er & _). split; [intros n; unfold Rib_find; by rewrite Er|]. split; [intros n; unfold findParent; by rewrite Er|].
  intros n. unfold entryAt, Rib_find. by rewrite Eh, Er.
Qed.

Lemma RibInv_frame s s' : sameTable s s' → RibInv s → RibInv s'.
Proof.
  intros Hsame Hs. destruct (sameTable_views s s' Hsame) as (Hf & Hp & He). destruct Hsame as (Eh & Er & Ef & En). split.
  - rewrite Er. apply Hs.
  - rewrite Er. apply Hs.
  - intros n p Hn. rewrite Hf in Hn. destruct (ri_entry s Hs n p Hn) as (e & Hh & Ho). exists e. rewrite Eh. split; [done|].
    destruct Ho as [H1 H2 H3 H4 H5 H6 H7]. split; try done.
    + by rewrite Hp.
    + intros c. rewrite H6. split; intros (m & ? & ?); exists m; by rewrite ?Hf, ?Hp in *.
    + by rewrite Ef.
  - intros f p. rewrite Ef, Eh. apply Hs.
  - rewrite En, (ri_nItems s Hs). unfold countRoutes. rewrite Er. f_equal. unfold routesAt. apply sum_list_with_ext. intros kv _. by rewrite He.
Qed.

(** The RIB is well formed, plain, and records what is inherited. *)
Record RibGood s : Prop := {
  rg_inv : RibInv s;
  rg_plain : Plain originOf s;
  rg_inh : inhMatches s;
}.

Lemma RibGood_frame s s' : sameTable s s' → RibGood s → RibGood s'.
Proof.
  intros Hsame [Hi [Hr Hc] Hm]. pose proof (RibInv_frame s s' Hsame Hi) as Hi'. destruct (sameTable_views s s' Hsame) as (_ & _ & He).
  assert (ER : ∀ n, routesAt s' n = routesAt s n) by (intros n; unfold routesAt; by rewrite He). split; [done|split|].
  - intros n r. rewrite ER. apply Hr.
  - intros n. unfold captureAt. rewrite He. apply Hc.
  - intros n f. specialize (Hm n f). unfold inhMatchesAt, inh, inheritedAt, ideal in *. rewrite He, ER.
    rewrite (nearest_agree (routesAt s') (routesAt s)); [done|]. intros j _. by rewrite ER.
Qed.

(** The routes after an update. *)
Definition target s x : Name → list Route :=
  match ru_action x with
  | REGISTER => insertAt s (ru_name x) (ru_route x)
  | UNREGISTER | REMOVE_FACE => eraseAt s (ru_name x) (ru_route x)
  end.

Lemma modifyInherited_spec l s :
  RibInv s → (∀ x, x ∈ l → routesAt s (ru_name x) ≠ [] ∧ ru_action x ≠ REMOVE_FACE) →
  wp (modifyInheritedRoutes l) (λ _ s', RibInv s' ∧ queueFrame s s' ∧ (∀ m, routesAt s' m = routesAt s m) ∧
    (∀ m, captureAt s' m = captureAt s m) ∧ ∀ m f, routesAt s m ≠ [] → inh s' m f = default (inh s m f) (logOf l m f)) s.
Proof.
  intros Hs Hl. unfold modifyInheritedRoutes.
  eapply wp_mono; [apply (wp_forM l _ (λ l' s', ∃ l0, l = l0 ++ l' ∧ RibInv s' ∧ queueFrame s s' ∧ (∀ m, routesAt s' m = routesAt s m) ∧
    (∀ m, captureAt s' m = captureAt s m) ∧ ∀ m f, routesAt s m ≠ [] → inh s' m f = default (inh s m f) (logOf l0 m f)))|].
  - intros x l' s1 (l0 & -> & Hs1 & Hq1 & Hr1 & Hc1 & Hi1). destruct (Hl x) as [Hne Ha]; [apply elem_of_app; right; by left|].
    rewrite <- Hr1 in Hne. apply routesAt_nonempty in Hne as [p Hp]; [|done]. destruct (ri_entry s1 Hs1 _ p Hp) as (e & He & Ho).
    unfold modifyInheritedRoute. do 2 wp_step. wp_step. wp_step; [exact Hp|].
    assert (Hstep : ∀ (g : RibEntry → RibEntry) b, (∀ e0, re_name (g e0) = re_name e0 ∧ re_parent (g e0) = re_parent e0 ∧ re_children (g e0) = re_children e0 ∧
        re_routes (g e0) = re_routes e0 ∧ re_nRoutesWithCaptureSet (g e0) = re_nRoutesWithCaptureSet e0) →
      (∀ f, hasOn f (re_inheritedRoutes (g e)) = if decide (rt_faceId (ru_route x) = f) then b else hasOn f (re_inheritedRoutes e)) →
      bool_decide (ru_action x = REGISTER) = b →
      wp (updateEntry p g) (λ _ s', ∃ l1, l0 ++ x :: l' = l1 ++ l' ∧ RibInv s' ∧ queueFrame s s' ∧ (∀ m, routesAt s' m = routesAt s m) ∧
        (∀ m, captureAt s' m = captureAt s m) ∧ ∀ m f, routesAt s m ≠ [] → inh s' m f = default (inh s m f) (logOf l1 m f)) s1).
    { intros g b Hg Hb Eb. eapply updateRibEntry_spec; [exact He|]. destruct (Hg e) as (G1 & G2 & G3 & G4 & G5). set (s2 := set_rb_heap _ s1).
      pose proof (update_views s1 s2 (ru_name x) p e (g e) Hs1 Hp He eq_refl eq_refl) as Hv. exists (l0 ++ [x]). rewrite <- app_assoc. split; [done|].
      split; [apply (RibInv_update s1 s2 (ru_name x) p e (g e)); try done; rewrite ?G4; try apply Ho; cbn; lia|]. split; [done|]. split; [|split].
      - intros m. rewrite <- Hr1. unfold routesAt. rewrite Hv. destruct (decide (m = ru_name x)) as [->|]; [|done]. cbn. rewrite G4. by rewrite (entryAt_Some s1 _ p e).
      - intros m. rewrite <- Hc1. unfold captureAt. rewrite Hv. destruct (decide (m = ru_name x)) as [->|]; [|done]. cbn. rewrite G5. by rewrite (entryAt_Some s1 _ p e).
      - intros m f Hm. rewrite logOf_snoc, Eb. unfold inh, inheritedAt in *. rewrite Hv. specialize (Hi1 m f Hm). destruct (decide (m = ru_name x)) as [->|].
        + rewrite (entryAt_Some s1 _ p e) in Hi1 by done. etrans; [exact (Hb f)|]. change (hasOn f (re_inheritedRoutes e) = default (inh s (ru_name x) f) (logOf l0 (ru_name x) f)) in Hi1.
          rewrite Hi1. destruct (decide (rt_faceId (ru_route x) = f)); [by rewrite decide_True|]. rewrite decide_False; [done|]. by intros [_ ?].
        + rewrite decide_False by (by intros [? _]). done. }
    destruct (ru_action x) eqn:Ea; [| |done].
    + apply (Hstep (entry_addInheritedRoute (ru_route x)) true); [done| |done]. intros f. cbn. unfold hasOn. rewrite existsb_app. cbn.
      rewrite orb_false_r. destruct (Z.eqb_spec (rt_faceId (ru_route x)) f); [rewrite decide_True by done; apply orb_true_r|rewrite decide_False by done; apply orb_false_r].
    + apply (Hstep (entry_removeInheritedRoute (ru_route x)) false); [done| |done]. intros f. cbn. clear. unfold hasOn.
      induction (re_inheritedRoutes e) as [|r l IH]; [by destruct (decide _)|]. rewrite filter_cons. cbn.
      destruct (decide (rt_faceId r ≠ rt_faceId (ru_route x))) as [Hne|He]; cbn; rewrite IH; destruct (decide (rt_faceId (ru_route x) = f)) as [E|]; try done.
      * destruct (Z.eqb_spec (rt_faceId r) f); [congruence|done].
      * destruct (Z.eqb_spec (rt_faceId r) f); [|done]. exfalso. apply He. congruence.
  - exists []. split; [done|]. split; [done|]. done.
  - intros [] s' (l0 & -> & H). rewrite app_nil_r. tauto.
Qed.
End Apply.

(** ** A batch in progress *)

Section Batch.
Context {N : NdnCxx} {NL : NdnCxxLaws N} {SC : Scheduler} {NE : NthElement} (originOf : Z → Z).
Context (fib : gmap (Name * Z) Z) (dead notified : gset Z) (accepted : list nat).
Implicit Types (s : Rib) (R : Name → list Route) (n m : Name) (f : Z) (r : Route) (x : RibUpdate) (u : FibUpdater) (rs : RibState).

Definition matchesAlive R : Prop := ∀ n f, f ∉ dead → fibMatchesAt R (fib !! (n, f)) n f.

(** Updates are requested for faces that are up, and faces are removed after they went down. *)
Definition okUpdate x : Prop :=
  match ru_action x with
  | REGISTER => plain originOf (ru_route x) ∧ rt_faceId (ru_route x) ∉ dead
  | UNREGISTER => rt_faceId (ru_route x) ∉ dead
  | REMOVE_FACE => rt_faceId (ru_route x) ∈ dead
  end.

Definition itemOf x (callback : option nat) : UpdateQueueItem := mkUpdateQueueItem (mkRibUpdateBatch (rt_faceId (ru_route x)) [x]) callback.

Definition QueueOk (q : list UpdateQueueItem) : Prop := ∀ item, item ∈ q → ∃ x callback, item = itemOf x callback ∧ okUpdate x.

(** The routes on a face whose destruction has been notified are about to be removed. *)
Definition covered (q : list UpdateQueueItem) R : Prop :=
  ∀ n r, r ∈ R n → rt_faceId r ∈ notified →
    ∃ x callback, itemOf x callback ∈ q ∧ ru_action x = REMOVE_FACE ∧ ru_name x = n ∧ routeKey (ru_route x) = routeKey r.

(** Every accepted request is answered once, in order, with success. *)
Definition Accounted rs (current : list UpdateQueueItem) : Prop :=
  (fst <$> rs_done rs) ++ omap q_callback (current ++ rb_updateBatches (rs_rib rs)) = accepted ∧
  ∀ d, d ∈ rs_done rs → d.2 = UpdateOk.

Record Idle rs : Prop := {
  id_good : RibGood originOf (rs_rib rs);
  id_progress : rb_isUpdateInProgress (rs_rib rs) = false;
  id_commands : rs_commands rs = [];
  id_queue : QueueOk (rb_updateBatches (rs_rib rs));
  id_fib : matchesAlive (routesAt (rs_rib rs));
  id_covered : covered (rb_updateBatches (rs_rib rs)) (routesAt (rs_rib rs));
  id_accounted : Accounted rs [];
}.

(** The pending updates and the recorded changes lead to the routes after the update [x]. *)
Record Leads s x u : Prop := {
  le_ok : UpdOk u;
  le_face : up_batchFaceId u = rt_faceId (ru_route x);
  le_removed : ru_action x = REMOVE_FACE → up_updatesForBatchFaceId u = [];
  le_fib : ∀ n f, f ∉ dead → fibMatchesAt (target s x) (applyUpd (updOf u n f) (fib !! (n, f))) n f;
  le_inh : ∀ n f, inhMatchesAt (target s x) (default (inh s n f) (logOf (up_inheritedRoutes u) n f)) n f;
  le_log : ∀ y, y ∈ up_inheritedRoutes u → target s x (ru_name y) ≠ [] ∧ ru_action y ≠ REMOVE_FACE;
}.

Record Pending x callback rs : Prop := {
  pe_good : RibGood originOf (rs_rib rs);
  pe_progress : rb_isUpdateInProgress (rs_rib rs) = true;
  pe_update : okUpdate x;
  pe_queue : QueueOk (rb_updateBatches (rs_rib rs));
  pe_leads : Leads (rs_rib rs) x (rs_updater rs);
  pe_covered : covered (rb_updateBatches (rs_rib rs)) (target (rs_rib rs) x);
  pe_accounted : Accounted rs [itemOf x callback];
}.

(** The outstanding commands are the updates of the current stage. *)
Definition stage u : list FibUpdate :=
  match up_updatesForBatchFaceId u with [] => up_updatesForNonBatchFaceId u | updates => updates end.

Record Sent x callback rs : Prop := {
  se_nonempty : stage (rs_updater rs) ≠ [];
  se_perm : c_update <$> rs_commands rs ≡ₚ stage (rs_updater rs);
  se_commands : ∀ c, c ∈ rs_commands rs → c_item c = itemOf x callback ∧ c_verb c = fu_action (c_update c);
}.

Definition Busy rs : Prop := ∃ x callback, Pending x callback rs ∧ Sent x callback rs.

Definition Settled rs : Prop := (Idle rs ∧ rb_updateBatches (rs_rib rs) = []) ∨ Busy rs.

(** Settled with fewer than [k] batches in the queue, if one is in progress. *)
Definition Moved (k : nat) rs : Prop :=
  (Idle rs ∧ rb_updateBatches (rs_rib rs) = []) ∨ (Busy rs ∧ length (rb_updateBatches (rs_rib rs)) < k).

Lemma target_changed s x m r : m ≠ ru_name x → r ∈ target s x m → r ∈ routesAt s m.
Proof. intros Hm. unfold target. destruct (ru_action x); [rewrite insertAt_changed by done|rewrite eraseAt_changed by done..]; done. Qed.

Lemma target_elem s x m r : r ∈ target s x m → r ∈ routesAt s m ∨ (ru_action x = REGISTER ∧ r = ru_route x).
Proof.
  assert (Hrem : r ∈ eraseAt s (ru_name x) (ru_route x) m → r ∈ routesAt s m).
  { unfold eraseAt. destruct (decide (m = ru_name x)) as [->|]; [|done]. unfold removeKey. destruct (find_index _ _) as [i|]; [|done].
    intros Hr. eapply sublist_subseteq; [apply sublist_delete|exact Hr]. }
  unfold target. destruct (ru_action x); [|by intros ?%Hrem; left..]. unfold insertAt. destruct (decide (m = ru_name x)) as [->|]; [|by left].
  unfold upsert. destruct (find_index _ _) as [i|].
  - intros [j Hj]%list_elem_of_lookup. apply list_lookup_insert_Some in Hj as [(_ & <- & _)|[_ Hj]]; [by right|]. left. by eapply list_elem_of_lookup_2.
  - intros [?| ->%list_elem_of_singleton]%elem_of_app; [by left|by right].
Qed.

Lemma matches_ext R R' o n f : (∀ m, R m = R' m) → fibMatchesAt R o n f → fibMatchesAt R' o n f.
Proof.
  intros E [H1 H2]. unfold fibMatchesAt, ideal in *. rewrite <- E, (nearest_agree R' R); [done|]. intros j _. by rewrite E.
Qed.

Lemma erase_plain_spec n r s : RibInv s → Plain originOf s →
  wp (Rib_erase n r) (λ _ s', RibInv s' ∧ queueFrame s s' ∧ (∀ m, routesAt s' m = eraseAt s n r m) ∧
    (∀ m, eraseAt s n r m ≠ [] → inheritedAt s' m = inheritedAt s m) ∧ (∀ m, captureAt s' m = 0%Z)) s.
Proof.
  intros Hs [Hpr Hpc]. eapply wp_mono; [by apply Rib_erase_spec|]. intros [] s' (H1 & H2 & H3 & H4 & H5 & H6). do 3 (split; [done|]).
  split; [intros m Hm; apply H4; rewrite H3; exact Hm|]. intros m. destruct (decide (m = n)) as [->|]; [|by rewrite H5].
  destruct (decide (routesAt s' n = [])) as [E|E].
  - unfold captureAt, entryAt. destruct (Rib_find n s') as [p|] eqn:Ep; [|done]. exfalso. by eapply (proj2 (routesAt_nonempty s' n H1)); [eexists|].
  - rewrite H6, Hpc; [done| |done]. intros r' Hr'. by eapply (plain_inherit originOf), Hpr.
Qed.

(** The update is applied to the RIB. *)
Lemma applyRibUpdate_spec x s u : RibGood originOf s → okUpdate x → Leads s x u →
  wp (match ru_action x with REGISTER => Rib_insert (ru_name x) (ru_route x) | _ => Rib_erase (ru_name x) (ru_route x) end;;
      modifyInheritedRoutes (up_inheritedRoutes u))
    (λ _ s', RibGood originOf s' ∧ queueFrame s s' ∧ ∀ m, routesAt s' m = target s x m) s.
Proof.
  intros [Hs [Hpr Hpc] Hi] Hok Hl. wp_step.
  apply wp_mono with (Q := λ _ s', RibInv s' ∧ queueFrame s s' ∧ (∀ m, routesAt s' m = target s x m) ∧
    (∀ m, target s x m ≠ [] → inheritedAt s' m = inheritedAt s m) ∧ (∀ m, captureAt s' m = 0%Z)).
  - unfold target, okUpdate in *. destruct (ru_action x).
    + eapply wp_mono; [by apply Rib_insert_spec|]. intros [] s' (H1 & H2 & H3 & H4 & H5 & H6). do 3 (split; [done|]). split; [done|].
      intros m. destruct (decide (m = ru_name x)) as [->|]; [|by rewrite H5]. rewrite H6, Hpc; [done|]. by eapply (plain_inherit originOf), Hok.
    + by apply erase_plain_spec.
    + by apply erase_plain_spec.
  - intros [] s1 (Hs1 & Hq1 & Hr1 & Hi1 & Hc1). eapply wp_mono; [apply modifyInherited_spec; [done|]|].
    { intros y Hy. rewrite Hr1. by apply Hl. }
    intros [] s' (Hs' & Hq' & Hr' & Hc' & Hi'). assert (HR : ∀ m, routesAt s' m = target s x m) by (intros m; by rewrite Hr').
    split; [|split; [|done]].
    + split; [done|split|].
      * intros n r. rewrite HR. intros [Hr|[E ->]]%target_elem; [by eapply Hpr|]. unfold okUpdate in Hok. rewrite E in Hok. apply Hok.
      * intros n. by rewrite Hc', Hc1.
      * intros n f. unfold inhMatchesAt. rewrite HR. intros Hne Ho Hid. rewrite Hi' by (by rewrite Hr1). unfold inh at 1. rewrite Hi1 by done.
        apply (le_inh _ _ _ Hl n f); [done|done|]. unfold ideal in *. rewrite HR in Hid. rewrite (nearest_agree _ (routesAt s')); [done|]. intros j _. by rewrite HR.
    + destruct Hq1 as (? & ? & ?), Hq' as (? & ? & ?). split; [congruence|split; congruence].
Qed.

Lemma onSuccess_spec x callback rs (next : M RibState unit) Q :
  Pending x callback rs → rs_commands rs = [] → (∀ n f, f ∉ dead → updOf (rs_updater rs) n f = None) →
  (∀ rs', Idle rs' → rb_updateBatches (rs_rib rs') = rb_updateBatches (rs_rib rs) → wp next Q rs') →
  wp (onFibUpdateSuccess next (itemOf x callback) (up_inheritedRoutes (rs_updater rs))) Q rs.
Proof.
  intros Hp Hc Hupd Hnext. destruct Hp as [Hg Hpr Hok Hq Hl Hcov Hacc]. unfold onFibUpdateSuccess. cbn [itemOf q_batch b_updates q_callback forM].
  pose proof (applyRibUpdate_spec x (rs_rib rs) (rs_updater rs) Hg Hok Hl) as Hap. apply wp_bind in Hap.
  do 2 wp_step. apply wp_mono with (Q := λ _ rs1, ∃ s1, rs1 = set_rs_rib s1 rs ∧ wp (modifyInheritedRoutes (up_inheritedRoutes (rs_updater rs)))
    (λ _ s', RibGood originOf s' ∧ queueFrame (rs_rib rs) s' ∧ ∀ m, routesAt s' m = target (rs_rib rs) x m) s1).
  { unfold applyRibUpdate. destruct (ru_action x); unfold ribM; apply wp_lift; (eapply wp_mono; [exact Hap|]); intros [] s1 H1; eauto. }
  intros [] rs1 (s1 & -> & H1). do 2 wp_step. unfold ribM at 1. apply wp_lift. eapply wp_mono; [exact H1|].
  intros [] s2 (Hg2 & (Hq2 & _ & _) & HR2). cbn [rs_rib set_rs_rib]. wp_step. unfold ribM at 1. apply wp_lift. do 2 wp_step.
  set (s3 := set_rb_queue (rb_updateBatches s2) false s2). assert (Hg3 : RibGood originOf s3) by (by apply (RibGood_frame originOf s2)).
  set (rs3 := set_rs_rib s3 rs). lazymatch goal with |- wp _ _ ?z => change z with rs3 end.
  apply wp_mono with (Q := λ _ rs4, ∃ d, rs4 = set_rs_done d rs3 ∧ (fst <$> d) = (fst <$> rs_done rs) ++ option_list callback ∧ ∀ y, y ∈ d → y.2 = UpdateOk).
  { destruct Hacc as [_ Hacc]. unfold callManager. destruct callback as [id|]; wp_step; [exists (rs_done rs ++ [(id, UpdateOk)])|exists (rs_done rs)].
    - split; [done|]. split; [by rewrite fmap_app|]. intros y [?| ->%list_elem_of_singleton]%elem_of_app; [by apply Hacc|done].
    - split; [done|]. by rewrite app_nil_r. }
  intros [] rs4 (d & -> & Hd & Hdok). apply Hnext; [|exact Hq2]. split; cbn.
  - done.
  - done.
  - done.
  - by rewrite Hq2.
  - intros n f Hf. apply (matches_ext (target (rs_rib rs) x)); [intros m; symmetry; apply HR2|]. pose proof (le_fib _ _ _ Hl n f Hf) as H. by rewrite Hupd in H.
  - intros n r. change (routesAt s3 n) with (routesAt s2 n). rewrite HR2, Hq2. apply Hcov.
  - split; [|done]. destruct Hacc as [Hacc _]. cbn. rewrite Hd, Hq2, <- Hacc. cbn. rewrite <- app_assoc. by destruct callback.
Qed.

Lemma sendUpdates_spec (l : list FibUpdate) item rs (Q : unit → RibState → Prop) :
  Q tt (set_rs_commands (rs_commands rs ++ ((λ y, mkCommand (fu_action y) y 0 item) <$> l)) rs) → wp (sendUpdates l item) Q rs.
Proof.
  unfold sendUpdates. revert rs. induction l as [|y l IH]; intros rs HQ; cbn [forM].
  - wp_step. rewrite app_nil_r in HQ. by destruct rs.
  - wp_step. apply wp_mono with (Q := λ _ rs', rs' = set_rs_commands (rs_commands rs ++ [mkCommand (fu_action y) y 0 item]) rs).
    + destruct (fu_action y) eqn:E; unfold sendAddNextHopUpdate, sendRemoveNextHopUpdate; wp_step; done.
    + intros [] rs' ->. apply IH. cbn [rs_commands set_rs_commands]. rewrite <- app_assoc. exact HQ.
Qed.

Lemma Sent_start x callback rs l : rs_commands rs = [] → stage (rs_updater rs) = l → l ≠ [] →
  Sent x callback (set_rs_commands (rs_commands rs ++ ((λ y, mkCommand (fu_action y) y 0 (itemOf x callback)) <$> l)) rs).
Proof.
  intros Hc Hl Hne. rewrite Hc. split; cbn [rs_updater rs_commands set_rs_commands app].
  - by rewrite Hl.
  - rewrite <- list_fmap_compose, Hl. change (c_update ∘ _) with (λ y : FibUpdate, y). by rewrite list_fmap_id.
  - intros c (y & -> & _)%list_elem_of_fmap. done.
Qed.

Lemma Pending_commands x callback l rs : Pending x callback rs → Pending x callback (set_rs_commands l rs).
Proof. by intros [H1 H2 H3 H4 H5 H6 H7]. Qed.

(** Sending the updates on other faces, when those on the batch's face are done. *)
Lemma sendNonBatch_spec x callback rs (next : M RibState unit) :
  Pending x callback rs → rs_commands rs = [] → up_updatesForBatchFaceId (rs_updater rs) = [] →
  (∀ rs', Idle rs' → rb_updateBatches (rs_rib rs') = rb_updateBatches (rs_rib rs) → wp next (λ _, Moved (length (rb_updateBatches (rs_rib rs)))) rs') →
  wp (sendUpdatesForNonBatchFaceId (itemOf x callback) (onFibUpdateSuccess next (itemOf x callback)))
    (λ _ rs', Moved (length (rb_updateBatches (rs_rib rs))) rs' ∨ (Busy rs' ∧ rs_updater rs' = rs_updater rs ∧ rs_rib rs' = rs_rib rs)) rs.
Proof.
  intros Hp Hc Hb Hnext. unfold sendUpdatesForNonBatchFaceId. do 2 wp_step. destruct (up_updatesForNonBatchFaceId (rs_updater rs)) as [|y l] eqn:El.
  - apply (onSuccess_spec x callback rs); [done|done| |].
    + intros n f _. unfold updOf. rewrite Hb, El. by destruct (_ =? _)%Z.
    + intros rs' Hi Eq. eapply wp_mono; [by apply Hnext|]. intros [] rs'' H. by left.
  - apply sendUpdates_spec. assert (HB : Busy (set_rs_commands (rs_commands rs ++ ((λ y, mkCommand (fu_action y) y 0 (itemOf x callback)) <$> (y :: l))) rs)).
    { exists x, callback. split; [by apply Pending_commands|]. apply Sent_start; [done| |done]. unfold stage. by rewrite Hb. }
    by right.
Qed.

Lemma sendBatch_spec x callback rs (next : M RibState unit) :
  Pending x callback rs → rs_commands rs = [] →
  (∀ rs', Idle rs' → rb_updateBatches (rs_rib rs') = rb_updateBatches (rs_rib rs) → wp next (λ _, Moved (length (rb_updateBatches (rs_rib rs)))) rs') →
  wp (sendUpdatesForBatchFaceId (itemOf x callback) (onFibUpdateSuccess next (itemOf x callback)))
    (λ _ rs', Moved (S (length (rb_updateBatches (rs_rib rs)))) rs') rs.
Proof.
  intros Hp Hc Hnext. unfold sendUpdatesForBatchFaceId. do 2 wp_step. destruct (up_updatesForBatchFaceId (rs_updater rs)) as [|y l] eqn:El.
  - eapply wp_mono; [by apply sendNonBatch_spec|]. intros [] rs' [[H|[H ?]]|(H & _ & E)]; [by left|right|right].
    + split; [done|lia].
    + rewrite E. split; [done|lia].
  - apply sendUpdates_spec. right. split; [|cbn; lia]. exists x, callback. split; [by apply Pending_commands|]. apply Sent_start; [done| |done].
    unfold stage. by rewrite El.
Qed.

Definition freshUpdater f : FibUpdater := mkFibUpdater f [] [] [].

Lemma freshUpdater_ok f : UpdOk (freshUpdater f).
Proof. split; cbn; [constructor|constructor|by intros ? ?%elem_of_nil..]. Qed.

Lemma Leads_intro s x u U L :
  matchesAlive (routesAt s) → (ru_action x = REMOVE_FACE → up_updatesForBatchFaceId u = []) →
  changed (freshUpdater (rt_faceId (ru_route x))) u U L → good s (target s x) U L → Leads s x u.
Proof.
  intros Hf Hrem (H1 & H2 & H3 & H4 & H5) Hg. split; [done|done|done|..].
  - intros n f Hd. rewrite H3. replace (updOf (freshUpdater _) n f) with (@None (FibUpdateAction * Z)) by (unfold updOf; by destruct (_ =? _)%Z).
    destruct (Hg n f) as [HU _]. specialize (HU _ (Hf n f Hd)). by destruct (U n f).
  - intros n f. rewrite H4. destruct (Hg n f) as (_ & HL & _). by destruct (L n f).
  - intros y Hy. destruct (H5 y Hy) as [?%elem_of_nil|[HL Ha]]; [done|]. split; [|done]. by eapply Hg.
Qed.

(** Without the updates for the face of the batch, which is down. *)
Lemma Leads_clear s x u U L : okUpdate x → ru_action x = REMOVE_FACE →
  matchesAlive (routesAt s) → changed (freshUpdater (rt_faceId (ru_route x))) u U L → good s (target s x) U L →
  Leads s x (set_up_updates [] (up_updatesForNonBatchFaceId u) u).
Proof.
  intros Hok Ha Hf Hch Hg.
  pose proof Hch as ([O1 O2 O3 O4] & H2 & H3 & H4 & H5). change (rt_faceId (ru_route x)) with (up_batchFaceId (freshUpdater (rt_faceId (ru_route x)))) in H2.
  split; cbn [up_batchFaceId up_updatesForBatchFaceId up_inheritedRoutes set_up_updates]; [|done|done|..].
  - split; cbn; [constructor|done|by intros ? ?%elem_of_nil|done].
  - intros n f Hd. assert (Hne : f ≠ rt_faceId (ru_route x)) by (intros ->; unfold okUpdate in Hok; by rewrite Ha in Hok).
    destruct (Hg n f) as [HU _]. specialize (HU _ (Hf n f Hd)). specialize (H3 n f). unfold updOf in *. cbn in *. rewrite H2 in *. cbn in *.
    destruct (Z.eqb_spec f (rt_faceId (ru_route x))); [done|]. rewrite H3. cbn. by destruct (U n f).
  - intros n f. rewrite H4. destruct (Hg n f) as (_ & HL & _). by destruct (L n f).
  - intros y Hy. destruct (H5 y Hy) as [?%elem_of_nil|[HL Hb]]; [done|]. split; [|done]. by eapply Hg.
Qed.

Lemma computeUpdate_spec x rs :
  RibGood originOf (rs_rib rs) → okUpdate x → matchesAlive (routesAt (rs_rib rs)) → rs_updater rs = freshUpdater (rt_faceId (ru_route x)) →
  wp (computeUpdate x) (λ _ rs', rs_commands rs' = rs_commands rs ∧ rs_done rs' = rs_done rs ∧
    (∃ z, rs_rib rs' = set_rb_sched z (rs_rib rs)) ∧ Leads (rs_rib rs) x (rs_updater rs')) rs.
Proof.
  intros [Hs Hp Hi] Hok Hf Hu. pose proof (freshUpdater_ok (rt_faceId (ru_route x))) as Hu0. unfold computeUpdate. do 2 wp_step.
  destruct (ru_action x) eqn:Ea.
  - destruct (registration_good originOf (rs_rib rs) x) as (U & L & Hc & Hg); [done|done|done|by unfold okUpdate in Hok; rewrite Ea in Hok; destruct Hok|].
    apply wp_lift. rewrite Hu. eapply wp_mono; [by apply Hc|]. intros [] u' [_ Hch]. do 2 (split; [done|]).
    split; [exists (rb_sched (rs_rib rs)); cbn; by destruct (rs_rib rs)|]. eapply (Leads_intro _ _ _ U L); [done|by rewrite Ea|done|]. unfold target. by rewrite Ea.
  - destruct (unregistration_good originOf (rs_rib rs) x) as (ev & U & L & Hc & Hg); [done..|].
    wp_step. apply wp_lift. rewrite Hu. eapply wp_mono; [by apply Hc|]. intros ev' u' [-> Hch]. apply wp_lift. unfold cancelEvent. wp_step.
    do 2 (split; [done|]). split; [by eexists|]. eapply (Leads_intro _ _ _ U L); [done|by rewrite Ea|done|]. unfold target. by rewrite Ea.
  - destruct (unregistration_good originOf (rs_rib rs) x) as (ev & U & L & Hc & Hg); [done..|].
    wp_step. apply wp_lift. rewrite Hu. eapply wp_mono; [by apply Hc|]. intros ev' u' [-> Hch]. wp_step. apply wp_lift. unfold cancelEvent. wp_step.
    apply wp_lift. wp_step. do 2 (split; [done|]). split; [by eexists|]. eapply (Leads_clear _ _ u' U L); [done|done|done|done|]. unfold target. by rewrite Ea.
Qed.

Lemma removeKey_gone r r0 (l : list Route) : NoDup (routeKey <$> l) → r ∈ removeKey r0 l → routeKey r ≠ routeKey r0.
Proof.
  intros Hnd Hr E. unfold removeKey in Hr. destruct (find_index _ l) as [i|] eqn:Ei.
  - apply find_index_Some in Ei as (y & Hy & Hk%compare_key). rewrite <- (take_drop_middle l i y Hy) in Hnd.
    rewrite fmap_app, fmap_cons in Hnd. rewrite Permutation_app_comm in Hnd. cbn in Hnd. apply NoDup_cons in Hnd as [Hn _]. apply Hn.
    rewrite Hk, <- E. rewrite <- fmap_app. apply list_elem_of_fmap. exists r. split; [done|]. rewrite delete_take_drop in Hr. rewrite elem_of_app in *. tauto.
  - rewrite find_index_None in Ei. specialize (Ei r Hr). assert (compareFaceIdAndOrigin r r0 = true) by (by apply compare_key). congruence.
Qed.

Lemma routes_keys s n : RibInv s → NoDup (routeKey <$> routesAt s n).
Proof.
  intros Hs. destruct (Rib_find n s) as [p|] eqn:E; [|rewrite routesAt_None by done; constructor].
  destruct (ri_entry s Hs n p E) as (e & He & Ho). rewrite (routesAt_Some s n p e) by done. apply Ho.
Qed.

Context (Hnotified : notified ⊆ dead).

Lemma covered_pop s x callback q : RibInv s → okUpdate x → covered (itemOf x callback :: q) (routesAt s) → covered q (target s x).
Proof.
  intros Hs Hok Hc n r Hr Hf. destruct (target_elem _ _ _ _ Hr) as [Hr0|[Ea ->]].
  - destruct (Hc n r Hr0 Hf) as (x' & cb' & [E|Hin]%elem_of_cons & H1 & H2 & H3); [|by eauto 6]. exfalso. injection E as _ <- _.
    unfold target in Hr. rewrite H1 in Hr. rewrite <- H2, eraseAt_self in Hr. apply removeKey_gone in Hr; [by apply Hr|by apply routes_keys].
  - exfalso. unfold okUpdate in Hok. rewrite Ea in Hok. set_solver.
Qed.

Lemma sendBatch_loop_spec fuel rs : Idle rs → length (rb_updateBatches (rs_rib rs)) ≤ fuel →
  wp (sendBatch_loop fuel) (λ _, Moved (length (rb_updateBatches (rs_rib rs)))) rs.
Proof.
  revert rs. induction fuel as [|fuel IH]; intros rs Hid Hfuel.
  { cbn [sendBatch_loop]. do 2 wp_step. destruct (rb_updateBatches (rs_rib rs)) eqn:E; [|cbn in Hfuel; lia]. wp_step. by left. }
  cbn [sendBatch_loop]. do 2 wp_step. destruct (rb_updateBatches (rs_rib rs)) as [|item rest] eqn:E; [wp_step; by left|].
  destruct Hid as [Hg Hpr Hc Hq Hf Hcov Hacc]. rewrite E in Hq, Hcov. rewrite Hpr. destruct (Hq item) as (x & cb & -> & Hok); [by left|].
  wp_step. apply wp_lift. do 2 wp_step. wp_step; [done|]. unfold computeAndSendFibUpdates. cbn [itemOf q_batch b_faceId b_updates forM].
  wp_step. apply wp_lift. do 2 wp_step. wp_step. set (s1 := set_rb_queue rest true (rs_rib rs)).
  set (rs1 := set_rs_updater (freshUpdater (rt_faceId (ru_route x))) (set_rs_rib s1 rs)). lazymatch goal with |- wp _ _ ?z => change z with rs1 end.
  assert (Hg1 : RibGood originOf s1) by (by apply (RibGood_frame originOf (rs_rib rs))).
  eapply wp_mono; [by apply (computeUpdate_spec x rs1)|]. intros [] rs2 (Hc2 & Hd2 & (z & Es2) & Hl). wp_step.
  assert (Hp2 : Pending x cb rs2).
  { split; rewrite ?Es2; [by apply (RibGood_frame originOf s1)|done|done| |by destruct Hl| |].
    - cbn. intros it Hit. apply Hq. by right.
    - apply (covered_pop s1 x cb rest); [apply Hg1|done|done].
    - destruct Hacc as [Ha1 Ha2]. split; [|by rewrite Hd2]. rewrite Hd2, Es2. cbn. by rewrite E in Ha1. }
  eapply wp_mono; [apply (sendBatch_spec x cb rs2); [done|by rewrite Hc2|]|].
  - intros rs' Hid' Eq. rewrite <- Eq. apply IH; [done|]. rewrite Eq, Es2. cbn in *. lia.
  - intros [] rs' H. rewrite Es2 in H. exact H.
Qed.

Lemma sendBatchFromQueue_spec rs : Idle rs → wp sendBatchFromQueue (λ _, Moved (length (rb_updateBatches (rs_rib rs)))) rs.
Proof. intros H. unfold sendBatchFromQueue. do 2 wp_step. by apply sendBatch_loop_spec. Qed.

(** Nothing is started while a batch is in progress. *)
Lemma sendBatchFromQueue_busy rs Q : rb_isUpdateInProgress (rs_rib rs) = true → Q tt rs → wp sendBatchFromQueue Q rs.
Proof.
  intros Hb HQ. unfold sendBatchFromQueue. do 2 wp_step. destruct (length _); cbn [sendBatch_loop]; do 2 wp_step; rewrite Hb;
    by destruct (rb_updateBatches (rs_rib rs)); wp_step.
Qed.
End Batch.

(** ** The pending updates as commands are answered *)

Section Pending.
Context {N : NdnCxx} {NL : NdnCxxLaws N} {SC : Scheduler} {NE : NthElement} (originOf : Z → Z).
Context (dead notified : gset Z) (accepted : list nat) (Hnotified : notified ⊆ dead).
Implicit Types (s : Rib) (n m : Name) (f : Z) (r : Route) (x : RibUpdate) (u : FibUpdater) (rs : RibState) (y : FibUpdate) (c : Command).
Implicit Types (fib : gmap (Name * Z) Z).

(** What FIB management does with a command, and the status code of its response. *)
Definition execute c fib : gmap (Name * Z) Z * Z :=
  match c_verb c with
  | ADD_NEXTHOP =>
      if decide (fu_faceId (c_update c) ∈ dead) then (fib, ERROR_FACE_NOT_FOUND)
      else (<[updateKey (c_update c) := fu_cost (c_update c)]> fib, 200%Z)
  | REMOVE_NEXTHOP => (delete (updateKey (c_update c)) fib, 200%Z)
  end.

Lemma lookupUpdate_elem y (l : list FibUpdate) : NoDup (updateKey <$> l) → y ∈ l →
  lookupUpdate (fu_name y) (fu_faceId y) l = Some (fu_action y, fu_cost y).
Proof.
  unfold lookupUpdate. induction l as [|z l IH]; cbn; intros Hnd; [by intros ?%elem_of_nil|]. apply NoDup_cons in Hnd as [Hz Hnd].
  intros [->|Hy]%elem_of_cons; [by rewrite bool_decide_eq_true_2|]. case_bool_decide as E; [|by apply IH]. exfalso. apply Hz. rewrite E.
  apply list_elem_of_fmap. by exists y.
Qed.

Lemma removeUpdate_lookup y (l : list FibUpdate) n f : NoDup (updateKey <$> l) → y ∈ l →
  lookupUpdate n f (removeUpdate y l) = if decide ((n, f) = updateKey y) then None else lookupUpdate n f l.
Proof.
  intros Hnd Hy. unfold removeUpdate, lookupUpdate. enough (E : find (λ w : FibUpdate, bool_decide (updateKey w = (n, f))) (filter (λ w, w ≠ y) l) =
    if decide ((n, f) = updateKey y) then None else find (λ w : FibUpdate, bool_decide (updateKey w = (n, f))) l) by (rewrite E; by destruct (decide _)).
  induction l as [|z l IH]; [by apply elem_of_nil in Hy|]. cbn in Hnd. apply NoDup_cons in Hnd as [Hz Hnd]. rewrite filter_cons. destruct (decide (z ≠ y)) as [Hne|Heq].
  - apply elem_of_cons in Hy as [->|Hy]; [done|]. cbn [find]. rewrite IH by done. case_bool_decide as E; [|done]. rewrite decide_False; [done|].
    rewrite <- E. intros E'. apply Hz. rewrite E'. apply list_elem_of_fmap. by exists y.
  - apply dec_stable in Heq as ->. cbn [find]. destruct (decide ((n, f) = updateKey y)) as [E|E].
    + rewrite E in *. apply find_none_iff. intros z [_ Hz']%list_elem_of_filter. apply bool_decide_eq_false. intros Ez. apply Hz. rewrite <- Ez. apply list_elem_of_fmap. by exists z.
    + rewrite bool_decide_eq_false_2 by congruence. f_equal.
      apply filter_all. intros w Hw ->. apply Hz. apply list_elem_of_fmap. by exists y.
Qed.

Lemma removeUpdate_perm y (l l' : list FibUpdate) : NoDup l → l ≡ₚ y :: l' → removeUpdate y l ≡ₚ l'.
Proof.
  intros Hnd Hp. unfold removeUpdate. rewrite Hp in *. apply NoDup_cons in Hnd as [Hy _]. rewrite filter_cons, decide_False by (by intros ?).
  rewrite filter_all; [done|]. intros z Hz ->. done.
Qed.

(** The updater without a pending update. *)
Definition dropUpdate y u : FibUpdater :=
  if (fu_faceId y =? up_batchFaceId u)%Z then set_up_updates (removeUpdate y (up_updatesForBatchFaceId u)) (up_updatesForNonBatchFaceId u) u
  else set_up_updates (up_updatesForBatchFaceId u) (removeUpdate y (up_updatesForNonBatchFaceId u)) u.

Definition pendingList y u : list FibUpdate :=
  if (fu_faceId y =? up_batchFaceId u)%Z then up_updatesForBatchFaceId u else up_updatesForNonBatchFaceId u.

Lemma dropUpdate_ok y u : UpdOk u → UpdOk (dropUpdate y u).
Proof.
  intros [H1 H2 H3 H4]. unfold dropUpdate, removeUpdate. destruct (_ =? _)%Z; split; cbn; try done.
  - eapply sublist_NoDup; [exact H1|]. apply sublist_fmap_mono, sublist_filter.
  - intros z [_ Hz]%list_elem_of_filter. by apply H3.
  - eapply sublist_NoDup; [exact H2|]. apply sublist_fmap_mono, sublist_filter.
  - intros z [_ Hz]%list_elem_of_filter. by apply H4.
Qed.

Lemma dropUpdate_updOf y u n f : UpdOk u → y ∈ pendingList y u →
  updOf (dropUpdate y u) n f = (if decide ((n, f) = updateKey y) then None else updOf u n f) ∧
  updOf u (fu_name y) (fu_faceId y) = Some (fu_action y, fu_cost y).
Proof.
  intros [H1 H2 H3 H4] Hy. unfold updOf, dropUpdate, pendingList in *. destruct (Z.eqb_spec (fu_faceId y) (up_batchFaceId u)) as [E|E]; cbn.
  - split; [|by apply lookupUpdate_elem]. destruct (Z.eqb_spec f (up_batchFaceId u)) as [->|Hf]; [by apply removeUpdate_lookup|].
    rewrite decide_False; [done|]. unfold updateKey. congruence.
  - split; [|by apply lookupUpdate_elem]. destruct (Z.eqb_spec f (up_batchFaceId u)) as [->|Hf]; [|by apply removeUpdate_lookup].
    rewrite decide_False; [done|]. unfold updateKey. congruence.
Qed.

(** Executing a command and dropping its update. *)
Lemma Leads_execute s x u c fib : Leads fib dead s x u → c_verb c = fu_action (c_update c) → c_update c ∈ pendingList (c_update c) u →
  Leads (execute c fib).1 dead s x (dropUpdate (c_update c) u).
Proof.
  intros [H1 H2 H3 H4 H5 H6] Hv Hin. split.
  - by apply dropUpdate_ok.
  - unfold dropUpdate. by destruct (_ =? _)%Z.
  - intros Ha. specialize (H3 Ha). unfold dropUpdate. destruct (_ =? _)%Z; cbn; [by rewrite H3|done].
  - intros n f Hf. specialize (H4 n f Hf). destruct (dropUpdate_updOf (c_update c) u n f H1 Hin) as [-> HU].
    destruct (decide ((n, f) = updateKey (c_update c))) as [E|E].
    + injection E as -> ->. rewrite HU in H4. unfold execute. rewrite Hv. destruct (fu_action (c_update c)).
      * rewrite decide_False by done. cbn in *. change (fu_name (c_update c), fu_faceId (c_update c)) with (updateKey (c_update c)). by rewrite lookup_insert_eq.
      * cbn in *. change (fu_name (c_update c), fu_faceId (c_update c)) with (updateKey (c_update c)). by rewrite lookup_delete_eq.
    + unfold execute. destruct (c_verb c); [destruct (decide _); [done|]|]; cbn; [by rewrite lookup_insert_ne|by rewrite lookup_delete_ne].
  - intros n f. unfold dropUpdate. by destruct (_ =? _)%Z.
  - unfold dropUpdate. by destruct (_ =? _)%Z.
Qed.

(** A command whose response is lost may have been executed. *)
Lemma Leads_timeout s x u c fib : Leads fib dead s x u → c_verb c = fu_action (c_update c) → c_verb c = ADD_NEXTHOP →
  c_update c ∈ pendingList (c_update c) u → Leads (execute c fib).1 dead s x u.
Proof.
  intros [H1 H2 H3 H4 H5 H6] Hv Ha Hin. split; [done..| |done|done]. intros n f Hf. specialize (H4 n f Hf).
  destruct (dropUpdate_updOf (c_update c) u n f H1 Hin) as [_ HU]. unfold execute. rewrite Ha. destruct (decide (fu_faceId (c_update c) ∈ dead)); [done|]. cbn.
  destruct (decide ((n, f) = updateKey (c_update c))) as [E|E]; [|by rewrite lookup_insert_ne]. injection E as -> ->. rewrite HU in *. by rewrite <- Hv, Ha in *.
Qed.

Lemma stage_pendingList y u : UpdOk u → y ∈ stage u → y ∈ pendingList y u.
Proof.
  intros [H1 H2 H3 H4]. unfold stage, pendingList. destruct (up_updatesForBatchFaceId u) as [|z l] eqn:E; intros Hy.
  - destruct (Z.eqb_spec (fu_faceId y) (up_batchFaceId u)) as [Ey|]; [|done]. by apply H4 in Hy.
  - destruct (Z.eqb_spec (fu_faceId y) (up_batchFaceId u)) as [Ey|Ey]; [done|]. by apply H3 in Hy.
Qed.

Lemma stage_NoDup u : UpdOk u → NoDup (stage u).
Proof.
  intros [H1 H2 H3 H4]. apply (NoDup_fmap_1 updateKey). unfold stage. by destruct (up_updatesForBatchFaceId u).
Qed.

(** What is left of the stage, and which commands are left. *)
Lemma Sent_remove x callback rs i c : UpdOk (rs_updater rs) → Sent x callback rs → rs_commands rs !! i = Some c →
  removeUpdate (c_update c) (stage (rs_updater rs)) ≡ₚ c_update <$> delete i (rs_commands rs).
Proof.
  intros Hu [H1 H2 H3] Hi. apply removeUpdate_perm; [by apply stage_NoDup|]. rewrite <- H2.
  apply (fmap_Permutation c_update (rs_commands rs) (c :: delete i (rs_commands rs))). by apply delete_Permutation.
Qed.

Definition pendingCount rs : nat := length (up_updatesForBatchFaceId (rs_updater rs)) + length (up_updatesForNonBatchFaceId (rs_updater rs)).

Lemma dropUpdate_count y u : y ∈ pendingList y u →
  length (up_updatesForBatchFaceId (dropUpdate y u)) + length (up_updatesForNonBatchFaceId (dropUpdate y u)) <
  length (up_updatesForBatchFaceId u) + length (up_updatesForNonBatchFaceId u).
Proof.
  unfold dropUpdate, pendingList, removeUpdate. intros Hy. assert (Hlt : ∀ l, y ∈ l → length (filter (λ w, w ≠ y) l) < length l).
  { intros l Hin. by apply length_filter_lt with (x := y); [|intros ?]. }
  destruct (_ =? _)%Z; cbn; specialize (Hlt _ Hy); lia.
Qed.

(** What answering a command leads to. *)
Definition Answered fib rs rs' : Prop :=
  Moved originOf fib dead notified accepted (length (rb_updateBatches (rs_rib rs))) rs' ∨
  (Busy originOf fib dead notified accepted rs' ∧ rs_rib rs' = rs_rib rs ∧ pendingCount rs' < pendingCount rs).

(** The state with the command and its update removed. *)
Definition dropped rs i c : RibState := set_rs_updater (dropUpdate (c_update c) (rs_updater rs)) (set_rs_commands (delete i (rs_commands rs)) rs).

Lemma Pending_dropped x callback fib rs i c :
  Pending originOf fib dead notified accepted x callback rs → Sent x callback rs → rs_commands rs !! i = Some c →
  Pending originOf (execute c fib).1 dead notified accepted x callback (dropped rs i c) ∧ c_update c ∈ pendingList (c_update c) (rs_updater rs) ∧
  pendingCount (dropped rs i c) < pendingCount rs.
Proof.
  intros [P1 P2 P3 P4 P5 P6 P7] [S1 S2 S3] Hi. destruct (S3 c) as [_ Hv]; [by eapply list_elem_of_lookup_2|].
  assert (Hin : c_update c ∈ pendingList (c_update c) (rs_updater rs)).
  { apply stage_pendingList; [apply P5|]. rewrite <- S2. apply list_elem_of_fmap. exists c. split; [done|]. by eapply list_elem_of_lookup_2. }
  split; [split; try done; by apply Leads_execute|]. split; [done|]. by apply dropUpdate_count.
Qed.

Lemma Busy_dropped x callback fib rs i c :
  Pending originOf (execute c fib).1 dead notified accepted x callback (dropped rs i c) → UpdOk (rs_updater rs) →
  Sent x callback rs → rs_commands rs !! i = Some c → removeUpdate (c_update c) (stage (rs_updater rs)) ≠ [] →
  stage (dropUpdate (c_update c) (rs_updater rs)) = removeUpdate (c_update c) (stage (rs_updater rs)) →
  Busy originOf (execute c fib).1 dead notified accepted (dropped rs i c).
Proof.
  intros Hp Hu Hs Hi Hne Est. exists x, callback. split; [done|]. split; cbn.
  - by rewrite Est.
  - rewrite Est. symmetry. by eapply Sent_remove.
  - intros c' Hc'. apply Hs. eapply sublist_subseteq; [apply sublist_delete|exact Hc'].
Qed.

(** On the last update of its stage. *)
Lemma commands_done x callback rs i c : UpdOk (rs_updater rs) → Sent x callback rs → rs_commands rs !! i = Some c →
  removeUpdate (c_update c) (stage (rs_updater rs)) = [] → delete i (rs_commands rs) = [].
Proof.
  intros Hu Hs Hi E. pose proof (Sent_remove x callback rs i c Hu Hs Hi) as Hp. rewrite E in Hp. symmetry in Hp. apply Permutation_nil_r in Hp.
  by apply fmap_nil_inv in Hp.
Qed.

Lemma next_spec fib rs rs' : Idle originOf fib dead notified accepted rs' → rb_updateBatches (rs_rib rs') = rb_updateBatches (rs_rib rs) →
  wp sendBatchFromQueue (λ _, Moved originOf fib dead notified accepted (length (rb_updateBatches (rs_rib rs)))) rs'.
Proof. intros Hi <-. by apply sendBatchFromQueue_spec. Qed.

Lemma onResponse_batch fib rs i c x callback :
  Pending originOf fib dead notified accepted x callback rs → Sent x callback rs → rs_commands rs !! i = Some c →
  up_updatesForBatchFaceId (rs_updater rs) ≠ [] →
  (execute c fib).2 = 200%Z ∧ wp (onUpdateSuccess (c_update c) (itemOf x callback)) (λ _ rs', Answered (execute c fib).1 rs rs')
    (set_rs_commands (delete i (rs_commands rs)) rs).
Proof.
  intros Hp Hs Hi Hb. destruct (Pending_dropped x callback fib rs i c Hp Hs Hi) as (Hp' & Hin & Hcount). pose proof Hp as [_ _ Hok _ Hl _ _].
  pose proof (le_ok _ _ _ _ _ Hl) as Hu. destruct (se_commands _ _ _ Hs c) as [_ Hv]; [by eapply list_elem_of_lookup_2|].
  assert (Est : stage (rs_updater rs) = up_updatesForBatchFaceId (rs_updater rs)) by (unfold stage; by destruct (up_updatesForBatchFaceId _)).
  assert (Hst : c_update c ∈ stage (rs_updater rs)).
  { rewrite <- (se_perm _ _ _ Hs). apply list_elem_of_fmap. exists c. split; [done|]. by eapply list_elem_of_lookup_2. }
  assert (Ef : fu_faceId (c_update c) = up_batchFaceId (rs_updater rs)) by (rewrite Est in Hst; by apply (uo_batchFace _ Hu)).
  assert (Halive : fu_faceId (c_update c) ∉ dead).
  { rewrite Ef, (le_face _ _ _ _ _ Hl). unfold okUpdate in Hok. destruct (ru_action x) eqn:Ea; [by destruct Hok|done|]. by rewrite (le_removed _ _ _ _ _ Hl) in Hb. }
  split; [unfold execute; destruct (c_verb c); [by rewrite decide_False|done]|].
  unfold onUpdateSuccess. do 2 wp_step. cbn [rs_updater set_rs_commands]. rewrite Ef, Z.eqb_refl. wp_step. apply wp_lift. wp_step.
  set (rs1 := set_rs_updater _ _). assert (E1 : rs1 = dropped rs i c) by (unfold rs1, dropped, dropUpdate; by rewrite Ef, Z.eqb_refl). rewrite E1. clearbody rs1. subst rs1.
  destruct (decide (removeUpdate (c_update c) (up_updatesForBatchFaceId (rs_updater rs)) = [])) as [Hnil|Hne].
  - eapply wp_mono; [apply (sendNonBatch_spec originOf (execute c fib).1 dead notified accepted x callback (dropped rs i c)); [done| | |]|].
    + cbn. eapply commands_done; [done|done|done|]. by rewrite Est.
    + cbn. unfold dropUpdate. rewrite Ef, Z.eqb_refl. done.
    + intros rs' Hid Eq. by apply next_spec.
    + intros [] rs' [HM|(HB & Eu & Er)]; [by left|right]. split; [done|]. split; [by rewrite Er|]. unfold pendingCount in *. by rewrite Eu.
  - wp_step. right. split; [|done]. eapply Busy_dropped; [done|done|done|done|by rewrite Est|]. rewrite Est. unfold stage, dropUpdate. rewrite Ef, Z.eqb_refl. cbn.
    by destruct (removeUpdate _ _).
Qed.

(** Without updates left for the face of the batch: the response is 200, or 410 for
    a face that went down, and the update is done with in both cases. *)
Lemma onResponse_nonBatch fib rs i c x callback :
  Pending originOf fib dead notified accepted x callback rs → Sent x callback rs → rs_commands rs !! i = Some c →
  up_updatesForBatchFaceId (rs_updater rs) = [] →
  wp (if ((execute c fib).2 =? 200)%Z then onUpdateSuccess (c_update c) (itemOf x callback)
      else onUpdateError (c_update c) (itemOf x callback) (execute c fib).2 (c_nTimeouts c))
    (λ _ rs', Answered (execute c fib).1 rs rs') (set_rs_commands (delete i (rs_commands rs)) rs).
Proof.
  intros Hp Hs Hi Hb. destruct (Pending_dropped x callback fib rs i c Hp Hs Hi) as (Hp' & Hin & Hcount). pose proof Hp as [_ _ Hok _ Hl _ _].
  pose proof (le_ok _ _ _ _ _ Hl) as Hu.
  assert (Est : stage (rs_updater rs) = up_updatesForNonBatchFaceId (rs_updater rs)) by (unfold stage; by rewrite Hb).
  assert (Ef : (fu_faceId (c_update c) =? up_batchFaceId (rs_updater rs))%Z = false).
  { apply Z.eqb_neq. apply (uo_nonBatchFace _ Hu). rewrite <- Est, <- (se_perm _ _ _ Hs). apply list_elem_of_fmap. exists c. split; [done|]. by eapply list_elem_of_lookup_2. }
  assert (Hrest : wp (let updates := removeUpdate (c_update c) (up_updatesForNonBatchFaceId (rs_updater rs)) in
      updaterM (modify (set_up_updates (up_updatesForBatchFaceId (rs_updater rs)) updates));;
      if decide (updates = []) then onFibUpdateSuccess sendBatchFromQueue (itemOf x callback) (up_inheritedRoutes (rs_updater rs)) else mret tt)
    (λ _ rs', Answered (execute c fib).1 rs rs') (set_rs_commands (delete i (rs_commands rs)) rs)).
  { cbn beta zeta. wp_step. apply wp_lift. wp_step. set (rs1 := set_rs_updater _ _).
    assert (E1 : rs1 = dropped rs i c) by (unfold rs1, dropped, dropUpdate; by rewrite Ef). rewrite E1. clearbody rs1. subst rs1.
    destruct (decide (removeUpdate (c_update c) (up_updatesForNonBatchFaceId (rs_updater rs)) = [])) as [Hnil|Hne].
    - assert (Elog : up_inheritedRoutes (rs_updater rs) = up_inheritedRoutes (rs_updater (dropped rs i c))) by (cbn; unfold dropUpdate; by rewrite Ef). rewrite Elog.
      apply (onSuccess_spec originOf (execute c fib).1 dead notified accepted x callback (dropped rs i c)); [done| | |].
      + cbn. eapply commands_done; [done|done|done|]. by rewrite Est.
      + intros n f _. unfold dropped, updOf, dropUpdate. cbn [rs_updater set_rs_updater set_rs_commands]. rewrite Ef.
        cbn [up_batchFaceId up_updatesForBatchFaceId up_updatesForNonBatchFaceId set_up_updates]. rewrite Hnil, Hb.
        destruct (f =? up_batchFaceId (rs_updater rs))%Z; reflexivity.
      + intros rs' Hid Eq. eapply wp_mono; [by eapply (next_spec _ rs)|]. intros [] rs'' HM. by left.
    - wp_step. right. split; [|done]. eapply Busy_dropped; [done|done|done|done|by rewrite Est|]. rewrite Est. unfold stage, dropUpdate. rewrite Ef. cbn. by rewrite Hb. }
  destruct (Z.eqb_spec (execute c fib).2 200) as [E|E].
  - unfold onUpdateSuccess. do 2 wp_step. cbn [rs_updater set_rs_commands]. rewrite Ef. exact Hrest.
  - assert (Ecode : (execute c fib).2 = ERROR_FACE_NOT_FOUND) by (unfold execute in *; destruct (c_verb c); [destruct (decide _)|]; done).
    rewrite Ecode. unfold onUpdateError. do 2 wp_step. cbn [rs_updater set_rs_commands].
    change (ERROR_FACE_NOT_FOUND =? ERROR_TIMEOUT)%Z with false. cbn [andb]. rewrite Z.eqb_refl, Ef. exact Hrest.
Qed.

Lemma onResponse_spec fib rs i c : Busy originOf fib dead notified accepted rs → rs_commands rs !! i = Some c →
  wp (onResponse i (execute c fib).2) (λ _ rs', Answered (execute c fib).1 rs rs') rs.
Proof.
  intros (x & callback & Hp & Hs) Hi. unfold onResponse. do 2 wp_step. wp_step. wp_step; [exact Hi|]. do 2 wp_step.
  destruct (se_commands _ _ _ Hs c) as [-> _]; [by eapply list_elem_of_lookup_2|].
  destruct (decide (up_updatesForBatchFaceId (rs_updater rs) = [])) as [Hb|Hb]; [by apply onResponse_nonBatch|].
  destruct (onResponse_batch fib rs i c x callback) as [E H]; [done..|]. rewrite E at 1. exact H.
Qed.

(** A command that timed out is sent again. *)
Lemma onResponse_timeout fib rs i c (executed : bool) : Busy originOf fib dead notified accepted rs → rs_commands rs !! i = Some c →
  c_verb c = ADD_NEXTHOP → c_nTimeouts c < MAX_NUM_TIMEOUTS →
  wp (onResponse i ERROR_TIMEOUT) (λ _ rs', Busy originOf (if executed then (execute c fib).1 else fib) dead notified accepted rs') rs.
Proof.
  intros (x & callback & Hp & Hs) Hi Hv Hn. unfold onResponse. do 2 wp_step. wp_step. wp_step; [exact Hi|]. do 2 wp_step.
  destruct (se_commands _ _ _ Hs c) as [-> Ev]; [by eapply list_elem_of_lookup_2|]. change (ERROR_TIMEOUT =? 200)%Z with false.
  unfold onUpdateError. do 2 wp_step. rewrite Z.eqb_refl, bool_decide_eq_true_2 by done. cbn [andb]. unfold sendAddNextHopUpdate. wp_step.
  exists x, callback. destruct Hp as [P1 P2 P3 P4 P5 P6 P7]. split.
  - split; try done. destruct executed; [|done]. apply Leads_timeout; [done|done|done|].
    apply stage_pendingList; [apply P5|]. rewrite <- (se_perm _ _ _ Hs). apply list_elem_of_fmap. exists c. split; [done|]. by eapply list_elem_of_lookup_2.
  - destruct Hs as [S1 S2 S3]. split; cbn.
    + done.
    + rewrite fmap_app. cbn. rewrite Permutation_app_comm. cbn. rewrite <- S2. symmetry.
      apply (fmap_Permutation c_update (rs_commands rs) (c :: delete i (rs_commands rs))). by apply delete_Permutation.
    + intros c' [Hc'| ->%list_elem_of_singleton]%elem_of_app; [apply S3; eapply sublist_subseteq; [apply sublist_delete|exact Hc']|].
      cbn. by rewrite <- Ev.
Qed.
End Pending.

(** ** New entries in the queue *)

Section Enqueue.
Context {N : NdnCxx} {NL : NdnCxxLaws N} {SC : Scheduler} {NE : NthElement} (originOf : Z → Z).
Context (fib : gmap (Name * Z) Z) (dead notified notified' : gset Z) (accepted : list nat).
Context (Hsub : notified ⊆ notified') (Hsub' : notified' ⊆ dead).
Implicit Types (s : Rib) (n m : Name) (f : Z) (r : Route) (x : RibUpdate) (rs : RibState) (l q : list UpdateQueueItem).

Definition enqueued l rs : RibState :=
  set_rs_rib (set_rb_queue (rb_updateBatches (rs_rib rs) ++ l) (rb_isUpdateInProgress (rs_rib rs)) (rs_rib rs)) rs.

(** The new items cover the routes on newly notified faces. *)
Definition coversNew l s : Prop := ∀ n r, r ∈ routesAt s n → rt_faceId r ∈ notified' → rt_faceId r ∉ notified →
  ∃ x callback, itemOf x callback ∈ l ∧ ru_action x = REMOVE_FACE ∧ ru_name x = n ∧ routeKey (ru_route x) = routeKey r.

Lemma covered_enqueue q l s (R : Name → list Route) :
  (∀ n r, r ∈ R n → rt_faceId r ∈ dead → r ∈ routesAt s n) → coversNew l s → covered notified q R → covered notified' (q ++ l) R.
Proof.
  intros HR Hl Hq n r Hr Hf. destruct (decide (rt_faceId r ∈ notified)) as [Hn|Hn].
  - destruct (Hq n r Hr Hn) as (x & cb & Hin & H). exists x, cb. split; [|done]. apply elem_of_app. by left.
  - destruct (Hl n r) as (x & cb & Hin & H); [apply HR; [done|by apply Hsub']|done|done|]. exists x, cb. split; [|done]. apply elem_of_app. by right.
Qed.

Lemma target_dead s x n r : okUpdate originOf dead x → r ∈ target s x n → rt_faceId r ∈ dead → r ∈ routesAt s n.
Proof.
  intros Hok [Hr|[Ea ->]]%target_elem Hd; [done|]. unfold okUpdate in Hok. rewrite Ea in Hok. by destruct Hok.
Qed.

Lemma QueueOk_app q l : QueueOk originOf dead q → QueueOk originOf dead l → QueueOk originOf dead (q ++ l).
Proof. intros Hq Hl item [?|?]%elem_of_app; [by apply Hq|by apply Hl]. Qed.

Lemma Accounted_enqueue current l rs : Accounted accepted rs current → Accounted (accepted ++ omap q_callback l) (enqueued l rs) current.
Proof.
  intros [H1 H2]. split; [|done]. rewrite <- H1. cbn. by rewrite !omap_app, !app_assoc.
Qed.

Lemma enqueue_spec l rs :
  Settled originOf fib dead notified accepted rs → QueueOk originOf dead l → coversNew l (rs_rib rs) →
  wp sendBatchFromQueue (λ _, Settled originOf fib dead notified' (accepted ++ omap q_callback l)) (enqueued l rs).
Proof.
  intros [[[I1 I2 I3 I4 I5 I6 I7] Hq]|(x & cb & [P1 P2 P3 P4 P5 P6 P7] & [S1 S2 S3])] Hl Hcov.
  - assert (Hid : Idle originOf fib dead notified' (accepted ++ omap q_callback l) (enqueued l rs)).
    { split; cbn; try done.
      - by apply (RibGood_frame originOf (rs_rib rs)).
      - by apply QueueOk_app.
      - by apply (covered_enqueue _ _ (rs_rib rs)).
      - by apply Accounted_enqueue. }
    eapply wp_mono; [by apply sendBatchFromQueue_spec|]. intros [] rs' [H|[H _]]; [by left|by right].
  - apply sendBatchFromQueue_busy; [done|]. right. exists x, cb. split; [|by split]. split; cbn; try done.
    + by apply (RibGood_frame originOf (rs_rib rs)).
    + by apply QueueOk_app.
    + by destruct P5.
    + apply (covered_enqueue _ _ (rs_rib rs)); [|done|done]. intros n r. by apply target_dead.
    + by apply Accounted_enqueue.
Qed.

Lemma beginApplyUpdate_spec x callback rs :
  Settled originOf fib dead notified accepted rs → notified' = notified → okUpdate originOf dead x →
  wp (beginApplyUpdate x callback) (λ _, Settled originOf fib dead notified' (accepted ++ option_list callback)) rs.
Proof.
  intros Hs E Hok. unfold beginApplyUpdate, addUpdateToQueue. wp_step. apply wp_lift. wp_step.
  assert (Eo : option_list callback = omap q_callback [itemOf x callback]) by (by destruct callback). rewrite Eo. apply (enqueue_spec [itemOf x callback] rs); [done| |].
  - intros item ->%list_elem_of_singleton. by exists x, callback.
  - intros n r _ Hf Hnf. by rewrite E in Hf.
Qed.
End Enqueue.

(** Enqueueing the removal of the routes of faces. *)
Section RemoveFace.
Context {N : NdnCxx} {NL : NdnCxxLaws N} {SC : Scheduler} {NE : NthElement}.
Implicit Types (s : Rib) (n m : Name) (f : Z) (r : Route) (x : RibUpdate) (rs : RibState) (l q : list UpdateQueueItem) (e : RibEntry).

Definition removalsOf e f : list UpdateQueueItem :=
  (λ r, itemOf (mkRibUpdate REMOVE_FACE (re_name e) r) None) <$> filter (λ r, rt_faceId r = f) (re_routes e).

Lemma enqueued_app l l' rs : enqueued l' (enqueued l rs) = enqueued (l ++ l') rs.
Proof. unfold enqueued. cbn. by rewrite app_assoc. Qed.

Lemma enqueueRemoveFace_spec (p : ptr) e f rs (Q : unit → RibState → Prop) : rb_heap (rs_rib rs) !! p = Some e →
  Q tt (enqueued (removalsOf e f) rs) → wp (ribM (enqueueRemoveFace p f)) Q rs.
Proof.
  intros He HQ. unfold ribM. apply wp_lift. unfold enqueueRemoveFace, derefEntry, removalsOf in *. do 3 wp_step. wp_step; [exact He|].
  clear He. set (s0 := rs_rib rs) in *.
  enough (H : ∀ routes q, wp (forM routes (λ route, if (rt_faceId route =? f)%Z then addUpdateToQueue (mkRibUpdate REMOVE_FACE (re_name e) route) None else mret tt))
    (λ _ s', s' = set_rb_queue (q ++ ((λ r, itemOf (mkRibUpdate REMOVE_FACE (re_name e) r) None) <$> filter (λ r, rt_faceId r = f) routes)) (rb_isUpdateInProgress s0) s0)
    (set_rb_queue q (rb_isUpdateInProgress s0) s0)).
  { specialize (H (re_routes e) (rb_updateBatches s0)). replace (set_rb_queue (rb_updateBatches s0) _ s0) with s0 in H by (by destruct s0).
    eapply wp_mono; [exact H|]. intros [] s' ->. exact HQ. }
  clear HQ. induction routes as [|r routes IH]; intros q; cbn [forM]; [wp_step; by rewrite app_nil_r|]. wp_step. rewrite filter_cons.
  destruct (Z.eqb_spec (rt_faceId r) f) as [E|E].
  - rewrite decide_True by done. unfold addUpdateToQueue. wp_step. specialize (IH (q ++ [itemOf (mkRibUpdate REMOVE_FACE (re_name e) r) None])).
    rewrite <- app_assoc in IH. exact IH.
  - rewrite decide_False by done. wp_step. apply IH.
Qed.

(** All the pairs of a face and an entry that satisfy [P]. *)
Definition removals s (pairs : list (Z * ptr)) : list UpdateQueueItem :=
  mjoin ((λ kv, default [] ((λ e, removalsOf e kv.1) <$> rb_heap s !! kv.2)) <$> pairs).

Lemma enqueueAll_spec (P : Z → bool) (pairs : list (Z * ptr)) rs :
  (∀ kv, kv ∈ pairs → is_Some (rb_heap (rs_rib rs) !! kv.2)) →
  wp (forM pairs (λ kv, if P kv.1 then mret tt else ribM (enqueueRemoveFace kv.2 kv.1)))
    (λ _ rs', rs' = enqueued (removals (rs_rib rs) (filter (λ kv, P kv.1 = false) pairs)) rs) rs.
Proof.
  revert rs. induction pairs as [|[f p] pairs IH]; intros rs Hin; cbn [forM].
  - wp_step. unfold enqueued, removals. cbn. rewrite app_nil_r. destruct rs as [[]]. done.
  - wp_step. rewrite filter_cons. cbn. destruct (P f) eqn:EP.
    + wp_step. rewrite decide_False by done. apply IH. intros kv Hkv. apply Hin. by right.
    + rewrite decide_True by done. destruct (Hin (f, p)) as [e He]; [by left|]. cbn in He. eapply enqueueRemoveFace_spec; [exact He|].
      eapply wp_mono; [apply IH; intros kv Hkv; apply Hin; by right|]. intros [] rs' ->. rewrite enqueued_app. unfold removals. cbn. by rewrite He.
Qed.

Lemma removals_elem s (pairs : list (Z * ptr)) item : item ∈ removals s pairs → ∃ f p e r, (f, p) ∈ pairs ∧ rb_heap s !! p = Some e ∧ r ∈ re_routes e ∧
  rt_faceId r = f ∧ item = itemOf (mkRibUpdate REMOVE_FACE (re_name e) r) None.
Proof.
  unfold removals. intros (l & Hl & ([f p] & -> & Hfp)%list_elem_of_fmap)%list_elem_of_join. cbn in Hl.
  destruct (rb_heap s !! p) as [e|] eqn:He; [|by apply elem_of_nil in Hl]. cbn in Hl. unfold removalsOf in Hl.
  apply list_elem_of_fmap in Hl as (r & -> & [Hf Hr]%list_elem_of_filter). by exists f, p, e, r.
Qed.

Lemma removals_covers s (pairs : list (Z * ptr)) n r : RibInv s → r ∈ routesAt s n →
  (∀ p, (rt_faceId r, p) ∈ rb_faceEntries s → (rt_faceId r, p) ∈ pairs) →
  itemOf (mkRibUpdate REMOVE_FACE n r) None ∈ removals s pairs.
Proof.
  intros Hs Hr Hpairs. destruct (Rib_find n s) as [p|] eqn:Hn; [|rewrite routesAt_None in Hr by done; by apply elem_of_nil in Hr].
  destruct (ri_entry s Hs n p Hn) as (e & He & Ho). rewrite (routesAt_Some s n p e) in Hr by done. unfold removals. apply list_elem_of_join.
  exists (removalsOf e (rt_faceId r)). split.
  - unfold removalsOf. apply list_elem_of_fmap. exists r. rewrite (eo_name _ _ _ _ Ho). split; [done|]. by apply list_elem_of_filter.
  - apply list_elem_of_fmap. exists (rt_faceId r, p). cbn. rewrite He. split; [done|]. apply Hpairs. by apply Ho.
Qed.
End RemoveFace.

(** ** The system *)

Section System.
Context {N : NdnCxx} {SC : Scheduler} {NE : NthElement} (originOf : Z → Z).
Implicit Types (n m : Name) (f : Z) (r : Route) (x : RibUpdate).

Record Sys := mkSys {
  y_rib : RibState;
  y_fib : gmap (Name * Z) Z;
  y_dead : gset Z;       (* the faces that went down *)
  y_notified : gset Z;   (* those whose destruction the RIB has been told of *)
  y_accepted : list nat; (* the callbacks of the requests, in order *)
}.

Inductive Event :=
| Register n r (callback : option nat)
| Unregister n r (callback : option nat)
| Expire n r
| FaceDown f
| FaceNotify f
| ActiveFaces (faces : list Z)
| Response (i : nat)
| Timeout (i : nat) (executed : bool).

Definition onRib (m : M RibState unit) (y : Sys) : option Sys :=
  match m (y_rib y) with
  | Some (rs, _) => Some (mkSys rs (y_fib y) (y_dead y) (y_notified y) (y_accepted y))
  | None => None
  end.

Definition setFib (fib : gmap (Name * Z) Z) (y : Sys) : Sys := mkSys (y_rib y) fib (y_dead y) (y_notified y) (y_accepted y).
Definition accept (callback : option nat) (y : Sys) : Sys :=
  mkSys (y_rib y) (y_fib y) (y_dead y) (y_notified y) (y_accepted y ++ option_list callback).

Definition step (ev : Event) (y : Sys) : option Sys :=
  match ev with
  | Register n r callback => onRib (beginApplyUpdate (mkRibUpdate REGISTER n r) callback) (accept callback y)
  | Unregister n r callback => onRib (beginApplyUpdate (mkRibUpdate UNREGISTER n r) callback) (accept callback y)
  | Expire n r => onRib (onRouteExpiration n r) y
  | FaceDown f =>
      Some (mkSys (y_rib y) (filter (λ kv, kv.1.2 ≠ f) (y_fib y)) (y_dead y ∪ {[f]}) (y_notified y) (y_accepted y))
  | FaceNotify f => onRib (beginRemoveFace f) (mkSys (y_rib y) (y_fib y) (y_dead y) (y_notified y ∪ {[f]}) (y_accepted y))
  | ActiveFaces faces => onRib (beginRemoveFailedFaces faces) y
  | Response i =>
      c ← rs_commands (y_rib y) !! i;
      let '(fib, code) := execute (y_dead y) c (y_fib y) in
      onRib (onResponse i code) (setFib fib y)
  | Timeout i executed =>
      c ← rs_commands (y_rib y) !! i;
      onRib (onResponse i ERROR_TIMEOUT) (setFib (if executed then (execute (y_dead y) c (y_fib y)).1 else y_fib y) y)
  end.

(** The events that the theorems about runs cover.  Requests are about faces that are up,
    and register routes that are inherited by children and do not capture, with one
    origin per face.  Two limits are not limits of the environment, but of what the
    code survives.  A face goes down only while no update for it is queued or in
    progress: the update would be answered with 410, and a registration for several
    names reports the failure once for each.  A response is lost only for an AddNextHop
    command with retries left: a lost RemoveNextHop is retried as AddNextHop, and
    after the last retry the service throws. *)
Definition enabled (ev : Event) (y : Sys) : Prop :=
  match ev with
  | Register n r _ => plain originOf r ∧ rt_faceId r ∉ y_dead y
  | Unregister n r _ | Expire n r => rt_faceId r ∉ y_dead y
  | FaceDown f =>
      Forall (λ item, b_faceId (q_batch item) ≠ f) (rb_updateBatches (rs_rib (y_rib y))) ∧
      (rs_commands (y_rib y) ≠ [] → up_batchFaceId (rs_updater (y_rib y)) ≠ f)
  | FaceNotify f => f ∈ y_dead y
  | ActiveFaces faces => Forall (λ kv, kv.1 ∈ faces ∨ kv.1 ∈ y_dead y) (rb_faceEntries (rs_rib (y_rib y)))
  | Response i => i < length (rs_commands (y_rib y))
  | Timeout i _ =>
      match rs_commands (y_rib y) !! i with Some c => c_verb c = ADD_NEXTHOP ∧ c_nTimeouts c < MAX_NUM_TIMEOUTS | None => False end
  end.

Fixpoint run_events (evs : list Event) (y : Sys) : option Sys :=
  match evs with
  | [] => Some y
  | ev :: evs => y' ← step ev y; run_events evs y'
  end.

(** Every event can happen when it does. *)
Fixpoint valid (evs : list Event) (y : Sys) : Prop :=
  match evs with
  | [] => True
  | ev :: evs => enabled ev y ∧ match step ev y with Some y' => valid evs y' | None => True end
  end.

#[export] Instance plain_decision r : Decision (plain originOf r).
Proof. unfold plain. apply _. Defined.

#[export] Instance enabled_decision ev y : Decision (enabled ev y).
Proof. destruct ev as [| | | | | | |i b]; cbn; try apply _. destruct (rs_commands (y_rib y) !! i); apply _. Defined.

#[export] Instance valid_decision evs y : Decision (valid evs y).
Proof.
  revert y. induction evs as [|ev evs IH]; intros y; cbn; [apply _|]. apply and_dec; [apply _|]. destruct (step ev y); [apply IH|apply _].
Defined.

Definition emptyRib (now : Z) (sched : SchedState RibEvent) : Rib := mkRib ∅ [] [] 0 [] false now sched [].
Definition initialSys (now : Z) (sched : SchedState RibEvent) : Sys :=
  mkSys (mkRibState (emptyRib now sched) (mkFibUpdater 0 [] [] []) [] []) ∅ ∅ ∅ [].

(** No command is outstanding. *)
Definition quiet (y : Sys) : Prop := rs_commands (y_rib y) = [].

(** A prefix of [n] has a route on [f]. *)
Definition reaches (s : Rib) n f : Prop := ∃ k r, k ≤ length n ∧ r ∈ routesAt s (take k n) ∧ rt_faceId r = f.

(** The FIB has the nexthops of the RIB.  The cost of a nexthop is covered for a route of
    the name itself only: that of an inherited nexthop can be the cost of a farther
    prefix. *)
Record Consistent (y : Sys) : Prop := {
  co_queue : rb_updateBatches (rs_rib (y_rib y)) = [] ∧ rb_isUpdateInProgress (rs_rib (y_rib y)) = false;
  co_nexthops : ∀ n f, f ∉ y_dead y →
    is_Some (y_fib y !! (n, f)) ↔ routesAt (rs_rib (y_rib y)) n ≠ [] ∧ reaches (rs_rib (y_rib y)) n f;
  co_costs : ∀ n r, r ∈ routesAt (rs_rib (y_rib y)) n → rt_faceId r ∉ y_dead y → y_fib y !! (n, rt_faceId r) = Some (rt_cost r);
  co_down : ∀ n f, f ∈ y_dead y → y_fib y !! (n, f) = None;
  co_removed : ∀ n r, r ∈ routesAt (rs_rib (y_rib y)) n → rt_faceId r ∉ y_notified y;
  co_answers : rs_done (y_rib y) = (λ callback, (callback, UpdateOk)) <$> y_accepted y;
}.
End System.
