(* ===== verification/RibCorrect.v ===== *)
(** * What the RIB service guarantees

    The theorems about runs of the RIB service, the examples they are instantiated
    at, and runs in which the FIB does not follow the RIB when routes have other
    flags, several origins or costs. *)

From Stdlib Require Import ZArith Lia.
From stdpp Require Import base gmap option list sorting fin_maps.
From S2P Require Import Prelude Scheduler Ndn FibEntry Rib FibUpdater RibSpecs RibAncestors FibUpdaterSpecs.
From S2P Require Import RibFib RibSystem.

Section Invariant.
Context {N : NdnCxx} {NL : NdnCxxLaws N} {SC : Scheduler} {NE : NthElement} (originOf : Z → Z).
Implicit Types (s : Rib) (n m : Name) (f : Z) (r : Route) (x : RibUpdate) (rs : RibState) (y : Sys) (ev : Event).

Record SysInv y : Prop := {
  si_settled : Settled originOf (y_fib y) (y_dead y) (y_notified y) (y_accepted y) (y_rib y);
  si_notified : y_notified y ⊆ y_dead y;
  si_down : ∀ n f, f ∈ y_dead y → y_fib y !! (n, f) = None;
}.

Lemma onRib_spec (m : M RibState unit) y Q : wp m (λ _ rs, Q (mkSys rs (y_fib y) (y_dead y) (y_notified y) (y_accepted y))) (y_rib y) →
  ∃ y', onRib m y = Some y' ∧ Q y'.
Proof. intros H. apply wp_elim in H as (rs & [] & E & HQ). unfold onRib. rewrite E. eauto. Qed.

Lemma request_step x callback y : SysInv y → okUpdate originOf (y_dead y) x →
  ∃ y', onRib (beginApplyUpdate x callback) (accept callback y) = Some y' ∧ SysInv y'.
Proof.
  intros [H1 H2 H3] Hok. apply onRib_spec. cbn. eapply wp_mono; [by eapply (beginApplyUpdate_spec originOf) with (notified' := y_notified y)|]. intros [] rs Hs. by split.
Qed.

Lemma beginRemoveFace_enqueue f rs : RibInv (rs_rib rs) → ∃ l,
  (∀ item, item ∈ l → ∃ x, item = itemOf x None ∧ ru_action x = REMOVE_FACE ∧ rt_faceId (ru_route x) = f) ∧
  (∀ n r, r ∈ routesAt (rs_rib rs) n → rt_faceId r = f → itemOf (mkRibUpdate REMOVE_FACE n r) None ∈ l) ∧
  ∀ Q, wp sendBatchFromQueue Q (enqueued l rs) → wp (beginRemoveFace f) Q rs.
Proof.
  intros Hs. set (pairs := filter (λ kv, kv.1 = f) (rb_faceEntries (rs_rib rs))).
  assert (Hall : filter (λ kv : Z * ptr, false = false) pairs = pairs) by (by apply filter_all).
  exists (removals (rs_rib rs) pairs). split; [|split].
  - intros item (g & p & e & r & [Hg _]%list_elem_of_filter & He & Hr & Hf & ->)%removals_elem. cbn in Hg. exists (mkRibUpdate REMOVE_FACE (re_name e) r).
    split; [done|]. split; [done|]. cbn. congruence.
  - intros n r Hr Hf. apply removals_covers; [done|done|]. intros p Hp. by apply list_elem_of_filter.
  - intros Q HQ. unfold beginRemoveFace. do 2 wp_step. fold pairs. wp_step.
    rewrite (forM_ext pairs _ (λ kv, if (λ _, false) kv.1 then mret tt else ribM (enqueueRemoveFace kv.2 kv.1))) by (by intros kv [-> _]%list_elem_of_filter).
    eapply wp_mono; [apply (enqueueAll_spec (λ _, false))|].
    + intros [g p] [_ Hin]%list_elem_of_filter. by eapply ri_faceEntries.
    + intros [] rs' ->. cbn beta. by rewrite Hall.
Qed.

Lemma beginRemoveFailedFaces_enqueue faces rs : RibInv (rs_rib rs) → ∃ l,
  (∀ item, item ∈ l → ∃ x p, item = itemOf x None ∧ ru_action x = REMOVE_FACE ∧ (rt_faceId (ru_route x), p) ∈ rb_faceEntries (rs_rib rs) ∧
    (rt_faceId (ru_route x) ∉ faces)) ∧
  ∀ Q, wp sendBatchFromQueue Q (enqueued l rs) → wp (beginRemoveFailedFaces faces) Q rs.
Proof.
  intros Hs. set (P := λ g : Z, bool_decide (g ∈ faces)). exists (removals (rs_rib rs) (filter (λ kv, P kv.1 = false) (rb_faceEntries (rs_rib rs)))). split.
  2:{ intros Q HQ. unfold beginRemoveFailedFaces. do 2 wp_step. wp_step.
      rewrite (forM_ext _ _ (λ kv, if P kv.1 then mret tt else ribM (enqueueRemoveFace kv.2 kv.1)))
        by (intros kv _; unfold P; case_bool_decide; [by rewrite decide_True|by rewrite decide_False]).
      eapply wp_mono; [apply (enqueueAll_spec P); intros [g p] Hin; by eapply ri_faceEntries|]. intros [] rs' ->. exact HQ. }
  intros item (g & p & e & r & [Hg Hin]%list_elem_of_filter & He & Hr & Hf & ->)%removals_elem. cbn in Hg. apply bool_decide_eq_false in Hg.
  exists (mkRibUpdate REMOVE_FACE (re_name e) r), p. cbn. by rewrite Hf.
Qed.

Lemma Settled_inv fib dead notified accepted rs : Settled originOf fib dead notified accepted rs → RibInv (rs_rib rs).
Proof. intros [[H _]|(x & cb & H & _)]; apply H. Qed.

Lemma removal_callbacks l : (∀ item, item ∈ l → ∃ x, item = itemOf x None) → omap q_callback l = [].
Proof.
  induction l as [|item l IH]; intros H; cbn; [done|]. destruct (H item) as [x ->]; [by left|]. cbn. apply IH. intros i Hi. apply H. by right.
Qed.

Lemma notify_step f y : SysInv y → f ∈ y_dead y → ∃ y', step (FaceNotify f) y = Some y' ∧ SysInv y'.
Proof.
  intros [H1 H2 H3] Hf. cbn [step]. apply onRib_spec. cbn. destruct (beginRemoveFace_enqueue f (y_rib y)) as (l & Hl & Hcov & Hwp); [by eapply Settled_inv|].
  apply Hwp. assert (Hsub : y_notified y ∪ {[f]} ⊆ y_dead y) by set_solver.
  eapply wp_mono; [eapply (enqueue_spec originOf) with (notified' := y_notified y ∪ {[f]}); [done|exact H1| |]|].
  - intros item (x & -> & Ha & Ef)%Hl. exists x, None. split; [done|]. unfold okUpdate. by rewrite Ha, Ef.
  - intros n r Hr Hin Hnot. assert (Ef : rt_faceId r = f) by set_solver. exists (mkRibUpdate REMOVE_FACE n r), None. by split; [apply Hcov|].
  - intros [] rs Hs. rewrite removal_callbacks, app_nil_r in Hs by (intros item (x & -> & _)%Hl; eauto). by split.
Qed.

Lemma activeFaces_step faces y : SysInv y → enabled originOf (ActiveFaces faces) y → ∃ y', step (ActiveFaces faces) y = Some y' ∧ SysInv y'.
Proof.
  intros [H1 H2 H3] Hen. cbn [step]. apply onRib_spec. destruct (beginRemoveFailedFaces_enqueue faces (y_rib y)) as (l & Hl & Hwp); [by eapply Settled_inv|].
  apply Hwp. eapply wp_mono; [eapply (enqueue_spec originOf) with (notified' := y_notified y); [done|exact H1| |]|].
  - intros item (x & p & -> & Ha & Hin & Hnot)%Hl. exists x, None. split; [done|]. unfold okUpdate. rewrite Ha. cbn in Hen. rewrite Forall_forall in Hen. by destruct (Hen _ Hin).
  - by intros n r _ ?.
  - intros [] rs Hs. rewrite removal_callbacks, app_nil_r in Hs by (intros item (x & p & -> & _)%Hl; eauto). by split.
Qed.

Lemma okUpdate_down f dead x : rt_faceId (ru_route x) ≠ f → okUpdate originOf dead x → okUpdate originOf (dead ∪ {[f]}) x.
Proof. intros Hne. unfold okUpdate. destruct (ru_action x); set_solver. Qed.

Lemma QueueOk_down f dead q : (∀ item, item ∈ q → b_faceId (q_batch item) ≠ f) → QueueOk originOf dead q → QueueOk originOf (dead ∪ {[f]}) q.
Proof.
  intros Hne Hq item Hin. destruct (Hq item Hin) as (x & cb & -> & Hok). exists x, cb. split; [done|]. apply okUpdate_down; [|done]. by apply (Hne _ Hin).
Qed.

Lemma down_lookup f (fib : gmap (Name * Z) Z) n g : filter (λ kv : Name * Z * Z, kv.1.2 ≠ f) fib !! (n, g) = if decide (g = f) then None else fib !! (n, g).
Proof.
  destruct (decide (g = f)) as [->|Hg].
  - apply map_lookup_filter_None. right. intros c _ Hc. by apply Hc.
  - apply option_eq. intros c. rewrite map_lookup_filter_Some. cbn. tauto.
Qed.

Lemma down_step f y : SysInv y → enabled originOf (FaceDown f) y → ∃ y', step (FaceDown f) y = Some y' ∧ SysInv y'.
Proof.
  intros [H1 H2 H3] [Hq Hb]. rewrite Forall_forall in Hq. eexists. split; [reflexivity|]. split; cbn; [|set_solver|].
  - destruct H1 as [[[I1 I2 I3 I4 I5 I6 I7] Hnil]|(x & cb & [P1 P2 P3 P4 P5 P6 P7] & HS)]; [left|right].
    + split; [|done]. split; try done; [by apply QueueOk_down|]. intros n g Hg. rewrite down_lookup, decide_False by set_solver. apply I5. set_solver.
    + assert (Hf : rt_faceId (ru_route x) ≠ f).
      { rewrite <- (le_face _ _ _ _ _ P5). apply Hb. intros E. destruct HS as [S1 S2 _]. rewrite E in S2. symmetry in S2. by apply Permutation_nil_r in S2. }
      exists x, cb. split; [|done]. split; try done; [by apply okUpdate_down|by apply QueueOk_down|]. destruct P5 as [L1 L2 L3 L4 L5 L6]. split; try done.
      intros n g Hg. rewrite down_lookup, decide_False by set_solver. apply L4. set_solver.
  - intros n g Hg. rewrite down_lookup. destruct (decide (g = f)); [done|]. apply H3. set_solver.
Qed.

Lemma execute_down (dead : gset Z) (c : Command) (fib : gmap (Name * Z) Z) : (∀ n f, f ∈ dead → fib !! (n, f) = None) →
  ∀ n f, f ∈ dead → (execute dead c fib).1 !! (n, f) = None.
Proof.
  intros H n f Hf. unfold execute. destruct (c_verb c); [destruct (decide _) as [|Hd]|]; cbn; [by apply H| |].
  - rewrite lookup_insert_ne; [by apply H|]. intros [= _ <-]. done.
  - rewrite lookup_delete_None. right. by apply H.
Qed.

Lemma commands_busy fib dead notified accepted rs : Settled originOf fib dead notified accepted rs → rs_commands rs ≠ [] →
  Busy originOf fib dead notified accepted rs.
Proof. intros [[H _]|H] Hne; [|done]. by rewrite (id_commands _ _ _ _ _ _ H) in Hne. Qed.

Lemma response_step i y (c : Command) : SysInv y → rs_commands (y_rib y) !! i = Some c →
  ∃ y', step (Response i) y = Some y' ∧ SysInv y' ∧ Answered originOf (y_dead y) (y_notified y) (y_accepted y) (y_fib y') (y_rib y) (y_rib y') ∧
    y_dead y' = y_dead y ∧ y_notified y' = y_notified y ∧ y_accepted y' = y_accepted y.
Proof.
  intros [H1 H2 H3] Hi. cbn [step]. rewrite Hi. cbn [mbind option_bind]. pose proof (execute_down (y_dead y) c (y_fib y) H3) as Hd.
  assert (HB : Busy originOf (y_fib y) (y_dead y) (y_notified y) (y_accepted y) (y_rib y)) by (apply commands_busy; [done|]; intros E; by rewrite E in Hi).
  pose proof (onResponse_spec originOf (y_dead y) (y_notified y) (y_accepted y) H2 (y_fib y) (y_rib y) i c HB Hi) as Hwp.
  destruct (execute (y_dead y) c (y_fib y)) as [fib code]. cbn [fst snd] in *. apply onRib_spec. eapply wp_mono; [exact Hwp|].
  intros [] rs HA. split; [|by split]. split; cbn; [|done|done]. destruct HA as [[?|[? _]]|[? _]]; [by left|by right|by right].
Qed.

Lemma step_spec ev y : SysInv y → enabled originOf ev y → ∃ y', step ev y = Some y' ∧ SysInv y'.
Proof.
  intros Hy Hen. destruct ev as [n r cb|n r cb|n r|f|f|faces|i|i b].
  - by apply request_step.
  - by apply request_step.
  - cbn [step]. unfold onRouteExpiration. assert (Ey : y = accept None y) by (destruct y; unfold accept; cbn; by rewrite app_nil_r). rewrite Ey. by apply request_step.
  - by apply down_step.
  - by apply notify_step.
  - by apply activeFaces_step.
  - cbn in Hen. destruct (lookup_lt_is_Some_2 _ _ Hen) as [c Hc]. destruct (response_step i y c Hy Hc) as (y' & E & H & _). eauto.
  - cbn in Hen. destruct (rs_commands (y_rib y) !! i) as [c|] eqn:Hc; [|done]. destruct Hen as [Hv Hn]. destruct Hy as [H1 H2 H3]. cbn [step]. rewrite Hc. cbn [mbind option_bind]. apply onRib_spec.
    eapply wp_mono; [apply (onResponse_timeout originOf) with (c := c) (fib := y_fib y) (executed := b); [|done|done|done]|].
    + apply commands_busy; [done|]. intros E. cbn in E. by rewrite E in Hc.
    + intros [] rs HB. split; cbn; [by right|done|]. destruct b; [by apply execute_down|done].
Qed.

Lemma emptyRib_inv now sched : RibInv (emptyRib now sched).
Proof. split; cbn; [apply SSorted_nil|apply NoDup_nil_2|done|by intros f p ?%elem_of_nil|done]. Qed.

Lemma initial_inv now sched : SysInv (initialSys now sched).
Proof.
  split; [left|done|done]. split; [|done]. assert (HR : ∀ n, routesAt (emptyRib now sched) n = []) by done. split; cbn; try done.
  - split; [apply emptyRib_inv|split; [intros n r; rewrite HR; by intros ?%elem_of_nil|done]|intros n f Hne; by rewrite HR in Hne].
  - intros item Hin. by apply elem_of_nil in Hin.
  - split; [done|]. by intros d ?%elem_of_nil.
Qed.

Lemma run_spec_inv evs y : SysInv y → valid originOf evs y → ∃ y', run_events evs y = Some y' ∧ SysInv y'.
Proof.
  revert y. induction evs as [|ev evs IH]; intros y Hy Hv; cbn; [eauto|]. destruct Hv as [Hen Hv].
  destruct (step_spec ev y Hy Hen) as (y1 & E & Hy1). rewrite E in *. cbn. by apply IH.
Qed.

Lemma nearest_reaches (R : Name → list Route) n k f : is_Some (nearest R n k f) ↔ ∃ j r, j < k ∧ r ∈ R (take j n) ∧ rt_faceId r = f.
Proof.
  induction k as [|k IH]; cbn [nearest]; [split; [by intros [? ?]|intros (j & r & Hj & _); lia]|].
  destruct (setLookup f (R (take k n))) as [r|] eqn:E.
  - split; [|done]. intros _. apply setLookup_Some in E as [Hr Ef]. exists k, r. split; [lia|done].
  - rewrite IH. split; intros (j & r & Hj & Hr & Hf); exists j, r; (split; [|done]); [lia|]. destruct (decide (j = k)) as [->|]; [|lia].
    exfalso. apply setLookup_None in E. apply E. rewrite <- Hf. apply list_elem_of_fmap. eauto.
Qed.

Lemma ideal_reaches s n f : is_Some (ideal (routesAt s) n f) ↔ routesAt s n ≠ [] ∧ reaches s n f.
Proof.
  unfold ideal, reaches. destruct (decide (routesAt s n = [])) as [E|E]; [split; [by intros [? ?]|by intros [? _]]|].
  rewrite fmap_is_Some, nearest_reaches. split; [intros (j & r & Hj & H); split; [done|]; exists j, r; split; [lia|done]|].
  intros [_ (j & r & Hj & H)]. exists j, r. split; [lia|done].
Qed.

Lemma quiet_idle y : SysInv y → quiet y →
  Idle originOf (y_fib y) (y_dead y) (y_notified y) (y_accepted y) (y_rib y) ∧ rb_updateBatches (rs_rib (y_rib y)) = [].
Proof.
  intros [[H|(x & cb & _ & [S1 S2 _])] _ _] Hq; [done|]. unfold quiet in Hq. rewrite Hq in S2. symmetry in S2. by apply Permutation_nil_r in S2.
Qed.

Lemma quiet_consistent y : SysInv y → quiet y → Consistent y.
Proof.
  intros Hy Hq. destruct (quiet_idle y Hy Hq) as [[[Hs Hp _] I2 _ _ I5 I6 I7] Hnil]. split.
  - done.
  - intros n f Hf. destruct (I5 n f Hf) as [-> _]. apply ideal_reaches.
  - intros n r Hr Hf. apply (I5 n (rt_faceId r) Hf). apply setLookup_intro; [|done]. by apply (plainList_at originOf).
  - apply Hy.
  - intros n r Hr Hf. destruct (I6 n r Hr Hf) as (x & cb & Hin & _). rewrite Hnil in Hin. by apply elem_of_nil in Hin.
  - destruct I7 as [Ha Hd]. rewrite Hnil, app_nil_r in Ha. rewrite <- Ha. clear -Hd. induction (rs_done (y_rib y)) as [|[cb res] l IH]; [done|]. cbn.
    rewrite <- IH by (intros d Hin; apply Hd; by right). by rewrite <- (Hd (cb, res)) by (by left).
Qed.

(** Answering the outstanding commands one after another comes to an end. *)
Lemma settle y : SysInv y → ∃ k y', run_events (replicate k (Response 0)) y = Some y' ∧ SysInv y' ∧ quiet y' ∧ y_accepted y' = y_accepted y.
Proof.
  remember (length (rb_updateBatches (rs_rib (y_rib y)))) as q eqn:Eq. revert y Eq. induction (lt_wf q) as [q _ IHq]. intros y.
  remember (pendingCount (y_rib y)) as p eqn:Ep. revert y Ep. induction (lt_wf p) as [p _ IHp]. intros y -> -> Hy.
  destruct (rs_commands (y_rib y)) as [|c l] eqn:Ec; [by exists 0, y|].
  destruct (response_step 0 y c Hy) as (y1 & E1 & Hy1 & HA & _ & _ & Eacc); [by rewrite Ec|].
  assert (Hnext : ∃ k y', run_events (replicate k (Response 0)) y1 = Some y' ∧ SysInv y' ∧ quiet y' ∧ y_accepted y' = y_accepted y1).
  { destruct HA as [[[Hid _]|[_ Hlt]]|(_ & Er & Hlt)].
    - exists 0, y1. do 2 (split; [done|]). split; [|done]. by eapply id_commands.
    - by eapply IHq.
    - eapply IHp; [exact Hlt|done|by rewrite Er|done]. }
  destruct Hnext as (k & y' & E' & Hy' & Hq' & Ea'). exists (S k), y'. split; [|split; [done|split; [done|congruence]]]. cbn [replicate run_events]. by rewrite E1.
Qed.

(** C3: Runs of the RIB service from construction, within the limits of [enabled]:
    requests are for routes that are inherited by longer names and do not capture,
    with one origin per face, on faces that are up; a face goes down only while no
    update for it is queued or in progress; and a response is lost only for an
    AddNextHop command that has been retried less than [MAX_NUM_TIMEOUTS] times (a
    lost response to a RemoveNextHop command breaks the property, see
    [lost_removal_adds_nexthop]).  In every such run nothing fails, and whenever no
    command is outstanding the queue is empty and the FIB has the nexthops of the RIB:
    on a face that is up, a name has a nexthop exactly when it is in the RIB and it or
    one of its prefixes has a route to the face; there is no nexthop on a face that is
    down and no route to one whose destruction was notified; and every request has
    been answered once, in order, with success.  Of the costs only this is claimed: the
    nexthop of a route of the name's own has the cost of that route.  The cost of an
    inherited nexthop is left open, because it can be that of a farther prefix than
    the nearest one ([unregister_wrong_inherited_cost]). *)
Theorem rib_fib_consistent now sched evs : valid originOf evs (initialSys now sched) →
  ∃ y, run_events evs (initialSys now sched) = Some y ∧ (quiet y → Consistent y).
Proof.
  intros Hv. destruct (run_spec_inv evs (initialSys now sched)) as (y & E & Hy); [apply initial_inv|done|]. exists y. split; [done|]. by apply quiet_consistent.
Qed.

(** C4: Every run within the limits of [enabled] (child-inherit routes that do not
    capture, one origin per face, no face that goes down under a queued update, no lost
    response but to an AddNextHop command with retries left) can be continued to a
    quiet state: answering the outstanding commands one after another comes to an end,
    with every queued update done, and the FIB then has the nexthops of the RIB, with
    the costs of the routes of each name itself; costs of inherited nexthops are not
    covered. *)
Theorem rib_updates_complete now sched evs : valid originOf evs (initialSys now sched) →
  ∃ k y, run_events (evs ++ replicate k (Response 0)) (initialSys now sched) = Some y ∧ quiet y ∧ Consistent y.
Proof.
  intros Hv. destruct (run_spec_inv evs (initialSys now sched)) as (y & E & Hy); [apply initial_inv|done|].
  destruct (settle y Hy) as (k & y' & E' & Hy' & Hq & _). exists k, y'. split; [|split; [done|by apply quiet_consistent]].
  clear -E E'. revert E. generalize (initialSys now sched). induction evs as [|ev evs IH]; intros y0; cbn; [by intros [= ->]|].
  destruct (step ev y0) as [y1|]; cbn; [apply IH|done].
Qed.

(** Inserting a route into the RIB adds it to the routes of the name, replacing the
    one with the same face and origin, changes the routes and the inherited routes of
    no other name, and keeps the tree well formed: the parent of an entry is its
    longest proper prefix in the table, and its children are the entries whose parent
    it is. *)
Theorem rib_insert_correct n r s : RibInv s →
  wp (Rib_insert n r) (λ _ s', RibInv s' ∧ (∀ m, routesAt s' m = if decide (m = n) then upsert r (routesAt s n) else routesAt s m) ∧
    (∀ m, inheritedAt s' m = inheritedAt s m)) s.
Proof. intros Hs. eapply wp_mono; [by apply Rib_insert_spec|]. intros [] s' (H1 & _ & H3 & H4 & _). done. Qed.

(** C28: Erasing a route removes exactly the route with that face and origin; an entry
    without routes leaves the table, its children become those of its parent, and the
    tree stays well formed. *)
Theorem rib_erase_correct n r s : RibInv s →
  wp (Rib_erase n r) (λ _ s', RibInv s' ∧ (∀ m, routesAt s' m = if decide (m = n) then removeKey r (routesAt s n) else routesAt s m) ∧
    (∀ m, routesAt s' m ≠ [] → inheritedAt s' m = inheritedAt s m)) s.
Proof. intros Hs. eapply wp_mono; [by apply Rib_erase_spec|]. intros [] s' (H1 & _ & H3 & H4 & _). done. Qed.

(** C29: Following the parent pointers of the tree, up to the first capture, gives on
    each face the first child-inherit route of the longest prefix of the name that
    has one and is not above a capturing prefix; from the name and from its entry
    alike. *)
Theorem ancestor_routes_equivalence s n f : RibInv s →
  ∃ l, getAncestorRoutes_name n s = Some l ∧ setLookup f l = nearestRoute s n (length n) f ∧
    ∀ p e, Rib_find n s = Some p → rb_heap s !! p = Some e → getAncestorRoutes_entry e s = Some l.
Proof.
  intros Hs. destruct (getAncestorRoutes_spec s n Hs) as (l & H1 & H2 & _ & H4). exists l. split; [done|]. split; [done|].
  intros p e Hn He. apply H2. destruct (ri_entry s Hs n p Hn) as (e' & He' & Ho). rewrite He in He'. injection He' as <-. apply (eo_parent _ _ _ _ Ho).
Qed.

(** ** Defects, in every state *)

Lemma lowestCost_spec (P : Route → bool) l :
  match lowestCost P l with
  | Some c => c ∈ l ∧ P c = true ∧ ∀ r, r ∈ l → P r = true → (rt_cost c ≤ rt_cost r)%Z
  | None => ∀ r, r ∈ l → P r = false
  end.
Proof.
  unfold lowestCost. induction l as [|r l IH] using rev_ind; [cbn; by intros r ?%elem_of_nil|]. rewrite foldl_snoc.
  destruct (P r) eqn:Er; destruct (foldl _ None l) as [c|]; [destruct (Z.ltb_spec (rt_cost r) (rt_cost c))|..].
  - destruct IH as (_ & _ & IH). split; [set_solver|]. split; [done|]. intros r' [Hr'| ->%list_elem_of_singleton]%elem_of_app ?; [|lia]. specialize (IH r' Hr'). naive_solver lia.
  - destruct IH as (IH1 & IH2 & IH). split; [set_solver|]. split; [done|]. intros r' [Hr'| ->%list_elem_of_singleton]%elem_of_app ?; [by apply IH|lia].
  - split; [set_solver|]. split; [done|]. intros r' [Hr'| ->%list_elem_of_singleton]%elem_of_app Hp; [|lia]. by rewrite (IH r' Hr') in Hp.
  - destruct IH as (IH1 & IH2 & IH). split; [set_solver|]. split; [done|]. intros r' [Hr'| ->%list_elem_of_singleton]%elem_of_app ?; [by apply IH|congruence].
  - intros r' [Hr'| ->%list_elem_of_singleton]%elem_of_app; [by apply IH|done].
Qed.

(** The routes of the face, one of which has been given the new cost. *)
Lemma updatedRoute_fails (rib : Rib) (entry : RibEntry) r r0 i (u : FibUpdater) :
  (∃ r', re_routes entry !! i = Some r' ∧ rt_faceId r' = rt_faceId r ∧ rt_cost r' = rt_cost r ∧ isChildInherit r' = false) →
  (∀ j r', j ≠ i → re_routes entry !! j = Some r' → rt_faceId r' = rt_faceId r → (rt_cost r0 < rt_cost r')%Z ∧ isChildInherit r' = false) →
  (∃ j r1, j ≠ i ∧ re_routes entry !! j = Some r1 ∧ rt_faceId r1 = rt_faceId r ∧ (rt_cost r1 < rt_cost r)%Z) →
  createFibUpdatesForUpdatedRoute rib entry r r0 u = None.
Proof.
  intros (r' & Hi & Hf & Hc & Hinh) Hothers (j & r1 & Hj & H1 & Hf1 & Hc1).
  destruct (Hothers j r1 Hj H1 Hf1) as [Hr1 _]. unfold createFibUpdatesForUpdatedRoute. rewrite (proj2 (Z.eqb_neq (rt_cost r) (rt_cost r0))) by lia.
  cbn [negb]. rewrite andb_false_r. unfold updateForChangedCost. unfold getRouteWithLowestCostByFaceId, getRouteWithLowestCostAndChildInheritByFaceId.
  pose proof (lowestCost_spec (λ r', (rt_faceId r' =? rt_faceId r)%Z && isChildInherit r') (re_routes entry)) as Hprev.
  destruct (lowestCost (λ r', (rt_faceId r' =? rt_faceId r)%Z && isChildInherit r') (re_routes entry)) as [prev|].
  { exfalso. destruct Hprev as ((k & Hk)%list_elem_of_lookup & [Hpf%Z.eqb_eq Hpi]%andb_true_iff & _). destruct (decide (k = i)) as [->|Hki]; [congruence|].
    destruct (Hothers k prev Hki Hk Hpf). congruence. }
  pose proof (lowestCost_spec (λ r', rt_faceId r' =? rt_faceId r)%Z (re_routes entry)) as Hlow.
  destruct (lowestCost (λ r', rt_faceId r' =? rt_faceId r)%Z (re_routes entry)) as [low|].
  2:{ exfalso. specialize (Hlow r1 (list_elem_of_lookup_2 _ _ _ H1)). cbn in Hlow. apply Z.eqb_neq in Hlow. done. }
  destruct Hlow as ((k & Hk)%list_elem_of_lookup & Hlf%Z.eqb_eq & Hmin).
  specialize (Hmin r1 (list_elem_of_lookup_2 _ _ _ H1) (proj2 (Z.eqb_eq _ _) Hf1)).
  assert (rt_cost r0 < rt_cost low)%Z by (destruct (decide (k = i)) as [->|Hki]; [simplify_eq; lia|by apply (Hothers k)]).
  unfold mbind, M_bind, someM. cbn. rewrite (proj2 (Z.leb_gt (rt_cost r) (rt_cost low))), (proj2 (Z.ltb_lt (rt_cost r0) (rt_cost low))) by lia. done.
Qed.

(** An idle service starts a registration at once. *)
Lemma beginApply_fails x callback rs :
  ru_action x = REGISTER → rb_updateBatches (rs_rib rs) = [] → rb_isUpdateInProgress (rs_rib rs) = false →
  (∀ rib' u, rb_rib rib' = rb_rib (rs_rib rs) → rb_heap rib' = rb_heap (rs_rib rs) → computeUpdatesForRegistration rib' x u = None) →
  beginApplyUpdate x callback rs = None.
Proof.
  intros Ha Hq Hprog Hfail. unfold beginApplyUpdate, addUpdateToQueue, sendBatchFromQueue.
  apply (outcome_bind _ _ (λ o, o = None)). apply wp_lift; wp_step. apply (outcome_bind _ _ (λ o, o = None)). wp_step. cbn. rewrite Hq. cbn [app length sendBatch_loop].
  apply (outcome_bind _ _ (λ o, o = None)). wp_step. cbn. rewrite Hprog. apply (outcome_bind _ _ (λ o, o = None)). apply wp_lift; wp_step.
  apply (outcome_bind _ _ (λ o, o = None)). wp_step; [done|]. unfold computeAndSendFibUpdates. apply (outcome_bind _ _ (λ o, o = None)). apply wp_lift; wp_step.
  cbn [b_updates q_batch forM]. unfold computeUpdate, gets, updaterM, lift, mbind, M_bind. cbn. by rewrite Ha, Hfail.
Qed.

(** C31: A crash: when the service is idle, a name has several routes to a face without
    the child-inherit flag (of different origins), and the cheapest of them is
    registered again with a cost above that of another one, the FIB updater
    dereferences a null pointer.  This holds for every such request in every state. *)
Theorem raised_cost_crashes n r callback p e i r0 rs :
  rb_updateBatches (rs_rib rs) = [] → rb_isUpdateInProgress (rs_rib rs) = false →
  Rib_find n (rs_rib rs) = Some p → rb_heap (rs_rib rs) !! p = Some e →
  findRoute e r = Some i → re_routes e !! i = Some r0 → isChildInherit r = false →
  (∀ j r', j ≠ i → re_routes e !! j = Some r' → rt_faceId r' = rt_faceId r → (rt_cost r0 < rt_cost r')%Z ∧ isChildInherit r' = false) →
  (∃ j r1, j ≠ i ∧ re_routes e !! j = Some r1 ∧ rt_faceId r1 = rt_faceId r ∧ (rt_cost r1 < rt_cost r)%Z) →
  beginApplyUpdate (mkRibUpdate REGISTER n r) callback rs = None.
Proof.
  intros Hq Hprog Hn He Hfind Hi Hinh Hothers Hcheaper.
  assert (Hf : rt_faceId r0 = rt_faceId r).
  { apply find_index_Some in Hfind as (x & Hx & Hk). rewrite Hi in Hx. injection Hx as <-. by apply andb_true_iff in Hk as [?%Z.eqb_eq _]. }
  set (r' := mkRoute (rt_faceId r0) (rt_origin r0) (rt_cost r) (rt_flags r) (rt_expires r) (rt_announcement r0) (rt_annExpires r0) (rt_expirationEvent r0)).
  set (e' := set_re_routes (<[i := r']> (re_routes e)) (re_nRoutesWithCaptureSet e) e).
  assert (Hne : ∀ j, j ≠ i → re_routes e' !! j = re_routes e !! j) by (intros j Hj; cbn; by rewrite list_lookup_insert_ne).
  apply beginApply_fails; [done..|]. intros rib' u Er Eh. unfold computeUpdatesForRegistration, Rib_find in *. cbn. rewrite Er, Hn.
  unfold mbind, M_bind, someM. rewrite Eh, He. cbn. rewrite Hfind, Hi. cbn [option_map]. fold r'. fold e'.
  rewrite (updatedRoute_fails _ e' r r0 i); [done| |by intros j rj Hj; rewrite Hne by done; apply Hothers|].
  - exists r'. split; [cbn; apply list_lookup_insert_eq; by eapply lookup_lt_Some|done].
  - destruct Hcheaper as (j & r1 & Hj & H1 & H2). exists j, r1. by rewrite Hne.
Qed.

(** C30: A lost response undoes a removal: when a RemoveNextHop command times out, with
    retries left, [onUpdateError] sends an AddNextHop command in its place, whether the
    removal has been executed or not, and when that command is answered, the FIB has
    the nexthop that was to be removed (if its face is up).  This holds in every state. *)
Theorem lost_removal_adds_nexthop i executed (c : Command) y :
  rs_commands (y_rib y) !! i = Some c → c_verb c = REMOVE_NEXTHOP → c_nTimeouts c < MAX_NUM_TIMEOUTS → fu_faceId (c_update c) ∉ y_dead y →
  ∃ y' rest, step (Timeout i executed) y = Some y' ∧ delete i (rs_commands (y_rib y)) = rest ∧
    rs_commands (y_rib y') = rest ++ [mkCommand ADD_NEXTHOP (c_update c) (S (c_nTimeouts c)) (c_item c)] ∧
    ∀ y'', step (Response (length rest)) y' = Some y'' → y_fib y'' !! updateKey (c_update c) = Some (fu_cost (c_update c)).
Proof.
  intros Hi Hv Hn Hf. set (rest := delete i (rs_commands (y_rib y))).
  eexists _, rest. split; [|split; [done|split]].
  - cbn [step]. rewrite Hi. cbn [mbind option_bind]. unfold onRib, onResponse, get_st, modify, mbind, M_bind, someM. cbn. rewrite Hi. cbn.
    unfold onUpdateError, gets, mbind, M_bind. cbn. rewrite bool_decide_eq_true_2 by done. cbn. reflexivity.
  - done.
  - intros y''. cbn [step y_rib rs_commands set_rs_commands]. fold rest. rewrite lookup_app_r, Nat.sub_diag by done. cbn [lookup list_lookup mbind option_bind].
    unfold execute. cbn [c_verb c_update y_dead]. rewrite decide_False by done. unfold onRib. cbn [setFib y_rib y_fib].
    destruct (onResponse _ _ _) as [[rs []]|]; [|done]. intros [= <-]. cbn. apply lookup_insert_eq.
Qed.

(** ** Well-formedness in every run

    Whatever the routes, the faces and the responses are: if a run gets through, the
    tree is well formed. *)

Definition wellFormed rs : Prop := RibInv (rs_rib rs).

Lemma wellFormed_rib {A} (m : M Rib A) : preserves RibInv m → preserves wellFormed (ribM m).
Proof. intros H rs rs' a Hs E. unfold ribM, lift in E. destruct (m (rs_rib rs)) as [[s1 b]|] eqn:E1; [|done]. injection E as <- _. by eapply H. Qed.

Lemma wellFormed_updater {A} (m : M FibUpdater A) : preserves wellFormed (updaterM m).
Proof. intros rs rs' a Hs E. unfold updaterM, lift in E. destruct (m (rs_updater rs)) as [[u b]|] eqn:E1; [|done]. by injection E as <- _. Qed.

Lemma RibInv_queue q b : preserves RibInv (modify (set_rb_queue q b)).
Proof. apply preserves_modify. intros s. by apply RibInv_frame. Qed.

Lemma RibInv_enqueue x callback : preserves RibInv (addUpdateToQueue x callback).
Proof. apply preserves_modify. intros s. by apply RibInv_frame. Qed.

Lemma RibInv_removeFace p f : preserves RibInv (enqueueRemoveFace p f).
Proof.
  unfold enqueueRemoveFace, derefEntry. apply preserves_bind; [apply preserves_bind; [apply preserves_get|intros s; apply preserves_someM]|].
  intros e. apply preserves_forM. intros r. destruct (_ =? _)%Z; [apply RibInv_enqueue|apply preserves_ret].
Qed.

Lemma RibInv_inherited x : preserves RibInv (modifyInheritedRoute x).
Proof.
  intros s s' a Hs E. unfold modifyInheritedRoute, mbind, M_bind, get_st, someM in E. destruct (Rib_find (ru_name x) s) as [p|] eqn:Hn; [|done].
  destruct (ri_entry s Hs _ p Hn) as (e & He & Ho).
  assert (Hup : ∀ g : RibEntry → RibEntry, re_name (g e) = re_name e → re_parent (g e) = re_parent e → re_children (g e) = re_children e →
    re_routes (g e) = re_routes e → wp (updateEntry p g) (λ _ s', RibInv s') s).
  { intros g G1 G2 G3 G4. eapply updateRibEntry_spec; [exact He|]. eapply (RibInv_update s _ (ru_name x) p e (g e)); try done; rewrite ?G4; try apply Ho. cbn. lia. }
  cbn [option_map] in E. destruct (ru_action x); [pose proof (Hup (entry_addInheritedRoute (ru_route x)) eq_refl eq_refl eq_refl eq_refl) as H|
    pose proof (Hup (entry_removeInheritedRoute (ru_route x)) eq_refl eq_refl eq_refl eq_refl) as H|by injection E as <- _]; unfold wp in H; by rewrite E in H.
Qed.

Lemma wellFormed_send l item : preserves wellFormed (sendUpdates l item).
Proof. apply preserves_forM. intros y. destruct (fu_action y); by apply preserves_modify. Qed.

Lemma wellFormed_nonBatch item k : (∀ l, preserves wellFormed (k l)) → preserves wellFormed (sendUpdatesForNonBatchFaceId item k).
Proof.
  intros Hk. unfold sendUpdatesForNonBatchFaceId. apply preserves_bind; [apply preserves_gets|]. intros u.
  destruct (up_updatesForNonBatchFaceId u); [apply Hk|apply wellFormed_send].
Qed.

Lemma wellFormed_compute x : preserves wellFormed (computeUpdate x).
Proof.
  unfold computeUpdate. apply preserves_bind; [apply preserves_gets|]. intros s.
  assert (Hc : ∀ o, preserves wellFormed (ribM (cancelEvent o))) by (intros o; apply wellFormed_rib, preserves_modify; intros s0; by apply RibInv_frame).
  destruct (ru_action x); [apply wellFormed_updater|..]; (apply preserves_bind; [apply wellFormed_updater|]; intros o); [apply Hc|].
  apply preserves_bind; [apply Hc|]. intros _. apply wellFormed_updater.
Qed.

Lemma wellFormed_manager callback result : preserves wellFormed (callManager callback result).
Proof. unfold callManager. destruct callback; [by apply preserves_modify|apply preserves_ret]. Qed.

Lemma wellFormed_idle b : preserves wellFormed (ribM (modify (λ s, set_rb_queue (rb_updateBatches s) b s))).
Proof. apply wellFormed_rib, preserves_modify. intros s. by apply RibInv_frame. Qed.

Lemma wellFormed_success next item l : preserves wellFormed next → preserves wellFormed (onFibUpdateSuccess next item l).
Proof.
  intros Hn. unfold onFibUpdateSuccess. apply preserves_bind.
  { apply preserves_forM. intros x. unfold applyRibUpdate. destruct (ru_action x); apply wellFormed_rib, preserves_wp; intros s Hs;
      (eapply wp_mono; [by (apply Rib_insert_spec || apply Rib_erase_spec)|]); intros [] s' [H _]; done. }
  intros _. apply preserves_bind; [apply wellFormed_rib, preserves_forM; apply RibInv_inherited|]. intros _.
  apply preserves_bind; [apply wellFormed_idle|]. intros _. apply preserves_bind; [apply wellFormed_manager|by intros _].
Qed.

Lemma wellFormed_loop fuel : preserves wellFormed (sendBatch_loop fuel).
Proof.
  induction fuel as [|fuel IH]; cbn [sendBatch_loop]; (apply preserves_bind; [apply preserves_gets|]); intros s;
    (destruct (rb_updateBatches s) as [|item rest]; [apply preserves_ret|]); (destruct (rb_isUpdateInProgress s); [apply preserves_ret|]); [apply preserves_assertM|].
  apply preserves_bind; [apply wellFormed_rib, RibInv_queue|]. intros _. apply preserves_bind; [apply preserves_assertM|]. intros _.
  unfold computeAndSendFibUpdates. apply preserves_bind; [apply wellFormed_updater|]. intros _. apply preserves_bind; [apply preserves_forM, wellFormed_compute|]. intros _.
  unfold sendUpdatesForBatchFaceId. apply preserves_bind; [apply preserves_gets|]. intros u.
  destruct (up_updatesForBatchFaceId u); [|apply wellFormed_send]. apply wellFormed_nonBatch. intros l. by apply wellFormed_success.
Qed.

Lemma wellFormed_queue : preserves wellFormed sendBatchFromQueue.
Proof. unfold sendBatchFromQueue. apply preserves_bind; [apply preserves_gets|]. intros s. apply wellFormed_loop. Qed.

Lemma wellFormed_begin x callback : preserves wellFormed (beginApplyUpdate x callback).
Proof. apply preserves_bind; [apply wellFormed_rib, RibInv_enqueue|]. intros _. apply wellFormed_queue. Qed.

Lemma wellFormed_response i code : preserves wellFormed (onResponse i code).
Proof.
  unfold onResponse. apply preserves_bind; [apply preserves_get|]. intros rs. apply preserves_bind; [apply preserves_someM|]. intros c.
  apply preserves_bind; [by apply preserves_modify|]. intros _. destruct (_ =? _)%Z.
  - unfold onUpdateSuccess. apply preserves_bind; [apply preserves_gets|]. intros u. destruct (_ =? _)%Z; (apply preserves_bind; [apply wellFormed_updater|]; intros _);
      (destruct (decide _); [|apply preserves_ret]); [apply wellFormed_nonBatch; intros l|]; apply wellFormed_success, wellFormed_queue.
  - unfold onUpdateError. apply preserves_bind; [apply preserves_gets|]. intros u. destruct (_ && _); [by apply preserves_modify|].
    destruct (_ =? _)%Z; [|apply preserves_assertM]. destruct (_ =? _)%Z.
    + unfold onFibUpdateFailure. apply preserves_bind; [apply wellFormed_idle|]. intros _. apply preserves_bind; [apply wellFormed_manager|]. intros _. apply wellFormed_queue.
    + apply preserves_bind; [apply wellFormed_updater|]. intros _. destruct (decide _); [|apply preserves_ret]. apply wellFormed_success, wellFormed_queue.
Qed.

Lemma onRib_wellFormed (m : M RibState unit) y y' : preserves wellFormed m → wellFormed (y_rib y) → onRib m y = Some y' → wellFormed (y_rib y').
Proof. intros Hm Hy E. unfold onRib in E. destruct (m (y_rib y)) as [[rs []]|] eqn:Em; [|done]. injection E as <-. by eapply Hm. Qed.

Lemma step_wellFormed ev y y' : wellFormed (y_rib y) → step ev y = Some y' → wellFormed (y_rib y').
Proof.
  assert (Hf : ∀ l g h, preserves wellFormed (forM (A := Z * ptr) l (λ kv, if g kv : bool then mret tt else ribM (enqueueRemoveFace kv.2 (h kv)));; sendBatchFromQueue)).
  { intros l g h. apply preserves_bind; [|intros _; apply wellFormed_queue]. apply preserves_forM. intros kv. destruct (g kv); [apply preserves_ret|]. apply wellFormed_rib, RibInv_removeFace. }
  intros Hy E. destruct ev as [n r cb|n r cb|n r|f|f|faces|i|i b]; cbn [step] in E.
  - eapply onRib_wellFormed; [apply wellFormed_begin| |exact E]; done.
  - eapply onRib_wellFormed; [apply wellFormed_begin| |exact E]; done.
  - eapply onRib_wellFormed; [apply wellFormed_begin| |exact E]; done.
  - by injection E as <-.
  - eapply onRib_wellFormed; [| |exact E]; [|done]. unfold beginRemoveFace. apply preserves_bind; [apply preserves_gets|]. intros s. apply (Hf _ (λ _, false) (λ _, f)).
  - eapply onRib_wellFormed; [| |exact E]; [|done]. unfold beginRemoveFailedFaces. apply preserves_bind; [apply preserves_gets|]. intros s.
    rewrite (forM_ext _ _ (λ kv, if bool_decide (kv.1 ∈ faces) then mret tt else ribM (enqueueRemoveFace kv.2 kv.1)))
      by (intros kv _; case_bool_decide; [by rewrite decide_True|by rewrite decide_False]). apply (Hf _ (λ kv, bool_decide (kv.1 ∈ faces)) fst).
  - destruct (rs_commands (y_rib y) !! i) as [c|]; [|done]. cbn [mbind option_bind] in E. destruct (execute (y_dead y) c (y_fib y)) as [fib code].
    eapply onRib_wellFormed; [apply wellFormed_response| |exact E]; done.
  - destruct (rs_commands (y_rib y) !! i) as [c|]; [|done]. cbn [mbind option_bind] in E. eapply onRib_wellFormed; [apply wellFormed_response| |exact E]; done.
Qed.

(** C27: With any routes, flags, requests and responses: as long as the service runs,
    the RIB is well formed.  Its table is sorted, every entry has routes with distinct
    keys, its parent is its longest proper prefix in the table and its children are
    exactly the entries below it, every route is indexed by its face, and the number of
    routes is the counter. *)
Theorem rib_well_formed now sched evs y : run_events evs (initialSys now sched) = Some y → RibInv (rs_rib (y_rib y)).
Proof.
  assert (H0 : wellFormed (y_rib (initialSys now sched))) by apply emptyRib_inv. revert H0. generalize (initialSys now sched).
  induction evs as [|ev evs IH]; intros y0 Hy0; cbn; [by intros [= <-]|]. destruct (step ev y0) as [y1|] eqn:E; [|done]. cbn.
  apply IH. by eapply step_wellFormed.
Qed.
End Invariant.

(** ** Examples *)

Module RibExamples.

Definition exRoute (faceId origin cost flags : Z) : Route (N := NatNdn) := mkRoute faceId origin cost flags None None 0 None.
Definition sys0 : Sys (N := NatNdn) (SC := MapScheduler) := initialSys 0 emptyScheduler.
Definition exOrigin (faceId : Z) : Z := 0.

Definition register (n : list nat) (faceId origin cost flags : Z) : Event (N := NatNdn) := Register n (exRoute faceId origin cost flags) None.
Definition unregister (n : list nat) (faceId origin : Z) : Event (N := NatNdn) := Unregister n (exRoute faceId origin 0 0) None.
Definition reply : Event (N := NatNdn) := Response 0.

(** Answers commands until none is outstanding. *)
Fixpoint answerAll (fuel : nat) (y : Sys (N := NatNdn) (SC := MapScheduler)) : option Sys :=
  match fuel, rs_commands (y_rib y) with
  | 0, _ | _, [] => Some y
  | S fuel, _ => y' ← step (NE := SortedNth) reply y; answerAll fuel y'
  end.

(** Each event, and then all the answers. *)
Fixpoint runAll (evs : list Event) (y : Sys (N := NatNdn) (SC := MapScheduler)) : option Sys :=
  match evs with
  | [] => Some y
  | ev :: evs => y1 ← step (NE := SortedNth) ev y; y2 ← answerAll 100 y1; runAll evs y2
  end.

(** A run with inheritance, a lost response, a route that expires and a face that goes down. *)
Definition exRun : list Event :=
  [Register [1] (exRoute 10 0 5 1) (Some 1); Timeout 0 true; reply;
   Register [1; 2] (exRoute 11 0 7 1) (Some 2); Unregister [7] (exRoute 10 0 0 0) (Some 3); reply; reply;
   register [1; 2; 3] 12 0 1 1; reply; reply; reply; Expire [1; 2] (exRoute 11 0 7 1); reply; reply;
   register [1; 2] 11 0 9 1; FaceDown 10; FaceNotify 10; reply; reply; reply; reply; reply; reply].

Lemma rib_fib_consistent_witness :
  valid (NE := SortedNth) exOrigin exRun sys0 ∧ ∃ y, run_events (NE := SortedNth) exRun sys0 = Some y ∧ (quiet y → Consistent y).
Proof.
  assert (Hv : valid (NE := SortedNth) exOrigin exRun sys0) by (apply (bool_decide_unpack _); vm_compute; exact I).
  split; [exact Hv|]. exact (rib_fib_consistent exOrigin 0 emptyScheduler exRun Hv).
Defined.

Lemma rib_updates_complete_witness :
  valid (NE := SortedNth) exOrigin (take 4 exRun) sys0 ∧
  ∃ k y, run_events (NE := SortedNth) (take 4 exRun ++ replicate k reply) sys0 = Some y ∧ quiet y ∧ Consistent y.
Proof.
  assert (Hv : valid (NE := SortedNth) exOrigin (take 4 exRun) sys0) by (apply (bool_decide_unpack _); vm_compute; exact I).
  split; [exact Hv|]. exact (rib_updates_complete exOrigin 0 emptyScheduler (take 4 exRun) Hv).
Defined.

(** A table with nested names. *)
Definition exInserts : M (Rib (N := NatNdn) (SC := MapScheduler)) unit :=
  Rib_insert [1] (exRoute 10 0 5 1);; Rib_insert [1; 2; 3] (exRoute 11 0 7 3);; Rib_insert [1; 2] (exRoute 12 0 9 0).
Definition exTable : Rib (N := NatNdn) (SC := MapScheduler) := run exInserts (emptyRib 0 emptyScheduler).

Lemma exTable_inv : RibInv exTable.
Proof.
  unfold exTable. edestruct (run_spec exInserts (λ _ s, RibInv s)) as [_ H]; [|exact H]. unfold exInserts.
  wp_step. eapply wp_mono; [apply Rib_insert_spec, emptyRib_inv|]. intros [] s1 [H1 _].
  wp_step. eapply wp_mono; [by apply Rib_insert_spec|]. intros [] s2 [H2 _].
  eapply wp_mono; [by apply Rib_insert_spec|]. intros [] s3 [H3 _]. done.
Qed.

Lemma rib_insert_correct_witness : RibInv exTable ∧
  wp (Rib_insert [1; 2] (exRoute 13 0 1 1)) (λ _ s', RibInv s' ∧
    (∀ m, routesAt s' m = if decide (m = [1; 2]) then upsert (exRoute 13 0 1 1) (routesAt exTable [1; 2]) else routesAt exTable m) ∧
    (∀ m, inheritedAt s' m = inheritedAt exTable m)) exTable.
Proof. split; [exact exTable_inv|]. apply (rib_insert_correct (N := NatNdn) (SC := MapScheduler) [1; 2] (exRoute 13 0 1 1) exTable exTable_inv). Defined.

Lemma rib_erase_correct_witness : RibInv exTable ∧
  wp (Rib_erase [1; 2] (exRoute 12 0 0 0)) (λ _ s', RibInv s' ∧
    (∀ m, routesAt s' m = if decide (m = [1; 2]) then removeKey (exRoute 12 0 0 0) (routesAt exTable [1; 2]) else routesAt exTable m) ∧
    (∀ m, routesAt s' m ≠ [] → inheritedAt s' m = inheritedAt exTable m)) exTable.
Proof. split; [exact exTable_inv|]. apply (rib_erase_correct (N := NatNdn) (SC := MapScheduler) [1; 2] (exRoute 12 0 0 0) exTable exTable_inv). Defined.

Lemma ancestor_routes_equivalence_witness : RibInv exTable ∧
  ∃ l, getAncestorRoutes_name [1; 2; 3; 4] exTable = Some l ∧ setLookup 11 l = nearestRoute exTable [1; 2; 3; 4] 4 11 ∧
    ∀ p e, Rib_find [1; 2; 3; 4] exTable = Some p → rb_heap exTable !! p = Some e → getAncestorRoutes_entry e exTable = Some l.
Proof. split; [exact exTable_inv|]. apply (ancestor_routes_equivalence (N := NatNdn) (SC := MapScheduler) exTable [1; 2; 3; 4] 11 exTable_inv). Defined.

(** Updates of every kind: captures, two origins on one face, changes of flags. *)
Definition exMixed : list Event :=
  [register [1] 10 0 5 1; reply; register [1; 2; 3] 11 0 7 3; reply; register [1; 2] 12 0 9 0; reply; reply;
   register [1; 2] 12 255 8 2; reply; unregister [1] 10 0; reply].

Lemma rib_well_formed_witness : ∃ y, run_events (NE := SortedNth) exMixed sys0 = Some y ∧ RibInv (rs_rib (y_rib y)).
Proof.
  assert (H : match run_events (NE := SortedNth) exMixed sys0 with Some _ => true | None => false end = true) by (vm_compute; reflexivity).
  destruct (run_events (NE := SortedNth) exMixed sys0) as [y|] eqn:E; [|discriminate H].
  exists y. split; [reflexivity|]. exact (rib_well_formed (NE := SortedNth) 0 emptyScheduler exMixed y E).
Defined.

(** What can be seen of the state. *)
Definition outcome (o : option (Sys (N := NatNdn) (SC := MapScheduler))) : option (nat * list (nat * RibUpdateResult)) :=
  (λ y, (length (rs_commands (y_rib y)), rs_done (y_rib y))) <$> o.
Definition nexthop (n : list nat) (faceId : Z) (o : option (Sys (N := NatNdn) (SC := MapScheduler))) : option Z :=
  y ← o; y_fib y !! (n, faceId).
Definition costs (n : list nat) (o : option (Sys (N := NatNdn) (SC := MapScheduler))) : list (Z * Z) :=
  default [] ((λ y, (λ r, (rt_faceId r, rt_cost r)) <$> routesAt (rs_rib (y_rib y)) n) <$> o).

(** The run ends quiet, with the routes of the face that went down removed. *)
Example exRun_result :
  let o := run_events (NE := SortedNth) exRun sys0 in
  outcome o = Some (0, [(1, UpdateOk); (2, UpdateOk); (3, UpdateOk)]) ∧ nexthop [1; 2; 3] 11 o = Some 9%Z ∧ costs [1] o = [].
Proof. vm_compute. done. Qed.

(** ** Where the FIB does not follow the RIB *)

Definition run_costlier : option Sys := runAll [register [1] 1 0 10 1; register [1] 1 255 20 1; unregister [1] 1 255] sys0.
Definition run_inheritedCost : option Sys := runAll [register [1] 1 0 10 1; register [1; 2] 1 0 5 1; register [1; 2] 2 0 7 1; register [1; 2; 3] 3 0 1 1; unregister [1; 2] 2 0] sys0.
Definition run_ownRoute : option Sys := runAll [register [1] 1 0 10 1; register [1; 2] 2 0 5 1; register [1; 2] 1 0 7 0; unregister [1] 1 0] sys0.
Definition run_capture : option Sys := runAll [register [1] 1 0 10 1; register [1; 2] 2 0 5 2; register [1; 2; 3] 3 0 1 1; unregister [1; 2] 2 0] sys0.
Definition run_lostRemoval : option Sys := run_events (NE := SortedNth) [register [1] 1 0 10 1; reply; unregister [1] 1 0; Timeout 0 false; reply] sys0.

(** Two routes to a face, of different origins: unregistering the more expensive one
    removes the nexthop, although the other route is still in the RIB. *)
Example unregister_costlier_origin :
  outcome run_costlier = Some (0, []) ∧ costs [1] run_costlier = [(1, 10)]%Z ∧ nexthop [1] 1 run_costlier = None.
Proof. vm_compute. done. Qed.

(** Raising the cost of the cheapest of two routes to a face. *)
Definition exTwoOrigins : RibState :=
  default (y_rib sys0) (y_rib <$> runAll [register [1] 1 0 10 0; register [1] 1 255 20 0] sys0).
Definition exTwo : RibEntry := default (newRibEntry (N := NatNdn) []) (p ← Rib_find [1] (rs_rib exTwoOrigins); rb_heap (rs_rib exTwoOrigins) !! p).
Definition exTwoPtr : ptr := default 1%positive (Rib_find [1] (rs_rib exTwoOrigins)).

Lemma raised_cost_crashes_witness : beginApplyUpdate (NE := SortedNth) (mkRibUpdate REGISTER [1] (exRoute 1 0 30 0)) None exTwoOrigins = None.
Proof.
  apply (raised_cost_crashes (N := NatNdn) (SC := MapScheduler) [1] (exRoute 1 0 30 0) None exTwoPtr exTwo 0 (exRoute 1 0 10 0) exTwoOrigins);
    lazymatch goal with |- _ = _ => vm_compute; reflexivity | _ => idtac end;
    replace (re_routes exTwo) with [exRoute 1 0 10 0; exRoute 1 255 20 0] by (vm_compute; reflexivity).
  - intros [|[|j]] r' Hj; [done| |done]. intros [= <-] _. done.
  - exists 1, (exRoute 1 255 20 0). done.
Defined.

Definition exRemoving : Sys := default sys0 (run_events (NE := SortedNth) [register [1] 1 0 10 1; reply; unregister [1] 1 0] sys0).
Definition exRemoval : Command := default (mkCommand ADD_NEXTHOP (createRemoveUpdate [] 0) 0 (mkUpdateQueueItem (mkRibUpdateBatch 0 []) None)) (rs_commands (y_rib exRemoving) !! 0).

Lemma lost_removal_adds_nexthop_witness :
  ∃ y', step (NE := SortedNth) (Timeout 0 false) exRemoving = Some y' ∧
    ∀ y'', step (NE := SortedNth) reply y' = Some y'' → y_fib y'' !! ([1], 1%Z) = Some 0%Z.
Proof.
  destruct (lost_removal_adds_nexthop (NE := SortedNth) 0 false exRemoval exRemoving) as (y' & rest & H1 & H2 & _ & H3);
    [vm_compute; reflexivity|vm_compute; reflexivity|apply (bool_decide_unpack _); vm_compute; exact I|apply (bool_decide_unpack _); vm_compute; exact I|].
  exists y'. split; [exact H1|]. assert (rest = []) as -> by (rewrite <- H2; vm_compute; reflexivity).
  intros y'' H. specialize (H3 y'' H). exact H3.
Defined.

(** After one route of a name is unregistered, its descendants get the cost of the
    name's ancestors on a face on which the name still has a route of its own. *)
Example unregister_wrong_inherited_cost :
  outcome run_inheritedCost = Some (0, []) ∧ costs [1; 2] run_inheritedCost = [(1, 5)]%Z ∧ nexthop [1; 2] 1 run_inheritedCost = Some 5%Z ∧ nexthop [1; 2; 3] 1 run_inheritedCost = Some 10%Z.
Proof. vm_compute. done. Qed.

(** Unregistering a route of an ancestor removes the nexthop of a name that has had
    its own route to the face, without the child-inherit flag, since. *)
Example unregister_drops_own_route :
  outcome run_ownRoute = Some (0, []) ∧ costs [1; 2] run_ownRoute = [(2, 5); (1, 7)]%Z ∧ nexthop [1; 2] 1 run_ownRoute = None.
Proof. vm_compute. done. Qed.

(** The descendants of a name that is erased with its capturing route do not inherit
    the routes it captured. *)
Example erased_capture_not_inherited :
  outcome run_capture = Some (0, []) ∧ costs [1] run_capture = [(1, 10)]%Z ∧ costs [1; 2] run_capture = [] ∧ nexthop [1; 2; 3] 1 run_capture = None.
Proof. vm_compute. done. Qed.

(** Setting the capture flag on an existing route is not counted; erasing that route
    makes the counter wrap around, and the name captures for ever. *)
Example capture_counter_wraps :
  let o := runAll [register [1] 1 0 10 0; register [1] 2 0 10 0; register [1] 1 0 10 2; unregister [1] 1 0] sys0 in
  outcome o = Some (0, []) ∧ costs [1] o = [(2, 10)]%Z ∧ (λ y, captureAt (rs_rib (y_rib y)) [1]) <$> o = Some (2 ^ 64 - 1)%Z.
Proof. vm_compute. done. Qed.

(** A RemoveNextHop command whose response is lost is sent again as AddNextHop. *)
Example lost_removal_adds :
  outcome run_lostRemoval = Some (0, []) ∧ costs [1] run_lostRemoval = [] ∧ nexthop [1] 1 run_lostRemoval = Some 0%Z.
Proof. vm_compute. done. Qed.

(** A registration that fails for several names is reported once for each of them. *)
Example failure_reported_twice :
  let o := runAll [register [1; 2] 2 0 5 1; FaceDown 1; Register [1] (exRoute 1 0 10 1) (Some 7)] sys0 in
  outcome o = Some (0, [(7, UpdateFailed 410); (7, UpdateFailed 410)]) ∧ costs [1] o = [].
Proof. vm_compute. done. Qed.
End RibExamples.
