(* ===== verification/LpPacket.v ===== *)
(** * The link protocol packets of ndn-cxx

    [lp::Packet], the NDNLPv2 packet the link service sends and receives, and its
    encoding come from the ndn-cxx library.  A packet is the record of its fields;
    the functions of the library the link service calls are the operations of the
    classes [LpCodec] and [NetCodec], and what the link service relies on, the TLV
    sizes of the fields and the round trip of the encoding, is stated in
    [LpCodecLaws] and [NetCodecLaws] from the NDN packet format and NDNLPv2
    specifications.  [RecordCodec] and [ByteCodec] are instances. *)

From Stdlib Require Import ZArith Lia.
From stdpp Require Import base gmap option list.
From S2P Require Import Prelude Ndn.

Local Open Scope Z_scope.

(** ** Fields

    A field of a received packet is absent, present, or present with a value that
    [Packet::get] fails to decode. *)
Inductive Field (V : Type) := Absent | Malformed | Present (v : V).
Arguments Absent {V}.
Arguments Malformed {V}.
Arguments Present {V} v.

#[export] Instance Field_eqdec {V} `{EqDecision V} : EqDecision (Field V).
Proof. solve_decision. Defined.

(** [Packet::has] *)
Definition has {V} (f : Field V) : bool := match f with Absent => false | _ => true end.

(** [Packet::get]; [None] is a [tlv::Error]. *)
Definition get {V} (f : Field V) : option V := match f with Present v => Some v | _ => None end.

Inductive CachePolicy := CACHE_NONE | NO_CACHE.

#[export] Instance CachePolicy_eqdec : EqDecision CachePolicy.
Proof. solve_decision. Defined.

(** The fields the link service copies between packets and tags. *)
Record LpHeaders := mkHeaders {
  lh_nack : Field NackReason;
  lh_nextHopFaceId : Field Z;
  lh_incomingFaceId : Field Z;
  lh_cachePolicy : Field CachePolicy;
  lh_nonDiscovery : Field unit;
  lh_prefixAnnouncement : Field (list Z);
  lh_pitToken : Field (list Z);
  lh_hopCount : Field Z;
  lh_geoTag : Field (list Z);
}.

Definition noHeaders : LpHeaders :=
  mkHeaders Absent Absent Absent Absent Absent Absent Absent Absent Absent.

#[export] Instance LpHeaders_eqdec : EqDecision LpHeaders.
Proof. solve_decision. Defined.

Record LpPacket := mkLp {
  lp_sequence : Field Z;
  lp_fragIndex : Field Z;
  lp_fragCount : Field Z;
  lp_fragment : Field (list Z);
  lp_txSequence : Field Z;
  lp_acks : list (Field Z);
  lp_congestionMark : Field Z;
  lp_headers : LpHeaders;
}.

#[export] Instance LpPacket_eqdec : EqDecision LpPacket.
Proof. solve_decision. Defined.

(** A default-constructed packet. *)
Definition emptyLp : LpPacket := mkLp Absent Absent Absent Absent Absent [] Absent noHeaders.

(** [lp::Packet(block)] of a network-layer packet: only the Fragment field. *)
Definition netLp (b : list Z) : LpPacket := mkLp Absent Absent Absent (Present b) Absent [] Absent noHeaders.

Definition set_sequence (n : Z) (p : LpPacket) : LpPacket :=
  mkLp (Present n) (lp_fragIndex p) (lp_fragCount p) (lp_fragment p) (lp_txSequence p) (lp_acks p)
    (lp_congestionMark p) (lp_headers p).
Definition set_fragIndex (n : Z) (p : LpPacket) : LpPacket :=
  mkLp (lp_sequence p) (Present n) (lp_fragCount p) (lp_fragment p) (lp_txSequence p) (lp_acks p)
    (lp_congestionMark p) (lp_headers p).
Definition set_fragCount (n : Z) (p : LpPacket) : LpPacket :=
  mkLp (lp_sequence p) (lp_fragIndex p) (Present n) (lp_fragment p) (lp_txSequence p) (lp_acks p)
    (lp_congestionMark p) (lp_headers p).
Definition set_fragment (b : list Z) (p : LpPacket) : LpPacket :=
  mkLp (lp_sequence p) (lp_fragIndex p) (lp_fragCount p) (Present b) (lp_txSequence p) (lp_acks p)
    (lp_congestionMark p) (lp_headers p).
Definition set_txSequence (n : Z) (p : LpPacket) : LpPacket :=
  mkLp (lp_sequence p) (lp_fragIndex p) (lp_fragCount p) (lp_fragment p) (Present n) (lp_acks p)
    (lp_congestionMark p) (lp_headers p).
(** [add<lp::AckField>]: the field is repeatable. *)
Definition add_ack (n : Z) (p : LpPacket) : LpPacket :=
  mkLp (lp_sequence p) (lp_fragIndex p) (lp_fragCount p) (lp_fragment p) (lp_txSequence p)
    (lp_acks p ++ [Present n]) (lp_congestionMark p) (lp_headers p).
Definition set_congestionMark (n : Z) (p : LpPacket) : LpPacket :=
  mkLp (lp_sequence p) (lp_fragIndex p) (lp_fragCount p) (lp_fragment p) (lp_txSequence p) (lp_acks p)
    (Present n) (lp_headers p).
Definition set_headers (h : LpHeaders) (p : LpPacket) : LpPacket :=
  mkLp (lp_sequence p) (lp_fragIndex p) (lp_fragCount p) (lp_fragment p) (lp_txSequence p) (lp_acks p)
    (lp_congestionMark p) h.

(** [lp::Sequence] is [uint64_t]. *)
Definition seq64 (n : Z) : Z := n mod 2 ^ 64.

(** Reduce projections of updated packets, and nothing else. *)
Ltac lp_simpl := cbn [lp_sequence lp_fragIndex lp_fragCount lp_fragment lp_txSequence lp_acks lp_congestionMark lp_headers
  set_sequence set_fragIndex set_fragCount set_fragment set_txSequence add_ack set_congestionMark set_headers emptyLp netLp] in *.

(** No field but Fragment: such a packet is encoded as the network-layer packet itself. *)
Definition isBare (p : LpPacket) : bool :=
  negb (has (lp_sequence p) || has (lp_fragIndex p) || has (lp_fragCount p) || has (lp_txSequence p) ||
    bool_decide (lp_acks p ≠ []) || has (lp_congestionMark p) || bool_decide (lp_headers p ≠ noHeaders)) &&
  has (lp_fragment p).

(** ** Sizes *)

Definition MAX_NDN_PACKET_SIZE : Z := 8800.

(** [tlv::sizeOfVarNumber] *)
Definition sizeOfVarNumber (n : Z) : Z :=
  if n <? 253 then 1 else if n <=? 65535 then 3 else if n <=? 4294967295 then 5 else 9.

(** [tlv::sizeOfNonNegativeInteger] *)
Definition sizeOfNonNegativeInteger (n : Z) : Z :=
  if n <=? 255 then 1 else if n <=? 65535 then 2 else if n <=? 4294967295 then 4 else 8.

(** TLV-TYPE numbers of NDNLPv2. *)
Definition TLV_LpPacket : Z := 100.
Definition TLV_Fragment : Z := 80.
Definition TLV_Sequence : Z := 81.
Definition TLV_CongestionMark : Z := 832.
Definition TLV_Ack : Z := 836.
Definition TLV_TxSequence : Z := 840.

(** The size of an element with TLV-TYPE [t] and a value of [n] octets. *)
Definition tlvSize (t n : Z) : Z := sizeOfVarNumber t + sizeOfVarNumber n + n.

Lemma sizeOfVarNumber_bounds n : 1 ≤ sizeOfVarNumber n ≤ 9.
Proof. unfold sizeOfVarNumber. repeat case_match; lia. Qed.

Lemma sizeOfVarNumber_mono n m : n ≤ m → sizeOfVarNumber n ≤ sizeOfVarNumber m.
Proof. unfold sizeOfVarNumber. intros. destruct (Z.ltb_spec n 253), (Z.ltb_spec m 253), (Z.leb_spec n 65535), (Z.leb_spec m 65535),
  (Z.leb_spec n 4294967295), (Z.leb_spec m 4294967295); lia. Qed.

Lemma sizeOfNonNegativeInteger_bounds n : 1 ≤ sizeOfNonNegativeInteger n ≤ 8.
Proof. unfold sizeOfNonNegativeInteger. repeat case_match; lia. Qed.

Definition sumZ (l : list Z) : Z := foldr Z.add 0 l.

Lemma sumZ_cons x l : sumZ (x :: l) = x + sumZ l.
Proof. done. Qed.

Lemma sumZ_app l k : sumZ (l ++ k) = sumZ l + sumZ k.
Proof. induction l as [|x l IH]; cbn; [done|]. fold (sumZ (l ++ k)). fold (sumZ l). lia. Qed.

Lemma sumZ_nonneg l : (∀ x, x ∈ l → 0 ≤ x) → 0 ≤ sumZ l.
Proof.
  induction l as [|x l IH]; intros H; cbn; [done|]. fold (sumZ l). specialize (IH ltac:(set_solver)).
  specialize (H x ltac:(set_solver)). lia.
Qed.

(** ** Encoding *)

Class LpCodec := {
  (** [Block]s of link-layer packets *)
  LpWire : Type;
  (** [Packet::wireEncode] *)
  lpEncode : LpPacket → LpWire;
  (** [Packet(block)]; [None] is a [tlv::Error] *)
  lpDecode : LpWire → option LpPacket;
  (** [Block::size] *)
  wireSize : LpWire → Z;
  (** [Block::elements], as TLV-TYPE and size, when [Block::type] is LpPacket *)
  wireElements : LpWire → option (list (Z * Z));
  (** The total size of the elements that encode these fields. *)
  headersSize : LpHeaders → Z;
}.

(** The sum of the sizes of the elements of which [P] holds of the TLV-TYPE. *)
Definition elementsSize (P : Z → bool) (els : list (Z * Z)) : Z :=
  sumZ (snd <$> filter (λ e, P e.1 = true) els).

Section Sizes.
Context {L : LpCodec}.

Definition fixedSize (t : Z) (f : Field Z) : Z := if has f then tlvSize t 8 else 0.
Definition numberSize (t : Z) (f : Field Z) : Z :=
  match f with Present n => tlvSize t (sizeOfNonNegativeInteger n) | _ => 0 end.

(** The size of the elements of a packet other than Fragment. *)
Definition otherSize (p : LpPacket) : Z :=
  fixedSize TLV_Sequence (lp_sequence p) + numberSize 82 (lp_fragIndex p) + numberSize 83 (lp_fragCount p) +
  fixedSize TLV_TxSequence (lp_txSequence p) + sumZ (fixedSize TLV_Ack <$> lp_acks p) +
  numberSize TLV_CongestionMark (lp_congestionMark p) + headersSize (lp_headers p).

Definition fragmentSize (p : LpPacket) : Z :=
  match lp_fragment p with Present b => tlvSize TLV_Fragment (Z.of_nat (length b)) | _ => 0 end.
End Sizes.

(** A packet whose fields can all be encoded. *)
Record lpWf (p : LpPacket) : Prop := {
  wf_sequence : lp_sequence p ≠ Malformed;
  wf_fragIndex : lp_fragIndex p ≠ Malformed;
  wf_fragCount : lp_fragCount p ≠ Malformed;
  wf_fragment : lp_fragment p ≠ Malformed ∧ lp_fragment p ≠ Present [];
  wf_txSequence : lp_txSequence p ≠ Malformed;
  wf_acks : ∀ f, f ∈ lp_acks p → ∃ n, f = Present n;
  wf_congestionMark : lp_congestionMark p ≠ Malformed;
  wf_nack : lh_nack (lp_headers p) ≠ Malformed;
  wf_nextHopFaceId : lh_nextHopFaceId (lp_headers p) ≠ Malformed;
  wf_incomingFaceId : lh_incomingFaceId (lp_headers p) ≠ Malformed;
  wf_cachePolicy : lh_cachePolicy (lp_headers p) ≠ Malformed;
  wf_nonDiscovery : lh_nonDiscovery (lp_headers p) ≠ Malformed;
  wf_prefixAnnouncement : lh_prefixAnnouncement (lp_headers p) ≠ Malformed;
  wf_pitToken : lh_pitToken (lp_headers p) ≠ Malformed;
  wf_hopCount : lh_hopCount (lp_headers p) ≠ Malformed;
  wf_geoTag : lh_geoTag (lp_headers p) ≠ Malformed;
}.

Class LpCodecLaws (L : LpCodec) : Prop := {
  (** What has been encoded is decoded to the same fields. *)
  lp_decode_encode : ∀ p, lpWf p → lpDecode (lpEncode p) = Some p;
  (** A packet with no other field than Fragment is encoded as the fragment. *)
  bare_wire : ∀ p b, isBare p = true → lp_fragment p = Present b →
    wireElements (lpEncode p) = None ∧ wireSize (lpEncode p) = Z.of_nat (length b);
  (** Any other packet is an LpPacket element made of the elements of its fields. *)
  lp_wire : ∀ p, isBare p = false → ∃ els, wireElements (lpEncode p) = Some els ∧
    elementsSize (λ t, negb (t =? TLV_Fragment)) els = otherSize p ∧
    wireSize (lpEncode p) = tlvSize TLV_LpPacket (otherSize p + fragmentSize p);
  headersSize_nonneg : ∀ h, 0 ≤ headersSize h;
  headersSize_none : headersSize noHeaders = 0;
}.

(** The network-layer packets inside: their octets, and parsing them. *)
Class NetCodec := {
  NetInterest : Type;
  NetData : Type;
  (** [wireEncode] *)
  interestWire : NetInterest → list Z;
  dataWire : NetData → list Z;
  (** [Block(buffer)] finds one well-formed element that spans the buffer. *)
  isBlock : list Z → bool;
  (** [Block::type] *)
  blockType : list Z → Z;
  (** [Interest(block)] and [Data(block)]; [None] is a [tlv::Error] *)
  interestOf : list Z → option NetInterest;
  dataOf : list Z → option NetData;
}.

Definition TLV_Interest : Z := 5.
Definition TLV_Data : Z := 6.

Class NetCodecLaws (C : NetCodec) : Prop := {
  interest_block : ∀ i, isBlock (interestWire i) = true ∧ blockType (interestWire i) = TLV_Interest;
  data_block : ∀ d, isBlock (dataWire d) = true ∧ blockType (dataWire d) = TLV_Data;
  interest_roundtrip : ∀ i, interestOf (interestWire i) = Some i;
  data_roundtrip : ∀ d, dataOf (dataWire d) = Some d;
  (** A block has at least a TLV-TYPE. *)
  block_nonempty : isBlock [] = false;
}.

(** ** Instances

    [RecordCodec] keeps a packet as it is and computes its sizes; [ByteCodec] has
    network-layer packets made of a type octet, a length octet and a value. *)

Definition headerSize {V} (t n : Z) (f : Field V) : Z := if has f then tlvSize t n else 0.

Definition record_headersSize (h : LpHeaders) : Z :=
  headerSize 800 5 (lh_nack h) + headerSize 816 8 (lh_nextHopFaceId h) + headerSize 817 8 (lh_incomingFaceId h) +
  headerSize 820 5 (lh_cachePolicy h) + headerSize 844 0 (lh_nonDiscovery h) +
  match lh_prefixAnnouncement h with Present a => tlvSize 848 (Z.of_nat (length a)) | _ => 0 end +
  match lh_pitToken h with Present a => tlvSize 98 (Z.of_nat (length a)) | _ => 0 end +
  headerSize 84 8 (lh_hopCount h) + headerSize 85 24 (lh_geoTag h).

Definition record_otherSize (p : LpPacket) : Z :=
  fixedSize TLV_Sequence (lp_sequence p) + numberSize 82 (lp_fragIndex p) + numberSize 83 (lp_fragCount p) +
  fixedSize TLV_TxSequence (lp_txSequence p) + sumZ (fixedSize TLV_Ack <$> lp_acks p) +
  numberSize TLV_CongestionMark (lp_congestionMark p) + record_headersSize (lp_headers p).

(** The elements other than Fragment are put together in one. *)
#[export] Instance RecordCodec : LpCodec := {|
  LpWire := LpPacket;
  lpEncode := id;
  lpDecode := Some;
  wireSize p := if isBare p then match lp_fragment p with Present b => Z.of_nat (length b) | _ => 0 end
    else tlvSize TLV_LpPacket (record_otherSize p + fragmentSize p);
  wireElements p := if isBare p then None else Some [(0, record_otherSize p); (TLV_Fragment, fragmentSize p)];
  headersSize := record_headersSize;
|}.

Lemma tlvSize_nonneg t n : 0 ≤ n → 0 ≤ tlvSize t n.
Proof. unfold tlvSize. pose proof (sizeOfVarNumber_bounds t). pose proof (sizeOfVarNumber_bounds n). lia. Qed.

Lemma headerSize_nonneg {V} t n (f : Field V) : 0 ≤ n → 0 ≤ headerSize t n f.
Proof. intros. unfold headerSize. case_match; [by apply tlvSize_nonneg|done]. Qed.

#[export] Instance RecordCodecLaws : LpCodecLaws RecordCodec.
Proof.
  split; cbn [LpWire lpEncode lpDecode wireSize wireElements headersSize RecordCodec id].
  - done.
  - by intros p b -> ->.
  - intros p ->. eexists. split; [done|]. split; [|done]. unfold elementsSize. cbn [filter list_filter]. rewrite decide_True, decide_False by done. cbn [fmap list_fmap snd sumZ foldr]. rewrite Z.add_0_r. done.
  - intros h. unfold record_headersSize. repeat apply Z.add_nonneg_nonneg; try (by apply headerSize_nonneg);
      case_match; try done; apply tlvSize_nonneg; lia.
  - done.
Qed.

#[export] Instance ByteCodec : NetCodec := {|
  NetInterest := list Z;
  NetData := list Z;
  interestWire v := 5 :: Z.of_nat (length v) :: v;
  dataWire v := 6 :: Z.of_nat (length v) :: v;
  isBlock b := match b with _ :: n :: v => n =? Z.of_nat (length v) | _ => false end;
  blockType b := match b with t :: _ => t | [] => 0 end;
  interestOf b := match b with 5 :: _ :: v => Some v | _ => None end;
  dataOf b := match b with 6 :: _ :: v => Some v | _ => None end;
|}.

#[export] Instance ByteCodecLaws : NetCodecLaws ByteCodec.
Proof. split; cbn; intros; rewrite ?Z.eqb_refl; done. Qed.
