(* ===== verification/LpFragmenter.v ===== *)
(** * Fragmentation of network-layer packets

    [src/daemon/face/lp-fragmenter.cpp]: a link-layer packet that does not fit the
    MTU is cut into fragments that do.  [None] is a failed assertion, an index out
    of range or an exception of ndn-cxx. *)

From Stdlib Require Import ZArith Lia.
From stdpp Require Import base gmap option list.
From S2P Require Import Prelude Ndn LpPacket.

Local Open Scope Z_scope.

(** The size of a buffer. *)
Abbreviation len l := (Z.of_nat (length l)).

(** The octets from position [i] up to position [j]. *)
Definition slice (i j : Z) (b : list Z) : list Z := take (Z.to_nat (j - i)) (drop (Z.to_nat i) b).

Section Fragmenter.
Context {L : LpCodec}.

Definition MAX_SINGLE_FRAG_OVERHEAD : Z :=
  1 + 9 + (* LpPacket TLV-TYPE and TLV-LENGTH *)
  1 + 1 + 8 + (* Sequence TLV *)
  1 + 9 (* Fragment TLV-TYPE and TLV-LENGTH *).

Definition MAX_FRAG_OVERHEAD : Z :=
  1 + 9 + (* LpPacket TLV-TYPE and TLV-LENGTH *)
  1 + 1 + 8 + (* Sequence TLV *)
  1 + 1 + 8 + (* FragIndex TLV *)
  1 + 1 + 8 + (* FragCount TLV *)
  1 + 9 (* Fragment TLV-TYPE and TLV-LENGTH *).

(** The size of the other headers, which the first fragment carries. *)
Definition firstHeaderSize (packet : LpPacket) : Z :=
  match wireElements (lpEncode packet) with
  | Some elements => elementsSize (λ t, negb (t =? TLV_Fragment)) elements
  | None => 0
  end.

(** [frag.add<FragIndexField>(i)], [add<FragCountField>(n)] and
    [set<FragmentField>]; adding a field that is there is an error. *)
Definition fillFragment (i n : Z) (b : list Z) (frag : LpPacket) : option LpPacket :=
  guard (has (lp_fragIndex frag) = false);;
  guard (has (lp_fragCount frag) = false);;
  Some (set_fragment b (set_fragCount n (set_fragIndex i frag))).

(** The loop that populates the fragments. *)
Fixpoint populate (fuel : nat) (netPkt : list Z) (mtu payloadSize fragCount : Z)
  (frags : list LpPacket) (fragIndex fragBegin fragEnd : Z) : option (list LpPacket * Z) :=
  if fragBegin <? len netPkt then
    match fuel with
    | O => None
    | S fuel' =>
        frag0 ← frags !! Z.to_nat fragIndex;
        frag ← fillFragment fragIndex fragCount (slice fragBegin fragEnd netPkt) frag0;
        guard (wireSize (lpEncode frag) ≤ mtu);;
        populate fuel' netPkt mtu payloadSize fragCount (<[Z.to_nat fragIndex := frag]> frags)
          (fragIndex + 1) fragEnd (Z.min (len netPkt) (fragEnd + payloadSize))
    end
  else Some (frags, fragIndex).

Definition fragmentPacket (nMaxFragments : Z) (packet : LpPacket) (mtu : Z) : option (bool * list LpPacket) :=
  guard (has (lp_fragment packet) = true);;
  guard (has (lp_fragIndex packet) = false);;
  guard (has (lp_fragCount packet) = false);;
  if MAX_SINGLE_FRAG_OVERHEAD + wireSize (lpEncode packet) <=? mtu then Some (true, [packet])
  else
    netPkt ← get (lp_fragment packet);
    let netPktSize := len netPkt in
    let headerSize := firstHeaderSize packet in
    if mtu <? MAX_FRAG_OVERHEAD + headerSize + 1 then Some (false, [])
    else
      let firstPayloadSize := Z.min netPktSize (mtu - headerSize - MAX_FRAG_OVERHEAD) in
      let payloadSize := mtu - MAX_FRAG_OVERHEAD in
      let fragCount := 1 + (netPktSize - firstPayloadSize) / payloadSize +
        (if (netPktSize - firstPayloadSize) mod payloadSize =? 0 then 0 else 1) in
      if nMaxFragments <? fragCount then Some (false, [])
      else
        let frags := <[0%nat := packet]> (replicate (Z.to_nat fragCount) emptyLp) in
        '(frags, fragIndex) ← populate (length netPkt) netPkt mtu payloadSize fragCount frags 0 0 firstPayloadSize;
        guard (fragIndex = fragCount);;
        Some (true, frags).

(** ** The fragments *)

(** A buffer cut into pieces of [k] octets. *)
Fixpoint chunks (fuel : nat) (k : nat) (b : list Z) : list (list Z) :=
  match fuel, b with
  | S fuel', _ :: _ => take k b :: chunks fuel' k (drop k b)
  | _, _ => []
  end.

Definition mkFragment (n i : Z) (b : list Z) (p : LpPacket) : LpPacket :=
  set_fragment b (set_fragCount n (set_fragIndex i p)).

(** The payload sizes of the first and of the other fragments. *)
Definition firstSize (p : LpPacket) (b : list Z) (mtu : Z) : nat :=
  Z.to_nat (Z.min (len b) (mtu - otherSize p - MAX_FRAG_OVERHEAD)).
Definition nextSize (mtu : Z) : nat := Z.to_nat (mtu - MAX_FRAG_OVERHEAD).

Definition laterChunks (p : LpPacket) (b : list Z) (mtu : Z) : list (list Z) :=
  chunks (length b) (nextSize mtu) (drop (firstSize p b mtu) b).

(** What the fragmenter makes of packet [p] with network-layer packet [b]: the
    first fragment keeps the other fields of [p]. *)
Definition fragmentsOf (p : LpPacket) (b : list Z) (mtu : Z) : list LpPacket :=
  let n := 1 + len (laterChunks p b mtu) in
  mkFragment n 0 (take (firstSize p b mtu) b) p ::
  imap (λ i c, mkFragment n (1 + Z.of_nat i) c emptyLp) (laterChunks p b mtu).
End Fragmenter.

Section Chunks.
Implicit Types (b : list Z) (k : nat).

Lemma chunks_concat fuel k b : (0 < k)%nat → (length b ≤ fuel)%nat → concat (chunks fuel k b) = b.
Proof.
  intros Hk. revert b. induction fuel as [|fuel IH]; intros [|x b] Hf; cbn [chunks]; try done; [cbn in Hf; lia|].
  cbn [concat]. rewrite IH; [apply take_drop|]. rewrite length_drop. cbn in *. lia.
Qed.

Lemma chunks_elem fuel k b c : c ∈ chunks fuel k b → (0 < k)%nat → c ≠ [] ∧ (length c ≤ k)%nat.
Proof.
  revert b. induction fuel as [|fuel IH]; intros [|x b]; cbn [chunks]; try (by intros ?%elem_of_nil).
  rewrite elem_of_cons. intros [->|Hc] Hk; [|by apply IH in Hc].
  split; [destruct k; [lia|done]|]. rewrite length_take. lia.
Qed.

Lemma chunks_drop_fuel fuel k b : (0 < k)%nat → (length b ≤ fuel)%nat → chunks (S fuel) k b = chunks fuel k b.
Proof.
  intros Hk. revert b. induction fuel as [|fuel IH]; intros [|x b] Hf; try done; [cbn in Hf; lia|].
  cbn [chunks] in *. f_equal. apply IH. rewrite length_drop. cbn in *. lia.
Qed.

Lemma chunks_fuel fuel fuel' k b :
  (0 < k)%nat → (length b ≤ fuel)%nat → (fuel ≤ fuel')%nat → chunks fuel' k b = chunks fuel k b.
Proof.
  intros Hk Hf. induction 1 as [|fuel' Hle IH]; [done|]. rewrite chunks_drop_fuel; [done..|lia].
Qed.

(** The number of pieces is the quotient, rounded up. *)
Lemma chunks_length fuel k b : (0 < k)%nat → (length b ≤ fuel)%nat →
  len (chunks fuel k b) = len b / Z.of_nat k + (if len b mod Z.of_nat k =? 0 then 0 else 1).
Proof.
  intros Hk. revert b. induction fuel as [|fuel IH]; intros [|x b] Hf; try (cbn in Hf; lia).
  - cbn. rewrite Z.mod_0_l by lia. done.
  - cbn [chunks length]. rewrite Z.mod_0_l by lia. done.
  - cbn [chunks]. rewrite length_cons, Nat2Z.inj_succ, IH by (rewrite length_drop; cbn in *; lia).
    rewrite length_drop. set (n := length (x :: b)) in *. destruct (decide (k ≤ n)%nat) as [Hle|Hgt].
    + replace (Z.of_nat (n - k)) with (Z.of_nat n + (-1) * Z.of_nat k) by lia. rewrite Z_mod_plus_full, Z.div_add by lia. lia.
    + replace (n - k)%nat with 0%nat by lia. rewrite Z.mod_0_l, Z.div_0_l, (Z.mod_small (Z.of_nat n)), (Z.div_small (Z.of_nat n)) by lia.
      cbn [Z.eqb]. destruct (Z.eqb_spec (Z.of_nat n) 0); [cbn in n; lia|done].
Qed.
End Chunks.

Section FragmenterFacts.
Context {L : LpCodec} {LL : LpCodecLaws L}.
Implicit Types (p : LpPacket) (b : list Z).

Lemma numberSize_bound t n : sizeOfVarNumber t = 1 → 0 ≤ numberSize t (Present n) ≤ 10.
Proof.
  intros Ht. unfold numberSize, tlvSize. rewrite Ht. pose proof (sizeOfNonNegativeInteger_bounds n).
  replace (sizeOfVarNumber (sizeOfNonNegativeInteger n)) with 1; [lia|].
  unfold sizeOfVarNumber. destruct (Z.ltb_spec (sizeOfNonNegativeInteger n) 253); lia.
Qed.

Lemma numberSize_nonneg t f : 0 ≤ numberSize t f.
Proof. unfold numberSize. case_match; try done. apply tlvSize_nonneg. pose proof (sizeOfNonNegativeInteger_bounds v). lia. Qed.

Lemma fixedSize_nonneg t f : 0 ≤ fixedSize t f.
Proof. unfold fixedSize. case_match; try done. by apply tlvSize_nonneg. Qed.

Lemma acksSize_nonneg l : 0 ≤ sumZ (fixedSize TLV_Ack <$> l).
Proof. apply sumZ_nonneg. intros x (f & -> & _)%list_elem_of_fmap. apply fixedSize_nonneg. Qed.

Lemma otherSize_nonneg p : 0 ≤ otherSize p.
Proof.
  unfold otherSize. pose proof (fixedSize_nonneg TLV_Sequence (lp_sequence p)). pose proof (fixedSize_nonneg TLV_TxSequence (lp_txSequence p)).
  pose proof (numberSize_nonneg 82 (lp_fragIndex p)). pose proof (numberSize_nonneg 83 (lp_fragCount p)).
  pose proof (numberSize_nonneg TLV_CongestionMark (lp_congestionMark p)). pose proof (acksSize_nonneg (lp_acks p)).
  pose proof (headersSize_nonneg (lp_headers p)). lia.
Qed.

Lemma has_false {V} (f : Field V) : has f = false → f = Absent.
Proof. by destruct f. Qed.

Lemma isBare_spec p : isBare p = true → ∃ f, p = mkLp Absent Absent Absent f Absent [] Absent noHeaders ∧ f ≠ Absent.
Proof.
  unfold isBare. destruct p as [s i c f t a m h]; cbn. rewrite !andb_true_iff, negb_true_iff, !orb_false_iff, !bool_decide_eq_false.
  intros [((((((Hs & Hi) & Hc) & Ht) & Ha) & Hm) & Hh) Hf]. apply has_false in Hs, Hi, Hc, Ht, Hm. apply dec_stable in Ha, Hh. subst.
  exists f. split; [done|]. by intros ->.
Qed.

Lemma isBare_otherSize p : isBare p = true → otherSize p = 0.
Proof. intros (f & -> & _)%isBare_spec. unfold otherSize. cbn. by rewrite headersSize_none. Qed.

(** The code's account of the other headers is the size of their elements. *)
Lemma firstHeaderSize_spec p b : lp_fragment p = Present b → firstHeaderSize p = otherSize p.
Proof.
  intros Hb. unfold firstHeaderSize. destruct (isBare p) eqn:E.
  - destruct (bare_wire p b E Hb) as [-> _]. by rewrite isBare_otherSize.
  - destruct (lp_wire p E) as (els & -> & H & _). done.
Qed.

(** The size of a packet is that of its fields plus at most ten octets for the
    LpPacket header. *)
Lemma wireSize_bounds p : isBare p = false →
  otherSize p + fragmentSize p ≤ wireSize (lpEncode p) ≤ 10 + (otherSize p + fragmentSize p).
Proof.
  intros E. destruct (lp_wire p E) as (els & _ & _ & ->). unfold tlvSize.
  pose proof (sizeOfVarNumber_bounds (otherSize p + fragmentSize p)). change (sizeOfVarNumber TLV_LpPacket) with 1. lia.
Qed.

Lemma fragmentSize_bounds p b : lp_fragment p = Present b → len b ≤ fragmentSize p ≤ 10 + len b.
Proof.
  intros Hb. unfold fragmentSize. rewrite Hb. unfold tlvSize. pose proof (sizeOfVarNumber_bounds (len b)).
  change (sizeOfVarNumber TLV_Fragment) with 1. lia.
Qed.

(** A whole packet is at most twenty octets more than its content. *)
Lemma wireSize_upper p b : lp_fragment p = Present b → wireSize (lpEncode p) ≤ 20 + otherSize p + len b.
Proof.
  intros Hb. pose proof (otherSize_nonneg p). destruct (isBare p) eqn:E.
  - destruct (bare_wire p b E Hb) as [_ ->]. lia.
  - pose proof (wireSize_bounds p E). pose proof (fragmentSize_bounds p b Hb). lia.
Qed.

(** A fragment fits its share of the MTU, also with a sequence number. *)
Lemma otherSize_fragment p b n i :
  has (lp_fragIndex p) = false → has (lp_fragCount p) = false → otherSize (mkFragment n i b p) ≤ otherSize p + 20.
Proof.
  intros Hi%has_false Hc%has_false. unfold otherSize, mkFragment. lp_simpl. rewrite Hi, Hc.
  pose proof (numberSize_bound 82 i eq_refl). pose proof (numberSize_bound 83 n eq_refl).
  change (numberSize 82 Absent) with 0. change (numberSize 83 Absent) with 0. lia.
Qed.

Lemma otherSize_sequence p n : otherSize (set_sequence n p) ≤ otherSize p + 10.
Proof.
  unfold otherSize. lp_simpl. pose proof (fixedSize_nonneg TLV_Sequence (lp_sequence p)).
  change (fixedSize TLV_Sequence (Present n)) with 10. lia.
Qed.

Lemma fragment_size p b n i :
  has (lp_fragIndex p) = false → has (lp_fragCount p) = false →
  wireSize (lpEncode (mkFragment n i b p)) ≤ MAX_FRAG_OVERHEAD - 10 + otherSize p + len b ∧
  ∀ s, wireSize (lpEncode (set_sequence s (mkFragment n i b p))) ≤ MAX_FRAG_OVERHEAD + otherSize p + len b.
Proof.
  intros Hi Hc. pose proof (otherSize_fragment p b n i Hi Hc) as Ho. split; [|intros s].
  - pose proof (wireSize_upper (mkFragment n i b p) b eq_refl). unfold MAX_FRAG_OVERHEAD. lia.
  - pose proof (wireSize_upper (set_sequence s (mkFragment n i b p)) b eq_refl).
    pose proof (otherSize_sequence (mkFragment n i b p) s). unfold MAX_FRAG_OVERHEAD. lia.
Qed.

Lemma otherSize_empty : otherSize emptyLp = 0.
Proof. unfold otherSize. cbn. by rewrite headersSize_none. Qed.

Lemma fillFragment_spec i n b p :
  has (lp_fragIndex p) = false → has (lp_fragCount p) = false → fillFragment i n b p = Some (mkFragment n i b p).
Proof. intros H1 H2. unfold fillFragment. rewrite H1, H2. done. Qed.

Lemma slice_drop i k b : 0 ≤ i → 0 ≤ k → slice i (Z.min (len b) (i + k)) b = take (Z.to_nat k) (drop (Z.to_nat i) b).
Proof.
  intros Hi Hk. unfold slice. destruct (Z.min_spec (len b) (i + k)) as [[H ->]|[H ->]]; [|do 2 f_equal; lia].
  rewrite !take_ge; [done|rewrite length_drop; lia..].
Qed.

(** One turn of the loop. *)
Lemma populate_step fuel net mtu k n frags p i pos e :
  pos < len net → frags !! Z.to_nat i = Some p → has (lp_fragIndex p) = false → has (lp_fragCount p) = false →
  wireSize (lpEncode (mkFragment n i (slice pos e net) p)) ≤ mtu →
  populate (S fuel) net mtu k n frags i pos e =
  populate fuel net mtu k n (<[Z.to_nat i := mkFragment n i (slice pos e net) p]> frags) (i + 1) e (Z.min (len net) (e + k)).
Proof.
  intros Hpos Hp H1 H2 Hs. cbn [populate]. destruct (Z.ltb_spec pos (len net)); [|lia]. rewrite Hp. cbn [mbind option_bind].
  rewrite fillFragment_spec by done. cbn [mbind option_bind]. rewrite option_guard_True by done. done.
Qed.

(** The loop fills fresh fragments with the remaining pieces, in order. *)
Lemma populate_spec fuel net mtu k n done pos :
  0 < k → MAX_FRAG_OVERHEAD - 10 + k ≤ mtu → 0 ≤ pos → (length (drop (Z.to_nat pos) net) ≤ fuel)%nat →
  let cs := chunks fuel (Z.to_nat k) (drop (Z.to_nat pos) net) in
  populate fuel net mtu k n (done ++ replicate (length cs) emptyLp) (len done) pos (Z.min (len net) (pos + k)) =
  Some (done ++ imap (λ j c, mkFragment n (len done + Z.of_nat j) c emptyLp) cs, len done + len cs).
Proof.
  intros Hk Hmtu. revert done pos. induction fuel as [|fuel IH]; intros done pos Hpos Hf; cbn zeta.
  - destruct (drop (Z.to_nat pos) net) eqn:E; [|cbn in Hf; lia]. apply (f_equal length) in E. rewrite length_drop in E. cbn in E.
    cbn [chunks populate]. destruct (Z.ltb_spec pos (len net)); [lia|]. cbn. rewrite Z.add_0_r. done.
  - destruct (decide (pos < len net)) as [Hlt|Hge].
    2: { cbn [populate]. destruct (Z.ltb_spec pos (len net)); [lia|]. rewrite drop_ge by lia. cbn. rewrite Z.add_0_r. done. }
    destruct (drop (Z.to_nat pos) net) as [|x rest] eqn:E; [apply (f_equal length) in E; rewrite length_drop in E; cbn in E; lia|].
    cbn [chunks]. rewrite <- E. rewrite <- E in Hf. set (c := take (Z.to_nat k) (drop (Z.to_nat pos) net)).
    rewrite drop_drop. set (cs := chunks fuel (Z.to_nat k) (drop (Z.to_nat pos + Z.to_nat k) net)). cbn [length replicate imap].
    assert (slice pos (Z.min (len net) (pos + k)) net = c) as Hc by (apply slice_drop; lia).
    rewrite (populate_step _ _ _ _ _ _ emptyLp); [|done|by rewrite Nat2Z.id, list_lookup_middle|done..|].
    2: { rewrite Hc. destruct (fragment_size emptyLp c n (len done)) as [H _]; [done..|].
      rewrite otherSize_empty in H. assert (len c ≤ k) by (unfold c; rewrite length_take; lia). lia. }
    rewrite Hc, Nat2Z.id, insert_app_r_alt, Nat.sub_diag by lia. cbn [list_insert insert].
    change (mkFragment n (len done) c emptyLp :: replicate (length cs) emptyLp)
      with ([mkFragment n (len done) c emptyLp] ++ replicate (length cs) emptyLp).
    rewrite (assoc_L (++)). set (done' := done ++ [_]). replace (len done + 1) with (len done') by (unfold done'; rewrite length_app; cbn; lia).
    assert (chunks fuel (Z.to_nat k) (drop (Z.to_nat (Z.min (len net) (pos + k))) net) = cs) as Ecs.
    { unfold cs. destruct (Z.min_spec (len net) (pos + k)) as [[H ->]|[H ->]]; [rewrite !drop_ge by lia; done|].
      f_equal. f_equal. lia. }
    rewrite <- Ecs. rewrite IH; [|lia|].
    2: { rewrite length_drop in *. lia. }
    rewrite Ecs. f_equal. f_equal; [|unfold done'; rewrite length_app; cbn; lia].
    unfold done'. rewrite <- (assoc_L (++)). f_equal. cbn. rewrite Z.add_0_r. f_equal. apply imap_ext. intros j y _. cbn.
    f_equal. rewrite length_app. cbn. lia.
Qed.

(** The cases of a packet that cannot be sent whole. *)
Lemma fragmentPacket_fast nMax p b mtu :
  lp_fragment p = Present b → has (lp_fragIndex p) = false → has (lp_fragCount p) = false →
  MAX_SINGLE_FRAG_OVERHEAD + wireSize (lpEncode p) ≤ mtu → fragmentPacket nMax p mtu = Some (true, [p]).
Proof.
  intros Hb Hi Hc Hs. unfold fragmentPacket. rewrite Hb, Hi, Hc. cbn [has]. rewrite !option_guard_True by done.
  by apply Z.leb_le in Hs as ->.
Qed.

Lemma fragmentPacket_small nMax p b mtu :
  lp_fragment p = Present b → has (lp_fragIndex p) = false → has (lp_fragCount p) = false →
  mtu < MAX_SINGLE_FRAG_OVERHEAD + wireSize (lpEncode p) → mtu ≤ MAX_FRAG_OVERHEAD + otherSize p →
  fragmentPacket nMax p mtu = Some (false, []).
Proof.
  intros Hb Hi Hc Hs Hm. unfold fragmentPacket. rewrite (firstHeaderSize_spec p b Hb), Hb, Hi, Hc. cbn [has]. rewrite !option_guard_True by done.
  apply Z.leb_gt in Hs as ->. cbn [get mbind option_bind]. destruct (Z.ltb_spec mtu (MAX_FRAG_OVERHEAD + otherSize p + 1)); [done|lia].
Qed.

Lemma laterChunks_count p b mtu : MAX_FRAG_OVERHEAD + otherSize p < mtu →
  let rest := len b - Z.min (len b) (mtu - otherSize p - MAX_FRAG_OVERHEAD) in
  len (laterChunks p b mtu) = rest / (mtu - MAX_FRAG_OVERHEAD) + (if rest mod (mtu - MAX_FRAG_OVERHEAD) =? 0 then 0 else 1).
Proof.
  intros Hm rest. pose proof (otherSize_nonneg p). unfold laterChunks. rewrite chunks_length by (unfold nextSize; rewrite ?length_drop; lia).
  rewrite length_drop. unfold nextSize, firstSize. rewrite Z2Nat.id by lia.
  replace (Z.of_nat (length b - Z.to_nat (Z.min (len b) (mtu - otherSize p - MAX_FRAG_OVERHEAD)))) with rest by lia. done.
Qed.

Lemma fragmentPacket_slow nMax p b mtu :
  lp_fragment p = Present b → b ≠ [] → has (lp_fragIndex p) = false → has (lp_fragCount p) = false →
  mtu < MAX_SINGLE_FRAG_OVERHEAD + wireSize (lpEncode p) → MAX_FRAG_OVERHEAD + otherSize p < mtu →
  fragmentPacket nMax p mtu =
    if nMax <? len (fragmentsOf p b mtu) then Some (false, []) else Some (true, fragmentsOf p b mtu).
Proof.
  intros Hb Hne Hi Hc Hs Hm. pose proof (otherSize_nonneg p) as Ho. unfold fragmentPacket.
  rewrite (firstHeaderSize_spec p b Hb), Hb, Hi, Hc. cbn [has]. rewrite !option_guard_True by done.
  apply Z.leb_gt in Hs as ->. cbn [get mbind option_bind]. destruct (Z.ltb_spec mtu (MAX_FRAG_OVERHEAD + otherSize p + 1)); [lia|].
  rewrite <- Z.add_assoc, <- laterChunks_count by done. unfold fragmentsOf. rewrite length_cons, length_imap, Nat2Z.inj_succ, <- Z.add_1_l.
  set (cs := laterChunks p b mtu). set (n := 1 + len cs). destruct (nMax <? n); [done|].
  set (k1 := Z.min (len b) (mtu - otherSize p - MAX_FRAG_OVERHEAD)). replace (Z.to_nat n) with (S (length cs)) by lia. cbn [replicate insert list_insert].
  destruct b as [|x b']; [done|]. cbn [length]. set (b := x :: b') in *.
  assert (0 < k1 ≤ len b) as Hk1 by (unfold k1, b; cbn [length]; lia).
  rewrite (populate_step _ _ _ _ _ _ p); [|lia|done..|].
  2: { destruct (fragment_size p (slice 0 k1 b) n 0 Hi Hc) as [H2 _]. assert (len (slice 0 k1 b) ≤ k1) by (unfold slice; rewrite length_take; lia). lia. }
  set (f0 := mkFragment n 0 (slice 0 k1 b) p).
  change (<[Z.to_nat 0:=f0]> (p :: replicate (length cs) emptyLp)) with ([f0] ++ replicate (length cs) emptyLp). change (0 + 1) with (len [f0]).
  assert (chunks (length b') (Z.to_nat (mtu - MAX_FRAG_OVERHEAD)) (drop (Z.to_nat k1) b) = cs) as Ecs.
  { unfold cs, laterChunks. symmetry. apply chunks_fuel; [unfold nextSize; lia|rewrite length_drop; unfold b; cbn [length]; unfold firstSize; fold b; fold k1; lia|cbn; lia]. }
  rewrite <- Ecs at 1. rewrite populate_spec; [|lia..|rewrite length_drop; unfold b; cbn [length]; lia]. rewrite Ecs. cbn [mbind option_bind].
  rewrite option_guard_True by (unfold n; cbn [length]; lia). unfold f0, slice, firstSize. fold k1. rewrite Z.sub_0_r. done.
Qed.

(** The fragments carry the packet, in order, in pieces that fit. *)
Definition payload (p : LpPacket) : list Z := match lp_fragment p with Present b => b | _ => [] end.

Lemma fragmentsOf_payload p b mtu : MAX_FRAG_OVERHEAD + otherSize p < mtu → concat (payload <$> fragmentsOf p b mtu) = b.
Proof.
  intros Hm. pose proof (otherSize_nonneg p). unfold fragmentsOf. cbn [fmap list_fmap concat]. rewrite fmap_imap.
  rewrite (imap_ext _ (λ _ c, c)) by done.
  assert (imap (λ (_ : nat) (c : list Z), c) (laterChunks p b mtu) = laterChunks p b mtu) as -> by (induction (laterChunks p b mtu); [done|cbn; by f_equal]).
  unfold laterChunks. rewrite chunks_concat; [apply take_drop|unfold nextSize; lia|rewrite length_drop; lia].
Qed.

Lemma fragmentsOf_lookup p b mtu i f : fragmentsOf p b mtu !! i = Some f → ∃ c q,
  f = mkFragment (len (fragmentsOf p b mtu)) (Z.of_nat i) c q ∧ q = (if i is O then p else emptyLp) ∧
  (if i is O then c = take (firstSize p b mtu) b else c ∈ laterChunks p b mtu).
Proof.
  unfold fragmentsOf. set (cs := laterChunks p b mtu). rewrite length_cons, length_imap, Nat2Z.inj_succ, <- Z.add_1_l.
  destruct i as [|i]; [intros [= <-]; eauto|]. rewrite lookup_cons, list_lookup_imap. intros (c & Hc & ->)%fmap_Some.
  exists c, emptyLp. split; [|split; [done|by eapply list_elem_of_lookup_2]]. f_equal. lia.
Qed.

Lemma fragmentsOf_size p b mtu f :
  lp_fragment p = Present b → b ≠ [] → has (lp_fragIndex p) = false → has (lp_fragCount p) = false →
  MAX_FRAG_OVERHEAD + otherSize p < mtu → f ∈ fragmentsOf p b mtu →
  payload f ≠ [] ∧ ∀ s, wireSize (lpEncode (set_sequence s f)) ≤ mtu.
Proof.
  intros Hb Hne Hi Hc Hm [i Hf]%list_elem_of_lookup. pose proof (otherSize_nonneg p).
  apply fragmentsOf_lookup in Hf as (c & q & -> & Hq & Hcs). destruct i as [|i]; subst q.
  - subst c. set (c := take _ b). assert (len c ≤ mtu - otherSize p - MAX_FRAG_OVERHEAD) as Hl by (unfold c, firstSize; rewrite length_take; lia).
    split; [|intros s; destruct (fragment_size p c (len (fragmentsOf p b mtu)) (Z.of_nat 0) Hi Hc) as [_ H2]; specialize (H2 s); lia].
    cbn. unfold c, firstSize. destruct b as [|x b']; [done|]. replace (Z.to_nat _) with (S (Z.to_nat (Z.min (len (x :: b')) (mtu - otherSize p - MAX_FRAG_OVERHEAD) - 1)));
      [done|cbn [length]; lia].
  - apply chunks_elem in Hcs as [H1 H2]; [|unfold nextSize; lia]. split; [done|]. intros s.
    destruct (fragment_size emptyLp c (len (fragmentsOf p b mtu)) (Z.of_nat (S i)) eq_refl eq_refl) as [_ H3]. specialize (H3 s).
    rewrite otherSize_empty in H3. unfold nextSize in H2. lia.
Qed.

(** A packet too large for one fragment is never cut into a single one. *)
Lemma fragmentsOf_many p b mtu : lp_fragment p = Present b →
  mtu < MAX_SINGLE_FRAG_OVERHEAD + wireSize (lpEncode p) → MAX_FRAG_OVERHEAD + otherSize p < mtu →
  2 ≤ len (fragmentsOf p b mtu).
Proof.
  intros Hb Hs Hm. pose proof (otherSize_nonneg p). pose proof (wireSize_upper p b Hb) as Hw. unfold fragmentsOf.
  rewrite length_cons, length_imap. assert (laterChunks p b mtu ≠ []) as Hne; [|destruct (laterChunks p b mtu); [done|cbn [length]; lia]].
  intros E. assert (concat (laterChunks p b mtu) = []) as E2 by by rewrite E. unfold laterChunks in E2.
  rewrite chunks_concat in E2; [|unfold nextSize; lia|rewrite length_drop; lia]. apply (f_equal length) in E2. rewrite length_drop in E2.
  unfold firstSize, MAX_SINGLE_FRAG_OVERHEAD, MAX_FRAG_OVERHEAD in *. cbn [length] in E2. lia.
Qed.
End FragmenterFacts.
