(* ===== verification/LpReassembler.v ===== *)
(** * Reassembly of fragments

    [src/daemon/face/lp-reassembler.cpp]: the fragments of a network-layer packet are
    kept under the endpoint they came from and the sequence number of the first
    fragment, until all are there or the drop timer runs. *)

From Stdlib Require Import ZArith Lia.
From stdpp Require Import base gmap option list.
From S2P Require Import Prelude Scheduler Ndn LpPacket LpFragmenter.

Local Open Scope Z_scope.

(** The remote endpoint and the message identifier. *)
Abbreviation Key := (Z * Z)%type.

Record PartialPacket := mkPartial {
  pp_fragments : list LpPacket;
  pp_fragCount : Z;
  pp_nReceivedFragments : Z;
  pp_dropTimer : option positive;
}.

(** What [receiveFragment] ends with: a [tlv::Error], [false], or [true] with the
    network-layer packet and the first fragment. *)
Inductive Received := RaThrow | RaFalse | RaTrue (netPkt : list Z) (firstFrag : LpPacket).

#[export] Instance Received_eqdec : EqDecision Received.
Proof. solve_decision. Defined.

Section Reassembler.
Context {C : NetCodec} {SC : Scheduler}.

Record Reassembler := mkReassembler {
  ra_nMaxFragments : Z;
  ra_reassemblyTimeout : Z;
  ra_partialPackets : gmap Key PartialPacket;
  ra_timers : SchedState Key;
}.

Definition set_partialPackets (m : gmap Key PartialPacket) (s : Reassembler) : Reassembler :=
  mkReassembler (ra_nMaxFragments s) (ra_reassemblyTimeout s) m (ra_timers s).
Definition set_raTimers (t : SchedState Key) (s : Reassembler) : Reassembler :=
  mkReassembler (ra_nMaxFragments s) (ra_reassemblyTimeout s) (ra_partialPackets s) t.

Definition setReassemblerOptions (nMaxFragments reassemblyTimeout : Z) : M Reassembler unit :=
  modify (λ s, mkReassembler nMaxFragments reassemblyTimeout (ra_partialPackets s) (ra_timers s)).

(** [m_partialPackets[key]]: a new entry has no fragments and zero counts. *)
Definition partialAt (key : Key) : M Reassembler PartialPacket :=
  s ← get_st; mret (default (mkPartial [] 0 0 None) (ra_partialPackets s !! key)).

Definition storePartial (key : Key) (pp : PartialPacket) : M Reassembler unit :=
  modify (λ s, set_partialPackets (<[key := pp]> (ra_partialPackets s)) s).

(** [m_partialPackets.erase(key)]: the drop timer is cancelled with the entry. *)
Definition erasePartial (key : Key) : M Reassembler unit :=
  modify (λ s,
    let timer := ra_partialPackets s !! key ≫= pp_dropTimer in
    set_raTimers (cancel timer (ra_timers s)) (set_partialPackets (delete key (ra_partialPackets s)) s)).

(** The payload of all fragments; [None] is a [tlv::Error] of [get<FragmentField>]. *)
Definition fragmentPayloads (frags : list LpPacket) : option (list (list Z)) :=
  mapM (λ frag, get (lp_fragment frag)) frags.

(** The sum of the sizes is taken in [unsigned int]; a buffer that is too small is
    overrun.  The result is [None] on a [tlv::Error]. *)
Definition doReassembly (key : Key) : M Reassembler (option (list Z)) :=
  pp ← partialAt key;
  match fragmentPayloads (pp_fragments pp) with
  | None => mret None
  | Some payloads =>
      let payloadSize := sumZ ((λ b, len b) <$> payloads) mod 2 ^ 32 in
      assertM (len (concat payloads) <=? payloadSize);;
      mret (if isBlock (concat payloads) then Some (concat payloads) else None)
  end.

(** The fragment is stored; the packet is complete, or its timer is started again. *)
Definition addFragment (now : Z) (key : Key) (pp : PartialPacket) (fragIndex : Z) (packet : LpPacket)
  : M Reassembler Received :=
  let pp := mkPartial (<[Z.to_nat fragIndex := packet]> (pp_fragments pp)) (pp_fragCount pp)
    (pp_nReceivedFragments pp + 1) (pp_dropTimer pp) in
  storePartial key pp;;
  if pp_nReceivedFragments pp =? pp_fragCount pp then
    reassembled ← doReassembly key;
    match reassembled with
    | None => mret RaThrow
    | Some netPkt =>
        firstFrag ← someM (pp_fragments pp !! 0%nat);
        erasePartial key;;
        mret (RaTrue netPkt firstFrag)
    end
  else
    s ← get_st;
    let '(timers, timer) := schedule (now + ra_reassemblyTimeout s) key (ra_timers s) in
    put_st (set_raTimers (cancel (pp_dropTimer pp) timers) s);;
    storePartial key (mkPartial (pp_fragments pp) (pp_fragCount pp) (pp_nReceivedFragments pp) (Some timer));;
    mret RaFalse.

(** From the message identifier on. *)
Definition receiveIndexed (now remoteEndpoint fragIndex fragCount : Z) (packet : LpPacket) : M Reassembler Received :=
  match lp_sequence packet with
  | Absent => mret RaFalse
  | Malformed => mret RaThrow
  | Present sequence =>
      let key := (remoteEndpoint, seq64 (sequence - fragIndex)) in
      pp ← partialAt key;
      let pp := if pp_fragCount pp =? 0
        then mkPartial (replicate (Z.to_nat fragCount) emptyLp) fragCount 0 (pp_dropTimer pp) else pp in
      storePartial key pp;;
      if negb (fragCount =? pp_fragCount pp) then mret RaFalse
      else
        old ← someM (pp_fragments pp !! Z.to_nat fragIndex);
        if has (lp_sequence old) then mret RaFalse
        else addFragment now key pp fragIndex packet
  end.

Definition receiveFragment (now remoteEndpoint : Z) (packet : LpPacket) : M Reassembler Received :=
  assertM (has (lp_fragment packet));;
  s ← get_st;
  match (if has (lp_fragIndex packet) then get (lp_fragIndex packet) else Some 0),
        (if has (lp_fragCount packet) then get (lp_fragCount packet) else Some 1) with
  | Some fragIndex, Some fragCount =>
      if fragCount <=? fragIndex then mret RaFalse
      else if ra_nMaxFragments s <? fragCount then mret RaFalse
      else if (fragIndex =? 0) && (fragCount =? 1) then
        match get (lp_fragment packet) with
        | Some netPkt => mret (if isBlock netPkt then RaTrue netPkt packet else RaThrow)
        | None => mret RaThrow
        end
      else receiveIndexed now remoteEndpoint fragIndex fragCount packet
  | _, _ => mret RaThrow
  end.

(** Whether [beforeTimeout] is emitted. *)
Definition timeoutPartialPacket (key : Key) : M Reassembler bool :=
  s ← get_st;
  match ra_partialPackets s !! key with
  | None => mret false
  | Some _ => erasePartial key;; mret true
  end.

(** The scheduler runs a drop timer. *)
Definition runDropTimer (timer : positive) : M Reassembler bool :=
  s ← get_st;
  match sched_pending (ra_timers s) !! timer with
  | None => mret false
  | Some (_, key) => put_st (set_raTimers (cancel (Some timer) (ra_timers s)) s);; timeoutPartialPacket key
  end.

(** [LpReassembler::size] *)
Definition nReassembling (s : Reassembler) : nat := size (ra_partialPackets s).
End Reassembler.

(** ** Specification

    What the reassembler keeps is, per message, its slots, filled with the received
    fragments. *)
Section Spec.
Context {C : NetCodec}.

Abbreviation Slots := (gmap Key (list LpPacket)).

Definition isFilled (f : LpPacket) : bool := has (lp_sequence f).

(** A packet that needs no slot is answered at once; another one has a sequence
    number, an index and a count. *)
Definition classify (nMaxFragments : Z) (packet : LpPacket) : Received + (Z * Z * Z) :=
  match (if has (lp_fragIndex packet) then get (lp_fragIndex packet) else Some 0),
        (if has (lp_fragCount packet) then get (lp_fragCount packet) else Some 1) with
  | Some i, Some n =>
      if n <=? i then inl RaFalse
      else if nMaxFragments <? n then inl RaFalse
      else if (i =? 0) && (n =? 1) then
        inl (match get (lp_fragment packet) with
             | Some b => if isBlock b then RaTrue b packet else RaThrow
             | None => RaThrow
             end)
      else
        match lp_sequence packet with
        | Absent => inl RaFalse
        | Malformed => inl RaThrow
        | Present q => inr (q, i, n)
        end
  | _, _ => inl RaThrow
  end.

Definition reassemble (slots : list LpPacket) : option (list Z) :=
  payloads ← fragmentPayloads slots;
  if isBlock (concat payloads) then Some (concat payloads) else None.

Definition specReceive (nMaxFragments ep : Z) (packet : LpPacket) (A : Slots) : Slots * Received :=
  match classify nMaxFragments packet with
  | inl r => (A, r)
  | inr (q, i, n) =>
      let key := (ep, seq64 (q - i)) in
      let slots := default (replicate (Z.to_nat n) emptyLp) (A !! key) in
      if negb (n =? len slots) || existsb isFilled (option_list (slots !! Z.to_nat i)) then (A, RaFalse)
      else
        let slots' := <[Z.to_nat i := packet]> slots in
        if forallb isFilled slots' then
          match reassemble slots', slots' !! 0%nat with
          | Some b, Some first => (delete key A, RaTrue b first)
          | _, _ => (<[key := slots']> A, RaThrow)
          end
        else (<[key := slots']> A, RaFalse)
  end.
End Spec.

Abbreviation Slots := (gmap Key (list LpPacket)).

(** A packet as it is decoded: numbers are unsigned, and the payload is at most a
    packet long. *)
Definition receivedOk (p : LpPacket) : Prop :=
  has (lp_fragment p) = true ∧ len (payload p) ≤ MAX_NDN_PACKET_SIZE ∧
  (∀ i, lp_fragIndex p = Present i → 0 ≤ i).

Section ReassemblerFacts.
Context {C : NetCodec} {SC : Scheduler} {SL : SchedulerLaws SC}.
Implicit Types (s : Reassembler) (p : LpPacket) (pp : PartialPacket) (key : Key).

(** The number of filled slots. *)
Definition nFilled (slots : list LpPacket) : Z := sumZ ((λ f, if isFilled f then 1 else 0) <$> slots).

Record PartialInv key pp : Prop := {
  pi_length : len (pp_fragments pp) = pp_fragCount pp;
  pi_count : 2 ≤ pp_fragCount pp ∧ pp_fragCount pp * MAX_NDN_PACKET_SIZE < 2 ^ 32;
  pi_received : pp_nReceivedFragments pp = nFilled (pp_fragments pp);
  pi_slots : ∀ i f, pp_fragments pp !! i = Some f → isFilled f = true →
    receivedOk f ∧ ∃ q, lp_sequence f = Present q ∧ key.2 = seq64 (q - Z.of_nat i);
}.

(** Every entry has a pending timer that will erase it, and every timer an entry. *)
Record ReassemblerInv s : Prop := {
  ri_max : ra_nMaxFragments s * MAX_NDN_PACKET_SIZE < 2 ^ 32;
  ri_partial : ∀ key pp, ra_partialPackets s !! key = Some pp → PartialInv key pp;
  ri_timer : ∀ key pp, ra_partialPackets s !! key = Some pp →
    ∃ t d, pp_dropTimer pp = Some t ∧ sched_pending (ra_timers s) !! t = Some (d, key);
  ri_pending : ∀ t d key, sched_pending (ra_timers s) !! t = Some (d, key) →
    ∃ pp, ra_partialPackets s !! key = Some pp ∧ pp_dropTimer pp = Some t;
}.

Definition slotsOf s : Slots := pp_fragments <$> ra_partialPackets s.

Lemma nFilled_insert slots i f old : slots !! i = Some old → isFilled old = false → isFilled f = true →
  nFilled (<[i := f]> slots) = nFilled slots + 1.
Proof.
  unfold nFilled. revert i. induction slots as [|x slots IH]; intros [|i]; try done.
  - intros [= ->] H1 H2. cbn [insert list_insert]. rewrite !fmap_cons, !sumZ_cons, H1, H2. lia.
  - intros H1 H2 H3. change (<[S i:=f]> (x :: slots)) with (x :: <[i:=f]> slots). rewrite !fmap_cons, !sumZ_cons. specialize (IH i H1 H2 H3). lia.
Qed.

Lemma nFilled_bounds slots : 0 ≤ nFilled slots ≤ len slots ∧ (nFilled slots = len slots ↔ forallb isFilled slots = true).
Proof.
  unfold nFilled. induction slots as [|x slots IH]; [cbn; naive_solver lia|]. cbn [fmap list_fmap sumZ foldr length forallb].
  fold (sumZ ((λ f, if isFilled f then 1 else 0) <$> slots)). destruct IH as [IH1 IH2]. rewrite andb_true_iff, <- IH2.
  destruct (isFilled x); [split; [lia|]; split; [intros; split; [done|lia]|intros [_ ?]; lia]|split; [lia|]; split; [lia|intros [? _]; done]].
Qed.

Lemma nFilled_empty n : nFilled (replicate n emptyLp) = 0.
Proof. unfold nFilled. induction n as [|n IH]; cbn; [done|]. done. Qed.

Lemma fragmentPayloads_size slots bs :
  fragmentPayloads slots = Some bs → (∀ f, f ∈ slots → len (payload f) ≤ MAX_NDN_PACKET_SIZE) →
  len (concat bs) = sumZ ((λ b, len b) <$> bs) ∧ sumZ ((λ b, len b) <$> bs) ≤ len slots * MAX_NDN_PACKET_SIZE.
Proof.
  unfold fragmentPayloads. revert bs. induction slots as [|f slots IH]; intros bs; cbn [mapM]; [intros [= <-] _; cbn; lia|].
  intros (b & Hb & (bs' & Hbs & [= <-])%bind_Some)%bind_Some Hall. destruct (IH bs' Hbs ltac:(set_solver)) as [IH1 IH2].
  specialize (Hall f ltac:(set_solver)). unfold payload in Hall. destruct (lp_fragment f); try done. cbn in Hb. injection Hb as ->.
  cbn [concat fmap list_fmap sumZ foldr length]. fold (sumZ ((λ b, len b) <$> bs')). rewrite length_app. split; [lia|]. lia.
Qed.

Lemma initialInv nMax timeout (t : SchedState Key) :
  nMax * MAX_NDN_PACKET_SIZE < 2 ^ 32 → sched_pending t = ∅ → ReassemblerInv (mkReassembler nMax timeout ∅ t).
Proof. intros Hm Ht. split; cbn; [done|intros ??; by rewrite lookup_empty..|]. intros ???. by rewrite Ht, lookup_empty. Qed.

(** [s'] is [s] with the entry of [key] replaced, its timer stopped and perhaps
    another one started. *)
Lemma ReassemblerInv_update s s' key (o : option PartialPacket) :
  ReassemblerInv s → ra_nMaxFragments s' = ra_nMaxFragments s →
  ra_partialPackets s' = partial_alter (λ _, o) key (ra_partialPackets s) →
  (∀ pp, o = Some pp → PartialInv key pp) →
  (∀ t d k, k ≠ key → sched_pending (ra_timers s') !! t = Some (d, k) ↔ sched_pending (ra_timers s) !! t = Some (d, k)) →
  (∀ t d, sched_pending (ra_timers s') !! t = Some (d, key) → o ≫= pp_dropTimer = Some t) →
  (∀ pp, o = Some pp → ∃ t d, pp_dropTimer pp = Some t ∧ sched_pending (ra_timers s') !! t = Some (d, key)) →
  ReassemblerInv s'.
Proof.
  intros [Im Ip It Iq] Em Ep Hp Hother Hkey Hnew. split.
  - by rewrite Em.
  - intros k pp. rewrite Ep. destruct (decide (k = key)) as [->|Hk]; [rewrite lookup_partial_alter_eq; apply Hp|].
    rewrite lookup_partial_alter_ne by done. apply Ip.
  - intros k pp. rewrite Ep. destruct (decide (k = key)) as [->|Hk]; [rewrite lookup_partial_alter_eq; apply Hnew|].
    rewrite lookup_partial_alter_ne by done. intros (t & d & H1 & H2)%It. exists t, d. by rewrite Hother.
  - intros t d k Ht. rewrite Ep. destruct (decide (k = key)) as [->|Hk].
    + rewrite lookup_partial_alter_eq. apply Hkey in Ht. destruct o as [pp|]; [|done]. by exists pp.
    + rewrite lookup_partial_alter_ne by done. apply (Iq t d). by apply Hother.
Qed.

(** The timers after an entry's timer has been stopped. *)
Lemma cancel_entry s key pp t : ReassemblerInv s → ra_partialPackets s !! key = Some pp → pp_dropTimer pp = Some t →
  (∀ t' d k, k ≠ key → sched_pending (cancel (Some t) (ra_timers s)) !! t' = Some (d, k) ↔ sched_pending (ra_timers s) !! t' = Some (d, k)) ∧
  ∀ t' d, sched_pending (cancel (Some t) (ra_timers s)) !! t' ≠ Some (d, key).
Proof.
  intros HI Hpp Ht. destruct (cancel_spec (Some t) (ra_timers s)) as [_ E]. rewrite E.
  destruct (ri_timer s HI key pp Hpp) as (t0 & d0 & Ht0 & Hp0). rewrite Ht in Ht0. injection Ht0 as <-. split.
  - intros t' d k Hk. rewrite lookup_delete_Some. split; [by intros [_ ?]|]. intros H. split; [|done]. intros <-. congruence.
  - intros t' d [Hne H]%lookup_delete_Some. destruct (ri_pending s HI _ _ _ H) as (pp' & H1 & H2). congruence.
Qed.

Lemma erasePartial_spec s key pp :
  ReassemblerInv s → ra_partialPackets s !! key = Some pp →
  wp (erasePartial key) (λ _ s', ReassemblerInv s' ∧ ra_partialPackets s' = delete key (ra_partialPackets s) ∧
    ra_nMaxFragments s' = ra_nMaxFragments s) s.
Proof.
  intros HI Hpp. unfold erasePartial. wp_step. rewrite Hpp. cbn [mbind option_bind].
  destruct (ri_timer s HI key pp Hpp) as (t & d & Ht & _). rewrite Ht. destruct (cancel_entry s key pp t HI Hpp Ht) as [H1 H2].
  split; [|done]. eapply (ReassemblerInv_update s _ key None); try done. intros t' d' H. by apply H2 in H.
Qed.

(** The entry a fragment is added to: the one that is there, or a new one. *)
Definition addsTo s key pp : Prop :=
  ra_partialPackets s !! key = Some pp ∨ ra_partialPackets s !! key = None ∧ pp_dropTimer pp = None ∧ nFilled (pp_fragments pp) = 0.

(** A fragment that fills an empty slot. *)
Record fills key pp (i : Z) (p : LpPacket) : Prop := {
  fl_index : 0 ≤ i;
  fl_slot : ∃ old, pp_fragments pp !! Z.to_nat i = Some old ∧ isFilled old = false;
  fl_ok : receivedOk p;
  fl_sequence : ∃ q, lp_sequence p = Present q ∧ key.2 = seq64 (q - i);
}.

Lemma fills_filled key pp i p : fills key pp i p → isFilled p = true.
Proof. intros [_ _ _ (q & Hq & _)]. unfold isFilled. by rewrite Hq. Qed.

Lemma PartialInv_fill key pp i p timer : PartialInv key pp → fills key pp i p →
  PartialInv key (mkPartial (<[Z.to_nat i := p]> (pp_fragments pp)) (pp_fragCount pp) (pp_nReceivedFragments pp + 1) timer).
Proof.
  intros [Hl Hc Hr Hs] Hf. pose proof (fills_filled _ _ _ _ Hf) as Hfp. destruct Hf as [Hi (old & Ho & Hof) Hok (q & Hq & Hk)].
  split; cbn [pp_fragments pp_fragCount pp_nReceivedFragments].
  - by rewrite length_insert.
  - done.
  - rewrite Hr. by erewrite nFilled_insert.
  - intros j f. destruct (decide (j = Z.to_nat i)) as [->|Hj].
    + rewrite list_lookup_insert_eq by (by eapply lookup_lt_Some). intros [= <-] _. split; [done|]. exists q. by rewrite Z2Nat.id.
    + rewrite list_lookup_insert_ne by done. apply Hs.
Qed.

(** The timers after the entry's one has been started again. *)
Lemma restart_timer s key pp when timers timer :
  ReassemblerInv s → addsTo s key pp → schedule when key (ra_timers s) = (timers, timer) →
  ∀ t d k, sched_pending (cancel (pp_dropTimer pp) timers) !! t = Some (d, k) ↔
    (t = timer ∧ k = key ∧ d = when) ∨ (sched_pending (ra_timers s) !! t = Some (d, k) ∧ k ≠ key).
Proof.
  intros HI Hadd Esch.
  destruct (schedule_spec _ _ _ _ _ Esch) as (Hfresh & _ & Epend). destruct (cancel_spec (pp_dropTimer pp) timers) as [_ Ecan].
  assert (sched_pending (ra_timers s) !! timer = None) as Hnone.
  { destruct (sched_pending (ra_timers s) !! timer) eqn:E; [|done]. destruct Hfresh. apply pending_issued. by eexists. }
  (** The old timer is the entry's own. *)
  assert (∀ t, pp_dropTimer pp = Some t → ∃ d, sched_pending (ra_timers s) !! t = Some (d, key)) as Hold.
  { intros t Ht. destruct Hadd as [Hs|(_ & Ht' & _)]; [|congruence]. destruct (ri_timer s HI key pp Hs) as (t' & d & Ht' & Hp). exists d. congruence. }
  intros t d k. rewrite Ecan. destruct (decide (t = timer)) as [->|Hne].
    - replace (match pp_dropTimer pp with Some i0 => delete i0 (sched_pending timers) | None => sched_pending timers end !! timer)
        with (sched_pending timers !! timer).
      + rewrite Epend, lookup_insert_eq, Hnone. naive_solver.
      + destruct (pp_dropTimer pp) as [t0|] eqn:E0; [|done]. destruct (Hold t0 eq_refl) as [d0 H0]. rewrite lookup_delete_ne; [done|congruence].
    - assert (sched_pending timers !! t = sched_pending (ra_timers s) !! t) as Et by (by rewrite Epend, lookup_insert_ne).
      split.
      + intros H. right. assert (sched_pending timers !! t = Some (d, k)) as H' by (destruct (pp_dropTimer pp); [by apply lookup_delete_Some in H as [_ H]|done]).
        rewrite Et in H'. split; [done|]. intros ->. destruct (ri_pending s HI _ _ _ H') as (ppk & Hk1 & Hk2).
        destruct Hadd as [Hs|(Hs & _)]; [|congruence]. rewrite Hs in Hk1. injection Hk1 as <-. rewrite Hk2 in H. by rewrite lookup_delete_eq in H.
      + intros [[? _]|[H Hk]]; [done|]. rewrite <- Et in H. destruct (pp_dropTimer pp) as [t0|] eqn:E0; [|done]. apply lookup_delete_Some. split; [|done].
        destruct (Hold t0 eq_refl) as [d0 H0]. rewrite Et in H. congruence.
Qed.

(** A fragment that is not the last one. *)
Lemma addFragment_more s now key pp i p :
  ReassemblerInv s → addsTo s key pp → PartialInv key pp → fills key pp i p →
  forallb isFilled (<[Z.to_nat i := p]> (pp_fragments pp)) = false →
  wp (addFragment now key pp i p) (λ r s', ReassemblerInv s' ∧ ra_nMaxFragments s' = ra_nMaxFragments s ∧ r = RaFalse ∧
    ∃ pp', pp_fragments pp' = <[Z.to_nat i := p]> (pp_fragments pp) ∧ ra_partialPackets s' = <[key := pp']> (ra_partialPackets s))
    (set_partialPackets (<[key := pp]> (ra_partialPackets s)) s).
Proof.
  intros HI Hadd Hpi Hf Hmore. pose proof (PartialInv_fill key pp i p (pp_dropTimer pp) Hpi Hf) as Hpi'.
  unfold addFragment, storePartial. cbn [pp_fragments pp_fragCount pp_nReceivedFragments pp_dropTimer]. do 2 wp_step.
  cbn [set_partialPackets ra_nMaxFragments ra_reassemblyTimeout ra_partialPackets ra_timers].
  destruct (Z.eqb_spec (pp_nReceivedFragments pp + 1) (pp_fragCount pp)) as [E|_].
  { rewrite (pi_received _ _ Hpi' : pp_nReceivedFragments pp + 1 = _) in E. rewrite <- (pi_length _ _ Hpi' : _ = pp_fragCount pp) in E.
    apply nFilled_bounds in E. cbn in E. congruence. }
  do 2 wp_step. cbn [set_partialPackets ra_nMaxFragments ra_reassemblyTimeout ra_partialPackets ra_timers].
  destruct (schedule _ key (ra_timers s)) as [timers timer] eqn:Esch. do 4 wp_step.
  cbn [set_partialPackets set_raTimers ra_nMaxFragments ra_reassemblyTimeout ra_partialPackets ra_timers].
  rewrite !insert_insert_eq. set (pp' := mkPartial _ _ _ (Some timer)).
  split; [|split; [done|split; [done|by exists pp']]].
  pose proof (restart_timer s key pp _ timers timer HI Hadd Esch) as Hpend.
  eapply (ReassemblerInv_update s _ key (Some pp')); try done.
  - intros ? [= <-]. by apply PartialInv_fill.
  - intros t d k Hk. cbn. rewrite Hpend. naive_solver.
  - intros t d. cbn. rewrite Hpend. naive_solver.
  - intros ? [= <-]. exists timer. eexists. split; [done|]. cbn. apply Hpend. by left.
Qed.

(** An entry whose fragments have changed keeps its timer. *)
Lemma ReassemblerInv_store s key pp pp' :
  ReassemblerInv s → ra_partialPackets s !! key = Some pp → PartialInv key pp' → pp_dropTimer pp' = pp_dropTimer pp →
  ReassemblerInv (set_partialPackets (<[key := pp']> (ra_partialPackets s)) s).
Proof.
  intros HI Hs Hpi Ht. eapply (ReassemblerInv_update s _ key (Some pp')); try done.
  - by intros ? [= <-].
  - intros t d H. destruct (ri_pending s HI _ _ _ H) as (pp0 & H1 & H2). cbn. congruence.
  - intros ? [= <-]. destruct (ri_timer s HI key pp Hs) as (t & d & H1 & H2). exists t, d. split; [congruence|done].
Qed.

(** With all slots filled, the buffer is as large as the fragments. *)
Lemma doReassembly_spec s key pp :
  ra_partialPackets s !! key = Some pp → PartialInv key pp → forallb isFilled (pp_fragments pp) = true →
  wp (doReassembly key) (λ r s', r = reassemble (pp_fragments pp) ∧ s' = s) s.
Proof.
  intros Hs Hpi Hall. unfold doReassembly, partialAt. do 3 wp_step. wp_step. rewrite Hs. cbn [default from_option id]. unfold reassemble.
  destruct (fragmentPayloads (pp_fragments pp)) as [bs|] eqn:Ebs; cbn [mbind option_bind]; [|by wp_step]. wp_step. wp_step; [|by wp_step].
  destruct (fragmentPayloads_size _ _ Ebs) as [H1 H2].
  { intros f [i Hi]%list_elem_of_lookup. rewrite forallb_forall in Hall. apply (pi_slots _ _ Hpi i f Hi).
    apply Hall. apply list_elem_of_In. by eapply list_elem_of_lookup_2. }
  rewrite (pi_length _ _ Hpi) in H2. pose proof (pi_count _ _ Hpi). apply Z.leb_le. rewrite Z.mod_small; lia.
Qed.

(** The last fragment. *)
Lemma addFragment_last s now key pp i p :
  ReassemblerInv s → addsTo s key pp → PartialInv key pp → fills key pp i p →
  let slots := <[Z.to_nat i := p]> (pp_fragments pp) in
  forallb isFilled slots = true →
  wp (addFragment now key pp i p) (λ r s', ReassemblerInv s' ∧ ra_nMaxFragments s' = ra_nMaxFragments s ∧
    match reassemble slots, slots !! 0%nat with
    | Some b, Some first => r = RaTrue b first ∧ ra_partialPackets s' = delete key (ra_partialPackets s)
    | _, _ => r = RaThrow ∧ ∃ pp', pp_fragments pp' = slots ∧ ra_partialPackets s' = <[key := pp']> (ra_partialPackets s)
    end) (set_partialPackets (<[key := pp]> (ra_partialPackets s)) s).
Proof.
  intros HI Hadd Hpi Hf slots Hall. pose proof (PartialInv_fill key pp i p (pp_dropTimer pp) Hpi Hf) as Hpi'.
  fold slots in Hpi'. set (pp' := mkPartial slots (pp_fragCount pp) (pp_nReceivedFragments pp + 1) (pp_dropTimer pp)) in Hpi'. assert (pp_nReceivedFragments pp' = pp_fragCount pp') as En.
  { rewrite (pi_received _ _ Hpi'), <- (pi_length _ _ Hpi'). by apply nFilled_bounds. }
  destruct Hadd as [Hs|(_ & _ & H0)].
  2: { pose proof (pi_received _ _ Hpi). pose proof (pi_count _ _ Hpi). cbn in En. lia. }
  pose proof (ReassemblerInv_store s key pp pp' HI Hs Hpi' eq_refl) as HI'.
  unfold addFragment, storePartial. fold slots. fold pp'. do 2 wp_step. cbn [set_partialPackets ra_nMaxFragments ra_reassemblyTimeout ra_partialPackets ra_timers].
  apply Z.eqb_eq in En as ->. rewrite insert_insert_eq. fold (set_partialPackets (<[key := pp']> (ra_partialPackets s)) s).
  set (s1 := set_partialPackets _ s) in *. assert (ra_partialPackets s1 !! key = Some pp') as Hs1 by (cbn; apply lookup_insert_eq).
  wp_step. eapply wp_mono; [apply (doReassembly_spec s1 key pp' Hs1 Hpi' Hall)|]. intros r s2 [-> ->].
  change (pp_fragments pp') with slots. destruct (reassemble slots) as [b|]; [|wp_step; split; [done|]; split; [done|]; split; [done|]; by exists pp'].
  wp_step. assert (is_Some (slots !! 0%nat)) as [first Hfirst].
  { apply lookup_lt_is_Some. pose proof (pi_length _ _ Hpi' : len slots = pp_fragCount pp). pose proof (pi_count _ _ Hpi). lia. }
  rewrite Hfirst. wp_step; [done|]. wp_step. eapply wp_mono; [by eapply (erasePartial_spec s1 key pp')|]. intros [] s3 (H1 & H2 & H3). wp_step.
  split; [done|]. split; [done|]. split; [done|]. rewrite H2. cbn. by rewrite delete_insert_eq.
Qed.

(** A new entry. *)
Lemma PartialInv_new key n : 2 ≤ n → n * MAX_NDN_PACKET_SIZE < 2 ^ 32 →
  PartialInv key (mkPartial (replicate (Z.to_nat n) emptyLp) n 0 None).
Proof.
  intros Hn Hm. split; cbn [pp_fragments pp_fragCount pp_nReceivedFragments].
  - rewrite length_replicate. lia.
  - done.
  - by rewrite nFilled_empty.
  - intros i f [-> _]%lookup_replicate. done.
Qed.

(** An entry whose fragment is not used was there before, and stays as it is. *)
Lemma entry_unused s key n pp i :
  addsTo s key pp → PartialInv key pp → pp_fragments pp = default (replicate (Z.to_nat n) emptyLp) (slotsOf s !! key) →
  n ≠ pp_fragCount pp ∨ (∃ old, pp_fragments pp !! Z.to_nat i = Some old ∧ isFilled old = true) →
  set_partialPackets (<[key := pp]> (ra_partialPackets s)) s = s.
Proof.
  intros Hadd Hpi Epp Hcase. destruct Hadd as [Hs|(Hs & _ & Hz)]; [rewrite insert_id by done; by destruct s|].
  exfalso. unfold slotsOf in Epp. rewrite lookup_fmap, Hs in Epp. cbn in Epp. destruct Hcase as [Hne|(old & Ho & Hf)].
  - pose proof (pi_length _ _ Hpi) as Hl. pose proof (pi_count _ _ Hpi). rewrite Epp, length_replicate in Hl. lia.
  - rewrite Epp in Ho. by apply lookup_replicate in Ho as [-> _].
Qed.

(** The entry a fragment is meant for. *)
Lemma entry_of s key n : ReassemblerInv s → 2 ≤ n ≤ ra_nMaxFragments s →
  let pp0 := default (mkPartial [] 0 0 None) (ra_partialPackets s !! key) in
  let pp := if pp_fragCount pp0 =? 0 then mkPartial (replicate (Z.to_nat n) emptyLp) n 0 (pp_dropTimer pp0) else pp0 in
  addsTo s key pp ∧ PartialInv key pp ∧ pp_fragments pp = default (replicate (Z.to_nat n) emptyLp) (slotsOf s !! key).
Proof.
  intros HI Hn. cbn zeta. unfold slotsOf. rewrite lookup_fmap.
  destruct (ra_partialPackets s !! key) as [pk|] eqn:Ek; cbn [default from_option id fmap option_fmap option_map].
  - pose proof (ri_partial s HI _ _ Ek) as Hk. destruct (Z.eqb_spec (pp_fragCount pk) 0); [pose proof (pi_count _ _ Hk); lia|]. by split; [left|].
  - cbn [pp_fragCount Z.eqb pp_dropTimer pp_fragments]. split; [right; split; [done|]; split; [done|]; apply nFilled_empty|].
    split; [|done]. apply PartialInv_new; [lia|]. pose proof (ri_max s HI). unfold MAX_NDN_PACKET_SIZE in *. lia.
Qed.

Lemma receiveIndexed_refines s now ep p q i n :
  ReassemblerInv s → receivedOk p → lp_sequence p = Present q → 0 ≤ i < n → 2 ≤ n ≤ ra_nMaxFragments s →
  wp (receiveIndexed now ep i n p) (λ r s', ReassemblerInv s' ∧ ra_nMaxFragments s' = ra_nMaxFragments s ∧
    let key := (ep, seq64 (q - i)) in
    let slots := default (replicate (Z.to_nat n) emptyLp) (slotsOf s !! key) in
    (slotsOf s', r) =
      if negb (n =? len slots) || existsb isFilled (option_list (slots !! Z.to_nat i)) then (slotsOf s, RaFalse)
      else
        let slots' := <[Z.to_nat i := p]> slots in
        if forallb isFilled slots' then
          match reassemble slots', slots' !! 0%nat with
          | Some b, Some first => (delete key (slotsOf s), RaTrue b first)
          | _, _ => (<[key := slots']> (slotsOf s), RaThrow)
          end
        else (<[key := slots']> (slotsOf s), RaFalse)) s.
Proof.
  intros HI Hok Hq Hi Hn. unfold receiveIndexed, partialAt, storePartial. rewrite Hq. do 3 wp_step. wp_step. set (key := (ep, seq64 (q - i))).
  destruct (entry_of s key n HI ltac:(lia)) as (Hadd & Hpi & Epp). set (pp0 := default _ _) in *. set (pp := if pp_fragCount pp0 =? 0 then _ else pp0) in *.
  clearbody pp. clear pp0. cbn zeta. rewrite <- Epp. do 2 wp_step. rewrite (pi_length _ _ Hpi).
  pose proof (entry_unused s key n pp i Hadd Hpi Epp) as Hkeep.
  destruct (Z.eqb_spec n (pp_fragCount pp)) as [En|Hne]; cbn [negb orb]; [|wp_step; rewrite Hkeep by auto; done].
  assert (is_Some (pp_fragments pp !! Z.to_nat i)) as [old Hold] by (apply lookup_lt_is_Some; pose proof (pi_length _ _ Hpi); lia).
  rewrite Hold. wp_step. wp_step; [done|]. replace (existsb isFilled (option_list (Some old))) with (isFilled old) by (cbn; by rewrite orb_false_r). change (has (lp_sequence old)) with (isFilled old).
  destruct (isFilled old) eqn:Ef; [wp_step; rewrite Hkeep by eauto; done|].
  assert (fills key pp i p) as Hfill by (split; eauto; lia).
  destruct (forallb isFilled (<[Z.to_nat i:=p]> (pp_fragments pp))) eqn:Eall.
  - eapply wp_mono; [by apply addFragment_last|]. intros r s' (H1 & H2 & H3). split; [done|]. split; [done|]. unfold slotsOf.
    destruct (reassemble _); [destruct (_ !! 0%nat)|]; destruct H3 as [-> H3]; [by rewrite H3, fmap_delete|..];
      destruct H3 as (pp' & <- & ->); by rewrite fmap_insert.
  - eapply wp_mono; [by apply addFragment_more|]. intros r s' (H1 & H2 & -> & pp' & H3 & H4). split; [done|]. split; [done|]. unfold slotsOf.
    by rewrite H4, fmap_insert, H3.
Qed.

(** The reassembler implements its specification, and keeps a timer for each
    partial packet. *)
Lemma receiveFragment_refines s now ep p :
  ReassemblerInv s → receivedOk p →
  wp (receiveFragment now ep p) (λ r s', ReassemblerInv s' ∧ ra_nMaxFragments s' = ra_nMaxFragments s ∧
    (slotsOf s', r) = specReceive (ra_nMaxFragments s) ep p (slotsOf s)) s.
Proof.
  intros HI Hok. pose proof Hok as (Hf & _ & Hidx). unfold receiveFragment, specReceive, classify. wp_step. wp_step; [done|]. do 2 wp_step.
  destruct (if has (lp_fragIndex p) then get (lp_fragIndex p) else Some 0) as [i|] eqn:Ei; [|by wp_step].
  destruct (if has (lp_fragCount p) then get (lp_fragCount p) else Some 1) as [n|]; [|by wp_step].
  assert (0 ≤ i) as Hi by (destruct (lp_fragIndex p); cbn in Ei; simplify_eq; [done|by apply Hidx]).
  destruct (Z.leb_spec n i); [by wp_step|]. destruct (Z.ltb_spec (ra_nMaxFragments s) n); [by wp_step|].
  destruct (Z.eqb_spec i 0) as [->|Hi0]; cbn [andb].
  - destruct (Z.eqb_spec n 1) as [->|Hn1]; [destruct (get (lp_fragment p)); by wp_step|].
    destruct (lp_sequence p) as [| |q] eqn:Eq; [unfold receiveIndexed; rewrite Eq; by wp_step..|]. apply receiveIndexed_refines; auto; lia.
  - destruct (lp_sequence p) as [| |q] eqn:Eq; [unfold receiveIndexed; rewrite Eq; by wp_step..|]. apply receiveIndexed_refines; auto; lia.
Qed.

(** A drop timer that runs erases its entry, and only it. *)
Lemma runDropTimer_spec s t d key :
  ReassemblerInv s → sched_pending (ra_timers s) !! t = Some (d, key) →
  wp (runDropTimer t) (λ r s', ReassemblerInv s' ∧ ra_nMaxFragments s' = ra_nMaxFragments s ∧ r = true ∧
    slotsOf s' = delete key (slotsOf s) ∧ is_Some (slotsOf s !! key)) s.
Proof.
  intros HI Ht. destruct (ri_pending s HI _ _ _ Ht) as (pp & Hpp & Hpt). unfold runDropTimer, timeoutPartialPacket, erasePartial. do 2 wp_step.
  rewrite Ht. do 4 wp_step. cbn [set_raTimers ra_partialPackets ra_timers]. rewrite Hpp. wp_step. wp_step. wp_step.
  cbn [set_partialPackets set_raTimers ra_nMaxFragments ra_reassemblyTimeout ra_partialPackets ra_timers]. rewrite Hpp. cbn [mbind option_bind]. rewrite Hpt.
  destruct (cancel_entry s key pp t HI Hpp Hpt) as [H1 H2]. destruct (cancel_spec (Some t) (ra_timers s)) as [_ E1].
  destruct (cancel_spec (Some t) (cancel (Some t) (ra_timers s))) as [_ E2]. rewrite E1, delete_delete_eq, <- E1 in E2.
  split; [|split; [done|split; [done|]]].
  - eapply (ReassemblerInv_update s _ key None); try done; cbn [set_raTimers ra_timers]; setoid_rewrite E2; [exact H1|]. intros t' d' H. by apply H2 in H.
  - unfold slotsOf. cbn [set_raTimers set_partialPackets ra_partialPackets]. rewrite fmap_delete, lookup_fmap, Hpp. split; [done|by eexists].
Qed.
End ReassemblerFacts.
