(* ===== verification/LpRoundTrip.v ===== *)
(** * Fragmentation and reassembly together

    The fragments of a packet, received in any order among other traffic, are put
    together to the packet they were cut from. *)

From Stdlib Require Import ZArith Lia.
From stdpp Require Import base gmap option list.
From S2P Require Import Prelude Scheduler Ndn LpPacket LpFragmenter LpReassembler.

Local Open Scope Z_scope.

Section Messages.
Context {C : NetCodec}.
Implicit Types (p f : LpPacket) (fs seen : list LpPacket) (A : Slots).

(** The message a packet belongs to, if it needs a slot. *)
Definition affects (nMax ep : Z) p : option Key :=
  match classify nMax p with
  | inl _ => None
  | inr (q, i, _) => Some (ep, seq64 (q - i))
  end.

(** The fragments of one message, in order. *)
Definition isMessage (nMax m : Z) fs : Prop :=
  ∀ i f, fs !! i = Some f → ∃ q, classify nMax f = inr (q, Z.of_nat i, len fs) ∧ seq64 (q - Z.of_nat i) = m.

(** The slots once the packets in [seen] have come. *)
Definition collected fs seen : list LpPacket := (λ f, if decide (f ∈ seen) then f else emptyLp) <$> fs.
Definition entryOf fs seen : option (list LpPacket) := if decide (seen = []) then None else Some (collected fs seen).

Lemma message_filled nMax m fs f : isMessage nMax m fs → f ∈ fs → isFilled f = true.
Proof.
  intros Hm [i Hi]%list_elem_of_lookup. destruct (Hm i f Hi) as (q & Hq & _). unfold classify in Hq. unfold isFilled.
  repeat case_match; simplify_eq; done.
Qed.

Lemma message_NoDup nMax m fs : isMessage nMax m fs → NoDup fs.
Proof.
  intros Hm. apply NoDup_alt. intros i j f Hi Hj. destruct (Hm i f Hi) as (q & Hq & _). destruct (Hm j f Hj) as (q' & Hq' & _).
  rewrite Hq in Hq'. injection Hq' as _ E. lia.
Qed.

Lemma collected_nil fs : collected fs [] = replicate (length fs) emptyLp.
Proof. unfold collected. induction fs as [|f fs IH]; [done|]. cbn [fmap list_fmap length replicate]. rewrite decide_False by set_solver. by f_equal. Qed.

Lemma entryOf_default fs seen n : n = len fs → default (replicate (Z.to_nat n) emptyLp) (entryOf fs seen) = collected fs seen.
Proof. intros ->. unfold entryOf. destruct (decide (seen = [])) as [->|]; cbn; [|done]. by rewrite collected_nil, Nat2Z.id. Qed.

Lemma collected_lookup nMax m fs seen i f : isMessage nMax m fs → fs !! i = Some f →
  ∃ x, collected fs seen !! i = Some x ∧ isFilled x = bool_decide (f ∈ seen).
Proof.
  intros Hm Hi. unfold collected. rewrite list_lookup_fmap, Hi. eexists. split; [done|]. cbn.
  destruct (decide (f ∈ seen)); [rewrite bool_decide_true by done|by rewrite bool_decide_false].
  apply (message_filled nMax m fs); [done|]. by eapply list_elem_of_lookup_2.
Qed.

Lemma collected_insert nMax m fs seen i f : isMessage nMax m fs → fs !! i = Some f →
  <[i := f]> (collected fs seen) = collected fs (f :: seen).
Proof.
  intros Hm Hi. pose proof (message_NoDup _ _ _ Hm) as Hnd. apply list_eq. intros j. destruct (decide (j = i)) as [->|Hj].
  - rewrite list_lookup_insert_eq by (unfold collected; rewrite length_fmap; by eapply lookup_lt_Some).
    unfold collected. rewrite list_lookup_fmap, Hi. cbn. by rewrite decide_True by set_solver.
  - rewrite list_lookup_insert_ne by done. unfold collected. rewrite !list_lookup_fmap. destruct (fs !! j) as [g|] eqn:Ej; [|done]. cbn. f_equal.
    assert (g ≠ f) as Hne by (intros ->; apply Hj; by eapply NoDup_lookup).
    destruct (decide (g ∈ seen)); [by rewrite decide_True by set_solver|by rewrite decide_False by set_solver].
Qed.

Lemma collected_all nMax m fs seen : isMessage nMax m fs →
  forallb isFilled (collected fs seen) = true ↔ fs ⊆ seen.
Proof.
  intros Hm. rewrite forallb_forall. setoid_rewrite <- list_elem_of_In. unfold collected. split.
  - intros H f Hf. destruct (decide (f ∈ seen)) as [|Hn]; [done|]. specialize (H emptyLp).
    assert (isFilled emptyLp = true) as E; [|done]. apply H. apply list_elem_of_fmap. exists f. by rewrite decide_False.
  - intros H x (f & -> & Hf)%list_elem_of_fmap. rewrite decide_True by auto. by eapply message_filled.
Qed.

Lemma collected_full fs seen : fs ⊆ seen → collected fs seen = fs.
Proof.
  intros H. unfold collected. induction fs as [|f fs IH]; [done|]. cbn [fmap list_fmap]. rewrite decide_True by set_solver. f_equal. apply IH. set_solver.
Qed.

(** A fragment of the message comes. *)
Lemma specReceive_message nMax ep m fs seen p A :
  isMessage nMax m fs → p ∈ fs → A !! (ep, m) = entryOf fs seen →
  specReceive nMax ep p A =
    if decide (p ∈ seen) then (A, RaFalse)
    else if decide (fs ⊆ p :: seen) then
      match reassemble fs, fs !! 0%nat with
      | Some b, Some first => (delete (ep, m) A, RaTrue b first)
      | _, _ => (<[(ep, m) := fs]> A, RaThrow)
      end
    else (<[(ep, m) := collected fs (p :: seen)]> A, RaFalse).
Proof.
  intros Hm [i Hi]%list_elem_of_lookup HA. destruct (Hm i p Hi) as (q & Hq & Eq). unfold specReceive. rewrite Hq, Eq, HA, entryOf_default by done.
  replace (len (collected fs seen)) with (len fs) by (unfold collected; by rewrite length_fmap). rewrite Z.eqb_refl, Nat2Z.id. cbn [negb orb].
  destruct (collected_lookup _ _ _ seen _ _ Hm Hi) as (x & -> & Hx). change (existsb isFilled (option_list (Some x))) with (isFilled x || false). rewrite Hx, orb_false_r.
  destruct (decide (p ∈ seen)) as [Hs|Hs]; [by rewrite bool_decide_true|rewrite bool_decide_false by done].
  rewrite (collected_insert _ _ _ _ _ _ Hm Hi). destruct (decide (fs ⊆ p :: seen)) as [Hall|Hall].
  - pose proof Hall as E. apply (collected_all _ _ _ _ Hm) in E as ->. by rewrite collected_full.
  - destruct (forallb isFilled _) eqn:E; [|done]. by apply (collected_all _ _ _ _ Hm) in E.
Qed.

(** Another packet leaves the message alone. *)
Lemma specReceive_other nMax ep p A key : affects nMax ep p ≠ Some key → (specReceive nMax ep p A).1 !! key = A !! key.
Proof.
  unfold affects, specReceive. destruct (classify nMax p) as [r|[[q i] n]]; [done|]. intros Hne. assert ((ep, seq64 (q - i)) ≠ key) by congruence.
  repeat case_match; cbn; rewrite ?lookup_delete_ne, ?lookup_insert_ne by done; done.
Qed.

Lemma message_affects nMax ep m fs p : isMessage nMax m fs → p ∈ fs → affects nMax ep p = Some (ep, m).
Proof. intros Hm [i Hi]%list_elem_of_lookup. destruct (Hm i p Hi) as (q & Hq & Eq). unfold affects. by rewrite Hq, Eq. Qed.

(** While fragments are missing, those that have come are kept and none completes
    the message. *)
Lemma specReceive_collect nMax ep m fs seen ep' p A A' r :
  isMessage nMax m fs → A !! (ep, m) = entryOf fs seen → specReceive nMax ep' p A = (A', r) →
  (ep' = ep ∧ p ∈ fs ∧ ¬ fs ⊆ p :: seen) ∨ affects nMax ep' p ≠ Some (ep, m) →
  ∃ seen', A' !! (ep, m) = entryOf fs seen' ∧ (∀ f, f ∈ seen' ↔ f ∈ seen ∨ ep' = ep ∧ p ∈ fs ∧ f = p) ∧
    (ep' = ep → p ∈ fs → r = RaFalse).
Proof.
  intros Hm HA Hr Hcase. destruct (decide (ep' = ep ∧ p ∈ fs)) as [[-> Hp]|Hno].
  - destruct Hcase as [(_ & _ & Hall)|Ha].
    2: { destruct Ha. by eapply message_affects. }
    rewrite (specReceive_message nMax ep m fs seen p A) in Hr by done. destruct (decide (p ∈ seen)) as [Hs|Hs]; [|rewrite decide_False in Hr by done].
    + injection Hr as <- <-. exists seen. split; [done|]. split; [|done]. naive_solver.
    + injection Hr as <- <-. exists (p :: seen). rewrite lookup_insert_eq. split; [done|]. split; [|done]. intros f. rewrite elem_of_cons. naive_solver.
  - exists seen. split; [|split; [|naive_solver]].
    + rewrite <- HA. replace A' with (specReceive nMax ep' p A).1 by (by rewrite Hr). apply specReceive_other. naive_solver.
    + naive_solver.
Qed.

(** The last missing fragment completes it. *)
Lemma specReceive_complete nMax ep m fs seen p b first A :
  isMessage nMax m fs → A !! (ep, m) = entryOf fs seen → p ∈ fs → p ∉ seen → fs ⊆ p :: seen →
  reassemble fs = Some b → fs !! 0%nat = Some first →
  specReceive nMax ep p A = (delete (ep, m) A, RaTrue b first).
Proof.
  intros Hm HA Hp Hs Hall Hb Hfirst. rewrite (specReceive_message nMax ep m fs seen p A) by done.
  by rewrite decide_False, decide_True, Hb, Hfirst.
Qed.
End Messages.
