(* ===== verification/LinkState.v ===== *)
(** * The state of a link service, and sending one link-layer packet

    [GenericLinkService] ([src/daemon/face/generic-link-service.cpp]) owns the
    fragmenter, the reassembler and the reliability component
    ([src/daemon/face/lp-reliability.cpp]); the last one calls back to retransmit.
    Here are the data members of both and the functions that send a link-layer
    packet: acknowledgements are attached, congestion is marked, the MTU is checked.

    Iterators of [m_unackedFrags], a [std::map], are keys; [None] is [end()].  Network
    packets shared by their fragments are objects in [rel_netPkts].  What leaves the
    link service is appended to [ls_output]. *)

From Stdlib Require Import ZArith Lia.
From stdpp Require Import base gmap option list.
From S2P Require Import Prelude Scheduler Ndn LpPacket LpFragmenter LpReassembler.

Local Open Scope Z_scope.

Definition MTU_UNLIMITED : Z := -1.
Definition MIN_MTU : Z := 64.

(** The tags of a network-layer packet that the link service reads or sets. *)
Record Tags := mkTags {
  tag_incomingFaceId : option Z;
  tag_nextHopFaceId : option Z;
  tag_cachePolicy : option CachePolicy;
  tag_congestionMark : option Z;
  tag_nonDiscovery : option unit;
  tag_prefixAnnouncement : option (list Z);
  tag_pitToken : option (list Z);
  tag_hopCount : option Z;
  tag_geoTag : option (list Z);
}.

Definition noTags : Tags := mkTags None None None None None None None None None.

(** [ndn::util::RttEstimator], and [interval / sqrt(n + 1)] in [double]. *)
Class LinkMath := {
  RttEstimator : Type;
  addMeasurement : Z → RttEstimator → RttEstimator;
  getEstimatedRto : RttEstimator → Z;
  intervalOverSqrt : Z → Z → Z;
}.

Class LinkMathLaws (LM : LinkMath) : Prop := {
  (** Times are not negative, and the marking interval shrinks. *)
  rto_positive : ∀ r, 0 < getEstimatedRto r;
  interval_bounds : ∀ b n, 0 ≤ b → 0 ≤ n → 0 ≤ intervalOverSqrt b n ≤ b;
}.

(** An estimator that answers the same time, and an integer square root. *)
#[export] Instance FixedMath : LinkMath := {|
  RttEstimator := unit;
  addMeasurement _ r := r;
  getEstimatedRto _ := 200;
  intervalOverSqrt b n := Z.sqrt (b * b / (n + 1));
|}.

#[export] Instance FixedMathLaws : LinkMathLaws FixedMath.
Proof.
  split; [done|]. intros b n Hb Hn. cbn. split; [apply Z.sqrt_nonneg|].
  transitivity (Z.sqrt (b * b)); [|rewrite Z.sqrt_square by done; lia]. apply Z.sqrt_le_mono. apply Z.div_le_upper_bound; nia.
Qed.

(** The packet counters of [LinkService] and [GenericLinkService]. *)
Inductive Counter :=
  | nOutInterests | nOutData | nOutNacks | nInInterests | nInData | nInNacks | nInterestsExceededRetx
  | nFragmentationErrors | nOutOverMtu | nInLpInvalid | nReassemblyTimeouts | nInNetInvalid
  | nAcknowledged | nRetransmitted | nRetxExhausted | nDuplicateSequence | nCongestionMarked.

#[export] Instance Counter_eqdec : EqDecision Counter.
Proof. solve_decision. Defined.

Section LinkState.
Context {C : NetCodec} {L : LpCodec} {LM : LinkMath} {SC : Scheduler}.

(** ** Reliability *)

(** [LpReliability::UnackedFrag] *)
Record UnackedFrag := mkUnacked {
  uf_pkt : LpPacket;
  uf_rtoTimer : option positive;
  uf_sendTime : Z;
  uf_retxCount : Z;
  uf_nGreaterSeqAcks : Z;
  uf_netPkt : option ptr;
}.

(** [LpReliability::NetPkt] *)
Record NetPkt := mkNetPkt {
  np_unackedFrags : list Z;
  np_pkt : LpPacket;
  np_isInterest : bool;
  np_didRetx : bool;
}.

Inductive RelTimer := RtoTimer (txSeq : Z) | IdleAckTimer.

Record Reliability := mkReliability {
  rel_unackedFrags : gmap Z UnackedFrag;
  rel_firstUnackedFrag : option Z;
  rel_ackQueue : list Z;
  rel_recentRecvSeqs : gmap Z Z;
  rel_recentRecvSeqsQueue : list Z;
  rel_lastTxSeqNo : Z;
  rel_idleAckTimer : option positive;
  rel_rttEst : RttEstimator;
  rel_netPkts : gmap ptr NetPkt;
  rel_timers : SchedState RelTimer;
}.

Definition set_unacked m r := mkReliability m (rel_firstUnackedFrag r) (rel_ackQueue r) (rel_recentRecvSeqs r)
  (rel_recentRecvSeqsQueue r) (rel_lastTxSeqNo r) (rel_idleAckTimer r) (rel_rttEst r) (rel_netPkts r) (rel_timers r).
Definition set_first f r := mkReliability (rel_unackedFrags r) f (rel_ackQueue r) (rel_recentRecvSeqs r)
  (rel_recentRecvSeqsQueue r) (rel_lastTxSeqNo r) (rel_idleAckTimer r) (rel_rttEst r) (rel_netPkts r) (rel_timers r).
Definition set_ackQueue q r := mkReliability (rel_unackedFrags r) (rel_firstUnackedFrag r) q (rel_recentRecvSeqs r)
  (rel_recentRecvSeqsQueue r) (rel_lastTxSeqNo r) (rel_idleAckTimer r) (rel_rttEst r) (rel_netPkts r) (rel_timers r).
Definition set_recent m q r := mkReliability (rel_unackedFrags r) (rel_firstUnackedFrag r) (rel_ackQueue r) m
  q (rel_lastTxSeqNo r) (rel_idleAckTimer r) (rel_rttEst r) (rel_netPkts r) (rel_timers r).
Definition set_lastTx n r := mkReliability (rel_unackedFrags r) (rel_firstUnackedFrag r) (rel_ackQueue r) (rel_recentRecvSeqs r)
  (rel_recentRecvSeqsQueue r) n (rel_idleAckTimer r) (rel_rttEst r) (rel_netPkts r) (rel_timers r).
Definition set_idleAckTimer t r := mkReliability (rel_unackedFrags r) (rel_firstUnackedFrag r) (rel_ackQueue r) (rel_recentRecvSeqs r)
  (rel_recentRecvSeqsQueue r) (rel_lastTxSeqNo r) t (rel_rttEst r) (rel_netPkts r) (rel_timers r).
Definition set_rttEst e r := mkReliability (rel_unackedFrags r) (rel_firstUnackedFrag r) (rel_ackQueue r) (rel_recentRecvSeqs r)
  (rel_recentRecvSeqsQueue r) (rel_lastTxSeqNo r) (rel_idleAckTimer r) e (rel_netPkts r) (rel_timers r).
Definition set_netPkts m r := mkReliability (rel_unackedFrags r) (rel_firstUnackedFrag r) (rel_ackQueue r) (rel_recentRecvSeqs r)
  (rel_recentRecvSeqsQueue r) (rel_lastTxSeqNo r) (rel_idleAckTimer r) (rel_rttEst r) m (rel_timers r).
Definition set_relTimers t r := mkReliability (rel_unackedFrags r) (rel_firstUnackedFrag r) (rel_ackQueue r) (rel_recentRecvSeqs r)
  (rel_recentRecvSeqsQueue r) (rel_lastTxSeqNo r) (rel_idleAckTimer r) (rel_rttEst r) (rel_netPkts r) t.

(** ** The link service *)

(** [GenericLinkService::Options] with the options of its parts. *)
Record Options := mkOptions {
  op_allowLocalFields : bool;
  op_allowFragmentation : bool;
  op_fragmenterMax : Z;
  op_allowReassembly : bool;
  op_reassemblerMax : Z;
  op_reassemblyTimeout : Z;
  op_relEnabled : bool;
  op_maxRetx : Z;
  op_idleAckTimerPeriod : Z;
  op_seqNumLossThreshold : Z;
  op_allowCongestionMarking : bool;
  op_baseCongestionMarkingInterval : Z;
  op_defaultCongestionThreshold : Z;
  op_allowSelfLearning : bool;
  op_overrideMtu : Z;
  (** [enableGeoTags]: unset, or a function; what it returns is the tag to use, if any *)
  op_enableGeoTags : option (option (list Z));
}.

Inductive LinkOutput :=
  | OutPacket (w : LpWire)
  | OutInterest (i : NetInterest) (t : Tags) (endpoint : Z)
  | OutData (d : NetData) (t : Tags) (endpoint : Z)
  | OutNack (i : NetInterest) (reason : NackReason) (t : Tags) (endpoint : Z)
  | OutDroppedInterest (i : NetInterest).

Record LinkState := mkLink {
  ls_options : Options;
  ls_reassembler : Reassembler;
  ls_rel : Reliability;
  ls_lastSeqNo : Z;
  ls_nextMarkTime : Z;
  ls_nMarked : Z;
  ls_counters : Counter → Z;
  (** the transport: its MTU, and its send queue, negative when not supported *)
  ls_mtu : Z;
  ls_sendQueueLength : Z;
  ls_now : Z;
  ls_output : list LinkOutput;
}.

Definition set_reassembler x s := mkLink (ls_options s) x (ls_rel s) (ls_lastSeqNo s) (ls_nextMarkTime s) (ls_nMarked s)
  (ls_counters s) (ls_mtu s) (ls_sendQueueLength s) (ls_now s) (ls_output s).
Definition set_rel x s := mkLink (ls_options s) (ls_reassembler s) x (ls_lastSeqNo s) (ls_nextMarkTime s) (ls_nMarked s)
  (ls_counters s) (ls_mtu s) (ls_sendQueueLength s) (ls_now s) (ls_output s).
Definition set_lastSeqNo x s := mkLink (ls_options s) (ls_reassembler s) (ls_rel s) x (ls_nextMarkTime s) (ls_nMarked s)
  (ls_counters s) (ls_mtu s) (ls_sendQueueLength s) (ls_now s) (ls_output s).
Definition set_marking t n s := mkLink (ls_options s) (ls_reassembler s) (ls_rel s) (ls_lastSeqNo s) t n
  (ls_counters s) (ls_mtu s) (ls_sendQueueLength s) (ls_now s) (ls_output s).
Definition set_counters x s := mkLink (ls_options s) (ls_reassembler s) (ls_rel s) (ls_lastSeqNo s) (ls_nextMarkTime s) (ls_nMarked s)
  x (ls_mtu s) (ls_sendQueueLength s) (ls_now s) (ls_output s).
Definition set_output x s := mkLink (ls_options s) (ls_reassembler s) (ls_rel s) (ls_lastSeqNo s) (ls_nextMarkTime s) (ls_nMarked s)
  (ls_counters s) (ls_mtu s) (ls_sendQueueLength s) (ls_now s) x.
Definition set_options o ra s := mkLink o ra (ls_rel s) (ls_lastSeqNo s) (ls_nextMarkTime s) (ls_nMarked s)
  (ls_counters s) (ls_mtu s) (ls_sendQueueLength s) (ls_now s) (ls_output s).

Definition modifyRel (f : Reliability → Reliability) : M LinkState unit := modify (λ s, set_rel (f (ls_rel s)) s).
Definition getRel : M LinkState Reliability := gets ls_rel.

(** [++counter] *)
Definition count (c : Counter) : M LinkState unit :=
  modify (λ s, set_counters (λ c', if decide (c' = c) then ls_counters s c' + 1 else ls_counters s c') s).

Definition emit (o : LinkOutput) : M LinkState unit := modify (λ s, set_output (ls_output s ++ [o]) s).

(** ** Sending a link-layer packet *)

Definition getEffectiveMtu (s : LinkState) : Z := Z.min (op_overrideMtu (ls_options s)) (ls_mtu s).

Definition canOverrideMtuTo (mtu : Z) (s : LinkState) : bool :=
  if ls_mtu s =? MTU_UNLIMITED then false else MIN_MTU <=? mtu.

(** Ack TLV-TYPE (3 octets), TLV-LENGTH (1 octet) and Sequence (8 octets) *)
Definition ackSize : Z := sizeOfVarNumber TLV_Ack + sizeOfVarNumber 8 + 8.

(** The loop of [piggyback] over the queue of acknowledgements. *)
Fixpoint attachAcks (queue : list Z) (remainingSpace : Z) (pkt : LpPacket) : list Z * LpPacket :=
  match queue with
  | [] => ([], pkt)
  | ackTxSeq :: queue' =>
      if remainingSpace <? ackSize then (queue, pkt)
      else attachAcks queue' (remainingSpace - ackSize) (add_ack ackTxSeq pkt)
  end.

Definition piggyback (pkt : LpPacket) (mtu : Z) : M LinkState LpPacket :=
  s ← get_st;
  assertM (op_relEnabled (ls_options s));;
  assertM (bool_decide (is_Some (wireElements (lpEncode pkt))));;
  let pktSize := wireSize (lpEncode pkt) in
  let reservedSpace := sizeOfVarNumber MAX_NDN_PACKET_SIZE - sizeOfVarNumber pktSize in
  let remainingSpace := (if mtu =? MTU_UNLIMITED then MAX_NDN_PACKET_SIZE else mtu) - reservedSpace - pktSize in
  let '(queue, pkt) := attachAcks (rel_ackQueue (ls_rel s)) remainingSpace pkt in
  modifyRel (set_ackQueue queue);;
  mret pkt.

(** [time::steady_clock::time_point::max()] *)
Definition TIME_POINT_MAX : Z := 2 ^ 63 - 1.

Definition checkCongestionLevel (pkt : LpPacket) : M LinkState LpPacket :=
  s ← get_st;
  let o := ls_options s in
  if ls_sendQueueLength s <? 0 then mret pkt
  else if op_defaultCongestionThreshold o <? ls_sendQueueLength s then
    if ls_nextMarkTime s =? TIME_POINT_MAX then
      modify (set_marking (ls_now s + op_baseCongestionMarkingInterval o) (ls_nMarked s));;
      mret pkt
    else if ls_nextMarkTime s <=? ls_now s then
      count nCongestionMarked;;
      let nMarked := ls_nMarked s + 1 in
      modify (set_marking (ls_nextMarkTime s + intervalOverSqrt (op_baseCongestionMarkingInterval o) nMarked) nMarked);;
      mret (set_congestionMark 1 pkt)
    else mret pkt
  else if negb (ls_nextMarkTime s =? TIME_POINT_MAX) then
    modify (set_marking TIME_POINT_MAX 0);;
    mret pkt
  else mret pkt.

(** [LinkService::sendPacket]: [Transport::send] asserts the MTU of the transport. *)
Definition sendPacket (w : LpWire) : M LinkState unit :=
  s ← get_st;
  assertM ((ls_mtu s =? MTU_UNLIMITED) || (wireSize w <=? ls_mtu s mod 2 ^ 64));;
  emit (OutPacket w).

Definition sendLpPacket (pkt : LpPacket) : M LinkState unit :=
  s ← get_st;
  let mtu := getEffectiveMtu s in
  pkt ← (if op_relEnabled (ls_options s) then piggyback pkt mtu else mret pkt);
  pkt ← (if op_allowCongestionMarking (ls_options s) then checkCongestionLevel pkt else mret pkt);
  let block := lpEncode pkt in
  if negb (mtu =? MTU_UNLIMITED) && (mtu mod 2 ^ 64 <? wireSize block) then count nOutOverMtu
  else sendPacket block.

Definition requestIdlePacket : M LinkState unit := sendLpPacket emptyLp.
End LinkState.
