(* ===== verification/LpReliability.v ===== *)
(** * Link-layer reliability

    [src/daemon/face/lp-reliability.cpp]: fragments that are not acknowledged are
    retransmitted under a new TxSequence number, up to a limit.  [None] is a failed
    assertion, an access through an invalid iterator, or the [std::length_error] of
    [assignTxSequence]. *)

From Stdlib Require Import ZArith Lia.
From stdpp Require Import base gmap option list.
From S2P Require Import Prelude Scheduler Ndn LpPacket LpFragmenter LpReassembler LinkState.

Local Open Scope Z_scope.

(** ** Ordered maps: [std::map<lp::Sequence, V>] *)

Definition leastOf (l : list Z) : option Z := match l with [] => None | x :: l' => Some (foldr Z.min x l') end.

Definition keysOf {V} (m : gmap Z V) : list Z := (map_to_list m).*1.

(** [begin()] and the iterator after [k]; [None] is [end()]. *)
Definition mapBegin {V} (m : gmap Z V) : option Z := leastOf (keysOf m).
Definition mapNext {V} (k : Z) (m : gmap Z V) : option Z := leastOf (filter (λ k', k < k') (keysOf m)).

Section Reliability.
Context {C : NetCodec} {L : LpCodec} {LM : LinkMath} {SC : Scheduler}.

Definition getFrag (txSeq : Z) : M LinkState UnackedFrag :=
  r ← getRel; someM (rel_unackedFrags r !! txSeq).
Definition putFrag (txSeq : Z) (f : UnackedFrag) : M LinkState unit :=
  modifyRel (λ r, set_unacked (<[txSeq := f]> (rel_unackedFrags r)) r).
Definition getNetPkt (p : option ptr) : M LinkState NetPkt :=
  r ← getRel; someM (p ≫= λ a, rel_netPkts r !! a).
Definition putNetPkt (p : option ptr) (n : NetPkt) : M LinkState unit :=
  match p with Some a => modifyRel (λ r, set_netPkts (<[a := n]> (rel_netPkts r)) r) | None => mret tt end.

Definition scheduleRel (after : Z) (ev : RelTimer) : M LinkState positive :=
  s ← get_st;
  let '(timers, i) := schedule (ls_now s + after) ev (rel_timers (ls_rel s)) in
  modifyRel (set_relTimers timers);;
  mret i.
Definition cancelRel (i : option positive) : M LinkState unit :=
  modifyRel (λ r, set_relTimers (cancel i (rel_timers r)) r).

(** [txSeq = ++m_lastTxSeqNo], with the packet that carries it. *)
Definition assignTxSequence (frag : LpPacket) : M LinkState (Z * LpPacket) :=
  r ← getRel;
  let txSeq := seq64 (rel_lastTxSeqNo r + 1) in
  modifyRel (set_lastTx txSeq);;
  (if bool_decide (rel_unackedFrags r = ∅) then mret tt
   else
     first ← someM (rel_firstUnackedFrag r);
     _ ← getFrag first;
     assertM (negb (txSeq =? first)));;
  mret (txSeq, set_txSequence txSeq frag).

(** One fragment of [handleOutgoing]: its new form, with the TxSequence. *)
Definition trackFragment (sendTime : Z) (netPkt : ptr) (frag : LpPacket) : M LinkState LpPacket :=
  assertM (has (lp_sequence frag));;
  '(txSeq, frag) ← assignTxSequence frag;
  r ← getRel;
  let stored := default (mkUnacked frag None sendTime 0 0 None) (rel_unackedFrags r !! txSeq) in
  timer ← scheduleRel (getEstimatedRto (rel_rttEst r)) (RtoTimer txSeq);
  cancelRel (uf_rtoTimer stored);;
  putFrag txSeq (mkUnacked (uf_pkt stored) (Some timer) sendTime (uf_retxCount stored) (uf_nGreaterSeqAcks stored) (Some netPkt));;
  modifyRel (λ r, if (size (rel_unackedFrags r) =? 1)%nat then set_first (mapBegin (rel_unackedFrags r)) r else r);;
  n ← getNetPkt (Some netPkt);
  putNetPkt (Some netPkt) (mkNetPkt (np_unackedFrags n ++ [txSeq]) (np_pkt n) (np_isInterest n) (np_didRetx n));;
  mret frag.

Fixpoint trackFragments (sendTime : Z) (netPkt : ptr) (frags : list LpPacket) : M LinkState (list LpPacket) :=
  match frags with
  | [] => mret []
  | frag :: frags' =>
      frag ← trackFragment sendTime netPkt frag;
      rest ← trackFragments sendTime netPkt frags';
      mret (frag :: rest)
  end.

Definition handleOutgoing (frags : list LpPacket) (pkt : LpPacket) (isInterest : bool) : M LinkState (list LpPacket) :=
  s ← get_st;
  assertM (op_relEnabled (ls_options s));;
  let netPkt := fresh (dom (rel_netPkts (ls_rel s)) : gset ptr) in
  putNetPkt (Some netPkt) (mkNetPkt [] pkt isInterest false);;
  trackFragments (ls_now s) netPkt frags.

(** [m_unackedFrags.erase(fragIt)] stops the timer of the fragment. *)
Definition deleteUnackedFrag (txSeq : Z) : M LinkState unit :=
  r ← getRel;
  first ← someM (rel_firstUnackedFrag r);
  _ ← getFrag first;
  frag ← getFrag txSeq;
  cancelRel (uf_rtoTimer frag);;
  modifyRel (λ r, set_unacked (delete txSeq (rel_unackedFrags r)) r);;
  r ← getRel;
  let m := rel_unackedFrags r in
  if negb (bool_decide (m = ∅)) && (first =? txSeq) then
    modifyRel (set_first (match mapNext txSeq m with None => mapBegin m | Some k => Some k end))
  else if bool_decide (m = ∅) then modifyRel (set_first None)
  else mret tt.

(** [*it = v.back(); v.pop_back();] at the position of [txSeq]. *)
Definition swapRemove (txSeq : Z) (l : list Z) : option (list Z) :=
  '(i, _) ← list_find (eq txSeq) l;
  back ← last l;
  Some (take (length l - 1) (<[i := back]> l)).

Definition onLpPacketAcknowledged (txSeq : Z) : M LinkState unit :=
  frag ← getFrag txSeq;
  netPkt ← getNetPkt (uf_netPkt frag);
  left ← someM (swapRemove txSeq (np_unackedFrags netPkt));
  putNetPkt (uf_netPkt frag) (mkNetPkt left (np_pkt netPkt) (np_isInterest netPkt) (np_didRetx netPkt));;
  (if bool_decide (left = []) then count (if np_didRetx netPkt then nRetransmitted else nAcknowledged) else mret tt);;
  deleteUnackedFrag txSeq.

(** Delete the other fragments of a network packet; the keys removed, in order. *)
Fixpoint deleteOthers (txSeq : Z) (frags : list Z) : M LinkState (list Z) :=
  match frags with
  | [] => mret []
  | k :: frags' =>
      if k =? txSeq then deleteOthers txSeq frags'
      else
        _ ← getFrag k;
        deleteUnackedFrag k;;
        rest ← deleteOthers txSeq frags';
        mret (k :: rest)
  end.

(** [notifyDroppedInterest], through the signal. *)
Definition notifyDroppedInterest (b : list Z) : M LinkState unit :=
  i ← someM (if isBlock b then interestOf b else None);
  count nInterestsExceededRetx;;
  emit (OutDroppedInterest i).

(** The branch of [onLpPacketLost] that gives up. *)
Definition giveUp (txSeq : Z) (netPkt : NetPkt) : M LinkState (list Z) :=
  removed ← deleteOthers txSeq (np_unackedFrags netPkt);
  count nRetxExhausted;;
  (if np_isInterest netPkt then
     b ← someM (get (lp_fragment (np_pkt netPkt)));
     notifyDroppedInterest b
   else mret tt);;
  deleteUnackedFrag txSeq;;
  mret (removed ++ [txSeq]).

(** The branch that retransmits under a new TxSequence. *)
Definition retransmit (txSeq : Z) (txFrag : UnackedFrag) (netPkt : NetPkt) : M LinkState (list Z) :=
  '(newTxSeq, pkt) ← assignTxSequence (uf_pkt txFrag);
  putFrag txSeq (mkUnacked pkt (uf_rtoTimer txFrag) (uf_sendTime txFrag) (uf_retxCount txFrag) (uf_nGreaterSeqAcks txFrag) (uf_netPkt txFrag));;
  s ← get_st;
  let stored := default (mkUnacked pkt None (ls_now s) 0 0 None) (rel_unackedFrags (ls_rel s) !! newTxSeq) in
  putFrag newTxSeq (mkUnacked (uf_pkt stored) (uf_rtoTimer stored) (uf_sendTime stored) (uf_retxCount txFrag + 1)
    (uf_nGreaterSeqAcks stored) (uf_netPkt txFrag));;
  '(i, _) ← someM (list_find (eq txSeq) (np_unackedFrags netPkt));
  putNetPkt (uf_netPkt txFrag) (mkNetPkt (<[i := newTxSeq]> (np_unackedFrags netPkt)) (np_pkt netPkt) (np_isInterest netPkt) true);;
  deleteUnackedFrag txSeq;;
  newTxFrag ← getFrag newTxSeq;
  sendLpPacket (uf_pkt newTxFrag);;
  r ← getRel;
  timer ← scheduleRel (getEstimatedRto (rel_rttEst r)) (RtoTimer newTxSeq);
  newTxFrag ← getFrag newTxSeq;
  cancelRel (uf_rtoTimer newTxFrag);;
  putFrag newTxSeq (mkUnacked (uf_pkt newTxFrag) (Some timer) (uf_sendTime newTxFrag) (uf_retxCount newTxFrag)
    (uf_nGreaterSeqAcks newTxFrag) (uf_netPkt newTxFrag));;
  mret [txSeq].

Definition onLpPacketLost (txSeq : Z) : M LinkState (list Z) :=
  txFrag ← getFrag txSeq;
  cancelRel (uf_rtoTimer txFrag);;
  netPkt ← getNetPkt (uf_netPkt txFrag);
  _ ← someM (get (lp_sequence (uf_pkt txFrag)));
  s ← get_st;
  if op_maxRetx (ls_options s) <=? uf_retxCount txFrag then giveUp txSeq netPkt
  else retransmit txSeq txFrag netPkt.

(** The loop of [findLostLpPackets], from iterator [it] up to the acknowledged
    fragment; it wraps around at the end of the map. *)
Fixpoint findLost (fuel : nat) (ackTxSeq : Z) (it : option Z) : M LinkState (list Z) :=
  match fuel with
  | O => λ _, None
  | S fuel' =>
      s ← get_st;
      let m := rel_unackedFrags (ls_rel s) in
      k ← someM (match it with None => mapBegin m | Some k => Some k end);
      frag ← getFrag k;
      if k =? ackTxSeq then mret []
      else
        let n := uf_nGreaterSeqAcks frag + 1 in
        putFrag k (mkUnacked (uf_pkt frag) (uf_rtoTimer frag) (uf_sendTime frag) (uf_retxCount frag) n (uf_netPkt frag));;
        rest ← findLost fuel' ackTxSeq (mapNext k m);
        mret (if op_seqNumLossThreshold (ls_options s) <=? n then k :: rest else rest)
  end.

Definition findLostLpPackets (ackTxSeq : Z) : M LinkState (list Z) :=
  r ← getRel;
  findLost (S (size (rel_unackedFrags r))) ackTxSeq (rel_firstUnackedFrag r).

(** Resend or fail the lost fragments, except those removed on the way. *)
Fixpoint handleLost (lost : list Z) (removed : list Z) : M LinkState unit :=
  match lost with
  | [] => mret tt
  | txSeq :: lost' =>
      if bool_decide (txSeq ∈ removed) then handleLost lost' removed
      else
        removedTxSeqs ← onLpPacketLost txSeq;
        handleLost lost' (removedTxSeqs ++ removed)
  end.

(** One acknowledgement. *)
Definition processAck (ackTxSeq : Z) : M LinkState unit :=
  s ← get_st;
  match rel_unackedFrags (ls_rel s) !! ackTxSeq with
  | None => mret tt
  | Some frag =>
      cancelRel (uf_rtoTimer frag);;
      (if uf_retxCount frag =? 0 then modifyRel (λ r, set_rttEst (addMeasurement (ls_now s - uf_sendTime frag) (rel_rttEst r)) r)
       else mret tt);;
      lost ← findLostLpPackets ackTxSeq;
      onLpPacketAcknowledged ackTxSeq;;
      handleLost lost []
  end.

Definition startIdleAckTimer : M LinkState unit :=
  s ← get_st;
  let r := ls_rel s in
  if match rel_idleAckTimer r with Some i => bool_decide (is_Some (sched_pending (rel_timers r) !! i)) | None => false end then mret tt
  else
    timer ← scheduleRel (op_idleAckTimerPeriod (ls_options s)) IdleAckTimer;
    modifyRel (set_idleAckTimer (Some timer)).

(** Forget received sequence numbers older than the RTO; [operator[]] on the map
    inserts a time of zero for an unknown one. *)
Fixpoint expireRecent (now rto : Z) (queue : list Z) (recent : gmap Z Z) : list Z * gmap Z Z :=
  match queue with
  | [] => ([], recent)
  | seq :: queue' =>
      let time := default 0 (recent !! seq) in
      if time + rto <? now then expireRecent now rto queue' (delete seq recent)
      else (queue, <[seq := time]> recent)
  end.

(** Whether the received sequence number is new; it is remembered. *)
Definition noteReceived (sequence : Z) : M LinkState bool :=
  s ← get_st;
  let r := ls_rel s in
  let isDuplicate := bool_decide (is_Some (rel_recentRecvSeqs r !! sequence)) in
  let '(queue, recent) := expireRecent (ls_now s) (getEstimatedRto (rel_rttEst r)) (rel_recentRecvSeqsQueue r) (rel_recentRecvSeqs r) in
  let recent := match recent !! sequence with Some _ => recent | None => <[sequence := ls_now s]> recent end in
  modifyRel (set_recent recent (queue ++ [sequence]));;
  mret (negb isDuplicate).

(** [None] is a [tlv::Error]. *)
Definition processIncomingPacket (pkt : LpPacket) : M LinkState (option bool) :=
  s ← get_st;
  assertM (op_relEnabled (ls_options s));;
  match mapM get (lp_acks pkt) with
  | None => mret None
  | Some acks =>
      forM acks processAck;;
      if has (lp_fragment pkt) && has (lp_txSequence pkt) then
        match get (lp_txSequence pkt) with
        | None => mret None
        | Some txSeq =>
            modifyRel (λ r, set_ackQueue (rel_ackQueue r ++ [txSeq]) r);;
            match lp_sequence pkt with
            | Absent => startIdleAckTimer;; mret (Some true)
            | Malformed => mret None
            | Present sequence =>
                isNew ← noteReceived sequence;
                startIdleAckTimer;;
                mret (Some isNew)
            end
        end
      else mret (Some true)
  end.

(** The callback of the idle-Ack timer: one IDLE packet after the other until no
    acknowledgement is left.  Without fuel the loop is still running. *)
Fixpoint sendIdlePackets (fuel : nat) : M LinkState unit :=
  match fuel with
  | O => r ← getRel; assertM (bool_decide (rel_ackQueue r = []))
  | S fuel' =>
      r ← getRel;
      if bool_decide (rel_ackQueue r = []) then mret tt
      else requestIdlePacket;; sendIdlePackets fuel'
  end.

(** The scheduler runs a timer of the component. *)
Definition runRelTimer (fuel : nat) (timer : positive) : M LinkState unit :=
  r ← getRel;
  match sched_pending (rel_timers r) !! timer with
  | None => mret tt
  | Some (_, ev) =>
      cancelRel (Some timer);;
      match ev with
      | RtoTimer txSeq => onLpPacketLost txSeq;; mret tt
      | IdleAckTimer => sendIdlePackets fuel
      end
  end.

(** [LpReliability::setOptions]; the options themselves are in the link service. *)
Definition setReliabilityOptions (wasEnabled isEnabled : bool) (idleAckTimerPeriod : Z) : M LinkState unit :=
  assertM (0 <? idleAckTimerPeriod);;
  if wasEnabled && negb isEnabled then
    r ← getRel;
    cancelRel (rel_idleAckTimer r);;
    modifyRel (set_idleAckTimer None)
  else mret tt.
End Reliability.
