(* ===== verification/LinkService.v ===== *)
(** * The generic link service

    [src/daemon/face/generic-link-service.cpp] and [link-service.cpp]: network-layer
    packets are encoded with their tags, fragmented and sent; received link-layer
    packets are reassembled and decoded.  A [tlv::Error] inside a function is its
    result [None], and is caught where the code catches it. *)

From Stdlib Require Import ZArith Lia.
From stdpp Require Import base gmap option list.
From S2P Require Import Prelude Scheduler Ndn LpPacket LpFragmenter LpReassembler LinkState LpReliability.

Local Open Scope Z_scope.

Section LinkService.
Context {C : NetCodec} {L : LpCodec} {LM : LinkMath} {SC : Scheduler}.

(** ** Sending *)

Definition field {V} (o : option V) : Field V := match o with Some v => Present v | None => Absent end.

(** [encodeLpFields] on a packet that has only the Fragment and perhaps the Nack field. *)
Definition encodeLpFields (o : Options) (t : Tags) (lpPacket : LpPacket) : LpPacket :=
  let h := lp_headers lpPacket in
  let p := match tag_congestionMark t with Some m => set_congestionMark m lpPacket | None => lpPacket end in
  set_headers (mkHeaders (lh_nack h) (lh_nextHopFaceId h)
    (if op_allowLocalFields o then field (tag_incomingFaceId t) else lh_incomingFaceId h)
    (lh_cachePolicy h)
    (if op_allowSelfLearning o then field (tag_nonDiscovery t) else lh_nonDiscovery h)
    (if op_allowSelfLearning o then field (tag_prefixAnnouncement t) else lh_prefixAnnouncement h)
    (field (tag_pitToken t))
    (Present (default 0 (tag_hopCount t)))
    (match op_enableGeoTags o with Some g => field g | None => lh_geoTag h end)) p.

(** [pkt.set<lp::SequenceField>(++m_lastSeqNo)] for each packet. *)
Fixpoint assignSequences (lastSeqNo : Z) (pkts : list LpPacket) : Z * list LpPacket :=
  match pkts with
  | [] => (lastSeqNo, [])
  | pkt :: pkts' =>
      let seq := seq64 (lastSeqNo + 1) in
      let '(last, rest) := assignSequences seq pkts' in
      (last, set_sequence seq pkt :: rest)
  end.

(** TxSequence TLV-TYPE (3 octets), TLV-LENGTH (1 octet) and Sequence (8 octets) *)
Definition RESERVED_HEADER_SPACE : Z := sizeOfVarNumber TLV_TxSequence + sizeOfVarNumber 8 + 8.

Definition CONGESTION_MARK_SIZE : Z :=
  sizeOfVarNumber TLV_CongestionMark + sizeOfVarNumber 8 + sizeOfNonNegativeInteger (2 ^ 64 - 1).

(** The MTU left for the fragments once the feature fields have their space. *)
Definition fragmentMtu (o : Options) (mtu : Z) : Z :=
  let mtu := if op_relEnabled o && negb (mtu =? MTU_UNLIMITED) then mtu - RESERVED_HEADER_SPACE else mtu in
  if op_allowCongestionMarking o && negb (mtu =? MTU_UNLIMITED) then mtu - CONGESTION_MARK_SIZE else mtu.

(** The fragments of a packet, or [None] when it is dropped. *)
Definition makeFragments (o : Options) (mtu : Z) (pkt : LpPacket) : M LinkState (option (list LpPacket)) :=
  if op_allowFragmentation o && negb (mtu =? MTU_UNLIMITED) then
    '(isOk, frags) ← someM (fragmentPacket (op_fragmenterMax o) pkt mtu);
    if (isOk : bool) then mret (Some frags) else count nFragmentationErrors;; mret None
  else mret (Some [pkt]).

Definition sendNetPacket (pkt : LpPacket) (isInterest : bool) : M LinkState unit :=
  s ← get_st;
  let o := ls_options s in
  let mtu := fragmentMtu o (getEffectiveMtu s) in
  assertM ((mtu =? MTU_UNLIMITED) || (0 <=? mtu));;
  made ← makeFragments o mtu pkt;
  match made with
  | None => mret tt
  | Some frags =>
      front ← someM (head frags);
      assertM (negb (length frags =? 1)%nat || negb (has (lp_fragIndex front)));;
      assertM (negb (length frags =? 1)%nat || negb (has (lp_fragCount front)));;
      frags ← (if op_relEnabled o || (1 <? length frags)%nat then
                 let '(last, frags) := assignSequences (ls_lastSeqNo s) frags in
                 modify (set_lastSeqNo last);;
                 mret frags
               else mret frags);
      frags ← (if op_relEnabled o && has (lp_fragment front) then handleOutgoing frags pkt isInterest else mret frags);
      forM frags sendLpPacket
  end.

(** [LinkService::sendInterest] and its siblings. *)
Definition sendInterest (i : NetInterest) (t : Tags) : M LinkState unit :=
  count nOutInterests;;
  s ← get_st;
  sendNetPacket (encodeLpFields (ls_options s) t (netLp (interestWire i))) true.

Definition sendData (d : NetData) (t : Tags) : M LinkState unit :=
  count nOutData;;
  s ← get_st;
  sendNetPacket (encodeLpFields (ls_options s) t (netLp (dataWire d))) false.

Definition nackHeaders (reason : NackReason) : LpHeaders :=
  mkHeaders (Present reason) Absent Absent Absent Absent Absent Absent Absent Absent.

Definition sendNack (i : NetInterest) (reason : NackReason) (t : Tags) : M LinkState unit :=
  count nOutNacks;;
  s ← get_st;
  sendNetPacket (encodeLpFields (ls_options s) t (set_headers (nackHeaders reason) (netLp (interestWire i)))) false.

(** ** Receiving *)

(** [LinkService::receiveInterest] and its siblings. *)
Definition receiveInterest (i : NetInterest) (t : Tags) (ep : Z) : M LinkState unit :=
  count nInInterests;; emit (OutInterest i t ep).
Definition receiveData (d : NetData) (t : Tags) (ep : Z) : M LinkState unit :=
  count nInData;; emit (OutData d t ep).
Definition receiveNack (i : NetInterest) (reason : NackReason) (t : Tags) (ep : Z) : M LinkState unit :=
  count nInNacks;; emit (OutNack i reason t ep).

(** A field that is read when it is there; the outer [None] is a [tlv::Error]. *)
Definition readField {V} (f : Field V) : option (option V) :=
  match f with Absent => Some None | Malformed => None | Present v => Some (Some v) end.

(** What becomes of a decoded packet: delivered with these tags, dropped, or dropped
    and counted as invalid; [None] is a [tlv::Error]. *)
Inductive Verdict := Deliver (t : Tags) | Drop | DropInvalid.

Definition interestTags (o : Options) (p : LpPacket) : option Verdict :=
  let h := lp_headers p in
  hopCount ← readField (lh_hopCount h);
  geoTag ← (if op_enableGeoTags o is Some _ then readField (lh_geoTag h) else Some None);
  if has (lh_nextHopFaceId h) && negb (op_allowLocalFields o) then Some Drop
  else
    nextHopFaceId ← readField (lh_nextHopFaceId h);
    if has (lh_cachePolicy h) then Some DropInvalid
    else
      congestionMark ← readField (lp_congestionMark p);
      nonDiscovery ← (if op_allowSelfLearning o then readField (lh_nonDiscovery h) else Some None);
      if has (lh_prefixAnnouncement h) then Some DropInvalid
      else
        pitToken ← readField (lh_pitToken h);
        Some (Deliver (mkTags None nextHopFaceId None congestionMark nonDiscovery None pitToken
          ((λ n, seq64 (n + 1)) <$> hopCount) geoTag)).

Definition dataTags (o : Options) (p : LpPacket) : option Verdict :=
  let h := lp_headers p in
  hopCount ← readField (lh_hopCount h);
  geoTag ← (if op_enableGeoTags o is Some _ then readField (lh_geoTag h) else Some None);
  if has (lh_nack h) then Some DropInvalid
  else if has (lh_nextHopFaceId h) then Some DropInvalid
  else
    cachePolicy ← readField (lh_cachePolicy h);
    congestionMark ← readField (lp_congestionMark p);
    if has (lh_nonDiscovery h) then Some DropInvalid
    else
      prefixAnnouncement ← (if op_allowSelfLearning o then readField (lh_prefixAnnouncement h) else Some None);
      Some (Deliver (mkTags None None cachePolicy congestionMark None prefixAnnouncement None
        ((λ n, seq64 (n + 1)) <$> hopCount) geoTag)).

Definition nackTags (p : LpPacket) : option Verdict :=
  let h := lp_headers p in
  if has (lh_nextHopFaceId h) then Some DropInvalid
  else if has (lh_cachePolicy h) then Some DropInvalid
  else
    congestionMark ← readField (lp_congestionMark p);
    if has (lh_nonDiscovery h) then Some DropInvalid
    else if has (lh_prefixAnnouncement h) then Some DropInvalid
    else Some (Deliver (mkTags None None None congestionMark None None None None None)).

(** The end of a decoder: deliver or drop; a [tlv::Error] is counted by [decodeNetPacket]. *)
Definition conclude (v : option Verdict) (deliver : Tags → M LinkState unit) : M LinkState unit :=
  match v with
  | Some (Deliver t) => deliver t
  | Some Drop => mret tt
  | Some DropInvalid | None => count nInNetInvalid
  end.

Definition decodeInterest (netPkt : list Z) (firstPkt : LpPacket) (ep : Z) : M LinkState unit :=
  assertM (blockType netPkt =? TLV_Interest);;
  assertM (negb (has (lh_nack (lp_headers firstPkt))));;
  s ← get_st;
  match interestOf netPkt with
  | None => count nInNetInvalid
  | Some i => conclude (interestTags (ls_options s) firstPkt) (λ t, receiveInterest i t ep)
  end.

Definition decodeData (netPkt : list Z) (firstPkt : LpPacket) (ep : Z) : M LinkState unit :=
  assertM (blockType netPkt =? TLV_Data);;
  s ← get_st;
  match dataOf netPkt with
  | None => count nInNetInvalid
  | Some d => conclude (dataTags (ls_options s) firstPkt) (λ t, receiveData d t ep)
  end.

Definition decodeNack (netPkt : list Z) (firstPkt : LpPacket) (ep : Z) : M LinkState unit :=
  assertM (blockType netPkt =? TLV_Interest);;
  assertM (has (lh_nack (lp_headers firstPkt)));;
  match interestOf netPkt, get (lh_nack (lp_headers firstPkt)) with
  | Some i, Some reason => conclude (nackTags firstPkt) (λ t, receiveNack i reason t ep)
  | _, _ => count nInNetInvalid
  end.

Definition decodeNetPacket (netPkt : list Z) (firstPkt : LpPacket) (ep : Z) : M LinkState unit :=
  if blockType netPkt =? TLV_Interest then
    if has (lh_nack (lp_headers firstPkt)) then decodeNack netPkt firstPkt ep
    else decodeInterest netPkt firstPkt ep
  else if blockType netPkt =? TLV_Data then decodeData netPkt firstPkt ep
  else count nInNetInvalid.

(** After reliability: IDLE packets and unwanted fragments are dropped. *)
Definition receiveLpPacket (pkt : LpPacket) (ep : Z) : M LinkState unit :=
  s ← get_st;
  if negb (has (lp_fragment pkt)) then mret tt
  else if (has (lp_fragIndex pkt) || has (lp_fragCount pkt)) && negb (op_allowReassembly (ls_options s)) then mret tt
  else
    r ← lift ls_reassembler set_reassembler (receiveFragment (ls_now s) ep pkt);
    match r with
    | RaThrow => count nInLpInvalid
    | RaFalse => mret tt
    | RaTrue netPkt firstPkt => decodeNetPacket netPkt firstPkt ep
    end.

Definition doReceivePacket (w : LpWire) (ep : Z) : M LinkState unit :=
  match lpDecode w with
  | None => count nInLpInvalid
  | Some pkt =>
      s ← get_st;
      if op_relEnabled (ls_options s) then
        isNew ← processIncomingPacket pkt;
        match isNew with
        | None => count nInLpInvalid
        | Some false => count nDuplicateSequence
        | Some true => receiveLpPacket pkt ep
        end
      else receiveLpPacket pkt ep
  end.

(** The scheduler runs a drop timer of the reassembler. *)
Definition runReassemblyTimer (timer : positive) : M LinkState unit :=
  dropped ← lift ls_reassembler set_reassembler (runDropTimer timer);
  if (dropped : bool) then count nReassemblyTimeouts else mret tt.

(** [GenericLinkService::setOptions] *)
Definition setOptions (o : Options) : M LinkState unit :=
  s ← get_st;
  let ra := ls_reassembler s in
  modify (set_options o (mkReassembler (op_reassemblerMax o) (op_reassemblyTimeout o) (ra_partialPackets ra) (ra_timers ra)));;
  setReliabilityOptions (op_relEnabled (ls_options s)) (op_relEnabled o) (op_idleAckTimerPeriod o).

(** The constructor: the first sequence numbers are -1 and, for TxSequence, 0. *)
Definition newLinkService (o : Options) (mtu : Z) (rtt : RttEstimator) (dropTimers : SchedState Key) (relTimers : SchedState RelTimer)
  : LinkState :=
  mkLink o (mkReassembler (op_reassemblerMax o) (op_reassemblyTimeout o) ∅ dropTimers)
    (mkReliability ∅ None [] ∅ [] (seq64 (-1)) None rtt ∅ relTimers) (seq64 (-2)) TIME_POINT_MAX 0 (λ _, 0) mtu (-1) 0 [].
End LinkService.
