(* ===== verification/LinkSpecs.v ===== *)
(** * What the link service sends and delivers

    Specifications of the functions of [LinkState] and [LinkService], and the theorems
    about packets that go from one link service to another. *)

From Stdlib Require Import ZArith Lia.
From stdpp Require Import base gmap option list.
From S2P Require Import Prelude Scheduler Ndn LpPacket LpFragmenter LpReassembler LpRoundTrip LinkState.
From S2P Require Import LpReliability LinkService.

Local Open Scope Z_scope.

(** ** Sequence numbers *)

Section Sequences.
Implicit Types (p f : LpPacket) (fs : list LpPacket).

Lemma seq64_idemp n : seq64 (seq64 n) = seq64 n.
Proof. unfold seq64. by rewrite Z.mod_mod. Qed.

Lemma seq64_add n m : seq64 (seq64 n + m) = seq64 (n + m).
Proof. unfold seq64. by rewrite Z.add_mod_idemp_l. Qed.

Lemma seq64_sub n m : seq64 (seq64 n - m) = seq64 (n - m).
Proof. unfold seq64. by rewrite Zminus_mod_idemp_l. Qed.

(** Consecutive numbers, whatever the last one was. *)
Lemma assignSequences_spec last fs :
  (assignSequences last fs).2 = imap (λ i f, set_sequence (seq64 (last + 1 + Z.of_nat i)) f) fs.
Proof.
  revert last. induction fs as [|f fs IH]; intros last; [done|]. cbn [assignSequences].
  destruct (assignSequences (seq64 (last + 1)) fs) as [l rest] eqn:E. specialize (IH (seq64 (last + 1))). rewrite E in IH. cbn [snd] in *.
  rewrite imap_cons, Z.add_0_r. f_equal. rewrite IH. apply imap_ext. intros i g _. cbn.
  rewrite <- Z.add_assoc, seq64_add. do 2 f_equal. lia.
Qed.

Lemma assignSequences_length last fs : length (assignSequences last fs).2 = length fs.
Proof. by rewrite assignSequences_spec, length_imap. Qed.

(** Sequenced fragments of one packet are the fragments of one message. *)
Lemma sequenced_message {C : NetCodec} {L : LpCodec} nMax p b mtu last :
  2 ≤ len (fragmentsOf p b mtu) ≤ nMax →
  isMessage nMax (seq64 (last + 1)) (assignSequences last (fragmentsOf p b mtu)).2.
Proof.
  intros Hn i f. rewrite assignSequences_spec, list_lookup_imap. intros (g & Hg & ->)%fmap_Some.
  pose proof (lookup_lt_Some _ _ _ Hg) as Hi. destruct (fragmentsOf_lookup p b mtu i g Hg) as (c & q & Eg & _).
  exists (seq64 (last + 1 + Z.of_nat i)). rewrite length_imap. subst g. split; [|rewrite seq64_sub; f_equal; lia].
  unfold classify, mkFragment. lp_simpl. cbn [has get]. set (n := len (fragmentsOf p b mtu)) in *.
  destruct (Z.leb_spec n (Z.of_nat i)); [lia|]. destruct (Z.ltb_spec nMax n); [lia|].
  destruct (Z.eqb_spec n 1); [lia|]. by rewrite andb_false_r.
Qed.

Lemma fragmentPayloads_fmap fs : (∀ f, f ∈ fs → ∃ b, lp_fragment f = Present b) → fragmentPayloads fs = Some (payload <$> fs).
Proof.
  induction fs as [|f fs IH]; intros H; [done|]. unfold fragmentPayloads in *. cbn [mapM]. destruct (H f ltac:(constructor)) as [b Hb].
  rewrite Hb, IH by (intros g Hg; apply H; by constructor). cbn. unfold payload. by rewrite Hb.
Qed.

Lemma sequenced_reassemble {C : NetCodec} {L : LpCodec} {LL : LpCodecLaws L} p b mtu last :
  MAX_FRAG_OVERHEAD + otherSize p < mtu → isBlock b = true →
  reassemble (assignSequences last (fragmentsOf p b mtu)).2 = Some b.
Proof.
  intros Hm Hb. rewrite assignSequences_spec. unfold reassemble. rewrite fragmentPayloads_fmap; cbn [mbind option_bind].
  - rewrite fmap_imap. rewrite (imap_ext _ (λ _, payload)) by done.
    assert (imap (λ _ : nat, payload) (fragmentsOf p b mtu) = payload <$> fragmentsOf p b mtu) as ->.
    { generalize (fragmentsOf p b mtu). intros l. induction l; [done|]. cbn. by f_equal. }
    rewrite fragmentsOf_payload by done. by rewrite Hb.
  - intros f (i & g & -> & Hg)%elem_of_lookup_imap. destruct (fragmentsOf_lookup p b mtu i g Hg) as (c & q & -> & _). by exists c.
Qed.
End Sequences.

(** ** Receiving without reliability *)

Section Receiving.
Context {C : NetCodec} {L : LpCodec} {LM : LinkMath} {SC : Scheduler} {SL : SchedulerLaws SC}.
Implicit Types (s : LinkState) (p : LpPacket) (w : LpWire).

(** What is delivered for a network-layer packet with the headers of [p]. *)
Definition verdictOutputs (v : option Verdict) (out : Tags → LinkOutput) : list LinkOutput :=
  match v with Some (Deliver t) => [out t] | _ => [] end.

Definition netOutputs (o : Options) (b : list Z) p (ep : Z) : list LinkOutput :=
  if blockType b =? TLV_Interest then
    match interestOf b with
    | None => []
    | Some i =>
        if has (lh_nack (lp_headers p)) then
          match get (lh_nack (lp_headers p)) with
          | Some reason => verdictOutputs (nackTags p) (λ t, OutNack i reason t ep)
          | None => []
          end
        else verdictOutputs (interestTags o p) (λ t, OutInterest i t ep)
    end
  else if blockType b =? TLV_Data then
    match dataOf b with
    | None => []
    | Some d => verdictOutputs (dataTags o p) (λ t, OutData d t ep)
    end
  else [].

(** Only counters and the output change. *)
Record sameLink s s' : Prop := {
  sl_options : ls_options s' = ls_options s;
  sl_reassembler : ls_reassembler s' = ls_reassembler s;
  sl_rel : ls_rel s' = ls_rel s;
  sl_lastSeqNo : ls_lastSeqNo s' = ls_lastSeqNo s;
  sl_mtu : ls_mtu s' = ls_mtu s;
  sl_queue : ls_sendQueueLength s' = ls_sendQueueLength s;
  sl_now : ls_now s' = ls_now s;
}.

Lemma sameLink_refl s : sameLink s s.
Proof. done. Qed.

Lemma sameLink_trans s1 s2 s3 : sameLink s1 s2 → sameLink s2 s3 → sameLink s1 s3.
Proof. intros [] []. split; congruence. Qed.

Lemma count_spec c s : wp (count c) (λ _ s', sameLink s s' ∧ ls_output s' = ls_output s ∧ ls_counters s' c = ls_counters s c + 1 ∧
  ∀ c', c' ≠ c → ls_counters s' c' = ls_counters s c') s.
Proof.
  unfold count. wp_step. cbn. split; [done|]. split; [done|]. rewrite decide_True by done. split; [done|].
  intros c' Hc. by rewrite decide_False.
Qed.

Lemma emit_spec x s : wp (emit x) (λ _ s', sameLink s s' ∧ ls_output s' = ls_output s ++ [x]) s.
Proof. by unfold emit. Qed.

Lemma countEmit_spec c x s : wp (count c;; emit x) (λ _ s', sameLink s s' ∧ ls_output s' = ls_output s ++ [x]) s.
Proof.
  wp_step. eapply wp_mono; [apply count_spec|]. intros [] s1 (H1 & H2 & _). eapply wp_mono; [apply emit_spec|]. intros [] s2 (H3 & H4).
  split; [by eapply sameLink_trans|]. by rewrite H4, H2.
Qed.

Lemma conclude_spec v c (out : Tags → LinkOutput) s :
  wp (conclude v (λ t, count c;; emit (out t))) (λ _ s', sameLink s s' ∧ ls_output s' = ls_output s ++ verdictOutputs v out) s.
Proof.
  assert (wp (count nInNetInvalid) (λ _ s', sameLink s s' ∧ ls_output s' = ls_output s ++ []) s) as Hinv.
  { eapply wp_mono; [apply count_spec|]. intros [] s1 (H1 & H2 & _). by rewrite app_nil_r. }
  unfold conclude, verdictOutputs. destruct v as [[t| |]|]; [apply countEmit_spec|wp_step; by rewrite app_nil_r|done..].
Qed.

Lemma decodeNetPacket_spec b p ep s :
  wp (decodeNetPacket b p ep) (λ _ s', sameLink s s' ∧ ls_output s' = ls_output s ++ netOutputs (ls_options s) b p ep) s.
Proof.
  assert (wp (count nInNetInvalid) (λ _ s', sameLink s s' ∧ ls_output s' = ls_output s ++ []) s) as Hinv.
  { eapply wp_mono; [apply count_spec|]. intros [] s1 (H1 & H2 & _). by rewrite app_nil_r. }
  unfold decodeNetPacket, netOutputs. destruct (blockType b =? TLV_Interest) eqn:Ei.
  - destruct (has (lh_nack (lp_headers p))) eqn:En.
    + unfold decodeNack. rewrite Ei, En. do 2 (wp_step; wp_step; [done|]). destruct (interestOf b) as [i|]; [|done].
      destruct (get (lh_nack (lp_headers p))); [|done]. apply conclude_spec.
    + unfold decodeInterest. rewrite Ei, En. do 2 (wp_step; wp_step; [done|]). do 2 wp_step. destruct (interestOf b) as [i|]; [|done]. apply conclude_spec.
  - destruct (blockType b =? TLV_Data) eqn:Ed; [|done]. unfold decodeData. rewrite Ed. wp_step; wp_step; [done|]. do 2 wp_step.
    destruct (dataOf b); [|done]. apply conclude_spec.
Qed.

(** The outputs for what the reassembler answers. *)
Definition receivedOutputs (o : Options) (r : Received) (ep : Z) : list LinkOutput :=
  match r with RaTrue b p => netOutputs o b p ep | _ => [] end.

(** The effect of a link-layer packet on the partial packets, and what is delivered. *)
Definition specReceiveLp (o : Options) (nMax : Z) p (ep : Z) (A : Slots) : Slots * list LinkOutput :=
  if negb (has (lp_fragment p)) then (A, [])
  else if (has (lp_fragIndex p) || has (lp_fragCount p)) && negb (op_allowReassembly o) then (A, [])
  else let '(A', r) := specReceive nMax ep p A in (A', receivedOutputs o r ep).

(** The state of the receiving side that matters. *)
Record receives s s' (A : Slots) (out : list LinkOutput) : Prop := {
  rc_inv : ReassemblerInv (ls_reassembler s');
  rc_max : ra_nMaxFragments (ls_reassembler s') = ra_nMaxFragments (ls_reassembler s);
  rc_slots : slotsOf (ls_reassembler s') = A;
  rc_output : ls_output s' = ls_output s ++ out;
  rc_options : ls_options s' = ls_options s;
  rc_rel : ls_rel s' = ls_rel s;
  rc_mtu : ls_mtu s' = ls_mtu s;
}.

Lemma receiveLpPacket_spec p ep s :
  ReassemblerInv (ls_reassembler s) → (has (lp_fragment p) = true → receivedOk p) →
  let '(A, out) := specReceiveLp (ls_options s) (ra_nMaxFragments (ls_reassembler s)) p ep (slotsOf (ls_reassembler s)) in
  wp (receiveLpPacket p ep) (λ _ s', receives s s' A out) s.
Proof.
  intros HI Hok. unfold specReceiveLp, receiveLpPacket. destruct (has (lp_fragment p)) eqn:Ef; cbn [negb].
  2: { do 2 wp_step. wp_step. split; try done. by rewrite app_nil_r. }
  destruct ((has (lp_fragIndex p) || has (lp_fragCount p)) && negb (op_allowReassembly (ls_options s))) eqn:Ea.
  { do 2 wp_step. rewrite Ea. wp_step. split; try done. by rewrite app_nil_r. }
  destruct (specReceive (ra_nMaxFragments (ls_reassembler s)) ep p (slotsOf (ls_reassembler s))) as [A r] eqn:Es.
  do 2 wp_step. rewrite Ea. wp_step. apply wp_lift. eapply wp_mono; [by apply receiveFragment_refines; auto|]. intros r' ra (H1 & H2 & H3).
  rewrite Es in H3. injection H3 as H3 ->. set (s1 := set_reassembler ra s). destruct r as [| |b q]; cbn [receivedOutputs].
  - eapply wp_mono; [apply count_spec|]. intros [] s2 ([] & E & _). split; cbn in *; try congruence. by rewrite app_nil_r.
  - wp_step. split; try done. by rewrite app_nil_r.
  - eapply wp_mono; [apply decodeNetPacket_spec|]. intros [] s2 ([] & E). split; cbn in *; congruence.
Qed.

(** ** Sending without reliability and congestion marks *)

Lemma sendLpPacket_plain p s :
  op_relEnabled (ls_options s) = false → op_allowCongestionMarking (ls_options s) = false →
  0 ≤ getEffectiveMtu s < 2 ^ 63 → ls_mtu s < 2 ^ 63 → wireSize (lpEncode p) ≤ getEffectiveMtu s →
  wp (sendLpPacket p) (λ _ s', sameLink s s' ∧ ls_output s' = ls_output s ++ [OutPacket (lpEncode p)] ∧ ls_counters s' = ls_counters s) s.
Proof.
  intros Hr Hc Hm Hm2 Hs. unfold sendLpPacket, sendPacket. unfold getEffectiveMtu in *. set (m := Z.min _ _) in *.
  do 2 wp_step. rewrite Hr, Hc. do 4 wp_step. fold m.
  rewrite (Z.mod_small m) by lia. destruct (Z.ltb_spec m (wireSize (lpEncode p))); [lia|]. rewrite andb_false_r. do 2 wp_step.
  wp_step. wp_step; [|done]. apply orb_true_iff. right. apply Z.leb_le. rewrite Z.mod_small; lia.
Qed.

(** All fragments go out, in order. *)
Lemma sendLpPackets_plain ps s :
  op_relEnabled (ls_options s) = false → op_allowCongestionMarking (ls_options s) = false →
  0 ≤ getEffectiveMtu s < 2 ^ 63 → ls_mtu s < 2 ^ 63 → (∀ p, p ∈ ps → wireSize (lpEncode p) ≤ getEffectiveMtu s) →
  wp (forM ps sendLpPacket) (λ _ s', sameLink s s' ∧ ls_output s' = ls_output s ++ ((λ p, OutPacket (lpEncode p)) <$> ps) ∧
    ls_counters s' = ls_counters s) s.
Proof.
  revert s. induction ps as [|p ps IH]; intros s Hr Hc Hm Hm2 Hs; cbn [forM fmap list_fmap].
  { wp_step. by rewrite app_nil_r. }
  wp_step. eapply wp_mono; [apply sendLpPacket_plain; auto; apply Hs; by constructor|]. intros [] s1 (H1 & H2 & H3).
  assert (getEffectiveMtu s1 = getEffectiveMtu s) as Em by (unfold getEffectiveMtu; destruct H1; congruence).
  eapply wp_mono; [apply IH; rewrite ?Em; try (destruct H1; congruence); intros q Hq; apply Hs; by constructor|].
  intros [] s2 (H4 & H5 & H6). split; [by eapply sameLink_trans|]. split; [|congruence]. by rewrite H5, H2, <- (assoc_L (++)).
Qed.

(** The link-layer packets made of [p], or [None] when it cannot be fragmented. *)
Definition planned (nMax last mtu : Z) p (b : list Z) : option (list LpPacket) :=
  if decide (MAX_SINGLE_FRAG_OVERHEAD + wireSize (lpEncode p) ≤ mtu) then Some [p]
  else if decide (mtu ≤ MAX_FRAG_OVERHEAD + otherSize p) then None
  else if decide (nMax < len (fragmentsOf p b mtu)) then None
  else Some (assignSequences last (fragmentsOf p b mtu)).2.

(** A packet with a network-layer packet and no fragmentation fields. *)
Record whole p (b : list Z) : Prop := {
  wh_fragment : lp_fragment p = Present b;
  wh_nonempty : b ≠ [];
  wh_index : has (lp_fragIndex p) = false;
  wh_count : has (lp_fragCount p) = false;
}.

Record plainSender s : Prop := {
  ps_rel : op_relEnabled (ls_options s) = false;
  ps_mark : op_allowCongestionMarking (ls_options s) = false;
  ps_fragment : op_allowFragmentation (ls_options s) = true;
  ps_mtu : 0 ≤ getEffectiveMtu s < 2 ^ 63;
  ps_transport : ls_mtu s < 2 ^ 63;
}.

Lemma planned_size {LL : LpCodecLaws L} nMax last mtu p b ps q : whole p b → planned nMax last mtu p b = Some ps → q ∈ ps → wireSize (lpEncode q) ≤ mtu.
Proof.
  intros [Hb Hne Hi Hc] Hp Hq. unfold planned in Hp. repeat case_decide; simplify_eq.
  - apply list_elem_of_singleton in Hq as ->. unfold MAX_SINGLE_FRAG_OVERHEAD in *. lia.
  - rewrite assignSequences_spec in Hq. apply elem_of_lookup_imap in Hq as (i & f & -> & Hf). apply list_elem_of_lookup_2 in Hf.
    eapply fragmentsOf_size; eauto. lia.
Qed.

(** Making the fragments, before they get sequence numbers. *)
Lemma makeFragments_spec {LL : LpCodecLaws L} o mtu p b s :
  op_allowFragmentation o = true → mtu ≠ MTU_UNLIMITED → whole p b →
  wp (makeFragments o mtu p) (λ made s', match planned (op_fragmenterMax o) (ls_lastSeqNo s) mtu p b with
    | Some ps => s' = s ∧ ∃ f fs, made = Some (f :: fs) ∧
        (fs = [] ∧ f = p ∧ ps = [p] ∨ (1 < length (f :: fs))%nat ∧ (assignSequences (ls_lastSeqNo s) (f :: fs)).2 = ps)
    | None => made = None ∧ sameLink s s' ∧ ls_output s' = ls_output s ∧
        ls_counters s' nFragmentationErrors = ls_counters s nFragmentationErrors + 1
    end) s.
Proof.
  intros Hf Hm [Hb Hne Hi Hc]. unfold makeFragments. rewrite Hf. apply Z.eqb_neq in Hm as ->. cbn [andb negb].
  assert (wp (count nFragmentationErrors;; mret None) (λ (made : option (list LpPacket)) s', made = None ∧ sameLink s s' ∧
    ls_output s' = ls_output s ∧ ls_counters s' nFragmentationErrors = ls_counters s nFragmentationErrors + 1) s) as Hdrop.
  { wp_step. eapply wp_mono; [apply count_spec|]. intros [] s1 (H1 & H2 & H3 & _). by wp_step. }
  unfold planned. wp_step. destruct (decide (MAX_SINGLE_FRAG_OVERHEAD + wireSize (lpEncode p) ≤ mtu)) as [Hfast|Hslow].
  { rewrite (fragmentPacket_fast _ p b mtu) by done. wp_step; [done|]. cbn beta iota. wp_step. eauto 9. }
  destruct (decide (mtu ≤ MAX_FRAG_OVERHEAD + otherSize p)) as [Hsmall|Hbig].
  { rewrite (fragmentPacket_small _ p b mtu) by (auto; lia). wp_step; [done|]. done. }
  rewrite (fragmentPacket_slow _ p b mtu) by (auto; lia). assert (2 ≤ len (fragmentsOf p b mtu)) as Hmany by (apply fragmentsOf_many; auto; lia).
  destruct (Z.ltb_spec (op_fragmenterMax o) (len (fragmentsOf p b mtu))); [rewrite decide_True by done; wp_step; [done|]; done|rewrite decide_False by lia].
  wp_step; [done|]. cbn beta iota. wp_step. split; [done|]. unfold fragmentsOf at 1. do 2 eexists. split; [reflexivity|]. right. fold (fragmentsOf p b mtu). split; [lia|done].
Qed.

Lemma sendNetPacket_plain {LL : LpCodecLaws L} p b isI s : plainSender s → whole p b →
  wp (sendNetPacket p isI) (λ _ s', ls_options s' = ls_options s ∧
    match planned (op_fragmenterMax (ls_options s)) (ls_lastSeqNo s) (getEffectiveMtu s) p b with
    | Some ps => ls_output s' = ls_output s ++ ((λ q, OutPacket (lpEncode q)) <$> ps) ∧ ls_counters s' = ls_counters s
    | None => ls_output s' = ls_output s ∧ ls_counters s' nFragmentationErrors = ls_counters s nFragmentationErrors + 1
    end) s.
Proof.
  intros [Hr Hk Hf Hm Hm2] Hw. pose proof Hw as [Hb Hne Hi Hc]. set (m := getEffectiveMtu s) in *.
  pose proof (planned_size (op_fragmenterMax (ls_options s)) (ls_lastSeqNo s) m p b) as Hsize.
  unfold sendNetPacket. do 2 wp_step. fold m. unfold fragmentMtu. rewrite Hr, Hk. cbn [andb orb]. wp_step. wp_step; [apply orb_true_iff; right; apply Z.leb_le; lia|].
  wp_step. eapply wp_mono; [apply makeFragments_spec; [done|unfold MTU_UNLIMITED; lia|done]|]. intros made s1.
  destruct (planned _ _ _ _ _) as [ps|] eqn:Ep.
  2: { intros (-> & H1 & H2 & H3). wp_step. split; [by destruct H1|done]. }
  intros (-> & f & fs & -> & [(-> & -> & ->)|[Hl Ha]]); wp_step; (wp_step; [done|]).
  - rewrite Hi, Hc. do 2 (wp_step; wp_step; [done|]). wp_step. change (1 <? length [p])%nat with false. cbn iota. do 3 wp_step.
    eapply wp_mono; [apply sendLpPackets_plain; auto; intros q Hq; by eapply Hsize|]. intros [] s' (H1 & H2 & H3). split; [by destruct H1|done].
  - destruct (Nat.eqb_spec (length (f :: fs)) 1); [lia|]. do 2 (wp_step; wp_step; [done|]). wp_step. destruct (Nat.ltb_spec 1 (length (f :: fs))); [|lia].
    destruct (assignSequences (ls_lastSeqNo s) (f :: fs)) as [last sent]. cbn [snd] in Ha. subst sent. repeat wp_step.
    eapply wp_mono; [apply (sendLpPackets_plain ps); auto; intros q Hq; by eapply Hsize|]. intros [] s' (H1 & H2 & H3). split; [by destruct H1|done].
Qed.
End Receiving.

(** ** From one link service to another *)

Section Delivery.
Context {C : NetCodec} {CL : NetCodecLaws C} {L : LpCodec} {LL : LpCodecLaws L} {LM : LinkMath} {SC : Scheduler} {SL : SchedulerLaws SC}.
Implicit Types (s : LinkState) (p : LpPacket) (w : LpWire).

(** A network-layer packet to send. *)
Inductive NetPacket := PInterest (i : NetInterest) | PData (d : NetData) | PNack (i : NetInterest) (reason : NackReason).

Definition sendNet (n : NetPacket) (t : Tags) : M LinkState unit :=
  match n with
  | PInterest i => sendInterest i t
  | PData d => sendData d t
  | PNack i reason => sendNack i reason t
  end.

Definition netWire (n : NetPacket) : list Z :=
  match n with PInterest i | PNack i _ => interestWire i | PData d => dataWire d end.

(** The link-layer packet made of it. *)
Definition netPacketLp (o : Options) (n : NetPacket) (t : Tags) : LpPacket :=
  encodeLpFields o t (match n with
    | PNack i reason => set_headers (nackHeaders reason) (netLp (interestWire i))
    | _ => netLp (netWire n)
    end).

(** The tags with which the peer with options [o'] delivers it.  These are not all the
    tags that were sent: [encodeLpFields] puts the PIT token and the hop count on every
    packet, but [decodeData] reads no PIT token, and [decodeNack] neither of them; the
    tags for self-learning pass when both ends allow them, and the GeoTag is that of the
    sender.  The hop count of an Interest or Data is increased. *)
Definition deliveredTags (o o' : Options) (n : NetPacket) (t : Tags) : Tags :=
  let both := op_allowSelfLearning o && op_allowSelfLearning o' in
  let hopCount := Some (seq64 (default 0 (tag_hopCount t) + 1)) in
  let geoTag := match op_enableGeoTags o' with Some _ => op_enableGeoTags o ≫= id | None => None end in
  match n with
  | PInterest _ => mkTags None None None (tag_congestionMark t) (if both then tag_nonDiscovery t else None) None (tag_pitToken t) hopCount geoTag
  | PData _ => mkTags None None None (tag_congestionMark t) None (if both then tag_prefixAnnouncement t else None) None hopCount geoTag
  | PNack _ _ => mkTags None None None (tag_congestionMark t) None None None None None
  end.

(** A tag for self-learning that the kind of the packet must not have: [decodeInterest]
    and its siblings drop such a packet. *)
Definition misplaced (o : Options) (n : NetPacket) (t : Tags) : bool :=
  op_allowSelfLearning o &&
  match n with
  | PInterest _ => bool_decide (is_Some (tag_prefixAnnouncement t))
  | PData _ => bool_decide (is_Some (tag_nonDiscovery t))
  | PNack _ _ => bool_decide (is_Some (tag_prefixAnnouncement t)) || bool_decide (is_Some (tag_nonDiscovery t))
  end.

Definition delivered (o o' : Options) (n : NetPacket) (t : Tags) (ep : Z) : list LinkOutput :=
  if misplaced o n t then []
  else [match n with
        | PInterest i => OutInterest i (deliveredTags o o' n t) ep
        | PData d => OutData d (deliveredTags o o' n t) ep
        | PNack i reason => OutNack i reason (deliveredTags o o' n t) ep
        end].

Lemma sendNet_eq n t s : ∃ c, c ≠ nFragmentationErrors ∧ sendNet n t s = (count c;; sendNetPacket (netPacketLp (ls_options s) n t) (if n is PInterest _ then true else false)) s.
Proof. destruct n; eexists; (split; [|reflexivity]); done. Qed.

Lemma netWire_block n : isBlock (netWire n) = true ∧ netWire n ≠ [].
Proof.
  assert (isBlock (netWire n) = true) as H by (destruct n; cbn; (apply interest_block || apply data_block)).
  split; [done|]. intros E. by rewrite E, block_nonempty in H.
Qed.

Lemma netPacketLp_whole o n t : whole (netPacketLp o n t) (netWire n).
Proof. destruct n, (tag_congestionMark t) eqn:E; split; try apply netWire_block; unfold netPacketLp, encodeLpFields; rewrite E; done. Qed.

Lemma field_wf {V} (o : option V) : field o ≠ Malformed.
Proof. by destruct o. Qed.

Lemma netPacketLp_wf o n t : lpWf (netPacketLp o n t).
Proof.
  pose proof (netWire_block n) as [_ Hne]. assert (lp_fragment (netPacketLp o n t) = Present (netWire n)) as Hf by apply netPacketLp_whole.
  split; try (rewrite Hf; split; congruence); unfold netPacketLp, encodeLpFields;
    destruct n, (tag_congestionMark t), (op_allowLocalFields o), (op_allowSelfLearning o), (op_enableGeoTags o); cbn;
    first [done | apply field_wf | by intros ? ?%elem_of_nil].
Qed.

(** The headers that come out of the peer's decoder. *)
Lemma netOutputs_delivered o o' n t ep q :
  lp_headers q = lp_headers (netPacketLp o n t) → lp_congestionMark q = lp_congestionMark (netPacketLp o n t) →
  netOutputs o' (netWire n) q ep = delivered o o' n t ep.
Proof.
  intros Hh Hc. unfold netOutputs, delivered, misplaced, interestTags, dataTags, nackTags. rewrite Hh, Hc.
  destruct n as [i|d|i reason]; cbn [netWire].
  - destruct (interest_block i) as [_ ->]. rewrite Z.eqb_refl, interest_roundtrip. cbn.
    destruct (tag_congestionMark t), (op_allowLocalFields o), (op_allowSelfLearning o), (op_allowSelfLearning o'), (op_enableGeoTags o) as [[]|],
      (op_enableGeoTags o'), (tag_prefixAnnouncement t), (tag_nonDiscovery t), (tag_pitToken t), (tag_incomingFaceId t); done.
  - destruct (data_block d) as [_ ->]. rewrite data_roundtrip. cbn.
    destruct (tag_congestionMark t), (op_allowLocalFields o), (op_allowSelfLearning o), (op_allowSelfLearning o'), (op_enableGeoTags o) as [[]|],
      (op_enableGeoTags o'), (tag_prefixAnnouncement t), (tag_nonDiscovery t), (tag_incomingFaceId t); done.
  - destruct (interest_block i) as [_ ->]. rewrite Z.eqb_refl, interest_roundtrip. cbn.
    destruct (tag_congestionMark t), (op_allowSelfLearning o), (tag_prefixAnnouncement t), (tag_nonDiscovery t); done.
Qed.

(** Packets arriving at a link service: time, endpoint and link-layer packet. *)
Definition set_now (now : Z) s : LinkState :=
  mkLink (ls_options s) (ls_reassembler s) (ls_rel s) (ls_lastSeqNo s) (ls_nextMarkTime s) (ls_nMarked s)
    (ls_counters s) (ls_mtu s) (ls_sendQueueLength s) now (ls_output s).

Definition arrive (a : Z * Z * LpWire) : M LinkState unit :=
  let '(now, ep, w) := a in modify (set_now now);; doReceivePacket w ep.

(** The packet a block decodes to, if it goes to the reassembler. *)
Definition reaches (o : Options) w : option LpPacket :=
  p ← lpDecode w;
  if has (lp_fragment p) && negb ((has (lp_fragIndex p) || has (lp_fragCount p)) && negb (op_allowReassembly o)) then Some p else None.

(** A block whose numbers and payload are in range. *)
Definition wireOk w : Prop := ∀ p, lpDecode w = Some p → has (lp_fragment p) = true → receivedOk p.

Lemma arrive_spec a s :
  op_relEnabled (ls_options s) = false → ReassemblerInv (ls_reassembler s) → wireOk a.2 →
  wp (arrive a) (λ _ s', match reaches (ls_options s) a.2 with
    | None => receives s s' (slotsOf (ls_reassembler s)) []
    | Some p => let '(A, r) := specReceive (ra_nMaxFragments (ls_reassembler s)) a.1.2 p (slotsOf (ls_reassembler s)) in
        receives s s' A (receivedOutputs (ls_options s) r a.1.2)
    end) s.
Proof.
  destruct a as [[now ep] w]. intros Hr HI Hok. unfold arrive, doReceivePacket, reaches. cbn [fst snd]. do 2 wp_step.
  set (s1 := set_now now s). specialize (Hok : wireOk w). destruct (lpDecode w) as [p|] eqn:Ed; cbn [mbind option_bind].
  2: { eapply wp_mono; [apply count_spec|]. intros [] s2 ([] & E & _). split; cbn in *; try congruence. by rewrite app_nil_r. }
  do 2 wp_step. change (ls_options s1) with (ls_options s). rewrite Hr.
  pose proof (receiveLpPacket_spec p ep s1 HI (Hok p Ed)) as H. unfold specReceiveLp in H. change (ls_options s1) with (ls_options s) in H.
  change (ls_reassembler s1) with (ls_reassembler s) in H. destruct (has (lp_fragment p)); cbn [negb andb] in *; [|eapply wp_mono; [exact H|]; by intros [] s2 []].
  destruct ((has (lp_fragIndex p) || has (lp_fragCount p)) && negb (op_allowReassembly (ls_options s))); cbn [negb]; [eapply wp_mono; [exact H|]; by intros [] s2 []|].
  destruct (specReceive _ _ _ _) as [A r]. eapply wp_mono; [exact H|]. by intros [] s2 [].
Qed.

(** The link-layer packets [ps] of one packet arrive, in any order and among others. *)
Definition fromPacket (ep : Z) (ps : list LpPacket) (a : Z * Z * LpWire) : Prop :=
  a.1.2 = ep ∧ ∃ p, p ∈ ps ∧ a.2 = lpEncode p.

(** A block that does not concern message [key]. *)
Definition unrelated (o : Options) (nMax : Z) (key : Key) (a : Z * Z * LpWire) : Prop :=
  ∀ p, reaches o a.2 = Some p → affects nMax a.1.2 p ≠ Some key.

(** The outputs of each arrival. *)
Fixpoint arriveAll (l : list (Z * Z * LpWire)) : M LinkState (list (list LinkOutput)) :=
  match l with
  | [] => mret []
  | a :: l' =>
      s ← get_st;
      arrive a;;
      s' ← get_st;
      outs ← arriveAll l';
      mret (drop (length (ls_output s)) (ls_output s') :: outs)
  end.

(** A link service that is collecting message [fs] and has got [seen] of it. *)
Record collecting (ep m : Z) (fs seen : list LpPacket) s : Prop := {
  co_rel : op_relEnabled (ls_options s) = false;
  co_inv : ReassemblerInv (ls_reassembler s);
  co_message : isMessage (ra_nMaxFragments (ls_reassembler s)) m fs;
  co_slots : slotsOf (ls_reassembler s) !! (ep, m) = entryOf fs seen;
  co_reaches : ∀ p, p ∈ fs → reaches (ls_options s) (lpEncode p) = Some p;
}.

Lemma collecting_next ep m fs seen seen' s s' A out :
  collecting ep m fs seen s → receives s s' A out → A !! (ep, m) = entryOf fs seen' → collecting ep m fs seen' s'.
Proof. intros [H1 H2 H3 H4 H5] [R1 R2 R3 R4 R5 _ _] HA. split; [by rewrite R5|done|by rewrite R2|by rewrite R3|by rewrite R5]. Qed.

(** An arrival that leaves the message incomplete. *)
Lemma arrive_collect a ep m fs seen s :
  collecting ep m fs seen s → wireOk a.2 →
  (∃ p, p ∈ fs ∧ a.1.2 = ep ∧ a.2 = lpEncode p ∧ ¬ fs ⊆ p :: seen) ∨ unrelated (ls_options s) (ra_nMaxFragments (ls_reassembler s)) (ep, m) a →
  wp (arrive a) (λ _ s', ∃ A out seen', receives s s' A out ∧ collecting ep m fs seen' s' ∧
    (∀ f, f ∈ seen' ↔ f ∈ seen ∨ f ∈ fs ∧ a.1.2 = ep ∧ a.2 = lpEncode f) ∧ (fromPacket ep fs a → out = [])) s.
Proof.
  intros Hco Hok Hcase. pose proof Hco as [Hr HI Hm HA Hreach]. eapply wp_mono; [by apply arrive_spec|]. intros [] s1 Hs1.
  set (nMax := ra_nMaxFragments (ls_reassembler s)) in *. destruct Hcase as [(p & Hp & Hep & Ha & Hall)|Hun].
  - rewrite Ha, Hreach in Hs1 by done. destruct (specReceive nMax a.1.2 p (slotsOf (ls_reassembler s))) as [A r] eqn:Es.
    destruct (specReceive_collect nMax ep m fs seen a.1.2 p (slotsOf (ls_reassembler s)) A r) as (seen1 & H1 & H2 & H3); auto.
    exists A, (receivedOutputs (ls_options s) r a.1.2), seen1. split; [done|]. split; [by eapply collecting_next|]. split; [|by rewrite H3].
    intros f. rewrite H2. split; (intros [?|(Hf1 & Hf2 & Hf3)]; [by left|right]); [by subst f|]. split; [done|]. split; [done|].
    apply Hreach in Hf1. rewrite <- Hf3, Ha, Hreach in Hf1 by done. by injection Hf1.
  - assert (∀ f, ¬ (f ∈ fs ∧ a.1.2 = ep ∧ a.2 = lpEncode f)) as Hno.
    { intros f (Hf & Hep & Ha). apply (Hun f); [by rewrite Ha, Hreach|]. rewrite Hep. by eapply message_affects. }
    assert (∃ A out, receives s s1 A out ∧ A !! (ep, m) = entryOf fs seen) as (A & out & Hrc & HA1).
    { destruct (reaches (ls_options s) a.2) as [p|] eqn:Ere; [|eauto]. destruct (specReceive nMax a.1.2 p (slotsOf (ls_reassembler s))) as [A r] eqn:Es.
      do 2 eexists. split; [done|]. rewrite <- HA. replace A with (specReceive nMax a.1.2 p (slotsOf (ls_reassembler s))).1 by (by rewrite Es).
      apply specReceive_other. by apply Hun. }
    exists A, out, seen. split; [done|]. split; [by eapply collecting_next|]. split; [naive_solver|]. intros (Hep & p & Hp & Ha). by destruct (Hno p).
Qed.

Lemma arriveAll_cons a l s (Q : list (list LinkOutput) → LinkState → Prop) :
  wp (arrive a) (λ _ s', ∃ out, ls_output s' = ls_output s ++ out ∧ wp (arriveAll l) (λ outs, Q (out :: outs)) s') s →
  wp (arriveAll (a :: l)) Q s.
Proof.
  intros H. cbn [arriveAll]. do 3 wp_step. eapply wp_mono; [exact H|]. intros [] s' (out & Ho & Hq). do 3 wp_step.
  eapply wp_mono; [exact Hq|]. intros outs s2 H2. wp_step. by rewrite Ho, drop_app_length.
Qed.

(** While a packet is incomplete, its fragments deliver nothing. *)
Lemma arriveAll_collect l ep m fs seen s :
  collecting ep m fs seen s →
  (∀ a, a ∈ l → wireOk a.2 ∧ (fromPacket ep fs a ∨ unrelated (ls_options s) (ra_nMaxFragments (ls_reassembler s)) (ep, m) a)) →
  (∃ p, p ∈ fs ∧ (p ∉ seen) ∧ ∀ a, a ∈ l → a.1.2 = ep → a.2 ≠ lpEncode p) →
  wp (arriveAll l) (λ outs s', ls_output s' = ls_output s ++ concat outs ∧ ls_options s' = ls_options s ∧
    (∀ i a, l !! i = Some a → fromPacket ep fs a → outs !! i = Some []) ∧
    ∃ seen', collecting ep m fs seen' s' ∧ ∀ f, f ∈ seen' ↔ f ∈ seen ∨ f ∈ fs ∧ ∃ a, a ∈ l ∧ a.1.2 = ep ∧ a.2 = lpEncode f) s.
Proof.
  revert seen s. induction l as [|a l IH]; intros seen s Hco Hl (p0 & Hp0 & Hs0 & Hmiss).
  { cbn [arriveAll]. wp_step. split; [by rewrite app_nil_r|]. split; [done|]. split; [done|]. exists seen. split; [done|]. intros f. split; [by left|].
    intros [?|(_ & a & Ha & _)]; [done|by apply elem_of_nil in Ha]. }
  destruct (Hl a ltac:(constructor)) as [Hok Hcase]. apply arriveAll_cons. eapply wp_mono; [apply (arrive_collect a ep m fs seen); [done..|]|].
  { destruct Hcase as [(Hep & p & Hp & Ha)|]; [left|by right]. exists p. split_and!; [done..|]. intros Hsub. specialize (Hsub p0 Hp0).
    apply elem_of_cons in Hsub as [->|?]; [|done]. by apply (Hmiss a); [constructor|..]. }
  intros [] s1 (A & out & seen1 & Hrc & Hco1 & Hseen & Hout). pose proof Hrc as [_ Emax _ Eout Eopt]. exists out. split; [done|].
  eapply wp_mono; [apply (IH seen1); [done|..]|].
  - rewrite Eopt, Emax. intros b Hb. apply Hl. by constructor.
  - exists p0. split; [done|]. split; [|intros b Hb; apply Hmiss; by constructor]. rewrite Hseen. intros [?|(_ & Hep & Ha)]; [done|]. by apply (Hmiss a); [constructor|..].
  - intros outs s2 (H1 & H2 & H3 & seen2 & H4 & H5). split; [rewrite H1, Eout, <- (assoc_L (++)); done|]. split; [congruence|]. split.
    + intros [|i] b; cbn; [intros [= ->] Hb; f_equal; auto|apply H3].
    + exists seen2. split; [done|]. intros f. rewrite H5, Hseen. setoid_rewrite elem_of_cons. split.
      * intros [[?|(Hf & Hep & Ha)]|(Hf & b & Hb & Hr)]; [by left|right; split; [done|]; exists a; auto|right; split; [done|]; exists b; auto].
      * intros [?|(Hf & b & [->|Hb] & Hep & Ha)]; [by left; left|left; right; auto|right; eauto].
Qed.

(** The packets that are sent can be decoded, and are in range. *)
Lemma lpWf_fragment p n i c q : lpWf p → c ≠ [] → lpWf (set_sequence q (mkFragment n i c p)).
Proof. intros [] Hc. split; cbn; try done. split; [done|]. by intros [= ->]. Qed.

Lemma lpWf_empty : lpWf emptyLp.
Proof. split; cbn; try done. by intros f ?%elem_of_nil. Qed.

Lemma planned_ok nMax last mtu p b ps q :
  whole p b → lpWf p → len b ≤ MAX_NDN_PACKET_SIZE → planned nMax last mtu p b = Some ps → q ∈ ps → lpWf q ∧ receivedOk q.
Proof.
  intros Hw Hwf Hlen Hp Hq. pose proof Hw as [Hb Hne Hi Hc]. unfold planned in Hp. repeat case_decide; simplify_eq.
  - apply list_elem_of_singleton in Hq as ->. split; [done|]. unfold receivedOk, payload. rewrite Hb. split_and!; [done..|].
    intros i E. rewrite E in Hi. done.
  - rewrite assignSequences_spec in Hq. apply elem_of_lookup_imap in Hq as (i & f & -> & Hf).
    assert (payload f ≠ []) as Hpf by (apply (fragmentsOf_size p b mtu f); [done..|lia|by eapply list_elem_of_lookup_2]).
    assert (len (payload f) ≤ len b) as Hlf.
    { rewrite <- (fragmentsOf_payload p b mtu) by lia. rewrite <- (take_drop_middle _ _ _ Hf), fmap_app, fmap_cons, concat_app, length_app.
      cbn [concat]. rewrite length_app. lia. }
    apply fragmentsOf_lookup in Hf as (c & r & -> & Hr & _). change (payload _) with c in Hpf, Hlf. split.
    + apply lpWf_fragment; [|done]. destruct i; subst r; [done|apply lpWf_empty].
    + unfold receivedOk. cbn. split_and!; [done|lia|]. intros j [= <-]. lia.
Qed.

Lemma planned_nonempty nMax last mtu p b ps : planned nMax last mtu p b = Some ps → ps ≠ [].
Proof.
  unfold planned. repeat case_decide; intros; simplify_eq; [done|]. rewrite assignSequences_spec. by unfold fragmentsOf.
Qed.

(** A packet that came from [planned] gets to the reassembler of a willing peer. *)
Lemma planned_reaches o nMax last mtu p b ps q :
  whole p b → lpWf p → len b ≤ MAX_NDN_PACKET_SIZE → planned nMax last mtu p b = Some ps → q ∈ ps → op_allowReassembly o = true →
  reaches o (lpEncode q) = Some q ∧ wireOk (lpEncode q).
Proof.
  intros Hw Hwf Hlen Hp Hq Ho. destruct (planned_ok nMax last mtu p b ps q) as [H1 H2]; [done..|]. pose proof H2 as (Hf & _).
  unfold reaches, wireOk. rewrite (lp_decode_encode q H1). cbn [mbind option_bind]. rewrite Hf, Ho, andb_false_r. split; [done|]. by intros p' [= <-].
Qed.

(** Arrivals that are of no interest leave the link service in order. *)
Lemma arriveAll_any l s :
  op_relEnabled (ls_options s) = false → ReassemblerInv (ls_reassembler s) → (∀ a, a ∈ l → wireOk a.2) →
  wp (arriveAll l) (λ outs s', ReassemblerInv (ls_reassembler s') ∧ ls_options s' = ls_options s ∧ length outs = length l ∧
    ra_nMaxFragments (ls_reassembler s') = ra_nMaxFragments (ls_reassembler s)) s.
Proof.
  revert s. induction l as [|a l IH]; intros s Hr HI Hl; [done|]. apply arriveAll_cons.
  eapply wp_mono; [apply arrive_spec; [done..|apply Hl; constructor]|]. intros [] s1 Hs1.
  assert (∃ A out, receives s s1 A out) as (A & out & [H1 H2 H3 H4 H5]).
  { destruct (reaches (ls_options s) a.2) as [p|]; [destruct (specReceive _ _ _ _)|]; eauto. }
  exists out. split; [done|]. eapply wp_mono; [apply IH; [congruence|done|intros b Hb; apply Hl; by constructor]|].
  intros outs s2 (G1 & G2 & G3 & G4). split_and!; [done|congruence|cbn; lia|congruence].
Qed.

Lemma arriveAll_app l1 l2 s (Q : list (list LinkOutput) → LinkState → Prop) :
  wp (arriveAll l1) (λ outs1 s1, wp (arriveAll l2) (λ outs2, Q (outs1 ++ outs2)) s1) s → wp (arriveAll (l1 ++ l2)) Q s.
Proof.
  revert s Q. induction l1 as [|a l1 IH]; intros s Q H; cbn [app]; [exact H|]. cbn [arriveAll] in *.
  apply wp_bind, wp_get_st. apply wp_bind, wp_get_st in H. apply wp_bind. apply wp_bind in H. eapply wp_mono; [exact H|]. clear H. intros [] s1 H.
  apply wp_bind, wp_get_st. apply wp_bind, wp_get_st in H. apply wp_bind. apply wp_bind in H. apply IH. eapply wp_mono; [exact H|]. clear H. intros outs s2 H.
  apply wp_ret in H. eapply wp_mono; [exact H|]. intros outs2 s3 H3. by wp_step.
Qed.
End Delivery.
