(* ===== verification/LinkMtu.v ===== *)
(** * Acknowledgements and the MTU

    [piggyback] fills a packet with acknowledgements up to the MTU.  It reserves room
    for a longer TLV-LENGTH by the size of the whole packet, not of its value, which
    is two octets short for packets of 253 and 254 octets; and the congestion mark is
    added after the packet has been filled. *)

From Stdlib Require Import ZArith Lia.
From stdpp Require Import base gmap option list.
From S2P Require Import Prelude Scheduler Ndn LpPacket LpFragmenter LpReassembler LinkState.
From S2P Require Import LpReliability LinkService LinkSpecs.

Local Open Scope Z_scope.

Section Mtu.
Context {C : NetCodec} {L : LpCodec} {LL : LpCodecLaws L} {LM : LinkMath} {SC : Scheduler}.
Implicit Types (s : LinkState) (p : LpPacket).

(** The size of the value of an LpPacket element. *)
Definition valueSize p : Z := otherSize p + fragmentSize p.

Lemma valueSize_ack k p : valueSize (add_ack k p) = valueSize p + ackSize.
Proof.
  unfold valueSize, otherSize, fragmentSize. lp_simpl. rewrite fmap_app, sumZ_app. cbn [fmap list_fmap]. rewrite sumZ_cons.
  change (fixedSize TLV_Ack (Present k)) with ackSize. change (sumZ []) with 0. lia.
Qed.

Lemma isBare_ack k p : isBare (add_ack k p) = false.
Proof. unfold isBare. lp_simpl. rewrite (bool_decide_true (lp_acks p ++ [Present k] ≠ [])) by (by destruct (lp_acks p)). by rewrite !orb_true_r. Qed.

Lemma wireSize_value p : isBare p = false → wireSize (lpEncode p) = 1 + sizeOfVarNumber (valueSize p) + valueSize p.
Proof. intros E. destruct (lp_wire p E) as (els & _ & _ & ->). done. Qed.

(** The acknowledgements that fit are taken from the front of the queue, as many as
    there is room for. *)
Lemma attachAcks_spec queue space p :
  ∃ taken rest, queue = taken ++ rest ∧
    attachAcks queue space p = (rest, foldl (λ q k, add_ack k q) p taken) ∧
    (taken ≠ [] → len taken * ackSize ≤ space) ∧ (rest ≠ [] → space < (len taken + 1) * ackSize).
Proof.
  revert space p. induction queue as [|k queue IH]; intros space p; cbn [attachAcks]; [by exists [], []|].
  destruct (Z.ltb_spec space ackSize); [exists [], (k :: queue); split_and!; [done..|]; change (len []) with 0; lia|].
  destruct (IH (space - ackSize) (add_ack k p)) as (taken & rest & -> & -> & H1 & H2). exists (k :: taken), rest.
  split; [done|]. split; [done|]. cbn [length]. rewrite Nat2Z.inj_succ. change ackSize with 12 in *. split; [|intros Hr; specialize (H2 Hr); lia].
  intros _. destruct taken as [|k' taken]; [change (len []) with 0; lia|]. specialize (H1 ltac:(done)). lia.
Qed.

Lemma addAcks_value taken p : valueSize (foldl (λ q k, add_ack k q) p taken) = valueSize p + len taken * ackSize ∧
  (isBare p = false → isBare (foldl (λ q k, add_ack k q) p taken) = false) ∧
  lp_acks (foldl (λ q k, add_ack k q) p taken) = lp_acks p ++ (Present <$> taken).
Proof.
  revert p. induction taken as [|k taken IH]; intros p; cbn [foldl fmap list_fmap]; [rewrite app_nil_r; split_and!; [change (len []) with 0; lia|done..]|].
  destruct (IH (add_ack k p)) as (-> & H2 & ->). rewrite valueSize_ack. cbn [length]. rewrite Nat2Z.inj_succ. change ackSize with 12. split_and!; [lia|intros _; apply H2, isBare_ack|].
  lp_simpl. by rewrite <- (assoc_L (++)).
Qed.

(** The value of a packet within the MTU has at most three octets of length. *)
Lemma sizeOfVarNumber_3 n : n ≤ 65535 → sizeOfVarNumber n ≤ 3.
Proof. unfold sizeOfVarNumber. intros. destruct (n <? 253); [lia|]. destruct (Z.leb_spec n 65535); lia. Qed.

(** The room [piggyback] computes. *)
Definition ackSpace p (mtu : Z) : Z :=
  (if mtu =? MTU_UNLIMITED then MAX_NDN_PACKET_SIZE else mtu) -
  (sizeOfVarNumber MAX_NDN_PACKET_SIZE - sizeOfVarNumber (wireSize (lpEncode p))) - wireSize (lpEncode p).

Definition packetLimit (mtu : Z) : Z := if mtu =? MTU_UNLIMITED then MAX_NDN_PACKET_SIZE else mtu.

Lemma piggyback_spec p mtu s :
  op_relEnabled (ls_options s) = true → isBare p = false →
  wp (piggyback p mtu) (λ q s', ∃ taken rest, rel_ackQueue (ls_rel s) = taken ++ rest ∧
    q = foldl (λ q k, add_ack k q) p taken ∧ s' = set_rel (set_ackQueue rest (ls_rel s)) s ∧
    (taken ≠ [] → len taken * ackSize ≤ ackSpace p mtu) ∧ (rest ≠ [] → ackSpace p mtu < (len taken + 1) * ackSize)) s.
Proof.
  intros Hr Hb. unfold piggyback. do 2 wp_step. wp_step. wp_step; [done|]. wp_step. wp_step; [destruct (lp_wire p Hb) as (els & -> & _); by apply bool_decide_true|].
  fold (ackSpace p mtu). destruct (attachAcks_spec (rel_ackQueue (ls_rel s)) (ackSpace p mtu) p) as (taken & rest & E & -> & H1 & H2).
  unfold modifyRel. do 3 wp_step. by exists taken, rest.
Qed.

(** Filling a packet keeps it within the limit, except that one of 253 or 254 octets
    may exceed it by two. *)
Lemma filled_size p mtu taken :
  isBare p = false → packetLimit mtu ≤ 65535 → wireSize (lpEncode p) ≤ packetLimit mtu →
  (taken ≠ [] → len taken * ackSize ≤ ackSpace p mtu) →
  wireSize (lpEncode (foldl (λ q k, add_ack k q) p taken)) ≤
    packetLimit mtu + (if bool_decide (253 ≤ wireSize (lpEncode p) ≤ 254) then 2 else 0).
Proof.
  intros Hb Hl Hp Ht. destruct taken as [|k taken']; [cbn; case_bool_decide; lia|]. set (taken := k :: taken') in *. specialize (Ht ltac:(done)).
  destruct (addAcks_value taken p) as (Hv & Hb2 & _). rewrite (wireSize_value (foldl _ p taken)), Hv by auto.
  unfold ackSpace in Ht. fold (packetLimit mtu) in Ht. rewrite wireSize_value in * by done. set (v := valueSize p) in *. set (d := len taken * ackSize) in *.
  assert (0 < d) by (unfold d, taken; change ackSize with 12; cbn [length]; lia). change (sizeOfVarNumber MAX_NDN_PACKET_SIZE) with 3 in Ht.
  assert (sizeOfVarNumber (v + d) ≤ 3).
  { apply sizeOfVarNumber_3. pose proof (sizeOfVarNumber_bounds v). pose proof (sizeOfVarNumber_3 (1 + sizeOfVarNumber v + v) ltac:(lia)). lia. }
  assert (v ≤ 65535) as Hv2 by (pose proof (sizeOfVarNumber_bounds v); lia). case_bool_decide as Hcase.
  - unfold sizeOfVarNumber in *. repeat case_match; lia.
  - unfold sizeOfVarNumber in *. repeat case_match; repeat match goal with H : (_ <? _) = _ |- _ => apply Z.ltb_lt in H || apply Z.ltb_ge in H | H : (_ <=? _) = _ |- _ => apply Z.leb_le in H || apply Z.leb_gt in H end; lia.
Qed.

(** ** Sending with reliability *)

(** An MTU that a transport may have, and an override that may be set. *)
Definition mtuOk s : Prop :=
  (ls_mtu s = MTU_UNLIMITED ∨ 0 ≤ ls_mtu s ≤ 65535) ∧ MIN_MTU ≤ op_overrideMtu (ls_options s).

Lemma mtuOk_ext s s' : ls_mtu s' = ls_mtu s → ls_options s' = ls_options s → mtuOk s → mtuOk s' ∧ getEffectiveMtu s' = getEffectiveMtu s.
Proof. unfold mtuOk, getEffectiveMtu. by intros -> ->. Qed.

Lemma mtuOk_effective s : mtuOk s →
  getEffectiveMtu s = MTU_UNLIMITED ∧ ls_mtu s = MTU_UNLIMITED ∨
  0 ≤ getEffectiveMtu s ≤ 65535 ∧ getEffectiveMtu s ≤ ls_mtu s ≤ 65535.
Proof. intros [[H|H] Ho]; unfold getEffectiveMtu, MTU_UNLIMITED, MIN_MTU in *; [left|right]; lia. Qed.

(** The end of [sendLpPacket]: the packet goes out, or is too large. *)
Lemma sendChecked_spec p s : mtuOk s →
  wp (if negb (getEffectiveMtu s =? MTU_UNLIMITED) && (getEffectiveMtu s mod 2 ^ 64 <? wireSize (lpEncode p)) then count nOutOverMtu
      else sendPacket (lpEncode p))
    (λ _ s', sameLink s s' ∧
      (if decide (getEffectiveMtu s = MTU_UNLIMITED ∨ wireSize (lpEncode p) ≤ getEffectiveMtu s)
       then ls_output s' = ls_output s ++ [OutPacket (lpEncode p)] ∧ ls_counters s' = ls_counters s
       else ls_output s' = ls_output s ∧ ls_counters s' nOutOverMtu = ls_counters s nOutOverMtu + 1)) s.
Proof.
  intros Hm. destruct (mtuOk_effective s Hm) as [[-> E]|[H1 H2]].
  - destruct (decide _) as [_|Hd]; [|destruct Hd; by left]. unfold sendPacket. cbn [negb andb Z.eqb MTU_UNLIMITED Pos.eqb]. do 2 wp_step. rewrite E. wp_step. wp_step; [done|]. done.
  - destruct (Z.eqb_spec (getEffectiveMtu s) MTU_UNLIMITED) as [E|Hne]; [unfold MTU_UNLIMITED in *; lia|]. cbn [negb andb]. rewrite Z.mod_small by lia.
    destruct (Z.ltb_spec (getEffectiveMtu s) (wireSize (lpEncode p))) as [Hlt|Hle].
    + destruct (decide _) as [[?|?]|_]; [lia..|]. eapply wp_mono; [apply count_spec|]. intros [] s' (G1 & G2 & G3 & _). done.
    + destruct (decide _) as [_|Hd]; [|destruct Hd; by right]. unfold sendPacket. do 2 wp_step. wp_step. wp_step; [|done]. apply orb_true_iff. right. apply Z.leb_le. rewrite Z.mod_small; lia.
Qed.

(** A packet with acknowledgements, without congestion marks. *)
Lemma sendLpPacket_acks p s :
  op_relEnabled (ls_options s) = true → op_allowCongestionMarking (ls_options s) = false → mtuOk s → isBare p = false →
  wp (sendLpPacket p) (λ _ s', ∃ taken rest, rel_ackQueue (ls_rel s) = taken ++ rest ∧
    ls_rel s' = set_ackQueue rest (ls_rel s) ∧ ls_options s' = ls_options s ∧ ls_mtu s' = ls_mtu s ∧ ls_lastSeqNo s' = ls_lastSeqNo s ∧
    ls_reassembler s' = ls_reassembler s ∧ ls_now s' = ls_now s ∧
    (taken ≠ [] → len taken * ackSize ≤ ackSpace p (getEffectiveMtu s)) ∧ (rest ≠ [] → ackSpace p (getEffectiveMtu s) < (len taken + 1) * ackSize) ∧
    let q := foldl (λ q k, add_ack k q) p taken in
    if decide (getEffectiveMtu s = MTU_UNLIMITED ∨ wireSize (lpEncode q) ≤ getEffectiveMtu s)
    then ls_output s' = ls_output s ++ [OutPacket (lpEncode q)] ∧ ls_counters s' = ls_counters s
    else ls_output s' = ls_output s ∧ ls_counters s' nOutOverMtu = ls_counters s nOutOverMtu + 1) s.
Proof.
  intros Hr Hc Hm Hb. unfold sendLpPacket. do 3 wp_step. rewrite Hr, Hc. eapply wp_mono; [by apply piggyback_spec|].
  intros q s1 (taken & rest & E & -> & -> & H1 & H2). do 2 wp_step. set (s1 := set_rel _ s). change (getEffectiveMtu s) with (getEffectiveMtu s1).
  eapply wp_mono; [by apply sendChecked_spec|]. intros [] s2 ([G1 G2 G3 G4 G5 G6 G7] & H3). exists taken, rest. by split_and!.
Qed.

Lemma checkCongestionLevel_spec p s :
  wp (checkCongestionLevel p) (λ q s', sameLink s s' ∧ ls_output s' = ls_output s ∧ (q = p ∨ q = set_congestionMark 1 p)) s.
Proof.
  assert (∀ q s', sameLink s s' → ls_output s' = ls_output s → q = p →
    sameLink s s' ∧ ls_output s' = ls_output s ∧ (q = p ∨ q = set_congestionMark 1 p)) as Hsame by auto.
  unfold checkCongestionLevel. do 2 wp_step. cbv zeta. destruct (ls_sendQueueLength s <? 0); [wp_step; by apply Hsame|].
  destruct (op_defaultCongestionThreshold (ls_options s) <? ls_sendQueueLength s).
  - destruct (ls_nextMarkTime s =? TIME_POINT_MAX); [do 3 wp_step; by apply Hsame|]. destruct (ls_nextMarkTime s <=? ls_now s); [|wp_step; by apply Hsame].
    wp_step. eapply wp_mono; [apply count_spec|]. intros [] s1 (H1 & H2 & _). do 3 wp_step. split; [|auto]. destruct H1. by split.
  - destruct (negb (ls_nextMarkTime s =? TIME_POINT_MAX)); [do 3 wp_step|wp_step]; by apply Hsame.
Qed.

(** What leaves the link service for packet [p] with acknowledgements [taken]: one
    packet, which may have been marked for congestion, or none if that exceeds the MTU. *)
Definition sentAs (o : Options) (mtu : Z) p (taken : list Z) (out : list LinkOutput) : Prop :=
  let q := foldl (λ q k, add_ack k q) p taken in
  ∃ q', (q' = q ∨ op_allowCongestionMarking o = true ∧ q' = set_congestionMark 1 q) ∧
    out = if decide (mtu = MTU_UNLIMITED ∨ wireSize (lpEncode q') ≤ mtu) then [OutPacket (lpEncode q')] else [].

(** Whatever else happens, sending takes acknowledgements off the queue and leaves
    the rest of the reliability component alone. *)
Lemma sendLpPacket_frame p s :
  op_relEnabled (ls_options s) = true → mtuOk s → isBare p = false →
  wp (sendLpPacket p) (λ _ s', ∃ taken rest, rel_ackQueue (ls_rel s) = taken ++ rest ∧
    ls_rel s' = set_ackQueue rest (ls_rel s) ∧ ls_options s' = ls_options s ∧ ls_mtu s' = ls_mtu s ∧ ls_now s' = ls_now s ∧
    ls_reassembler s' = ls_reassembler s ∧
    (taken ≠ [] → len taken * ackSize ≤ ackSpace p (getEffectiveMtu s)) ∧ (rest ≠ [] → ackSpace p (getEffectiveMtu s) < (len taken + 1) * ackSize) ∧
    ∃ out, ls_output s' = ls_output s ++ out ∧ sentAs (ls_options s) (getEffectiveMtu s) p taken out) s.
Proof.
  intros Hr Hm Hb. unfold sendLpPacket. do 3 wp_step. rewrite Hr. eapply wp_mono; [by apply piggyback_spec|].
  intros q s1 (taken & rest & E & -> & -> & H1 & H2). wp_step. set (s1 := set_rel _ s). change (getEffectiveMtu s) with (getEffectiveMtu s1).
  set (q := foldl _ p taken) in *. eapply (wp_mono _ (λ q' s', sameLink s1 s' ∧ ls_output s' = ls_output s1 ∧ (q' = q ∨ op_allowCongestionMarking (ls_options s) = true ∧ q' = set_congestionMark 1 q))).
  { destruct (op_allowCongestionMarking _); [|wp_step; split; [done|]; split; [done|by left]]. eapply wp_mono; [apply checkCongestionLevel_spec|]. intros q' s2 (G1 & G2 & G3). split; [done|]. split; [done|]. destruct G3 as [->| ->]; [by left|by right]. }
  intros q' s2 (G & Eout & Hq').
  destruct (mtuOk_ext s1 s2 (sl_mtu _ _ G) (sl_options _ _ G) Hm) as [Hm2 Ee]. rewrite <- Ee. eapply wp_mono; [by apply sendChecked_spec|]. intros [] s3 (G' & Hout).
  pose proof (sameLink_trans _ _ _ G G') as [K1 K2 K3 K4 K5 K6 K7]. rewrite Ee in *. exists taken, rest. split_and!; try done.
  eexists. split; [|exists q'; split; [exact Hq'|reflexivity]]. change (getEffectiveMtu s) with (getEffectiveMtu s1).
  case_decide; destruct Hout as [-> _]; rewrite Eout; [done|by rewrite app_nil_r].
Qed.

(** One IDLE packet takes at least one acknowledgement if the MTU allows it, and
    none otherwise. *)
Lemma requestIdlePacket_spec s :
  op_relEnabled (ls_options s) = true → mtuOk s → rel_ackQueue (ls_rel s) ≠ [] →
  wp requestIdlePacket (λ _ s', op_relEnabled (ls_options s') = true ∧ mtuOk s' ∧ getEffectiveMtu s' = getEffectiveMtu s ∧
    if decide (0 ≤ getEffectiveMtu s < 16) then rel_ackQueue (ls_rel s') = rel_ackQueue (ls_rel s)
    else (length (rel_ackQueue (ls_rel s')) < length (rel_ackQueue (ls_rel s)))%nat) s.
Proof.
  intros Hr Hm Hq. unfold requestIdlePacket. eapply wp_mono; [by apply sendLpPacket_frame|]. intros [] s' (taken & rest & E & Er & Eo & Em & _ & _ & H1 & H2 & _).
  destruct (mtuOk_ext s s' Em Eo Hm) as [Hm' Eeff]. split; [congruence|]. split; [done|]. split; [done|]. rewrite Er, E. cbn [rel_ackQueue set_ackQueue].
  assert (ackSpace emptyLp (getEffectiveMtu s) = packetLimit (getEffectiveMtu s) - 4) as Es.
  { unfold ackSpace, packetLimit. rewrite wireSize_value by done. unfold valueSize. rewrite otherSize_empty. change (fragmentSize emptyLp) with 0.
    change (sizeOfVarNumber (0 + 0)) with 1. change (sizeOfVarNumber (1 + 1 + (0 + 0))) with 1. change (sizeOfVarNumber MAX_NDN_PACKET_SIZE) with 3. lia. }
  rewrite Es in H1, H2. change ackSize with 12 in *. unfold packetLimit, MTU_UNLIMITED in *. destruct (mtuOk_effective s Hm) as [[Eu _]|[Hle _]].
  - unfold MTU_UNLIMITED in Eu. rewrite Eu in *. cbn [Z.eqb Pos.eqb] in *. rewrite decide_False by lia. rewrite length_app. destruct taken; [|cbn; lia].
    cbn in E. subst rest. specialize (H2 Hq). change (len []) with 0 in H2. unfold MAX_NDN_PACKET_SIZE in H2. lia.
  - destruct (Z.eqb_spec (getEffectiveMtu s) (-1)); [lia|]. destruct (decide (0 ≤ getEffectiveMtu s < 16)) as [Hs|Hs].
    + destruct taken as [|k taken]; [done|]. specialize (H1 ltac:(done)). cbn [length] in H1. lia.
    + rewrite length_app. destruct taken; [|cbn; lia]. cbn in E. subst rest. specialize (H2 Hq). change (len []) with 0 in H2. lia.
Qed.

(** The loop ends if each IDLE packet takes some acknowledgements. *)
Lemma sendIdlePackets_ends fuel s :
  op_relEnabled (ls_options s) = true → mtuOk s → ¬ 0 ≤ getEffectiveMtu s < 16 → (length (rel_ackQueue (ls_rel s)) ≤ fuel)%nat →
  wp (sendIdlePackets fuel) (λ _ s', rel_ackQueue (ls_rel s') = []) s.
Proof.
  revert s. induction fuel as [|fuel IH]; intros s Hr Hm He Hf; cbn [sendIdlePackets]; unfold getRel; do 2 wp_step.
  - destruct (rel_ackQueue (ls_rel s)) eqn:E; [|cbn in Hf; lia]. wp_step; [by apply bool_decide_true|done].
  - case_bool_decide as Eq; [by wp_step|]. wp_step. eapply wp_mono; [by apply requestIdlePacket_spec|]. intros [] s' (H1 & H2 & H3 & H4).
    rewrite decide_False in H4 by done. apply IH; auto; [by rewrite H3|lia].
Qed.

Lemma sendIdlePackets_diverges fuel s :
  op_relEnabled (ls_options s) = true → mtuOk s → 0 ≤ getEffectiveMtu s < 16 → rel_ackQueue (ls_rel s) ≠ [] → sendIdlePackets fuel s = None.
Proof.
  revert s. induction fuel as [|fuel IH]; intros s Hr Hm He Hq.
  - cbn. unfold mbind, M_bind, getRel, gets, assertM. by rewrite bool_decide_false.
  - cbn [sendIdlePackets]. unfold mbind, M_bind at 1, getRel, gets. rewrite bool_decide_false by done.
    destruct (wp_elim _ _ _ (requestIdlePacket_spec s Hr Hm Hq)) as (s' & [] & E & H1 & H2 & H3 & H4). unfold M_bind. rewrite E.
    rewrite decide_True in H4 by done. apply IH; auto; [by rewrite H3|congruence].
Qed.
End Mtu.
