(* ===== verification/LpWindow.v ===== *)
(** * The send window of the reliability component

    Facts on the ordered map of unacknowledged fragments: its iterators, and the
    window of TxSequence numbers, which wraps around at [2 ^ 64].  The window starts at
    [m_firstUnackedFrag] and ends at [m_lastTxSeqNo]. *)

From Stdlib Require Import ZArith Lia.
From stdpp Require Import base gmap option list.
From S2P Require Import Prelude Scheduler Ndn LpPacket LpFragmenter LpReassembler LinkState LpReliability.

Local Open Scope Z_scope.

(** ** Iterators of an ordered map *)

Lemma leastOf_Some l x : leastOf l = Some x → x ∈ l ∧ ∀ y, y ∈ l → x ≤ y.
Proof.
  destruct l as [|a l]; [done|]. cbn. intros [= <-]. induction l as [|b l IH]; cbn.
  - split; [constructor|]. intros y ->%list_elem_of_singleton. lia.
  - destruct IH as [IH1 IH2]. split.
    + destruct (Z.min_spec b (foldr Z.min a l)) as [[_ ->]|[_ ->]]; [set_solver|]. apply elem_of_cons in IH1 as [->|]; set_solver.
    + intros y Hy. assert (y = b ∨ y ∈ a :: l) as [->|Hy'] by set_solver; [lia|]. specialize (IH2 y Hy'). lia.
Qed.

Lemma leastOf_None l : leastOf l = None ↔ l = [].
Proof. by destruct l. Qed.

Section OrderedMap.
Context {V : Type}.
Implicit Types (m : gmap Z V) (k : Z).

Lemma elem_of_keysOf m k : k ∈ keysOf m ↔ is_Some (m !! k).
Proof.
  unfold keysOf. rewrite list_elem_of_fmap. split.
  - intros ([k' v] & -> & H%elem_of_map_to_list). by eexists.
  - intros [v H]. exists (k, v). by rewrite elem_of_map_to_list.
Qed.

Lemma mapBegin_Some m k : mapBegin m = Some k → is_Some (m !! k) ∧ ∀ j, is_Some (m !! j) → k ≤ j.
Proof. intros [H1 H2]%leastOf_Some. rewrite elem_of_keysOf in H1. split; [done|]. intros j Hj. apply H2. by rewrite elem_of_keysOf. Qed.

Lemma mapBegin_None m : mapBegin m = None → m = ∅.
Proof.
  intros H%leastOf_None. apply map_empty. intros k. destruct (m !! k) eqn:E; [|done].
  assert (k ∈ keysOf m) as Hk by (rewrite elem_of_keysOf; by eexists). rewrite H in Hk. by apply elem_of_nil in Hk.
Qed.

Lemma mapNext_Some m k j : mapNext k m = Some j → is_Some (m !! j) ∧ k < j ∧ ∀ i, is_Some (m !! i) → k < i → j ≤ i.
Proof.
  intros [H1 H2]%leastOf_Some. rewrite list_elem_of_filter, elem_of_keysOf in H1. destruct H1 as [Hlt Hj]. split; [done|]. split; [done|].
  intros i Hi Hki. apply H2. by rewrite list_elem_of_filter, elem_of_keysOf.
Qed.

Lemma mapNext_None m k : mapNext k m = None → ∀ j, is_Some (m !! j) → j ≤ k.
Proof.
  intros H%leastOf_None j Hj. destruct (decide (k < j)) as [Hlt|]; [|lia].
  assert (j ∈ filter (λ k', k < k') (keysOf m)) as Hin by (by rewrite list_elem_of_filter, elem_of_keysOf). rewrite H in Hin. by apply elem_of_nil in Hin.
Qed.

(** The next element, from the end of the map around to its beginning. *)
Definition cyclicNext k m : option Z := match mapNext k m with None => mapBegin m | Some j => Some j end.
End OrderedMap.

(** ** Distances modulo [2 ^ 64] *)

Definition dist (a b : Z) : Z := seq64 (b - a).

Definition is64 (n : Z) : Prop := 0 ≤ n < 2 ^ 64.

Lemma seq64_is64 n : is64 (seq64 n).
Proof. apply Z.mod_pos_bound. lia. Qed.

Lemma dist_spec a b : is64 a → is64 b → dist a b = if a <=? b then b - a else b - a + 2 ^ 64.
Proof.
  unfold is64, dist, seq64. intros Ha Hb. destruct (Z.leb_spec a b).
  - apply Z.mod_small. lia.
  - rewrite <- (Z.mod_add _ 1), Z.mod_small; lia.
Qed.

Lemma dist_next a b : is64 a → is64 b → dist a b + 1 < 2 ^ 64 → dist a (seq64 (b + 1)) = dist a b + 1.
Proof.
  intros Ha Hb H. unfold dist, seq64 in *. rewrite Zminus_mod_idemp_l. replace (b + 1 - a) with ((b - a) + 1) by lia.
  rewrite <- Z.add_mod_idemp_l by lia. pose proof (Z.mod_pos_bound (b - a) (2 ^ 64) ltac:(lia)). apply Z.mod_small. lia.
Qed.

Lemma dist_bounds a b : 0 ≤ dist a b < 2 ^ 64.
Proof. apply seq64_is64. Qed.

Lemma dist_0 a b : is64 a → is64 b → dist a b = 0 → a = b.
Proof. intros Ha Hb. rewrite dist_spec by done. unfold is64 in *. destruct (Z.leb_spec a b); lia. Qed.

Lemma dist_same a : dist a a = 0.
Proof. unfold dist. by rewrite Z.sub_diag. Qed.

(** Going from [a] over [b] to [c]. *)
Lemma dist_split a b c : is64 a → is64 b → is64 c → dist a b ≤ dist a c → dist b c = dist a c - dist a b.
Proof. intros Ha Hb Hc. rewrite !dist_spec by done. unfold is64 in *. destruct (Z.leb_spec a b), (Z.leb_spec a c), (Z.leb_spec b c); lia. Qed.

(** The next element is the nearest one. *)
Lemma cyclicNext_Some {V} (m : gmap Z V) k j :
  is64 k → (∀ i, is_Some (m !! i) → is64 i) → cyclicNext k m = Some j →
  is_Some (m !! j) ∧ ∀ i, is_Some (m !! i) → i ≠ k → dist k j ≤ dist k i.
Proof.
  intros Hk Hm. unfold cyclicNext. destruct (mapNext k m) as [j'|] eqn:E.
  - intros [= ->]. apply mapNext_Some in E as (Hj & Hlt & Hleast). split; [done|]. intros i Hi Hne. rewrite !dist_spec by auto.
    pose proof (Hm i Hi) as Hi64. pose proof (Hm j Hj) as Hj64. unfold is64 in *. destruct (Z.leb_spec k j), (Z.leb_spec k i); try lia.
    specialize (Hleast i Hi ltac:(lia)). lia.
  - intros [Hj Hleast]%mapBegin_Some. split; [done|]. intros i Hi Hne. pose proof (mapNext_None m k E i Hi). pose proof (Hleast i Hi).
    rewrite !dist_spec by auto. pose proof (Hm i Hi). pose proof (Hm j Hj). unfold is64 in *. destruct (Z.leb_spec k j), (Z.leb_spec k i); lia.
Qed.

Lemma cyclicNext_None {V} (m : gmap Z V) k : cyclicNext k m = None → m = ∅.
Proof. unfold cyclicNext. destruct (mapNext k m); [done|]. apply mapBegin_None. Qed.

(** ** The window *)

Record Window {V} (m : gmap Z V) (first : option Z) (last : Z) : Prop := {
  w_keys : ∀ k, is_Some (m !! k) → is64 k;
  w_last : is64 last;
  w_first : match first with
    | None => m = ∅
    | Some f => is_Some (m !! f) ∧ ∀ k, is_Some (m !! k) → dist f k ≤ dist f last
    end;
}.

(** The numbers from the start of the window to its end. *)
Definition span (first : option Z) (last : Z) : Z := match first with None => 0 | Some f => dist f last end.

Section Window.
Context {V : Type}.
Implicit Types (m : gmap Z V) (k : Z).

Lemma Window_empty last : is64 last → Window (∅ : gmap Z V) None last.
Proof. intros H. split; [|done|done]. intros k [v Hk]. by rewrite lookup_empty in Hk. Qed.

Lemma Window_fresh m first last : Window m first last → span first last + 1 < 2 ^ 64 →
  m !! seq64 (last + 1) = None ∧ ∀ f, first = Some f → seq64 (last + 1) ≠ f.
Proof.
  intros [Hk Hl Hf] Hs. destruct first as [f|]; [|by rewrite Hf, lookup_empty]. destruct Hf as [Hff Hall]. cbn in Hs.
  pose proof (dist_next f last (Hk f Hff) Hl Hs) as Hd. split.
  - destruct (m !! seq64 (last + 1)) eqn:E; [|done]. pose proof (Hall (seq64 (last + 1)) ltac:(by eexists)). lia.
  - intros ? [= <-] E. rewrite E, dist_same in Hd. pose proof (dist_bounds f last). lia.
Qed.

(** A new fragment at the end of the window. *)
Lemma Window_insert m first last v : Window m first last → span first last + 1 < 2 ^ 64 →
  let k := seq64 (last + 1) in
  Window (<[k := v]> m) (if decide (m = ∅) then Some k else first) k ∧
  span (if decide (m = ∅) then Some k else first) k ≤ span first last + 1.
Proof.
  intros HW Hs k. pose proof HW as [Hk Hl Hf]. pose proof (seq64_is64 (last + 1) : is64 k) as Hk64.
  assert (∀ j, is_Some (<[k := v]> m !! j) → is64 j) as Hkeys.
  { intros j [x [[<- _]|[_ Hj]]%lookup_insert_Some]; [done|]. apply Hk. by eexists. }
  destruct (decide (m = ∅)) as [->|Hne].
  - split; [|cbn; rewrite dist_same; destruct first as [f|]; cbn; [pose proof (dist_bounds f last)|]; lia]. split; [done..|].
    split; [rewrite lookup_insert_eq; by eexists|]. intros j [x [[<- _]|[_ Hj]]%lookup_insert_Some]; [lia|by rewrite lookup_empty in Hj].
  - destruct first as [f|]; [|done]. destruct Hf as [Hff Hall]. cbn in Hs. pose proof (dist_next f last (Hk f Hff) Hl Hs) as Hd. fold k in Hd.
    split; [|cbn; lia]. split; [done..|]. split; [destruct Hff as [x Hff]; destruct (decide (k = f)) as [->|]; [rewrite lookup_insert_eq|rewrite lookup_insert_ne by done]; by eexists|].
    intros j [x [[<- _]|[_ Hj]]%lookup_insert_Some]; [lia|]. rewrite Hd. specialize (Hall j ltac:(by eexists)). lia.
Qed.

(** Removing a fragment moves the start when it was the first one. *)
Lemma Window_delete m first last k : Window m first last → is_Some (m !! k) →
  let m' := delete k m in
  let first' := if decide (m' = ∅) then None else if decide (first = Some k) then cyclicNext k m' else first in
  Window m' first' last ∧ span first' last ≤ span first last.
Proof.
  intros [Hk Hl Hf] Hin m' first'. assert (∀ j, is_Some (m' !! j) → is_Some (m !! j) ∧ j ≠ k) as Hsub.
  { intros j [x [Hne Hj]%lookup_delete_Some]. split; [by eexists|done]. }
  assert (∀ j, is_Some (m' !! j) → is64 j) as Hkeys by (intros j Hj; apply Hk; by apply Hsub). unfold first'.
  destruct (decide (m' = ∅)) as [E|Hne]; [split; [by split|destruct first as [f|]; cbn; [apply dist_bounds|lia]]|].
  destruct first as [f|]; [|by rewrite Hf in Hin; destruct Hin as [x Hx]; rewrite lookup_empty in Hx]. destruct Hf as [Hff Hall]. pose proof (Hk f Hff) as Hf64.
  destruct (decide (Some f = Some k)) as [[= <-]|Hfk].
  - destruct (cyclicNext f m') as [j|] eqn:Ej; [|by apply cyclicNext_None in Ej]. destruct (cyclicNext_Some m' f j Hf64 Hkeys Ej) as [Hj Hnear].
    pose proof (Hkeys j Hj) as Hj64. pose proof (Hsub j Hj) as [Hj2 _]. pose proof (Hall j Hj2). pose proof (dist_split f j last Hf64 Hj64 Hl ltac:(done)).
    pose proof (dist_bounds f j). split; [|cbn; lia]. split; [done..|]. split; [done|]. intros i Hi. pose proof (Hsub i Hi) as [Hi2 Hif]. pose proof (Hnear i Hi Hif).
    pose proof (dist_split f j i Hf64 Hj64 (Hkeys i Hi) ltac:(done)). pose proof (Hall i Hi2). lia.
  - split; [|done]. split; [done..|]. split; [|intros i Hi; apply Hall; by apply Hsub]. destruct Hff as [x Hx]. exists x. apply lookup_delete_Some. split; [congruence|done].
Qed.

(** Changing what is stored leaves the window as it is. *)
Lemma Window_dom {V'} (m : gmap Z V) (m' : gmap Z V') first last : (∀ k, is_Some (m' !! k) ↔ is_Some (m !! k)) → Window m first last → Window m' first last.
Proof.
  intros Hd [Hk Hl Hf]. split; [intros k Hi; by apply Hk, Hd|done|]. destruct first as [f|].
  - destruct Hf as [Hff Hall]. split; [by apply Hd|]. intros k Hi. by apply Hall, Hd.
  - subst m. apply map_empty. intros k. destruct (m' !! k) eqn:E; [|done]. assert (is_Some (m' !! k)) as Hi by by eexists.
    apply Hd in Hi as [x Hx]. by rewrite lookup_empty in Hx.
Qed.
End Window.


(** Two maps with the same keys begin with the same one. *)
Lemma mapBegin_dom {V V'} (m : gmap Z V) (m' : gmap Z V') : (∀ k, is_Some (m' !! k) ↔ is_Some (m !! k)) → mapBegin m' = mapBegin m.
Proof.
  intros Hd. destruct (mapBegin m') as [j|] eqn:E', (mapBegin m) as [i|] eqn:E; [..|done].
  - apply mapBegin_Some in E' as [H1 H2], E as [H3 H4]. f_equal. apply Z.le_antisymm; [apply H2, Hd, H3|apply H4, Hd, H1].
  - apply mapBegin_None in E as ->. apply mapBegin_Some in E' as [H1%Hd _]. by apply lookup_empty_is_Some in H1.
  - apply mapBegin_None in E' as ->. apply mapBegin_Some in E as [H1%Hd _]. by apply lookup_empty_is_Some in H1.
Qed.

(** One step of a walk around the map, from [k] towards [t]. *)
Lemma cyclicNext_step {V} (m : gmap Z V) k t :
  (∀ i, is_Some (m !! i) → is64 i) → is_Some (m !! k) → is_Some (m !! t) → k ≠ t →
  ∃ k2, cyclicNext k m = Some k2 ∧ is_Some (m !! k2) ∧ k2 ≠ k ∧ dist k k2 ≤ dist k t ∧
    ∀ j, is_Some (m !! j) → (dist k j ≤ dist k t ↔ j = k ∨ dist k2 j ≤ dist k2 t) ∧ ¬ dist k2 k ≤ dist k2 t.
Proof.
  intros H64 Hk Ht Hne. destruct (cyclicNext k m) as [k2|] eqn:E; [|apply cyclicNext_None in E as ->; by apply lookup_empty_is_Some in Hk].
  assert (k2 ≠ k) as Hk2k.
  { unfold cyclicNext in E. destruct (mapNext k m) as [j|] eqn:En; [apply mapNext_Some in En as (_ & ? & _); injection E as ->; lia|].
    apply mapBegin_Some in E as [_ Hmin]. pose proof (Hmin t Ht). pose proof (mapNext_None m k En t Ht). lia. }
  destruct (cyclicNext_Some m k k2 (H64 k Hk) H64 E) as [Hk2 Hnear]. exists k2. split; [done|]. split; [done|]. split; [done|].
  pose proof (Hnear t Ht ltac:(done)) as Hnt. split; [done|]. intros j Hj. pose proof (H64 k Hk) as K1. pose proof (H64 k2 Hk2) as K2. pose proof (H64 t Ht) as K3. pose proof (H64 j Hj) as K4.
  pose proof (dist_split k k2 t K1 K2 K3 Hnt) as Dt. pose proof (dist_bounds k t). pose proof (dist_bounds k k2).
  assert (dist k2 k = 2 ^ 64 - dist k k2) as Db by (rewrite !dist_spec by done; unfold is64 in *; destruct (Z.leb_spec k k2), (Z.leb_spec k2 k); lia).
  split; [|lia]. destruct (decide (j = k)) as [->|Hjk]; [rewrite dist_same; split; [by left|lia]|].
  pose proof (dist_split k k2 j K1 K2 K4 (Hnear j Hj Hjk)). split; [right; lia|intros [?|?]; [done|lia]].
Qed.
