(* ===== verification/LpRelSpecs.v ===== *)
(** * Invariants of the reliability component

    Unacknowledged fragments form a window of TxSequence numbers, each with a running
    timer, and belong to network packets that list exactly their fragments. *)

From Stdlib Require Import ZArith Lia.
From stdpp Require Import base gmap option list.
From S2P Require Import Prelude Scheduler Ndn LpPacket LpFragmenter LpReassembler LinkState LpReliability.
From S2P Require Import LinkService LinkSpecs LinkMtu LpWindow.

Local Open Scope Z_scope.

Section Core.
Context {C : NetCodec} {L : LpCodec} {LM : LinkMath} {SC : Scheduler} {SL : SchedulerLaws SC}.
Implicit Types (m : gmap Z UnackedFrag) (k : Z) (f : UnackedFrag) (X : list Z) (T : SchedState RelTimer).

(** A fragment in the map; one in [X] is being retransmitted. *)
Record fragOk X (mx k : Z) f : Prop := {
  fo_sequence : ∃ q, lp_sequence (uf_pkt f) = Present q;
  fo_tx : k ∉ X → lp_txSequence (uf_pkt f) = Present k;
  fo_retx : 0 ≤ uf_retxCount f ≤ mx;
}.

(** The window, and the timers: a fragment not in [X] has a pending timer. *)
Record Core X (mx : Z) m (first : option Z) (last : Z) T : Prop := {
  co_window : Window m first last;
  co_frag : ∀ k f, m !! k = Some f → fragOk X mx k f;
  co_own : ∀ k f t, m !! k = Some f → uf_rtoTimer f = Some t →
    sched_issued T t ∧ ∀ d ev, sched_pending T !! t = Some (d, ev) → ev = RtoTimer k;
  co_timer : ∀ k f, m !! k = Some f → k ∉ X → ∃ t d, uf_rtoTimer f = Some t ∧ sched_pending T !! t = Some (d, RtoTimer k);
  co_pending : ∀ t d k, sched_pending T !! t = Some (d, RtoTimer k) → ∃ f, m !! k = Some f ∧ uf_rtoTimer f = Some t;
}.

Lemma cancel_pending (i : option positive) T t x :
  sched_pending (cancel i T) !! t = Some x ↔ i ≠ Some t ∧ sched_pending T !! t = Some x.
Proof.
  destruct (cancel_spec i T) as [_ ->]. destruct i as [i|]; [|naive_solver]. rewrite lookup_delete_Some. naive_solver.
Qed.

(** A fragment's timer is stopped. *)
Lemma Core_cancel X mx m first last T k f :
  Core X mx m first last T → m !! k = Some f → Core (k :: X) mx m first last (cancel (uf_rtoTimer f) T).
Proof.
  intros [Hw Hf Ho Ht Hp] Hk. destruct (cancel_spec (uf_rtoTimer f) T) as [Hi _]. split.
  - done.
  - intros j g Hj. destruct (Hf j g Hj) as [H1 H2 H3]. split; [done| |done]. intros Hn. apply H2. set_solver.
  - intros j g t Hj Hg. destruct (Ho j g t Hj Hg) as [H1 H2]. split; [by apply Hi|]. intros d ev [_ H]%cancel_pending. eauto.
  - intros j g Hj Hn. destruct (Ht j g Hj) as (t & d & H1 & H2); [set_solver|]. exists t, d. split; [done|]. apply cancel_pending. split; [|done].
    intros E. destruct (Ho k f t Hk E) as [_ H]. specialize (H _ _ H2). injection H as ->. set_solver.
  - intros t d j [_ H]%cancel_pending. eauto.
Qed.

(** A fragment's timer is started again. *)
Lemma Core_schedule X X' mx m first last T k f when T' t :
  Core X mx m first last T → m !! k = Some f → schedule when (RtoTimer k) T = (T', t) →
  (∀ j, j ∈ X → j = k ∨ j ∈ X') → lp_txSequence (uf_pkt f) = Present k →
  Core X' mx (<[k := mkUnacked (uf_pkt f) (Some t) (uf_sendTime f) (uf_retxCount f) (uf_nGreaterSeqAcks f) (uf_netPkt f)]> m) first last
    (cancel (uf_rtoTimer f) T').
Proof.
  intros [Hw Hf Ho Ht Hp] Hk Es HX Htx. destruct (schedule_spec _ _ _ _ _ Es) as (Hfresh & Hiss & Epend).
  destruct (cancel_spec (uf_rtoTimer f) T') as [Hi _]. assert (sched_pending T !! t = None) as Hnone.
  { destruct (sched_pending T !! t) eqn:E; [|done]. destruct Hfresh. apply pending_issued. by eexists. }
  assert (uf_rtoTimer f ≠ Some t) as Hold by (intros E; destruct (Ho k f t Hk E); done).
  assert (∀ t' x, sched_pending (cancel (uf_rtoTimer f) T') !! t' = Some x ↔ (t' = t ∧ x = (when, RtoTimer k)) ∨ (uf_rtoTimer f ≠ Some t' ∧ sched_pending T !! t' = Some x)) as Hpend.
  { intros t' x. rewrite cancel_pending, Epend, lookup_insert_Some. split; [naive_solver|]. intros [[-> ->]|[? ?]]; [naive_solver|]. split; [done|]. right. split; [congruence|done]. }
  split.
  - eapply Window_dom; [|exact Hw]. intros j. rewrite lookup_insert_is_Some'. split; [intros [<-|]; [by eexists|done]|auto].
  - intros j g [[<- <-]|[Hj Hg]]%lookup_insert_Some.
    + destruct (Hf k f Hk) as [H1 H2 H3]. by split.
    + destruct (Hf j g Hg) as [H1 H2 H3]. split; [done| |done]. intros Hn. apply H2. intros Hin. destruct (HX j Hin); congruence.
  - intros j g t' [[<- <-]|[Hj Hg]]%lookup_insert_Some; cbn [uf_rtoTimer].
    + intros [= <-]. split; [apply Hi, Hiss; by right|]. intros d ev [[_ [= _ <-]]|[_ H]]%Hpend; [done|]. congruence.
    + intros Hg'. destruct (Ho j g t' Hg Hg') as [H1 H2]. split; [apply Hi, Hiss; by left|]. intros d ev [[-> _]|[_ H]]%Hpend; [|eauto]. done.
  - intros j g [[<- <-]|[Hj Hg]]%lookup_insert_Some Hn; cbn [uf_rtoTimer].
    + exists t, when. split; [done|]. apply Hpend. by left.
    + destruct (Ht j g Hg) as (t' & d & H1 & H2); [intros Hin; destruct (HX j Hin); congruence|]. exists t', d. split; [done|]. apply Hpend. right. split; [|done].
      intros E. destruct (Ho k f t' Hk E) as [_ H]. specialize (H _ _ H2). congruence.
  - intros t' d j [[-> [= -> ->]]|[Hne H]]%Hpend; [rewrite lookup_insert_eq; by eexists|]. destruct (Hp t' d j H) as (g & Hg & Hgt).
    rewrite lookup_insert_ne; [eauto|]. intros <-. rewrite Hk in Hg. injection Hg as <-. done.
Qed.

(** A fragment is removed, its timer with it. *)
Lemma Core_delete X mx m first last T k f first' :
  Core X mx m first last T → m !! k = Some f → Window (delete k m) first' last →
  Core X mx (delete k m) first' last (cancel (uf_rtoTimer f) T).
Proof.
  intros [Hw Hf Ho Ht Hp] Hk Hw'. destruct (cancel_spec (uf_rtoTimer f) T) as [Hi _]. split.
  - done.
  - intros j g [_ Hj]%lookup_delete_Some. eauto.
  - intros j g t [_ Hj]%lookup_delete_Some Hg. destruct (Ho j g t Hj Hg) as [H1 H2]. split; [by apply Hi|]. intros d ev [_ H]%cancel_pending. eauto.
  - intros j g [Hne Hj]%lookup_delete_Some Hn. destruct (Ht j g Hj Hn) as (t & d & H1 & H2). exists t, d. split; [done|]. apply cancel_pending. split; [|done].
    intros E. destruct (Ho k f t Hk E) as [_ H]. specialize (H _ _ H2). congruence.
  - intros t d j [Hne H]%cancel_pending. destruct (Hp t d j H) as (g & Hg & Hgt). exists g. split; [|done]. apply lookup_delete_Some. split; [|done]. congruence.
Qed.

(** A new fragment, whose timer is still to be started. *)
Lemma Core_insert X mx m first last T k f first' last' :
  Core X mx m first last T → m !! k = None → Window (<[k := f]> m) first' last' → k ∈ X →
  fragOk X mx k f → uf_rtoTimer f = None → Core X mx (<[k := f]> m) first' last' T.
Proof.
  intros [Hw Hf Ho Ht Hp] Hk Hw' HX Hok Hnt. split.
  - done.
  - intros j g [[<- <-]|[_ Hj]]%lookup_insert_Some; eauto.
  - intros j g t [[<- <-]|[_ Hj]]%lookup_insert_Some; [congruence|eauto].
  - intros j g [[<- <-]|[_ Hj]]%lookup_insert_Some Hn; [done|eauto].
  - intros t d j H. destruct (Hp t d j H) as (g & Hg & Hgt). exists g. rewrite lookup_insert_ne; [done|congruence].
Qed.

(** A fragment changes in what the invariant does not speak of. *)
Lemma Core_update X mx m first last T k f f' :
  Core X mx m first last T → m !! k = Some f → fragOk X mx k f' → uf_rtoTimer f' = uf_rtoTimer f → Core X mx (<[k := f']> m) first last T.
Proof.
  intros [Hw Hf Ho Ht Hp] Hk Hok Ett. split.
  - eapply Window_dom; [|exact Hw]. intros j. rewrite lookup_insert_is_Some'. split; [intros [<-|]; [by eexists|done]|auto].
  - intros j g [[<- <-]|[_ Hj]]%lookup_insert_Some; eauto.
  - intros j g t [[<- <-]|[_ Hj]]%lookup_insert_Some; [rewrite Ett|]; eauto.
  - intros j g [[<- <-]|[_ Hj]]%lookup_insert_Some Hn; [rewrite Ett|]; eauto.
  - intros t d j H. destruct (Hp t d j H) as (g & Hg & Hgt). destruct (decide (j = k)) as [->|Hne].
    + rewrite lookup_insert_eq. exists f'. split; [done|]. congruence.
    + rewrite lookup_insert_ne by done. eauto.
Qed.

(** Fewer exceptions are needed when their fragments are gone. *)
Lemma Core_shrink X X' mx m first last T : Core X mx m first last T → (∀ k, k ∈ X → k ∈ X' ∨ m !! k = None) → Core X' mx m first last T.
Proof.
  intros [Hw Hf Ho Ht Hp] HX. split; try done.
  - intros k f Hk. destruct (Hf k f Hk) as [H1 H2 H3]. split; [done| |done]. intros Hn. apply H2. intros Hin. destruct (HX k Hin); [done|congruence].
  - intros k f Hk Hn. apply Ht; [done|]. intros Hin. destruct (HX k Hin); [done|congruence].
Qed.
End Core.

(** ** Network packets and their fragments *)

Section Linked.
Context {C : NetCodec} {L : LpCodec} {LM : LinkMath} {SC : Scheduler}.
Implicit Types (m : gmap Z UnackedFrag) (k : Z) (f : UnackedFrag) (P : gmap ptr NetPkt) (a : ptr).

(** An Interest can be decoded again when it has to be given up. *)
Definition npOk (n : NetPkt) : Prop :=
  np_isInterest n = true → ∃ b i, lp_fragment (np_pkt n) = Present b ∧ isBlock b = true ∧ interestOf b = Some i.

(** Network packet [a] lists the fragments that point to it. *)
Record owner m P a (n : NetPkt) : Prop := {
  ow_at : P !! a = Some n;
  ow_ok : npOk n;
  ow_nodup : NoDup (np_unackedFrags n);
  ow_frags : ∀ j, j ∈ np_unackedFrags n ↔ ∃ g, m !! j = Some g ∧ uf_netPkt g = Some a;
}.

Definition linked m P : Prop := ∀ k f, m !! k = Some f → ∃ a n, uf_netPkt f = Some a ∧ owner m P a n.

(** Only what the fragments point to matters. *)
Lemma linked_same m m' P : (∀ k, uf_netPkt <$> m' !! k = uf_netPkt <$> m !! k) → linked m P → linked m' P.
Proof.
  intros E Hl k f Hk. assert (∀ j g a, m' !! j = Some g → uf_netPkt g = Some a → ∃ h, m !! j = Some h ∧ uf_netPkt h = Some a) as H1.
  { intros j g a Hj Ha. specialize (E j). rewrite Hj in E. cbn in E. destruct (m !! j) as [h|]; [|done]. injection E as E. exists h. split; [done|congruence]. }
  assert (∀ j g a, m !! j = Some g → uf_netPkt g = Some a → ∃ h, m' !! j = Some h ∧ uf_netPkt h = Some a) as H2.
  { intros j g a Hj Ha. specialize (E j). rewrite Hj in E. cbn in E. destruct (m' !! j) as [h|]; [|done]. injection E as E. exists h. split; [done|congruence]. }
  specialize (E k) as Ek. rewrite Hk in Ek. destruct (m !! k) as [g|] eqn:Eg; [|done]. injection Ek as Ek. destruct (Hl k g Eg) as (a & n & Ha & [O1 O2 O3 O4]).
  exists a, n. split; [congruence|]. split; [done..|]. intros j. rewrite O4. naive_solver.
Qed.

Lemma linked_insert_same m P k f f' : m !! k = Some f → uf_netPkt f' = uf_netPkt f → linked m P → linked (<[k := f']> m) P.
Proof.
  intros Hk E. apply linked_same. intros j. destruct (decide (j = k)) as [->|Hne]; [rewrite lookup_insert_eq, Hk; cbn; by f_equal|by rewrite lookup_insert_ne].
Qed.

Lemma list_find_eq (x : Z) (l : list Z) : x ∈ l → ∃ i, list_find (eq x) l = Some (i, x) ∧ l !! i = Some x.
Proof.
  intros Hx. destruct (list_find_elem_of (eq x) l x Hx eq_refl) as [[i y] Hi]. exists i. pose proof Hi as (H1 & <- & _)%list_find_Some. done.
Qed.

(** An element of a list without duplicates is replaced by a new one. *)
Lemma insert_elems (l : list Z) i x z : l !! i = Some x → NoDup l → z ∉ l →
  NoDup (<[i := z]> l) ∧ ∀ y, y ∈ <[i := z]> l ↔ y = z ∨ y ∈ l ∧ y ≠ x.
Proof.
  intros Hi Hnd Hz. pose proof (lookup_lt_Some _ _ _ Hi) as Hlt. assert (<[i := z]> l ≡ₚ z :: delete i l) as Hperm.
  { rewrite insert_take_drop by done. rewrite delete_take_drop. by rewrite Permutation_middle. }
  assert (∀ y, y ∈ delete i l ↔ y ∈ l ∧ y ≠ x) as Hdel.
  { intros y. apply (elem_of_delete_NoDup id l i x); [by rewrite list_fmap_id|done]. }
  split; [|intros y; by rewrite Hperm, elem_of_cons, Hdel]. rewrite Hperm. apply NoDup_cons. split; [rewrite Hdel; naive_solver|].
  eapply sublist_NoDup; [exact Hnd|apply sublist_delete].
Qed.

(** [swapRemove] takes out its element. *)
Lemma swapRemove_spec x (l : list Z) : x ∈ l → NoDup l → ∃ l', swapRemove x l = Some l' ∧ NoDup l' ∧ ∀ y, y ∈ l' ↔ y ∈ l ∧ y ≠ x.
Proof.
  intros Hx Hnd. destruct (list_find_eq x l Hx) as (i & Hf & Hi). unfold swapRemove. rewrite Hf. cbn [mbind option_bind].
  destruct (exists_last (l:=l)) as (l0 & z & ->); [by intros ->; apply elem_of_nil in Hx|]. rewrite last_snoc. cbn [mbind option_bind].
  rewrite length_app. cbn [length]. rewrite Nat.add_sub. eexists. split; [done|]. apply NoDup_app in Hnd as (Hnd & Hz & _).
  apply lookup_app_Some in Hi as [Hi|[Hi E]].
  - pose proof (lookup_lt_Some _ _ _ Hi) as Hlt. rewrite insert_app_l, take_app_length' by (rewrite ?length_insert; done).
    assert (z ∉ l0) as Hz0 by (intros Hin; apply (Hz z); [done|constructor]). destruct (insert_elems l0 i x z Hi Hnd Hz0) as [H1 H2]. split; [done|].
    intros y. rewrite H2, elem_of_app, list_elem_of_singleton. split; [|naive_solver]. intros [->|?]; [|naive_solver]. split; [by right|].
    intros ->. apply Hz0. by eapply list_elem_of_lookup_2.
  - destruct (i - length l0)%nat eqn:Ei; cbn in E; [|done]. injection E as ->. assert (i = length l0) as -> by lia.
    rewrite insert_app_r_alt, Nat.sub_diag by lia. cbn. rewrite take_app_length. split; [done|]. intros y. rewrite elem_of_app, list_elem_of_singleton.
    split; [intros Hy; split; [by left|]; intros ->; by apply (Hz x); [|constructor]|naive_solver].
Qed.

Definition withFrags (l : list Z) (didRetx : bool) (n : NetPkt) : NetPkt := mkNetPkt l (np_pkt n) (np_isInterest n) didRetx.

Lemma owner_other m m' P a n b n' : a ≠ b → owner m P a n →
  (∀ j, (∃ g, m' !! j = Some g ∧ uf_netPkt g = Some a) ↔ ∃ g, m !! j = Some g ∧ uf_netPkt g = Some a) → owner m' (<[b := n']> P) a n.
Proof. intros Hne [O1 O2 O3 O4] E. split; [by rewrite lookup_insert_ne|done..|]. intros j. by rewrite O4, E. Qed.

(** A fragment is acknowledged. *)
Lemma linked_ack m P k f a n l d : linked m P → m !! k = Some f → uf_netPkt f = Some a → owner m P a n →
  NoDup l → (∀ j, j ∈ l ↔ j ∈ np_unackedFrags n ∧ j ≠ k) → linked (delete k m) (<[a := withFrags l d n]> P).
Proof.
  intros Hl Hk Ha [O1 O2 O3 O4] Hnd Hin j g [Hne Hj]%lookup_delete_Some. destruct (Hl j g Hj) as (b & n' & Hb & Ow). exists b. destruct (decide (b = a)) as [->|Hab].
  - exists (withFrags l d n). split; [done|]. split; [by rewrite lookup_insert_eq|done..|]. intros i. cbn [withFrags np_unackedFrags]. rewrite Hin, O4.
    setoid_rewrite lookup_delete_Some. naive_solver.
  - exists n'. split; [done|]. apply owner_other with m; [done..|]. intros i. setoid_rewrite lookup_delete_Some. split; [naive_solver|].
    intros (h & Hh & Hhb). exists h. split; [|done]. split; [|done]. intros <-. congruence.
Qed.

(** All fragments of a network packet are given up. *)
Lemma linked_drop m m' P a : linked m P → (∀ k f, m' !! k = Some f ↔ m !! k = Some f ∧ uf_netPkt f ≠ Some a) → linked m' P.
Proof.
  intros Hl Hm k f Hk. apply Hm in Hk as [Hk Hne]. destruct (Hl k f Hk) as (b & n & Hb & [O1 O2 O3 O4]). exists b, n. split; [done|]. split; [done..|].
  intros j. rewrite O4. setoid_rewrite Hm. split; [|naive_solver]. intros (g & Hg & Hgb). exists g. split; [|done]. split; [done|congruence].
Qed.

(** A fragment gets a new number. *)
Lemma linked_renumber m P k k' f f' a n i d : linked m P → m !! k = Some f → m !! k' = None → uf_netPkt f = Some a → owner m P a n →
  uf_netPkt f' = Some a → np_unackedFrags n !! i = Some k →
  linked (delete k (<[k' := f']> m)) (<[a := withFrags (<[i := k']> (np_unackedFrags n)) d n]> P).
Proof.
  intros Hl Hk Hk' Ha [O1 O2 O3 O4] Ha' Hi. assert (k ≠ k') as Hkk by congruence. assert (k' ∉ np_unackedFrags n) as Hnew by (rewrite O4; naive_solver).
  destruct (insert_elems _ _ _ _ Hi O3 Hnew) as [Hnd2 Hel].
  assert (owner (delete k (<[k' := f']> m)) (<[a := withFrags (<[i := k']> (np_unackedFrags n)) d n]> P) a (withFrags (<[i := k']> (np_unackedFrags n)) d n)) as Hown.
  { split; [by rewrite lookup_insert_eq|done|..]; cbn [withFrags np_unackedFrags].
    - done.
    - intros j. rewrite Hel, O4. setoid_rewrite lookup_delete_Some. setoid_rewrite lookup_insert_Some. split.
      + intros [->|((g & Hg & Hga) & Hj)]; [by exists f'; auto|]. exists g. split; [|done]. split; [done|]. right. split; [congruence|done].
      + intros (g & (Hjk & [[<- <-]|[Hne Hg]]) & Hga); [by left|right; split; [eauto|done]]. }
  intros j g [Hjk [[<- <-]|[Hne Hg]]%lookup_insert_Some]%lookup_delete_Some; [eauto|]. destruct (Hl j g Hg) as (b & n' & Hb & Ow). exists b. destruct (decide (b = a)) as [->|Hab]; [eauto|].
  exists n'. split; [done|]. apply owner_other with m; [done..|]. intros i'. setoid_rewrite lookup_delete_Some. setoid_rewrite lookup_insert_Some. split; [naive_solver congruence|].
  intros (h & Hh & Hhb). exists h. split; [|done]. split; [congruence|]. right. split; [congruence|done].
Qed.

(** A new fragment of network packet [a]. *)
Lemma linked_track m P k f a n : linked m P → owner m P a n → m !! k = None → uf_netPkt f = Some a →
  let n' := withFrags (np_unackedFrags n ++ [k]) (np_didRetx n) n in
  linked (<[k := f]> m) (<[a := n']> P) ∧ owner (<[k := f]> m) (<[a := n']> P) a n'.
Proof.
  intros Hl [O1 O2 O3 O4] Hk Ha n'. assert (k ∉ np_unackedFrags n) as Hnew by (rewrite O4; naive_solver).
  assert (owner (<[k := f]> m) (<[a := n']> P) a n') as Hown.
  { split; [by rewrite lookup_insert_eq|done|..]; cbn [n' withFrags np_unackedFrags].
    - apply NoDup_app. split; [done|]. split; [intros x Hx ->%list_elem_of_singleton; done|apply NoDup_singleton].
    - intros j. rewrite elem_of_app, list_elem_of_singleton, O4. setoid_rewrite lookup_insert_Some. split; [intros [(g & Hg & Hga)| -> ]; [exists g; split; [right; split; [congruence|done]|done]|eauto]|].
      intros (g & [[<- <-]|[Hne Hg]] & Hga); [by right|left; eauto]. }
  split; [|done]. intros j g [[<- <-]|[Hne Hg]]%lookup_insert_Some; [eauto|]. destruct (Hl j g Hg) as (b & n0 & Hb & Ow). exists b. destruct (decide (b = a)) as [->|Hab]; [eauto|].
  exists n0. split; [done|]. apply owner_other with m; [done..|]. intros i. setoid_rewrite lookup_insert_Some. split; [naive_solver congruence|].
  intros (h & Hh & Hhb). exists h. split; [|done]. right. split; [congruence|done].
Qed.
End Linked.

(** ** The operations *)

Lemma decide_ext {A} (P Q : Prop) `{Decision P, Decision Q} (x y : A) :
  (P ↔ Q) → (if decide P then x else y) = (if decide Q then x else y).
Proof. intros E. destruct (decide P), (decide Q); naive_solver. Qed.

(** Reduce the projections of an updated state. *)
Ltac rel_simpl := cbn [set_rel ls_options ls_reassembler ls_rel ls_lastSeqNo ls_nextMarkTime ls_nMarked ls_counters ls_mtu ls_sendQueueLength ls_now ls_output
  set_unacked set_first set_ackQueue set_recent set_lastTx set_idleAckTimer set_rttEst set_netPkts set_relTimers
  rel_unackedFrags rel_firstUnackedFrag rel_ackQueue rel_recentRecvSeqs rel_recentRecvSeqsQueue rel_lastTxSeqNo rel_idleAckTimer rel_rttEst rel_netPkts rel_timers].

Section Operations.
Context {C : NetCodec} {L : LpCodec} {LL : LpCodecLaws L} {LM : LinkMath} {SC : Scheduler} {SL : SchedulerLaws SC}.
Implicit Types (s : LinkState) (k : Z) (f : UnackedFrag) (X : list Z).

Definition unacked s := rel_unackedFrags (ls_rel s).
Definition netPkts s := rel_netPkts (ls_rel s).

Definition CoreS X s : Prop :=
  Core X (op_maxRetx (ls_options s)) (unacked s) (rel_firstUnackedFrag (ls_rel s)) (rel_lastTxSeqNo (ls_rel s)) (rel_timers (ls_rel s)).

(** The numbers in use, from the first unacknowledged fragment on. *)
Definition inFlight s : Z := span (rel_firstUnackedFrag (ls_rel s)) (rel_lastTxSeqNo (ls_rel s)).

(** The configuration, which is left alone. *)
Record frame s s' : Prop := {
  fr_options : ls_options s' = ls_options s;
  fr_mtu : ls_mtu s' = ls_mtu s;
  fr_now : ls_now s' = ls_now s;
  fr_reassembler : ls_reassembler s' = ls_reassembler s;
}.

Lemma frame_refl s : frame s s.
Proof. done. Qed.

Lemma frame_trans s1 s2 s3 : frame s1 s2 → frame s2 s3 → frame s1 s3.
Proof. intros [] []. split; congruence. Qed.

Lemma frame_mtu s s' : frame s s' → mtuOk s → mtuOk s'.
Proof. intros [H1 H2 _ _]. by apply mtuOk_ext. Qed.

Lemma wp_modifyRel g (Q : unit → LinkState → Prop) s : wp (modifyRel g) Q s ↔ Q tt (set_rel (g (ls_rel s)) s).
Proof. done. Qed.

Lemma wp_getRel (Q : Reliability → LinkState → Prop) s : wp getRel Q s ↔ Q (ls_rel s) s.
Proof. done. Qed.

Lemma wp_getFrag k f (Q : UnackedFrag → LinkState → Prop) s : unacked s !! k = Some f → Q f s → wp (getFrag k) Q s.
Proof. intros Hk HQ. unfold getFrag. wp_step. apply wp_getRel. apply wp_someM. eauto. Qed.

Lemma wp_getNetPkt a n (Q : NetPkt → LinkState → Prop) s : netPkts s !! a = Some n → Q n s → wp (getNetPkt (Some a)) Q s.
Proof. intros Ha HQ. unfold getNetPkt. wp_step. apply wp_getRel. apply wp_someM. eauto. Qed.

(** What an operation on the window leaves alone. *)
Record kept s s' : Prop := {
  kp_frame : frame s s';
  kp_netPkts : netPkts s' = netPkts s;
  kp_last : rel_lastTxSeqNo (ls_rel s') = rel_lastTxSeqNo (ls_rel s);
  kp_acks : rel_ackQueue (ls_rel s') = rel_ackQueue (ls_rel s);
  kp_output : ls_output s' = ls_output s;
}.

Lemma deleteUnackedFrag_spec X s k f : CoreS X s → unacked s !! k = Some f →
  wp (deleteUnackedFrag k) (λ _ s', kept s s' ∧ CoreS X s' ∧ unacked s' = delete k (unacked s) ∧ inFlight s' ≤ inFlight s) s.
Proof.
  intros Hc Hk. pose proof (co_window _ _ _ _ _ _ Hc) as Hw. destruct (rel_firstUnackedFrag (ls_rel s)) as [first|] eqn:Ef.
  2: { pose proof (w_first _ _ _ Hw) as H. cbn in H. rewrite H in Hk. by rewrite lookup_empty in Hk. }
  destruct (w_first _ _ _ Hw) as [[g Hg] _]. unfold deleteUnackedFrag. wp_step. apply wp_getRel. rewrite Ef. wp_step. wp_step; [done|].
  wp_step. apply (wp_getFrag first g); [done|]. wp_step. apply (wp_getFrag k f); [done|]. wp_step. apply wp_modifyRel. wp_step. apply wp_modifyRel. wp_step. apply wp_getRel. rel_simpl.
  destruct (Window_delete (unacked s) (Some first) _ k Hw ltac:(by eexists)) as [Hw' Hs']. pose proof (Core_delete X _ _ _ _ _ k f _ Hc Hk Hw') as Hc'.
  set (m' := delete k (unacked s)) in *. fold (unacked s). fold m'. unfold inFlight. rewrite Ef.
  destruct (decide (m' = ∅)) as [Em|Em]; [rewrite !(bool_decide_true _ Em)|rewrite !(bool_decide_false _ Em)]; cbn [negb andb].
  { apply wp_modifyRel. by split. }
  destruct (decide (Some first = Some k)) as [[= <-]|Hne].
  - rewrite Z.eqb_refl. apply wp_modifyRel. by split.
  - destruct (Z.eqb_spec first k) as [->|_]; [done|]. wp_step. unfold CoreS. rel_simpl. rewrite Ef. split; [done|]. split; [done|]. split; [done|]. done.
Qed.

(** Several fragments are removed. *)
Lemma deleteOthers_spec X s k l : CoreS X s → NoDup l → (∀ j, j ∈ l → j ≠ k → is_Some (unacked s !! j)) →
  wp (deleteOthers k l) (λ removed s', kept s s' ∧ CoreS X s' ∧ inFlight s' ≤ inFlight s ∧ (∀ j, j ∈ removed ↔ j ∈ l ∧ j ≠ k) ∧
    ∀ j, unacked s' !! j = if decide (j ∈ l ∧ j ≠ k) then None else unacked s !! j) s.
Proof.
  revert s. induction l as [|i l IH]; intros s Hc Hnd Hin; cbn [deleteOthers].
  { wp_step. split; [done|]. split; [done|]. split; [done|]. split; [intros j; rewrite elem_of_nil; clear; tauto|]. intros j. rewrite decide_False; [done|]. intros [?%elem_of_nil _]. done. }
  apply NoDup_cons in Hnd as [Hi Hnd]. destruct (Z.eqb_spec i k) as [->|Hne].
  { eapply wp_mono; [apply IH; [done..|intros j Hj; apply Hin; by constructor]|]. intros rm s' (H1 & H2 & H3 & H4 & H5). split; [done|]. split; [done|]. split; [done|].
    split; [intros j; rewrite H4, elem_of_cons; clear; tauto|]. intros j. rewrite H5. apply decide_ext. rewrite elem_of_cons. clear. tauto. }
  destruct (Hin i ltac:(constructor) Hne) as [g Hg]. wp_step. apply (wp_getFrag i g); [done|]. wp_step. eapply wp_mono; [by apply (deleteUnackedFrag_spec X s i g)|].
  intros [] s1 (K1 & Hc1 & E1 & S1). wp_step. eapply wp_mono; [apply IH; [done..|]|].
  { intros j Hj Hjk. rewrite E1, lookup_delete_ne by (intros ->; done). apply Hin; [by constructor|done]. }
  intros rm s' (K2 & Hc2 & S2 & Hrm & Hm). wp_step. split; [|split; [done|split; [lia|split]]].
  - destruct K1 as [F1 N1 L1 A1 O1], K2 as [F2 N2 L2 A2 O2]. split; [by eapply frame_trans|congruence..].
  - intros j. rewrite elem_of_cons, Hrm, elem_of_cons. clear -Hne. split; [intros [->|?]|]; tauto.
  - intros j. rewrite Hm, E1. destruct (decide (j = i)) as [->|Hji].
    + rewrite lookup_delete_eq, (decide_True (P := i ∈ i :: l ∧ i ≠ k)) by (split; [constructor|done]). by case_decide.
    + rewrite lookup_delete_ne by done. apply decide_ext. rewrite elem_of_cons. clear -Hji. tauto.
Qed.

(** The component is in order, but for the fragments of [X]. *)
Record RelBut X s : Prop := {
  re_core : CoreS X s;
  re_linked : linked (unacked s) (netPkts s);
  re_enabled : op_relEnabled (ls_options s) = true;
  re_mtu : mtuOk s;
  re_max : 0 ≤ op_maxRetx (ls_options s);
}.

(** Between its operations there are none. *)
Definition Rel s : Prop := RelBut [] s.

Lemma assignTxSequence_spec X s p : CoreS X s → inFlight s + 1 < 2 ^ 64 →
  let k := seq64 (rel_lastTxSeqNo (ls_rel s) + 1) in
  wp (assignTxSequence p) (λ r s', r = (k, set_txSequence k p) ∧ s' = set_rel (set_lastTx k (ls_rel s)) s ∧ unacked s !! k = None) s.
Proof.
  intros Hc Hs k. pose proof (co_window _ _ _ _ _ _ Hc) as Hw. destruct (Window_fresh _ _ _ Hw Hs) as [Hnone Hne]. fold k in Hnone, Hne.
  unfold assignTxSequence. wp_step. apply wp_getRel. wp_step. apply wp_modifyRel. wp_step. fold (unacked s). fold k. case_bool_decide as Em; [by do 2 wp_step|].
  pose proof (w_first _ _ _ Hw) as Hf. destruct (rel_firstUnackedFrag (ls_rel s)) as [first|]; [|done]. destruct Hf as [[g Hg] _]. wp_step. wp_step; [done|].
  wp_step. apply (wp_getFrag first g); [done|]. wp_step; [|by wp_step]. specialize (Hne first eq_refl). by apply Z.eqb_neq in Hne as ->.
Qed.

(** A map with one element begins with it. *)
Lemma mapBegin_singleton {V} k (v : V) : mapBegin (<[k := v]> ∅) = Some k.
Proof.
  destruct (mapBegin _) as [j|] eqn:E.
  - apply mapBegin_Some in E as [[x [[<- _]|[_ Hj]]%lookup_insert_Some] _]; [done|by rewrite lookup_empty in Hj].
  - apply mapBegin_None in E. by apply insert_non_empty in E.
Qed.

Lemma size_insert_1 {V} (m : gmap Z V) k v : m !! k = None → (size (<[k := v]> m) =? 1)%nat = bool_decide (m = ∅).
Proof.
  intros Hk. rewrite map_size_insert_None by done. destruct (Nat.eqb_spec (S (size m)) 1) as [E|E]; symmetry.
  - apply bool_decide_true, map_size_empty_inv. lia.
  - apply bool_decide_false. intros ->. by rewrite map_size_empty in E.
Qed.

(** A new fragment in the window, with its timer started. *)
Lemma Core_track s k q a t T' : CoreS [] s → 0 ≤ op_maxRetx (ls_options s) → inFlight s + 1 < 2 ^ 64 → k = seq64 (rel_lastTxSeqNo (ls_rel s) + 1) → unacked s !! k = None →
  (∃ x, lp_sequence q = Present x) → lp_txSequence q = Present k → (∃ when, schedule when (RtoTimer k) (rel_timers (ls_rel s)) = (T', t)) →
  let g := mkUnacked q (Some t) (ls_now s) 0 0 (Some a) in
  let first' := if decide (unacked s = ∅) then Some k else rel_firstUnackedFrag (ls_rel s) in
  Core [] (op_maxRetx (ls_options s)) (<[k := g]> (unacked s)) first' k (cancel None T') ∧ span first' k ≤ inFlight s + 1.
Proof.
  intros Hc Hmax Hs Ek Hnone Hseq Htx [when Es] g first'. destruct (Window_insert (unacked s) _ _ g (co_window _ _ _ _ _ _ Hc) Hs) as [Hw' Hs']. rewrite <- Ek in Hw', Hs'. split; [|done].
  set (g0 := mkUnacked q None (ls_now s) 0 0 (Some a)). assert (Core [k] (op_maxRetx (ls_options s)) (<[k := g0]> (unacked s)) first' k (rel_timers (ls_rel s))) as H0.
  { eapply Core_insert; [eapply Core_shrink; [exact Hc|intros ? ?%elem_of_nil; done]|done| |by constructor| |done].
    - eapply Window_dom; [|exact Hw']. intros j. by rewrite !lookup_insert_is_Some'.
    - split; [done|intros Hn; destruct Hn; constructor|cbn; lia]. }
  pose proof (Core_schedule [k] [] _ _ _ _ _ k g0 _ T' t H0 ltac:(apply lookup_insert_eq) Es ltac:(intros j ->%list_elem_of_singleton; by left) Htx) as H1. by rewrite insert_insert_eq in H1.
Qed.

(** One fragment is numbered, stored and timed. *)
Lemma trackFragment_spec s a n p :
  Rel s → owner (unacked s) (netPkts s) a n → inFlight s + 1 < 2 ^ 64 → (∃ x, lp_sequence p = Present x) →
  wp (trackFragment (ls_now s) a p) (λ q s', frame s s' ∧ Rel s' ∧ (∃ n', owner (unacked s') (netPkts s') a n') ∧ inFlight s' ≤ inFlight s + 1 ∧
    let k := seq64 (rel_lastTxSeqNo (ls_rel s) + 1) in
    q = set_txSequence k p ∧ rel_lastTxSeqNo (ls_rel s') = k ∧ unacked s !! k = None ∧
    ∃ g, unacked s' = <[k := g]> (unacked s) ∧ uf_pkt g = q ∧ uf_retxCount g = 0) s.
Proof.
  intros [Hc Hl Hon Hm Hmax] Ho Hs Hseq. unfold trackFragment. wp_step. wp_step; [by destruct Hseq as [x ->]|]. wp_step.
  eapply wp_mono; [by apply (assignTxSequence_spec [])|]. intros [k q] s1 ([= Ek Eq] & -> & Hnone). cbn beta iota. wp_step. apply wp_getRel. rel_simpl. fold (unacked s).
  rewrite <- Ek in Hnone. rewrite Hnone. cbn [default from_option]. unfold scheduleRel. wp_step. do 2 wp_step. rel_simpl.
  destruct (schedule _ (RtoTimer k) (rel_timers (ls_rel s))) as [T' t] eqn:Es. wp_step. apply wp_modifyRel. wp_step.
  wp_step. apply wp_modifyRel. wp_step. apply wp_modifyRel. wp_step. apply wp_modifyRel. rel_simpl. cbn [uf_pkt uf_rtoTimer uf_retxCount uf_nGreaterSeqAcks id].
  fold (unacked s). rewrite size_insert_1 by done.
  destruct (Core_track s k q a t T' Hc Hmax Hs Ek Hnone) as [Hc' Hs']; [by subst q|subst q; by rewrite Ek|eauto|]. set (g := mkUnacked q (Some t) (ls_now s) 0 0 (Some a)) in *.
  destruct (linked_track (unacked s) (netPkts s) k g a n Hl Ho Hnone eq_refl) as [Hl' Ho']. set (n' := withFrags _ _ n) in *.
  wp_step. apply (wp_getNetPkt a n); [case_bool_decide; apply Ho|]. wp_step. apply wp_modifyRel. wp_step. rel_simpl.
  destruct (decide (unacked s = ∅)) as [Em|Em]; [rewrite (bool_decide_true _ Em)|rewrite (bool_decide_false _ Em)]; rel_simpl.
  - replace (mapBegin (<[k := g]> (unacked s))) with (Some k) by (by rewrite Em, mapBegin_singleton).
    rewrite <- Ek in *. split; [done|]. split; [by split|]. split; [by exists n'|]. split; [done|]. split; [done|]. split; [done|]. split; [done|]. by exists g.
  - rewrite <- Ek in *. split; [done|]. split; [by split|]. split; [by exists n'|]. split; [done|]. split; [done|]. split; [done|]. split; [done|]. by exists g.
Qed.

Lemma trackFragments_spec s a n ps :
  Rel s → owner (unacked s) (netPkts s) a n → inFlight s + len ps < 2 ^ 64 → (∀ p, p ∈ ps → ∃ x, lp_sequence p = Present x) →
  wp (trackFragments (ls_now s) a ps) (λ qs s', frame s s' ∧ Rel s' ∧ inFlight s' ≤ inFlight s + len ps ∧
    qs = imap (λ i p, set_txSequence (seq64 (rel_lastTxSeqNo (ls_rel s) + 1 + Z.of_nat i)) p) ps ∧
    unacked s ⊆ unacked s' ∧
    ∀ i q, qs !! i = Some q → ∃ g, unacked s' !! seq64 (rel_lastTxSeqNo (ls_rel s) + 1 + Z.of_nat i) = Some g ∧ uf_pkt g = q ∧ uf_retxCount g = 0) s.
Proof.
  revert s n. induction ps as [|p ps IH]; intros s n Hr Ho Hs Hseq; cbn [trackFragments].
  { wp_step. split; [done|]. split; [done|]. split; [cbn; lia|]. split; [done|]. split; [done|]. intros i q. by rewrite lookup_nil. }
  cbn [length] in *. rewrite Nat2Z.inj_succ in *. wp_step. eapply wp_mono; [apply (trackFragment_spec s a n p); [done..|lia|apply Hseq; constructor]|].
  intros q s1 (Hf & Hr1 & (n1 & Ho1) & Hs1 & Eq & El & Hnone & g & Eu & Eg & Erx). set (k := seq64 (rel_lastTxSeqNo (ls_rel s) + 1)) in *.
  wp_step. rewrite <- (fr_now _ _ Hf). eapply wp_mono; [apply (IH s1 n1); [done..|lia|intros p' Hp'; apply Hseq; by constructor]|].
  intros qs s2 (Hf2 & Hr2 & Hs2 & Eqs & Hsub & Hall). wp_step. split; [by eapply frame_trans|]. split; [done|]. split; [lia|].
  assert (∀ i, seq64 (rel_lastTxSeqNo (ls_rel s1) + 1 + Z.of_nat i) = seq64 (rel_lastTxSeqNo (ls_rel s) + 1 + Z.of_nat (S i))) as Enum.
  { intros i. rewrite El. unfold k. rewrite <- Z.add_assoc, seq64_add. f_equal. lia. }
  split; [|split].
  - rewrite Eqs, imap_cons, Z.add_0_r. f_equal; [done|]. apply imap_ext. intros i x _. cbn [compose]. unfold compose. by rewrite Enum.
  - etrans; [|exact Hsub]. rewrite Eu. by apply insert_subseteq.
  - intros [|i] x; cbn [lookup list_lookup]; [intros [= <-]|].
    + exists g. split; [|done]. rewrite Z.add_0_r. eapply lookup_weaken; [|exact Hsub]. rewrite Eu. apply lookup_insert_eq.
    + intros Hx. rewrite <- Enum. by apply Hall.
Qed.

(** A new network packet has no fragments yet. *)
Lemma owner_new m P a n : linked m P → P !! a = None → npOk n → np_unackedFrags n = [] → owner m (<[a := n]> P) a n ∧ linked m (<[a := n]> P).
Proof.
  intros Hl Ha Hn El. split.
  - split; [apply lookup_insert_eq|done|rewrite El; constructor|]. intros j. rewrite El, elem_of_nil. split; [done|]. intros (g & Hg & Hga).
    destruct (Hl j g Hg) as (b & n' & Hb & [O1 _ _ _]). congruence.
  - intros k f Hk. destruct (Hl k f Hk) as (b & n' & Hb & Ow). exists b, n'. split; [done|]. apply owner_other with m; [|done..]. intros ->. destruct Ow as [O1 _ _ _]. congruence.
Qed.

(** Outgoing fragments get consecutive TxSequence numbers and are remembered. *)
Lemma handleOutgoing_spec s ps p isI :
  Rel s → inFlight s + len ps < 2 ^ 64 → (∀ p, p ∈ ps → ∃ x, lp_sequence p = Present x) → npOk (mkNetPkt [] p isI false) →
  wp (handleOutgoing ps p isI) (λ qs s', frame s s' ∧ Rel s' ∧ inFlight s' ≤ inFlight s + len ps ∧
    qs = imap (λ i p, set_txSequence (seq64 (rel_lastTxSeqNo (ls_rel s) + 1 + Z.of_nat i)) p) ps ∧
    unacked s ⊆ unacked s' ∧
    ∀ i q, qs !! i = Some q → ∃ g, unacked s' !! seq64 (rel_lastTxSeqNo (ls_rel s) + 1 + Z.of_nat i) = Some g ∧ uf_pkt g = q ∧ uf_retxCount g = 0) s.
Proof.
  intros [Hc Hl Hon Hm Hmax] Hs Hseq Hok. unfold handleOutgoing. do 2 wp_step. wp_step. wp_step; [done|]. set (a := fresh _).
  assert (netPkts s !! a = None) as Ha by (apply not_elem_of_dom, is_fresh). destruct (owner_new _ _ a _ Hl Ha Hok eq_refl) as [Ho Hl'].
  wp_step. apply wp_modifyRel. set (s1 := set_rel _ s). change (ls_now s) with (ls_now s1).
  eapply wp_mono; [eapply (trackFragments_spec s1 a _ ps); [by split|exact Ho|done|done]|]. intros qs s' (H1 & H2 & H3). split; [|done]. destruct H1. by split.
Qed.
End Operations.
