(* ===== verification/LpRelSteps.v ===== *)
(** * The steps of the reliability component

    What an acknowledgement, a loss and a timer do to the window of unacknowledged
    fragments: each keeps the invariant, and none of them fails while the window has
    room for the fragments that are sent again. *)

From Stdlib Require Import ZArith Lia.
From stdpp Require Import base gmap option list.
From S2P Require Import Prelude Scheduler Ndn LpPacket LpFragmenter LpReassembler LinkState LpReliability.
From S2P Require Import LinkService LinkSpecs LinkMtu LpWindow LpRelSpecs.

Local Open Scope Z_scope.

Section Steps.
Context {C : NetCodec} {L : LpCodec} {LL : LpCodecLaws L} {LM : LinkMath} {SC : Scheduler} {SL : SchedulerLaws SC}.
Implicit Types (s : LinkState) (k : Z) (f : UnackedFrag) (X : list Z).

(** Counters are no part of the invariant. *)
Lemma wp_count c (Q : unit → LinkState → Prop) s : (∀ h, Q tt (set_counters h s)) → wp (count c) Q s.
Proof. intros H. unfold count. wp_step. apply H. Qed.

Lemma RelBut_frame Y X s s' : RelBut Y s → frame s s' → CoreS X s' → linked (unacked s') (netPkts s') → RelBut X s'.
Proof. intros [_ _ H1 H2 H3] F Hc Hl. pose proof F as [E _ _ _]. split; [done|done|by rewrite E|by eapply frame_mtu|by rewrite E]. Qed.

(** A fragment is acknowledged. *)
Lemma onLpPacketAcknowledged_spec X s k f : RelBut X s → unacked s !! k = Some f →
  wp (onLpPacketAcknowledged k) (λ _ s', frame s s' ∧ RelBut X s' ∧ unacked s' = delete k (unacked s) ∧ inFlight s' ≤ inFlight s) s.
Proof.
  intros HR Hk. pose proof HR as [Hc Hl _ _ _]. destruct (Hl k f Hk) as (a & n & Ha & Ho). pose proof Ho as [O1 O2 O3 O4].
  destruct (swapRemove_spec k (np_unackedFrags n)) as (l & El & Hnd & Hel); [apply O4; eauto|done|].
  unfold onLpPacketAcknowledged. wp_step. apply (wp_getFrag k f); [done|]. rewrite Ha. wp_step. apply (wp_getNetPkt a n); [done|].
  rewrite El. wp_step. wp_step; [done|]. wp_step. apply wp_modifyRel. wp_step.
  set (s1 := set_rel _ s). assert (∀ h, wp (deleteUnackedFrag k) (λ _ s', frame s s' ∧ RelBut X s' ∧ unacked s' = delete k (unacked s) ∧ inFlight s' ≤ inFlight s) (set_counters h s1)) as Hdel.
  { intros h. eapply wp_mono; [by apply (deleteUnackedFrag_spec X (set_counters h s1) k f)|]. intros [] s' ([F EP EL _ _] & Hc' & Eu & Hs').
    assert (frame s s') as F' by (destruct F; by split). split; [done|]. split; [|done]. apply (RelBut_frame X X s); [done..|]. rewrite Eu, EP. by apply (linked_ack _ _ k f a n). }
  destruct (bool_decide _); [|wp_step; apply (Hdel (ls_counters s))]. apply wp_count, Hdel.
Qed.

(** The last fragment of a network packet that is given up. *)
Lemma giveUp_last s s1 k f a n rm : RelBut [k] s → unacked s !! k = Some f → uf_netPkt f = Some a → owner (unacked s) (netPkts s) a n →
  frame s s1 → netPkts s1 = netPkts s → CoreS [k] s1 → inFlight s1 ≤ inFlight s → (∀ j, j ∈ rm ↔ j ∈ np_unackedFrags n ∧ j ≠ k) →
  (∀ j, unacked s1 !! j = if decide (j ∈ np_unackedFrags n ∧ j ≠ k) then None else unacked s !! j) →
  wp (deleteUnackedFrag k;; mret (rm ++ [k])) (λ removed s', frame s s' ∧ Rel s' ∧ inFlight s' ≤ inFlight s ∧ (∀ j, j ∈ removed ↔ j ∈ np_unackedFrags n) ∧
    (∀ j g, unacked s' !! j = Some g ↔ unacked s !! j = Some g ∧ j ∉ np_unackedFrags n) ∧ ls_output s' = ls_output s1) s1.
Proof.
  intros HR Hk Ha [O1 O2 O3 O4] F1 EP1 Hc1 Hs1 Hrm Hm1. pose proof (re_linked _ _ HR) as Hl. assert (k ∈ np_unackedFrags n) as Hin by (apply O4; eauto).
  wp_step. eapply wp_mono; [apply (deleteUnackedFrag_spec [k] s1 k f); [done|]|].
  { rewrite Hm1, decide_False; [done|]. clear. tauto. }
  intros [] s2 ([F2 EP2 EL2 _ EO2] & Hc2 & Eu & Hs2). wp_step.
  assert (∀ j g, unacked s2 !! j = Some g ↔ unacked s !! j = Some g ∧ j ∉ np_unackedFrags n) as Hm.
  { intros j g. rewrite Eu, lookup_delete_Some, Hm1. destruct (decide (j = k)) as [->|Hjk]; [clear -Hin; naive_solver|]. case_decide as Hd; clear -Hd Hjk; naive_solver. }
  assert (frame s s2) as F by (by eapply frame_trans). split; [done|]. split; [|split; [lia|split; [|by split]]].
  - apply (RelBut_frame [k] [] s); [done..| |].
    + eapply Core_shrink; [exact Hc2|]. intros j ->%list_elem_of_singleton. right. rewrite Eu. apply lookup_delete_eq.
    + rewrite EP2, EP1. eapply (linked_drop _ _ _ a Hl). intros j g. rewrite Hm, O4. clear. naive_solver.
  - intros j. rewrite elem_of_app, Hrm, list_elem_of_singleton. destruct (decide (j = k)) as [->|]; tauto.
Qed.

(** The notification for a network packet that is given up. *)
Definition droppedInterest (n : NetPkt) : list LinkOutput :=
  if np_isInterest n then match get (lp_fragment (np_pkt n)) ≫= interestOf with Some i => [OutDroppedInterest i] | None => [] end else [].

(** The fragments of a network packet are given up, the others stay. *)
Lemma giveUp_spec s k f a n : RelBut [k] s → unacked s !! k = Some f → uf_netPkt f = Some a → owner (unacked s) (netPkts s) a n →
  wp (giveUp k n) (λ removed s', frame s s' ∧ Rel s' ∧ inFlight s' ≤ inFlight s ∧ (∀ j, j ∈ removed ↔ j ∈ np_unackedFrags n) ∧
    (∀ j g, unacked s' !! j = Some g ↔ unacked s !! j = Some g ∧ j ∉ np_unackedFrags n) ∧ ls_output s' = ls_output s ++ droppedInterest n) s.
Proof.
  intros HR Hk Ha Ho. pose proof HR as [Hc Hl _ _ _]. pose proof Ho as [O1 O2 O3 O4].
  unfold giveUp. wp_step. eapply wp_mono; [apply (deleteOthers_spec [k]); [done..|]|].
  { intros j Hj _. apply O4 in Hj as (g & Hg & _). eauto. }
  intros rm s1 ([F1 EP1 EL1 _ EO1] & Hc1 & Hs1 & Hrm & Hm1). wp_step. apply wp_count. intros h. wp_step. unfold droppedInterest. rewrite <- EO1.
  destruct (np_isInterest n) eqn:Ei.
  - destruct (O2 Ei) as (b & i & Eb & Hb & Hi). rewrite Eb. wp_step. wp_step; [done|]. unfold notifyDroppedInterest. rewrite Hb. wp_step. wp_step; [done|].
    wp_step. apply wp_count. intros h'. unfold emit. wp_step. cbn [mbind option_bind get]. rewrite Hi.
    eapply wp_mono; [apply (giveUp_last s _ k f a n rm); try done; destruct F1; by split|]. intros rm' s' H. exact H.
  - wp_step. rewrite app_nil_r. eapply wp_mono; [apply (giveUp_last s _ k f a n rm); try done; destruct F1; by split|]. intros rm' s' H. exact H.
Qed.

(** The new number of a fragment that is sent again. *)
Definition renumbered (k' now : Z) f : UnackedFrag :=
  mkUnacked (set_txSequence k' (uf_pkt f)) None now (uf_retxCount f + 1) 0 (uf_netPkt f).

Lemma Core_renumber s k f f0 k' : CoreS [k] s → unacked s !! k = Some f → uf_retxCount f < op_maxRetx (ls_options s) → inFlight s + 1 < 2 ^ 64 →
  k' = seq64 (rel_lastTxSeqNo (ls_rel s) + 1) → unacked s !! k' = None →
  f0 = mkUnacked (set_txSequence k' (uf_pkt f)) (uf_rtoTimer f) (uf_sendTime f) (uf_retxCount f) (uf_nGreaterSeqAcks f) (uf_netPkt f) →
  Core [k; k'] (op_maxRetx (ls_options s)) (<[k' := renumbered k' (ls_now s) f]> (<[k := f0]> (unacked s))) (rel_firstUnackedFrag (ls_rel s)) k' (rel_timers (ls_rel s)) ∧
  span (rel_firstUnackedFrag (ls_rel s)) k' ≤ inFlight s + 1.
Proof.
  intros Hc Hk Hr Hs Ek Hk' Ef0. destruct (co_frag _ _ _ _ _ _ Hc k f Hk) as [H1 H2 H3]. assert (k ≠ k') as Hne by congruence.
  assert (Core [k; k'] (op_maxRetx (ls_options s)) (<[k := f0]> (unacked s)) (rel_firstUnackedFrag (ls_rel s)) (rel_lastTxSeqNo (ls_rel s)) (rel_timers (ls_rel s))) as H0.
  { eapply Core_update; [eapply Core_shrink; [exact Hc|intros j ->%list_elem_of_singleton; left; constructor]|exact Hk| |by subst f0].
    subst f0. split; [done|intros Hn; destruct Hn; constructor|done]. }
  assert (<[k := f0]> (unacked s) ≠ ∅) as Hne0 by apply insert_non_empty.
  destruct (Window_insert _ _ _ (renumbered k' (ls_now s) f) (co_window _ _ _ _ _ _ H0) Hs) as [Hw' Hs']. rewrite <- Ek, decide_False in Hw', Hs' by done. split; [|done].
  eapply Core_insert; [exact H0|by rewrite lookup_insert_ne|done|do 2 constructor| |done].
  split; [done|done|cbn; lia].
Qed.

Lemma delete_renumber {V} (m : gmap Z V) k k' v w : k ≠ k' → delete k (<[k' := v]> (<[k := w]> m)) = <[k' := v]> (delete k m).
Proof. intros Hne. rewrite delete_insert_ne by done. f_equal. apply delete_insert_eq. Qed.

(** A packet has been handed to [sendLpPacket], which has put the first acknowledgements
    of the queue on it. *)
Definition resent s s' (p : LpPacket) : Prop :=
  ∃ taken rest out, rel_ackQueue (ls_rel s) = taken ++ rest ∧ rel_ackQueue (ls_rel s') = rest ∧
    ls_output s' = ls_output s ++ out ∧ sentAs (ls_options s) (getEffectiveMtu s) p taken out.

(** The packet is sent and its timer started. *)
Lemma resend_spec X s k g0 (out : list Z) : RelBut (k :: X) s → unacked s !! k = Some g0 → (∀ j, j ∈ X → unacked s !! j = None) → lp_txSequence (uf_pkt g0) = Present k →
  wp (newTxFrag ← getFrag k;
      sendLpPacket (uf_pkt newTxFrag);;
      r ← getRel;
      timer ← scheduleRel (getEstimatedRto (rel_rttEst r)) (RtoTimer k);
      newTxFrag ← getFrag k;
      cancelRel (uf_rtoTimer newTxFrag);;
      putFrag k (mkUnacked (uf_pkt newTxFrag) (Some timer) (uf_sendTime newTxFrag) (uf_retxCount newTxFrag)
        (uf_nGreaterSeqAcks newTxFrag) (uf_netPkt newTxFrag));;
      mret out)
    (λ out' s', out' = out ∧ frame s s' ∧ Rel s' ∧ inFlight s' = inFlight s ∧
      resent s s' (uf_pkt g0) ∧
      ∃ g, unacked s' = <[k := g]> (unacked s) ∧ uf_pkt g = uf_pkt g0 ∧ uf_retxCount g = uf_retxCount g0 ∧ uf_netPkt g = uf_netPkt g0) s.
Proof.
  intros HR Hk HX Htx. pose proof HR as [Hc Hl Hon Hm Hmax]. wp_step. apply (wp_getFrag k g0); [done|]. wp_step.
  eapply wp_mono; [apply sendLpPacket_frame; [done..|]|].
  { unfold isBare. rewrite Htx. cbn [has]. by rewrite orb_true_r. }
  intros [] s1 (taken & rest & Eq & Er & Eo & Em & En & Era & _ & _ & Hout). wp_step. apply wp_getRel. unfold scheduleRel. do 3 wp_step.
  destruct (schedule _ (RtoTimer k) (rel_timers (ls_rel s1))) as [T' t] eqn:Es. wp_step. apply wp_modifyRel. wp_step.
  wp_step. apply (wp_getFrag k g0); [unfold unacked; rel_simpl; by rewrite Er|]. do 2 (wp_step; apply wp_modifyRel). wp_step. unfold inFlight, unacked. rel_simpl.
  rewrite Er in *. rel_simpl. cbn [set_ackQueue rel_timers] in Es. fold (unacked s) (netPkts s).
  pose proof (Core_schedule [k] [] _ _ _ _ _ k g0 _ T' t (Core_shrink _ (k :: []) _ _ _ _ _ Hc ltac:(intros j [->|Hj]%elem_of_cons; [left; constructor|right; auto])) Hk Es ltac:(intros j ->%list_elem_of_singleton; by left) Htx) as Hc'.
  set (g := mkUnacked _ _ _ _ _ _) in *. split; [done|]. split; [by split|].
  split; [|split; [done|split; [destruct Hout as (o & H1 & H2); exists taken, rest, o; unfold unacked in *; rel_simpl; by rewrite ?Er|by exists g]]].
  apply (RelBut_frame (k :: X) [] s); [done|by split|by unfold CoreS; rel_simpl; rewrite Eo|]. by apply (linked_insert_same _ _ k g0).
Qed.

(** A fragment is sent again under a new number. *)
Lemma retransmit_spec s k f a n : RelBut [k] s → unacked s !! k = Some f → uf_netPkt f = Some a → owner (unacked s) (netPkts s) a n →
  uf_retxCount f < op_maxRetx (ls_options s) → inFlight s + 1 < 2 ^ 64 →
  wp (retransmit k f n) (λ removed s', frame s s' ∧ Rel s' ∧ inFlight s' ≤ inFlight s + 1 ∧ removed = [k] ∧
    let k' := seq64 (rel_lastTxSeqNo (ls_rel s) + 1) in resent s s' (set_txSequence k' (uf_pkt f)) ∧
    ∃ g, unacked s' = <[k' := g]> (delete k (unacked s)) ∧ uf_pkt g = set_txSequence k' (uf_pkt f) ∧ uf_retxCount g = uf_retxCount f + 1 ∧ uf_netPkt g = uf_netPkt f) s.
Proof.
  intros HR Hk Ha Ho Hretx Hs. pose proof HR as [Hc Hl Hon Hm Hmax]. pose proof Ho as [O1 O2 O3 O4].
  destruct (list_find_eq k (np_unackedFrags n)) as (i & Hf & Hi); [apply O4; eauto|].
  unfold retransmit. wp_step. eapply wp_mono; [by apply (assignTxSequence_spec [k])|]. intros [k' q] s1 ([= Ek Eq] & -> & Hk'). cbn beta iota. rewrite <- Ek in Eq, Hk'. subst q.
  assert (k ≠ k') as Hne by congruence. wp_step. apply wp_modifyRel. do 2 wp_step. rel_simpl. fold (unacked s). rewrite lookup_insert_ne, Hk' by done. cbn [default from_option].
  wp_step. apply wp_modifyRel. rewrite Hf. wp_step. wp_step; [done|]. rewrite Ha. wp_step. apply wp_modifyRel. rel_simpl. cbn [uf_pkt uf_rtoTimer uf_retxCount uf_nGreaterSeqAcks uf_sendTime].
  fold (unacked s) (netPkts s). rewrite <- Ha. set (f0 := mkUnacked _ (uf_rtoTimer f) _ _ _ _).
  destruct (Core_renumber s k f f0 k') as [Hc1 Hs1]; [done..|].
  set (s1 := set_rel _ _). wp_step. eapply wp_mono; [apply (deleteUnackedFrag_spec [k; k'] s1 k f0)|].
  { unfold CoreS, unacked. subst s1. rel_simpl. by rewrite <- Ek. }
  { unfold unacked. subst s1. rel_simpl. by rewrite lookup_insert_ne, lookup_insert_eq. }
  intros [] s2 ([F2 EP2 EL2 EA2 EO2] & Hc2 & Eu2 & Hs2).
  assert (unacked s2 = <[k' := renumbered k' (ls_now s) f]> (delete k (unacked s))) as Eu by (rewrite Eu2; by apply delete_renumber).
  assert (RelBut [k'; k] s2) as HR2.
  { apply (RelBut_frame [k] _ s); [done|destruct F2; by split|..].
    - eapply Core_shrink; [exact Hc2|]. intros j Hj. left. clear -Hj. set_solver.
    - rewrite Eu, EP2, <- (delete_insert_ne (unacked s)) by done. subst s1. unfold netPkts at 1. rel_simpl. by apply (linked_renumber _ _ k k' f _ a n i true). }
  eapply wp_mono; [apply (resend_spec [k] s2 k' (renumbered k' (ls_now s) f)); [done| | |done]|].
  - rewrite Eu. apply lookup_insert_eq.
  - intros j ->%list_elem_of_singleton. rewrite Eu, lookup_insert_ne by done. apply lookup_delete_eq.
  - intros out s3 (-> & F3 & HR3 & Hs3 & (taken & rest & out' & R1 & R2 & R3 & R4) & g & Eg & G1 & G2 & G3). split; [destruct F2, F3; by split; etrans|]. split; [done|]. split; [etrans; [|exact Hs1]; rewrite Hs3; etrans; [exact Hs2|]; unfold inFlight; subst s1; rel_simpl; by rewrite <- Ek|].
    split; [done|]. rewrite <- Ek. split; [|exists g; rewrite Eg, Eu, insert_insert_eq; done].
    exists taken, rest, out'. split; [by rewrite <- R1, EA2|]. split; [done|]. split; [by rewrite R3, EO2|].
    destruct F2 as [X1 X2 _ _]. unfold getEffectiveMtu in *. rewrite X1, X2 in R4. exact R4.
Qed.

(** ** Losses *)

(** What the loss of a fragment does.  When its retransmissions are used up, it is given up
    together with the other fragments of its network packet, and the strategy is told if
    that was an Interest.  Otherwise it gets the next TxSequence, is handed to
    [sendLpPacket] under that number, and stays in the map with its count increased. *)
Definition lostOutcome s k f s' : Prop :=
  if decide (op_maxRetx (ls_options s) ≤ uf_retxCount f) then
    (∀ j g, unacked s' !! j = Some g ↔ unacked s !! j = Some g ∧ uf_netPkt g ≠ uf_netPkt f) ∧
    ∃ a n, uf_netPkt f = Some a ∧ netPkts s !! a = Some n ∧ ls_output s' = ls_output s ++ droppedInterest n
  else
    let k' := seq64 (rel_lastTxSeqNo (ls_rel s) + 1) in
    resent s s' (set_txSequence k' (uf_pkt f)) ∧
    ∃ g, unacked s' = <[k' := g]> (delete k (unacked s)) ∧ uf_pkt g = set_txSequence k' (uf_pkt f) ∧ uf_retxCount g = uf_retxCount f + 1 ∧ uf_netPkt g = uf_netPkt f.

Lemma onLpPacketLost_spec X s k f : RelBut X s → (∀ j, j ∈ X → j = k) → unacked s !! k = Some f → inFlight s + 1 < 2 ^ 64 →
  wp (onLpPacketLost k) (λ removed s', frame s s' ∧ Rel s' ∧ inFlight s' ≤ inFlight s + 1 ∧ k ∈ removed ∧
    (∀ j, is_Some (unacked s !! j) → j ∉ removed → is_Some (unacked s' !! j)) ∧ lostOutcome s k f s') s.
Proof.
  intros HR HX Hk Hs. pose proof HR as [Hc Hl _ _ _]. destruct (Hl k f Hk) as (a & n & Ha & Ho). pose proof Ho as [O1 O2 O3 O4].
  destruct (co_frag _ _ _ _ _ _ Hc k f Hk) as [[q Eq] _ _]. unfold onLpPacketLost. wp_step. apply (wp_getFrag k f); [done|]. wp_step. apply wp_modifyRel.
  set (s1 := set_rel _ s). assert (RelBut [k] s1) as HR1.
  { apply (RelBut_frame X [k] s); [done..| |done]. eapply Core_shrink; [by apply (Core_cancel X _ _ _ _ _ k f)|]. intros j [->|Hj]%elem_of_cons; [left; constructor|]. rewrite (HX j Hj). left. constructor. }
  rewrite Ha, Eq. wp_step. apply (wp_getNetPkt a n); [done|]. wp_step. wp_step; [done|]. do 2 wp_step. change (ls_options s1) with (ls_options s).
  destruct (Z.leb_spec (op_maxRetx (ls_options s)) (uf_retxCount f)) as [Hmx|Hmx].
  - eapply wp_mono; [by apply (giveUp_spec s1 k f a n)|]. intros rm s' (F & HR' & Hs' & Hrm & Hm & Hout). change (unacked s1) with (unacked s) in Hm.
    split; [destruct F; by split|]. split; [done|]. split; [change (inFlight s1) with (inFlight s) in Hs'; lia|]. split; [apply Hrm, O4; eauto|]. split.
    + intros j [g Hg] Hj. exists g. apply Hm. split; [done|]. by rewrite <- Hrm.
    + unfold lostOutcome. rewrite decide_True by done. split; [intros j g; rewrite Hm, O4, Ha; clear; naive_solver|]. exists a, n. done.
  - eapply wp_mono; [by apply (retransmit_spec s1 k f a n)|]. intros rm s' (F & HR' & Hs' & -> & Hre & g & Eu & G). change (unacked s1) with (unacked s) in Eu.
    split; [destruct F; by split|]. split; [done|]. split; [done|]. split; [constructor|]. split; [|unfold lostOutcome; rewrite decide_False by lia; split; [exact Hre|by exists g]]. intros j Hj Hn. rewrite Eu.
    apply lookup_insert_is_Some'. right. rewrite lookup_delete_ne; [done|]. intros <-. apply Hn. constructor.
Qed.

(** The fragments sent before [t], in a window that starts at [k]. *)
Definition before (k t j : Z) : Prop := j ≠ t ∧ dist k j ≤ dist k t.

#[global] Instance before_dec k t j : Decision (before k t j).
Proof. unfold before. apply _. Defined.

Definition bump f : UnackedFrag :=
  mkUnacked (uf_pkt f) (uf_rtoTimer f) (uf_sendTime f) (uf_retxCount f) (uf_nGreaterSeqAcks f + 1) (uf_netPkt f).

(** The map after an acknowledgement of [t]. *)
Definition bumped (k t : Z) (m : gmap Z UnackedFrag) : gmap Z UnackedFrag := map_imap (λ j f, Some (if decide (before k t j) then bump f else f)) m.

Lemma lookup_bumped k t m j : bumped k t m !! j = (λ f, if decide (before k t j) then bump f else f) <$> m !! j.
Proof. unfold bumped. rewrite map_lookup_imap. by destruct (m !! j). Qed.

Lemma before_step {V} (m : gmap Z V) k t : (∀ i, is_Some (m !! i) → is64 i) → is_Some (m !! k) → is_Some (m !! t) → k ≠ t →
  ∃ k2, cyclicNext k m = Some k2 ∧ is_Some (m !! k2) ∧ (∀ j, is_Some (m !! j) → (before k t j ↔ j = k ∨ before k2 t j)) ∧ ¬ before k2 t k.
Proof.
  intros H64 Hk Ht Hne. destruct (cyclicNext_step m k t H64 Hk Ht Hne) as (k2 & E2 & Hk2 & Hk2k & Hd2 & Hstep). exists k2. split; [done|]. split; [done|].
  unfold before. split; [|intros [_ H]; by apply (Hstep k Hk)]. intros j Hj. destruct (Hstep j Hj) as [-> _]. naive_solver.
Qed.

Lemma bumped_step (m : gmap Z UnackedFrag) k k2 t f : m !! k = Some f → (∀ j, is_Some (m !! j) → (before k t j ↔ j = k ∨ before k2 t j)) → ¬ before k2 t k →
  bumped k2 t (<[k := bump f]> m) = bumped k t m.
Proof.
  intros Hk Hb Hbk. apply map_eq. intros j. rewrite !lookup_bumped. destruct (decide (j = k)) as [->|Hj].
  - rewrite lookup_insert_eq, Hk. cbn [fmap option_fmap option_map]. rewrite decide_False by done. rewrite decide_True; [done|]. apply Hb; [by eexists|by left].
  - rewrite lookup_insert_ne by done. destruct (m !! j) as [g|] eqn:Ej; [|done]. cbn [fmap option_fmap option_map]. f_equal. apply decide_ext. rewrite (Hb j) by by eexists. naive_solver.
Qed.

Lemma lost_step (m : gmap Z UnackedFrag) k k2 t f thr lost : m !! k = Some f → (∀ j, is_Some (m !! j) → (before k t j ↔ j = k ∨ before k2 t j)) → ¬ before k2 t k → NoDup lost →
  (∀ j, j ∈ lost ↔ ∃ g, <[k := bump f]> m !! j = Some g ∧ before k2 t j ∧ thr ≤ uf_nGreaterSeqAcks g + 1) →
  let lost' := if thr <=? uf_nGreaterSeqAcks f + 1 then k :: lost else lost in
  NoDup lost' ∧ ∀ j, j ∈ lost' ↔ ∃ g, m !! j = Some g ∧ before k t j ∧ thr ≤ uf_nGreaterSeqAcks g + 1.
Proof.
  intros Hk Hb Hbk Hnd Hl lost'. assert (k ∉ lost) as Hnew by (rewrite Hl; naive_solver). assert (∀ j, j ≠ k → j ∈ lost ↔ ∃ g, m !! j = Some g ∧ before k t j ∧ thr ≤ uf_nGreaterSeqAcks g + 1) as Hother.
  { intros j Hj. rewrite Hl, lookup_insert_ne by done. split; intros (g & Hg & H1 & H2); exists g; (split; [done|split; [|done]]); apply (Hb j ltac:(by eexists)) || apply (Hb j ltac:(by eexists)) in H1; [by right|by destruct H1]. }
  assert (before k t k) as Hkk by (apply Hb; [by eexists|by left]). unfold lost'. destruct (Z.leb_spec thr (uf_nGreaterSeqAcks f + 1)) as [Ht|Ht].
  - split; [by apply NoDup_cons|]. intros j. rewrite elem_of_cons. destruct (decide (j = k)) as [->|Hj]; [naive_solver|rewrite Hother by done; naive_solver].
  - split; [done|]. intros j. destruct (decide (j = k)) as [->|Hj]; [|by apply Hother]. split; [done|]. intros (g & Hg & _ & H). rewrite Hk in Hg. injection Hg as <-. lia.
Qed.

(** The walk passes the fragments before the acknowledged one, once each. *)
Lemma findLost_spec fuel s k t it : let m := unacked s in
  (∀ i, is_Some (m !! i) → is64 i) → is_Some (m !! k) → is_Some (m !! t) → match it with None => mapBegin m | Some j => Some j end = Some k →
  (size (filter (before k t) (dom m)) < fuel)%nat →
  wp (findLost fuel t it) (λ lost s', s' = set_rel (set_unacked (bumped k t m) (ls_rel s)) s ∧ NoDup lost ∧
    ∀ j, j ∈ lost ↔ ∃ f, m !! j = Some f ∧ before k t j ∧ op_seqNumLossThreshold (ls_options s) ≤ uf_nGreaterSeqAcks f + 1) s.
Proof.
  intros m. revert s k it m. induction fuel as [|fuel IH]; intros s k it m H64 Hk Ht Eit Hf; [lia|]. cbn [findLost]. do 2 wp_step. fold (unacked s). fold m. rewrite Eit.
  wp_step. wp_step; [done|]. pose proof Hk as [f Ef]. wp_step. apply (wp_getFrag k f); [done|]. destruct (Z.eqb_spec k t) as [<-|Hne].
  { wp_step. assert (∀ j, is_Some (m !! j) → ¬ before k k j) as Hno.
    { intros j Hj [Hjk Hd]. rewrite dist_same in Hd. pose proof (dist_bounds k j). apply Hjk. symmetry. apply dist_0; [auto..|lia]. }
    split; [|split; [constructor|]].
    - assert (bumped k k m = m) as ->; [|by destruct s as [? ? [] ? ? ? ? ? ? ? ?]]. apply map_eq. intros j. rewrite lookup_bumped. destruct (m !! j) eqn:Ej; [|done]. cbn. by rewrite decide_False by eauto.
    - intros j. rewrite elem_of_nil. split; [done|]. intros (g & Hg & Hb & _). by apply (Hno j); [eexists|]. }
  wp_step. apply wp_modifyRel. pose (s1 := set_rel (set_unacked (<[k := bump f]> m) (ls_rel s)) s). match goal with |- wp _ _ ?x => change x with s1 end.
  assert (∀ j, is_Some (unacked s1 !! j) ↔ is_Some (m !! j)) as Hd.
  { intros j. change (unacked s1) with (<[k := bump f]> m). rewrite lookup_insert_is_Some'. split; [intros [<-|]; done|auto]. }
  destruct (before_step m k t H64 Hk Ht Hne) as (k2 & E2 & Hk2 & Hb & Hbk).
  pose proof (bumped_step m k k2 t f Ef Hb Hbk) as Ebump. pose proof (lost_step m k k2 t f (op_seqNumLossThreshold (ls_options s))) as Hlost.
  wp_step. eapply wp_mono; [apply (IH s1 k2)|].
  - intros i Hi. by apply H64, Hd.
  - by apply Hd.
  - by apply Hd.
  - rewrite <- E2. unfold cyclicNext. destruct (mapNext k m); [done|]. by apply mapBegin_dom.
  - apply Nat.lt_le_trans with (size (filter (before k t) (dom m))); [|lia]. apply subset_size. split.
    + intros j [Hj1 Hj2]%elem_of_filter. rewrite elem_of_dom, Hd in Hj2. apply elem_of_filter. rewrite elem_of_dom. split; [apply Hb; auto|done].
    + intros Hsub. apply Hbk. apply (elem_of_filter (before k2 t) (dom (unacked s1)) k), Hsub, elem_of_filter. rewrite elem_of_dom. split; [apply Hb; auto|done].
  - intros lost s' (-> & Hnd & Hl). wp_step. change (unacked s1) with (<[k := bump f]> m) in *. change (ls_options s1) with (ls_options s) in Hl. split.
    + by rewrite <- Ebump.
    + by apply Hlost.
Qed.

Lemma bumped_same {A} (h : UnackedFrag → A) k t m j : (∀ f, h (bump f) = h f) → h <$> bumped k t m !! j = h <$> m !! j.
Proof. intros Hh. rewrite lookup_bumped. destruct (m !! j); [|done]. cbn. f_equal. case_decide; [apply Hh|done]. Qed.

Lemma Core_bumped X mx m first last T k t : Core X mx m first last T → Core X mx (bumped k t m) first last T.
Proof.
  intros [Hw Hf Ho Ht Hp].
  assert (∀ j g, bumped k t m !! j = Some g → ∃ f, m !! j = Some f ∧ uf_pkt f = uf_pkt g ∧ uf_rtoTimer f = uf_rtoTimer g ∧ uf_retxCount f = uf_retxCount g) as H1.
  { intros j g. rewrite lookup_bumped, fmap_Some. intros (f & Hf' & ->). exists f. by case_decide. }
  split.
  - eapply Window_dom; [|exact Hw]. intros j. by rewrite lookup_bumped, fmap_is_Some.
  - intros j g Hg. destruct (H1 j g Hg) as (f & Hj & E1 & E2 & E3). destruct (Hf j f Hj) as [F1 F2 F3]. rewrite E1, ?E3 in *. by split.
  - intros j g t' Hg Hgt. destruct (H1 j g Hg) as (f & Hj & E1 & E2 & E3). apply (Ho j f); [done|congruence].
  - intros j g Hg Hn. destruct (H1 j g Hg) as (f & Hj & E1 & E2 & E3). rewrite <- E2. eauto.
  - intros t' d j H. destruct (Hp t' d j H) as (f & Hj & Hjt). rewrite lookup_bumped, Hj. cbn. eexists. split; [done|]. by case_decide.
Qed.

(** The fragments that an acknowledgement of [t] declares lost. *)
Definition isLost s t j : Prop :=
  ∃ first f, rel_firstUnackedFrag (ls_rel s) = Some first ∧ unacked s !! j = Some f ∧ before first t j ∧ op_seqNumLossThreshold (ls_options s) ≤ uf_nGreaterSeqAcks f + 1.

Lemma findLostLpPackets_spec X s t : RelBut X s → is_Some (unacked s !! t) →
  wp (findLostLpPackets t) (λ lost s', frame s s' ∧ RelBut X s' ∧ inFlight s' = inFlight s ∧ NoDup lost ∧ (∀ j, j ∈ lost ↔ isLost s t j) ∧
    ∃ first, rel_firstUnackedFrag (ls_rel s) = Some first ∧ unacked s' = bumped first t (unacked s)) s.
Proof.
  intros HR Ht. pose proof HR as [Hc Hl _ _ _]. pose proof (co_window _ _ _ _ _ _ Hc) as [Hk Hlast Hfirst]. unfold findLostLpPackets. wp_step. apply wp_getRel. fold (unacked s).
  destruct (rel_firstUnackedFrag (ls_rel s)) as [first|] eqn:Ef; [|rewrite Hfirst in Ht; by apply lookup_empty_is_Some in Ht]. destruct Hfirst as [Hff _].
  eapply wp_mono; [apply (findLost_spec _ s first t (Some first)); [done..|]|].
  { apply Nat.lt_succ_r. rewrite <- size_dom. apply subseteq_size. by intros j [_ ?]%elem_of_filter. }
  intros lost s' (-> & Hnd & Hlost). split; [done|]. split; [|split; [done|split; [done|split; [|by exists first]]]].
  - apply (RelBut_frame X X s); [done..| |].
    + unfold CoreS, unacked. rel_simpl. by apply Core_bumped.
    + unfold unacked, netPkts. rel_simpl. eapply linked_same; [|exact Hl]. intros j. by apply bumped_same.
  - intros j. rewrite Hlost. unfold isLost. rewrite Ef. split; [intros (f & H); by exists first, f|]. intros (first' & f & [= <-] & H). by exists f.
Qed.

(** Lost fragments are resent or given up, one after the other. *)
Lemma lostOutcome_size s k f s' : unacked s !! k = Some f → lostOutcome s k f s' → (size (unacked s') ≤ size (unacked s))%nat.
Proof.
  intros Hk. unfold lostOutcome. case_decide.
  - intros [Hm _]. apply map_subseteq_size, map_subseteq_spec. intros j g Hg. by apply Hm in Hg as [? _].
  - intros (_ & g & -> & _). rewrite map_size_insert, map_size_delete, Hk. cbn [id]. assert (size (unacked s) ≠ 0%nat); [|destruct (delete k (unacked s) !! _); cbn [id]; lia].
    intros E%map_size_empty_inv. by rewrite E, lookup_empty in Hk.
Qed.

Lemma handleLost_spec s lost removed : Rel s → (∀ j, j ∈ lost → j ∉ removed → is_Some (unacked s !! j)) → inFlight s + len lost < 2 ^ 64 → NoDup lost →
  wp (handleLost lost removed) (λ _ s', frame s s' ∧ Rel s' ∧ inFlight s' ≤ inFlight s + len lost ∧ (size (unacked s') ≤ size (unacked s))%nat) s.
Proof.
  revert s removed. induction lost as [|k lost IH]; intros s removed HR Hin Hs Hnd; cbn [handleLost].
  { wp_step. split; [done|]. split; [done|]. split; [cbn; lia|done]. }
  cbn [length] in *. rewrite Nat2Z.inj_succ in *. apply NoDup_cons in Hnd as [Hk Hnd]. case_bool_decide as Hrm.
  { eapply wp_mono; [apply IH; [done| |lia|done]|]; [intros j Hj; apply Hin; by constructor|]. intros [] s' (F & HR' & Hs' & Hz). split; [done|]. split; [done|]. split; [lia|done]. }
  destruct (Hin k ltac:(constructor) Hrm) as [f Hf]. wp_step. eapply wp_mono; [apply (onLpPacketLost_spec [] s k f); [done| |done|lia]|]; [by intros j ?%elem_of_nil|].
  intros rm s1 (F1 & HR1 & Hs1 & Hrm1 & Hkeep & Ho). apply lostOutcome_size in Ho; [|done]. eapply wp_mono; [apply IH; [done| |lia|done]|].
  - intros j Hj Hn. rewrite elem_of_app in Hn. apply Hkeep; [apply Hin; [by constructor|]|]; tauto.
  - intros [] s' (F & HR' & Hs' & Hz). split; [by eapply frame_trans|]. split; [done|]. split; lia.
Qed.

(** ** Acknowledgements and received packets *)

Lemma lost_length s t lost : is_Some (unacked s !! t) → NoDup lost → (∀ j, j ∈ lost ↔ isLost s t j) → (length lost < size (unacked s))%nat.
Proof.
  intros Ht Hnd Hl. rewrite <- size_dom. rewrite <- (size_list_to_set (C := gset Z) lost) by done. apply subset_size. split.
  - intros j Hj%elem_of_list_to_set. apply Hl in Hj as (first & f & _ & Hj & _). apply elem_of_dom. by eexists.
  - intros Hsub. apply elem_of_dom in Ht. apply Hsub in Ht. apply elem_of_list_to_set in Ht. by apply Hl in Ht as (first & f & _ & _ & [H _] & _).
Qed.

(** What follows once the timer of the acknowledged fragment is stopped. *)
Lemma ackStep_spec s t : RelBut [t] s → is_Some (unacked s !! t) → inFlight s + Z.of_nat (size (unacked s)) < 2 ^ 64 →
  wp (lost ← findLostLpPackets t; onLpPacketAcknowledged t;; handleLost lost [])
    (λ _ s', frame s s' ∧ Rel s' ∧ inFlight s' ≤ inFlight s + Z.of_nat (size (unacked s)) ∧ (size (unacked s') ≤ size (unacked s))%nat ∧
      ((∀ j, ¬ isLost s t j) → ∃ first, rel_firstUnackedFrag (ls_rel s) = Some first ∧ unacked s' = delete t (bumped first t (unacked s)))) s.
Proof.
  intros HR Ht Hs. wp_step. eapply wp_mono; [by apply (findLostLpPackets_spec [t] s)|].
  intros lost s1 (F1 & HR1 & Hs1 & Hnd & Hlost & first & Ef & Eu1). pose proof (lost_length s t lost Ht Hnd Hlost) as Hlen.
  assert (∀ j, is_Some (unacked s1 !! j) ↔ is_Some (unacked s !! j)) as Hd1 by (intros j; by rewrite Eu1, lookup_bumped, fmap_is_Some).
  destruct (proj2 (Hd1 t) Ht) as [f1 Hf1]. wp_step. eapply wp_mono; [by apply (onLpPacketAcknowledged_spec [t] s1 t f1)|]. intros [] s2 (F2 & HR2 & Eu2 & Hs2).
  assert (Rel s2) as HR2'.
  { destruct HR2 as [Hc2 ? ? ? ?]. split; [|done..]. eapply Core_shrink; [exact Hc2|]. intros j ->%list_elem_of_singleton. right. rewrite Eu2. apply lookup_delete_eq. }
  assert (size (unacked s2) ≤ size (unacked s))%nat as Hz2.
  { rewrite <- !size_dom. apply subseteq_size. intros j. rewrite !elem_of_dom, Eu2, <- Hd1. intros [g [_ Hg]%lookup_delete_Some]. by eexists. }
  assert (frame s s2) as F by (by eapply frame_trans). destruct lost as [|k lost].
  { cbn [handleLost]. wp_step. split; [done|]. split; [done|]. split; [lia|]. split; [done|]. intros _. exists first. by rewrite Eu2, Eu1. }
  eapply wp_mono; [apply (handleLost_spec s2 (k :: lost) []); [done| |lia|done]|].
  - intros j Hj _. apply Hlost in Hj as (first' & g & _ & Hg & [Hjt _] & _). rewrite Eu2, lookup_delete_ne by done. apply Hd1. by eexists.
  - intros [] s3 (F3 & HR3 & Hs3 & Hz3). split; [by eapply frame_trans|]. split; [done|]. split; [lia|]. split; [lia|].
    intros Hno. destruct (Hno k). apply Hlost. constructor.
Qed.

(** An acknowledged fragment is gone; those sent before it count one more
    acknowledgement, and are lost when they reach the threshold. *)
Lemma processAck_spec s t : Rel s → inFlight s + Z.of_nat (size (unacked s)) < 2 ^ 64 →
  wp (processAck t) (λ _ s', frame s s' ∧ Rel s' ∧ inFlight s' ≤ inFlight s + Z.of_nat (size (unacked s)) ∧ (size (unacked s') ≤ size (unacked s))%nat ∧
    (is_Some (unacked s !! t) → (∀ j, ¬ isLost s t j) → ∃ first, rel_firstUnackedFrag (ls_rel s) = Some first ∧ unacked s' = delete t (bumped first t (unacked s))) ∧
    (unacked s !! t = None → s' = s)) s.
Proof.
  intros HR Hs. unfold processAck. do 2 wp_step. fold (unacked s). destruct (unacked s !! t) as [f|] eqn:Et.
  2: { wp_step. split; [done|]. split; [done|]. split; [lia|]. split; [done|]. split; [by intros [? ?]|done]. }
  wp_step. apply wp_modifyRel. set (s1 := set_rel _ s). assert (RelBut [t] s1) as HR1.
  { destruct HR as [Hc ? ? ? ?]. split; [|done..]. by apply (Core_cancel [] _ _ _ _ _ t f). }
  wp_step. set (Q := λ (_ : unit) s2, wp _ _ s2). assert (∀ e, Q tt (set_rel (set_rttEst e (ls_rel s1)) s1)) as HQ.
  { intros e. unfold Q. set (s2 := set_rel _ s1). eapply wp_mono; [apply (ackStep_spec s2 t); [destruct HR1; by split|by eexists|done]|].
    intros [] s' (F & HR' & H1 & H2 & H3). split; [destruct F; by split|]. split; [done|]. split; [done|]. split; [done|]. split; [intros _; exact H3|done]. }
  destruct (uf_retxCount f =? 0); [apply wp_modifyRel, HQ|wp_step; apply (HQ (rel_rttEst (ls_rel s1)))].
Qed.

Lemma processAcks_spec s acks : Rel s → inFlight s + len acks * Z.of_nat (size (unacked s)) < 2 ^ 64 →
  wp (forM acks processAck) (λ _ s', frame s s' ∧ Rel s' ∧ inFlight s' ≤ inFlight s + len acks * Z.of_nat (size (unacked s)) ∧ (size (unacked s') ≤ size (unacked s))%nat) s.
Proof.
  revert s. induction acks as [|t acks IH]; intros s HR Hs; cbn [forM length] in *; [wp_step; split_and!; [done..|lia|lia]|].
  rewrite Nat2Z.inj_succ in *. wp_step. eapply wp_mono; [apply processAck_spec; [done|nia]|]. intros [] s1 (F1 & HR1 & Hs1 & Hz1 & _).
  eapply wp_mono; [apply IH; [done|nia]|]. intros [] s2 (F2 & HR2 & Hs2 & Hz2). split; [by eapply frame_trans|]. split; [done|]. split; [nia|lia].
Qed.

(** Only the window and its timers matter: the idle timer is another event. *)
Lemma Core_otherTimer X mx m first last T when T' i : Core X mx m first last T → schedule when IdleAckTimer T = (T', i) → Core X mx m first last T'.
Proof.
  intros [Hw Hf Ho Ht Hp] Es. destruct (schedule_spec _ _ _ _ _ Es) as (Hfresh & Hiss & Epend).
  assert (∀ t, sched_issued T t → t ≠ i) as Hne by (intros t H ->; done). split; [done|done|..].
  - intros k f t Hk Hft. destruct (Ho k f t Hk Hft) as [H1 H2]. split; [apply Hiss; by left|]. intros d ev. rewrite Epend, lookup_insert_ne by (symmetry; auto). apply H2.
  - intros k f Hk Hn. destruct (Ht k f Hk Hn) as (t & d & H1 & H2). exists t, d. split; [done|]. rewrite Epend, lookup_insert_ne; [done|]. intros <-. apply (Hne i); [|done]. apply pending_issued. by eexists.
  - intros t d k. rewrite Epend. intros [[_ H]|[_ H]]%lookup_insert_Some; [done|eauto].
Qed.

Lemma startIdleAckTimer_spec s : Rel s → wp startIdleAckTimer (λ _ s', frame s s' ∧ Rel s' ∧ inFlight s' = inFlight s ∧ unacked s' = unacked s) s.
Proof.
  intros HR. unfold startIdleAckTimer. do 2 wp_step. cbv zeta. destruct (match rel_idleAckTimer _ with Some _ => _ | None => _ end); [by wp_step|].
  unfold scheduleRel. wp_step. do 2 wp_step. destruct (schedule _ _ _) as [T' i] eqn:Es. wp_step. apply wp_modifyRel. wp_step. apply wp_modifyRel.
  split; [done|]. split; [|done]. destruct HR as [Hc ? ? ? ?]. split; [|done..]. eapply Core_otherTimer; [exact Hc|exact Es].
Qed.

(** A received packet: the acknowledgements it carries, then the one it asks for. *)
Lemma processIncomingPacket_spec s p : Rel s → inFlight s + len (lp_acks p) * Z.of_nat (size (unacked s)) < 2 ^ 64 →
  wp (processIncomingPacket p) (λ _ s', frame s s' ∧ Rel s' ∧ inFlight s' ≤ inFlight s + len (lp_acks p) * Z.of_nat (size (unacked s)) ∧ (size (unacked s') ≤ size (unacked s))%nat) s.
Proof.
  intros HR Hs. unfold processIncomingPacket. do 2 wp_step. wp_step. wp_step; [by destruct HR|]. destruct (mapM get (lp_acks p)) as [acks|] eqn:Ea; [|wp_step; split_and!; [done..|lia|lia]].
  pose proof (length_mapM _ _ _ Ea) as El. wp_step. eapply wp_mono; [apply processAcks_spec; [done|by rewrite <- El]|]. rewrite <- El. intros [] s1 (F1 & HR1 & Hs1 & Hz1).
  destruct (has (lp_fragment p) && has (lp_txSequence p)); [|by wp_step]. destruct (get (lp_txSequence p)); [|by wp_step]. wp_step. apply wp_modifyRel.
  assert (∀ (r : option bool) s2, Rel s2 → frame s s2 → inFlight s2 = inFlight s1 → unacked s2 = unacked s1 →
    wp (startIdleAckTimer;; mret r) (λ _ s', frame s s' ∧ Rel s' ∧ inFlight s' ≤ inFlight s + len (lp_acks p) * Z.of_nat (size (unacked s)) ∧ (size (unacked s') ≤ size (unacked s))%nat) s2) as Hidle.
  { intros r s2 HR2 F2 Hs2 Eu2. wp_step. eapply wp_mono; [by apply startIdleAckTimer_spec|]. intros [] s3 (F3 & HR3 & Hs3 & Eu3). wp_step. split; [by eapply frame_trans|].
    split; [done|]. rewrite Hs3, Hs2, Eu3, Eu2. done. }
  assert (∀ g, rel_unackedFrags (g (ls_rel s1)) = unacked s1 → rel_netPkts (g (ls_rel s1)) = netPkts s1 → rel_timers (g (ls_rel s1)) = rel_timers (ls_rel s1) →
    rel_firstUnackedFrag (g (ls_rel s1)) = rel_firstUnackedFrag (ls_rel s1) → rel_lastTxSeqNo (g (ls_rel s1)) = rel_lastTxSeqNo (ls_rel s1) → Rel (set_rel (g (ls_rel s1)) s1)) as Hrel.
  { intros g E1 E2 E3 E4 E5. destruct HR1 as [Hc ? ? ? ?]. split; [unfold CoreS, unacked; rel_simpl; by rewrite E1, E3, E4, E5|unfold unacked, netPkts; rel_simpl; by rewrite E1, E2|done..]. }
  destruct (lp_sequence p) as [| |q].
  - apply Hidle; [by apply (Hrel (λ r, set_ackQueue _ r))|destruct F1; by split|done..].
  - wp_step. split; [destruct F1; by split|]. split; [by apply (Hrel (λ r, set_ackQueue _ r))|done].
  - wp_step. unfold noteReceived. do 2 wp_step. cbv zeta. destruct (expireRecent _ _ _ _) as [queue recent]. wp_step. apply wp_modifyRel. wp_step.
    apply Hidle; [by apply (Hrel (λ r, set_recent _ _ (set_ackQueue _ r)))|destruct F1; by split|done..].
Qed.
End Steps.
