(* ===== verification/LinkRun.v ===== *)
(** * Runs of a reliable link service

    The events of a link service whose reliability is enabled: packets to send, blocks
    received, timers, and the passing of time. *)

From Stdlib Require Import ZArith Lia.
From stdpp Require Import base gmap option list.
From S2P Require Import Prelude Scheduler Ndn LpPacket LpFragmenter LpReassembler LinkState LpReliability.
From S2P Require Import LinkService LinkSpecs LinkMtu LpWindow LpRelSpecs LpRelSteps.

Local Open Scope Z_scope.

Section Run.
Context {C : NetCodec} {CL : NetCodecLaws C} {L : LpCodec} {LL : LpCodecLaws L} {LM : LinkMath} {SC : Scheduler} {SL : SchedulerLaws SC}.
Implicit Types (s : LinkState) (k : Z) (f : UnackedFrag) (p : LpPacket) (w : LpWire).

(** The window stays as it is. *)
Record sameWindow s s' : Prop := {
  sw_frame : frame s s';
  sw_rel : Rel s';
  sw_unacked : unacked s' = unacked s;
  sw_inFlight : inFlight s' = inFlight s;
}.

Lemma sameWindow_refl s : Rel s → sameWindow s s.
Proof. intros H. by split. Qed.

Lemma sameWindow_trans s1 s2 s3 : sameWindow s1 s2 → sameWindow s2 s3 → sameWindow s1 s3.
Proof. intros [F1 R1 U1 I1] [F2 R2 U2 I2]. split; [by eapply frame_trans|done|congruence..]. Qed.

(** Sending takes acknowledgements off the queue, and what it takes it sends. *)
Lemma sendLpPacket_taken s p : Rel s → isBare p = false →
  wp (sendLpPacket p) (λ _ s', sameWindow s s' ∧ ∃ taken out, rel_ackQueue (ls_rel s) = taken ++ rel_ackQueue (ls_rel s') ∧
    ls_output s' = ls_output s ++ out ∧ sentAs (ls_options s) (getEffectiveMtu s) p taken out ∧
    (taken ≠ [] → len taken * ackSize ≤ ackSpace p (getEffectiveMtu s))) s.
Proof.
  intros HR Hb. pose proof HR as [Hc Hl Hon Hm Hmax]. eapply wp_mono; [by apply sendLpPacket_frame|]. intros [] s' (taken & rest & E & Er & Eo & Em & En & Era & H1 & _ & out & H2 & H3).
  assert (unacked s' = unacked s) as Eu by (unfold unacked; by rewrite Er). assert (frame s s') as F by by split.
  split; [|exists taken, out; by rewrite Er]. split; [done| |done|unfold inFlight; by rewrite Er].
  apply (RelBut_frame [] [] s); [done..| |].
  - unfold CoreS. by rewrite Eu, Er, Eo.
  - rewrite Eu. unfold netPkts. by rewrite Er.
Qed.

Lemma sendLpPacket_Rel s p : Rel s → isBare p = false → wp (sendLpPacket p) (λ _ s', sameWindow s s') s.
Proof. intros HR Hb. eapply wp_mono; [by apply sendLpPacket_taken|]. by intros [] s' [H _]. Qed.

Lemma sendLpPackets_Rel s ps : Rel s → (∀ p, p ∈ ps → isBare p = false) → wp (forM ps sendLpPacket) (λ _ s', sameWindow s s') s.
Proof.
  revert s. induction ps as [|p ps IH]; intros s HR Hb; cbn [forM]; [wp_step; by apply sameWindow_refl|].
  wp_step. eapply wp_mono; [apply sendLpPacket_Rel; [done|apply Hb; constructor]|]. intros [] s1 H1. eapply wp_mono; [apply IH; [apply H1|intros q Hq; apply Hb; by constructor]|].
  intros [] s2 H2. by eapply sameWindow_trans.
Qed.

(** The acknowledgements of the queue leave in IDLE packets, group by group, in order;
    without congestion marking each of these packets is sent. *)
Definition acksSent s s' : Prop :=
  ∃ groups outs, rel_ackQueue (ls_rel s) = concat groups ∧ ls_output s' = ls_output s ++ concat outs ∧
    Forall2 (sentAs (ls_options s) (getEffectiveMtu s) emptyLp) groups outs ∧
    (op_allowCongestionMarking (ls_options s) = false →
      outs = (λ g, [OutPacket (lpEncode (foldl (λ q k, add_ack k q) emptyLp g))]) <$> groups).

(** An IDLE packet that is not marked is within the MTU. *)
Lemma idle_fits s taken out : Rel s → ¬ 0 ≤ getEffectiveMtu s < 16 → (taken ≠ [] → len taken * ackSize ≤ ackSpace emptyLp (getEffectiveMtu s)) →
  sentAs (ls_options s) (getEffectiveMtu s) emptyLp taken out → op_allowCongestionMarking (ls_options s) = false →
  out = [OutPacket (lpEncode (foldl (λ q k, add_ack k q) emptyLp taken))].
Proof.
  intros [_ _ _ Hm _] He Ht (q & [->|[Hc _]] & ->) Hno; [|congruence]. rewrite decide_True; [done|].
  assert (wireSize (lpEncode emptyLp) = 2) as E2.
  { rewrite wireSize_value by done. unfold valueSize. rewrite otherSize_empty. change (fragmentSize emptyLp) with 0. done. }
  pose proof (filled_size emptyLp (getEffectiveMtu s) taken) as Hfit. rewrite E2 in Hfit. unfold packetLimit, MTU_UNLIMITED, MAX_NDN_PACKET_SIZE in *.
  destruct (mtuOk_effective s Hm) as [[Eu _]|[Hle _]]; [by left|right]. destruct (Z.eqb_spec (getEffectiveMtu s) (-1)); [lia|].
  rewrite bool_decide_eq_false_2 in Hfit by lia. rewrite Z.add_0_r in Hfit. apply Hfit; [done|lia|lia|done].
Qed.

(** The idle-Ack timer empties the queue. *)
Lemma sendIdlePackets_Rel fuel s : Rel s → ¬ 0 ≤ getEffectiveMtu s < 16 → (length (rel_ackQueue (ls_rel s)) ≤ fuel)%nat →
  wp (sendIdlePackets fuel) (λ _ s', (sameWindow s s' ∧ acksSent s s') ∧ rel_ackQueue (ls_rel s') = []) s.
Proof.
  intros HR He Hf. apply wp_and; [|apply sendIdlePackets_ends; [apply HR|apply HR|done..]].
  assert (∀ s, Rel s → rel_ackQueue (ls_rel s) = [] → sameWindow s s ∧ acksSent s s) as H0.
  { intros s0 HR0 E0. split; [by apply sameWindow_refl|]. exists [], []. rewrite app_nil_r. split; [done|]. split; [done|]. split; [constructor|done]. }
  revert s HR He Hf. induction fuel as [|fuel IH]; intros s HR He Hf; cbn [sendIdlePackets]; unfold getRel; do 2 wp_step.
  - destruct (rel_ackQueue (ls_rel s)) eqn:E; [|cbn in Hf; lia]. wp_step; [by apply bool_decide_true|by apply H0].
  - case_bool_decide as Eq; [wp_step; by apply H0|]. pose proof HR as [_ _ Hon Hm _]. wp_step. eapply wp_mono.
    { apply wp_and; [by apply (sendLpPacket_taken s emptyLp)|by apply requestIdlePacket_spec]. }
    intros [] s' ([H1 (taken & out & T1 & T2 & T3 & T4)] & _ & _ & H3 & H4). rewrite decide_False in H4 by done.
    eapply wp_mono; [apply IH; [apply H1|by rewrite H3|lia]|]. intros [] s2 [H2 (groups & outs & G1 & G2 & G3 & G4)]. split; [by eapply sameWindow_trans|].
    pose proof H1 as [[Eo _ _ _] _ _ _]. rewrite Eo, H3 in G3. rewrite Eo in G4.
    exists (taken :: groups), (out :: outs). cbn [concat]. rewrite T1, G1, G2, T2, app_assoc. split; [done|]. split; [done|]. split; [by constructor|].
    intros Hno. cbn. rewrite G4 by done. f_equal. by apply (idle_fits s).
Qed.

(** ** Timers *)

Lemma Core_cancelOther X mx m first last T t d : Core X mx m first last T → sched_pending T !! t = Some (d, IdleAckTimer) → Core X mx m first last (cancel (Some t) T).
Proof.
  intros [Hw Hf Ho Ht Hp] Hd. destruct (cancel_spec (Some t) T) as [Hi _]. split; [done|done|..].
  - intros k f t' Hk Hft. destruct (Ho k f t' Hk Hft) as [H1 H2]. split; [by apply Hi|]. intros d' ev [_ H]%cancel_pending. eauto.
  - intros k f Hk Hn. destruct (Ht k f Hk Hn) as (t' & d' & H1 & H2). exists t', d'. split; [done|]. apply cancel_pending. split; [|done]. intros [= <-]. congruence.
  - intros t' d' k [_ H]%cancel_pending. eauto.
Qed.

(** A timer of the component runs: a fragment is lost, or acknowledgements are sent. *)
Lemma runRelTimer_spec fuel s t : Rel s → inFlight s + 1 < 2 ^ 64 → ¬ 0 ≤ getEffectiveMtu s < 16 → (length (rel_ackQueue (ls_rel s)) ≤ fuel)%nat →
  wp (runRelTimer fuel t) (λ _ s', frame s s' ∧ Rel s' ∧ inFlight s' ≤ inFlight s + 1 ∧
    match sched_pending (rel_timers (ls_rel s)) !! t with
    | None => s' = s
    | Some (_, RtoTimer k) => ∃ f, unacked s !! k = Some f ∧ lostOutcome s k f s'
    | Some (_, IdleAckTimer) => unacked s' = unacked s ∧ rel_ackQueue (ls_rel s') = [] ∧ acksSent s s'
    end) s.
Proof.
  intros HR Hs He Hf. pose proof HR as [Hc Hl _ _ _]. unfold runRelTimer. wp_step. apply wp_getRel. destruct (sched_pending (rel_timers (ls_rel s)) !! t) as [[d ev]|] eqn:Ep.
  2: { wp_step. split; [done|]. split; [done|]. split; [lia|done]. }
  wp_step. apply wp_modifyRel. set (s1 := set_rel _ s). destruct ev as [k|].
  - destruct (co_pending _ _ _ _ _ _ Hc t d k Ep) as (f & Hk & Hft). assert (RelBut [k] s1) as HR1.
    { apply (RelBut_frame [] [k] s); [done..| |done]. pose proof (Core_cancel [] _ _ _ _ _ k f Hc Hk) as H. by rewrite Hft in H. }
    wp_step. eapply wp_mono; [apply (onLpPacketLost_spec [k] s1 k f); [done|by intros j ?%list_elem_of_singleton|done..]|]. intros rm s' (F & HR' & Hs' & _ & _ & Ho). wp_step.
    split; [destruct F; by split|]. split; [done|]. split; [done|]. exists f. split; [done|]. exact Ho.
  - assert (Rel s1) as HR1. { apply (RelBut_frame [] [] s); [done..| |done]. by eapply Core_cancelOther. }
    eapply wp_mono; [by apply (sendIdlePackets_Rel fuel s1)|]. intros [] s' [[[F HR' Eu Ei] Hsent] Eq]. split; [destruct F; by split|]. split; [done|]. split; [rewrite Ei; change (inFlight s1) with (inFlight s); lia|]. split; [exact Eu|]. split; [done|exact Hsent].
Qed.

(** ** Packets to send *)

(** The link has room for the feature fields. *)
Definition sendable s : Prop := fragmentMtu (ls_options s) (getEffectiveMtu s) = MTU_UNLIMITED ∨ 0 ≤ fragmentMtu (ls_options s) (getEffectiveMtu s).

(** The largest number of fragments of a packet. *)
Definition maxFragments s : Z := Z.max 1 (op_fragmenterMax (ls_options s)).

(** The fragments made are sequenced, or there are none. *)
Lemma makeFragments_any o mtu p b s : whole p b →
  wp (makeFragments o mtu p) (λ made s', sameLink s s' ∧
    match made with
    | None => True
    | Some fs => ∃ front, head fs = Some front ∧ len fs ≤ Z.max 1 (op_fragmenterMax o) ∧ has (lp_fragment front) = true ∧ (length fs = 1%nat → front = p)
    end) s.
Proof.
  intros Hw. pose proof Hw as [Hb Hne Hi Hc]. destruct (op_allowFragmentation o && negb (mtu =? MTU_UNLIMITED)) eqn:E.
  2: { unfold makeFragments. rewrite E. wp_step. split; [done|]. exists p. cbn. rewrite Hb. split; [done|]. split; [lia|done]. }
  apply andb_true_iff in E as [Ef Em]. apply negb_true_iff, Z.eqb_neq in Em. eapply wp_mono; [by apply (makeFragments_spec o mtu p b)|]. intros made s'.
  destruct (planned _ _ _ _ _) as [ps|] eqn:Ep; [|by intros (-> & ? & _)]. intros (-> & f & fs & -> & [(-> & -> & ->)|[Hlen Ha]]); (split; [done|]).
  - exists p. cbn. rewrite Hb. split; [done|]. split; [lia|done].
  - exists f. split; [done|]. pose proof (f_equal length Ha) as El. rewrite assignSequences_length in El. rewrite El in Hlen |- *. unfold planned in Ep.
    destruct (decide (_ ≤ mtu)) as [_|_]; [injection Ep as <-; cbn in Hlen; lia|]. destruct (decide (mtu ≤ _)) as [|_]; [done|]. destruct (decide (_ < _)) as [|Hmx]; [done|]. apply (inj Some) in Ep as <-.
    rewrite assignSequences_length in *. split; [lia|]. split; [|lia]. rewrite !assignSequences_spec in Ha. apply (f_equal head) in Ha.
    destruct (fragmentsOf p b mtu) as [|g gs] eqn:Eg; [done|]. destruct (fragmentsOf_lookup p b mtu 0 g) as (c & q & -> & _); [by rewrite Eg|]. cbn in Ha.
    apply (inj Some), (f_equal lp_fragment) in Ha. cbn in Ha. by rewrite Ha.
Qed.

(** A packet is sent reliably. *)
Lemma sendNetPacket_rel s p b isI : Rel s → whole p b → sendable s → inFlight s + maxFragments s < 2 ^ 64 → (isI = true → isBlock b = true ∧ is_Some (interestOf b)) →
  wp (sendNetPacket p isI) (λ _ s', frame s s' ∧ Rel s' ∧ inFlight s' ≤ inFlight s + maxFragments s ∧ unacked s ⊆ unacked s') s.
Proof.
  intros HR Hw Hm Hs Hint. pose proof HR as [Hc Hl Hon Hmtu Hmax]. pose proof Hw as [Hb Hne Hi Hcnt]. unfold sendNetPacket. do 2 wp_step. wp_step.
  wp_step; [destruct Hm as [->|Hm]; [done|apply orb_true_iff; right; by apply Z.leb_le]|]. wp_step. eapply wp_mono; [by apply (makeFragments_any _ _ p b)|].
  intros made s1 [G Hmade]. assert (Rel s1 ∧ frame s s1 ∧ inFlight s1 = inFlight s ∧ unacked s1 = unacked s) as (HR1 & F1 & Hs1 & Eu1).
  { destruct G as [Go Gr Grel Gl Gm Gq Gn]. assert (frame s s1) as F by by split. split; [|split; [done|unfold inFlight, unacked; by rewrite Grel]].
    apply (RelBut_frame [] [] s); [done|done|unfold CoreS, unacked; by rewrite Grel, Go|unfold unacked, netPkts; by rewrite Grel]. }
  destruct made as [fs|]; [|wp_step; split; [done|]; split; [done|]; split; [rewrite Hs1; unfold maxFragments; lia|by rewrite Eu1]]. destruct Hmade as (front & Eh & Hlen & Hfr & Hone).
  rewrite Eh. wp_step. wp_step; [done|]. do 2 (wp_step; wp_step; [destruct (Nat.eqb_spec (length fs) 1) as [E|]; [rewrite (Hone E), ?Hi, ?Hcnt|]; done|]).
  rewrite Hon, Hfr. cbn [orb andb]. pose proof (assignSequences_spec (ls_lastSeqNo s) fs) as Hseq. destruct (assignSequences _ fs) as [last sent]. cbn [snd] in Hseq. do 4 wp_step.
  set (s2 := set_lastSeqNo last s1). wp_step. eapply wp_mono; [apply (handleOutgoing_spec s2 sent p isI)|].
  - destruct HR1. by split.
  - subst sent. rewrite length_imap. change (inFlight s2) with (inFlight s1). unfold maxFragments in Hs. lia.
  - subst sent. intros q (i & g & -> & _)%elem_of_lookup_imap. by eexists.
  - intros HI. destruct (Hint HI) as [H1 [i H2]]. eauto.
  - intros qs s3 (F3 & HR3 & Hs3 & Eqs & Hsub & _). eapply wp_mono; [apply sendLpPackets_Rel; [done|]|].
    { subst qs. intros q (i & g & -> & _)%elem_of_lookup_imap. unfold isBare. cbn [has lp_txSequence set_txSequence]. by rewrite orb_true_r. }
    intros [] s4 [F4 HR4 Eu4 Ei4]. split; [destruct F1, F3, F4; split; etrans; eauto; by etrans|]. split; [done|]. rewrite Ei4, Eu4. change (unacked s2) with (unacked s1) in Hsub. rewrite <- Eu1. split; [|done].
    subst sent. rewrite length_imap in Hs3. change (inFlight s2) with (inFlight s1) in Hs3. unfold maxFragments. lia.
Qed.

(** ** The events *)

Record LinkInv s : Prop := {
  li_rel : Rel s;
  li_reassembler : ReassemblerInv (ls_reassembler s);
  li_sendable : sendable s;
  li_idle : ¬ 0 ≤ getEffectiveMtu s < 16;
}.

Lemma LinkInv_next s s' : LinkInv s → Rel s' → ReassemblerInv (ls_reassembler s') → ls_options s' = ls_options s → ls_mtu s' = ls_mtu s → LinkInv s'.
Proof.
  intros [H1 H2 H3 H4] HR HI Eo Em. assert (getEffectiveMtu s' = getEffectiveMtu s) as Ee by (unfold getEffectiveMtu; by rewrite Eo, Em).
  split; [done..| |by rewrite Ee]. unfold sendable. by rewrite Eo, Ee.
Qed.

Lemma LinkInv_frame s s' : LinkInv s → Rel s' → frame s s' → LinkInv s'.
Proof. intros HI HR [F1 F2 F3 F4]. apply (LinkInv_next s); [done..| |done|done]. rewrite F4. apply HI. Qed.

Inductive LinkEvent :=
  | PacketToSend (n : NetPacket) (t : Tags)
  | BlockReceived (w : LpWire) (ep : Z)
  | ReliabilityTimer (t : positive)
  | ReassemblyTimer (t : positive)
  | TimePasses (now : Z)
  | QueueChanges (n : Z).

Definition set_sendQueueLength (n : Z) s : LinkState :=
  mkLink (ls_options s) (ls_reassembler s) (ls_rel s) (ls_lastSeqNo s) (ls_nextMarkTime s) (ls_nMarked s)
    (ls_counters s) (ls_mtu s) n (ls_now s) (ls_output s).

Definition linkStep (e : LinkEvent) : M LinkState unit :=
  match e with
  | PacketToSend n t => sendNet n t
  | BlockReceived w ep => doReceivePacket w ep
  | ReliabilityTimer t => r ← getRel; runRelTimer (length (rel_ackQueue r)) t
  | ReassemblyTimer t => runReassemblyTimer t
  | TimePasses now => modify (set_now now)
  | QueueChanges n => modify (set_sendQueueLength n)
  end.

(** The TxSequence numbers an event may need. *)
Definition needed s (e : LinkEvent) : Z :=
  match e with
  | PacketToSend _ _ => maxFragments s
  | BlockReceived w _ => match lpDecode w with Some p => len (lp_acks p) * Z.of_nat (size (unacked s)) | None => 0 end
  | ReliabilityTimer _ => 1
  | _ => 0
  end.

(** There is room for them, and the numbers of a received block are in range. *)
Definition admissible s (e : LinkEvent) : Prop :=
  inFlight s + needed s e < 2 ^ 64 ∧ match e with BlockReceived w _ => wireOk w | _ => True end.

Lemma doReceivePacket_rel s w ep : LinkInv s → admissible s (BlockReceived w ep) → wp (doReceivePacket w ep) (λ _ s', LinkInv s') s.
Proof.
  intros HI [Hs Hok]. cbn [needed] in Hs. unfold doReceivePacket. destruct (lpDecode w) as [p|] eqn:Ed.
  2: { apply wp_count. intros h. destruct HI as [[] ? ? ?]. by split. }
  do 2 wp_step. pose proof HI as [[_ _ Hon _ _] _ _ _]. rewrite Hon. wp_step. eapply wp_mono; [apply processIncomingPacket_spec; [apply HI|done]|]. intros r s1 (F1 & HR1 & _ & _).
  pose proof (LinkInv_frame s s1 HI HR1 F1) as HI1. assert (∀ h, LinkInv (set_counters h s1)) as Hcount by (intros h; destruct HI1 as [[] ? ? ?]; by split).
  destruct r as [[]|]; [|by apply wp_count..]. pose proof (receiveLpPacket_spec p ep s1 (li_reassembler _ HI1) (Hok p Ed)) as H. destruct (specReceiveLp _ _ _ _ _) as [A out].
  eapply wp_mono; [exact H|]. intros [] s2 [R1 R2 R3 R4 R5 R6 R7]. apply (LinkInv_next s1); [done| |done..]. destruct HR1 as [Hc Hl Ho Hm Hx].
  split; [by unfold CoreS, unacked; rewrite R6, R5|by unfold unacked, netPkts; rewrite R6|by rewrite R5|by apply (mtuOk_ext s1 s2)|by rewrite R5].
Qed.

Lemma sendNet_rel s n t : LinkInv s → admissible s (PacketToSend n t) → wp (sendNet n t) (λ _ s', LinkInv s') s.
Proof.
  intros HI [Hs _]. destruct (sendNet_eq n t s) as (c & _ & Ec). unfold wp. rewrite Ec. apply wp_bind, wp_count. intros h.
  set (s1 := set_counters h s). assert (LinkInv s1) as HI1 by (destruct HI as [[] ? ? ?]; by split).
  eapply wp_mono; [apply (sendNetPacket_rel s1 _ (netWire n)); [apply HI1|apply netPacketLp_whole|apply HI1|done|]|].
  - destruct n as [i| |]; [intros _|done..]. split; [apply netWire_block|]. cbn [netWire]. rewrite interest_roundtrip. by eexists.
  - intros [] s2 (F & HR & _). by apply (LinkInv_frame s1).
Qed.

Lemma runReassemblyTimer_safe s t : LinkInv s → wp (runReassemblyTimer t) (λ _ s', LinkInv s') s.
Proof.
  intros HI. assert (∀ ra, ReassemblerInv ra → ∀ h, LinkInv (set_counters h (set_reassembler ra s))) as Hra by (intros ra Hra h; destruct HI as [[] ? ? ?]; by split).
  unfold runReassemblyTimer. wp_step. apply wp_lift. destruct (sched_pending (ra_timers (ls_reassembler s)) !! t) as [[d key]|] eqn:Ep.
  - eapply wp_mono; [by apply (runDropTimer_spec _ t d key); [apply HI|]|]. intros r ra (H1 & _ & -> & _). apply wp_count. by apply Hra.
  - unfold runDropTimer. do 2 wp_step. rewrite Ep. do 2 wp_step. apply (Hra _ (li_reassembler _ HI) (ls_counters s)).
Qed.

(** Every event keeps the invariant. *)
Lemma linkStep_safe s e : LinkInv s → admissible s e → wp (linkStep e) (λ _ s', LinkInv s') s.
Proof.
  intros HI Ha. destruct e as [n t|w ep|t|t|now|n]; cbn [linkStep].
  - by apply sendNet_rel.
  - by apply doReceivePacket_rel.
  - wp_step. apply wp_getRel. pose proof Ha as [Hs _]. eapply wp_mono; [apply runRelTimer_spec; [apply HI|done|apply HI|done]|]. intros [] s' (F & HR & _). by apply (LinkInv_frame s).
  - by apply runReassemblyTimer_safe.
  - wp_step. destruct HI as [[] ? ? ?]. by split.
  - wp_step. destruct HI as [[] ? ? ?]. by split.
Qed.

(** The settings of a link service whose reliability is enabled. *)
Record reliableOptions (o : Options) (mtu : Z) : Prop := {
  ro_enabled : op_relEnabled o = true;
  ro_retx : 0 ≤ op_maxRetx o;
  ro_mtu : mtu = MTU_UNLIMITED ∨ 0 ≤ mtu ≤ 65535;
  ro_override : MIN_MTU ≤ op_overrideMtu o;
  ro_reassembler : op_reassemblerMax o * MAX_NDN_PACKET_SIZE < 2 ^ 32;
  ro_space : mtu = MTU_UNLIMITED ∨ 64 ≤ mtu;
}.

Lemma newLinkService_inv o mtu rtt T T' : reliableOptions o mtu → sched_pending T = ∅ → sched_pending T' = ∅ → LinkInv (newLinkService o mtu rtt T T').
Proof.
  intros [H1 H2 H3 H4 H5 H6] ET ET'. set (s := newLinkService o mtu rtt T T'). assert (getEffectiveMtu s = MTU_UNLIMITED ∨ 64 ≤ getEffectiveMtu s) as He.
  { unfold getEffectiveMtu. change (ls_options s) with o. change (ls_mtu s) with mtu. unfold MIN_MTU, MTU_UNLIMITED in *. lia. }
  split.
  - split; [|by intros k f|done..]. split; [by apply Window_empty, seq64_is64|by intros k f..|]. intros t d k. cbn. by rewrite ET', lookup_empty.
  - by apply initialInv.
  - unfold sendable, fragmentMtu. change (ls_options s) with o. rewrite H1. unfold RESERVED_HEADER_SPACE, CONGESTION_MARK_SIZE. destruct He as [->|He]; [left; by rewrite andb_false_r|].
    right. cbn [andb]. change (sizeOfVarNumber TLV_TxSequence + sizeOfVarNumber 8 + 8) with 12. 
    change (sizeOfVarNumber TLV_CongestionMark + sizeOfVarNumber 8 + sizeOfNonNegativeInteger (2 ^ 64 - 1)) with 12. destruct (Z.eqb_spec (getEffectiveMtu s) MTU_UNLIMITED) as [E|_]; [unfold MTU_UNLIMITED in E; lia|].
    cbn [negb]. destruct (_ && _); lia.
  - unfold MTU_UNLIMITED in *. lia.
Qed.
End Run.
