(* ===== verification/LinkCorrect.v ===== *)
(** * Correctness of the link layer

    The properties of the link service: delivery between two of them, the MTU, and
    the reliability component, with examples. *)

From Stdlib Require Import ZArith Lia.
From stdpp Require Import base gmap option list.
From S2P Require Import Prelude Scheduler Ndn LpPacket LpFragmenter LpReassembler LpRoundTrip LinkState.
From S2P Require Import LpReliability LinkService LinkSpecs LinkMtu LpWindow LpRelSpecs LpRelSteps LinkRun.

Local Open Scope Z_scope.

Section LinkDelivery.
Context {C : NetCodec} {CL : NetCodecLaws C} {L : LpCodec} {LL : LpCodecLaws L} {LM : LinkMath} {SC : Scheduler} {SL : SchedulerLaws SC}.
Implicit Types (s : LinkState) (p : LpPacket) (w : LpWire).

(** A peer that reassembles up to [k] fragments, with none of message [m] of
    endpoint [ep] yet. *)
Record readyPeer (ep m k : Z) s : Prop := {
  rp_rel : op_relEnabled (ls_options s) = false;
  rp_reassembly : op_allowReassembly (ls_options s) = true;
  rp_inv : ReassemblerInv (ls_reassembler s);
  rp_max : k ≤ ra_nMaxFragments (ls_reassembler s);
  rp_new : slotsOf (ls_reassembler s) !! (ep, m) = None;
}.

(** Blocks [ws] arrive from endpoint [ep] in any order, some more than once, among
    blocks of other messages; [w] is the last of them to come for the first time. *)
Record arrivals (ep m : Z) s (ws : list LpWire) (l : list (Z * Z * LpWire)) w : Prop := {
  ar_each : ∀ a, a ∈ l → (a.1.2 = ep ∧ a.2 ∈ ws) ∨
    (wireOk a.2 ∧ unrelated (ls_options s) (ra_nMaxFragments (ls_reassembler s)) (ep, m) a);
  ar_last : w ∈ ws;
  ar_missing : ∀ a, a ∈ l → a.1.2 = ep → a.2 ≠ w;
  ar_all : ∀ w', w' ∈ ws → w' = w ∨ ∃ a, a ∈ l ∧ a.1.2 = ep ∧ a.2 = w';
}.

(** Each arrival of [ws] before the last delivers nothing; the last one delivers [out]. *)
Definition deliversLast (ep : Z) (ws : list LpWire) (l : list (Z * Z * LpWire)) (out : list LinkOutput) (outs : list (list LinkOutput)) : Prop :=
  last outs = Some out ∧ ∀ i a, l !! i = Some a → a.1.2 = ep → a.2 ∈ ws → outs !! i = Some [].

(** One packet, sent whole. *)
Lemma deliver_whole o n t ep m now l s :
  let p := netPacketLp o n t in
  len (netWire n) ≤ MAX_NDN_PACKET_SIZE → readyPeer ep m 1 s → arrivals ep m s [lpEncode p] l (lpEncode p) →
  wp (arriveAll (l ++ [(now, ep, lpEncode p)])) (λ outs _, deliversLast ep [lpEncode p] l (delivered o (ls_options s) n t ep) outs) s.
Proof.
  intros p Hlen [Hr Ho HI Hk _] [He _ Hmiss _]. pose proof (netPacketLp_whole o n t : whole p (netWire n)) as Hw.
  destruct (planned_reaches (ls_options s) 1 0 (MAX_SINGLE_FRAG_OVERHEAD + wireSize (lpEncode p)) p (netWire n) [p] p) as [Hre Hok];
    [done|apply netPacketLp_wf|done|unfold planned; by rewrite decide_True|constructor|done|].
  assert (∀ a, a ∈ l → a.1.2 = ep → a.2 ∉ [lpEncode p]) as Hnone by (intros a Ha Hep Hin%list_elem_of_singleton; by apply (Hmiss a)).
  apply arriveAll_app. eapply wp_mono; [apply (arriveAll_any l s); [done..|]|].
  { intros a Ha. destruct (He a Ha) as [[Hep Hin]|[? _]]; [by apply Hnone in Hin|done]. }
  intros outs1 s1 (HI1 & Eo & El & Em). apply arriveAll_cons. eapply wp_mono; [apply arrive_spec; [by rewrite Eo|done|exact Hok]|]. cbn [fst snd].
  rewrite Eo, Hre, Em. intros [] s2. unfold specReceive, classify. destruct Hw as [Hb _ Hi Hc]. rewrite Hi, Hc, Hb. cbn [get].
  destruct (Z.leb_spec 1 0); [lia|]. destruct (Z.ltb_spec (ra_nMaxFragments (ls_reassembler s)) 1); [lia|].
  destruct (netWire_block n) as [-> _]. cbn [Z.eqb andb Pos.eqb receivedOutputs]. rewrite (netOutputs_delivered o (ls_options s) n t ep p) by done. intros [].
  eexists. split; [done|]. cbn [arriveAll]. wp_step. split; [by rewrite last_snoc|]. intros i a Hia Hep Hin. exfalso. apply (Hnone a); [by eapply list_elem_of_lookup_2|done..].
Qed.

(** Many fragments. *)
Lemma deliver_fragments o n t ep nMax lastSeq mtu now ps q l s :
  let p := netPacketLp o n t in let ws := lpEncode <$> ps in
  let m := seq64 (lastSeq + 1) in
  len (netWire n) ≤ MAX_NDN_PACKET_SIZE → planned nMax lastSeq mtu p (netWire n) = Some ps → ps ≠ [p] →
  readyPeer ep m (len ps) s → q ∈ ps → arrivals ep m s ws l (lpEncode q) →
  wp (arriveAll (l ++ [(now, ep, lpEncode q)])) (λ outs _, deliversLast ep ws l (delivered o (ls_options s) n t ep) outs) s.
Proof.
  intros p ws m Hlen Hp Hne [Hr Ho HI Hk Hnew] Hq [He _ Hmiss Hall]. pose proof (netPacketLp_whole o n t : whole p (netWire n)) as Hw.
  pose proof (netPacketLp_wf o n t : lpWf p) as Hwf.
  assert (∀ f, f ∈ ps → reaches (ls_options s) (lpEncode f) = Some f ∧ wireOk (lpEncode f)) as Hre by (intros f Hf; by eapply planned_reaches).
  assert (isMessage (ra_nMaxFragments (ls_reassembler s)) m ps ∧ reassemble ps = Some (netWire n) ∧ ∃ first, ps !! 0%nat = Some first ∧
    lp_headers first = lp_headers p ∧ lp_congestionMark first = lp_congestionMark p) as (Hm & Hre2 & first & Hf0 & Hh & Hcm).
  { unfold planned in Hp. repeat case_decide; simplify_eq. rewrite assignSequences_length in Hk.
    assert (2 ≤ len (fragmentsOf p (netWire n) mtu)) by (apply fragmentsOf_many; [apply Hw|lia..]).
    split; [apply sequenced_message; lia|]. split; [apply sequenced_reassemble; [lia|apply netWire_block]|]. rewrite assignSequences_spec. by eexists. }
  assert (∀ a, fromPacket ep ps a ↔ a.1.2 = ep ∧ a.2 ∈ ws) as Hfrom.
  { intros a. unfold fromPacket, ws. rewrite list_elem_of_fmap. naive_solver. }
  apply arriveAll_app. eapply wp_mono; [apply (arriveAll_collect l ep m ps [] s)|].
  - split; [done..|]. intros f Hf. by apply Hre.
  - intros a Ha. destruct (He a Ha) as [Hin|[Hok Hun]]; [|auto]. split; [|left; by apply Hfrom]. destruct Hin as [_ (f & -> & Hf)%list_elem_of_fmap]. by apply Hre.
  - exists q. split; [done|]. split; [apply not_elem_of_nil|]. done.
  - intros outs s1 (Eout & Eo & Hnil & seen & Hco & Hseen). apply arriveAll_cons.
    eapply wp_mono; [apply arrive_spec; [apply Hco|apply Hco|by apply Hre]|]. cbn [fst snd]. rewrite (co_reaches _ _ _ _ _ Hco q Hq).
    rewrite (specReceive_complete _ ep m ps seen q (netWire n) first); [|try apply Hco; try done..].
    + intros [] s2 []. eexists. split; [done|]. cbn [arriveAll]. wp_step. cbn [receivedOutputs]. rewrite Eo, (netOutputs_delivered o (ls_options s) n t ep first) by done.
      split; [by rewrite last_snoc|]. intros i a Hia Hep Hin. apply lookup_app_l_Some. apply (Hnil i a Hia). by apply Hfrom.
    + rewrite Hseen. intros [?%elem_of_nil|(_ & a & Ha & Hep & Eq)]; [done|]. by apply (Hmiss a).
    + intros f Hf. rewrite elem_of_cons, Hseen. destruct (Hall (lpEncode f)) as [E|(a & Ha & Hep & Eq)]; [by apply list_elem_of_fmap_2| |right; eauto 9].
      left. destruct (Hre f Hf) as [E1 _]. destruct (Hre q Hq) as [E2 _]. rewrite E, E2 in E1. by injection E1.
Qed.

Lemma plainSender_same s s' : sameLink s s' → plainSender s → plainSender s' ∧ getEffectiveMtu s' = getEffectiveMtu s ∧ ls_lastSeqNo s' = ls_lastSeqNo s.
Proof.
  intros [E1 _ _ E2 E3 _ _] [H1 H2 H3 H4 H5]. assert (getEffectiveMtu s' = getEffectiveMtu s) as E by (unfold getEffectiveMtu; by rewrite E1, E3).
  split; [split; rewrite ?E, ?E1, ?E3; done|done].
Qed.

(** C5: a network-layer packet sent over a link with an MTU, without reliability and
    without congestion marking, is cut into blocks within the MTU, or dropped with its
    counter increased when it cannot be.  When its blocks reach the peer (also without
    reliability), in any order, repeated, and among blocks of other messages, the last
    one to come delivers the packet and the others deliver nothing.  The packet comes with
    [deliveredTags], not with every tag it was sent with: the congestion mark; the hop
    count increased, for Interests and Data; the PIT token for Interests only;
    NonDiscovery of Interests and the prefix announcement of Data when both ends allow
    self-learning; and the GeoTag of the sender when the peer has them enabled.  A packet with a self-learning tag that
    its kind must not have ([misplaced]) is sent and not delivered. *)
Theorem link_delivery n t ep s : plainSender s → len (netWire n) ≤ MAX_NDN_PACKET_SIZE →
  wp (sendNet n t) (λ _ s', ∃ ws, ls_output s' = ls_output s ++ (OutPacket <$> ws) ∧
    (ws = [] → ls_counters s' nFragmentationErrors = ls_counters s nFragmentationErrors + 1) ∧
    (∀ w, w ∈ ws → wireSize w ≤ getEffectiveMtu s) ∧
    ∀ peer l w now, readyPeer ep (seq64 (ls_lastSeqNo s + 1)) (len ws) peer → arrivals ep (seq64 (ls_lastSeqNo s + 1)) peer ws l w →
      wp (arriveAll (l ++ [(now, ep, w)])) (λ outs _, deliversLast ep ws l (delivered (ls_options s) (ls_options peer) n t ep) outs) peer) s.
Proof.
  intros Hs Hlen. destruct (sendNet_eq n t s) as (c & Hc & Ec). set (p := netPacketLp (ls_options s) n t) in *.
  assert (wp (count c;; sendNetPacket p (if n is PInterest _ then true else false)) (λ _ s', match planned (op_fragmenterMax (ls_options s)) (ls_lastSeqNo s) (getEffectiveMtu s) p (netWire n) with
    | Some ps => ls_output s' = ls_output s ++ ((λ q, OutPacket (lpEncode q)) <$> ps)
    | None => ls_output s' = ls_output s ∧ ls_counters s' nFragmentationErrors = ls_counters s nFragmentationErrors + 1
    end) s) as Hsend.
  { wp_step. eapply wp_mono; [apply count_spec|]. intros [] s1 (H1 & H2 & _ & H3). destruct (plainSender_same s s1 H1 Hs) as (Hs1 & Em & El).
    eapply wp_mono; [apply (sendNetPacket_plain p (netWire n)); [done|apply netPacketLp_whole]|]. intros [] s2 [_ H]. rewrite Em, El, (sl_options _ _ H1) in H.
    rewrite <- H2, <- H3 by done. case_match; [by destruct H|done]. }
  unfold wp in *. rewrite Ec. destruct ((count c;; _) s) as [[s' []]|]; [|done]. destruct (planned _ _ _ _ _) as [ps|] eqn:Ep.
  - exists (lpEncode <$> ps). rewrite <- list_fmap_compose. split; [done|]. split; [by intros E%fmap_nil_inv; apply planned_nonempty in Ep|]. split.
    + intros w (q & -> & Hq)%list_elem_of_fmap. eapply planned_size; [apply netPacketLp_whole|done..].
    + intros peer l w now. rewrite length_fmap. intros Hpeer Harr. pose proof (ar_last _ _ _ _ _ _ Harr) as (q & -> & Hq)%list_elem_of_fmap.
      destruct (decide (ps = [p])) as [->|Hne]; [|by eapply deliver_fragments]. apply list_elem_of_singleton in Hq as ->. by eapply deliver_whole.
  - exists []. rewrite app_nil_r. destruct Hsend as [H1 H2]. split; [done|]. split; [done|]. split; [by intros w ?%elem_of_nil|]. intros peer l w now _ [_ ?%elem_of_nil _ _]. done.
Qed.
End LinkDelivery.

(** ** The reliability component *)

Section LinkReliability.
Context {C : NetCodec} {CL : NetCodecLaws C} {L : LpCodec} {LL : LpCodecLaws L} {LM : LinkMath} {SC : Scheduler} {SL : SchedulerLaws SC}.
Implicit Types (s : LinkState) (p : LpPacket) (w : LpWire).

(** Every event of a run is admissible where it happens. *)
Fixpoint admissibleRun (es : list LinkEvent) s : Prop :=
  match es with
  | [] => True
  | e :: es' => admissible s e ∧ match linkStep e s with Some (s', _) => admissibleRun es' s' | None => True end
  end.

(** C6: a link service whose reliability is enabled, with an MTU of at least 64 octets
    or none, never fails an assertion, follows an invalid iterator or hangs,
    whatever packets are sent, blocks arrive and timers run, while its window of
    TxSequence numbers has room.  The unacknowledged fragments stay in the window, each
    with its running timer, at most the allowed number of retransmissions, and a
    network packet that lists it; the reassembler keeps its invariant. *)
Theorem reliability_safe o mtu rtt T T' es : reliableOptions o mtu → sched_pending T = ∅ → sched_pending T' = ∅ →
  admissibleRun es (newLinkService o mtu rtt T T') → wp (forM es linkStep) (λ _ s', LinkInv s') (newLinkService o mtu rtt T T').
Proof.
  intros Ho ET ET'. pose proof (newLinkService_inv o mtu rtt T T' Ho ET ET') as HI. revert HI. generalize (newLinkService o mtu rtt T T').
  induction es as [|e es IH]; intros s HI Hadm; cbn [forM]; [by wp_step|]. destruct Hadm as [Ha Hrest]. apply wp_bind.
  destruct (wp_elim _ _ _ (linkStep_safe s e HI Ha)) as (s' & [] & E & HI'). rewrite E in Hrest. unfold wp at 1. rewrite E. by apply IH.
Qed.

(** C22: an acknowledgement of an unacknowledged fragment removes it; each fragment sent
    before it counts one more later acknowledgement, and no fragment changes otherwise,
    unless the count of one reaches the threshold of losses.  An acknowledgement of
    anything else changes nothing. *)
Theorem acknowledgement s t : Rel s → inFlight s + Z.of_nat (size (unacked s)) < 2 ^ 64 →
  wp (processAck t) (λ _ s', Rel s' ∧
    (is_Some (unacked s !! t) → (∀ j, ¬ isLost s t j) → ∃ first, rel_firstUnackedFrag (ls_rel s) = Some first ∧ unacked s' = delete t (bumped first t (unacked s))) ∧
    (unacked s !! t = None → s' = s)) s.
Proof. intros HR Hs. eapply wp_mono; [by apply processAck_spec|]. intros [] s' (_ & H1 & _ & _ & H2 & H3). done. Qed.

(** C21: when a timer of the reliability component runs, a fragment whose
    retransmissions are used up is given up with all fragments of its network packet and
    no others, and the dropped Interest is reported if the packet was one; any other
    fragment is handed to [sendLpPacket] again under the next TxSequence number, with one
    more retransmission counted: one packet leaves, with acknowledgements from the front
    of the queue (and a congestion mark where that is allowed), unless it exceeds the
    MTU.  The idle timer empties the queue of acknowledgements into IDLE packets, each
    acknowledgement in one of them, and without congestion marking all of these packets
    are sent (a mark may push one over the MTU). *)
Theorem retransmission s t : Rel s → inFlight s + 1 < 2 ^ 64 → ¬ 0 ≤ getEffectiveMtu s < 16 →
  wp (runRelTimer (length (rel_ackQueue (ls_rel s))) t) (λ _ s', Rel s' ∧
    match sched_pending (rel_timers (ls_rel s)) !! t with
    | None => s' = s
    | Some (_, RtoTimer k) => ∃ f, unacked s !! k = Some f ∧ lostOutcome s k f s'
    | Some (_, IdleAckTimer) => unacked s' = unacked s ∧ rel_ackQueue (ls_rel s') = [] ∧ acksSent s s'
    end) s.
Proof. intros HR Hs He. eapply wp_mono; [by apply runRelTimer_spec|]. intros [] s' (_ & H1 & _ & H2). done. Qed.

(** C23: the loop of the idle-Ack timer ends if and only if there is nothing to
    acknowledge or the MTU has room for an acknowledgement: below 16 octets it sends
    packets without acknowledgements for ever. *)
Theorem idle_ack_loop s : op_relEnabled (ls_options s) = true → mtuOk s →
  (∃ fuel s', sendIdlePackets fuel s = Some (s', tt)) ↔ rel_ackQueue (ls_rel s) = [] ∨ ¬ 0 ≤ getEffectiveMtu s < 16.
Proof.
  intros Hr Hm. split.
  - intros (fuel & s' & E). destruct (decide (rel_ackQueue (ls_rel s) = [])) as [|Hq]; [by left|right]. intros He. by rewrite sendIdlePackets_diverges in E.
  - intros [Hq|He].
    + exists 0%nat, s. cbn. unfold mbind, M_bind, getRel, gets, assertM. by rewrite bool_decide_true.
    + destruct (wp_elim _ _ _ (sendIdlePackets_ends _ s Hr Hm He (le_n _))) as (s' & [] & E & _). eauto.
Qed.

(** C24: without congestion marking, a packet within the MTU takes as many
    acknowledgements from the front of the queue as fit; unless the packet had 253 or
    254 octets before, it is sent with them, within the MTU. *)
Theorem acks_within_mtu p s : op_relEnabled (ls_options s) = true → op_allowCongestionMarking (ls_options s) = false → mtuOk s → isBare p = false →
  wireSize (lpEncode p) ≤ packetLimit (getEffectiveMtu s) → ¬ 253 ≤ wireSize (lpEncode p) ≤ 254 →
  wp (sendLpPacket p) (λ _ s', ∃ taken rest q, rel_ackQueue (ls_rel s) = taken ++ rest ∧ rel_ackQueue (ls_rel s') = rest ∧
    lp_acks q = lp_acks p ++ (Present <$> taken) ∧ ls_output s' = ls_output s ++ [OutPacket (lpEncode q)] ∧
    wireSize (lpEncode q) ≤ packetLimit (getEffectiveMtu s) ∧ (rest ≠ [] → ackSpace p (getEffectiveMtu s) < (len taken + 1) * ackSize)) s.
Proof.
  intros Hr Hc Hm Hb Hsz Hodd. eapply wp_mono; [by apply sendLpPacket_acks|]. intros [] s' (taken & rest & E & Er & _ & _ & _ & _ & _ & H1 & H2 & H3). cbn zeta in H3.
  assert (packetLimit (getEffectiveMtu s) ≤ 65535) as Hlim.
  { unfold packetLimit. destruct (mtuOk_effective s Hm) as [[E0 _]|[H _]]; destruct (Z.eqb_spec (getEffectiveMtu s) MTU_UNLIMITED); unfold MAX_NDN_PACKET_SIZE, MTU_UNLIMITED in *; lia. }
  pose proof (filled_size p (getEffectiveMtu s) taken Hb Hlim Hsz H1) as Hq. rewrite bool_decide_false, Z.add_0_r in Hq by done.
  set (q := foldl _ p taken) in *. rewrite decide_True in H3. 2: { unfold packetLimit in Hq. destruct (Z.eqb_spec (getEffectiveMtu s) MTU_UNLIMITED); auto. }
  destruct H3 as [H3 _]. destruct (addAcks_value taken p) as (_ & _ & Ha). exists taken, rest, q. rewrite Er. done.
Qed.

(** Acknowledgements added to a packet of 253 or 254 octets. *)
Lemma filled_odd p taken : isBare p = false → 253 ≤ wireSize (lpEncode p) ≤ 254 → taken ≠ [] → wireSize (lpEncode p) + len taken * ackSize ≤ 65535 →
  wireSize (lpEncode (foldl (λ q k, add_ack k q) p taken)) = wireSize (lpEncode p) + len taken * ackSize + 2.
Proof.
  intros Hb Hsz Hne Hle. destruct (addAcks_value taken p) as (Hv & Hb2 & _). rewrite (wireSize_value (foldl _ p taken)), Hv by auto.
  rewrite wireSize_value in * by done. assert (12 ≤ len taken * ackSize) by (destruct taken; [done|]; change ackSize with 12; cbn [length]; lia).
  unfold sizeOfVarNumber in *. repeat case_match; repeat match goal with H : (_ <? _) = _ |- _ => apply Z.ltb_lt in H || apply Z.ltb_ge in H | H : (_ <=? _) = _ |- _ => apply Z.leb_le in H || apply Z.leb_gt in H end; lia.
Qed.

Lemma fragmentMtu_negative o mtu : op_relEnabled o = true → 0 ≤ mtu < RESERVED_HEADER_SPACE - 1 → fragmentMtu o mtu < -1.
Proof.
  intros Hr Hm. unfold fragmentMtu. rewrite Hr. unfold MTU_UNLIMITED. destruct (Z.eqb_spec mtu (-1)); [lia|]. cbn [andb negb].
  assert (0 < CONGESTION_MARK_SIZE) by done. destruct (_ && _); lia.
Qed.

(** C25: two ways in which a link service with reliability does not respect its MTU, in every
    state.  With an MTU below [RESERVED_HEADER_SPACE - 1] octets, where a packet should
    be dropped, sending any packet fails an assertion.  And a packet of 253 or 254
    octets is filled with as many acknowledgements as seem to fit; when they leave at
    most one octet free, it exceeds the MTU, because the length field of the packet grows: it is
    dropped, and the acknowledgements are lost. *)
Theorem link_mtu_defects s : op_relEnabled (ls_options s) = true →
  (∀ n t, 0 ≤ getEffectiveMtu s < RESERVED_HEADER_SPACE - 1 → sendNet n t s = None) ∧
  (∀ p k, op_allowCongestionMarking (ls_options s) = false → mtuOk s → isBare p = false →
    253 ≤ wireSize (lpEncode p) ≤ 254 → (0 < k ≤ length (rel_ackQueue (ls_rel s)))%nat →
    0 ≤ getEffectiveMtu s - (wireSize (lpEncode p) + Z.of_nat k * ackSize) ≤ 1 →
    wp (sendLpPacket p) (λ _ s', ls_output s' = ls_output s ∧ rel_ackQueue (ls_rel s') = drop k (rel_ackQueue (ls_rel s)) ∧
      ls_counters s' nOutOverMtu = ls_counters s nOutOverMtu + 1) s).
Proof.
  intros Hr. split.
  - intros n t Hmtu. destruct (sendNet_eq n t s) as (c & _ & ->). apply (outcome_bind _ _ (λ o, o = None)). eapply wp_mono; [apply count_spec|].
    intros [] s1 ([E1 _ _ E2 E3 _ _] & _). assert (getEffectiveMtu s1 = getEffectiveMtu s) as E by (unfold getEffectiveMtu; by rewrite E1, E3).
    pose proof (fragmentMtu_negative (ls_options s) (getEffectiveMtu s) Hr Hmtu). unfold sendNetPacket, mbind, M_bind, get_st, assertM. rewrite E, E1.
    destruct (Z.eqb_spec (fragmentMtu (ls_options s) (getEffectiveMtu s)) MTU_UNLIMITED); [unfold MTU_UNLIMITED in *; lia|].
    destruct (Z.leb_spec 0 (fragmentMtu (ls_options s) (getEffectiveMtu s))); [lia|done].
  - intros p k Hc Hm Hb Hsz Hk Hfit. eapply wp_mono; [by apply sendLpPacket_acks|].
    intros [] s' (taken & rest & E & Er & _ & _ & _ & _ & _ & H1 & H2 & H3). cbn zeta in H3.
    assert (getEffectiveMtu s ≠ MTU_UNLIMITED) as Hun by (unfold MTU_UNLIMITED; change ackSize with 12 in *; lia).
    assert (ackSpace p (getEffectiveMtu s) = getEffectiveMtu s - wireSize (lpEncode p)) as Hsp.
    { unfold ackSpace. destruct (Z.eqb_spec (getEffectiveMtu s) MTU_UNLIMITED); [done|]. unfold sizeOfVarNumber at 2.
      destruct (Z.ltb_spec (wireSize (lpEncode p)) 253); [lia|]. destruct (Z.leb_spec (wireSize (lpEncode p)) 65535); [|lia]. change (sizeOfVarNumber MAX_NDN_PACKET_SIZE) with 3. lia. }
    rewrite Hsp in *. change ackSize with 12 in *.
    assert (length taken = k) as Hlen.
    { apply (f_equal length) in E. rewrite length_app in E. destruct (decide (taken = [])) as [->|Ht]; [|specialize (H1 Ht)]; (destruct (decide (rest = [])) as [->|Hrest]; [|specialize (H2 Hrest)]); cbn [length] in *; lia. }
    assert (wireSize (lpEncode (foldl (λ q k, add_ack k q) p taken)) = wireSize (lpEncode p) + Z.of_nat k * 12 + 2) as Hq.
    { rewrite <- Hlen. apply (filled_odd p taken Hb Hsz); [intros ->; cbn in Hlen; lia|]. change ackSize with 12. destruct (mtuOk_effective s Hm) as [[? _]|[? _]]; [done|]. unfold MAX_NDN_PACKET_SIZE in *. lia. }
    rewrite decide_False in H3 by (intros [?|?]; [done|lia]). destruct H3 as [H3 H4]. split; [done|]. split; [|done]. rewrite Er, E, <- Hlen, drop_app_length. done.
Qed.
End LinkReliability.

(** ** Examples *)

Module LinkExamples.

Definition exOptions (reliable marking : bool) : Options :=
  mkOptions false true 400 true 400 500 reliable 3 5 3 marking 100 65536 false (2 ^ 63 - 1) None.

Definition link (reliable marking : bool) (mtu : Z) : LinkState :=
  newLinkService (exOptions reliable marking) mtu (tt : RttEstimator) (emptyScheduler : SchedState Key) (emptyScheduler : SchedState RelTimer).

Definition exData : NetPacket := PData (replicate 100 1).

(** The blocks a link service has sent. *)
Definition blocks (r : option (LinkState * unit)) : list LpWire :=
  match r with Some (s, _) => omap (λ x, match x with OutPacket w => Some w | _ => None end) (ls_output s) | None => [] end.

Definition exBlocks : list LpWire := blocks (sendNet exData noTags (link false false 128)).


Definition exFirst : LpWire := nth 0 exBlocks emptyLp.
Definition exSecond : LpWire := nth 1 exBlocks emptyLp.

Lemma exBlocks_two : exBlocks = [exFirst; exSecond] ∧ exFirst ≠ exSecond.
Proof. split; [by vm_compute|]. intros E. apply (f_equal lp_sequence) in E. by vm_compute in E. Qed.

Lemma arrivals_two ep m s (w1 w2 : LpWire) : w1 ≠ w2 → arrivals ep m s [w1; w2] [(0, ep, w2); (1, ep, w2)] w1.
Proof.
  intros Hne. split.
  - intros a [->|[->|?%elem_of_nil]%elem_of_cons]%elem_of_cons; [left..|done]; (split; [done|]); right; constructor.
  - constructor.
  - intros a [->|[->|?%elem_of_nil]%elem_of_cons]%elem_of_cons _ Ea; [by symmetry in Ea..|done].
  - intros w [->|[->|?%elem_of_nil]%elem_of_cons]%elem_of_cons; [by left|right|done]. exists (0, ep, w2). split; [constructor|done].
Qed.

(** Two fragments, whose sequence numbers wrap around, come in the wrong order, the
    second one twice. *)
Lemma link_delivery_witness :
  wp (arriveAll [(0, 7, exSecond); (1, 7, exSecond); (2, 7, exFirst)])
    (λ outs _, deliversLast 7 exBlocks [(0, 7, exSecond); (1, 7, exSecond)] (delivered (exOptions false false) (exOptions false false) exData noTags 7) outs) (link false false 128).
Proof.
  pose proof (link_delivery exData noTags 7 (link false false 128)) as H.
  apply wp_elim in H as (s' & [] & E & ws & Eout & _ & _ & H); [|split; vm_compute; by try split|by vm_compute].
  assert (ws = exBlocks) as ->.
  { unfold exBlocks, blocks. rewrite E, Eout. change (ls_output (link false false 128)) with ([] : list LinkOutput). rewrite app_nil_l. clear. induction ws as [|w ws IH]; [done|]. cbn. f_equal. exact IH. }
  destruct exBlocks_two as [Eb Hne]. apply (H (link false false 128) [(0, 7, exSecond); (1, 7, exSecond)] exFirst 2).
  - split; [done|done|by apply initialInv|by vm_compute|done].
  - rewrite Eb. by apply arrivals_two.
Defined.

(** A packet of two fragments is sent, the first one times out, a block acknowledges
    the second one and wants to be acknowledged, and both timers run. *)
Definition exAck : LpWire := add_ack 1 (set_txSequence 40 (set_sequence 9 (netLp (netWire exData)))).

Definition exEvents : list LinkEvent :=
  [PacketToSend exData noTags; TimePasses 200; ReliabilityTimer 1; BlockReceived exAck 7; QueueChanges 3; TimePasses 205;
   ReliabilityTimer 2; ReliabilityTimer 4; ReliabilityTimer 3; ReassemblyTimer 1].

Lemma exOptions_reliable marking : reliableOptions (exOptions true marking) 128.
Proof. split; [done|done|right; done|done|done|right; done]. Qed.

Lemma reliability_safe_witness : wp (forM exEvents linkStep) (λ _ s', LinkInv s') (link true false 128).
Proof.
  apply (reliability_safe (exOptions true false) 128); [apply exOptions_reliable|done|done|]. vm_compute.
  repeat match goal with |- _ ∧ _ => split end; try done. intros p [= <-] _. split_and!; [done..|]. intros i Hi. discriminate Hi.
Defined.

(** The state after the packet was sent. *)
Definition exSent : LinkState := match sendNet exData noTags (link true false 128) with Some (s, _) => s | None => link true false 128 end.

Lemma exSent_inv : LinkInv exSent.
Proof.
  pose proof (linkStep_safe (link true false 128) (PacketToSend exData noTags)) as H. apply wp_elim in H as (s' & [] & E & HI); [|by apply newLinkService_inv; [apply exOptions_reliable|..]|by split; [by vm_compute|]].
  unfold exSent. cbn [linkStep] in E. by rewrite E.
Qed.

Lemma acknowledgement_witness : is_Some (unacked exSent !! 1) ∧ wp (processAck 1) (λ _ s', Rel s' ∧
    (is_Some (unacked exSent !! 1) → (∀ j, ¬ isLost exSent 1 j) → ∃ first, rel_firstUnackedFrag (ls_rel exSent) = Some first ∧ unacked s' = delete 1 (bumped first 1 (unacked exSent))) ∧
    (unacked exSent !! 1 = None → s' = exSent)) exSent.
Proof. split; [apply (bool_decide_eq_true_1 _); by vm_compute|]. apply (acknowledgement exSent 1); [exact (li_rel _ exSent_inv)|by vm_compute]. Defined.

Lemma retransmission_witness : (snd <$> sched_pending (rel_timers (ls_rel exSent)) !! 1%positive) = Some (RtoTimer 0) ∧
  wp (runRelTimer (length (rel_ackQueue (ls_rel exSent))) 1) (λ _ s', Rel s' ∧
    match sched_pending (rel_timers (ls_rel exSent)) !! 1%positive with
    | None => s' = exSent
    | Some (_, RtoTimer k) => ∃ f, unacked exSent !! k = Some f ∧ lostOutcome exSent k f s'
    | Some (_, IdleAckTimer) => unacked s' = unacked exSent ∧ rel_ackQueue (ls_rel s') = [] ∧ acksSent exSent s'
    end) exSent.
Proof. split; [by vm_compute|]. apply (retransmission exSent 1); [exact (li_rel _ exSent_inv)|by vm_compute|exact (li_idle _ exSent_inv)]. Defined.

(** A link service with acknowledgements to send. *)
Definition withAcks (q : list Z) (s : LinkState) : LinkState := set_rel (set_ackQueue q (ls_rel s)) s.

Lemma idle_ack_loop_witness : ¬ ∃ fuel s', sendIdlePackets fuel (withAcks [5] (link true false 15)) = Some (s', tt).
Proof.
  intros H. apply (idle_ack_loop (withAcks [5] (link true false 15))) in H as [H|H]; [done|by destruct H|done|]. split; [right; split; done|done].
Defined.

Lemma acks_within_mtu_witness : wp (sendLpPacket emptyLp) (λ _ s', ∃ taken rest q, [5; 6] = taken ++ rest ∧ rel_ackQueue (ls_rel s') = rest ∧
    lp_acks q = [] ++ (Present <$> taken) ∧ ls_output s' = [] ++ [OutPacket (lpEncode q)] ∧
    wireSize (lpEncode q) ≤ 20 ∧ (rest ≠ [] → ackSpace emptyLp 20 < (len taken + 1) * ackSize)) (withAcks [5; 6] (link true false 20)).
Proof. apply (acks_within_mtu emptyLp (withAcks [5; 6] (link true false 20))); [done|done|split; [right; split; done|done]|done|by vm_compute|by vm_compute; intros [??]]. Defined.

(** A packet of 253 octets, and one that fits with an acknowledgement but not with a mark. *)
Definition exOdd : LpPacket := set_txSequence 1 (netLp (replicate 237 0)).

Definition congested (s : LinkState) : LinkState := set_marking 0 0 (set_sendQueueLength 70000 s).

Lemma link_mtu_defects_witness :
  sendNet exData noTags (link true false 10) = None ∧
  wp (sendLpPacket exOdd) (λ _ s', ls_output s' = [] ∧ rel_ackQueue (ls_rel s') = [8]) (withAcks [7; 8] (link true false 265)).
Proof.
  split.
  - apply (proj1 (link_mtu_defects (link true false 10) eq_refl)). split; by vm_compute.
  - eapply wp_mono; [apply (proj2 (link_mtu_defects (withAcks [7; 8] (link true false 265)) eq_refl) exOdd 1%nat); [done|split; [right; split; done|done]|done|split; by vm_compute|split; [lia|cbn; lia]|split; by vm_compute]|].
    intros [] s' (H1 & H2 & _). split; [exact H1|exact H2].
Defined.

(** Marked after it was filled, a packet exceeds the MTU too. *)
Example marked_packet_dropped :
  let remains r := match r with Some (s, _) => Some (rel_ackQueue (ls_rel s), length (ls_output s), ls_counters s nOutOverMtu) | None => None end in
  remains (sendLpPacket exOdd (withAcks [7] (link true true 267))) = Some ([], 1%nat, 0) ∧
  remains (sendLpPacket exOdd (congested (withAcks [7] (link true true 267)))) = Some ([], 0%nat, 1).
Proof. vm_compute. split; reflexivity. Qed.
End LinkExamples.
