(* ===== verification/Transport.v ===== *)
(** * Transports

    [src/daemon/face/transport.cpp]: the lower half of a face.  The functions of the
    base class work on the part [base] of the state of a concrete transport; the
    virtual functions they call are arguments.  A packet is its octets.  What a
    transport tells the outside world is appended to [tr_output].

    [None] is a failed assertion or the exception of an invalid state transition. *)

From Stdlib Require Import ZArith Lia.
From stdpp Require Import base gmap option list.
From S2P Require Import Prelude LpPacket LpFragmenter LinkState.

Local Open Scope Z_scope.

Inductive TransportState := TS_NONE | TS_UP | TS_DOWN | TS_CLOSING | TS_FAILED | TS_CLOSED.

#[export] Instance TransportState_eqdec : EqDecision TransportState.
Proof. solve_decision. Defined.

(** [ndn::nfd::FacePersistency] *)
Inductive FacePersistency := FACE_PERSISTENCY_NONE | FACE_PERSISTENCY_ON_DEMAND | FACE_PERSISTENCY_PERSISTENT | FACE_PERSISTENCY_PERMANENT.

#[export] Instance FacePersistency_eqdec : EqDecision FacePersistency.
Proof. solve_decision. Defined.

Definition MTU_INVALID : Z := -2.
Definition QUEUE_UNSUPPORTED : Z := -1.
Definition QUEUE_ERROR : Z := -2.

Inductive TransportOutput :=
  | StateChanged (old new : TransportState)
  | PacketReceived (packet : list Z) (endpoint : Z).

Record Transport := mkTransport {
  tr_persistency : FacePersistency;
  tr_mtu : Z;
  tr_sendQueueCapacity : Z;
  tr_state : TransportState;
  tr_expirationTime : Z;
  tr_nInPackets : Z;
  tr_nOutPackets : Z;
  tr_nInBytes : Z;
  tr_nOutBytes : Z;
  tr_output : list TransportOutput;
}.

(** [Transport::Transport] *)
Definition newTransport : Transport :=
  mkTransport FACE_PERSISTENCY_NONE MTU_INVALID QUEUE_UNSUPPORTED TS_UP TIME_POINT_MAX 0 0 0 0 [].

Definition set_state (x : TransportState) (t : Transport) : Transport :=
  mkTransport (tr_persistency t) (tr_mtu t) (tr_sendQueueCapacity t) x (tr_expirationTime t)
    (tr_nInPackets t) (tr_nOutPackets t) (tr_nInBytes t) (tr_nOutBytes t) (tr_output t ++ [StateChanged (tr_state t) x]).
Definition set_persistency (x : FacePersistency) (t : Transport) : Transport :=
  mkTransport x (tr_mtu t) (tr_sendQueueCapacity t) (tr_state t) (tr_expirationTime t)
    (tr_nInPackets t) (tr_nOutPackets t) (tr_nInBytes t) (tr_nOutBytes t) (tr_output t).
Definition set_mtu (x : Z) (t : Transport) : Transport :=
  mkTransport (tr_persistency t) x (tr_sendQueueCapacity t) (tr_state t) (tr_expirationTime t)
    (tr_nInPackets t) (tr_nOutPackets t) (tr_nInBytes t) (tr_nOutBytes t) (tr_output t).
Definition setSendQueueCapacity (x : Z) (t : Transport) : Transport :=
  mkTransport (tr_persistency t) (tr_mtu t) x (tr_state t) (tr_expirationTime t)
    (tr_nInPackets t) (tr_nOutPackets t) (tr_nInBytes t) (tr_nOutBytes t) (tr_output t).
Definition setExpirationTime (x : Z) (t : Transport) : Transport :=
  mkTransport (tr_persistency t) (tr_mtu t) (tr_sendQueueCapacity t) (tr_state t) x
    (tr_nInPackets t) (tr_nOutPackets t) (tr_nInBytes t) (tr_nOutBytes t) (tr_output t).
Definition count_out (size : Z) (t : Transport) : Transport :=
  mkTransport (tr_persistency t) (tr_mtu t) (tr_sendQueueCapacity t) (tr_state t) (tr_expirationTime t)
    (tr_nInPackets t) (seq64 (tr_nOutPackets t + 1)) (tr_nInBytes t) (seq64 (tr_nOutBytes t + size)) (tr_output t).
Definition count_in (size : Z) (x : TransportOutput) (t : Transport) : Transport :=
  mkTransport (tr_persistency t) (tr_mtu t) (tr_sendQueueCapacity t) (tr_state t) (tr_expirationTime t)
    (seq64 (tr_nInPackets t + 1)) (tr_nOutPackets t) (seq64 (tr_nInBytes t + size)) (tr_nOutBytes t) (tr_output t ++ [x]).

Definition isValidTransition (old new : TransportState) : bool :=
  match old with
  | TS_UP => match new with TS_DOWN | TS_CLOSING | TS_FAILED => true | _ => false end
  | TS_DOWN => match new with TS_UP | TS_CLOSING | TS_FAILED => true | _ => false end
  | TS_CLOSING | TS_FAILED => match new with TS_CLOSED => true | _ => false end
  | _ => false
  end.

(** The states in which errors are ignored. *)
Definition isClosing (st : TransportState) : bool :=
  match st with TS_CLOSING | TS_FAILED | TS_CLOSED => true | _ => false end.

(** The assertion of [send] and [receive]. *)
Definition fitsMtu (packet : list Z) (t : Transport) : bool :=
  negb (bool_decide (packet = [])) && ((tr_mtu t =? MTU_UNLIMITED) || (len packet <=? tr_mtu t mod 2 ^ 64)).

(** Where the base class is inside a concrete transport. *)
Class HasTransport (S : Type) := {
  base : S → Transport;
  setBase : Transport → S → S;
}.

Class HasTransportLaws {S} (H : HasTransport S) : Prop := {
  base_setBase : ∀ t s, base (setBase t s) = t;
  setBase_base : ∀ s, setBase (base s) s = s;
  setBase_setBase : ∀ t t' s, setBase t (setBase t' s) = setBase t s;
}.

Section Base.
Context {S : Type} `{HT : HasTransport S}.

Definition modifyBase (f : Transport → Transport) : M S unit := modify (λ s, setBase (f (base s)) s).
Definition getState : M S TransportState := gets (λ s, tr_state (base s)).

Definition setState (newState : TransportState) : M S unit :=
  state ← getState;
  if decide (state = newState) then mret tt
  else
    assertM (isValidTransition state newState);;
    modifyBase (set_state newState).

Definition Transport_close (doClose : M S unit) : M S unit :=
  state ← getState;
  if decide (state = TS_UP ∨ state = TS_DOWN) then setState TS_CLOSING;; doClose else mret tt.

Definition Transport_send (doSend : list Z → M S unit) (packet : list Z) : M S unit :=
  t ← gets base;
  assertM (fitsMtu packet t);;
  if decide (tr_state t = TS_UP ∨ tr_state t = TS_DOWN) then
    (if decide (tr_state t = TS_UP) then modifyBase (count_out (len packet)) else mret tt);;
    doSend packet
  else mret tt.

(** [upcall] is what the link service does with the packet. *)
Definition Transport_receive (upcall : M S unit) (packet : list Z) (endpoint : Z) : M S unit :=
  t ← gets base;
  assertM (fitsMtu packet t);;
  modifyBase (count_in (len packet) (PacketReceived packet endpoint));;
  upcall.

Definition setMtu (mtu : Z) : M S unit :=
  assertM ((mtu =? MTU_UNLIMITED) || (0 <=? mtu));;
  modifyBase (set_mtu mtu).

Definition canChangePersistencyTo (impl : bool) (newPersistency : FacePersistency) (t : Transport) : bool :=
  if decide (tr_persistency t = newPersistency ∨ tr_persistency t = FACE_PERSISTENCY_NONE) then true
  else if decide (newPersistency = FACE_PERSISTENCY_NONE) then false
  else impl.

Definition setPersistency (impl : bool) (afterChangePersistency : FacePersistency → M S unit) (newPersistency : FacePersistency) : M S unit :=
  t ← gets base;
  assertM (canChangePersistencyTo impl newPersistency t);;
  if decide (tr_persistency t = newPersistency) then mret tt
  else
    modifyBase (set_persistency newPersistency);;
    if decide (tr_persistency t = FACE_PERSISTENCY_NONE) then mret tt else afterChangePersistency (tr_persistency t).
End Base.

(** ** [Block::fromBuffer] of ndn-cxx: the size of the element at the front, if it is
    complete. *)
Class BlockParser := { fromBuffer : list Z → option nat }.

Class BlockParserLaws (P : BlockParser) : Prop := {
  (** An element is not empty and lies within the buffer. *)
  block_bounds : ∀ b n, fromBuffer b = Some n → (0 < n ≤ length b)%nat;
  (** Nothing after the element matters. *)
  block_extend : ∀ b c n, fromBuffer b = Some n → fromBuffer (b ++ c) = Some n;
  block_exact : ∀ b n, fromBuffer b = Some n → fromBuffer (take n b) = Some n;
}.

(** Elements of a type octet, a length octet and a value. *)
#[export] Instance ByteParser : BlockParser := {|
  fromBuffer b := match b with
    | _ :: n :: v => if (0 <=? n) && (n <=? len v) then Some (2 + Z.to_nat n)%nat else None
    | _ => None
    end;
|}.

#[export] Instance ByteParserLaws : BlockParserLaws ByteParser.
Proof.
  assert (∀ b n, @fromBuffer ByteParser b = Some n ↔ ∃ t k v, b = t :: k :: v ∧ 0 ≤ k ≤ len v ∧ n = (2 + Z.to_nat k)%nat) as E.
  { intros [|t [|k v]] n; cbn; [naive_solver..|]. destruct (Z.leb_spec 0 k), (Z.leb_spec k (len v)); cbn [andb]; split; try naive_solver lia; intros (t' & k' & v' & [= <- <- <-] & H1 & ->); (done || lia). }
  split.
  - intros b n (t & k & v & -> & Hk & ->)%E. cbn [length]. lia.
  - intros b c n (t & k & v & -> & Hk & ->)%E. apply E. exists t, k, (v ++ c). rewrite length_app. split; [done|]. split; [lia|done].
  - intros b n (t & k & v & -> & Hk & ->)%E. apply E. cbn [take plus]. exists t, k, (take (Z.to_nat k) v). rewrite length_take. split; [done|]. split; [lia|done].
Qed.
