(* ===== verification/StreamTransport.v ===== *)
(** * Stream transports

    [src/daemon/face/stream-transport.hpp] with its two uses
    [unix-stream-transport.cpp] and [tcp-transport.cpp]; the latter reconnects when it
    is permanent.

    Boost.Asio is modelled by the operations that have been started and not yet
    completed: [st_live] may complete in any way, [st_aborted] have been cancelled and
    complete with [operation_aborted].  Handlers given to [io_service::post] run in
    order.  A timer held by a [ScopedEventId] is replaced when a new one is scheduled. *)

From Stdlib Require Import ZArith Lia.
From stdpp Require Import base gmap option list.
From S2P Require Import Prelude LpPacket LpFragmenter LinkState Transport.

Local Open Scope Z_scope.

(** The error codes that are told apart. *)
Inductive AsioError := operation_aborted | shut_down | eof | other_error.

#[export] Instance AsioError_eqdec : EqDecision AsioError.
Proof. solve_decision. Defined.

(** An asynchronous operation: receiving into [room] octets, writing a packet, connecting. *)
Inductive AsioOp := ReceiveOp (room : Z) | WriteOp (packet : list Z) | ConnectOp.

#[export] Instance AsioOp_eqdec : EqDecision AsioOp.
Proof. solve_decision. Defined.

Inductive Posted := PostedDeferredClose | PostedReconnect.

#[export] Instance Posted_eqdec : EqDecision Posted.
Proof. solve_decision. Defined.

(** What happens to the packets to send. *)
Inductive SendLog := Queued (packet : list Z) | Written (packet : list Z) | QueueReset.

Record StreamTransport := mkStream {
  st_base : Transport;
  st_isTcp : bool;
  st_socketOpen : bool;
  st_receiveBuffer : list Z;
  st_sendQueue : list (list Z);
  st_sendQueueBytes : Z;
  st_nextReconnectWait : Z;
  st_reconnectEvent : option Z;
  st_live : list AsioOp;
  st_aborted : list AsioOp;
  st_posted : list Posted;
  st_log : list SendLog;
}.

#[export] Instance StreamTransport_base : HasTransport StreamTransport := {|
  base := st_base;
  setBase t s := mkStream t (st_isTcp s) (st_socketOpen s) (st_receiveBuffer s) (st_sendQueue s) (st_sendQueueBytes s)
    (st_nextReconnectWait s) (st_reconnectEvent s) (st_live s) (st_aborted s) (st_posted s) (st_log s);
|}.

#[export] Instance StreamTransport_laws : HasTransportLaws StreamTransport_base.
Proof. split; [done|by intros []|done]. Qed.

Definition set_receiveBuffer x s := mkStream (st_base s) (st_isTcp s) (st_socketOpen s) x (st_sendQueue s) (st_sendQueueBytes s)
  (st_nextReconnectWait s) (st_reconnectEvent s) (st_live s) (st_aborted s) (st_posted s) (st_log s).
Definition set_sendQueue q n l s := mkStream (st_base s) (st_isTcp s) (st_socketOpen s) (st_receiveBuffer s) q n
  (st_nextReconnectWait s) (st_reconnectEvent s) (st_live s) (st_aborted s) (st_posted s) (st_log s ++ [l]).
Definition set_reconnect w e s := mkStream (st_base s) (st_isTcp s) (st_socketOpen s) (st_receiveBuffer s) (st_sendQueue s) (st_sendQueueBytes s)
  w e (st_live s) (st_aborted s) (st_posted s) (st_log s).
Definition set_socket o live aborted s := mkStream (st_base s) (st_isTcp s) o (st_receiveBuffer s) (st_sendQueue s) (st_sendQueueBytes s)
  (st_nextReconnectWait s) (st_reconnectEvent s) live aborted (st_posted s) (st_log s).
Definition set_posted x s := mkStream (st_base s) (st_isTcp s) (st_socketOpen s) (st_receiveBuffer s) (st_sendQueue s) (st_sendQueueBytes s)
  (st_nextReconnectWait s) (st_reconnectEvent s) (st_live s) (st_aborted s) x (st_log s).

(** [s_initialReconnectWait], [s_maxReconnectWait] (ms) and [s_reconnectWaitMultiplier] *)
Definition initialReconnectWait : Z := 1000.
Definition maxReconnectWait : Z := 300000.
Definition reconnectWaitMultiplier : flt := Flt 1 1.

(** ** Sockets and [io_service] *)

Definition startOp (op : AsioOp) : M StreamTransport unit :=
  modify (λ s, set_socket (st_socketOpen s) (st_live s ++ [op]) (st_aborted s) s).
(** [socket.cancel()]; [socket.close()] does the same and closes the socket. *)
Definition socket_cancel : M StreamTransport unit :=
  modify (λ s, set_socket (st_socketOpen s) [] (st_aborted s ++ st_live s) s).
Definition socket_close : M StreamTransport unit :=
  modify (λ s, set_socket false [] (st_aborted s ++ st_live s) s).
Definition post (p : Posted) : M StreamTransport unit := modify (λ s, set_posted (st_posted s ++ [p]) s).

(** ** Closing *)

Definition Stream_doClose : M StreamTransport unit :=
  s ← get_st;
  (if st_socketOpen s then socket_cancel else mret tt);;
  post PostedDeferredClose.

(** [TcpTransport::doClose] *)
Definition doClose : M StreamTransport unit :=
  s ← get_st;
  (if st_isTcp s then modify (λ s, set_reconnect (st_nextReconnectWait s) None s) else mret tt);;
  Stream_doClose.

Definition resetReceiveBuffer : M StreamTransport unit := modify (set_receiveBuffer []).
Definition resetSendQueue : M StreamTransport unit := modify (set_sendQueue [] 0 QueueReset).

Definition deferredClose : M StreamTransport unit :=
  resetSendQueue;;
  socket_close;;
  setState TS_CLOSED.

(** ** Errors *)

Definition Stream_handleError (error : AsioError) : M StreamTransport unit :=
  setState (if decide (error = eof) then TS_CLOSING else TS_FAILED);;
  doClose.

(** [TcpTransport::handleError] *)
Definition handleError (error : AsioError) : M StreamTransport unit :=
  s ← get_st;
  if st_isTcp s && bool_decide (tr_persistency (base s) = FACE_PERSISTENCY_PERMANENT) then
    setState TS_DOWN;;
    socket_cancel;;
    post PostedReconnect
  else Stream_handleError error.

Definition processErrorCode (error : AsioError) : M StreamTransport unit :=
  state ← getState;
  if isClosing state || bool_decide (error = operation_aborted) || bool_decide (error = shut_down) then mret tt
  else handleError error.

(** ** Sending *)

Definition sendFromQueue : M StreamTransport unit :=
  s ← get_st;
  front ← someM (head (st_sendQueue s));
  startOp (WriteOp front).

Definition doSend (packet : list Z) : M StreamTransport unit :=
  state ← getState;
  if decide (state = TS_UP) then
    s ← get_st;
    modify (set_sendQueue (st_sendQueue s ++ [packet]) (seq64 (st_sendQueueBytes s + len packet)) (Queued packet));;
    if decide (st_sendQueue s = []) then sendFromQueue else mret tt
  else mret tt.

Definition handleSend (error : option AsioError) (nBytesSent : Z) : M StreamTransport unit :=
  match error with
  | Some e => processErrorCode e
  | None =>
      s ← get_st;
      front ← someM (head (st_sendQueue s));
      assertM (len front =? nBytesSent);;
      let queue := tail (st_sendQueue s) in
      modify (set_sendQueue queue (seq64 (st_sendQueueBytes s - nBytesSent)) (Written front));;
      if decide (queue = []) then mret tt else sendFromQueue
  end.

Definition int32 (n : Z) : Z := (n + 2 ^ 31) mod 2 ^ 32 - 2 ^ 31.

(** The length of the queue in the operating system is an argument; for TCP the sum is
    an [int]. *)
Definition getSendQueueLength (txQueueLength : Z) (s : StreamTransport) : Z :=
  if st_isTcp s then int32 (int32 (st_sendQueueBytes s) + Z.max 0 txQueueLength)
  else st_sendQueueBytes s + Z.max 0 txQueueLength.

(** ** Receiving *)

Section Receiving.
Context {P : BlockParser}.

Definition startReceive : M StreamTransport unit :=
  state ← getState;
  assertM (bool_decide (state = TS_UP));;
  s ← get_st;
  startOp (ReceiveOp (MAX_NDN_PACKET_SIZE - len (st_receiveBuffer s))).

(** What the link service may do while a packet is handed to it. *)
Inductive UpCall := CallSend (packet : list Z) | CallClose.

Definition runUpCall (c : UpCall) : M StreamTransport unit :=
  match c with CallSend p => Transport_send doSend p | CallClose => Transport_close doClose end.

(** The loop of [handleReceive]: the offset after it, and [isOk]. *)
Fixpoint receiveLoop (fuel : nat) (react : list Z → list UpCall) (view : list Z) (offset : nat) : M StreamTransport (nat * bool) :=
  match fuel with
  | O => λ _, None
  | S fuel' =>
      if (offset <? length view)%nat then
        match fromBuffer (drop offset view) with
        | None => mret (offset, false)
        | Some n =>
            let element := take n (drop offset view) in
            let offset := (offset + n)%nat in
            assertM (offset <=? length view)%nat;;
            Transport_receive (forM (react element) runUpCall) element 0;;
            receiveLoop fuel' react view offset
        end
      else mret (offset, true)
  end.

Definition handleReceive (react : list Z → list UpCall) (error : option AsioError) (received : list Z) : M StreamTransport unit :=
  match error with
  | Some e => processErrorCode e
  | None =>
      s ← get_st;
      let view := st_receiveBuffer s ++ received in
      modify (set_receiveBuffer view);;
      '(offset, isOk) ← receiveLoop (S (length view)) react view 0;
      if negb isOk && (len view =? MAX_NDN_PACKET_SIZE) && (offset =? 0)%nat then
        setState TS_FAILED;;
        doClose
      else
        modify (set_receiveBuffer (drop offset view));;
        startReceive
  end.

(** ** Reconnecting ([TcpTransport]) *)

Definition reconnect : M StreamTransport unit :=
  s ← get_st;
  if isClosing (tr_state (base s)) then mret tt
  else
    assertM (bool_decide (tr_persistency (base s) = FACE_PERSISTENCY_PERMANENT));;
    assertM (bool_decide (tr_state (base s) = TS_DOWN));;
    socket_close;;
    resetReceiveBuffer;;
    resetSendQueue;;
    modify (λ s, set_reconnect (st_nextReconnectWait s) (Some (st_nextReconnectWait s)) s);;
    modify (λ s, set_socket true (st_live s ++ [ConnectOp]) (st_aborted s) s).

(** [m_socket.local_endpoint()] throws when the socket is closed. *)
Definition handleReconnect (error : option AsioError) : M StreamTransport unit :=
  s ← get_st;
  if isClosing (tr_state (base s)) then mret tt
  else
    match error with
    | Some _ => mret tt
    | None =>
        modify (set_reconnect initialReconnectWait None);;
        assertM (st_socketOpen s);;
        setState TS_UP;;
        startReceive
    end.

Definition handleReconnectTimeout : M StreamTransport unit :=
  socket_close;;
  modify (λ s, set_reconnect (Z.min (fscale float_prec reconnectWaitMultiplier (st_nextReconnectWait s)) maxReconnectWait) (st_reconnectEvent s) s);;
  post PostedReconnect.

(** [TcpTransport::afterChangePersistency] *)
Definition afterChangePersistency (oldPersistency : FacePersistency) : M StreamTransport unit :=
  state ← getState;
  if decide (oldPersistency = FACE_PERSISTENCY_PERMANENT ∧ state = TS_DOWN) then
    setState TS_FAILED;;
    doClose
  else mret tt.

(** The base class and [UnixStreamTransport] refuse. *)
Definition canChangePersistencyToImpl (s : StreamTransport) : bool := st_isTcp s.

(** ** Construction *)

Definition newStream (isTcp : bool) (persistency : FacePersistency) : M StreamTransport unit :=
  startReceive;;
  s ← get_st;
  setPersistency (canChangePersistencyToImpl s) (λ p, if isTcp then afterChangePersistency p else mret tt) persistency;;
  setMtu MTU_UNLIMITED.

Definition unconstructed (isTcp : bool) : StreamTransport :=
  mkStream newTransport isTcp true [] [] 0 initialReconnectWait None [] [] [] [].

(** ** Events *)

Inductive StreamEvent :=
  | Received (data : list Z) (react : list Z → list UpCall)
  | ReceiveFailed (e : AsioError)
  | WriteDone
  | WriteFailed (e : AsioError)
  | Connected
  | ConnectFailed (e : AsioError)
  | AbortedDone (op : AsioOp)
  | PostedRuns
  | ReconnectTimeout
  | SendPacket (packet : list Z)
  | ClosePlease
  | SetPersistency (p : FacePersistency).

Fixpoint removeFirst {A} (f : A → bool) (l : list A) : list A :=
  match l with [] => [] | x :: l' => if f x then l' else x :: removeFirst f l' end.

Definition isReceive (op : AsioOp) : bool := match op with ReceiveOp _ => true | _ => false end.
Definition isWrite (op : AsioOp) : bool := match op with WriteOp _ => true | _ => false end.
Definition isConnect (op : AsioOp) : bool := match op with ConnectOp => true | _ => false end.

(** The first live operation of a kind completes. *)
Definition completeOp (f : AsioOp → bool) : M StreamTransport AsioOp :=
  s ← get_st;
  op ← someM (find f (st_live s));
  modify (set_socket (st_socketOpen s) (removeFirst f (st_live s)) (st_aborted s));;
  mret op.

Definition opSize (op : AsioOp) : Z := match op with WriteOp p => len p | _ => 0 end.

Definition streamStep (e : StreamEvent) : M StreamTransport unit :=
  match e with
  | Received data react => completeOp isReceive;; handleReceive react None data
  | ReceiveFailed e => completeOp isReceive;; handleReceive (λ _, []) (Some e) []
  | WriteDone => op ← completeOp isWrite; handleSend None (opSize op)
  | WriteFailed e => completeOp isWrite;; handleSend (Some e) 0
  | Connected => completeOp isConnect;; handleReconnect None
  | ConnectFailed e => completeOp isConnect;; handleReconnect (Some e)
  | AbortedDone op =>
      modify (λ s, set_socket (st_socketOpen s) (st_live s) (removeFirst (λ o, bool_decide (o = op)) (st_aborted s)) s);;
      match op with
      | ReceiveOp _ => handleReceive (λ _, []) (Some operation_aborted) []
      | WriteOp _ => handleSend (Some operation_aborted) 0
      | ConnectOp => handleReconnect (Some operation_aborted)
      end
  | PostedRuns =>
      s ← get_st;
      match st_posted s with
      | [] => mret tt
      | p :: rest =>
          modify (set_posted rest);;
          match p with PostedDeferredClose => deferredClose | PostedReconnect => reconnect end
      end
  | ReconnectTimeout =>
      modify (λ s, set_reconnect (st_nextReconnectWait s) None s);;
      handleReconnectTimeout
  | SendPacket p => Transport_send doSend p
  | ClosePlease => Transport_close doClose
  | SetPersistency p =>
      s ← get_st;
      setPersistency (canChangePersistencyToImpl s) (λ old, if st_isTcp s then afterChangePersistency old else mret tt) p
  end.
End Receiving.
