(* ===== verification/StreamSpecs.v ===== *)
(** * Invariants of stream transports

    Which operations are outstanding in which state, and what every event does. *)

From Stdlib Require Import ZArith Lia.
From stdpp Require Import base gmap option list.
From S2P Require Import Prelude LpPacket LpFragmenter LinkState LinkSpecs Transport StreamTransport.

Local Open Scope Z_scope.

(** ** Operations of a kind *)

Abbreviation ofKind := List.filter.

Lemma find_ofKind {A} (f : A → bool) l : find f l = head (ofKind f l).
Proof. induction l as [|x l IH]; [done|]. cbn. by destruct (f x). Qed.

Lemma removeFirst_ofKind {A} (f : A → bool) l : ofKind f (removeFirst f l) = tail (ofKind f l).
Proof. induction l as [|x l IH]; [done|]. cbn. destruct (f x) eqn:E; [done|]. cbn. by rewrite E. Qed.

Lemma removeFirst_other {A} (f g : A → bool) l : (∀ x, f x = true → g x = false) → ofKind g (removeFirst f l) = ofKind g l.
Proof.
  intros H. induction l as [|x l IH]; [done|]. cbn. destruct (f x) eqn:E; [by rewrite (H x E)|]. cbn. by rewrite IH.
Qed.

(** The live operations, by kind. *)
Record lives (l : list AsioOp) (rs ws cs : list AsioOp) : Prop := {
  lv_receive : ofKind isReceive l = rs;
  lv_write : ofKind isWrite l = ws;
  lv_connect : ofKind isConnect l = cs;
}.

Lemma lives_app l l' rs ws cs rs' ws' cs' : lives l rs ws cs → lives l' rs' ws' cs' → lives (l ++ l') (rs ++ rs') (ws ++ ws') (cs ++ cs').
Proof. intros [<- <- <-] [<- <- <-]. split; apply List.filter_app. Qed.

Lemma lives_nil l : lives l [] [] [] → l = [].
Proof. destruct l as [|[room|p|] l]; intros [H1 H2 H3]; done. Qed.

(** ** The queue of packets *)

(** The queue a log stands for; [None] when a packet was written that was not at the front. *)
Definition replay1 (q : option (list (list Z))) (l : SendLog) : option (list (list Z)) :=
  match l with
  | Queued p => (λ q, q ++ [p]) <$> q
  | Written p => match q with Some (p' :: q') => if decide (p = p') then Some q' else None | _ => None end
  | QueueReset => Some []
  end.
Definition replay (log : list SendLog) : option (list (list Z)) := foldl replay1 (Some []) log.

Lemma replay_snoc log l : replay (log ++ [l]) = replay1 (replay log) l.
Proof. unfold replay. by rewrite foldl_app. Qed.

Definition queueBytes (q : list (list Z)) : Z := seq64 (sumZ ((λ p, len p) <$> q)).

Lemma queueBytes_snoc q p : seq64 (queueBytes q + len p) = queueBytes (q ++ [p]).
Proof. unfold queueBytes. rewrite seq64_add, fmap_app, sumZ_app. f_equal. cbn. unfold sumZ. cbn. lia. Qed.

Lemma queueBytes_tail p q : seq64 (queueBytes (p :: q) - len p) = queueBytes q.
Proof. unfold queueBytes. rewrite fmap_cons, sumZ_cons, seq64_sub. f_equal. lia. Qed.

(** ** The invariant *)

(** Reduce the projections of an updated state. *)
Ltac st_simpl := cbn [base setBase StreamTransport_base st_base st_isTcp st_socketOpen st_receiveBuffer st_sendQueue st_sendQueueBytes st_nextReconnectWait
  st_reconnectEvent st_live st_aborted st_posted st_log set_receiveBuffer set_sendQueue set_reconnect set_socket set_posted
  tr_persistency tr_mtu tr_state set_state set_persistency set_mtu count_out count_in];
  repeat match goal with |- context [st_base ?x] => change (st_base x) with (base x) end.

Section Invariant.
Context {P : BlockParser} {PL : BlockParserLaws P}.
Implicit Types (s : StreamTransport) (p : list Z).

(** What holds in every state. *)
Record Common s : Prop := {
  cm_mtu : tr_mtu (base s) = MTU_UNLIMITED;
  cm_bytes : st_sendQueueBytes s = queueBytes (st_sendQueue s);
  cm_log : replay (st_log s) = Some (st_sendQueue s);
}.

(** The transport is up, with receive operations [rs]. *)
Record Up (rs : list AsioOp) s : Prop := {
  up_state : tr_state (base s) = TS_UP;
  up_posted : st_posted s = [];
  up_event : st_reconnectEvent s = None;
  up_open : st_socketOpen s = true;
  up_live : lives (st_live s) rs (match st_sendQueue s with [] => [] | p :: _ => [WriteOp p] end) [];
}.

(** It is down: about to reconnect, or connecting. *)
Record Down s : Prop := {
  dn_state : tr_state (base s) = TS_DOWN;
  dn_tcp : st_isTcp s = true;
  dn_permanent : tr_persistency (base s) = FACE_PERSISTENCY_PERMANENT;
  dn_phase : (st_posted s = [PostedReconnect] ∧ st_live s = [] ∧ st_reconnectEvent s = None) ∨
    (st_posted s = [] ∧ is_Some (st_reconnectEvent s) ∧ st_socketOpen s = true ∧ st_sendQueue s = [] ∧ st_receiveBuffer s = [] ∧
      (st_live s = [] ∨ st_live s = [ConnectOp]));
}.

(** It is being closed. *)
Record Closing s : Prop := {
  cl_state : tr_state (base s) = TS_CLOSING ∨ tr_state (base s) = TS_FAILED;
  cl_live : st_live s = [];
  cl_event : st_reconnectEvent s = None;
  cl_posted : st_posted s = [PostedDeferredClose] ∨ st_posted s = [PostedReconnect; PostedDeferredClose];
}.

Record Closed s : Prop := {
  cd_state : tr_state (base s) = TS_CLOSED;
  cd_live : st_live s = [];
  cd_event : st_reconnectEvent s = None;
  cd_posted : st_posted s = [];
}.

(** There is room in the buffer of the outstanding receive operation. *)
Definition receiving s : list AsioOp := [ReceiveOp (MAX_NDN_PACKET_SIZE - len (st_receiveBuffer s))].

Inductive Phase s : Prop :=
  | PhUp : Up (receiving s) s → len (st_receiveBuffer s) < MAX_NDN_PACKET_SIZE → Phase s
  | PhDown : Down s → Phase s
  | PhClosing : Closing s → Phase s
  | PhClosed : Closed s → Phase s.

Definition StreamInv s : Prop := Common s ∧ Phase s.

(** ** Changing state and closing *)

Lemma wp_getState (Q : TransportState → StreamTransport → Prop) s : wp getState Q s ↔ Q (tr_state (base s)) s.
Proof. done. Qed.

Lemma wp_modifyBase f (Q : unit → StreamTransport → Prop) s : wp (modifyBase f) Q s ↔ Q tt (setBase (f (base s)) s).
Proof. done. Qed.

Lemma setState_spec new s (Q : unit → StreamTransport → Prop) :
  isValidTransition (tr_state (base s)) new = true → Q tt (setBase (set_state new (base s)) s) → wp (setState new) Q s.
Proof.
  intros Hv HQ. unfold setState. wp_step. apply wp_getState. case_decide as E; [rewrite E in Hv; by destruct new|]. wp_step. by wp_step.
Qed.

(** Closing stops the operations and the timer. *)
Lemma doClose_spec s : (st_socketOpen s = true ∨ st_live s = []) → (st_isTcp s = true ∨ st_reconnectEvent s = None) →
  wp doClose (λ _ s', base s' = base s ∧ st_isTcp s' = st_isTcp s ∧ st_sendQueue s' = st_sendQueue s ∧ st_sendQueueBytes s' = st_sendQueueBytes s ∧ st_log s' = st_log s ∧
    st_live s' = [] ∧ st_reconnectEvent s' = None ∧ st_posted s' = st_posted s ++ [PostedDeferredClose]) s.
Proof.
  intros Ho Ht. unfold doClose, Stream_doClose, socket_cancel, post. do 3 wp_step. destruct (st_isTcp s) eqn:Et; repeat wp_step; st_simpl.
  - destruct (st_socketOpen s) eqn:Eo; repeat wp_step; st_simpl; [done|]. destruct Ho as [|Ho]; [done|]. done.
  - destruct Ht as [|Ht]; [done|]. destruct (st_socketOpen s) eqn:Eo; repeat wp_step; st_simpl; [done|]. destruct Ho as [|Ho]; [done|]. done.
Qed.

(** From a state in which the transport works to one in which it is closing. *)
Lemma fail_spec new s : Common s → (tr_state (base s) = TS_UP ∨ tr_state (base s) = TS_DOWN) → (new = TS_CLOSING ∨ new = TS_FAILED) →
  (st_socketOpen s = true ∨ st_live s = []) → (st_isTcp s = true ∨ st_reconnectEvent s = None) → (st_posted s = [] ∨ st_posted s = [PostedReconnect]) →
  wp (setState new;; doClose) (λ _ s', StreamInv s') s.
Proof.
  intros [C1 C2 C3] Hst Hnew Ho Ht Hp. wp_step. apply setState_spec; [by destruct Hst as [-> | ->], Hnew as [-> | ->]|]. eapply wp_mono; [by apply doClose_spec|].
  intros [] s' (E1 & E2 & E3 & E4 & E5 & E6 & E7 & E8). split; [split; rewrite ?E1, ?E3, ?E4, ?E5; done|]. apply PhClosing. split.
  - rewrite E1. st_simpl. by destruct Hnew; [left|right].
  - done.
  - done.
  - rewrite E8. st_simpl. destruct Hp as [-> | ->]; [by left|by right].
Qed.

(** ** Errors *)

Lemma processErrorCode_up e s : Common s → tr_state (base s) = TS_UP → st_posted s = [] → st_reconnectEvent s = None → st_socketOpen s = true →
  (e = eof ∨ e = other_error) → wp (processErrorCode e) (λ _ s', StreamInv s') s.
Proof.
  intros HC U1 U2 U3 U4 He. assert (e ≠ operation_aborted ∧ e ≠ shut_down) as [He1 He2] by (by destruct He as [-> | ->]). unfold processErrorCode. wp_step. apply wp_getState. rewrite U1, !bool_decide_false by done. cbn [isClosing orb].
  unfold handleError. do 2 wp_step. destruct (st_isTcp s) eqn:Et; cbn [andb].
  - case_bool_decide as Ep.
    + wp_step. apply setState_spec; [by rewrite U1|]. unfold socket_cancel, post. repeat wp_step. split; [destruct HC; by split|]. apply PhDown. split; st_simpl; try done. left. rewrite U2, U3. done.
    + apply fail_spec; auto. case_decide; auto.
  - apply fail_spec; auto. case_decide; auto.
Qed.

Lemma processErrorCode_ignored e s : isClosing (tr_state (base s)) = true ∨ e = operation_aborted → wp (processErrorCode e) (λ _ s', s' = s) s.
Proof.
  intros H. unfold processErrorCode. wp_step. apply wp_getState. destruct H as [-> | ->]; cbn [orb]; [by wp_step|]. rewrite (bool_decide_true (operation_aborted = operation_aborted)), orb_true_r by done. cbn [orb]. by wp_step.
Qed.

(** ** Sending *)

Lemma fits s p : Common s → p ≠ [] → fitsMtu p (base s) = true.
Proof. intros HC Hp. unfold fitsMtu. rewrite (cm_mtu _ HC), bool_decide_false by done. done. Qed.

(** A packet is queued, and written when it is the first one. *)
Lemma send_up rs s p : Common s → Up rs s → p ≠ [] →
  wp (Transport_send doSend p) (λ _ s', Common s' ∧ Up rs s' ∧ st_receiveBuffer s' = st_receiveBuffer s ∧ st_isTcp s' = st_isTcp s ∧
    tr_persistency (base s') = tr_persistency (base s) ∧ tr_output (base s') = tr_output (base s) ∧ st_sendQueue s' = st_sendQueue s ++ [p]) s.
Proof.
  intros HC HU Hp. pose proof HU as [U1 U2 U3 U4 U5]. pose proof HC as [C1 C2 C3]. unfold Transport_send. wp_step. apply wp_gets. wp_step. wp_step; [by apply fits|].
  rewrite !decide_True by auto. wp_step. apply wp_modifyBase. unfold doSend. wp_step. apply wp_getState. st_simpl. rewrite decide_True by done. do 4 wp_step. st_simpl.
  rewrite C2, queueBytes_snoc. assert (replay (st_log s ++ [Queued p]) = Some (st_sendQueue s ++ [p])) as Elog by (rewrite replay_snoc, C3; done).
  case_decide as Eq.
  - unfold sendFromQueue, startOp. do 3 wp_step. st_simpl. rewrite Eq. wp_step; [done|]. wp_step. st_simpl. rewrite Eq in *. split; [by split|]. split; [|done]. split; st_simpl; try done.
    replace rs with (rs ++ []) by apply app_nil_r. by apply (lives_app _ [WriteOp p] rs [] [] [] [WriteOp p] []).
  - wp_step. split; [by split|]. split; [|done]. split; st_simpl; try done. by destruct (st_sendQueue s).
Qed.

Lemma send_other s p : Common s → p ≠ [] → tr_state (base s) ≠ TS_UP → wp (Transport_send doSend p) (λ _ s', s' = s) s.
Proof.
  intros HC Hp Hst. unfold Transport_send. wp_step. apply wp_gets. wp_step. wp_step; [by apply fits|]. case_decide; [|by wp_step]. rewrite decide_False by done. do 2 wp_step.
  unfold doSend. wp_step. apply wp_getState. rewrite decide_False by done. by wp_step.
Qed.

(** A packet has been written: the next one follows. *)
Lemma handleSend_done rs s p q : Common s → tr_state (base s) = TS_UP → st_posted s = [] → st_reconnectEvent s = None → st_socketOpen s = true →
  st_sendQueue s = p :: q → lives (st_live s) rs [] [] →
  wp (handleSend None (len p)) (λ _ s', Common s' ∧ Up rs s' ∧ st_receiveBuffer s' = st_receiveBuffer s ∧ st_sendQueue s' = q) s.
Proof.
  intros [C1 C2 C3] U1 U2 U3 U4 Eq Hl. unfold handleSend. do 3 wp_step. rewrite Eq in *. wp_step; [done|]. wp_step. wp_step; [by apply Z.eqb_eq|]. cbn [tail]. do 2 wp_step.
  rewrite C2, queueBytes_tail. assert (replay (st_log s ++ [Written p]) = Some q) as Elog by (rewrite replay_snoc, C3; cbn; by rewrite decide_True).
  case_decide as Eq2.
  - wp_step. split; [by split|]. split; [|done]. split; st_simpl; try done. by rewrite Eq2.
  - unfold sendFromQueue, startOp. do 3 wp_step. st_simpl. destruct q as [|p' q]; [done|]. wp_step; [done|]. wp_step. split; [by split|]. split; [|done]. split; st_simpl; try done.
    replace rs with (rs ++ []) by apply app_nil_r. by apply (lives_app _ [WriteOp p'] rs [] [] [] [WriteOp p'] []).
Qed.

(** ** Receiving *)

(** The elements of a buffer and what is left of it. *)
Fixpoint parseAll (fuel : nat) (b : list Z) : list (list Z) * list Z :=
  match fuel with
  | O => ([], b)
  | S fuel' =>
      match b with
      | [] => ([], [])
      | _ =>
          match fromBuffer b with
          | None => ([], b)
          | Some n => let '(bs, rest) := parseAll fuel' (drop n b) in (take n b :: bs, rest)
          end
      end
  end.

Definition elements (b : list Z) : list (list Z) * list Z := parseAll (length b) b.

Lemma parseAll_fuel f f' b : (length b ≤ f)%nat → (length b ≤ f')%nat → parseAll f b = parseAll f' b.
Proof.
  revert f' b. induction f as [|f IH]; intros f' b Hf Hf'; [destruct b; [|cbn in Hf; lia]; by destruct f'|].
  destruct f' as [|f']; [destruct b; [done|cbn in Hf'; lia]|]. cbn [parseAll]. destruct b as [|x b]; [done|]. set (c := x :: b) in *.
  destruct (fromBuffer c) as [n|] eqn:E; [|done]. pose proof (block_bounds c n E). rewrite (IH f') by (rewrite length_drop; lia). done.
Qed.

Lemma elements_step b n : fromBuffer b = Some n → elements b = (take n b :: (elements (drop n b)).1, (elements (drop n b)).2).
Proof.
  intros E. pose proof (block_bounds b n E) as Hn. unfold elements. destruct (length b) as [|f] eqn:El; [lia|]. cbn [parseAll].
  destruct b as [|x b]; [done|]. rewrite E. rewrite (parseAll_fuel f (length (drop n (x :: b)))) by (rewrite ?length_drop, ?El; lia). by destruct (parseAll _ _).
Qed.

Lemma elements_nil : elements [] = ([], []).
Proof. done. Qed.

Lemma elements_stuck b : fromBuffer b = None → elements b = ([], b).
Proof. intros E. unfold elements. destruct b as [|x b]; [done|]. cbn [length parseAll]. by rewrite E. Qed.

(** The link service answers with packets to send. *)
Definition reacts (react : list Z → list UpCall) : Prop := ∀ e c, c ∈ react e → ∃ p, c = CallSend p ∧ p ≠ [].

Lemma upcalls_spec rs s cs : Common s → Up rs s → (∀ c, c ∈ cs → ∃ p, c = CallSend p ∧ p ≠ []) →
  wp (forM cs runUpCall) (λ _ s', Common s' ∧ Up rs s' ∧ st_receiveBuffer s' = st_receiveBuffer s ∧ st_isTcp s' = st_isTcp s ∧
    tr_persistency (base s') = tr_persistency (base s) ∧ tr_output (base s') = tr_output (base s)) s.
Proof.
  revert s. induction cs as [|c cs IH]; intros s HC HU Hc; cbn [forM]; [by wp_step|]. destruct (Hc c ltac:(constructor)) as (p & -> & Hp). wp_step. cbn [runUpCall].
  eapply wp_mono; [by apply (send_up rs)|]. intros [] s1 (H1 & H2 & H3 & H4 & H5 & H6 & _). eapply wp_mono; [apply IH; [done..|intros c' Hc'; apply Hc; by constructor]|].
  intros [] s2 (G1 & G2 & G3 & G4 & G5 & G6). split; [done|]. split; [done|]. split_and!; congruence.
Qed.

Lemma receive_spec rs s react e : Common s → Up rs s → reacts react → e ≠ [] →
  wp (Transport_receive (forM (react e) runUpCall) e 0) (λ _ s', Common s' ∧ Up rs s' ∧ st_receiveBuffer s' = st_receiveBuffer s ∧ st_isTcp s' = st_isTcp s ∧
    tr_persistency (base s') = tr_persistency (base s) ∧ tr_output (base s') = tr_output (base s) ++ [PacketReceived e 0]) s.
Proof.
  intros HC HU Hr He. unfold Transport_receive. wp_step. apply wp_gets. wp_step. wp_step; [by apply fits|]. wp_step. apply wp_modifyBase.
  eapply wp_mono; [apply (upcalls_spec rs); [destruct HC; by split|destruct HU; by split|apply Hr]|]. intros [] s' (H1 & H2 & H3 & H4 & H5 & H6). done.
Qed.

(** The loop hands over the elements, one after the other. *)
Lemma receiveLoop_spec fuel rs s react view offset : Common s → Up rs s → reacts react → (offset ≤ length view)%nat → (length view - offset < fuel)%nat →
  wp (receiveLoop fuel react view offset) (λ r s', Common s' ∧ Up rs s' ∧ st_receiveBuffer s' = st_receiveBuffer s ∧ st_isTcp s' = st_isTcp s ∧
    tr_persistency (base s') = tr_persistency (base s) ∧
    let '(bs, rest) := elements (drop offset view) in
    tr_output (base s') = tr_output (base s) ++ ((λ e, PacketReceived e 0) <$> bs) ∧ drop r.1 view = rest ∧ (offset ≤ r.1)%nat ∧
    (r.2 = bool_decide (rest = [])) ∧ (r.1 = offset ↔ bs = [])) s.
Proof.
  revert s offset. induction fuel as [|fuel IH]; intros s offset HC HU Hr Ho Hf; [lia|]. cbn [receiveLoop]. destruct (Nat.ltb_spec offset (length view)) as [Hlt|Hge].
  2: { wp_step. split; [done|]. split; [done|]. split; [done|]. split; [done|]. split; [done|]. assert (drop offset view = []) as E by (by apply drop_ge). rewrite E, elements_nil. cbn. rewrite app_nil_r. done. }
  destruct (fromBuffer (drop offset view)) as [n|] eqn:E.
  2: { wp_step. rewrite (elements_stuck _ E). split; [done|]. split; [done|]. split; [done|]. split; [done|]. split; [done|]. cbn. rewrite app_nil_r, bool_decide_false; [done|].
    intros Hd%(f_equal length). rewrite length_drop in Hd. cbn in Hd. lia. }
  pose proof (block_bounds _ _ E) as Hn. rewrite length_drop in Hn. rewrite (elements_step _ n E), drop_drop. wp_step. wp_step; [apply Nat.leb_le; lia|]. wp_step.
  eapply wp_mono; [apply (receive_spec rs); auto|].
  { intros Hd%(f_equal length). rewrite length_take, length_drop in Hd. cbn in Hd. lia. }
  intros [] s1 (H1 & H2 & H3 & H4 & H5 & H6). eapply wp_mono; [apply (IH s1 (offset + n)%nat); auto; lia|]. intros r s2 (G1 & G2 & G3 & G4 & G5 & G).
  split; [done|]. split; [done|]. split; [congruence|]. split; [congruence|]. split; [congruence|]. destruct (elements (drop (offset + n) view)) as [bs rest]. destruct G as (O & D & O2 & R & _).
  cbn [fst snd]. rewrite O, H6, <- app_assoc. split; [done|]. split; [done|]. split; [lia|]. split; [done|]. split; [lia|done].
Qed.

(** Octets arrive: their elements are handed over, the rest is kept; a full buffer
    without an element ends the transport. *)
Lemma handleReceive_data s react data : Common s → Up [] s → reacts react → len (st_receiveBuffer s) + len data ≤ MAX_NDN_PACKET_SIZE →
  let '(bs, rest) := elements (st_receiveBuffer s ++ data) in
  wp (handleReceive react None data) (λ _ s', StreamInv s' ∧
    if decide (bs = [] ∧ len rest = MAX_NDN_PACKET_SIZE) then
      tr_state (base s') = TS_FAILED ∧ tr_output (base s') = tr_output (base s) ++ [StateChanged TS_UP TS_FAILED]
    else tr_state (base s') = TS_UP ∧ tr_output (base s') = tr_output (base s) ++ ((λ e, PacketReceived e 0) <$> bs) ∧ st_receiveBuffer s' = rest) s.
Proof.
  intros HC HU Hr Hlen. set (view := st_receiveBuffer s ++ data) in *. destruct (elements view) as [bs rest] eqn:Ee. unfold handleReceive. do 4 wp_step. fold view. wp_step.
  eapply wp_mono; [apply (receiveLoop_spec _ []); [destruct HC; by split|destruct HU; by split|done|lia|lia]|].
  intros [offset isOk] s1 (H1 & H2 & H3 & H4 & H5 & H6). rewrite drop_0, Ee in H6. cbn [fst snd] in H6. destruct H6 as (O & D & _ & -> & Hoff). cbn beta iota.
  assert (len view ≤ MAX_NDN_PACKET_SIZE) as Hv by (unfold view; rewrite length_app; lia). pose proof H2 as [U1 U2 U3 U4 U5].
  destruct (decide (bs = [] ∧ len rest = MAX_NDN_PACKET_SIZE)) as [[-> Hfull]|Hno].
  - assert (offset = 0%nat) as -> by by apply Hoff. rewrite drop_0 in D. subst rest. rewrite bool_decide_false by (intros E; rewrite E in Hfull; done). rewrite Hfull. cbn [negb andb Z.eqb Pos.eqb Nat.eqb].
    rewrite Z.eqb_refl. cbn [andb]. eapply wp_mono; [apply wp_and; [by apply fail_spec; auto|]|].
    { wp_step. apply setState_spec; [by rewrite U1|]. eapply wp_mono; [apply doClose_spec; auto|]. intros [] s2 (E1 & _). instantiate (1 := λ _ s2, base s2 = set_state TS_FAILED (base s1)). exact E1. }
    intros [] s2 [HI E]. split; [done|]. rewrite E. cbn [set_state tr_state tr_output]. rewrite O, U1, app_nil_r. done.
  - replace (negb (bool_decide (rest = [])) && (len view =? MAX_NDN_PACKET_SIZE) && (offset =? 0)%nat) with false.
    2: { symmetry. apply andb_false_iff. destruct (Nat.eqb_spec offset 0) as [E0|]; [left|by right]. apply andb_false_iff. right. apply Z.eqb_neq. intros Ev. apply Hno. split; [by apply Hoff|]. by rewrite <- D, E0, drop_0. }
    do 2 wp_step. unfold startReceive. wp_step. apply wp_getState. st_simpl. wp_step. wp_step; [by apply bool_decide_true|]. unfold startOp. do 3 wp_step. rewrite D.
    split; [|done]. split; [destruct H1; by split|]. apply PhUp.
    + split; st_simpl; try done. eapply (lives_app _ [ReceiveOp _] [] _ [] [_] [] []) in U5; [|done]. by rewrite !app_nil_r in U5.
    + st_simpl. destruct (decide (offset = 0%nat)) as [E0|Hne]; [|rewrite <- D, length_drop; assert (offset ≤ length view ∨ length view < offset)%nat as [?|?] by lia; unfold MAX_NDN_PACKET_SIZE in *; lia].
      rewrite <- D, E0, drop_0. assert (len view ≠ MAX_NDN_PACKET_SIZE); [|lia]. intros Ev. apply Hno. split; [by apply Hoff|]. by rewrite <- D, E0, drop_0.
Qed.

(** ** Events *)

(** An event that Boost.Asio and the face may bring about. *)
Definition streamAdmissible s (e : StreamEvent) : Prop :=
  match e with
  | Received data react => (∃ room, ReceiveOp room ∈ st_live s ∧ 0 < len data ≤ room) ∧ reacts react
  | ReceiveFailed e => (∃ room, ReceiveOp room ∈ st_live s) ∧ (e = eof ∨ e = other_error)
  | WriteDone => ∃ p, WriteOp p ∈ st_live s
  | WriteFailed e => (∃ p, WriteOp p ∈ st_live s) ∧ (e = eof ∨ e = other_error)
  | Connected | ConnectFailed _ => ConnectOp ∈ st_live s
  | AbortedDone op => op ∈ st_aborted s
  | PostedRuns => st_posted s ≠ []
  | ReconnectTimeout => is_Some (st_reconnectEvent s)
  | SendPacket p => p ≠ []
  | ClosePlease => True
  | SetPersistency p => canChangePersistencyTo (canChangePersistencyToImpl s) p (base s) = true
  end.

Lemma completeOp_spec f op s (Q : AsioOp → StreamTransport → Prop) : find f (st_live s) = Some op →
  Q op (set_socket (st_socketOpen s) (removeFirst f (st_live s)) (st_aborted s) s) → wp (completeOp f) Q s.
Proof. intros Hf HQ. unfold completeOp. do 3 wp_step. wp_step; [done|]. by do 3 wp_step. Qed.

(** A live operation tells the phase. *)
Lemma live_up s op : Phase s → op ∈ st_live s → op ≠ ConnectOp → Up (receiving s) s ∧ len (st_receiveBuffer s) < MAX_NDN_PACKET_SIZE.
Proof.
  intros [HU Hl|[_ _ _ [(_ & E & _)|(_ & _ & _ & _ & _ & [E|E])]]|[_ E _ _]|[_ E _ _]] Hin Hc; rewrite ?E in Hin; try (by apply elem_of_nil in Hin); [done|]. by apply list_elem_of_singleton in Hin.
Qed.

Lemma live_connect s : Phase s → ConnectOp ∈ st_live s → Down s ∧ st_posted s = [] ∧ st_socketOpen s = true ∧ st_sendQueue s = [] ∧ st_receiveBuffer s = [] ∧ st_live s = [ConnectOp] ∧ is_Some (st_reconnectEvent s).
Proof.
  intros [[_ _ _ _ [_ _ E]] _|HD|[_ E _ _]|[_ E _ _]] Hin.
  - assert (ConnectOp ∈ ofKind isConnect (st_live s)) as H by (apply list_elem_of_In, List.filter_In; split; [by apply list_elem_of_In|done]). rewrite E in H. by apply elem_of_nil in H.
  - pose proof HD as [_ _ _ [(_ & E & _)|(E1 & E2 & E3 & E4 & E5 & [E|E])]]; [by rewrite E in Hin; apply elem_of_nil in Hin..|]. done.
  - by rewrite E in Hin; apply elem_of_nil in Hin.
  - by rewrite E in Hin; apply elem_of_nil in Hin.
Qed.

(** The receive operation completes. *)
Lemma Up_received s : Up (receiving s) s → find isReceive (st_live s) = Some (ReceiveOp (MAX_NDN_PACKET_SIZE - len (st_receiveBuffer s))) ∧
  Up [] (set_socket (st_socketOpen s) (removeFirst isReceive (st_live s)) (st_aborted s) s).
Proof.
  intros [U1 U2 U3 U4 [L1 L2 L3]]. split; [by rewrite find_ofKind, L1|]. split; st_simpl; try done.
  split; [by rewrite removeFirst_ofKind, L1|by rewrite removeFirst_other; [|by intros []]..].
Qed.

Lemma Common_socket s o live aborted : Common s → Common (set_socket o live aborted s).
Proof. intros []. by split. Qed.

Lemma received_spec s data react : StreamInv s → tr_state (base s) = TS_UP → reacts react → len (st_receiveBuffer s) + len data ≤ MAX_NDN_PACKET_SIZE →
  let '(bs, rest) := elements (st_receiveBuffer s ++ data) in
  wp (streamStep (Received data react)) (λ _ s', StreamInv s' ∧
    if decide (bs = [] ∧ len rest = MAX_NDN_PACKET_SIZE) then
      tr_state (base s') = TS_FAILED ∧ tr_output (base s') = tr_output (base s) ++ [StateChanged TS_UP TS_FAILED]
    else tr_state (base s') = TS_UP ∧ tr_output (base s') = tr_output (base s) ++ ((λ e, PacketReceived e 0) <$> bs) ∧ st_receiveBuffer s' = rest) s.
Proof.
  intros [HC HP] Hup Hr Hlen. destruct HP as [HU Hlt|[]|[[] _ _ _]|[]]; try congruence. destruct (Up_received s HU) as [Hf HU'].
  set (s1 := set_socket (st_socketOpen s) (removeFirst isReceive (st_live s)) (st_aborted s) s) in *. pose proof (handleReceive_data s1 react data (Common_socket _ _ _ _ HC) HU' Hr Hlen) as H.
  change (st_receiveBuffer s1) with (st_receiveBuffer s) in H. destruct (elements _) as [bs rest]. cbn [streamStep]. wp_step. apply (completeOp_spec isReceive _ s _ Hf). exact H.
Qed.

Lemma receive_step s data react : StreamInv s → streamAdmissible s (Received data react) → wp (streamStep (Received data react)) (λ _ s', StreamInv s') s.
Proof.
  intros HI [(room & Hin & Hd) Hr]. pose proof HI as [HC HP]. destruct (live_up s _ HP Hin ltac:(done)) as [HU Hlt]. assert (room = MAX_NDN_PACKET_SIZE - len (st_receiveBuffer s)) as ->.
  { destruct HU as [_ _ _ _ [L1 _ _]]. assert (ReceiveOp room ∈ ofKind isReceive (st_live s)) as H by (apply list_elem_of_In, List.filter_In; split; [by apply list_elem_of_In|done]).
    rewrite L1 in H. apply list_elem_of_singleton in H. congruence. }
  pose proof (received_spec s data react HI (up_state _ _ HU) Hr ltac:(lia)) as H. destruct (elements _) as [bs rest]. eapply wp_mono; [exact H|]. by intros [] s' [? _].
Qed.

Lemma receiveFailed_step s e : StreamInv s → streamAdmissible s (ReceiveFailed e) → wp (streamStep (ReceiveFailed e)) (λ _ s', StreamInv s') s.
Proof.
  intros [HC HP] [(room & Hin) He]. destruct (live_up s _ HP Hin ltac:(done)) as [HU Hlt]. destruct (Up_received s HU) as [Hf HU']. cbn [streamStep]. wp_step.
  apply (completeOp_spec isReceive _ s _ Hf). destruct HU'. apply (processErrorCode_up e); [by apply Common_socket|done..].
Qed.

(** The write operation completes. *)
Lemma Up_written s p : Up (receiving s) s → WriteOp p ∈ st_live s → find isWrite (st_live s) = Some (WriteOp p) ∧ (∃ q, st_sendQueue s = p :: q) ∧
  lives (removeFirst isWrite (st_live s)) (receiving s) [] [].
Proof.
  intros [U1 U2 U3 U4 [L1 L2 L3]] Hin. assert (WriteOp p ∈ ofKind isWrite (st_live s)) as H by (apply list_elem_of_In, List.filter_In; split; [by apply list_elem_of_In|done]).
  rewrite L2 in H. destruct (st_sendQueue s) as [|p' q]; [by apply elem_of_nil in H|]. apply list_elem_of_singleton in H as [= ->]. split; [by rewrite find_ofKind, L2|]. split; [eauto|].
  split; [rewrite removeFirst_other; [done|by intros []]|by rewrite removeFirst_ofKind, L2|rewrite removeFirst_other; [done|by intros []]].
Qed.

Lemma writeDone_step s : StreamInv s → streamAdmissible s WriteDone → wp (streamStep WriteDone) (λ _ s', StreamInv s') s.
Proof.
  intros [HC HP] [p Hin]. destruct (live_up s _ HP Hin ltac:(done)) as [HU Hlt]. destruct (Up_written s p HU Hin) as (Hf & [q Eq] & Hl). pose proof HU as [U1 U2 U3 U4 _].
  cbn [streamStep]. wp_step. apply (completeOp_spec isWrite _ s _ Hf). cbn [opSize]. eapply wp_mono; [apply (handleSend_done (receiving s) _ p q); [by apply Common_socket|done..]|].
  intros [] s' (H1 & H2 & H3 & _). split; [done|]. apply PhUp; [unfold receiving; rewrite H3; exact H2|by rewrite H3].
Qed.

Lemma writeFailed_step s e : StreamInv s → streamAdmissible s (WriteFailed e) → wp (streamStep (WriteFailed e)) (λ _ s', StreamInv s') s.
Proof.
  intros [HC HP] [[p Hin] He]. destruct (live_up s _ HP Hin ltac:(done)) as [HU Hlt]. destruct (Up_written s p HU Hin) as (Hf & _ & _). pose proof HU as [U1 U2 U3 U4 _].
  cbn [streamStep]. wp_step. apply (completeOp_spec isWrite _ s _ Hf). cbn [handleSend]. apply (processErrorCode_up e); [by apply Common_socket|done..].
Qed.

(** The connection is there again. *)
Lemma connected_step s : StreamInv s → streamAdmissible s Connected → wp (streamStep Connected) (λ _ s', StreamInv s') s.
Proof.
  intros [HC HP] Hin. destruct (live_connect s HP Hin) as ([D1 D2 D3 _] & E1 & E2 & E3 & E4 & E5 & E6). cbn [streamStep]. wp_step.
  apply (completeOp_spec isConnect ConnectOp s); [by rewrite E5|]. rewrite E5. cbn [removeFirst isConnect]. unfold handleReconnect. do 2 wp_step. st_simpl. rewrite D1. cbn [isClosing].
  do 2 wp_step. wp_step. wp_step; [done|]. wp_step. apply setState_spec; [st_simpl; by rewrite D1|]. unfold startReceive, startOp. wp_step. apply wp_getState. st_simpl. wp_step. wp_step; [by apply bool_decide_true|].
  do 3 wp_step. st_simpl. split; [destruct HC; by split|]. apply PhUp; st_simpl; [|by rewrite E4]. split; st_simpl; try done. rewrite E3. by split.
Qed.

Lemma connectFailed_step s e : StreamInv s → streamAdmissible s (ConnectFailed e) → wp (streamStep (ConnectFailed e)) (λ _ s', StreamInv s') s.
Proof.
  intros [HC HP] Hin. destruct (live_connect s HP Hin) as ([D1 D2 D3 _] & E1 & E2 & E3 & E4 & E5 & E6). cbn [streamStep]. wp_step.
  apply (completeOp_spec isConnect ConnectOp s); [by rewrite E5|]. rewrite E5. cbn [removeFirst isConnect]. unfold handleReconnect. do 2 wp_step. st_simpl. rewrite D1. cbn [isClosing]. wp_step.
  split; [by apply Common_socket|]. apply PhDown. split; st_simpl; try done. right. split_and!; try done. by left.
Qed.

(** A cancelled operation is ignored. *)
Lemma Phase_aborted s aborted : Phase s → Phase (set_socket (st_socketOpen s) (st_live s) aborted s).
Proof. intros [[] ?|[]|[]|[]]; [apply PhUp; [by split|done]|apply PhDown; by split|apply PhClosing; by split|apply PhClosed; by split]. Qed.

Lemma aborted_step s op : StreamInv s → wp (streamStep (AbortedDone op)) (λ _ s', StreamInv s') s.
Proof.
  intros [HC HP]. cbn [streamStep]. do 2 wp_step. set (s1 := set_socket _ _ _ s). assert (StreamInv s1) as HI by (split; [by apply Common_socket|by apply Phase_aborted]).
  destruct op as [room|p|]; cbn [handleReceive handleSend].
  - eapply wp_mono; [apply processErrorCode_ignored; by right|]. by intros [] s' ->.
  - eapply wp_mono; [apply processErrorCode_ignored; by right|]. by intros [] s' ->.
  - unfold handleReconnect. do 2 wp_step. destruct (isClosing _); by wp_step.
Qed.

(** A posted handler runs: the transport is closed, or reconnects. *)
Lemma deferredClose_step s : Common s → tr_state (base s) = TS_CLOSING ∨ tr_state (base s) = TS_FAILED → st_posted s = [] → st_reconnectEvent s = None →
  wp deferredClose (λ _ s', StreamInv s') s.
Proof.
  intros [C1 C2 C3] Hst Hp He. unfold deferredClose, resetSendQueue, socket_close. do 4 wp_step. apply setState_spec; [st_simpl; by destruct Hst as [-> | ->]|]. split.
  - split; st_simpl; [done|done|by rewrite replay_snoc].
  - apply PhClosed. by split.
Qed.

Lemma reconnect_closing s : isClosing (tr_state (base s)) = true → wp reconnect (λ _ s', s' = s) s.
Proof. intros H. unfold reconnect. do 2 wp_step. rewrite H. by wp_step. Qed.

Lemma reconnect_step s : Common s → tr_state (base s) = TS_DOWN → st_isTcp s = true → tr_persistency (base s) = FACE_PERSISTENCY_PERMANENT → st_posted s = [] →
  wp reconnect (λ _ s', StreamInv s') s.
Proof.
  intros [C1 C2 C3] Hst Ht Hp Hpo. unfold reconnect. do 2 wp_step. rewrite Hst, Hp. cbn [isClosing]. wp_step. wp_step; [by apply bool_decide_true|]. wp_step. wp_step; [by apply bool_decide_true|].
  unfold socket_close, resetReceiveBuffer, resetSendQueue. repeat wp_step. split.
  - split; st_simpl; [done|done|by rewrite replay_snoc].
  - apply PhDown. split; st_simpl; try done. right. split_and!; try done. by right.
Qed.

Lemma posted_step s : StreamInv s → st_posted s ≠ [] → wp (streamStep PostedRuns) (λ _ s', StreamInv s') s.
Proof.
  intros [HC HP] Hne. cbn [streamStep]. do 2 wp_step. destruct HP as [[_ E _ _ _] _|[D1 D2 D3 [(E & E2 & E3)|(E & _)]]|[K1 K2 K3 [E|E]]|[_ _ _ E]]; rewrite E in *; try done; do 2 wp_step.
  - by apply reconnect_step; [destruct HC; by split|..].
  - by apply deferredClose_step; [destruct HC; by split|..].
  - eapply wp_mono; [apply reconnect_closing; st_simpl; by destruct K1 as [-> | ->]|]. intros [] s' ->. split; [destruct HC; by split|]. apply PhClosing. split; st_simpl; try done. by left.
Qed.

Lemma timeout_step s : StreamInv s → is_Some (st_reconnectEvent s) → wp (streamStep ReconnectTimeout) (λ _ s', StreamInv s') s.
Proof.
  intros [HC HP] [w Hw]. cbn [streamStep]. unfold handleReconnectTimeout, socket_close, post. repeat wp_step.
  destruct HP as [[_ _ E _ _] _|[D1 D2 D3 [(_ & _ & E)|(E & _)]]|[_ _ E _]|[_ _ E _]]; try congruence. split; [destruct HC; by split|]. apply PhDown. split; st_simpl; try done. left. by rewrite E.
Qed.

(** Calls from the face. *)
Lemma send_step s p : StreamInv s → p ≠ [] → wp (streamStep (SendPacket p)) (λ _ s', StreamInv s') s.
Proof.
  intros [HC HP] Hp. cbn [streamStep]. destruct (decide (tr_state (base s) = TS_UP)) as [Hup|Hup]; [|eapply wp_mono; [by apply send_other|]; by intros [] s' ->].
  destruct HP as [HU Hl|[D1 _ _ _]|[[D1|D1] _ _ _]|[D1 _ _ _]]; [|congruence..].
  eapply wp_mono; [by apply (send_up (receiving s))|]. intros [] s' (H1 & H2 & H3 & _). split; [done|]. apply PhUp; [unfold receiving; by rewrite H3|by rewrite H3].
Qed.

Lemma close_step s : StreamInv s → wp (streamStep ClosePlease) (λ _ s', StreamInv s') s.
Proof.
  intros [HC HP]. cbn [streamStep]. unfold Transport_close. wp_step. apply wp_getState. case_decide as Hst; [|by wp_step].
  destruct HP as [[U1 U2 U3 U4 U5] Hl|[D1 D2 D3 D4]|[[K|K] _ _ _]|[K _ _ _]]; [| |destruct Hst; congruence..].
  - apply fail_spec; auto.
  - destruct D4 as [(E1 & E2 & E3)|(E1 & E2 & E3 & _)]; apply fail_spec; auto.
Qed.

(** What the persistency of a transport may be. *)
Lemma persistency_step s (p : FacePersistency) : StreamInv s → streamAdmissible s (SetPersistency p) → wp (streamStep (SetPersistency p)) (λ _ s', StreamInv s') s.
Proof.
  intros [HC HP] Hok. cbn [streamStep streamAdmissible] in *. do 2 wp_step. unfold setPersistency. wp_step. apply wp_gets. wp_step. wp_step; [done|]. case_decide as Ep; [by wp_step|].
  wp_step. apply wp_modifyBase. set (s1 := setBase _ s). assert (Common s1) as HC1 by (destruct HC; by split).
  assert (tr_state (base s) ≠ TS_DOWN → StreamInv s1) as Hother.
  { intros Hd. split; [done|]. destruct HP as [[] ?|[]|[]|[]]; [apply PhUp; [by split|done]|done|apply PhClosing; by split|apply PhClosed; by split]. }
  destruct (decide (tr_state (base s) = TS_DOWN)) as [Hd|Hd].
  - destruct HP as [[]|[D1 D2 D3 D4]|[[K|K] _ _ _]|[K _ _ _]]; try congruence. rewrite D2, D3, decide_False by done. unfold afterChangePersistency. wp_step. apply wp_getState.
    change (tr_state (base s1)) with (tr_state (base s)). rewrite decide_True by done. destruct D4 as [(E1 & E2 & E3)|(E1 & E2 & E3 & _)]; apply fail_spec; auto.
  - case_decide; [wp_step; auto|]. destruct (st_isTcp s); [|wp_step; auto]. unfold afterChangePersistency. wp_step. apply wp_getState. change (tr_state (base s1)) with (tr_state (base s)).
    rewrite decide_False by (intros [_ ?]; done). wp_step. auto.
Qed.

(** Every event keeps the invariant. *)
Lemma streamStep_safe s e : StreamInv s → streamAdmissible s e → wp (streamStep e) (λ _ s', StreamInv s') s.
Proof.
  intros HI Ha. destruct e; [by apply receive_step|by apply receiveFailed_step|by apply writeDone_step|by apply writeFailed_step|by apply connected_step|by apply connectFailed_step|
    by apply aborted_step|by apply posted_step|by apply timeout_step|by apply send_step|by apply close_step|by apply persistency_step].
Qed.

Lemma newStream_spec isTcp (p : FacePersistency) : wp (newStream isTcp p) (λ _ s', StreamInv s' ∧ tr_output (base s') = [] ∧ st_receiveBuffer s' = [] ∧ tr_state (base s') = TS_UP) (unconstructed isTcp).
Proof.
  destruct isTcp, p; (eapply wp_intro; [vm_compute; reflexivity|]); (split; [split; [by split|]|done]); apply PhUp; done.
Qed.
End Invariant.
