(* ===== verification/TransportCorrect.v ===== *)
(** * Correctness of transports

    Runs of stream transports never fail and deliver the packets of the octet stream
    in order, however it is cut; examples show what happens when an operation completes
    although it has been cancelled. *)

From Stdlib Require Import ZArith Lia.
From stdpp Require Import base gmap option list.
From S2P Require Import Prelude LpPacket LpFragmenter LinkState LinkSpecs Transport StreamTransport StreamSpecs.

Local Open Scope Z_scope.

Section Streams.
Context {P : BlockParser} {PL : BlockParserLaws P}.
Implicit Types (s : StreamTransport).

(** ** The octet stream *)

(** Parsing can stop and go on with what is left. *)
Lemma elements_app a b : elements (a ++ b) = ((elements a).1 ++ (elements ((elements a).2 ++ b)).1, (elements ((elements a).2 ++ b)).2).
Proof.
  remember (length a) as n eqn:En. revert a En. induction n as [n IH] using lt_wf_ind. intros a ->. destruct (fromBuffer a) as [k|] eqn:E.
  - pose proof (block_bounds a k E) as Hk. rewrite (elements_step a k E), (elements_step (a ++ b) k) by (by apply block_extend). cbn [fst snd].
    rewrite take_app_le, drop_app_le by lia. rewrite (IH (length (drop k a))) by (rewrite ?length_drop; lia). done.
  - rewrite (elements_stuck a E). cbn [fst snd]. by destruct (elements (a ++ b)).
Qed.

(** A packet that spans its octets. *)
Definition wellFormed (b : list Z) : Prop := fromBuffer b = Some (length b).

(** The elements of a sequence of packets, followed by the beginning of another. *)
Lemma elements_packets bs c : (∀ b, b ∈ bs → wellFormed b) → elements (concat bs ++ c) = (bs ++ (elements c).1, (elements c).2).
Proof.
  induction bs as [|b bs IH]; intros Hb; cbn [concat app]; [by destruct (elements c)|]. rewrite <- app_assoc. pose proof (Hb b ltac:(constructor)) as Eb.
  rewrite (elements_step _ (length b)) by (by apply block_extend). rewrite take_app_length, drop_app_length, IH by (intros b' Hb'; apply Hb; by constructor). done.
Qed.

Lemma elements_prefix b c d : wellFormed b → b = c ++ d → d ≠ [] → elements c = ([], c).
Proof.
  intros Hb -> Hd. destruct (fromBuffer c) as [n|] eqn:E; [|by apply elements_stuck]. pose proof (block_bounds c n E). pose proof (block_extend c d n E) as E2.
  unfold wellFormed in Hb. rewrite E2 in Hb. injection Hb as ->. rewrite length_app in H. destruct d; [done|]. cbn in H. lia.
Qed.

(** What is left of the beginning of a sequence of packets is shorter than a packet. *)
Lemma rest_short bs c d : (∀ b, b ∈ bs → wellFormed b ∧ len b ≤ MAX_NDN_PACKET_SIZE) → concat bs = c ++ d → len (elements c).2 < MAX_NDN_PACKET_SIZE.
Proof.
  revert c. induction bs as [|b bs IH]; intros c Hb E; cbn [concat] in E; [symmetry in E; apply app_nil in E as [-> _]; done|].
  destruct (Hb b ltac:(constructor)) as [Hwf Hlen]. destruct (decide (length b ≤ length c)%nat) as [Hle|Hgt].
  - assert (c = b ++ drop (length b) c) as Ec.
    { apply (f_equal (take (length b))) in E as E'. rewrite take_app_length, take_app_le in E' by done. rewrite E' at 1. by rewrite take_drop. }
    rewrite Ec in E |- *. rewrite <- app_assoc in E. apply app_inv_head in E. rewrite (elements_step _ (length b)) by (by apply block_extend). rewrite drop_app_length. cbn [snd].
    apply (IH _); [intros b' Hb'; apply Hb; by constructor|exact E].
  - assert (b = c ++ drop (length c) b) as Eb.
    { apply (f_equal (take (length c))) in E as E'. rewrite take_app_length, take_app_le in E' by lia. rewrite <- E' at 1. by rewrite take_drop. }
    rewrite (elements_prefix b c (drop (length c) b)); [|done..|intros Hd%(f_equal length); rewrite length_drop in Hd; cbn in Hd; lia]. cbn [snd]. lia.
Qed.

(** ** Runs *)

Fixpoint streamRun (es : list StreamEvent) s : Prop :=
  match es with
  | [] => True
  | e :: es' => streamAdmissible s e ∧ match streamStep e s with Some (s', _) => streamRun es' s' | None => True end
  end.

Definition constructed (isTcp : bool) (p : FacePersistency) : StreamTransport :=
  match newStream isTcp p (unconstructed isTcp) with Some (s, _) => s | None => unconstructed isTcp end.

Lemma constructed_inv isTcp p : StreamInv (constructed isTcp p) ∧ tr_output (base (constructed isTcp p)) = [] ∧ st_receiveBuffer (constructed isTcp p) = [] ∧ tr_state (base (constructed isTcp p)) = TS_UP.
Proof. unfold constructed. destruct (wp_elim _ _ _ (newStream_spec isTcp p)) as (s & [] & -> & H). done. Qed.

(** C7: whatever octets and errors arrive, packets are sent, and the transport is
    closed, changes its persistency, loses its connection or reconnects, a Unix or TCP
    transport fails no assertion and makes no invalid state transition, as long as
    cancelled operations complete as cancelled and the link service does not close it
    while it is given a packet.  When up it always has one receive operation with room
    and writes the front of its queue; packets are written in the order in which
    they were queued; when closing, it is closed exactly once. *)
Theorem stream_transport_safe isTcp p es : streamRun es (constructed isTcp p) → wp (forM es streamStep) (λ _ s', StreamInv s') (constructed isTcp p).
Proof.
  destruct (constructed_inv isTcp p) as [HI _]. revert HI. generalize (constructed isTcp p). induction es as [|e es IH]; intros s HI Hrun; cbn [forM]; [by wp_step|].
  destruct Hrun as [Ha Hrest]. apply wp_bind. destruct (wp_elim _ _ _ (streamStep_safe s e HI Ha)) as (s' & [] & E & HI'). rewrite E in Hrest. unfold wp at 1. rewrite E. by apply IH.
Qed.

(** Octets that fit into the buffer when they arrive. *)
Fixpoint fitting (rest : list Z) (cs : list (list Z)) : Prop :=
  match cs with
  | [] => True
  | c :: cs' => 0 < len c ≤ MAX_NDN_PACKET_SIZE - len rest ∧ fitting (elements (rest ++ c)).2 cs'
  end.

Lemma feed_spec react bs cs d s seen out :
  StreamInv s → reacts react → tr_state (base s) = TS_UP → fitting (st_receiveBuffer s) cs →
  (∀ b, b ∈ bs → wellFormed b ∧ len b ≤ MAX_NDN_PACKET_SIZE) → concat bs = seen ++ concat cs ++ d →
  st_receiveBuffer s = (elements seen).2 → tr_output (base s) = out ++ ((λ e, PacketReceived e 0) <$> (elements seen).1) →
  wp (forM cs (λ c, streamStep (Received c react))) (λ _ s', StreamInv s' ∧ tr_state (base s') = TS_UP ∧ st_receiveBuffer s' = (elements (seen ++ concat cs)).2 ∧
    tr_output (base s') = out ++ ((λ e, PacketReceived e 0) <$> (elements (seen ++ concat cs)).1)) s.
Proof.
  intros HI Hr. revert s seen HI. induction cs as [|c cs IH]; intros s seen HI Hup Hfit Hbs Ebs Ebuf Eout; cbn [forM concat] in *.
  { wp_step. by rewrite app_nil_r. }
  destruct Hfit as [Hc Hfit]. wp_step. pose proof (received_spec s c react HI Hup Hr ltac:(lia)) as H. pose proof (elements_app seen c) as Eapp. rewrite <- Ebuf in Eapp.
  pose proof (rest_short bs (seen ++ c) (concat cs ++ d) Hbs ltac:(by rewrite Ebs, <- !app_assoc)) as Hshort. destruct (elements (st_receiveBuffer s ++ c)) as [es rest]. cbn [fst snd] in *. rewrite Eapp in Hshort. cbn [snd] in Hshort.
  eapply wp_mono; [exact H|]. clear H. intros [] s1 [HI1 H]. rewrite decide_False in H by (intros [_ ?]; lia). destruct H as (Hup1 & Eout1 & Ebuf1).
  rewrite (app_assoc seen c). apply IH; [done|done|by rewrite Ebuf1|done|by rewrite Ebs, <- !app_assoc|by rewrite Eapp|]. rewrite Eout1, Eout, Eapp. cbn [fst]. by rewrite fmap_app, app_assoc.
Qed.

(** C8: a peer sends packets of at most 8800 octets over a stream.  However the stream
    is cut into the pieces that arrive, a new transport hands over exactly these
    packets in order, stays up, and has an empty buffer at the end. *)
Theorem stream_delivery isTcp p react bs cs : reacts react → (∀ b, b ∈ bs → wellFormed b ∧ len b ≤ MAX_NDN_PACKET_SIZE) → concat cs = concat bs → fitting [] cs →
  wp (forM cs (λ c, streamStep (Received c react))) (λ _ s', tr_state (base s') = TS_UP ∧ st_receiveBuffer s' = [] ∧
    tr_output (base s') = (λ e, PacketReceived e 0) <$> bs) (constructed isTcp p).
Proof.
  intros Hr Hbs Ec Hfit. destruct (constructed_inv isTcp p) as (HI & Eo & Eb & Hup). eapply wp_mono; [apply (feed_spec react bs cs [] _ [] []); auto|].
  - by rewrite Eb.
  - cbn. by rewrite app_nil_r.
  - intros [] s' (_ & H1 & H2 & H3). cbn [app] in H2, H3. rewrite Ec in H2, H3. pose proof (elements_packets bs [] ltac:(intros b Hb; by apply Hbs)) as E. rewrite app_nil_r, elements_nil in E. cbn [fst snd] in E. rewrite app_nil_r in E.
    rewrite E in H2, H3. done.
Qed.

(** The waiting time before the next attempt to reconnect doubles with each
    timeout, from one second up to five minutes. *)
Definition waits (k : nat) : Z := Z.min (initialReconnectWait * 2 ^ Z.of_nat k) maxReconnectWait.

Lemma timeout_wait s k : st_nextReconnectWait s = waits k → wp (streamStep ReconnectTimeout) (λ _ s', st_nextReconnectWait s' = waits (S k)) s.
Proof.
  intros Hw. cbn [streamStep]. unfold handleReconnectTimeout, socket_close, post. repeat wp_step. st_simpl. rewrite Hw. unfold waits, initialReconnectWait, maxReconnectWait, reconnectWaitMultiplier.
  assert (0 < 2 ^ Z.of_nat k) by (apply Z.pow_pos_nonneg; lia). rewrite fscale_double; [|done|unfold float_prec; change (2 ^ 24) with 16777216; lia]. rewrite Nat2Z.inj_succ, Z.pow_succ_r by lia. lia.
Qed.

(** ** Operations that complete although they have been cancelled *)

Definition notUp s : Prop := tr_state (base s) ≠ TS_UP.

Lemma notUp_setState st : st ≠ TS_UP → preserves notUp (setState st).
Proof.
  intros Hst. unfold setState, getState. apply preserves_bind; [apply preserves_gets|]. intros st'. destruct (decide _); [apply preserves_ret|].
  apply preserves_bind; [apply preserves_assertM|]. intros _. apply preserves_modify. by intros s _.
Qed.

Lemma notUp_doClose : preserves notUp doClose.
Proof.
  unfold doClose, Stream_doClose. apply preserves_bind; [apply preserves_get|]. intros s. apply preserves_bind; [destruct (st_isTcp s); [by apply preserves_modify|apply preserves_ret]|].
  intros _. apply preserves_bind; [apply preserves_get|]. intros s1. apply preserves_bind; [destruct (st_socketOpen s1); [by apply preserves_modify|apply preserves_ret]|].
  intros _. by apply preserves_modify.
Qed.

(** A transport that has been told to close is not up. *)
Lemma notUp_close s s' : Transport_close doClose s = Some (s', tt) → notUp s'.
Proof.
  unfold Transport_close, getState, gets, mbind at 1, M_bind. destruct (decide _) as [Hst|Hst].
  - unfold mbind, M_bind. destruct (setState TS_CLOSING s) as [[s1 []]|] eqn:E; [|done]. intros Hd. eapply notUp_doClose; [|exact Hd].
    revert E. unfold setState, getState, gets, mbind, M_bind. destruct (decide _) as [Ec|_]; [intros [= <-]; unfold notUp; by rewrite Ec|].
    unfold assertM, modifyBase, modify. destruct (isValidTransition _ _); [|done]. by intros [= <-].
  - intros [= <-]. unfold notUp. naive_solver.
Qed.

Lemma notUp_upCall c : preserves notUp (runUpCall c).
Proof.
  destruct c as [p|]; cbn [runUpCall]; [|intros s s' [] _; apply notUp_close].
  intros s s' [] Hs. unfold Transport_send, gets, mbind, M_bind. unfold assertM at 1. destruct (fitsMtu _ _); [|done].
  destruct (decide _); [|by intros [= <-]]. rewrite decide_False by done. cbn. unfold doSend, getState, gets, mbind, M_bind. rewrite decide_False by done. by intros [= <-].
Qed.

Lemma upCalls_close l s s' : CallClose ∈ l → forM l runUpCall s = Some (s', tt) → notUp s'.
Proof.
  revert s. induction l as [|c l IH]; intros s; [by intros ?%elem_of_nil|]. cbn [forM]. unfold mbind, M_bind. intros Hin.
  destruct (runUpCall c s) as [[s1 []]|] eqn:Ec; [|done]. intros Hl. apply elem_of_cons in Hin as [<-|Hin]; [|by eapply IH].
  apply notUp_close in Ec. revert Ec Hl. apply preserves_forM, notUp_upCall.
Qed.

(** The loop of [handleReceive] leaves a transport that is not up, or is closed by the
    link service on the way, not up. *)
Lemma receiveLoop_notUp fuel react view offset s s' r :
  receiveLoop fuel react view offset s = Some (s', r) →
  (notUp s ∨ ∃ e, e ∈ (elements (drop offset view)).1 ∧ CallClose ∈ react e) → notUp s'.
Proof.
  revert offset s. induction fuel as [|fuel IH]; intros offset s; cbn [receiveLoop]; [done|].
  destruct (Nat.ltb_spec offset (length view)) as [Hlt|Hge].
  2:{ rewrite drop_ge, elements_nil by done. intros [= <- _] [H|(e & ?%elem_of_nil & _)]; done. }
  destruct (fromBuffer (drop offset view)) as [n|] eqn:E.
  2:{ rewrite elements_stuck by done. intros [= <- _] [H|(e & ?%elem_of_nil & _)]; done. }
  rewrite (elements_step _ n E), drop_drop. cbn [fst]. unfold mbind, M_bind. unfold assertM at 1. destruct (_ <=? _)%nat; [|done].
  unfold Transport_receive, gets, mbind, M_bind. unfold assertM at 1. destruct (fitsMtu _ _); [|done]. unfold modifyBase, modify.
  destruct (forM _ _ _) as [[s1 []]|] eqn:Ef; [|done]. intros Hl Hor. apply (IH _ _ Hl). destruct Hor as [Hs|(e & [->|He]%elem_of_cons & Hc)].
  - left. revert Ef. apply preserves_forM; [apply notUp_upCall|exact Hs].
  - left. by eapply upCalls_close.
  - right. exists e. done.
Qed.

Lemma receiveLoop_offset fuel react view offset s s' r : receiveLoop fuel react view offset s = Some (s', r) → (offset ≤ r.1)%nat.
Proof.
  revert offset s. induction fuel as [|fuel IH]; intros offset s; cbn [receiveLoop]; [done|]. destruct (offset <? length view)%nat; [|by intros [= _ <-]].
  destruct (fromBuffer _) as [n|]; [|by intros [= _ <-]]. unfold mbind, M_bind. destruct (assertM _ s) as [[s1 []]|]; [|done].
  destruct (Transport_receive _ _ _ s1) as [[s2 []]|]; [|done]. intros H%IH. lia.
Qed.

Lemma startReceive_fails s : notUp s → startReceive s = None.
Proof. intros Hs. unfold startReceive, getState, gets, mbind, M_bind, assertM. by rewrite bool_decide_eq_false_2. Qed.

(** C26: what a stream transport does not survive, in every state.  A piece of the stream
    that completes its receive operation while the transport is not up (closed by the
    link service, or down, before the completion was handled) makes
    [startReceive] fail its assertion, whatever the link service does, if the piece does
    not fill the buffer.  So does a link service that closes the transport while it is
    given one of the packets of a piece.  And a connection that is established when the
    reconnect timer has just run is used although that timer has closed the socket. *)
Theorem stream_transport_defects s :
  (∀ react data, notUp s → len (st_receiveBuffer s ++ data) ≠ MAX_NDN_PACKET_SIZE → handleReceive react None data s = None) ∧
  (∀ react data e, e ∈ (elements (st_receiveBuffer s ++ data)).1 → CallClose ∈ react e → handleReceive react None data s = None) ∧
  (isClosing (tr_state (base s)) = false → ∃ s', streamStep ReconnectTimeout s = Some (s', tt) ∧ handleReconnect None s' = None).
Proof.
  split; [|split].
  - intros react data Hs Hlen. unfold handleReceive, get_st, modify, mbind, M_bind. destruct (receiveLoop _ _ _ _ _) as [[s1 [offset isOk]]|] eqn:El; [|done].
    apply receiveLoop_notUp in El; [|by left]. destruct (Z.eqb_spec (len (st_receiveBuffer s ++ data)) MAX_NDN_PACKET_SIZE); [done|]. rewrite andb_false_r. cbn [andb].
    by apply startReceive_fails.
  - intros react data e He Hc. unfold handleReceive, get_st, modify, mbind, M_bind. destruct (receiveLoop _ _ _ _ _) as [[s1 [offset isOk]]|] eqn:El; [|done].
    pose proof (receiveLoop_notUp _ _ _ _ _ _ _ El ltac:(right; rewrite drop_0; eauto)) as H1.
    assert (offset ≠ 0)%nat as H2.
    { set (view := st_receiveBuffer s ++ data) in *. destruct (fromBuffer view) as [n|] eqn:En; [|rewrite elements_stuck in He by done; by apply elem_of_nil in He].
      pose proof (block_bounds _ _ En) as Hn. cbn [receiveLoop] in El. rewrite drop_0, En, (proj2 (Nat.ltb_lt 0 (length view))) in El by lia. unfold mbind, M_bind in El.
      destruct (assertM _ _) as [[s2 []]|]; [|done]. destruct (Transport_receive _ _ _ _) as [[s3 []]|]; [|done]. apply receiveLoop_offset in El. cbn in El. lia. }
    rewrite (proj2 (Nat.eqb_neq _ _) H2), andb_false_r. by apply startReceive_fails.
  - intros Hc. eexists. split; [reflexivity|]. unfold handleReconnect, get_st, mbind, M_bind. cbn in *. by rewrite Hc.
Qed.
End Streams.

Module TransportExamples.

Definition answer : list Z → list UpCall := λ _, [CallSend [6; 0]].

Lemma answer_reacts : reacts answer.
Proof. intros e c ->%list_elem_of_singleton. eauto. Qed.

(** A TCP transport receives one and a half packets and answers, loses its connection
    while writing, times out once, reconnects, and is closed. *)
Definition exRun : list StreamEvent :=
  [Received [5; 1; 7; 5; 2] answer; SendPacket [6; 1; 1]; WriteDone; ReceiveFailed eof; AbortedDone (WriteOp [6; 1; 1]); PostedRuns;
   ReconnectTimeout; AbortedDone ConnectOp; PostedRuns; Connected; Received [5; 0] answer; SetPersistency FACE_PERSISTENCY_PERSISTENT;
   ClosePlease; AbortedDone (ReceiveOp 8800); PostedRuns].

Ltac next_state := match goal with |- match ?x with Some _ => _ | None => _ end => let r := eval vm_compute in x in change x with r; cbv iota beta end.

Ltac event_ok :=
  cbn [streamAdmissible];
  lazymatch goal with
  | |- True => exact I
  | |- (∃ room, _ ∧ 0 < _ ≤ _) ∧ reacts _ => split; [eexists; split; [vm_compute; repeat constructor|vm_compute; done]|apply answer_reacts]
  | |- (∃ _, _) ∧ _ => split; [eexists; vm_compute; repeat constructor|auto]
  | |- ∃ _, _ => eexists; vm_compute; repeat constructor
  | |- is_Some _ => vm_compute; eauto
  | |- _ => first [vm_compute; reflexivity | discriminate | vm_compute; repeat constructor]
  end.

Lemma stream_transport_safe_witness : wp (forM exRun streamStep) (λ _ s', StreamInv s') (constructed true FACE_PERSISTENCY_PERMANENT).
Proof.
  apply (stream_transport_safe true FACE_PERSISTENCY_PERMANENT exRun). cbn [streamRun exRun].
  repeat (split; [event_ok|next_state]). exact I.
Defined.

Lemma stream_delivery_witness :
  wp (forM [[5; 1]; [7; 5; 0; 5]; [2; 1]; [2]] (λ c, streamStep (Received c answer))) (λ _ s', tr_state (base s') = TS_UP ∧ st_receiveBuffer s' = [] ∧
    tr_output (base s') = (λ e, PacketReceived e 0) <$> [[5; 1; 7]; [5; 0]; [5; 2; 1; 2]]) (constructed false FACE_PERSISTENCY_ON_DEMAND).
Proof.
  apply (stream_delivery false FACE_PERSISTENCY_ON_DEMAND answer [[5; 1; 7]; [5; 0]; [5; 2; 1; 2]]); [apply answer_reacts| |done|].
  - intros b. rewrite !elem_of_cons, elem_of_nil. intros [->|[->|[->|[]]]]; done.
  - vm_compute. split_and!; done.
Defined.

(** The state after some events. *)
Definition after (isTcp : bool) (p : FacePersistency) (es : list StreamEvent) : option StreamTransport :=
  fst <$> forM es streamStep (constructed isTcp p).

(** A transport that has been closed, one that has lost its connection, and one that
    waits for a connection. *)
Definition exClosed : StreamTransport := default (unconstructed false) (after false FACE_PERSISTENCY_ON_DEMAND [ClosePlease]).
Definition exDown : StreamTransport := default (unconstructed true) (after true FACE_PERSISTENCY_PERMANENT [SendPacket [5; 0]; WriteFailed other_error]).
Definition exWaiting : StreamTransport := default (unconstructed true) (after true FACE_PERSISTENCY_PERMANENT [ReceiveFailed eof; PostedRuns]).

Lemma stream_transport_defects_witness :
  handleReceive answer None [5; 0] exClosed = None ∧ handleReceive answer None [5; 0] exDown = None ∧
  handleReceive (λ _, [CallClose]) None [5; 0] (constructed false FACE_PERSISTENCY_ON_DEMAND) = None ∧
  ∃ s, streamStep ReconnectTimeout exWaiting = Some (s, tt) ∧ handleReconnect None s = None.
Proof.
  split; [apply (proj1 (stream_transport_defects exClosed)); vm_compute; discriminate|].
  split; [apply (proj1 (stream_transport_defects exDown)); vm_compute; discriminate|].
  split; [|apply (proj2 (proj2 (stream_transport_defects exWaiting))); vm_compute; reflexivity].
  apply (proj1 (proj2 (stream_transport_defects (constructed false FACE_PERSISTENCY_ON_DEMAND))) (λ _, [CallClose]) [5; 0] [5; 0]); vm_compute; constructor.
Defined.
End TransportExamples.
