(* ===== verification/Topsis.v ===== *)
(** * TOPSIS ranking

    [src/daemon/fw/topsis.cpp]: the steps of the TOPSIS method, which ranks alternatives
    (rows) by several measures (columns).  [float] and [double] are the IEEE formats with
    rounding to nearest; an operation on two floats is rounded to a float before it is
    widened.  A matrix is a list of rows.  [None] is an access outside an array: the
    results have room for 255 or 256 rows and columns.  Counts are never negative. *)

From Stdlib Require Import ZArith Lia Ascii Floats.SpecFloat.
From stdpp Require Import base option list strings.

Local Open Scope Z_scope.

(** ** Machine arithmetic *)

Definition float := spec_float.
Definition double := spec_float.

Definition round (prec emax : Z) (x : spec_float) : spec_float :=
  match x with
  | S754_finite s m e => binary_normalize prec emax (cond_Zopp s (Zpos m)) e s
  | _ => x
  end.
Definition toFloat : double → float := round 24 128.
Definition toDouble : float → double := round 53 1024.

Definition fmul : float → float → float := SFmul 24 128.
Definition fadd : float → float → float := SFadd 24 128.
Definition fsub : float → float → float := SFsub 24 128.
Definition fdiv : float → float → float := SFdiv 24 128.
Definition dmul : double → double → double := SFmul 53 1024.
Definition dadd : double → double → double := SFadd 53 1024.
Definition dsqrt : double → double := SFsqrt 53 1024.
Definition zero : spec_float := S754_zero false.

(** [fmax] and [fmin] give the other argument when one is not a number. *)
Definition fmax (x y : float) : float :=
  match SFcompare x y with Some Lt => y | Some _ => x | None => match x with S754_nan => y | _ => x end end.
Definition fmin (x y : float) : float :=
  match SFcompare x y with Some Gt => y | Some _ => x | None => match x with S754_nan => y | _ => x end end.

(** ** The steps *)

Definition matrix := list (list float).

Definition cell (m : matrix) (i j : nat) : option float := m !! i ≫= λ r, r !! j.

(** A loop that fills a new array with room for [room] elements. *)
Definition fill {A} (room n : nat) (f : nat → option A) : option (list A) :=
  mapM (λ i, if (i <? room)%nat then f i else None) (seq 0 n).

Definition normalization (array : matrix) (rows col : nat) : option matrix :=
  fill 255 rows (λ i, fill 255 col (λ j,
    column ← mapM (λ c, cell array c j) (seq 0 rows);
    let jazrSigma := foldl (λ sum x, dadd sum (toDouble (fmul x x))) zero column in
    x ← cell array i j;
    Some (fdiv x (toFloat (dsqrt jazrSigma))))).

Definition weightMatrix (weightArr : list float) (col : nat) : option matrix :=
  fill 255 col (λ i, fill 255 col (λ j, if (i =? j)%nat then weightArr !! j else Some zero)).

Definition multiplexToWeight (norm : matrix) (row1 col1 : nat) (weightMatx : matrix) (row2 col2 : nat) : option matrix :=
  fill 256 row1 (λ i, fill 255 col2 (λ j,
    products ← mapM (λ k, x ← cell norm i k; y ← cell weightMatx k j; Some (fmul x y)) (seq 0 col1);
    Some (foldl fadd zero products))).

Definition extremum (f : float → float → float) (m : matrix) (row j : nat) : option float :=
  first ← cell m 0 j;
  column ← mapM (λ i, cell m i j) (seq 0 row);
  Some (foldl (λ best x, f x best) first column).

Definition idealPositive (multiWeightMatrix : matrix) (row col : nat) (type : list ascii) : option (list float) :=
  fill 256 col (λ j, t ← type !! j;
    if Ascii.eqb t "+" then extremum fmax multiWeightMatrix row j else extremum fmin multiWeightMatrix row j).

Definition idealNegative (multiWeightMatrix : matrix) (row col : nat) (type : list ascii) : option (list float) :=
  fill 256 col (λ j, t ← type !! j;
    if Ascii.eqb t "-" then extremum fmax multiWeightMatrix row j else extremum fmin multiWeightMatrix row j).

Definition distance (m : matrix) (col : nat) (ideal : list float) (i : nat) : option float :=
  terms ← mapM (λ j, x ← cell m i j; y ← ideal !! j; let d := SFabs (toDouble (fsub x y)) in Some (dmul d d)) (seq 0 col);
  Some (toFloat (dsqrt (foldl dadd zero terms))).

Definition distanceFromPositive (multiWeightMatrix : matrix) (row col : nat) (idealPos : list float) : option (list float) :=
  fill 256 row (distance multiWeightMatrix col idealPos).

Definition distanceFromNegative (multiWeightMatrix : matrix) (row col : nat) (idealNeg : list float) : option (list float) :=
  fill 256 row (distance multiWeightMatrix col idealNeg).

Definition finalRank (disNeg disPos : list float) (count : nat) : option (list float) :=
  fill 256 count (λ i, n ← disNeg !! i;
    if SFeqb n zero then Some zero else p ← disPos !! i; Some (fdiv n (fadd n p))).

(** ** Order *)

Definition isNumber (x : float) : Prop := x ≠ S754_nan.
Definition le (x y : float) : Prop := SFcompare x y = Some Lt ∨ SFcompare x y = Some Eq.

(** A finite number by sign, exponent and mantissa, whose order is that of floats. *)
Definition key (x : float) : Z * Z * Z :=
  match x with
  | S754_infinity true => (-2, 0, 0)
  | S754_finite true m e => (-1, - e, - Zpos m)
  | S754_zero _ => (0, 0, 0)
  | S754_finite false m e => (1, e, Zpos m)
  | S754_infinity false => (2, 0, 0)
  | S754_nan => (3, 0, 0)
  end.
Definition keyLe (a b : Z * Z * Z) : Prop :=
  a.1.1 < b.1.1 ∨ a.1.1 = b.1.1 ∧ (a.1.2 < b.1.2 ∨ a.1.2 = b.1.2 ∧ a.2 ≤ b.2).

Lemma le_key x y : isNumber x → isNumber y → le x y ↔ keyLe (key x) (key y).
Proof.
  unfold isNumber, le, keyLe. destruct x as [[]|[]| |[] m e], y as [[]|[]| |[] m' e']; intros Hx Hy; try done; cbn;
    try (change (PosDef.Pos.compare_cont Eq m m') with (Pos.compare m m'); destruct (Z.compare_spec e e'), (Pos.compare_spec m m'); cbn);
    (split; [intros [|]; (done || lia)|]; intros; first [by left | by right | lia]).
Qed.

Lemma le_refl x : isNumber x → le x x.
Proof. intros Hx. apply le_key; [done..|]. unfold keyLe. lia. Qed.

Lemma le_trans x y z : isNumber x → isNumber y → isNumber z → le x y → le y z → le x z.
Proof. intros Hx Hy Hz. rewrite !le_key by done. unfold keyLe. lia. Qed.

Lemma le_total x y : isNumber x → isNumber y → le x y ∨ le y x.
Proof. intros Hx Hy. rewrite !le_key by done. unfold keyLe. lia. Qed.

Lemma le_eq x y : isNumber x → isNumber y → SFcompare x y = Some Eq → le y x.
Proof.
  intros Hx Hy E. apply le_key; [done..|]. unfold isNumber, keyLe in *. destruct x as [[]|[]| |[] m e], y as [[]|[]| |[] m' e']; try done; cbn in *; try lia;
    change (PosDef.Pos.compare_cont Eq m m') with (Pos.compare m m') in E; destruct (Z.compare_spec e e'), (Pos.compare_spec m m'); (done || lia).
Qed.

Lemma fmax_spec x y : isNumber x → isNumber y → le x (fmax x y) ∧ le y (fmax x y) ∧ (fmax x y = x ∨ fmax x y = y).
Proof.
  intros Hx Hy. pose proof (le_total x y Hx Hy) as Ht. pose proof (le_refl x Hx). pose proof (le_refl y Hy). unfold fmax.
  destruct (SFcompare x y) as [[]|] eqn:E; [by auto using le_eq|by unfold le; rewrite E; auto| |by destruct x, y].
  split_and!; [done| |by left]. destruct Ht as [[|]|]; congruence.
Qed.

Lemma fmin_spec x y : isNumber x → isNumber y → le (fmin x y) x ∧ le (fmin x y) y ∧ (fmin x y = x ∨ fmin x y = y).
Proof.
  intros Hx Hy. pose proof (le_total x y Hx Hy) as Ht. pose proof (le_refl x Hx). pose proof (le_refl y Hy). unfold fmin.
  destruct (SFcompare x y) as [[]|] eqn:E; [by unfold le; rewrite E; auto..| |by destruct x, y].
  split_and!; [|done|by right]. destruct Ht as [[|]|]; congruence.
Qed.

(** ** Correctness *)

(** A matrix with at least these rows and columns, all numbers. *)
Definition shape (m : matrix) (row col : nat) : Prop := ∀ i j, (i < row)%nat → (j < col)%nat → ∃ x, cell m i j = Some x ∧ isNumber x.

Lemma mapM_seq {A} (f : nat → option A) n : (∀ i, (i < n)%nat → is_Some (f i)) → ∃ l, mapM f (seq 0 n) = Some l ∧ length l = n ∧ ∀ i, (i < n)%nat → l !! i = f i.
Proof.
  intros Hf. destruct (mapM f (seq 0 n)) as [l|] eqn:E.
  - exists l. pose proof E as E2. apply mapM_Some in E2. pose proof (Forall2_length _ _ _ E2) as El. rewrite length_seq in El. split_and!; [done|done|].
    intros i Hi. destruct (Forall2_lookup_l _ _ _ i i E2) as (x & -> & ->); [by apply lookup_seq|done].
  - apply mapM_None in E. apply Exists_exists in E as (i & Hi & E). apply elem_of_seq in Hi. destruct (Hf i ltac:(lia)). congruence.
Qed.

Lemma fill_spec {A} room n (f : nat → option A) : (n ≤ room)%nat → (∀ i, (i < n)%nat → is_Some (f i)) → ∃ l, fill room n f = Some l ∧ length l = n ∧ ∀ i, (i < n)%nat → l !! i = f i.
Proof.
  intros Hn Hf. destruct (mapM_seq (λ i, if (i <? room)%nat then f i else None) n) as (l & E & El & Hl); [intros i Hi; rewrite (proj2 (Nat.ltb_lt _ _)) by lia; auto|].
  exists l. split_and!; [done|done|]. intros i Hi. rewrite Hl, (proj2 (Nat.ltb_lt _ _)) by lia. done.
Qed.

(** Every extremum is attained and bounds its column. *)
Lemma fold_extremum (f : float → float → float) (better : float → float → Prop) :
  (∀ x, isNumber x → better x x) → (∀ x y z, isNumber x → isNumber y → isNumber z → better x y → better y z → better x z) →
  (∀ x y, isNumber x → isNumber y → better x (f x y) ∧ better y (f x y) ∧ (f x y = x ∨ f x y = y)) →
  ∀ l b, isNumber b → Forall isNumber l →
  let r := foldl (λ best x, f x best) b l in isNumber r ∧ better b r ∧ (∀ x, x ∈ l → better x r) ∧ (r = b ∨ r ∈ l).
Proof.
  intros Hrefl Htrans Hf l. induction l as [|x l IH]; intros b Hb Hl; cbn; [split_and!; auto; by intros x ?%elem_of_nil|].
  apply Forall_cons in Hl as [Hx Hl]. destruct (Hf x b Hx Hb) as (H1 & H2 & H3). assert (isNumber (f x b)) as Hn by (destruct H3 as [-> | ->]; done).
  destruct (IH (f x b) Hn Hl) as (R1 & R2 & R3 & R4). split_and!; [done|by eapply (Htrans _ (f x b))| |].
  - intros y [->|Hy]%elem_of_cons; [by eapply (Htrans _ (f x b))|by apply R3].
  - rewrite elem_of_cons. destruct R4 as [->|?]; [|auto]. destruct H3; auto.
Qed.

Lemma extremum_spec f better m row col j :
  (∀ x, isNumber x → better x x) → (∀ x y z, isNumber x → isNumber y → isNumber z → better x y → better y z → better x z) →
  (∀ x y, isNumber x → isNumber y → better x (f x y) ∧ better y (f x y) ∧ (f x y = x ∨ f x y = y)) →
  shape m row col → (0 < row)%nat → (j < col)%nat →
  ∃ r, extremum f m row j = Some r ∧ isNumber r ∧ (∃ i, (i < row)%nat ∧ cell m i j = Some r) ∧ ∀ i x, (i < row)%nat → cell m i j = Some x → better x r.
Proof.
  intros H1 H2 H3 Hm Hr Hj. unfold extremum. destruct (Hm 0%nat j Hr Hj) as (b & Eb & Hb). rewrite Eb. cbn [mbind option_bind].
  destruct (mapM_seq (λ i, cell m i j) row) as (l & -> & El & Hl); [intros i Hi; destruct (Hm i j Hi Hj) as (x & -> & _); eauto|]. cbn [option_bind].
  assert (Forall isNumber l) as Hn.
  { apply Forall_lookup. intros i x E. pose proof (lookup_lt_Some _ _ _ E). rewrite Hl in E by lia. destruct (Hm i j ltac:(lia) Hj) as (y & Ey & Hy). cbn in E. congruence. }
  destruct (fold_extremum f better H1 H2 H3 l b Hb Hn) as (R1 & R2 & R3 & R4). eexists. split; [done|]. split; [done|]. split.
  - destruct R4 as [->|(i & Ei)%list_elem_of_lookup]; [by exists 0%nat|]. pose proof (lookup_lt_Some _ _ _ Ei). exists i. split; [lia|]. rewrite <- Ei. symmetry. apply Hl. lia.
  - intros i x Hi Ex. apply R3. apply (list_elem_of_lookup_2 _ i). by rewrite Hl.
Qed.

Lemma maximum_spec m row col j : shape m row col → (0 < row)%nat → (j < col)%nat →
  ∃ r, extremum fmax m row j = Some r ∧ isNumber r ∧ (∃ i, (i < row)%nat ∧ cell m i j = Some r) ∧ ∀ i x, (i < row)%nat → cell m i j = Some x → le x r.
Proof. apply (extremum_spec fmax le); auto using le_refl, fmax_spec. apply le_trans. Qed.

Lemma minimum_spec m row col j : shape m row col → (0 < row)%nat → (j < col)%nat →
  ∃ r, extremum fmin m row j = Some r ∧ isNumber r ∧ (∃ i, (i < row)%nat ∧ cell m i j = Some r) ∧ ∀ i x, (i < row)%nat → cell m i j = Some x → le r x.
Proof. apply (extremum_spec fmin (λ x y, le y x)); auto using le_refl, fmin_spec. intros x y z Hx Hy Hz H1 H2. by apply (le_trans z y x). Qed.

(** The positive ideal is, for each measure, the best value that an alternative has:
    the greatest where more is better, the least where less is. *)
Theorem idealPositive_best m row col type : shape m row col → (0 < row)%nat → (col ≤ 256)%nat → (col ≤ length type)%nat →
  ∃ ideal, idealPositive m row col type = Some ideal ∧ length ideal = col ∧
    ∀ j, (j < col)%nat → ∃ r, ideal !! j = Some r ∧ (∃ i, (i < row)%nat ∧ cell m i j = Some r) ∧
      ∀ i x, (i < row)%nat → cell m i j = Some x → if decide (type !! j = Some "+"%char) then le x r else le r x.
Proof.
  intros Hm Hr Hc Ht.
  assert (∀ j, (j < col)%nat → ∃ r, (t ← type !! j; if Ascii.eqb t "+" then extremum fmax m row j else extremum fmin m row j) = Some r ∧ (∃ i, (i < row)%nat ∧ cell m i j = Some r) ∧
      ∀ i x, (i < row)%nat → cell m i j = Some x → if decide (type !! j = Some "+"%char) then le x r else le r x) as H.
  { intros j Hj. destruct (lookup_lt_is_Some_2 type j) as [t Et]; [lia|]. rewrite Et. cbn [mbind option_bind]. destruct (Ascii.eqb_spec t "+") as [->|Hne].
    - destruct (maximum_spec m row col j) as (r & ? & _ & ? & Hb); [done..|]. exists r. split_and!; [done..|]. intros i x Hi Ex. rewrite decide_True by done. by apply (Hb i).
    - destruct (minimum_spec m row col j) as (r & ? & _ & ? & Hb); [done..|]. exists r. split_and!; [done..|]. intros i x Hi Ex. rewrite decide_False by congruence. by apply (Hb i). }
  destruct (fill_spec 256 col (λ j, t ← type !! j; if Ascii.eqb t "+" then extremum fmax m row j else extremum fmin m row j)) as (l & E & El & Hl); [done|intros j Hj; destruct (H j Hj) as (r & -> & _); eauto|].
  exists l. split_and!; [done|done|]. intros j Hj. destruct (H j Hj) as (r & Er & Hr2). exists r. split; [|done]. rewrite <- Er. by apply Hl.
Qed.

(** What is to be avoided is the ideal of the opposite aims. *)
Definition opposite (t : ascii) : ascii := if Ascii.eqb t "+" then "-"%char else if Ascii.eqb t "-" then "+"%char else t.

Theorem idealNegative_dual m row col type : idealNegative m row col type = idealPositive m row col (opposite <$> type).
Proof.
  unfold idealNegative, idealPositive, fill. apply mapM_ext. intros j. destruct (_ <? _)%nat; [|done]. rewrite list_lookup_fmap. destruct (type !! j) as [t|]; [|done]. cbn.
  unfold opposite. destruct (Ascii.eqb_spec t "+") as [->|]; [done|]. destruct (Ascii.eqb_spec t "-") as [->|]; [done|]. by rewrite (proj2 (Ascii.eqb_neq t "+")).
Qed.

(** A measure that is zero for every alternative makes all normalized values of it
    not-a-number, and a distance with such a value has no rank. *)
Theorem zero_column_has_no_rank :
  normalization [[zero]; [zero]] 2 1 = Some [[S754_nan]; [S754_nan]] ∧
  (d ← distanceFromNegative [[S754_nan]; [S754_nan]] 2 1 [zero]; finalRank d d 2) = Some [S754_nan; S754_nan].
Proof. split; vm_compute; reflexivity. Qed.
