(* ===== verification/WsBase64.v ===== *)
(** * Base64

    [src/websocketpp/websocketpp/base64/base64.hpp].  Characters and octets are their
    codes.  The entries of [char_array_3] and [char_array_4] that have been filled are a
    list, whose length is the index [i] of the source. *)

From Stdlib Require Import ZArith Lia Ascii String.
From stdpp Require Import base option list.
From S2P Require Import Prelude.

Local Open Scope Z_scope.

Definition base64_chars : list Z :=
  (λ c, Z.of_N (N_of_ascii c)) <$> list_ascii_of_string "ABCDEFGHIJKLMNOPQRSTUVWXYZabcdefghijklmnopqrstuvwxyz0123456789+/".

Definition is_base64 (c : Z) : bool :=
  (c =? 43) || ((47 <=? c) && (c <=? 57)) || ((65 <=? c) && (c <=? 90)) || ((97 <=? c) && (c <=? 122)).

Definition uchar (n : Z) : Z := n mod 256.

(** The four indices of three octets. *)
Definition quads (a b c : Z) : list Z :=
  [uchar (Z.shiftr (Z.land a 252) 2);
   uchar (Z.shiftl (Z.land a 3) 4 + Z.shiftr (Z.land b 240) 4);
   uchar (Z.shiftl (Z.land b 15) 2 + Z.shiftr (Z.land c 192) 6);
   uchar (Z.land c 63)].

(** The three octets of four indices. *)
Definition triple (p q r s : Z) : list Z :=
  [uchar (Z.shiftl p 2 + Z.shiftr (Z.land q 48) 4);
   uchar (Z.shiftl (Z.land q 15) 4 + Z.shiftr (Z.land r 60) 2);
   uchar (Z.shiftl (Z.land r 3) 6 + s)].

Definition chars_at (i : Z) : Z := default 0 (base64_chars !! Z.to_nat i).

(** [base64_chars.find], where the position after the last is [npos]. *)
Definition find_char (c : Z) : Z :=
  match list_find (λ x, x = c) base64_chars with Some (i, _) => Z.of_nat i | None => uchar (2 ^ 64 - 1) end.

(** The loop: what has been written, and [char_array_3]. *)
Fixpoint encode_loop (input ret arr : list Z) : list Z * list Z :=
  match input with
  | [] => (ret, arr)
  | x :: input' =>
      match arr ++ [x] with
      | [a; b; c] => encode_loop input' (ret ++ (chars_at <$> quads a b c)) []
      | arr' => encode_loop input' ret arr'
      end
  end.

Definition base64_encode (input : list Z) : list Z :=
  let '(ret, arr) := encode_loop input [] [] in
  if decide (arr = []) then ret
  else
    let i := length arr in
    let arr := arr ++ replicate (3 - i) 0 in
    ret ++ (chars_at <$> take (i + 1) (quads (arr !!! 0%nat) (arr !!! 1%nat) (arr !!! 2%nat))) ++ replicate (3 - i) 61.

Fixpoint decode_loop (input ret arr : list Z) : list Z * list Z :=
  match input with
  | [] => (ret, arr)
  | x :: input' =>
      if negb (x =? 61) && is_base64 x then
        match arr ++ [x] with
        | [p; q; r; s] => decode_loop input' (ret ++ triple (find_char p) (find_char q) (find_char r) (find_char s)) []
        | arr' => decode_loop input' ret arr'
        end
      else (ret, arr)
  end.

Definition base64_decode (input : list Z) : list Z :=
  let '(ret, arr) := decode_loop input [] [] in
  if decide (arr = []) then ret
  else
    let i := length arr in
    let arr := find_char <$> (arr ++ replicate (4 - i) 0) in
    ret ++ take (i - 1) (triple (arr !!! 0%nat) (arr !!! 1%nat) (arr !!! 2%nat) (arr !!! 3%nat)).

(** ** Octets by exhaustion *)

Definition octet (x : Z) : Prop := 0 ≤ x < 256.
Definition octets : list Z := Z.of_nat <$> seq 0 256.

Lemma octets_all (f : Z → bool) : forallb f octets = true → ∀ x, octet x → f x = true.
Proof.
  intros H x Hx. rewrite forallb_forall in H. apply H. apply list_elem_of_In, list_elem_of_fmap. exists (Z.to_nat x). unfold octet in Hx. split; [lia|]. apply elem_of_seq. lia.
Qed.

Lemma octets_all2 (f : Z → Z → bool) : forallb (λ x, forallb (f x) octets) octets = true → ∀ x y, octet x → octet y → f x y = true.
Proof. intros H x y Hx Hy. apply octets_all; [|done]. by apply (octets_all (λ x, forallb (f x) octets)). Qed.

(** ** Round trip *)

(** Indices are below 64, and each is found where it was taken from. *)
Lemma chars_found i : 0 ≤ i < 64 → find_char (chars_at i) = i ∧ is_base64 (chars_at i) = true ∧ chars_at i ≠ 61.
Proof.
  intros Hi. assert ((64 <=? i) || ((find_char (chars_at i) =? i) && is_base64 (chars_at i) && negb (chars_at i =? 61)) = true) as H.
  { apply (octets_all (λ i, (64 <=? i) || ((find_char (chars_at i) =? i) && is_base64 (chars_at i) && negb (chars_at i =? 61)))); [vm_compute; reflexivity|unfold octet; lia]. }
  rewrite orb_true_iff, !andb_true_iff, negb_true_iff, Z.leb_le, Z.eqb_eq, Z.eqb_neq in H. lia || naive_solver lia.
Qed.

Definition index (q : Z) : bool := (0 <=? q) && (q <? 64).

Lemma index_bounds q : index q = true → 0 ≤ q < 64.
Proof. unfold index. rewrite andb_true_iff, Z.leb_le, Z.ltb_lt. done. Qed.

Lemma quad_bounds a b c : octet a → octet b → octet c → Forall (λ q, 0 ≤ q < 64) (quads a b c).
Proof.
  intros Ha Hb Hc. unfold quads. repeat apply Forall_cons_2; [..|apply Forall_nil_2]; apply index_bounds.
  - revert a Ha. apply (octets_all (λ a, index (uchar (Z.shiftr (Z.land a 252) 2)))). vm_compute. reflexivity.
  - revert a b Ha Hb. apply (octets_all2 (λ a b, index (uchar (Z.shiftl (Z.land a 3) 4 + Z.shiftr (Z.land b 240) 4)))). vm_compute. reflexivity.
  - revert b c Hb Hc. apply (octets_all2 (λ b c, index (uchar (Z.shiftl (Z.land b 15) 2 + Z.shiftr (Z.land c 192) 6)))). vm_compute. reflexivity.
  - revert c Hc. apply (octets_all (λ c, index (uchar (Z.land c 63)))). vm_compute. reflexivity.
Qed.

Definition triple_of (l : list Z) : list Z := match l with [p; q; r; s] => triple p q r s | _ => [] end.

(** The parts of the octets that meet in one index do not disturb each other. *)
Lemma middle_high a b : octet a → octet b → Z.land (uchar (Z.shiftl (Z.land a 3) 4 + Z.shiftr (Z.land b 240) 4)) 15 = Z.shiftr b 4.
Proof. intros Ha Hb. apply Z.eqb_eq. revert a b Ha Hb. apply (octets_all2 (λ a b, Z.land (uchar (Z.shiftl (Z.land a 3) 4 + Z.shiftr (Z.land b 240) 4)) 15 =? Z.shiftr b 4)). vm_compute. reflexivity. Qed.

Lemma middle_low b c : octet b → octet c → Z.shiftr (Z.land (uchar (Z.shiftl (Z.land b 15) 2 + Z.shiftr (Z.land c 192) 6)) 60) 2 = Z.land b 15.
Proof. intros Hb Hc. apply Z.eqb_eq. revert b c Hb Hc. apply (octets_all2 (λ b c, Z.shiftr (Z.land (uchar (Z.shiftl (Z.land b 15) 2 + Z.shiftr (Z.land c 192) 6)) 60) 2 =? Z.land b 15)). vm_compute. reflexivity. Qed.

Lemma triple_quads a b c : octet a → octet b → octet c → triple_of (quads a b c) = [a; b; c].
Proof.
  intros Ha Hb Hc. unfold quads, triple_of, triple. rewrite middle_high, middle_low by done. f_equal; [|f_equal; [|f_equal]].
  - apply Z.eqb_eq. clear -Ha Hb. revert a b Ha Hb. apply (octets_all2 (λ a b, uchar (Z.shiftl (uchar (Z.shiftr (Z.land a 252) 2)) 2 + Z.shiftr (Z.land (uchar (Z.shiftl (Z.land a 3) 4 + Z.shiftr (Z.land b 240) 4)) 48) 4) =? a)). vm_compute. reflexivity.
  - apply Z.eqb_eq. clear -Hb. revert b Hb. apply (octets_all (λ b, uchar (Z.shiftl (Z.shiftr b 4) 4 + Z.land b 15) =? b)). vm_compute. reflexivity.
  - apply Z.eqb_eq. clear -Hb Hc. revert b c Hb Hc. apply (octets_all2 (λ b c, uchar (Z.shiftl (Z.land (uchar (Z.shiftl (Z.land b 15) 2 + Z.shiftr (Z.land c 192) 6)) 3) 6 + uchar (Z.land c 63)) =? c)). vm_compute. reflexivity.
Qed.

(** What has been written does not matter to the loops. *)
Lemma encode_loop_ret input : ∀ ret arr, encode_loop input ret arr = (ret ++ (encode_loop input [] arr).1, (encode_loop input [] arr).2).
Proof.
  induction input as [|x input IH]; intros ret arr; cbn [encode_loop]; [by rewrite app_nil_r|].
  destruct (arr ++ [x]) as [|a [|b [|c [|]]]]; try apply IH. rewrite (IH (ret ++ _)), (IH ([] ++ (chars_at <$> quads a b c))). cbn [fst snd]. by rewrite app_nil_l, <- app_assoc.
Qed.

Lemma decode_loop_ret input : ∀ ret arr, decode_loop input ret arr = (ret ++ (decode_loop input [] arr).1, (decode_loop input [] arr).2).
Proof.
  induction input as [|x input IH]; intros ret arr; cbn [decode_loop]; [by rewrite app_nil_r|]. destruct (_ && _); [|by rewrite app_nil_r].
  destruct (arr ++ [x]) as [|a [|b [|c [|d [|]]]]]; try apply IH. rewrite (IH (ret ++ _)), (IH ([] ++ triple _ _ _ _)). cbn [fst snd]. by rewrite app_nil_l, <- app_assoc.
Qed.

Lemma encode_step a b c input : base64_encode (a :: b :: c :: input) = (chars_at <$> quads a b c) ++ base64_encode input.
Proof.
  unfold base64_encode. cbn [encode_loop app]. rewrite encode_loop_ret. destruct (encode_loop input [] []) as [ret arr]. cbn [fst snd]. destruct (decide (arr = [])); [done|]. by rewrite <- ?app_assoc.
Qed.

(** A character that stands for an index. *)
Definition good (c : Z) : Prop := is_base64 c = true ∧ c ≠ 61.

Lemma decode_step p q r s input : good p → good q → good r → good s →
  base64_decode (p :: q :: r :: s :: input) = triple (find_char p) (find_char q) (find_char r) (find_char s) ++ base64_decode input.
Proof.
  intros [Hp Hp'%Z.eqb_neq] [Hq Hq'%Z.eqb_neq] [Hr Hr'%Z.eqb_neq] [Hs Hs'%Z.eqb_neq]. unfold base64_decode. cbn [decode_loop app]. rewrite Hp, Hp', Hq, Hq', Hr, Hr', Hs, Hs'. cbn [negb andb app].
  rewrite decode_loop_ret. destruct (decode_loop input [] []) as [ret arr]. cbn [fst snd]. destruct (decide (arr = [])); [done|]. by rewrite <- ?app_assoc.
Qed.


(** The last group, of one or two octets, by exhaustion. *)
Definition sameList (l k : list Z) : bool := bool_decide (l = k).

Lemma round_trip_one a : octet a → base64_decode (base64_encode [a]) = [a].
Proof.
  intros Ha. apply (bool_decide_eq_true_1 _). revert a Ha. apply (octets_all (λ a, sameList (base64_decode (base64_encode [a])) [a])). vm_compute. reflexivity.
Qed.

Lemma round_trip_two a b : octet a → octet b → base64_decode (base64_encode [a; b]) = [a; b].
Proof.
  intros Ha Hb. apply (bool_decide_eq_true_1 _). revert a b Ha Hb. apply (octets_all2 (λ a b, sameList (base64_decode (base64_encode [a; b])) [a; b])). vm_compute. reflexivity.
Qed.

(** Decoding gives back the octets that were encoded, whatever their number. *)
Theorem base64_round_trip l : Forall octet l → base64_decode (base64_encode l) = l.
Proof.
  remember (length l) as n eqn:En. revert l En. induction n as [n IH] using lt_wf_ind. intros [|a [|b [|c l]]] -> Hl; rewrite ?Forall_cons in Hl; [done|by apply round_trip_one, Hl|by apply round_trip_two; apply Hl|].
  destruct Hl as (Ha & Hb & Hc & Hl). rewrite encode_step. pose proof (quad_bounds a b c Ha Hb Hc) as Hq. pose proof (triple_quads a b c Ha Hb Hc) as Ht.
  unfold quads in *. rewrite !Forall_cons in Hq. destruct Hq as (H1 & H2 & H3 & H4 & _). cbn [fmap list_fmap app].
  destruct (chars_found _ H1) as (F1 & G1), (chars_found _ H2) as (F2 & G2), (chars_found _ H3) as (F3 & G3), (chars_found _ H4) as (F4 & G4).
  rewrite decode_step by done. rewrite F1, F2, F3, F4. cbn [triple_of] in Ht. rewrite Ht, (IH (length l)); [done|cbn [length]; lia|done|done].
Qed.
